(* ===== verification/_CoqProject ===== *)
-Q . S2P
Prelude.v
Parser.v
BytesParsers.v
Combinators.v
CombinatorFacts.v
Numbers.v
CombinatorSpecs.v
TextNum.v
Bits.v
NumberSpecs.v
Grammar.v
Columnar.v
RleHybrid.v
ColumnarEncode.v
Bitmap.v
Delta.v
ByteStreams.v
Dictionary.v
LzCopy.v
Snappy.v
Lz4.v
Generation.v
Utf8.v
FastLanes.v
Nulls.v
Views.v
Dremel.v
Levels.v
Append.v
Stats.v
Defrag.v
DefragScan.v
DefragTable.v
DefragSpecs.v
Reflect.v
ReflectFacts.v
Emit.v
EmitSpecs.v
StructSpecs.v
ViewAccess.v
Segmented.v
SegmentedSpecs.v
Fsst.v
FsstEncode.v
FsstCompress.v
FsstTrain.v
FsstSpecs.v
Messages.v
Staging.v
Tagged.v
TaggedTypes.v
TaggedViews.v
TaggedEncode.v
TaggedRead.v
TaggedSpecs.v
Protobuf.v
ProtobufEncode.v
ProtobufTypes.v
ProtobufSafe.v
ProtobufMerge.v
ProtobufWrite.v
ProtobufRead.v
ProtobufSpecs.v
Members.v
Pcap.v
PcapRound.v
Walk.v
WalkSpecs.v
Protocol.v
Visitor.v
Streaming.v
PacketSafe.v
StreamingSpecs.v
DecodePass.v
StreamingRuns.v
Octets.v
Lldp.v
Someip.v
Gptp.v
