(* ===== verification/Prelude.v ===== *)
(** * nanom: a verification development

    nanom is a header-only C++ library of parser combinators over byte
    buffers, with decode and encode kernels for columnar data, parsers and
    writers for described structs, and (nanom_shark) a packet decoder built on
    them. This development models the library's own algorithms as executable
    functions and proves what they promise. Definitions keep the names of the
    source; a definition is named after the function or the loop it models.

    ** Conventions

    A w-bit unsigned integer is the [Z] it denotes, kept in range by [wrap];
    signed values are the [Z] they denote, [sint] reinterprets a bit pattern.
    [size_t] is 64 bits wide. A floating-point value is its bit pattern, or an
    element of an interface where the source computes with it (TextNum, Stats).
    Memory is a partial function from addresses to bytes (Parser and its
    clients, Reflect, Segmented) or the list of an array's elements (the
    kernels); reading or writing outside it is an explicit outcome ([None],
    [Stop UB]), so "does not fault" is a statement. Exceptions that leave a
    parser are [Stop] outcomes too. A loop that is not structural carries fuel;
    running out of it is a fault outcome as well, distinct from every result,
    and the theorems show that it never happens: fuel is the number of bytes,
    values, bits or parts the loop still has to pass, and each round passes at
    least one (the drawing loop of FSST sampling takes its fuel as an argument,
    and 2^78 is shown to be enough). Callables given by a client (predicates, maps, folders, computed
    fields, fault handlers) are Rocq functions.

    ** Parts, and where they are

    - nom.hpp. Parser: the cursor [input] with its accessors, spans, errors
      and their context chain, [result]; the contract [Good] every parser keeps
      (the rest lies in the same buffer, further on; no fault). BytesParsers:
      [tag], the [take_while] engine and its clients, [take_until]. Combinators:
      sequence, [alt], [permutation], repetition, modifiers. Numbers: fixed
      width integers, LEB128, zigzag, the guards on hostile counts, array
      views. TextNum: [dec], [hex], [double_] with both of its parsers (the
      library's floating-point [std::from_chars] is a parameter, the portable
      [from_chars_double] is modelled) over an interface for the arithmetic,
      whose instance [binary64] rounds as IEEE 754 does. Bits: the bit cursor. CombinatorFacts (contracts), CombinatorSpecs and NumberSpecs
      (what each computes), Grammar (the closure of all of them).
    - columnar.hpp, columnar_encode.hpp. Columnar: bit unpacking. RleHybrid:
      [rle_bp_decoder]. ColumnarEncode, Bitmap: bit packing, hybrid and bitmap
      encoders. Delta: DELTA_BINARY_PACKED. ByteStreams: BYTE_STREAM_SPLIT,
      [copy_bits]. Dictionary: hash table and dictionary builders. Stats:
      column statistics.
    - codec.hpp. LzCopy, Snappy, Lz4: the two block decoders with their
      overlapping copies.
    - fastlanes.hpp: FastLanes. generation.hpp: Generation (arenas, attested
      spans, fault dispatch).
    - values.hpp. Utf8, Nulls ([spread_nulls]), Levels (bitmaps and levels from
      run-length streams), Dremel (record assembly), Views (byte-array pages),
      Append (widening, gathers, offsets + data).
    - reflect.hpp. Reflect: wire field types, compile-time layout,
      [decode_field] and [assign_field], [strct], [footer], [overlay], [view].
      ViewAccess: the accessors with their null and generation checks.
      ReflectFacts: what wire bytes denote.
    - emit.hpp, sink.hpp. Emit: writing structs, computed fields, sinks.
      EmitSpecs, StructSpecs: the theorems on structs.
    - segmented.hpp. Segmented: part lists, [seg_input], windows, subranges
      and the parsers over them; SegmentedSpecs.
    - fsst.hpp, fsst_encode.hpp. Fsst: symbol tables and decoding. FsstEncode:
      the encoder's lookups, compression, serialization. FsstTrain: sampling
      and training. FsstCompress (greedy matching), FsstSpecs.
    - tagged.hpp, tagged_encode.hpp. Messages: the message model of both tagged
      wires, with its dispatch table. Staging: the writer both encoders stage
      their bytes in, and what it delivers to a sink. Tagged: the Thrift compact
      decoder and skipper with their fault slot, lists and lazy members.
      TaggedEncode: the encoder. TaggedTypes (contracts, typing), TaggedViews
      (eager and lazy decoding), TaggedRead (what is written, and reading it
      back), TaggedSpecs (other field sets, and the theorems).
    - protobuf.hpp, protobuf_encode.hpp. Protobuf: the decoder over the same
      message model. ProtobufEncode: the measuring and the writing pass.
      ProtobufTypes (what a call reads; typing, records), ProtobufSafe
      (contracts), ProtobufMerge (messages as records: runs, concatenation),
      ProtobufWrite (the encoding, its sizes, what is delivered), ProtobufRead
      (reading it back), ProtobufSpecs (unknown records, and the theorems).
    - nanom_shark/defrag.hpp. Defrag: [ReassemblyTable] and its operations.
      DefragScan (the completion scan), DefragTable (the invariant, sequences of
      calls), DefragSpecs.
    - nanom_shark/pcap.hpp. Members: reading the members of a parsed struct.
      Pcap: the block scanner and the block parsers. PcapRound: what they
      answer, and a reference writer with the way back.
    - nanom_shark/protocols.hpp. Walk: the header structs and both walks, as the
      list of calls they make on a visitor. WalkSpecs: the machine they run.
    - nanom_shark/protocol.hpp, l4_dispatch.hpp, decode_options.hpp. Protocol:
      context, triggers, tables, dispatch; a protocol's [parse] is client code.
    - nanom_shark/packet_visitor.hpp. Visitor: what each call of the walk does
      to the tables and to reassembly. PacketSafe: no fault, every span accounted
      for.
    - nanom_shark/lldp.hpp, someip.hpp, gptp.hpp and their rows. Lldp, Someip,
      Gptp: the decoders registered as protocols, what each message pushes into
      its tables, and that it is what the bytes denote; Octets: the numbers
      those specifications are written in.
    - nanom_shark/streaming.hpp, decode_pass.hpp. Streaming: the session, its
      buffer accounts, and the pass over a file. StreamingSpecs (the
      session's promises), DecodePass (the packets table, the whole file),
      StreamingRuns (instances and corner cases).

    ** What the theorems show

    - Parsing: every grammar of the closure [built] (counts are bounded by the
      largest size of the vector they fill, [map_parser] runs over spans) stays
      inside its buffer, ends, and reports progress truthfully
      ([grammar_memory_safe]); a verdict other than "incomplete" is final when
      more input arrives ([grammar_refill]); repetition, choice, permutation,
      length-prefixed bodies, LEB128, text and bit numbers compute what their
      documentation says. A decimal of at most 15 digits and a power of ten up to
      22 is read as the nearest double ([double_correctly_rounded]).
    - Columnar kernels: decoders refine the plain definition of their format,
      stay inside their memory on hostile input, and undo the encoders. The
      formats (the values an RLE stream announces, the elements of a Snappy or
      LZ4 block) are defined on the bytes, apart from the decoders; the hybrid
      decoder is held to its format while the counts its headers announce fit
      its machine words ([countable]).
    - FSST: decoding of hostile tables and values is exact and bounded; the
      compressor tokenizes greedily and loses nothing under whatever table
      training built; training ends.
    - Tagged messages: decoding any bytes yields a value of the message type or
      a located error; a lazy list or member is what eager decoding would have
      built; the staging writer delivers exactly one byte sequence, within a
      fixed buffer; it reads back, also by a type with other fields.
    - Protobuf: the same of its decoder and encoder, whose two passes agree on
      every size; what is written within the limits reads back when every enum
      value is an int32; a run of scalars is read as single records would be;
      decoding a concatenation is merging; unknown records are kept byte for
      byte. A message type with nested messages is refused outside the limits
      before a byte is written; one without is not measured.
    - Described structs: [strct] yields the members the wire bytes denote;
      [strct] and [emit] are inverse in both directions for every layout the
      compile-time check admits (all the way down, see [type_ok]); [emit] writes
      nowhere else; written checksums verify; a view reads what [strct] would,
      while its arena is untouched, and faults afterwards.
    - Segmented input: parsing over parts is parsing the stitched bytes, value
      for value and error for error; the cursor is a cursor over what remains.
    - Reassembly: no history of calls makes the table fault or break its
      invariant; an entry without a conflict and with its terminal fragment kept
      completes exactly when its fragments make up a datagram, in whatever order
      they come; age-out removes and reports exactly the overdue entries and
      frees their keys; every buffer token is released once or pinned;
      and the parts of a completed datagram parse as the datagram.
    - Captures: the scanner finds exactly the layout of the file, or says where
      it ends; what a writer of the formats wrote parses back.
    - Packets: the walk over any bytes makes the calls of a layered machine, and
      both walks agree.
    - Protocols: the rows of an LLDP payload, a SOME/IP message and a gPTP
      message are a function of its bytes, written down as such, each option and
      TLV from its own bytes; nothing outside is read, and the parts of a
      reassembled datagram make no difference. Endpoint options and Follow_Up
      information TLVs cut short by their own length are left out
      ([whole_message]); what happens to them is a corner case below.
    - Sessions: under positive timeouts ([options_ok]) no block of eight bytes or
      more makes a session fault; pin counts are the fragment spans held; every
      buffer handed over with a token that is not in use comes back once or is
      in use; the pass over a file gives one row for each accepted packet, or
      the scanner's error.

    Corner cases in which the code departs from its comments are theorems as
    well ([double_leading_zeros], [incomplete_swallowed],
    [length_count_unguarded], [packed_count_wraps], [copy_bits_count_wraps],
    [conflict_can_complete], [retire_reports_untracked],
    [evicted_at_the_timeout], [dropped_terminal_declares_length],
    [nested_layout_unchecked],
    [wrong_magic_accepted], [thrift_stream_list_rejected],
    [thrift_error_misplaced], [thrift_refusal_unplaced],
    [protobuf_enum_truncates], [protobuf_enum_unreadable],
    [protobuf_empty_number], [protobuf_measure_unplaced],
    [protobuf_error_renamed], [idb_reads_past_block], [zero_timeout_leaks],
    [shared_token_free_and_pinned], [short_block_faults],
    [mixed_trigger_never_dispatched], [short_option_reads_next],
    [info_reads_past_tlv]).

    ** Bounds

    Cursors span less than 2^60 bytes ([wf]), as any address space does, so that
    pointer differences do not wrap. Encoders take fewer values than would
    overflow a [size_t] of output bytes; each theorem names its bound. Tables of
    datagrams issue fewer than 2^32 ids. A packet hands at most 64 fragments to
    reassembly (the bound on IPv6 extension headers), so a session of fewer than
    2^25 packets stays below that; a decoded file is shorter than 4 GB and holds
    fewer than 2^25 blocks.

    ** Not modelled

    Text for people ([error::render], the segmented [render], fault rendering),
    the two providers of [describe<T>] (preprocessor and compile-time
    reflection, which yield the field list the model takes as its input), files,
    bindings and applications. The JSON sink of nanom_shark (rendering of the same
    rows as text), and the compile-time machinery around the models: the
    derivation of table sets from protocol types, the schema,
    structure-of-arrays and bulk headers (columns laid out by metaprogramming
    over the field list).

    This file holds what the others share: machine words, bit-level lemmas,
    lists indexed by [Z], and the automation. *)
From Stdlib Require Export ZArith Lia Bool.
From stdpp Require Export prelude strings.
From Stdlib Require Import Btauto.

Create HintDb nanom.

#[global] Open Scope Z_scope.

(** ** Machine words

    A w-bit unsigned integer is the [Z] it denotes; [wrap] is the conversion
    to a w-bit unsigned type, [sint] the reinterpretation ([std::bit_cast]) of
    a w-bit pattern as a two's-complement signed integer. *)
Definition wrap (w v : Z) : Z := v mod 2 ^ w.

Abbreviation u8 := (wrap 8).
Abbreviation u16 := (wrap 16).
Abbreviation u32 := (wrap 32).
Abbreviation u64 := (wrap 64).

Definition sint (w v : Z) : Z := if v <? 2 ^ (w - 1) then v else v - 2 ^ w.

(** [SIZE_MAX] of a 64-bit target. *)
Definition size_max : Z := 2 ^ 64 - 1.

(** Non-negative sizes, as a class so that instances can carry the premise. *)
Class NonNeg (z : Z) : Prop := nonneg : 0 <= z.
#[export] Hint Extern 5 (NonNeg _) => (red; lia) : typeclass_instances.

#[export] Instance nonneg_u64 v : NonNeg (u64 v).
Proof. red. unfold wrap. by apply Z.mod_pos_bound. Qed.

(** A byte value. *)
Definition is_byte (b : Z) : Prop := 0 <= b < 256.

(** ** Bit-level reasoning *)
Lemma testbit_shiftl a n i :
  Z.testbit (Z.shiftl a n) i = (0 <=? i) && Z.testbit a (i - n).
Proof.
  destruct (Z.leb_spec 0 i); [by rewrite Z.shiftl_spec|].
  by rewrite Z.testbit_neg_r.
Qed.

Lemma testbit_shiftr a n i :
  Z.testbit (Z.shiftr a n) i = (0 <=? i) && Z.testbit a (i + n).
Proof.
  destruct (Z.leb_spec 0 i); [by rewrite Z.shiftr_spec|].
  by rewrite Z.testbit_neg_r.
Qed.

Lemma testbit_mod_pow2 a w i :
  0 <= w -> Z.testbit (a mod 2 ^ w) i = (i <? w) && Z.testbit a i.
Proof. intros. by apply Z.testbit_mod_pow2. Qed.

Lemma testbit_wrap w v i :
  0 <= w -> Z.testbit (wrap w v) i = (i <? w) && Z.testbit v i.
Proof. apply testbit_mod_pow2. Qed.

Lemma testbit_above v w i : 0 <= v < 2 ^ w -> w <= i -> Z.testbit v i = false.
Proof.
  intros Hv Hi. destruct (decide (w < 0)) as [Hw|Hw].
  { rewrite Z.pow_neg_r in Hv by lia. lia. }
  rewrite <- (Z.mod_small v (2 ^ w)) by lia.
  apply Z.mod_pow2_bits_high. lia.
Qed.

Lemma testbit_byte_above b i : is_byte b -> 8 <= i -> Z.testbit b i = false.
Proof. intros Hb ?. apply (testbit_above b 8); [exact Hb|lia]. Qed.

Lemma wrap_range w v : 0 <= w -> 0 <= wrap w v < 2 ^ w.
Proof. intros. apply Z.mod_pos_bound. apply Z.pow_pos_nonneg; lia. Qed.

Lemma wrap_small w v : 0 <= v < 2 ^ w -> wrap w v = v.
Proof. apply Z.mod_small. Qed.

Lemma wrap_idemp w v : wrap w (wrap w v) = wrap w v.
Proof. apply Zmod_mod. Qed.

Lemma sint_wrap w v : 1 <= w -> - 2 ^ (w - 1) <= v < 2 ^ (w - 1) -> sint w (wrap w v) = v.
Proof.
  intros Hw Hv. assert (Hp2 : 2 ^ w = 2 * 2 ^ (w - 1)) by (rewrite <- Z.pow_succ_r by lia; f_equal; lia).
  unfold sint, wrap. destruct (Z.le_gt_cases 0 v).
  - rewrite Z.mod_small by lia. destruct (Z.ltb_spec v (2 ^ (w - 1))); lia.
  - assert (v mod 2 ^ w = v + 2 ^ w) as -> by (symmetry; apply (Z.mod_unique _ _ (-1)); lia).
    destruct (Z.ltb_spec (v + 2 ^ w) (2 ^ (w - 1))); lia.
Qed.

(** Bounds of the bitwise operations on w-bit values. *)
Lemma range_by_bits v w :
  0 <= w -> 0 <= v -> (forall i, w <= i -> Z.testbit v i = false) -> 0 <= v < 2 ^ w.
Proof.
  intros Hw Hv Hb. split; [done|].
  assert (v = v mod 2 ^ w) as ->.
  { apply Z.bits_inj'; intros i Hi. rewrite testbit_mod_pow2 by done.
    destruct (Z.ltb_spec i w); [done|]. by rewrite Hb. }
  apply Z.mod_pos_bound, Z.pow_pos_nonneg; lia.
Qed.

Lemma lor_range a b w :
  0 <= w -> 0 <= a < 2 ^ w -> 0 <= b < 2 ^ w -> 0 <= Z.lor a b < 2 ^ w.
Proof.
  intros Hw Ha Hb. apply range_by_bits; [done|apply Z.lor_nonneg; lia|].
  intros i Hi. rewrite Z.lor_spec, !(testbit_above _ w); done.
Qed.

Lemma land_range a b w :
  0 <= w -> 0 <= a -> 0 <= b < 2 ^ w -> 0 <= Z.land a b < 2 ^ w.
Proof.
  intros Hw Ha Hb. apply range_by_bits; [done|apply Z.land_nonneg; lia|].
  intros i Hi. by rewrite Z.land_spec, (testbit_above b w), andb_false_r.
Qed.

Lemma lxor_range a b w :
  0 <= w -> 0 <= a < 2 ^ w -> 0 <= b < 2 ^ w -> 0 <= Z.lxor a b < 2 ^ w.
Proof.
  intros Hw Ha Hb. apply range_by_bits; [done|apply Z.lxor_nonneg; lia|].
  intros i Hi. rewrite Z.lxor_spec, !(testbit_above _ w); done.
Qed.

Lemma shiftr_range a n w : 0 <= n -> 0 <= a < 2 ^ w -> 0 <= Z.shiftr a n < 2 ^ w.
Proof.
  intros Hn Ha. rewrite Z.shiftr_div_pow2 by done.
  assert (0 < 2 ^ n) by (apply Z.pow_pos_nonneg; lia).
  split; [apply Z.div_pos; lia|]. apply Z.div_lt_upper_bound; nia.
Qed.

(** A disjoint [lor] is an addition: the low [n] bits of [a] and [b] shifted
    above them. *)
Lemma lor_shiftl_add a b n :
  0 <= n -> 0 <= a < 2 ^ n -> Z.lor a (Z.shiftl b n) = a + b * 2 ^ n.
Proof.
  intros Hn Ha. rewrite <- Z.shiftl_mul_pow2 by done.
  symmetry. apply Z.add_nocarry_lor.
  apply Z.bits_inj'; intros i Hi. rewrite Z.land_spec, testbit_shiftl, Z.bits_0.
  destruct (Z.ltb_spec i n).
  - by rewrite (Z.testbit_neg_r b), andb_false_r, andb_false_r by lia.
  - by rewrite (testbit_above a n).
Qed.

(** [bitblast] proves an equation between integers bit by bit: it pushes
    [Z.testbit] through the operators and splits on the positions compared. *)
Create Rewrite HintDb testbits.
#[export] Hint Rewrite Z.lor_spec Z.land_spec Z.lxor_spec Z.ldiff_spec
  testbit_shiftl testbit_shiftr Z.bits_0 : testbits.
#[export] Hint Rewrite testbit_wrap testbit_mod_pow2 Z.testbit_ones
  Z.lnot_spec using lia : testbits.

Ltac split_bool_cmp :=
  match goal with
  | |- context [Z.leb ?a ?b] => destruct (Z.leb_spec a b)
  | |- context [Z.ltb ?a ?b] => destruct (Z.ltb_spec a b)
  | |- context [Z.eqb ?a ?b] => destruct (Z.eqb_spec a b)
  end; try lia; rewrite ?andb_false_l, ?andb_true_l, ?andb_false_r, ?andb_true_r,
    ?orb_false_l, ?orb_true_l, ?orb_false_r, ?orb_true_r,
    ?xorb_false_l, ?xorb_false_r, ?xorb_true_l, ?xorb_true_r.

Ltac bit_finish :=
  repeat match goal with
  | |- context [Z.testbit ?a ?i] => rewrite (Z.testbit_neg_r a i) by lia
  | H : 0 <= ?a < 2 ^ ?w |- context [Z.testbit ?a ?i] =>
      rewrite (testbit_above a w i H) by lia
  | H : is_byte ?a |- context [Z.testbit ?a ?i] =>
      rewrite (testbit_byte_above a i H) by lia
  end;
  rewrite ?andb_false_l, ?andb_false_r, ?orb_false_l, ?orb_false_r;
  try done; try (f_equal; lia); try (btauto).

Ltac bitblast :=
  apply Z.bits_inj'; let i := fresh "i" in let Hi := fresh "Hi" in
  intros i Hi; autorewrite with testbits; repeat split_bool_cmp; bit_finish.

(** ** Byte sequences and the integers they denote *)
Fixpoint le_val (l : list Z) : Z :=
  match l with
  | [] => 0
  | b :: t => b + 256 * le_val t
  end.

Definition be_val (l : list Z) : Z := le_val (reverse l).

Abbreviation bytes_ok := (Forall is_byte).

Lemma le_val_app l1 l2 :
  le_val (l1 ++ l2) = le_val l1 + 2 ^ (8 * Z.of_nat (length l1)) * le_val l2.
Proof.
  induction l1 as [|b l1 IH]; cbn [app le_val length]; [lia|].
  rewrite IH, Nat2Z.inj_succ.
  replace (8 * Z.succ (Z.of_nat (length l1))) with (8 + 8 * Z.of_nat (length l1)) by lia.
  rewrite Z.pow_add_r by lia. lia.
Qed.

Lemma le_val_range l :
  bytes_ok l -> 0 <= le_val l < 2 ^ (8 * Z.of_nat (length l)).
Proof.
  induction 1 as [|b l Hb _ IH]; cbn [le_val length]; [lia|].
  rewrite Nat2Z.inj_succ.
  replace (8 * Z.succ (Z.of_nat (length l))) with (8 + 8 * Z.of_nat (length l)) by lia.
  rewrite Z.pow_add_r by lia. unfold is_byte in Hb. lia.
Qed.

Lemma le_val_cons_bits b l :
  is_byte b -> le_val (b :: l) = Z.lor b (Z.shiftl (le_val l) 8).
Proof. intros Hb. rewrite lor_shiftl_add by (try exact Hb; lia). cbn; lia. Qed.

(** A fact about every byte, checked on all 256 of them. *)
Lemma byte_forall (P : Z -> bool) :
  forallb P (seqZ 0 256) = true -> forall b, is_byte b -> P b = true.
Proof.
  intros H b Hb. rewrite forallb_forall in H. apply H, list_elem_of_In, elem_of_seqZ.
  unfold is_byte in Hb. lia.
Qed.

(** The bytes of a sequence are determined by the integer it denotes. *)
Lemma le_val_inj l1 l2 :
  bytes_ok l1 -> bytes_ok l2 -> length l1 = length l2 -> le_val l1 = le_val l2 -> l1 = l2.
Proof.
  intros H1; revert l2. induction H1 as [|b l1 Hb Hl IH]; intros l2 H2 Hlen Hv.
  - by destruct l2.
  - destruct l2 as [|c l2]; [done|]. apply Forall_cons in H2 as [Hc H2].
    cbn [le_val] in Hv. unfold is_byte in *.
    assert (b = c) as -> by (Z.div_mod_to_equations; lia).
    f_equal. apply IH; [done| |lia]. cbn in Hlen; lia.
Qed.

Lemma be_val_cons b l : be_val (b :: l) = b * 2 ^ (8 * Z.of_nat (length l)) + be_val l.
Proof.
  unfold be_val. rewrite reverse_cons, le_val_app, length_reverse. cbn [le_val]. lia.
Qed.

(** The [n] little-endian bytes of [v]. *)
Fixpoint le_bytes (n : nat) (v : Z) : list Z :=
  match n with
  | O => []
  | S n => u8 v :: le_bytes n (Z.shiftr v 8)
  end.

Lemma length_le_bytes n v : length (le_bytes n v) = n.
Proof. revert v; induction n; intros; cbn; auto. Qed.

Lemma le_bytes_ok n v : bytes_ok (le_bytes n v).
Proof.
  revert v; induction n as [|n IH]; intros v; cbn; constructor; [|done].
  apply (wrap_range 8); lia.
Qed.

Lemma le_val_le_bytes n v : le_val (le_bytes n v) = wrap (8 * Z.of_nat n) v.
Proof.
  revert v; induction n as [|n IH]; intros v.
  - cbn. unfold wrap. by rewrite Z.mod_1_r.
  - cbn [le_bytes]. rewrite le_val_cons_bits by (apply (wrap_range 8); lia).
    rewrite IH, Nat2Z.inj_succ.
    replace (8 * Z.succ (Z.of_nat n)) with (8 + 8 * Z.of_nat n) by lia.
    bitblast.
Qed.

#[export] Hint Resolve wrap_range le_bytes_ok le_val_range : nanom.

(** ** List slices by [Z] offsets *)
Definition zlen {A} (l : list A) : Z := Z.of_nat (length l).
Definition ztake {A} (n : Z) (l : list A) : list A := take (Z.to_nat n) l.
Definition zdrop {A} (n : Z) (l : list A) : list A := drop (Z.to_nat n) l.
Definition zget {A} (l : list A) (i : Z) : option A :=
  if i <? 0 then None else l !! Z.to_nat i.

Lemma zget_is_Some {A} (l : list A) i : is_Some (zget l i) <-> 0 <= i < zlen l.
Proof.
  unfold zget, zlen. destruct (Z.ltb_spec i 0).
  - split; [intros []; done|lia].
  - rewrite lookup_lt_is_Some. lia.
Qed.

Lemma zget_Some_range {A} (l : list A) i x : zget l i = Some x -> 0 <= i < zlen l.
Proof. intros H. apply zget_is_Some. eauto. Qed.

Lemma zget_byte l i b : bytes_ok l -> zget l i = Some b -> is_byte b.
Proof.
  unfold zget. destruct (i <? 0); [done|]. intros Hl H.
  by eapply Forall_lookup_1 in Hl.
Qed.

Lemma zlen_app {A} (l1 l2 : list A) : zlen (l1 ++ l2) = zlen l1 + zlen l2.
Proof. unfold zlen. rewrite length_app. lia. Qed.

Lemma zlen_nonneg {A} (l : list A) : 0 <= zlen l.
Proof. unfold zlen. lia. Qed.

Lemma zlen_cons {A} (x : A) l : zlen (x :: l) = zlen l + 1.
Proof. unfold zlen; cbn [length]. lia. Qed.

Lemma zlen_ztake {A} n (l : list A) : 0 <= n -> zlen (ztake n l) = Z.min n (zlen l).
Proof. intros. unfold zlen, ztake. rewrite length_take. lia. Qed.

Lemma zlen_zdrop {A} n (l : list A) : 0 <= n -> zlen (zdrop n l) = Z.max 0 (zlen l - n).
Proof. intros. unfold zlen, zdrop. rewrite length_drop. lia. Qed.

Lemma zlen_map {A B} (f : A -> B) l : zlen (List.map f l) = zlen l.
Proof. unfold zlen. by rewrite List.length_map. Qed.

Lemma zlen_replicate {A} n (x : A) : zlen (replicate n x) = Z.of_nat n.
Proof. unfold zlen. by rewrite length_replicate. Qed.

Lemma zlen_seqZ m n : 0 <= n -> zlen (seqZ m n) = n.
Proof. intros. unfold zlen. rewrite length_seqZ. lia. Qed.

Lemma ztake_0 {A} (l : list A) : ztake 0 l = [].
Proof. done. Qed.

Lemma zdrop_0 {A} (l : list A) : zdrop 0 l = l.
Proof. done. Qed.

Lemma ztake_all {A} n (l : list A) : zlen l <= n -> ztake n l = l.
Proof. intros. unfold ztake, zlen in *. apply take_ge. lia. Qed.

Lemma zdrop_all {A} n (l : list A) : zlen l <= n -> zdrop n l = [].
Proof. intros. unfold zdrop, zlen in *. apply drop_ge. lia. Qed.

Lemma ztake_app {A} n (l k : list A) : n = zlen l -> ztake n (l ++ k) = l.
Proof. intros ->. unfold ztake, zlen. rewrite Nat2Z.id. by rewrite take_app_length. Qed.

Lemma zdrop_app {A} n (l k : list A) : n = zlen l -> zdrop n (l ++ k) = k.
Proof. intros ->. unfold zdrop, zlen. rewrite Nat2Z.id. by rewrite drop_app_length. Qed.

Lemma ztake_zdrop {A} n (l : list A) : ztake n l ++ zdrop n l = l.
Proof. apply take_drop. Qed.

Lemma zdrop_zdrop {A} m n (l : list A) : 0 <= m -> 0 <= n -> zdrop m (zdrop n l) = zdrop (n + m) l.
Proof. intros. unfold zdrop. rewrite drop_drop. f_equal. lia. Qed.

Lemma bytes_ok_ztake n l : bytes_ok l -> bytes_ok (ztake n l).
Proof. apply Forall_take. Qed.

Lemma bytes_ok_zdrop n l : bytes_ok l -> bytes_ok (zdrop n l).
Proof. apply Forall_drop. Qed.

Lemma bytes_ok_zeros n : bytes_ok (replicate n 0).
Proof. apply Forall_replicate. unfold is_byte. lia. Qed.

Lemma le_val_zeros n : le_val (replicate n 0) = 0.
Proof. induction n; cbn [replicate le_val]; lia. Qed.

Lemma le_val_ztake n l : bytes_ok l -> 0 <= n -> le_val (ztake n l) = wrap (8 * n) (le_val l).
Proof.
  intros Hl Hn. destruct (Z.le_gt_cases (zlen l) n) as [H|H].
  - rewrite ztake_all by done. symmetry. apply wrap_small.
    pose proof (le_val_range l Hl). fold (zlen l) in *.
    assert (2 ^ (8 * zlen l) <= 2 ^ (8 * n)) by (apply Z.pow_le_mono_r; lia). lia.
  - rewrite <- (ztake_zdrop n l) at 2. rewrite le_val_app.
    assert (Hz : Z.of_nat (length (ztake n l)) = n) by (fold (zlen (ztake n l)); rewrite zlen_ztake; lia).
    rewrite Hz. unfold wrap. rewrite Z.mul_comm, Z_mod_plus_full, Z.mod_small; [done|].
    pose proof (le_val_range (ztake n l) (bytes_ok_ztake n l Hl)). by rewrite Hz in *.
Qed.

Lemma le_val_zdrop n l : bytes_ok l -> 0 <= n -> le_val (zdrop n l) = Z.shiftr (le_val l) (8 * n).
Proof.
  intros Hl Hn. destruct (Z.le_gt_cases (zlen l) n) as [H|H].
  - rewrite zdrop_all by done. rewrite Z.shiftr_div_pow2 by lia. symmetry. apply Z.div_small.
    pose proof (le_val_range l Hl). fold (zlen l) in *.
    assert (2 ^ (8 * zlen l) <= 2 ^ (8 * n)) by (apply Z.pow_le_mono_r; lia). lia.
  - rewrite <- (ztake_zdrop n l) at 2. rewrite le_val_app.
    assert (Hz : Z.of_nat (length (ztake n l)) = n) by (fold (zlen (ztake n l)); rewrite zlen_ztake; lia).
    rewrite Hz, Z.shiftr_div_pow2 by lia.
    pose proof (le_val_range (ztake n l) (bytes_ok_ztake n l Hl)) as Hr. rewrite Hz in Hr.
    rewrite Z.mul_comm, Z.div_add, Z.div_small by lia. lia.
Qed.

(** A byte of a sequence is a slice of the integer it denotes. *)
Lemma zget_le_val l i b : bytes_ok l -> zget l i = Some b -> b = wrap 8 (Z.shiftr (le_val l) (8 * i)).
Proof.
  intros Hl Hg. pose proof (zget_Some_range _ _ _ Hg). pose proof (zget_byte _ _ _ Hl Hg).
  rewrite <- le_val_zdrop by (done || lia). unfold zget in Hg.
  destruct (Z.ltb_spec i 0); [done|]. unfold zdrop. erewrite drop_S by done. cbn [le_val].
  unfold wrap. rewrite Z.mul_comm, Z_mod_plus_full. symmetry. by apply Z.mod_small.
Qed.

(** ** Computations over index ranges *)
Lemma mapM_map {A B} (f : A -> option B) (g : A -> B) l :
  (forall x, In x l -> f x = Some (g x)) -> mapM f l = Some (List.map g l).
Proof.
  intros H. apply mapM_Some_2. induction l as [|x l IH]; cbn; constructor.
  - apply H. by left.
  - apply IH. intros y Hy. apply H. by right.
Qed.

Lemma in_seqZ m n x : In x (seqZ m n) <-> m <= x < m + n.
Proof. rewrite <- list_elem_of_In. apply elem_of_seqZ. Qed.

Lemma seqZ_app m n1 n2 : 0 <= n1 -> 0 <= n2 -> seqZ m (n1 + n2) = seqZ m n1 ++ seqZ (m + n1) n2.
Proof. intros. by rewrite seqZ_app. Qed.

Lemma map_seqZ_shift {A} (h : Z -> A) m n : List.map h (seqZ m n) = List.map (fun i => h (m + i)) (seqZ 0 n).
Proof.
  rewrite <- (Z.add_0_r m) at 1. rewrite <- (fmap_add_seqZ m 0 n).
  change (Z.add m <$> seqZ 0 n) with (List.map (Z.add m) (seqZ 0 n)). by rewrite List.map_map.
Qed.

(** [n] groups of [c] consecutive indices are the indices below [n * c]. *)
Lemma concat_map_groups {A} (h : Z -> A) c n : 0 <= c ->
  concat (List.map (fun g => List.map (fun i => h (g * c + i)) (seqZ 0 c)) (seqZ 0 (Z.of_nat n))) =
  List.map h (seqZ 0 (Z.of_nat n * c)).
Proof.
  intros Hc. induction n as [|n IH]; [done|].
  rewrite Nat2Z.inj_succ, <- Z.add_1_r, seqZ_app, List.map_app, concat_app, IH by lia.
  rewrite Z.mul_add_distr_r, seqZ_app, List.map_app by lia. f_equal.
  assert (seqZ (0 + Z.of_nat n) 1 = [Z.of_nat n]) as -> by (unfold seqZ; cbn; f_equal; lia).
  cbn [List.map concat]. by rewrite app_nil_r, Z.mul_1_l, (map_seqZ_shift h).
Qed.

Lemma zget_map_seqZ {A} (h : Z -> A) n k : 0 <= k < n -> zget (List.map h (seqZ 0 n)) k = Some (h k).
Proof.
  intros Hk. unfold zget. destruct (Z.ltb_spec k 0); [lia|].
  change (List.map h (seqZ 0 n)) with (h <$> seqZ 0 n).
  rewrite list_lookup_fmap, lookup_seqZ_lt by lia. cbn. f_equal. f_equal. lia.
Qed.

Lemma ztake_map_seqZ {A} (h : Z -> A) n m : 0 <= m <= n ->
  ztake m (List.map h (seqZ 0 n)) = List.map h (seqZ 0 m).
Proof.
  intros. replace n with (m + (n - m)) by lia. rewrite seqZ_app, List.map_app by lia.
  apply ztake_app. by rewrite zlen_map, zlen_seqZ by lia.
Qed.

Lemma zdrop_map_seqZ {A} (h : Z -> A) n m : 0 <= m <= n ->
  zdrop m (List.map h (seqZ 0 n)) = List.map (fun i => h (m + i)) (seqZ 0 (n - m)).
Proof.
  intros. replace n with (m + (n - m)) at 1 by lia. rewrite seqZ_app, List.map_app by lia.
  rewrite zdrop_app by (by rewrite zlen_map, zlen_seqZ by lia).
  by rewrite (map_seqZ_shift h).
Qed.

Lemma zdrop_ztake {A} n m (l : list A) : 0 <= m <= n -> zdrop m (ztake n l) = ztake (n - m) (zdrop m l).
Proof.
  intros. unfold zdrop, ztake. rewrite skipn_firstn_comm. f_equal. lia.
Qed.

Lemma ztake_app_l {A} n (l k : list A) : n <= zlen l -> ztake n (l ++ k) = ztake n l.
Proof. intros. unfold ztake, zlen in *. rewrite take_app_le by lia. done. Qed.

Lemma ztake_app_r {A} n (l k : list A) : zlen l <= n -> ztake n (l ++ k) = l ++ ztake (n - zlen l) k.
Proof.
  intros. unfold ztake, zlen in *. rewrite take_app_ge by lia. f_equal. f_equal. lia.
Qed.

Lemma zdrop_app_l {A} n (l k : list A) : n <= zlen l -> zdrop n (l ++ k) = zdrop n l ++ k.
Proof. intros. unfold zdrop, zlen in *. rewrite drop_app_le by lia. done. Qed.

Lemma zdrop_app_r {A} n (l k : list A) : zlen l <= n -> zdrop n (l ++ k) = zdrop (n - zlen l) k.
Proof. intros. unfold zdrop, zlen in *. rewrite drop_app_ge by lia. f_equal. lia. Qed.

Lemma ztake_replicate {A} n m (x : A) : 0 <= n <= Z.of_nat m -> ztake n (replicate m x) = replicate (Z.to_nat n) x.
Proof. intros. unfold ztake. rewrite take_replicate. f_equal. lia. Qed.

Lemma zdrop_replicate {A} n m (x : A) : 0 <= n ->
  zdrop n (replicate m x) = replicate (m - Z.to_nat n) x.
Proof. intros. unfold zdrop. by rewrite drop_replicate. Qed.

Lemma ztake_ztake {A} n m (l : list A) : 0 <= n <= m -> ztake n (ztake m l) = ztake n l.
Proof. intros. unfold ztake. rewrite take_take. f_equal. lia. Qed.

(** Cutting a list in pieces of [c]. *)
Lemma concat_pieces {A} (c : Z) (l : list A) n : 0 <= c ->
  concat (List.map (fun m => ztake c (zdrop (m * c) l)) (seqZ 0 (Z.of_nat n))) = ztake (Z.of_nat n * c) l.
Proof.
  intros Hc. induction n as [|n IH]; [done|].
  rewrite Nat2Z.inj_succ, <- Z.add_1_r, seqZ_app by lia. rewrite List.map_app, concat_app, IH.
  change (seqZ (0 + Z.of_nat n) 1) with [Z.of_nat n]. cbn [List.map concat]. rewrite app_nil_r.
  rewrite <- (ztake_ztake (Z.of_nat n * c) ((Z.of_nat n + 1) * c)) by lia.
  replace (ztake c (zdrop (Z.of_nat n * c) l))
    with (zdrop (Z.of_nat n * c) (ztake ((Z.of_nat n + 1) * c) l)); [apply ztake_zdrop|].
  rewrite zdrop_ztake by lia. f_equal. lia.
Qed.

(** Equality of lists by elements. *)
Lemma zget_ext {A} (l1 l2 : list A) : zlen l1 = zlen l2 ->
  (forall k, 0 <= k < zlen l1 -> zget l1 k = zget l2 k) -> l1 = l2.
Proof.
  intros Hlen Hk. apply list_eq. intros i. destruct (decide (i < length l1)%nat) as [Hi|Hi].
  - specialize (Hk (Z.of_nat i) ltac:(unfold zlen; lia)). unfold zget in Hk.
    destruct (Z.ltb_spec (Z.of_nat i) 0); [lia|]. by rewrite Nat2Z.id in Hk.
  - unfold zlen in Hlen. rewrite !lookup_ge_None_2 by lia. done.
Qed.

Lemma zget_app_l {A} (l1 l2 : list A) k : k < zlen l1 -> zget (l1 ++ l2) k = zget l1 k.
Proof.
  intros Hk. unfold zget. destruct (Z.ltb_spec k 0); [done|]. apply lookup_app_l. unfold zlen in Hk. lia.
Qed.

Lemma zget_app_r {A} (l1 l2 : list A) k : zlen l1 <= k -> zget (l1 ++ l2) k = zget l2 (k - zlen l1).
Proof.
  intros Hk. unfold zget, zlen in *. destruct (Z.ltb_spec k 0), (Z.ltb_spec (k - Z.of_nat (length l1)) 0); try lia.
  rewrite lookup_app_r by lia. f_equal. lia.
Qed.

Lemma zget_ztake {A} (l : list A) m k : k < m -> zget (ztake m l) k = zget l k.
Proof.
  intros Hk. unfold zget, ztake. destruct (Z.ltb_spec k 0); [done|]. apply lookup_take_lt. lia.
Qed.

Lemma zget_zdrop {A} (l : list A) m k : 0 <= m -> 0 <= k -> zget (zdrop m l) k = zget l (m + k).
Proof.
  intros Hm Hk. unfold zget, zdrop. destruct (Z.ltb_spec k 0), (Z.ltb_spec (m + k) 0); try lia.
  rewrite lookup_drop. f_equal. lia.
Qed.

Lemma zdrop_cons_get {A} (l : list A) i x : zget l i = Some x -> zdrop i l = x :: zdrop (i + 1) l.
Proof.
  intros E. pose proof (zget_Some_range l i x E) as Hr. unfold zget in E. destruct (Z.ltb_spec i 0); [lia|].
  unfold zdrop. rewrite (drop_S l x (Z.to_nat i)) by done. do 2 f_equal. lia.
Qed.


Lemma ztake_next {A} (l : list A) i x : zget l i = Some x -> ztake (i + 1) l = ztake i l ++ [x].
Proof.
  intros E. pose proof (zget_Some_range l i x E) as Hr. unfold zget in E. destruct (Z.ltb_spec i 0); [lia|].
  unfold ztake. replace (Z.to_nat (i + 1)) with (S (Z.to_nat i)) by lia. by apply take_S_r.
Qed.

Lemma zget_replicate {A} (x : A) n i : zget (replicate (Z.to_nat n) x) i = if (0 <=? i) && (i <? n) then Some x else None.
Proof.
  unfold zget. destruct (Z.ltb_spec i 0), (Z.leb_spec 0 i); try lia; cbn [andb]; [done|]. destruct (Z.ltb_spec i n).
  - apply lookup_replicate_2. lia.
  - apply lookup_ge_None_2. rewrite length_replicate. lia.
Qed.


(** ** The bits of a byte list *)
Definition bit (l : list Z) (j : Z) : bool := Z.testbit (le_val l) j.

Lemma bit_app l1 l2 j : bytes_ok l1 -> 0 <= j ->
  bit (l1 ++ l2) j = if j <? 8 * zlen l1 then bit l1 j else bit l2 (j - 8 * zlen l1).
Proof.
  intros H1 Hj. unfold bit. rewrite le_val_app, Z.mul_comm. pose proof (le_val_range l1 H1).
  rewrite <- lor_shiftl_add by (done || lia). rewrite Z.lor_spec, testbit_shiftl. fold (zlen l1) in *.
  destruct (Z.leb_spec 0 j); [|lia]. cbn [andb]. destruct (Z.ltb_spec j (8 * zlen l1)).
  - rewrite (Z.testbit_neg_r _ (j - _)) by lia. apply orb_false_r.
  - by rewrite (testbit_above (le_val l1) (8 * zlen l1) j) by (done || lia).
Qed.

Lemma bit_ztake l m j : bytes_ok l -> 0 <= m -> j < 8 * m -> bit (ztake m l) j = bit l j.
Proof.
  intros Hl Hm Hj. unfold bit. rewrite le_val_ztake, testbit_wrap by (done || lia).
  by destruct (Z.ltb_spec j (8 * m)); [|lia].
Qed.

Lemma bit_zdrop l m j : bytes_ok l -> 0 <= m -> 0 <= j -> bit (zdrop m l) j = bit l (8 * m + j).
Proof.
  intros Hl Hm Hj. unfold bit. rewrite le_val_zdrop, Z.shiftr_spec by (done || lia). f_equal. lia.
Qed.

Lemma bit_byte l i b r : bytes_ok l -> zget l i = Some b -> 0 <= r ->
  Z.testbit b r = (r <? 8) && bit l (8 * i + r).
Proof.
  intros Hl Hg Hr. rewrite (zget_le_val l i b Hl Hg). rewrite testbit_wrap, Z.shiftr_spec by lia.
  unfold bit. f_equal. f_equal. lia.
Qed.

(** A loop [for (i = 0; i < n; ++i)] as a fold, by its invariant. *)
Lemma fold_seqZ_inv {S} (P : Z -> S -> Prop) (f : S -> Z -> S) n s : 0 <= n -> P 0 s ->
  (forall i s, 0 <= i < n -> P i s -> P (i + 1) (f s i)) -> P n (fold_left f (seqZ 0 n) s).
Proof.
  intros Hn H0 Hstep. rewrite <- (Z2Nat.id n) in * by lia. generalize (Z.to_nat n) as m, Hstep. clear n Hn Hstep.
  intros m Hstep. assert (Hgo : forall k, (k <= m)%nat -> P (Z.of_nat k) (fold_left f (seqZ 0 (Z.of_nat k)) s)).
  { intros k. induction k as [|k IH]; intros Hk; [done|].
    rewrite Nat2Z.inj_succ, <- Z.add_1_r, seqZ_app, fold_left_app by lia.
    change (seqZ (0 + Z.of_nat k) 1) with [Z.of_nat k]. cbn [fold_left]. apply Hstep; [lia|]. apply IH. lia. }
  by apply Hgo.
Qed.
