(* ===== verification/Parser.v ===== *)
(** * The parser core (nom.hpp, sections 1 to 4)

    The cursor [input], the span types, the error value, [result] and the
    parser type, with the contracts the combinators promise each other.

    Memory is a partial map from addresses to bytes; a pointer is an address.
    Reading an address that is not mapped is undefined behaviour and is the
    outcome [Stop UB], so that absence of out-of-bounds reads is a theorem and
    not a convention. *)
From S2P Require Import Prelude.

Definition memory := Z -> option Z.

(** A value no allocation contains. *)
Definition nullptr : Z := -1.

(** [bytes] with generation tracking on: pointer, length, arena and the
    generation it was taken at (the arena is a pointer, [None] when null). *)
Record bytes := Bytes {
  b_data : Z;
  b_size : Z;
  b_arena : option Z;
  b_gen : Z
}.

Record string_view := StringView { sv_data : Z; sv_size : Z }.

(** [struct input]. *)
Record input := Input {
  i_first : Z;
  i_last : Z;
  i_base : Z;
  i_live : bool;
  i_arena : option Z;
  i_gen : Z
}.

Definition input_null : input := Input nullptr nullptr nullptr false None 0.

Definition size (i : input) : Z := u64 (i_last i - i_first i).
Definition empty (i : input) : bool := i_first i =? i_last i.
Definition offset (i : input) : Z := u64 (i_first i - i_base i).

Definition attested_span (i : input) (p n : Z) : bytes := Bytes p n (i_arena i) (i_gen i).
Definition span (i : input) : bytes := attested_span i (i_first i) (size i).
Definition take_span (i : input) (n : Z) : bytes := attested_span i (i_first i) n.

Definition advance (i : input) (n : Z) : input :=
  Input (i_first i + n) (i_last i) (i_base i) (i_live i) (i_arena i) (i_gen i).

Definition with_range (i : input) (f l : Z) : input :=
  Input f l (i_base i) (i_live i) (i_arena i) (i_gen i).

(** [operator[]]: unchecked. *)
Definition at_ (M : memory) (i : input) (k : Z) : option Z := M (i_first i + k).

(** [safe_at]: [Some None] is [nullopt]; [None] is an undefined read. *)
Definition safe_at (M : memory) (i : input) (k : Z) : option (option Z) :=
  if size i <=? k then Some None
  else match at_ M i k with Some b => Some (Some b) | None => None end.

Definition checked_advance (i : input) (n : Z) : option input :=
  if size i <? n then None else Some (advance i n).

Definition from_bytes (b : bytes) : input :=
  Input (b_data b) (b_data b + b_size b) (b_data b) false None 0.

(** [from(const void*, size_t)]. *)
Definition from_ptr (data len : Z) : input :=
  if (data =? nullptr) && (0 <? len) then input_null
  else from_bytes (Bytes data len None 0).

Definition streaming (i : input) : input :=
  Input (i_first i) (i_last i) (i_base i) true (i_arena i) (i_gen i).

Definition as_str (b : bytes) : string_view := StringView (b_data b) (b_size b).

(** ** Errors *)
Inductive errk := errk_err | errk_fail | errk_incomplete.

#[export] Instance errk_eq_dec : EqDecision errk.
Proof. solve_decision. Defined.

Definition is_err (k : errk) : bool := match k with errk_err => true | _ => false end.
Definition is_fail (k : errk) : bool := match k with errk_fail => true | _ => false end.
Definition is_incomplete (k : errk) : bool := match k with errk_incomplete => true | _ => false end.

Definition max_context : nat := 4.
Definition max_incomplete_needed : Z := 64 * 1024.

Record frame := Frame { f_label : string; f_offset : Z }.

(** [struct error]; [e_ctx] holds the [nctx] frames in use, innermost first. *)
Record error := Error {
  e_kind : errk;
  e_offset : Z;
  e_expected : string;
  e_needed : Z;
  e_ctx : list frame
}.

Definition error_default : error := Error errk_err 0 "" 0 [].

Definition set_kind (k : errk) (e : error) : error :=
  Error k (e_offset e) (e_expected e) (e_needed e) (e_ctx e).
Definition set_expected (s : string) (e : error) : error :=
  Error (e_kind e) (e_offset e) s (e_needed e) (e_ctx e).
Definition set_offset (o : Z) (e : error) : error :=
  Error (e_kind e) o (e_expected e) (e_needed e) (e_ctx e).

Definition push_context (label : string) (off : Z) (e : error) : error :=
  if bool_decide (length (e_ctx e) < max_context)%nat
  then Error (e_kind e) (e_offset e) (e_expected e) (e_needed e)
         (e_ctx e ++ [Frame label (u32 off)])
  else e.

(** ** Results

    [expected<done<T>, error>], with the ways a C++ call can fail to return:
    undefined behaviour, an escaping exception, or a loop that outlives the
    model's fuel. [S] is the cursor type, so that byte and bit parsers share
    the definition. *)
Inductive stop := UB | Throw | NoFuel.

Inductive outcome (S A : Type) :=
| Done (v : A) (rest : S)
| Err (e : error)
| Stop (w : stop).
Arguments Done {S A} v rest.
Arguments Err {S A} e.
Arguments Stop {S A} w.

Definition result (A : Type) := outcome input A.
Definition parser (A : Type) := memory -> input -> result A.

(** [if (!r) return unexp(r.error()); ... r->value, r->rest ...] *)
Definition bind {S T A B} (r : outcome S A) (k : A -> S -> outcome T B) : outcome T B :=
  match r with
  | Done v rest => k v rest
  | Err e => Err e
  | Stop w => Stop w
  end.

(** A read through a pointer: undefined when the address is not mapped. *)
Definition deref {S A} (r : option Z) (k : Z -> outcome S A) : outcome S A :=
  match r with Some b => k b | None => Stop UB end.

Declare Scope parser_scope.
Delimit Scope parser_scope with parser.
Notation "'let*' ( v , r ) := m 'in' k" := (bind m (fun v r => k))
  (at level 10, v name, r name, m at level 100, k at level 200) : parser_scope.
Notation "'let!' b := m 'in' k" := (deref m (fun b => k))
  (at level 10, b name, m at level 100, k at level 200) : parser_scope.
#[global] Open Scope parser_scope.

Definition make_err {S A} (i : input) (expected : string) : outcome S A :=
  Err (Error errk_err (u32 (offset i)) expected 0 []).

Definition make_incomplete {S A} (i : input) (needed : Z) : outcome S A :=
  Err (Error (if i_live i then errk_incomplete else errk_err)
         (u32 (u64 (offset i + size i))) "more input"
         (u32 (Z.min needed max_incomplete_needed)) []).

(** ** Contracts

    [wf]: the cursor lies inside a mapped buffer of bytes, of an extent a
    64-bit address space can hold (the sizes times 8 do not wrap). *)
Record wf (M : memory) (i : input) : Prop := Wf {
  wf_base : i_base i <= i_first i;
  wf_first : i_first i <= i_last i;
  wf_extent : i_last i - i_base i < 2 ^ 60;
  wf_mapped a : i_base i <= a < i_last i -> exists b, M a = Some b /\ is_byte b
}.

(** [r] is what a parser may leave of [i]: the same buffer, further on. *)
Record advances (i r : input) : Prop := Advances {
  adv_lo : i_first i <= i_first r;
  adv_hi : i_first r <= i_last r;
  adv_last : i_last r = i_last i;
  adv_base : i_base r = i_base i;
  adv_live : i_live r = i_live i;
  adv_arena : i_arena r = i_arena i;
  adv_gen : i_gen r = i_gen i
}.

(** What every error satisfies: [needed] capped, at most [max_context] frames,
    [incomplete] only on streaming inputs, and, on a buffer under 4 GiB (the
    offset is 32 bits wide), an offset inside the window parsed. *)
Record err_ok (i : input) (e : error) : Prop := ErrOk {
  eok_needed : 0 <= e_needed e <= max_incomplete_needed;
  eok_ctx : (length (e_ctx e) <= max_context)%nat;
  eok_live : e_kind e = errk_incomplete -> i_live i = true;
  eok_offset : i_last i - i_base i < 2 ^ 32 ->
    i_first i - i_base i <= e_offset e <= i_last i - i_base i
}.

(** Two memories that agree on what [i] may read. *)
Definition agree (M M' : memory) (i : input) : Prop :=
  forall a, i_first i <= a < i_last i -> M' a = M a.

Definition post {A} (i : input) (o : result A) : Prop :=
  match o with
  | Done _ r => advances i r
  | Err e => err_ok i e
  | Stop _ => False
  end.

(** The contract between combinators: on a well-formed cursor a good parser
    returns (no undefined read, no exception, no divergence), leaves a cursor
    further into the same buffer or a localised error, and depends on nothing
    outside its window. *)
Definition good_at {A} (i : input) (o o' : result A) : Prop := o' = o /\ post i o.

Class Good {A} (p : parser A) : Prop :=
  good M M' i : wf M i -> agree M M' i -> good_at i (p M i) (p M' i).

(** Refilling: [i'] is [i] with more bytes appended. *)
Definition relast (l : Z) (i : input) : input :=
  Input (i_first i) l (i_base i) (i_live i) (i_arena i) (i_gen i).

Definition relast_outcome {A} (l : Z) (o : result A) : result A :=
  match o with Done v r => Done v (relast l r) | Err e => Err e | Stop w => Stop w end.

Definition stable_at {A} (l : Z) (o o' : result A) : Prop :=
  match o with
  | Err e => e_kind e = errk_incomplete \/ o' = Err e
  | _ => o' = relast_outcome l o
  end.

(** The streaming contract: an answer other than [incomplete] on a prefix is
    the answer on every longer prefix of the stream. *)
Class Stable {A} (p : parser A) : Prop := {
  #[global] stable_good :: Good p;
  stable M M' i l : wf M i -> agree M M' i -> i_live i = true ->
    i_last i <= l -> wf M' (relast l i) ->
    stable_at l (p M i) (p M' (relast l i))
}.

(** ** Facts about cursors *)
Lemma advance_0 i : advance i 0 = i.
Proof. destruct i. unfold advance; cbn. f_equal. lia. Qed.

Lemma advance_advance i n m : advance (advance i n) m = advance i (n + m).
Proof. unfold advance; cbn. f_equal. lia. Qed.

Section Cursors.
Context (M M' : memory).

Lemma size_wf i : wf M i -> size i = i_last i - i_first i.
Proof. intros [? ? ? _]. apply wrap_small. lia. Qed.

Lemma offset_wf i : wf M i -> offset i = i_first i - i_base i.
Proof. intros [? ? ? _]. apply wrap_small. lia. Qed.

Lemma empty_wf i : wf M i -> empty i = (size i =? 0).
Proof.
  intros H. rewrite (size_wf i H). unfold empty.
  destruct (Z.eqb_spec (i_first i) (i_last i)), (Z.eqb_spec (i_last i - i_first i) 0); lia.
Qed.

Lemma at_wf i k : wf M i -> 0 <= k < size i -> exists b, at_ M i k = Some b /\ is_byte b.
Proof.
  intros H Hk. rewrite (size_wf i H) in Hk. apply (wf_mapped _ _ H).
  pose proof (wf_base _ _ H). lia.
Qed.

Lemma at_agree i k :
  wf M i -> agree M M' i -> 0 <= k < size i -> at_ M' i k = at_ M i k.
Proof. intros H Ha Hk. rewrite (size_wf i H) in Hk. apply Ha. lia. Qed.

Lemma advances_refl i : wf M i -> advances i i.
Proof. intros [? ? ? _]. constructor; done || lia. Qed.

Lemma advances_trans i j k : advances i j -> advances j k -> advances i k.
Proof. intros [] []. constructor; congruence || lia. Qed.

Lemma advances_advance i n : wf M i -> 0 <= n <= size i -> advances i (advance i n).
Proof. intros H Hn. rewrite (size_wf i H) in Hn. constructor; cbn; done || lia. Qed.

Lemma wf_advances i r : wf M i -> advances i r -> wf M r.
Proof.
  intros [? ? ? Hm] [? ? ? ? ? ? ?]. constructor; try lia.
  intros a Ha. apply Hm. lia.
Qed.

Lemma agree_advances i r : agree M M' i -> advances i r -> agree M M' r.
Proof. intros H [? ? ? ? ? ? ?] a Ha. apply H. lia. Qed.

(** A window inside the cursor's own, as [length_value] makes one. *)
Lemma wf_sub i f l : wf M i -> i_first i <= f <= l -> l <= i_last i -> wf M (with_range i f l).
Proof.
  intros [? ? ? Hm] ? ?. constructor; cbn; try lia. intros a Ha. apply Hm. lia.
Qed.

Lemma agree_sub i f l :
  agree M M' i -> i_first i <= f -> l <= i_last i -> agree M M' (with_range i f l).
Proof. intros H ? ? a Ha. cbn in Ha. apply H. lia. Qed.

Lemma err_ok_advances i r e : advances i r -> err_ok r e -> err_ok i e.
Proof.
  intros [? ? Hl Hb Hv _ _] [? ? Hk Ho]. rewrite Hl, Hb in Ho.
  constructor; [done|done| |lia]. by rewrite <- Hv.
Qed.

Lemma err_ok_sub i f l e :
  i_first i <= f -> l <= i_last i -> err_ok (with_range i f l) e -> err_ok i e.
Proof. intros ? ? [? ? Hk Ho]. cbn in *. constructor; [done..|lia]. Qed.

Lemma err_ok_make_err i s : wf M i ->
  err_ok i (Error errk_err (u32 (offset i)) s 0 []).
Proof.
  intros H. rewrite (offset_wf i H). destruct H as [? ? ? _].
  constructor; cbn; unfold max_incomplete_needed; try done; try lia.
  intros ?. rewrite wrap_small by lia. lia.
Qed.

Lemma err_ok_make_incomplete i n : wf M i -> 0 <= n ->
  err_ok i (Error (if i_live i then errk_incomplete else errk_err)
       (u32 (u64 (offset i + size i))) "more input"
       (u32 (Z.min n max_incomplete_needed)) []).
Proof.
  intros H Hn. rewrite (offset_wf i H), (size_wf i H). destruct H as [? ? ? _].
  constructor; cbn; unfold max_incomplete_needed; try (cbn; lia).
  - rewrite wrap_small by lia. lia.
  - by destruct (i_live i).
  - intros ?. rewrite (wrap_small 64), wrap_small by lia. lia.
Qed.

Lemma err_ok_set_kind i e k :
  k <> errk_incomplete -> err_ok i e -> err_ok i (set_kind k e).
Proof. intros ? [? ? ? ?]. constructor; cbn; done. Qed.

Lemma err_ok_set_expected i e s : err_ok i e -> err_ok i (set_expected s e).
Proof. intros [? ? ? ?]. constructor; cbn; done. Qed.

Lemma err_ok_push_context i e s o : err_ok i e -> err_ok i (push_context s o e).
Proof.
  intros [? ? ? ?]. unfold push_context. case_bool_decide; [|by constructor].
  constructor; cbn; try done. rewrite length_app. cbn. lia.
Qed.

Lemma size_relast i l :
  wf M i -> wf M' (relast l i) -> i_last i <= l -> size i <= size (relast l i).
Proof.
  intros [? ? ? _] [? ? ? _] ?. unfold size; cbn in *.
  rewrite !wrap_small by lia. lia.
Qed.

Lemma relast_advances i r l :
  advances i r -> i_last i <= l -> advances (relast l i) (relast l r).
Proof. intros [] ?. constructor; cbn; done || lia. Qed.
End Cursors.

#[export] Hint Resolve advances_refl advances_trans advances_advance wf_advances
  agree_advances err_ok_make_err err_ok_make_incomplete err_ok_advances
  err_ok_set_expected err_ok_push_context : nanom.

(** The addresses of a window are mapped, and the same in both memories. *)
Definition win (M M' : memory) (lo hi : Z) : Prop :=
  forall a, lo <= a < hi -> M' a = M a /\ is_Some (M a).

Lemma win_wf M M' i : wf M i -> agree M M' i -> win M M' (i_first i) (i_last i).
Proof.
  intros H Ha a Hi. split; [by apply Ha|].
  destruct (wf_mapped _ _ H a) as (b & -> & _); [pose proof (wf_base _ _ H); lia|done].
Qed.

(** The bytes of [l] are at address [a]. *)
Fixpoint holds (M : memory) (a : Z) (l : list Z) : Prop :=
  match l with
  | [] => True
  | b :: t => M a = Some b /\ holds M (a + 1) t
  end.

(** A buffer holding exactly [l] at address [a]. *)
Definition mem_of (a : Z) (l : list Z) : memory := fun x => zget l (x - a).

Lemma holds_intro (M : memory) a l :
  (forall k b, l !! k = Some b -> M (a + Z.of_nat k) = Some b) -> holds M a l.
Proof.
  revert a. induction l as [|b t IH]; intros a H; cbn; [done|]. split.
  - rewrite <- (H O b) by done. f_equal. lia.
  - apply IH. intros k c Hk. rewrite <- (H (S k) c) by done. f_equal. lia.
Qed.

Lemma holds_mem_of a l l' : holds (mem_of a (l ++ l')) a l.
Proof.
  apply holds_intro. intros k b Hk. unfold mem_of, zget.
  destruct (Z.ltb_spec (a + Z.of_nat k - a) 0); [lia|].
  replace (Z.to_nat (a + Z.of_nat k - a)) with k by lia.
  by apply lookup_app_l_Some.
Qed.

Lemma holds_app (M : memory) a l1 l2 :
  holds M a (l1 ++ l2) <-> holds M a l1 /\ holds M (a + zlen l1) l2.
Proof.
  revert a. induction l1 as [|b t IH]; intros a; cbn.
  { unfold zlen; cbn. rewrite Z.add_0_r. tauto. }
  rewrite IH. replace (a + zlen (b :: t)) with (a + 1 + zlen t) by (unfold zlen; cbn; lia).
  tauto.
Qed.

(** The bytes a well-formed cursor sees. *)
Lemma wf_holds M i n : wf M i -> Z.of_nat n <= size i ->
  exists l, holds M (i_first i) l /\ length l = n /\ bytes_ok l.
Proof.
  intros Hwf. rewrite (size_wf M i Hwf). intros Hn.
  assert (forall n a, i_base i <= a -> a + Z.of_nat n <= i_last i ->
    exists l, holds M a l /\ length l = n /\ bytes_ok l) as H.
  { clear n Hn. induction n as [|n IH]; intros a Ha Hl; [by exists []|].
    destruct (wf_mapped _ _ Hwf a) as (b & Hb & ?); [lia|].
    destruct (IH (a + 1)) as (l & ? & ? & ?); [lia..|].
    exists (b :: l). cbn. auto. }
  pose proof (wf_base _ _ Hwf). apply H; lia.
Qed.

Lemma mem_of_wf a l : bytes_ok l -> zlen l < 2 ^ 60 ->
  wf (mem_of a l) (Input a (a + zlen l) a false None 0).
Proof.
  intros Hl Hn. pose proof (zlen_nonneg l). constructor; cbn; try lia.
  intros x Hx. destruct (proj2 (zget_is_Some l (x - a))) as [b Hb]; [lia|].
  exists b. split; [done|]. by eapply zget_byte.
Qed.

(** ** Composing contracts *)
Section Compose.
Context {A B : Type}.

Lemma good_at_advances (i r : input) (o o' : result A) :
  advances i r -> good_at r o o' -> good_at i o o'.
Proof.
  intros Ha [-> Hp]. split; [done|]. destruct o; cbn in *; try done;
    eauto using advances_trans, err_ok_advances.
Qed.

Lemma good_at_bind i (o o' : result A) (k k' : A -> input -> result B) :
  good_at i o o' ->
  (forall v r, o = Done v r -> advances i r -> good_at i (k v r) (k' v r)) ->
  good_at i (bind o k) (bind o' k').
Proof.
  intros [-> Hp] Hk. destruct o; cbn in *; [by apply Hk|by split..].
Qed.

Lemma good_at_call M M' i r (p : parser A) `{!Good p} :
  wf M i -> agree M M' i -> advances i r -> good_at i (p M r) (p M' r).
Proof. intros. eapply good_at_advances; [done|]. apply good; eauto with nanom. Qed.

Lemma good_at_done i r (v : A) : advances i r -> good_at i (Done v r) (Done v r).
Proof. by split. Qed.

Lemma good_at_err i (e : error) : err_ok i e -> good_at i (Err e : result A) (Err e).
Proof. by split. Qed.

Lemma good_at_make_err M i r s :
  wf M i -> advances i r -> good_at i (make_err r s : result A) (make_err r s).
Proof. intros. split; [done|]. cbn. eauto with nanom. Qed.

Lemma good_at_make_incomplete M i r n : wf M i -> advances i r -> 0 <= n ->
  good_at i (make_incomplete r n : result A) (make_incomplete r n).
Proof. intros. split; [done|]. cbn. eauto with nanom. Qed.

Lemma stable_at_bind i l (o o' : result A) (k k' : A -> input -> result B) :
  stable_at l o o' -> good_at i o o ->
  (forall v r, o = Done v r -> o' = Done v (relast l r) -> advances i r ->
     stable_at l (k v r) (k' v (relast l r))) ->
  stable_at l (bind o k) (bind o' k').
Proof.
  intros Hs [_ Hp] Hk. destruct o as [v r|e|w]; cbn in *.
  - subst o'. cbn. by apply Hk.
  - destruct Hs as [He| ->]; [by left|by right].
  - done.
Qed.

Lemma stable_at_call M M' i r l (p : parser A) `{!Stable p} :
  wf M i -> agree M M' i -> i_live i = true -> i_last i <= l -> wf M' (relast l i) ->
  advances i r -> stable_at l (p M r) (p M' (relast l r)).
Proof.
  intros. apply stable; eauto with nanom.
  - by rewrite (adv_live i r).
  - by rewrite (adv_last i r).
  - eapply wf_advances; [done|]. by apply relast_advances.
Qed.

Lemma stable_at_done l r (v : A) : stable_at l (Done v r) (Done v (relast l r)).
Proof. done. Qed.

Lemma stable_at_err l e : stable_at l (Err e : result A) (Err e).
Proof. by right. Qed.

Lemma stable_at_make_err l r s :
  stable_at l (make_err r s : result A) (make_err (relast l r) s).
Proof. by right. Qed.

Lemma stable_at_make_incomplete i l r n (o' : result A) :
  i_live i = true -> advances i r -> stable_at l (make_incomplete r n) o'.
Proof. intros Hl Ha. left. cbn. by rewrite (adv_live i r), Hl. Qed.
End Compose.

(** The proof automation of the combinators: apply the composition lemma the
    shape of the goal asks for. *)
Ltac good_step :=
  match goal with
  | |- good_at _ (bind _ _) (bind _ _) => eapply good_at_bind; [|intros ? ? ? ?]
  | |- good_at _ (Done _ _) (Done _ _) => apply good_at_done
  | |- good_at _ (make_err _ _) _ => eapply good_at_make_err
  | |- good_at _ (make_incomplete _ _) _ => eapply good_at_make_incomplete
  | |- good_at _ (Err _) (Err _) => apply good_at_err
  | |- good_at _ (?p ?M _) (?p _ _) => eapply good_at_call
  end.
Ltac parser_good := repeat good_step; try apply _; eauto with nanom.

Ltac stable_step :=
  match goal with
  | |- stable_at _ (bind _ _) (bind _ _) =>
      eapply stable_at_bind; [|eapply good_at_call|intros ? ? ? ? ?]
  | |- stable_at _ (Done _ _) (Done _ _) => apply stable_at_done
  | |- stable_at _ (make_err _ _) _ => apply stable_at_make_err
  | |- stable_at _ (make_incomplete _ _) _ => eapply stable_at_make_incomplete
  | |- stable_at _ (Err _) (Err _) => apply stable_at_err
  | |- stable_at _ (?p ?M _) (?p _ _) => eapply stable_at_call
  | |- agree ?M ?M _ => intros ? ?; reflexivity
  end.
Ltac parser_stable := repeat stable_step; try apply _; eauto with nanom.
