(* ===== verification/BytesParsers.v ===== *)
(** * Primitive byte and character parsers (nom.hpp, sections 5 to 7)

    [tag], the [take_while] family over the shared engine [take_pred],
    [take_until], the character classes and the end-of-input parsers. A [char]
    is represented by its byte; a pattern or a set by the list of its bytes. *)
From S2P Require Import Prelude Parser.

(** ** Data and helpers *)
Definition lower (c : Z) : Z := if (65 <=? c) && (c <=? 90) then c + 32 else c.

Definition tag_sbo_cap : Z := 15.

(** [struct owned_pattern]: at most 15 bytes inline, longer ones on the heap. *)
Record owned_pattern := OwnedPattern {
  op_small : list Z;
  op_large : list Z;
  op_len : Z
}.

Definition make_owned_pattern (p : list Z) : owned_pattern :=
  if zlen p <=? tag_sbo_cap
  then OwnedPattern (p ++ replicate (16 - length p) 0) [] (zlen p)
  else OwnedPattern (replicate 16 0) p (zlen p).

(** The [len] bytes at [data()]. *)
Definition op_data (o : owned_pattern) : list Z :=
  ztake (op_len o) (if op_len o <=? tag_sbo_cap then op_small o else op_large o).

(** [memcmp(a, pat, n) == 0]: all [n] bytes at [a] must be readable. *)
Fixpoint memcmp_eq (M : memory) (a : Z) (pat : list Z) : option bool :=
  match pat with
  | [] => Some true
  | c :: t =>
      match M a, memcmp_eq M (a + 1) t with
      | Some b, Some r => Some ((b =? c) && r)
      | _, _ => None
      end
  end.

Definition make_tag_parser (pat : owned_pattern) : parser bytes := fun M i =>
  let n := op_len pat in
  if size i <? n then make_incomplete i (n - size i)
  else match memcmp_eq M (i_first i) (op_data pat) with
       | None => Stop UB
       | Some false => make_err i "tag"
       | Some true => Done (take_span i n) (advance i n)
       end.

(** The comparison loop of [tag_no_case], from index [k]. *)
Fixpoint no_case_loop (M : memory) (i : input) (k : Z) (pat : list Z) : option bool :=
  match pat with
  | [] => Some true
  | c :: t =>
      match at_ M i k with
      | None => None
      | Some b => if lower b =? lower c then no_case_loop M i (k + 1) t else Some false
      end
  end.

Definition make_tag_no_case_parser (pat : owned_pattern) : parser bytes := fun M i =>
  let n := op_len pat in
  if size i <? n then make_incomplete i (n - size i)
  else match no_case_loop M i 0 (op_data pat) with
       | None => Stop UB
       | Some false => make_err i "tag_no_case"
       | Some true => Done (take_span i n) (advance i n)
       end.

Definition tag (pattern : list Z) : parser bytes := make_tag_parser (make_owned_pattern pattern).
Definition tag_no_case (pattern : list Z) : parser bytes :=
  make_tag_no_case_parser (make_owned_pattern pattern).

(** [tag(bytes)]: the pattern is a span, compared in place. *)
Definition tag_bytes (pattern : list Z) : parser bytes := fun M i =>
  if size i <? zlen pattern then make_incomplete i (zlen pattern - size i)
  else match memcmp_eq M (i_first i) pattern with
       | None => Stop UB
       | Some false => make_err i "tag"
       | Some true => Done (take_span i (zlen pattern)) (advance i (zlen pattern))
       end.

Definition take (n : Z) : parser bytes := fun M i =>
  if size i <? n then make_incomplete i (n - size i)
  else Done (take_span i n) (advance i n).

(** [while (k < cap && pred(in[k])) ++k;] with [n] = [cap - k] rounds left. *)
Fixpoint scan (n : nat) (M : memory) (i : input) (pred : Z -> bool) (k : Z) : option Z :=
  match n with
  | O => Some k
  | S n =>
      match at_ M i k with
      | None => None
      | Some b => if pred b then scan n M i pred (k + 1) else Some k
      end
  end.

Definition take_pred (pred : Z -> bool) (min max : Z) (what : string) : parser bytes := fun M i =>
  match scan (Z.to_nat (Z.min max (size i))) M i pred 0 with
  | None => Stop UB
  | Some k =>
      if k <? min then
        if k =? size i then make_incomplete i (min - k) else make_err (advance i k) what
      else Done (take_span i k) (advance i k)
  end.

Definition nmax : Z := size_max.

Definition take_while (pred : Z -> bool) : parser bytes := take_pred pred 0 nmax "".
Definition take_while1 (pred : Z -> bool) : parser bytes :=
  take_pred pred 1 nmax "take_while1: at least one matching byte".
Definition take_while_m_n (m n : Z) (pred : Z -> bool) : parser bytes :=
  take_pred pred m n "take_while_m_n: not enough matching bytes".
Definition take_till (pred : Z -> bool) : parser bytes :=
  take_pred (fun b => negb (pred b)) 0 nmax "".
Definition take_till1 (pred : Z -> bool) : parser bytes :=
  take_pred (fun b => negb (pred b)) 1 nmax "take_till1: at least one byte before terminator".

(** [std::search]: does the needle occur at [a]; the first of [n] candidate
    positions from [a], or [last] when there is none. *)
Fixpoint occurs_at (M : memory) (a : Z) (ned : list Z) : option bool :=
  match ned with
  | [] => Some true
  | c :: t =>
      match M a with
      | None => None
      | Some b => if b =? c then occurs_at M (a + 1) t else Some false
      end
  end.

Fixpoint std_search (n : nat) (M : memory) (a last : Z) (ned : list Z) : option Z :=
  match n with
  | O => Some last
  | S n =>
      match occurs_at M a ned with
      | None => None
      | Some true => Some a
      | Some false => std_search n M (a + 1) last ned
      end
  end.

Definition take_until (needle : list Z) : parser bytes := fun M i =>
  match std_search (Z.to_nat (size i - zlen needle + 1)) M (i_first i) (i_last i) needle with
  | None => Stop UB
  | Some it =>
      if it =? i_last i then make_incomplete i 1
      else let n := it - i_first i in Done (take_span i n) (advance i n)
  end.

Definition in_set (set : list Z) (b : Z) : bool := existsb (Z.eqb b) set.

Definition is_a (set : list Z) : parser bytes :=
  take_pred (in_set set) 1 nmax "is_a: byte from set".
Definition is_not (set : list Z) : parser bytes :=
  take_pred (fun b => negb (in_set set b)) 1 nmax "is_not: byte outside set".

(** ** Characters *)
Definition satisfy_with (pred : Z -> bool) (what : string) : parser Z := fun M i =>
  if empty i then make_incomplete i 1
  else let! b := at_ M i 0 in
       if pred b then Done b (advance i 1) else make_err i what.

Definition chr (c : Z) : parser Z := fun M i =>
  if empty i then make_incomplete i 1
  else let! b := at_ M i 0 in
       if negb (b =? c) then make_err i "character" else Done c (advance i 1).

Definition satisfy (pred : Z -> bool) : parser Z := satisfy_with pred "satisfy".
Definition one_of (set : list Z) : parser Z := satisfy_with (in_set set) "one_of".
Definition none_of (set : list Z) : parser Z :=
  satisfy_with (fun b => negb (in_set set b)) "none_of".

Definition anychar : parser Z := fun M i =>
  if empty i then make_incomplete i 1
  else let! b := at_ M i 0 in Done b (advance i 1).

Definition is_alpha (b : Z) : bool := (97 <=? Z.lor b 32) && (Z.lor b 32 <=? 122).
Definition is_digit (b : Z) : bool := (48 <=? b) && (b <=? 57).
Definition is_hex (b : Z) : bool := is_digit b || ((97 <=? Z.lor b 32) && (Z.lor b 32 <=? 102)).
Definition is_oct (b : Z) : bool := (48 <=? b) && (b <=? 55).
Definition is_alnum (b : Z) : bool := is_alpha b || is_digit b.
Definition is_space (b : Z) : bool := (b =? 32) || (b =? 9).
Definition is_mspace (b : Z) : bool := (b =? 32) || (b =? 9) || (b =? 13) || (b =? 10).

Definition klass (pred : Z -> bool) (min : Z) (what : string) : parser string_view := fun M i =>
  let* (v, r) := take_pred pred min nmax what M i in Done (as_str v) r.

Definition alpha0 := klass is_alpha 0 "".
Definition alpha1 := klass is_alpha 1 "alphabetic".
Definition digit0 := klass is_digit 0 "".
Definition digit1 := klass is_digit 1 "digit".
Definition hex_digit0 := klass is_hex 0 "".
Definition hex_digit1 := klass is_hex 1 "hex digit".
Definition oct_digit0 := klass is_oct 0 "".
Definition oct_digit1 := klass is_oct 1 "octal digit".
Definition alphanumeric0 := klass is_alnum 0 "".
Definition alphanumeric1 := klass is_alnum 1 "alphanumeric".
Definition space0 := klass is_space 0 "".
Definition space1 := klass is_space 1 "space or tab".
Definition multispace0 := klass is_mspace 0 "".
Definition multispace1 := klass is_mspace 1 "whitespace".

Definition newline : parser Z := chr 10.
Definition tab : parser Z := chr 9.
Definition crlf : parser string_view := fun M i =>
  let* (v, r) := tag [13; 10] M i in Done (as_str v) r.

(** [newline_literal] is the address of the string literal the "\n" branch
    returns (not a view of the input). *)
Definition line_ending (newline_literal : Z) : parser string_view := fun M i =>
  if empty i then make_incomplete i 1
  else let! c := at_ M i 0 in
  if c =? 10 then Done (StringView newline_literal 1) (advance i 1)
  else if c =? 13 then
    if size i <? 2 then make_incomplete i 1
    else let! d := at_ M i 1 in
         if d =? 10 then Done (as_str (take_span i 2)) (advance i 2)
         else make_err i "line ending"
  else make_err i "line ending".

(** [*r] is used without a check: an error there would be undefined. *)
Definition not_line_ending : parser string_view := fun M i =>
  match take_pred (fun b => negb (b =? 13) && negb (b =? 10)) 0 nmax "" M i with
  | Done v r => Done (as_str v) r
  | Err _ => Stop UB
  | Stop w => Stop w
  end.

(** ** End of input *)
Definition eof : parser unit := fun M i =>
  if negb (empty i) then make_err i "end of input" else Done tt i.
Definition rest : parser bytes := fun M i => Done (span i) (advance i (size i)).
Definition rest_len : parser Z := fun M i => Done (size i) i.

(** ** Contracts of the primitives *)
Lemma op_data_make p : op_data (make_owned_pattern p) = p /\ op_len (make_owned_pattern p) = zlen p.
Proof.
  unfold make_owned_pattern, op_data, ztake, tag_sbo_cap. case_match; cbn.
  - rewrite H. unfold zlen in *. rewrite Nat2Z.id. by rewrite take_app_length.
  - rewrite H. unfold zlen in *. rewrite Nat2Z.id. by rewrite firstn_all.
Qed.

Section Reads.
Context (M M' : memory) (lo hi : Z) (Hw : win M M' lo hi).

Lemma memcmp_eq_win a pat : lo <= a -> a + zlen pat <= hi ->
  memcmp_eq M' a pat = memcmp_eq M a pat /\ is_Some (memcmp_eq M a pat).
Proof.
  revert a; induction pat as [|c t IH]; intros a Hlo Hhi; cbn; [done|].
  unfold zlen in *; cbn [length] in *.
  destruct (Hw a) as [-> [b ->]]; [lia|].
  destruct (IH (a + 1)) as [-> [r ->]]; [lia..|]. eauto.
Qed.

Lemma occurs_at_win a pat : lo <= a -> a + zlen pat <= hi ->
  occurs_at M' a pat = occurs_at M a pat /\ is_Some (occurs_at M a pat).
Proof.
  revert a; induction pat as [|c t IH]; intros a Hlo Hhi; cbn; [done|].
  unfold zlen in *; cbn [length] in *.
  destruct (Hw a) as [-> [b ->]]; [lia|].
  destruct (b =? c); [|eauto]. apply IH; lia.
Qed.

Lemma no_case_loop_win i k pat : lo <= i_first i + k -> i_first i + k + zlen pat <= hi ->
  no_case_loop M' i k pat = no_case_loop M i k pat /\ is_Some (no_case_loop M i k pat).
Proof.
  revert k; induction pat as [|c t IH]; intros k Hlo Hhi; cbn; [done|].
  unfold zlen, at_ in *; cbn [length] in *.
  destruct (Hw (i_first i + k)) as [-> [b ->]]; [lia|].
  destruct (lower b =? lower c); [|eauto]. apply IH; lia.
Qed.

Lemma scan_win n i pred k : lo <= i_first i + k -> i_first i + k + Z.of_nat n <= hi ->
  scan n M' i pred k = scan n M i pred k /\
  exists j, scan n M i pred k = Some j /\ k <= j <= k + Z.of_nat n.
Proof.
  revert k; induction n as [|n IH]; intros k Hlo Hhi; cbn.
  { split; [done|]. exists k. split; [done|lia]. }
  unfold at_. destruct (Hw (i_first i + k)) as [-> [b ->]]; [lia|].
  destruct (pred b).
  - destruct (IH (k + 1)) as [-> (j & -> & ?)]; [lia..|].
    split; [done|]. exists j. split; [done|lia].
  - split; [done|]. exists k. split; [done|lia].
Qed.

Lemma std_search_win n a ned : lo <= a -> ((0 < n)%nat -> a + Z.of_nat n + zlen ned <= hi + 1) ->
  std_search n M' a hi ned = std_search n M a hi ned /\
  exists it, std_search n M a hi ned = Some it /\ (a <= it < a + Z.of_nat n \/ it = hi).
Proof.
  revert a; induction n as [|n IH]; intros a Hlo Hhi; cbn.
  { split; [done|]. exists hi. split; [done|lia]. }
  destruct (occurs_at_win a ned) as [-> [[] ->]]; [lia..| |].
  - split; [done|]. exists a. split; [done|]. lia.
  - destruct (IH (a + 1)) as [-> (it & -> & ?)]; [lia..|].
    split; [done|]. exists it. split; [done|]. lia.
Qed.
End Reads.

(** Common opening of a primitive's contract proof: the window and its size. *)
Ltac prim_intro :=
  let Hwf := fresh "Hwf" in let Hag := fresh "Hag" in
  intros M M' i Hwf Hag;
  pose proof (win_wf M M' i Hwf Hag) as Hwin;
  pose proof (size_wf M i Hwf) as Hsz; pose proof (wf_first M i Hwf) as Hfl.

Ltac prim_intro_stable :=
  intros M M' i l Hwf Hag Hlive Hl Hwf';
  pose proof (win_wf M M' i Hwf Hag) as Hwin;
  pose proof (size_wf M i Hwf) as Hsz; pose proof (wf_first M i Hwf) as Hfl;
  pose proof (size_relast M M' i l Hwf Hwf' Hl) as Hszl;
  pose proof (advances_refl M i Hwf) as Hrefl.

(** An [advance] by [n] bytes that are there. *)
Ltac adv := first
  [ eapply advances_advance; [eassumption|lia]
  | match goal with |- 0 <= _ => lia | |- 0 <= _ <= _ => lia end ].
Ltac prim_good := parser_good; try adv.

(** Both forms of [tag], and [tag_no_case], compare [n] bytes that were
    checked to be present: the shape they share. *)
Section Compared.
Context (pat : list Z) (cmp : memory -> input -> option bool) (what : string).
Context (Hcmp : forall M M' i, win M M' (i_first i) (i_last i) ->
  zlen pat <= i_last i - i_first i -> cmp M' i = cmp M i /\ is_Some (cmp M i)).
Context (Hlast : forall M i l, cmp M (relast l i) = cmp M i).

Definition compared : parser bytes := fun M i =>
  if size i <? zlen pat then make_incomplete i (zlen pat - size i)
  else match cmp M i with
       | None => Stop UB
       | Some false => make_err i what
       | Some true => Done (take_span i (zlen pat)) (advance i (zlen pat))
       end.

Lemma compared_good : Good compared.
Proof using Hcmp.
  prim_intro. unfold compared. pose proof (zlen_nonneg pat).
  destruct (Z.ltb_spec (size i) (zlen pat)); [prim_good|].
  destruct (Hcmp M M' i Hwin) as [-> [[] ->]]; [lia| |]; prim_good.
Qed.

Lemma compared_stable : Stable compared.
Proof using Hcmp Hlast.
  split; [exact compared_good|]. prim_intro_stable. unfold compared.
  destruct (Z.ltb_spec (size i) (zlen pat)); [parser_stable|].
  destruct (Z.ltb_spec (size (relast l i)) (zlen pat)); [lia|]. rewrite Hlast.
  destruct (Hcmp M M' i Hwin) as [-> [[] ->]]; [lia| |]; parser_stable.
Qed.
End Compared.

#[export] Instance tag_bytes_stable p : Stable (tag_bytes p).
Proof.
  apply (compared_stable p (fun M i => memcmp_eq M (i_first i) p) "tag"); [|done].
  intros M M' i Hw ?. apply (memcmp_eq_win _ _ _ _ Hw); lia.
Qed.

#[export] Instance tag_stable p : Stable (tag p).
Proof.
  unfold tag, make_tag_parser. destruct (op_data_make p) as [-> ->].
  apply (compared_stable p (fun M i => memcmp_eq M (i_first i) p) "tag"); [|done].
  intros M M' i Hw ?. apply (memcmp_eq_win _ _ _ _ Hw); lia.
Qed.

#[export] Instance tag_no_case_stable p : Stable (tag_no_case p).
Proof.
  unfold tag_no_case, make_tag_no_case_parser. destruct (op_data_make p) as [-> ->].
  apply (compared_stable p (fun M i => no_case_loop M i 0 p) "tag_no_case").
  - intros M M' i Hw ?. apply (no_case_loop_win _ _ _ _ Hw); lia.
  - intros M i l. generalize 0. induction p as [|c t IH]; intros k; cbn; [done|].
    change (at_ M (relast l i) k) with (at_ M i k). by rewrite IH.
Qed.

#[export] Instance take_stable n : NonNeg n -> Stable (take n).
Proof.
  unfold NonNeg. intros Hn. split.
  - prim_intro. unfold take. destruct (Z.ltb_spec (size i) n); prim_good.
  - prim_intro_stable. unfold take.
    destruct (Z.ltb_spec (size i) n); [parser_stable|].
    destruct (Z.ltb_spec (size (relast l i)) n); [lia|]. parser_stable.
Qed.

#[export] Instance take_pred_good pred min max what : NonNeg max -> Good (take_pred pred min max what).
Proof.
  unfold NonNeg. intros Hmax. prim_intro. unfold take_pred.
  destruct (scan_win M M' _ _ Hwin (Z.to_nat (Z.min max (size i))) i pred 0)
    as [-> (k & -> & ?)]; [lia..|].
  destruct (Z.ltb_spec k min); [destruct (Z.eqb_spec k (size i))|]; prim_good.
Qed.

#[export] Instance nmax_nonneg : NonNeg nmax.
Proof. by vm_compute. Qed.

#[export] Instance klass_good pred min what : Good (klass pred min what).
Proof. intros M M' i ? ?. unfold klass. parser_good. Qed.

#[export] Instance not_line_ending_good : Good not_line_ending.
Proof.
  intros M M' i Hwf Hag. unfold not_line_ending, take_pred.
  pose proof (win_wf M M' i Hwf Hag) as Hwin. pose proof (size_wf M i Hwf) as Hsz.
  pose proof (wf_first M i Hwf) as Hfl. pose proof nmax_nonneg as Hmax; red in Hmax.
  destruct (scan_win M M' _ _ Hwin (Z.to_nat (Z.min nmax (size i))) i
    (fun b => negb (b =? 13) && negb (b =? 10)) 0) as [-> (k & -> & ?)]; [lia..|].
  destruct (Z.ltb_spec k 0); [lia|]. prim_good.
Qed.

(** A match found in a prefix is the match found in any longer buffer. *)
Lemma std_search_extend n n' M M' lo hi hi' a ned it :
  win M M' lo hi -> lo <= a -> ((0 < n)%nat -> a + Z.of_nat n + zlen ned <= hi + 1) -> (n <= n')%nat ->
  std_search n M a hi ned = Some it -> it <> hi -> std_search n' M' a hi' ned = Some it.
Proof.
  intros Hw. revert n' a. induction n as [|n IH]; intros n' a Hlo Hhi Hn Hs Hne; cbn in Hs.
  { congruence. }
  destruct n' as [|n']; [lia|]. cbn.
  destruct (occurs_at_win M M' lo hi Hw a ned) as [-> [[] Ho]]; [lia..| |];
    rewrite Ho in *; [done|].
  apply IH; try done; lia.
Qed.

#[export] Instance take_until_stable needle : Stable (take_until needle).
Proof.
  assert (Hpos := zlen_nonneg needle). split.
  - prim_intro. unfold take_until.
    destruct (std_search_win M M' _ _ Hwin (Z.to_nat (size i - zlen needle + 1)) (i_first i) needle)
      as [-> (it & -> & ?)]; [lia..|].
    destruct (Z.eqb_spec it (i_last i)); prim_good.
  - prim_intro_stable. unfold take_until.
    destruct (std_search_win M M' _ _ Hwin (Z.to_nat (size i - zlen needle + 1)) (i_first i) needle)
      as [_ (it & Hs & ?)]; [lia..|]. rewrite Hs.
    destruct (Z.eqb_spec it (i_last i)); [parser_stable|].
    change (i_first (relast l i)) with (i_first i). cbn [i_last relast].
    eapply (std_search_extend _ (Z.to_nat (size (relast l i) - zlen needle + 1))) in Hs as ->;
      [|done|lia..].
    destruct (Z.eqb_spec it l); [lia|]. parser_stable.
Qed.

(** The one-byte parsers share a shape: look at the first byte, decide. *)
Section OneByte.
Context {A : Type} (f : input -> Z -> result A).
Context (Hf : forall M i b, wf M i -> 1 <= size i -> post i (f i b)).
Context (Hlast : forall i l b, stable_at l (f i b) (f (relast l i) b)).

Definition one_byte : parser A := fun M i =>
  if empty i then make_incomplete i 1 else let! b := at_ M i 0 in f i b.

Lemma one_byte_good : Good one_byte.
Proof using Hf.
  prim_intro. unfold one_byte. rewrite (empty_wf M i Hwf).
  destruct (Z.eqb_spec (size i) 0); [prim_good|]. unfold at_.
  destruct (Hwin (i_first i + 0)) as [-> [b ->]]; [lia|]. split; [done|].
  apply (Hf M); [done|lia].
Qed.

Lemma one_byte_stable : Stable one_byte.
Proof using Hf Hlast.
  split; [exact one_byte_good|]. prim_intro_stable. unfold one_byte.
  rewrite (empty_wf M i Hwf), (empty_wf M' _ Hwf').
  destruct (Z.eqb_spec (size i) 0); [parser_stable|].
  destruct (Z.eqb_spec (size (relast l i)) 0); [lia|]. unfold at_.
  change (i_first (relast l i)) with (i_first i).
  destruct (Hwin (i_first i + 0)) as [-> [b ->]]; [lia|]. apply Hlast.
Qed.
End OneByte.

Lemma post_make_err {A} M i s : wf M i -> post i (make_err i s : result A).
Proof. intros. cbn. eauto with nanom. Qed.

#[export] Instance satisfy_with_stable pred what : Stable (satisfy_with pred what).
Proof.
  apply (one_byte_stable (fun i b => if pred b then Done b (advance i 1) else make_err i what)).
  - intros M i b Hi ?. destruct (pred b); [cbn; adv|by eapply post_make_err].
  - intros i l b. destruct (pred b); parser_stable.
Qed.

#[export] Instance chr_stable c : Stable (chr c).
Proof.
  apply (one_byte_stable (fun i b =>
    if negb (b =? c) then make_err i "character" else Done c (advance i 1))).
  - intros M i b Hi ?. destruct (negb _); [by eapply post_make_err|cbn; adv].
  - intros i l b. destruct (negb _); parser_stable.
Qed.

#[export] Instance anychar_stable : Stable anychar.
Proof.
  apply (one_byte_stable (fun i b => Done b (advance i 1))).
  - intros M i b Hi ?. cbn. adv.
  - intros i l b. parser_stable.
Qed.

#[export] Instance crlf_stable : Stable crlf.
Proof.
  split; [intros M M' i ? ?; unfold crlf; parser_good|].
  prim_intro_stable. unfold crlf. parser_stable.
Qed.

#[export] Instance line_ending_stable lit : Stable (line_ending lit).
Proof.
  split.
  - prim_intro. unfold line_ending. rewrite (empty_wf M i Hwf).
    destruct (Z.eqb_spec (size i) 0); [prim_good|]. unfold at_.
    destruct (Hwin (i_first i + 0)) as [-> [b ->]]; [lia|]. cbn [deref].
    destruct (b =? 10); [prim_good|]. destruct (b =? 13); [|prim_good].
    destruct (Z.ltb_spec (size i) 2); [prim_good|].
    destruct (Hwin (i_first i + 1)) as [-> [d ->]]; [lia|]. cbn [deref].
    destruct (d =? 10); prim_good.
  - prim_intro_stable. unfold line_ending. rewrite (empty_wf M i Hwf), (empty_wf M' _ Hwf').
    destruct (Z.eqb_spec (size i) 0); [parser_stable|].
    destruct (Z.eqb_spec (size (relast l i)) 0); [lia|]. unfold at_.
    change (i_first (relast l i)) with (i_first i).
    destruct (Hwin (i_first i + 0)) as [-> [b ->]]; [lia|]. cbn [deref].
    destruct (b =? 10); [parser_stable|]. destruct (b =? 13); [|parser_stable].
    destruct (Z.ltb_spec (size i) 2); [parser_stable|].
    destruct (Z.ltb_spec (size (relast l i)) 2); [lia|].
    destruct (Hwin (i_first i + 1)) as [-> [d ->]]; [lia|]. cbn [deref].
    destruct (d =? 10); parser_stable.
Qed.

#[export] Instance eof_good : Good eof.
Proof. prim_intro. unfold eof. destruct (negb (empty i)); prim_good. Qed.
#[export] Instance rest_good : Good rest.
Proof. prim_intro. unfold rest. prim_good. Qed.
#[export] Instance rest_len_good : Good rest_len.
Proof. prim_intro. unfold rest_len. prim_good. Qed.

(** ** Zero-copy: a span parser yields bytes of its own window *)
Class Spans (p : parser bytes) : Prop :=
  spans M i v r : wf M i -> p M i = Done v r ->
    i_first i <= b_data v /\ 0 <= b_size v /\ b_data v + b_size v <= i_last i.
