(* ===== verification/Combinators.v ===== *)
(** * Combinators (nom.hpp, sections 8 to 11)

    Sequence, branch, repetition and modifiers. A pack of parsers of different
    types is a [plist]; the vector a repetition returns is the list of its
    elements in order; a callable [f(acc, value)] that updates its accumulator
    is a function to the new accumulator. *)
From S2P Require Import Prelude Parser BytesParsers.

(** ** Sequence *)
Inductive plist : list Type -> Type :=
| PNil : plist []
| PCons {A Ts} (p : parser A) (ps : plist Ts) : plist (A :: Ts).

Fixpoint tuple (Ts : list Type) : Type :=
  match Ts with [] => unit | A :: Ts => (A * tuple Ts)%type end.

(** [seq_step]: run the parsers in order, consing their values. *)
Fixpoint seq {Ts} (ps : plist Ts) : parser (tuple Ts) :=
  match ps in plist Ts return parser (tuple Ts) with
  | PNil => fun M i => Done tt i
  | PCons p ps => fun M i =>
      let* (v, r) := p M i in
      let* (vs, r') := seq ps M r in
      Done (v, vs) r'
  end.

Section Sequence.
Context {A B C : Type}.

Definition pair (a : parser A) (b : parser B) : parser (A * B) := fun M i =>
  let* (va, ra) := a M i in
  let* (vb, rb) := b M ra in
  Done (va, vb) rb.

Definition separated_pair (a : parser A) (sep : parser C) (b : parser B) : parser (A * B) :=
  fun M i =>
  let* (va, ra) := a M i in
  let* (_s, rs) := sep M ra in
  let* (vb, rb) := b M rs in
  Done (va, vb) rb.

Definition preceded (skip : parser A) (keep : parser B) : parser B := fun M i =>
  let* (_v, ra) := skip M i in keep M ra.

Definition terminated (keep : parser A) (skip : parser B) : parser A := fun M i =>
  let* (va, ra) := keep M i in
  let* (_v, rb) := skip M ra in
  Done va rb.

Definition delimited (open : parser A) (body : parser B) (close : parser C) : parser B :=
  fun M i =>
  let* (_o, ro) := open M i in
  let* (vm, rm) := body M ro in
  let* (_c, rc) := close M rm in
  Done vm rc.
End Sequence.

(** ** Branch *)
Definition better (a b : error) : error := if e_offset a <? e_offset b then b else a.

Definition name_if_unnamed (s : string) (e : error) : error :=
  if String.eqb (e_expected e) "" then set_expected s e else e.

Section Alt.
Context {V : Type}.

Fixpoint alt_step (M : memory) (i : input) (best : option error)
    (p : parser V) (ps : list (parser V)) : result V :=
  match p M i with
  | Done v r => Done v r
  | Stop w => Stop w
  | Err e =>
      if negb (is_err (e_kind e)) then Err e
      else
        let e' := match best with Some b => better b e | None => e end in
        match ps with
        | [] => Err (name_if_unnamed "one of the alternatives" e')
        | q :: qs => alt_step M i (Some e') q qs
        end
  end.

Definition alt (p : parser V) (ps : list (parser V)) : parser V := fun M i =>
  alt_step M i None p ps.
End Alt.

(** [permutation]: the slots filled so far, one per parser. *)
Fixpoint slots (Ts : list Type) : Type :=
  match Ts with [] => unit | A :: Ts => (option A * slots Ts)%type end.

Fixpoint no_slots (Ts : list Type) : slots Ts :=
  match Ts with [] => tt | _ :: Ts => (None, no_slots Ts) end.

(** The values of all slots; an empty one would be dereferenced. *)
Fixpoint get_slots (Ts : list Type) : slots Ts -> option (tuple Ts) :=
  match Ts with
  | [] => fun _ => Some tt
  | _ :: Ts => fun s =>
      match s.1, get_slots Ts s.2 with Some v, Some vs => Some (v, vs) | _, _ => None end
  end.

(** The state of one round: slots, cursor, whether a parser matched, and the
    deepest error so far. *)
Record perm_state (S : Type) := PermState {
  pm_slots : S;
  pm_cur : input;
  pm_progressed : bool;
  pm_deepest : error
}.
Arguments PermState {S}.
Arguments pm_slots {S}.
Arguments pm_cur {S}.
Arguments pm_progressed {S}.
Arguments pm_deepest {S}.

(** [(try_one(Is) && ...)] over the parsers; an abort stops the round. *)
Fixpoint perm_round {Ts} (ps : plist Ts) (M : memory) :
    perm_state (slots Ts) -> perm_state (slots Ts) + (error + stop) :=
  match ps in plist Ts return perm_state (slots Ts) -> perm_state (slots Ts) + (error + stop) with
  | PNil => fun st => inl st
  | PCons p ps => fun st =>
      let '(s, ss) := pm_slots st in
      let continue s' cur progressed deepest :=
        match perm_round ps M (PermState ss cur progressed deepest) with
        | inl st' => inl (PermState (s', pm_slots st') (pm_cur st') (pm_progressed st') (pm_deepest st'))
        | inr e => inr e
        end in
      if pm_progressed st || bool_decide (is_Some s)
      then continue s (pm_cur st) (pm_progressed st) (pm_deepest st)
      else match p M (pm_cur st) with
           | Done v r => continue (Some v) r true (pm_deepest st)
           | Err e =>
               if negb (is_err (e_kind e)) then inr (inl e)
               else continue s (pm_cur st) false (better (pm_deepest st) e)
           | Stop w => inr (inr w)
           end
  end.

Fixpoint perm_rounds (n : nat) {Ts} (ps : plist Ts) (M : memory)
    (st : perm_state (slots Ts)) : result (tuple Ts) :=
  match n with
  | O =>
      match get_slots Ts (pm_slots st) with
      | Some vs => Done vs (pm_cur st)
      | None => Stop UB
      end
  | S n =>
      match perm_round ps M (PermState (pm_slots st) (pm_cur st) false (pm_deepest st)) with
      | inr (inl e) => Err e
      | inr (inr w) => Stop w
      | inl st' =>
          if negb (pm_progressed st') then
            let e := pm_deepest st' in
            Err (if String.eqb (e_expected e) "" then
                   set_expected "permutation alternative" (set_offset (u32 (offset (pm_cur st'))) e)
                 else e)
          else perm_rounds n ps M st'
      end
  end.

Definition permutation {Ts} (ps : plist Ts) : parser (tuple Ts) := fun M i =>
  perm_rounds (length Ts) ps M (PermState (no_slots Ts) i false error_default).

(** ** Repetition *)
Section Repetition.
Context {A B : Type}.

(** [for (;;)] of [many0] and of the unbounded folds: [step] is what is done
    with a value, [msg] the error when [p] succeeds without consuming. *)
Fixpoint many_loop (fuel : nat) (p : parser A) (step : B -> A -> B) (msg : string)
    (M : memory) (cur : input) (acc : B) : result B :=
  match fuel with
  | O => Stop NoFuel
  | S fuel =>
      match p M cur with
      | Stop w => Stop w
      | Err e => if negb (is_err (e_kind e)) then Err e else Done acc cur
      | Done v r =>
          if i_first r =? i_first cur then make_err cur msg
          else many_loop fuel p step msg M r (step acc v)
      end
  end.

(** Every round consumes a byte, and the last one finds none: one round
    more than there are bytes is enough. *)
Definition many_fuel (i : input) : nat := S (Z.to_nat (size i)).

Definition fold_many0 (p : parser A) (init : B) (f : B -> A -> B) : parser B := fun M i =>
  many_loop (many_fuel i) p f "fold_many0: inner parser must consume input" M i init.

Definition fold_many1 (p : parser A) (init : B) (f : B -> A -> B) : parser B := fun M i =>
  let* (v, r) := p M i in
  many_loop (many_fuel r) p f "fold_many1: inner parser must consume input" M r (f init v).

(** [while (got < n)]: the count and accumulator when the loop ends. *)
Fixpoint many_n_loop (fuel : nat) (n : Z) (p : parser A) (step : B -> A -> B) (msg : string)
    (M : memory) (cur : input) (got : Z) (acc : B) : result (Z * B) :=
  match fuel with
  | O => Stop NoFuel
  | S fuel =>
      if n <=? got then Done (got, acc) cur
      else match p M cur with
           | Stop w => Stop w
           | Err e => if negb (is_err (e_kind e)) then Err e else Done (got, acc) cur
           | Done v r =>
               if i_first r =? i_first cur then make_err cur msg
               else many_n_loop fuel n p step msg M r (got + 1) (step acc v)
           end
  end.

Definition fold_many_m_n (m n : Z) (p : parser A) (init : B) (f : B -> A -> B) : parser B :=
  fun M i =>
  let* (ga, cur) := many_n_loop (many_fuel i) n p f
    "fold_many_m_n: inner parser must consume input" M i 0 init in
  if ga.1 <? m then make_err cur "fold_many_m_n: not enough repetitions"
  else Done ga.2 cur.
End Repetition.

Definition push_back {A} (out : list A) (v : A) : list A := out ++ [v].

Section Many.
Context {A B : Type}.

Definition many0 (p : parser A) : parser (list A) := fun M i =>
  many_loop (many_fuel i) p push_back "many0: inner parser must consume input" M i [].

Definition many1 (p : parser A) : parser (list A) := fun M i =>
  let* (v, r) := p M i in
  let* (vs, r') := many0 p M r in
  Done (v :: vs) r'.

Definition checked_many0 (p : parser A) (max_rep : Z) : parser (list A) := fun M i =>
  let* (ga, cur) := many_n_loop (many_fuel i) max_rep p push_back
    "checked_many0: inner parser must consume input" M i 0 [] in
  if ga.1 <? max_rep then Done ga.2 cur
  else match p M cur with
       | Done _ _ => make_err cur "checked_many0: repetition cap exceeded"
       | Err e => if negb (is_err (e_kind e)) then Err e else Done ga.2 cur
       | Stop w => Stop w
       end.

Definition many_m_n (m n : Z) (p : parser A) : parser (list A) := fun M i =>
  let* (ga, cur) := many_n_loop (many_fuel i) n p push_back
    "many_m_n: inner parser must consume input" M i 0 [] in
  if zlen ga.2 <? m then make_err cur "many_m_n: not enough repetitions"
  else Done ga.2 cur.

Fixpoint many_till_loop (fuel : nat) (p : parser A) (end_ : parser B)
    (M : memory) (cur : input) (out : list A) : result (list A * B) :=
  match fuel with
  | O => Stop NoFuel
  | S fuel =>
      match end_ M cur with
      | Done v r => Done (out, v) r
      | Stop w => Stop w
      | Err e =>
          if negb (is_err (e_kind e)) then Err e
          else match p M cur with
               | Stop w => Stop w
               | Err e => Err e
               | Done v r =>
                   if i_first r =? i_first cur
                   then make_err cur "many_till: inner parser must consume input"
                   else many_till_loop fuel p end_ M r (push_back out v)
               end
      end
  end.

Definition many_till (p : parser A) (end_ : parser B) : parser (list A * B) := fun M i =>
  many_till_loop (many_fuel i) p end_ M i [].

Fixpoint count_loop (n : nat) (p : parser A) (M : memory) (cur : input) (out : list A) :
    result (list A) :=
  match n with
  | O => Done out cur
  | S n => let* (v, r) := p M cur in count_loop n p M r (push_back out v)
  end.

(** [out.reserve(n)] throws [std::length_error] past [max_size()], which is
    [vmax] for the element type. *)
Definition count (vmax : Z) (p : parser A) (n : Z) : parser (list A) := fun M i =>
  if vmax <? n then Stop Throw else count_loop (Z.to_nat n) p M i [].

Fixpoint separated_loop (fuel : nat) (sep : parser B) (p : parser A)
    (M : memory) (cur : input) (out : list A) : result (list A) :=
  match fuel with
  | O => Stop NoFuel
  | S fuel =>
      match sep M cur with
      | Stop w => Stop w
      | Err e => if is_fail (e_kind e) then Err e else Done out cur
      | Done _ rs =>
          match p M rs with
          | Stop w => Stop w
          | Err e => if is_fail (e_kind e) then Err e else Done out cur
          | Done v r =>
              if i_first r =? i_first cur then make_err cur "separated_list0: no progress"
              else separated_loop fuel sep p M r (push_back out v)
          end
      end
  end.

Definition separated_list0 (sep : parser B) (p : parser A) : parser (list A) := fun M i =>
  match p M i with
  | Stop w => Stop w
  | Err e => if is_fail (e_kind e) then Err e else Done [] i
  | Done v r => separated_loop (many_fuel r) sep p M r [v]
  end.

Definition separated_list1 (sep : parser B) (p : parser A) : parser (list A) := fun M i =>
  let* (vs, r) := separated_list0 sep p M i in
  match vs with
  | [] => make_err i "separated_list1: at least one element"
  | _ => Done vs r
  end.

Definition length_data (np : parser Z) : parser bytes := fun M i =>
  let* (n, r) := np M i in take (u64 n) M r.

Definition length_value (np : parser Z) (p : parser A) : parser A := fun M i =>
  let* (d, r) := length_data np M i in
  match p M (with_range i (b_data d) (b_data d + b_size d)) with
  | Stop w => Stop w
  | Err e =>
      Err (if is_incomplete (e_kind e)
           then set_expected "value fitting its length prefix" (set_kind errk_err e)
           else e)
  | Done v _ => Done v r
  end.

Definition length_count (vmax : Z) (np : parser Z) (p : parser A) : parser (list A) := fun M i =>
  let* (n, r) := np M i in count vmax p (u64 n) M r.
End Many.

(** ** Modifiers *)
Section Modifiers.
Context {A B : Type}.

Definition map (p : parser A) (f : A -> B) : parser B := fun M i =>
  let* (v, r) := p M i in Done (f v) r.

Definition map_opt (p : parser A) (f : A -> option B) : parser B := fun M i =>
  let* (v, r) := p M i in
  match f v with None => make_err i "map_opt: conversion" | Some w => Done w r end.

Definition map_res (p : parser A) (f : A -> option B) : parser B := map_opt p f.

Definition map_parser (p : parser bytes) (q : parser B) : parser B := fun M i =>
  let* (b, r) := p M i in
  let* (v, _r) := q M (with_range i (b_data b) (b_data b + b_size b)) in
  Done v r.

(** The [string_view] branch of [map_parser]. *)
Definition map_parser_sv (p : parser string_view) (q : parser B) : parser B := fun M i =>
  let* (s, r) := p M i in
  let* (v, _r) := q M (with_range i (sv_data s) (sv_data s + sv_size s)) in
  Done v r.

Definition flat_map (p : parser A) (f : A -> parser B) : parser B := fun M i =>
  let* (v, r) := p M i in f v M r.

Definition opt (p : parser A) : parser (option A) := fun M i =>
  match p M i with
  | Done v r => Done (Some v) r
  | Err e => if is_fail (e_kind e) then Err e else Done None i
  | Stop w => Stop w
  end.

Definition cond (b : bool) (p : parser A) : parser (option A) := fun M i =>
  if negb b then Done None i
  else let* (v, r) := p M i in Done (Some v) r.

Definition peek (p : parser A) : parser A := fun M i =>
  let* (v, _r) := p M i in Done v i.

Definition not_ (p : parser A) : parser unit := fun M i =>
  match p M i with
  | Done _ _ => make_err i "not: inner parser must fail"
  | Err e => if is_fail (e_kind e) then Err e else Done tt i
  | Stop w => Stop w
  end.

Definition recognize (p : parser A) : parser bytes := fun M i =>
  let* (_v, r) := p M i in
  Done (attested_span i (i_first i) (u64 (i_first r - i_first i))) r.

Definition consumed (p : parser A) : parser (bytes * A) := fun M i =>
  let* (v, r) := p M i in
  Done (attested_span i (i_first i) (u64 (i_first r - i_first i)), v) r.

Definition value (v : B) (p : parser A) : parser B := fun M i =>
  let* (_v, r) := p M i in Done v r.

Definition verify (p : parser A) (pred : A -> bool) : parser A := fun M i =>
  let* (v, r) := p M i in
  if negb (pred v) then make_err i "verify: predicate" else Done v r.

Definition success (v : A) : parser A := fun M i => Done v i.
Definition fail_ (why : string) : parser unit := fun M i => make_err i why.

Definition cut (p : parser A) : parser A := fun M i =>
  match p M i with
  | Err e => if is_err (e_kind e) then Err (set_kind errk_fail e) else Err e
  | o => o
  end.

Definition complete (p : parser A) : parser A := fun M i =>
  match p M i with
  | Err e => if is_incomplete (e_kind e) then Err (set_kind errk_err e) else Err e
  | o => o
  end.

Definition all_consuming (p : parser A) : parser A := fun M i =>
  let* (v, r) := p M i in
  if negb (empty r) then make_err r "all_consuming: trailing bytes" else Done v r.

(** [into<T>(p)], [conv] being [T]'s constructor from the value. *)
Definition into (conv : A -> B) (p : parser A) : parser B := map p conv.

Definition context (label : string) (p : parser A) : parser A := fun M i =>
  match p M i with
  | Err e => Err (push_context label (offset i) e)
  | o => o
  end.
End Modifiers.
