(* ===== verification/CombinatorFacts.v ===== *)
(** * Contracts of the combinators

    Every combinator of [Combinators] keeps the contract [Good] of its
    arguments, and the ones that do not treat [incomplete] as an answer keep
    [Stable]. *)
From S2P Require Import Prelude Parser BytesParsers Combinators.

(** Case analysis on a sub-parser's outcome, with what its contract says. *)
Ltac call_good p M M' r :=
  let Heq := fresh "Heq" in let Hpost := fresh "Hpost" in
  match goal with
  | Hwf : wf M ?i, Hag : agree M M' ?i, Ha : advances ?i r |- _ =>
      destruct (good_at_call M M' i r p Hwf Hag Ha) as [Heq Hpost]
  end;
  rewrite ?Heq; let Hp := fresh "Hp" in let v' := fresh "v" in let r' := fresh "r" in
  let e' := fresh "e" in let w' := fresh "w" in
  destruct (p M r) as [v' r'|e'|w'] eqn:Hp; cbn [post] in Hpost; try done.

Ltac call_stable p M M' r l :=
  let Hst := fresh "Hst" in let Hpost := fresh "Hpost" in
  match goal with
  | Hwf : wf M ?i, Hag : agree M M' ?i, Ha : advances ?i r, Hwf' : wf M' (relast l ?i),
    Hlive : i_live ?i = true, Hl : i_last ?i <= l |- _ =>
      pose proof (stable_at_call M M' i r l p Hwf Hag Hlive Hl Hwf' Ha) as Hst;
      destruct (good_at_call M M' i r p Hwf Hag Ha) as [_ Hpost]
  end;
  let Hp := fresh "Hp" in let v' := fresh "v" in let r' := fresh "r" in
  let e' := fresh "e" in let w' := fresh "w" in
  destruct (p M r) as [v' r'|e'|w'] eqn:Hp; cbn [post stable_at relast_outcome] in Hst, Hpost;
  [rewrite ?Hst|destruct Hst as [Hst|Hst]; [|rewrite ?Hst]|try done].

(** ** Sequence *)
Inductive AllGood : forall {Ts}, plist Ts -> Prop :=
| AllGood_nil : AllGood PNil
| AllGood_cons {A Ts} (p : parser A) (ps : plist Ts) : Good p -> AllGood ps -> AllGood (PCons p ps).

Inductive AllStable : forall {Ts}, plist Ts -> Prop :=
| AllStable_nil : AllStable PNil
| AllStable_cons {A Ts} (p : parser A) (ps : plist Ts) :
    Stable p -> AllStable ps -> AllStable (PCons p ps).
Existing Class AllGood.
Existing Class AllStable.
#[export] Existing Instances AllGood_nil AllGood_cons AllStable_nil AllStable_cons.

Lemma AllStable_Good {Ts} (ps : plist Ts) : AllStable ps -> AllGood ps.
Proof. induction 1; constructor; [apply _|done]. Qed.

#[export] Instance seq_good {Ts} (ps : plist Ts) : AllGood ps -> Good (seq ps).
Proof. induction 1; intros M M' i ? ?; cbn; parser_good. Qed.

#[export] Instance seq_stable {Ts} (ps : plist Ts) : AllStable ps -> Stable (seq ps).
Proof.
  induction 1; (split; [apply seq_good; by try constructor; try apply AllStable_Good; apply _|]);
    prim_intro_stable; cbn; parser_stable.
Qed.

Ltac comb_good f := intros M M' i ? ?; unfold f; parser_good.
Ltac comb_stable f := split; [apply _|]; prim_intro_stable; unfold f; parser_stable.

Section SequenceFacts.
Context {A B C : Type} (a : parser A) (b : parser B) (c : parser C).

#[export] Instance pair_good : Good a -> Good b -> Good (pair a b).
Proof. intros ? ?. comb_good @pair. Qed.
#[export] Instance separated_pair_good :
  Good a -> Good c -> Good b -> Good (separated_pair a c b).
Proof. intros ? ? ?. comb_good @separated_pair. Qed.
#[export] Instance preceded_good : Good a -> Good b -> Good (preceded a b).
Proof. intros ? ?. comb_good @preceded. Qed.
#[export] Instance terminated_good : Good a -> Good b -> Good (terminated a b).
Proof. intros ? ?. comb_good @terminated. Qed.
#[export] Instance delimited_good : Good a -> Good b -> Good c -> Good (delimited a b c).
Proof. intros ? ? ?. comb_good @delimited. Qed.

#[export] Instance pair_stable : Stable a -> Stable b -> Stable (pair a b).
Proof. intros ? ?. comb_stable @pair. Qed.
#[export] Instance separated_pair_stable :
  Stable a -> Stable c -> Stable b -> Stable (separated_pair a c b).
Proof. intros ? ? ?. comb_stable @separated_pair. Qed.
#[export] Instance preceded_stable : Stable a -> Stable b -> Stable (preceded a b).
Proof. intros ? ?. comb_stable @preceded. Qed.
#[export] Instance terminated_stable : Stable a -> Stable b -> Stable (terminated a b).
Proof. intros ? ?. comb_stable @terminated. Qed.
#[export] Instance delimited_stable :
  Stable a -> Stable b -> Stable c -> Stable (delimited a b c).
Proof. intros ? ? ?. comb_stable @delimited. Qed.
End SequenceFacts.

(** ** Branch *)
Lemma better_cases a b : better a b = a \/ better a b = b.
Proof. unfold better. case_match; auto. Qed.

Lemma err_ok_name i s e : err_ok i e -> err_ok i (name_if_unnamed s e).
Proof. unfold name_if_unnamed. case_match; eauto with nanom. Qed.

Lemma name_if_unnamed_kind s e : e_kind (name_if_unnamed s e) = e_kind e.
Proof. unfold name_if_unnamed. by case_match. Qed.

Section AltFacts.
Context {V : Type}.
Implicit Types (p : parser V) (ps : list (parser V)).

Lemma err_ok_best i best e :
  (forall b, best = Some b -> err_ok i b) -> err_ok i e ->
  err_ok i (match best with Some b => better b e | None => e end).
Proof.
  intros Hb He. destruct best as [b|]; [|done].
  destruct (better_cases b e) as [-> | ->]; auto.
Qed.

Lemma alt_step_good M M' i best p ps :
  Good p -> Forall Good ps -> wf M i -> agree M M' i ->
  (forall b, best = Some b -> err_ok i b) ->
  good_at i (alt_step M i best p ps) (alt_step M' i best p ps).
Proof.
  intros Hp Hps Hwf Hag. revert best p Hp.
  induction Hps as [|q qs Hq Hqs IH]; intros best p Hp Hb; cbn;
    pose proof (advances_refl M i Hwf); call_good p M M' i;
    (destruct (negb _); [by split|]).
  - split; [done|]. apply err_ok_name. by apply err_ok_best.
  - apply IH; [done|]. intros ? [= <-]. by apply err_ok_best.
Qed.

#[export] Instance alt_good p ps : Good p -> Forall Good ps -> Good (alt p ps).
Proof. intros Hp Hps M M' i ? ?. by apply alt_step_good. Qed.

Lemma alt_step_stable M M' i l best p ps :
  Stable p -> Forall Stable ps -> wf M i -> agree M M' i -> i_live i = true ->
  i_last i <= l -> wf M' (relast l i) ->
  stable_at l (alt_step M i best p ps) (alt_step M' (relast l i) best p ps).
Proof.
  intros Hp Hps Hwf Hag Hlive Hl Hwf'. revert best p Hp.
  induction Hps as [|q qs Hq Hqs IH]; intros best p Hp; cbn;
    pose proof (advances_refl M i Hwf); call_stable p M M' i l; try done.
  - rewrite Hst. by left.
  - destruct (negb _); by right.
  - rewrite Hst. by left.
  - destruct (negb _); [by right|]. by apply IH.
Qed.

#[export] Instance alt_stable p ps : Stable p -> Forall Stable ps -> Stable (alt p ps).
Proof.
  intros Hp Hps. split.
  - apply alt_good; [apply _|]. eapply Forall_impl; [done|]. apply _.
  - prim_intro_stable. by apply alt_step_stable.
Qed.
End AltFacts.

(** ** Permutation *)
Fixpoint filled {Ts} : slots Ts -> nat :=
  match Ts return slots Ts -> nat with
  | [] => fun _ => O
  | A :: Ts => fun s => ((match s.1 with Some _ => 1 | None => 0 end) + filled s.2)%nat
  end.

Lemma filled_no_slots Ts : filled (no_slots Ts) = O.
Proof. induction Ts; cbn; auto. Qed.

Lemma filled_le {Ts} (s : slots Ts) : (filled s <= length Ts)%nat.
Proof. induction Ts as [|A Ts IH]; cbn; [lia|]. specialize (IH s.2). destruct s.1; lia. Qed.

Lemma get_slots_full {Ts} (s : slots Ts) : filled s = length Ts -> is_Some (get_slots Ts s).
Proof.
  induction Ts as [|A Ts IH]; cbn; [done|]. destruct s as [[v|] s]; cbn.
  - intros ?. destruct (IH s) as [vs ->]; [lia|]. eauto.
  - intros ?. pose proof (filled_le s). lia.
Qed.

(** A deepest error is the initial one or an error of the window parsed. *)
Definition deep_ok (i : input) (e : error) : Prop :=
  e_kind e = errk_err /\ (e = error_default \/ err_ok i e).

Lemma deep_ok_better i d e :
  deep_ok i d -> e_kind e = errk_err -> err_ok i e -> deep_ok i (better d e).
Proof. unfold deep_ok. intros [? ?] ? ?. destruct (better_cases d e) as [-> | ->]; auto. Qed.

Lemma perm_round_cons {A Ts} (p : parser A) (ps : plist Ts) M
    (s : option A) (ss : slots Ts) cur pr de :
  perm_round (PCons p ps) M (PermState (S := slots (A :: Ts)) (s, ss) cur pr de) =
  let continue s' cur' pr' de' :=
    match perm_round ps M (PermState (S := slots Ts) ss cur' pr' de') with
    | inl st' => inl (PermState (S := slots (A :: Ts)) (s', pm_slots st') (pm_cur st')
                        (pm_progressed st') (pm_deepest st'))
    | inr e => inr e
    end in
  if pr || bool_decide (is_Some s) then continue s cur pr de
  else match p M cur with
       | Done v r => continue (Some v) r true de
       | Err e => if negb (is_err (e_kind e)) then inr (inl e) else continue s cur false (better de e)
       | Stop w => inr (inr w)
       end.
Proof. reflexivity. Qed.

Lemma perm_round_good {Ts} (ps : plist Ts) M M' i st :
  AllGood ps -> wf M i -> agree M M' i -> advances i (pm_cur st) -> deep_ok i (pm_deepest st) ->
  perm_round ps M' st = perm_round ps M st /\
  match perm_round ps M st with
  | inl st' => advances i (pm_cur st') /\ deep_ok i (pm_deepest st') /\
      (pm_progressed st' = false -> pm_progressed st = false) /\
      (pm_progressed st = false -> pm_progressed st' = true ->
       filled (pm_slots st') = S (filled (pm_slots st))) /\
      (pm_progressed st = true ->
       pm_progressed st' = true /\ filled (pm_slots st') = filled (pm_slots st))
  | inr (inl e) => err_ok i e
  | inr (inr _) => False
  end.
Proof.
  intros Hall Hwf Hag. revert st. induction Hall as [|A Ts p ps Hp Hps IH];
    intros [ss cur pr de] Hcur Hde; cbn [pm_cur pm_deepest pm_progressed pm_slots] in *.
  { split; [done|]. cbn. split_and!; try done; intros; congruence. }
  destruct ss as [s ss]; change (slots Ts) in (type of ss). rewrite !perm_round_cons. cbv zeta. destruct pr; cbn [orb].
  - destruct (IH (PermState ss cur true de)) as [-> H]; [done..|]. split; [done|].
    destruct (perm_round ps M _) as [st'|[]]; cbn -[slots] in *; intuition (congruence || lia).
  - case_bool_decide as Hs.
    + destruct (IH (PermState ss cur false de)) as [-> H]; [done..|]. split; [done|].
      destruct (perm_round ps M _) as [st'|[]]; cbn -[slots] in *; try done.
      destruct s; intuition (congruence || lia).
    + destruct s; [by destruct Hs|]. call_good p M M' cur.
      * destruct (IH (PermState ss r true de)) as [-> H]; [eauto with nanom|done|].
        split; [done|].
        destruct (perm_round ps M _) as [st'|[]]; cbn -[slots] in *; intuition (congruence || lia).
      * destruct (is_err (e_kind e)) eqn:Hk; cbn; [|done].
        destruct (IH (PermState ss cur false (better de e))) as [-> H]; [done| |].
        { apply deep_ok_better; [done|by destruct (e_kind e)|done]. }
        split; [done|].
        destruct (perm_round ps M _) as [st'|[]]; cbn -[slots] in *; try done.
Qed.

Lemma perm_rounds_good {Ts} (ps : plist Ts) n M M' i st :
  AllGood ps -> wf M i -> agree M M' i -> advances i (pm_cur st) -> deep_ok i (pm_deepest st) ->
  (n + filled (pm_slots st))%nat = length Ts ->
  good_at i (perm_rounds n ps M st) (perm_rounds n ps M' st).
Proof.
  intros Hall Hwf Hag. revert st. induction n as [|n IH]; intros st Hcur Hde Hn; cbn.
  { destruct (get_slots_full (pm_slots st)) as [vs ->]; [lia|]. by split. }
  destruct (perm_round_good ps M M' i
    (PermState (pm_slots st) (pm_cur st) false (pm_deepest st))) as [-> H]; [done..|].
  destruct (perm_round ps M _) as [st'|[e|w]]; cbn in *; [|by split|done].
  destruct H as (Hcur' & Hde' & _ & Hf & _).
  destruct (pm_progressed st'); cbn; [apply IH; [done..|]; rewrite Hf by done; lia|].
  destruct Hde' as [Hk [-> |He]]; cbn.
  - split; [done|]. apply (err_ok_advances _ (pm_cur st')); [done|].
    apply (err_ok_make_err M). eauto with nanom.
  - destruct (String.eqb _ _); split; try done; cbn.
    destruct He as [? ? ? ?]. pose proof (err_ok_advances _ _ _ Hcur'
      (err_ok_make_err M (pm_cur st') "" ltac:(eauto with nanom))) as [_ _ _ Ho].
    constructor; done.
Qed.

#[export] Instance permutation_good {Ts} (ps : plist Ts) : AllGood ps -> Good (permutation ps).
Proof.
  intros Hps M M' i Hwf Hag. apply perm_rounds_good; cbn; eauto with nanom.
  - by split; [|left].
  - rewrite filled_no_slots. lia.
Qed.

(** ** Repetition *)
Lemma size_advances_lt M i r :
  wf M i -> advances i r -> i_first r <> i_first i ->
  (Z.to_nat (size r) < Z.to_nat (size i))%nat.
Proof.
  intros H Ha Hne. pose proof (wf_advances M i r H Ha) as Hr.
  rewrite (size_wf M i H), (size_wf M r Hr). destruct H as [? ? ? _], Ha. lia.
Qed.

Lemma many_fuel_enough i : (Z.to_nat (size i) < many_fuel i)%nat.
Proof. unfold many_fuel. lia. Qed.

(** The loops are proved once: a round either ends the loop or moves to a
    cursor with fewer bytes, within the fuel. *)
Section Loops.
Context {A B : Type} (p : parser A) (step : B -> A -> B) (msg : string).
Context (M M' : memory) (i : input).

Lemma many_loop_good `{!Good p} fuel cur acc :
  wf M i -> agree M M' i -> advances i cur -> (Z.to_nat (size cur) < fuel)%nat ->
  good_at i (many_loop fuel p step msg M cur acc) (many_loop fuel p step msg M' cur acc).
Proof.
  intros Hwf Hag. revert cur acc. induction fuel as [|fuel IH]; intros cur acc Ha Hf; [lia|].
  cbn. pose proof (wf_advances M i cur Hwf Ha) as Hwc.
  call_good p M M' cur; [|destruct (negb _); by split].
  destruct (Z.eqb_spec (i_first r) (i_first cur)); [parser_good|].
  assert (advances cur r) as Hcr.
  { destruct (good (p:=p) M M' cur) as [_ Hc]; eauto with nanom. by rewrite Hp in Hc. }
  apply IH; [done|]. pose proof (size_advances_lt M cur r Hwc Hcr). lia.
Qed.

Lemma many_n_loop_good `{!Good p} fuel n cur got acc :
  wf M i -> agree M M' i -> advances i cur -> (Z.to_nat (size cur) < fuel)%nat ->
  good_at i (many_n_loop fuel n p step msg M cur got acc)
            (many_n_loop fuel n p step msg M' cur got acc).
Proof.
  intros Hwf Hag. revert cur got acc.
  induction fuel as [|fuel IH]; intros cur got acc Ha Hf; [lia|].
  cbn. pose proof (wf_advances M i cur Hwf Ha) as Hwc.
  destruct (n <=? got); [by split|].
  call_good p M M' cur; [|destruct (negb _); by split].
  destruct (Z.eqb_spec (i_first r) (i_first cur)); [parser_good|].
  assert (advances cur r) as Hcr.
  { destruct (good (p:=p) M M' cur) as [_ Hc]; eauto with nanom. by rewrite Hp in Hc. }
  apply IH; [done|]. pose proof (size_advances_lt M cur r Hwc Hcr). lia.
Qed.

Lemma many_loop_stable `{!Stable p} l fuel fuel' cur acc :
  wf M i -> agree M M' i -> i_live i = true -> i_last i <= l -> wf M' (relast l i) ->
  advances i cur -> (Z.to_nat (size cur) < fuel)%nat ->
  (Z.to_nat (size (relast l cur)) < fuel')%nat ->
  stable_at l (many_loop fuel p step msg M cur acc)
              (many_loop fuel' p step msg M' (relast l cur) acc).
Proof.
  intros Hwf Hag Hlive Hl Hwf'. revert fuel' cur acc.
  induction fuel as [|fuel IH]; intros fuel' cur acc Ha Hf Hf'; [lia|].
  destruct fuel' as [|fuel']; [lia|].
  cbn. pose proof (wf_advances M i cur Hwf Ha) as Hwc.
  pose proof (wf_advances M' _ _ Hwf' (relast_advances i cur l Ha Hl)) as Hwc'.
  call_stable p M M' cur l.
  - change (i_first (relast l r)) with (i_first r).
    destruct (Z.eqb_spec (i_first r) (i_first cur)); [parser_stable|].
    assert (advances cur r) as Hcr.
    { destruct (good (p:=p) M M cur) as [_ Hc]; [done|by intros ? ?|]. by rewrite Hp in Hc. }
    assert (i_last cur <= l) by (rewrite (adv_last i cur); done).
    pose proof (size_advances_lt M cur r Hwc Hcr ltac:(done)).
    pose proof (size_advances_lt M' _ _ Hwc' (relast_advances cur r l Hcr ltac:(done)) ltac:(done)).
    apply IH; [done|lia..].
  - rewrite Hst. by left.
  - destruct (negb _); parser_stable.
Qed.

Lemma many_n_loop_stable `{!Stable p} l fuel fuel' n cur got acc :
  wf M i -> agree M M' i -> i_live i = true -> i_last i <= l -> wf M' (relast l i) ->
  advances i cur -> (Z.to_nat (size cur) < fuel)%nat ->
  (Z.to_nat (size (relast l cur)) < fuel')%nat ->
  stable_at l (many_n_loop fuel n p step msg M cur got acc)
              (many_n_loop fuel' n p step msg M' (relast l cur) got acc).
Proof.
  intros Hwf Hag Hlive Hl Hwf'. revert fuel' cur got acc.
  induction fuel as [|fuel IH]; intros fuel' cur got acc Ha Hf Hf'; [lia|].
  destruct fuel' as [|fuel']; [lia|].
  cbn. pose proof (wf_advances M i cur Hwf Ha) as Hwc.
  pose proof (wf_advances M' _ _ Hwf' (relast_advances i cur l Ha Hl)) as Hwc'.
  destruct (n <=? got); [parser_stable|].
  call_stable p M M' cur l.
  - change (i_first (relast l r)) with (i_first r).
    destruct (Z.eqb_spec (i_first r) (i_first cur)); [parser_stable|].
    assert (advances cur r) as Hcr.
    { destruct (good (p:=p) M M cur) as [_ Hc]; [done|by intros ? ?|]. by rewrite Hp in Hc. }
    assert (i_last cur <= l) by (rewrite (adv_last i cur); done).
    pose proof (size_advances_lt M cur r Hwc Hcr ltac:(done)).
    pose proof (size_advances_lt M' _ _ Hwc' (relast_advances cur r l Hcr ltac:(done)) ltac:(done)).
    apply IH; [done|lia..].
  - rewrite Hst. by left.
  - destruct (negb _); parser_stable.
Qed.
End Loops.

#[export] Hint Resolve many_fuel_enough : nanom.

Ltac good_step ::=
  match goal with
  | |- good_at _ (bind _ _) (bind _ _) => eapply good_at_bind; [|intros ? ? ? ?]
  | |- good_at _ (Done _ _) (Done _ _) => apply good_at_done
  | |- good_at _ (make_err _ _) _ => eapply good_at_make_err
  | |- good_at _ (make_incomplete _ _) _ => eapply good_at_make_incomplete
  | |- good_at _ (Err _) (Err _) => apply good_at_err
  | |- good_at _ (many_loop _ _ _ _ _ _ _) _ => eapply many_loop_good
  | |- good_at _ (many_n_loop _ _ _ _ _ _ _ _ _) _ => eapply many_n_loop_good
  | |- good_at _ (?p ?M _) (?p _ _) => eapply good_at_call
  | |- good_at _ (if ?b then _ else _) (if ?b then _ else _) => destruct b
  end.

Section ManyFacts.
Context {A B : Type} (p : parser A) (q : parser B).
Context (init : B) (f : B -> A -> B).

#[export] Instance fold_many0_good : Good p -> Good (fold_many0 p init f).
Proof. intros ?. comb_good @fold_many0. Qed.
#[export] Instance fold_many1_good : Good p -> Good (fold_many1 p init f).
Proof. intros ?. comb_good @fold_many1. Qed.
#[export] Instance fold_many_m_n_good m n : Good p -> Good (fold_many_m_n m n p init f).
Proof. intros ?. comb_good @fold_many_m_n. Qed.
#[export] Instance many0_good : Good p -> Good (many0 p).
Proof. intros ?. comb_good @many0. Qed.
#[export] Instance many1_good : Good p -> Good (many1 p).
Proof. intros ?. comb_good @many1. Qed.
#[export] Instance many_m_n_good m n : Good p -> Good (many_m_n m n p).
Proof. intros ?. comb_good @many_m_n. Qed.

#[export] Instance checked_many0_good n : Good p -> Good (checked_many0 p n).
Proof.
  intros ? M M' i ? ?. unfold checked_many0. eapply good_at_bind; [parser_good|].
  intros [got acc] r _ Hr. cbn. destruct (got <? n); [parser_good|].
  call_good p M M' r; [parser_good|]. destruct (negb _); by split.
Qed.

Lemma many_till_loop_good fuel M M' i cur out :
  Good p -> Good q -> wf M i -> agree M M' i -> advances i cur ->
  (Z.to_nat (size cur) < fuel)%nat ->
  good_at i (many_till_loop fuel p q M cur out) (many_till_loop fuel p q M' cur out).
Proof.
  intros Hgp Hgq Hwf Hag. revert cur out.
  induction fuel as [|fuel IH]; intros cur out Ha Hf; [lia|].
  cbn. pose proof (wf_advances M i cur Hwf Ha) as Hwc.
  call_good q M M' cur. destruct (negb _); [by split|].
  call_good p M M' cur.
  destruct (Z.eqb_spec (i_first r) (i_first cur)); [parser_good|].
  assert (advances cur r) as Hcr.
  { destruct (Hgp M M cur) as [_ Hc]; [done|by intros ? ?|]. by rewrite Hp0 in Hc. }
  apply IH; [done|]. pose proof (size_advances_lt M cur r Hwc Hcr). lia.
Qed.

#[export] Instance many_till_good : Good p -> Good q -> Good (many_till p q).
Proof. intros ? ? M M' i ? ?. apply many_till_loop_good; eauto with nanom. Qed.

Lemma count_loop_good n M M' i cur out :
  Good p -> wf M i -> agree M M' i -> advances i cur ->
  good_at i (count_loop n p M cur out) (count_loop n p M' cur out).
Proof.
  intros Hgp Hwf Hag. revert cur out. induction n as [|n IH]; intros cur out Ha; cbn; parser_good.
Qed.

#[export] Instance count_good vmax n : n <= vmax -> Good p -> Good (count vmax p n).
Proof.
  intros Hn Hp M M' i ? ?. unfold count. destruct (Z.ltb_spec vmax n); [lia|].
  apply count_loop_good; eauto with nanom.
Qed.

Lemma separated_loop_good fuel M M' i cur out :
  Good p -> Good q -> wf M i -> agree M M' i -> advances i cur ->
  (Z.to_nat (size cur) < fuel)%nat ->
  good_at i (separated_loop fuel q p M cur out) (separated_loop fuel q p M' cur out).
Proof.
  intros Hgp Hgq Hwf Hag. revert cur out.
  induction fuel as [|fuel IH]; intros cur out Ha Hf; [lia|].
  cbn. pose proof (wf_advances M i cur Hwf Ha) as Hwc.
  assert (Hrc : advances cur cur) by eauto with nanom.
  assert (Hac : agree M M' cur) by eauto with nanom.
  destruct (good_at_call M M' cur cur q Hwc Hac Hrc) as [-> Hq].
  destruct (q M cur) as [v rs|e|w]; cbn in Hq; [|destruct (is_fail _); split; cbn; eauto with nanom|done].
  destruct (good_at_call M M' cur rs p Hwc Hac Hq) as [-> Hpp].
  destruct (p M rs) as [u r|e|w]; cbn in Hpp; [|destruct (is_fail _); split; cbn; eauto with nanom|done].
  destruct (Z.eqb_spec (i_first r) (i_first cur)); [parser_good|].
  apply IH; [eauto with nanom|]. pose proof (size_advances_lt M cur r Hwc Hpp). lia.
Qed.

#[export] Instance separated_list0_good : Good q -> Good p -> Good (separated_list0 q p).
Proof.
  intros ? ? M M' i Hwf Hag. unfold separated_list0.
  assert (Hr : advances i i) by eauto with nanom. call_good p M M' i.
  - apply separated_loop_good; eauto with nanom.
  - destruct (is_fail _); by split.
Qed.

#[export] Instance separated_list1_good : Good q -> Good p -> Good (separated_list1 q p).
Proof.
  intros ? ? M M' i Hwf Hag. unfold separated_list1. eapply good_at_bind; [parser_good|].
  intros [] r _ Hr; parser_good.
Qed.
End ManyFacts.

Ltac stable_step ::=
  match goal with
  | |- stable_at _ (bind (many_loop _ _ _ _ _ _ _) _) (bind _ _) =>
      eapply stable_at_bind; [eapply many_loop_stable|eapply many_loop_good|intros ? ? ? ? ?]
  | |- stable_at _ (bind (many_n_loop _ _ _ _ _ _ _ _ _) _) (bind _ _) =>
      eapply stable_at_bind; [eapply many_n_loop_stable|eapply many_n_loop_good|intros ? ? ? ? ?]
  | |- stable_at _ (bind _ _) (bind _ _) =>
      eapply stable_at_bind; [|eapply good_at_call|intros ? ? ? ? ?]
  | |- stable_at _ (Done _ _) (Done _ _) => apply stable_at_done
  | |- stable_at _ (make_err _ _) _ => apply stable_at_make_err
  | |- stable_at _ (make_incomplete _ _) _ => eapply stable_at_make_incomplete
  | |- stable_at _ (Err _) (Err _) => apply stable_at_err
  | |- stable_at _ (many_loop _ _ _ _ _ _ _) _ => eapply many_loop_stable
  | |- stable_at _ (?p ?M _) (?p _ _) => eapply stable_at_call
  | |- stable_at _ (if ?b then _ else _) (if ?b then _ else _) => destruct b
  | |- agree ?M ?M _ => intros ? ?; reflexivity
  end.

Section ManyStable.
Context {A B : Type} (p : parser A) (q : parser B).
Context (init : B) (f : B -> A -> B).

#[export] Instance fold_many0_stable : Stable p -> Stable (fold_many0 p init f).
Proof. intros ?. comb_stable @fold_many0. Qed.
#[export] Instance fold_many1_stable : Stable p -> Stable (fold_many1 p init f).
Proof. intros ?. comb_stable @fold_many1. Qed.
#[export] Instance fold_many_m_n_stable m n : Stable p -> Stable (fold_many_m_n m n p init f).
Proof. intros ?. comb_stable @fold_many_m_n. Qed.
#[export] Instance many0_stable : Stable p -> Stable (many0 p).
Proof. intros ?. comb_stable @many0. Qed.
#[export] Instance many1_stable : Stable p -> Stable (many1 p).
Proof. intros ?. comb_stable @many1. Qed.
#[export] Instance many_m_n_stable m n : Stable p -> Stable (many_m_n m n p).
Proof. intros ?. comb_stable @many_m_n. Qed.

Lemma many_till_loop_stable fuel fuel' M M' i l cur out :
  Stable p -> Stable q ->
  wf M i -> agree M M' i -> i_live i = true -> i_last i <= l -> wf M' (relast l i) ->
  advances i cur -> (Z.to_nat (size cur) < fuel)%nat ->
  (Z.to_nat (size (relast l cur)) < fuel')%nat ->
  stable_at l (many_till_loop fuel p q M cur out) (many_till_loop fuel' p q M' (relast l cur) out).
Proof.
  intros Hgp Hgq Hwf Hag Hlive Hl Hwf'. revert fuel' cur out.
  induction fuel as [|fuel IH]; intros fuel' cur out Ha Hf Hf'; [lia|].
  destruct fuel' as [|fuel']; [lia|].
  cbn. pose proof (wf_advances M i cur Hwf Ha) as Hwc.
  pose proof (wf_advances M' _ _ Hwf' (relast_advances i cur l Ha Hl)) as Hwc'.
  call_stable q M M' cur l; [parser_stable|rewrite Hst; by left|].
  destruct (negb _); [parser_stable|].
  call_stable p M M' cur l; [|by left|by right].
  change (i_first (relast l r)) with (i_first r).
  destruct (Z.eqb_spec (i_first r) (i_first cur)); [parser_stable|].
  assert (advances cur r) as Hcr.
  { destruct (good (p:=p) M M cur) as [_ Hc]; [done|by intros ? ?|]. by rewrite Hp0 in Hc. }
  assert (i_last cur <= l) by (rewrite (adv_last i cur); done).
  pose proof (size_advances_lt M cur r Hwc Hcr ltac:(done)).
  pose proof (size_advances_lt M' _ _ Hwc' (relast_advances cur r l Hcr ltac:(done)) ltac:(done)).
  apply IH; [done|lia..].
Qed.

#[export] Instance many_till_stable : Stable p -> Stable q -> Stable (many_till p q).
Proof.
  intros ? ?. split; [apply _|]. prim_intro_stable.
  apply (many_till_loop_stable _ _ M M' i l); eauto with nanom.
Qed.

Lemma count_loop_stable n M M' i l cur out :
  Stable p ->
  wf M i -> agree M M' i -> i_live i = true -> i_last i <= l -> wf M' (relast l i) ->
  advances i cur -> stable_at l (count_loop n p M cur out) (count_loop n p M' (relast l cur) out).
Proof.
  intros Hgp Hwf Hag Hlive Hl Hwf'. revert cur out.
  induction n as [|n IH]; intros cur out Ha; cbn; parser_stable.
Qed.

#[export] Instance count_stable vmax n : n <= vmax -> Stable p -> Stable (count vmax p n).
Proof.
  intros Hn ?. split; [by apply count_good; [|apply _]|]. prim_intro_stable. unfold count.
  destruct (Z.ltb_spec vmax n); [lia|]. by apply (count_loop_stable _ M M' i l).
Qed.
End ManyStable.

(** ** Length prefixes *)
Section LengthFacts.
Context {A : Type} (np : parser Z) (p : parser A).

#[export] Instance length_data_good : Good np -> Good (length_data np).
Proof. intros ?. comb_good @length_data. Qed.
#[export] Instance length_data_stable : Stable np -> Stable (length_data np).
Proof. intros ?. comb_stable @length_data. Qed.

(** The slice lies between where the prefix ended and where [rest] starts. *)
Lemma length_data_span M i d r : Good np -> wf M i -> length_data np M i = Done d r ->
  i_first i <= b_data d /\ 0 <= b_size d /\ b_data d + b_size d = i_first r /\ advances i r.
Proof.
  intros Hn Hwf. unfold length_data.
  destruct (Hn M M i Hwf) as [_ Hp]; [by intros ? ?|].
  destruct (np M i) as [n r0|e|w]; cbn in *; [|done..].
  pose proof (wf_advances M i r0 Hwf Hp) as Hwf0.
  unfold take. pose proof (nonneg_u64 n) as Hn0; red in Hn0.
  destruct (Z.ltb_spec (size r0) (u64 n)); [done|]. intros [= <- <-].
  pose proof (advances_advance M r0 (u64 n) Hwf0 ltac:(lia)).
  cbn. pose proof (adv_lo i r0 Hp). split_and!; [lia|lia|done|eauto with nanom].
Qed.

#[export] Instance length_value_good : Good np -> Good p -> Good (length_value np p).
Proof.
  intros Hn Hg M M' i Hwf Hag. unfold length_value. eapply good_at_bind; [parser_good|].
  intros d r Hd Hr. destruct (length_data_span M i d r Hn Hwf Hd) as (? & ? & He & _).
  pose proof (adv_hi i r Hr). pose proof (adv_last i r Hr).
  destruct (Hg M M' (with_range i (b_data d) (b_data d + b_size d))) as [-> Hp].
  { apply wf_sub; [done|lia..]. }
  { apply agree_sub; [done|lia..]. }
  destruct (p M _) as [v r'|e|w]; cbn in Hp; [parser_good| |done].
  apply (err_ok_sub i) in Hp; [|lia..].
  split; [done|]. cbn. destruct (is_incomplete _); [|done].
  apply err_ok_set_expected. by apply err_ok_set_kind.
Qed.

(** The slice is complete once its length is: the inner parser need not be
    stable, only good. *)
#[export] Instance length_value_stable : Stable np -> Good p -> Stable (length_value np p).
Proof.
  intros Hn Hg. split; [apply _|]. prim_intro_stable. unfold length_value.
  eapply (stable_at_bind i);
    [apply (stable_at_call M M' i i l (length_data np)); done
    |apply (good_at_call M M i i (length_data np)); by try intros ? ?|].
  intros d r Hd _ Hr. destruct (length_data_span M i d r stable_good Hwf Hd) as (? & ? & He & _).
  pose proof (adv_hi i r Hr). pose proof (adv_last i r Hr).
  change (with_range (relast l i) ?a ?b) with (with_range i a b).
  destruct (Hg M M' (with_range i (b_data d) (b_data d + b_size d))) as [-> Hp].
  { apply wf_sub; [done|lia..]. }
  { apply agree_sub; [done|lia..]. }
  destruct (p M _) as [v r'|e|w]; cbn in Hp; [parser_stable..|done].
Qed.

(** A prefix parser whose counts fit the vector's [max_size()]. *)
Definition bounded (vmax : Z) : Prop :=
  forall M i v r, np M i = Done v r -> u64 v <= vmax.

#[export] Instance length_count_good vmax :
  bounded vmax -> Good np -> Good p -> Good (length_count vmax np p).
Proof.
  intros Hb Hn Hp M M' i Hwf Hag. unfold length_count. eapply good_at_bind; [parser_good|].
  intros v r Hv Hr. apply Hb in Hv.
  pose proof (count_good p vmax (u64 v) Hv Hp).
  apply (good_at_call M M' i r (count vmax p (u64 v))); done.
Qed.

#[export] Instance length_count_stable vmax :
  bounded vmax -> Stable np -> Stable p -> Stable (length_count vmax np p).
Proof.
  intros Hb Hn Hp. split; [by apply length_count_good; try apply _|].
  prim_intro_stable. unfold length_count.
  eapply (stable_at_bind i);
    [apply (stable_at_call M M' i i l np); done
    |apply (good_at_call M M i i np); by try intros ? ?|].
  intros v r Hv _ Hr. apply Hb in Hv.
  pose proof (count_stable p vmax (u64 v) Hv Hp).
  apply (stable_at_call M M' i r l (count vmax p (u64 v))); done.
Qed.
End LengthFacts.

(** ** Modifiers *)
Section ModifierFacts.
Context {A B : Type} (p : parser A) (q : parser B).

#[export] Instance map_good (f : A -> B) : Good p -> Good (map p f).
Proof. intros ?. comb_good @map. Qed.
#[export] Instance map_stable (f : A -> B) : Stable p -> Stable (map p f).
Proof. intros ?. comb_stable @map. Qed.
#[export] Instance map_opt_good (f : A -> option B) : Good p -> Good (map_opt p f).
Proof. intros ? M M' i ? ?. unfold map_opt. parser_good. destruct (f v); parser_good. Qed.
#[export] Instance map_opt_stable (f : A -> option B) : Stable p -> Stable (map_opt p f).
Proof.
  intros ?. split; [apply _|]. prim_intro_stable. unfold map_opt. parser_stable.
  destruct (f v); parser_stable.
Qed.
#[export] Instance flat_map_good (f : A -> parser B) :
  Good p -> (forall v, Good (f v)) -> Good (flat_map p f).
Proof. intros ? ?. comb_good @flat_map. Qed.
#[export] Instance flat_map_stable (f : A -> parser B) :
  Stable p -> (forall v, Stable (f v)) -> Stable (flat_map p f).
Proof. intros ? ?. comb_stable @flat_map. Qed.
#[export] Instance opt_good : Good p -> Good (opt p).
Proof.
  intros ? M M' i Hwf Hag. unfold opt. assert (Hr : advances i i) by eauto with nanom.
  call_good p M M' i. destruct (is_fail _); by split.
Qed.
#[export] Instance cond_good b : Good p -> Good (cond b p).
Proof. intros ?. comb_good @cond. Qed.
#[export] Instance cond_stable b : Stable p -> Stable (cond b p).
Proof. intros ?. comb_stable @cond. Qed.
#[export] Instance peek_good : Good p -> Good (peek p).
Proof. intros ?. comb_good @peek. Qed.
#[export] Instance peek_stable : Stable p -> Stable (peek p).
Proof. intros ?. comb_stable @peek. Qed.
#[export] Instance not_good : Good p -> Good (not_ p).
Proof.
  intros ? M M' i Hwf Hag. unfold not_. assert (Hr : advances i i) by eauto with nanom.
  call_good p M M' i; [parser_good|]. destruct (is_fail _); by split.
Qed.
#[export] Instance recognize_good : Good p -> Good (recognize p).
Proof. intros ?. comb_good @recognize. Qed.
#[export] Instance recognize_stable : Stable p -> Stable (recognize p).
Proof. intros ?. comb_stable @recognize. Qed.
#[export] Instance consumed_good : Good p -> Good (consumed p).
Proof. intros ?. comb_good @consumed. Qed.
#[export] Instance consumed_stable : Stable p -> Stable (consumed p).
Proof. intros ?. comb_stable @consumed. Qed.
#[export] Instance value_good (v : B) : Good p -> Good (value v p).
Proof. intros ?. comb_good @value. Qed.
#[export] Instance value_stable (v : B) : Stable p -> Stable (value v p).
Proof. intros ?. comb_stable @value. Qed.
#[export] Instance verify_good pred : Good p -> Good (verify p pred).
Proof. intros ?. comb_good @verify. Qed.
#[export] Instance verify_stable pred : Stable p -> Stable (verify p pred).
Proof. intros ?. comb_stable @verify. Qed.
#[export] Instance success_stable (v : A) : Stable (success v).
Proof.
  split; [intros M M' i ? ?; unfold success; parser_good|].
  prim_intro_stable. unfold success. parser_stable.
Qed.
#[export] Instance fail_stable why : Stable (fail_ why).
Proof.
  split; [intros M M' i ? ?; unfold fail_; parser_good|].
  prim_intro_stable. unfold fail_. parser_stable.
Qed.

(** The modifiers that only rewrite the error. *)
Definition map_error (g : error -> error) (o : result A) : result A :=
  match o with Err e => Err (g e) | x => x end.

Lemma good_map_error i (o o' : result A) (g : error -> error) :
  (forall e, err_ok i e -> err_ok i (g e)) -> good_at i o o' ->
  good_at i (map_error g o) (map_error g o').
Proof. intros Hg [-> Hp]. destruct o; split; cbn in *; auto. Qed.

Lemma stable_map_error l (o o' : result A) (g : error -> error) :
  (forall e, e_kind e = errk_incomplete -> e_kind (g e) = errk_incomplete) ->
  stable_at l o o' -> stable_at l (map_error g o) (map_error g o').
Proof.
  intros Hg Hs. destruct o; cbn in *; [by subst| |by subst].
  destruct Hs as [Hk| ->]; [left; auto|by right].
Qed.

Lemma cut_eq M i : cut p M i =
  map_error (fun e => if is_err (e_kind e) then set_kind errk_fail e else e) (p M i).
Proof. unfold cut, map_error. destruct (p M i); [done| |done]. by case_match. Qed.

Lemma complete_eq M i : complete p M i =
  map_error (fun e => if is_incomplete (e_kind e) then set_kind errk_err e else e) (p M i).
Proof. unfold complete, map_error. destruct (p M i); [done| |done]. by case_match. Qed.

Lemma context_eq label M i :
  context label p M i = map_error (push_context label (offset i)) (p M i).
Proof. unfold context, map_error. by destruct (p M i). Qed.

#[export] Instance cut_good : Good p -> Good (cut p).
Proof.
  intros ? M M' i ? ?. rewrite !cut_eq. apply good_map_error; [|parser_good].
  intros e He. case_match; [|done]. by apply err_ok_set_kind.
Qed.
#[export] Instance cut_stable : Stable p -> Stable (cut p).
Proof.
  intros ?. split; [apply _|]. prim_intro_stable. rewrite !cut_eq.
  apply stable_map_error; [|parser_stable]. intros e He. by rewrite He.
Qed.
#[export] Instance complete_good : Good p -> Good (complete p).
Proof.
  intros ? M M' i ? ?. rewrite !complete_eq. apply good_map_error; [|parser_good].
  intros e He. case_match; [|done]. by apply err_ok_set_kind.
Qed.
#[export] Instance context_good label : Good p -> Good (context label p).
Proof.
  intros ? M M' i ? ?.
  rewrite !context_eq. apply good_map_error; [|parser_good].
  eauto with nanom.
Qed.
#[export] Instance context_stable label : Stable p -> Stable (context label p).
Proof.
  intros ?. split; [apply _|]. prim_intro_stable.
  rewrite !context_eq. apply stable_map_error; [|parser_stable].
  intros e He. unfold push_context. by case_bool_decide.
Qed.
#[export] Instance all_consuming_good : Good p -> Good (all_consuming p).
Proof. intros ?. comb_good @all_consuming. Qed.

#[export] Instance map_parser_good (s : parser bytes) :
  Good s -> Spans s -> Good q -> Good (map_parser s q).
Proof.
  intros Hs Hsp Hq M M' i Hwf Hag. unfold map_parser. eapply good_at_bind; [parser_good|].
  intros b r Hb Hr. destruct (Hsp M i b r Hwf Hb) as (? & ? & ?).
  destruct (Hq M M' (with_range i (b_data b) (b_data b + b_size b))) as [-> Hp].
  { apply wf_sub; [done|lia..]. }
  { apply agree_sub; [done|lia..]. }
  destruct (q M _) as [v r'|e|w]; cbn in *; [by split| |done].
  split; [done|]. cbn. eapply err_ok_sub; [..|done]; lia.
Qed.
End ModifierFacts.
