(* ===== verification/Numbers.v ===== *)
(** * Binary numbers (nom.hpp, sections 12 to 12d)

    Fixed-width integers of either byte order, the LEB128 family with zigzag,
    the hostile-count guards and the little-endian array view. A float is
    represented by its bit pattern, on which [std::bit_cast] is the identity. *)
From S2P Require Import Prelude Parser BytesParsers Combinators CombinatorFacts.

Inductive endian := big | little.

(** Bits of [uint_for_bytes<Bytes>]. *)
Definition uint_for_bytes (n : Z) : Z :=
  if n <=? 1 then 8 else if n <=? 2 then 16 else if n <=? 4 then 32 else 64.

(** The two loops of [read_uint], [n] bytes from index [k]. *)
Fixpoint read_be (n : nat) (w : Z) (M : memory) (i : input) (k v : Z) : option Z :=
  match n with
  | O => Some v
  | S n =>
      match at_ M i k with
      | None => None
      | Some b => read_be n w M i (k + 1) (Z.lor (wrap w (Z.shiftl v 8)) b)
      end
  end.

Fixpoint read_le (n : nat) (w : Z) (M : memory) (i : input) (k v : Z) : option Z :=
  match n with
  | O => Some v
  | S n =>
      match at_ M i k with
      | None => None
      | Some b => read_le n w M i (k + 1) (Z.lor v (wrap w (Z.shiftl b (8 * k))))
      end
  end.

Definition read_uint (n : Z) (order : endian) : parser Z := fun M i =>
  if size i <? n then make_incomplete i (n - size i)
  else
    let w := uint_for_bytes n in
    match (match order with
           | big => read_be (Z.to_nat n) w M i 0 0
           | little => read_le (Z.to_nat n) w M i 0 0
           end) with
    | None => Stop UB
    | Some v => Done v (advance i n)
    end.

Definition be_u8 := read_uint 1 big.
Definition be_u16 := read_uint 2 big.
Definition be_u24 := read_uint 3 big.
Definition be_u32 := read_uint 4 big.
Definition be_u48 := read_uint 6 big.
Definition be_u64 := read_uint 8 big.
Definition le_u8 := read_uint 1 little.
Definition le_u16 := read_uint 2 little.
Definition le_u24 := read_uint 3 little.
Definition le_u32 := read_uint 4 little.
Definition le_u48 := read_uint 6 little.
Definition le_u64 := read_uint 8 little.

Definition read_int (n : Z) (order : endian) : parser Z := fun M i =>
  let* (v, r) := read_uint n order M i in Done (sint (uint_for_bytes n) v) r.

Definition be_i8 := read_int 1 big.
Definition be_i16 := read_int 2 big.
Definition be_i32 := read_int 4 big.
Definition be_i64 := read_int 8 big.
Definition le_i8 := read_int 1 little.
Definition le_i16 := read_int 2 little.
Definition le_i32 := read_int 4 little.
Definition le_i64 := read_int 8 little.

Definition read_float (n : Z) (order : endian) : parser Z := fun M i =>
  let* (v, r) := read_uint n order M i in Done v r.
Definition be_f32 := read_float 4 big.
Definition be_f64 := read_float 8 big.
Definition le_f32 := read_float 4 little.
Definition le_f64 := read_float 8 little.

(** Native order is the target's. *)
Definition ne_u16 (native : endian) := read_uint 2 native.
Definition ne_u32 (native : endian) := read_uint 4 native.
Definition ne_u64 (native : endian) := read_uint 8 native.

(** [uint_<T>(order)] for a [T] of [n] bytes. *)
Definition uint_ (n : Z) (signed : bool) (order : endian) : parser Z := fun M i =>
  let* (v, r) := read_uint n order M i in
  Done (if signed then sint (8 * n) v else v) r.

(** ** Variable-length integers *)
Definition leb128_max_bytes (w : Z) : Z := (w + 6) / 7.

Definition zigzag_decode (w u : Z) : Z :=
  sint w (wrap w (Z.lxor (Z.shiftr u 1) (wrap w (0 - Z.land u 1)))).

Definition zigzag_encode (w s : Z) : Z :=
  wrap w (Z.lxor (wrap w (Z.shiftl (wrap w s) 1)) (wrap w (0 - Z.shiftr (wrap w s) (w - 1)))).

(** The loop of [read_uleb128] with [n] = [avail - k] bytes left. *)
Fixpoint uleb_loop (n : nat) (w : Z) (M : memory) (i : input) (k v : Z) : result Z :=
  match n with
  | O => make_incomplete (advance i (size i)) 1
  | S n =>
      let! b := at_ M i k in
      if k + 1 =? leb128_max_bytes w then
        if negb (Z.land b 128 =? 0) ||
           negb (Z.shiftr b (w - 7 * (leb128_max_bytes w - 1)) =? 0)
        then make_err i "varint fitting the target width"
        else Done (wrap w (Z.lor v (Z.shiftl b (7 * k)))) (advance i (k + 1))
      else
        let v' := Z.lor v (wrap w (Z.shiftl (Z.land b 127) (7 * k))) in
        if Z.land b 128 =? 0 then Done v' (advance i (k + 1))
        else uleb_loop n w M i (k + 1) v'
  end.

Definition read_uleb128 (w : Z) : parser Z := fun M i =>
  let max_bytes := leb128_max_bytes w in
  let avail := if size i <? max_bytes then size i else max_bytes in
  uleb_loop (Z.to_nat avail) w M i 0 0.

Definition uleb128 (w : Z) : parser Z := read_uleb128 w.

(** The loop of [sleb128]. *)
Fixpoint sleb_loop (n : nat) (w : Z) (M : memory) (i : input) (k v : Z) : result Z :=
  match n with
  | O => make_incomplete (advance i (size i)) 1
  | S n =>
      let! b := at_ M i k in
      let shift := 7 * k in
      let v := Z.lor v (wrap w (Z.shiftl (Z.land b 127) shift)) in
      if Z.land b 128 =? 0 then
        if k + 1 =? leb128_max_bytes w then
          let used := w - shift in
          let sign_ext := u8 (Z.shiftr (Z.land b 127) (used - 1)) in
          if negb (sign_ext =? 0) && negb (sign_ext =? Z.shiftr 127 (used - 1))
          then make_err i "sleb128 fitting the target width"
          else Done (sint w v) (advance i (k + 1))
        else
          let v := if negb (Z.land b 64 =? 0) && (shift + 7 <? w)
                   then Z.lor v (wrap w (Z.shiftl (2 ^ w - 1) (shift + 7))) else v in
          Done (sint w v) (advance i (k + 1))
      else if k + 1 =? leb128_max_bytes w then make_err i "sleb128 fitting the target width"
      else sleb_loop n w M i (k + 1) v
  end.

Definition sleb128 (w : Z) : parser Z := fun M i =>
  let max_bytes := leb128_max_bytes w in
  let avail := if size i <? max_bytes then size i else max_bytes in
  sleb_loop (Z.to_nat avail) w M i 0 0.

Definition zigzag_varint (w : Z) : parser Z := fun M i =>
  let wu := if w <? 32 then 32 else w in
  let* (u, r) := read_uleb128 wu M i in
  let wide := zigzag_decode wu u in
  if (wide <? - 2 ^ (w - 1)) || (2 ^ (w - 1) - 1 <? wide)
  then make_err i "zigzag varint in range"
  else Done wide r.

Definition varint_u32 : parser Z := read_uleb128 32.
Definition varint_u64 : parser Z := read_uleb128 64.

(** [uleb128_encode]: the bytes written, in a loop of at most [fuel] rounds
    (enough for the width, by [uleb128_encode_spec]). *)
Fixpoint uleb_enc_loop (fuel : nat) (v : Z) : list Z :=
  match fuel with
  | O => []
  | S fuel =>
      if 128 <=? v then Z.lor (u8 v) 128 :: uleb_enc_loop fuel (Z.shiftr v 7)
      else [u8 v]
  end.

Definition uleb128_encode (w v : Z) : list Z := uleb_enc_loop (Z.to_nat (leb128_max_bytes w)) v.

(** ** Hostile-count guards *)
Definition count_fits (i : input) (count min_item_bytes : Z) : bool :=
  if min_item_bytes =? 0 then true else count <=? size i / min_item_bytes.

Definition checked_mul (w a b : Z) : option Z := if a * b <? 2 ^ w then Some (a * b) else None.
Definition checked_add (w a b : Z) : option Z := if a + b <? 2 ^ w then Some (a + b) else None.

(** ** Little-endian arrays: a span of [la_n] elements of [sz] bytes *)
Record le_array := LeArray { la_raw : bytes; la_n : Z }.

Fixpoint le_elem (n : nat) (w : Z) (M : memory) (p k u : Z) : option Z :=
  match n with
  | O => Some u
  | S n =>
      match M (p + k) with
      | None => None
      | Some b => le_elem n w M p (k + 1) (Z.lor u (wrap w (Z.shiftl b (8 * k))))
      end
  end.

(** [operator[]]: unchecked; the element's bit pattern. *)
Definition le_index (sz : Z) (M : memory) (a : le_array) (i : Z) : option Z :=
  le_elem (Z.to_nat sz) (uint_for_bytes sz) M (b_data (la_raw a) + i * sz) 0 0.

(** [at]: [Some None] is [nullopt]. *)
Definition le_at (sz : Z) (M : memory) (a : le_array) (i : Z) : option (option Z) :=
  if la_n a <=? i then Some None
  else match le_index sz M a i with Some v => Some (Some v) | None => None end.

Definition le_array_of (sz n : Z) : parser le_array := fun M i =>
  if negb (count_fits i n sz) then
    let need := if size_max / sz <? n then size_max else n * sz - size i in
    make_incomplete i need
  else Done (LeArray (take_span i (n * sz)) n) (advance i (n * sz)).

(** ** Fixed-width integers *)
Lemma uint_for_bytes_fits n : 1 <= n <= 8 -> 8 * n <= uint_for_bytes n <= 64.
Proof. intros. unfold uint_for_bytes. repeat case_match; lia. Qed.

Section FixedWidth.
Context (M : memory) (i : input).

Lemma read_be_spec w l k v : bytes_ok l -> holds M (i_first i + k) l ->
  0 <= v -> 0 <= k -> v < 2 ^ (8 * k) -> 8 * (k + zlen l) <= w ->
  read_be (length l) w M i k v = Some (v * 2 ^ (8 * zlen l) + be_val l).
Proof.
  intros Hl. revert k v. induction Hl as [|b l Hb Hl IH]; intros k v Hh Hv Hk Hvk Hw.
  - unfold be_val, zlen; cbn. f_equal. lia.
  - cbn [length read_be]. destruct Hh as [Hb0 Hh]. unfold at_. rewrite Hb0.
    rewrite <- Z.add_assoc in Hh.
    assert (Hz : zlen (b :: l) = zlen l + 1) by (unfold zlen; cbn; lia).
    pose proof (zlen_nonneg l).
    assert (Hp : 2 ^ (8 * (k + 1)) = 256 * 2 ^ (8 * k)).
    { replace (8 * (k + 1)) with (8 + 8 * k) by lia. by rewrite Z.pow_add_r by lia. }
    assert (Z.lor (wrap w (Z.shiftl v 8)) b = v * 256 + b) as ->.
    { assert (2 ^ (8 * (k + 1)) <= 2 ^ w) by (apply Z.pow_le_mono_r; lia).
      rewrite wrap_small by (rewrite Z.shiftl_mul_pow2 by lia; lia).
      rewrite Z.lor_comm, lor_shiftl_add by (try exact Hb; lia). lia. }
    rewrite IH; [|done|unfold is_byte in Hb; lia..].
    f_equal. rewrite be_val_cons, Hz. fold (zlen l).
    replace (8 * (zlen l + 1)) with (8 + 8 * zlen l) by lia.
    rewrite Z.pow_add_r by lia. lia.
Qed.

Lemma read_le_spec w l k v : bytes_ok l -> holds M (i_first i + k) l ->
  0 <= v -> 0 <= k -> v < 2 ^ (8 * k) -> 8 * (k + zlen l) <= w ->
  read_le (length l) w M i k v = Some (v + 2 ^ (8 * k) * le_val l).
Proof.
  intros Hl. revert k v. induction Hl as [|b l Hb Hl IH]; intros k v Hh Hv Hk Hvk Hw.
  - cbn. f_equal. lia.
  - cbn [length read_le]. destruct Hh as [Hb0 Hh]. unfold at_. rewrite Hb0.
    rewrite <- Z.add_assoc in Hh.
    assert (Hz : zlen (b :: l) = zlen l + 1) by (unfold zlen; cbn; lia).
    pose proof (zlen_nonneg l). unfold is_byte in Hb.
    assert (Hp : 2 ^ (8 * (k + 1)) = 256 * 2 ^ (8 * k)).
    { replace (8 * (k + 1)) with (8 + 8 * k) by lia. by rewrite Z.pow_add_r by lia. }
    assert (2 ^ (8 * (k + 1)) <= 2 ^ w) by (apply Z.pow_le_mono_r; lia).
    rewrite wrap_small by (rewrite Z.shiftl_mul_pow2 by lia; nia).
    rewrite lor_shiftl_add by lia.
    rewrite IH; [|done|nia..]. f_equal. cbn [le_val]. rewrite Hp. lia.
Qed.

(** The value [read_uint] reads from the bytes [l]. *)
Definition uint_val (order : endian) (l : list Z) : Z :=
  match order with big => be_val l | little => le_val l end.

Lemma read_uint_holds n order l :
  1 <= n <= 8 -> zlen l = n -> bytes_ok l -> holds M (i_first i) l -> n <= size i ->
  read_uint n order M i = Done (uint_val order l) (advance i n).
Proof.
  intros Hn Hz Hl Hh Hs. unfold read_uint. destruct (Z.ltb_spec (size i) n); [lia|].
  replace (Z.to_nat n) with (length l) by (unfold zlen in Hz; lia).
  pose proof (uint_for_bytes_fits n Hn) as Hw.
  assert (holds M (i_first i + 0) l) by by rewrite Z.add_0_r.
  destruct order; cbn.
  - rewrite read_be_spec by (done || lia). done.
  - rewrite read_le_spec by (done || lia). cbn. f_equal. lia.
Qed.
End FixedWidth.

(** A parser that, given enough bytes, decides by their values alone. *)
Lemma read_uint_cases M i n order : 1 <= n <= 8 -> wf M i ->
  (size i < n /\ read_uint n order M i = make_incomplete i (n - size i)) \/
  (n <= size i /\ exists l, holds M (i_first i) l /\ zlen l = n /\ bytes_ok l /\
     read_uint n order M i = Done (uint_val order l) (advance i n)).
Proof.
  intros Hn Hwf. destruct (Z.lt_ge_cases (size i) n) as [Hs|Hs].
  - left. split; [done|]. unfold read_uint. by destruct (Z.ltb_spec (size i) n); [|lia].
  - right. split; [done|]. destruct (wf_holds M i (Z.to_nat n) Hwf) as (l & Hh & Hlen & Hl); [lia|].
    assert (zlen l = n) by (unfold zlen; lia).
    exists l. split_and!; [done..|]. by apply read_uint_holds.
Qed.

Lemma holds_agree M M' lo hi a l :
  (forall x, lo <= x < hi -> M' x = M x) -> lo <= a -> a + zlen l <= hi -> holds M a l -> holds M' a l.
Proof.
  intros Ha. revert a. induction l as [|b t IH]; intros a Hlo Hhi; cbn; [done|].
  unfold zlen in *; cbn [length] in *. intros [Hb Ht]. rewrite Ha by lia. split; [done|].
  apply IH; [lia..|done].
Qed.

#[export] Instance read_uint_stable n order : 1 <= n <= 8 -> Stable (read_uint n order).
Proof.
  intros Hn. split.
  - prim_intro. destruct (read_uint_cases M i n order Hn Hwf) as [[? ->]|(? & l & Hh & Hz & Hl & ->)].
    + unfold read_uint. destruct (Z.ltb_spec (size i) n); [prim_good|lia].
    + erewrite (read_uint_holds M' i); [|done..| |done]; [prim_good|].
      eapply holds_agree; [exact Hag|lia..|done].
  - prim_intro_stable.
    destruct (read_uint_cases M i n order Hn Hwf) as [[? ->]|(? & l0 & Hh & Hz & Hl0 & ->)].
    + parser_stable.
    + erewrite (read_uint_holds M' (relast l i)); [parser_stable|done..| |lia].
      eapply holds_agree; [exact Hag|cbn; lia..|done].
Qed.
#[export] Hint Extern 5 (_ <= _ <= _) => lia : typeclass_instances.

#[export] Instance read_int_stable n order : 1 <= n <= 8 -> Stable (read_int n order).
Proof.
  intros. split; [intros M M' i ? ?; unfold read_int; parser_good|].
  prim_intro_stable. unfold read_int. parser_stable.
Qed.

#[export] Instance uint_stable n sg order : 1 <= n <= 8 -> Stable (uint_ n sg order).
Proof.
  intros. split; [intros M M' i ? ?; unfold uint_; parser_good|].
  prim_intro_stable. unfold uint_. parser_stable.
Qed.

#[export] Instance read_float_stable n order : 1 <= n <= 8 -> Stable (read_float n order).
Proof.
  intros. split; [intros M M' i ? ?; unfold read_float; parser_good|].
  prim_intro_stable. unfold read_float. parser_stable.
Qed.

(** ** LEB128

    The integer a byte sequence denotes, seven bits a byte, and its shape:
    every byte but the last has the continuation bit. *)
Fixpoint uleb_val (l : list Z) : Z :=
  match l with [] => 0 | b :: t => Z.land b 127 + 128 * uleb_val t end.

Fixpoint leb_shape (l : list Z) : bool :=
  match l with
  | [] => false
  | [b] => b <? 128
  | b :: t => (128 <=? b) && leb_shape t
  end.

Lemma land128 b : is_byte b -> (Z.land b 128 =? 0) = (b <? 128).
Proof.
  intros Hb. apply Bool.eqb_prop.
  by apply (byte_forall (fun b => Bool.eqb (Z.land b 128 =? 0) (b <? 128))).
Qed.

Lemma land127 b : Z.land b 127 = b mod 128.
Proof. change 127 with (Z.ones 7). by rewrite Z.land_ones by lia. Qed.

Lemma uleb_val_nonneg l : 0 <= uleb_val l.
Proof. induction l; cbn; [lia|]. rewrite land127. Z.div_mod_to_equations; lia. Qed.

Lemma uleb_val_bound l : uleb_val l < 2 ^ (7 * zlen l).
Proof.
  induction l as [|b l IH]; [done|]. cbn [uleb_val]. rewrite land127.
  assert (zlen (b :: l) = zlen l + 1) as -> by (unfold zlen; cbn; lia).
  pose proof (zlen_nonneg l). replace (7 * (zlen l + 1)) with (7 + 7 * zlen l) by lia.
  rewrite Z.pow_add_r by lia. Z.div_mod_to_equations; lia.
Qed.

(** One step of the accumulator: the payload of byte [k] lands at bit [7k]. *)
Lemma leb_accumulate w k v x :
  0 <= k -> 0 <= v < 2 ^ (7 * k) -> 0 <= x -> v + x * 2 ^ (7 * k) < 2 ^ w ->
  Z.lor v (wrap w (Z.shiftl x (7 * k))) = v + x * 2 ^ (7 * k).
Proof.
  intros Hk Hv Hx Hw. rewrite wrap_small; [by apply lor_shiftl_add; lia|].
  rewrite Z.shiftl_mul_pow2 by lia. nia.
Qed.

(** What [read_uleb128] answers on a terminated encoding [l]. *)
Definition uleb_answer (w : Z) (i : input) (l : list Z) : result Z :=
  if (zlen l <=? leb128_max_bytes w) && (uleb_val l <? 2 ^ w)
  then Done (uleb_val l) (advance i (zlen l))
  else make_err i "varint fitting the target width".

Section Uleb.
Context (w : Z) (Hw : 1 <= w).
Context (M : memory) (i : input).

Lemma leb128_max_bytes_spec : 7 * (leb128_max_bytes w - 1) < w <= 7 * leb128_max_bytes w.
Proof. unfold leb128_max_bytes. Z.div_mod_to_equations. lia. Qed.

(** From byte [k] on, with [v] accumulated, [l] left to read. *)
Lemma uleb_loop_spec l n k v :
  bytes_ok l -> leb_shape l = true -> holds M (i_first i + k) l ->
  0 <= k < leb128_max_bytes w -> 0 <= v < 2 ^ (7 * k) ->
  Z.of_nat n <= leb128_max_bytes w - k ->
  (Z.min (zlen l) (leb128_max_bytes w - k) <= Z.of_nat n) ->
  uleb_loop n w M i k v =
    if (k + zlen l <=? leb128_max_bytes w) && (v + uleb_val l * 2 ^ (7 * k) <? 2 ^ w)
    then Done (v + uleb_val l * 2 ^ (7 * k)) (advance i (k + zlen l))
    else make_err i "varint fitting the target width".
Proof using Hw.
  pose proof leb128_max_bytes_spec as Hm. set (m := leb128_max_bytes w) in *.
  intros Hl. revert n k v. induction Hl as [|b l Hb Hl IH]; [done|].
  intros n k v Hs [Hb0 Hh] Hk Hv Hn Hn'.
  assert (Hz : zlen (b :: l) = zlen l + 1) by (unfold zlen; cbn; lia).
  pose proof (zlen_nonneg l). destruct n as [|n]; [lia|].
  cbn [uleb_loop]. unfold at_. rewrite Hb0. cbn [deref]. fold m.
  rewrite !land128 by done. rewrite Hz. cbn [uleb_val]. rewrite land127.
  pose proof (uleb_val_nonneg l) as Hl0. unfold is_byte in Hb.
  assert (Hpk : 2 ^ (7 * (k + 1)) = 128 * 2 ^ (7 * k)).
  { replace (7 * (k + 1)) with (7 + 7 * k) by lia. by rewrite Z.pow_add_r by lia. }
  assert (Hpow : 0 < 2 ^ (7 * k)) by (apply Z.pow_pos_nonneg; lia).
  destruct (Z.eqb_spec (k + 1) m) as [Hlast|Hlast].
  - (* the last permitted byte *)
    assert (Hwk : 2 ^ w = 2 ^ (w - 7 * (m - 1)) * 2 ^ (7 * k)).
    { rewrite <- Z.pow_add_r by lia. f_equal. lia. }
    assert (H127 : 2 ^ (w - 7 * (m - 1)) <= 128).
    { change 128 with (2 ^ 7). apply Z.pow_le_mono_r; lia. }
    assert (0 < 2 ^ (w - 7 * (m - 1))) by (apply Z.pow_pos_nonneg; lia).
    assert (Hsr : (Z.shiftr b (w - 7 * (m - 1)) =? 0) = (b <? 2 ^ (w - 7 * (m - 1)))).
    { rewrite Z.shiftr_div_pow2 by lia.
      destruct (Z.ltb_spec b (2 ^ (w - 7 * (m - 1)))).
      - by rewrite Z.div_small by lia.
      - apply Z.eqb_neq. assert (1 <= b / 2 ^ (w - 7 * (m - 1))); [|lia].
        apply Z.div_le_lower_bound; lia. }
    rewrite Hsr. destruct l as [|c l].
    + cbn in Hs. apply Z.ltb_lt in Hs. rewrite (proj2 (Z.ltb_lt b 128)) by done.
      cbn [negb orb uleb_val]. rewrite (Z.mod_small b 128) by lia.
      change (zlen (@nil Z)) with 0.
      destruct (Z.ltb_spec b (2 ^ (w - 7 * (m - 1)))) as [Hf|Hf]; cbn [negb].
      * rewrite lor_shiftl_add by lia.
        rewrite wrap_small by nia.
        destruct (Z.leb_spec (k + (0 + 1)) m); [|lia].
        destruct (Z.ltb_spec (v + (b + 128 * 0) * 2 ^ (7 * k)) (2 ^ w)); [|nia].
        cbn [andb]. by replace (b + 128 * 0) with b by lia.
      * destruct (Z.ltb_spec (v + (b + 128 * 0) * 2 ^ (7 * k)) (2 ^ w)); [nia|].
        by rewrite andb_false_r.
    + assert (128 <= b /\ leb_shape (c :: l) = true) as [Hc _].
      { cbn in Hs. apply andb_true_iff in Hs as [? ?]. split; [by apply Z.leb_le|done]. }
      destruct (Z.ltb_spec b 128); [lia|]. cbn [negb orb].
      assert (zlen (c :: l) = zlen l + 1) as -> by (unfold zlen; cbn; lia).
      pose proof (zlen_nonneg l).
      destruct (Z.leb_spec (k + (zlen l + 1 + 1)) m); [lia|done].
  - assert (Hwk : 2 ^ (7 * (k + 1)) <= 2 ^ w) by (apply Z.pow_le_mono_r; lia).
    assert (Hb7 : 0 <= b mod 128 < 128) by (apply Z.mod_pos_bound; lia).
    rewrite leb_accumulate by nia.
    destruct (Z.ltb_spec b 128) as [Hb1|Hb1].
    + destruct l as [|c l]; [|cbn in Hs; destruct (Z.leb_spec 128 b); [lia|done]].
      cbn [uleb_val]. change (zlen (@nil Z)) with 0.
      destruct (Z.leb_spec (k + (0 + 1)) m); [|lia].
      destruct (Z.ltb_spec (v + (b mod 128 + 128 * 0) * 2 ^ (7 * k)) (2 ^ w)); [|nia].
      cbn [andb]. by replace (b mod 128 + 128 * 0) with (b mod 128) by lia.
    + destruct l as [|c l]; [cbn in Hs; destruct (Z.ltb_spec b 128); [lia|done]|].
      rewrite IH.
      * replace (k + 1 + zlen (c :: l)) with (k + (zlen (c :: l) + 1)) by lia.
        replace (v + b mod 128 * 2 ^ (7 * k) + uleb_val (c :: l) * 2 ^ (7 * (k + 1)))
          with (v + (b mod 128 + 128 * uleb_val (c :: l)) * 2 ^ (7 * k)) by (rewrite Hpk; lia).
        done.
      * cbn in Hs. by apply andb_true_iff in Hs as [_ ?].
      * by rewrite Z.add_assoc.
      * lia.
      * nia.
      * lia.
      * lia.
Qed.

Lemma read_uleb128_terminated l :
  bytes_ok l -> leb_shape l = true -> holds M (i_first i) l -> zlen l <= size i ->
  read_uleb128 w M i = uleb_answer w i l.
Proof using Hw.
  intros Hl Hs Hh Hsz. unfold read_uleb128, uleb_answer.
  pose proof leb128_max_bytes_spec as Hm. pose proof (zlen_nonneg l).
  rewrite (uleb_loop_spec l); try done.
  - change (2 ^ (7 * 0)) with 1. by rewrite Z.mul_1_r, !Z.add_0_l.
  - by rewrite Z.add_0_r.
  - lia.
  - destruct (Z.ltb_spec (size i) (leb128_max_bytes w)); lia.
  - destruct (Z.ltb_spec (size i) (leb128_max_bytes w)); lia.
Qed.

(** A run of continuation bytes: too long is an error, cut short asks for
    more. *)
Lemma uleb_loop_unterminated l k v :
  bytes_ok l -> Forall (fun b => 128 <= b) l -> holds M (i_first i + k) l -> 0 <= k ->
  k + zlen l <= leb128_max_bytes w ->
  uleb_loop (length l) w M i k v =
    if (0 <? zlen l) && (k + zlen l =? leb128_max_bytes w)
    then make_err i "varint fitting the target width"
    else make_incomplete (advance i (size i)) 1.
Proof using.
  intros Hl. revert k v. induction Hl as [|b l Hb Hl IH]; intros k v Hc Hh Hk Hkm; [done|].
  apply Forall_cons in Hc as [Hb1 Hc]. destruct Hh as [Hb0 Hh].
  assert (Hz : zlen (b :: l) = zlen l + 1) by (unfold zlen; cbn; lia).
  rewrite Hz in *. pose proof (zlen_nonneg l).
  cbn [length uleb_loop]. unfold at_. rewrite Hb0. cbn [deref].
  rewrite !land128 by done. destruct (Z.ltb_spec b 128); [lia|]. cbn [negb orb].
  destruct (Z.eqb_spec (k + 1) (leb128_max_bytes w)) as [He|He].
  - assert (zlen l = 0) as -> by lia.
    destruct (Z.eqb_spec (k + (0 + 1)) (leb128_max_bytes w)); [done|lia].
  - rewrite IH; [|done|by rewrite Z.add_assoc|lia..].
    replace (k + 1 + zlen l) with (k + (zlen l + 1)) by lia.
    destruct (Z.ltb_spec 0 (zlen l)), (Z.ltb_spec 0 (zlen l + 1)); try lia; [done|].
    cbn. destruct (Z.eqb_spec (k + (zlen l + 1)) (leb128_max_bytes w)); [lia|done].
Qed.
End Uleb.

(** Every byte sequence starts with a terminated encoding or has none. *)
Lemma leb_split l : bytes_ok l ->
  (exists t s, l = t ++ s /\ leb_shape t = true) \/ Forall (fun b => 128 <= b) l.
Proof.
  induction 1 as [|b l Hb Hl [(t & s & -> & Ht)|IH]]; [by right| |].
  - left. destruct (Z.leb_spec 128 b) as [H1|H1].
    + exists (b :: t), s. split; [done|]. cbn. destruct t; [done|].
      apply andb_true_iff. split; [by apply Z.leb_le|done].
    + exists [b], (t ++ s). split; [done|]. cbn. by apply Z.ltb_lt.
  - destruct (Z.leb_spec 128 b) as [H1|H1]; [right; by constructor|].
    left. exists [b], l. split; [done|]. cbn. by apply Z.ltb_lt.
Qed.

Lemma leb128_max_bytes_pos w : 1 <= w -> 1 <= leb128_max_bytes w.
Proof. intros Hw. pose proof (leb128_max_bytes_spec w). lia. Qed.

(** What a LEB128 reader of at most [m] bytes does: an answer computed from a
    terminated encoding, an error when the [m] bytes all continue, a request
    for more when the input ends first. *)
Section LebReader.
Context (p : parser Z) (m : Z) (ans : input -> list Z -> result Z) (what : string).
Context (Hm : 1 <= m).
Context (Hterm : forall M i l, bytes_ok l -> leb_shape l = true ->
  holds M (i_first i) l -> zlen l <= size i -> p M i = ans i l).
Context (Hlong : forall M i l, bytes_ok l -> Forall (fun b => 128 <= b) l ->
  holds M (i_first i) l -> zlen l = m -> m <= size i -> p M i = make_err i what).
Context (Hshort : forall M i l, bytes_ok l -> Forall (fun b => 128 <= b) l ->
  holds M (i_first i) l -> zlen l = size i -> size i < m ->
  p M i = make_incomplete (advance i (size i)) 1).
Context (Hans : forall M i l, wf M i -> zlen l <= size i -> post i (ans i l)).
Context (Hlast : forall i l e, stable_at e (ans i l) (ans (relast e i) l)).

Lemma leb_cases M i : wf M i -> exists l, bytes_ok l /\ holds M (i_first i) l /\
  ((leb_shape l = true /\ zlen l <= size i) \/
   (Forall (fun b => 128 <= b) l /\ zlen l = m /\ m <= size i) \/
   (Forall (fun b => 128 <= b) l /\ zlen l = size i /\ size i < m)).
Proof using Hm.
  intros Hwf. pose proof (size_wf M i Hwf). pose proof (wf_first M i Hwf).
  destruct (wf_holds M i (Z.to_nat (Z.min (size i) m)) Hwf) as (l & Hh & Hlen & Hl); [lia|].
  assert (Hzl : zlen l = Z.min (size i) m) by (unfold zlen; lia).
  destruct (leb_split l Hl) as [(t & s & -> & Ht)|Hc].
  - apply Forall_app in Hl as [? _]. apply holds_app in Hh as [? _].
    rewrite zlen_app in Hzl. pose proof (zlen_nonneg s).
    exists t. split_and!; [done..|]. left. split; [done|lia].
  - exists l. split_and!; [done..|]. right.
    destruct (Z.lt_ge_cases (size i) m); [right|left]; split_and!; done || lia.
Qed.

Lemma leb_reader_stable : Stable p.
Proof using All.
  split.
  - prim_intro. destruct (leb_cases M i Hwf) as (l & Hl & Hh & Hc).
    assert (zlen l <= size i) by (destruct Hc as [|[|]]; lia).
    assert (Hh' : holds M' (i_first i) l) by (eapply holds_agree; [exact Hag|lia..|done]).
    destruct Hc as [(? & ?)|[(? & ? & ?)|(? & ? & ?)]].
    + rewrite !(Hterm _ i l) by done. split; [done|]. by apply (Hans M).
    + rewrite !(Hlong _ i l) by done. prim_good.
    + rewrite !(Hshort _ i l) by done. eapply good_at_make_incomplete; [done|adv|lia].
  - prim_intro_stable. destruct (leb_cases M i Hwf) as (t & Ht & Hh & Hc).
    assert (zlen t <= size i) by (destruct Hc as [|[|]]; lia).
    assert (Hh' : holds M' (i_first (relast l i)) t)
      by (eapply holds_agree; [exact Hag|cbn; lia..|done]).
    destruct Hc as [(? & ?)|[(? & ? & ?)|(? & ? & ?)]].
    + rewrite (Hterm M i t), (Hterm M' _ t) by (done || lia). apply Hlast.
    + rewrite (Hlong M i t), (Hlong M' _ t) by (done || lia). parser_stable.
    + rewrite (Hshort M i t) by done. eapply (stable_at_make_incomplete i); [done|adv].
Qed.
End LebReader.

Section UlebReader.
Context (w : Z) (Hw : 1 <= w).

Lemma read_uleb128_long M i l : bytes_ok l -> Forall (fun b => 128 <= b) l ->
  holds M (i_first i) l -> zlen l = leb128_max_bytes w -> leb128_max_bytes w <= size i ->
  read_uleb128 w M i = make_err i "varint fitting the target width".
Proof using Hw.
  intros Hl Hc Hh Hz Hs. pose proof (leb128_max_bytes_pos w Hw).
  unfold read_uleb128. destruct (Z.ltb_spec (size i) (leb128_max_bytes w)); [lia|].
  replace (Z.to_nat (leb128_max_bytes w)) with (length l) by (unfold zlen in Hz; lia).
  rewrite (uleb_loop_unterminated w M i l); rewrite ?Z.add_0_r; try done; try lia.
  rewrite Z.add_0_l, Hz, Z.eqb_refl. by destruct (Z.ltb_spec 0 (leb128_max_bytes w)); [|lia].
Qed.

Lemma read_uleb128_short M i l : bytes_ok l -> Forall (fun b => 128 <= b) l ->
  holds M (i_first i) l -> zlen l = size i -> size i < leb128_max_bytes w ->
  read_uleb128 w M i = make_incomplete (advance i (size i)) 1.
Proof using Hw.
  intros Hl Hc Hh Hz Hs.
  unfold read_uleb128. destruct (Z.ltb_spec (size i) (leb128_max_bytes w)); [|lia].
  replace (Z.to_nat (size i)) with (length l) by (unfold zlen in Hz; lia).
  rewrite (uleb_loop_unterminated w M i l); rewrite ?Z.add_0_r; try done; try lia.
  rewrite Z.add_0_l, Hz. destruct (Z.eqb_spec (size i) (leb128_max_bytes w)); [lia|].
  by rewrite andb_false_r.
Qed.
End UlebReader.

#[export] Instance read_uleb128_stable w : 1 <= w -> Stable (read_uleb128 w).
Proof.
  intros Hw. apply (leb_reader_stable _ (leb128_max_bytes w) (uleb_answer w)
    "varint fitting the target width").
  - by apply leb128_max_bytes_pos.
  - intros. by apply read_uleb128_terminated.
  - intros. by eapply read_uleb128_long.
  - intros. by eapply read_uleb128_short.
  - intros M i l Hwf ?. pose proof (zlen_nonneg l). unfold uleb_answer.
    destruct (_ && _); cbn; [adv|eauto with nanom].
  - intros i l e. unfold uleb_answer. destruct (_ && _); parser_stable.
Qed.
#[export] Hint Extern 5 (1 <= _) => lia : typeclass_instances.

(** ** Encoding *)
Lemma uleb_enc_loop_spec fuel v :
  0 <= v < 2 ^ (7 * Z.of_nat fuel) -> (0 < fuel)%nat ->
  let l := uleb_enc_loop fuel v in
  bytes_ok l /\ leb_shape l = true /\ uleb_val l = v /\ zlen l <= Z.of_nat fuel.
Proof.
  revert v. induction fuel as [|fuel IH]; intros v Hv Hf; [lia|]. cbn [uleb_enc_loop].
  destruct (Z.leb_spec 128 v) as [H1|H1].
  - assert (Hlor : Z.lor (u8 v) 128 = v mod 128 + 128).
    { change 128 with (Z.shiftl 1 7) at 1. change (v mod 128 + 128) with (v mod 2 ^ 7 + 1 * 2 ^ 7).
      rewrite <- (lor_shiftl_add (v mod 2 ^ 7) 1 7); [|lia|by apply Z.mod_pos_bound].
      bitblast. assert (i = 7) as -> by lia. cbn. by rewrite orb_true_r. }
    destruct fuel as [|fuel]; [cbn in Hv; lia|].
    assert (0 <= Z.shiftr v 7 < 2 ^ (7 * Z.of_nat (S fuel))) as Hv'.
    { rewrite Z.shiftr_div_pow2 by lia. rewrite Nat2Z.inj_succ in Hv.
      replace (7 * Z.succ (Z.of_nat (S fuel))) with (7 + 7 * Z.of_nat (S fuel)) in Hv by lia.
      rewrite Z.pow_add_r in Hv by lia. Z.div_mod_to_equations; lia. }
    destruct (IH (Z.shiftr v 7) Hv' ltac:(lia)) as (Hb & Hs & Hval & Hlen).
    set (t := uleb_enc_loop (S fuel) (Z.shiftr v 7)) in *.
    assert (Hm : 0 <= v mod 128 < 128) by (apply Z.mod_pos_bound; lia).
    split_and!.
    + constructor; [rewrite Hlor; red; lia|done].
    + cbn [leb_shape]. destruct t; [done|]. apply andb_true_iff. split; [apply Z.leb_le; lia|done].
    + cbn [uleb_val]. rewrite Hval, land127, Hlor, Z.shiftr_div_pow2 by lia.
      Z.div_mod_to_equations; lia.
    + unfold zlen in *. cbn [length]. lia.
  - assert (u8 v = v) as -> by (apply wrap_small; lia). split_and!.
    + constructor; [red; lia|done].
    + cbn. by apply Z.ltb_lt.
    + cbn. rewrite land127, Z.mod_small by lia. lia.
    + unfold zlen; cbn. lia.
Qed.

Lemma uleb128_encode_spec w v : 1 <= w -> 0 <= v < 2 ^ w ->
  let l := uleb128_encode w v in
  bytes_ok l /\ leb_shape l = true /\ uleb_val l = v /\ zlen l <= leb128_max_bytes w.
Proof.
  intros Hw Hv. pose proof (leb128_max_bytes_spec w) as Hm.
  destruct (uleb_enc_loop_spec (Z.to_nat (leb128_max_bytes w)) v) as (? & ? & ? & ?).
  - split; [lia|]. assert (2 ^ w <= 2 ^ (7 * Z.of_nat (Z.to_nat (leb128_max_bytes w))))
      by (apply Z.pow_le_mono_r; lia). lia.
  - lia.
  - unfold uleb128_encode. split_and!; [done..|lia].
Qed.

Lemma uleb128_decode_encode w M i v : 1 <= w -> 0 <= v < 2 ^ w ->
  holds M (i_first i) (uleb128_encode w v) -> zlen (uleb128_encode w v) <= size i ->
  read_uleb128 w M i = Done v (advance i (zlen (uleb128_encode w v))).
Proof.
  intros Hw Hv Hh Hs. destruct (uleb128_encode_spec w v Hw Hv) as (? & ? & Hval & Hlen).
  rewrite (read_uleb128_terminated w Hw M i (uleb128_encode w v)) by done.
  unfold uleb_answer. rewrite Hval.
  destruct (Z.leb_spec (zlen (uleb128_encode w v)) (leb128_max_bytes w)); [|lia].
  by destruct (Z.ltb_spec v (2 ^ w)); [|lia].
Qed.

(** ** Zigzag *)
Lemma lxor_ones w x : 0 <= w -> 0 <= x < 2 ^ w -> Z.lxor x (2 ^ w - 1) = 2 ^ w - 1 - x.
Proof.
  intros Hw Hx. replace (2 ^ w - 1) with (Z.ones w) by (rewrite Z.ones_equiv; lia).
  rewrite Z.sub_nocarry_ldiff.
  - bitblast.
  - bitblast.
Qed.

Lemma wrap_opp1 w : 0 < w -> wrap w (-1) = 2 ^ w - 1.
Proof.
  intros Hw. unfold wrap. symmetry. apply (Z.mod_unique _ _ (-1)); [|lia].
  left. assert (0 < 2 ^ w) by (apply Z.pow_pos_nonneg; lia). lia.
Qed.

Lemma zigzag_encode_spec w s : 0 < w -> - 2 ^ (w - 1) <= s < 2 ^ (w - 1) ->
  zigzag_encode w s = if s <? 0 then - 2 * s - 1 else 2 * s.
Proof.
  intros Hw Hs. unfold zigzag_encode.
  assert (Hp : 2 ^ w = 2 * 2 ^ (w - 1)) by (rewrite <- Z.pow_succ_r by lia; f_equal; lia).
  assert (0 < 2 ^ (w - 1)) by (apply Z.pow_pos_nonneg; lia).
  rewrite Z.shiftl_mul_pow2, Z.shiftr_div_pow2 by lia. change (2 ^ 1) with 2.
  destruct (Z.ltb_spec s 0).
  - assert (wrap w s = s + 2 ^ w) as ->.
    { unfold wrap. symmetry. apply (Z.mod_unique _ _ (-1)); lia. }
    assert ((s + 2 ^ w) / 2 ^ (w - 1) = 1) as -> by (symmetry; apply (Z.div_unique _ _ _ (s + 2 ^ (w - 1))); lia).
    change (0 - 1) with (-1). rewrite (wrap_opp1 w Hw).
    assert (wrap w ((s + 2 ^ w) * 2) = 2 * s + 2 ^ w) as ->.
    { unfold wrap. symmetry. apply (Z.mod_unique _ _ 1); lia. }
    rewrite lxor_ones, wrap_small by lia. lia.
  - rewrite (wrap_small w s) by lia. rewrite (Z.div_small s) by lia.
    change (0 - 0) with 0. rewrite (wrap_small w 0), Z.lxor_0_r by lia.
    rewrite wrap_idemp, wrap_small by lia. lia.
Qed.

Lemma zigzag_decode_spec w u : 0 < w -> 0 <= u < 2 ^ w ->
  zigzag_decode w u = if Z.even u then u / 2 else - (u / 2) - 1.
Proof.
  intros Hw Hu. unfold zigzag_decode.
  assert (Hp : 2 ^ w = 2 * 2 ^ (w - 1)) by (rewrite <- Z.pow_succ_r by lia; f_equal; lia).
  assert (0 < 2 ^ (w - 1)) by (apply Z.pow_pos_nonneg; lia).
  change 1 with (Z.ones 1) at 2. rewrite Z.land_ones, Z.shiftr_div_pow2 by lia.
  change (2 ^ 1) with 2. rewrite Zmod_even.
  assert (0 <= u / 2 < 2 ^ (w - 1)) by (Z.div_mod_to_equations; lia).
  destruct (Z.even u).
  - change (0 - 0) with 0. rewrite (wrap_small w 0), Z.lxor_0_r, wrap_small by lia.
    unfold sint. by destruct (Z.ltb_spec (u / 2) (2 ^ (w - 1))); [|lia].
  - change (0 - 1) with (-1). rewrite (wrap_opp1 w Hw), lxor_ones, wrap_small by lia.
    unfold sint. destruct (Z.ltb_spec (2 ^ w - 1 - u / 2) (2 ^ (w - 1))); lia.
Qed.

Lemma zigzag_encode_range w s : 0 < w -> - 2 ^ (w - 1) <= s < 2 ^ (w - 1) ->
  0 <= zigzag_encode w s < 2 ^ w.
Proof. intros. unfold zigzag_encode. apply wrap_range. lia. Qed.

Lemma zigzag_decode_encode w s : 0 < w -> - 2 ^ (w - 1) <= s < 2 ^ (w - 1) ->
  zigzag_decode w (zigzag_encode w s) = s.
Proof.
  intros Hw Hs. rewrite zigzag_decode_spec by auto using zigzag_encode_range.
  rewrite zigzag_encode_spec by done. destruct (Z.ltb_spec s 0).
  - replace (- 2 * s - 1) with (1 + 2 * (- s - 1)) by lia.
    rewrite Z.even_add_mul_2. cbn [Z.even]. Z.div_mod_to_equations; lia.
  - rewrite Z.even_mul. cbn [Z.even orb]. Z.div_mod_to_equations; lia.
Qed.

(** ** Signed LEB128

    The signed integer an encoding denotes: its seven-bit groups, sign-extended
    from bit 6 of the last byte. *)
Definition sleb_val (l : list Z) : Z :=
  let u := uleb_val l in
  if Z.testbit (default 0 (last l)) 6 then u - 2 ^ (7 * zlen l) else u.

Definition sleb_answer (w : Z) (i : input) (l : list Z) : result Z :=
  if (zlen l <=? leb128_max_bytes w) && (- 2 ^ (w - 1) <=? sleb_val l) && (sleb_val l <? 2 ^ (w - 1))
  then Done (sleb_val l) (advance i (zlen l))
  else make_err i "sleb128 fitting the target width".

Lemma land64 b : is_byte b -> b < 128 ->
  negb (Z.land b 64 =? 0) = (64 <=? b) /\ Z.testbit b 6 = (64 <=? b).
Proof.
  intros Hb Hb1.
  assert (((128 <=? b) || Bool.eqb (negb (Z.land b 64 =? 0)) (64 <=? b)) &&
          ((128 <=? b) || Bool.eqb (Z.testbit b 6) (64 <=? b)) = true) as H.
  { by apply (byte_forall (fun b =>
      ((128 <=? b) || Bool.eqb (negb (Z.land b 64 =? 0)) (64 <=? b)) &&
      ((128 <=? b) || Bool.eqb (Z.testbit b 6) (64 <=? b)))). }
  destruct (Z.leb_spec 128 b); [lia|]. cbn [orb] in H.
  apply andb_true_iff in H as [H1%Bool.eqb_prop H2%Bool.eqb_prop]. done.
Qed.

Section Sleb.
Context (w : Z) (Hw : 1 <= w).
Context (M : memory) (i : input).
Abbreviation m := (leb128_max_bytes w).

(** The final byte [b] of an encoding shorter than the maximum. *)
Lemma sleb_inner k v b : is_byte b -> b < 128 -> 0 <= k -> k + 1 < m -> 0 <= v < 2 ^ (7 * k) ->
  let v' := Z.lor v (wrap w (Z.shiftl (Z.land b 127) (7 * k))) in
  sint w (if negb (Z.land b 64 =? 0) && (7 * k + 7 <? w)
          then Z.lor v' (wrap w (Z.shiftl (2 ^ w - 1) (7 * k + 7))) else v') =
  (if 64 <=? b then v + (b - 128) * 2 ^ (7 * k) else v + b * 2 ^ (7 * k)) /\
  - 2 ^ (w - 1) <= v + (if 64 <=? b then b - 128 else b) * 2 ^ (7 * k) < 2 ^ (w - 1).
Proof using Hw.
  intros Hb Hb1 Hk Hkm Hv. destruct (land64 b Hb Hb1) as [-> _]. unfold is_byte in Hb.
  pose proof (leb128_max_bytes_spec w) as Hm.
  assert (Hpow : 0 < 2 ^ (7 * k)) by (apply Z.pow_pos_nonneg; lia).
  assert (Hp7 : 2 ^ (7 * k + 7) = 128 * 2 ^ (7 * k)) by (rewrite Z.pow_add_r by lia; lia).
  assert (Hle : 2 ^ (7 * k + 7) <= 2 ^ (w - 1)) by (apply Z.pow_le_mono_r; lia).
  assert (Hw2 : 2 ^ w = 2 * 2 ^ (w - 1)) by (rewrite <- Z.pow_succ_r by lia; f_equal; lia).
  cbv zeta. rewrite land127, (Z.mod_small b 128) by lia.
  rewrite leb_accumulate by nia.
  destruct (Z.ltb_spec (7 * k + 7) w); [|lia]. rewrite andb_true_r.
  destruct (Z.leb_spec 64 b).
  - assert (wrap w (Z.shiftl (2 ^ w - 1) (7 * k + 7)) =
      Z.shiftl (2 ^ (w - (7 * k + 7)) - 1) (7 * k + 7)) as ->.
    { rewrite !Z.shiftl_mul_pow2 by lia. unfold wrap. symmetry.
      assert (Hs : 2 ^ w = 2 ^ (w - (7 * k + 7)) * 2 ^ (7 * k + 7))
        by (rewrite <- Z.pow_add_r by lia; f_equal; lia).
      apply (Z.mod_unique _ _ (2 ^ (7 * k + 7) - 1)); nia. }
    rewrite lor_shiftl_add by nia.
    assert (Hs : 2 ^ w = 2 ^ (w - (7 * k + 7)) * 2 ^ (7 * k + 7))
      by (rewrite <- Z.pow_add_r by lia; f_equal; lia).
    unfold sint. destruct (Z.ltb_spec (v + b * 2 ^ (7 * k) +
      (2 ^ (w - (7 * k + 7)) - 1) * 2 ^ (7 * k + 7)) (2 ^ (w - 1))); nia.
  - unfold sint. destruct (Z.ltb_spec (v + b * 2 ^ (7 * k)) (2 ^ (w - 1))); nia.
Qed.

(** The unused bits of the last permitted byte copy its sign. *)
Lemma sign_ext_spec u b : is_byte b -> b < 128 -> 1 <= u <= 7 ->
  negb (u8 (Z.shiftr (Z.land b 127) (u - 1)) =? 0) &&
  negb (u8 (Z.shiftr (Z.land b 127) (u - 1)) =? Z.shiftr 127 (u - 1)) =
  negb ((b <? 2 ^ (u - 1)) || (128 - 2 ^ (u - 1) <=? b)).
Proof using.
  intros Hb Hb1 Hu. apply Bool.eqb_prop.
  set (f u b := Bool.eqb (negb (u8 (Z.shiftr (Z.land b 127) (u - 1)) =? 0) &&
    negb (u8 (Z.shiftr (Z.land b 127) (u - 1)) =? Z.shiftr 127 (u - 1)))
    (negb ((b <? 2 ^ (u - 1)) || (128 - 2 ^ (u - 1) <=? b)))).
  assert ((128 <=? b) || f u b = true) as H.
  { assert (u = 1 \/ u = 2 \/ u = 3 \/ u = 4 \/ u = 5 \/ u = 6 \/ u = 7) as Hc by lia.
    destruct Hc as [->|[->|[->|[->|[->|[->| ->]]]]]];
      by match goal with |- _ || f ?u _ = _ =>
           apply (byte_forall (fun b => (128 <=? b) || f u b)) end. }
  destruct (Z.leb_spec 128 b); [lia|done].
Qed.

Lemma sleb_final k v b : is_byte b -> b < 128 -> 0 <= k -> k + 1 = m -> 0 <= v < 2 ^ (7 * k) ->
  let val := v + (if 64 <=? b then b - 128 else b) * 2 ^ (7 * k) in
  let sign_ext := u8 (Z.shiftr (Z.land b 127) (w - 7 * k - 1)) in
  negb (sign_ext =? 0) && negb (sign_ext =? Z.shiftr 127 (w - 7 * k - 1)) =
    negb ((- 2 ^ (w - 1) <=? val) && (val <? 2 ^ (w - 1))) /\
  (- 2 ^ (w - 1) <= val < 2 ^ (w - 1) ->
   sint w (Z.lor v (wrap w (Z.shiftl (Z.land b 127) (7 * k)))) = val).
Proof using Hw.
  intros Hb Hb1 Hk Hkm Hv. pose proof (leb128_max_bytes_spec w) as Hm.
  set (u := w - 7 * k). assert (Hu : 1 <= u <= 7) by (unfold u; lia).
  cbv zeta. rewrite (sign_ext_spec u b) by done. unfold is_byte in Hb.
  assert (HP : 0 < 2 ^ (7 * k)) by (apply Z.pow_pos_nonneg; lia).
  assert (HQ : 0 < 2 ^ (u - 1)) by (apply Z.pow_pos_nonneg; lia).
  assert (Hc : 128 = 2 * 2 ^ (u - 1) * 2 ^ (7 - u)).
  { rewrite <- Z.pow_succ_r, <- Z.pow_add_r by lia. change 128 with (2 ^ 7). f_equal. lia. }
  assert (Hc1 : 1 <= 2 ^ (7 - u)) by (assert (0 < 2 ^ (7 - u)) by (apply Z.pow_pos_nonneg; lia); lia).
  assert (Hw1 : 2 ^ (w - 1) = 2 ^ (u - 1) * 2 ^ (7 * k))
    by (rewrite <- Z.pow_add_r by lia; f_equal; lia).
  assert (Hw2 : 2 ^ w = 2 * 2 ^ (w - 1)) by (rewrite <- Z.pow_succ_r by lia; f_equal; lia).
  set (P := 2 ^ (7 * k)) in *. set (Q := 2 ^ (u - 1)) in *. set (c := 2 ^ (7 - u)) in *.
  assert (HQ64 : Q <= 64) by nia.
  rewrite land127, (Z.mod_small b 128), Hw1 by lia. split.
  - f_equal. destruct (Z.leb_spec 64 b).
    + destruct (Z.ltb_spec b Q); [lia|]. cbn [orb].
      destruct (Z.leb_spec (128 - Q) b), (Z.leb_spec (- (Q * P)) (v + (b - 128) * P)),
        (Z.ltb_spec (v + (b - 128) * P) (Q * P)); try done; nia.
    + destruct (Z.leb_spec (128 - Q) b); [lia|]. rewrite orb_false_r.
      destruct (Z.ltb_spec b Q), (Z.leb_spec (- (Q * P)) (v + b * P)),
        (Z.ltb_spec (v + b * P) (Q * P)); try done; nia.
  - intros Hfit. destruct (Z.leb_spec 64 b).
    + assert (wrap w (Z.shiftl b (7 * k)) = Z.shiftl (b - 128 + 2 * Q) (7 * k)) as ->.
      { rewrite !Z.shiftl_mul_pow2 by lia. fold P. unfold wrap. symmetry.
        apply (Z.mod_unique _ _ (c - 1)); [left|]; nia. }
      rewrite lor_shiftl_add by lia. fold P.
      unfold sint. rewrite Hw2, Hw1.
      destruct (Z.ltb_spec (v + (b - 128 + 2 * Q) * P) (Q * P)); nia.
    + rewrite leb_accumulate by (fold P; nia). fold P. unfold sint. rewrite Hw1.
      destruct (Z.ltb_spec (v + b * P) (Q * P)); lia.
Qed.

Lemma sleb_val_cons b c l :
  sleb_val (b :: c :: l) = Z.land b 127 + 128 * sleb_val (c :: l).
Proof using.
  unfold sleb_val. rewrite last_cons_cons.
  assert (zlen (b :: c :: l) = 1 + zlen (c :: l)) as -> by (unfold zlen; cbn; lia).
  pose proof (zlen_nonneg (c :: l)).
  replace (7 * (1 + zlen (c :: l))) with (7 + 7 * zlen (c :: l)) by lia.
  rewrite Z.pow_add_r by lia. change (2 ^ 7) with 128.
  change (uleb_val (b :: c :: l)) with (Z.land b 127 + 128 * uleb_val (c :: l)).
  destruct (Z.testbit _ 6); lia.
Qed.

Lemma sleb_val_one b : is_byte b -> b < 128 -> sleb_val [b] = if 64 <=? b then b - 128 else b.
Proof using.
  intros Hb Hb1. unfold sleb_val. change (default 0 (last [b])) with b.
  change (uleb_val [b]) with (Z.land b 127 + 128 * 0). change (2 ^ (7 * zlen [b])) with 128.
  destruct (land64 b Hb Hb1) as [_ ->].
  unfold is_byte in Hb. rewrite land127, Z.mod_small by lia. case_match; lia.
Qed.

Lemma sleb_loop_spec l n k v :
  bytes_ok l -> leb_shape l = true -> holds M (i_first i + k) l ->
  0 <= k < m -> 0 <= v < 2 ^ (7 * k) -> Z.of_nat n <= m - k ->
  Z.min (zlen l) (m - k) <= Z.of_nat n ->
  let val := v + sleb_val l * 2 ^ (7 * k) in
  sleb_loop n w M i k v =
    if (k + zlen l <=? m) && (- 2 ^ (w - 1) <=? val) && (val <? 2 ^ (w - 1))
    then Done val (advance i (k + zlen l))
    else make_err i "sleb128 fitting the target width".
Proof using Hw.
  intros Hl. revert n k v. induction Hl as [|b l Hb Hl IH]; [done|].
  intros n k v Hs [Hb0 Hh] Hk Hv Hn Hn'.
  assert (Hz : zlen (b :: l) = zlen l + 1) by (unfold zlen; cbn; lia).
  pose proof (zlen_nonneg l). pose proof (leb128_max_bytes_spec w) as Hm.
  destruct n as [|n]; [lia|]. cbn [sleb_loop]. unfold at_. rewrite Hb0. cbn [deref].
  rewrite land128 by done. rewrite Hz. cbv zeta.
  destruct l as [|c l].
  - cbn in Hs. rewrite Hs. apply Z.ltb_lt in Hs. change (zlen (@nil Z)) with 0.
    rewrite sleb_val_one by done.
    destruct (Z.leb_spec (k + (0 + 1)) m); [|lia]. cbn [andb]. rewrite Z.add_0_l.
    destruct (Z.eqb_spec (k + 1) m) as [He|He].
    + destruct (sleb_final k v b) as [-> Hval]; [done || lia..|].
      destruct (Z.leb_spec (- 2 ^ (w - 1)) (v + (if 64 <=? b then b - 128 else b) * 2 ^ (7 * k))),
        (Z.ltb_spec (v + (if 64 <=? b then b - 128 else b) * 2 ^ (7 * k)) (2 ^ (w - 1)));
        cbn [andb negb]; try done. by rewrite Hval by lia.
    + destruct (sleb_inner k v b) as [-> Hr]; [done || lia..|].
      destruct (Z.leb_spec (- 2 ^ (w - 1)) (v + (if 64 <=? b then b - 128 else b) * 2 ^ (7 * k))); [|lia].
      destruct (Z.ltb_spec (v + (if 64 <=? b then b - 128 else b) * 2 ^ (7 * k)) (2 ^ (w - 1))); [|lia].
      cbn [andb]. by destruct (64 <=? b).
  - assert (128 <= b /\ leb_shape (c :: l) = true) as [Hc Hs'].
    { cbn in Hs. apply andb_true_iff in Hs as [? ?]. split; [by apply Z.leb_le|done]. }
    destruct (Z.ltb_spec b 128); [lia|].
    assert (Hz1 : zlen (c :: l) = zlen l + 1) by (unfold zlen; cbn; lia).
    pose proof (zlen_nonneg l).
    destruct (Z.eqb_spec (k + 1) m).
    + destruct (Z.leb_spec (k + (zlen (c :: l) + 1)) m); [lia|done].
    + assert (Hwk : 2 ^ (7 * (k + 1)) <= 2 ^ w) by (apply Z.pow_le_mono_r; lia).
      assert (Hpk : 2 ^ (7 * (k + 1)) = 128 * 2 ^ (7 * k)).
      { replace (7 * (k + 1)) with (7 + 7 * k) by lia. by rewrite Z.pow_add_r by lia. }
      assert (Hb7 : 0 <= b mod 128 < 128) by (apply Z.mod_pos_bound; lia).
      rewrite sleb_val_cons, land127, leb_accumulate by nia.
      rewrite IH; [|done|by rewrite Z.add_assoc|lia|nia|lia|lia].
      cbv zeta. replace (k + 1 + zlen (c :: l)) with (k + (zlen (c :: l) + 1)) by lia.
      by replace (v + b mod 128 * 2 ^ (7 * k) + sleb_val (c :: l) * 2 ^ (7 * (k + 1)))
        with (v + (b mod 128 + 128 * sleb_val (c :: l)) * 2 ^ (7 * k)) by (rewrite Hpk; lia).
Qed.
End Sleb.

Section SlebReader.
Context (w : Z) (Hw : 1 <= w).

Lemma sleb128_terminated M i l :
  bytes_ok l -> leb_shape l = true -> holds M (i_first i) l -> zlen l <= size i ->
  sleb128 w M i = sleb_answer w i l.
Proof using Hw.
  intros Hl Hs Hh Hsz. unfold sleb128, sleb_answer.
  pose proof (leb128_max_bytes_spec w) as Hm. pose proof (zlen_nonneg l).
  rewrite (sleb_loop_spec w Hw M i l); try done.
  - cbv zeta. change (2 ^ (7 * 0)) with 1. by rewrite Z.mul_1_r, !Z.add_0_l.
  - by rewrite Z.add_0_r.
  - lia.
  - destruct (Z.ltb_spec (size i) (leb128_max_bytes w)); lia.
  - destruct (Z.ltb_spec (size i) (leb128_max_bytes w)); lia.
Qed.

Lemma sleb_loop_unterminated M i l k v :
  bytes_ok l -> Forall (fun b => 128 <= b) l -> holds M (i_first i + k) l -> 0 <= k ->
  k + zlen l <= leb128_max_bytes w ->
  sleb_loop (length l) w M i k v =
    if (0 <? zlen l) && (k + zlen l =? leb128_max_bytes w)
    then make_err i "sleb128 fitting the target width"
    else make_incomplete (advance i (size i)) 1.
Proof using.
  intros Hl. revert k v. induction Hl as [|b l Hb Hl IH]; intros k v Hc Hh Hk Hkm; [done|].
  apply Forall_cons in Hc as [Hb1 Hc]. destruct Hh as [Hb0 Hh].
  assert (Hz : zlen (b :: l) = zlen l + 1) by (unfold zlen; cbn; lia).
  rewrite Hz in *. pose proof (zlen_nonneg l).
  cbn [length sleb_loop]. unfold at_. rewrite Hb0. cbn [deref].
  rewrite land128 by done. destruct (Z.ltb_spec b 128); [lia|].
  destruct (Z.eqb_spec (k + 1) (leb128_max_bytes w)) as [He|He].
  - assert (zlen l = 0) as -> by lia.
    destruct (Z.eqb_spec (k + (0 + 1)) (leb128_max_bytes w)); [done|lia].
  - rewrite IH; [|done|by rewrite Z.add_assoc|lia..].
    replace (k + 1 + zlen l) with (k + (zlen l + 1)) by lia.
    destruct (Z.ltb_spec 0 (zlen l)), (Z.ltb_spec 0 (zlen l + 1)); try lia; [done|].
    cbn. destruct (Z.eqb_spec (k + (zlen l + 1)) (leb128_max_bytes w)); [lia|done].
Qed.

Lemma sleb128_long M i l : bytes_ok l -> Forall (fun b => 128 <= b) l ->
  holds M (i_first i) l -> zlen l = leb128_max_bytes w -> leb128_max_bytes w <= size i ->
  sleb128 w M i = make_err i "sleb128 fitting the target width".
Proof using Hw.
  intros Hl Hc Hh Hz Hs. pose proof (leb128_max_bytes_pos w Hw).
  unfold sleb128. destruct (Z.ltb_spec (size i) (leb128_max_bytes w)); [lia|].
  replace (Z.to_nat (leb128_max_bytes w)) with (length l) by (unfold zlen in Hz; lia).
  rewrite (sleb_loop_unterminated M i l); rewrite ?Z.add_0_r; try done; try lia.
  rewrite Z.add_0_l, Hz, Z.eqb_refl. by destruct (Z.ltb_spec 0 (leb128_max_bytes w)); [|lia].
Qed.

Lemma sleb128_short M i l : bytes_ok l -> Forall (fun b => 128 <= b) l ->
  holds M (i_first i) l -> zlen l = size i -> size i < leb128_max_bytes w ->
  sleb128 w M i = make_incomplete (advance i (size i)) 1.
Proof using.
  intros Hl Hc Hh Hz Hs.
  unfold sleb128. destruct (Z.ltb_spec (size i) (leb128_max_bytes w)); [|lia].
  replace (Z.to_nat (size i)) with (length l) by (unfold zlen in Hz; lia).
  rewrite (sleb_loop_unterminated M i l); rewrite ?Z.add_0_r; try done; try lia.
  rewrite Z.add_0_l, Hz. destruct (Z.eqb_spec (size i) (leb128_max_bytes w)); [lia|].
  by rewrite andb_false_r.
Qed.
End SlebReader.

#[export] Instance sleb128_stable w : 1 <= w -> Stable (sleb128 w).
Proof.
  intros Hw. apply (leb_reader_stable _ (leb128_max_bytes w) (sleb_answer w)
    "sleb128 fitting the target width").
  - by apply leb128_max_bytes_pos.
  - intros. by apply sleb128_terminated.
  - intros. by eapply sleb128_long.
  - intros. by eapply sleb128_short.
  - intros M i l Hwf ?. pose proof (zlen_nonneg l). unfold sleb_answer.
    destruct (_ && _); cbn; [adv|eauto with nanom].
  - intros i l e. unfold sleb_answer. destruct (_ && _); parser_stable.
Qed.

#[export] Instance zigzag_varint_stable w : Stable (zigzag_varint w).
Proof.
  assert (1 <= (if w <? 32 then 32 else w)) by (destruct (Z.ltb_spec w 32); lia).
  split; [intros M M' i ? ?; unfold zigzag_varint; parser_good|].
  prim_intro_stable. unfold zigzag_varint. parser_stable.
Qed.

(** ** Guards and arrays *)
Lemma count_fits_mul i n sz : 0 < sz -> 0 <= size i ->
  count_fits i n sz = true <-> n * sz <= size i.
Proof.
  intros Hs Hi. unfold count_fits. destruct (Z.eqb_spec sz 0); [lia|].
  rewrite Z.leb_le. split; intros H; [|apply Z.div_le_lower_bound; lia].
  pose proof (Z.mul_div_le (size i) sz Hs). nia.
Qed.

Lemma le_array_need M i sz n : wf M i -> 1 <= sz -> 0 <= n -> count_fits i n sz = false ->
  0 <= (if size_max / sz <? n then size_max else n * sz - size i).
Proof.
  intros Hwf Hsz Hn Hc. pose proof (size_wf M i Hwf). pose proof (wf_first M i Hwf).
  assert (~ n * sz <= size i) by (rewrite <- count_fits_mul, Hc by lia; done).
  destruct (_ <? _); [by vm_compute|lia].
Qed.

#[export] Instance le_array_of_stable sz n : 1 <= sz -> NonNeg n -> Stable (le_array_of sz n).
Proof.
  unfold NonNeg. intros Hs1 Hn. split.
  - prim_intro. unfold le_array_of. destruct (count_fits i n sz) eqn:Hc; cbn [negb].
    + apply count_fits_mul in Hc; [|lia..]. prim_good.
    + eapply good_at_make_incomplete; eauto with nanom. by eapply le_array_need.
  - prim_intro_stable. unfold le_array_of. destruct (count_fits i n sz) eqn:Hc; cbn [negb];
      [|parser_stable].
    apply count_fits_mul in Hc; [|lia..].
    rewrite (proj2 (count_fits_mul (relast l i) n sz ltac:(lia) ltac:(lia))) by lia.
    cbn [negb]. parser_stable.
Qed.

Lemma le_elem_spec M p w l k u : bytes_ok l -> holds M (p + k) l ->
  0 <= u -> 0 <= k -> u < 2 ^ (8 * k) -> 8 * (k + zlen l) <= w ->
  le_elem (length l) w M p k u = Some (u + 2 ^ (8 * k) * le_val l).
Proof.
  intros Hl Hh Hu Hk Huk Hw.
  rewrite <- (read_le_spec M (Input p 0 0 false None 0) w l k u) by done.
  clear. revert k u. induction l as [|b l IH]; intros k u; cbn; [done|].
  unfold at_. cbn [i_first]. destruct (M (p + k)); [apply IH|done].
Qed.

(** ** Reading a varint from a list of bytes

    The reference for the components that read varints off a span: the value
    and the number of bytes of the terminated encoding at the front, when the
    width holds it. *)
Fixpoint leb_take (l : list Z) : option (list Z) :=
  match l with
  | [] => None
  | b :: t => if b <? 128 then Some [b]
              else match leb_take t with Some e => Some (b :: e) | None => None end
  end.

Definition varint_at (w : Z) (l : list Z) : option (Z * Z) :=
  match leb_take l with
  | Some e => if (zlen e <=? leb128_max_bytes w) && (uleb_val e <? 2 ^ w)
              then Some (uleb_val e, zlen e) else None
  | None => None
  end.

Lemma leb_take_shape l e : leb_take l = Some e ->
  leb_shape e = true /\ exists t, l = e ++ t.
Proof.
  revert e. induction l as [|b l IH]; intros e H; [done|]. cbn in H.
  destruct (b <? 128) eqn:Hb.
  - injection H as <-. cbn. split; [done|by exists l].
  - destruct (leb_take l) as [e'|]; [|done]. injection H as <-.
    destruct (IH e' eq_refl) as [Hs [t ->]]. split; [|by exists t].
    cbn. destruct e'; [done|]. rewrite Z.leb_antisym, Hb. done.
Qed.

Lemma leb_take_app e t : leb_shape e = true -> leb_take (e ++ t) = Some e.
Proof.
  induction e as [|b e IH]; [done|]. intros Hs. cbn. destruct e as [|c e].
  - cbn in Hs. by rewrite Hs.
  - cbn in Hs. apply andb_true_iff in Hs as [Hb Hs]. rewrite Z.leb_antisym in Hb.
    destruct (b <? 128); [done|]. rewrite IH; done.
Qed.

Lemma leb_take_none l : leb_take l = None -> Forall (fun b => 128 <= b) l.
Proof.
  induction l as [|b l IH]; intros H; [done|]. cbn in H. destruct (Z.ltb_spec b 128); [done|].
  destruct (leb_take l); [done|]. constructor; auto.
Qed.

Lemma varint_at_range w l v k : varint_at w l = Some (v, k) -> 0 <= v < 2 ^ w /\ 1 <= k <= zlen l.
Proof.
  unfold varint_at. destruct (leb_take l) as [e|] eqn:He; [|done].
  destruct (_ && _) eqn:Hc; [|done]. intros [= <- <-].
  apply andb_true_iff in Hc as [_ Hv]. apply Z.ltb_lt in Hv.
  destruct (leb_take_shape l e He) as [Hs [t ->]].
  split; [pose proof (uleb_val_nonneg e); lia|]. rewrite zlen_app. pose proof (zlen_nonneg t).
  destruct e as [|b e]; [done|]. rewrite zlen_cons. pose proof (zlen_nonneg e). lia.
Qed.

Lemma varint_at_encode w v rest : 1 <= w -> 0 <= v < 2 ^ w ->
  varint_at w (uleb128_encode w v ++ rest) = Some (v, zlen (uleb128_encode w v)).
Proof.
  intros Hw Hv. destruct (uleb128_encode_spec w v Hw Hv) as (_ & Hs & Hval & Hlen).
  unfold varint_at. rewrite leb_take_app by done. rewrite Hval.
  by destruct (Z.leb_spec (zlen (uleb128_encode w v)) (leb128_max_bytes w)), (Z.ltb_spec v (2 ^ w)); try lia.
Qed.

Lemma holds_zdrop data p l t : 0 <= p -> zdrop p data = l ++ t -> holds (mem_of 0 data) p l.
Proof.
  intros Hp H. apply holds_intro. intros k b Hk. unfold mem_of, zget.
  destruct (Z.ltb_spec (p + Z.of_nat k - 0) 0); [lia|].
  replace (Z.to_nat (p + Z.of_nat k - 0)) with (Z.to_nat p + k)%nat by lia.
  rewrite <- lookup_drop. change (drop (Z.to_nat p) data) with (zdrop p data). rewrite H.
  by apply lookup_app_l_Some.
Qed.

Lemma read_uleb128_at w data i :
  1 <= w -> bytes_ok data -> 0 <= i_first i <= i_last i -> i_last i = zlen data -> zlen data < 2 ^ 64 ->
  match varint_at w (zdrop (i_first i) data) with
  | Some (v, k) => read_uleb128 w (mem_of 0 data) i = Done v (advance i k)
  | None => exists e, read_uleb128 w (mem_of 0 data) i = Err e
  end.
Proof.
  intros Hw Hd Hi Hl Hsmall. set (l := zdrop (i_first i) data).
  assert (Hlb : bytes_ok l) by by apply bytes_ok_zdrop.
  assert (Hsz : size i = zlen l).
  { unfold size, l. rewrite zlen_zdrop, wrap_small by lia. lia. }
  unfold varint_at. destruct (leb_take l) as [e|] eqn:He.
  - destruct (leb_take_shape l e He) as [Hs [t Ht]].
    assert (Hel : zlen e <= size i) by (rewrite Hsz, Ht, zlen_app; pose proof (zlen_nonneg t); lia).
    rewrite Ht in Hlb. apply Forall_app in Hlb as [Heb _].
    pose proof (read_uleb128_terminated w Hw (mem_of 0 data) i e Heb Hs
      ltac:(apply (holds_zdrop _ _ _ t); [lia|exact Ht]) Hel) as Hr.
    rewrite Hr. unfold uleb_answer. destruct (_ && _); [done|]. by eexists.
  - pose proof (leb_take_none l He) as Hc. pose proof (leb128_max_bytes_pos w Hw) as Hm.
    destruct (Z.lt_ge_cases (size i) (leb128_max_bytes w)).
    + eexists. eapply (read_uleb128_short w Hw (mem_of 0 data) i l); try done.
      apply (holds_zdrop _ _ _ []); [lia|]. by rewrite app_nil_r.
    + eexists. eapply (read_uleb128_long w Hw (mem_of 0 data) i (ztake (leb128_max_bytes w) l)); try done.
      * by apply bytes_ok_ztake.
      * by apply Forall_take.
      * apply (holds_zdrop _ _ _ (zdrop (leb128_max_bytes w) l)); [lia|]. by rewrite ztake_zdrop.
      * rewrite zlen_ztake; lia.
Qed.
