(* ===== verification/CombinatorSpecs.v ===== *)
(** * What the combinators compute

    Functional specifications of repetition, branch, permutation and the
    scanning primitives, and the exact treatment of the three error kinds. *)
From S2P Require Import Prelude Parser BytesParsers Combinators CombinatorFacts Numbers.

(** ** Repetition: a chain of consuming matches *)
Inductive repeats {A} (p : parser A) (M : memory) : input -> list A -> input -> Prop :=
| repeats_nil i : repeats p M i [] i
| repeats_cons i v r vs r' :
    p M i = Done v r -> i_first r <> i_first i -> repeats p M r vs r' ->
    repeats p M i (v :: vs) r'.

Section ManyLoop.
Context {A B : Type} (p : parser A) `{!Good p} (step : B -> A -> B) (msg : string).
Context (M : memory).

Lemma good_done cur v r : wf M cur -> p M cur = Done v r -> advances cur r.
Proof using Type*.
  intros Hwf Hp. destruct (good (p:=p) M M cur Hwf) as [_ H]; [by intros ? ?|].
  by rewrite Hp in H.
Qed.

Lemma many_loop_exact fuel cur acc : wf M cur -> (Z.to_nat (size cur) < fuel)%nat ->
  exists vs r, repeats p M cur vs r /\ advances cur r /\ zlen vs <= i_first r - i_first cur /\
  match p M r with
  | Done _ r' => i_first r' = i_first r /\ many_loop fuel p step msg M cur acc = make_err r msg
  | Err e => many_loop fuel p step msg M cur acc =
      if is_err (e_kind e) then Done (fold_left step vs acc) r else Err e
  | Stop _ => False
  end.
Proof using Type*.
  revert cur acc. induction fuel as [|fuel IH]; intros cur acc Hwf Hf; [lia|].
  cbn. destruct (good (p:=p) M M cur Hwf) as [_ Hpost]; [by intros ? ?|].
  destruct (p M cur) as [v r|e|w] eqn:Hp; cbn in Hpost; [|..|done].
  - destruct (Z.eqb_spec (i_first r) (i_first cur)) as [He|He].
    + exists [], cur. split_and!; [constructor|eauto with nanom|unfold zlen; cbn; lia|].
      by rewrite Hp.
    + pose proof (size_advances_lt M cur r Hwf Hpost He).
      destruct (IH r (step acc v)) as (vs & r' & Hr & Ha & Hz & Hc);
        [by eapply wf_advances|lia|].
      exists (v :: vs), r'. split_and!.
      * by econstructor.
      * by eapply advances_trans.
      * pose proof (adv_lo _ _ Hpost). unfold zlen in *; cbn [length]. lia.
      * done.
  - exists [], cur. split_and!; [constructor|eauto with nanom|unfold zlen; cbn; lia|].
    rewrite Hp. by destruct (is_err (e_kind e)).
Qed.
End ManyLoop.

Lemma fold_left_push_back {A} (vs acc : list A) : fold_left push_back vs acc = acc ++ vs.
Proof.
  revert acc. induction vs as [|v vs IH]; intros acc; cbn; [by rewrite app_nil_r|].
  rewrite IH. unfold push_back. by rewrite <- app_assoc.
Qed.

(** [many0] collects the maximal chain of consuming matches, in order, at
    most one per input byte. It stops at the first position where the inner
    parser does not make progress, and the reason decides the answer: a
    recoverable error there is success, a failure or [incomplete] is
    propagated, a match of nothing is an error. *)
Theorem many0_exact {A} (p : parser A) M i :
  Good p -> wf M i ->
  exists vs r, repeats p M i vs r /\ advances i r /\ zlen vs <= i_first r - i_first i /\
  match p M r with
  | Done _ r' => i_first r' = i_first r /\
      many0 p M i = make_err r "many0: inner parser must consume input"
  | Err e => many0 p M i = if is_err (e_kind e) then Done vs r else Err e
  | Stop _ => False
  end.
Proof.
  intros Hp Hwf. destruct (many_loop_exact p push_back
    "many0: inner parser must consume input" M (many_fuel i) i [] Hwf (many_fuel_enough i))
    as (vs & r & Hr & Ha & Hz & Hc).
  exists vs, r. split_and!; [done..|]. unfold many0.
  destruct (p M r) as [v r'|e|w]; [done| |done]. by rewrite fold_left_push_back in Hc.
Qed.

Lemma many0_exact_witness :
  exists vs r, repeats be_u16 (mem_of 0 [0; 5; 0; 7; 9]) (Input 0 5 0 false None 0) vs r /\
    zlen vs <= i_first r - 0.
Proof.
  destruct (many0_exact be_u16 (mem_of 0 [0; 5; 0; 7; 9]) (Input 0 5 0 false None 0)
    ltac:(apply (@stable_good _ be_u16), read_uint_stable; lia)
    (mem_of_wf 0 [0; 5; 0; 7; 9] ltac:(repeat constructor; by vm_compute) eq_refl))
    as (vs & r & H1 & _ & H3 & _).
  exists vs, r. split; [exact H1|exact H3].
Defined.

Lemma many_loop_fold {A B} (p : parser A) (init : B) (f : B -> A -> B) msg msg' M fuel i out :
  Good p -> wf M i -> (Z.to_nat (size i) < fuel)%nat ->
  match many_loop fuel p push_back msg M i out with
  | Done vs r => many_loop fuel p f msg' M i (fold_left f out init) = Done (fold_left f vs init) r
  | Err e => exists e', many_loop fuel p f msg' M i (fold_left f out init) = Err e' /\
      e_kind e' = e_kind e /\ e_offset e' = e_offset e
  | Stop _ => False
  end.
Proof.
  intros Hp. revert i out. induction fuel as [|fuel IH]; intros i out Hwf Hf; [lia|]. cbn.
  destruct (good (p:=p) M M i Hwf) as [_ Hpost]; [by intros ? ?|].
  destruct (p M i) as [v r|e|w]; cbn in Hpost; [| |done].
  - destruct (Z.eqb_spec (i_first r) (i_first i)) as [He|He]; [by eexists|].
    pose proof (size_advances_lt M i r Hwf Hpost He).
    replace (f (fold_left f out init) v) with (fold_left f (push_back out v) init)
      by (unfold push_back; by rewrite fold_left_app).
    apply IH; [by eapply wf_advances|lia].
  - destruct (is_err (e_kind e)); cbn; [done|by exists e].
Qed.

(** [fold_many0] is [many0] followed by a left fold: the same positions,
    the same error kind at the same offset, the accumulator folded in match
    order. *)
Theorem fold_many0_many0 {A B} (p : parser A) (init : B) (f : B -> A -> B) M i :
  Good p -> wf M i ->
  match many0 p M i with
  | Done vs r => fold_many0 p init f M i = Done (fold_left f vs init) r
  | Err e => exists e', fold_many0 p init f M i = Err e' /\
      e_kind e' = e_kind e /\ e_offset e' = e_offset e
  | Stop _ => False
  end.
Proof. intros Hp Hwf. by apply (many_loop_fold p init f _ _ M (many_fuel i) i []); [..|apply many_fuel_enough]. Qed.

Lemma fold_many0_many0_witness :
  fold_many0 be_u8 0 Z.add (mem_of 0 [3; 4; 5]) (Input 0 3 0 false None 0) =
    Done 12 (Input 3 3 0 false None 0).
Proof.
  exact (fold_many0_many0 be_u8 0 Z.add (mem_of 0 [3; 4; 5]) (Input 0 3 0 false None 0)
    ltac:(apply (@stable_good _ be_u8), read_uint_stable; lia)
    (mem_of_wf 0 [3; 4; 5] ltac:(repeat constructor; by vm_compute) eq_refl)).
Defined.

(** ** Branch *)
Definition recoverable {A} (o : result A) : Prop :=
  match o with Err e => e_kind e = errk_err | _ => False end.

Lemma better_max best e :
  e_offset (better best e) = Z.max (e_offset best) (e_offset e).
Proof. unfold better. destruct (Z.ltb_spec (e_offset best) (e_offset e)); lia. Qed.

Section AltSpec.
Context {V : Type} (M : memory) (i : input).

(** The errors of the branches tried, all recoverable. *)
Definition branch_errors (qs : list (parser V)) (es : list error) : Prop :=
  Forall2 (fun q e => q M i = Err e /\ e_kind e = errk_err) qs es.

Definition stops_at (ps : list (parser V)) (o : result V) : Prop :=
  exists qs q rs es, ps = qs ++ q :: rs /\ branch_errors qs es /\
    ~ recoverable (q M i) /\ o = q M i.

Lemma stops_here p ps o : ~ recoverable (p M i) -> o = p M i -> stops_at (p :: ps) o.
Proof. intros H ->. exists [], p, ps, []. by repeat constructor. Qed.

Lemma alt_step_choice best (p : parser V) ps :
  stops_at (p :: ps) (alt_step M i best p ps) \/
  (exists es e, branch_errors (p :: ps) es /\
     (In e es \/ best = Some e) /\ Forall (fun e' => e_offset e' <= e_offset e) es /\
     (forall b, best = Some b -> e_offset b <= e_offset e) /\
     alt_step M i best p ps = Err (name_if_unnamed "one of the alternatives" e)).
Proof.
  revert best p. induction ps as [|q qs IH]; intros best p; cbn.
  all: destruct (p M i) as [v r|e|w] eqn:Hp; [by left; apply stops_here; rewrite Hp; auto| |
    by left; apply stops_here; rewrite Hp; auto].
  all: destruct (is_err (e_kind e)) eqn:Hk; cbn;
    [|by left; apply stops_here; rewrite Hp; [intros Hc; by rewrite Hc in Hk|]].
  all: assert (Hke : e_kind e = errk_err) by (by destruct (e_kind e)).
  - right. set (e' := match best with Some b => better b e | None => e end).
    exists [e], e'. split_and!; [by repeat constructor|..|done].
    + unfold e'. destruct best as [b|]; cbn; [|by left; left].
      destruct (better_cases b e) as [-> | ->]; auto.
    + constructor; [|done]. unfold e'. destruct best; [rewrite better_max|]; lia.
    + intros b ->. unfold e'. rewrite better_max. lia.
  - set (e' := match best with Some b => better b e | None => e end).
    destruct (IH (Some e') q) as [(qs1 & q1 & rs & es & Heq & Hes & Hn & Ha)|
      (es & e1 & Hes & Hin & Hmax & Hb & Ha)].
    + left. exists (p :: qs1), q1, rs, (e :: es). rewrite Heq. split_and!; try done.
      by constructor.
    + right. exists (e :: es), e1.
      assert (He' : e_offset e <= e_offset e' /\ forall b, best = Some b -> e_offset b <= e_offset e').
      { unfold e'. destruct best; [rewrite better_max|]; split; try lia; naive_solver lia. }
      specialize (Hb e' eq_refl). split_and!; [by constructor|..|done].
      * destruct Hin as [Hin|[= <-]]; [by left; right|]. unfold e'.
        destruct best as [b|]; [|by left; left].
        destruct (better_cases b e) as [-> | ->]; [by right|by left; left].
      * constructor; [lia|done].
      * intros b Hbb. destruct He' as [_ He']. specialize (He' b Hbb). lia.
Qed.
End AltSpec.

(** [alt] is ordered choice with the furthest error. Either some branch,
    all earlier ones having failed recoverably, answers with a success, a
    failure or [incomplete], and that is the answer of [alt] (later branches
    are not run); or every branch failed recoverably, and the error is one of
    theirs, at the greatest offset any of them reached, given a name when it
    has none. *)
Theorem alt_choice {V} (p : parser V) ps M i :
  stops_at M i (p :: ps) (alt p ps M i) \/
  (exists es e, branch_errors M i (p :: ps) es /\ In e es /\
     Forall (fun e' => e_offset e' <= e_offset e) es /\
     alt p ps M i = Err (name_if_unnamed "one of the alternatives" e)).
Proof.
  destruct (alt_step_choice M i None p ps) as [H|(es & e & H1 & [H2|H2] & H3 & _ & H4)];
    [by left| |done]. right. by exists es, e.
Qed.

(** [cut] commits. A recoverable error under [cut] leaves every
    backtracking combinator as a failure with the same offset and
    expectation: no alternative is tried, nothing is treated as absent. *)
Theorem cut_commits {A B} (p : parser A) (sep : parser B) ps M i e :
  p M i = Err e -> e_kind e = errk_err ->
  let failure := set_kind errk_fail e in
  cut p M i = Err failure /\ alt (cut p) ps M i = Err failure /\
  opt (cut p) M i = Err failure /\ not_ (cut p) M i = Err failure /\
  many0 (cut p) M i = Err failure /\ separated_list0 sep (cut p) M i = Err failure.
Proof.
  intros Hp Hk.
  assert (Hc : cut p M i = Err (set_kind errk_fail e)) by (unfold cut; rewrite Hp, Hk; done).
  cbv zeta. unfold alt, opt, not_, many0, many_fuel, separated_list0. cbn.
  destruct ps; cbn; rewrite Hc; done.
Qed.

Lemma cut_commits_witness :
  alt (cut (tag [65])) [take 1] (mem_of 0 [66]) (Input 0 1 0 false None 0) =
    Err (Error errk_fail 0 "tag" 0 []).
Proof.
  exact (proj1 (proj2 (cut_commits (tag [65]) eof [take 1] (mem_of 0 [66]) (Input 0 1 0 false None 0)
    (Error errk_err 0 "tag" 0 []) eq_refl eq_refl))).
Defined.

(** ** Scanning *)
Definition all_match (M : memory) (a n : Z) (pred : Z -> bool) : Prop :=
  forall x, a <= x < a + n -> exists b, M x = Some b /\ pred b = true.

Lemma scan_exact M i pred n k : wf M i -> 0 <= k -> k + Z.of_nat n <= size i ->
  exists j, scan n M i pred k = Some j /\ k <= j <= k + Z.of_nat n /\
    all_match M (i_first i + k) (j - k) pred /\
    (j < k + Z.of_nat n -> exists b, at_ M i j = Some b /\ pred b = false).
Proof.
  intros Hwf. revert k. induction n as [|n IH]; intros k Hk Hn; cbn [scan].
  { exists k. split_and!; try done; try lia. intros x Hx. lia. }
  destruct (at_wf M i k Hwf) as (b & Hb & _); [lia|]. rewrite Hb. destruct (pred b) eqn:Hp.
  - destruct (IH (k + 1)) as (j & -> & Hj & Hall & Hstop); [lia..|].
    exists j. split_and!; try done; try lia; [|intros; apply Hstop; lia].
    intros x Hx. destruct (decide (x = i_first i + k)) as [-> |]; [by exists b|].
    apply Hall. lia.
  - exists k. split_and!; try done; try lia; [intros x Hx; lia|by exists b].
Qed.

(** The [take_while] engine takes the longest run of bytes that satisfy
    the predicate, of at most [max] bytes: every byte of the run matches, and
    it ends at the cap, at the end of the input or at a byte that does not
    match. A run shorter than [min] asks for more input when the input ended
    it, and is an error at the offending byte otherwise. *)
Theorem take_pred_longest M i pred min max what :
  wf M i -> 0 <= max ->
  exists k, 0 <= k <= Z.min max (size i) /\ all_match M (i_first i) k pred /\
  (k < Z.min max (size i) -> exists b, at_ M i k = Some b /\ pred b = false) /\
  take_pred pred min max what M i =
    if min <=? k then Done (take_span i k) (advance i k)
    else if k =? size i then make_incomplete i (min - k)
    else make_err (advance i k) what.
Proof.
  intros Hwf Hmax. pose proof (size_wf M i Hwf) as Hs. pose proof (wf_first M i Hwf).
  destruct (scan_exact M i pred (Z.to_nat (Z.min max (size i))) 0 Hwf) as (k & Hk & ? & Hall & Hstop);
    [lia..|].
  exists k. rewrite Z.add_0_r, Z.sub_0_r in Hall. split_and!; try done; try lia.
  - intros. apply Hstop. lia.
  - unfold take_pred. rewrite Hk, Z.leb_antisym. by destruct (k <? min).
Qed.

Lemma take_pred_longest_witness :
  exists k, all_match (mem_of 0 [49; 50; 65]) 0 k is_digit /\ 0 <= k <= 3.
Proof.
  destruct (take_pred_longest (mem_of 0 [49; 50; 65]) (Input 0 3 0 false None 0) is_digit 1 nmax "digit"
    (mem_of_wf 0 [49; 50; 65] ltac:(repeat constructor; by vm_compute) eq_refl)
    ltac:(by vm_compute)) as (k & H1 & H2 & _).
  exists k. split; [exact H2|exact H1].
Defined.

Lemma occurs_at_holds M a ned : occurs_at M a ned = Some true <-> holds M a ned.
Proof.
  revert a. induction ned as [|c t IH]; intros a; cbn; [done|].
  destruct (M a) as [b|]; [|naive_solver].
  destruct (Z.eqb_spec b c) as [-> |]; [rewrite IH; naive_solver|naive_solver].
Qed.

Lemma std_search_first M M' n a hi ned : win M M' a hi ->
  ((0 < n)%nat -> a + Z.of_nat n + zlen ned <= hi + 1) ->
  exists it, std_search n M a hi ned = Some it /\
    (forall x, a <= x < it -> x + zlen ned <= hi -> x < a + Z.of_nat n -> ~ holds M x ned) /\
    (it = hi \/ a <= it < a + Z.of_nat n /\ holds M it ned).
Proof.
  intros Hw. revert a Hw. induction n as [|n IH]; intros a Hw Hn; cbn.
  { exists hi. split_and!; [done| |by left]. intros; lia. }
  destruct (occurs_at_win M M' a hi Hw a ned) as [_ [[] Ho]]; [lia..| |]; rewrite Ho.
  - exists a. split_and!; [done| |]; [intros; lia|].
    right. split; [lia|]. by apply occurs_at_holds.
  - destruct (IH (a + 1)) as (it & -> & Hno & Hit); [intros x Hx; apply Hw; lia|lia|].
    exists it. split_and!; [done| |].
    + intros x Hx Hxl Hxn. destruct (decide (x = a)) as [-> |]; [|apply Hno; lia].
      rewrite <- occurs_at_holds, Ho. done.
    + destruct Hit as [|[? ?]]; [by left|right; split; [lia|done]].
Qed.

(** [take_until] stops at the first occurrence of the needle, which is
    wholly inside the window and is left unconsumed; without an occurrence it
    asks for more input. *)
Theorem take_until_first M i needle :
  wf M i -> needle <> [] ->
  (exists n, 0 <= n /\ n + zlen needle <= size i /\
     holds M (i_first i + n) needle /\
     (forall k, 0 <= k < n -> ~ holds M (i_first i + k) needle) /\
     take_until needle M i = Done (take_span i n) (advance i n)) \/
  ((forall k, 0 <= k -> k + zlen needle <= size i -> ~ holds M (i_first i + k) needle) /\
   take_until needle M i = make_incomplete i 1).
Proof.
  intros Hwf Hne. pose proof (size_wf M i Hwf) as Hs. pose proof (wf_first M i Hwf).
  assert (Hz : 0 < zlen needle) by (destruct needle; [done|unfold zlen; cbn; lia]).
  pose proof (win_wf M M i Hwf ltac:(by intros ? ?)) as Hwin.
  unfold take_until.
  destruct (std_search_first M M (Z.to_nat (size i - zlen needle + 1)) (i_first i) (i_last i) needle Hwin)
    as (it & -> & Hno & [-> |[Hit Hh]]); [lia| |].
  - right. rewrite Z.eqb_refl. split; [|done]. intros k Hk Hkz. apply Hno; lia.
  - left. destruct (Z.eqb_spec it (i_last i)); [lia|].
    exists (it - i_first i). split_and!; try lia; [|intros k Hk; apply Hno; lia|done].
    by replace (i_first i + (it - i_first i)) with it by lia.
Qed.

Lemma take_until_first_witness :
  exists n, 0 <= n /\ take_until [59; 59] (mem_of 0 [59; 7; 59; 59]) (Input 0 4 0 false None 0) =
    Done (Bytes 0 n None 0) (Input n 4 0 false None 0).
Proof.
  destruct (take_until_first (mem_of 0 [59; 7; 59; 59]) (Input 0 4 0 false None 0) [59; 59]
    (mem_of_wf 0 [59; 7; 59; 59] ltac:(repeat constructor; by vm_compute) eq_refl)
    ltac:(done)) as [(n & H1 & _ & _ & _ & H2)|(_ & H)].
  - exists n. split; [exact H1|exact H2].
  - by vm_compute in H.
Defined.

(** ** Permutation *)

(** One round fills the first empty slot, in declaration order, whose parser
    matches at the cursor; the parsers of the empty slots before it failed
    recoverably there. *)
Inductive fill1 (M : memory) (cur r : input) :
  forall {Ts}, plist Ts -> slots Ts -> slots Ts -> Prop :=
| fill1_here {A Ts} (p : parser A) (ps : plist Ts) v (ss : slots Ts) :
    p M cur = Done v r ->
    fill1 M cur r (PCons p ps) ((None, ss) : slots (A :: Ts)) (Some v, ss)
| fill1_there {A Ts} (p : parser A) (ps : plist Ts) s (ss ss' : slots Ts) :
    (s = None -> recoverable (p M cur)) ->
    fill1 M cur r ps ss ss' ->
    fill1 M cur r (PCons p ps) ((s, ss) : slots (A :: Ts)) (s, ss').

(** The empty slots' parsers all fail recoverably. *)
Fixpoint stuck (M : memory) (cur : input) {Ts} (ps : plist Ts) : slots Ts -> Prop :=
  match ps in plist Ts return slots Ts -> Prop with
  | PNil => fun _ => True
  | PCons p ps => fun s => (s.1 = None -> recoverable (p M cur)) /\ stuck M cur ps s.2
  end.

(** Some empty slot's parser fails with [e], which is not recoverable. *)
Fixpoint aborts (M : memory) (cur : input) (e : error) {Ts} (ps : plist Ts) : slots Ts -> Prop :=
  match ps in plist Ts return slots Ts -> Prop with
  | PNil => fun _ => False
  | PCons p ps => fun s =>
      (s.1 = None /\ p M cur = Err e /\ e_kind e <> errk_err) \/ aborts M cur e ps s.2
  end.

Inductive fills (M : memory) {Ts} (ps : plist Ts) : nat -> input -> slots Ts -> input -> slots Ts -> Prop :=
| fills_O cur s : fills M ps O cur s cur s
| fills_S n cur s r s1 r' s' :
    fill1 M cur r ps s s1 -> fills M ps n r s1 r' s' -> fills M ps (S n) cur s r' s'.

Lemma perm_round_skip {Ts} (ps : plist Ts) M st :
  pm_progressed st = true -> perm_round ps M st = inl st.
Proof.
  revert st. induction ps as [|A Ts p ps IH]; intros [ss cur pr de] Hp; cbn in Hp; subst; [done|].
  destruct ss as [s ss]. change (slots Ts) in (type of ss).
  rewrite perm_round_cons. cbv zeta. cbn [orb]. by rewrite IH.
Qed.

Lemma perm_round_exact {Ts} (ps : plist Ts) M ss cur de : e_kind de = errk_err ->
  match perm_round ps M (PermState ss cur false de) with
  | inl st' => e_kind (pm_deepest st') = errk_err /\
      if pm_progressed st' then fill1 M cur (pm_cur st') ps ss (pm_slots st')
      else pm_slots st' = ss /\ pm_cur st' = cur /\ stuck M cur ps ss
  | inr (inl e) => aborts M cur e ps ss
  | inr (inr w) => True
  end.
Proof.
  revert ss de. induction ps as [|A Ts p ps IH]; intros ss de Hde; [done|].
  destruct ss as [s ss]. change (slots Ts) in (type of ss).
  rewrite perm_round_cons. cbv zeta. cbn [orb]. case_bool_decide as Hs.
  - specialize (IH ss de Hde). destruct s as [v|]; [|by destruct Hs].
    destruct (perm_round ps M _) as [st'|[e|w]]; cbn -[slots]; [|by right|done].
    destruct IH as [? IH]. split; [done|].
    destruct (pm_progressed st'); [by constructor|]. by destruct IH as (-> & -> & ?).
  - destruct s as [v|]; [by destruct Hs|]. destruct (p M cur) as [v r|e|w] eqn:Hp; [| |done].
    + rewrite perm_round_skip by done. cbn -[slots]. split; [done|]. by constructor.
    + destruct (is_err (e_kind e)) eqn:Hk; cbn [negb].
      * assert (He : e_kind e = errk_err) by (by destruct (e_kind e)).
        assert (recoverable (p M cur)) by (rewrite Hp; done).
        specialize (IH ss (better de e)).
        destruct (perm_round ps M _) as [st'|[e'|w]]; cbn -[slots]; [| |done].
        -- destruct IH as [? IH]; [by destruct (better_cases de e) as [-> | ->]|].
           split; [done|]. destruct (pm_progressed st'); [by constructor|]. by destruct IH as (-> & -> & ?).
        -- right. apply IH. by destruct (better_cases de e) as [-> | ->].
      * left. split_and!; [done..|]. intros He. by rewrite He in Hk.
Qed.

Lemma perm_rounds_fills {Ts} (ps : plist Ts) M n i ss de pr : e_kind de = errk_err ->
  match perm_rounds n ps M (PermState ss i pr de) with
  | Done vs r => exists s, fills M ps n i ss r s /\ get_slots Ts s = Some vs
  | Err e => exists m r s, (m < n)%nat /\ fills M ps m i ss r s /\
      (aborts M r e ps s \/ (e_kind e = errk_err /\ stuck M r ps s))
  | Stop _ => True
  end.
Proof.
  revert i ss de pr. induction n as [|n IH]; intros i ss de pr Hde; cbn -[slots get_slots].
  - destruct (get_slots Ts ss) eqn:Hg; [|done]. exists ss. split; [constructor|done].
  - pose proof (perm_round_exact ps M ss i de Hde) as Hr.
    destruct (perm_round ps M _) as [st'|[e|w]]; [| |done].
    + destruct st' as [ss' cur' [] de']; cbn -[slots get_slots] in *; destruct Hr as [Hde' Hr].
      * specialize (IH cur' ss' de' true Hde').
        destruct (perm_rounds n ps M _) as [vs r|e|w]; [| |done].
        -- destruct IH as (s & Hf & Hg). exists s. split; [by econstructor|done].
        -- destruct IH as (m & r & s & Hm & Hf & Ha). exists (S m), r, s.
           split_and!; [lia|by econstructor|done].
      * destruct Hr as (-> & -> & Hst). exists O, i, ss.
        split_and!; [lia|constructor|right]. by destruct (String.eqb _ _).
    + exists O, i, ss. split_and!; [lia|constructor|by left].
Qed.

(** [permutation] accepts the parsers in any order, each exactly once.
    It returns after filling every slot, one per round, each round with the
    first parser not yet used that matches where the last one stopped; it
    fails with the error of a parser that fails unrecoverably on the way, or
    recoverably at a point where no unused parser matches. *)
Theorem permutation_exact {Ts} (ps : plist Ts) M i :
  AllGood ps -> wf M i ->
  match permutation ps M i with
  | Done vs r => advances i r /\
      exists s, fills M ps (length Ts) i (no_slots Ts) r s /\ get_slots Ts s = Some vs
  | Err e => exists n r s, (n < length Ts)%nat /\ fills M ps n i (no_slots Ts) r s /\
      (aborts M r e ps s \/ (e_kind e = errk_err /\ stuck M r ps s))
  | Stop _ => False
  end.
Proof.
  intros Hps Hwf. pose proof (perm_rounds_fills ps M (length Ts) i (no_slots Ts) error_default false eq_refl) as Hf.
  fold (permutation ps M i) in Hf.
  destruct (permutation_good ps Hps M M i Hwf) as [_ Hpost]; [by intros ? ?|].
  by destruct (permutation ps M i).
Qed.

Lemma permutation_exact_witness :
  exists s, fills (mem_of 0 [66; 65]) (PCons (chr 65) (PCons (chr 66) PNil)) 2
    (Input 0 2 0 false None 0) (None, (None, tt)) (Input 2 2 0 false None 0) s.
Proof.
  pose proof (permutation_exact (PCons (chr 65) (PCons (chr 66) PNil)) (mem_of 0 [66; 65])
    (Input 0 2 0 false None 0) ltac:(apply _)
    (mem_of_wf 0 [66; 65] ltac:(repeat constructor; by vm_compute) eq_refl)) as H.
  assert (E : permutation (PCons (chr 65) (PCons (chr 66) PNil)) (mem_of 0 [66; 65])
    (Input 0 2 0 false None 0) = Done (65, (66, tt)) (Input 2 2 0 false None 0))
    by (vm_compute; reflexivity).
  rewrite E in H. destruct H as (_ & s & H & _). exists s. exact H.
Defined.

(** ** [incomplete] as an answer *)

(** Where [incomplete] is not a request for more input. [opt], [not_]
    and [separated_list0] treat an [incomplete] of their argument as absence,
    and a [take_while] run that reaches the end of the input is a match, also
    on a stream prefix; [alt], [many0] and [many1] propagate it. *)
Theorem incomplete_swallowed {A B} (p : parser A) (sep : parser B) ps M i e :
  p M i = Err e -> e_kind e = errk_incomplete ->
  opt p M i = Done None i /\ not_ p M i = Done tt i /\ separated_list0 sep p M i = Done [] i /\
  alt p ps M i = Err e /\ many0 p M i = Err e /\ many1 p M i = Err e.
Proof.
  intros Hp Hk. unfold opt, not_, separated_list0, alt, many0, many1, many_fuel, many_loop, alt_step.
  destruct ps; rewrite !Hp, !Hk; done.
Qed.

(** On the stream prefix "a" the optional "ab" is absent; one byte later it is
    there: the answer on the prefix was final too early. *)
Lemma incomplete_swallowed_witness :
  opt (tag [97; 98]) (mem_of 0 [97]) (Input 0 1 0 true None 0) =
    Done None (Input 0 1 0 true None 0) /\
  opt (tag [97; 98]) (mem_of 0 [97; 98]) (Input 0 2 0 true None 0) =
    Done (Some (Bytes 0 2 None 0)) (Input 2 2 0 true None 0).
Proof.
  split; [|reflexivity].
  exact (proj1 (incomplete_swallowed (tag [97; 98]) eof [] (mem_of 0 [97])
    (Input 0 1 0 true None 0) (Error errk_incomplete 1 "more input" 1 []) eq_refl eq_refl)).
Defined.

(** ** Length prefixes *)

(** [length_value] confines its body. Whatever the prefix promises, the
    body sees exactly that many bytes following it and nothing beyond, and
    the parse resumes right after them however many the body used; a body
    that runs short is a plain error even on a stream. *)
Theorem length_value_confined {A} (np : parser Z) (p : parser A) M i n r :
  Good np -> wf M i -> np M i = Done n r -> 0 <= n <= size r ->
  exists body, i_first body = i_first r /\ i_last body = i_first r + n /\ wf M body /\
  length_value np p M i =
    match p M body with
    | Done v _ => Done v (advance r n)
    | Err e => Err (if is_incomplete (e_kind e)
                    then set_expected "value fitting its length prefix" (set_kind errk_err e) else e)
    | Stop w => Stop w
    end.
Proof.
  intros Hnp Hwf Hr Hn.
  destruct (Hnp M M i Hwf) as [_ Hpost]; [by intros ? ?|]. rewrite Hr in Hpost. cbn in Hpost.
  pose proof (wf_advances M i r Hwf Hpost) as Hwr. pose proof (size_wf M r Hwr) as Hs.
  pose proof (wf_extent M r Hwr). pose proof (wf_base M r Hwr). pose proof (wf_first M r Hwr).
  destruct Hpost as [? ? ? ? _ _ _].
  exists (with_range i (i_first r) (i_first r + n)). split_and!; [done..| |].
  - apply wf_sub; [done|lia..].
  - unfold length_value, length_data. rewrite Hr. cbn [bind]. rewrite wrap_small by lia.
    unfold take. destruct (Z.ltb_spec (size r) n); [lia|]. reflexivity.
Qed.

Lemma length_value_confined_witness :
  length_value be_u8 (take 3) (mem_of 0 [2; 7; 8; 9]) (Input 0 4 0 true None 0) =
    Err (Error errk_err 3 "value fitting its length prefix" 1 []).
Proof.
  destruct (length_value_confined be_u8 (take 3) (mem_of 0 [2; 7; 8; 9]) (Input 0 4 0 true None 0)
    2 (Input 1 4 0 true None 0)
    ltac:(apply (@stable_good _ be_u8), read_uint_stable; lia)) as (body & _ & _ & _ & H).
  - apply (Wf _ _); cbn; try lia. intros a Ha.
    apply (wf_mapped _ _ (mem_of_wf 0 [2; 7; 8; 9] ltac:(repeat constructor; by vm_compute) eq_refl)).
    exact Ha.
  - reflexivity.
  - by vm_compute.
  - reflexivity.
Defined.

(** The element count of [length_count] reaches [vector::reserve] with
    no check against the input: whatever the remaining bytes are, a count
    past the vector's [max_size] throws out of the parser, and one below it
    is reserved before the first element is read. *)
Theorem length_count_unguarded {A} vmax (np : parser Z) (p : parser A) M i n r :
  np M i = Done n r -> 0 <= n < 2 ^ 64 ->
  (vmax < n -> length_count vmax np p M i = Stop Throw) /\
  (n <= vmax -> length_count vmax np p M i = count_loop (Z.to_nat n) p M r []).
Proof.
  intros Hr Hn. unfold length_count. rewrite Hr. cbn [bind]. rewrite wrap_small by lia.
  unfold count. split; intros H; destruct (Z.ltb_spec vmax n); done || lia.
Qed.

Lemma length_count_unguarded_witness :
  length_count (2 ^ 60) be_u64 be_u8 (mem_of 0 (replicate 8 255)) (Input 0 8 0 false None 0) =
    Stop Throw.
Proof.
  exact (proj1 (length_count_unguarded (2 ^ 60) be_u64 be_u8 (mem_of 0 (replicate 8 255))
    (Input 0 8 0 false None 0) (2 ^ 64 - 1) (Input 8 8 0 false None 0) eq_refl ltac:(lia))
    ltac:(lia)).
Defined.
