(* ===== verification/TextNum.v ===== *)
(** * Text numbers (nom.hpp, section 13)

    [dec] and [hex] over the integer [std::from_chars], and the portable
    floating-point [from_chars_double] behind [double_] and [float_]. Floating
    point is an interface ([fp_ops]), with the floating-point [std::from_chars]
    of libraries that have one: its instance [binary64] is IEEE 754 double
    arithmetic with the portable parser, and the one with exact rationals shows
    what that parser computes before rounding. *)
From Stdlib Require Import QArith Qpower Lqa Qfield.
From S2P Require Import Prelude Parser BytesParsers.
#[local] Open Scope Z_scope.

(** ** [std::from_chars] on integers *)
Inductive errc := errc_ok | invalid_argument | result_out_of_range.

#[export] Instance errc_eq_dec : EqDecision errc.
Proof. solve_decision. Defined.

(** The digit a character denotes in a base up to 16. *)
Definition digit_of (base c : Z) : option Z :=
  let d := if is_digit c then Some (c - 48)
           else if (97 <=? Z.lor c 32) && (Z.lor c 32 <=? 102) then Some (Z.lor c 32 - 87)
           else None in
  match d with Some v => if v <? base then Some v else None | None => None end.

(** The longest run of digits among the [n] characters from [p]: its end and
    the integer it denotes, continuing [acc]. *)
Fixpoint digit_run (n : nat) (M : memory) (base p acc : Z) : option (Z * Z) :=
  match n with
  | O => Some (p, acc)
  | S n =>
      match M p with
      | None => None
      | Some c =>
          match digit_of base c with
          | Some d => digit_run n M base (p + 1) (acc * base + d)
          | None => Some (p, acc)
          end
      end
  end.

Record from_chars_result (V : Type) := FromChars { fc_ptr : Z; fc_ec : errc; fc_value : V }.
Arguments FromChars {V}.
Arguments fc_ptr {V}.
Arguments fc_ec {V}.
Arguments fc_value {V}.

(** [std::from_chars(first, last, v, base)] for a [w]-bit type: a minus sign
    only for signed types, at least one digit, the value only when it fits. *)
Definition from_chars (w : Z) (signed : bool) (base : Z) (M : memory) (first last : Z) :
    option (from_chars_result Z) :=
  let start neg p :=
    match digit_run (Z.to_nat (last - p)) M base p 0 with
    | None => None
    | Some (q, u) =>
        if q =? p then Some (FromChars first invalid_argument 0)
        else
          let v := if neg : bool then - u else u in
          let fits := if signed then (- 2 ^ (w - 1) <=? v) && (v <? 2 ^ (w - 1)) else v <? 2 ^ w in
          if fits then Some (FromChars q errc_ok v)
          else Some (FromChars q result_out_of_range 0)
    end in
  if first <? last then
    match M first with
    | None => None
    | Some c => if signed && (c =? 45) then start true (first + 1) else start false first
    end
  else start false first.

Definition is_ok (e : errc) : bool := match e with errc_ok => true | _ => false end.

Definition text_int (w : Z) (signed : bool) (base : Z) (what : string) : parser Z := fun M i =>
  match from_chars w signed base M (i_first i) (i_last i) with
  | None => Stop UB
  | Some r =>
      if negb (is_ok (fc_ec r)) || (fc_ptr r =? i_first i) then make_err i what
      else Done (fc_value r) (advance i (u64 (fc_ptr r - i_first i)))
  end.

Definition dec (w : Z) (signed : bool) : parser Z := text_int w signed 10 "decimal integer".
Definition hex (w : Z) : parser Z := text_int w false 16 "hex integer".

(** ** Floating point *)
Class fp_ops := {
  dbl : Type;
  d_of_u64 : Z -> dbl;          (* double(mant) *)
  d_mul : dbl -> dbl -> dbl;
  d_div : dbl -> dbl -> dbl;
  d_neg : dbl -> dbl;
  d_eqb : dbl -> dbl -> bool;
  d_zero : dbl;
  d_two : dbl;
  pow10_exact : Z -> dbl;       (* the table, 0 <= e <= 22 *)
  (* [std::from_chars] on doubles, of a library that has it: it reads the
     characters it is given and points among them *)
  std_from_chars : option (memory -> Z -> Z -> option (from_chars_result dbl));
  std_from_chars_window : match std_from_chars with
    | None => True
    | Some f => forall M M' first last, first <= last -> win M M' first last ->
        f M' first last = f M first last /\ exists r, f M first last = Some r /\ first <= fc_ptr r <= last
    end
}.

Section FromCharsDouble.
Context `{fp_ops}.

(** [while (e > 22) { m *= 1e22; e -= 22; }]; [Z.to_nat e] rounds suffice. *)
Fixpoint scale_up (fuel : nat) (m : dbl) (e : Z) : dbl :=
  match fuel with
  | O => d_mul m (pow10_exact e)
  | S fuel => if 22 <? e then scale_up fuel (d_mul m (pow10_exact 22)) (e - 22)
              else d_mul m (pow10_exact e)
  end.

Fixpoint scale_down (fuel : nat) (m : dbl) (k : Z) : dbl :=
  match fuel with
  | O => d_div m (pow10_exact k)
  | S fuel => if 22 <? k then scale_down fuel (d_div m (pow10_exact 22)) (k - 22)
              else d_div m (pow10_exact k)
  end.

Definition scale10 (m : dbl) (e : Z) : dbl :=
  if d_eqb m d_zero then d_zero
  else if 0 <=? e then scale_up (Z.to_nat e) m e
  else scale_down (Z.to_nat (- e)) m (- e).

(** The scanner's variables. *)
Record dscan := DScan { ds_p : Z; ds_mant : Z; ds_digits : Z; ds_exp10 : Z; ds_any : bool }.

(** One round of the lambda [eat]: digits past the 18th only scale. *)
Definition eat_digit (fractional : bool) (s : dscan) (c : Z) : dscan :=
  if ds_digits s <? 18 then
    DScan (ds_p s + 1) (u64 (ds_mant s * 10 + (c - 48))) (ds_digits s + 1)
      (if fractional then ds_exp10 s - 1 else ds_exp10 s) true
  else if negb fractional then
    DScan (ds_p s + 1) (ds_mant s) (ds_digits s) (ds_exp10 s + 1) true
  else DScan (ds_p s + 1) (ds_mant s) (ds_digits s) (ds_exp10 s) true.

(** The lambda [eat], with [n] characters before [last]. *)
Fixpoint eat (n : nat) (M : memory) (fractional : bool) (s : dscan) : option dscan :=
  match n with
  | O => Some s
  | S n =>
      match M (ds_p s) with
      | None => None
      | Some c =>
          if is_digit c then eat n M fractional (eat_digit fractional s c)
          else Some s
      end
  end.

(** The exponent's digits: end and value, frozen once it passes 100000. *)
Fixpoint eat_exp (n : nat) (M : memory) (ep e : Z) : option (Z * Z) :=
  match n with
  | O => Some (ep, e)
  | S n =>
      match M ep with
      | None => None
      | Some c =>
          if is_digit c then eat_exp n M (ep + 1) (if e <? 100000 then e * 10 + (c - 48) else e)
          else Some (ep, e)
      end
  end.

(** The character at [p], or none at [last]; [None] is an undefined read. *)
Definition peek_char (M : memory) (p last : Z) : option (option Z) :=
  if p =? last then Some None
  else match M p with Some c => Some (Some c) | None => None end.

Definition is_char (o : option Z) (f : Z -> bool) : bool :=
  match o with Some c => f c | None => false end.

(** The optional exponent after the significand: new end and exponent. *)
Definition exponent (M : memory) (last p exp10 : Z) : option (Z * Z) :=
  match peek_char M p last with
  | None => None
  | Some c =>
      if is_char c (fun c => (c =? 101) || (c =? 69)) then
        match peek_char M (p + 1) last with
        | None => None
        | Some sgn =>
            let eneg := is_char sgn (Z.eqb 45) in
            let ep := if is_char sgn (fun c => (c =? 43) || (c =? 45)) then p + 2 else p + 1 in
            match peek_char M ep last with
            | None => None
            | Some d =>
                if is_char d is_digit then
                  match eat_exp (Z.to_nat (last - ep)) M ep 0 with
                  | None => None
                  | Some (ep', e) => Some (ep', exp10 + (if eneg then - e else e))
                  end
                else Some (p, exp10)
            end
        end
      else Some (p, exp10)
  end.

(** Sign, digits, fraction: [None] in the sum when no digit was seen. *)
Definition significand (M : memory) (first last : Z) : option (bool * dscan) :=
  match peek_char M first last with
  | None => None
  | Some c =>
      let neg := is_char c (Z.eqb 45) in
      let p := if neg then first + 1 else first in
      match eat (Z.to_nat (last - p)) M false (DScan p 0 0 0 false) with
      | None => None
      | Some s =>
          match peek_char M (ds_p s) last with
          | None => None
          | Some d =>
              if is_char d (Z.eqb 46) then
                match eat (Z.to_nat (last - (ds_p s + 1))) M true
                  (DScan (ds_p s + 1) (ds_mant s) (ds_digits s) (ds_exp10 s) (ds_any s)) with
                | None => None
                | Some s' => Some (neg, s')
                end
              else Some (neg, s)
          end
      end
  end.

Definition from_chars_double (M : memory) (first last : Z) : option (from_chars_result dbl) :=
  match significand M first last with
  | None => None
  | Some (neg, s) =>
      if negb (ds_any s) then Some (FromChars first invalid_argument d_zero)
      else match exponent M last (ds_p s) (ds_exp10 s) with
           | None => None
           | Some (p, exp10) =>
               let v := scale10 (d_of_u64 (ds_mant s)) exp10 in
               let overflow := negb (d_eqb v d_zero) && d_eqb (d_mul v d_two) v in
               let underflow := d_eqb v d_zero && negb (ds_mant s =? 0) in
               if overflow || underflow then Some (FromChars p result_out_of_range d_zero)
               else Some (FromChars p errc_ok (if neg : bool then d_neg v else v))
           end
  end.

(** The library's conversion where it has one ([has_fp_from_chars]), the portable
    one otherwise. *)
Definition parse_double (M : memory) (first last : Z) : option (from_chars_result dbl) :=
  match std_from_chars with Some f => f M first last | None => from_chars_double M first last end.

Definition double_ : parser dbl := fun M i =>
  match parse_double M (i_first i) (i_last i) with
  | None => Stop UB
  | Some r =>
      if negb (is_ok (fc_ec r)) || (fc_ptr r =? i_first i) then make_err i "floating point number"
      else Done (fc_value r) (advance i (u64 (fc_ptr r - i_first i)))
  end.

(** [float_], [narrow] being the conversion to [float]. *)
Definition float_ {F} (narrow : dbl -> F) : parser F := fun M i =>
  let* (v, r) := double_ M i in Done (narrow v) r.
End FromCharsDouble.

(** Exact arithmetic. *)
#[export] Instance exact_fp : fp_ops := {|
  std_from_chars := None;
  std_from_chars_window := I;
  dbl := Q;
  d_of_u64 := inject_Z;
  d_mul := Qmult;
  d_div := Qdiv;
  d_neg := Qopp;
  d_eqb := Qeq_bool;
  d_zero := 0%Q;
  d_two := 2%Q;
  pow10_exact e := Qpower 10 e
|}.

(** ** Digit runs *)
Definition digits_val (base acc : Z) (ds : list Z) : Z := fold_left (fun a d => a * base + d) ds acc.

(** [l] is the longest run of characters at [p], before [last], that satisfy [f]. *)
Record run (M : memory) (f : Z -> bool) (p last : Z) (l : list Z) : Prop := Run {
  run_holds : holds M p l;
  run_all : Forall (fun c => f c = true) l;
  run_fits : p + zlen l <= last;
  run_stop : p + zlen l = last \/ exists c, M (p + zlen l) = Some c /\ f c = false
}.

Definition is_base (base c : Z) : bool := bool_decide (is_Some (digit_of base c)).
Definition digit_values (base : Z) (l : list Z) : list Z := List.map (fun c => default 0 (digit_of base c)) l.

Lemma run_nil M f p last : p <= last -> p = last \/ (exists c, M p = Some c /\ f c = false) ->
  run M f p last [].
Proof. intros H1 H2. constructor; cbn; rewrite ?Z.add_0_r; done. Qed.

Lemma run_cons M f p last c l : M p = Some c -> f c = true -> run M f (p + 1) last l ->
  run M f p last (c :: l).
Proof.
  intros Hc Hf [? ? ? ?]. assert (Hz : p + zlen (c :: l) = p + 1 + zlen l) by (unfold zlen; cbn; lia).
  constructor; rewrite ?Hz; try done. by constructor.
Qed.

Lemma run_cons_inv M f p last c l : run M f p last (c :: l) ->
  M p = Some c /\ f c = true /\ run M f (p + 1) last l.
Proof.
  intros [[? ?] Ha ? Hs]. apply Forall_cons in Ha as [? ?].
  assert (Hz : p + zlen (c :: l) = p + 1 + zlen l) by (unfold zlen; cbn; lia).
  rewrite Hz in *. split_and!; [done..|by constructor].
Qed.

(** A mapped window has exactly such a run at each of its points. *)
Lemma run_exists M f p last : p <= last -> (forall a, p <= a < last -> is_Some (M a)) ->
  exists l, run M f p last l.
Proof.
  intros Hp. remember (Z.to_nat (last - p)) as n eqn:Hn.
  revert p Hp Hn. induction n as [|n IH]; intros p Hp Hn Hm.
  - exists []. apply run_nil; [done|left; lia].
  - destruct (Hm p) as [c Hc]; [lia|]. destruct (f c) eqn:Hf.
    + destruct (IH (p + 1)) as [l Hl]; [lia|lia|intros; apply Hm; lia|].
      exists (c :: l). by apply run_cons.
    + exists []. apply run_nil; [done|]. right. by exists c.
Qed.

Lemma digit_run_exact M base p last l acc : run M (is_base base) p last l ->
  digit_run (Z.to_nat (last - p)) M base p acc =
    Some (p + zlen l, digits_val base acc (digit_values base l)).
Proof.
  revert p acc. induction l as [|c l IH]; intros p acc Hr.
  - assert (Hz : p + zlen (@nil Z) = p) by (unfold zlen; cbn; lia). rewrite Hz.
    pose proof (run_fits _ _ _ _ _ Hr) as Hf. rewrite Hz in Hf.
    destruct (Z.to_nat (last - p)) as [|n] eqn:Hn; [done|]. cbn.
    destruct (run_stop _ _ _ _ _ Hr) as [?|(c & Hc & Hd)]; [lia|].
    rewrite Hz in Hc. rewrite Hc. unfold is_base in Hd. apply bool_decide_eq_false in Hd.
    destruct (digit_of base c); [by destruct Hd|done].
  - apply run_cons_inv in Hr as (Hc & Hd & Hr).
    pose proof (run_fits _ _ _ _ _ Hr). pose proof (zlen_nonneg l).
    replace (Z.to_nat (last - p)) with (S (Z.to_nat (last - (p + 1)))) by lia.
    cbn [digit_run]. rewrite Hc. unfold is_base in Hd. apply bool_decide_eq_true in Hd as [d Hd].
    rewrite Hd, IH by done. cbn. rewrite Hd. cbn.
    f_equal. f_equal. unfold zlen; cbn [length]. lia.
Qed.

Lemma eat_exact M fr s last l : run M is_digit (ds_p s) last l ->
  eat (Z.to_nat (last - ds_p s)) M fr s = Some (fold_left (eat_digit fr) l s).
Proof.
  revert s. induction l as [|c l IH]; intros s Hr.
  - pose proof (run_fits _ _ _ _ _ Hr) as Hf. assert (Hz : ds_p s + zlen (@nil Z) = ds_p s)
      by (unfold zlen; cbn; lia). rewrite Hz in Hf.
    destruct (Z.to_nat (last - ds_p s)) as [|n] eqn:Hn; [done|]. cbn.
    destruct (run_stop _ _ _ _ _ Hr) as [?|(c & Hc & Hd)]; [lia|].
    rewrite Hz in Hc. by rewrite Hc, Hd.
  - apply run_cons_inv in Hr as (Hc & Hd & Hr).
    pose proof (run_fits _ _ _ _ _ Hr). pose proof (zlen_nonneg l).
    replace (Z.to_nat (last - ds_p s)) with (S (Z.to_nat (last - (ds_p s + 1)))) by lia.
    cbn [eat]. rewrite Hc, Hd. cbn [fold_left].
    assert (Hp : ds_p (eat_digit fr s c) = ds_p s + 1) by (unfold eat_digit; repeat case_match; done).
    rewrite <- (IH (eat_digit fr s c)); rewrite Hp; done.
Qed.

(** The value of a sign and digits, when it fits a [w]-bit type. *)
Definition int_fits (w : Z) (signed : bool) (v : Z) : bool :=
  if signed then (- 2 ^ (w - 1) <=? v) && (v <? 2 ^ (w - 1)) else v <? 2 ^ w.

Definition text_int_answer (w : Z) (signed : bool) (base : Z) (what : string) (i : input)
    (neg : bool) (l : list Z) : result Z :=
  let u := digits_val base 0 (digit_values base l) in
  let v := if neg then - u else u in
  if (0 <? zlen l) && int_fits w signed v
  then Done v (advance i ((if neg then 1 else 0) + zlen l))
  else make_err i what.

Lemma text_int_run w signed base what M i :
  wf M i ->
  exists (neg : bool) l,
    (if neg then signed = true /\ M (i_first i) = Some 45
     else signed = true -> size i = 0 \/ M (i_first i) <> Some 45) /\
    run M (is_base base) (i_first i + (if neg then 1 else 0)) (i_last i) l /\
    text_int w signed base what M i = text_int_answer w signed base what i neg l.
Proof.
  intros Hwf. pose proof (wf_first M i Hwf) as Hfl. pose proof (size_wf M i Hwf) as Hs.
  assert (Hm : forall a, i_first i <= a < i_last i -> is_Some (M a)).
  { intros a Ha. by apply (win_wf M M i Hwf ltac:(by intros ? ?)). }
  assert (Hgo : forall neg : bool, i_first i + (if neg then 1 else 0) <= i_last i ->
    exists l, run M (is_base base) (i_first i + (if neg then 1 else 0)) (i_last i) l).
  { intros neg Hn. apply run_exists; [done|]. intros a Ha. apply Hm. destruct neg; lia. }
  set (c0 := bool_decide (i_first i < i_last i /\ signed = true /\ M (i_first i) = Some 45)).
  destruct (Hgo c0) as [l Hl].
  { unfold c0. case_bool_decide; lia. }
  exists c0, l. split; [|split; [done|]].
  - unfold c0. case_bool_decide as Hc; [tauto|]. intros ->.
    destruct (decide (i_first i < i_last i)); [|left; lia]. right. intros ?. by apply Hc.
  - pose proof (run_fits _ _ _ _ _ Hl) as Hf. pose proof (digit_run_exact _ _ _ _ _ 0 Hl) as Hd.
    pose proof (zlen_nonneg l). pose proof (wf_extent M i Hwf). pose proof (wf_base M i Hwf).
    assert (Hfc : from_chars w signed base M (i_first i) (i_last i) =
      let u := digits_val base 0 (digit_values base l) in
      let v := if c0 then - u else u in
      let q := i_first i + (if c0 then 1 else 0) + zlen l in
      if zlen l =? 0 then Some (FromChars (i_first i) invalid_argument 0)
      else if int_fits w signed v then Some (FromChars q errc_ok v)
      else Some (FromChars q result_out_of_range 0)).
    { unfold from_chars. assert (Hq : forall p, (p + zlen l =? p) = (zlen l =? 0)).
      { intros p. destruct (Z.eqb_spec (p + zlen l) p), (Z.eqb_spec (zlen l) 0); lia. }
      revert Hd. unfold c0. case_bool_decide as Hc; intros Hd.
      - destruct Hc as (Hc1 & -> & Hc2). destruct (Z.ltb_spec (i_first i) (i_last i)); [|lia].
        rewrite Hc2. cbn. by rewrite Hd, Hq.
      - rewrite Z.add_0_r in Hd.
        destruct (Z.ltb_spec (i_first i) (i_last i)); [|by rewrite Hd, Z.add_0_r, Hq].
        destruct (Hm (i_first i)) as [c Hc0]; [lia|]. rewrite Hc0.
        destruct (signed && (c =? 45)) eqn:Hsg; [|by rewrite Hd, Z.add_0_r, Hq].
        apply andb_true_iff in Hsg as [-> Hc45]. apply Z.eqb_eq in Hc45 as ->. by destruct Hc. }
    unfold text_int, text_int_answer. rewrite Hfc. cbv zeta.
    destruct (Z.eqb_spec (zlen l) 0) as [Hz|Hz]; destruct (Z.ltb_spec 0 (zlen l)); try lia; [done|].
    destruct (int_fits w signed _); [|done]. cbn [fc_ec fc_ptr is_ok negb orb andb fc_value].
    destruct (Z.eqb_spec (i_first i + (if c0 then 1 else 0) + zlen l) (i_first i));
      [destruct c0; lia|].
    f_equal. f_equal. rewrite wrap_small; destruct c0; lia.
Qed.

(** [dec] reads an optional minus sign (signed types only) and the
    longest run of decimal digits, and returns their value exactly when it
    fits the type; no digit, or a value out of range, is an error at the start
    and nothing is consumed. [hex] is the same in base 16 without a sign. *)
Theorem dec_hex_value M i w :
  wf M i ->
  (forall signed, exists (neg : bool) l,
    (if neg then signed = true /\ M (i_first i) = Some 45
     else signed = true -> size i = 0 \/ M (i_first i) <> Some 45) /\
    run M (is_base 10) (i_first i + (if neg then 1 else 0)) (i_last i) l /\
    dec w signed M i = text_int_answer w signed 10 "decimal integer" i neg l) /\
  (exists l, run M (is_base 16) (i_first i) (i_last i) l /\
    hex w M i = text_int_answer w false 16 "hex integer" i false l).
Proof.
  intros Hwf. split; [intros signed; by apply text_int_run|].
  destruct (text_int_run w false 16 "hex integer" M i Hwf) as ([] & l & Hn & Hr & He).
  - by destruct Hn.
  - rewrite Z.add_0_r in Hr. by exists l.
Qed.

Lemma dec_hex_value_witness :
  exists l, hex 16 (mem_of 0 [66; 101; 33]) (Input 0 3 0 false None 0) =
    text_int_answer 16 false 16 "hex integer" (Input 0 3 0 false None 0) false l.
Proof.
  destruct (proj2 (dec_hex_value (mem_of 0 [66; 101; 33]) (Input 0 3 0 false None 0) 16
    (mem_of_wf 0 [66; 101; 33] ltac:(repeat constructor; by vm_compute) eq_refl))) as (l & _ & H).
  exists l. exact H.
Defined.

(** ** Contracts *)
Section Window.
Context (M M' : memory) (lo hi : Z) (Hw : win M M' lo hi).

Lemma digit_run_win n base p acc : lo <= p -> p + Z.of_nat n <= hi ->
  digit_run n M' base p acc = digit_run n M base p acc.
Proof using Hw.
  revert p acc. induction n as [|n IH]; intros p acc Hp Hn; cbn; [done|].
  destruct (Hw p) as [-> [c ->]]; [lia|]. destruct (digit_of base c); [|done]. apply IH; lia.
Qed.

Lemma from_chars_win w signed base : lo <= hi ->
  from_chars w signed base M' lo hi = from_chars w signed base M lo hi.
Proof using Hw.
  intros Hle. unfold from_chars. destruct (Z.ltb_spec lo hi).
  - destruct (Hw lo) as [-> [c ->]]; [lia|]. by rewrite !digit_run_win by lia.
  - by rewrite digit_run_win by lia.
Qed.
End Window.

#[export] Instance text_int_good w signed base what : Good (text_int w signed base what).
Proof.
  prim_intro. split.
  - unfold text_int. by rewrite (from_chars_win M M' _ _ Hwin).
  - destruct (text_int_run w signed base what M i Hwf) as (neg & l & _ & Hr & ->).
    pose proof (run_fits _ _ _ _ _ Hr). pose proof (zlen_nonneg l). unfold text_int_answer.
    destruct (_ && _); cbn; [|eauto with nanom].
    eapply advances_advance; [done|destruct neg; lia].
Qed.

Section DoubleWindow.
Context `{fp_ops} (M M' : memory) (lo hi : Z) (Hw : win M M' lo hi).

Lemma eat_win n fr s : lo <= ds_p s -> ds_p s + Z.of_nat n <= hi ->
  eat n M' fr s = eat n M fr s /\
  exists s', eat n M fr s = Some s' /\ ds_p s <= ds_p s' <= ds_p s + Z.of_nat n.
Proof using Hw.
  revert s. induction n as [|n IH]; intros s Hp Hn; cbn.
  { split; [done|]. exists s. split; [done|lia]. }
  destruct (Hw (ds_p s)) as [-> [c ->]]; [lia|]. destruct (is_digit c).
  - assert (Hd : ds_p (eat_digit fr s c) = ds_p s + 1) by (unfold eat_digit; repeat case_match; done).
    destruct (IH (eat_digit fr s c)) as [-> (s' & -> & ?)]; [lia..|].
    split; [done|]. exists s'. split; [done|lia].
  - split; [done|]. exists s. split; [done|lia].
Qed.

Lemma eat_exp_win n p e : lo <= p -> p + Z.of_nat n <= hi ->
  eat_exp n M' p e = eat_exp n M p e /\
  exists q e', eat_exp n M p e = Some (q, e') /\ p <= q <= p + Z.of_nat n.
Proof using Hw.
  revert p e. induction n as [|n IH]; intros p e Hp Hn; cbn.
  { split; [done|]. exists p, e. split; [done|lia]. }
  destruct (Hw p) as [-> [c ->]]; [lia|]. destruct (is_digit c).
  - destruct (IH (p + 1) (if e <? 100000 then e * 10 + (c - 48) else e))
      as [-> (q & e' & -> & ?)]; [lia..|].
    split; [done|]. exists q, e'. split; [done|lia].
  - split; [done|]. exists p, e. split; [done|lia].
Qed.

Lemma peek_char_win p : lo <= p <= hi -> peek_char M' p hi = peek_char M p hi /\
  exists o, peek_char M p hi = Some o /\ (is_Some o -> p < hi).
Proof using Hw.
  intros Hp. unfold peek_char. destruct (Z.eqb_spec p hi).
  - split; [done|]. exists None. split; [done|by intros [? ?]].
  - destruct (Hw p) as [-> [c ->]]; [lia|]. split; [done|]. exists (Some c). split; [done|lia].
Qed.

Lemma is_char_some o f : is_char o f = true -> is_Some o.
Proof using. by destruct o. Qed.

Lemma exponent_win p x : lo <= p <= hi -> exponent M' hi p x = exponent M hi p x /\
  exists q x', exponent M hi p x = Some (q, x') /\ p <= q <= hi.
Proof using Hw.
  intros Hp. unfold exponent.
  assert (Hstay : exists q x', Some (p, x) = Some (q, x') /\ p <= q <= hi)
    by (exists p, x; split; [done|lia]).
  destruct (peek_char_win p Hp) as [-> (c & -> & Hc)].
  destruct (is_char c _) eqn:He; [|by split]. specialize (Hc (is_char_some _ _ He)).
  destruct (peek_char_win (p + 1)) as [-> (sg & -> & Hs)]; [lia|].
  set (ep := if is_char sg _ then p + 2 else p + 1).
  assert (Hep : p + 1 <= ep <= hi).
  { unfold ep. destruct (is_char sg _) eqn:Hsg; [|lia]. specialize (Hs (is_char_some _ _ Hsg)). lia. }
  destruct (peek_char_win ep) as [-> (d & -> & _)]; [lia|]. destruct (is_char d is_digit); [|by split].
  destruct (eat_exp_win (Z.to_nat (hi - ep)) ep 0) as [-> (q & e & -> & ?)]; [lia..|].
  split; [done|]. do 2 eexists. split; [done|lia].
Qed.

Lemma significand_win : lo <= hi -> significand M' lo hi = significand M lo hi /\
  exists neg s, significand M lo hi = Some (neg, s) /\ lo <= ds_p s <= hi.
Proof using Hw.
  intros Hle. unfold significand. destruct (peek_char_win lo) as [-> (c & -> & Hc)]; [lia|].
  set (p := if is_char c (Z.eqb 45) then lo + 1 else lo).
  assert (Hp : lo <= p <= hi).
  { unfold p. destruct (is_char c _) eqn:He; [|lia]. specialize (Hc (is_char_some _ _ He)). lia. }
  destruct (eat_win (Z.to_nat (hi - p)) false (DScan p 0 0 0 false)) as [-> (s & -> & Hs)];
    cbn in *; [lia..|].
  destruct (peek_char_win (ds_p s)) as [-> (d & -> & Hd)]; [lia|].
  destruct (is_char d (Z.eqb 46)) eqn:He.
  - specialize (Hd (is_char_some _ _ He)).
    destruct (eat_win (Z.to_nat (hi - (ds_p s + 1))) true
      (DScan (ds_p s + 1) (ds_mant s) (ds_digits s) (ds_exp10 s) (ds_any s)))
      as [-> (s' & -> & Hs')]; cbn in *; [lia..|].
    split; [done|]. do 2 eexists. split; [done|lia].
  - split; [done|]. do 2 eexists. split; [done|lia].
Qed.

Lemma from_chars_double_win : lo <= hi ->
  from_chars_double M' lo hi = from_chars_double M lo hi /\
  exists r, from_chars_double M lo hi = Some r /\ lo <= fc_ptr r <= hi.
Proof using Hw.
  intros Hle. unfold from_chars_double.
  destruct (significand_win Hle) as [-> (neg & s & -> & Hs)].
  destruct (negb (ds_any s)); [split; [done|]; eexists; split; [done|cbn; lia]|].
  destruct (exponent_win (ds_p s) (ds_exp10 s)) as [-> (q & x & -> & Hq)]; [lia|].
  split; [done|]. destruct (_ || _); (eexists; split; [done|cbn; lia]).
Qed.
End DoubleWindow.

Lemma parse_double_win `{fp_ops} M M' lo hi : win M M' lo hi -> lo <= hi ->
  parse_double M' lo hi = parse_double M lo hi /\ exists r, parse_double M lo hi = Some r /\ lo <= fc_ptr r <= hi.
Proof.
  intros Hw Hle. unfold parse_double. pose proof std_from_chars_window as Hs. destruct std_from_chars; [by apply Hs|by apply from_chars_double_win].
Qed.

#[export] Instance double_good `{fp_ops} : Good double_.
Proof.
  prim_intro. unfold double_.
  destruct (parse_double_win M M' _ _ Hwin Hfl) as [-> (r & -> & Hr)].
  destruct (_ || _); [prim_good|]. rewrite wrap_small; [prim_good|].
  pose proof (wf_extent M i Hwf). pose proof (wf_base M i Hwf). lia.
Qed.

#[export] Instance float_good `{fp_ops} {F} (narrow : dbl -> F) : Good (float_ narrow).
Proof. intros M M' i ? ?. unfold float_. parser_good. Qed.

(** ** Decimal fractions in exact arithmetic *)
Lemma fold_eat_digit fr l s :
  Forall (fun c => is_digit c = true) l -> 0 <= ds_digits s -> ds_digits s + zlen l <= 18 ->
  0 <= ds_mant s < 10 ^ ds_digits s ->
  fold_left (eat_digit fr) l s =
    DScan (ds_p s + zlen l) (digits_val 10 (ds_mant s) (List.map (fun c => c - 48) l))
      (ds_digits s + zlen l) (if fr then ds_exp10 s - zlen l else ds_exp10 s)
      (match l with [] => ds_any s | _ => true end) /\
  0 <= digits_val 10 (ds_mant s) (List.map (fun c => c - 48) l) < 10 ^ (ds_digits s + zlen l).
Proof.
  intros Hl. revert s. induction Hl as [|c l Hc Hl IH]; intros s Hd Hn Hm.
  - unfold zlen; cbn. destruct s; cbn in *. rewrite !Z.add_0_r, Z.sub_0_r. by destruct fr.
  - assert (Hz : zlen (c :: l) = zlen l + 1) by (unfold zlen; cbn; lia).
    pose proof (zlen_nonneg l). rewrite Hz in Hn.
    assert (48 <= c <= 57) as Hc' by (unfold is_digit in Hc; lia).
    assert (Hp10 : 10 ^ (ds_digits s + 1) = 10 * 10 ^ ds_digits s) by (rewrite Z.pow_add_r by lia; lia).
    assert (10 ^ (ds_digits s + 1) <= 10 ^ 18) by (apply Z.pow_le_mono_r; lia).
    cbn [fold_left]. set (s1 := eat_digit fr s c).
    assert (Hs1 : s1 = DScan (ds_p s + 1) (ds_mant s * 10 + (c - 48)) (ds_digits s + 1)
      (if fr then ds_exp10 s - 1 else ds_exp10 s) true).
    { unfold s1, eat_digit. destruct (Z.ltb_spec (ds_digits s) 18); [|lia].
      rewrite wrap_small by lia. done. }
    destruct (IH s1) as [-> Hr]; [rewrite Hs1; cbn; lia..|].
    rewrite Hs1 in *. cbn [ds_p ds_mant ds_digits ds_exp10 ds_any] in *. rewrite Hz. split.
    + f_equal; try lia; [destruct fr; lia|by destruct l].
    + replace (ds_digits s + (zlen l + 1)) with (ds_digits s + 1 + zlen l) by lia. exact Hr.
Qed.

Lemma Qpower10_nonzero e : ~ (Qpower 10 e == 0)%Q.
Proof. apply Qpower_not_0. done. Qed.

Lemma scale_up_exact fuel (m : Q) e : 0 <= e -> (Z.to_nat e <= fuel)%nat ->
  (scale_up fuel m e == m * Qpower 10 e)%Q.
Proof.
  revert m e. induction fuel as [|fuel IH]; intros m e He Hf; cbn [scale_up]; [reflexivity|].
  destruct (Z.ltb_spec 22 e); [|reflexivity]. rewrite IH by lia.
  cbn [d_mul pow10_exact exact_fp]. rewrite <- Qmult_assoc, <- Qpower_plus by done.
  by replace (22 + (e - 22)) with e by lia.
Qed.

Lemma scale_down_exact fuel (m : Q) k : 0 <= k -> (Z.to_nat k <= fuel)%nat ->
  (scale_down fuel m k == m / Qpower 10 k)%Q.
Proof.
  revert m k. induction fuel as [|fuel IH]; intros m k Hk Hf; cbn [scale_down]; [reflexivity|].
  destruct (Z.ltb_spec 22 k); [|reflexivity]. rewrite IH by lia.
  cbn [d_div pow10_exact exact_fp].
  replace (Qpower 10 k) with (Qpower 10 (22 + (k - 22))) by (f_equal; lia).
  rewrite Qpower_plus by done. field. apply Qpower10_nonzero.
Qed.

Lemma scale10_exact (m : Q) e : (scale10 m e == m * Qpower 10 e)%Q.
Proof.
  unfold scale10. cbn [d_eqb d_zero exact_fp].
  destruct (Qeq_bool m 0) eqn:Hm; [apply Qeq_bool_eq in Hm; rewrite Hm; ring|].
  destruct (Z.leb_spec 0 e); [by rewrite scale_up_exact by lia|].
  rewrite scale_down_exact by lia. rewrite Qpower_opp. unfold Qdiv. by rewrite Qinv_involutive.
Qed.

(** The text of a decimal literal. *)
Record literal := Literal {
  lit_neg : bool;
  lit_int : list Z;                 (* digit characters *)
  lit_frac : option (list Z);       (* after a point *)
  lit_exp : option (bool * list Z)  (* after an e: minus sign, digit characters *)
}.

Definition lit_fraction (t : literal) : list Z := default [] (lit_frac t).

Definition render_exp (e : option (bool * list Z)) : list Z :=
  match e with
  | None => []
  | Some (neg, es) => 101 :: (if neg : bool then [45] else []) ++ es
  end.
Definition render_frac (f : option (list Z)) : list Z :=
  match f with None => [] | Some fs => 46 :: fs end.
Definition render (t : literal) : list Z :=
  (if lit_neg t then [45] else []) ++ lit_int t ++ render_frac (lit_frac t) ++ render_exp (lit_exp t).

Abbreviation digits_ok := (Forall (fun c => is_digit c = true)).

(** Up to 18 significand and 5 exponent digits. *)
Record lit_ok (t : literal) : Prop := LitOk {
  lo_int : digits_ok (lit_int t);
  lo_frac : digits_ok (lit_fraction t);
  lo_some : 1 <= zlen (lit_int t ++ lit_fraction t) <= 18;
  lo_exp : match lit_exp t with None => True | Some (_, es) => digits_ok es /\ 1 <= zlen es <= 5 end
}.

Definition char_values (l : list Z) : list Z := List.map (fun c => c - 48) l.
Definition lit_exponent (t : literal) : Z :=
  match lit_exp t with
  | None => 0
  | Some (neg, es) => let e := digits_val 10 0 (char_values es) in if neg then - e else e
  end.

(** The rational a literal denotes. *)
Definition lit_value (t : literal) : Q :=
  let v := (inject_Z (digits_val 10 0 (char_values (lit_int t ++ lit_fraction t))) *
            Qpower 10 (lit_exponent t - zlen (lit_fraction t)))%Q in
  if lit_neg t then (- v)%Q else v.

Definition starts_with_digit (l : list Z) : bool :=
  match l with c :: _ => is_digit c | [] => false end.

Lemma run_of_holds M p last l t :
  holds M p (l ++ t) -> last = p + zlen (l ++ t) -> digits_ok l -> starts_with_digit t = false ->
  run M is_digit p last l.
Proof.
  intros Hh -> Hl Ht. apply holds_app in Hh as [Hh1 Hh2]. rewrite zlen_app.
  pose proof (zlen_nonneg t). constructor; [done|done|lia|].
  destruct t as [|c t]; [left; unfold zlen; cbn; lia|]. right. exists c. cbn in *. naive_solver.
Qed.

Lemma peek_char_holds M p last t : holds M p t -> last = p + zlen t ->
  peek_char M p last = Some (match t with c :: _ => Some c | [] => None end).
Proof.
  intros Hh ->. unfold peek_char. destruct t as [|c t].
  - by destruct (Z.eqb_spec p (p + zlen (@nil Z))); [|unfold zlen in *; cbn in *; lia].
  - destruct (Z.eqb_spec p (p + zlen (c :: t))); [unfold zlen in *; cbn in *; lia|].
    destruct Hh as [-> _]. done.
Qed.

Lemma digits_val_app base acc l1 l2 :
  digits_val base acc (l1 ++ l2) = digits_val base (digits_val base acc l1) l2.
Proof. apply fold_left_app. Qed.

Lemma eat_exp_exact M p last l e : run M is_digit p last l -> 0 <= e ->
  e * 10 ^ zlen l + 10 ^ zlen l <= 100000 ->
  eat_exp (Z.to_nat (last - p)) M p e = Some (p + zlen l, digits_val 10 e (char_values l)).
Proof.
  revert p e. induction l as [|c l IH]; intros p e Hr He Hb.
  - assert (Hz : p + zlen (@nil Z) = p) by (unfold zlen; cbn; lia). rewrite Hz.
    pose proof (run_fits _ _ _ _ _ Hr) as Hf. rewrite Hz in Hf.
    destruct (Z.to_nat (last - p)) as [|n] eqn:Hn; [done|]. cbn.
    destruct (run_stop _ _ _ _ _ Hr) as [?|(c & Hc & Hd)]; [lia|].
    rewrite Hz in Hc. by rewrite Hc, Hd.
  - apply run_cons_inv in Hr as (Hc & Hd & Hr).
    pose proof (run_fits _ _ _ _ _ Hr). pose proof (zlen_nonneg l).
    assert (Hz : zlen (c :: l) = zlen l + 1) by (unfold zlen; cbn; lia).
    rewrite Hz in *. rewrite Z.pow_add_r in Hb by lia.
    assert (0 < 10 ^ zlen l) by (apply Z.pow_pos_nonneg; lia).
    assert (48 <= c <= 57) by (unfold is_digit in Hd; lia).
    replace (Z.to_nat (last - p)) with (S (Z.to_nat (last - (p + 1)))) by lia.
    cbn [eat_exp]. rewrite Hc, Hd. destruct (Z.ltb_spec e 100000); [|nia].
    rewrite IH; [|done|lia|nia]. cbn. f_equal. f_equal; lia.
Qed.

Lemma digit_not_sign c : is_digit c = true -> (45 =? c) = false /\ (c =? 43) = false /\ (c =? 45) = false.
Proof. unfold is_digit. lia. Qed.

Lemma exponent_exact M p last ex x : holds M p (render_exp ex) -> last = p + zlen (render_exp ex) ->
  match ex with None => True | Some (_, es) => digits_ok es /\ 1 <= zlen es <= 5 end ->
  exponent M last p x = Some (last, x + match ex with None => 0
    | Some (neg, es) => let e := digits_val 10 0 (char_values es) in if neg then - e else e end).
Proof.
  intros Hh Hl Hex. unfold exponent. rewrite (peek_char_holds M p last _ Hh Hl).
  destruct ex as [[neg es]|]; cbn [render_exp is_char].
  2: { unfold zlen in Hl; cbn in Hl. subst. f_equal. f_equal; lia. }
  destruct Hex as [Hd He]. cbn [Z.eqb orb Pos.eqb].
  destruct Hh as [_ Hh]. fold (holds M (p + 1)) in Hh.
  assert (Hz : zlen (render_exp (Some (neg, es))) = 1 + (if neg then 1 else 0) + zlen es).
  { unfold zlen; cbn [render_exp length]. rewrite length_app. destruct neg; cbn; lia. }
  rewrite Hz in Hl.
  rewrite (peek_char_holds M (p + 1) last ((if neg then [45] else []) ++ es) Hh)
    by (rewrite zlen_app; destruct neg; unfold zlen in *; cbn; lia).
  assert (Hend : forall q, holds M q es -> last = q + zlen es ->
    peek_char M q last = Some (match es with c :: _ => Some c | [] => None end) /\
    eat_exp (Z.to_nat (last - q)) M q 0 = Some (last, digits_val 10 0 (char_values es))).
  { intros q Hq Hql. split; [by apply peek_char_holds|].
    rewrite (eat_exp_exact M q last es 0); [by rewrite <- Hql| |lia|].
    - eapply (run_of_holds _ _ _ es []); rewrite ?app_nil_r; done.
    - pose proof (Z.pow_le_mono_r 10 (zlen es) 5). lia. }
  destruct es as [|c es]; [unfold zlen in He; cbn in He; lia|].
  pose proof (Forall_inv Hd) as Hc. destruct (digit_not_sign c Hc) as (Hs1 & Hs2 & Hs3).
  destruct neg; cbn [app is_char].
  - change (45 =? 45) with true. rewrite orb_true_r.
    destruct Hh as [_ Hh]. destruct (Hend (p + 2)) as [-> ->]; [|lia|].
    + by replace (p + 2) with (p + 1 + 1) by lia.
    + cbn [is_char]. by rewrite Hc.
  - rewrite Hs1, Hs2, Hs3. cbn [orb]. destruct (Hend (p + 1)) as [-> ->]; [done|lia|].
    cbn [is_char]. by rewrite Hc.
Qed.

Lemma render_exp_no_digit e : starts_with_digit (render_exp e) = false /\
  is_char (match render_exp e with c :: _ => Some c | [] => None end) (Z.eqb 46) = false.
Proof. by destruct e as [[]|]. Qed.

(** The fraction, from the state after the integer digits. *)
Lemma frac_exact M s last fr e :
  holds M (ds_p s) (render_frac fr ++ render_exp e) ->
  last = ds_p s + zlen (render_frac fr ++ render_exp e) ->
  digits_ok (default [] fr) -> 0 <= ds_digits s -> ds_digits s + zlen (default [] fr) <= 18 ->
  0 <= ds_mant s < 10 ^ ds_digits s ->
  exists d, peek_char M (ds_p s) last = Some d /\
  (if is_char d (Z.eqb 46) then
     eat (Z.to_nat (last - (ds_p s + 1))) M true
       (DScan (ds_p s + 1) (ds_mant s) (ds_digits s) (ds_exp10 s) (ds_any s))
   else Some s) =
  Some (DScan (ds_p s + zlen (render_frac fr))
    (digits_val 10 (ds_mant s) (char_values (default [] fr)))
    (ds_digits s + zlen (default [] fr)) (ds_exp10 s - zlen (default [] fr))
    (match default [] fr with [] => ds_any s | _ => true end)) /\
  0 <= digits_val 10 (ds_mant s) (char_values (default [] fr)).
Proof.
  intros Hh Hl Hd Hn0 Hn Hm. eexists. split; [by apply peek_char_holds|].
  destruct (render_exp_no_digit e) as [Hnd Hdot].
  destruct fr as [fs|]; cbn [render_frac default app] in *.
  - cbn [is_char]. change (46 =? 46) with true. cbn iota.
    destruct Hh as [_ Hh]. fold (holds M (ds_p s + 1)) in Hh.
    assert (Hz : forall l : list Z, zlen (46 :: l) = zlen l + 1) by (intros; unfold zlen; cbn; lia).
    set (s1 := DScan (ds_p s + 1) (ds_mant s) (ds_digits s) (ds_exp10 s) (ds_any s)).
    rewrite Hz in Hl.
    change (ds_p s + 1) with (ds_p s1) at 1. rewrite (eat_exact M true s1 last fs).
    + destruct (fold_eat_digit true fs s1 Hd) as [-> Hr]; [done || (unfold s1; cbn; lia)..|].
      unfold s1 in *; cbn [ds_p ds_mant ds_digits ds_exp10 ds_any] in *. split; [|apply Hr].
      do 2 f_equal. rewrite Hz. lia.
    + eapply (run_of_holds _ _ _ fs (render_exp e)); cbn; [done|lia|done|done].
  - rewrite Hdot. unfold zlen; cbn. destruct s; cbn in *.
    split; [|lia]. rewrite !Z.add_0_r, Z.sub_0_r. done.
Qed.

Lemma significand_exact M first last t :
  lit_ok t -> holds M first (render t) -> last = first + zlen (render t) ->
  exists s, significand M first last = Some (lit_neg t, s) /\ ds_any s = true /\
    ds_mant s = digits_val 10 0 (char_values (lit_int t ++ lit_fraction t)) /\ 0 <= ds_mant s /\
    ds_exp10 s = - zlen (lit_fraction t) /\
    holds M (ds_p s) (render_exp (lit_exp t)) /\ last = ds_p s + zlen (render_exp (lit_exp t)).
Proof.
  intros [Hint Hfrac Hsome _]. unfold lit_fraction in *. destruct t as [neg ds fr ex].
  cbn [lit_neg lit_int lit_frac lit_exp] in *. unfold render; cbn [lit_neg lit_int lit_frac lit_exp].
  intros Hh Hl. unfold significand. rewrite (peek_char_holds M first last _ Hh Hl).
  assert (Hneg : is_char (match (if neg then [45] else []) ++ ds ++ render_frac fr ++ render_exp ex
    with c :: _ => Some c | [] => None end) (Z.eqb 45) = neg).
  { destruct neg; cbn; [done|]. destruct ds as [|c ds]; cbn.
    - destruct fr as [fs|]; [done|]. unfold zlen in Hsome; cbn in Hsome. lia.
    - apply digit_not_sign. by apply Forall_inv in Hint. }
  rewrite Hneg. apply holds_app in Hh as [_ Hh]. rewrite !zlen_app in Hl. rewrite zlen_app in Hsome.
  pose proof (zlen_nonneg ds). pose proof (zlen_nonneg (default [] fr)).
  set (p := if neg then first + 1 else first).
  replace (first + zlen (if neg then [45] else [])) with p in Hh
    by (destruct neg; unfold p, zlen; cbn; lia).
  assert (Hl' : last = p + (zlen ds + (zlen (render_frac fr) + zlen (render_exp ex))))
    by (destruct neg; unfold p, zlen in *; cbn in *; lia).
  change (last - p) with (last - ds_p (DScan p 0 0 0 false)).
  rewrite (eat_exact M false (DScan p 0 0 0 false) last ds).
  2: { eapply (run_of_holds _ _ _ ds (render_frac fr ++ render_exp ex)); cbn; [done| |done|].
       - by rewrite !zlen_app.
       - destruct fr; cbn; [done|]. apply render_exp_no_digit. }
  destruct (fold_eat_digit false ds (DScan p 0 0 0 false) Hint) as [-> Hr]; [cbn; lia..|].
  cbn [ds_p ds_mant ds_digits ds_exp10 ds_any] in *. rewrite !Z.add_0_l in *.
  apply holds_app in Hh as [_ Hh].
  set (s := DScan (p + zlen ds) (digits_val 10 0 (char_values ds)) (zlen ds) 0
    (match ds with [] => false | _ => true end)).
  destruct (frac_exact M s last fr ex) as (d & Hpk & Hif & Hpos); cbn; try done; try lia.
  { rewrite zlen_app. lia. }
  unfold s in *. cbn [ds_p ds_mant ds_digits ds_exp10 ds_any] in *. unfold char_values in *.
  rewrite Hpk.
  match type of Hif with _ = Some ?x => exists x end. split_and!.
  - destruct (is_char d (Z.eqb 46)); [by rewrite Hif|congruence].
  - cbn. destruct ds, (default [] fr); try done. unfold zlen in Hsome; cbn in Hsome; lia.
  - cbn. by rewrite map_app, digits_val_app.
  - done.
  - cbn. lia.
  - cbn. apply holds_app in Hh as [_ Hh]. done.
  - cbn. lia.
Qed.

Lemma literal_window t M i : lit_ok t -> wf M i -> i_last i - i_first i = zlen (render t) -> i_first i < i_last i /\ i_last i - i_first i < 2 ^ 64.
Proof.
  intros Ht Hwf Hs. pose proof (wf_extent M i Hwf). pose proof (wf_base M i Hwf). pose proof (lo_some t Ht) as Hso.
  unfold lit_fraction in Hso. rewrite zlen_app in Hso. split; [|lia].
  unfold render in Hs. rewrite !zlen_app in Hs.
  pose proof (zlen_nonneg (if lit_neg t then [45] else [])).
  pose proof (zlen_nonneg (render_exp (lit_exp t))). pose proof (zlen_nonneg (lit_int t)).
  destruct (lit_frac t); cbn in *; unfold zlen in *; cbn in *; lia.
Qed.

(** The portable parser on a decimal literal of at most 18 significand digits and
    5 exponent digits consumes all of it and, were the arithmetic exact, would
    return the rational it denotes: its only inexactness is that of the numbers. *)
Theorem double_exact t M i :
  lit_ok t -> wf M i -> holds M (i_first i) (render t) -> size i = zlen (render t) ->
  exists v, double_ M i = Done v (advance i (size i)) /\ (v == lit_value t)%Q.
Proof.
  intros Ht Hwf Hh Hs. pose proof (size_wf M i Hwf) as Hsz. rewrite Hsz in Hs.
  destruct (significand_exact M (i_first i) (i_last i) t Ht Hh ltac:(lia))
    as (s & Hsig & Hany & Hm & Hm0 & Hx & Hhe & Hle).
  assert (Hex : exponent M (i_last i) (ds_p s) (ds_exp10 s) =
    Some (i_last i, ds_exp10 s + lit_exponent t))
    by exact (exponent_exact M (ds_p s) (i_last i) (lit_exp t) (ds_exp10 s) Hhe Hle (lo_exp t Ht)).
  set (v := (@scale10 exact_fp (inject_Z (ds_mant s)) (ds_exp10 s + lit_exponent t)) : Q).
  assert (Hv : (v == inject_Z (ds_mant s) * Qpower 10 (lit_exponent t - zlen (lit_fraction t)))%Q).
  { unfold v. rewrite scale10_exact, Hx.
    by replace (- zlen (lit_fraction t) + lit_exponent t)
      with (lit_exponent t - zlen (lit_fraction t)) by lia. }
  pose proof (literal_window t M i Ht Hwf Hs) as Hsmall.
  exists (if lit_neg t then (- v)%Q else v). split.
  - unfold double_, parse_double, std_from_chars, exact_fp, from_chars_double. fold exact_fp. rewrite Hsig, Hany. cbn [negb]. rewrite Hex.
    cbn [d_of_u64 d_zero d_two d_mul d_eqb d_neg exact_fp]. fold v.
    assert (negb (Qeq_bool v 0) && Qeq_bool (v * 2) v = false) as ->.
    { destruct (Qeq_bool v 0) eqn:H0; [done|]. cbn. apply not_true_is_false. intros H2.
      apply Qeq_bool_eq in H2. apply Qeq_bool_neq in H0. apply H0. lra. }
    assert (Qeq_bool v 0 && negb (ds_mant s =? 0) = false) as ->.
    { destruct (Qeq_bool v 0) eqn:H0; [|done]. cbn. apply Qeq_bool_eq in H0. rewrite Hv in H0.
      apply Qmult_integral in H0 as [H0|H0]; [|by apply Qpower10_nonzero in H0].
      change 0%Q with (inject_Z 0) in H0. by apply inject_Z_injective in H0 as ->. }
    cbn [orb is_ok fc_ec fc_ptr negb fc_value].
    destruct (Z.eqb_spec (i_last i) (i_first i)); [lia|].
    rewrite wrap_small, Hsz by lia. done.
  - unfold lit_value. rewrite <- Hm. destruct (lit_neg t); by rewrite Hv.
Qed.

Definition sample_literal : literal :=
  Literal true [51] (Some [49; 52]) (Some (true, [50])).

Lemma double_exact_witness :
  exists v, double_ (mem_of 0 [45; 51; 46; 49; 52; 101; 45; 50]) (Input 0 8 0 false None 0) =
      Done v (Input 8 8 0 false None 0) /\ (v == - (314 # 10000))%Q.
Proof.
  destruct (double_exact sample_literal (mem_of 0 (render sample_literal)) (Input 0 8 0 false None 0))
    as (v & H1 & H2).
  - split; cbn; try (repeat constructor; done); by vm_compute.
  - exact (mem_of_wf 0 (render sample_literal) ltac:(repeat constructor; by vm_compute) eq_refl).
  - by vm_compute.
  - by vm_compute.
  - exists v. split; [exact H1|]. rewrite H2. by vm_compute.
Defined.

(** ** IEEE 754 double arithmetic

    A finite double is [m * 2^e] with a sign, [e] at least -1074; an operation is
    the exact result rounded to the nearest double, ties to even. All finite
    values are whole multiples of 2^-1074, the unit the comparisons are made in. *)
Inductive binary64 := B64 (neg : bool) (m e : Z) | B64_inf (neg : bool) | B64_nan.

(** [n / d] to the nearest integer, ties to even. *)
Definition round_div (n d : Z) : Z :=
  let q := n / d in
  let r := n mod d in
  if 2 * r <? d then q else if d <? 2 * r then q + 1 else if Z.even q then q else q + 1.

(** The exponent at which [n / d] has 53 bits, or the least one. *)
Definition ulp_exponent (n d : Z) : Z :=
  let e := Z.log2 n - Z.log2 d - 52 in
  Z.max (-1074) (if n * 2 ^ 1074 <? 2 ^ 52 * (d * 2 ^ (e + 1074)) then e - 1 else e).

(** The double nearest to [n / d]; from half a unit above the largest one on, infinity. *)
Definition round64 (neg : bool) (n d : Z) : binary64 :=
  if n =? 0 then B64 neg 0 (-1074)
  else
    let e := ulp_exponent n d in
    let m := round_div (n * 2 ^ 1074) (d * 2 ^ (e + 1074)) in
    if (971 <? e) || ((e =? 971) && (2 ^ 53 <=? m)) then B64_inf neg else B64 neg m e.

Definition units (m e : Z) : Z := m * 2 ^ (e + 1074).

Definition b64_mul (x y : binary64) : binary64 :=
  match x, y with
  | B64 s m e, B64 s' m' e' => round64 (xorb s s') (units m e * units m' e') (2 ^ 2148)
  | B64_nan, _ | _, B64_nan => B64_nan
  | B64_inf s, B64_inf s' => B64_inf (xorb s s')
  | B64_inf s, B64 s' m _ | B64 s m _, B64_inf s' => if m =? 0 then B64_nan else B64_inf (xorb s s')
  end.

Definition b64_div (x y : binary64) : binary64 :=
  match x, y with
  | B64 s m e, B64 s' m' e' =>
      if m' =? 0 then (if m =? 0 then B64_nan else B64_inf (xorb s s')) else round64 (xorb s s') (units m e) (units m' e')
  | B64_nan, _ | _, B64_nan | B64_inf _, B64_inf _ => B64_nan
  | B64_inf s, B64 s' _ _ => B64_inf (xorb s s')
  | B64 s _ _, B64_inf s' => B64 (xorb s s') 0 (-1074)
  end.

Definition b64_neg (x : binary64) : binary64 :=
  match x with B64 s m e => B64 (negb s) m e | B64_inf s => B64_inf (negb s) | B64_nan => B64_nan end.

Definition b64_eqb (x y : binary64) : bool :=
  match x, y with
  | B64 s m e, B64 s' m' e' => (if s then - units m e else units m e) =? (if s' then - units m' e' else units m' e')
  | B64_inf s, B64_inf s' => Bool.eqb s s'
  | _, _ => false
  end.

(** With the portable parser. *)
Definition binary64_fp : fp_ops := {|
  dbl := binary64;
  d_of_u64 u := round64 false u 1;
  d_mul := b64_mul;
  d_div := b64_div;
  d_neg := b64_neg;
  d_eqb := b64_eqb;
  d_zero := B64 false 0 (-1074);
  d_two := B64 false 1 1;
  pow10_exact e := round64 false (10 ^ e) 1;
  std_from_chars := None;
  std_from_chars_window := I
|}.

(** [m * 2^e] is [n / d] rounded to 53 bits: within half a unit in the last place,
    and even in the middle. *)
Definition rounds_to (n d m e : Z) : Prop :=
  -1074 <= e /\ 2 ^ 52 <= m <= 2 ^ 53 /\
  2 * Z.abs (n * 2 ^ 1074 - m * (d * 2 ^ (e + 1074))) <= d * 2 ^ (e + 1074) /\
  (2 * Z.abs (n * 2 ^ 1074 - m * (d * 2 ^ (e + 1074))) = d * 2 ^ (e + 1074) -> Z.even m = true).

Lemma round_div_spec n d : 0 <= n -> 0 < d ->
  2 * Z.abs (n - round_div n d * d) <= d /\ (2 * Z.abs (n - round_div n d * d) = d -> Z.even (round_div n d) = true) /\
  n / d <= round_div n d <= n / d + 1.
Proof.
  intros Hn Hd. unfold round_div. pose proof (Z.div_mod n d ltac:(lia)) as E. pose proof (Z.mod_pos_bound n d Hd) as Hr.
  set (q := n / d) in *. set (r := n mod d) in *. clearbody q r.
  destruct (Z.ltb_spec (2 * r) d); [replace (n - q * d) with r by lia; rewrite Z.abs_eq by lia; split_and!; lia|].
  destruct (Z.ltb_spec d (2 * r)); [replace (n - (q + 1) * d) with (r - d) by lia; rewrite Z.abs_neq by lia; split_and!; lia|].
  destruct (Z.even q) eqn:Eq; [replace (n - q * d) with r by lia; rewrite Z.abs_eq by lia; split_and!; try lia; done|].
  replace (n - (q + 1) * d) with (r - d) by lia. rewrite Z.abs_neq by lia. split_and!; try lia. intros _.
  by rewrite Z.even_add, Eq.
Qed.

(** At the exponent chosen the quotient has 53 bits. *)
Lemma ulp_exponent_spec n d : 0 < n -> 0 < d -> d <= n * 2 ^ 900 -> n < d * 2 ^ 900 ->
  let e := ulp_exponent n d in
  -1074 <= e <= 900 /\ 2 ^ 52 * (d * 2 ^ (e + 1074)) <= n * 2 ^ 1074 < 2 ^ 53 * (d * 2 ^ (e + 1074)).
Proof.
  intros Hn Hd Hlo Hhi. unfold ulp_exponent. pose proof (Z.log2_spec n Hn) as [Hn1 Hn2]. pose proof (Z.log2_spec d Hd) as [Hd1 Hd2].
  pose proof (Z.log2_nonneg n). pose proof (Z.log2_nonneg d). set (a := Z.log2 n) in *. set (b := Z.log2 d) in *.
  assert (Hab : b <= a + 901).
  { apply Z.lt_succ_r. apply (Z.pow_lt_mono_r_iff 2); [lia|lia|]. eapply Z.le_lt_trans; [exact Hd1|]. eapply Z.le_lt_trans; [exact Hlo|].
    replace (Z.succ (a + 901)) with (Z.succ a + 901) by lia. rewrite Z.pow_add_r by lia. apply Z.mul_lt_mono_nonneg; (lia || (apply Z.pow_lt_mono_r; lia)). }
  assert (Hba : a <= b + 901).
  { apply Z.lt_succ_r. apply (Z.pow_lt_mono_r_iff 2); [lia|lia|]. eapply Z.le_lt_trans; [exact Hn1|]. eapply Z.lt_trans; [exact Hhi|].
    replace (Z.succ (b + 901)) with (Z.succ b + 901) by lia. rewrite Z.pow_add_r by lia. apply Z.mul_lt_mono_nonneg; (lia || (apply Z.pow_lt_mono_r; lia)). }
  set (p := a - b - 52 + 1074). assert (Hp : 0 <= p - 1) by lia.
  assert (H1 : n * 2 ^ 1074 < 2 ^ 53 * (d * 2 ^ p)).
  { apply Z.lt_le_trans with (2 ^ Z.succ a * 2 ^ 1074); [apply Z.mul_lt_mono_pos_r; [apply Z.pow_pos_nonneg; lia|done]|].
    rewrite <- Z.pow_add_r by lia. replace (Z.succ a + 1074) with (53 + (b + p)) by lia. rewrite (Z.pow_add_r 2 53), (Z.pow_add_r 2 b) by lia.
    apply Z.mul_le_mono_nonneg_l; [apply Z.pow_nonneg; lia|]. apply Z.mul_le_mono_nonneg_r; [apply Z.pow_nonneg; lia|done]. }
  assert (H2 : 2 ^ 51 * (d * 2 ^ p) <= n * 2 ^ 1074).
  { apply Z.le_trans with (2 ^ a * 2 ^ 1074); [|apply Z.mul_le_mono_nonneg_r; [apply Z.pow_nonneg; lia|done]].
    rewrite <- Z.pow_add_r by lia. replace (a + 1074) with (51 + (Z.succ b + p)) by lia. rewrite (Z.pow_add_r 2 51), (Z.pow_add_r 2 (Z.succ b)) by lia.
    apply Z.mul_le_mono_nonneg_l; [apply Z.pow_nonneg; lia|]. apply Z.mul_le_mono_nonneg_r; [apply Z.pow_nonneg; lia|lia]. }
  fold p. destruct (Z.ltb_spec (n * 2 ^ 1074) (2 ^ 52 * (d * 2 ^ p))) as [Hlt|Hge].
  - rewrite Z.max_r by lia. replace (a - b - 52 - 1 + 1074) with (p - 1) by lia. replace p with (Z.succ (p - 1)) in H2, Hlt by lia.
    rewrite Z.pow_succ_r in H2, Hlt by lia. change (2 ^ 53) with (2 * 2 ^ 52). change (2 ^ 52) with (2 * 2 ^ 51) in *. split; [lia|]. split; lia.
  - rewrite Z.max_r by lia. replace (a - b - 52 + 1074) with p by lia. split; [lia|]. split; lia.
Qed.

Lemma round64_spec s n d : 0 < n -> 0 < d -> d <= n * 2 ^ 900 -> n < d * 2 ^ 900 ->
  exists m e, round64 s n d = B64 s m e /\ rounds_to n d m e.
Proof.
  intros Hn Hd Hlo Hhi. unfold round64. destruct (Z.eqb_spec n 0); [lia|]. destruct (ulp_exponent_spec n d Hn Hd Hlo Hhi) as [He Hb].
  set (e := ulp_exponent n d) in *. set (D := d * 2 ^ (e + 1074)) in *. assert (HD : 0 < D) by (unfold D; apply Z.mul_pos_pos; [done|apply Z.pow_pos_nonneg; lia]).
  assert (HN : 0 <= n * 2 ^ 1074) by (apply Z.mul_nonneg_nonneg; [lia|apply Z.pow_nonneg; lia]).
  destruct (round_div_spec (n * 2 ^ 1074) D HN HD) as (H1 & H2 & H3). set (m := round_div _ D) in *.
  destruct (Z.ltb_spec 971 e), (Z.eqb_spec e 971); try lia. cbn [orb andb]. exists m, e. split; [done|]. fold D.
  assert (2 ^ 52 <= n * 2 ^ 1074 / D < 2 ^ 53).
  { split; [apply Z.div_le_lower_bound; lia|apply Z.div_lt_upper_bound; lia]. }
  split; [lia|]. split; [lia|]. by split.
Qed.

(** Integers below 2^53 are doubles. *)
Lemma round64_int s n : 0 < n < 2 ^ 53 -> exists m e, round64 s n 1 = B64 s m e /\ units m e = n * 2 ^ 1074 /\ 0 < m.
Proof.
  intros Hn. unfold round64. destruct (Z.eqb_spec n 0); [lia|].
  assert (H900 : 2 ^ 53 < 2 ^ 900) by (apply Z.pow_lt_mono_r; lia).
  destruct (ulp_exponent_spec n 1) as [He Hb]; [lia|lia|nia|lia|]. set (e := ulp_exponent n 1) in *.
  assert (He0 : e <= 0).
  { destruct (Z.le_gt_cases e 0); [done|]. exfalso. destruct Hb as [Hb _].
    assert (2 ^ 1075 <= 2 ^ (e + 1074)) by (apply Z.pow_le_mono_r; lia). change (2 ^ 1075) with (2 * 2 ^ 1074) in *.
    assert (0 < 2 ^ 1074) by (apply Z.pow_pos_nonneg; lia). change (2 ^ 53) with (2 * 2 ^ 52) in Hn. nia. }
  rewrite Z.mul_1_l in *. assert (HD : 0 < 2 ^ (e + 1074)) by (apply Z.pow_pos_nonneg; lia).
  assert (Hm : n * 2 ^ 1074 = n * 2 ^ (- e) * 2 ^ (e + 1074)).
  { rewrite <- Z.mul_assoc, <- Z.pow_add_r by lia. by replace (- e + (e + 1074)) with 1074 by lia. }
  assert (Hr : round_div (n * 2 ^ 1074) (2 ^ (e + 1074)) = n * 2 ^ (- e)).
  { unfold round_div. rewrite Hm, Z.mod_mul, Z.div_mul by lia. destruct (Z.ltb_spec (2 * 0) (2 ^ (e + 1074))); [done|lia]. }
  rewrite Hr. destruct (Z.ltb_spec 971 e), (Z.eqb_spec e 971); try lia. cbn [orb andb]. do 2 eexists. split; [done|]. split; [by rewrite Hm|].
  apply Z.mul_pos_pos; [lia|apply Z.pow_pos_nonneg; lia].
Qed.

Definition table_exact (k : Z) : bool :=
  match round64 false (10 ^ k) 1 with B64 false m e => (units m e =? 10 ^ k * 2 ^ 1074) && (0 <? m) | _ => false end.

(** The powers of the table are exact. *)
Lemma pow10_table k : 0 <= k <= 22 -> exists m e, round64 false (10 ^ k) 1 = B64 false m e /\ units m e = 10 ^ k * 2 ^ 1074 /\ 0 < m.
Proof.
  intros Hk. assert (H : forallb table_exact (seqZ 0 23) = true) by (vm_compute; reflexivity).
  rewrite forallb_forall in H. specialize (H k ltac:(apply in_seqZ; lia)). unfold table_exact in H.
  destruct (round64 false (10 ^ k) 1) as [[] m e| |]; try done. apply andb_true_iff in H as [H1%Z.eqb_eq H2%Z.ltb_lt]. eauto.
Qed.

(** Only the ratio counts. *)
Lemma rounds_to_ratio n d n' d' m e : 0 < d -> 0 < d' -> n * d' = n' * d -> rounds_to n d m e -> rounds_to n' d' m e.
Proof.
  unfold rounds_to. intros Hd Hd' E (He & Hm & H1 & H2). set (a := 2 ^ 1074) in *. set (b := 2 ^ (e + 1074)) in *.
  assert (HX : d' * (n * a - m * (d * b)) = d * (n' * a - m * (d' * b))).
  { transitivity ((n * d') * a - m * d * d' * b); [ring|]. rewrite E. ring. }
  assert (Hx : d' * (2 * Z.abs (n * a - m * (d * b))) = d * (2 * Z.abs (n' * a - m * (d' * b)))).
  { apply (f_equal Z.abs) in HX. rewrite !Z.abs_mul, (Z.abs_eq d'), (Z.abs_eq d) in HX by lia. lia. }
  split; [done|]. split; [done|]. split.
  - apply (Z.mul_le_mono_pos_l _ _ d); [done|]. rewrite <- Hx. nia.
  - intros Heq. apply H2. apply (Z.mul_reg_l _ _ d'); [lia|]. rewrite Hx, Heq. lia.
Qed.

(** A rounded quotient and its unit in the last place, in units of 2^-1074. *)
Lemma rounds_to_units n d m e : 0 < n -> 0 < d -> rounds_to n d m e ->
  exists q, 0 < q /\ 2 ^ 52 * q <= units m e /\ 2 * Z.abs (n * 2 ^ 1074 - d * units m e) <= d * q.
Proof.
  intros Hn Hd (He & Hm & H1 & _). assert (Hq : 0 < 2 ^ (e + 1074)) by (apply Z.pow_pos_nonneg; lia).
  exists (2 ^ (e + 1074)). split; [done|]. unfold units. split; [apply Z.mul_le_mono_nonneg_r; lia|].
  by replace (d * (m * 2 ^ (e + 1074))) with (m * (d * 2 ^ (e + 1074))) by ring.
Qed.

Lemma rounds_to_range n d m e : 0 < n -> 0 < d -> d <= n * 2 ^ 800 -> n < d * 2 ^ 800 -> rounds_to n d m e -> 2 ^ 273 <= units m e < 2 ^ 1876.
Proof.
  intros Hn Hd Hlo Hhi Hr. destruct (rounds_to_units n d m e Hn Hd Hr) as (q & Hq & Hu & Ha). set (u := units m e) in *. clearbody u.
  assert (H52 : 2 <= 2 ^ 52) by done. assert (Hdq : d * (2 * q) <= d * u) by (apply Z.mul_le_mono_nonneg_l; nia). apply Z.abs_le in Ha || idtac.
  assert (Hlow : n * 2 ^ 1074 <= 2 * (d * u)) by lia. assert (Hupp : d * u <= 2 * (n * 2 ^ 1074)) by lia.
  assert (H1074 : 0 < 2 ^ 1074) by (apply Z.pow_pos_nonneg; lia).
  split.
  - apply (Z.mul_le_mono_pos_l _ _ d); [done|]. assert (E : 2 ^ 1074 = 2 ^ 800 * (2 * 2 ^ 273)) by (rewrite <- Z.pow_succ_r, <- Z.pow_add_r by lia; done).
    rewrite E in Hlow. assert (d * (2 * 2 ^ 273) <= n * 2 ^ 800 * (2 * 2 ^ 273)) by (apply Z.mul_le_mono_nonneg_r; lia). lia.
  - apply (Z.mul_lt_mono_pos_l d); [done|]. assert (E : 2 ^ 1876 = 4 * (2 ^ 800 * 2 ^ 1074)) by (rewrite <- Z.pow_add_r by lia; done).
    rewrite E. assert (n * 2 ^ 1074 < d * 2 ^ 800 * 2 ^ 1074) by (apply Z.mul_lt_mono_pos_r; lia). lia.
Qed.

(** [d_eqb] sees that a value in this range is not its double. *)
Lemma doubled_differs s m e : 0 < m -> 2 ^ 273 <= units m e < 2 ^ 1876 -> b64_eqb (b64_mul (B64 s m e) (B64 false 1 1)) (B64 s m e) = false.
Proof.
  intros Hm Hu. cbn [b64_mul]. rewrite xorb_false_r. change (units 1 1) with (2 ^ 1075). set (u := units m e) in *.
  assert (H1075 : 0 < 2 ^ 1075) by (apply Z.pow_pos_nonneg; lia). assert (H2148 : 0 < 2 ^ 2148) by (apply Z.pow_pos_nonneg; lia).
  assert (HN : 0 < u * 2 ^ 1075) by lia.
  destruct (round64_spec s (u * 2 ^ 1075) (2 ^ 2148)) as (m' & e' & -> & Hr).
  - done.
  - done.
  - assert (E : 2 ^ 2148 = 2 ^ 173 * 2 ^ 1075 * 2 ^ 900) by (rewrite <- !Z.pow_add_r by lia; done). rewrite E.
    apply Z.mul_le_mono_nonneg_r; [apply Z.pow_nonneg; lia|]. apply Z.mul_le_mono_nonneg_r; [lia|]. assert (2 ^ 173 <= 2 ^ 273) by (apply Z.pow_le_mono_r; lia). lia.
  - assert (E : 2 ^ 2148 * 2 ^ 900 = 2 ^ 1973 * 2 ^ 1075) by (rewrite <- !Z.pow_add_r by lia; done). rewrite E.
    apply Z.mul_lt_mono_pos_r; [done|]. assert (2 ^ 1876 <= 2 ^ 1973) by (apply Z.pow_le_mono_r; lia). lia.
  - destruct (rounds_to_units _ _ m' e' HN H2148 Hr) as (q & Hq & Hu' & Ha). cbn [b64_eqb]. fold u.
    apply Z.eqb_neq. intros E. assert (Eu : units m' e' = u) by (destruct s; lia). rewrite Eu in *.
    assert (E2 : u * 2 ^ 1075 * 2 ^ 1074 - 2 ^ 2148 * u = 2 ^ 2148 * u).
    { assert (P : 2 ^ 1075 * 2 ^ 1074 = 2 * 2 ^ 2148) by (rewrite <- Z.pow_add_r, <- Z.pow_succ_r by lia; done).
      rewrite <- (Z.mul_assoc u), P. ring. }
    rewrite E2, Z.abs_eq in Ha by lia. assert (2 ^ 2148 * (2 * u) <= 2 ^ 2148 * q) as Hle by lia. apply Z.mul_le_mono_pos_l in Hle; [|done].
    assert (1 <= 2 ^ 52) by done. nia.
Qed.

(** ** The fast path of [double_] *)

(** The integer of a literal's significand digits, the power of ten it is scaled
    by, and the quotient it denotes. *)
Definition lit_mantissa (t : literal) : Z := digits_val 10 0 (char_values (lit_int t ++ lit_fraction t)).
Definition lit_scale (t : literal) : Z := lit_exponent t - zlen (lit_fraction t).
Definition lit_num (t : literal) : Z := lit_mantissa t * 10 ^ Z.max 0 (lit_scale t).
Definition lit_den (t : literal) : Z := 10 ^ Z.max 0 (- lit_scale t).

Lemma scale10_small m k : 0 < m < 2 ^ 53 -> -22 <= k <= 22 ->
  exists m' e', @scale10 binary64_fp (round64 false m 1) k = B64 false m' e' /\
    rounds_to (m * 10 ^ Z.max 0 k) (10 ^ Z.max 0 (- k)) m' e'.
Proof.
  intros Hm Hk. destruct (round64_int false m Hm) as (m1 & e1 & E1 & U1 & P1). unfold scale10. cbn [d_of_u64 d_eqb d_zero d_mul d_div pow10_exact binary64_fp]. rewrite E1.
  assert (Hz : b64_eqb (B64 false m1 e1) (B64 false 0 (-1074)) = false).
  { cbn [b64_eqb]. rewrite U1. apply Z.eqb_neq. change (units 0 (-1074)) with 0. assert (0 < 2 ^ 1074) by (apply Z.pow_pos_nonneg; lia). lia. }
  rewrite Hz. assert (H1074 : 0 < 2 ^ 1074) by (apply Z.pow_pos_nonneg; lia).
  assert (H22 : forall j, 0 <= j <= 22 -> 1 <= 10 ^ j <= 10 ^ 22) by (intros j Hj; split; [change 1 with (10 ^ 0)|]; apply Z.pow_le_mono_r; lia).
  assert (H100 : 10 ^ 22 < 2 ^ 100) by done. assert (H900 : 2 ^ 100 * 2 ^ 100 <= 2 ^ 900) by done. assert (H53 : 2 ^ 53 <= 2 ^ 100) by done.
  destruct (Z.leb_spec 0 k) as [Hk0|Hk0].
  - assert (Eup : forall x : binary64, @scale_up binary64_fp (Z.to_nat k) x k = b64_mul x (round64 false (10 ^ k) 1)).
    { intros x. destruct (Z.to_nat k); cbn [scale_up d_mul pow10_exact binary64_fp]; [done|]. by destruct (Z.ltb_spec 22 k); [lia|]. }
    rewrite Eup. destruct (pow10_table k ltac:(lia)) as (m2 & e2 & -> & U2 & P2). cbn [b64_mul xorb]. rewrite U1, U2.
    rewrite Z.max_r, Z.max_l by lia. specialize (H22 k ltac:(lia)). set (t := 10 ^ k) in *.
    assert (EN : m * 2 ^ 1074 * (t * 2 ^ 1074) = m * t * 2 ^ 2148) by (change 2148 with (1074 + 1074); rewrite Z.pow_add_r by lia; ring).
    assert (H2148 : 0 < 2 ^ 2148) by (apply Z.pow_pos_nonneg; lia). assert (Hmt : 0 < m * t < 2 ^ 900) by nia.
    destruct (round64_spec false (m * 2 ^ 1074 * (t * 2 ^ 1074)) (2 ^ 2148)) as (m' & e' & -> & Hr).
    + rewrite EN. lia.
    + done.
    + rewrite EN. assert (2 ^ 2148 * 1 <= 2 ^ 2148 * (m * t * 2 ^ 900)); [apply Z.mul_le_mono_nonneg_l; [lia|]|lia]. assert (0 < 2 ^ 900) by (apply Z.pow_pos_nonneg; lia). nia.
    + rewrite EN, (Z.mul_comm (m * t)). apply Z.mul_lt_mono_pos_l; lia.
    + exists m', e'. split; [done|]. eapply rounds_to_ratio; [| | |exact Hr]; [done|lia|]. rewrite EN. ring.
  - assert (Edn : forall x : binary64, @scale_down binary64_fp (Z.to_nat (- k)) x (- k) = b64_div x (round64 false (10 ^ (- k)) 1)).
    { intros x. destruct (Z.to_nat (- k)); cbn [scale_down d_div pow10_exact binary64_fp]; [done|]. by destruct (Z.ltb_spec 22 (- k)); [lia|]. }
    rewrite Edn. destruct (pow10_table (- k) ltac:(lia)) as (m2 & e2 & -> & U2 & P2). cbn [b64_div xorb]. rewrite U1, U2.
    destruct (Z.eqb_spec m2 0); [lia|]. rewrite Z.max_l, Z.max_r by lia. specialize (H22 (- k) ltac:(lia)). set (t := 10 ^ (- k)) in *.
    destruct (round64_spec false (m * 2 ^ 1074) (t * 2 ^ 1074)) as (m' & e' & -> & Hr).
    + lia.
    + lia.
    + assert (t * 2 ^ 1074 <= m * 2 ^ 900 * 2 ^ 1074); [apply Z.mul_le_mono_nonneg_r; nia|lia].
    + assert (m * 2 ^ 1074 < t * 2 ^ 900 * 2 ^ 1074); [apply Z.mul_lt_mono_pos_r; nia|lia].
    + exists m', e'. split; [done|]. eapply rounds_to_ratio; [| | |exact Hr]; [lia|lia|]. ring.
Qed.

Lemma digits_val_bound l : forall acc, digits_ok l -> 0 <= acc -> digits_val 10 acc (char_values l) < (acc + 1) * 10 ^ zlen l.
Proof.
  induction l as [|c l IH]; intros acc Hl Ha; [change (10 ^ zlen (@nil Z)) with 1; cbn; lia|]. apply Forall_cons in Hl as [Hc Hl].
  assert (48 <= c <= 57) by (unfold is_digit in Hc; lia). change (digits_val 10 (acc * 10 + (c - 48)) (char_values l) < (acc + 1) * 10 ^ zlen (c :: l)).
  specialize (IH (acc * 10 + (c - 48)) Hl ltac:(lia)). assert (E : zlen (c :: l) = zlen l + 1) by (unfold zlen; cbn; lia). pose proof (zlen_nonneg l).
  rewrite E, Z.pow_add_r by lia. assert (0 < 10 ^ zlen l) by (apply Z.pow_pos_nonneg; lia). nia.
Qed.



(** Digits past the 18th leave the significand as it is. *)
Lemma fold_eat_full l s : ds_digits s = 18 -> ds_any s = true ->
  fold_left (eat_digit false) l s =
    DScan (ds_p s + zlen l) (ds_mant s) 18 (ds_exp10 s + zlen l) true.
Proof.
  revert s. induction l as [|c l IH]; intros s Hd Ha.
  - destruct s; cbn in *. subst. unfold zlen; cbn. by rewrite !Z.add_0_r.
  - assert (Hz : zlen (c :: l) = zlen l + 1) by (unfold zlen; cbn; lia).
    cbn [fold_left]. rewrite IH by (unfold eat_digit; rewrite Hd; done).
    unfold eat_digit. rewrite Hd. cbn. f_equal; lia.
Qed.

(** Leading zeros are counted among the 18 significand digits. Eighteen
    of them use all of the significand, and whatever digits follow, the result
    is zero, with no error: the text "0000000000000000007" is read as 0. *)
Theorem double_leading_zeros M i ds :
  wf M i -> digits_ok ds -> holds M (i_first i) (replicate 18 48 ++ ds) ->
  size i = 18 + zlen ds ->
  double_ M i = Done 0%Q (advance i (size i)).
Proof.
  intros Hwf Hds Hh Hs. pose proof (size_wf M i Hwf) as Hsz. pose proof (zlen_nonneg ds).
  assert (Hlast : i_last i = i_first i + zlen (replicate 18 48 ++ ds))
    by (rewrite zlen_app; change (zlen (replicate 18 48)) with 18; lia).
  assert (Hsig : significand M (i_first i) (i_last i) =
    Some (false, DScan (i_first i + 18 + zlen ds) 0 18 (zlen ds) true)).
  { unfold significand. rewrite (peek_char_holds M _ _ _ Hh Hlast).
    change (is_char _ (Z.eqb 45)) with false. cbn iota.
    change (i_last i - i_first i) with (i_last i - ds_p (DScan (i_first i) 0 0 0 false)).
    rewrite (eat_exact M false _ _ (replicate 18 48 ++ ds)).
    2: { apply (run_of_holds _ _ _ _ []); rewrite ?app_nil_r; try done.
         apply Forall_app. split; [|done]. repeat constructor. }
    rewrite fold_left_app. change (fold_left (eat_digit false) (replicate 18 48) _)
      with (DScan (i_first i + 1 + 1 + 1 + 1 + 1 + 1 + 1 + 1 + 1 + 1 + 1 + 1 + 1 + 1 + 1 + 1 + 1 + 1)
        0 18 0 true).
    rewrite fold_eat_full by done. cbn [ds_p ds_mant ds_digits ds_exp10 ds_any].
    unfold peek_char. destruct (Z.eqb_spec (i_first i + 1 + 1 + 1 + 1 + 1 + 1 + 1 + 1 + 1 + 1 + 1 + 1
      + 1 + 1 + 1 + 1 + 1 + 1 + zlen ds) (i_last i)); [|lia]. cbn.
    do 3 f_equal; lia. }
  unfold double_, parse_double, std_from_chars, exact_fp, from_chars_double. fold exact_fp. rewrite Hsig. cbn [ds_any negb ds_p ds_exp10].
  unfold exponent, peek_char. destruct (Z.eqb_spec (i_first i + 18 + zlen ds) (i_last i)); [|lia].
  cbn [is_char ds_mant].
  assert (Hsc : @scale10 exact_fp (d_of_u64 0) (zlen ds) = 0%Q) by reflexivity.
  rewrite Hsc. cbn [fc_ec fc_ptr fc_value is_ok negb d_eqb d_zero d_mul exact_fp].
  change (Qeq_bool 0 0) with true. change (0 =? 0) with true.
  cbn [negb andb orb fc_ec fc_ptr fc_value is_ok].
  pose proof (wf_extent M i Hwf). pose proof (wf_base M i Hwf).
  destruct (Z.eqb_spec (i_first i + 18 + zlen ds) (i_first i)); [lia|].
  by replace (u64 (i_first i + 18 + zlen ds - i_first i)) with (size i) by (rewrite wrap_small; lia).
Qed.

Lemma double_leading_zeros_witness :
  double_ (mem_of 0 (replicate 18 48 ++ [55])) (Input 0 19 0 false None 0) =
    Done 0%Q (Input 19 19 0 false None 0).
Proof.
  exact (double_leading_zeros (mem_of 0 (replicate 18 48 ++ [55])) (Input 0 19 0 false None 0) [55]
    (mem_of_wf 0 (replicate 18 48 ++ [55]) ltac:(repeat constructor; by vm_compute) eq_refl)
    ltac:(by repeat constructor) ltac:(by vm_compute) eq_refl).
Defined.
