(* ===== verification/Bits.v ===== *)
(** * Bit-level parsing (nom.hpp, section 14)

    A bit cursor is a byte cursor and the bits already taken of its first byte.
    [read_bits] is specified by the integer its bytes denote: in [msb0] order
    the field is a slice of the big-endian integer, in [lsb0] order of the
    little-endian one. *)
From S2P Require Import Prelude Parser BytesParsers Combinators CombinatorFacts Numbers.

Inductive bit_order := msb0 | lsb0.

Record bit_input := BitInput { bi_in : input; bi_bit : Z }.

Definition bits_left (bi : bit_input) : Z := u64 (size (bi_in bi) * 8 - bi_bit bi).

Definition bresult (A : Type) := outcome bit_input A.
Definition bparser (A : Type) := memory -> bit_input -> bresult A.

(** The loop of [read_bits]: [got] of [n] bits are in [out]. A round takes at
    least one bit, so [n] rounds are enough. *)
Fixpoint read_bits_loop (fuel : nat) (M : memory) (n : Z) (ord : bit_order)
    (cur : input) (bit got out : Z) : bresult Z :=
  if n <=? got then Done out (BitInput cur bit)
  else
    match fuel with
    | O => Stop NoFuel
    | S fuel =>
        let! byte := at_ M cur 0 in
        let avail := 8 - bit in
        let use := Z.min avail (n - got) in
        let out' :=
          match ord with
          | msb0 =>
              let piece := Z.land (Z.shiftr byte (avail - use)) (2 ^ use - 1) in
              Z.lor (u64 (Z.shiftl out use)) piece
          | lsb0 =>
              let piece := Z.land (Z.shiftr byte bit) (2 ^ use - 1) in
              Z.lor out (u64 (Z.shiftl piece got))
          end in
        if bit + use =? 8
        then read_bits_loop fuel M n ord (advance cur 1) 0 (got + use) out'
        else read_bits_loop fuel M n ord cur (bit + use) (got + use) out'
    end.

Definition read_bits (n : Z) (ord : bit_order) : bparser Z := fun M bi =>
  if bits_left bi <? n
  then make_incomplete (bi_in bi) ((n - bits_left bi + 7) / 8)
  else read_bits_loop (Z.to_nat n) M n ord (bi_in bi) (bi_bit bi) 0 0.

(** [take_bits<T>] for an unsigned [T] of [w] bits. *)
Definition take_bits (w n : Z) (ord : bit_order) : bparser Z := fun M bi =>
  let* (v, r) := read_bits n ord M bi in Done (wrap w v) r.

Definition tag_bits (pattern n : Z) (ord : bit_order) : bparser Z := fun M bi =>
  let* (v, r) := read_bits n ord M bi in
  if negb (v =? pattern) then make_err (bi_in bi) "bit tag" else Done v r.

Definition bool_bit (ord : bit_order) : bparser bool := fun M bi =>
  let* (v, r) := read_bits 1 ord M bi in Done (negb (v =? 0)) r.

(** [bseq]: bit parsers in order. *)
Inductive bplist : list Type -> Type :=
| BNil : bplist []
| BCons {A Ts} (p : bparser A) (ps : bplist Ts) : bplist (A :: Ts).

Fixpoint bseq {Ts} (ps : bplist Ts) : bparser (tuple Ts) :=
  match ps in bplist Ts return bparser (tuple Ts) with
  | BNil => fun M bi => Done tt bi
  | BCons p ps => fun M bi =>
      let* (v, r) := p M bi in
      let* (vs, r') := bseq ps M r in
      Done (v, vs) r'
  end.

Definition bits {A} (bp : bparser A) : parser A := fun M i =>
  let* (v, r) := bp M (BitInput i 0) in
  Done v (if negb (bi_bit r =? 0) then advance (bi_in r) 1 else bi_in r).

Definition bytes_ {A} (p : parser A) : bparser A := fun M bi =>
  if negb (bi_bit bi =? 0)
  then make_err (bi_in bi) "bytes(): bit cursor must be byte-aligned"
  else let* (v, r) := p M (bi_in bi) in Done v (BitInput r 0).

(** ** The value of a field *)

(** [n] bits from bit [bit] of the bytes [l], in either order. *)
Definition field (ord : bit_order) (l : list Z) (bit n : Z) : Z :=
  match ord with
  | msb0 => (be_val l / 2 ^ (8 * zlen l - bit - n)) mod 2 ^ n
  | lsb0 => (le_val l / 2 ^ bit) mod 2 ^ n
  end.

Lemma field_range ord l bit n : 0 <= n -> 0 <= field ord l bit n < 2 ^ n.
Proof. intros. destruct ord; apply Z.mod_pos_bound, Z.pow_pos_nonneg; lia. Qed.

Lemma be_val_cons_lor b l : is_byte b -> bytes_ok l ->
  be_val (b :: l) = Z.lor (be_val l) (Z.shiftl b (8 * zlen l)) /\
  0 <= be_val l < 2 ^ (8 * zlen l).
Proof.
  intros Hb Hl. assert (Hr : 0 <= be_val l < 2 ^ (8 * zlen l)).
  { unfold be_val. pose proof (le_val_range (reverse l)) as H.
    rewrite length_reverse in H. apply H. by apply Forall_reverse. }
  split; [|done]. pose proof (zlen_nonneg l).
  rewrite lor_shiftl_add, be_val_cons by lia. unfold zlen. lia.
Qed.

Lemma shiftr_div a n : 0 <= n -> a / 2 ^ n = Z.shiftr a n.
Proof. intros. by rewrite Z.shiftr_div_pow2. Qed.

(** A field inside the first byte. *)
Lemma field_first ord b l bit n : is_byte b -> bytes_ok l -> 0 <= bit -> 0 <= n -> bit + n <= 8 ->
  field ord (b :: l) bit n =
  Z.land (Z.shiftr b (match ord with msb0 => 8 - bit - n | lsb0 => bit end)) (2 ^ n - 1).
Proof.
  intros Hb Hl Hbit Hn Hsum.
  replace (2 ^ n - 1) with (Z.ones n) by (rewrite Z.ones_equiv; lia). rewrite Z.land_ones by lia.
  pose proof (zlen_nonneg l). destruct ord; cbn [field].
  - destruct (be_val_cons_lor b l Hb Hl) as [-> Hr].
    assert (zlen (b :: l) = zlen l + 1) as -> by (unfold zlen; cbn; lia).
    rewrite shiftr_div by lia. bitblast.
  - rewrite le_val_cons_bits by done. rewrite shiftr_div by lia. bitblast.
Qed.

(** A field that runs past the first byte. *)
Lemma field_next ord b l bit n : is_byte b -> bytes_ok l -> 0 <= bit < 8 -> 8 - bit <= n ->
  n <= 8 * zlen (b :: l) - bit ->
  field ord (b :: l) bit n =
  match ord with
  | msb0 => Z.lor (Z.shiftl (field msb0 (b :: l) bit (8 - bit)) (n - (8 - bit)))
              (field msb0 l 0 (n - (8 - bit)))
  | lsb0 => Z.lor (field lsb0 (b :: l) bit (8 - bit))
              (Z.shiftl (field lsb0 l 0 (n - (8 - bit))) (8 - bit))
  end.
Proof.
  intros Hb Hl Hbit Hn Hmax. pose proof (zlen_nonneg l).
  assert (Hz : zlen (b :: l) = zlen l + 1) by (unfold zlen; cbn; lia). rewrite Hz in Hmax.
  destruct ord; cbn [field].
  - destruct (be_val_cons_lor b l Hb Hl) as [-> Hr]. rewrite Hz.
    rewrite !shiftr_div by lia. bitblast.
  - rewrite le_val_cons_bits by done. rewrite !shiftr_div by lia. bitblast.
Qed.

(** Appending [f], a field of [k] bits, to [got] bits already taken. *)
Definition join (ord : bit_order) (out got f k : Z) : Z :=
  match ord with
  | msb0 => Z.lor (Z.shiftl out k) f
  | lsb0 => Z.lor out (Z.shiftl f got)
  end.

Lemma join_assoc ord out got f k g m : 0 <= k -> 0 <= m -> 0 <= got ->
  join ord (join ord out got f k) (got + k) g m =
  join ord out got (match ord with msb0 => Z.lor (Z.shiftl f m) g | lsb0 => Z.lor f (Z.shiftl g k) end) (k + m).
Proof.
  intros. destruct ord; cbn; rewrite Z.shiftl_lor, Z.shiftl_shiftl, Z.lor_assoc by lia;
    [done|]. by rewrite (Z.add_comm got k).
Qed.

Lemma join_range ord out got f k : 0 <= got -> 0 <= k -> 0 <= out < 2 ^ got -> 0 <= f < 2 ^ k ->
  0 <= join ord out got f k < 2 ^ (got + k).
Proof.
  intros Hg Hk Ho Hf. destruct ord; cbn.
  - rewrite Z.lor_comm, lor_shiftl_add by lia. rewrite Z.pow_add_r by lia. nia.
  - rewrite lor_shiftl_add by lia. rewrite Z.pow_add_r by lia. nia.
Qed.

(** One round of the loop joins a field of the current byte. *)
Lemma round_join ord b l bit got use out : is_byte b -> bytes_ok l ->
  0 <= bit -> 0 <= use -> bit + use <= 8 -> 0 <= got -> got + use <= 64 -> 0 <= out < 2 ^ got ->
  match ord with
  | msb0 => Z.lor (u64 (Z.shiftl out use)) (Z.land (Z.shiftr b (8 - bit - use)) (2 ^ use - 1))
  | lsb0 => Z.lor out (u64 (Z.shiftl (Z.land (Z.shiftr b bit) (2 ^ use - 1)) got))
  end = join ord out got (field ord (b :: l) bit use) use.
Proof.
  intros Hb Hl Hbit Huse Hsum Hgot H64 Hout.
  assert (Hf := field_range ord (b :: l) bit use Huse).
  rewrite field_first in * by done.
  assert (2 ^ (got + use) <= 2 ^ 64) by (apply Z.pow_le_mono_r; lia).
  assert (Hpow : 2 ^ (got + use) = 2 ^ got * 2 ^ use) by (apply Z.pow_add_r; lia).
  destruct ord; cbn [join]; f_equal; apply wrap_small; rewrite Z.shiftl_mul_pow2 by lia; nia.
Qed.

Lemma read_bits_loop_spec ord l fuel M n cur bit got out :
  bytes_ok l -> holds M (i_first cur) l -> 0 <= bit < 8 -> 0 <= got <= n -> n <= 64 ->
  (got < n -> n - got <= 8 * zlen l - bit) -> n - got <= Z.of_nat fuel -> 0 <= out < 2 ^ got ->
  read_bits_loop fuel M n ord cur bit got out =
  Done (join ord out got (field ord l bit (n - got)) (n - got))
    (BitInput (advance cur ((bit + (n - got)) / 8)) ((bit + (n - got)) mod 8)).
Proof.
  intros Hl. revert fuel cur bit got out.
  induction Hl as [|b l Hb Hl IH]; intros fuel cur bit got out Hh Hbit Hgot Hn Hmax Hf Hout.
  all: destruct (Z.leb_spec n got) as [Hd|Hd].
  1, 3: assert (n - got = 0) as -> by lia; assert (Hd' : (n <=? got) = true) by (by apply Z.leb_le);
    destruct fuel; cbn [read_bits_loop]; rewrite Hd', Z.add_0_r, Z.div_small, Z.mod_small, advance_0 by lia;
    (replace (join _ _ _ _ _) with out; [done|]);
    destruct ord; cbn; rewrite Z.mod_1_r, ?Z.shiftl_0_l, ?Z.shiftl_0_r, Z.lor_0_r; done.
  { specialize (Hmax Hd). change (zlen (@nil Z)) with 0 in Hmax. lia. }
  destruct fuel as [|fuel]; [lia|]. specialize (Hmax Hd). destruct Hh as [Hb0 Hh].
  cbn [read_bits_loop]. destruct (Z.leb_spec n got); [lia|].
  unfold at_. rewrite Z.add_0_r, Hb0. cbn [deref].
  remember (Z.min (8 - bit) (n - got)) as use eqn:Huse.
  assert (Hr := round_join ord b l bit got use out Hb Hl ltac:(lia) ltac:(lia) ltac:(lia)
    ltac:(lia) ltac:(lia) Hout).
  assert (zlen (b :: l) = zlen l + 1) as Hz by (unfold zlen; cbn; lia).
  pose proof (zlen_nonneg l).
  pose proof (field_range ord (b :: l) bit use ltac:(lia)) as Hfr.
  pose proof (join_range ord out got _ use ltac:(lia) ltac:(lia) Hout Hfr) as Hjr.
  destruct (Z.eqb_spec (bit + use) 8) as [He|He]; rewrite Hr.
  - assert (Hu : use = 8 - bit) by lia.
    rewrite IH; [|done|lia|lia|lia|lia|lia|done].
    rewrite join_assoc by lia. f_equal.
    + replace (n - (got + use)) with (n - got - (8 - bit)) by lia.
      rewrite Hu. replace (8 - bit + (n - got - (8 - bit))) with (n - got) by lia.
      rewrite (field_next ord b l bit (n - got)) by (done || lia). by destruct ord.
    + rewrite advance_advance. f_equal; [f_equal|]; Z.div_mod_to_equations; lia.
  - assert (Hu : use = n - got) by lia. rewrite Hu in *.
    replace (got + (n - got)) with n by lia.
    assert (Hn' : (n <=? n) = true) by (apply Z.leb_le; lia).
    destruct fuel; cbn [read_bits_loop]; rewrite Hn';
      rewrite Z.div_small, Z.mod_small, advance_0 by lia; done.
Qed.

(** ** Contracts of bit parsers *)
Record bwf (M : memory) (bi : bit_input) : Prop := BWf {
  bwf_wf : wf M (bi_in bi);
  bwf_bit : 0 <= bi_bit bi < 8;
  bwf_byte : bi_bit bi <> 0 -> 1 <= size (bi_in bi)
}.

(** What a bit parser leaves: a later cursor, with a byte to be in the middle of. *)
Record badvances (M : memory) (bi br : bit_input) : Prop := BAdvances {
  badv_in : advances (bi_in bi) (bi_in br);
  badv_wf : bwf M br
}.

Definition bpost {A} (M : memory) (bi : bit_input) (o : bresult A) : Prop :=
  match o with
  | Done _ r => badvances M bi r
  | Err e => err_ok (bi_in bi) e
  | Stop _ => False
  end.

Class BGood {A} (p : bparser A) : Prop :=
  bgood M M' bi : bwf M bi -> agree M M' (bi_in bi) -> p M' bi = p M bi /\ bpost M bi (p M bi).

Definition brelast (l : Z) (bi : bit_input) : bit_input := BitInput (relast l (bi_in bi)) (bi_bit bi).

Definition bstable_at {A} (l : Z) (o o' : bresult A) : Prop :=
  match o with
  | Done v r => o' = Done v (brelast l r)
  | Err e => e_kind e = errk_incomplete \/ o' = Err e
  | Stop w => o' = Stop w
  end.

Class BStable {A} (p : bparser A) : Prop := {
  #[global] bstable_good :: BGood p;
  bstable M M' bi l : bwf M bi -> agree M M' (bi_in bi) -> i_live (bi_in bi) = true ->
    i_last (bi_in bi) <= l -> bwf M' (brelast l bi) ->
    bstable_at l (p M bi) (p M' (brelast l bi))
}.

Lemma badvances_refl M bi : bwf M bi -> badvances M bi bi.
Proof. intros H. split; [eapply advances_refl, bwf_wf; eauto|done]. Qed.

Lemma badvances_trans M bi bj bk : badvances M bi bj -> badvances M bj bk -> badvances M bi bk.
Proof. intros [] []. split; eauto using advances_trans. Qed.

Lemma bits_left_le M bi : bwf M bi -> 0 <= bits_left bi <= 8 * size (bi_in bi) - bi_bit bi.
Proof.
  intros [Hwf Hb Hs]. pose proof (size_wf M _ Hwf). pose proof (wf_first M _ Hwf).
  unfold bits_left. assert (0 <= size (bi_in bi) * 8 - bi_bit bi).
  { destruct (decide (bi_bit bi = 0)) as [He|He]; [lia|]. specialize (Hs He). lia. }
  split; [by apply wrap_range|]. unfold wrap.
  replace (8 * size (bi_in bi)) with (size (bi_in bi) * 8) by lia. by apply Z.mod_le.
Qed.

(** [read_bits] either asks for more or returns the field of the bytes there. *)
Lemma read_bits_cases M bi n ord : bwf M bi -> 0 <= n <= 64 ->
  (bits_left bi < n /\ read_bits n ord M bi =
     make_incomplete (bi_in bi) ((n - bits_left bi + 7) / 8)) \/
  (n <= bits_left bi /\ exists l, bytes_ok l /\ holds M (i_first (bi_in bi)) l /\
     zlen l = (bi_bit bi + n + 7) / 8 /\ zlen l <= size (bi_in bi) /\
     forall M' bi', i_first (bi_in bi') = i_first (bi_in bi) -> bi_bit bi' = bi_bit bi ->
       n <= bits_left bi' -> holds M' (i_first (bi_in bi)) l ->
       read_bits n ord M' bi' = Done (field ord l (bi_bit bi) n)
         (BitInput (advance (bi_in bi') ((bi_bit bi + n) / 8)) ((bi_bit bi + n) mod 8))).
Proof.
  intros Hb Hn. pose proof (bits_left_le M bi Hb) as Hle. destruct Hb as [Hwf Hbit Hs].
  destruct (Z.lt_ge_cases (bits_left bi) n) as [Hlt|Hge].
  { left. split; [done|]. unfold read_bits. by destruct (Z.ltb_spec (bits_left bi) n); [|lia]. }
  right. split; [done|].
  assert (HL : (bi_bit bi + n + 7) / 8 <= size (bi_in bi)) by (Z.div_mod_to_equations; lia).
  assert (HL0 : 0 <= (bi_bit bi + n + 7) / 8) by (Z.div_mod_to_equations; lia).
  destruct (wf_holds M _ (Z.to_nat ((bi_bit bi + n + 7) / 8)) Hwf) as (l & Hh & Hlen & Hl); [lia|].
  assert (Hzl : zlen l = (bi_bit bi + n + 7) / 8) by (unfold zlen; lia).
  exists l. split_and!; [done..|lia|]. intros M' bi' Hf Hbe Hge' Hh'.
  unfold read_bits. destruct (Z.ltb_spec (bits_left bi') n); [lia|].
  rewrite Hbe. rewrite (read_bits_loop_spec ord l);
    [|done|by rewrite Hf|lia|lia|lia|intros; Z.div_mod_to_equations; lia|lia|done].
  rewrite Z.sub_0_r. f_equal. pose proof (field_range ord l (bi_bit bi) n ltac:(lia)).
  destruct ord; cbn [join]; by rewrite ?Z.shiftl_0_l, ?Z.shiftl_0_r, Z.lor_0_l.
Qed.

Lemma bits_left_relast M M' bi l : bwf M bi -> bwf M' (brelast l bi) -> i_last (bi_in bi) <= l ->
  bits_left bi <= bits_left (brelast l bi).
Proof.
  intros H H' Hl. destruct H as [Hwf Hbit Hsz], H' as [Hwf' _ _].
  pose proof (size_relast M M' _ l Hwf Hwf' Hl) as Hle.
  pose proof (size_wf M _ Hwf) as Hs1. pose proof (size_wf M' _ Hwf') as Hs2.
  pose proof (wf_first M _ Hwf). pose proof (wf_extent M' _ Hwf') as Hex.
  pose proof (wf_base M' _ Hwf') as Hba. cbn in Hs2, Hle, Hex, Hba. unfold bits_left; cbn.
  assert (0 <= size (bi_in bi) * 8 - bi_bit bi).
  { destruct (decide (bi_bit bi = 0)) as [He|He]; [lia|]. specialize (Hsz He). lia. }
  rewrite !wrap_small by lia. lia.
Qed.

#[export] Instance read_bits_stable n ord : 0 <= n <= 64 -> BStable (read_bits n ord).
Proof.
  intros Hn. split.
  - intros M M' bi Hb Hag. destruct (read_bits_cases M bi n ord Hb Hn)
      as [[Hlt ->]|(Hge & l & Hl & Hh & Hz & Hs & Hread)].
    + split; [unfold read_bits; by destruct (Z.ltb_spec (bits_left bi) n); [|lia]|].
      cbn. eapply err_ok_make_incomplete; [by apply bwf_wf|].
      apply Z.div_pos; lia.
    + pose proof (bits_left_le M bi Hb) as Hle. destruct Hb as [Hwf Hbit Hbs].
      pose proof (size_wf M _ Hwf) as Hsz.
      assert (holds M' (i_first (bi_in bi)) l)
        by (eapply holds_agree; [exact Hag|lia..|done]).
      rewrite !(Hread _ bi) by done. split; [done|].
      assert (0 <= (bi_bit bi + n) / 8 <= size (bi_in bi)) as Hd by (Z.div_mod_to_equations; lia).
      pose proof (advances_advance M _ _ Hwf Hd) as Ha. pose proof (wf_advances M _ _ Hwf Ha) as Hwa.
      split; [done|]. split; cbn [bi_in bi_bit].
      * done.
      * apply Z.mod_pos_bound. lia.
      * intros Hne. rewrite (size_wf M _ Hwa). cbn. Z.div_mod_to_equations; lia.
  - intros M M' bi l Hb Hag Hlive Hl Hb'.
    destruct (read_bits_cases M bi n ord Hb Hn)
      as [[Hlt ->]|(Hge & t & Ht & Hh & Hz & Hs & Hread)].
    + left. cbn. by rewrite Hlive.
    + pose proof (bits_left_relast M M' bi l Hb Hb' Hl).
      pose proof (size_wf M _ (bwf_wf _ _ Hb)) as Hsz.
      rewrite (Hread M bi) by done. rewrite (Hread M' (brelast l bi)); [done..|lia|].
      eapply holds_agree; [exact Hag|lia..|done].
Qed.

(** Sequencing bit parsers, as [bind] does for byte parsers. *)
Section BCompose.
Context {A B : Type}.

Lemma bgood_bind M bi (o o' : bresult A) (k k' : A -> bit_input -> bresult B) :
  o' = o /\ bpost M bi o ->
  (forall v r, badvances M bi r -> k' v r = k v r /\ bpost M bi (k v r)) ->
  bind o' k' = bind o k /\ bpost M bi (bind o k).
Proof. intros [-> Hp] Hk. destruct o; cbn in *; [by apply Hk|done..]. Qed.

Lemma bpost_trans M bi br (o : bresult A) : badvances M bi br -> bpost M br o -> bpost M bi o.
Proof.
  intros Ha. destruct o; cbn; try done; eauto using badvances_trans.
  apply err_ok_advances, Ha.
Qed.

Lemma bgood_call M M' bi br (p : bparser A) : BGood p ->
  badvances M bi br -> agree M M' (bi_in bi) -> p M' br = p M br /\ bpost M bi (p M br).
Proof.
  intros Hp Ha Hag. destruct (Hp M M' br) as [-> Hpp].
  - apply Ha.
  - eapply agree_advances; [done|apply Ha].
  - split; [done|]. by eapply bpost_trans.
Qed.

Lemma bstable_bind M bi l (o o' : bresult A) (k k' : A -> bit_input -> bresult B) :
  bstable_at l o o' -> bpost M bi o ->
  (forall v r, badvances M bi r -> bstable_at l (k v r) (k' v (brelast l r))) ->
  bstable_at l (bind o k) (bind o' k').
Proof.
  intros Hs Hp Hk. destruct o; cbn in *; [subst; cbn; by apply Hk| |done].
  destruct Hs as [Hs| ->]; [by left|by right].
Qed.
End BCompose.

Lemma brelast_bwf M M' bi br l : badvances M bi br -> i_last (bi_in bi) <= l ->
  bwf M' (brelast l bi) -> bwf M' (brelast l br).
Proof.
  intros [Ha [Hwf Hbit Hs]] Hl [Hwf' _ _]. cbn in Hwf'.
  assert (wf M' (relast l (bi_in br))) as Hw.
  { eapply wf_advances; [exact Hwf'|]. by apply relast_advances. }
  split; cbn; [done|done|]. intros Hne. specialize (Hs Hne).
  pose proof (size_relast M M' (bi_in br) l Hwf Hw). pose proof (adv_last _ _ Ha). lia.
Qed.

Lemma bstable_call {A} M M' bi br l (p : bparser A) : BStable p ->
  badvances M bi br -> agree M M' (bi_in bi) -> i_live (bi_in bi) = true ->
  i_last (bi_in bi) <= l -> bwf M' (brelast l bi) ->
  bstable_at l (p M br) (p M' (brelast l br)).
Proof.
  intros Hp Ha Hag Hlive Hl Hb'. pose proof (badv_in _ _ _ Ha) as Hin. apply Hp.
  - apply Ha.
  - by eapply agree_advances.
  - by rewrite (adv_live _ _ Hin).
  - by rewrite (adv_last _ _ Hin).
  - by eapply brelast_bwf.
Qed.

Section BitFacts.
Context {A : Type}.

(** A bit parser that post-processes one field. *)
Lemma bmap_stable (p : bparser Z) (k : bit_input -> Z -> bit_input -> bresult A) :
  BStable p ->
  (forall M bi v r, bwf M bi -> badvances M bi r -> bpost M bi (k bi v r)) ->
  (forall bi v r l, bstable_at l (k bi v r) (k (brelast l bi) v (brelast l r))) ->
  BStable (fun M bi => bind (p M bi) (k bi)).
Proof.
  intros Hp Hk Hl. split.
  - intros M M' bi Hb Hag. apply bgood_bind.
    + apply bgood_call; [apply _|by apply badvances_refl|done].
    + intros v r Hr. split; [done|]. by apply Hk.
  - intros M M' bi l Hb Hag Hlive Hle Hb'. pose proof (badvances_refl M bi Hb) as Hr.
    eapply (bstable_bind M bi).
    + by apply (bstable_call M M' bi).
    + by apply (bgood_call M M' bi bi p bstable_good).
    + intros v r _. apply Hl.
Qed.
End BitFacts.

#[export] Instance take_bits_stable w n ord : 0 <= n <= 64 -> BStable (take_bits w n ord).
Proof. intros Hn. apply (bmap_stable (read_bits n ord) (fun _ v r => Done (wrap w v) r)); done || apply _. Qed.

#[export] Instance tag_bits_stable pat n ord : 0 <= n <= 64 -> BStable (tag_bits pat n ord).
Proof.
  intros Hn. apply (bmap_stable (read_bits n ord) (fun bi v r =>
    if negb (v =? pat) then make_err (bi_in bi) "bit tag" else Done v r)); [apply _| |].
  - intros M bi v r Hb Hr. destruct (negb _); [|done]. cbn.
    eapply err_ok_make_err, bwf_wf, Hb.
  - intros bi v r l. destruct (negb _); [by right|done].
Qed.

#[export] Instance bool_bit_stable ord : BStable (bool_bit ord).
Proof.
  apply (bmap_stable (read_bits 1 ord) (fun _ v r => Done (negb (v =? 0)) r)); done || apply _.
Qed.

Inductive AllBStable : forall {Ts}, bplist Ts -> Prop :=
| AllBStable_nil : AllBStable BNil
| AllBStable_cons {A Ts} (p : bparser A) (ps : bplist Ts) :
    BStable p -> AllBStable ps -> AllBStable (BCons p ps).
Existing Class AllBStable.
#[export] Existing Instances AllBStable_nil AllBStable_cons.

#[export] Instance bseq_stable {Ts} (ps : bplist Ts) : AllBStable ps -> BStable (bseq ps).
Proof.
  induction 1 as [|A Ts p ps Hp Hps IH].
  { split; [|done]. intros M M' bi Hb Hag. split; [done|]. by apply badvances_refl. }
  split.
  - intros M M' bi Hb Hag. cbn. apply bgood_bind.
    + apply bgood_call; [apply _|by apply badvances_refl|done].
    + intros v r Hr. apply bgood_bind; [by apply bgood_call; [apply _|..]|done].
  - intros M M' bi l Hb Hag Hlive Hl Hb'. cbn. eapply (bstable_bind M bi).
    + apply (bstable_call M M' bi); [done|by apply badvances_refl|done..].
    + apply (bgood_call M M' bi bi p _); [by apply badvances_refl|done].
    + intros v r Hr. eapply (bstable_bind M bi).
      * by apply (bstable_call M M' bi).
      * by apply (bgood_call M M' bi r (bseq ps) _).
      * done.
Qed.

#[export] Instance bits_stable {A} (bp : bparser A) : BStable bp -> Stable (bits bp).
Proof.
  intros Hp.
  assert (forall M i, wf M i -> bwf M (BitInput i 0)) as Hb0 by (intros; split; cbn; done || lia).
  split.
  - intros M M' i Hwf Hag. unfold bits.
    destruct (bgood M M' (BitInput i 0) (Hb0 M i Hwf) Hag) as [-> Hpost].
    split; [done|]. destruct (bp M _) as [v [r bit]|e|w]; cbn in *; [|done..].
    destruct Hpost as [Ha [Hwr Hbit Hs]]; cbn in *.
    destruct (Z.eqb_spec bit 0); cbn; [done|]. specialize (Hs ltac:(done)).
    eapply advances_trans; [done|]. eapply advances_advance; [done|lia].
  - prim_intro_stable. unfold bits.
    pose proof (bstable M M' (BitInput i 0) l (Hb0 M i Hwf) Hag Hlive Hl (Hb0 _ _ Hwf')) as Hs.
    change (brelast l (BitInput i 0)) with (BitInput (relast l i) 0) in Hs.
    destruct (bp M _) as [v [r bit]|e|w]; cbn in *.
    + rewrite Hs. cbn. by destruct (bit =? 0).
    + destruct Hs as [Hs| ->]; [by left|by right].
    + by rewrite Hs.
Qed.

#[export] Instance bytes_stable {A} (p : parser A) : Stable p -> BStable (bytes_ p).
Proof.
  intros Hp. split.
  - intros M M' [i bit] [Hwf Hbit Hs] Hag; cbn in *. unfold bytes_; cbn.
    destruct (Z.eqb_spec bit 0) as [Hz|Hz]; cbn; [|split; [done|]; cbn; eauto with nanom].
    destruct (good (p:=p) M M' i Hwf Hag) as [-> Hpost]. split; [done|].
    destruct (p M i) as [v r|e|w]; cbn in *; [|done..].
    split; [done|]. split; cbn; [eauto with nanom|lia|done].
  - intros M M' [i bit] l [Hwf Hbit Hs] Hag Hlive Hl [Hwf' _ _]; cbn in *. unfold bytes_; cbn.
    destruct (Z.eqb_spec bit 0) as [Hz|Hz]; cbn; [|by right].
    pose proof (stable (p:=p) M M' i l Hwf Hag Hlive Hl Hwf') as Hst.
    destruct (p M i) as [v r|e|w]; cbn in *.
    + by rewrite Hst.
    + destruct Hst as [Hst| ->]; [by left|by right].
    + by rewrite Hst.
Qed.
