(* ===== verification/NumberSpecs.v ===== *)
(** * What the number readers compute

    Fixed-width integers, LEB128 with its round trips, zigzag, the count
    guards with the array view, and bit fields: the value read is the integer
    the bytes denote, and an encoding the target width cannot hold is an error
    and never a wrapped value. *)
From S2P Require Import Prelude Parser BytesParsers Combinators CombinatorFacts Numbers Bits.

(** The buffer used by the witnesses: a window of exactly the bytes [l]. *)
Definition window (l : list Z) : input := Input 0 (zlen l) 0 false None 0.

Lemma window_wf l : bytes_ok l -> zlen l < 2 ^ 60 -> wf (mem_of 0 l) (window l).
Proof. apply mem_of_wf. Qed.

Lemma window_holds l s : holds (mem_of 0 (l ++ s)) (i_first (window (l ++ s))) l.
Proof. apply holds_mem_of. Qed.

Lemma window_size l : zlen l < 2 ^ 60 -> size (window l) = zlen l.
Proof.
  intros ?. pose proof (zlen_nonneg l). unfold size; cbn. rewrite wrap_small by lia. lia.
Qed.

Ltac solve_bytes := repeat (apply Forall_cons; split; [by vm_compute|]); by constructor.

Lemma uint_val_range order l n : bytes_ok l -> zlen l = n -> 0 <= uint_val order l < 2 ^ (8 * n).
Proof.
  unfold zlen. intros Hl <-. destruct order; cbn; [|by apply le_val_range].
  unfold be_val. rewrite <- (length_reverse l). apply le_val_range. by apply Forall_reverse.
Qed.

(** A fixed-width read of [n] bytes needs exactly [n] bytes, and returns
    the integer they denote in the byte order asked for; a signed read
    returns its two's-complement reading. *)
Theorem read_uint_value M i n order :
  1 <= n <= 8 -> wf M i ->
  (size i < n /\ read_uint n order M i = make_incomplete i (n - size i)) \/
  (exists l, holds M (i_first i) l /\ zlen l = n /\ bytes_ok l /\
     0 <= uint_val order l < 2 ^ (8 * n) /\
     read_uint n order M i = Done (uint_val order l) (advance i n) /\
     uint_ n true order M i = Done (sint (8 * n) (uint_val order l)) (advance i n)).
Proof.
  intros Hn Hwf. destruct (read_uint_cases M i n order Hn Hwf) as [H|(Hs & l & Hh & Hz & Hl & Hr)];
    [by left|right].
  pose proof (uint_val_range order l n Hl Hz).
  exists l. split_and!; try done; try lia. unfold uint_. by rewrite Hr.
Qed.

Lemma read_uint_value_witness :
  exists l, holds (mem_of 0 [255; 254]) 0 l /\
    uint_ 2 true big (mem_of 0 [255; 254]) (window [255; 254]) =
      Done (sint 16 (uint_val big l)) (Input 2 2 0 false None 0).
Proof.
  destruct (read_uint_value (mem_of 0 [255; 254]) (window [255; 254]) 2 big ltac:(lia)
    (window_wf [255; 254] ltac:(solve_bytes) eq_refl)) as [[H _]|(l & H1 & _ & _ & _ & _ & H2)].
  - by vm_compute in H.
  - exists l. split; [exact H1|exact H2].
Defined.

(** What [uleb128] accepts, on every input. The bytes it looks at are
    either a terminated encoding, and then the answer is its value when value
    and length fit the target width and an error otherwise; or as many
    continuation bytes as the width permits, an error; or continuation bytes
    up to the end of the input, a request for one more byte. No value is
    ever truncated. *)
Theorem uleb128_decides w M i :
  1 <= w -> wf M i ->
  exists l, bytes_ok l /\ holds M (i_first i) l /\
  ((leb_shape l = true /\ zlen l <= size i /\
    uleb128 w M i =
      if (zlen l <=? leb128_max_bytes w) && (uleb_val l <? 2 ^ w)
      then Done (uleb_val l) (advance i (zlen l))
      else make_err i "varint fitting the target width") \/
   (Forall (fun b => 128 <= b) l /\ zlen l = leb128_max_bytes w /\
    uleb128 w M i = make_err i "varint fitting the target width") \/
   (Forall (fun b => 128 <= b) l /\ zlen l = size i /\ size i < leb128_max_bytes w /\
    uleb128 w M i = make_incomplete (advance i (size i)) 1)).
Proof.
  intros Hw Hwf. destruct (leb_cases _ (leb128_max_bytes_pos w Hw) M i Hwf)
    as (l & Hl & Hh & [(? & ?)|[(? & ? & ?)|(? & ? & ?)]]); exists l; split_and!; try done.
  - left. split_and!; [done..|]. by apply read_uleb128_terminated.
  - right; left. split_and!; [done..|]. by eapply read_uleb128_long.
  - right; right. split_and!; [done..|]. by eapply read_uleb128_short.
Qed.

Lemma uleb128_decides_witness :
  exists l, holds (mem_of 0 [172; 2]) 0 l /\ bytes_ok l.
Proof.
  destruct (uleb128_decides 32 (mem_of 0 [172; 2]) (window [172; 2]) ltac:(lia)
    (window_wf [172; 2] ltac:(solve_bytes) eq_refl)) as (l & H1 & H2 & _).
  exists l. split; [exact H2|exact H1].
Defined.

(** [uleb128_encode] followed by anything decodes to the value encoded
    and leaves exactly what followed; the encoding has at most
    [leb128_max_bytes] bytes. *)
Theorem uleb128_roundtrip w v rest :
  1 <= w -> 0 <= v < 2 ^ w ->
  zlen (uleb128_encode w v ++ rest) < 2 ^ 60 ->
  let l := uleb128_encode w v in
  zlen l <= leb128_max_bytes w /\
  uleb128 w (mem_of 0 (l ++ rest)) (window (l ++ rest)) =
    Done v (advance (window (l ++ rest)) (zlen l)).
Proof.
  intros Hw Hv Hz l. destruct (uleb128_encode_spec w v Hw Hv) as (_ & _ & _ & Hlen).
  split; [done|]. apply uleb128_decode_encode; [done..|apply window_holds|].
  rewrite window_size by done. rewrite zlen_app. pose proof (zlen_nonneg rest). fold l. lia.
Qed.

Lemma uleb128_roundtrip_witness :
  uleb128 32 (mem_of 0 ([172; 2] ++ [9])) (window ([172; 2] ++ [9])) =
    Done 300 (Input 2 3 0 false None 0).
Proof.
  exact (proj2 (uleb128_roundtrip 32 300 [9] ltac:(lia) ltac:(lia) eq_refl)).
Defined.

(** What [sleb128] accepts: a terminated encoding is its sign-extended
    value when that fits the signed target type, an error otherwise; too many
    continuation bytes are an error, too few bytes a request for more. *)
Theorem sleb128_decides w M i :
  1 <= w -> wf M i ->
  exists l, bytes_ok l /\ holds M (i_first i) l /\
  ((leb_shape l = true /\ zlen l <= size i /\
    sleb128 w M i =
      if (zlen l <=? leb128_max_bytes w) && (- 2 ^ (w - 1) <=? sleb_val l) &&
         (sleb_val l <? 2 ^ (w - 1))
      then Done (sleb_val l) (advance i (zlen l))
      else make_err i "sleb128 fitting the target width") \/
   (Forall (fun b => 128 <= b) l /\ zlen l = leb128_max_bytes w /\
    sleb128 w M i = make_err i "sleb128 fitting the target width") \/
   (Forall (fun b => 128 <= b) l /\ zlen l = size i /\ size i < leb128_max_bytes w /\
    sleb128 w M i = make_incomplete (advance i (size i)) 1)).
Proof.
  intros Hw Hwf. destruct (leb_cases _ (leb128_max_bytes_pos w Hw) M i Hwf)
    as (l & Hl & Hh & [(? & ?)|[(? & ? & ?)|(? & ? & ?)]]); exists l; split_and!; try done.
  - left. split_and!; [done..|]. by apply sleb128_terminated.
  - right; left. split_and!; [done..|]. by eapply sleb128_long.
  - right; right. split_and!; [done..|]. by eapply sleb128_short.
Qed.

Lemma sleb128_decides_witness :
  exists l, holds (mem_of 0 [128; 127]) 0 l /\ bytes_ok l.
Proof.
  destruct (sleb128_decides 32 (mem_of 0 [128; 127]) (window [128; 127]) ltac:(lia)
    (window_wf [128; 127] ltac:(solve_bytes) eq_refl)) as (l & H1 & H2 & _).
  exists l. split; [exact H2|exact H1].
Defined.

Lemma zigzag_encode_decode w u : 0 < w -> 0 <= u < 2 ^ w ->
  - 2 ^ (w - 1) <= zigzag_decode w u < 2 ^ (w - 1) /\ zigzag_encode w (zigzag_decode w u) = u.
Proof.
  intros Hw Hu. rewrite zigzag_decode_spec by done.
  assert (Hp : 2 ^ w = 2 * 2 ^ (w - 1)) by (rewrite <- Z.pow_succ_r by lia; f_equal; lia).
  pose proof (Zmod_even u) as He. destruct (Z.even u).
  - assert (0 <= u / 2 < 2 ^ (w - 1)) by (Z.div_mod_to_equations; lia).
    rewrite zigzag_encode_spec by lia. destruct (Z.ltb_spec (u / 2) 0); [lia|].
    split; [lia|]. Z.div_mod_to_equations; lia.
  - assert (0 <= u / 2 < 2 ^ (w - 1)) by (Z.div_mod_to_equations; lia).
    rewrite zigzag_encode_spec by lia. destruct (Z.ltb_spec (- (u / 2) - 1) 0); [|lia].
    split; [lia|]. Z.div_mod_to_equations; lia.
Qed.

(** [zigzag_encode] and [zigzag_decode] are inverse bijections between
    the signed and the unsigned integers of a width, and magnitudes stay
    small: the code of [s] is [2s] or [-2s-1]. *)
Theorem zigzag_bijection w :
  0 < w ->
  (forall s, - 2 ^ (w - 1) <= s < 2 ^ (w - 1) ->
     0 <= zigzag_encode w s < 2 ^ w /\ zigzag_decode w (zigzag_encode w s) = s /\
     zigzag_encode w s = if s <? 0 then - 2 * s - 1 else 2 * s) /\
  (forall u, 0 <= u < 2 ^ w ->
     - 2 ^ (w - 1) <= zigzag_decode w u < 2 ^ (w - 1) /\
     zigzag_encode w (zigzag_decode w u) = u).
Proof.
  intros Hw. split; intros x Hx; [|by apply zigzag_encode_decode].
  split_and!; [by apply zigzag_encode_range..|by apply zigzag_decode_encode|
    by apply zigzag_encode_spec].
Qed.

Lemma zigzag_bijection_witness : zigzag_decode 32 (zigzag_encode 32 (-2147483648)) = -2147483648.
Proof. exact (proj1 (proj2 (proj1 (zigzag_bijection 32 ltac:(lia)) (-2147483648) ltac:(lia)))). Defined.

(** [zigzag_varint] reads back what [zigzag_encode] and
    [uleb128_encode] write at the width it decodes at, and rejects a value
    outside a narrower target. *)
Theorem zigzag_varint_roundtrip w s rest :
  1 <= w -> let wu := if w <? 32 then 32 else w in
  - 2 ^ (wu - 1) <= s < 2 ^ (wu - 1) ->
  let l := uleb128_encode wu (zigzag_encode wu s) in
  zlen (l ++ rest) < 2 ^ 60 ->
  zigzag_varint w (mem_of 0 (l ++ rest)) (window (l ++ rest)) =
    if (- 2 ^ (w - 1) <=? s) && (s <=? 2 ^ (w - 1) - 1)
    then Done s (advance (window (l ++ rest)) (zlen l))
    else make_err (window (l ++ rest)) "zigzag varint in range".
Proof.
  intros Hw wu Hs l Hz. assert (Hwu : 1 <= wu) by (unfold wu; destruct (Z.ltb_spec w 32); lia).
  unfold zigzag_varint. fold wu.
  rewrite (uleb128_decode_encode wu _ _ (zigzag_encode wu s)); [|done| |apply window_holds|].
  - cbn [bind]. rewrite zigzag_decode_encode by lia. fold l.
    rewrite !Z.leb_antisym, <- negb_orb. by destruct (_ || _).
  - apply zigzag_encode_range; lia.
  - rewrite window_size by done. rewrite zlen_app. fold l. pose proof (zlen_nonneg rest). lia.
Qed.

Lemma zigzag_varint_roundtrip_witness :
  zigzag_varint 32 (mem_of 0 ([3] ++ [7])) (window ([3] ++ [7])) =
    Done (-2) (Input 1 2 0 false None 0).
Proof.
  exact (zigzag_varint_roundtrip 32 (-2) [7] ltac:(lia) ltac:(cbn; lia) eq_refl).
Defined.

Lemma le_index_elem M i sz n k a : 1 <= sz <= 8 -> wf M i -> n * sz <= size i -> 0 <= k < n ->
  b_data (la_raw a) = i_first i ->
  exists l, holds M (i_first i + k * sz) l /\ zlen l = sz /\ bytes_ok l /\
    le_index sz M a k = Some (le_val l).
Proof.
  intros Hsz Hwf Hn Hk Ha. pose proof (size_wf M i Hwf) as Hs.
  destruct (wf_holds M (advance i (k * sz)) (Z.to_nat sz)) as (l & Hh & Hlen & Hl).
  - eapply wf_advances; [done|]. eapply advances_advance; [done|nia].
  - rewrite (size_wf M); [cbn; nia|]. eapply wf_advances; [done|].
    eapply advances_advance; [done|nia].
  - assert (Hz : zlen l = sz) by (unfold zlen; lia).
    exists l. split_and!; [done..|]. unfold le_index. rewrite Ha, <- Hlen.
    pose proof (uint_for_bytes_fits sz Hsz).
    rewrite le_elem_spec; [f_equal; lia|done|by rewrite Z.add_0_r|lia..].
Qed.

(** [le_array_of] never reserves for a hostile count: a count whose
    elements are not all present asks for more input, and otherwise the view
    covers exactly [n] elements, each of them the little-endian integer of
    its bytes; [at] is [nullopt] from [n] on. *)
Theorem le_array_of_elements M i sz n :
  1 <= sz <= 8 -> 0 <= n -> wf M i ->
  (size i < n * sz /\
   exists need, 0 <= need /\ le_array_of sz n M i = make_incomplete i need) \/
  (n * sz <= size i /\
   exists a, le_array_of sz n M i = Done a (advance i (n * sz)) /\
   forall k, 0 <= k ->
     if k <? n
     then exists l, holds M (i_first i + k * sz) l /\ zlen l = sz /\ bytes_ok l /\
            le_at sz M a k = Some (Some (le_val l))
     else le_at sz M a k = Some None).
Proof.
  intros Hsz Hn Hwf. pose proof (size_wf M i Hwf) as Hs. pose proof (wf_first M i Hwf).
  unfold le_array_of. destruct (count_fits i n sz) eqn:Hc; cbn [negb].
  - right. apply count_fits_mul in Hc; [|lia..]. split; [done|].
    eexists. split; [done|]. intros k Hk. unfold le_at. cbn [la_n].
    destruct (Z.ltb_spec k n) as [Hkn|Hkn]; destruct (Z.leb_spec n k); try lia; [|done].
    destruct (le_index_elem M i sz n k (LeArray (take_span i (n * sz)) n))
      as (l & ? & ? & ? & ->); [done..|]. by exists l.
  - left. assert (~ n * sz <= size i) by (rewrite <- count_fits_mul, Hc by lia; done).
    split; [lia|]. eexists. split; [|done]. by eapply le_array_need; [|lia..|].
Qed.

Lemma le_array_of_elements_witness :
  exists a, le_array_of 2 2 (mem_of 0 [1; 2; 3; 4; 5]) (window [1; 2; 3; 4; 5]) =
    Done a (Input 4 5 0 false None 0).
Proof.
  destruct (le_array_of_elements (mem_of 0 [1; 2; 3; 4; 5]) (window [1; 2; 3; 4; 5]) 2 2
    ltac:(lia) ltac:(lia) (window_wf [1; 2; 3; 4; 5] ltac:(solve_bytes) eq_refl))
    as [[H _]|(_ & a & H & _)].
  - by vm_compute in H.
  - exists a. exact H.
Defined.

(** ** Bit fields *)

(** [take_bits] at bit [bit] of a byte cursor needs [n] bits, returns
    the slice of the big-endian ([msb0]) or little-endian ([lsb0]) integer of
    the bytes it touches, and leaves the cursor [n] bits further on, inside
    the byte where the field ends. *)
Theorem take_bits_field M bi n w ord :
  bwf M bi -> 0 <= n <= w -> w <= 64 ->
  (bits_left bi < n /\ take_bits w n ord M bi =
     make_incomplete (bi_in bi) ((n - bits_left bi + 7) / 8)) \/
  (n <= bits_left bi /\ exists l, bytes_ok l /\ holds M (i_first (bi_in bi)) l /\
     zlen l = (bi_bit bi + n + 7) / 8 /\
     take_bits w n ord M bi = Done (field ord l (bi_bit bi) n)
       (BitInput (advance (bi_in bi) ((bi_bit bi + n) / 8)) ((bi_bit bi + n) mod 8))).
Proof.
  intros Hb Hn Hw. unfold take_bits.
  destruct (read_bits_cases M bi n ord Hb ltac:(lia)) as [[? ->]|(Hle & l & Hl & Hh & Hz & _ & Hr)];
    [by left|right].
  split; [done|]. exists l. split_and!; [done..|].
  rewrite (Hr M bi) by done. cbn [bind].
  pose proof (field_range ord l (bi_bit bi) n ltac:(lia)).
  assert (2 ^ n <= 2 ^ w) by (apply Z.pow_le_mono_r; lia).
  by rewrite wrap_small by lia.
Qed.

Lemma take_bits_field_witness :
  exists l, holds (mem_of 0 [165; 60]) 0 l /\
    take_bits 16 7 msb0 (mem_of 0 [165; 60]) (BitInput (window [165; 60]) 4) =
      Done (field msb0 l 4 7) (BitInput (Input 1 2 0 false None 0) 3).
Proof.
  destruct (take_bits_field (mem_of 0 [165; 60]) (BitInput (window [165; 60]) 4) 7 16 msb0)
    as [[H _]|(_ & l & _ & H1 & _ & H2)].
  - split; [exact (window_wf [165; 60] ltac:(solve_bytes) eq_refl)|cbn; lia|by vm_compute].
  - lia.
  - lia.
  - by vm_compute in H.
  - exists l. split; [exact H1|exact H2].
Defined.
