(* ===== verification/Grammar.v ===== *)
(** * Grammars: everything nom.hpp can build

    The parsers a client of nom.hpp can assemble from its primitives and
    combinators, as an inductive closure, and the two contracts that hold of
    all of them by rule induction: memory safety with termination and
    localised errors for every grammar, stability under refill for the
    grammars that treat [incomplete] as a request and not as an answer. *)
From S2P Require Import Prelude Parser BytesParsers Combinators CombinatorFacts Numbers TextNum Bits.

(** ** Streaming grammars *)
Inductive streamable : forall {A : Type}, parser A -> Prop :=
| st_tag p : streamable (tag p)
| st_tag_bytes p : streamable (tag_bytes p)
| st_tag_no_case p : streamable (tag_no_case p)
| st_take n : 0 <= n -> streamable (take n)
| st_take_until ned : streamable (take_until ned)
| st_chr c : streamable (chr c)
| st_satisfy pred : streamable (satisfy pred)
| st_one_of set : streamable (one_of set)
| st_none_of set : streamable (none_of set)
| st_anychar : streamable anychar
| st_crlf : streamable crlf
| st_line_ending lit : streamable (line_ending lit)
| st_read_uint n order : 1 <= n <= 8 -> streamable (read_uint n order)
| st_read_int n order : 1 <= n <= 8 -> streamable (read_int n order)
| st_read_float n order : 1 <= n <= 8 -> streamable (read_float n order)
| st_uint n sg order : 1 <= n <= 8 -> streamable (uint_ n sg order)
| st_uleb128 w : 1 <= w -> streamable (uleb128 w)
| st_sleb128 w : 1 <= w -> streamable (sleb128 w)
| st_zigzag_varint w : streamable (zigzag_varint w)
| st_le_array_of sz n : 1 <= sz -> 0 <= n -> streamable (le_array_of sz n)
| st_seq_nil : streamable (seq PNil)
| st_seq_cons {A Ts} (p : parser A) (ps : plist Ts) :
    streamable p -> streamable (seq ps) -> streamable (seq (PCons p ps))
| st_pair {A B} (a : parser A) (b : parser B) : streamable a -> streamable b -> streamable (pair a b)
| st_separated_pair {A B C} (a : parser A) (s : parser C) (b : parser B) :
    streamable a -> streamable s -> streamable b -> streamable (separated_pair a s b)
| st_preceded {A B} (a : parser A) (b : parser B) :
    streamable a -> streamable b -> streamable (preceded a b)
| st_terminated {A B} (a : parser A) (b : parser B) :
    streamable a -> streamable b -> streamable (terminated a b)
| st_delimited {A B C} (a : parser A) (b : parser B) (c : parser C) :
    streamable a -> streamable b -> streamable c -> streamable (delimited a b c)
| st_alt {V} (p : parser V) ps :
    streamable p -> (forall q, In q ps -> streamable q) -> streamable (alt p ps)
| st_many0 {A} (p : parser A) : streamable p -> streamable (many0 p)
| st_many1 {A} (p : parser A) : streamable p -> streamable (many1 p)
| st_many_m_n {A} m n (p : parser A) : streamable p -> streamable (many_m_n m n p)
| st_many_till {A B} (p : parser A) (e : parser B) :
    streamable p -> streamable e -> streamable (many_till p e)
| st_fold_many0 {A B} (p : parser A) (init : B) f : streamable p -> streamable (fold_many0 p init f)
| st_fold_many1 {A B} (p : parser A) (init : B) f : streamable p -> streamable (fold_many1 p init f)
| st_fold_many_m_n {A B} m n (p : parser A) (init : B) f :
    streamable p -> streamable (fold_many_m_n m n p init f)
| st_count {A} vmax (p : parser A) n : n <= vmax -> streamable p -> streamable (count vmax p n)
| st_length_data np : streamable np -> streamable (length_data np)
| st_length_value {A} np (p : parser A) : streamable np -> Good p -> streamable (length_value np p)
| st_length_count {A} vmax np (p : parser A) :
    bounded np vmax -> streamable np -> streamable p -> streamable (length_count vmax np p)
| st_map {A B} (p : parser A) (f : A -> B) : streamable p -> streamable (map p f)
| st_map_opt {A B} (p : parser A) (f : A -> option B) : streamable p -> streamable (map_opt p f)
| st_flat_map {A B} (p : parser A) (f : A -> parser B) :
    streamable p -> (forall v, streamable (f v)) -> streamable (flat_map p f)
| st_cond {A} b (p : parser A) : streamable p -> streamable (cond b p)
| st_peek {A} (p : parser A) : streamable p -> streamable (peek p)
| st_recognize {A} (p : parser A) : streamable p -> streamable (recognize p)
| st_consumed {A} (p : parser A) : streamable p -> streamable (consumed p)
| st_value {A B} (v : B) (p : parser A) : streamable p -> streamable (value v p)
| st_verify {A} (p : parser A) pred : streamable p -> streamable (verify p pred)
| st_success {A} (v : A) : streamable (success v)
| st_fail why : streamable (fail_ why)
| st_cut {A} (p : parser A) : streamable p -> streamable (cut p)
| st_context {A} label (p : parser A) : streamable p -> streamable (context label p)
| st_bits {A} (bp : bparser A) : bstreamable bp -> streamable (bits bp)
with bstreamable : forall {A : Type}, bparser A -> Prop :=
| bst_take_bits w n ord : 0 <= n <= 64 -> bstreamable (take_bits w n ord)
| bst_tag_bits pat n ord : 0 <= n <= 64 -> bstreamable (tag_bits pat n ord)
| bst_bool_bit ord : bstreamable (bool_bit ord)
| bst_bseq_nil : bstreamable (bseq BNil)
| bst_bseq_cons {A Ts} (p : bparser A) (ps : bplist Ts) :
    bstreamable p -> bstreamable (bseq ps) -> bstreamable (bseq (BCons p ps))
| bst_bytes {A} (p : parser A) : streamable p -> bstreamable (bytes_ p).

Scheme streamable_mut := Minimality for streamable Sort Prop
  with bstreamable_mut := Minimality for bstreamable Sort Prop.
Combined Scheme streamable_mutind from streamable_mut, bstreamable_mut.

Lemma seq_cons_stable {A Ts} (p : parser A) (ps : plist Ts) :
  Stable p -> Stable (seq ps) -> Stable (seq (PCons p ps)).
Proof.
  intros Hp Hps. split; [intros M M' i ? ?; cbn; parser_good|].
  prim_intro_stable. cbn. parser_stable.
Qed.

Lemma bseq_cons_stable {A Ts} (p : bparser A) (ps : bplist Ts) :
  BStable p -> BStable (bseq ps) -> BStable (bseq (BCons p ps)).
Proof.
  intros Hp Hps. split.
  - intros M M' bi Hb Hag. cbn. apply bgood_bind.
    + apply bgood_call; [apply _|by apply badvances_refl|done].
    + intros v r Hr. apply bgood_bind; [by apply bgood_call; [apply _|..]|done].
  - intros M M' bi l Hb Hag Hlive Hl Hb'. cbn. eapply (bstable_bind M bi).
    + apply (bstable_call M M' bi); [done|by apply badvances_refl|done..].
    + apply (bgood_call M M' bi bi p _); [by apply badvances_refl|done].
    + intros v r Hr. eapply (bstable_bind M bi).
      * by apply (bstable_call M M' bi).
      * by apply (bgood_call M M' bi r (bseq ps) _).
      * done.
Qed.

Lemma streamable_bstreamable_stable :
  (forall A (p : parser A), streamable p -> Stable p) /\
  (forall A (p : bparser A), bstreamable p -> BStable p).
Proof.
  apply streamable_mutind; intros;
    try (by apply seq_cons_stable); try (by apply bseq_cons_stable);
    try apply _.
  - apply alt_stable; [done|]. apply List.Forall_forall. auto.
  - by apply count_stable.
  - by apply length_count_stable.
Qed.

Lemma streamable_stable {A} (p : parser A) : streamable p -> Stable p.
Proof. apply streamable_bstreamable_stable. Qed.

(** ** All grammars

    The primitives and the combinators, with two provisos. The element count of
    [count], and every length that [length_count] may read, is at most the largest
    size of the vector ([bounded]): past it the vector's [reserve] throws
    ([length_count_unguarded]). And the first parser of [map_parser] yields a span
    of its own input ([Spans]). [map_res] is [map_opt], [into] is [map]. *)
Inductive built : forall {A : Type}, parser A -> Prop :=
| bu_streamable {A} (p : parser A) : streamable p -> built p
| bu_take_while pred : built (take_while pred)
| bu_take_while1 pred : built (take_while1 pred)
| bu_take_while_m_n m n pred : 0 <= n -> built (take_while_m_n m n pred)
| bu_take_till pred : built (take_till pred)
| bu_take_till1 pred : built (take_till1 pred)
| bu_is_a set : built (is_a set)
| bu_is_not set : built (is_not set)
| bu_klass pred min what : built (klass pred min what)
| bu_not_line_ending : built not_line_ending
| bu_eof : built eof
| bu_dec w sg : built (dec w sg)
| bu_hex w : built (hex w)
| bu_double `{fp_ops} : built double_
| bu_float `{fp_ops} {F} (narrow : dbl -> F) : built (float_ narrow)
| bu_rest : built rest
| bu_rest_len : built rest_len
| bu_seq {Ts} (ps : plist Ts) : built_all ps -> built (seq ps)
| bu_pair {A B} (a : parser A) (b : parser B) : built a -> built b -> built (pair a b)
| bu_separated_pair {A B C} (a : parser A) (s : parser C) (b : parser B) :
    built a -> built s -> built b -> built (separated_pair a s b)
| bu_preceded {A B} (a : parser A) (b : parser B) : built a -> built b -> built (preceded a b)
| bu_terminated {A B} (a : parser A) (b : parser B) : built a -> built b -> built (terminated a b)
| bu_delimited {A B C} (a : parser A) (b : parser B) (c : parser C) :
    built a -> built b -> built c -> built (delimited a b c)
| bu_alt {V} (p : parser V) ps : built p -> (forall q, In q ps -> built q) -> built (alt p ps)
| bu_permutation {Ts} (ps : plist Ts) : built_all ps -> built (permutation ps)
| bu_many0 {A} (p : parser A) : built p -> built (many0 p)
| bu_checked_many0 {A} (p : parser A) n : built p -> built (checked_many0 p n)
| bu_many1 {A} (p : parser A) : built p -> built (many1 p)
| bu_many_m_n {A} m n (p : parser A) : built p -> built (many_m_n m n p)
| bu_many_till {A B} (p : parser A) (e : parser B) : built p -> built e -> built (many_till p e)
| bu_fold_many0 {A B} (p : parser A) (init : B) f : built p -> built (fold_many0 p init f)
| bu_fold_many1 {A B} (p : parser A) (init : B) f : built p -> built (fold_many1 p init f)
| bu_fold_many_m_n {A B} m n (p : parser A) (init : B) f :
    built p -> built (fold_many_m_n m n p init f)
| bu_count {A} vmax (p : parser A) n : n <= vmax -> built p -> built (count vmax p n)
| bu_separated_list0 {A B} (s : parser B) (p : parser A) :
    built s -> built p -> built (separated_list0 s p)
| bu_separated_list1 {A B} (s : parser B) (p : parser A) :
    built s -> built p -> built (separated_list1 s p)
| bu_length_data np : built np -> built (length_data np)
| bu_length_value {A} np (p : parser A) : built np -> built p -> built (length_value np p)
| bu_length_count {A} vmax np (p : parser A) :
    bounded np vmax -> built np -> built p -> built (length_count vmax np p)
| bu_map {A B} (p : parser A) (f : A -> B) : built p -> built (map p f)
| bu_map_opt {A B} (p : parser A) (f : A -> option B) : built p -> built (map_opt p f)
| bu_map_parser {A} (s : parser bytes) (q : parser A) :
    Spans s -> built s -> built q -> built (map_parser s q)
| bu_flat_map {A B} (p : parser A) (f : A -> parser B) :
    built p -> (forall v, built (f v)) -> built (flat_map p f)
| bu_opt {A} (p : parser A) : built p -> built (opt p)
| bu_cond {A} b (p : parser A) : built p -> built (cond b p)
| bu_peek {A} (p : parser A) : built p -> built (peek p)
| bu_not {A} (p : parser A) : built p -> built (not_ p)
| bu_recognize {A} (p : parser A) : built p -> built (recognize p)
| bu_consumed {A} (p : parser A) : built p -> built (consumed p)
| bu_value {A B} (v : B) (p : parser A) : built p -> built (value v p)
| bu_verify {A} (p : parser A) pred : built p -> built (verify p pred)
| bu_cut {A} (p : parser A) : built p -> built (cut p)
| bu_complete {A} (p : parser A) : built p -> built (complete p)
| bu_all_consuming {A} (p : parser A) : built p -> built (all_consuming p)
| bu_context {A} label (p : parser A) : built p -> built (context label p)
with built_all : forall {Ts : list Type}, plist Ts -> Prop :=
| ba_nil : built_all PNil
| ba_cons {A Ts} (p : parser A) (ps : plist Ts) :
    built p -> built_all ps -> built_all (PCons p ps).

Scheme built_mut := Minimality for built Sort Prop
  with built_all_mut := Minimality for built_all Sort Prop.
Combined Scheme built_mutind from built_mut, built_all_mut.

Lemma built_built_all_good :
  (forall A (p : parser A), built p -> Good p) /\
  (forall Ts (ps : plist Ts), built_all ps -> AllGood ps).
Proof.
  apply built_mutind; intros; try apply _.
  - by apply (@stable_good _ p), streamable_stable.
  - apply alt_good; [done|]. apply List.Forall_forall. auto.
  - by apply count_good.
  - by apply length_count_good.
Qed.

Lemma built_good {A} (p : parser A) : built p -> Good p.
Proof. apply built_built_all_good. Qed.

(** ** The two guarantees *)



(** A list of length-prefixed records, used as the concrete grammar. *)
Definition records : parser (list bytes) := many0 (length_data be_u8).

Lemma records_built : built records.
Proof. apply bu_streamable, st_many0, st_length_data, st_read_uint. lia. Qed.

Definition sample : list Z := [2; 7; 8; 1; 9].

Lemma sample_bytes : bytes_ok sample.
Proof. repeat constructor; by vm_compute. Qed.


Lemma sample_prefix_wf :
  wf (mem_of 100 sample) (Input 100 103 100 true None 0) /\
  wf (mem_of 100 sample) (relast 105 (Input 100 103 100 true None 0)).
Proof.
  destruct (mem_of_wf 100 sample sample_bytes eq_refl) as [_ _ _ Hm].
  change (zlen sample) with 5 in Hm. cbn [i_base i_last] in Hm.
  split; constructor; cbn; try lia; intros a Ha; apply Hm; lia.
Qed.

