(* ===== verification/Columnar.v ===== *)
(** * Columnar decode kernels (columnar.hpp)

    Bit unpacking, the RLE / bit-packed hybrid decoder, DELTA_BINARY_PACKED,
    BYTE_STREAM_SPLIT and bitmap copies. A span is the list of its bytes; a
    pointer into it is an offset; a read outside the list, or a store outside
    the output, is undefined behaviour and makes the kernel [None]. *)
From S2P Require Import Prelude Parser BytesParsers Combinators CombinatorFacts Numbers.

(** ** Loads *)

(** [load_le64(in + off)]: eight bytes must be readable. *)
Definition load_le64 (l : list Z) (off : Z) : option Z :=
  if (0 <=? off) && (off + 8 <=? zlen l) then Some (le_val (ztake 8 (zdrop off l))) else None.

(** [out[i] = v] for the values [vs] from index [at]. *)
Definition store (out : list Z) (at_ : Z) (vs : list Z) : option (list Z) :=
  if (0 <=? at_) && (at_ + zlen vs <=? zlen out)
  then Some (ztake at_ out ++ vs ++ zdrop (at_ + zlen vs) out) else None.

(** ** Bit unpacking *)

(** Value [i] of a group of 8 at [in + off]. *)
Definition unpack1 (wU W : Z) (l : list Z) (off i : Z) : option Z :=
  let mask := if W =? 64 then 2 ^ 64 - 1 else 2 ^ W - 1 in
  let bit := i * W in
  if W =? 0 then Some 0
  else if W <=? 56 then
    match load_le64 l (off + bit / 8) with
    | Some v => Some (wrap wU (Z.land (Z.shiftr v (bit mod 8)) mask))
    | None => None
    end
  else
    let sh := bit mod 8 in
    match load_le64 l (off + bit / 8) with
    | Some lo =>
        if sh =? 0 then Some (wrap wU (Z.land (Z.lor (Z.shiftr lo sh) 0) mask))
        else match zget l (off + bit / 8 + 8) with
             | Some b => Some (wrap wU (Z.land (Z.lor (Z.shiftr lo sh) (u64 (Z.shiftl b (64 - sh)))) mask))
             | None => None
             end
    | None => None
    end.

Definition unpack8 (wU W : Z) (l : list Z) (off : Z) : option (list Z) :=
  mapM (unpack1 wU W l off) (seqZ 0 8).

(** The fast groups read in place, the others through a zero-padded buffer. *)
Definition padded_group (W : Z) (l : list Z) (at_ : Z) : list Z :=
  let have := if at_ <? zlen l then Z.min W (zlen l - at_) else 0 in
  ztake have (zdrop at_ l) ++ replicate (Z.to_nat (80 - have)) 0.

Definition fast_groups (W : Z) (l : list Z) (groups : Z) : Z :=
  let safe := if W + 8 <=? zlen l
              then (zlen l - (W + 8)) / (if W =? 0 then 1 else W) + 1 else 0 in
  if W =? 0 then groups else Z.min groups safe.

Definition unpack_groups (wU W : Z) (l : list Z) (groups : Z) : option (list Z) :=
  let fast := fast_groups W l groups in
  match mapM (fun g => unpack8 wU W l (g * W)) (seqZ 0 fast),
        mapM (fun g => unpack8 wU W (padded_group W l (g * W)) 0) (seqZ fast (groups - fast)) with
  | Some a, Some b => Some (concat (a ++ b))
  | _, _ => None
  end.

(** [None] is undefined behaviour, [Some None] is [false], [Some (Some out)]
    is [true] with the output updated. *)
Definition unpack_bits (wU : Z) (l : list Z) (width : Z) (out : list Z) (n : Z) :
    option (option (list Z)) :=
  if (wU <? width) || (zlen out <? n) then Some None
  else if zlen l <? (u64 (n * width) + 7) / 8 then Some None
  else
    let full := n / 8 in
    match unpack_groups wU width l full with
    | None => None
    | Some vs =>
        match store out 0 vs with
        | None => None
        | Some out1 =>
            let rem := n mod 8 in
            if rem =? 0 then Some (Some out1)
            else
              let at_ := full * width in
              match unpack_groups wU width (zdrop at_ l) 1 with
              | None => None
              | Some tmp =>
                  match store out1 (full * 8) (ztake rem tmp) with
                  | Some out2 => Some (Some out2)
                  | None => None
                  end
              end
        end
    end.

(** ** The reference: value [k] of an LSB-first stream of [w]-bit values *)
Definition packed (w : Z) (l : list Z) (k : Z) : Z := Z.shiftr (le_val l) (k * w) mod 2 ^ w.

Definition packed_values (w : Z) (l : list Z) (n : Z) : list Z := List.map (packed w l) (seqZ 0 n).

(** [n] bits from bit [start] of the integer the bytes denote. *)
Definition slice (l : list Z) (start n : Z) : Z := wrap n (Z.shiftr (le_val l) start).

Lemma packed_slice w l k : packed w l k = slice l (k * w) w.
Proof. done. Qed.

Lemma load_le64_spec l off : bytes_ok l -> 0 <= off -> off + 8 <= zlen l ->
  load_le64 l off = Some (slice l (8 * off) 64).
Proof.
  intros Hl H0 H8. unfold load_le64.
  destruct (Z.leb_spec 0 off), (Z.leb_spec (off + 8) (zlen l)); try lia. cbn [andb].
  f_equal. rewrite le_val_ztake, le_val_zdrop; auto using bytes_ok_zdrop; lia.
Qed.

Lemma mask_ones W : 0 <= W <= 64 -> (if W =? 64 then 2 ^ 64 - 1 else 2 ^ W - 1) = Z.ones W.
Proof. intros. rewrite Z.ones_equiv. destruct (Z.eqb_spec W 64) as [-> |]; lia. Qed.

Lemma unpack1_spec wU W l off i :
  bytes_ok l -> 0 <= i < 8 -> 0 <= W <= 64 -> W <= wU -> 0 <= off ->
  (W = 0 \/ off + W + 8 <= zlen l) ->
  unpack1 wU W l off i = Some (slice l (8 * off + i * W) W).
Proof.
  intros Hl Hi HW HU Hoff Hfit. unfold unpack1. cbv zeta. rewrite mask_ones by done.
  assert (Hlow : forall v, 0 <= v < 2 ^ W -> wrap wU v = v).
  { intros v Hv. apply wrap_small. assert (2 ^ W <= 2 ^ wU) by (apply Z.pow_le_mono_r; lia). lia. }
  destruct (Z.eqb_spec W 0) as [-> |HW0].
  { unfold slice, wrap. by rewrite Z.mod_1_r. }
  destruct Hfit as [|Hfit]; [lia|].
  pose proof (Z.div_mod (i * W) 8 ltac:(lia)) as Hdm.
  pose proof (Z.mod_pos_bound (i * W) 8 ltac:(lia)) as Hr.
  set (q := i * W / 8) in *. set (r := i * W mod 8) in *.
  assert (0 <= q < W) by nia.
  rewrite load_le64_spec by (done || lia). unfold slice.
  destruct (Z.leb_spec W 56).
  - f_equal. rewrite Hlow; [bitblast|]. rewrite Z.land_ones by lia. apply Z.mod_pos_bound.
    apply Z.pow_pos_nonneg; lia.
  - destruct (Z.eqb_spec r 0) as [Hr0|Hr0].
    + f_equal. rewrite Hlow; [bitblast|]. rewrite Z.land_ones by lia. apply Z.mod_pos_bound.
      apply Z.pow_pos_nonneg; lia.
    + destruct (proj2 (zget_is_Some l (off + q + 8))) as [b Hb]; [lia|]. rewrite Hb.
      rewrite (zget_le_val l _ b Hl Hb). f_equal. rewrite Hlow; [bitblast|].
      rewrite Z.land_ones by lia. apply Z.mod_pos_bound. apply Z.pow_pos_nonneg; lia.
Qed.

Section Unpack.
Context (wU W : Z) (HW : 0 <= W <= 64) (HU : W <= wU).

Lemma unpack8_spec l off : bytes_ok l -> 0 <= off -> (W = 0 \/ off + W + 8 <= zlen l) ->
  unpack8 wU W l off = Some (List.map (fun i => slice l (8 * off + i * W) W) (seqZ 0 8)).
Proof using HW HU.
  intros Hl Hoff Hfit. apply mapM_map. intros i Hi. apply in_seqZ in Hi.
  apply unpack1_spec; done || lia.
Qed.

Lemma padded_group_spec l at_ : bytes_ok l -> 0 <= at_ ->
  bytes_ok (padded_group W l at_) /\ zlen (padded_group W l at_) = 80 /\
  forall i, 0 <= i < 8 -> slice (padded_group W l at_) (i * W) W = slice l (8 * at_ + i * W) W.
Proof using HW.
  intros Hl Hat. unfold padded_group.
  set (have := if at_ <? zlen l then Z.min W (zlen l - at_) else 0).
  assert (Hh : 0 <= have <= W) by (unfold have; destruct (Z.ltb_spec at_ (zlen l)); lia).
  assert (Hb : bytes_ok (ztake have (zdrop at_ l))) by auto using bytes_ok_ztake, bytes_ok_zdrop.
  assert (Hz : zlen (ztake have (zdrop at_ l)) = have).
  { rewrite zlen_ztake, zlen_zdrop by lia. unfold have. destruct (Z.ltb_spec at_ (zlen l)); lia. }
  split_and!.
  - apply Forall_app. split; [done|apply bytes_ok_zeros].
  - rewrite zlen_app, zlen_replicate, Hz. lia.
  - intros i Hi. unfold slice. rewrite le_val_app, le_val_zeros, Z.mul_0_r, Z.add_0_r.
    destruct (Z.eq_dec have W) as [HhW|HhW].
    + rewrite le_val_ztake, le_val_zdrop by (auto using bytes_ok_zdrop || lia).
      assert (0 <= i * W) by nia. assert (i * W + W <= 8 * have) by nia.
      set (iw := i * W) in *. bitblast.
    + assert (zlen (zdrop at_ l) <= have).
      { rewrite zlen_zdrop by lia. unfold have in *. destruct (Z.ltb_spec at_ (zlen l)); lia. }
      rewrite ztake_all, le_val_zdrop by done.
      by rewrite Z.shiftr_shiftr by (apply Z.mul_nonneg_nonneg; lia).
Qed.

Lemma unpack_groups_spec l groups : bytes_ok l -> 0 <= groups ->
  unpack_groups wU W l groups = Some (packed_values W l (groups * 8)).
Proof using HW HU.
  intros Hl Hg. unfold unpack_groups. set (fast := fast_groups W l groups).
  set (G g := List.map (fun i => packed W l (g * 8 + i)) (seqZ 0 8)).
  assert (Hfast : 0 <= fast <= groups /\
    (W = 0 \/ forall g, 0 <= g < fast -> g * W + W + 8 <= zlen l)).
  { unfold fast, fast_groups. destruct (Z.eqb_spec W 0); [lia|].
    destruct (Z.leb_spec (W + 8) (zlen l)).
    - pose proof (Z.div_mod (zlen l - (W + 8)) W ltac:(lia)).
      pose proof (Z.mod_pos_bound (zlen l - (W + 8)) W ltac:(lia)).
      assert (0 <= (zlen l - (W + 8)) / W) by (apply Z.div_pos; lia).
      split; [lia|]. right. intros g Hgf. nia.
    - split; [lia|]. right. lia. }
  destruct Hfast as [Hf Hfit].
  rewrite (mapM_map _ G), (mapM_map _ G).
  - cbn [app]. f_equal. rewrite <- List.map_app. rewrite <- (Z.add_0_l fast) at 2.
    rewrite <- seqZ_app by lia.
    replace (fast + (groups - fast)) with groups by lia.
    unfold packed_values. rewrite <- (Z2Nat.id groups) by lia.
    apply (concat_map_groups (packed W l) 8). lia.
  - intros g Hgi. apply in_seqZ in Hgi.
    destruct (padded_group_spec l (g * W) Hl ltac:(nia)) as (Hb & Hz & Hs).
    rewrite unpack8_spec by (done || lia). f_equal. apply map_ext_in. intros i Hi. apply in_seqZ in Hi.
    rewrite Z.mul_0_r, Z.add_0_l, Hs, packed_slice by lia. f_equal. lia.
  - intros g Hgi. apply in_seqZ in Hgi.
    rewrite unpack8_spec; [|done|nia|destruct Hfit as [|Hfit]; [by left|right; apply Hfit; lia]].
    f_equal. apply map_ext. intros i. rewrite packed_slice. f_equal. lia.
Qed.
End Unpack.

Lemma store_spec out at_ vs : 0 <= at_ -> at_ + zlen vs <= zlen out ->
  store out at_ vs = Some (ztake at_ out ++ vs ++ zdrop (at_ + zlen vs) out).
Proof.
  intros H0 Hf. unfold store.
  by destruct (Z.leb_spec 0 at_), (Z.leb_spec (at_ + zlen vs) (zlen out)); try lia.
Qed.

Lemma zlen_packed_values w l n : 0 <= n -> zlen (packed_values w l n) = n.
Proof. intros. unfold packed_values. by rewrite zlen_map, zlen_seqZ. Qed.

Lemma packed_zdrop w l g i : bytes_ok l -> 0 <= w -> 0 <= g -> 0 <= i ->
  packed w (zdrop (g * w) l) i = packed w l (g * 8 + i).
Proof.
  intros Hl Hw Hg Hi. unfold packed. rewrite le_val_zdrop by (done || nia).
  rewrite Z.shiftr_shiftr by nia. f_equal. f_equal. lia.
Qed.

Lemma packed_values_app w l n m : 0 <= n -> 0 <= m ->
  packed_values w l (n + m) = packed_values w l n ++ List.map (fun i => packed w l (n + i)) (seqZ 0 m).
Proof.
  intros. unfold packed_values. rewrite seqZ_app, List.map_app by lia. f_equal.
  by rewrite (map_seqZ_shift (packed w l) (0 + n)).
Qed.

Lemma ztake_packed_values w l n m : 0 <= n <= m -> ztake n (packed_values w l m) = packed_values w l n.
Proof.
  intros. replace m with (n + (m - n)) by lia. rewrite packed_values_app by lia.
  apply ztake_app. by rewrite zlen_packed_values by lia.
Qed.

(** Storing over a prefix of the output. *)
Lemma store_next out1 vs out k n : zlen out1 = k -> 0 <= k -> 0 <= n -> k + n <= zlen out -> zlen vs = n ->
  store (out1 ++ zdrop k out) k vs = Some (out1 ++ vs ++ zdrop (k + n) out).
Proof.
  intros Hk H0 Hn Hf Hv. rewrite store_spec; [|done|rewrite zlen_app, zlen_zdrop; lia].
  rewrite ztake_app by done. do 3 f_equal. rewrite Hv.
  rewrite <- zdrop_zdrop, zdrop_app by lia.
  by rewrite zdrop_zdrop by lia.
Qed.

Definition fits_bits (wU width n : Z) (l out : list Z) : bool :=
  (width <=? wU) && (n <=? zlen out) && ((n * width + 7) / 8 <=? zlen l).

Lemma unpack_bits_spec wU l width out n :
  bytes_ok l -> 0 <= width -> wU <= 64 -> 0 <= n -> n * width < 2 ^ 64 ->
  unpack_bits wU l width out n =
    Some (if fits_bits wU width n l out then Some (packed_values width l n ++ zdrop n out) else None).
Proof.
  intros Hl Hw HU Hn Hov. unfold unpack_bits, fits_bits.
  rewrite wrap_small by nia. rewrite !Z.leb_antisym, <- negb_orb.
  destruct ((wU <? width) || (zlen out <? n)) eqn:Hc; [done|]. cbn [negb andb].
  apply orb_false_iff in Hc as [Hc1 Hc2]. apply Z.ltb_ge in Hc1, Hc2.
  destruct (Z.ltb_spec (zlen l) ((n * width + 7) / 8)) as [|Hlen]; [done|]. cbn [negb].
  pose proof (Z.div_mod n 8 ltac:(lia)) as Hdm. pose proof (Z.mod_pos_bound n 8 ltac:(lia)) as Hr.
  assert (0 <= n / 8) by (apply Z.div_pos; lia).
  rewrite unpack_groups_spec by (done || lia).
  set (vs := packed_values width l (n / 8 * 8)).
  assert (Hvs : zlen vs = n / 8 * 8) by (apply zlen_packed_values; lia).
  rewrite store_spec by lia. rewrite ztake_0, Z.add_0_l, app_nil_l, Hvs.
  destruct (Z.eqb_spec (n mod 8) 0) as [H0|H0].
  { unfold vs. by replace (n / 8 * 8) with n by lia. }
  rewrite unpack_groups_spec by (auto using bytes_ok_zdrop || lia).
  rewrite ztake_packed_values by lia.
  rewrite (store_next vs _ _ _ (n mod 8)) by (rewrite ?zlen_packed_values; lia).
  do 2 f_equal. rewrite app_assoc. unfold vs.
  replace (n / 8 * 8 + n mod 8) with n by lia. f_equal.
  replace n with (n / 8 * 8 + n mod 8) at 4 by lia. rewrite packed_values_app by lia. f_equal.
  unfold packed_values. apply map_ext_in. intros i Hi. apply in_seqZ in Hi.
  apply packed_zdrop; done || lia.
Qed.

(** A single-element store. *)
Lemma store1_spec out d b : 0 <= d < zlen out ->
  exists out', store out d [b] = Some out' /\ zlen out' = zlen out /\
    zget out' d = Some b /\ forall k, k <> d -> zget out' k = zget out k.
Proof.
  intros Hd. exists (<[Z.to_nat d := b]> out). unfold zlen in *. split_and!.
  - rewrite store_spec by (unfold zlen; cbn; lia). f_equal.
    rewrite insert_take_drop by lia. unfold ztake, zdrop, zlen. cbn [length]. do 3 f_equal. lia.
  - by rewrite length_insert.
  - unfold zget. destruct (Z.ltb_spec d 0); [lia|]. apply list_lookup_insert_eq. lia.
  - intros k Hk. unfold zget. destruct (Z.ltb_spec k 0); [done|]. apply list_lookup_insert_ne. lia.
Qed.

(** A store, element by element. *)
Lemma store_zget out at_ vs : 0 <= at_ -> at_ + zlen vs <= zlen out ->
  exists out', store out at_ vs = Some out' /\ zlen out' = zlen out /\
    forall k, zget out' k = if (at_ <=? k) && (k <? at_ + zlen vs) then zget vs (k - at_) else zget out k.
Proof.
  intros H0 Hf. pose proof (zlen_nonneg vs). eexists. split; [by apply store_spec|].
  assert (Hz : zlen (ztake at_ out) = at_) by (rewrite zlen_ztake; lia).
  split; [rewrite !zlen_app, zlen_zdrop, Hz; lia|]. intros k. destruct (Z.leb_spec at_ k); cbn [andb].
  - rewrite zget_app_r, Hz by lia. destruct (Z.ltb_spec k (at_ + zlen vs)).
    + by rewrite zget_app_l by lia.
    + rewrite zget_app_r, zget_zdrop by lia. f_equal. lia.
  - rewrite zget_app_l, zget_ztake by lia. done.
Qed.
