(* ===== verification/RleHybrid.v ===== *)
(** * The RLE / bit-packed hybrid decoder (columnar.hpp, section 27)

    [rle_bp_decoder] as a state record with its operations; the values a stream
    denotes by its format ([denoted], in plain numbers), as a list consumed from
    the front; and the simulation between them, for streams whose headers
    announce counts the code can hold ([countable]). Pointers are offsets into the span given to the
    constructor; [None] is undefined behaviour. *)
From S2P Require Import Prelude Parser BytesParsers Combinators CombinatorFacts Numbers Columnar.

(** The private members of [rle_bp_decoder], with the span they point into. *)
Record rle_bp_decoder := RleBp {
  d_data : list Z;
  d_p : Z;
  d_e : Z;
  d_width : Z;
  d_ok : bool;
  d_rle_value : Z;
  d_rle_left : Z;
  d_bp : Z;
  d_bp_bytes : Z;
  d_bp_pos : Z;
  d_bp_left : Z
}.

Definition new_decoder (data : list Z) (width : Z) : rle_bp_decoder :=
  RleBp data 0 (zlen data) width (width <=? 32) 0 0 0 0 0 0.

Definition set_not_ok (d : rle_bp_decoder) : rle_bp_decoder :=
  RleBp (d_data d) (d_p d) (d_e d) (d_width d) false (d_rle_value d) (d_rle_left d)
    (d_bp d) (d_bp_bytes d) (d_bp_pos d) (d_bp_left d).
Definition set_p (p : Z) (d : rle_bp_decoder) : rle_bp_decoder :=
  RleBp (d_data d) p (d_e d) (d_width d) (d_ok d) (d_rle_value d) (d_rle_left d)
    (d_bp d) (d_bp_bytes d) (d_bp_pos d) (d_bp_left d).
Definition set_rle (value left : Z) (d : rle_bp_decoder) : rle_bp_decoder :=
  RleBp (d_data d) (d_p d) (d_e d) (d_width d) (d_ok d) value left
    (d_bp d) (d_bp_bytes d) (d_bp_pos d) (d_bp_left d).
Definition set_bp (bp bytes pos left : Z) (d : rle_bp_decoder) : rle_bp_decoder :=
  RleBp (d_data d) (d_p d) (d_e d) (d_width d) (d_ok d) (d_rle_value d) (d_rle_left d)
    bp bytes pos left.

(** The cursor [from(span(p_, e_ - p_))]. *)
Definition run_input (d : rle_bp_decoder) : input := Input (d_p d) (d_e d) (d_p d) false None 0.

(** The bit-packed branch of [next_run], after the header. *)
Definition begin_packed (h : Z) (d : rle_bp_decoder) : rle_bp_decoder :=
  let groups := Z.shiftr h 1 in
  let bytes_avail := d_e d - d_p d in
  let want_bytes := if bytes_avail <? groups then u64 (bytes_avail * d_width d)
                    else u64 (groups * d_width d) in
  let run_bytes := Z.min want_bytes bytes_avail in
  let left := if negb (d_width d =? 0)
              then Z.min (u64 (groups * 8)) (u64 (run_bytes * 8) / d_width d)
              else Z.min (u64 (groups * 8)) (2 ^ 40) in
  set_p (d_p d + run_bytes) (set_bp (d_p d) run_bytes 0 left d).

(** The RLE branch. *)
Definition begin_rle (h : Z) (d : rle_bp_decoder) : option (bool * rle_bp_decoder) :=
  let vbytes := (d_width d + 7) / 8 in
  if d_e d - d_p d <? vbytes then Some (false, set_not_ok d)
  else match le_elem (Z.to_nat vbytes) 32 (mem_of 0 (d_data d)) (d_p d) 0 0 with
       | None => None
       | Some v =>
           if (d_width d <? 32) && negb (Z.shiftr v (d_width d) =? 0) then Some (false, set_not_ok d)
           else Some (true, set_rle v (Z.min (Z.shiftr h 1) (2 ^ 40)) (set_p (d_p d + vbytes) d))
       end.

Definition next_run (d : rle_bp_decoder) : option (bool * rle_bp_decoder) :=
  if d_e d <=? d_p d then Some (false, d)
  else match varint_u64 (mem_of 0 (d_data d)) (run_input d) with
       | Stop _ => None
       | Err _ => Some (false, set_not_ok d)
       | Done h r =>
           let d := set_p (i_first r) d in
           if negb (Z.land h 1 =? 0) then Some (true, begin_packed h d) else begin_rle h d
       end.

(** One round of [take_bitpacked], for [n] values wanted: the values it
    writes. A refused [unpack_bits] would leave them unwritten. *)
Definition bitpacked_round (n : Z) (d : rle_bp_decoder) : option (list Z * rle_bp_decoder) :=
  let in_group := d_bp_pos d mod 8 in
  let group_byte := d_bp_pos d / 8 * d_width d in
  if d_bp_bytes d <? group_byte then None
  else
    let l := ztake (d_bp_bytes d - group_byte) (zdrop (d_bp d + group_byte) (d_data d)) in
    let took vs := Some (vs, set_bp (d_bp d) (d_bp_bytes d) (d_bp_pos d + zlen vs)
                                 (d_bp_left d - zlen vs) d) in
    if (in_group =? 0) && (8 <=? n) && (8 <=? d_bp_left d) then
      let groups := Z.min n (d_bp_left d) / 8 in
      match unpack_bits 32 l (d_width d) (replicate (Z.to_nat (groups * 8)) 0) (groups * 8) with
      | Some (Some vs) => took vs
      | _ => None
      end
    else
      match unpack_groups 32 (d_width d) l 1 with
      | None => None
      | Some g =>
          let avail_in_group := Z.min 8 (d_bp_left d + in_group) in
          let k := Z.min (avail_in_group - in_group) n in
          took (ztake k (zdrop in_group g))
      end.

(** [while (done < n && bp_left_)]. *)
Fixpoint take_bitpacked (fuel : nat) (n : Z) (d : rle_bp_decoder) : option (list Z * rle_bp_decoder) :=
  if (n <=? 0) || (d_bp_left d =? 0) then Some ([], d)
  else match fuel with
       | O => None
       | S fuel =>
           match bitpacked_round n d with
           | None => None
           | Some (vs, d') =>
               match take_bitpacked fuel (n - zlen vs) d' with
               | None => None
               | Some (vs', d'') => Some (vs ++ vs', d'')
               end
           end
       end.

(** The loop of [get]: [n] values still wanted. *)
Fixpoint get_loop (fuel : nat) (n : Z) (d : rle_bp_decoder) : option (list Z * rle_bp_decoder) :=
  if (n <=? 0) || negb (d_ok d) then Some ([], d)
  else match fuel with
       | O => None
       | S fuel =>
           let continue vs d' :=
             match get_loop fuel (n - zlen vs) d' with
             | None => None
             | Some (vs', d'') => Some (vs ++ vs', d'')
             end in
           if negb (d_rle_left d =? 0) then
             let k := Z.min (d_rle_left d) n in
             continue (replicate (Z.to_nat k) (d_rle_value d))
               (set_rle (d_rle_value d) (d_rle_left d - k) d)
           else if negb (d_bp_left d =? 0) then
             match take_bitpacked (Z.to_nat n) n d with
             | None => None
             | Some (vs, d') => continue vs d'
             end
           else match next_run d with
                | None => None
                | Some (false, d') => Some ([], d')
                | Some (true, d') => continue [] d'
                end
       end.

(** A round of [get] yields a value or reads a header byte. *)
Definition get_fuel (n : Z) (d : rle_bp_decoder) : nat := S (Z.to_nat n + Z.to_nat (d_e d - d_p d)).

Definition get (n : Z) (d : rle_bp_decoder) : option (list Z * rle_bp_decoder) :=
  get_loop (get_fuel n d) n d.

(** [skip]: the values go to a scratch buffer of 256. *)
Fixpoint skip_loop (fuel : nat) (n : Z) (d : rle_bp_decoder) : option (Z * rle_bp_decoder) :=
  if n <=? 0 then Some (0, d)
  else match fuel with
       | O => None
       | S fuel =>
           match get (Z.min 256 n) d with
           | None => None
           | Some (vs, d') =>
               if zlen vs =? 0 then Some (0, d')
               else match skip_loop fuel (n - zlen vs) d' with
                    | None => None
                    | Some (k, d'') => Some (zlen vs + k, d'')
                    end
           end
       end.

Definition skip (n : Z) (d : rle_bp_decoder) : option (Z * rle_bp_decoder) := skip_loop (Z.to_nat n) n d.

(** [struct run], and [next_run(run&, max_values)]. *)
Record run_view := RunView {
  rv_packed : bool;
  rv_value : Z;
  rv_count : Z;
  rv_bits : list Z;
  rv_bit_offset : Z
}.

Fixpoint next_run_view_loop (fuel : nat) (max_values : Z) (d : rle_bp_decoder) :
    option (option run_view * rle_bp_decoder) :=
  if negb (d_ok d) || (max_values <=? 0) then Some (None, d)
  else match fuel with
       | O => None
       | S fuel =>
           if negb (d_rle_left d =? 0) then
             let c := Z.min (d_rle_left d) max_values in
             Some (Some (RunView false (d_rle_value d) c [] 0),
                   set_rle (d_rle_value d) (d_rle_left d - c) d)
           else if negb (d_bp_left d =? 0) then
             let c := Z.min (d_bp_left d) max_values in
             let bit := d_bp_pos d * d_width d in
             if d_bp_bytes d <? bit / 8 then None
             else Some (Some (RunView true 0 c
                    (ztake (d_bp_bytes d - bit / 8) (zdrop (d_bp d + bit / 8) (d_data d))) (bit mod 8)),
                  set_bp (d_bp d) (d_bp_bytes d) (d_bp_pos d + c) (d_bp_left d - c) d)
           else match next_run d with
                | None => None
                | Some (false, d') => Some (None, d')
                | Some (true, d') => next_run_view_loop fuel max_values d'
                end
       end.

Definition next_run_view (max_values : Z) (d : rle_bp_decoder) : option (option run_view * rle_bp_decoder) :=
  next_run_view_loop (S (Z.to_nat (d_e d - d_p d))) max_values d.

(** ** The values the decoder takes a stream for *)

(** The first run of [l]: its values and what follows, or [None] at the end
    of the data and on malformed input. The value count of a bit-packed run
    is what the header says, multiplied in 64 bits as the code does, and what
    the bytes present can hold. *)
Definition first_run (w : Z) (l : list Z) : option (list Z * list Z) :=
  match varint_at 64 l with
  | None => None
  | Some (h, k) =>
      let t := zdrop k l in
      if Z.odd h then
        let groups := h / 2 in
        let run_bytes := Z.min (groups * w) (zlen t) in
        let count := if w =? 0 then Z.min (u64 (groups * 8)) (2 ^ 40)
                     else Z.min (u64 (groups * 8)) (run_bytes * 8 / w) in
        Some (packed_values w (ztake run_bytes t) count, zdrop run_bytes t)
      else
        let vbytes := (w + 7) / 8 in
        let v := le_val (ztake vbytes t) in
        if (zlen t <? vbytes) || (2 ^ w <=? v) then None
        else Some (replicate (Z.to_nat (Z.min (h / 2) (2 ^ 40))) v, zdrop vbytes t)
  end.

Fixpoint hybrid_fuel (fuel : nat) (w : Z) (l : list Z) : list Z :=
  match fuel with
  | O => []
  | S fuel => match first_run w l with
              | None => []
              | Some (vs, t) => vs ++ hybrid_fuel fuel w t
              end
  end.

Definition hybrid (w : Z) (l : list Z) : list Z := hybrid_fuel (S (length l)) w l.

Lemma first_run_shrinks w l vs t : 0 <= w -> first_run w l = Some (vs, t) -> zlen t < zlen l.
Proof.
  intros Hw. unfold first_run. destruct (varint_at 64 l) as [[h k]|] eqn:Hv; [|done].
  apply varint_at_range in Hv as [Hh Hk].
  assert (zlen (zdrop k l) = zlen l - k) by (rewrite zlen_zdrop; lia).
  assert (Hd : forall n, 0 <= n -> zlen (zdrop n (zdrop k l)) < zlen l)
    by (intros n Hn; rewrite zlen_zdrop; lia).
  assert (0 <= (w + 7) / 8) by (apply Z.div_pos; lia).
  destruct (Z.odd h).
  - intros [= <- <-]. apply Hd. assert (0 <= h / 2) by (apply Z.div_pos; lia).
    apply Z.min_glb; [nia|lia].
  - destruct (_ || _); [done|]. intros [= <- <-]. by apply Hd.
Qed.

Lemma hybrid_fuel_enough w fuel1 fuel2 l : 0 <= w -> (length l < fuel1)%nat -> (length l < fuel2)%nat ->
  hybrid_fuel fuel1 w l = hybrid_fuel fuel2 w l.
Proof.
  intros Hw. revert fuel2 l. induction fuel1 as [|f1 IH]; intros f2 l H1 H2; [lia|].
  destruct f2 as [|f2]; [lia|]. cbn. destruct (first_run w l) as [[vs t]|] eqn:Hf; [|done].
  apply first_run_shrinks in Hf; [|done]. unfold zlen in Hf. f_equal. apply IH; lia.
Qed.

Lemma hybrid_eq w l : 0 <= w ->
  hybrid w l = match first_run w l with None => [] | Some (vs, t) => vs ++ hybrid w t end.
Proof.
  intros Hw. unfold hybrid at 1. cbn [hybrid_fuel]. destruct (first_run w l) as [[vs t]|] eqn:Hf; [|done].
  apply first_run_shrinks in Hf; [|done]. unfold zlen in Hf. f_equal.
  apply hybrid_fuel_enough; [done|lia|lia].
Qed.

(** ** The invariant and the values still to come *)
Record inv (d : rle_bp_decoder) : Prop := Inv {
  inv_bytes : bytes_ok (d_data d);
  inv_size : zlen (d_data d) < 2 ^ 58;
  inv_p : 0 <= d_p d <= d_e d;
  inv_e : d_e d = zlen (d_data d);
  inv_width : 0 <= d_width d;
  inv_ok : if d_ok d then d_width d <= 32 else d_rle_left d = 0 /\ d_bp_left d = 0;
  inv_rle : 0 <= d_rle_left d;
  inv_bp : 0 <= d_bp d /\ 0 <= d_bp_bytes d /\ d_bp d + d_bp_bytes d <= d_e d;
  inv_pos : 0 <= d_bp_pos d /\ 0 <= d_bp_left d;
  inv_fits : (d_bp_pos d + d_bp_left d) * d_width d <= 8 * d_bp_bytes d;
  inv_value : 0 <= d_rle_value d < 2 ^ 32
}.

Definition run_bytes (d : rle_bp_decoder) : list Z := ztake (d_bp_bytes d) (zdrop (d_bp d) (d_data d)).

Definition packed_left (d : rle_bp_decoder) : list Z :=
  List.map (fun i => packed (d_width d) (run_bytes d) (d_bp_pos d + i)) (seqZ 0 (d_bp_left d)).

Definition pending (d : rle_bp_decoder) : list Z :=
  replicate (Z.to_nat (d_rle_left d)) (d_rle_value d) ++ packed_left d ++
  (if d_ok d then hybrid (d_width d) (zdrop (d_p d) (d_data d)) else []).

Lemma new_decoder_inv data w : bytes_ok data -> zlen data < 2 ^ 58 -> 0 <= w -> inv (new_decoder data w).
Proof.
  intros Hb Hs Hw. pose proof (zlen_nonneg data). constructor; cbn; try done; try lia.
  destruct (Z.leb_spec w 32); lia.
Qed.

Lemma new_decoder_pending data w :
  pending (new_decoder data w) = if w <=? 32 then hybrid w data else [].
Proof. unfold pending, packed_left; cbn. by rewrite zdrop_0. Qed.

(** ** Refinement *)
Lemma run_bytes_ok d : inv d -> bytes_ok (run_bytes d) /\ zlen (run_bytes d) = d_bp_bytes d.
Proof.
  intros [Hb _ _ He _ _ _ Hbp _ _]. unfold run_bytes. split; [auto using bytes_ok_ztake, bytes_ok_zdrop|].
  rewrite zlen_ztake, zlen_zdrop by lia. lia.
Qed.

(** Taking [k] values off the front of the current bit-packed run. *)
Definition advance_bp (k : Z) (d : rle_bp_decoder) : rle_bp_decoder :=
  set_bp (d_bp d) (d_bp_bytes d) (d_bp_pos d + k) (d_bp_left d - k) d.

Lemma advance_bp_inv k d : inv d -> 0 <= k <= d_bp_left d -> inv (advance_bp k d).
Proof.
  intros [] Hk. constructor; cbn; try done; try lia.
  destruct (d_ok d); [done|]. lia.
Qed.

Lemma advance_bp_left k d : 0 <= k <= d_bp_left d ->
  packed_left (advance_bp k d) = zdrop k (packed_left d).
Proof.
  intros Hk. unfold packed_left. rewrite zdrop_map_seqZ by lia. cbn. apply map_ext. intros i.
  f_equal. lia.
Qed.

Lemma bitpacked_round_spec n d : inv d -> d_ok d = true -> 0 < n -> 0 < d_bp_left d ->
  exists k, 1 <= k <= Z.min n (d_bp_left d) /\
    bitpacked_round n d = Some (ztake k (packed_left d), advance_bp k d).
Proof.
  intros Hd Hok Hn Hleft. destruct (run_bytes_ok d Hd) as [Hrb Hrl].
  pose proof (inv_width d Hd). pose proof (inv_pos d Hd) as [Hpos _]. pose proof (inv_fits d Hd) as Hfit.
  pose proof (inv_ok d Hd) as Hw32. rewrite Hok in Hw32. pose proof (inv_size d Hd).
  pose proof (inv_bp d Hd) as (Hbp0 & Hbb0 & Hbpe). pose proof (inv_e d Hd).
  unfold bitpacked_round. set (w := d_width d) in *.
  pose proof (Z.div_mod (d_bp_pos d) 8 ltac:(lia)) as Hdm.
  pose proof (Z.mod_pos_bound (d_bp_pos d) 8 ltac:(lia)) as Hm.
  set (q := d_bp_pos d / 8) in *. set (r := d_bp_pos d mod 8) in *.
  assert (0 <= q) by (apply Z.div_pos; lia). assert (Hgb : 0 <= q * w <= d_bp_bytes d) by nia.
  destruct (Z.ltb_spec (d_bp_bytes d) (q * w)); [lia|].
  assert (Hl : ztake (d_bp_bytes d - q * w) (zdrop (d_bp d + q * w) (d_data d)) = zdrop (q * w) (run_bytes d)).
  { unfold run_bytes. rewrite zdrop_ztake, zdrop_zdrop by lia. done. }
  rewrite Hl. set (l := zdrop (q * w) (run_bytes d)).
  assert (Hlb : bytes_ok l) by (by apply bytes_ok_zdrop).
  assert (Hll : zlen l = d_bp_bytes d - q * w) by (unfold l; rewrite zlen_zdrop; lia).
  assert (Hpk : forall i, 0 <= i -> packed w l i = packed w (run_bytes d) (q * 8 + i))
    by (intros; by apply packed_zdrop).
  assert (Htake : forall k, 0 <= k <= d_bp_left d -> ztake k (packed_left d) =
    List.map (fun i => packed w (run_bytes d) (d_bp_pos d + i)) (seqZ 0 k))
    by (intros; unfold packed_left; by rewrite ztake_map_seqZ by lia).
  assert (Hslow : exists k, 1 <= k <= Z.min n (d_bp_left d) /\
    match unpack_groups 32 w l 1 with
    | None => None
    | Some g =>
        let vs := ztake (Z.min (Z.min 8 (d_bp_left d + r) - r) n) (zdrop r g) in
        Some (vs, advance_bp (zlen vs) d)
    end = Some (ztake k (packed_left d), advance_bp k d)).
  { set (k := Z.min (Z.min 8 (d_bp_left d + r) - r) n).
    exists k. split; [lia|]. rewrite unpack_groups_spec by (done || lia).
    assert (Hvs : ztake k (zdrop r (packed_values w l (1 * 8))) = ztake k (packed_left d)).
    { unfold packed_values. rewrite zdrop_map_seqZ, ztake_map_seqZ, Htake by lia.
      apply map_ext_in. intros i Hi. apply in_seqZ in Hi. rewrite Hpk by lia. f_equal. lia. }
    cbv zeta. rewrite Hvs, Htake, zlen_map, zlen_seqZ by lia. done. }
  destruct (Z.eqb_spec r 0) as [Hr0|Hr0]; cbn [andb]; [|exact Hslow].
  destruct (Z.leb_spec 8 n); cbn [andb]; [|exact Hslow].
  destruct (Z.leb_spec 8 (d_bp_left d)) as [Hl8|]; [|exact Hslow].
  set (groups := Z.min n (d_bp_left d) / 8).
  pose proof (Z.div_mod (Z.min n (d_bp_left d)) 8 ltac:(lia)) as Hgd.
  pose proof (Z.mod_pos_bound (Z.min n (d_bp_left d)) 8 ltac:(lia)). fold groups in Hgd.
  assert (1 <= groups) by (apply Z.div_le_lower_bound; lia).
  rewrite unpack_bits_spec by (done || nia).
  unfold fits_bits. rewrite zlen_replicate.
  destruct (Z.leb_spec w 32); [|lia].
  destruct (Z.leb_spec (groups * 8) (Z.of_nat (Z.to_nat (groups * 8)))); [|lia].
  replace ((groups * 8 * w + 7) / 8) with (groups * w)
    by (apply (Z.div_unique _ _ _ 7); lia).
  destruct (Z.leb_spec (groups * w) (zlen l)); [|nia]. cbn [andb].
  rewrite zdrop_all by (rewrite zlen_replicate; lia). rewrite app_nil_r, zlen_packed_values by lia.
  exists (groups * 8). split; [lia|]. rewrite Htake by lia. do 2 f_equal.
  unfold packed_values. apply map_ext_in. intros i Hi. apply in_seqZ in Hi.
  rewrite Hpk by lia. f_equal. lia.
Qed.

Lemma advance_bp_advance_bp j k d : advance_bp j (advance_bp k d) = advance_bp (k + j) d.
Proof. unfold advance_bp, set_bp; cbn. f_equal; lia. Qed.

Lemma advance_bp_0 d : advance_bp 0 d = d.
Proof. destruct d. unfold advance_bp, set_bp; cbn. f_equal; lia. Qed.

Lemma take_bitpacked_spec fuel n d : inv d -> d_ok d = true -> n <= Z.of_nat fuel -> 0 <= n ->
  take_bitpacked fuel n d =
    Some (ztake (Z.min n (d_bp_left d)) (packed_left d), advance_bp (Z.min n (d_bp_left d)) d).
Proof.
  revert n d. induction fuel as [|fuel IH]; intros n d Hd Hok Hf Hn.
  all: pose proof (inv_pos d Hd) as [_ Hleft]; cbn [take_bitpacked].
  all: destruct (Z.leb_spec n 0), (Z.eqb_spec (d_bp_left d) 0); cbn [orb];
    try (replace (Z.min n (d_bp_left d)) with 0 by lia; by rewrite advance_bp_0); try lia.
  destruct (bitpacked_round_spec n d) as (k & Hk & ->); [done|done|lia|lia|].
  assert (Hzl : zlen (packed_left d) = d_bp_left d)
    by (unfold packed_left; rewrite zlen_map, zlen_seqZ; lia).
  rewrite zlen_ztake, Hzl by lia. replace (Z.min k (d_bp_left d)) with k by lia.
  rewrite IH; [|by apply advance_bp_inv; [|lia]|done|lia|lia].
  rewrite advance_bp_left by lia. cbn [advance_bp set_bp d_bp_left].
  rewrite advance_bp_advance_bp.
  replace (k + Z.min (n - k) (d_bp_left d - k)) with (Z.min n (d_bp_left d)) by lia.
  do 2 f_equal. rewrite <- (ztake_zdrop k (packed_left d)) at 3.
  rewrite ztake_app_r by (rewrite zlen_ztake; lia). f_equal.
  rewrite zlen_ztake, Hzl by lia. f_equal. lia.
Qed.

(** What a header leaves the decoder with: the first run of the rest, and a
    cursor behind it. *)
Definition run_values (d : rle_bp_decoder) : list Z :=
  replicate (Z.to_nat (d_rle_left d)) (d_rle_value d) ++ packed_left d.

Record starts (d : rle_bp_decoder) (vs t : list Z) (d' : rle_bp_decoder) : Prop := Starts {
  st_inv : inv d';
  st_ok : d_ok d' = true;
  st_width : d_width d' = d_width d;
  st_values : run_values d' = vs;
  st_rest : zdrop (d_p d') (d_data d') = t;
  st_p : d_p d < d_p d' /\ d_e d' = d_e d
}.

Lemma begin_packed_spec d h : inv d -> d_ok d = true -> d_rle_left d = 0 -> 0 <= h < 2 ^ 64 ->
  let t := zdrop (d_p d) (d_data d) in let w := d_width d in
  let n := Z.min (h / 2 * w) (zlen t) in
  let c := if w =? 0 then Z.min (u64 (h / 2 * 8)) (2 ^ 40) else Z.min (u64 (h / 2 * 8)) (n * 8 / w) in
  let d' := begin_packed h d in
  inv d' /\ d_ok d' = true /\ d_width d' = w /\ run_values d' = packed_values w (ztake n t) c /\
  zdrop (d_p d') (d_data d') = zdrop n t /\ d_p d' = d_p d + n /\ d_e d' = d_e d.
Proof.
  intros Hd Hok Hrle Hh t w n c. pose proof Hd as [Hb Hs Hp He Hw Hok' _ _ _ _]. rewrite Hok in Hok'.
  assert (Hzt : zlen t = d_e d - d_p d) by (unfold t; rewrite zlen_zdrop; lia).
  assert (Hg : 0 <= h / 2 < 2 ^ 63) by (split; [apply Z.div_pos; lia|apply Z.div_lt_upper_bound; lia]).
  assert (Hn : 0 <= n <= zlen t) by (pose proof (zlen_nonneg t); unfold n; nia).
  assert (Hrun : Z.min (if d_e d - d_p d <? Z.shiftr h 1 then u64 ((d_e d - d_p d) * w)
    else u64 (Z.shiftr h 1 * w)) (d_e d - d_p d) = n).
  { rewrite Z.shiftr_div_pow2 by lia. change (2 ^ 1) with 2. rewrite <- Hzt.
    destruct (Z.ltb_spec (zlen t) (h / 2)); rewrite wrap_small by nia; unfold n; [|done].
    destruct (Z.eq_dec w 0) as [-> |]; [lia|nia]. }
  assert (Hc : (if negb (w =? 0) then Z.min (u64 (Z.shiftr h 1 * 8)) (u64 (n * 8) / w)
    else Z.min (u64 (Z.shiftr h 1 * 8)) (2 ^ 40)) = c).
  { rewrite Z.shiftr_div_pow2 by lia. change (2 ^ 1) with 2. rewrite (wrap_small 64 (n * 8)) by lia.
    unfold c. by destruct (w =? 0). }
  assert (Hc0 : 0 <= c /\ c * w <= 8 * n).
  { pose proof (wrap_range 64 (h / 2 * 8) ltac:(lia)). unfold c. destruct (Z.eqb_spec w 0) as [-> |]; [lia|].
    assert (0 <= n * 8 / w) by (apply Z.div_pos; lia).
    pose proof (Z.mul_div_le (n * 8) w ltac:(lia)). split; [lia|nia]. }
  unfold begin_packed. fold w. cbv zeta. rewrite Hrun, Hc. cbn.
  split_and!; try done.
  - constructor; cbn; try done; try lia. by rewrite Hok.
  - unfold run_values, packed_left, run_bytes. cbn. rewrite Hrle. done.
  - unfold t. by rewrite zdrop_zdrop by lia.
Qed.

Lemma le_elem_list l p n : bytes_ok l -> 0 <= p -> 0 <= n <= 4 -> p + n <= zlen l ->
  le_elem (Z.to_nat n) 32 (mem_of 0 l) p 0 0 = Some (le_val (ztake n (zdrop p l))).
Proof.
  intros Hl Hp Hn Hpn. set (k := ztake n (zdrop p l)).
  assert (Hz : zlen k = n) by (unfold k; rewrite zlen_ztake, zlen_zdrop; lia).
  replace (Z.to_nat n) with (length k) by (unfold zlen in Hz; lia).
  rewrite le_elem_spec; try lia.
  - f_equal. lia.
  - unfold k. auto using bytes_ok_ztake, bytes_ok_zdrop.
  - rewrite Z.add_0_r. apply (holds_zdrop _ _ _ (zdrop n (zdrop p l))); [done|]. unfold k. by rewrite ztake_zdrop.
Qed.

Lemma set_not_ok_spec d : inv d -> d_rle_left d = 0 -> d_bp_left d = 0 ->
  inv (set_not_ok d) /\ pending (set_not_ok d) = [].
Proof.
  intros [] Hrle Hbp. split; [constructor; cbn; try done; lia|].
  unfold pending, packed_left; cbn. by rewrite Hrle, Hbp.
Qed.

(** The width check of an RLE value. *)
Lemma rle_value_check w v : 0 <= w <= 32 -> 0 <= v < 2 ^ 32 ->
  (w <? 32) && negb (Z.shiftr v w =? 0) = (2 ^ w <=? v).
Proof.
  intros Hw Hv. rewrite Z.shiftr_div_pow2 by lia. assert (0 < 2 ^ w) by (apply Z.pow_pos_nonneg; lia).
  destruct (Z.ltb_spec w 32); cbn [andb].
  - destruct (Z.leb_spec (2 ^ w) v); [|by rewrite Z.div_small by lia].
    destruct (Z.eqb_spec (v / 2 ^ w) 0) as [Hq|]; [|done]. apply Z.div_small_iff in Hq; lia.
  - replace w with 32 by lia. destruct (Z.leb_spec (2 ^ 32) v); [lia|done].
Qed.

Lemma begin_rle_spec d h : inv d -> d_ok d = true -> d_rle_left d = 0 -> d_bp_left d = 0 -> 0 <= h ->
  let t := zdrop (d_p d) (d_data d) in let w := d_width d in
  let vb := (w + 7) / 8 in let v := le_val (ztake vb t) in
  if (zlen t <? vb) || (2 ^ w <=? v) then exists d', begin_rle h d = Some (false, d') /\ inv d' /\ pending d' = []
  else exists d', begin_rle h d = Some (true, d') /\ inv d' /\ d_ok d' = true /\ d_width d' = w /\
    run_values d' = replicate (Z.to_nat (Z.min (h / 2) (2 ^ 40))) v /\
    zdrop (d_p d') (d_data d') = zdrop vb t /\ d_p d' = d_p d + vb /\ d_e d' = d_e d.
Proof.
  intros Hd Hok Hrle Hbp Hh t w vb v. pose proof Hd as [Hb Hs Hp He Hw Hok' _ Hbpb Hpos Hfit].
  rewrite Hok in Hok'. fold w in Hw, Hok'.
  assert (Hzt : zlen t = d_e d - d_p d) by (unfold t; rewrite zlen_zdrop; lia).
  assert (Hvb : 0 <= vb <= 4).
  { unfold vb. split; [apply Z.div_pos; lia|]. apply Z.lt_succ_r, Z.div_lt_upper_bound; lia. }
  assert (Htb : bytes_ok t) by (by apply bytes_ok_zdrop).
  assert (Hv : 0 <= v < 2 ^ 32).
  { unfold v. rewrite le_val_ztake by (done || lia). pose proof (wrap_range (8 * vb) (le_val t) ltac:(lia)).
    assert (2 ^ (8 * vb) <= 2 ^ 32) by (apply Z.pow_le_mono_r; lia). lia. }
  pose proof (set_not_ok_spec d Hd Hrle Hbp) as Hbad.
  unfold begin_rle. fold w vb. rewrite <- Hzt. destruct (Z.ltb_spec (zlen t) vb); cbn [orb];
    [by exists (set_not_ok d)|].
  rewrite le_elem_list by (done || lia). fold t v. rewrite rle_value_check by lia.
  destruct (Z.leb_spec (2 ^ w) v); [by exists (set_not_ok d)|].
  rewrite Z.shiftr_div_pow2 by lia. change (2 ^ 1) with 2.
  assert (0 <= h / 2) by (apply Z.div_pos; lia).
  eexists. split; [done|]. cbn. split_and!; try done.
  - constructor; cbn; try done; try lia. by rewrite Hok.
  - unfold run_values, packed_left; cbn. rewrite Hbp. by rewrite app_nil_r.
  - unfold t. by rewrite zdrop_zdrop by lia.
Qed.

Lemma next_run_spec d : inv d -> d_ok d = true -> d_rle_left d = 0 -> d_bp_left d = 0 ->
  match first_run (d_width d) (zdrop (d_p d) (d_data d)) with
  | Some (vs, t) => exists d', next_run d = Some (true, d') /\ starts d vs t d'
  | None => exists d', next_run d = Some (false, d') /\ inv d' /\ pending d' = []
  end.
Proof.
  intros Hd Hok Hrle Hbp. pose proof Hd as [Hb Hs Hp He Hw Hok' _ Hbpb Hpos Hfit]. rewrite Hok in Hok'.
  set (l := zdrop (d_p d) (d_data d)).
  assert (Hzl : zlen l = d_e d - d_p d) by (unfold l; rewrite zlen_zdrop; lia).
  unfold next_run, first_run. destruct (Z.leb_spec (d_e d) (d_p d)) as [Hend|Hend].
  { assert (Hnil : l = []) by (unfold l; apply zdrop_all; lia). rewrite Hnil. cbn. exists d.
    split_and!; [done..|].
    unfold pending, packed_left. rewrite Hrle, Hbp, Hok. fold l. rewrite Hnil. by rewrite hybrid_eq. }
  pose proof (read_uleb128_at 64 (d_data d) (run_input d) ltac:(lia) Hb ltac:(cbn; lia)
    ltac:(cbn; lia) ltac:(lia)) as Hv. cbn [run_input i_first] in Hv. fold l in Hv.
  destruct (varint_at 64 l) as [[h k]|] eqn:Hvar.
  2: { destruct Hv as [e Hv]. unfold varint_u64. rewrite Hv. exists (set_not_ok d).
       split; [done|]. by apply set_not_ok_spec. }
  unfold varint_u64. rewrite Hv. apply varint_at_range in Hvar as [Hh Hk].
  cbn [i_first advance run_input]. set (d1 := set_p (d_p d + k) d).
  assert (Hd1 : inv d1) by (constructor; cbn; try done; try lia; by rewrite Hok).
  assert (Ht : zdrop (d_p d1) (d_data d1) = zdrop k l) by (unfold l; cbn; by rewrite zdrop_zdrop by lia).
  assert (Hodd : negb (Z.land h 1 =? 0) = Z.odd h).
  { change 1 with (Z.ones 1). rewrite Z.land_ones by lia. change (2 ^ 1) with 2.
    rewrite Zmod_odd. by destruct (Z.odd h). }
  rewrite Hodd. destruct (Z.odd h).
  - destruct (begin_packed_spec d1 h) as (H1 & H2 & H3 & H4 & H5 & H6 & H7); [done..|].
    rewrite Ht in *. cbn [d1 set_p d_width] in *.
    eexists. split; [done|]. constructor; try done. rewrite H6, H7. cbn.
    pose proof (zlen_nonneg (zdrop k l)). assert (0 <= h / 2) by (apply Z.div_pos; lia). nia.
  - pose proof (begin_rle_spec d1 h Hd1 Hok Hrle Hbp ltac:(lia)) as Hr. rewrite Ht in Hr. cbv zeta in Hr.
    cbn [d1 set_p d_width] in Hr. destruct (_ || _); [exact Hr|].
    destruct Hr as (d' & H1 & H2 & H3 & H4 & H5 & H6 & H7 & H8).
    exists d'. split; [exact H1|]. constructor; try done. rewrite H7, H8. cbn.
    assert (0 <= (d_width d + 7) / 8) by (apply Z.div_pos; lia). lia.
Qed.

Lemma pending_eq d : pending d = run_values d ++
  (if d_ok d then hybrid (d_width d) (zdrop (d_p d) (d_data d)) else []).
Proof. unfold pending, run_values. by rewrite app_assoc. Qed.

Lemma pending_starts d vs t d' : starts d vs t d' -> 0 <= d_width d ->
  pending d' = vs ++ hybrid (d_width d) t.
Proof. intros [] ?. rewrite pending_eq. by rewrite st_ok0, st_values0, st_rest0, st_width0. Qed.

Lemma ztake_split {A} k n (l : list A) : 0 <= k <= n -> k <= zlen l ->
  ztake k l ++ ztake (n - k) (zdrop k l) = ztake n l.
Proof.
  intros Hk Hl. rewrite <- (ztake_zdrop k l) at 3.
  rewrite ztake_app_r by (rewrite zlen_ztake; lia). do 2 f_equal. rewrite zlen_ztake; lia.
Qed.

(** The decoder [d'] is [d] with [k] values taken. *)
Record took (k : Z) (d d' : rle_bp_decoder) : Prop := Took {
  took_inv : inv d';
  took_pending : pending d' = zdrop k (pending d);
  took_le : k <= zlen (pending d);
  took_p : d_p d' = d_p d /\ d_e d' = d_e d
}.

Lemma took_rle k d : inv d -> 0 <= k <= d_rle_left d -> d_ok d = true ->
  took k d (set_rle (d_rle_value d) (d_rle_left d - k) d) /\
  ztake k (pending d) = replicate (Z.to_nat k) (d_rle_value d).
Proof.
  intros Hd Hk Hok. unfold pending. split.
  - constructor; try done.
    + destruct Hd. constructor; cbn; try done; try lia. by rewrite Hok in *.
    + unfold pending; cbn. rewrite zdrop_app_l by (rewrite zlen_replicate; lia).
      rewrite zdrop_replicate by lia. do 2 f_equal. lia.
    + unfold pending. rewrite zlen_app, zlen_replicate. pose proof (zlen_nonneg (packed_left d ++
        (if d_ok d then hybrid (d_width d) (zdrop (d_p d) (d_data d)) else []))). lia.
  - rewrite ztake_app_l by (rewrite zlen_replicate; lia). apply ztake_replicate. lia.
Qed.

Lemma took_bp k d : inv d -> d_rle_left d = 0 -> 0 <= k <= d_bp_left d ->
  took k d (advance_bp k d) /\ ztake k (pending d) = ztake k (packed_left d).
Proof.
  intros Hd Hrle Hk.
  assert (Hz : zlen (packed_left d) = d_bp_left d)
    by (unfold packed_left; rewrite zlen_map, zlen_seqZ; lia).
  assert (Hp : pending d = packed_left d ++
    (if d_ok d then hybrid (d_width d) (zdrop (d_p d) (d_data d)) else []))
    by (unfold pending; by rewrite Hrle).
  split; [|rewrite Hp; by rewrite ztake_app_l by lia].
  constructor; try done.
  - apply advance_bp_inv; [done|lia].
  - rewrite Hp, zdrop_app_l by lia. unfold pending; cbn [d_rle_left d_ok d_width d_p d_data advance_bp set_bp].
    rewrite Hrle. change (set_bp _ _ _ _ d) with (advance_bp k d). by rewrite advance_bp_left by lia.
  - rewrite Hp, zlen_app. pose proof (zlen_nonneg
      (if d_ok d then hybrid (d_width d) (zdrop (d_p d) (d_data d)) else [])). lia.
Qed.

Lemma get_loop_spec fuel n d : inv d -> 0 <= n -> n + (d_e d - d_p d) < Z.of_nat fuel ->
  exists d', get_loop fuel n d = Some (ztake n (pending d), d') /\ inv d' /\
    pending d' = zdrop n (pending d).
Proof.
  revert n d. induction fuel as [|fuel IH]; intros n d Hd Hn Hf.
  all: pose proof (inv_p d Hd) as Hp; pose proof (inv_rle d Hd) as Hrl; pose proof (inv_pos d Hd) as [_ Hbl].
  { lia. }
  cbn [get_loop]. destruct (Z.leb_spec n 0).
  { replace n with 0 by lia. exists d. by rewrite ztake_0, zdrop_0. }
  destruct (d_ok d) eqn:Hok; cbn [negb orb].
  2: { exists d. pose proof (inv_ok d Hd) as Ho. rewrite Hok in Ho. destruct Ho as [Hr Hb].
       assert (pending d = []) as -> by (unfold pending, packed_left; by rewrite Hr, Hb, Hok).
       unfold ztake, zdrop. by rewrite take_nil, drop_nil. }
  assert (Hgo : forall k d1, took k d d1 -> 1 <= k <= n ->
    exists d', match get_loop fuel (n - zlen (ztake k (pending d))) d1 with
      | Some (vs', d'') => Some (ztake k (pending d) ++ vs', d'') | None => None end =
      Some (ztake n (pending d), d') /\ inv d' /\ pending d' = zdrop n (pending d)).
  { intros k d1 [Hi Hpend Hle [Hp1 He1]] Hk.
    destruct (IH (n - k) d1 Hi) as (d' & Hg & Hi' & Hp'); [lia|lia|].
    exists d'. rewrite zlen_ztake by lia. replace (Z.min k (zlen (pending d))) with k by lia.
    rewrite Hg, Hpend. rewrite ztake_split by lia. split_and!; [done..|].
    rewrite Hp', Hpend, zdrop_zdrop by lia. f_equal. lia. }
  destruct (Z.eqb_spec (d_rle_left d) 0) as [Hr|Hr]; cbn [negb].
  2: { destruct (took_rle (Z.min (d_rle_left d) n) d) as [Ht <-]; [done|lia|done|]. by apply Hgo; [|lia]. }
  destruct (Z.eqb_spec (d_bp_left d) 0) as [Hb|Hb]; cbn [negb].
  2: { rewrite take_bitpacked_spec by (done || lia).
       destruct (took_bp (Z.min n (d_bp_left d)) d) as [Ht <-]; [done|done|lia|]. by apply Hgo; [|lia]. }
  assert (Hpd : pending d = hybrid (d_width d) (zdrop (d_p d) (d_data d)))
    by (unfold pending, packed_left; by rewrite Hr, Hb, Hok).
  pose proof (next_run_spec d Hd Hok Hr Hb) as Hnx. pose proof (inv_width d Hd).
  rewrite hybrid_eq in Hpd by done.
  destruct (first_run (d_width d) (zdrop (d_p d) (d_data d))) as [[vs t]|].
  - destruct Hnx as (d1 & -> & Hst). pose proof (pending_starts _ _ _ _ Hst ltac:(done)) as Hp1.
    rewrite <- Hpd in Hp1. destruct Hst as [Hi1 _ _ _ _ [Hpp He1]].
    destruct (IH n d1 Hi1) as (d' & Hg & Hi' & Hp'); [lia|lia|].
    exists d'. change (zlen []) with 0. rewrite Z.sub_0_r, Hg, Hp1. cbn [app].
    split_and!; [done..|congruence].
  - destruct Hnx as (d1 & -> & Hi1 & Hp1). exists d1. rewrite Hpd, Hp1.
    unfold ztake, zdrop. rewrite take_nil, drop_nil. split_and!; try done.
Qed.

Lemma get_spec d n : inv d -> 0 <= n ->
  exists d', get n d = Some (ztake n (pending d), d') /\ inv d' /\ pending d' = zdrop n (pending d).
Proof. intros Hd Hn. apply get_loop_spec; [done..|]. unfold get_fuel. pose proof (inv_p d Hd). lia. Qed.

Lemma skip_loop_spec fuel n d : inv d -> 0 <= n <= Z.of_nat fuel ->
  exists d', skip_loop fuel n d = Some (Z.min n (zlen (pending d)), d') /\ inv d' /\
    pending d' = zdrop n (pending d).
Proof.
  revert n d. induction fuel as [|fuel IH]; intros n d Hd Hn; cbn [skip_loop];
    pose proof (zlen_nonneg (pending d)); destruct (Z.leb_spec n 0);
    try (replace n with 0 by lia; exists d; rewrite Z.min_l by lia; by rewrite zdrop_0); [lia|].
  destruct (get_spec d (Z.min 256 n) Hd ltac:(lia)) as (d1 & -> & Hd1 & Hp1).
  rewrite zlen_ztake by lia. destruct (Z.eqb_spec (Z.min (Z.min 256 n) (zlen (pending d))) 0) as [Hz|Hz].
  - exists d1. assert (Hnil : zlen (pending d) = 0) by lia. rewrite Hp1, !zdrop_all by lia.
    rewrite Hnil. by replace (Z.min n 0) with 0 by lia.
  - set (k := Z.min (Z.min 256 n) (zlen (pending d))) in *.
    destruct (IH (n - k) d1 Hd1 ltac:(lia)) as (d2 & -> & Hd2 & Hp2). exists d2.
    assert (Hp1' : pending d1 = zdrop k (pending d)).
    { rewrite Hp1. unfold k. destruct (Z.le_gt_cases (Z.min 256 n) (zlen (pending d))).
      - f_equal. lia.
      - rewrite !zdrop_all by lia. done. }
    rewrite Hp2, Hp1', zdrop_zdrop, zlen_zdrop by lia. split_and!; [|done|].
    + do 2 f_equal. lia.
    + f_equal. lia.
Qed.

(** The values a run view stands for. *)
Definition view_values (w : Z) (v : run_view) : list Z :=
  if rv_packed v
  then List.map (fun i => slice (rv_bits v) (rv_bit_offset v + i * w) w) (seqZ 0 (rv_count v))
  else replicate (Z.to_nat (rv_count v)) (rv_value v).

(** The run's value, or the bits it points to. *)
Definition view_fits (w : Z) (v : run_view) : Prop :=
  if rv_packed v
  then bytes_ok (rv_bits v) /\ zlen (rv_bits v) < 2 ^ 58 /\ 0 <= rv_bit_offset v < 8 /\
       rv_bit_offset v + rv_count v * w <= 8 * zlen (rv_bits v)
  else 0 <= rv_value v < 2 ^ 32.

Definition view_ok (max : Z) (d : rle_bp_decoder) (o : option run_view) (d' : rle_bp_decoder) : Prop :=
  inv d' /\
  match o with
  | Some v => 1 <= rv_count v <= max /\
      view_values (d_width d) v = ztake (rv_count v) (pending d) /\
      pending d' = zdrop (rv_count v) (pending d) /\
      view_fits (d_width d) v /\ d_width d' = d_width d
  | None => pending d' = pending d /\ (1 <= max -> pending d = [])
  end.

Lemma view_rle c max d : inv d -> d_ok d = true -> 1 <= c <= d_rle_left d -> c <= max ->
  view_ok max d (Some (RunView false (d_rle_value d) c [] 0))
    (set_rle (d_rle_value d) (d_rle_left d - c) d).
Proof.
  intros Hd Hok Hc Hm. destruct (took_rle c d Hd ltac:(lia) Hok) as [[Hi Hp _ _] Ht].
  split; [done|]. cbn. pose proof (inv_value d Hd). split_and!; try lia; done.
Qed.

Lemma view_bp c max d : inv d -> d_rle_left d = 0 -> 1 <= c <= d_bp_left d -> c <= max ->
  let bit := d_bp_pos d * d_width d in
  0 <= bit / 8 <= d_bp_bytes d /\
  view_ok max d (Some (RunView true 0 c
      (ztake (d_bp_bytes d - bit / 8) (zdrop (d_bp d + bit / 8) (d_data d))) (bit mod 8)))
    (advance_bp c d).
Proof.
  intros Hd Hr Hc Hm bit. destruct (took_bp c d Hd Hr ltac:(lia)) as [[Hi Hp _ _] Ht].
  destruct (run_bytes_ok d Hd) as [Hrb Hrl].
  pose proof (inv_width d Hd). pose proof (inv_pos d Hd) as [Hpos _]. pose proof (inv_fits d Hd).
  pose proof (inv_bp d Hd) as (Hbp0 & Hbb0 & _).
  pose proof (Z.div_mod bit 8 ltac:(lia)) as Hdm. pose proof (Z.mod_pos_bound bit 8 ltac:(lia)).
  assert (Hb0 : 0 <= bit) by (unfold bit; nia).
  assert (Hb8 : 0 <= bit / 8 <= d_bp_bytes d).
  { split; [apply Z.div_pos; lia|]. apply Z.div_le_upper_bound; unfold bit in *; nia. }
  split; [done|]. split; [done|].
  assert (Hz : zlen (ztake (d_bp_bytes d - bit / 8) (zdrop (d_bp d + bit / 8) (d_data d))) = d_bp_bytes d - bit / 8).
  { pose proof (inv_bp d Hd). pose proof (inv_e d Hd). rewrite zlen_ztake, zlen_zdrop; lia. }
  pose proof (inv_bp d Hd). pose proof (inv_size d Hd). pose proof (inv_e d Hd).
  assert (Hfits : bit mod 8 + c * d_width d <= 8 * (d_bp_bytes d - bit / 8)) by (unfold bit in *; nia).
  assert (Hvf : view_fits (d_width d) (RunView true 0 c (ztake (d_bp_bytes d - bit / 8) (zdrop (d_bp d + bit / 8) (d_data d))) (bit mod 8))).
  { unfold view_fits; cbn [rv_packed rv_bits rv_bit_offset rv_count]. rewrite Hz.
    split_and!; try lia. apply bytes_ok_ztake, bytes_ok_zdrop, (inv_bytes d Hd). }
  cbn [rv_count]. split_and!; try lia; try done.
  unfold view_values; cbn.
  replace (ztake (d_bp_bytes d - bit / 8) (zdrop (d_bp d + bit / 8) (d_data d)))
    with (zdrop (bit / 8) (run_bytes d))
    by (unfold run_bytes; rewrite zdrop_ztake, zdrop_zdrop by lia; done).
  rewrite Ht. unfold packed_left. rewrite ztake_map_seqZ by lia.
  apply map_ext_in. intros i Hii. apply in_seqZ in Hii. rewrite packed_slice. unfold slice.
  rewrite le_val_zdrop by (done || lia). rewrite Z.shiftr_shiftr by nia. do 2 f_equal.
  unfold bit in *. lia.
Qed.

Lemma next_run_view_loop_spec fuel max d : inv d -> d_e d - d_p d < Z.of_nat fuel ->
  exists o d', next_run_view_loop fuel max d = Some (o, d') /\ view_ok max d o d'.
Proof.
  revert d. induction fuel as [|fuel IH]; intros d Hd Hf; pose proof (inv_p d Hd); [lia|].
  cbn [next_run_view_loop]. pose proof (inv_rle d Hd). pose proof (inv_pos d Hd) as [_ Hbl].
  destruct (d_ok d) eqn:Hok; cbn [negb orb].
  2: { pose proof (inv_ok d Hd) as Ho. rewrite Hok in Ho. destruct Ho as [Hr Hb].
       exists None, d. split; [done|]. split; [done|]. split; [done|]. intros _.
       unfold pending, packed_left. by rewrite Hr, Hb, Hok. }
  destruct (Z.leb_spec max 0).
  { exists None, d. split; [done|]. split; [done|]. split; [done|lia]. }
  destruct (Z.eqb_spec (d_rle_left d) 0) as [Hr|Hr]; cbn [negb].
  2: { do 2 eexists. split; [done|]. apply view_rle; done || lia. }
  destruct (Z.eqb_spec (d_bp_left d) 0) as [Hb|Hb]; cbn [negb].
  2: { destruct (view_bp (Z.min (d_bp_left d) max) max d) as [Hb8 Hv]; [done|done|lia|lia|].
       destruct (Z.ltb_spec (d_bp_bytes d) (d_bp_pos d * d_width d / 8)); [lia|].
       do 2 eexists. split; [done|exact Hv]. }
  assert (Hpd : pending d = hybrid (d_width d) (zdrop (d_p d) (d_data d)))
    by (unfold pending, packed_left; by rewrite Hr, Hb, Hok).
  pose proof (next_run_spec d Hd Hok Hr Hb) as Hnx. pose proof (inv_width d Hd).
  rewrite hybrid_eq in Hpd by done.
  destruct (first_run (d_width d) (zdrop (d_p d) (d_data d))) as [[vs t]|].
  - destruct Hnx as (d1 & -> & Hst). pose proof (pending_starts _ _ _ _ Hst ltac:(done)) as Hp1.
    rewrite <- Hpd in Hp1. destruct Hst as [Hi1 _ Hw1 _ _ [Hpp He1]].
    destruct (IH d1 Hi1 ltac:(lia)) as (o & d' & Ho & Hv). exists o, d'. split; [done|].
    unfold view_ok in *. by rewrite Hp1, Hw1 in Hv.
  - destruct Hnx as (d1 & -> & Hi1 & Hp1). exists None, d1. split; [done|]. split; [done|].
    by rewrite Hpd, Hp1.
Qed.

(** ** The encoding

    What the format says a stream of runs stands for, in unbounded numbers: a
    header [h] announces [h / 2] groups of eight packed values when it is odd, and
    [h / 2] copies of one value when it is even. *)
Definition announced (h : Z) : Z := if Z.odd h then h / 2 * 8 else h / 2.

(** The first run of [l], its header, its values and what follows it. A packed run
    cut short by the end of the data has the values that are there. *)
Definition denoted_run (w : Z) (l : list Z) : option (Z * list Z * list Z) :=
  match varint_at 64 l with
  | None => None
  | Some (h, k) =>
      let t := zdrop k l in
      if Z.odd h then
        let n := Z.min (h / 2 * w) (zlen t) in
        Some (h, packed_values w (ztake n t) (if w =? 0 then announced h else Z.min (announced h) (n * 8 / w)), zdrop n t)
      else
        let n := (w + 7) / 8 in
        let v := le_val (ztake n t) in
        if (zlen t <? n) || (2 ^ w <=? v) then None else Some (h, replicate (Z.to_nat (announced h)) v, zdrop n t)
  end.

(** The runs up to the end, or to the first malformed one; each takes a byte. *)
Fixpoint denoted_runs (fuel : nat) (w : Z) (l : list Z) : list (Z * list Z) :=
  match fuel with
  | O => []
  | S fuel => match denoted_run w l with
              | None => []
              | Some (h, vs, t) => (h, vs) :: denoted_runs fuel w t
              end
  end.
Definition runs_of (w : Z) (l : list Z) : list (Z * list Z) := denoted_runs (S (length l)) w l.
Definition denoted (w : Z) (l : list Z) : list Z := concat (List.map snd (runs_of w l)).

(** A header announces a number of values the code can count: 64 bits for packed
    values, 2^40 where no byte of the data stands behind a value. *)
Definition countable (w h : Z) : Prop := if Z.odd h && negb (w =? 0) then announced h < 2 ^ 64 else announced h <= 2 ^ 40.

Lemma first_denoted w l h vs t : 0 <= w -> denoted_run w l = Some (h, vs, t) -> countable w h -> first_run w l = Some (vs, t).
Proof.
  intros Hw. unfold denoted_run, first_run, countable, announced. destruct (varint_at 64 l) as [[h' k]|] eqn:Hv; [|done].
  apply varint_at_range in Hv as [Hh _]. assert (Hq : 0 <= h' / 2) by (apply Z.div_pos; lia).
  destruct (Z.odd h') eqn:Ho; [destruct (Z.eqb_spec w 0)|destruct (_ || _); [done|]]; intros [= <- <- <-]; rewrite Ho; cbn [andb negb]; intros Hc.
  - rewrite wrap_small by lia. by rewrite (Z.min_l (h' / 2 * 8)) by lia.
  - by rewrite wrap_small by lia.
  - by rewrite Z.min_l by lia.
Qed.

Lemma none_denoted w l : denoted_run w l = None -> first_run w l = None.
Proof.
  unfold denoted_run, first_run. destruct (varint_at 64 l) as [[h k]|]; [|done]. destruct (Z.odd h); [done|]. by destruct (_ || _).
Qed.

Lemma hybrid_denoted w l : 0 <= w -> Forall (fun r => countable w r.1) (runs_of w l) -> hybrid w l = denoted w l.
Proof.
  intros Hw. unfold hybrid, denoted, runs_of. generalize (S (length l)). intros fuel. revert l.
  induction fuel as [|fuel IH]; intros l; cbn [denoted_runs hybrid_fuel]; [done|].
  destruct (denoted_run w l) as [[[h vs] t]|] eqn:E; [|by rewrite (none_denoted _ _ E)].
  intros Hall. inversion Hall as [|? ? Hc Hrest]; subst. rewrite (first_denoted w l h vs t Hw E Hc). cbn. by rewrite (IH t Hrest).
Qed.

(** No operation changes the width. *)
Lemma bitpacked_round_width n d vs d' : bitpacked_round n d = Some (vs, d') -> d_width d' = d_width d.
Proof. unfold bitpacked_round. cbv zeta. repeat case_match; intros; by simplify_eq. Qed.

Lemma take_bitpacked_width fuel : forall n d vs d', take_bitpacked fuel n d = Some (vs, d') -> d_width d' = d_width d.
Proof.
  induction fuel as [|fuel IH]; intros n d vs d'; cbn [take_bitpacked]; case_match; try (by intros; simplify_eq).
  destruct (bitpacked_round n d) as [[ws d1]|] eqn:E1; [|done]. destruct (take_bitpacked fuel _ d1) as [[ws' d2]|] eqn:E2; [|done].
  intros [= <- <-]. by rewrite (IH _ _ _ _ E2), (bitpacked_round_width _ _ _ _ E1).
Qed.

Lemma next_run_width d b d' : next_run d = Some (b, d') -> d_width d' = d_width d.
Proof. unfold next_run, begin_rle. repeat case_match; intros; by simplify_eq. Qed.

Lemma get_loop_width fuel : forall n d vs d', get_loop fuel n d = Some (vs, d') -> d_width d' = d_width d.
Proof.
  induction fuel as [|fuel IH]; intros n d vs d'; cbn [get_loop]; case_match; try (by intros; simplify_eq).
  assert (Hgo : forall ws d1, d_width d1 = d_width d ->
    match get_loop fuel (n - zlen ws) d1 with Some (vs', d'') => Some (ws ++ vs', d'') | None => None end = Some (vs, d') -> d_width d' = d_width d).
  { intros ws d1 H1. destruct (get_loop fuel _ d1) as [[ws' d2]|] eqn:E; [|done]. intros [= <- <-]. by rewrite (IH _ _ _ _ E). }
  case_match; [by apply Hgo|]. case_match.
  - destruct (take_bitpacked _ n d) as [[ws d1]|] eqn:E; [|done]. apply Hgo. by apply (take_bitpacked_width _ _ _ _ _ E).
  - destruct (next_run d) as [[[] d1]|] eqn:E; [apply Hgo; by apply (next_run_width _ _ _ E)| |done].
    intros [= <- <-]. by apply (next_run_width _ _ _ E).
Qed.

Lemma skip_loop_width fuel : forall n d k d', skip_loop fuel n d = Some (k, d') -> d_width d' = d_width d.
Proof.
  induction fuel as [|fuel IH]; intros n d k d'; cbn [skip_loop]; case_match; try (by intros; simplify_eq).
  destruct (get _ d) as [[vs d1]|] eqn:E; [|done]. apply get_loop_width in E. case_match; [by intros; simplify_eq|].
  destruct (skip_loop fuel _ d1) as [[k' d2]|] eqn:E2; [|done]. intros [= <- <-]. by rewrite (IH _ _ _ _ E2).
Qed.

Lemma view_loop_width fuel : forall n d o d', next_run_view_loop fuel n d = Some (o, d') -> d_width d' = d_width d.
Proof.
  induction fuel as [|fuel IH]; intros n d o d'; cbn [next_run_view_loop]; case_match; try (by intros; simplify_eq).
  case_match; [by intros; simplify_eq|]. case_match; [case_match; [done|by intros; simplify_eq]|].
  destruct (next_run d) as [[[] d1]|] eqn:E; [| |done]; apply next_run_width in E.
  - intros Hn%IH. congruence.
  - intros; by simplify_eq.
Qed.

(** C4: the decoder of width [w] is the list of values its stream denotes, consumed
    from the front, by a simulation [R] between its states and lists of values. A
    new decoder over a stream whose headers announce counts the code can hold
    (64 bits for packed values; 2^40 for repeated ones and at width 0) stands for
    [denoted w data], what the encoding says; one of a width above 32 for nothing.
    From then on [get(n)] yields the next [n] values (all that are left when there
    are fewer), [skip(n)] passes over them, and [next_run] exposes a non-empty
    prefix of at most [n] of them as one run, unless none are left; none of them
    reads outside the data or diverges, wherever runs begin and end. *)
Theorem rle_decoder_refines w : 0 <= w -> exists R : rle_bp_decoder -> list Z -> Prop,
  (forall data, bytes_ok data -> zlen data < 2 ^ 58 -> Forall (fun r => countable w r.1) (runs_of w data) ->
     R (new_decoder data w) (if w <=? 32 then denoted w data else [])) /\
  (forall d vs n, R d vs -> 0 <= n ->
     (exists d', get n d = Some (ztake n vs, d') /\ R d' (zdrop n vs)) /\
     (exists d', skip n d = Some (Z.min n (zlen vs), d') /\ R d' (zdrop n vs)) /\
     (exists o d', next_run_view n d = Some (o, d') /\
        match o with
        | Some v => 1 <= rv_count v <= n /\ view_values w v = ztake (rv_count v) vs /\ view_fits w v /\ R d' (zdrop (rv_count v) vs)
        | None => R d' vs /\ (1 <= n -> vs = [])
        end)).
Proof.
  intros Hw. exists (fun d vs => inv d /\ d_width d = w /\ pending d = vs). split.
  - intros data Hb Hz Hc. split; [by apply new_decoder_inv|]. split; [done|]. rewrite new_decoder_pending. by rewrite hybrid_denoted.
  - intros d vs n (Hd & Hwd & <-) Hn. pose proof (inv_p d Hd). split; [|split].
    + destruct (get_spec d n Hd Hn) as (d' & E & Hi & Hp). exists d'. split; [done|]. split; [done|]. split; [|done].
      by rewrite (get_loop_width _ _ _ _ _ E).
    + destruct (skip_loop_spec (Z.to_nat n) n d Hd ltac:(lia)) as (d' & E & Hi & Hp). exists d'. split; [done|]. split; [done|]. split; [|done].
      by rewrite (skip_loop_width _ _ _ _ _ E).
    + destruct (next_run_view_loop_spec (S (Z.to_nat (d_e d - d_p d))) n d Hd ltac:(lia)) as (o & d' & E & Hi & Hv). exists o, d'. split; [done|].
      pose proof (view_loop_width _ _ _ _ _ E) as Hw'. rewrite Hwd in *. destruct o as [v|]; [|by destruct Hv].
      destruct Hv as (Hc & Hval & Hp & Hf & _). split_and!; done || lia.
Qed.

(** ** A group count past 2^61

    The count of values, [groups * 8], is computed in 64 bits. *)

Lemma first_run_wraps w t : 1 <= w <= 32 -> zlen t < 2 ^ 50 ->
  first_run w (uleb128_encode 64 (2 ^ 62 + 1) ++ t) = Some ([], []).
Proof.
  intros Hw Hz. unfold first_run. rewrite varint_at_encode by lia.
  rewrite zdrop_app by done. change (Z.odd (2 ^ 62 + 1)) with true. cbn iota.
  change ((2 ^ 62 + 1) / 2) with (2 ^ 61). change (u64 (2 ^ 61 * 8)) with 0.
  pose proof (zlen_nonneg t). rewrite (Z.min_r (2 ^ 61 * w)) by nia.
  destruct (Z.eqb_spec w 0); [lia|]. rewrite (Z.min_l 0) by (apply Z.div_pos; lia).
  by rewrite zdrop_all by lia.
Qed.

(** A bit-packed header of 2^61 groups wraps its value count to zero: the
    run's bytes are skipped and [get] produces nothing, although the bytes
    hold values and the header promises more of them. *)
Theorem packed_count_wraps w t n :
  1 <= w <= 32 -> bytes_ok t -> zlen t < 2 ^ 50 -> 0 <= n ->
  exists d', get n (new_decoder (uleb128_encode 64 (2 ^ 62 + 1) ++ t) w) = Some ([], d').
Proof.
  intros Hw Ht Hz Hn. set (l := uleb128_encode 64 (2 ^ 62 + 1) ++ t).
  assert (Hl : bytes_ok l) by (apply Forall_app; split; [apply (uleb128_encode_spec 64); lia|done]).
  destruct (get_spec (new_decoder l w) n) as (d' & Hg & _ & _); [|done|].
  - apply new_decoder_inv; [done| |lia]. unfold l. rewrite zlen_app.
    change (zlen (uleb128_encode 64 (2 ^ 62 + 1))) with 9. lia.
  - exists d'. rewrite Hg, new_decoder_pending. destruct (Z.leb_spec w 32); [|lia].
    rewrite hybrid_eq by lia. unfold l. rewrite first_run_wraps by done.
    rewrite hybrid_eq by lia. cbn. unfold ztake. by rewrite take_nil.
Qed.

Lemma packed_count_wraps_witness :
  exists d', get 3 (new_decoder (uleb128_encode 64 (2 ^ 62 + 1) ++ [1; 2; 3]) 8) = Some ([], d').
Proof.
  exact (packed_count_wraps 8 [1; 2; 3] 3 ltac:(lia) ltac:(repeat constructor; by vm_compute) eq_refl
    ltac:(lia)).
Defined.

Lemma rle_decoder_refines_witness : exists d', get 3 (new_decoder [10; 7; 3; 1; 2] 8) = Some ([7; 7; 7], d').
Proof.
  destruct (rle_decoder_refines 8 ltac:(lia)) as (R & Hnew & Hops).
  assert (Hr : R (new_decoder [10; 7; 3; 1; 2] 8) [7; 7; 7; 7; 7; 1; 2]).
  { apply (Hnew [10; 7; 3; 1; 2]); [repeat constructor; by vm_compute|reflexivity|].
    change (runs_of 8 [10; 7; 3; 1; 2]) with [(10, [7; 7; 7; 7; 7]); (3, [1; 2])]. repeat constructor; by vm_compute. }
  destruct (Hops _ _ 3 Hr ltac:(lia)) as [(d' & H & _) _]. exists d'. exact H.
Defined.
