(* ===== verification/ColumnarEncode.v ===== *)
(** * Columnar encoders (columnar_encode.hpp, sections 45 and 46)

    Bit packing and the RLE / bit-packed hybrid, with the round trips through
    the decoders of [Columnar] and [RleHybrid]. An output vector is the list
    of its bytes; an encoder returns the vector it appended to. *)
From S2P Require Import Prelude Parser BytesParsers Combinators CombinatorFacts Numbers Columnar RleHybrid.

Definition put_uleb (out : list Z) (v : Z) : list Z := out ++ uleb128_encode 64 v.
Definition put_le (out : list Z) (v nbytes : Z) : list Z :=
  out ++ List.map (fun i => u8 (Z.shiftr v (8 * i))) (seqZ 0 nbytes).

(** ** Bit packing *)

(** The loop of [pack_bits]: the words stored so far, the accumulator and the
    bits in it. *)
Record pack_state := PackState { pk_words : list Z; pk_acc : Z; pk_bits : Z }.

Definition pack_step (width : Z) (s : pack_state) (x : Z) : pack_state :=
  let mask := if 64 <=? width then 2 ^ 64 - 1 else 2 ^ width - 1 in
  let v := Z.land x mask in
  let acc := Z.lor (pk_acc s) (u64 (Z.shiftl v (pk_bits s))) in
  if 64 <=? pk_bits s + width
  then PackState (pk_words s ++ le_bytes 8 acc)
         (if pk_bits s =? 0 then 0 else Z.shiftr v (64 - pk_bits s)) (pk_bits s + width - 64)
  else PackState (pk_words s) acc (pk_bits s + width).

(** The words and the last partial word go into [total + 8] zeroed bytes, of
    which [total] stay; storing past them would be undefined. *)
Definition pack_bits (vs : list Z) (width : Z) (out : list Z) : option (list Z) :=
  if (width =? 0) || (zlen vs =? 0) then Some out
  else
    let total := (u64 (zlen vs * width) + 7) / 8 in
    let s := fold_left (pack_step width) vs (PackState [] 0 0) in
    let body := pk_words s ++ le_bytes 8 (pk_acc s) in
    if total + 8 <? zlen body then None
    else Some (out ++ ztake total (body ++ replicate (Z.to_nat (total + 8 - zlen body)) 0)).

(** ** The hybrid encoder *)
Record enc_state := EncState { en_i : Z; en_begin : Z; en_end : Z; en_out : list Z }.

(** The values of [subspan(first, count)]. *)
Definition subspan (vs : list Z) (first count : Z) : list Z := ztake count (zdrop first vs).

(** The lambda [flush_literal(last)]. *)
Definition flush_literal (vs : list Z) (width : Z) (last : bool) (s : enc_state) : option enc_state :=
  let count := en_end s - en_begin s in
  if count =? 0 then Some s
  else
    let groups := (count + 7) / 8 in
    let out := put_uleb (en_out s) (Z.lor (u64 (Z.shiftl groups 1)) 1) in
    let lit := subspan vs (en_begin s) count in
    let body := if (count mod 8 =? 0) || negb last then lit
                else lit ++ replicate (Z.to_nat (groups * 8 - count)) 0 in
    match pack_bits body width out with
    | Some out' => Some (EncState (en_i s) (en_end s) (en_end s) out')
    | None => None
    end.

(** [j]: the end of the stretch of values equal to the one at [i]. *)
Fixpoint run_end (n : nat) (vs : list Z) (x j : Z) : Z :=
  match n with
  | O => j
  | S n => match zget vs j with
           | Some y => if y =? x then run_end n vs x (j + 1) else j
           | None => j
           end
  end.

(** One round of the outer loop. *)
Definition enc_round (vs : list Z) (width : Z) (s : enc_state) : option enc_state :=
  match zget vs (en_i s) with
  | None => None
  | Some x =>
      let j := run_end (length vs) vs x (en_i s + 1) in
      let run := j - en_i s in
      if 8 <=? run then
        let pending := en_end s - en_begin s in
        let steal := if pending mod 8 =? 0 then 0 else 8 - pending mod 8 in
        let s1 := EncState (en_i s + steal) (en_begin s) (en_end s + steal) (en_out s) in
        let run := run - steal in
        if 8 <=? run then
          match flush_literal vs width false s1 with
          | None => None
          | Some s2 =>
              let out := put_uleb (en_out s2) (u64 (Z.shiftl run 1)) in
              match zget vs (en_i s1) with
              | None => None
              | Some y => Some (EncState j j j (put_le out y ((width + 7) / 8)))
              end
          end
        else Some (EncState j (en_begin s1) j (en_out s1))
      else
        Some (EncState j (if en_begin s =? en_end s then en_i s else en_begin s) j (en_out s))
  end.

(** A round moves past at least one value: [length vs] of them suffice. *)
Fixpoint enc_loop (fuel : nat) (vs : list Z) (width : Z) (s : enc_state) : option enc_state :=
  if zlen vs <=? en_i s then Some s
  else match fuel with
       | O => None
       | S fuel => match enc_round vs width s with
                   | None => None
                   | Some s' => enc_loop fuel vs width s'
                   end
       end.

Definition rle_hybrid_encode (vs : list Z) (width : Z) (out : list Z) : option (list Z) :=
  match enc_loop (length vs) vs width (EncState 0 0 0 out) with
  | None => None
  | Some s => match flush_literal vs width true s with
              | None => None
              | Some s' => Some (en_out s')
              end
  end.

(** [encode_levels]: [bit_width(max_level)] bits. *)
Definition bit_width (v : Z) : Z := if v =? 0 then 0 else Z.log2 v + 1.
Definition encode_levels (levels : list Z) (max_level : Z) (out : list Z) : option (list Z) :=
  rle_hybrid_encode levels (bit_width max_level) out.

(** ** What packing denotes *)
Fixpoint pack_val (w : Z) (vs : list Z) : Z :=
  match vs with [] => 0 | v :: t => v mod 2 ^ w + 2 ^ w * pack_val w t end.

Lemma pow_next w n : 0 <= w -> 0 <= n -> 2 ^ (w * (n + 1)) = 2 ^ (w * n) * 2 ^ w.
Proof. intros. rewrite <- Z.pow_add_r by nia. f_equal. lia. Qed.

Lemma pack_val_range w vs : 0 <= w -> 0 <= pack_val w vs < 2 ^ (w * zlen vs).
Proof.
  intros Hw. induction vs as [|v vs IH]; cbn [pack_val]; [change (zlen []) with 0; rewrite Z.mul_0_r; lia|].
  rewrite zlen_cons. pose proof (zlen_nonneg vs). rewrite pow_next by lia.
  assert (0 < 2 ^ w) by (apply Z.pow_pos_nonneg; lia).
  pose proof (Z.mod_pos_bound v (2 ^ w) ltac:(lia)). nia.
Qed.

Lemma pack_val_app w vs v : 0 <= w ->
  pack_val w (vs ++ [v]) = pack_val w vs + 2 ^ (w * zlen vs) * (v mod 2 ^ w).
Proof.
  intros Hw. induction vs as [|x vs IH]; cbn [app pack_val].
  - change (zlen []) with 0. rewrite !Z.mul_0_r, Z.pow_0_r. lia.
  - rewrite IH, zlen_cons. pose proof (zlen_nonneg vs).
    rewrite pow_next by lia. lia.
Qed.

(** The values are back in the slices of the packed integer. *)
Lemma pack_val_slice w vs X k v : 0 <= w -> Forall (fun v => 0 <= v < 2 ^ w) vs -> zget vs k = Some v ->
  wrap w (Z.shiftr (pack_val w vs + 2 ^ (w * zlen vs) * X) (k * w)) = v.
Proof.
  intros Hw Hvs. revert k. induction Hvs as [|x vs Hx Hvs IH]; intros k Hk.
  - apply zget_Some_range in Hk. unfold zlen in Hk; cbn in Hk. lia.
  - assert (Hp : 0 < 2 ^ w) by (apply Z.pow_pos_nonneg; lia).
    pose proof (zlen_nonneg vs). cbn [pack_val]. rewrite zlen_cons, pow_next by lia.
    replace (x mod 2 ^ w + 2 ^ w * pack_val w vs + 2 ^ (w * zlen vs) * 2 ^ w * X)
      with (x mod 2 ^ w + (pack_val w vs + 2 ^ (w * zlen vs) * X) * 2 ^ w) by lia.
    set (Y := pack_val w vs + 2 ^ (w * zlen vs) * X).
    pose proof (zget_Some_range _ _ _ Hk) as Hkr.
    destruct (Z.eq_dec k 0) as [-> |Hk0].
    + injection Hk as ->. rewrite Z.mul_0_l, Z.shiftr_0_r. unfold wrap.
      rewrite Z_mod_plus_full, Z.mod_mod by lia. by apply Z.mod_small.
    + assert (Hkt : zget vs (k - 1) = Some v).
      { unfold zget in *. destruct (Z.ltb_spec k 0), (Z.ltb_spec (k - 1) 0); try lia.
        by replace (Z.to_nat k) with (S (Z.to_nat (k - 1))) in Hk by lia. }
      rewrite <- (IH (k - 1) Hkt). f_equal. fold Y.
      replace (k * w) with (w + (k - 1) * w) by lia.
      rewrite <- Z.shiftr_shiftr by nia. f_equal.
      rewrite Z.shiftr_div_pow2 by lia. rewrite Z.div_add by lia.
      pose proof (Z.mod_pos_bound x (2 ^ w) Hp). rewrite Z.div_small by lia. lia.
Qed.

Record pack_inv (w : Z) (s : pack_state) (V nb : Z) : Prop := PackInv {
  pi_val : le_val (pk_words s) + 2 ^ (8 * zlen (pk_words s)) * pk_acc s = V;
  pi_acc : 0 <= pk_acc s < 2 ^ pk_bits s;
  pi_bits : 0 <= pk_bits s < 64;
  pi_len : 8 * zlen (pk_words s) + pk_bits s = nb;
  pi_bytes : bytes_ok (pk_words s);
  pi_mult : (8 | zlen (pk_words s))
}.

Lemma pack_step_inv w s V nb x : 1 <= w <= 64 -> pack_inv w s V nb ->
  pack_inv w (pack_step w s x) (V + 2 ^ nb * (x mod 2 ^ w)) (nb + w).
Proof.
  intros Hw [Hv Ha Hb Hn Hby Hmu]. unfold pack_step.
  assert (Hm : (if 64 <=? w then 2 ^ 64 - 1 else 2 ^ w - 1) = Z.ones w).
  { rewrite Z.ones_equiv. destruct (Z.leb_spec 64 w); [replace w with 64 by lia|]; lia. }
  rewrite Hm, Z.land_ones by lia. clear Hm.
  set (v := x mod 2 ^ w). assert (Hv0 : 0 <= v < 2 ^ w) by (apply Z.mod_pos_bound, Z.pow_pos_nonneg; lia).
  destruct s as [words acc bits]; cbn [pk_words pk_acc pk_bits] in *.
  set (P := 2 ^ bits) in *. assert (HP : 0 < P) by (apply Z.pow_pos_nonneg; lia).
  assert (Hpb : 2 ^ 64 = P * 2 ^ (64 - bits)) by (unfold P; rewrite <- Z.pow_add_r by lia; f_equal; lia).
  assert (Hacc : Z.lor acc (u64 (Z.shiftl v bits)) = acc + (v mod 2 ^ (64 - bits)) * P).
  { replace (u64 (Z.shiftl v bits)) with (Z.shiftl (v mod 2 ^ (64 - bits)) bits) by bitblast.
    by rewrite lor_shiftl_add by lia. }
  assert (Hnb : 2 ^ nb = 2 ^ (8 * zlen words) * P).
  { rewrite <- Hn. pose proof (zlen_nonneg words). by rewrite Z.pow_add_r by lia. }
  assert (Hd : v = 2 ^ (64 - bits) * (v / 2 ^ (64 - bits)) + v mod 2 ^ (64 - bits))
    by (apply Z.div_mod; pose proof (Z.pow_pos_nonneg 2 (64 - bits)); lia).
  pose proof (Z.mod_pos_bound v (2 ^ (64 - bits)) ltac:(apply Z.pow_pos_nonneg; lia)) as Hr.
  set (hi := v / 2 ^ (64 - bits)) in *. set (lo := v mod 2 ^ (64 - bits)) in *.
  rewrite Hacc. destruct (Z.leb_spec 64 (bits + w)).
  - assert (Hhi : (if bits =? 0 then 0 else Z.shiftr v (64 - bits)) = hi).
    { destruct (Z.eqb_spec bits 0) as [-> |]; [|by rewrite Z.shiftr_div_pow2 by lia].
      unfold hi. symmetry. apply Z.div_small. assert (2 ^ w <= 2 ^ (64 - 0)) by (apply Z.pow_le_mono_r; lia). lia. }
    rewrite Hhi. assert (Hlb : le_val (le_bytes 8 (acc + lo * P)) = acc + lo * P).
    { rewrite le_val_le_bytes. apply wrap_small. change (8 * Z.of_nat 8) with 64. nia. }
    assert (Hz8 : zlen (le_bytes 8 (acc + lo * P)) = 8) by (unfold zlen; by rewrite length_le_bytes).
    constructor; cbn [pk_words pk_acc pk_bits].
    + rewrite le_val_app. fold (zlen words). rewrite Hlb, zlen_app, Hz8, <- Hv, Hnb.
      pose proof (zlen_nonneg words).
      replace (8 * (zlen words + 8)) with (8 * zlen words + 64) by lia. rewrite Z.pow_add_r by lia. nia.
    + split; [apply Z.div_pos; [lia|apply Z.pow_pos_nonneg; lia]|].
      apply Z.div_lt_upper_bound; [apply Z.pow_pos_nonneg; lia|].
      rewrite <- Z.pow_add_r by lia. replace (64 - bits + (bits + w - 64)) with w by lia. lia.
    + lia.
    + rewrite zlen_app, Hz8. lia.
    + apply Forall_app. split; [done|apply le_bytes_ok].
    + rewrite zlen_app, Hz8. apply Z.divide_add_r; [done|by exists 1].
  - assert (Hw' : 2 ^ w <= 2 ^ (64 - bits)) by (apply Z.pow_le_mono_r; lia).
    assert (Hlo : lo = v) by (unfold lo; apply Z.mod_small; lia). rewrite Hlo.
    constructor; cbn [pk_words pk_acc pk_bits]; try done; try lia.
    rewrite Z.pow_add_r by lia. fold P. nia.
Qed.

Lemma pack_fold_inv w vs : 1 <= w <= 64 ->
  pack_inv w (fold_left (pack_step w) vs (PackState [] 0 0)) (pack_val w vs) (w * zlen vs).
Proof.
  intros Hw. induction vs as [|x vs IH] using rev_ind.
  - cbn. change (zlen []) with 0. rewrite Z.mul_0_r. constructor; cbn; try done; try lia. by exists 0.
  - rewrite fold_left_app. cbn [fold_left]. rewrite pack_val_app, zlen_app by lia.
    change (zlen [x]) with 1. replace (w * (zlen vs + 1)) with (w * zlen vs + w) by lia.
    by apply pack_step_inv.
Qed.

(** The bytes [pack_bits] appends. *)
Definition packed_bytes (w : Z) (vs : list Z) : list Z :=
  le_bytes (Z.to_nat ((w * zlen vs + 7) / 8)) (pack_val w vs).

Lemma packed_bytes_spec w vs : 0 <= w ->
  bytes_ok (packed_bytes w vs) /\ zlen (packed_bytes w vs) = (w * zlen vs + 7) / 8 /\
  le_val (packed_bytes w vs) = pack_val w vs.
Proof.
  intros Hw. pose proof (zlen_nonneg vs). unfold packed_bytes.
  assert (0 <= (w * zlen vs + 7) / 8) by (apply Z.div_pos; nia). split_and!.
  - apply le_bytes_ok.
  - unfold zlen. rewrite length_le_bytes. fold (zlen vs). lia.
  - rewrite le_val_le_bytes, Z2Nat.id by done. apply wrap_small.
    pose proof (pack_val_range w vs Hw).
    assert (2 ^ (w * zlen vs) <= 2 ^ (8 * ((w * zlen vs + 7) / 8)))
      by (apply Z.pow_le_mono_r; [lia|]; Z.div_mod_to_equations; lia). lia.
Qed.

Lemma pack_bits_spec w vs out : 0 <= w <= 64 -> zlen vs * w < 2 ^ 64 ->
  pack_bits vs w out = Some (out ++ packed_bytes w vs).
Proof.
  intros Hw Hov. pose proof (zlen_nonneg vs). unfold pack_bits.
  destruct (Z.eqb_spec w 0) as [-> |Hw0]; cbn [orb].
  { unfold packed_bytes. rewrite Z.mul_0_l. cbn. by rewrite app_nil_r. }
  destruct (Z.eqb_spec (zlen vs) 0) as [Hz|Hz].
  { unfold packed_bytes. rewrite Hz, Z.mul_0_r. cbn. by rewrite app_nil_r. }
  rewrite wrap_small by nia. replace (zlen vs * w) with (w * zlen vs) by lia.
  destruct (packed_bytes_spec w vs ltac:(lia)) as (Hpb & Hpl & Hpv).
  destruct (pack_fold_inv w vs ltac:(lia)) as [Hv Ha Hb Hn Hby _].
  set (s := fold_left _ _ _) in *. set (total := (w * zlen vs + 7) / 8) in *.
  assert (Hz8 : zlen (le_bytes 8 (pk_acc s)) = 8) by (unfold zlen; by rewrite length_le_bytes).
  pose proof (zlen_nonneg (pk_words s)).
  assert (Htot : zlen (pk_words s) <= total <= zlen (pk_words s) + 8)
    by (unfold total; Z.div_mod_to_equations; lia).
  rewrite zlen_app, Hz8. destruct (Z.ltb_spec (total + 8) (zlen (pk_words s) + 8)); [lia|].
  do 2 f_equal. apply le_val_inj.
  - apply bytes_ok_ztake, Forall_app. split; [|apply bytes_ok_zeros].
    apply Forall_app. split; [done|apply le_bytes_ok].
  - done.
  - apply Nat2Z.inj. fold (zlen (packed_bytes w vs)). rewrite Hpl.
    match goal with |- Z.of_nat (length ?x) = _ => change (Z.of_nat (length x)) with (zlen x) end.
    rewrite zlen_ztake, !zlen_app, Hz8, zlen_replicate by lia. lia.
  - rewrite Hpv, ztake_app_l by (rewrite zlen_app, Hz8; lia).
    assert (Hbody : le_val (pk_words s ++ le_bytes 8 (pk_acc s)) = pack_val w vs).
    { rewrite le_val_app, le_val_le_bytes. fold (zlen (pk_words s)). rewrite wrap_small; [done|].
      assert (2 ^ pk_bits s <= 2 ^ (8 * Z.of_nat 8)) by (apply Z.pow_le_mono_r; lia). lia. }
    rewrite le_val_ztake, Hbody by (lia || (apply Forall_app; split; [done|apply le_bytes_ok])).
    apply wrap_small. pose proof (pack_val_range w vs ltac:(lia)).
    assert (2 ^ (w * zlen vs) <= 2 ^ (8 * total))
      by (apply Z.pow_le_mono_r; [lia|]; unfold total; Z.div_mod_to_equations; lia). lia.
Qed.

(** Unpacking what was packed, whatever follows it. *)
Lemma packed_values_packed w vs rest : 0 <= w -> Forall (fun v => 0 <= v < 2 ^ w) vs ->
  packed_values w (packed_bytes w vs ++ rest) (zlen vs) = vs.
Proof.
  intros Hw Hvs. destruct (packed_bytes_spec w vs Hw) as (Hpb & Hpl & Hpv).
  apply list_eq. intros i. unfold packed_values.
  destruct (decide (i < length vs)%nat) as [Hi|Hi].
  - destruct (lookup_lt_is_Some_2 vs i Hi) as [v Hv]. rewrite Hv.
    assert (Hg : zget vs (Z.of_nat i) = Some v).
    { unfold zget. destruct (Z.ltb_spec (Z.of_nat i) 0); [lia|]. by rewrite Nat2Z.id. }
    pose proof (zget_map_seqZ (packed w (packed_bytes w vs ++ rest)) (zlen vs) (Z.of_nat i)
      ltac:(unfold zlen; lia)) as Hm.
    unfold zget in Hm. destruct (Z.ltb_spec (Z.of_nat i) 0); [lia|]. rewrite Nat2Z.id in Hm.
    rewrite Hm. f_equal. unfold packed. rewrite le_val_app, Hpv. fold (zlen (packed_bytes w vs)).
    pose proof (zlen_nonneg vs).
    assert (Hk : w * zlen vs <= 8 * zlen (packed_bytes w vs))
      by (rewrite Hpl; Z.div_mod_to_equations; lia).
    replace (2 ^ (8 * zlen (packed_bytes w vs)) * le_val rest) with
      (2 ^ (w * zlen vs) * (2 ^ (8 * zlen (packed_bytes w vs) - w * zlen vs) * le_val rest))
      by (rewrite Z.mul_assoc, <- Z.pow_add_r by nia; do 2 f_equal; lia).
    by apply pack_val_slice.
  - rewrite !lookup_ge_None_2; [done|lia|]. rewrite List.length_map, length_seqZ. unfold zlen. lia.
Qed.

(** Bit packing round trip. [pack_bits] appends exactly
    ceil(n * width / 8) bytes, and [unpack_bits] reads the values back from
    them, whatever bytes follow, writing exactly [n] of the output. *)
Theorem pack_unpack_bits w wU vs out rest dst :
  0 <= w <= wU -> wU <= 64 -> Forall (fun v => 0 <= v < 2 ^ w) vs -> zlen vs * w < 2 ^ 63 ->
  bytes_ok rest -> zlen vs <= zlen dst ->
  exists p, pack_bits vs w out = Some (out ++ p) /\ zlen p = (zlen vs * w + 7) / 8 /\
    unpack_bits wU (p ++ rest) w dst (zlen vs) = Some (Some (vs ++ zdrop (zlen vs) dst)).
Proof.
  intros Hw HU Hvs Hov Hrest Hdst. exists (packed_bytes w vs).
  destruct (packed_bytes_spec w vs ltac:(lia)) as (Hpb & Hpl & Hpv). pose proof (zlen_nonneg vs).
  split_and!; [apply pack_bits_spec; lia|rewrite Hpl; f_equal; lia|].
  rewrite unpack_bits_spec; [|by apply Forall_app|lia..]. do 2 f_equal.
  unfold fits_bits. destruct (Z.leb_spec w wU); [|lia]. destruct (Z.leb_spec (zlen vs) (zlen dst)); [|lia].
  rewrite zlen_app, Hpl, (Z.mul_comm w). pose proof (zlen_nonneg rest).
  destruct (Z.leb_spec ((zlen vs * w + 7) / 8) ((zlen vs * w + 7) / 8 + zlen rest)); [|lia].
  cbn [andb]. f_equal. by rewrite packed_values_packed by (done || lia).
Qed.

Lemma pack_unpack_bits_witness :
  exists p, pack_bits [5; 1; 7] 3 [] = Some ([] ++ p) /\
    unpack_bits 32 (p ++ [255]) 3 [9; 9; 9; 9] 3 = Some (Some [5; 1; 7; 9]).
Proof.
  destruct (pack_unpack_bits 3 32 [5; 1; 7] [] [255] [9; 9; 9; 9] ltac:(lia) ltac:(lia)
    ltac:(repeat constructor; lia) eq_refl ltac:(repeat constructor; lia) ltac:(by vm_compute))
    as (p & H1 & _ & H2).
  exists p. split; [exact H1|exact H2].
Defined.

(** ** Runs read back *)
Abbreviation fits_width w := (Forall (fun v => 0 <= v < 2 ^ w)).

Lemma put_le_bytes v n : 0 <= n ->
  List.map (fun i => u8 (Z.shiftr v (8 * i))) (seqZ 0 n) = le_bytes (Z.to_nat n) v.
Proof.
  intros Hn. rewrite <- (Z2Nat.id n Hn) at 1. generalize (Z.to_nat n) as m. clear n Hn. intros m.
  revert v. induction m as [|m IH]; intros v; [done|].
  rewrite Nat2Z.inj_succ, <- Z.add_1_l, seqZ_app, List.map_app by lia.
  cbn [le_bytes]. change (seqZ 0 1) with [0]. cbn [List.map app].
  rewrite Z.mul_0_r, Z.shiftr_0_r. f_equal. rewrite <- IH, map_seqZ_shift. apply map_ext_in.
  intros i Hi. apply in_seqZ in Hi. rewrite Z.shiftr_shiftr by lia. do 2 f_equal. lia.
Qed.

Lemma first_run_literal w vs groups rest :
  0 <= w <= 32 -> fits_width w vs -> zlen vs = groups * 8 -> 1 <= groups -> zlen vs <= 2 ^ 40 ->
  first_run w (uleb128_encode 64 (2 * groups + 1) ++ packed_bytes w vs ++ rest) = Some (vs, rest).
Proof.
  intros Hw Hvs Hz Hg Hmax. unfold first_run. rewrite varint_at_encode by lia.
  rewrite zdrop_app by done. rewrite (Z.add_comm (2 * groups)), Z.odd_add_mul_2. change (Z.odd 1) with true. cbn iota.
  rewrite (Z.add_comm 1).
  replace ((2 * groups + 1) / 2) with groups by (apply (Z.div_unique _ _ _ 1); lia).
  destruct (packed_bytes_spec w vs ltac:(lia)) as (Hpb & Hpl & Hpv).
  assert (Hpl' : zlen (packed_bytes w vs) = groups * w).
  { rewrite Hpl, Hz. symmetry. apply (Z.div_unique _ _ _ 7); lia. }
  pose proof (zlen_nonneg rest).
  replace (Z.min (groups * w) (zlen (packed_bytes w vs ++ rest))) with (groups * w)
    by (rewrite zlen_app, Hpl'; lia).
  rewrite ztake_app, zdrop_app by done. rewrite wrap_small by lia.
  do 2 f_equal. rewrite <- (packed_values_packed w vs []) at 2 by (done || lia). rewrite app_nil_r.
  f_equal. destruct (Z.eqb_spec w 0) as [-> |]; [lia|].
  replace (groups * w * 8 / w) with (groups * 8) by (apply (Z.div_unique _ _ _ 0); lia). lia.
Qed.

Lemma first_run_rle w v run rest :
  0 <= w <= 32 -> 0 <= v < 2 ^ w -> 1 <= run <= 2 ^ 40 ->
  first_run w (uleb128_encode 64 (2 * run) ++ le_bytes (Z.to_nat ((w + 7) / 8)) v ++ rest) =
    Some (replicate (Z.to_nat run) v, rest).
Proof.
  intros Hw Hv Hr. unfold first_run. rewrite varint_at_encode by lia.
  rewrite zdrop_app by done. rewrite Z.odd_mul. cbn [Z.odd andb].
  set (vb := (w + 7) / 8). assert (Hvb : 0 <= vb) by (apply Z.div_pos; lia).
  assert (Hz : zlen (le_bytes (Z.to_nat vb) v) = vb) by (unfold zlen; rewrite length_le_bytes; lia).
  rewrite zlen_app, Hz, ztake_app, zdrop_app by done. pose proof (zlen_nonneg rest).
  rewrite le_val_le_bytes, Z2Nat.id, wrap_small by
    (try done; assert (2 ^ w <= 2 ^ (8 * vb)) by
       (apply Z.pow_le_mono_r; [lia|]; unfold vb; Z.div_mod_to_equations; lia); lia).
  destruct (Z.ltb_spec (vb + zlen rest) vb), (Z.leb_spec (2 ^ w) v); try lia. cbn [orb].
  do 4 f_equal. replace (2 * run / 2) with run by (apply (Z.div_unique _ _ _ 0); lia). lia.
Qed.

(** [out] stands for the values [vs], whatever follows, in bounded space. *)
Record denotes (w : Z) (out vs : list Z) : Prop := Denotes {
  dn_hybrid rest : hybrid w (out ++ rest) = vs ++ hybrid w rest;
  dn_bytes : bytes_ok out;
  dn_len : zlen out <= 15 * zlen vs
}.

Lemma denotes_nil w : denotes w [] [].
Proof. by constructor. Qed.

(** A block: one run. *)
Record block (w : Z) (blk vs : list Z) : Prop := Block {
  bk_run rest : first_run w (blk ++ rest) = Some (vs, rest);
  bk_bytes : bytes_ok blk;
  bk_len : zlen blk <= 15 * zlen vs
}.

Lemma denotes_app w out vs blk vs' : 0 <= w -> denotes w out vs -> block w blk vs' ->
  denotes w (out ++ blk) (vs ++ vs').
Proof.
  intros Hw [Hd Hb Hl] [Hr Hb' Hl']. constructor.
  - intros rest. rewrite <- app_assoc, Hd, hybrid_eq, Hr by done. by rewrite app_assoc.
  - by apply Forall_app.
  - rewrite !zlen_app. lia.
Qed.

Lemma uleb64_short v : 0 <= v < 2 ^ 64 ->
  bytes_ok (uleb128_encode 64 v) /\ zlen (uleb128_encode 64 v) <= 10.
Proof. intros Hv. destruct (uleb128_encode_spec 64 v ltac:(lia) Hv) as (? & _ & _ & ?). done. Qed.

Lemma literal_block w vs groups : 0 <= w <= 32 -> fits_width w vs -> zlen vs = groups * 8 ->
  1 <= groups -> zlen vs <= 2 ^ 40 ->
  block w (uleb128_encode 64 (2 * groups + 1) ++ packed_bytes w vs) vs.
Proof.
  intros Hw Hvs Hz Hg Hn. destruct (uleb64_short (2 * groups + 1) ltac:(lia)) as [Hb Hl].
  destruct (packed_bytes_spec w vs ltac:(lia)) as (Hpb & Hpl & _). constructor.
  - intros rest. rewrite <- app_assoc. by apply first_run_literal.
  - by apply Forall_app.
  - rewrite zlen_app, Hpl, Hz. assert ((w * (groups * 8) + 7) / 8 <= 4 * (groups * 8) + 1).
    { apply Z.div_le_upper_bound; nia. } lia.
Qed.

Lemma rle_block w v run : 0 <= w <= 32 -> 0 <= v < 2 ^ w -> 1 <= run <= 2 ^ 40 ->
  block w (uleb128_encode 64 (2 * run) ++ le_bytes (Z.to_nat ((w + 7) / 8)) v)
    (replicate (Z.to_nat run) v).
Proof.
  intros Hw Hv Hr. destruct (uleb64_short (2 * run) ltac:(lia)) as [Hb Hl]. constructor.
  - intros rest. rewrite <- app_assoc. by apply first_run_rle.
  - apply Forall_app. split; [done|apply le_bytes_ok].
  - rewrite zlen_app, zlen_replicate. unfold zlen at 2. rewrite length_le_bytes.
    assert ((w + 7) / 8 <= 4) by (apply Z.lt_succ_r, Z.div_lt_upper_bound; lia). lia.
Qed.

Section Encode.
Context (w : Z) (vs : list Z) (Hw : 0 <= w <= 32) (Hvs : fits_width w vs) (Hn : zlen vs <= 2 ^ 40).

Lemma subspan_spec a c : 0 <= a -> 0 <= c -> a + c <= zlen vs ->
  zlen (subspan vs a c) = c /\ fits_width w (subspan vs a c) /\
  ztake a vs ++ subspan vs a c = ztake (a + c) vs.
Proof using Hvs.
  intros Ha Hc Hac. unfold subspan. split_and!.
  - rewrite zlen_ztake, zlen_zdrop by lia. lia.
  - by apply Forall_take, Forall_drop.
  - rewrite <- (ztake_split a (a + c) vs) by lia. do 2 f_equal. lia.
Qed.

(** Pending literals are exactly the values up to [i]. *)
Record enc_inv (out0 : list Z) (s : enc_state) : Prop := EncInv {
  ei_end : en_end s = en_i s;
  ei_i : 0 <= en_begin s <= en_i s /\ en_i s <= zlen vs;
  ei_out : exists body, en_out s = out0 ++ body /\ denotes w body (ztake (en_begin s) vs)
}.

Lemma header_eq groups : 0 <= groups < 2 ^ 62 -> Z.lor (u64 (Z.shiftl groups 1)) 1 = 2 * groups + 1.
Proof using.
  intros Hg. rewrite wrap_small by (rewrite Z.shiftl_mul_pow2 by lia; lia).
  rewrite Z.lor_comm, lor_shiftl_add by lia. lia.
Qed.

(** Flushing whole groups. *)
Lemma flush_false out0 s : enc_inv out0 s -> (en_end s - en_begin s) mod 8 = 0 ->
  exists s', flush_literal vs w false s = Some s' /\ enc_inv out0 s' /\ en_i s' = en_i s /\
    en_begin s' = en_i s.
Proof using Hw Hvs Hn.
  intros [He Hi (body & Hout & Hd)] Hm. unfold flush_literal. rewrite He in *.
  set (count := en_i s - en_begin s) in *.
  destruct (Z.eqb_spec count 0) as [H0|H0].
  { exists s. split_and!; [done|by constructor; try done; exists body|done|lia]. }
  rewrite Hm. cbn [Z.eqb orb].
  destruct (subspan_spec (en_begin s) count) as (Hz & Hf & Hcat); [lia..|].
  set (groups := (count + 7) / 8).
  assert (Hg : count = groups * 8) by (unfold groups; Z.div_mod_to_equations; lia).
  rewrite pack_bits_spec by (rewrite ?Hz; nia). eexists. split; [done|].
  split_and!; try done. constructor; cbn; try done; try lia.
  exists (body ++ (uleb128_encode 64 (2 * groups + 1) ++ packed_bytes w (subspan vs (en_begin s) count))).
  split; [unfold put_uleb; rewrite header_eq, Hout by lia; by rewrite !app_assoc|].
  replace (en_i s) with (en_begin s + count) by lia. rewrite <- Hcat.
  apply denotes_app; [lia|done|]. apply literal_block; done || lia.
Qed.

Lemma run_end_spec n x j : 0 <= j <= zlen vs ->
  let j' := run_end n vs x j in
  j <= j' <= zlen vs /\ forall k, j <= k < j' -> zget vs k = Some x.
Proof using.
  revert j. induction n as [|n IH]; intros j Hj; cbn [run_end].
  { split; [lia|]. intros. lia. }
  destruct (zget vs j) as [y|] eqn:Hy; [|split; [lia|intros; lia]].
  destruct (Z.eqb_spec y x) as [-> |]; [|split; [lia|intros; lia]].
  pose proof (zget_Some_range _ _ _ Hy).
  destruct (IH (j + 1)) as [Hr Hall]; [lia|]. split; [lia|]. intros k Hk.
  destruct (Z.eq_dec k j) as [-> |]; [done|apply Hall; lia].
Qed.

Lemma ztake_run a b x : 0 <= a <= b -> b <= zlen vs -> (forall k, a <= k < b -> zget vs k = Some x) ->
  ztake b vs = ztake a vs ++ replicate (Z.to_nat (b - a)) x.
Proof using.
  intros Ha Hb Hall. rewrite <- (ztake_split a b vs) by lia. f_equal. apply list_eq. intros i.
  destruct (decide (i < Z.to_nat (b - a))%nat) as [Hi|Hi].
  - rewrite lookup_replicate_2 by done. unfold ztake, zdrop. rewrite lookup_take_lt, lookup_drop by lia.
    specialize (Hall (a + Z.of_nat i) ltac:(lia)). unfold zget in Hall.
    destruct (Z.ltb_spec (a + Z.of_nat i) 0); [done|].
    by replace (Z.to_nat a + i)%nat with (Z.to_nat (a + Z.of_nat i)) by lia.
  - rewrite !lookup_ge_None_2; [done| |]; unfold ztake, zdrop; rewrite ?length_replicate,
      ?length_take, ?length_drop; lia.
Qed.

Lemma enc_round_inv out0 s : enc_inv out0 s -> en_i s < zlen vs ->
  exists s', enc_round vs w s = Some s' /\ enc_inv out0 s' /\ en_i s < en_i s'.
Proof using Hw Hvs Hn.
  intros Hs Hlt. pose proof Hs as [He Hi (body & Hout & Hd)]. unfold enc_round.
  destruct (proj2 (zget_is_Some vs (en_i s))) as [x Hx]; [lia|]. rewrite Hx.
  destruct (run_end_spec (length vs) x (en_i s + 1)) as [Hj Hall]; [lia|].
  set (j := run_end _ _ _ _) in *. rewrite He.
  set (pend := en_i s - en_begin s).
  set (steal := if pend mod 8 =? 0 then 0 else 8 - pend mod 8).
  assert (Hst : 0 <= steal < 8 /\ (pend + steal) mod 8 = 0).
  { unfold steal. destruct (Z.eqb_spec (pend mod 8) 0); Z.div_mod_to_equations; lia. }
  destruct (Z.leb_spec 8 (j - en_i s)) as [Hrun|Hrun].
  - destruct (Z.leb_spec 8 (j - en_i s - steal)) as [Hrun2|Hrun2].
    + set (s1 := EncState (en_i s + steal) (en_begin s) (en_i s + steal) (en_out s)).
      assert (Hs1 : enc_inv out0 s1) by (constructor; cbn; [done|lia|by exists body]).
      destruct (flush_false out0 s1 Hs1) as (s2 & -> & [He2 Hi2 (b2 & Ho2 & Hd2)] & Hi2e & Hb2e).
      { cbn. replace (en_i s + steal - en_begin s) with (pend + steal) by lia. tauto. }
      cbn [s1 en_i] in *.
      assert (Hy : zget vs (en_i s + steal) = Some x).
      { destruct (Z.eq_dec steal 0) as [-> |]; [by rewrite Z.add_0_r|]. apply Hall. lia. }
      rewrite Hy. eexists. split; [done|]. cbn. split; [|lia]. constructor; cbn; [done|lia|].
      exists (b2 ++ (uleb128_encode 64 (2 * (j - en_i s - steal)) ++ le_bytes (Z.to_nat ((w + 7) / 8)) x)).
      split.
      * unfold put_le, put_uleb. rewrite put_le_bytes by (apply Z.div_pos; lia).
        rewrite wrap_small, Z.shiftl_mul_pow2 by (try rewrite Z.shiftl_mul_pow2; lia).
        rewrite Ho2, (Z.mul_comm _ (2 ^ 1)). by rewrite !app_assoc.
      * rewrite (ztake_run (en_i s + steal) j x); [|lia|lia|].
        2: { intros k Hk. destruct (Z.eq_dec k (en_i s)) as [-> |]; [done|]. apply Hall. lia. }
        rewrite <- Hb2e. replace (j - en_begin s2) with (j - en_i s - steal) by lia.
        apply denotes_app; [lia|done|]. apply rle_block; [lia| |lia].
        unfold zget in Hx. destruct (Z.ltb_spec (en_i s) 0); [done|].
        by eapply Forall_lookup_1 in Hvs.
    + eexists. split; [done|]. cbn. split; [|lia]. constructor; cbn; [done|lia|by exists body].
  - eexists. split; [done|]. cbn. split; [|lia].
    constructor; cbn; [done|destruct (Z.eqb_spec (en_begin s) (en_i s)); lia|].
    exists body. split; [done|]. destruct (Z.eqb_spec (en_begin s) (en_i s)) as [<- |]; done.
Qed.
End Encode.

(** Padding the last group with zeros. *)
Lemma flush_true w vs out0 s : 0 <= w <= 32 -> fits_width w vs -> zlen vs <= 2 ^ 40 ->
  enc_inv w vs out0 s -> en_i s = zlen vs ->
  exists s' body pad, flush_literal vs w true s = Some s' /\ en_out s' = out0 ++ body /\
    (pad < 8)%nat /\ denotes w body (vs ++ replicate pad 0).
Proof.
  intros Hw Hvs Hn [He Hi (body & Hout & Hd)] Hend. unfold flush_literal. rewrite He, Hend in *.
  set (count := zlen vs - en_begin s) in *.
  destruct (Z.eqb_spec count 0) as [H0|H0].
  { exists s, body, O. split_and!; try done; [lia|]. cbn. rewrite app_nil_r.
    by rewrite ztake_all in Hd by lia. }
  destruct (subspan_spec w vs Hvs (en_begin s) count) as (Hz & Hf & Hcat); [lia..|].
  set (lit := subspan vs (en_begin s) count) in *. set (groups := (count + 7) / 8).
  assert (Hg : count <= groups * 8 < count + 8) by (unfold groups; Z.div_mod_to_equations; lia).
  set (pad := Z.to_nat (groups * 8 - count)).
  assert (Hbody : (if (count mod 8 =? 0) || negb true then lit else lit ++ replicate pad 0) =
    lit ++ replicate pad 0).
  { rewrite orb_false_r. destruct (Z.eqb_spec (count mod 8) 0); [|done].
    assert (groups * 8 = count) by (unfold groups; Z.div_mod_to_equations; lia).
    unfold pad. replace (groups * 8 - count) with 0 by lia. cbn. by rewrite app_nil_r. }
  rewrite Hbody.
  assert (Hzp : zlen (lit ++ replicate pad 0) = groups * 8)
    by (rewrite zlen_app, zlen_replicate, Hz; lia).
  rewrite pack_bits_spec by (rewrite ?Hzp; nia).
  eexists _, _, pad. split_and!; [done|..].
  - cbn. unfold put_uleb. rewrite header_eq, Hout by lia. rewrite <- !app_assoc. done.
  - lia.
  - assert (Hv : ztake (en_begin s) vs ++ (lit ++ replicate pad 0) = vs ++ replicate pad 0).
    { rewrite app_assoc, Hcat. f_equal. apply ztake_all. lia. }
    rewrite <- Hv. apply denotes_app; [lia|done|]. apply literal_block; [done| |done|lia|lia].
    apply Forall_app. split; [done|]. apply Forall_replicate.
    assert (0 < 2 ^ w) by (apply Z.pow_pos_nonneg; lia). lia.
Qed.

Lemma enc_loop_inv w vs fuel out0 s : 0 <= w <= 32 -> fits_width w vs -> zlen vs <= 2 ^ 40 ->
  enc_inv w vs out0 s -> zlen vs - en_i s <= Z.of_nat fuel ->
  exists s', enc_loop fuel vs w s = Some s' /\ enc_inv w vs out0 s' /\ en_i s' = zlen vs.
Proof.
  intros Hw Hvs Hn. revert s. induction fuel as [|fuel IH]; intros s Hs Hf; cbn [enc_loop];
    pose proof (ei_i _ _ _ _ Hs); destruct (Z.leb_spec (zlen vs) (en_i s));
    try (exists s; split_and!; [done|done|lia]); [lia|].
  destruct (enc_round_inv w vs Hw Hvs Hn out0 s Hs) as (s1 & -> & Hs1 & Hlt); [lia|].
  apply IH; [done|lia].
Qed.

Lemma rle_hybrid_encode_spec w vs out : 0 <= w <= 32 -> fits_width w vs -> zlen vs <= 2 ^ 40 ->
  exists body pad, rle_hybrid_encode vs w out = Some (out ++ body) /\ (pad < 8)%nat /\
    denotes w body (vs ++ replicate pad 0).
Proof.
  intros Hw Hvs Hn. unfold rle_hybrid_encode. pose proof (zlen_nonneg vs).
  destruct (enc_loop_inv w vs (length vs) out (EncState 0 0 0 out)) as (s & -> & Hs & Hi); try done.
  - constructor; cbn; [done|lia|]. exists []. split; [by rewrite app_nil_r|apply denotes_nil].
  - cbn. unfold zlen. lia.
  - destruct (flush_true w vs out s Hw Hvs Hn Hs Hi) as (s' & body & pad & -> & Ho & Hp & Hd).
    exists body, pad. by rewrite Ho.
Qed.

(** Decoding what denotes the values, and perhaps padding. *)
Lemma denotes_get w body vs pad : 0 <= w <= 32 -> denotes w body (vs ++ pad) -> zlen vs + zlen pad <= 2 ^ 41 ->
  exists d, get (zlen vs) (new_decoder body w) = Some (vs, d).
Proof.
  intros Hw [Hd Hb Hz] Hn. rewrite zlen_app in Hz. pose proof (zlen_nonneg vs).
  destruct (get_spec (new_decoder body w) (zlen vs)) as (d & Hg & _); [apply new_decoder_inv; [done|lia|lia]|
    done|].
  exists d. rewrite Hg, new_decoder_pending. destruct (Z.leb_spec w 32); [|lia].
  specialize (Hd []). rewrite app_nil_r in Hd. rewrite Hd, <- app_assoc. by rewrite ztake_app.
Qed.

(** C5: hybrid round trip. [rle_hybrid_encode] never stores outside its
    buffer, and [get(n)] on what it appended returns the [n] values encoded,
    for widths up to 32 and up to 2^40 values that fit the width. *)
Theorem rle_hybrid_roundtrip w vs out :
  0 <= w <= 32 -> fits_width w vs -> zlen vs <= 2 ^ 40 ->
  exists body, rle_hybrid_encode vs w out = Some (out ++ body) /\
    zlen body <= 15 * (zlen vs + 7) /\
    exists d, get (zlen vs) (new_decoder body w) = Some (vs, d).
Proof.
  intros Hw Hvs Hn. destruct (rle_hybrid_encode_spec w vs out Hw Hvs Hn) as (body & pad & He & Hpad & Hd).
  pose proof (dn_len _ _ _ Hd) as Hz. rewrite zlen_app, zlen_replicate in Hz. pose proof (zlen_nonneg vs).
  exists body. split_and!; [done|lia|]. apply (denotes_get w body vs _ Hw Hd). rewrite zlen_replicate. lia.
Qed.

Lemma rle_hybrid_roundtrip_witness :
  exists body d, rle_hybrid_encode [1; 1; 1; 1; 1; 1; 1; 1; 1; 2] 2 [] = Some ([] ++ body) /\
    get 10 (new_decoder body 2) = Some ([1; 1; 1; 1; 1; 1; 1; 1; 1; 2], d).
Proof.
  destruct (rle_hybrid_roundtrip 2 [1; 1; 1; 1; 1; 1; 1; 1; 1; 2] [] ltac:(lia)
    ltac:(repeat constructor; lia) ltac:(by vm_compute)) as (body & H1 & _ & d & H2).
  exists body, d. split; [exact H1|exact H2].
Defined.
