(* ===== verification/Bitmap.v ===== *)
(** * RLE encoding of a bitmap (columnar_encode.hpp section 46, [rle_bitmap_encode])

    The hybrid stream of width 1 written directly from a bitmap's bytes.
    [None] is a read outside the bitmap's [bm] bytes. *)
From S2P Require Import Prelude Parser BytesParsers Combinators CombinatorFacts Numbers Columnar RleHybrid ColumnarEncode.

(** The lambda [flush_literal(to, with_tail)]. *)
Definition flush_bitmap (bm : list Z) (n lit_from to : Z) (with_tail : bool) (out : list Z) : option (list Z) :=
  let full := n / 8 in
  let groups := to - lit_from + (if with_tail then 1 else 0) in
  if groups =? 0 then Some out
  else if zlen bm <? to then None
  else
    let out := put_uleb out (Z.lor (u64 (Z.shiftl groups 1)) 1) in
    let out := out ++ ztake (to - lit_from) (zdrop lit_from bm) in
    if with_tail then
      match zget bm full with
      | None => None
      | Some b => Some (out ++ [Z.land b (u8 (2 ^ (n mod 8) - 1))])
      end
    else Some out.

(** [while (e + 8 <= full)]: eight equal bytes at a time. *)
Fixpoint word_run (fuel : nat) (bm : list Z) (v full e : Z) : option Z :=
  if e + 8 <=? full then
    match fuel with
    | O => None
    | S fuel =>
        match load_le64 bm e with
        | None => None
        | Some w => if w =? (if v =? 0 then 0 else 2 ^ 64 - 1) then word_run fuel bm v full (e + 8) else Some e
        end
    end
  else Some e.

(** [while (e < full && bm[e] == v) ++e] *)
Fixpoint byte_run (fuel : nat) (bm : list Z) (v full e : Z) : option Z :=
  if e <? full then
    match fuel with
    | O => None
    | S fuel =>
        match zget bm e with
        | None => None
        | Some x => if x =? v then byte_run fuel bm v full (e + 1) else Some e
        end
    end
  else Some e.

(** [while (b < full)]: the bytes consumed, the first byte of the pending
    literal and the output. *)
Fixpoint bitmap_loop (fuel : nat) (bm : list Z) (n b lit_from : Z) (out : list Z) : option (Z * list Z) :=
  let full := n / 8 in
  if b <? full then
    match fuel with
    | O => None
    | S fuel =>
        match zget bm b with
        | None => None
        | Some v =>
            if (v =? 0) || (v =? 255) then
              match word_run (length bm) bm v full (b + 1) with
              | None => None
              | Some e1 =>
                  match byte_run (length bm) bm v full e1 with
                  | None => None
                  | Some e =>
                      if 2 <=? e - b then
                        match flush_bitmap bm n lit_from b false out with
                        | None => None
                        | Some out =>
                            let out := put_uleb out (u64 (Z.shiftl (u64 ((e - b) * 8)) 1)) in
                            let out := out ++ [if v =? 0 then 0 else 1] in
                            bitmap_loop fuel bm n e e out
                        end
                      else bitmap_loop fuel bm n (b + 1) lit_from out
                  end
              end
            else bitmap_loop fuel bm n (b + 1) lit_from out
        end
    end
  else Some (lit_from, out).

Definition rle_bitmap_encode (bm : list Z) (n : Z) (out : list Z) : option (list Z) :=
  match bitmap_loop (length bm) bm n 0 0 out with
  | None => None
  | Some (lit_from, out) => flush_bitmap bm n lit_from (n / 8) (negb (n mod 8 =? 0)) out
  end.

(** ** What the bytes of a bitmap denote *)

(** Bits [from, from + count) as 0s and 1s. *)
Definition bits_of (bm : list Z) (from count : Z) : list Z :=
  List.map (fun i => Z.b2z (bit bm (from + i))) (seqZ 0 count).

Lemma zlen_bits_of bm a c : 0 <= c -> zlen (bits_of bm a c) = c.
Proof. intros. unfold bits_of. by rewrite zlen_map, zlen_seqZ. Qed.

Lemma bits_of_fit bm a c : fits_width 1 (bits_of bm a c).
Proof. apply Forall_map, Forall_true. intros i. by destruct (bit bm _). Qed.

Lemma bits_of_app bm a c c' : 0 <= c -> 0 <= c' -> bits_of bm a (c + c') = bits_of bm a c ++ bits_of bm (a + c) c'.
Proof.
  intros Hc Hc'. unfold bits_of. rewrite seqZ_app, List.map_app by done. f_equal. rewrite Z.add_0_l.
  rewrite map_seqZ_shift. apply map_ext. intros i. do 2 f_equal. lia.
Qed.

Lemma pack_val_bits X k : 0 <= X ->
  pack_val 1 (List.map (fun i => Z.b2z (Z.testbit X i)) (seqZ 0 (Z.of_nat k))) = X mod 2 ^ Z.of_nat k.
Proof.
  intros HX. induction k as [|k IH]; [cbn; by rewrite Z.mod_1_r|].
  rewrite Nat2Z.inj_succ, <- Z.add_1_r, seqZ_app, List.map_app by lia.
  change (seqZ (0 + Z.of_nat k) 1) with [Z.of_nat k]. cbn [List.map].
  rewrite pack_val_app, IH, zlen_map, zlen_seqZ, Z.mul_1_l by lia.
  rewrite (Z.mod_small (Z.b2z _)) by (by destruct (Z.testbit X _)).
  apply Z.bits_inj'. intros i Hi. assert (Hk : 0 < 2 ^ Z.of_nat k) by (apply Z.pow_pos_nonneg; lia).
  rewrite Z.mul_comm, <- lor_shiftl_add by (try apply Z.mod_pos_bound; lia).
  rewrite Z.lor_spec, testbit_shiftl, !testbit_mod_pow2 by lia.
  destruct (Z.leb_spec 0 i); [|lia]. cbn [andb].
  destruct (Z.ltb_spec i (Z.of_nat k)), (Z.ltb_spec i (Z.of_nat k + 1)); try lia; cbn [andb].
  - rewrite (Z.testbit_neg_r _ (i - _)) by lia. apply orb_false_r.
  - replace i with (Z.of_nat k) by lia. rewrite Z.sub_diag. by destruct (Z.testbit X (Z.of_nat k)).
  - destruct (Z.testbit X (Z.of_nat k)); cbn [Z.b2z orb]; [|apply Z.bits_0].
    apply (testbit_above 1 1); lia.
Qed.

(** Packing a byte list's bits at width 1 gives the bytes. *)
Lemma packed_bits_of l : bytes_ok l -> packed_bytes 1 (bits_of l 0 (8 * zlen l)) = l.
Proof.
  intros Hl. pose proof (zlen_nonneg l). destruct (packed_bytes_spec 1 (bits_of l 0 (8 * zlen l))) as (Hb & Hz & Hv); [lia|].
  rewrite zlen_bits_of in Hz by lia.
  replace ((1 * (8 * zlen l) + 7) / 8) with (zlen l) in Hz by (apply (Z.div_unique _ _ _ 7); lia).
  apply le_val_inj; [done..|by apply Nat2Z.inj|]. rewrite Hv. unfold bits_of, bit.
  change (fun i => Z.b2z (Z.testbit (le_val l) (0 + i))) with (fun i => Z.b2z (Z.testbit (le_val l) i)).
  pose proof (le_val_range l Hl) as Hr. fold (zlen l) in Hr.
  rewrite <- (Z2Nat.id (8 * zlen l)) by lia. rewrite pack_val_bits by lia. rewrite Z2Nat.id by lia. by apply Z.mod_small.
Qed.

Lemma bits_of_zdrop l p c : bytes_ok l -> 0 <= p -> bits_of (zdrop p l) 0 c = bits_of l (8 * p) c.
Proof.
  intros Hl Hp. apply map_ext_in. intros i Hi. apply in_seqZ in Hi. rewrite bit_zdrop by (done || lia). done.
Qed.

Lemma bits_of_ztake l p c : bytes_ok l -> 0 <= p -> c <= 8 * p -> bits_of (ztake p l) 0 c = bits_of l 0 c.
Proof.
  intros Hl Hp Hc. apply map_ext_in. intros i Hi. apply in_seqZ in Hi. rewrite bit_ztake by (done || lia). done.
Qed.

(** A literal run copied from the bytes. *)
Lemma literal_bytes bs groups : bytes_ok bs -> zlen bs = groups -> 1 <= groups <= 2 ^ 37 ->
  block 1 (uleb128_encode 64 (2 * groups + 1) ++ bs) (bits_of bs 0 (8 * groups)).
Proof.
  intros Hb Hz Hg. rewrite <- (packed_bits_of bs Hb) at 1. rewrite Hz.
  apply literal_block; [lia|apply bits_of_fit|rewrite zlen_bits_of; lia|lia|rewrite zlen_bits_of; lia].
Qed.

Section Encode.
Context (bm : list Z) (n : Z) (out0 : list Z) (Hbm : bytes_ok bm) (Hn : 0 <= n <= 2 ^ 40)
  (Hin : (n + 7) / 8 <= zlen bm).

Lemma full_range : 0 <= n / 8 <= 2 ^ 37 /\ n / 8 <= zlen bm /\ n = 8 * (n / 8) + n mod 8 /\ 0 <= n mod 8 < 8.
Proof using Hn Hin. split_and!; Z.div_mod_to_equations; lia. Qed.

(** The stream so far stands for the first [8 * lit] bits. *)
Definition wrote (lit : Z) (out : list Z) : Prop :=
  exists body, out = out0 ++ body /\ denotes 1 body (bits_of bm 0 (8 * lit)).

Lemma wrote_block lit out blk c : wrote lit out -> 0 <= lit <= c -> block 1 blk (bits_of bm (8 * lit) (8 * (c - lit))) ->
  wrote c (out ++ blk).
Proof using.
  intros (body & -> & Hd) Hl Hb. exists (body ++ blk). split; [by rewrite app_assoc|].
  replace (8 * c) with (8 * lit + 8 * (c - lit)) by lia. rewrite bits_of_app by lia. by apply denotes_app.
Qed.

Lemma flush_bitmap_false lit b out : wrote lit out -> 0 <= lit <= b -> b <= n / 8 ->
  exists out', flush_bitmap bm n lit b false out = Some out' /\ wrote b out'.
Proof using Hbm Hn Hin.
  intros Hw Hl Hb. pose proof full_range. unfold flush_bitmap. rewrite Z.add_0_r.
  destruct (Z.eqb_spec (b - lit) 0).
  { exists out. split; [done|]. by replace b with lit by lia. }
  destruct (Z.ltb_spec (zlen bm) b); [lia|]. eexists. split; [done|]. unfold put_uleb.
  rewrite header_eq, <- app_assoc by lia. apply (wrote_block lit); [done|lia|].
  rewrite <- bits_of_zdrop, <- (bits_of_ztake (zdrop lit bm) (b - lit)) by (auto using bytes_ok_zdrop; lia).
  apply literal_bytes; [auto using bytes_ok_ztake, bytes_ok_zdrop|rewrite zlen_ztake, zlen_zdrop; lia|lia].
Qed.

(** A run of equal bytes. *)
Definition uniform (v b e : Z) : Prop := forall k, b <= k < e -> zget bm k = Some v.

Lemma byte_run_spec fuel v b e : uniform v b e -> 0 <= b <= e -> e <= n / 8 -> n / 8 - e <= Z.of_nat fuel ->
  exists e', byte_run fuel bm v (n / 8) e = Some e' /\ e <= e' <= n / 8 /\ uniform v b e'.
Proof using Hn Hin.
  pose proof full_range. revert e. induction fuel as [|fuel IH]; intros e Hu Hb He Hf; cbn [byte_run];
    destruct (Z.ltb_spec e (n / 8)); try (exists e; split_and!; done || lia).
  destruct (proj2 (zget_is_Some bm e)) as [x Hx]; [lia|]. rewrite Hx.
  destruct (Z.eqb_spec x v) as [-> |]; [|exists e; split_and!; done || lia].
  destruct (IH (e + 1)) as (e' & -> & He' & Hu'); [|lia..|].
  - intros k Hk. destruct (decide (k = e)) as [-> |]; [done|]. apply Hu. lia.
  - exists e'. split_and!; done || lia.
Qed.

Lemma word_run_spec fuel v b e : uniform v b e -> v = 0 \/ v = 255 -> 0 <= b <= e -> e <= n / 8 ->
  n / 8 - e <= Z.of_nat fuel ->
  exists e', word_run fuel bm v (n / 8) e = Some e' /\ e <= e' <= n / 8 /\ uniform v b e'.
Proof using Hbm Hn Hin.
  pose proof full_range. revert e. induction fuel as [|fuel IH]; intros e Hu Hv Hb He Hf; cbn [word_run];
    destruct (Z.leb_spec (e + 8) (n / 8)); try (exists e; split_and!; done || lia).
  unfold load_le64. destruct (Z.leb_spec 0 e), (Z.leb_spec (e + 8) (zlen bm)); try lia. cbn [andb].
  destruct (Z.eqb_spec (le_val (ztake 8 (zdrop e bm))) (if v =? 0 then 0 else 2 ^ 64 - 1)) as [Hw|];
    [|exists e; split_and!; done || lia].
  assert (Hrep : ztake 8 (zdrop e bm) = replicate 8 v).
  { apply le_val_inj; [auto using bytes_ok_ztake, bytes_ok_zdrop| | |].
    - apply Forall_replicate. unfold is_byte. lia.
    - apply Nat2Z.inj. change (zlen (ztake 8 (zdrop e bm)) = zlen (replicate 8 v)).
      rewrite zlen_ztake, zlen_zdrop, zlen_replicate by lia. lia.
    - rewrite Hw. by destruct Hv; subst v. }
  destruct (IH (e + 8)) as (e' & -> & He' & Hu'); [|done|lia..|].
  - intros k Hk. destruct (decide (k < e)); [apply Hu; lia|].
    replace k with (e + (k - e)) by lia. rewrite <- zget_zdrop by lia. rewrite <- (zget_ztake (zdrop e bm) 8) by lia.
    rewrite Hrep. unfold zget. destruct (Z.ltb_spec (k - e) 0); [lia|]. apply lookup_replicate_2. lia.
  - exists e'. split_and!; done || lia.
Qed.

Lemma uniform_bits v b e : uniform v b e -> v = 0 \/ v = 255 -> 0 <= b <= e ->
  bits_of bm (8 * b) (8 * (e - b)) = replicate (Z.to_nat (8 * (e - b))) (if v =? 0 then 0 else 1).
Proof using Hbm.
  intros Hu Hv Hb. rewrite <- (zlen_bits_of bm (8 * b) (8 * (e - b))) at 2 by lia. unfold zlen. rewrite Nat2Z.id.
  symmetry. apply replicate_as_Forall. split; [done|]. apply Forall_map, List.Forall_forall.
  intros i Hi. apply in_seqZ in Hi.
  assert (Hdm : i = 8 * (i / 8) + i mod 8) by (apply Z.div_mod; lia).
  pose proof (Z.mod_pos_bound i 8 ltac:(lia)). assert (0 <= i / 8 < e - b).
  { split; [apply Z.div_pos; lia|apply Z.div_lt_upper_bound; lia]. }
  pose proof (bit_byte bm (b + i / 8) v (i mod 8) Hbm (Hu (b + i / 8) ltac:(lia)) ltac:(lia)) as Hbit.
  replace (8 * (b + i / 8) + i mod 8) with (8 * b + i) in Hbit by lia.
  destruct (Z.ltb_spec (i mod 8) 8); [|lia]. cbn [andb] in Hbit. rewrite <- Hbit.
  destruct Hv; subst v; cbn [Z.eqb]; [by rewrite Z.bits_0|].
  change 255 with (Z.ones 8). by rewrite Z.ones_spec_low by lia.
Qed.

Lemma bitmap_loop_spec fuel b lit out : wrote lit out -> 0 <= lit <= b -> b <= n / 8 -> n / 8 - b <= Z.of_nat fuel ->
  exists lit' out', bitmap_loop fuel bm n b lit out = Some (lit', out') /\ 0 <= lit' <= n / 8 /\ wrote lit' out'.
Proof using Hbm Hn Hin.
  pose proof full_range. revert b lit out. induction fuel as [|fuel IH]; intros b lit out Hw Hl Hb Hf; cbn [bitmap_loop];
    destruct (Z.ltb_spec b (n / 8)); try (exists lit, out; split_and!; done || lia).
  destruct (proj2 (zget_is_Some bm b)) as [v Hv]; [lia|]. rewrite Hv.
  destruct ((v =? 0) || (v =? 255)) eqn:Huni; [|apply IH; done || lia].
  assert (Hv' : v = 0 \/ v = 255) by lia.
  assert (Hu : uniform v b (b + 1)) by (intros k Hk; by replace k with b by lia).
  destruct (word_run_spec (length bm) v b (b + 1) Hu Hv') as (e1 & -> & He1 & Hu1); [lia|lia|unfold zlen in *; lia|].
  destruct (byte_run_spec (length bm) v b e1 Hu1) as (e & -> & He & Hue); [lia|lia|unfold zlen in *; lia|].
  destruct (Z.leb_spec 2 (e - b)); [|apply IH; done || lia].
  destruct (flush_bitmap_false lit b out Hw Hl Hb) as (out1 & -> & Hw1).
  assert (Hrun : wrote e ((put_uleb out1 (u64 (Z.shiftl (u64 ((e - b) * 8)) 1))) ++ [if v =? 0 then 0 else 1])).
  { unfold put_uleb. rewrite (wrap_small 64 ((e - b) * 8)), Z.shiftl_mul_pow2, wrap_small by lia.
    rewrite <- app_assoc. apply (wrote_block b); [done|lia|]. rewrite (uniform_bits v b e) by (done || lia).
    replace ((e - b) * 8 * 2 ^ 1) with (2 * (8 * (e - b))) by lia.
    pose proof (rle_block 1 (if v =? 0 then 0 else 1) (8 * (e - b)) ltac:(lia) ltac:(destruct (v =? 0); lia) ltac:(lia)) as Hr.
    by destruct (v =? 0). }
  apply IH; done || lia.
Qed.

(** The last literal, with the partial byte. *)
Lemma flush_bitmap_end lit out : wrote lit out -> 0 <= lit <= n / 8 ->
  exists body pad, flush_bitmap bm n lit (n / 8) (negb (n mod 8 =? 0)) out = Some (out0 ++ body) /\
    (pad < 8)%nat /\ denotes 1 body (bits_of bm 0 n ++ replicate pad 0).
Proof using Hbm Hn Hin.
  intros Hw Hl. pose proof full_range as (Hf1 & Hf2 & Hdm & Hm). destruct (Z.eqb_spec (n mod 8) 0) as [H0|H0]; cbn [negb].
  { destruct (flush_bitmap_false lit (n / 8) out Hw ltac:(lia) ltac:(lia)) as (out' & -> & body & -> & Hd).
    exists body, 0%nat. split; [done|]. split; [lia|]. rewrite app_nil_r. by replace n with (8 * (n / 8)) by lia. }
  unfold flush_bitmap. destruct (Z.eqb_spec (n / 8 - lit + 1) 0); [lia|].
  destruct (Z.ltb_spec (zlen bm) (n / 8)); [lia|].
  destruct (proj2 (zget_is_Some bm (n / 8))) as [t Ht].
  { assert (n / 8 < (n + 7) / 8) by (apply Z.lt_le_trans with (n / 8 + 1); [lia|]; apply Z.div_le_lower_bound; lia). lia. }
  rewrite Ht. destruct Hw as (body & -> & Hd). unfold put_uleb. rewrite header_eq by lia.
  set (mask := u8 (2 ^ (n mod 8) - 1)). set (groups := n / 8 - lit + 1).
  set (bs := ztake (n / 8 - lit) (zdrop lit bm) ++ [Z.land t mask]).
  exists (body ++ uleb128_encode 64 (2 * groups + 1) ++ bs), (Z.to_nat (8 - n mod 8)).
  split; [unfold bs; by rewrite <- !app_assoc|]. split; [lia|].
  pose proof (zget_byte _ _ _ Hbm Ht) as Htb. unfold is_byte in Htb.
  assert (Hmask : mask = Z.ones (n mod 8)).
  { unfold mask. rewrite Z.ones_equiv, wrap_small; [lia|].
    assert (2 ^ (n mod 8) < 2 ^ 8) by (apply Z.pow_lt_mono_r; lia). assert (0 < 2 ^ (n mod 8)) by (apply Z.pow_pos_nonneg; lia). lia. }
  assert (Hbs : bytes_ok bs /\ zlen bs = groups).
  { unfold bs. split; [|rewrite zlen_app, zlen_ztake, zlen_zdrop by lia; change (zlen [_]) with 1; lia].
    apply Forall_app. split; [auto using bytes_ok_ztake, bytes_ok_zdrop|]. repeat constructor.
    - apply Z.land_nonneg. lia.
    - rewrite Hmask, Z.land_ones by lia. pose proof (Z.mod_le t (2 ^ (n mod 8)) ltac:(lia) ltac:(apply Z.pow_pos_nonneg; lia)). lia. }
  destruct Hbs as [Hbok Hbz].
  assert (Hbits : bits_of bm 0 n ++ replicate (Z.to_nat (8 - n mod 8)) 0 =
    bits_of bm 0 (8 * lit) ++ bits_of bs 0 (8 * groups)).
  { replace n with (8 * lit + (n - 8 * lit)) at 1 by lia. rewrite bits_of_app, <- app_assoc by lia. f_equal.
    replace (8 * groups) with ((n - 8 * lit) + (8 - n mod 8)) by lia. rewrite bits_of_app by lia. f_equal.
    - apply map_ext_in. intros i Hi. apply in_seqZ in Hi. f_equal. rewrite !Z.add_0_l. unfold bs.
      rewrite bit_app by (auto using bytes_ok_ztake, bytes_ok_zdrop; lia). rewrite zlen_ztake, zlen_zdrop, Z.min_l by lia.
      destruct (Z.ltb_spec i (8 * (n / 8 - lit))).
      + by rewrite bit_ztake, bit_zdrop by (auto using bytes_ok_zdrop; lia).
      + unfold bit at 2. cbn [le_val]. rewrite Z.mul_0_r, Z.add_0_r, Hmask, Z.land_spec, Z.ones_spec_low, andb_true_r by lia.
        rewrite (bit_byte bm (n / 8) t _ Hbm Ht) by lia. destruct (Z.ltb_spec (i - 8 * (n / 8 - lit)) 8); [|lia]. cbn [andb]. f_equal. lia.
    - symmetry. rewrite <- (zlen_bits_of bs (0 + (n - 8 * lit)) (8 - n mod 8)) at 2 by lia. unfold zlen. rewrite Nat2Z.id.
      symmetry. apply replicate_as_Forall. split; [done|]. apply Forall_map, List.Forall_forall. intros i Hi. apply in_seqZ in Hi.
      unfold bs. rewrite bit_app by (auto using bytes_ok_ztake, bytes_ok_zdrop; lia). rewrite zlen_ztake, zlen_zdrop, Z.min_l by lia.
      destruct (Z.ltb_spec (0 + (n - 8 * lit) + i) (8 * (n / 8 - lit))); [lia|].
      unfold bit. cbn [le_val]. rewrite Z.mul_0_r, Z.add_0_r, Hmask, Z.land_spec, Z.ones_spec_high, andb_false_r by lia. done. }
  rewrite Hbits. apply denotes_app; [lia|done|]. by apply literal_bytes; [| |lia].
Qed.
End Encode.

(** Bitmap round trip. [rle_bitmap_encode] reads only the bitmap's bytes,
    and the hybrid decoder of width 1 asked for [n] values reads back bits
    0 to n-1, for every bitmap of up to 2^40 bits. *)
Theorem rle_bitmap_roundtrip bm n out :
  bytes_ok bm -> 0 <= n <= 2 ^ 40 -> (n + 7) / 8 <= zlen bm ->
  exists body d, rle_bitmap_encode bm n out = Some (out ++ body) /\
    get n (new_decoder body 1) = Some (bits_of bm 0 n, d).
Proof.
  intros Hbm Hn Hin. unfold rle_bitmap_encode. pose proof (full_range bm n Hn Hin).
  destruct (bitmap_loop_spec bm n out Hbm Hn Hin (length bm) 0 0 out) as (lit & out1 & -> & Hl & Hw);
    [|lia|lia|unfold zlen in *; lia|].
  { exists []. rewrite app_nil_r. split; [done|]. apply denotes_nil. }
  destruct (flush_bitmap_end bm n out Hbm Hn Hin lit out1 Hw Hl) as (body & pad & -> & Hp & Hd).
  destruct (denotes_get 1 body (bits_of bm 0 n) _ ltac:(lia) Hd) as (d & Hg).
  { rewrite zlen_bits_of, zlen_replicate by lia. lia. }
  rewrite zlen_bits_of in Hg by lia. by exists body, d.
Qed.

Lemma rle_bitmap_roundtrip_witness :
  exists body d, rle_bitmap_encode [0; 0; 0; 181; 255] 37 [] = Some ([] ++ body) /\
    get 37 (new_decoder body 1) = Some (bits_of [0; 0; 0; 181; 255] 0 37, d).
Proof.
  exact (rle_bitmap_roundtrip [0; 0; 0; 181; 255] 37 [] ltac:(repeat constructor; lia) ltac:(lia) ltac:(by vm_compute)).
Defined.
