(* ===== verification/Delta.v ===== *)
(** * DELTA_BINARY_PACKED (columnar.hpp section 28, columnar_encode.hpp section 47)

    Decoder and encoder for [w]-bit integers ([w] = 32 or 64). The unsigned
    running value [last] wraps modulo 2^w; an output element is its
    two's-complement reading. [None] is undefined behaviour, [Some None] is
    [nullopt]. *)
From S2P Require Import Prelude Parser BytesParsers Combinators CombinatorFacts Numbers Columnar RleHybrid ColumnarEncode.

(** ** Decoder *)

(** The lambda [rd]: a varint at offset [p], and the offset behind it. *)
Definition rd (l : list Z) (p : Z) : option (option (Z * Z)) :=
  match varint_u64 (mem_of 0 l) (Input p (zlen l) 0 false None 0) with
  | Done v r => Some (Some (v, i_first r))
  | Err _ => Some None
  | Stop _ => None
  end.

(** [for (i < k) { last = U(last + min_delta + U(unpacked[i])); ... }] *)
Fixpoint accumulate (w min_delta last : Z) (us : list Z) : Z * list Z :=
  match us with
  | [] => (last, [])
  | u :: t =>
      let last' := wrap w (last + min_delta + wrap w u) in
      let '(final, vs) := accumulate w min_delta last' t in (final, last' :: vs)
  end.

(** The values of one miniblock at offset [p], in chunks of at most 1024. *)
Fixpoint mini_chunks (fuel : nat) (w : Z) (l : list Z) (p width need done min_delta last : Z) :
    option (option (Z * list Z)) :=
  if need <=? done then Some (Some (last, []))
  else match fuel with
       | O => None
       | S fuel =>
           let k := Z.min 1024 (need - done) in
           let off := done * width / 8 in
           if zlen l - p <? off then None
           else match unpack_bits 64 (zdrop (p + off) l) width (replicate (Z.to_nat k) 0) k with
                | None => None
                | Some None => Some None
                | Some (Some us) =>
                    let '(last', vs) := accumulate w min_delta last us in
                    match mini_chunks fuel w l p width need (done + k) min_delta last' with
                    | Some (Some (final, vs')) => Some (Some (final, vs ++ vs'))
                    | r => r
                    end
                end
       end.

(** [for (m < minis && produced < n)]: [ws] the widths left, [want] the values
    still wanted; the offset, [last] and values when it ends. *)
Fixpoint mini_loop (w : Z) (l : list Z) (per_mini min_delta : Z) (ws : list Z) (p want last : Z) :
    option (option (Z * Z * list Z)) :=
  match ws with
  | [] => Some (Some (p, last, []))
  | width :: ws =>
      if want <=? 0 then Some (Some (p, last, []))
      else if w <? width then Some None
      else
        let mini_bytes := per_mini * width / 8 in
        let need_vals := Z.min per_mini want in
        let need_bytes := (need_vals * width + 7) / 8 in
        if zlen l - p <? need_bytes then Some None
        else match mini_chunks (Z.to_nat need_vals) w l p width need_vals 0 min_delta last with
             | None => None
             | Some None => Some None
             | Some (Some (last', vs)) =>
                 let p' := p + Z.min mini_bytes (zlen l - p) in
                 match mini_loop w l per_mini min_delta ws p' (want - need_vals) last' with
                 | Some (Some (p'', final, vs')) => Some (Some (p'', final, vs ++ vs'))
                 | r => r
                 end
             end
  end.

(** [while (produced < n)]: a block yields at least one value. *)
Fixpoint block_loop (fuel : nat) (w : Z) (l : list Z) (minis per_mini p want last : Z) :
    option (option (Z * list Z)) :=
  if want <=? 0 then Some (Some (p, []))
  else match fuel with
       | O => None
       | S fuel =>
           match rd l p with
           | None => None
           | Some None => Some None
           | Some (Some (min_zz, p1)) =>
               let min_delta := wrap w (zigzag_decode 64 min_zz) in
               if zlen l - p1 <? minis then Some None
               else
                 let ws := ztake minis (zdrop p1 l) in
                 match mini_loop w l per_mini min_delta ws (p1 + minis) want last with
                 | None => None
                 | Some None => Some None
                 | Some (Some (p2, last', vs)) =>
                     match block_loop fuel w l minis per_mini p2 (want - zlen vs) last' with
                     | Some (Some (p3, vs')) => Some (Some (p3, vs ++ vs'))
                     | r => r
                     end
                 end
           end
       end.

(** The header's four varints. *)
Definition delta_header (l : list Z) : option (option (Z * Z * Z * Z * Z)) :=
  match rd l 0 with
  | Some (Some (block_size, p1)) =>
      match rd l p1 with
      | Some (Some (minis, p2)) =>
          match rd l p2 with
          | Some (Some (total, p3)) =>
              match rd l p3 with
              | Some (Some (first_zz, p4)) => Some (Some (block_size, minis, total, first_zz, p4))
              | Some None => Some None
              | None => None
              end
          | Some None => Some None
          | None => None
          end
      | Some None => Some None
      | None => None
      end
  | Some None => Some None
  | None => None
  end.

Definition delta_shape_ok (block_size minis : Z) : bool :=
  negb (block_size =? 0) && (block_size mod 128 =? 0) && negb (minis =? 0) &&
  (block_size mod minis =? 0) && ((block_size / minis) mod 32 =? 0) && (block_size <=? 2 ^ 20).

(** The consumed byte count and the output span. *)
Definition delta_binary_packed (w : Z) (l out : list Z) (n : Z) : option (option (Z * list Z)) :=
  if zlen out <? n then Some None
  else match delta_header l with
       | None => None
       | Some None => Some None
       | Some (Some (block_size, minis, total, first_zz, p)) =>
           if negb (delta_shape_ok block_size minis) then Some None
           else if total <? n then Some None
           else
             let per_mini := block_size / minis in
             if n =? 0 then Some (Some (p, out))
             else
               let last := wrap w (zigzag_decode 64 first_zz) in
               match block_loop (Z.to_nat n) w l minis per_mini p (n - 1) last with
               | None => None
               | Some None => Some None
               | Some (Some (p', vs)) =>
                   match store out 0 (List.map (sint w) (last :: vs)) with
                   | None => None
                   | Some out' => Some (Some (p', out'))
                   end
               end
       end.

(** ** Encoder *)

(** The differences of consecutive values, modulo 2^w. *)
Fixpoint deltas (w prev : Z) (vs : list Z) : list Z :=
  match vs with [] => [] | v :: t => wrap w (v - prev) :: deltas w v t end.

(** [min_delta]: the least delta as a signed value, from the type's maximum. *)
Definition min_delta_of (w : Z) (ds : list Z) : Z :=
  fold_left (fun m d => Z.min m (sint w d)) ds (2 ^ (w - 1) - 1).

Definition mini_width (us : list Z) : Z := bit_width (fold_left Z.lor us 0).

(** One block: at most 128 deltas, in 4 miniblocks of 32. *)
Definition encode_block (w : Z) (ds : list Z) (out : list Z) : option (list Z) :=
  let md := min_delta_of w ds in
  let adjusted := List.map (fun d => wrap w (d - md)) ds ++ replicate (128 - length ds) 0 in
  let out := put_uleb out (zigzag_encode 64 md) in
  let used := (zlen ds + 31) / 32 in
  let mini m := ztake 32 (zdrop (m * 32) adjusted) in
  let widths := List.map (fun m => if m <? used then mini_width (mini m) else 0) (seqZ 0 4) in
  let out := out ++ List.map u8 widths in
  fold_left (fun o m => match o with
                        | None => None
                        | Some out => pack_bits (mini m) (u8 (mini_width (mini m))) out
                        end) (seqZ 0 used) (Some out).

(** [for (start = 1; start < size; start += 128)]. *)
Fixpoint encode_blocks (fuel : nat) (w : Z) (ds : list Z) (out : list Z) : option (list Z) :=
  match ds with
  | [] => Some out
  | _ =>
      match fuel with
      | O => None
      | S fuel =>
          match encode_block w (ztake 128 ds) out with
          | None => None
          | Some out' => encode_blocks fuel w (zdrop 128 ds) out'
          end
      end
  end.

Definition delta_binary_packed_encode (w : Z) (vs : list Z) (out : list Z) : option (list Z) :=
  let out := put_uleb out 128 in
  let out := put_uleb out 4 in
  let out := put_uleb out (zlen vs) in
  let out := put_uleb out (zigzag_encode 64 (match vs with [] => 0 | v :: _ => v end)) in
  match vs with
  | [] => Some out
  | v :: t => encode_blocks (length t) w (deltas w v t) out
  end.

(** ** Decoder facts *)
Lemma rd_spec l p : bytes_ok l -> 0 <= p <= zlen l -> zlen l < 2 ^ 64 ->
  rd l p = Some (match varint_at 64 (zdrop p l) with Some (v, k) => Some (v, p + k) | None => None end).
Proof.
  intros Hl Hp Hs. unfold rd, varint_u64.
  pose proof (read_uleb128_at 64 l (Input p (zlen l) 0 false None 0) ltac:(lia) Hl Hp eq_refl Hs) as H.
  cbn [i_first] in H. destruct (varint_at 64 (zdrop p l)) as [[v k]|].
  - by rewrite H.
  - by destruct H as [e ->].
Qed.

Lemma rd_range l p : bytes_ok l -> 0 <= p <= zlen l -> zlen l < 2 ^ 64 ->
  exists r, rd l p = Some r /\ forall v p', r = Some (v, p') -> 0 <= v < 2 ^ 64 /\ p < p' <= zlen l.
Proof.
  intros Hl Hp Hs. rewrite rd_spec by done. eexists. split; [done|].
  destruct (varint_at 64 (zdrop p l)) as [[v k]|] eqn:Hv; [|done]. intros v' p' [= <- <-].
  apply varint_at_range in Hv. rewrite zlen_zdrop in Hv by lia. lia.
Qed.

Lemma rd_encode l p v t : bytes_ok l -> 0 <= p -> zlen l < 2 ^ 64 -> 0 <= v < 2 ^ 64 ->
  zdrop p l = uleb128_encode 64 v ++ t -> p <= zlen l ->
  exists p', rd l p = Some (Some (v, p')) /\ zdrop p' l = t /\ p < p' <= zlen l.
Proof.
  intros Hl Hp Hs Hv Hd Hle. rewrite rd_spec by (done || lia). rewrite Hd, varint_at_encode by lia.
  eexists. split; [done|]. rewrite <- zdrop_zdrop, Hd, zdrop_app by (done || apply zlen_nonneg || lia).
  split; [done|].
  assert (Hz : zlen (zdrop p l) = zlen (uleb128_encode 64 v) + zlen t) by (by rewrite Hd, zlen_app).
  rewrite zlen_zdrop in Hz by lia. pose proof (zlen_nonneg t).
  destruct (uleb128_encode_spec 64 v ltac:(lia) Hv) as (_ & Hsh & _).
  destruct (uleb128_encode 64 v); [done|]. rewrite zlen_cons in *. pose proof (zlen_nonneg l0). lia.
Qed.

Lemma accumulate_app w md last us us' :
  accumulate w md last (us ++ us') =
    let '(l1, v1) := accumulate w md last us in
    let '(l2, v2) := accumulate w md l1 us' in (l2, v1 ++ v2).
Proof.
  revert last. induction us as [|u us IH]; intros last; cbn.
  - by destruct (accumulate w md last us').
  - rewrite IH. destruct (accumulate w md _ us) as [l1 v1]. by destruct (accumulate w md l1 us').
Qed.

Lemma accumulate_length w md last us : zlen (accumulate w md last us).2 = zlen us.
Proof.
  revert last. induction us as [|u us IH]; intros last; cbn; [done|].
  specialize (IH (wrap w (last + md + wrap w u))). destruct (accumulate w md _ us). cbn in *.
  by rewrite !zlen_cons, IH.
Qed.

Section Minis.
Context (w : Z) (l : list Z) (Hl : bytes_ok l) (Hsize : zlen l < 2 ^ 58).

Lemma mini_chunks_spec fuel p width need done md last :
  0 <= p <= zlen l -> 0 <= width <= 64 -> 0 <= done <= need -> need <= 2 ^ 20 ->
  (done = need \/ done mod 1024 = 0) -> (need * width + 7) / 8 <= zlen l - p ->
  need - done <= Z.of_nat fuel ->
  mini_chunks fuel w l p width need done md last =
    Some (Some (accumulate w md last
      (List.map (packed width (zdrop p l)) (seqZ done (need - done))))).
Proof using Hl Hsize.
  intros Hp Hwd. revert done last. induction fuel as [|fuel IH]; intros done last Hd Hneed Hmod Hfit Hf;
    cbn [mini_chunks]; destruct (Z.leb_spec need done); [|lia| |].
  1, 2: replace (need - done) with 0 by lia; done.
  set (k := Z.min 1024 (need - done)). destruct Hmod as [|Hmod]; [lia|].
  assert (Hoff : done * width = 8 * (done * width / 8) /\ 0 <= done * width / 8).
  { split; [|apply Z.div_pos; nia]. apply Z_div_exact_full_2; [lia|].
    rewrite <- Z.mul_mod_idemp_l by lia. assert (done mod 8 = 0) as -> by (Z.div_mod_to_equations; lia). done. }
  set (off := done * width / 8) in *.
  assert (Hk8 : (k * width + 7) / 8 + off <= zlen l - p).
  { etransitivity; [|exact Hfit]. rewrite <- Z.div_add by lia. apply Z.div_le_mono; [lia|]. nia. }
  assert (0 <= (k * width + 7) / 8) by (apply Z.div_pos; nia).
  destruct (Z.ltb_spec (zlen l - p) off); [lia|].
  rewrite unpack_bits_spec by (auto using bytes_ok_zdrop; nia).
  assert (Hfits : fits_bits 64 width k (zdrop (p + off) l) (replicate (Z.to_nat k) 0) = true).
  { unfold fits_bits. rewrite zlen_replicate, zlen_zdrop by lia.
    rewrite !andb_true_iff, !Z.leb_le. split_and!; lia. }
  rewrite Hfits, (zdrop_all k (replicate _ _)), app_nil_r by (rewrite zlen_replicate; lia).
  assert (Hpk : packed_values width (zdrop (p + off) l) k =
    List.map (packed width (zdrop p l)) (seqZ done k)).
  { unfold packed_values. rewrite (map_seqZ_shift _ done). apply map_ext_in. intros i Hi. apply in_seqZ in Hi.
    unfold packed. rewrite !le_val_zdrop by (done || lia). rewrite !Z.shiftr_shiftr by nia.
    f_equal. f_equal. nia. }
  assert (Hsplit : seqZ done (need - done) = seqZ done k ++ seqZ (done + k) (need - (done + k)))
    by (rewrite <- seqZ_app by lia; f_equal; lia).
  rewrite Hpk, Hsplit, List.map_app, accumulate_app.
  destruct (accumulate w md last _) as [last' vs].
  rewrite IH; [|lia|lia| |done|lia].
  - by destruct (accumulate w md last' _).
  - unfold k in *. destruct (Z.le_gt_cases (need - done) 1024); [left; lia|right].
    rewrite Z.min_l by lia. Z.div_mod_to_equations; lia.
Qed.

Lemma mini_spec p width need md last :
  0 <= p <= zlen l -> 0 <= width <= 64 -> 0 <= need <= 2 ^ 20 -> (need * width + 7) / 8 <= zlen l - p ->
  mini_chunks (Z.to_nat need) w l p width need 0 md last =
    Some (Some (accumulate w md last (packed_values width (zdrop p l) need))).
Proof using Hl Hsize.
  intros Hp Hwd Hn Hfit. rewrite mini_chunks_spec by (done || lia || (right; done)).
  unfold packed_values. by rewrite Z.sub_0_r.
Qed.

(** Safety: the miniblocks read are present, and the values are counted. *)
Lemma mini_loop_safe per_mini md ws p want last :
  0 <= w <= 64 -> bytes_ok ws -> 1 <= per_mini <= 2 ^ 20 -> 0 <= p <= zlen l -> 0 <= want ->
  exists r, mini_loop w l per_mini md ws p want last = Some r /\
  forall p' final vs, r = Some (p', final, vs) ->
    p <= p' <= zlen l /\ zlen vs = Z.min want (per_mini * zlen ws).
Proof using Hl Hsize.
  intros Hw Hws Hpm. revert p want last. induction Hws as [|width ws Hwd Hws IH];
    intros p want last Hp Hwant; cbn [mini_loop].
  { eexists. split; [done|]. intros p' final vs [= <- <- <-]. rewrite !(ltac:(done) : zlen [] = 0). lia. }
  pose proof (zlen_nonneg ws). rewrite zlen_cons. unfold is_byte in Hwd.
  destruct (Z.leb_spec want 0).
  { eexists. split; [done|]. intros p' final vs [= <- <- <-]. change (zlen []) with 0. nia. }
  destruct (Z.ltb_spec w width); [by eexists|].
  destruct (Z.ltb_spec (zlen l - p) ((Z.min per_mini want * width + 7) / 8)); [by eexists|].
  rewrite mini_spec by lia. set (us := packed_values _ _ _).
  assert (Hus : zlen us = Z.min per_mini want) by (apply zlen_packed_values; lia).
  pose proof (accumulate_length w md last us) as Hlen.
  destruct (accumulate w md last us) as [last' vs]. cbn [snd] in Hlen.
  assert (0 <= per_mini * width / 8) by (apply Z.div_pos; nia).
  destruct (IH (p + Z.min (per_mini * width / 8) (zlen l - p)) (want - Z.min per_mini want) last')
    as (r & -> & Hr); [lia|lia|].
  destruct r as [[[p2 f2] vs2]|]; [|by eexists]. eexists. split; [done|].
  intros p' final vs' [= <- <- <-]. destruct (Hr _ _ _ eq_refl) as [Hp2 Hv2].
  split; [lia|]. rewrite zlen_app, Hlen, Hus, Hv2. nia.
Qed.

Lemma block_loop_safe fuel minis per_mini p want last :
  0 <= w <= 64 -> 1 <= minis <= 2 ^ 20 -> 1 <= per_mini <= 2 ^ 20 -> 0 <= p <= zlen l ->
  0 <= want <= Z.of_nat fuel ->
  exists r, block_loop fuel w l minis per_mini p want last = Some r /\
  forall p' vs, r = Some (p', vs) -> p <= p' <= zlen l /\ zlen vs = want.
Proof using Hl Hsize.
  intros Hw Hm Hpm. revert p want last.
  induction fuel as [|fuel IH]; intros p want last Hp Hwant; cbn [block_loop];
    destruct (Z.leb_spec want 0).
  1, 3: (eexists; split; [done|]; intros p' vs [= <- <-]; change (zlen []) with 0; lia).
  { lia. }
  destruct (rd_range l p Hl Hp ltac:(lia)) as (r1 & -> & Hr1).
  destruct r1 as [[zz p1]|]; [|by eexists]. destruct (Hr1 _ _ eq_refl) as [Hzz Hp1].
  destruct (Z.ltb_spec (zlen l - p1) minis); [by eexists|].
  assert (Hzw : zlen (ztake minis (zdrop p1 l)) = minis) by (rewrite zlen_ztake, zlen_zdrop; lia).
  destruct (mini_loop_safe per_mini (wrap w (zigzag_decode 64 zz)) (ztake minis (zdrop p1 l)) (p1 + minis) want last)
    as (r2 & -> & Hr2); [done|auto using bytes_ok_ztake, bytes_ok_zdrop|done|lia|lia|].
  destruct r2 as [[[p2 l2] vs]|]; [|by eexists]. destruct (Hr2 _ _ _ eq_refl) as [Hp2 Hv2].
  rewrite Hzw in Hv2.
  destruct (IH p2 (want - zlen vs) l2) as (r3 & -> & Hr3); [lia|nia|].
  destruct r3 as [[p3 vs']|]; [|by eexists]. eexists. split; [done|].
  intros p' vs'' [= <- <-]. destruct (Hr3 _ _ eq_refl) as [Hp3 Hv3]. rewrite zlen_app. lia.
Qed.
End Minis.

Lemma delta_header_safe l : bytes_ok l -> zlen l < 2 ^ 58 ->
  exists r, delta_header l = Some r /\
  forall b m t f p, r = Some (b, m, t, f, p) -> 0 <= b /\ 0 <= m /\ 0 <= t /\ 0 <= p <= zlen l.
Proof.
  intros Hl Hs. pose proof (zlen_nonneg l). unfold delta_header.
  destruct (rd_range l 0 Hl ltac:(lia) ltac:(lia)) as ([[b p1]|] & -> & H1); [|by eexists].
  destruct (H1 _ _ eq_refl) as [Hb Hp1].
  destruct (rd_range l p1 Hl ltac:(lia) ltac:(lia)) as ([[m p2]|] & -> & H2); [|by eexists].
  destruct (H2 _ _ eq_refl) as [Hm Hp2].
  destruct (rd_range l p2 Hl ltac:(lia) ltac:(lia)) as ([[t p3]|] & -> & H3); [|by eexists].
  destruct (H3 _ _ eq_refl) as [Ht Hp3].
  destruct (rd_range l p3 Hl ltac:(lia) ltac:(lia)) as ([[f p4]|] & -> & H4); [|by eexists].
  destruct (H4 _ _ eq_refl) as [Hf Hp4].
  eexists. split; [done|]. intros ? ? ? ? ? [= <- <- <- <- <-]. lia.
Qed.

Lemma delta_shape_spec b m : 0 <= b -> 0 <= m -> delta_shape_ok b m = true ->
  1 <= m <= 2 ^ 20 /\ 32 <= b / m <= 2 ^ 20.
Proof.
  intros Hb Hm. unfold delta_shape_ok. rewrite !andb_true_iff, !negb_true_iff.
  intros [[[[[H1 H2] H3] H4] H5] H6]. apply Z.eqb_neq in H1, H3. apply Z.eqb_eq in H2, H4, H5.
  apply Z.leb_le in H6. assert (b = m * (b / m)) as Hbm by (apply Z_div_exact_full_2; lia).
  assert (0 <= b / m) by (apply Z.div_pos; lia).
  assert (b / m <> 0) by nia. assert (32 <= b / m) by (Z.div_mod_to_equations; nia). nia.
Qed.

(** The decoder ends within its memory on every input. *)
Lemma delta_binary_packed_safe w l out n :
  w = 32 \/ w = 64 -> bytes_ok l -> zlen l < 2 ^ 58 -> 0 <= n ->
  exists r, delta_binary_packed w l out n = Some r /\
  forall p out', r = Some (p, out') ->
    0 <= p <= zlen l /\ zlen out' = zlen out /\ zdrop n out' = zdrop n out.
Proof.
  intros Hw Hl Hs Hn. unfold delta_binary_packed.
  destruct (Z.ltb_spec (zlen out) n) as [|Hout]; [by eexists|].
  destruct (delta_header_safe l Hl Hs) as ([[[[[b m] t] f] p]|] & -> & Hh); [|by eexists].
  destruct (Hh _ _ _ _ _ eq_refl) as (Hb & Hm & _ & Hp). clear Hh.
  destruct (delta_shape_ok b m) eqn:Hshape; cbn [negb]; [|by eexists].
  destruct (delta_shape_spec b m Hb Hm Hshape) as [Hm' Hpm].
  destruct (Z.ltb_spec t n); [by eexists|].
  destruct (Z.eqb_spec n 0) as [-> |Hn0].
  { eexists. split; [done|]. by intros p' out' [= <- <-]. }
  set (last := wrap w (zigzag_decode 64 f)).
  destruct (block_loop_safe w l Hl Hs (Z.to_nat n) m (b / m) p (n - 1) last) as (r & -> & Hr); [lia..|].
  destruct r as [[p' vs]|]; [|by eexists]. destruct (Hr _ _ eq_refl) as [Hp' Hvs].
  set (new := List.map (sint w) (last :: vs)).
  assert (Hnew : zlen new = n) by (unfold new; rewrite zlen_map, zlen_cons; lia).
  clearbody new. rewrite store_spec by lia. rewrite ztake_0, app_nil_l, Z.add_0_l, Hnew.
  eexists. split; [done|]. intros p2 out' [= <- <-]. split; [lia|].
  rewrite zdrop_app by done. rewrite zlen_app, zlen_zdrop by lia. split; [lia|done].
Qed.

(** Decoding is safe on every input. Whatever the bytes, the decoder ends
    without reading outside them or storing outside the output; it answers
    [nullopt], or fills exactly the first [n] elements and reports a byte
    count inside the input. *)
Theorem delta_decode_safe w l out n :
  w = 32 \/ w = 64 -> bytes_ok l -> zlen l < 2 ^ 58 -> 0 <= n ->
  exists r, delta_binary_packed w l out n = Some r /\
  forall p out', r = Some (p, out') ->
    0 <= p <= zlen l /\ zlen out' = zlen out /\ zdrop n out' = zdrop n out.
Proof. apply delta_binary_packed_safe. Qed.

Lemma delta_decode_safe_witness :
  exists r, delta_binary_packed 32 [255; 255; 3] [0; 0] 2 = Some r.
Proof.
  destruct (delta_decode_safe 32 [255; 255; 3] [0; 0] 2 ltac:(lia) ltac:(repeat constructor; by vm_compute)
    eq_refl ltac:(lia)) as (r & H & _).
  exists r. exact H.
Defined.

(** ** Round trip *)
Lemma bit_width_bound v w : 0 <= v < 2 ^ w -> 0 <= w -> 0 <= bit_width v <= w.
Proof.
  intros Hv Hw. unfold bit_width. destruct (Z.eqb_spec v 0); [lia|].
  pose proof (Z.log2_nonneg v). assert (Z.log2 v < w) by (apply Z.log2_lt_pow2; lia). lia.
Qed.

Lemma lt_bit_width v : 0 <= v -> v < 2 ^ bit_width v.
Proof.
  intros Hv. unfold bit_width. destruct (Z.eqb_spec v 0) as [-> |]; [done|].
  rewrite Z.add_1_r. apply Z.log2_spec. lia.
Qed.

Lemma fold_lor_range w us acc : 0 <= w -> fits_width w us -> 0 <= acc < 2 ^ w ->
  0 <= fold_left Z.lor us acc < 2 ^ w.
Proof.
  intros Hw Hus. revert acc. induction Hus as [|u us Hu _ IH]; intros acc Ha; cbn; [done|].
  apply IH. by apply lor_range.
Qed.

Lemma lor_le_l a b : 0 <= a -> 0 <= b -> a <= Z.lor a b.
Proof.
  intros Ha Hb. assert (Z.lor a b = a + Z.ldiff b a) as ->.
  { rewrite Z.add_nocarry_lor; [bitblast|]. bitblast. }
  assert (0 <= Z.ldiff b a) by (apply Z.ldiff_nonneg; lia). lia.
Qed.

Lemma fold_lor_le us : Forall (fun u => 0 <= u) us -> forall acc, 0 <= acc ->
  acc <= fold_left Z.lor us acc /\ Forall (fun u => u <= fold_left Z.lor us acc) us.
Proof.
  induction 1 as [|u us Hu Hus IH]; intros acc Ha; cbn; [done|].
  assert (Hl : 0 <= Z.lor acc u) by (apply Z.lor_nonneg; lia).
  destruct (IH (Z.lor acc u) Hl) as [H1 H2].
  pose proof (lor_le_l acc u Ha Hu). pose proof (lor_le_l u acc Hu Ha). rewrite (Z.lor_comm u) in *.
  split; [lia|]. constructor; [lia|done].
Qed.

(** A miniblock's width holds its values and is at most the type's. *)
Lemma mini_width_spec w us : 0 <= w -> fits_width w us ->
  0 <= mini_width us <= w /\ fits_width (mini_width us) us.
Proof.
  intros Hw Hus. assert (Hr : 0 <= fold_left Z.lor us 0 < 2 ^ w).
  { apply fold_lor_range; [done..|]. split; [lia|apply Z.pow_pos_nonneg; lia]. }
  assert (Hpos : Forall (fun u => 0 <= u) us) by (eapply Forall_impl; [exact Hus|]; intros u Hu; cbn in Hu; lia).
  destruct (fold_lor_le us Hpos 0 ltac:(lia)) as [_ Hle]. unfold mini_width. split.
  - by apply bit_width_bound.
  - pose proof (lt_bit_width (fold_left Z.lor us 0) ltac:(lia)).
    eapply Forall_impl; [apply Forall_and; split; [exact Hpos|exact Hle]|]. cbn. intros u [? ?]. lia.
Qed.

(** The bytes of a list of miniblocks. *)
Definition minis_bytes (ms : list (list Z)) : list Z :=
  concat (List.map (fun us => packed_bytes (mini_width us) us) ms).

Lemma packed_32 width us : 0 <= width -> zlen us = 32 ->
  bytes_ok (packed_bytes width us) /\ zlen (packed_bytes width us) = 4 * width.
Proof.
  intros Hw Hz. destruct (packed_bytes_spec width us Hw) as (Hb & Hl & _). split; [done|].
  rewrite Hl, Hz. symmetry. apply (Z.div_unique _ _ _ 7); lia.
Qed.

Lemma zdrop_next {A} p (l a b : list A) : 0 <= p -> zdrop p l = a ++ b ->
  zdrop (p + zlen a) l = b /\ (p <= zlen l -> p + zlen a + zlen b = zlen l).
Proof.
  intros Hp H. pose proof (zlen_nonneg a). split.
  - rewrite <- zdrop_zdrop, H by lia. by apply zdrop_app.
  - intros Hle. assert (Hz : zlen (zdrop p l) = zlen a + zlen b) by (by rewrite H, zlen_app).
    rewrite zlen_zdrop in Hz by lia. lia.
Qed.

Section RoundTrip.
Context (w : Z) (Hw : w = 32 \/ w = 64) (l : list Z) (Hl : bytes_ok l) (Hsize : zlen l < 2 ^ 58).

(** Decoding miniblocks: those holding wanted values are read, [more] are
    widths of empty ones. *)
Lemma mini_loop_minis md ms more p want last post :
  Forall (fun us => zlen us = 32 /\ fits_width w us) ms ->
  0 <= p <= zlen l -> zdrop p l = minis_bytes ms ++ post ->
  32 * (zlen ms - 1) < want -> (more = [] \/ want <= 32 * zlen ms) -> 0 <= want ->
  mini_loop w l 32 md (List.map mini_width ms ++ more) p want last =
    let '(final, vs) := accumulate w md last (ztake want (concat ms)) in
    Some (Some (p + zlen (minis_bytes ms), final, vs)).
Proof using Hw Hl Hsize.
  intros Hms. revert p want last. induction Hms as [|us ms [Hz Hus] Hms IH];
    intros p want last Hp Hd Hlow Hmore Hwant.
  - cbn [List.map app concat minis_bytes]. unfold ztake. rewrite take_nil. cbn [accumulate].
    change (zlen (minis_bytes [])) with 0. rewrite Z.add_0_r.
    destruct more as [|m0 more]; [done|]. destruct Hmore as [|Hmore]; [done|]. cbn [mini_loop].
    change (zlen []) with 0 in Hmore. by destruct (Z.leb_spec want 0); [|lia].
  - rewrite zlen_cons in *. pose proof (zlen_nonneg ms).
    destruct (mini_width_spec w us ltac:(lia) Hus) as [Hmw Hfit].
    set (mw := mini_width us) in *. destruct (packed_32 mw us ltac:(lia) Hz) as [Hpb Hpl].
    change (minis_bytes (us :: ms)) with (packed_bytes mw us ++ minis_bytes ms) in *.
    rewrite <- app_assoc in Hd. destruct (zdrop_next p l _ _ ltac:(lia) Hd) as [Hd' Hend].
    rewrite Hpl in Hd', Hend. specialize (Hend ltac:(lia)). rewrite zlen_app in Hend.
    pose proof (zlen_nonneg (minis_bytes ms)). pose proof (zlen_nonneg post).
    cbn [List.map app mini_loop]. fold mw. destruct (Z.leb_spec want 0); [lia|].
    destruct (Z.ltb_spec w mw); [lia|].
    assert (Hnb : (Z.min 32 want * mw + 7) / 8 <= 4 * mw)
      by (apply Z.lt_succ_r, Z.div_lt_upper_bound; nia).
    destruct (Z.ltb_spec (zlen l - p) ((Z.min 32 want * mw + 7) / 8)); [lia|].
    rewrite mini_spec by (done || lia). rewrite Hd.
    assert (Hpv : packed_values mw (packed_bytes mw us ++ minis_bytes ms ++ post) (Z.min 32 want) =
      ztake (Z.min 32 want) us).
    { rewrite <- (packed_values_packed mw us (minis_bytes ms ++ post)) at 2 by (done || lia).
      by rewrite ztake_packed_values by lia. }
    rewrite Hpv. replace (32 * mw / 8) with (4 * mw) by (apply (Z.div_unique _ _ _ 0); lia).
    rewrite (Z.min_l (4 * mw)) by lia. rewrite zlen_app, Hpl. cbn [concat].
    destruct (Z.le_gt_cases want 32) as [Hle|Hgt].
    + assert (zlen ms = 0) as Hms0 by lia. assert (ms = []) as -> by (destruct ms; [done|rewrite zlen_cons in *; pose proof (zlen_nonneg ms); lia]).
      rewrite (Z.min_r 32) by lia. cbn [concat List.map app]. rewrite app_nil_r.
      destruct (accumulate w md last (ztake want us)) as [last' vs].
      specialize (IH (p + 4 * mw) (want - want) last' ltac:(lia) Hd' ltac:(lia) ltac:(right; lia) ltac:(lia)).
      cbn [List.map app concat] in IH. rewrite IH. unfold ztake. rewrite take_nil. cbn.
      by rewrite app_nil_r, Z.add_assoc.
    + rewrite (Z.min_l 32), (ztake_all 32 us) by lia.
      rewrite ztake_app_r, Hz by lia. rewrite accumulate_app.
      destruct (accumulate w md last us) as [last' vs].
      rewrite IH; [|lia|done|lia|destruct Hmore; [by left|right; lia]|lia].
      destruct (accumulate w md last' _) as [final vs']. by rewrite Z.add_assoc.
Qed.
End RoundTrip.

(** ** The encoder's bytes *)

(** The least delta is a value of the signed type. *)
Lemma min_delta_range w ds : 1 <= w -> fits_width w ds -> - 2 ^ (w - 1) <= min_delta_of w ds < 2 ^ (w - 1).
Proof.
  intros Hw Hds. unfold min_delta_of.
  assert (Hp : 0 < 2 ^ (w - 1)) by (apply Z.pow_pos_nonneg; lia).
  assert (Hp2 : 2 ^ w = 2 * 2 ^ (w - 1)) by (rewrite <- Z.pow_succ_r by lia; f_equal; lia).
  assert (Hacc : - 2 ^ (w - 1) <= 2 ^ (w - 1) - 1 < 2 ^ (w - 1)) by lia.
  revert Hacc. generalize (2 ^ (w - 1) - 1) as acc. induction Hds as [|d ds Hd _ IH]; intros acc Hacc; [done|].
  cbn [fold_left]. apply IH. unfold sint. cbn in Hd. destruct (Z.ltb_spec d (2 ^ (w - 1))); lia.
Qed.

(** Subtracting the minimum before and adding it back in the running sum. *)
Lemma accumulate_adjusted w md last ds : 0 <= w -> fits_width w ds ->
  accumulate w (wrap w md) last (List.map (fun d => wrap w (d - md)) ds) = accumulate w 0 last ds.
Proof.
  intros Hw Hds. revert last. induction Hds as [|d ds Hd _ IH]; intros last; cbn [List.map accumulate]; [done|].
  assert (wrap w (last + wrap w md + wrap w (wrap w (d - md))) = wrap w (last + 0 + wrap w d)) as ->.
  { rewrite wrap_idemp. unfold wrap. rewrite Z.add_0_r, Zplus_mod_idemp_r.
    rewrite <- Z.add_assoc, Z.add_comm, <- Z.add_assoc, Zplus_mod_idemp_l, Zplus_mod_idemp_r. f_equal. lia. }
  by rewrite IH.
Qed.

(** The running sums of the differences are the values. *)
Lemma accumulate_deltas w prev vs :
  (accumulate w 0 (wrap w prev) (deltas w prev vs)).2 = List.map (wrap w) vs.
Proof.
  revert prev. induction vs as [|v vs IH]; intros prev; cbn [deltas accumulate List.map]; [done|].
  assert (wrap w (wrap w prev + 0 + wrap w (wrap w (v - prev))) = wrap w v) as ->.
  { rewrite wrap_idemp, Z.add_0_r. unfold wrap. rewrite <- Zplus_mod. f_equal. lia. }
  specialize (IH v). destruct (accumulate w 0 (wrap w v) (deltas w v vs)). cbn [snd] in *. by rewrite IH.
Qed.

Lemma zlen_deltas w prev vs : zlen (deltas w prev vs) = zlen vs.
Proof. revert prev. induction vs as [|v vs IH]; intros prev; cbn; [done|]. by rewrite !zlen_cons, IH. Qed.

Lemma deltas_fit w prev vs : 0 <= w -> fits_width w (deltas w prev vs).
Proof.
  intros Hw. revert prev. induction vs as [|v vs IH]; intros prev; cbn; constructor; [|apply IH].
  by apply wrap_range.
Qed.

(** The adjusted deltas of a block, padded to 128, and its used miniblocks. *)
Definition adjusted_of (w : Z) (ds : list Z) : list Z :=
  List.map (fun d => wrap w (d - min_delta_of w ds)) ds ++ replicate (128 - length ds) 0.

Definition minis_of (w : Z) (ds : list Z) : list (list Z) :=
  List.map (fun m => ztake 32 (zdrop (m * 32) (adjusted_of w ds))) (seqZ 0 ((zlen ds + 31) / 32)).

Definition block_bytes (w : Z) (ds : list Z) : list Z :=
  uleb128_encode 64 (zigzag_encode 64 (min_delta_of w ds)) ++
  (List.map mini_width (minis_of w ds) ++ replicate (Z.to_nat (4 - zlen (minis_of w ds))) 0) ++
  minis_bytes (minis_of w ds).

Section BlockBytes.
Context (w : Z) (Hw : w = 32 \/ w = 64) (ds : list Z) (Hds : fits_width w ds) (Hn : 1 <= zlen ds <= 128).

Lemma used_range : 1 <= (zlen ds + 31) / 32 <= 4 /\ 32 * ((zlen ds + 31) / 32 - 1) < zlen ds <= 32 * ((zlen ds + 31) / 32).
Proof using Hn. Z.div_mod_to_equations; lia. Qed.

Lemma zlen_minis_of : zlen (minis_of w ds) = (zlen ds + 31) / 32.
Proof using Hn. unfold minis_of. rewrite zlen_map, zlen_seqZ; [done|]. pose proof used_range. lia. Qed.

Lemma adjusted_spec : zlen (adjusted_of w ds) = 128 /\ fits_width w (adjusted_of w ds).
Proof using Hw Hds Hn.
  unfold adjusted_of. split.
  - rewrite zlen_app, zlen_map, zlen_replicate. unfold zlen in *. lia.
  - apply Forall_app. split.
    + apply Forall_map, Forall_true. intros d. apply wrap_range. lia.
    + apply Forall_replicate. split; [lia|]. apply Z.pow_pos_nonneg; lia.
Qed.

Lemma minis_of_ok : Forall (fun us => zlen us = 32 /\ fits_width w us) (minis_of w ds).
Proof using Hw Hds Hn.
  destruct adjusted_spec as [Ha Hf]. pose proof used_range. unfold minis_of.
  apply Forall_map, List.Forall_forall. intros m Hm. apply in_seqZ in Hm. split.
  - rewrite zlen_ztake, zlen_zdrop by lia. lia.
  - by apply Forall_take, Forall_drop.
Qed.

(** The wanted values are the adjusted deltas. *)
Lemma ztake_minis_of want : zlen ds = Z.min 128 want ->
  ztake want (concat (minis_of w ds)) = List.map (fun d => wrap w (d - min_delta_of w ds)) ds.
Proof using Hw Hds Hn.
  intros Hwant. pose proof used_range. destruct adjusted_spec as [Ha _]. unfold minis_of.
  rewrite <- (Z2Nat.id ((zlen ds + 31) / 32)) by lia. rewrite concat_pieces, Z2Nat.id by lia.
  destruct (Z.le_gt_cases want 128).
  - rewrite ztake_ztake by lia. apply ztake_app. rewrite zlen_map. lia.
  - rewrite ztake_all by (rewrite zlen_ztake; lia). rewrite ztake_all by lia. unfold adjusted_of.
    replace (128 - length ds)%nat with 0%nat by (unfold zlen in *; lia). cbn. by rewrite app_nil_r.
Qed.

Lemma pack_minis ms out : Forall (fun us => zlen us = 32 /\ fits_width w us) ms ->
  fold_left (fun o us => match o with
                         | None => None
                         | Some out => pack_bits us (u8 (mini_width us)) out
                         end) ms (Some out) = Some (out ++ minis_bytes ms).
Proof using Hw.
  intros Hms. revert out. induction Hms as [|us ms [Hz Hus] _ IH]; intros out; cbn [fold_left].
  - cbn. by rewrite app_nil_r.
  - destruct (mini_width_spec w us ltac:(lia) Hus) as [Hmw _]. rewrite (wrap_small 8) by lia.
    rewrite pack_bits_spec by lia. rewrite IH. cbn [minis_bytes List.map concat]. by rewrite <- app_assoc.
Qed.

Lemma widths_of : List.map u8 (List.map (fun m => if m <? (zlen ds + 31) / 32
    then mini_width (ztake 32 (zdrop (m * 32) (adjusted_of w ds))) else 0) (seqZ 0 4)) =
  List.map mini_width (minis_of w ds) ++ replicate (Z.to_nat (4 - zlen (minis_of w ds))) 0.
Proof using Hw Hds Hn.
  pose proof used_range as Hu. rewrite zlen_minis_of. set (used := (zlen ds + 31) / 32) in *.
  replace 4 with (used + (4 - used)) at 1 by lia. rewrite seqZ_app, !List.map_app by lia. f_equal.
  - rewrite !List.map_map. unfold minis_of. fold used. rewrite List.map_map. apply map_ext_in. intros m Hm.
    apply in_seqZ in Hm. destruct (Z.ltb_spec m used); [|lia]. apply wrap_small.
    assert (Hin : In (ztake 32 (zdrop (m * 32) (adjusted_of w ds))) (minis_of w ds)).
    { unfold minis_of. apply List.in_map_iff. exists m. split; [done|]. apply in_seqZ. fold used. lia. }
    pose proof minis_of_ok as Hok. rewrite List.Forall_forall in Hok. destruct (Hok _ Hin) as [_ Hf].
    destruct (mini_width_spec w _ ltac:(lia) Hf). lia.
  - rewrite List.map_map. rewrite (map_ext_in _ (fun _ => 0)).
    + rewrite <- (length_seqZ (0 + used) (4 - used)). generalize (seqZ (0 + used) (4 - used)).
      intros ks. induction ks as [|k ks IH]; cbn; [done|by rewrite IH].
    + intros m Hm. apply in_seqZ in Hm. destruct (Z.ltb_spec m used); [lia|done].
Qed.

Lemma fold_left_map {A B C} (f : A -> B -> A) (g : C -> B) cs a :
  fold_left (fun a c => f a (g c)) cs a = fold_left f (List.map g cs) a.
Proof. revert a. induction cs; intros; cbn; auto. Qed.

Lemma encode_block_spec out : encode_block w ds out = Some (out ++ block_bytes w ds).
Proof using Hw Hds Hn.
  unfold encode_block. fold (adjusted_of w ds). unfold put_uleb. rewrite widths_of.
  rewrite (fold_left_map (fun o us => match o with
                         | None => None
                         | Some out => pack_bits us (u8 (mini_width us)) out
                         end) (fun m => ztake 32 (zdrop (m * 32) (adjusted_of w ds)))).
  fold (minis_of w ds). rewrite pack_minis by apply minis_of_ok. unfold block_bytes. by rewrite <- !app_assoc.
Qed.
End BlockBytes.

Lemma minis_bytes_size w ms : 0 <= w <= 64 -> Forall (fun us => zlen us = 32 /\ fits_width w us) ms ->
  bytes_ok (minis_bytes ms) /\ zlen (minis_bytes ms) <= 256 * zlen ms.
Proof.
  intros Hw. induction 1 as [|us ms [Hz Hus] _ [IHb IHl]]; [by split|].
  destruct (mini_width_spec w us ltac:(lia) Hus) as [Hmw _]. destruct (packed_32 (mini_width us) us ltac:(lia) Hz).
  change (minis_bytes (us :: ms)) with (packed_bytes (mini_width us) us ++ minis_bytes ms).
  rewrite zlen_app, zlen_cons. split; [by apply Forall_app|lia].
Qed.

Section Blocks.
Context (w : Z) (Hw : w = 32 \/ w = 64).

Lemma min_delta_zigzag ds : fits_width w ds ->
  0 <= zigzag_encode 64 (min_delta_of w ds) < 2 ^ 64 /\
  zigzag_decode 64 (zigzag_encode 64 (min_delta_of w ds)) = min_delta_of w ds.
Proof using Hw.
  intros Hds. pose proof (min_delta_range w ds ltac:(lia) Hds) as Hmd.
  assert (- 2 ^ (64 - 1) <= min_delta_of w ds < 2 ^ (64 - 1)) by (destruct Hw; subst w; lia).
  split; [by apply zigzag_encode_range|by apply zigzag_decode_encode].
Qed.

Lemma block_bytes_size ds : fits_width w ds -> 1 <= zlen ds <= 128 ->
  bytes_ok (block_bytes w ds) /\ zlen (block_bytes w ds) <= 1038.
Proof using Hw.
  intros Hds Hn. pose proof (minis_of_ok w Hw ds Hds Hn) as Hok.
  destruct (minis_bytes_size w (minis_of w ds) ltac:(lia) Hok) as [Hb Hl].
  destruct (min_delta_zigzag ds Hds) as [Hz _]. destruct (uleb64_short _ Hz) as [Hub Hul].
  pose proof (zlen_minis_of w ds Hn) as Hlen. pose proof (used_range ds Hn). unfold block_bytes. split.
  - apply Forall_app. split; [done|]. apply Forall_app. split; [|done]. apply Forall_app. split.
    + apply Forall_map. eapply Forall_impl; [exact Hok|]. cbn. intros us [_ Hus].
      destruct (mini_width_spec w us ltac:(lia) Hus). unfold is_byte. lia.
    + apply bytes_ok_zeros.
  - rewrite !zlen_app, zlen_map, zlen_replicate. lia.
Qed.

(** One block's iteration of the decoding loop. *)
Lemma block_loop_block l ds p post k last :
  bytes_ok l -> zlen l < 2 ^ 58 -> fits_width w ds -> 1 <= zlen ds -> 0 <= p <= zlen l ->
  zdrop p l = block_bytes w (ztake 128 ds) ++ post ->
  block_loop (S k) w l 4 32 p (zlen ds) last =
    let '(last', vs) := accumulate w 0 last (ztake 128 ds) in
    match block_loop k w l 4 32 (p + zlen (block_bytes w (ztake 128 ds))) (zlen ds - zlen vs) last' with
    | Some (Some (p3, vs')) => Some (Some (p3, vs ++ vs'))
    | r => r
    end.
Proof using Hw.
  intros Hl Hs Hds Hn Hp Hd. set (blk := ztake 128 ds) in *.
  assert (Hblk : zlen blk = Z.min 128 (zlen ds)) by (unfold blk; rewrite zlen_ztake; lia).
  assert (Hfit : fits_width w blk) by (by apply Forall_take).
  cbn [block_loop]. destruct (Z.leb_spec (zlen ds) 0); [lia|].
  unfold block_bytes in Hd. rewrite <- !app_assoc in Hd.
  destruct (min_delta_zigzag blk Hfit) as [Hzr Hzd].
  destruct (rd_encode l p _ _ Hl ltac:(lia) ltac:(lia) Hzr Hd ltac:(lia)) as (p1 & -> & Hd1 & Hp1).
  rewrite Hzd. pose proof (zlen_minis_of w blk ltac:(lia)) as Hms. pose proof (used_range blk ltac:(lia)) as Hu.
  rewrite app_assoc in Hd1.
  set (ws := List.map mini_width (minis_of w blk) ++ replicate (Z.to_nat (4 - zlen (minis_of w blk))) 0) in *.
  assert (Hws : zlen ws = 4) by (unfold ws; rewrite zlen_app, zlen_map, zlen_replicate; lia).
  destruct (zdrop_next p1 l _ _ ltac:(lia) Hd1) as [Hd2 Hend]. specialize (Hend ltac:(lia)).
  rewrite Hws in Hd2, Hend. pose proof (zlen_nonneg (minis_bytes (minis_of w blk) ++ post)).
  destruct (Z.ltb_spec (zlen l - p1) 4); [lia|]. rewrite Hd1, (ztake_app 4 ws) by lia. unfold ws.
  rewrite (mini_loop_minis w Hw l Hl Hs _ _ _ _ _ _ post);
    [|by apply minis_of_ok; try lia|lia|done|lia| |lia].
  2: { rewrite Hms. destruct (Z.le_gt_cases 128 (zlen ds)); [left|right; lia].
       replace ((zlen blk + 31) / 32) with 4; [done|]. rewrite Hblk, Z.min_l by lia. done. }
  rewrite ztake_minis_of by (done || lia). rewrite accumulate_adjusted by (done || lia).
  destruct (accumulate w 0 last blk) as [last' vs].
  replace (p + zlen (block_bytes w blk)) with (p1 + 4 + zlen (minis_bytes (minis_of w blk))); [done|].
  unfold block_bytes. fold ws. rewrite !zlen_app, Hws.
  destruct (zdrop_next p l _ _ ltac:(lia) Hd) as [_ Hend0]. specialize (Hend0 ltac:(lia)).
  rewrite !zlen_app in Hend0. unfold ws in Hws. rewrite zlen_app in *. lia.
Qed.

(** All blocks: what the encoder appends, the decoding loop reads back. *)
Lemma blocks_spec fuel ds : fits_width w ds -> zlen ds <= Z.of_nat fuel ->
  exists body, (forall out, encode_blocks fuel w ds out = Some (out ++ body)) /\
    bytes_ok body /\ zlen body <= 1038 * zlen ds /\
    forall l p post last k, bytes_ok l -> zlen l < 2 ^ 58 -> 0 <= p <= zlen l ->
      zdrop p l = body ++ post -> zlen ds <= Z.of_nat k ->
      block_loop k w l 4 32 p (zlen ds) last =
        Some (Some (p + zlen body, (accumulate w 0 last ds).2)).
Proof using Hw.
  revert ds. induction fuel as [|fuel IH]; intros ds Hds Hf.
  { assert (ds = []) as -> by (destruct ds; [done|rewrite zlen_cons in Hf; pose proof (zlen_nonneg ds); lia]).
    exists []. split_and!; [intros out; cbn; by rewrite app_nil_r|done|done|].
    intros l p post last k _ _ _ _ _. change (zlen []) with 0. rewrite Z.add_0_r. by destruct k. }
  destruct (decide (ds = [])) as [-> |Hne].
  { exists []. split_and!; [intros out; cbn; by rewrite app_nil_r|done|done|].
    intros l p post last k _ _ _ _ _. change (zlen []) with 0. rewrite Z.add_0_r. by destruct k. }
  assert (Hn : 1 <= zlen ds) by (destruct ds; [done|rewrite zlen_cons; pose proof (zlen_nonneg ds); lia]).
  set (blk := ztake 128 ds).
  assert (Hblk : zlen blk = Z.min 128 (zlen ds)) by (unfold blk; rewrite zlen_ztake; lia).
  assert (Hfit : fits_width w blk) by (by apply Forall_take).
  assert (Hrest : zlen (zdrop 128 ds) = zlen ds - zlen blk) by (rewrite zlen_zdrop; lia).
  destruct (IH (zdrop 128 ds)) as (body & Henc & Hb & Hl & Hdec); [by apply Forall_drop|lia|].
  destruct (block_bytes_size blk Hfit ltac:(lia)) as [Hbb Hbl].
  exists (block_bytes w blk ++ body). split_and!.
  - intros out. destruct ds as [|d ds']; [done|]. cbn [encode_blocks]. fold blk.
    rewrite encode_block_spec by (done || lia). rewrite Henc. by rewrite app_assoc.
  - by apply Forall_app.
  - rewrite zlen_app. lia.
  - intros l p post last k Hlb Hs Hp Hd Hk. rewrite <- app_assoc in Hd.
    destruct k as [|k]; [lia|]. rewrite (block_loop_block l ds p _ k last Hlb Hs Hds Hn Hp Hd). fold blk.
    pose proof (accumulate_length w 0 last blk) as Hal. 
    assert (Hsplit : accumulate w 0 last ds = accumulate w 0 last (blk ++ zdrop 128 ds))
      by (unfold blk; by rewrite ztake_zdrop).
    rewrite Hsplit. clear Hsplit.
    rewrite accumulate_app. destruct (accumulate w 0 last blk) as [last' vs]. cbn [snd] in Hal.
    destruct (zdrop_next p l _ _ ltac:(lia) Hd) as [Hd' Hend]. specialize (Hend ltac:(lia)).
    pose proof (zlen_nonneg (block_bytes w blk)). pose proof (zlen_nonneg (body ++ post)).
    rewrite Hal, <- Hrest, (Hdec l (p + zlen (block_bytes w blk)) post last' k Hlb Hs ltac:(lia) Hd' ltac:(lia)).
    destruct (accumulate w 0 last' (zdrop 128 ds)) as [l2 v2]. by rewrite zlen_app, Z.add_assoc.
Qed.
End Blocks.

(** The header the encoder writes, read back. *)
Lemma delta_header_encode l total z post :
  bytes_ok l -> zlen l < 2 ^ 64 -> 0 <= total < 2 ^ 64 -> 0 <= z < 2 ^ 64 ->
  l = uleb128_encode 64 128 ++ uleb128_encode 64 4 ++ uleb128_encode 64 total ++ uleb128_encode 64 z ++ post ->
  exists p, delta_header l = Some (Some (128, 4, total, z, p)) /\ zdrop p l = post /\ 0 <= p <= zlen l.
Proof.
  intros Hl Hs Ht Hz He. unfold delta_header.
  destruct (rd_encode l 0 128 _ Hl ltac:(lia) Hs ltac:(lia) He (zlen_nonneg l)) as (p1 & -> & Hd1 & Hr1).
  destruct (rd_encode l p1 4 _ Hl ltac:(lia) Hs ltac:(lia) Hd1 ltac:(lia)) as (p2 & -> & Hd2 & Hr2).
  destruct (rd_encode l p2 _ _ Hl ltac:(lia) Hs Ht Hd2 ltac:(lia)) as (p3 & -> & Hd3 & Hr3).
  destruct (rd_encode l p3 _ _ Hl ltac:(lia) Hs Hz Hd3 ltac:(lia)) as (p4 & -> & Hd4 & Hr4).
  exists p4. split; [done|]. split; [done|lia].
Qed.

Definition in_type (w : Z) (v : Z) : Prop := - 2 ^ (w - 1) <= v < 2 ^ (w - 1).

(** ** The stream of a list of values *)
Section Stream.
Context (w : Z) (Hw : w = 32 \/ w = 64) (vs : list Z) (Hvs : Forall (in_type w) vs) (Hmax : zlen vs <= 2 ^ 40).

Definition first_value : Z := match vs with [] => 0 | v :: _ => v end.
Definition stream_deltas : list Z := match vs with [] => [] | v :: t => deltas w v t end.
Definition stream_header : list Z :=
  uleb128_encode 64 128 ++ uleb128_encode 64 4 ++ uleb128_encode 64 (zlen vs) ++
  uleb128_encode 64 (zigzag_encode 64 first_value).

Lemma first_value_range : - 2 ^ (64 - 1) <= first_value < 2 ^ (64 - 1).
Proof using Hw Hvs Hmax.
  assert (in_type w first_value).
  { unfold first_value. destruct Hvs; [|done]. unfold in_type. destruct Hw; subst w; lia. }
  unfold in_type in *. destruct Hw; subst w; lia.
Qed.

Lemma stream_deltas_spec : fits_width w stream_deltas /\ zlen stream_deltas = Z.max 0 (zlen vs - 1).
Proof using Hw Hvs Hmax.
  unfold stream_deltas. destruct vs as [|v t]; [by split|]. rewrite zlen_deltas, zlen_cons. pose proof (zlen_nonneg t).
  split; [apply deltas_fit; lia|lia].
Qed.

Lemma stream_header_spec : bytes_ok stream_header /\ zlen stream_header <= 40.
Proof using Hw Hvs Hmax.
  pose proof (zigzag_encode_range 64 first_value ltac:(lia) first_value_range) as Hzr. pose proof (zlen_nonneg vs).
  destruct (uleb64_short 128 ltac:(lia)) as [Ha1 Ha2]. destruct (uleb64_short 4 ltac:(lia)) as [Hb1 Hb2].
  destruct (uleb64_short (zlen vs) ltac:(lia)) as [Hc1 Hc2]. destruct (uleb64_short _ Hzr) as [Hd1 Hd2].
  unfold stream_header. rewrite !Forall_app, !zlen_app. split; [done|lia].
Qed.

Lemma encode_stream blocks : (forall out, encode_blocks (length stream_deltas) w stream_deltas out = Some (out ++ blocks)) ->
  forall out, delta_binary_packed_encode w vs out = Some (out ++ stream_header ++ blocks).
Proof using Hw Hvs Hmax.
  intros Henc out. unfold delta_binary_packed_encode, put_uleb, stream_header. fold first_value.
  unfold stream_deltas, first_value in *. destruct vs as [|v t].
  - specialize (Henc []). cbn in Henc. injection Henc as <-. by rewrite app_nil_r, <- !app_assoc.
  - assert (length (deltas w v t) = length t) as <- by (pose proof (zlen_deltas w v t); unfold zlen in *; lia).
    rewrite Henc. by rewrite <- !app_assoc.
Qed.

(** The decoder on a stream followed by anything. *)
Lemma decode_stream blocks rest dst l : l = stream_header ++ blocks ++ rest -> bytes_ok l -> zlen l < 2 ^ 58 ->
  zlen vs <= zlen dst -> (vs = [] -> blocks = []) ->
  (forall p last k, 0 <= p <= zlen l -> zdrop p l = blocks ++ rest -> zlen stream_deltas <= Z.of_nat k ->
     block_loop k w l 4 32 p (zlen stream_deltas) last =
       Some (Some (p + zlen blocks, (accumulate w 0 last stream_deltas).2))) ->
  delta_binary_packed w l dst (zlen vs) = Some (Some (zlen (stream_header ++ blocks), vs ++ zdrop (zlen vs) dst)).
Proof using Hw Hvs Hmax.
  intros Hl Hok Hs Hdst Hnil Hdec. pose proof (zlen_nonneg vs).
  pose proof (zigzag_encode_range 64 first_value ltac:(lia) first_value_range) as Hzr.
  destruct (delta_header_encode l (zlen vs) (zigzag_encode 64 first_value) (blocks ++ rest) Hok ltac:(lia) ltac:(lia) Hzr)
    as (p & Hh & Hp & Hpr); [by rewrite Hl; unfold stream_header; rewrite <- !app_assoc|].
  unfold delta_binary_packed. rewrite Hh. change (delta_shape_ok 128 4) with true. cbn [negb].
  destruct (Z.ltb_spec (zlen dst) (zlen vs)); [lia|]. destruct (Z.ltb_spec (zlen vs) (zlen vs)); [lia|].
  assert (Hcons : zlen (stream_header ++ blocks) = p + zlen blocks).
  { assert (Hz : zlen (zdrop p l) = zlen blocks + zlen rest) by (by rewrite Hp, zlen_app).
    rewrite zlen_zdrop in Hz by lia. pose proof (zlen_nonneg blocks). pose proof (zlen_nonneg rest).
    pose proof (f_equal zlen Hl) as Hll. rewrite !zlen_app in Hll. rewrite zlen_app. lia. }
  rewrite Hcons. clear Hh Hcons. pose proof stream_deltas_spec as [_ Hdl]. pose proof first_value_range as Hfv. unfold first_value, stream_deltas in *.
  destruct vs as [|v t].
  { rewrite Hnil by done. by rewrite Z.add_0_r. }
  pose proof (zlen_nonneg t). destruct (Z.eqb_spec (zlen (v :: t)) 0) as [He|]; [rewrite zlen_cons in He; lia|].
  rewrite zigzag_decode_encode by (lia || exact Hfv). change (128 / 4) with 32. rewrite zlen_cons, Z.add_simpl_r in *.
  replace (zlen t) with (zlen (deltas w v t)) by lia.
  rewrite (Hdec p (wrap w v)) by (done || lia). rewrite accumulate_deltas.
  change (wrap w v :: List.map (wrap w) t) with (List.map (wrap w) (v :: t)).
  rewrite List.map_map. rewrite (map_ext_in _ (fun v => v)), List.map_id.
  2: { intros u Hu. rewrite List.Forall_forall in Hvs. apply sint_wrap; [lia|by apply Hvs]. }
  rewrite store_spec by (rewrite ?zlen_cons; lia). rewrite ztake_0, zlen_cons, zlen_deltas, Z.add_0_l. done.
Qed.

Lemma delta_stream : exists body, bytes_ok body /\ zlen body <= 2 ^ 51 /\
  (forall out, delta_binary_packed_encode w vs out = Some (out ++ body)) /\
  forall rest dst, bytes_ok rest -> zlen rest < 2 ^ 57 -> zlen vs <= zlen dst ->
    delta_binary_packed w (body ++ rest) dst (zlen vs) = Some (Some (zlen body, vs ++ zdrop (zlen vs) dst)).
Proof using Hw Hvs Hmax.
  destruct stream_deltas_spec as [Hfit Hdl]. destruct stream_header_spec as [Hhb Hhl].
  destruct (blocks_spec w Hw (length stream_deltas) stream_deltas Hfit ltac:(done)) as (blocks & Henc & Hbb & Hbl & Hdec).
  exists (stream_header ++ blocks). rewrite zlen_app, Forall_app. split_and!; [done|done|lia|by apply encode_stream|].
  intros rest dst Hrest Hrl Hdst. rewrite <- app_assoc, <- zlen_app.
  assert (bytes_ok (stream_header ++ blocks ++ rest)) by (by rewrite !Forall_app).
  assert (zlen (stream_header ++ blocks ++ rest) < 2 ^ 58) by (rewrite !zlen_app; lia).
  apply (decode_stream blocks rest); [done..| |].
  - intros Hn. unfold stream_deltas in *. rewrite Hn in *. specialize (Henc []). cbn in Henc. by injection Henc as <-.
  - intros p last k Hp Hd Hk. by apply (Hdec _ p rest).
Qed.
End Stream.

(** C6: DELTA_BINARY_PACKED round trip, for every list of 32- or 64-bit
    values (differences that overflow the type included): the encoder appends
    a stream from which, whatever follows it, the decoder asked for all the
    values stores them in order, leaves the rest of the output alone, and
    reports exactly the stream's length as consumed. *)
Theorem delta_roundtrip w vs out rest dst :
  w = 32 \/ w = 64 -> Forall (in_type w) vs -> zlen vs <= 2 ^ 40 -> zlen vs <= zlen dst ->
  bytes_ok rest -> zlen rest < 2 ^ 57 ->
  exists body, delta_binary_packed_encode w vs out = Some (out ++ body) /\
    delta_binary_packed w (body ++ rest) dst (zlen vs) =
      Some (Some (zlen body, vs ++ zdrop (zlen vs) dst)).
Proof.
  intros Hw Hvs Hmax Hdst Hrest Hrl. destruct (delta_stream w Hw vs Hvs Hmax) as (body & _ & _ & Henc & Hdec).
  exists body. split; [apply Henc|by apply Hdec].
Qed.

Lemma delta_roundtrip_witness :
  exists body, delta_binary_packed_encode 32 [2147483647; -2147483648; 5] [] = Some ([] ++ body) /\
    delta_binary_packed 32 (body ++ [7]) [0; 0; 0; 9] 3 =
      Some (Some (zlen body, [2147483647; -2147483648; 5; 9])).
Proof.
  exact (delta_roundtrip 32 [2147483647; -2147483648; 5] [] [7] [0; 0; 0; 9] ltac:(lia)
    ltac:(repeat constructor; lia) ltac:(by vm_compute) ltac:(by vm_compute)
    ltac:(repeat constructor; lia) ltac:(by vm_compute)).
Defined.
