(* ===== verification/ByteStreams.v ===== *)
(** * BYTE_STREAM_SPLIT and bitmap copies (columnar.hpp section 29, columnar_encode.hpp section 48)

    The transposition of [n] values of [width] bytes into [width] streams and
    back, and the copy of bits to an arbitrary bit offset. Memory is the list of
    an object's bytes; [None] is an access outside it, [Some None] a refusal
    ([return false]) that writes nothing. *)
From S2P Require Import Prelude Columnar.

(** ** BYTE_STREAM_SPLIT *)

(** The assignments [dst[d] = src[s]], in program order. *)
Fixpoint copy_all (src dst : list Z) (ps : list (Z * Z)) : option (list Z) :=
  match ps with
  | [] => Some dst
  | (d, s) :: ps =>
      match zget src s with
      | None => None
      | Some b => match store dst d [b] with
                  | None => None
                  | Some dst' => copy_all src dst' ps
                  end
      end
  end.

(** The loop nests of the two directions: the pairs they assign. *)
Definition decode_pairs (width n : Z) : list (Z * Z) :=
  if width =? 4 then
    concat (List.map (fun i => [(4 * i + 0, i); (4 * i + 1, n + i); (4 * i + 2, 2 * n + i);
                                (4 * i + 3, 3 * n + i)]) (seqZ 0 n))
  else if width =? 8 then
    concat (List.map (fun i => List.map (fun b => (8 * i + b, b * n + i)) (seqZ 0 8)) (seqZ 0 n))
  else
    concat (List.map (fun b => List.map (fun i => (width * i + b, b * n + i)) (seqZ 0 n)) (seqZ 0 width)).

Definition encode_pairs (width n : Z) : list (Z * Z) :=
  if width =? 4 then
    concat (List.map (fun i => [(i, 4 * i); (n + i, 4 * i + 1); (2 * n + i, 4 * i + 2);
                                (3 * n + i, 4 * i + 3)]) (seqZ 0 n))
  else
    concat (List.map (fun b => List.map (fun i => (b * n + i, width * i + b)) (seqZ 0 n)) (seqZ 0 width)).

Definition byte_stream_split (l : list Z) (width n : Z) (out : list Z) : option (option (list Z)) :=
  if (width =? 0) || (size_max / width <? n) then Some None
  else
    let total := n * width in
    if (zlen l <? total) || (zlen out <? total) then Some None
    else match copy_all l out (decode_pairs width n) with
         | None => None
         | Some out' => Some (Some out')
         end.

Definition byte_stream_split_encode (l : list Z) (width n : Z) (out : list Z) : option (option (list Z)) :=
  if (width =? 0) || (size_max / width <? n) then Some None
  else if (zlen l <? n * width) || (zlen out <? n * width) then Some None
  else match copy_all l out (encode_pairs width n) with
       | None => None
       | Some out' => Some (Some out')
       end.

(** The overload appending to a vector. *)
Definition byte_stream_split_append (l : list Z) (width n : Z) (out : list Z) : option (list Z) :=
  if (width =? 0) || (n =? 0) || (zlen l / width <? n) then Some out
  else
    let fresh := replicate (Z.to_nat (u64 (n * width))) 0 in
    match byte_stream_split_encode l width n fresh with
    | None => None
    | Some (Some tail) => Some (out ++ tail)
    | Some None => Some (out ++ fresh)
    end.

(** ** Copying bits *)

(** [d[i] = (d[i] & ~mask) | (v & mask)] on bytes. *)
Definition merge_byte (out : list Z) (i mask v : Z) : option (list Z) :=
  match zget out i with
  | None => None
  | Some t => store out i [u8 (Z.lor (Z.land t (Z.lnot mask)) (Z.land v mask))]
  end.

(** [while (left >= 64 && p + 9 <= in_bytes)]: eight output bytes a round. *)
Fixpoint copy_words (fuel : nat) (s : list Z) (k in_bytes : Z) (out : list Z) (o p left : Z) :
    option (list Z * Z * Z * Z) :=
  if (64 <=? left) && (p + 9 <=? in_bytes) then
    match fuel with
    | O => None
    | S fuel =>
        match load_le64 s p, zget s (p + 8) with
        | Some w, Some b =>
            let w' := Z.lor (Z.shiftr w k) (u64 (Z.shiftl b (64 - k))) in
            match store out o (le_bytes 8 w') with
            | Some out' => copy_words fuel s k in_bytes out' (o + 8) (p + 8) (left - 64)
            | None => None
            end
        | _, _ => None
        end
    end
  else Some (out, o, p, left).

(** [while (left >= 8)]: one output byte a round. *)
Fixpoint copy_bytes (fuel : nat) (s : list Z) (k : Z) (out : list Z) (o p left : Z) :
    option (list Z * Z * Z * Z) :=
  if 8 <=? left then
    match fuel with
    | O => None
    | S fuel =>
        match zget s p, zget s (p + 1) with
        | Some a, Some b =>
            match store out o [u8 (Z.lor (Z.shiftr a k) (Z.shiftl b (8 - k)))] with
            | Some out' => copy_bytes fuel s k out' (o + 1) (p + 1) (left - 8)
            | None => None
            end
        | _, _ => None
        end
    end
  else Some (out, o, p, left).

(** [if (left)]: the bits of the last, partial byte. *)
Definition copy_tail (s : list Z) (k : Z) (out : list Z) (o p left : Z) : option (list Z) :=
  if left =? 0 then Some out
  else
    let first := p * 8 + k in
    match zget s (first / 8) with
    | None => None
    | Some a =>
        let v := Z.shiftr a (first mod 8) in
        let mask := u8 (2 ^ left - 1) in
        if 8 <? first mod 8 + left then
          match zget s (first / 8 + 1) with
          | None => None
          | Some b => merge_byte out o mask (Z.lor v (Z.shiftl b (8 - first mod 8)))
          end
        else merge_byte out o mask v
    end.

(** [dst_bit % 8 == 0]: a memcpy and a masked last byte. *)
Definition copy_aligned (s : list Z) (n : Z) (out : list Z) (o : Z) : option (list Z) :=
  let full := n / 8 in
  if zlen s <? full then None
  else match store out o (ztake full s) with
       | None => None
       | Some out' =>
           let rem := n mod 8 in
           if rem =? 0 then Some out'
           else match zget s full with
                | None => None
                | Some b => merge_byte out' (o + full) (u8 (2 ^ rem - 1)) b
                end
       end.

(** The unaligned destination: head byte, words, bytes, tail. *)
Definition copy_unaligned (s : list Z) (n : Z) (out : list Z) (dst_bit : Z) : option (list Z) :=
  let sh := dst_bit mod 8 in
  let o := dst_bit / 8 in
  let head := Z.min n (8 - sh) in
  match zget s 0 with
  | None => None
  | Some b =>
      match merge_byte out o (u8 (Z.shiftl (2 ^ head - 1) sh)) (Z.shiftl b sh) with
      | None => None
      | Some out1 =>
          if n =? head then Some out1
          else
            let k := 8 - sh in
            match copy_words (length s) s k ((n + 7) / 8) out1 (o + 1) 0 (n - k) with
            | None => None
            | Some (out2, o2, p2, left2) =>
                match copy_bytes (length s) s k out2 o2 p2 left2 with
                | None => None
                | Some (out3, o3, p3, left3) => copy_tail s k out3 o3 p3 left3
                end
            end
      end
  end.

Definition copy_bits (s : list Z) (n : Z) (out : list Z) (dst_bit : Z) : option (option (list Z)) :=
  if zlen s <? (u64 (n + 7)) / 8 then Some None
  else if (size_max - n <? dst_bit) || (zlen out <? u64 (dst_bit + n + 7) / 8) then Some None
  else if n =? 0 then Some (Some out)
  else
    match (if dst_bit mod 8 =? 0 then copy_aligned s n out (dst_bit / 8)
           else copy_unaligned s n out dst_bit) with
    | None => None
    | Some out' => Some (Some out')
    end.

(** Assignments in range whose target determines the source. *)
Lemma copy_all_spec src f ps dst :
  (forall d s, In (d, s) ps -> 0 <= d < zlen dst /\ 0 <= s < zlen src /\ s = f d) ->
  exists dst', copy_all src dst ps = Some dst' /\ zlen dst' = zlen dst /\
    (forall d s, In (d, s) ps -> zget dst' d = zget src s) /\
    (forall d, (forall s, ~ In (d, s) ps) -> zget dst' d = zget dst d).
Proof.
  revert dst. induction ps as [|[d s] ps IH]; intros dst Hps; cbn [copy_all].
  { exists dst. by split_and!. }
  destruct (Hps d s (or_introl eq_refl)) as (Hd & Hs & Hf).
  destruct (proj2 (zget_is_Some src s) Hs) as [b Hb]. rewrite Hb.
  destruct (store1_spec dst d b Hd) as (dst1 & -> & Hl1 & Hd1 & Hk1).
  destruct (IH dst1) as (dst2 & -> & Hl2 & Hin & Hout).
  { intros d' s' Hin. rewrite Hl1. apply Hps. by right. }
  exists dst2. split; [done|]. split; [lia|]. split.
  - intros d' s' [[= -> ->]|Hin']; [|by apply Hin].
    destruct (in_dec (prod_eq_dec (EqDecision0 := Z.eq_dec) (EqDecision1 := Z.eq_dec)) (d', s') ps) as [Hin'|Hnin];
      [by apply Hin|].
    rewrite Hout; [congruence|]. intros s2 Hs2. destruct (Hps d' s2 (or_intror Hs2)) as (_ & _ & ?).
    by subst.
  - intros d' Hd'. rewrite Hout, Hk1; [done| |].
    + intros ->. apply (Hd' s). by left.
    + intros s2 Hs2. apply (Hd' s2). by right.
Qed.

(** Both loop nests assign every value byte once. *)
Lemma in_decode_pairs width n d s : 0 < width -> 0 <= n ->
  In (d, s) (decode_pairs width n) <->
  exists i b, 0 <= i < n /\ 0 <= b < width /\ d = width * i + b /\ s = b * n + i.
Proof.
  intros Hw Hn. unfold decode_pairs. destruct (Z.eqb_spec width 4) as [-> |]; [|destruct (Z.eqb_spec width 8) as [-> |]];
    rewrite in_concat; setoid_rewrite in_map_iff; setoid_rewrite in_seqZ; split.
  - intros (? & (i & <- & Hi) & Hin). cbn in Hin.
    destruct Hin as [[= <- <-]|[[= <- <-]|[[= <- <-]|[[= <- <-]|[]]]]];
      [exists i, 0|exists i, 1|exists i, 2|exists i, 3]; lia.
  - intros (i & b & Hi & Hb & -> & ->). eexists. split; [exists i; split; [done|lia]|]. cbn.
    assert (b = 0 \/ b = 1 \/ b = 2 \/ b = 3) as [-> |[-> |[-> | ->]]] by lia;
      [left|right; left|right; right; left|right; right; right; left]; f_equal; lia.
  - intros (? & (i & <- & Hi) & Hin). apply in_map_iff in Hin as (b & [= <- <-] & Hb).
    apply in_seqZ in Hb. exists i, b. lia.
  - intros (i & b & Hi & Hb & -> & ->). eexists. split; [exists i; split; [done|lia]|].
    apply in_map_iff. exists b. split; [done|]. apply in_seqZ. lia.
  - intros (? & (b & <- & Hb) & Hin). apply in_map_iff in Hin as (i & [= <- <-] & Hi).
    apply in_seqZ in Hi. exists i, b. lia.
  - intros (i & b & Hi & Hb & -> & ->). eexists. split; [exists b; split; [done|lia]|].
    apply in_map_iff. exists i. split; [done|]. apply in_seqZ. lia.
Qed.

Lemma in_encode_pairs width n d s : 0 < width -> 0 <= n ->
  In (d, s) (encode_pairs width n) <->
  exists i b, 0 <= i < n /\ 0 <= b < width /\ s = width * i + b /\ d = b * n + i.
Proof.
  intros Hw Hn. unfold encode_pairs. destruct (Z.eqb_spec width 4) as [-> |];
    rewrite in_concat; setoid_rewrite in_map_iff; setoid_rewrite in_seqZ; split.
  - intros (? & (i & <- & Hi) & Hin). cbn in Hin.
    destruct Hin as [[= <- <-]|[[= <- <-]|[[= <- <-]|[[= <- <-]|[]]]]];
      [exists i, 0|exists i, 1|exists i, 2|exists i, 3]; lia.
  - intros (i & b & Hi & Hb & -> & ->). eexists. split; [exists i; split; [done|lia]|]. cbn.
    assert (b = 0 \/ b = 1 \/ b = 2 \/ b = 3) as [-> |[-> |[-> | ->]]] by lia;
      [left|right; left|right; right; left|right; right; right; left]; f_equal; lia.
  - intros (? & (b & <- & Hb) & Hin). apply in_map_iff in Hin as (i & [= <- <-] & Hi).
    apply in_seqZ in Hi. exists i, b. lia.
  - intros (i & b & Hi & Hb & -> & ->). eexists. split; [exists b; split; [done|lia]|].
    apply in_map_iff. exists i. split; [done|]. apply in_seqZ. lia.
Qed.

Lemma split_index width n i b : 0 < width -> 0 <= i < n -> 0 <= b < width ->
  (width * i + b) mod width = b /\ (width * i + b) / width = i /\ 0 <= width * i + b < n * width.
Proof.
  intros Hw Hi Hb. rewrite (Z.mul_comm width i), Z.add_comm, Z.mod_add, Z.div_add by lia.
  rewrite Z.mod_small, Z.div_small by lia. split_and!; nia.
Qed.

Section Split.
Context (width n : Z) (Hw : 0 < width) (Hn : 0 <= n) (l out : list Z)
  (Hl : n * width <= zlen l < 2 ^ 64) (Ho : n * width <= zlen out).

Lemma split_guard : (width =? 0) || (size_max / width <? n) = false /\
  (zlen l <? n * width) || (zlen out <? n * width) = false.
Proof using Hw Hl Ho.
  assert (n <= size_max / width) by (apply Z.div_le_lower_bound; unfold size_max; lia).
  destruct (Z.eqb_spec width 0), (Z.ltb_spec (size_max / width) n),
    (Z.ltb_spec (zlen l) (n * width)), (Z.ltb_spec (zlen out) (n * width)); (done || lia).
Qed.

Lemma byte_stream_split_spec : exists out', byte_stream_split l width n out = Some (Some out') /\
  zlen out' = zlen out /\
  (forall i b, 0 <= i < n -> 0 <= b < width -> zget out' (width * i + b) = zget l (b * n + i)) /\
  forall d, n * width <= d -> zget out' d = zget out d.
Proof using Hw Hn Hl Ho.
  destruct split_guard as [Hg1 Hg2]. unfold byte_stream_split. rewrite Hg1. cbv zeta. rewrite Hg2.
  destruct (copy_all_spec l (fun d => (d mod width) * n + d / width) (decode_pairs width n) out)
    as (out' & -> & Hlen & Hin & Hout).
  { intros d s Hin. apply in_decode_pairs in Hin as (i & b & Hi & Hb & -> & ->); [|done..].
    destruct (split_index width n i b Hw Hi Hb) as (-> & -> & ?). split_and!; nia. }
  exists out'. split_and!; [done|done| |].
  - intros i b Hi Hb. apply Hin, in_decode_pairs; [done..|]. by exists i, b.
  - intros d Hd. apply Hout. intros s Hs. apply in_decode_pairs in Hs as (i & b & Hi & Hb & -> & _); [|done..].
    destruct (split_index width n i b Hw Hi Hb). lia.
Qed.

Lemma byte_stream_split_encode_spec : exists out', byte_stream_split_encode l width n out = Some (Some out') /\
  zlen out' = zlen out /\
  forall i b, 0 <= i < n -> 0 <= b < width -> zget out' (b * n + i) = zget l (width * i + b).
Proof using Hw Hn Hl Ho.
  destruct split_guard as [Hg1 Hg2]. unfold byte_stream_split_encode. rewrite Hg1, Hg2.
  destruct (copy_all_spec l (fun d => width * (d mod n) + d / n) (encode_pairs width n) out)
    as (out' & -> & Hlen & Hin & Hout).
  { intros d s Hin. apply in_encode_pairs in Hin as (i & b & Hi & Hb & -> & ->); [|done..].
    destruct (split_index n width b i ltac:(lia) Hb Hi) as (Hm & Hq & ?). rewrite (Z.mul_comm b n), Hm, Hq.
    split_and!; nia. }
  exists out'. split_and!; [done|done|].
  intros i b Hi Hb. apply Hin, in_encode_pairs; [done..|]. by exists i, b.
Qed.
End Split.

(** BYTE_STREAM_SPLIT round trip. For every element width and count that
    the input holds, the encoder appends exactly [n * width] bytes, and
    decoding them (whatever follows) restores the values byte for byte and
    leaves the rest of the destination untouched; all accesses stay inside the
    buffers. *)
Theorem byte_stream_split_roundtrip width n l out rest dst :
  0 < width -> 0 <= n -> n * width <= zlen l < 2 ^ 64 -> n * width <= zlen dst -> zlen rest < 2 ^ 63 ->
  n * width < 2 ^ 63 ->
  exists enc, byte_stream_split_append l width n out = Some (out ++ enc) /\ zlen enc = n * width /\
    byte_stream_split (enc ++ rest) width n dst =
      Some (Some (ztake (n * width) l ++ zdrop (n * width) dst)).
Proof.
  intros Hw Hn Hl Hd Hr Hs.
  assert (Henc : exists enc, byte_stream_split_append l width n out = Some (out ++ enc) /\ zlen enc = n * width /\
    forall i b, 0 <= i < n -> 0 <= b < width -> zget enc (b * n + i) = zget l (width * i + b)).
  { unfold byte_stream_split_append. destruct (Z.eqb_spec width 0); [lia|]. cbn [orb].
    destruct (Z.eqb_spec n 0) as [-> |Hn0]; cbn [orb].
    { exists []. rewrite app_nil_r. split_and!; [done|done|]. intros. lia. }
    assert (n <= zlen l / width) by (apply Z.div_le_lower_bound; lia).
    destruct (Z.ltb_spec (zlen l / width) n); [lia|]. rewrite (wrap_small 64) by lia.
    destruct (byte_stream_split_encode_spec width n Hw Hn l (replicate (Z.to_nat (n * width)) 0))
      as (enc & -> & Hlen & Hget); [lia|rewrite zlen_replicate; lia|].
    exists enc. rewrite zlen_replicate in Hlen. split_and!; [done|lia|done]. }
  destruct Henc as (enc & Happ & Hlen & Hget). exists enc. split_and!; [done|done|].
  pose proof (zlen_nonneg rest).
  destruct (byte_stream_split_spec width n Hw Hn (enc ++ rest) dst) as (out' & -> & Hlen' & Hin & Hrest);
    [rewrite zlen_app; lia|done|]. do 2 f_equal. apply zget_ext.
  { rewrite zlen_app, zlen_ztake, zlen_zdrop by lia. lia. }
  intros k Hk. destruct (Z.le_gt_cases (n * width) k).
  - rewrite Hrest, zget_app_r by (done || (rewrite zlen_ztake; lia)).
    rewrite zlen_ztake, Z.min_l, zget_zdrop by lia. f_equal. lia.
  - rewrite zget_app_l, zget_ztake by (done || (rewrite zlen_ztake; lia)).
    assert (Hdm : k = width * (k / width) + k mod width) by (apply Z.div_mod; lia).
    pose proof (Z.mod_pos_bound k width Hw). assert (0 <= k / width < n).
    { split; [apply Z.div_pos; lia|apply Z.div_lt_upper_bound; lia]. }
    rewrite Hdm at 1. rewrite Hin by lia. rewrite zget_app_l by nia. rewrite Hget by lia. by rewrite <- Hdm.
Qed.

Lemma byte_stream_split_roundtrip_witness :
  exists enc, byte_stream_split_append [1; 2; 3; 4; 5; 6] 3 2 [9] = Some ([9] ++ enc) /\
    byte_stream_split (enc ++ []) 3 2 [0; 0; 0; 0; 0; 0; 8] = Some (Some [1; 2; 3; 4; 5; 6; 8]).
Proof.
  destruct (byte_stream_split_roundtrip 3 2 [1; 2; 3; 4; 5; 6] [9] [] [0; 0; 0; 0; 0; 0; 8] ltac:(lia) ltac:(lia)
    ltac:(by vm_compute) ltac:(by vm_compute) ltac:(by vm_compute) ltac:(lia)) as (enc & H1 & _ & H2).
  exists enc. split; [exact H1|exact H2].
Defined.

(** ** Copying bits: what each store adds *)
Lemma bit_store out o vs j : bytes_ok out -> bytes_ok vs -> 0 <= o -> o + zlen vs <= zlen out -> 0 <= j ->
  bit (ztake o out ++ vs ++ zdrop (o + zlen vs) out) j =
    if (8 * o <=? j) && (j <? 8 * (o + zlen vs)) then bit vs (j - 8 * o) else bit out j.
Proof.
  intros Ho Hv H0 Hf Hj. pose proof (zlen_nonneg vs).
  rewrite bit_app by auto using bytes_ok_ztake. rewrite zlen_ztake, Z.min_l by lia.
  destruct (Z.ltb_spec j (8 * o)), (Z.leb_spec (8 * o) j); try lia; cbn [andb].
  - apply bit_ztake; done || lia.
  - rewrite bit_app by (done || lia).
    destruct (Z.ltb_spec (j - 8 * o) (8 * zlen vs)), (Z.ltb_spec j (8 * (o + zlen vs))); try lia; [done|].
    rewrite bit_zdrop by (done || lia). f_equal. lia.
Qed.

Section CopyBits.
Context (s out0 : list Z) (dst_bit n : Z)
  (Hs : bytes_ok s) (Hout0 : bytes_ok out0) (Hdst : 0 <= dst_bit) (Hn : 0 < n)
  (Hin : (n + 7) / 8 <= zlen s) (Hfit : (dst_bit + n + 7) / 8 <= zlen out0).

(** The first [m] bits have been copied, nothing else has changed. *)
Definition target (m j : Z) : bool :=
  if (dst_bit <=? j) && (j <? dst_bit + m) then bit s (j - dst_bit) else bit out0 j.

Record copied (m : Z) (out : list Z) : Prop := Copied {
  cp_len : zlen out = zlen out0;
  cp_ok : bytes_ok out;
  cp_bits j : 0 <= j -> bit out j = target m j
}.

Lemma copied_start : copied 0 out0.
Proof using Hout0.
  constructor; [done|done|]. intros j Hj. unfold target.
  destruct (Z.leb_spec dst_bit j), (Z.ltb_spec j (dst_bit + 0)); try done; lia.
Qed.

Lemma store_copied m m' out o vs : copied m out -> 0 <= m <= m' -> 0 <= o -> o + zlen vs <= zlen out0 -> bytes_ok vs ->
  (forall j, 8 * o <= j < 8 * (o + zlen vs) -> bit vs (j - 8 * o) = target m' j) ->
  (m < m' -> 8 * o <= dst_bit + m /\ dst_bit + m' <= 8 * (o + zlen vs)) ->
  exists out', store out o vs = Some out' /\ copied m' out'.
Proof using Hdst.
  intros [Hl Hok Hb] Hm H0 Hf Hv Hbits Hrange. rewrite store_spec by lia. eexists. split; [done|].
  pose proof (zlen_nonneg vs). constructor.
  - rewrite !zlen_app, zlen_ztake, zlen_zdrop by lia. lia.
  - apply Forall_app. split; [by apply bytes_ok_ztake|]. apply Forall_app. split; [done|by apply bytes_ok_zdrop].
  - intros j Hj. rewrite bit_store by (done || lia).
    destruct (Z.leb_spec (8 * o) j), (Z.ltb_spec j (8 * (o + zlen vs))); cbn [andb]; [apply Hbits; lia|..];
      rewrite Hb by done; unfold target;
      destruct (Z.leb_spec dst_bit j), (Z.ltb_spec j (dst_bit + m)), (Z.ltb_spec j (dst_bit + m')); cbn [andb]; try done; lia.
Qed.

Lemma merge_copied m m' out o mask v : copied m out -> 0 <= m <= m' -> 0 <= o -> o + 1 <= zlen out0 -> 0 <= v ->
  (forall r, 0 <= r < 8 -> (if Z.testbit mask r then Z.testbit v r else target m (8 * o + r)) = target m' (8 * o + r)) ->
  (m < m' -> 8 * o <= dst_bit + m /\ dst_bit + m' <= 8 * (o + 1)) ->
  exists out', merge_byte out o mask v = Some out' /\ copied m' out'.
Proof using Hdst.
  intros Hc Hm H0 Hf Hv Hbits Hrange. unfold merge_byte.
  destruct (proj2 (zget_is_Some out o)) as [t Ht]; [rewrite (cp_len _ _ Hc); lia|]. rewrite Ht.
  apply (store_copied m m'); try done.
  - repeat constructor; apply (wrap_range 8); lia.
  - change (zlen [_]) with 1. intros j Hj.
    set (r := j - 8 * o). replace j with (8 * o + r) by lia. rewrite <- Hbits by lia.
    unfold bit. cbn [le_val]. rewrite Z.mul_0_r, Z.add_0_r, testbit_wrap by lia.
    rewrite Z.lor_spec, !Z.land_spec, Z.lnot_spec by lia.
    rewrite (bit_byte out o t r (cp_ok _ _ Hc) Ht) by lia. rewrite (cp_bits _ _ Hc) by lia.
    destruct (Z.ltb_spec r 8); [|lia]. cbn [andb].
    destruct (Z.testbit mask r), (Z.testbit v r), (target m _); done.
Qed.

Lemma target_in m j : dst_bit <= j < dst_bit + m -> target m j = bit s (j - dst_bit).
Proof using.
  intros Hj. unfold target. destruct (Z.leb_spec dst_bit j), (Z.ltb_spec j (dst_bit + m)); done || lia.
Qed.

Lemma target_out m m' j : j < dst_bit \/ (dst_bit + m <= j /\ dst_bit + m' <= j) -> target m j = target m' j.
Proof using.
  intros Hj. unfold target. destruct (Z.leb_spec dst_bit j), (Z.ltb_spec j (dst_bit + m)), (Z.ltb_spec j (dst_bit + m'));
    done || lia.
Qed.

Lemma in_source q : 8 * q < n -> q < zlen s.
Proof using Hin. intros. assert (q < (n + 7) / 8) by (apply Z.lt_le_trans with (q + 1); [lia|apply Z.div_le_lower_bound; lia]). lia. Qed.

Lemma in_output q : 8 * q < dst_bit + n -> q + 1 <= zlen out0.
Proof using Hfit. intros. assert (q + 1 <= (dst_bit + n + 7) / 8) by (apply Z.div_le_lower_bound; lia). lia. Qed.

Lemma mask_testbit c r : 0 <= c -> Z.testbit (2 ^ c - 1) r = (0 <=? r) && (r <? c).
Proof using.
  intros Hc. replace (2 ^ c - 1) with (Z.ones c) by (rewrite Z.ones_equiv; lia).
  destruct (Z.leb_spec 0 r); cbn [andb]; [|by rewrite Z.testbit_neg_r by lia].
  destruct (Z.ltb_spec r c); [by apply Z.ones_spec_low|by apply Z.ones_spec_high].
Qed.

(** The cursor of the unaligned loops: [m] bits done, the output byte-aligned. *)
Record at_bit (k m o p left : Z) : Prop := AtBit {
  ab_k : 1 <= k <= 7;
  ab_p : 0 <= p /\ m = 8 * p + k;
  ab_o : dst_bit + m = 8 * o;
  ab_left : left = n - m /\ 0 <= left
}.

Lemma copy_words_spec fuel k out m o p left : copied m out -> at_bit k m o p left -> zlen s - p <= Z.of_nat fuel ->
  exists out' m' o' p' left', copy_words fuel s k ((n + 7) / 8) out o p left = Some (out', o', p', left') /\
    copied m' out' /\ at_bit k m' o' p' left' /\ p <= p'.
Proof using Hs Hout0 Hdst Hn Hin Hfit.
  revert out m o p left. induction fuel as [|fuel IH]; intros out m o p left Hc Ha Hf; cbn [copy_words];
    destruct (Z.leb_spec 64 left); cbn [andb];
    try (destruct (Z.leb_spec (p + 9) ((n + 7) / 8))); try (exists out, m, o, p, left; done).
  { pose proof (ab_p _ _ _ _ _ Ha). lia. }
  destruct Ha as [Hk [Hp0 Hp] Ho [Hl Hl0]].
  rewrite load_le64_spec by (done || lia).
  destruct (proj2 (zget_is_Some s (p + 8))) as [b Hb]; [lia|]. rewrite Hb.
  set (w' := Z.lor _ _).
  assert (Hw : forall i, 0 <= i < 64 -> Z.testbit w' i = bit s (m + i)).
  { intros i Hi. unfold w'. rewrite Z.lor_spec, Z.shiftr_spec, testbit_wrap, testbit_shiftl by lia.
    unfold slice. rewrite testbit_wrap, Z.shiftr_spec by lia.
    destruct (Z.leb_spec 0 i), (Z.ltb_spec i 64); try lia. cbn [andb].
    destruct (Z.ltb_spec (i + k) 64); cbn [andb orb].
    - rewrite (Z.testbit_neg_r b) by lia. rewrite orb_false_r. unfold bit. f_equal. lia.
    - rewrite (bit_byte s (p + 8) b (i - (64 - k)) Hs Hb) by lia. destruct (Z.ltb_spec (i - (64 - k)) 8); [|lia].
      cbn [andb]. f_equal. lia. }
  assert (Hz : zlen (le_bytes 8 w') = 8) by done.
  assert (Hend : o + 8 <= zlen out0).
  { assert (o + 8 <= (dst_bit + n + 7) / 8) by (apply Z.div_le_lower_bound; lia). lia. }
  destruct (store_copied m (m + 64) out o (le_bytes 8 w') Hc) as (out1 & -> & Hc1); try lia.
  - apply le_bytes_ok.
  - intros j Hj. rewrite Hz in Hj. unfold bit. rewrite le_val_le_bytes, testbit_wrap by lia.
    destruct (Z.ltb_spec (j - 8 * o) (8 * Z.of_nat 8)); [|lia]. cbn [andb].
    rewrite Hw, target_in by lia. f_equal. lia.
  - destruct (IH out1 (m + 64) (o + 8) (p + 8) (left - 64) Hc1) as (out' & m' & o' & p' & left' & -> & Hc' & Ha' & Hp');
      [constructor; lia|lia|].
    exists out', m', o', p', left'. split_and!; try done. lia.
Qed.

(** Eight bits across two source bytes. *)
Lemma straddle k p a b r : 1 <= k <= 7 -> zget s p = Some a -> zget s (p + 1) = Some b -> 0 <= r < 8 ->
  Z.testbit (Z.lor (Z.shiftr a k) (Z.shiftl b (8 - k))) r = bit s (8 * p + k + r).
Proof using Hs.
  intros Hk Ha Hb Hr. rewrite Z.lor_spec, Z.shiftr_spec, testbit_shiftl by lia.
  rewrite (bit_byte s p a (r + k) Hs Ha) by lia. destruct (Z.leb_spec 0 r); [|lia].
  destruct (Z.ltb_spec (r + k) 8); cbn [andb orb].
  - rewrite (Z.testbit_neg_r b) by lia. rewrite orb_false_r. f_equal. lia.
  - rewrite (bit_byte s (p + 1) b _ Hs Hb) by lia. destruct (Z.ltb_spec (r - (8 - k)) 8); [|lia].
    cbn [andb]. f_equal. lia.
Qed.

Lemma copy_bytes_spec fuel k out m o p left : copied m out -> at_bit k m o p left -> zlen s - p <= Z.of_nat fuel ->
  exists out' m' o' p' left', copy_bytes fuel s k out o p left = Some (out', o', p', left') /\
    copied m' out' /\ at_bit k m' o' p' left' /\ left' < 8.
Proof using Hs Hout0 Hdst Hn Hin Hfit.
  revert out m o p left. induction fuel as [|fuel IH]; intros out m o p left Hc Ha Hf; cbn [copy_bytes];
    destruct (Z.leb_spec 8 left); try (exists out, m, o, p, left; done).
  { destruct Ha as [Hk [Hp0 Hp] Ho [Hl Hl0]]. pose proof (in_source p ltac:(lia)). lia. }
  destruct Ha as [Hk [Hp0 Hp] Ho [Hl Hl0]].
  destruct (proj2 (zget_is_Some s p)) as [a Ha]; [pose proof (in_source p ltac:(lia)); lia|].
  destruct (proj2 (zget_is_Some s (p + 1))) as [b Hb]; [pose proof (in_source (p + 1) ltac:(lia)); lia|].
  rewrite Ha, Hb. set (v := Z.lor _ _).
  assert (Hv : forall r, 0 <= r < 8 -> Z.testbit v r = bit s (m + r)).
  { intros r Hr. unfold v. rewrite (straddle k p) by (done || lia). f_equal. lia. }
  destruct (store_copied m (m + 8) out o [u8 v] Hc) as (out1 & -> & Hc1); try (change (zlen [_]) with 1); try lia.
  - pose proof (in_output o ltac:(lia)). lia.
  - repeat constructor; apply (wrap_range 8); lia.
  - intros j Hj. unfold bit. cbn [le_val]. rewrite Z.mul_0_r, Z.add_0_r, testbit_wrap by lia.
    destruct (Z.ltb_spec (j - 8 * o) 8); [|lia]. cbn [andb]. rewrite Hv, target_in by lia. f_equal. lia.
  - destruct (IH out1 (m + 8) (o + 1) (p + 1) (left - 8) Hc1) as (out' & m' & o' & p' & left' & -> & Hc' & Ha' & Hl');
      [constructor; lia|lia|].
    exists out', m', o', p', left'. done.
Qed.

Lemma copy_tail_spec k out m o p left : copied m out -> at_bit k m o p left -> left < 8 ->
  exists out', copy_tail s k out o p left = Some out' /\ copied n out'.
Proof using Hs Hout0 Hdst Hn Hin Hfit.
  intros Hc [Hk [Hp0 Hp] Ho [Hl Hl0]] H8. unfold copy_tail. destruct (Z.eqb_spec left 0).
  { exists out. split; [done|]. by replace n with m by lia. }
  rewrite (Z.mul_comm p 8). cbv zeta. rewrite (Z.add_comm (8 * p)).
  rewrite (Z.mul_comm 8 p), Z.div_add, Z.mod_add, (Z.div_small k), (Z.mod_small k), Z.add_0_l by lia.
  destruct (proj2 (zget_is_Some s p)) as [a Ha]; [pose proof (in_source p ltac:(lia)); lia|]. rewrite Ha.
  rewrite (wrap_small 8) by (assert (2 ^ left < 2 ^ 8) by (apply Z.pow_lt_mono_r; lia); assert (0 < 2 ^ left) by (apply Z.pow_pos_nonneg; lia); lia).
  assert (Hgo : forall v, 0 <= v -> (forall r, 0 <= r < left -> Z.testbit v r = bit s (m + r)) ->
    exists out', merge_byte out o (2 ^ left - 1) v = Some out' /\ copied n out').
  { intros v Hv Hbits. apply (merge_copied m n); try done; try lia.
    - pose proof (in_output o ltac:(lia)). lia.
    - intros r Hr. rewrite mask_testbit by lia. destruct (Z.leb_spec 0 r); [|lia]. cbn [andb].
      destruct (Z.ltb_spec r left); [|apply target_out; lia].
      rewrite Hbits, target_in by lia. f_equal. lia. }
  pose proof (zget_byte _ _ _ Hs Ha) as Hab. unfold is_byte in Hab.
  assert (Hshr : 0 <= Z.shiftr a k) by (apply Z.shiftr_nonneg; lia).
  destruct (Z.ltb_spec 8 (k + left)).
  - destruct (proj2 (zget_is_Some s (p + 1))) as [b Hb]; [pose proof (in_source (p + 1) ltac:(lia)); lia|]. rewrite Hb.
    pose proof (zget_byte _ _ _ Hs Hb) as Hbb. unfold is_byte in Hbb. apply Hgo.
    + apply Z.lor_nonneg. split; [done|]. apply Z.shiftl_nonneg. lia.
    + intros r Hr. rewrite (straddle k p) by (done || lia). f_equal. lia.
  - apply Hgo; [done|]. intros r Hr. rewrite Z.shiftr_spec by lia. rewrite (bit_byte s p a (r + k) Hs Ha) by lia.
    destruct (Z.ltb_spec (r + k) 8); [|lia]. cbn [andb]. f_equal. lia.
Qed.

Lemma copy_aligned_spec : dst_bit mod 8 = 0 ->
  exists out', copy_aligned s n out0 (dst_bit / 8) = Some out' /\ copied n out'.
Proof using Hs Hout0 Hdst Hn Hin Hfit.
  intros Hm. set (o := dst_bit / 8). assert (Ho : dst_bit = 8 * o) by (apply Z_div_exact_full_2; lia).
  set (full := n / 8). assert (Hfull : n = 8 * full + n mod 8) by (apply Z.div_mod; lia).
  pose proof (Z.mod_pos_bound n 8 ltac:(lia)) as Hr.
  assert (Hq : 0 <= full) by (apply Z.div_pos; lia).
  assert (Hfs : full <= zlen s) by (etransitivity; [|exact Hin]; apply Z.div_le_mono; lia).
  assert (Hfo : o + full <= zlen out0) by (etransitivity; [|exact Hfit]; apply Z.div_le_lower_bound; lia).
  assert (Hzt : zlen (ztake full s) = full) by (rewrite zlen_ztake; lia).
  unfold copy_aligned. fold full. cbv zeta. destruct (Z.ltb_spec (zlen s) full); [lia|].
  destruct (store_copied 0 (8 * full) out0 o (ztake full s) copied_start) as (out1 & -> & Hc1); try lia.
  - by apply bytes_ok_ztake.
  - intros j Hj. rewrite bit_ztake, target_in by (done || lia). f_equal. lia.
  - destruct (Z.eqb_spec (n mod 8) 0).
    { exists out1. split; [done|]. by replace n with (8 * full) by lia. }
    destruct (proj2 (zget_is_Some s full)) as [b Hb]; [pose proof (in_source full ltac:(lia)); lia|]. rewrite Hb.
    rewrite (wrap_small 8) by (assert (2 ^ (n mod 8) < 2 ^ 8) by (apply Z.pow_lt_mono_r; lia); assert (0 < 2 ^ (n mod 8)) by (apply Z.pow_pos_nonneg; lia); lia).
    pose proof (zget_byte _ _ _ Hs Hb) as Hbb. unfold is_byte in Hbb.
    apply (merge_copied (8 * full) n); try done; try lia.
    + pose proof (in_output (o + full) ltac:(lia)). lia.
    + intros r Hr'. rewrite mask_testbit by lia. destruct (Z.leb_spec 0 r); [|lia]. cbn [andb].
      destruct (Z.ltb_spec r (n mod 8)); [|apply target_out; lia].
      rewrite (bit_byte s full b r Hs Hb), target_in by lia. destruct (Z.ltb_spec r 8); [|lia]. cbn [andb]. f_equal. lia.
Qed.

Lemma copy_unaligned_spec : dst_bit mod 8 <> 0 ->
  exists out', copy_unaligned s n out0 dst_bit = Some out' /\ copied n out'.
Proof using Hs Hout0 Hdst Hn Hin Hfit.
  intros Hm. set (sh := dst_bit mod 8) in *. set (o := dst_bit / 8).
  assert (Ho : dst_bit = 8 * o + sh) by (apply Z.div_mod; lia).
  pose proof (Z.mod_pos_bound dst_bit 8 ltac:(lia)) as Hsh. fold sh in Hsh.
  assert (H0 : 0 <= o) by (apply Z.div_pos; lia).
  unfold copy_unaligned. fold sh o. cbv zeta. set (head := Z.min n (8 - sh)).
  destruct (proj2 (zget_is_Some s 0)) as [b Hb]; [pose proof (in_source 0 ltac:(lia)); lia|]. rewrite Hb.
  pose proof (zget_byte _ _ _ Hs Hb) as Hbb. unfold is_byte in Hbb.
  destruct (merge_copied 0 head out0 o (u8 (Z.shiftl (2 ^ head - 1) sh)) (Z.shiftl b sh) copied_start)
    as (out1 & -> & Hc1); try lia.
  - pose proof (in_output o ltac:(lia)). lia.
  - apply Z.shiftl_nonneg. lia.
  - intros r Hr. rewrite testbit_wrap, !testbit_shiftl, mask_testbit by lia.
    destruct (Z.ltb_spec r 8), (Z.leb_spec 0 r), (Z.leb_spec 0 (r - sh)), (Z.ltb_spec (r - sh) head);
      try lia; cbn [andb]; try (apply target_out; lia).
    rewrite (bit_byte s 0 b (r - sh) Hs Hb), target_in by lia.
    destruct (Z.ltb_spec (r - sh) 8); [|lia]. cbn [andb]. f_equal. lia.
  - destruct (Z.eqb_spec n head) as [He|He]; [exists out1; split; [done|]; by rewrite He|].
    destruct (copy_words_spec (length s) (8 - sh) out1 head (o + 1) 0 (n - (8 - sh)) Hc1)
      as (out2 & m2 & o2 & p2 & left2 & -> & Hc2 & Ha2 & Hp2); [constructor; lia|unfold zlen; lia|].
    destruct (copy_bytes_spec (length s) (8 - sh) out2 m2 o2 p2 left2 Hc2 Ha2)
      as (out3 & m3 & o3 & p3 & left3 & -> & Hc3 & Ha3 & Hl3); [unfold zlen; lia|].
    by apply (copy_tail_spec _ _ m3).
Qed.
End CopyBits.

(** The kernel on every input whose counts fit. *)
Lemma copy_bits_spec s n out dst_bit :
  bytes_ok s -> bytes_ok out -> 0 <= n -> 0 <= dst_bit -> dst_bit + n + 7 < 2 ^ 64 ->
  if (zlen s <? (n + 7) / 8) || (zlen out <? (dst_bit + n + 7) / 8)
  then copy_bits s n out dst_bit = Some None
  else exists out', copy_bits s n out dst_bit = Some (Some out') /\ zlen out' = zlen out /\ bytes_ok out' /\
    forall j, 0 <= j ->
      bit out' j = if (dst_bit <=? j) && (j <? dst_bit + n) then bit s (j - dst_bit) else bit out j.
Proof.
  intros Hs Ho Hn Hd Hov. unfold copy_bits, size_max. rewrite !(wrap_small 64) by lia.
  destruct (Z.ltb_spec (2 ^ 64 - 1 - n) dst_bit); [lia|]. cbn [orb].
  destruct (Z.ltb_spec (zlen s) ((n + 7) / 8)); cbn [orb]; [done|].
  destruct (Z.ltb_spec (zlen out) ((dst_bit + n + 7) / 8)); [done|].
  destruct (Z.eqb_spec n 0) as [-> |Hn0].
  { exists out. split_and!; [done..|]. apply (copied_start s out dst_bit Ho). }
  assert (Hgo : exists out', (if dst_bit mod 8 =? 0 then copy_aligned s n out (dst_bit / 8)
    else copy_unaligned s n out dst_bit) = Some out' /\ copied s out dst_bit n out').
  { destruct (Z.eqb_spec (dst_bit mod 8) 0); [apply copy_aligned_spec|apply copy_unaligned_spec]; done || lia. }
  destruct Hgo as (out' & -> & [Hl Hok Hb]). by exists out'.
Qed.

(** [copy_bits] on every input whose bit counts fit [size_t]: it refuses
    exactly when the source or the destination is too short; otherwise every
    access is in range, bits [dst_bit, dst_bit + n) of the destination become
    the first [n] bits of the source, and no other bit changes, whatever path
    (memcpy, words, bytes, tail) produced them. *)
Theorem copy_bits_exact s n out dst_bit :
  bytes_ok s -> bytes_ok out -> 0 <= n -> 0 <= dst_bit -> dst_bit + n + 7 < 2 ^ 64 ->
  if (zlen s <? (n + 7) / 8) || (zlen out <? (dst_bit + n + 7) / 8)
  then copy_bits s n out dst_bit = Some None
  else exists out', copy_bits s n out dst_bit = Some (Some out') /\ zlen out' = zlen out /\ bytes_ok out' /\
    forall j, 0 <= j ->
      bit out' j = if (dst_bit <=? j) && (j <? dst_bit + n) then bit s (j - dst_bit) else bit out j.
Proof. apply copy_bits_spec. Qed.

Lemma copy_bits_exact_witness :
  exists out', copy_bits [181; 255; 0] 17 [0; 255; 0; 255] 5 = Some (Some out') /\ bytes_ok out'.
Proof.
  destruct (copy_bits_exact [181; 255; 0] 17 [0; 255; 0; 255] 5 ltac:(repeat constructor; lia)
    ltac:(repeat constructor; lia) ltac:(lia) ltac:(lia) ltac:(lia)) as (out' & H & _ & Hok & _).
  exists out'. split; [exact H|exact Hok].
Defined.

(** The size checks of [copy_bits] wrap. Asked for a bit count within
    seven of [SIZE_MAX], [(n + 7) / 8] is computed as 0, an empty source and an
    empty destination pass both checks, and the copy reads past the source. *)
Theorem copy_bits_count_wraps n : 2 ^ 64 - 7 <= n < 2 ^ 64 -> copy_bits [] n [] 0 = None.
Proof.
  intros Hn. unfold copy_bits, size_max.
  assert (Hw : u64 (n + 7) = n + 7 - 2 ^ 64) by (symmetry; apply (Z.mod_unique _ _ 1); lia).
  rewrite Z.add_0_l, Hw, Z.div_small by lia. change (zlen []) with 0.
  destruct (Z.ltb_spec (2 ^ 64 - 1 - n) 0); [lia|]. cbn [orb Z.ltb]. destruct (Z.eqb_spec n 0); [lia|].
  cbn -[Z.div]. unfold copy_aligned. change (zlen []) with 0.
  assert (0 < n / 8) by (apply Z.div_str_pos; lia). by destruct (Z.ltb_spec 0 (n / 8)); [|lia].
Qed.

Lemma copy_bits_count_wraps_witness : copy_bits [] (2 ^ 64 - 1) [] 0 = None.
Proof. exact (copy_bits_count_wraps (2 ^ 64 - 1) ltac:(lia)). Defined.
