(* ===== verification/Dictionary.v ===== *)
(** * Dictionary builders (columnar_encode.hpp section 49)

    The hash, the open-addressing table and the two dictionaries. A value is
    its object representation (a list of bytes); [None] is an access outside an
    object. The probing loops are unbounded in the source: here they take as
    fuel the number of slots, and the theorems show they end within it. *)
From S2P Require Import Prelude Columnar.

(** ** Hashing *)
Definition load64 (l : list Z) (off : Z) : option Z := load_le64 l off.

(** [mix64] over a 128-bit product. *)
Definition mix64 (a b : Z) : Z :=
  let r := wrap 128 (a * b) in Z.lxor (u64 r) (u64 (Z.shiftr r 64)).

(** [mix64] where there is no 128-bit type. *)
Definition mix64_portable (a b : Z) : Z :=
  let al := Z.land a 0xffffffff in
  let ah := Z.shiftr a 32 in
  let bl := Z.land b 0xffffffff in
  let bh := Z.shiftr b 32 in
  let ll := u64 (al * bl) in
  let lh := u64 (al * bh) in
  let hl := u64 (ah * bl) in
  let hh := u64 (ah * bh) in
  let mid := u64 (Z.shiftr ll 32 + Z.land lh 0xffffffff + Z.land hl 0xffffffff) in
  let lo := Z.lor (Z.land ll 0xffffffff) (u64 (Z.shiftl mid 32)) in
  let hi := u64 (hh + Z.shiftr lh 32 + Z.shiftr hl 32 + Z.shiftr mid 32) in
  Z.lxor lo hi.

Definition k0 : Z := 0xa0761d6478bd642f.
Definition k1 : Z := 0xe7037ed1a0b428db.
Definition k2 : Z := 0x8ebc6af09c88c6e3.

(** [for (i = 0; i + 16 < n; i += 16) seed = mix64(...)] *)
Fixpoint hash_steps (fuel : nat) (l : list Z) (i seed : Z) : option Z :=
  if i + 16 <? zlen l then
    match fuel with
    | O => None
    | S fuel =>
        match load64 l i, load64 l (i + 8) with
        | Some a, Some b => hash_steps fuel l (i + 16) (mix64 (Z.lxor a k1) (Z.lxor b seed))
        | _, _ => None
        end
    end
  else Some seed.

Definition load32 (l : list Z) (off : Z) : option Z :=
  if (0 <=? off) && (off + 4 <=? zlen l) then Some (le_val (ztake 4 (zdrop off l))) else None.

Definition hash_bytes (l : list Z) : option Z :=
  let n := zlen l in
  let seed := Z.lxor k0 n in
  let finish lo hi seed := Some (mix64 (Z.lxor lo k1) (Z.lxor (Z.lxor hi seed) k2)) in
  if 16 <? n then
    match hash_steps (length l) l 0 seed, load64 l (n - 16), load64 l (n - 8) with
    | Some seed, Some lo, Some hi => finish lo hi seed
    | _, _, _ => None
    end
  else if 8 <=? n then
    match load64 l 0, load64 l (n - 8) with
    | Some lo, Some hi => finish lo hi seed
    | _, _ => None
    end
  else if 4 <=? n then
    match load32 l 0, load32 l (n - 4) with
    | Some x, Some y => finish x y seed
    | _, _ => None
    end
  else if n =? 0 then finish 0 0 seed
  else
    match zget l 0, zget l (n / 2), zget l (n - 1) with
    | Some a, Some b, Some c => finish (Z.lor (Z.lor (Z.shiftl a 16) (Z.shiftl b 8)) c) 0 seed
    | _, _, _ => None
    end.

(** ** The table: entry index + 1 in each used slot, 0 in a free one *)
Definition needs_grow (slots : list Z) (entries : Z) : bool := zlen slots <? u64 (u64 (entries + 1) * 2).

(** [while (slots[s]) s = (s + 1) & mask] *)
Fixpoint free_slot (fuel : nat) (slots : list Z) (s : Z) : option Z :=
  match zget slots s with
  | None => None
  | Some at_ =>
      if at_ =? 0 then Some s
      else match fuel with
           | O => None
           | S fuel => free_slot fuel slots (Z.land (s + 1) (zlen slots - 1))
           end
  end.

(** [slots[s] = at] *)
Definition set_slot (slots : list Z) (s at_ : Z) : option (list Z) := store slots s [at_].

Fixpoint rehash (hashes old slots : list Z) : option (list Z) :=
  match old with
  | [] => Some slots
  | at_ :: old =>
      if at_ =? 0 then rehash hashes old slots
      else match zget hashes (at_ - 1) with
           | None => None
           | Some h =>
               match free_slot (length slots) slots (Z.land h (zlen slots - 1)) with
               | None => None
               | Some s => match set_slot slots s at_ with
                           | None => None
                           | Some slots' => rehash hashes old slots'
                           end
               end
           end
  end.

Definition grow (hashes slots : list Z) : option (list Z) :=
  let size := if zlen slots =? 0 then 64 else u64 (zlen slots * 2) in
  rehash hashes slots (replicate (Z.to_nat size) 0).

(** ** The dictionaries *)
Record dictionary := Dictionary {
  d_values : list (list Z);
  d_hashes : list Z;
  d_slots : list Z
}.

Definition empty_dictionary : dictionary := Dictionary [] [] [].

(** A slot of the probing sequence: free, or an entry that equals [v]. *)
Inductive probe := Free (s : Z) | Found (i : Z).

Fixpoint probe_loop (fuel : nat) (d : dictionary) (slots : list Z) (v : list Z) (h s : Z) : option probe :=
  match zget slots s with
  | None => None
  | Some at_ =>
      if at_ =? 0 then Some (Free s)
      else
        match zget (d_hashes d) (at_ - 1) with
        | None => None
        | Some h' =>
            match (if h' =? h then
                     match zget (d_values d) (at_ - 1) with
                     | None => None
                     | Some v' => Some (bool_decide (v' = v))
                     end
                   else Some false) with
            | None => None
            | Some true => Some (Found (at_ - 1))
            | Some false =>
                match fuel with
                | O => None
                | S fuel => probe_loop fuel d slots v h (Z.land (s + 1) (zlen slots - 1))
                end
            end
        end
  end.

Definition grown (d : dictionary) : option (list Z) :=
  if needs_grow (d_slots d) (zlen (d_values d)) then grow (d_hashes d) (d_slots d) else Some (d_slots d).

(** [index_of]: the index, and whether the value was added. *)
Definition index_of (d : dictionary) (v : list Z) : option (Z * bool * dictionary) :=
  match grown d, hash_bytes v with
  | Some slots, Some h =>
      match probe_loop (length slots) d slots v h (Z.land h (zlen slots - 1)) with
      | None => None
      | Some (Found i) => Some (i, false, Dictionary (d_values d) (d_hashes d) slots)
      | Some (Free s) =>
          match set_slot slots s (u32 (zlen (d_values d) + 1)) with
          | None => None
          | Some slots' =>
              let values := d_values d ++ [v] in
              Some (u32 (zlen values - 1), true, Dictionary values (d_hashes d ++ [h]) slots')
          end
      end
  | _, _ => None
  end.

Definition clear (d : dictionary) : dictionary :=
  Dictionary [] [] (replicate (length (d_slots d)) 0).

(** [fixed_dictionary<T>] *)
Definition fixed_index_of (d : dictionary) (v : list Z) : option (Z * dictionary) :=
  match index_of d v with Some (i, _, d') => Some (i, d') | None => None end.

(** [string_dictionary]: also the total size of the distinct values. *)
Record string_dictionary := StringDictionary { sd_dict : dictionary; sd_bytes : Z }.

Definition string_index_of (d : string_dictionary) (v : list Z) : option (Z * string_dictionary) :=
  match index_of (sd_dict d) v with
  | Some (i, added, d') =>
      Some (i, StringDictionary d' (if added then u64 (sd_bytes d + zlen v) else sd_bytes d))
  | None => None
  end.

Definition string_clear (d : string_dictionary) : string_dictionary :=
  StringDictionary (clear (sd_dict d)) 0.

(** ** The hash is total and 64 bits wide *)
Lemma mix64_range a b : 0 <= mix64 a b < 2 ^ 64.
Proof. unfold mix64. apply lxor_range; [lia|apply wrap_range; lia..]. Qed.

Lemma load64_total l off : bytes_ok l -> 0 <= off -> off + 8 <= zlen l -> is_Some (load64 l off).
Proof. intros. unfold load64. rewrite load_le64_spec by done. done. Qed.

Lemma hash_steps_total fuel l i seed : bytes_ok l -> 0 <= i -> zlen l - i <= Z.of_nat fuel ->
  is_Some (hash_steps fuel l i seed).
Proof.
  intros Hl. revert i seed. induction fuel as [|fuel IH]; intros i seed Hi Hf; cbn [hash_steps];
    destruct (Z.ltb_spec (i + 16) (zlen l)); [lia|done| |done].
  destruct (load64_total l i Hl) as [a ->]; [lia..|]. destruct (load64_total l (i + 8) Hl) as [b ->]; [lia..|].
  apply IH; lia.
Qed.

Lemma hash_bytes_total l : bytes_ok l -> exists h, hash_bytes l = Some h /\ 0 <= h < 2 ^ 64.
Proof.
  intros Hl. pose proof (zlen_nonneg l). unfold hash_bytes. cbv zeta.
  destruct (Z.ltb_spec 16 (zlen l)).
  { destruct (hash_steps_total (length l) l 0 (Z.lxor k0 (zlen l)) Hl) as [s ->]; [lia|unfold zlen; lia|].
    destruct (load64_total l (zlen l - 16) Hl) as [a ->]; [lia..|].
    destruct (load64_total l (zlen l - 8) Hl) as [b ->]; [lia..|]. eauto using mix64_range. }
  destruct (Z.leb_spec 8 (zlen l)).
  { destruct (load64_total l 0 Hl) as [a ->]; [lia..|].
    destruct (load64_total l (zlen l - 8) Hl) as [b ->]; [lia..|]. eauto using mix64_range. }
  destruct (Z.leb_spec 4 (zlen l)).
  { unfold load32. destruct (Z.leb_spec 0 0), (Z.leb_spec (0 + 4) (zlen l)), (Z.leb_spec 0 (zlen l - 4)),
      (Z.leb_spec (zlen l - 4 + 4) (zlen l)); try lia. cbn [andb]. eauto using mix64_range. }
  destruct (Z.eqb_spec (zlen l) 0); [eauto using mix64_range|].
  assert (0 <= zlen l / 2 < zlen l) by (split; [apply Z.div_pos; lia|apply Z.div_lt; lia]).
  destruct (proj2 (zget_is_Some l 0)) as [a ->]; [lia|].
  destruct (proj2 (zget_is_Some l (zlen l / 2))) as [b ->]; [lia|].
  destruct (proj2 (zget_is_Some l (zlen l - 1))) as [c ->]; [lia|]. eauto using mix64_range.
Qed.

(** ** Probing sequences *)
Definition pos (slots : list Z) (h t : Z) : Z := (h + t) mod zlen slots.

Record sized (slots : list Z) : Prop := Sized {
  sz_pow : exists k, 0 <= k /\ zlen slots = 2 ^ k
}.

Lemma sized_pos slots : sized slots -> 0 < zlen slots.
Proof. intros [(k & Hk & ->)]. apply Z.pow_pos_nonneg; lia. Qed.

Lemma land_mask slots s : sized slots -> Z.land s (zlen slots - 1) = s mod zlen slots.
Proof.
  intros [(k & Hk & ->)]. rewrite <- Z.land_ones by done. by rewrite Z.ones_equiv, <- Z.sub_1_r.
Qed.

Lemma pos_range slots h t : sized slots -> 0 <= pos slots h t < zlen slots.
Proof. intros Hs. apply Z.mod_pos_bound. by apply sized_pos. Qed.

Lemma pos_start slots h : sized slots -> Z.land h (zlen slots - 1) = pos slots h 0.
Proof. intros Hs. rewrite land_mask by done. unfold pos. by rewrite Z.add_0_r. Qed.

Lemma pos_next slots h t : sized slots -> Z.land (pos slots h t + 1) (zlen slots - 1) = pos slots h (t + 1).
Proof.
  intros Hs. rewrite land_mask by done. unfold pos. rewrite Zplus_mod_idemp_l. f_equal. lia.
Qed.

(** Every slot is on the sequence of every hash. *)
Lemma pos_onto slots h f : sized slots -> 0 <= f < zlen slots -> exists t, 0 <= t < zlen slots /\ pos slots h t = f.
Proof.
  intros Hs Hf. pose proof (sized_pos _ Hs). exists ((f - h) mod zlen slots).
  split; [by apply Z.mod_pos_bound|]. unfold pos. rewrite Zplus_mod_idemp_r.
  replace (h + (f - h)) with f by lia. by apply Z.mod_small.
Qed.

(** The slots passed on the way to step [j] are in use. *)
Definition busy (slots : list Z) (h j : Z) : Prop :=
  forall t, 0 <= t < j -> exists at_, zget slots (pos slots h t) = Some at_ /\ at_ <> 0.

(** The table holds exactly the entries [E] (1-based), each reachable from its hash. *)
Record table (hashes slots : list Z) (E : list Z) : Prop := Table {
  tb_sized : sized slots;
  tb_in s at_ : zget slots s = Some at_ -> at_ <> 0 -> In at_ E;
  tb_inj s s' at_ : zget slots s = Some at_ -> zget slots s' = Some at_ -> at_ <> 0 -> s = s';
  tb_path at_ : In at_ E -> exists h j, zget hashes (at_ - 1) = Some h /\ 0 <= j /\
    zget slots (pos slots h j) = Some at_ /\ busy slots h j
}.

(** A table with fewer entries than slots has a free one. *)
Lemma table_free hashes slots E : table hashes slots E -> zlen E < zlen slots ->
  exists s, 0 <= s < zlen slots /\ zget slots s = Some 0.
Proof.
  intros [_ Hin Hinj _] Hlt. destruct (decide (0 ∈ slots)) as [Hex|Hno].
  - apply list_elem_of_lookup in Hex as [i Hi]. exists (Z.of_nat i).
    pose proof (lookup_lt_Some _ _ _ Hi). unfold zget, zlen. split; [lia|].
    destruct (Z.ltb_spec (Z.of_nat i) 0); [lia|]. by rewrite Nat2Z.id.
  - exfalso. assert (Hz : forall i x, slots !! i = Some x -> zget slots (Z.of_nat i) = Some x /\ x <> 0).
    { intros i x Hi. split; [unfold zget; destruct (Z.ltb_spec (Z.of_nat i) 0); [lia|]; by rewrite Nat2Z.id|].
      intros ->. apply Hno, list_elem_of_lookup. by exists i. }
    assert (Hnd : NoDup slots).
    { apply NoDup_alt. intros i j x Hi Hj. destruct (Hz i x Hi) as [Hgi Hx], (Hz j x Hj) as [Hgj _].
      apply Nat2Z.inj. by apply (Hinj _ _ x). }
    assert (Hsub : slots ⊆ E).
    { intros x Hx. apply list_elem_of_lookup in Hx as [i Hi]. destruct (Hz i x Hi).
      apply list_elem_of_In. by apply (Hin (Z.of_nat i)). }
    pose proof (submseteq_length _ _ (NoDup_submseteq _ _ Hnd Hsub)). unfold zlen in Hlt. lia.
Qed.

(** The search for a free slot ends at the first one of the sequence. *)
Lemma free_slot_spec fuel slots h t0 t : sized slots -> 0 <= t <= t0 -> t0 - t <= Z.of_nat fuel ->
  zget slots (pos slots h t0) = Some 0 -> busy slots h t ->
  exists t1, free_slot fuel slots (pos slots h t) = Some (pos slots h t1) /\ t <= t1 <= t0 /\
    zget slots (pos slots h t1) = Some 0 /\ busy slots h t1.
Proof.
  intros Hs Ht Hf H0. revert t Ht Hf. induction fuel as [|fuel IH]; intros t Ht Hf Hb; cbn [free_slot];
    destruct (proj2 (zget_is_Some slots (pos slots h t)) (pos_range _ _ _ Hs)) as [x Hx]; rewrite Hx;
    destruct (Z.eqb_spec x 0) as [-> |Hx0]; try (exists t; split_and!; done || lia).
  - assert (t = t0) by lia. congruence.
  - rewrite pos_next by done. assert (t <> t0) by congruence.
    destruct (IH (t + 1)) as (t1 & -> & Ht1 & Hz1 & Hb1); [lia..| |exists t1; split_and!; done || lia].
    intros t' Ht'. destruct (decide (t' = t)) as [-> |]; [by exists x|]. apply Hb. lia.
Qed.

(** Changing one slot that was free. *)
Lemma set_free_slot slots f at_ : 0 <= f < zlen slots -> zget slots f = Some 0 -> at_ <> 0 ->
  exists slots', set_slot slots f at_ = Some slots' /\ zlen slots' = zlen slots /\ zget slots' f = Some at_ /\
    (forall s, s <> f -> zget slots' s = zget slots s) /\
    (forall h j, busy slots h j -> busy slots' h j).
Proof.
  intros Hf H0 Hat. destruct (store1_spec slots f at_ Hf) as (slots' & Hst & Hl & Hnew & Hold).
  exists slots'. split_and!; [done..|]. intros h j Hb t Ht. unfold pos. rewrite Hl. fold (pos slots h t).
  destruct (Hb t Ht) as (x & Hx & Hx0). destruct (decide (pos slots h t = f)) as [-> |Hne]; [by exists at_|].
  exists x. by rewrite Hold.
Qed.

Lemma table_insert hashes slots E at_ h t1 : table hashes slots E -> ~ In at_ E -> at_ <> 0 ->
  zget hashes (at_ - 1) = Some h -> 0 <= t1 -> zget slots (pos slots h t1) = Some 0 -> busy slots h t1 ->
  exists slots', set_slot slots (pos slots h t1) at_ = Some slots' /\ zlen slots' = zlen slots /\
    table hashes slots' (at_ :: E).
Proof.
  intros [Hs Hin Hinj Hpath] Hni Hat Hh Ht1 H0 Hb.
  destruct (set_free_slot slots (pos slots h t1) at_ (pos_range _ _ _ Hs) H0 Hat)
    as (slots' & Hset & Hl & Hnew & Hold & Hbusy).
  exists slots'. split_and!; [done..|]. constructor.
  - destruct Hs as [(k & Hk & Hz)]. constructor. exists k. by rewrite Hl.
  - intros s x Hx Hx0. destruct (decide (s = pos slots h t1)) as [-> |Hne]; [left; congruence|].
    right. rewrite Hold in Hx by done. by apply (Hin s).
  - intros s s' x Hx Hx' Hx0.
    destruct (decide (s = pos slots h t1)) as [-> |Hne], (decide (s' = pos slots h t1)) as [-> |Hne'];
      [done| | |rewrite Hold in Hx, Hx' by done; by apply (Hinj _ _ x)].
    + rewrite Hold in Hx' by done. destruct Hni. apply (Hin s'); congruence.
    + rewrite Hold in Hx by done. destruct Hni. apply (Hin s); congruence.
  - intros x [<-|Hx].
    + exists h, t1. unfold pos at 1. rewrite Hl. fold (pos slots h t1). split_and!; auto.
    + destruct (Hpath x Hx) as (hx & j & Hhx & Hj & Hjx & Hbx). exists hx, j.
      unfold pos at 1. rewrite Hl. fold (pos slots hx j). split_and!; auto.
      rewrite Hold; [done|]. intros He. rewrite He in Hjx. assert (x = 0) as -> by congruence.
      destruct (Hpath 0 Hx) as (h0 & j0 & Hh0 & _ & _ & _). apply zget_Some_range in Hh0. lia.
Qed.

(** Inserting through the free-slot search. *)
Lemma insert_free hashes slots E at_ h : table hashes slots E -> ~ In at_ E -> at_ <> 0 -> zlen E < zlen slots ->
  zget hashes (at_ - 1) = Some h ->
  exists s slots', free_slot (length slots) slots (Z.land h (zlen slots - 1)) = Some s /\
    set_slot slots s at_ = Some slots' /\ zlen slots' = zlen slots /\ table hashes slots' (at_ :: E).
Proof.
  intros Ht Hni Hat Hlt Hh. pose proof (tb_sized _ _ _ Ht) as Hs.
  destruct (table_free _ _ _ Ht Hlt) as (f & Hf & H0). destruct (pos_onto slots h f Hs Hf) as (t0 & Ht0 & <-).
  rewrite pos_start by done.
  destruct (free_slot_spec (length slots) slots h t0 0 Hs) as (t1 & -> & Ht1 & H1 & Hb); [lia|unfold zlen in *; lia|done|
    intros t Hr; lia|].
  destruct (table_insert hashes slots E at_ h t1 Ht Hni Hat Hh ltac:(lia) H1 Hb) as (slots' & Hset & Hl & Ht').
  by exists (pos slots h t1), slots'.
Qed.

Lemma table_equiv hashes slots E E' : (forall x, In x E <-> In x E') -> table hashes slots E -> table hashes slots E'.
Proof.
  intros He [Hs Hin Hinj Hpath]. constructor; [done| |done|].
  - intros s x Hx H0. by apply He, (Hin s).
  - intros x Hx. by apply Hpath, He.
Qed.

Lemma zget_replicate_0 n s x : zget (replicate n 0) s = Some x -> x = 0.
Proof. unfold zget. destruct (s <? 0); [done|]. intros H. by apply lookup_replicate in H as []. Qed.

Lemma table_empty hashes k : 0 <= k -> table hashes (replicate (Z.to_nat (2 ^ k)) 0) [].
Proof.
  intros Hk. assert (0 < 2 ^ k) by (apply Z.pow_pos_nonneg; lia). constructor.
  - constructor. exists k. split; [done|]. rewrite zlen_replicate. lia.
  - intros s x Hx. by apply zget_replicate_0 in Hx.
  - intros s s' x Hx. by apply zget_replicate_0 in Hx.
  - intros x [].
Qed.

(** Rehashing moves every entry of the old slots. *)
Lemma rehash_spec hashes old slots E : table hashes slots E ->
  NoDup (filter (fun x => x <> 0) old) ->
  (forall x, In x old -> x <> 0 -> ~ In x E /\ is_Some (zget hashes (x - 1))) ->
  zlen E + zlen (filter (fun x => x <> 0) old) < zlen slots ->
  exists slots' E', rehash hashes old slots = Some slots' /\ zlen slots' = zlen slots /\ table hashes slots' E' /\
    forall x, In x E' <-> In x E \/ (In x old /\ x <> 0).
Proof.
  revert slots E. induction old as [|a old IH]; intros slots E Ht Hnd Hin Hlen; cbn [rehash].
  { exists slots, E. split_and!; [done..|]. cbn. tauto. }
  rewrite filter_cons in Hnd, Hlen. destruct (Z.eqb_spec a 0) as [-> |Ha]; destruct (decide _) as [Hd|Hd]; try done.
  - destruct (IH slots E Ht Hnd) as (slots' & E' & -> & Hl & Ht' & Hiff); [|done|].
    { intros x Hx. apply Hin. by right. }
    exists slots', E'. split_and!; [done..|]. intros x. rewrite Hiff. cbn. intuition congruence.
  - apply NoDup_cons in Hnd as [Hna Hnd]. rewrite zlen_cons in Hlen.
    destruct (Hin a (or_introl eq_refl) Ha) as [HnE [h Hh]]. rewrite Hh.
    destruct (insert_free hashes slots E a h Ht HnE Ha) as (s & slots1 & -> & -> & Hl1 & Ht1);
      [pose proof (zlen_nonneg (filter (fun x : Z => x <> 0) old)); lia|done|].
    destruct (IH slots1 (a :: E) Ht1 Hnd) as (slots' & E' & -> & Hl & Ht' & Hiff).
    + intros x Hx Hx0. destruct (Hin x (or_intror Hx) Hx0) as [HxE Hxh]. split; [|done].
      intros [<-|]; [|done]. apply Hna, list_elem_of_filter. split; [done|by apply list_elem_of_In].
    + rewrite zlen_cons, Hl1. lia.
    + exists slots', E'. split_and!; [done|lia|done|]. intros x. rewrite Hiff. cbn. intuition congruence.
Qed.

(** ** The dictionary's invariant *)
Record dict_inv (d : dictionary) : Prop := DictInv {
  di_values : Forall bytes_ok (d_values d);
  di_nodup : NoDup (d_values d);
  di_len : zlen (d_hashes d) = zlen (d_values d);
  di_hash i v : zget (d_values d) i = Some v -> exists h, hash_bytes v = Some h /\ zget (d_hashes d) i = Some h;
  di_table : (d_values d = [] /\ d_slots d = []) \/ table (d_hashes d) (d_slots d) (seqZ 1 (zlen (d_values d)));
  di_fill : zlen (d_values d) * 2 <= zlen (d_slots d) <= 2 ^ 34;
  di_small : zlen (d_slots d) = 0 \/ 64 <= zlen (d_slots d)
}.

Lemma empty_dict_inv : dict_inv empty_dictionary.
Proof.
  constructor; cbn; [apply List.Forall_nil|apply NoDup_nil_2|done| |by left|done|by left].
  intros i v H. apply zget_Some_range in H. change (zlen []) with 0 in H. lia.
Qed.

Lemma used_nodup (slots : list Z) :
  (forall i j x, slots !! i = Some x -> slots !! j = Some x -> x <> 0 -> i = j) ->
  NoDup (filter (fun x => x <> 0) slots).
Proof.
  induction slots as [|a slots IH]; intros Hinj; [constructor|]. rewrite filter_cons.
  assert (Hnd : NoDup (filter (fun x => x <> 0) slots)).
  { apply IH. intros i j x Hi Hj Hx. by injection (Hinj (S i) (S j) x Hi Hj Hx). }
  destruct (decide _) as [Ha|]; [|done]. constructor; [|done].
  intros Hin. apply list_elem_of_filter in Hin as [_ Hin]. apply list_elem_of_lookup in Hin as [j Hj].
  discriminate (Hinj 0%nat (S j) a eq_refl Hj Ha).
Qed.

Lemma zget_nat {A} (l : list A) i : zget l (Z.of_nat i) = l !! i.
Proof. unfold zget. destruct (Z.ltb_spec (Z.of_nat i) 0); [lia|]. by rewrite Nat2Z.id. Qed.

Lemma zget_elem {A} (l : list A) x : x ∈ l <-> exists i, zget l i = Some x.
Proof.
  rewrite list_elem_of_lookup. split; intros [i Hi].
  - exists (Z.of_nat i). by rewrite zget_nat.
  - unfold zget in Hi. destruct (i <? 0); [done|]. eauto.
Qed.

Lemma zget_nodup {A} (l : list A) i j x : NoDup l -> zget l i = Some x -> zget l j = Some x -> i = j.
Proof.
  intros Hnd Hi Hj. pose proof (zget_Some_range _ _ _ Hi). pose proof (zget_Some_range _ _ _ Hj).
  unfold zget in *. destruct (Z.ltb_spec i 0), (Z.ltb_spec j 0); try lia.
  pose proof (NoDup_lookup _ _ _ _ Hnd Hi Hj). lia.
Qed.

(** What [grow] is called with, and what the lookups then see. *)
Lemma grown_spec d : dict_inv d -> zlen (d_values d) < 2 ^ 32 - 1 ->
  exists slots, grown d = Some slots /\ table (d_hashes d) slots (seqZ 1 (zlen (d_values d))) /\
    (zlen (d_values d) + 1) * 2 <= zlen slots <= 2 ^ 34 /\ 64 <= zlen slots.
Proof.
  intros Hd Hmax. destruct Hd as [_ _ Hhl _ Htab Hfill Hsmall]. set (n := zlen (d_values d)) in *.
  pose proof (zlen_nonneg (d_values d)) as Hn0. fold n in Hn0. pose proof (zlen_nonneg (d_slots d)).
  unfold grown, needs_grow. fold n. rewrite (wrap_small 64 (n + 1)), wrap_small by lia.
  destruct (Z.ltb_spec (zlen (d_slots d)) ((n + 1) * 2)) as [Hg|Hg].
  2: { exists (d_slots d). destruct Htab as [[Hv Hsl]|Htab]; [rewrite Hsl in Hg; unfold zlen in Hg at 1; cbn in Hg; lia|].
       split_and!; done || lia. }
  unfold grow. set (size := if zlen (d_slots d) =? 0 then 64 else u64 (zlen (d_slots d) * 2)).
  assert (Hsize : exists k, 0 <= k /\ size = 2 ^ k /\ (n + 1) * 2 <= size <= 2 ^ 34 /\ 64 <= size).
  { unfold size. destruct (Z.eqb_spec (zlen (d_slots d)) 0) as [Hz|Hz]; [exists 6; split_and!; lia|].
    destruct Htab as [[_ Hsl]|Htab]; [by rewrite Hsl in Hz|].
    destruct (tb_sized _ _ _ Htab) as [(k & Hk & Hks)]. exists (k + 1).
    rewrite wrap_small, Z.pow_add_r by lia. split_and!; lia. }
  destruct Hsize as (k & Hk & -> & Hsz & H64).
  set (used := filter (fun x : Z => x <> 0) (d_slots d)).
  assert (Hused : NoDup used /\ zlen used <= n /\ (forall x, In x (d_slots d) /\ x <> 0 <-> In x (seqZ 1 n))).
  { destruct Htab as [[Hv Hsl]|[_ Hin Hinj Hpath]].
    { unfold used, n. rewrite Hv, Hsl. split_and!; [constructor|done|cbn; tauto]. }
    assert (Hiff : forall x, In x (d_slots d) /\ x <> 0 <-> In x (seqZ 1 n)).
    { intros x. split.
      - intros [Hx Hx0]. apply list_elem_of_In, zget_elem in Hx as [i Hi]. by apply (Hin i).
      - intros Hx. destruct (Hpath x Hx) as (h & j & _ & _ & Hg' & _). split.
        + apply list_elem_of_In, zget_elem. eauto.
        + apply in_seqZ in Hx. lia. }
    assert (Hnd : NoDup used).
    { apply used_nodup. intros i j x Hi Hj Hx. apply Nat2Z.inj. by apply (Hinj _ _ x); rewrite ?zget_nat. }
    split_and!; [done| |done].
    assert (Hsub : used ⊆ seqZ 1 n).
    { intros x Hx. apply list_elem_of_filter in Hx as [Hx0 Hx]. apply list_elem_of_In, Hiff.
      split; [by apply list_elem_of_In|done]. }
    pose proof (submseteq_length _ _ (NoDup_submseteq _ _ Hnd Hsub)) as Hle. rewrite length_seqZ in Hle.
    unfold zlen. lia. }
  destruct Hused as (Hnd & Hul & Hiff).
  destruct (rehash_spec (d_hashes d) (d_slots d) _ [] (table_empty (d_hashes d) k Hk) Hnd)
    as (slots' & E' & -> & Hl & Ht & HE).
  - intros x Hx Hx0. split; [by intros []|]. apply zget_is_Some. pose proof (proj1 (Hiff x) (conj Hx Hx0)) as Hr.
    apply in_seqZ in Hr. lia.
  - change (zlen []) with 0. fold used. rewrite zlen_replicate. lia.
  - exists slots'. rewrite zlen_replicate in Hl. split_and!; [done| |lia|lia|lia].
    eapply table_equiv; [|exact Ht]. intros x. rewrite HE, <- Hiff. cbn. tauto.
Qed.

(** The probe finds a value that is in the dictionary. *)
Lemma probe_found fuel d slots v h i j t : dict_inv d -> table (d_hashes d) slots (seqZ 1 (zlen (d_values d))) ->
  hash_bytes v = Some h -> zget (d_values d) i = Some v -> zget slots (pos slots h j) = Some (i + 1) ->
  busy slots h j -> 0 <= t <= j -> j - t <= Z.of_nat fuel ->
  probe_loop fuel d slots v h (pos slots h t) = Some (Found i).
Proof.
  intros Hd Ht Hh Hv Hj Hb. pose proof (tb_sized _ _ _ Ht) as Hs.
  revert t. induction fuel as [|fuel IH]; intros t Htj Hf; cbn [probe_loop];
    assert (Hx : exists x, zget slots (pos slots h t) = Some x /\ x <> 0 /\ (t = j -> x = i + 1)).
  1, 3: destruct (decide (t = j)) as [-> |]; [exists (i + 1); apply zget_Some_range in Hv; split_and!; done || lia|];
    destruct (Hb t ltac:(lia)) as (x & Hx & Hx0); exists x; split_and!; done.
  all: destruct Hx as (x & Hx & Hx0 & Hxj); rewrite Hx; destruct (Z.eqb_spec x 0); [done|];
    pose proof (tb_in _ _ _ Ht _ _ Hx Hx0) as Hin; apply in_seqZ in Hin;
    destruct (proj2 (zget_is_Some (d_values d) (x - 1))) as [v' Hv']; [lia|];
    destruct (di_hash _ Hd _ _ Hv') as (h' & Hh' & Hg'); rewrite Hg', Hv'.
  all: assert (Heq : (h' =? h) && bool_decide (v' = v) = true -> x - 1 = i) by
    (rewrite andb_true_iff, bool_decide_eq_true; intros [_ ->]; by apply (zget_nodup (d_values d) _ _ v (di_nodup _ Hd)));
    assert (Hjm : t = j -> h' = h /\ v' = v) by
    (intros Htj'; rewrite (Hxj Htj'), Z.add_simpl_r in Hv'; assert (v' = v) as -> by congruence; split; congruence).
  - destruct (Hjm ltac:(lia)) as [-> ->]. rewrite Z.eqb_refl in *. rewrite bool_decide_eq_true_2 in * by done. by rewrite Heq.
  - destruct (h' =? h) eqn:Ehh; [destruct (bool_decide (v' = v)) eqn:Evv; [by rewrite Heq|]|].
    all: assert (t <> j) by (intros Htj'; destruct (Hjm Htj') as [-> ->]; rewrite ?Z.eqb_refl in *; try done; by rewrite bool_decide_eq_true_2 in * by done).
    all: rewrite pos_next by done; apply IH; lia.
Qed.

(** A value that is not there ends at the first free slot. *)
Lemma probe_free fuel d slots v h t0 t : dict_inv d -> table (d_hashes d) slots (seqZ 1 (zlen (d_values d))) ->
  v ∉ d_values d -> zget slots (pos slots h t0) = Some 0 -> busy slots h t -> 0 <= t <= t0 -> t0 - t <= Z.of_nat fuel ->
  exists t1, probe_loop fuel d slots v h (pos slots h t) = Some (Free (pos slots h t1)) /\ 0 <= t1 /\
    zget slots (pos slots h t1) = Some 0 /\ busy slots h t1.
Proof.
  intros Hd Ht Hv H0. pose proof (tb_sized _ _ _ Ht) as Hs.
  revert t. induction fuel as [|fuel IH]; intros t Hb Htj Hf; cbn [probe_loop];
    destruct (proj2 (zget_is_Some slots (pos slots h t)) (pos_range _ _ _ Hs)) as [x Hx]; rewrite Hx;
    destruct (Z.eqb_spec x 0) as [-> |Hx0]; try (exists t; split_and!; done || lia).
  { assert (t = t0) by lia. congruence. }
  pose proof (tb_in _ _ _ Ht _ _ Hx Hx0) as Hin. apply in_seqZ in Hin.
  destruct (proj2 (zget_is_Some (d_values d) (x - 1))) as [v' Hv']; [lia|].
  destruct (di_hash _ Hd _ _ Hv') as (h' & Hh' & Hg'). rewrite Hg', Hv'.
  assert (Hne : bool_decide (v' = v) = false).
  { apply bool_decide_eq_false. intros ->. apply Hv, zget_elem. eauto. }
  rewrite Hne. assert (t <> t0) by congruence. assert (Hb' : busy slots h (t + 1)).
  { intros t' Ht'. destruct (decide (t' = t)) as [-> |]; [by exists x|]. apply Hb. lia. }
  rewrite pos_next by done. destruct (h' =? h); apply IH; done || lia.
Qed.

(** Adding an entry whose slot has been set. *)
Lemma dict_push d v h slots' : dict_inv d -> bytes_ok v -> v ∉ d_values d -> hash_bytes v = Some h ->
  table (d_hashes d ++ [h]) slots' ((zlen (d_values d) + 1) :: seqZ 1 (zlen (d_values d))) ->
  (zlen (d_values d) + 1) * 2 <= zlen slots' <= 2 ^ 34 -> 64 <= zlen slots' ->
  dict_inv (Dictionary (d_values d ++ [v]) (d_hashes d ++ [h]) slots').
Proof.
  intros Hd Hvb Hin Hh Htab Hsz H64. set (n := zlen (d_values d)) in *. pose proof (zlen_nonneg (d_values d)) as Hn.
  assert (Hz : zlen (d_values d ++ [v]) = n + 1) by (by rewrite zlen_app).
  constructor; cbn [d_values d_hashes d_slots]; rewrite ?Hz; [| | | |right|lia|by right].
  - apply Forall_app. split; [apply Hd|by repeat constructor].
  - apply NoDup_app. split_and!; [apply Hd| |apply NoDup_singleton]. intros x Hx Hx'.
    apply list_elem_of_singleton in Hx'. congruence.
  - by rewrite zlen_app, (di_len _ Hd).
  - intros i u Hi. pose proof (zget_Some_range _ _ _ Hi) as Hir. rewrite Hz in Hir.
    destruct (decide (i = n)) as [-> |].
    + rewrite zget_app_r in Hi by (unfold n; lia). fold n in Hi. rewrite Z.sub_diag in Hi. injection Hi as <-.
      exists h. split; [done|]. rewrite zget_app_r by (rewrite (di_len _ Hd); lia). rewrite (di_len _ Hd). fold n.
      by rewrite Z.sub_diag.
    + rewrite zget_app_l in Hi by (fold n; lia). destruct (di_hash _ Hd _ _ Hi) as (hu & Hhu & Hgu).
      exists hu. split; [done|]. by rewrite zget_app_l by (rewrite (di_len _ Hd); fold n; lia).
  - eapply table_equiv; [|exact Htab]. intros x. cbn. rewrite !in_seqZ. lia.
Qed.

(** An entry of the table lies within one turn of its hash. *)
Lemma table_near hashes slots E at_ : table hashes slots E -> In at_ E ->
  exists h j, zget hashes (at_ - 1) = Some h /\ 0 <= j < zlen slots /\ zget slots (pos slots h j) = Some at_ /\
    busy slots h j.
Proof.
  intros Ht Hin. pose proof (tb_sized _ _ _ Ht) as Hs. pose proof (sized_pos _ Hs).
  destruct (tb_path _ _ _ Ht at_ Hin) as (h & j & Hh & Hj & Hgj & Hb). exists h, (j mod zlen slots).
  pose proof (Z.mod_pos_bound j (zlen slots) ltac:(lia)). pose proof (Z.mod_le j (zlen slots) ltac:(lia) ltac:(lia)).
  split_and!; [done|lia|lia|unfold pos; by rewrite Zplus_mod_idemp_r|]. intros t Ht'. apply Hb. lia.
Qed.

Lemma index_of_spec d v : dict_inv d -> bytes_ok v -> zlen (d_values d) < 2 ^ 32 - 1 ->
  exists i d', index_of d v = Some (i, negb (bool_decide (v ∈ d_values d)), d') /\ dict_inv d' /\
    d_values d' = (if bool_decide (v ∈ d_values d) then d_values d else d_values d ++ [v]) /\
    zget (d_values d') i = Some v.
Proof.
  intros Hd Hvb Hmax. destruct (grown_spec d Hd Hmax) as (slots & Hg & Ht & Hsz & H64).
  destruct (hash_bytes_total v Hvb) as (h & Hh & Hhr). unfold index_of. rewrite Hg, Hh.
  pose proof (tb_sized _ _ _ Ht) as Hs. pose proof (zlen_nonneg (d_values d)). rewrite pos_start by done.
  case_bool_decide as Hin.
  - pose proof Hin as Hin'. apply zget_elem in Hin' as [i Hi].
    pose proof (zget_Some_range _ _ _ Hi) as Hir. destruct (di_hash _ Hd _ _ Hi) as (h' & Hh' & Hgh).
    destruct (table_near _ _ _ (i + 1) Ht) as (h2 & j & Hh2 & Hj & Hgj & Hb); [apply in_seqZ; lia|].
    rewrite Z.add_simpl_r in Hh2. assert (h2 = h) as -> by congruence.
    rewrite (probe_found (length slots) d slots v h i j 0 Hd Ht Hh Hi Hgj Hb) by (unfold zlen in *; lia).
    exists i. eexists. split; [done|]. split; [|by split]. destruct Hd. constructor; cbn; try done; [by right|lia|lia].
  - destruct (table_free _ _ _ Ht) as (f & Hf & H0); [rewrite zlen_seqZ; lia|].
    destruct (pos_onto slots h f Hs Hf) as (t0 & Ht0 & <-).
    destruct (probe_free (length slots) d slots v h t0 0 Hd Ht Hin H0) as (t1 & -> & Ht1 & Hz1 & Hb1);
      [intros t Hr; lia|lia|unfold zlen in *; lia|].
    rewrite (wrap_small 32) by lia. set (n := zlen (d_values d)) in *.
    assert (Ht' : table (d_hashes d ++ [h]) slots (seqZ 1 n)).
    { destruct Ht as [? ? ? Hp]. constructor; try done. intros x Hx.
      destruct (Hp x Hx) as (hx & j & Hg1 & Hj & Hg2 & Hb). exists hx, j. split_and!; try done.
      pose proof (zget_Some_range _ _ _ Hg1). by rewrite zget_app_l by lia. }
    assert (Hlast : zget (d_hashes d ++ [h]) (n + 1 - 1) = Some h).
    { rewrite zget_app_r by (rewrite (di_len _ Hd); lia). rewrite (di_len _ Hd). fold n.
      by replace (n + 1 - 1 - n) with 0 by lia. }
    destruct (table_insert _ _ _ (n + 1) h t1 Ht') as (slots' & -> & Hl & Htab); try done;
      [rewrite in_seqZ; lia|lia|].
    assert (Hz : zlen (d_values d ++ [v]) = n + 1) by (by rewrite zlen_app).
    rewrite Hz, Z.add_simpl_r, (wrap_small 32) by lia. exists n. eexists. split; [done|]. split; [|split; [done|]].
    + apply dict_push; rewrite ?Hl; done.
    + cbn [d_values]. rewrite zget_app_r by (unfold n; lia). fold n. by rewrite Z.sub_diag.
Qed.

(** ** What the dictionaries promise *)

(** The distinct values in first-seen order. *)
Definition add_new (acc : list (list Z)) (v : list Z) : list (list Z) :=
  if bool_decide (v ∈ acc) then acc else acc ++ [v].

(** A sequence of [index_of] calls. *)
Fixpoint index_all (d : dictionary) (vs : list (list Z)) : option (list Z * dictionary) :=
  match vs with
  | [] => Some ([], d)
  | v :: vs =>
      match fixed_index_of d v with
      | None => None
      | Some (i, d1) =>
          match index_all d1 vs with
          | None => None
          | Some (is_, d2) => Some (i :: is_, d2)
          end
      end
  end.

Lemma add_new_prefix vs acc : exists more, fold_left add_new vs acc = acc ++ more.
Proof.
  revert acc. induction vs as [|v vs IH]; intros acc; cbn [fold_left]; [exists []; by rewrite app_nil_r|].
  destruct (IH (add_new acc v)) as [more ->]. unfold add_new. case_bool_decide; [by exists more|].
  exists ([v] ++ more). by rewrite app_assoc.
Qed.

Lemma index_all_spec d vs : dict_inv d -> Forall bytes_ok vs -> zlen (d_values d) + zlen vs < 2 ^ 32 ->
  exists is_ d', index_all d vs = Some (is_, d') /\ dict_inv d' /\
    d_values d' = fold_left add_new vs (d_values d) /\
    Forall2 (fun i v => zget (d_values d') i = Some v) is_ vs.
Proof.
  intros Hd Hvs. revert d Hd. induction Hvs as [|v vs Hv Hvs IH]; intros d Hd Hn; cbn [index_all].
  { exists [], d. split_and!; [done..|constructor]. }
  rewrite zlen_cons in Hn. pose proof (zlen_nonneg vs).
  destruct (index_of_spec d v Hd Hv) as (i & d1 & Hi & Hd1 & Hval & Hget); [lia|].
  unfold fixed_index_of. rewrite Hi.
  destruct (IH d1 Hd1) as (is_ & d2 & -> & Hd2 & Hval2 & Hall).
  { rewrite Hval. case_bool_decide; [lia|]. rewrite zlen_app. change (zlen [v]) with 1. lia. }
  exists (i :: is_), d2. split_and!; [done|done| |].
  - rewrite Hval2, Hval. done.
  - constructor; [|done]. rewrite Hval2. destruct (add_new_prefix vs (d_values d1)) as [more ->].
    pose proof (zget_Some_range _ _ _ Hget). by rewrite zget_app_l by lia.
Qed.

Lemma clear_inv d : dict_inv d -> dict_inv (clear d).
Proof.
  intros Hd. pose proof (di_fill _ Hd). pose proof (zlen_nonneg (d_values d)).
  assert (Hl : zlen (replicate (length (d_slots d)) 0) = zlen (d_slots d)) by (by rewrite zlen_replicate).
  constructor; cbn [clear d_values d_hashes d_slots]; rewrite ?Hl;
    [apply List.Forall_nil|apply NoDup_nil_2|done| | |change (zlen []) with 0; lia|apply Hd].
  - intros i v Hi. apply zget_Some_range in Hi. change (zlen []) with 0 in Hi. lia.
  - destruct (di_table _ Hd) as [[_ ->]|Ht]; [by left|right].
    destruct (tb_sized _ _ _ Ht) as [(k & Hk & Hks)].
    replace (length (d_slots d)) with (Z.to_nat (2 ^ k)) by (unfold zlen in Hks; lia). by apply table_empty.
Qed.

(** The dictionary refines an insertion-ordered set. From a fresh or a
    cleared dictionary, any sequence of [index_of] calls ends (probing always
    meets the entry or a free slot, through every growth of the table), the
    entries are the distinct values in first-seen order, and looking up the
    returned indices gives back the values, bit for bit. *)
Theorem dictionary_refines d vs :
  d = empty_dictionary \/ (exists d0, dict_inv d0 /\ d = clear d0) ->
  Forall bytes_ok vs -> zlen vs < 2 ^ 32 ->
  exists is_ d', index_all d vs = Some (is_, d') /\ d_values d' = fold_left add_new vs [] /\
    NoDup (d_values d') /\ Forall2 (fun i v => zget (d_values d') i = Some v) is_ vs.
Proof.
  intros Hd Hvs Hn. assert (Hi : dict_inv d /\ d_values d = []).
  { destruct Hd as [-> |(d0 & H0 & ->)]; [split; [apply empty_dict_inv|done]|split; [by apply clear_inv|done]]. }
  destruct Hi as [Hi Hnil]. destruct (index_all_spec d vs Hi Hvs) as (is_ & d' & Hrun & Hi' & Hval & Hall).
  { rewrite Hnil. change (zlen []) with 0. lia. }
  exists is_, d'. rewrite Hnil in Hval. split_and!; [done|done|apply Hi'|done].
Qed.

Lemma dictionary_refines_witness :
  exists is_ d', index_all empty_dictionary [[1; 2]; [3]; [1; 2]] = Some (is_, d') /\
    d_values d' = [[1; 2]; [3]].
Proof.
  destruct (dictionary_refines empty_dictionary [[1; 2]; [3]; [1; 2]] ltac:(by left)
    ltac:(repeat constructor; lia) ltac:(by vm_compute)) as (is_ & d' & H1 & H2 & _).
  exists is_, d'. split; [exact H1|rewrite H2; by vm_compute].
Defined.

(** The string dictionary's byte count. *)
Definition total_bytes (vs : list (list Z)) : Z := foldr (fun v acc => zlen v + acc) 0 vs.

Lemma total_bytes_app vs ws : total_bytes (vs ++ ws) = total_bytes vs + total_bytes ws.
Proof. unfold total_bytes. induction vs as [|v vs IH]; cbn; [done|]. rewrite IH. lia. Qed.

Lemma total_bytes_nonneg vs : 0 <= total_bytes vs.
Proof. unfold total_bytes. induction vs as [|u us IH]; cbn; [done|]. pose proof (zlen_nonneg u). lia. Qed.

(** [string_dictionary::index_of] returns the index of the value, adds it
    exactly when it is new, and [bytes()] stays the total size of the distinct
    values; [clear] resets it. *)
Theorem string_dictionary_bytes d v :
  dict_inv (sd_dict d) -> sd_bytes d = total_bytes (d_values (sd_dict d)) ->
  bytes_ok v -> zlen (d_values (sd_dict d)) < 2 ^ 32 - 1 -> sd_bytes d + zlen v < 2 ^ 64 ->
  exists i d', string_index_of d v = Some (i, d') /\ dict_inv (sd_dict d') /\
    d_values (sd_dict d') = add_new (d_values (sd_dict d)) v /\ zget (d_values (sd_dict d')) i = Some v /\
    sd_bytes d' = total_bytes (d_values (sd_dict d')) /\
    sd_bytes (string_clear d') = total_bytes (d_values (sd_dict (string_clear d'))).
Proof.
  intros Hd Hb Hv Hn Hov. destruct (index_of_spec (sd_dict d) v Hd Hv Hn) as (i & d1 & Hi & Hd1 & Hval & Hget).
  unfold string_index_of. rewrite Hi. exists i. eexists. split; [done|].
  cbn [sd_dict sd_bytes]. split_and!; [done|done|done| |done].
  pose proof (total_bytes_nonneg (d_values (sd_dict d))).
  pose proof (zlen_nonneg v). rewrite Hval, Hb. case_bool_decide; [done|]. cbn [negb].
  rewrite wrap_small, total_bytes_app by lia. cbn. lia.
Qed.

Lemma string_dictionary_bytes_witness :
  exists i d', string_index_of (StringDictionary empty_dictionary 0) [104; 105] = Some (i, d') /\
    sd_bytes d' = total_bytes (d_values (sd_dict d')).
Proof.
  destruct (string_dictionary_bytes (StringDictionary empty_dictionary 0) [104; 105] empty_dict_inv eq_refl
    ltac:(repeat constructor; lia) ltac:(by vm_compute) ltac:(by vm_compute)) as (i & d' & H1 & _ & _ & _ & H2 & _).
  exists i, d'. split; [exact H1|exact H2].
Defined.

(** The portable [mix64] is the folded 128-bit product. *)
Theorem mix64_portable_equiv a b : 0 <= a < 2 ^ 64 -> 0 <= b < 2 ^ 64 -> mix64_portable a b = mix64 a b.
Proof.
  intros Ha Hb. unfold mix64_portable, mix64. change 0xffffffff with (Z.ones 32).
  rewrite !Z.land_ones, !Z.shiftr_div_pow2 by lia.
  set (al := a mod 2 ^ 32). set (ah := a / 2 ^ 32). set (bl := b mod 2 ^ 32). set (bh := b / 2 ^ 32).
  assert (Hal : 0 <= al < 2 ^ 32 /\ 0 <= ah < 2 ^ 32 /\ a = ah * 2 ^ 32 + al).
  { unfold al, ah. Z.div_mod_to_equations. lia. }
  assert (Hbl : 0 <= bl < 2 ^ 32 /\ 0 <= bh < 2 ^ 32 /\ b = bh * 2 ^ 32 + bl).
  { unfold bl, bh. Z.div_mod_to_equations. lia. }
  destruct Hal as (Hal & Hah & Hea), Hbl as (Hbl & Hbh & Heb). clearbody al ah bl bh.
  assert (Hp : forall x y, 0 <= x < 2 ^ 32 -> 0 <= y < 2 ^ 32 -> 0 <= x * y <= (2 ^ 32 - 1) * (2 ^ 32 - 1)) by (intros; nia).
  pose proof (Hp al bl Hal Hbl) as P1. pose proof (Hp al bh Hal Hbh) as P2.
  pose proof (Hp ah bl Hah Hbl) as P3. pose proof (Hp ah bh Hah Hbh) as P4.
  assert (Hab : a * b = al * bl + (al * bh + ah * bl) * 2 ^ 32 + (ah * bh) * 2 ^ 64) by (subst a b; ring).
  rewrite (wrap_small 64 (al * bl)), (wrap_small 64 (al * bh)), (wrap_small 64 (ah * bl)), (wrap_small 64 (ah * bh)) by lia.
  rewrite Hab. set (ll := al * bl) in *. set (lh := al * bh) in *. set (hl := ah * bl) in *. set (hh := ah * bh) in *.
  clearbody ll lh hl hh. clear Hab Hea Heb.
  assert (Hmid : 0 <= ll / 2 ^ 32 + lh mod 2 ^ 32 + hl mod 2 ^ 32 < 3 * 2 ^ 32) by (Z.div_mod_to_equations; lia).
  rewrite (wrap_small 64 (ll / 2 ^ 32 + _ + _)) by lia. set (mid := ll / 2 ^ 32 + _ + _) in *.
  assert (Hsh : u64 (Z.shiftl mid 32) = Z.shiftl (mid mod 2 ^ 32) 32).
  { rewrite !Z.shiftl_mul_pow2 by lia. unfold wrap. change (2 ^ 64) with (2 ^ 32 * 2 ^ 32). rewrite Z.mul_mod_distr_r by lia. done. }
  rewrite Hsh, lor_shiftl_add by (try apply Z.mod_pos_bound; lia).
  f_equal.
  - unfold wrap. unfold mid. Z.div_mod_to_equations. lia.
  - unfold wrap. unfold mid. Z.div_mod_to_equations. lia.
Qed.

Lemma mix64_portable_equiv_witness : mix64_portable (2 ^ 64 - 1) 0xe7037ed1a0b428db = mix64 (2 ^ 64 - 1) 0xe7037ed1a0b428db.
Proof. exact (mix64_portable_equiv (2 ^ 64 - 1) 0xe7037ed1a0b428db ltac:(lia) ltac:(lia)). Defined.
