(* ===== verification/LzCopy.v ===== *)
(** * Back-reference copies (codec.hpp, [detail::copy_match], [detail::copy_match_wild])

    The output is a list of bytes with an index [dst]; the copies read and write
    it in place. [None] is an access outside the output, or a [memcpy] whose
    source and destination overlap. The specification is the byte-by-byte LZ77
    copy [lz_copy] on the bytes produced so far. *)
From S2P Require Import Prelude Columnar.

(** [std::memcpy(out + d, out + s, n)] *)
Definition copy_within (out : list Z) (d s n : Z) : option (list Z) :=
  if (0 <=? s) && (s + n <=? zlen out) && ((s + n <=? d) || (d + n <=? s))
  then store out d (ztake n (zdrop s out)) else None.

(** [while (len--) *dst++ = *src++] *)
Fixpoint copy_forward (len : nat) (out : list Z) (d s : Z) : option (list Z) :=
  match len with
  | O => Some out
  | S len =>
      match zget out s with
      | None => None
      | Some b => match store out d [b] with
                  | None => None
                  | Some out' => copy_forward len out' (d + 1) (s + 1)
                  end
      end
  end.

(** [while (len >= 8) { memcpy(dst, src, 8); ... }] then the bytes left over. *)
Fixpoint copy_by8 (fuel : nat) (out : list Z) (d s len : Z) : option (list Z) :=
  if 8 <=? len then
    match fuel with
    | O => None
    | S fuel => match copy_within out d s 8 with
                | None => None
                | Some out' => copy_by8 fuel out' (d + 8) (s + 8) (len - 8)
                end
    end
  else copy_forward (Z.to_nat len) out d s.

Definition copy_match (out : list Z) (dst offset len : Z) : option (list Z) :=
  let src := dst - offset in
  if len <=? offset then copy_within out dst src len
  else if 8 <=? offset then copy_by8 (Z.to_nat len) out dst src len
  else copy_forward (Z.to_nat len) out dst src.

(** [for (; i < len; i += chunk) memcpy(dst + i, dst + i - lag, chunk)] *)
Fixpoint copy_chunks (fuel : nat) (out : list Z) (dst lag chunk len i : Z) : option (list Z) :=
  if i <? len then
    match fuel with
    | O => None
    | S fuel => match copy_within out (dst + i) (dst + i - lag) chunk with
                | None => None
                | Some out' => copy_chunks fuel out' dst lag chunk len (i + chunk)
                end
    end
  else Some out.

Definition copy_match_wild (out : list Z) (dst offset len : Z) : option (list Z) :=
  if 16 <=? offset then copy_chunks (Z.to_nat len) out dst offset 16 len 0
  else if 8 <=? offset then copy_chunks (Z.to_nat len) out dst offset 8 len 0
  else
    let head := if len <? 8 then len else 8 in
    match copy_forward (Z.to_nat head) out dst (dst - offset) with
    | None => None
    | Some out' =>
        let lag := offset * ((8 + offset - 1) / offset) in
        copy_chunks (Z.to_nat len) out' dst lag 8 len head
    end.

(** ** Specification: one byte at a time *)
Fixpoint lz_copy (acc : list Z) (offset : Z) (n : nat) : list Z :=
  match n with
  | O => acc
  | S n => let acc' := lz_copy acc offset n in
           acc' ++ [default 0 (zget acc' (zlen acc' - offset))]
  end.

Lemma zlen_lz_copy acc offset n : zlen (lz_copy acc offset n) = zlen acc + Z.of_nat n.
Proof.
  induction n as [|n IH]; cbn [lz_copy]; [lia|]. rewrite zlen_app, IH. change (zlen [_]) with 1. lia.
Qed.

Lemma lz_copy_bytes acc offset n : bytes_ok acc -> bytes_ok (lz_copy acc offset n).
Proof.
  intros Ha. induction n as [|n IH]; cbn [lz_copy]; [done|]. apply Forall_app. split; [done|]. repeat constructor.
  all: destruct (zget _ _) as [b|] eqn:Hb; cbn; [|lia]; apply (zget_byte _ _ _ IH) in Hb; unfold is_byte in Hb; lia.
Qed.

Section Lz.
Context (acc : list Z) (offset : Z) (Ho : 0 < offset <= zlen acc).

Lemma lz_copy_prefix n k : k < zlen acc -> zget (lz_copy acc offset n) k = zget acc k.
Proof using.
  intros Hk. induction n as [|n IH]; cbn [lz_copy]; [done|].
  rewrite zget_app_l; [done|]. rewrite zlen_lz_copy. lia.
Qed.

(** The copied bytes repeat with the period of the offset. *)
Lemma lz_copy_period n k : zlen acc <= k < zlen acc + Z.of_nat n ->
  zget (lz_copy acc offset n) k = zget (lz_copy acc offset n) (k - offset).
Proof using Ho.
  induction n as [|n IH]; intros Hk; [lia|]. cbn [lz_copy].
  pose proof (zlen_lz_copy acc offset n) as Hl.
  rewrite (zget_app_l _ _ (k - offset)) by lia.
  destruct (decide (k = zlen acc + Z.of_nat n)) as [-> |].
  - rewrite zget_app_r by lia. rewrite Hl, Z.sub_diag.
    destruct (proj2 (zget_is_Some (lz_copy acc offset n) (zlen acc + Z.of_nat n - offset))) as [b Hb]; [lia|].
    by rewrite Hb.
  - rewrite zget_app_l by lia. apply IH. lia.
Qed.

Lemma lz_copy_periods n m k : (0 < m)%nat -> zlen acc <= k - (Z.of_nat m - 1) * offset -> k < zlen acc + Z.of_nat n ->
  zget (lz_copy acc offset n) k = zget (lz_copy acc offset n) (k - Z.of_nat m * offset).
Proof using Ho.
  intros Hm. induction m as [|m IH]; [lia|]. intros Hk1 Hk2. destruct (decide (m = 0%nat)) as [-> |].
  - rewrite lz_copy_period by lia. f_equal. lia.
  - rewrite IH by nia. rewrite lz_copy_period by nia. f_equal. lia.
Qed.

Lemma lz_copy_more n n' k : (n <= n')%nat -> k < zlen acc + Z.of_nat n ->
  zget (lz_copy acc offset n') k = zget (lz_copy acc offset n) k.
Proof using.
  intros Hn Hk. induction Hn as [|n' Hn IH]; [done|]. cbn [lz_copy]. rewrite zget_app_l; [done|]. rewrite zlen_lz_copy. lia.
Qed.

(** A chunk copied from a lag that is a multiple of the offset. *)
Lemma lz_copy_chunk i c m : (0 < m)%nat -> 0 <= i -> 0 <= c <= Z.of_nat m * offset -> Z.of_nat m * offset - offset <= i ->
  lz_copy acc offset (Z.to_nat (i + c)) =
    lz_copy acc offset (Z.to_nat i) ++
    ztake c (zdrop (zlen acc + i - Z.of_nat m * offset) (lz_copy acc offset (Z.to_nat i))).
Proof using Ho.
  intros Hm Hi Hc Hlag. pose proof (zlen_lz_copy acc offset (Z.to_nat i)) as Hl. rewrite Z2Nat.id in Hl by lia.
  apply zget_ext.
  { rewrite zlen_app, zlen_ztake, zlen_zdrop, !zlen_lz_copy by nia. rewrite !Z2Nat.id by lia. lia. }
  intros k Hk. rewrite zlen_lz_copy in Hk. destruct (Z.le_gt_cases (zlen acc + i) k).
  - rewrite zget_app_r by lia. rewrite Hl. rewrite zget_ztake, zget_zdrop by nia.
    rewrite (lz_copy_periods _ m k) by nia.
    rewrite (lz_copy_more (Z.to_nat i)) by nia. f_equal. lia.
  - rewrite zget_app_l by lia. apply lz_copy_more; lia.
Qed.
End Lz.

(** ** The copies produce it *)

(** [a] is what the output holds up to its length. *)
Definition produced (out a : list Z) : Prop := zlen a <= zlen out /\ ztake (zlen a) out = a.

(** A store at the end of what is produced. *)
Lemma store_produced out a vs : produced out a -> zlen a + zlen vs <= zlen out ->
  exists out', store out (zlen a) vs = Some out' /\ zlen out' = zlen out /\ produced out' (a ++ vs) /\
    forall k, zlen a + zlen vs <= k -> zdrop k out' = zdrop k out.
Proof.
  intros [Hl Ht] Hf. pose proof (zlen_nonneg a). pose proof (zlen_nonneg vs).
  rewrite store_spec by lia. rewrite Ht. eexists. split; [done|]. split_and!.
  - rewrite !zlen_app, zlen_zdrop by lia. lia.
  - split; rewrite app_assoc; [rewrite !zlen_app; pose proof (zlen_nonneg (zdrop (zlen a + zlen vs) out)); lia|by apply ztake_app].
  - intros k Hk. rewrite app_assoc, zdrop_app_r by (rewrite zlen_app; lia). rewrite zdrop_zdrop, zlen_app by (rewrite ?zlen_app; lia).
    f_equal. lia.
Qed.

Lemma produced_get out a k : produced out a -> 0 <= k < zlen a -> zget out k = zget a k.
Proof. intros [Hl Ht] Hk. by rewrite <- Ht, zget_ztake by (rewrite ?Ht; lia). Qed.

Lemma produced_slice out a s n : produced out a -> 0 <= s -> 0 <= n -> s + n <= zlen a ->
  ztake n (zdrop s out) = ztake n (zdrop s a).
Proof.
  intros [Hl Ht] Hs Hn Hf. rewrite <- Ht. rewrite zdrop_ztake by lia. by rewrite ztake_ztake by lia.
Qed.

Lemma produced_prefix out a b : produced out (a ++ b) -> produced out a.
Proof.
  intros [Hl Ht]. rewrite zlen_app in *. pose proof (zlen_nonneg a). pose proof (zlen_nonneg b). split; [lia|].
  rewrite <- (ztake_ztake (zlen a) (zlen a + zlen b)), Ht by lia. by apply ztake_app.
Qed.

Lemma copy_within_produced out a s n : produced out a -> 0 <= s -> 0 <= n -> s + n <= zlen a -> zlen a + n <= zlen out ->
  exists out', copy_within out (zlen a) s n = Some out' /\ zlen out' = zlen out /\
    produced out' (a ++ ztake n (zdrop s a)) /\ forall k, zlen a + n <= k -> zdrop k out' = zdrop k out.
Proof.
  intros Hp Hs Hn Hf Hr. unfold copy_within.
  destruct (Z.leb_spec 0 s), (Z.leb_spec (s + n) (zlen out)), (Z.leb_spec (s + n) (zlen a)); try lia. cbn [andb orb].
  rewrite (produced_slice out a) by done. assert (Hz : zlen (ztake n (zdrop s a)) = n) by (rewrite zlen_ztake, zlen_zdrop; lia).
  destruct (store_produced out a (ztake n (zdrop s a)) Hp) as (out' & Hst & Hl & Hp' & Hk); [lia|].
  rewrite Hz in Hk. by exists out'.
Qed.

Section Copies.
Context (acc : list Z) (offset : Z) (Ho : 0 < offset <= zlen acc).

Lemma copy_forward_spec len out i : produced out (lz_copy acc offset i) ->
  zlen acc + Z.of_nat i + Z.of_nat len <= zlen out ->
  exists out', copy_forward len out (zlen acc + Z.of_nat i) (zlen acc + Z.of_nat i - offset) = Some out' /\
    zlen out' = zlen out /\ produced out' (lz_copy acc offset (i + len)) /\
    forall k, zlen acc + Z.of_nat i + Z.of_nat len <= k -> zdrop k out' = zdrop k out.
Proof using Ho.
  revert out i. induction len as [|len IH]; intros out i Hp Hr; cbn [copy_forward].
  { exists out. rewrite Nat.add_0_r. by split_and!. }
  pose proof (zlen_lz_copy acc offset i) as Hl.
  destruct (proj2 (zget_is_Some (lz_copy acc offset i) (zlen acc + Z.of_nat i - offset))) as [b Hb]; [lia|].
  rewrite (produced_get _ _ _ Hp), Hb by lia.
  destruct (store_produced out _ [b] Hp) as (out1 & Hst & Hl1 & Hp1 & Hk1); [change (zlen [b]) with 1; lia|].
  rewrite Hl in Hst, Hk1. rewrite Hst. change (zlen [b]) with 1 in Hk1.
  destruct (IH out1 (S i)) as (out' & Hc & Hl' & Hp' & Hk').
  - cbn [lz_copy]. rewrite Hl. by rewrite Hb.
  - lia.
  - exists out'. replace (zlen acc + Z.of_nat i + 1) with (zlen acc + Z.of_nat (S i)) by lia.
    replace (zlen acc + Z.of_nat i - offset + 1) with (zlen acc + Z.of_nat (S i) - offset) by lia.
    split_and!; [done|lia|by rewrite Nat.add_succ_r|]. intros k Hk. rewrite Hk', Hk1 by lia. done.
Qed.

(** A chunk from a lag of [m] periods. *)
Lemma chunk_spec out i c m : produced out (lz_copy acc offset (Z.to_nat i)) -> (0 < m)%nat -> 0 <= i ->
  0 <= c <= Z.of_nat m * offset -> Z.of_nat m * offset - offset <= i -> zlen acc + i + c <= zlen out ->
  exists out', copy_within out (zlen acc + i) (zlen acc + i - Z.of_nat m * offset) c = Some out' /\
    zlen out' = zlen out /\ produced out' (lz_copy acc offset (Z.to_nat (i + c))) /\
    forall k, zlen acc + i + c <= k -> zdrop k out' = zdrop k out.
Proof using Ho.
  intros Hp Hm Hi Hc Hlag Hr. pose proof (zlen_lz_copy acc offset (Z.to_nat i)) as Hl. rewrite Z2Nat.id in Hl by lia.
  destruct (copy_within_produced out _ (zlen acc + i - Z.of_nat m * offset) c Hp) as (out' & Hcw & Hl' & Hp' & Hk); [nia..|].
  rewrite Hl in *. exists out'. split_and!; [done|done| |done].
  by rewrite (lz_copy_chunk acc offset Ho i c m) by (done || lia).
Qed.

Lemma copy_by8_spec fuel out i len : 8 <= offset -> produced out (lz_copy acc offset (Z.to_nat i)) -> 0 <= i -> 0 <= len ->
  len <= Z.of_nat fuel -> zlen acc + i + len <= zlen out ->
  exists out', copy_by8 fuel out (zlen acc + i) (zlen acc + i - offset) len = Some out' /\ zlen out' = zlen out /\
    produced out' (lz_copy acc offset (Z.to_nat (i + len))) /\
    forall k, zlen acc + i + len <= k -> zdrop k out' = zdrop k out.
Proof using Ho.
  intros H8. revert out i len. induction fuel as [|fuel IH]; intros out i len Hp Hi Hlen Hf Hr; cbn [copy_by8];
    destruct (Z.leb_spec 8 len); try lia.
  1, 3: destruct (copy_forward_spec (Z.to_nat len) out (Z.to_nat i) Hp) as (out' & Hc & Hl & Hp' & Hk); [lia|];
    rewrite !Z2Nat.id in Hc by lia; exists out'; split_and!;
    [done|done|by rewrite Z2Nat.inj_add by lia|intros k Hk'; apply Hk; lia].
  destruct (chunk_spec out i 8 1 Hp) as (out1 & Hc & Hl1 & Hp1 & Hk1); [lia..|].
  rewrite Z.mul_1_l in Hc. rewrite Hc.
  destruct (IH out1 (i + 8) (len - 8)) as (out' & Hc' & Hl' & Hp' & Hk'); [done|lia..|].
  exists out'. replace (zlen acc + i + 8) with (zlen acc + (i + 8)) by lia.
  replace (zlen acc + i - offset + 8) with (zlen acc + (i + 8) - offset) by lia.
  split_and!; [done|lia|by replace (i + len) with (i + 8 + (len - 8)) by lia|].
  intros k Hk. rewrite Hk', Hk1 by lia. done.
Qed.

(** Exactly [len] bytes are written. *)
Lemma copy_match_spec out len : produced out acc -> 0 <= len -> zlen acc + len <= zlen out ->
  exists out', copy_match out (zlen acc) offset len = Some out' /\ zlen out' = zlen out /\
    produced out' (lz_copy acc offset (Z.to_nat len)) /\
    forall k, zlen acc + len <= k -> zdrop k out' = zdrop k out.
Proof using Ho.
  intros Hp Hlen Hr. unfold copy_match. destruct (Z.leb_spec len offset).
  { destruct (chunk_spec out 0 len 1 Hp) as (out' & Hc & Hl & Hp' & Hk); [lia..|].
    rewrite Z.mul_1_l, !Z.add_0_r in *. by exists out'. }
  destruct (Z.leb_spec 8 offset).
  - destruct (copy_by8_spec (Z.to_nat len) out 0 len) as (out' & Hc & Hl & Hp' & Hk); [done..|lia|lia|lia|].
    rewrite !Z.add_0_r in *. by exists out'.
  - destruct (copy_forward_spec (Z.to_nat len) out 0 Hp) as (out' & Hc & Hl & Hp' & Hk); [lia|].
    rewrite !Z.add_0_r, Z2Nat.id in * by lia. by exists out'.
Qed.

Lemma copy_chunks_spec fuel out c m len i : produced out (lz_copy acc offset (Z.to_nat i)) -> (0 < m)%nat -> 0 < c ->
  c <= Z.of_nat m * offset -> Z.of_nat m * offset - offset <= i -> 0 <= i -> len - i <= Z.of_nat fuel ->
  zlen acc + len + c <= zlen out + 1 -> zlen acc + i <= zlen out -> i mod c = 0 ->
  exists out' e, copy_chunks fuel out (zlen acc) (Z.of_nat m * offset) c len i = Some out' /\ zlen out' = zlen out /\
    Z.max i len <= e /\ produced out' (lz_copy acc offset (Z.to_nat e)).
Proof using Ho.
  intros Hp Hm Hc Hcm. revert out i Hp. induction fuel as [|fuel IH]; intros out i Hp Hlag Hi Hf Hr Hri Hmod; cbn [copy_chunks];
    destruct (Z.ltb_spec i len); try (exists out, i; split_and!; done || lia).
  destruct (chunk_spec out i c m Hp) as (out1 & -> & Hl1 & Hp1 & _); [done|lia..|].
  destruct (IH out1 (i + c) Hp1) as (out' & e & -> & Hl' & He & Hp'); [lia..| |].
  { rewrite <- Z.add_mod_idemp_l, Hmod, Z.add_0_l by lia. by apply Z_mod_same_full. }
  exists out', e. split_and!; [done|lia|lia|done].
Qed.

Lemma produced_shorter out i j : 0 <= i <= j -> produced out (lz_copy acc offset (Z.to_nat j)) ->
  produced out (lz_copy acc offset (Z.to_nat i)).
Proof using Ho.
  intros Hij [Hl Ht]. rewrite zlen_lz_copy in *. split; rewrite zlen_lz_copy; [lia|].
  apply zget_ext; [rewrite zlen_ztake, zlen_lz_copy by (pose proof (zlen_nonneg acc); lia); lia|].
  intros k Hk. rewrite zlen_ztake in Hk by (pose proof (zlen_nonneg acc); lia).
  rewrite zget_ztake by lia. rewrite <- (lz_copy_more acc offset (Z.to_nat i) (Z.to_nat j)) by lia.
  rewrite <- Ht. rewrite zget_ztake by lia. done.
Qed.

(** With 16 bytes of room behind the match, the wild copy is as good. *)
Lemma copy_match_wild_spec out len : produced out acc -> 0 <= len -> zlen acc + len + 16 <= zlen out ->
  exists out', copy_match_wild out (zlen acc) offset len = Some out' /\ zlen out' = zlen out /\
    produced out' (lz_copy acc offset (Z.to_nat len)).
Proof using Ho.
  intros Hp Hlen Hr. unfold copy_match_wild. destruct (Z.leb_spec 16 offset); [|destruct (Z.leb_spec 8 offset)].
  - destruct (copy_chunks_spec (Z.to_nat len) out 16 1 len 0 Hp) as (out' & e & Hc & Hl & He & Hp'); [lia..|done|].
    rewrite Z.mul_1_l in Hc. exists out'. split_and!; [done|done|]. apply (produced_shorter _ _ e); [lia|done].
  - destruct (copy_chunks_spec (Z.to_nat len) out 8 1 len 0 Hp) as (out' & e & Hc & Hl & He & Hp'); [lia..|done|].
    rewrite Z.mul_1_l in Hc. exists out'. split_and!; [done|done|]. apply (produced_shorter _ _ e); [lia|done].
  - set (head := if len <? 8 then len else 8).
    assert (Hh : 0 <= head <= 8 /\ head <= len /\ (len < 8 -> head = len) /\ (8 <= len -> head = 8)) by (unfold head; destruct (Z.ltb_spec len 8); lia).
    destruct (copy_forward_spec (Z.to_nat head) out 0 Hp) as (out1 & Hc1 & Hl1 & Hp1 & _); [lia|].
    rewrite Z.add_0_r in Hc1. rewrite Hc1. cbn [Nat.add] in Hp1.
    set (m := (8 + offset - 1) / offset).
    assert (Hm : 1 <= m /\ 8 <= m * offset < 8 + offset) by (unfold m; Z.div_mod_to_equations; nia).
    cbv zeta. rewrite (Z.mul_comm offset m), <- (Z2Nat.id m) by lia.
    destruct (Z.ltb_spec len 8) as [Hs|Hs].
    + replace head with len in * by lia. exists out1. split_and!; [|done|done].
      destruct (Z.to_nat len); cbn [copy_chunks]; destruct (Z.ltb_spec len len); done || lia.
    + replace head with 8 in * by lia.
      destruct (copy_chunks_spec (Z.to_nat len) out1 8 (Z.to_nat m) len 8 Hp1) as (out' & e & Hc & Hl & He & Hp'); [lia..|done|].
      exists out'. split_and!; [done|lia|]. apply (produced_shorter _ _ e); [lia|done].
Qed.
End Copies.
