(* ===== verification/Snappy.v ===== *)
(** * Snappy decompression (codec.hpp section 30)

    The decoder with its fast paths, over the input bytes [l] and the output
    [out]; [None] is an access outside either. The specification is the block
    format, [snappy_bytes]: what elements the bytes are and what they stand for,
    with no buffer. In between is [snappy_ref], the code's exact path over a list
    that grows. *)
From Stdlib Require Import String.
From S2P Require Import Prelude Parser BytesParsers Combinators CombinatorFacts Numbers Columnar LzCopy.

(** [expected<std::size_t, codec_error>] *)
Inductive status := Produced (n : Z) | Failed (what : string) (at_ : Z).

Definition snappy_uncompressed_length (l : list Z) : option (option Z) :=
  match varint_u32 (mem_of 0 l) (Input 0 (zlen l) 0 false None 0) with
  | Done v _ => Some (Some v)
  | Err _ => Some None
  | Stop _ => None
  end.

(** The tag table: length (bits 0-7), high offset bits (8-10), extra bytes (11-13). *)
Definition snappy_table (tag : Z) : Z :=
  let '(len, high, extra) :=
    match Z.land tag 3 with
    | 0 => let len := Z.shiftr tag 2 + 1 in (if 60 <? len then 0 else len, 0, 0)
    | 1 => (Z.land (Z.shiftr tag 2) 7 + 4, Z.shiftl (Z.shiftr tag 5) 8, 1)
    | 2 => (Z.shiftr tag 2 + 1, 0, 2)
    | _ => (Z.shiftr tag 2 + 1, 0, 4)
    end in
  u16 (Z.lor (Z.lor len high) (Z.shiftl extra 11)).

Definition snappy_extra_mask : list Z := [0; 0xff; 0xffff; 0xffffff; 0xffffffff].

Definition load_le32 (l : list Z) (off : Z) : option Z :=
  if (0 <=? off) && (off + 4 <=? zlen l) then Some (le_val (ztake 4 (zdrop off l))) else None.

(** [std::memcpy(out + d, in + s, n)] *)
Definition copy_in (l : list Z) (s : Z) (out : list Z) (d n : Z) : option (list Z) :=
  if (0 <=? s) && (s + n <=? zlen l) then store out d (ztake n (zdrop s l)) else None.

(** The fast path of one element: the new output and cursors when it applies. *)
Definition snappy_fast (l out : list Z) (ip op tag : Z) : option (option (list Z * Z * Z)) :=
  let entry := snappy_table tag in
  let lit := Z.land tag 3 =? 0 in
  let len := Z.land entry 0xff in
  let extra := Z.shiftr entry 11 in
  match load_le32 l (ip + 1), zget snappy_extra_mask extra with
  | Some w, Some mask =>
      let offset := Z.land entry 0x700 + Z.land w mask in
      let slow := (16 <=? u64 (len - 1)) || (Z.land tag 3 =? 3) ||
                  (negb lit && ((offset <? 8) || (op <? offset))) in
      if negb slow then
        let copied :=
          if lit then
            match copy_in l (ip + 1) out op 8 with
            | None => None
            | Some out1 => copy_in l (ip + 1 + 8) out1 (op + 8) 8
            end
          else
            match copy_within out op (op - offset) 8 with
            | None => None
            | Some out1 => copy_within out1 (op + 8) (op - offset + 8) 8
            end in
        match copied with
        | None => None
        | Some out' =>
            Some (Some (out', ip + (if lit then Z.shiftr tag 2 + 2 else Z.land tag 3 + 1), op + len))
        end
      else if negb lit && (len <=? 64) && (u64 (offset - 1) <? op) then
        match copy_match_wild out op offset len with
        | None => None
        | Some out' => Some (Some (out', ip + 1 + extra, op + len))
        end
      else Some None
  | _, _ => None
  end.

(** [for (i < nb) len |= u8(ip + i) << (8 * i)] *)
Fixpoint or_bytes (l : list Z) (ip : Z) (n : nat) (i acc : Z) : option Z :=
  match n with
  | O => Some acc
  | S n => match zget l (ip + i) with
           | None => None
           | Some b => or_bytes l ip n (i + 1) (Z.lor acc (Z.shiftl b (8 * i)))
           end
  end.

(** One element of the exact path, [ip] behind the tag: its kind and the cursor
    behind its header, or the failure. *)
Inductive element := Literal (len : Z) | Copy (offset len : Z).

Definition snappy_element (l : list Z) (ip tag : Z) : option (status + element * Z) :=
  if Z.land tag 3 =? 0 then
    let len := Z.shiftr tag 2 + 1 in
    if 60 <? len then
      let nb := len - 60 in
      if zlen l - ip <? nb then Some (inl (Failed "snappy: truncated literal length" ip))
      else match or_bytes l ip (Z.to_nat nb) 0 0 with
           | None => None
           | Some len => Some (inr (Literal (len + 1), ip + nb))
           end
    else Some (inr (Literal len, ip))
  else if Z.land tag 3 =? 1 then
    if zlen l - ip <? 1 then Some (inl (Failed "snappy: truncated copy" ip))
    else match or_bytes l ip 1 0 (Z.shiftl (Z.shiftr tag 5) 8) with
         | None => None
         | Some offset => Some (inr (Copy offset (Z.land (Z.shiftr tag 2) 7 + 4), ip + 1))
         end
  else if Z.land tag 3 =? 2 then
    if zlen l - ip <? 2 then Some (inl (Failed "snappy: truncated copy" ip))
    else match or_bytes l ip 2 0 0 with
         | None => None
         | Some offset => Some (inr (Copy offset (Z.shiftr tag 2 + 1), ip + 2))
         end
  else
    if zlen l - ip <? 4 then Some (inl (Failed "snappy: truncated copy" ip))
    else match or_bytes l ip 4 0 0 with
         | None => None
         | Some offset => Some (inr (Copy offset (Z.shiftr tag 2 + 1), ip + 4))
         end.

(** The exact path: the checks and copies of one element. *)
Definition snappy_exact (l out : list Z) (ip op : Z) (e : element) : option (status + list Z * Z * Z) :=
  match e with
  | Literal len =>
      if zlen l - ip <? len then Some (inl (Failed "snappy: literal runs past the input" ip))
      else if zlen out - op <? len then Some (inl (Failed "snappy: literal overflows the output" ip))
      else match copy_in l ip out op len with
           | None => None
           | Some out' => Some (inr (out', ip + len, op + len))
           end
  | Copy offset len =>
      if (offset =? 0) || (op <? offset) then Some (inl (Failed "snappy: copy offset outside the output" ip))
      else if len + 16 <=? zlen out - op then
        match copy_match_wild out op offset len with
        | None => None
        | Some out' => Some (inr (out', ip, op + len))
        end
      else if zlen out - op <? len then Some (inl (Failed "snappy: copy overflows the output" ip))
      else match copy_match out op offset len with
           | None => None
           | Some out' => Some (inr (out', ip, op + len))
           end
  end.

(** One turn of [while (ip < ie)]. *)
Definition snappy_round (l out : list Z) (ip op : Z) : option (status + list Z * Z * Z) :=
  let ip_fast := if 16 <=? zlen l then zlen l - 16 else 0 in
  let op_fast := if 80 <=? zlen out then zlen out - 80 else 0 in
  match zget l ip with
  | None => None
  | Some tag =>
      match (if (ip <? ip_fast) && (op <? op_fast) then snappy_fast l out ip op tag else Some None) with
      | None => None
      | Some (Some st) => Some (inr st)
      | Some None =>
          match snappy_element l (ip + 1) tag with
          | None => None
          | Some (inl f) => Some (inl f)
          | Some (inr (e, ip')) => snappy_exact l out ip' op e
          end
      end
  end.

Fixpoint snappy_loop (fuel : nat) (l out : list Z) (ip op : Z) : option (status * list Z) :=
  if ip <? zlen l then
    match fuel with
    | O => None
    | S fuel =>
        match snappy_round l out ip op with
        | None => None
        | Some (inl f) => Some (f, out)
        | Some (inr (out', ip', op')) => snappy_loop fuel l out' ip' op'
        end
    end
  else if negb (op =? zlen out) then Some (Failed "snappy: output shorter than declared" ip, out)
  else Some (Produced (zlen out), out).

(** The status and the output buffer. *)
Definition snappy_decompress (l out : list Z) : option (status * list Z) :=
  match varint_u32 (mem_of 0 l) (Input 0 (zlen l) 0 false None 0) with
  | Stop _ => None
  | Err _ => Some (Failed "snappy: bad length preamble" 0, out)
  | Done v rest =>
      if negb (v =? zlen out) then Some (Failed "snappy: length preamble does not match the page header" 0, out)
      else snappy_loop (List.length l) l out (i_first rest) 0
  end.

(** ** Specification: element by element, appending *)
Definition snappy_ref_step (l : list Z) (size ip : Z) (acc : list Z) (e : element) : status + list Z * Z :=
  match e with
  | Literal len =>
      if zlen l - ip <? len then inl (Failed "snappy: literal runs past the input" ip)
      else if size - zlen acc <? len then inl (Failed "snappy: literal overflows the output" ip)
      else inr (acc ++ ztake len (zdrop ip l), ip + len)
  | Copy offset len =>
      if (offset =? 0) || (zlen acc <? offset) then inl (Failed "snappy: copy offset outside the output" ip)
      else if size - zlen acc <? len then inl (Failed "snappy: copy overflows the output" ip)
      else inr (lz_copy acc offset (Z.to_nat len), ip)
  end.

(** The bytes of the block, or the failure. *)
Fixpoint snappy_ref_loop (fuel : nat) (l : list Z) (size ip : Z) (acc : list Z) : option (status + list Z) :=
  if ip <? zlen l then
    match fuel, zget l ip with
    | S fuel, Some tag =>
        match snappy_element l (ip + 1) tag with
        | None => None
        | Some (inl f) => Some (inl f)
        | Some (inr (e, ip')) =>
            match snappy_ref_step l size ip' acc e with
            | inl f => Some (inl f)
            | inr (acc', ip'') => snappy_ref_loop fuel l size ip'' acc'
            end
        end
    | _, _ => None
    end
  else if zlen acc =? size then Some (inr acc) else Some (inl (Failed "snappy: output shorter than declared" ip)).

Definition snappy_ref (l : list Z) (size : Z) : option (status + list Z) :=
  match varint_at 32 l with
  | None => Some (inl (Failed "snappy: bad length preamble" 0))
  | Some (v, k) =>
      if v =? size then snappy_ref_loop (List.length l) l size k []
      else Some (inl (Failed "snappy: length preamble does not match the page header" 0))
  end.

(** ** Headers *)
Lemma or_bytes_spec l ip n i acc : bytes_ok l -> 0 <= ip -> 0 <= i -> ip + i + Z.of_nat n <= zlen l ->
  or_bytes l ip n i acc = Some (Z.lor acc (Z.shiftl (le_val (ztake (Z.of_nat n) (zdrop (ip + i) l))) (8 * i))).
Proof.
  intros Hl Hip. revert i acc. induction n as [|n IH]; intros i acc Hi Hr; cbn [or_bytes].
  { change (ztake (Z.of_nat 0) _) with (@nil Z). cbn [le_val]. by rewrite Z.shiftl_0_l, Z.lor_0_r. }
  destruct (proj2 (zget_is_Some l (ip + i))) as [b Hb]; [lia|]. rewrite Hb, IH by lia. f_equal.
  rewrite <- Z.lor_assoc. f_equal.
  assert (Hs : ztake (Z.of_nat (S n)) (zdrop (ip + i) l) = b :: ztake (Z.of_nat n) (zdrop (ip + (i + 1)) l)).
  { unfold zget in Hb. destruct (Z.ltb_spec (ip + i) 0); [lia|]. unfold ztake, zdrop.
    rewrite (drop_S _ _ _ Hb). replace (Z.to_nat (Z.of_nat (S n))) with (S (Z.to_nat (Z.of_nat n))) by lia.
    by replace (Z.to_nat (ip + (i + 1))) with (S (Z.to_nat (ip + i))) by lia. }
  rewrite Hs, le_val_cons_bits by (by eapply zget_byte). rewrite Z.shiftl_lor, Z.shiftl_shiftl by lia.
  do 2 f_equal. lia.
Qed.

(** What the table says of a tag, for each of the 256. *)
Definition table_ok (tag : Z) : bool :=
  let e := snappy_table tag in
  let len := Z.land e 0xff in
  match Z.land tag 3 with
  | 0 => (Z.shiftr e 11 =? 0) && (Z.land e 0x700 =? 0) &&
         (len =? (if 60 <? Z.shiftr tag 2 + 1 then 0 else Z.shiftr tag 2 + 1)) && (0 <=? Z.shiftr tag 2)
  | 1 => (Z.shiftr e 11 =? 1) && (Z.land e 0x700 =? Z.shiftl (Z.shiftr tag 5) 8) &&
         (len =? Z.land (Z.shiftr tag 2) 7 + 4) && (1 <=? len) && (len <=? 64)
  | 2 => (Z.shiftr e 11 =? 2) && (Z.land e 0x700 =? 0) && (len =? Z.shiftr tag 2 + 1) && (1 <=? len) && (len <=? 64)
  | 3 => (Z.shiftr e 11 =? 4) && (Z.land e 0x700 =? 0) && (len =? Z.shiftr tag 2 + 1) && (1 <=? len) && (len <=? 64)
  | _ => false
  end.

Lemma table_ok_all tag : is_byte tag -> table_ok tag = true.
Proof. apply byte_forall. by vm_compute. Qed.

Lemma load_le32_masked l off n mask w : bytes_ok l -> 0 <= off -> 0 <= n <= 4 -> load_le32 l off = Some w -> mask = Z.ones (8 * n) ->
  Z.land w mask = le_val (ztake n (zdrop off l)).
Proof.
  intros Hl Hoff Hn. unfold load_le32. destruct (_ && _); [|done]. intros [= <-] ->.
  rewrite Z.land_ones by lia. fold (wrap (8 * n) (le_val (ztake 4 (zdrop off l)))).
  rewrite <- le_val_ztake by (auto using bytes_ok_ztake, bytes_ok_zdrop; lia). by rewrite ztake_ztake by lia.
Qed.

Lemma lor_high_byte tag b : is_byte tag -> is_byte b ->
  Z.lor (Z.shiftl (Z.shiftr tag 5) 8) b = Z.shiftl (Z.shiftr tag 5) 8 + b.
Proof. intros Ht Hb. rewrite Z.lor_comm, lor_shiftl_add by (done || lia). rewrite Z.shiftl_mul_pow2 by lia. lia. Qed.

(** The fast path reads the same element as the exact path: a short literal, or
    a copy with the offset, length and header size of the table. *)
Lemma fast_element l ip tag w mask : bytes_ok l -> 0 <= ip -> ip + 5 <= zlen l -> zget l ip = Some tag ->
  load_le32 l (ip + 1) = Some w -> zget snappy_extra_mask (Z.shiftr (snappy_table tag) 11) = Some mask ->
  let len := Z.land (snappy_table tag) 0xff in
  let extra := Z.shiftr (snappy_table tag) 11 in
  let offset := Z.land (snappy_table tag) 0x700 + Z.land w mask in
  if Z.land tag 3 =? 0
  then (1 <= len -> snappy_element l (ip + 1) tag = Some (inr (Literal len, ip + 1)) /\ len = Z.shiftr tag 2 + 1) /\ 0 <= len
  else snappy_element l (ip + 1) tag = Some (inr (Copy offset len, ip + 1 + extra)) /\ 1 <= len <= 64 /\
       0 <= offset < 2 ^ 33 /\ (Z.land tag 3 <> 3 -> extra = Z.land tag 3) /\ 0 <= extra.
Proof.
  intros Hl Hip Hr Hg Hw Hm. pose proof (zget_byte _ _ _ Hl Hg) as Htag.
  pose proof (table_ok_all tag Htag) as Hok. unfold table_ok in Hok. cbv zeta in *.
  assert (H3 : 0 <= Z.land tag 3 < 4) by (change 3 with (Z.ones 2); rewrite Z.land_ones by lia; apply Z.mod_pos_bound; lia).
  assert (Hpos : forall n, 0 <= n -> 0 <= le_val (ztake n (zdrop (ip + 1) l)) < 2 ^ (8 * n)).
  { intros n Hn. rewrite le_val_ztake by (auto using bytes_ok_zdrop; lia). apply wrap_range. lia. }
  unfold snappy_element.
  assert (Hcase : Z.land tag 3 = 0 \/ Z.land tag 3 = 1 \/ Z.land tag 3 = 2 \/ Z.land tag 3 = 3) by lia.
  destruct Hcase as [Hc|[Hc|[Hc|Hc]]]; rewrite Hc in *; cbn [Z.eqb Pos.eqb]; rewrite !andb_true_iff, !Z.eqb_eq, !Z.leb_le in Hok.
  - destruct Hok as [[[He H7] Hlen] Hsh]. rewrite Hlen. destruct (Z.ltb_spec 60 (Z.shiftr tag 2 + 1)); [split; lia|].
    split; [by intros|lia].
  - destruct Hok as [[[[He H7] Hlen] Hl1] Hl2]. rewrite He in *. injection Hm as <-.
    destruct (Z.ltb_spec (zlen l - (ip + 1)) 1); [lia|]. rewrite or_bytes_spec by (done || lia).
    rewrite (load_le32_masked l (ip + 1) 1 255 w) by (done || lia). rewrite Z.add_0_r, Z.mul_0_r, Z.shiftl_0_r, H7.
    destruct (proj2 (zget_is_Some l (ip + 1))) as [b Hb]; [lia|].
    assert (Hv : le_val (ztake 1 (zdrop (ip + 1) l)) = b).
    { unfold zget in Hb. destruct (Z.ltb_spec (ip + 1) 0); [lia|]. unfold ztake, zdrop. rewrite (drop_S _ _ _ Hb).
      change (b + 256 * 0 = b). lia. }
    change (Z.of_nat 1) with 1. rewrite Hv, lor_high_byte by (done || by eapply zget_byte). rewrite <- Hlen.
    pose proof (zget_byte _ _ _ Hl Hb) as Hbb. unfold is_byte in Hbb, Htag.
    assert (0 <= Z.shiftl (Z.shiftr tag 5) 8 < 2 ^ 32).
    { rewrite Z.shiftl_mul_pow2, Z.shiftr_div_pow2 by lia. Z.div_mod_to_equations; lia. }
    split_and!; done || lia.
  - destruct Hok as [[[[He H7] Hlen] Hl1] Hl2]. rewrite He in *. injection Hm as <-.
    destruct (Z.ltb_spec (zlen l - (ip + 1)) 2); [lia|]. rewrite or_bytes_spec by (done || lia).
    rewrite (load_le32_masked l (ip + 1) 2 0xffff w) by (done || lia). rewrite Z.add_0_r, Z.mul_0_r, Z.shiftl_0_r, Z.lor_0_l, H7, Hlen.
    specialize (Hpos 2 ltac:(lia)). rewrite Z.add_0_l. split_and!; done || lia.
  - destruct Hok as [[[[He H7] Hlen] Hl1] Hl2]. rewrite He in *. injection Hm as <-.
    destruct (Z.ltb_spec (zlen l - (ip + 1)) 4); [lia|]. rewrite or_bytes_spec by (done || lia).
    rewrite (load_le32_masked l (ip + 1) 4 0xffffffff w) by (done || lia). rewrite Z.add_0_r, Z.mul_0_r, Z.shiftl_0_r, Z.lor_0_l, H7, Hlen.
    specialize (Hpos 4 ltac:(lia)). rewrite Z.add_0_l. split_and!; done || lia.
Qed.

(** ** Simulation *)

(** A round's answer against the reference step's. *)
Definition agrees (size : Z) (r : status + list Z * Z * Z) (rr : status + list Z * Z) : Prop :=
  match r, rr with
  | inl f, inl f' => f = f'
  | inr (out', ip', op'), inr (acc', ip'') => ip' = ip'' /\ op' = zlen acc' /\ zlen out' = size /\ produced out' acc'
  | _, _ => False
  end.

Lemma copy_in_produced l s out a n : produced out a -> 0 <= s -> 0 <= n -> s + n <= zlen l -> zlen a + n <= zlen out ->
  exists out', copy_in l s out (zlen a) n = Some out' /\ zlen out' = zlen out /\
    produced out' (a ++ ztake n (zdrop s l)).
Proof.
  intros Hp Hs Hn Hf Hr. unfold copy_in. destruct (Z.leb_spec 0 s), (Z.leb_spec (s + n) (zlen l)); try lia. cbn [andb].
  destruct (store_produced out a (ztake n (zdrop s l)) Hp) as (out' & Hst & Hl & Hp' & _);
    [rewrite zlen_ztake, zlen_zdrop; lia|]. by exists out'.
Qed.

Section Simulation.
Context (l : list Z) (Hl : bytes_ok l) (Hsize : zlen l < 2 ^ 60).

Definition element_ok (e : element) : Prop :=
  match e with Literal len => 1 <= len | Copy offset len => 0 <= offset /\ 1 <= len end.

Lemma exact_agrees out acc ip e : produced out acc -> 0 <= ip -> element_ok e ->
  exists r, snappy_exact l out ip (zlen acc) e = Some r /\ agrees (zlen out) r (snappy_ref_step l (zlen out) ip acc e).
Proof using.
  intros Hp Hip He. destruct e as [len|offset len]; cbn [snappy_exact snappy_ref_step element_ok] in *.
  - destruct (Z.ltb_spec (zlen l - ip) len); [by eexists|]. destruct (Z.ltb_spec (zlen out - zlen acc) len); [by eexists|].
    destruct (copy_in_produced l ip out acc len Hp) as (out' & -> & Hl' & Hp'); [lia..|].
    eexists. split; [done|]. cbn. split_and!; [done| |done|done]. rewrite zlen_app, zlen_ztake, zlen_zdrop by lia. lia.
  - destruct (Z.eqb_spec offset 0); cbn [orb]; [by eexists|]. destruct (Z.ltb_spec (zlen acc) offset); [by eexists|].
    destruct (Z.leb_spec (len + 16) (zlen out - zlen acc)).
    + destruct (copy_match_wild_spec acc offset ltac:(lia) out len Hp) as (out' & -> & Hl' & Hp'); [lia..|].
      destruct (Z.ltb_spec (zlen out - zlen acc) len); [lia|]. eexists. split; [done|]. cbn.
      rewrite zlen_lz_copy. split_and!; done || lia.
    + destruct (Z.ltb_spec (zlen out - zlen acc) len); [by eexists|].
      destruct (copy_match_spec acc offset ltac:(lia) out len Hp) as (out' & -> & Hl' & Hp' & _); [lia..|].
      eexists. split; [done|]. cbn. rewrite zlen_lz_copy. split_and!; done || lia.
Qed.

(** The branch-free step: sixteen bytes moved, [len] of them kept. *)
Lemma fast_literal out acc ip len : produced out acc -> 0 <= ip -> ip + 16 <= zlen l -> 0 <= len <= 16 ->
  zlen acc + 16 <= zlen out ->
  exists out1 out2, copy_in l ip out (zlen acc) 8 = Some out1 /\ copy_in l (ip + 8) out1 (zlen acc + 8) 8 = Some out2 /\
    zlen out2 = zlen out /\ produced out2 (acc ++ ztake len (zdrop ip l)).
Proof using.
  intros Hp Hip Hr Hlen Hroom. destruct (copy_in_produced l ip out acc 8 Hp) as (out1 & Hc1 & Hl1 & Hp1); [lia..|].
  assert (Hz : zlen (acc ++ ztake 8 (zdrop ip l)) = zlen acc + 8) by (rewrite zlen_app, zlen_ztake, zlen_zdrop; lia).
  destruct (copy_in_produced l (ip + 8) out1 _ 8 Hp1) as (out2 & Hc2 & Hl2 & Hp2); [lia..|].
  rewrite Hz in Hc2. exists out1, out2. split_and!; [done|done|lia|].
  assert (H16 : (acc ++ ztake 8 (zdrop ip l)) ++ ztake 8 (zdrop (ip + 8) l) =
    (acc ++ ztake len (zdrop ip l)) ++ zdrop len (ztake 16 (zdrop ip l))).
  { rewrite <- !app_assoc. f_equal. rewrite <- (ztake_ztake len 16), ztake_zdrop by lia.
    rewrite <- (zdrop_zdrop 8 ip), <- (ztake_ztake 8 16) by lia.
    change (ztake 8 (zdrop 8 (zdrop ip l))) with (ztake (16 - 8) (zdrop 8 (zdrop ip l))).
    by rewrite <- zdrop_ztake, ztake_zdrop by lia. }
  rewrite H16 in Hp2. by apply produced_prefix in Hp2.
Qed.

Lemma fast_copy out acc offset len : produced out acc -> 8 <= offset <= zlen acc -> 0 <= len <= 16 ->
  zlen acc + 16 <= zlen out ->
  exists out1 out2, copy_within out (zlen acc) (zlen acc - offset) 8 = Some out1 /\
    copy_within out1 (zlen acc + 8) (zlen acc - offset + 8) 8 = Some out2 /\
    zlen out2 = zlen out /\ produced out2 (lz_copy acc offset (Z.to_nat len)).
Proof using.
  intros Hp Ho Hlen Hroom.
  destruct (chunk_spec acc offset ltac:(lia) out 0 8 1 Hp) as (out1 & Hc1 & Hl1 & Hp1 & _); [lia..|].
  destruct (chunk_spec acc offset ltac:(lia) out1 8 8 1 Hp1) as (out2 & Hc2 & Hl2 & Hp2 & _); [lia..|].
  rewrite Z.mul_1_l, ?Z.add_0_r in *. exists out1, out2. split_and!; [done|by rewrite <- Hc2; f_equal; lia|lia|].
  apply (produced_shorter acc offset ltac:(lia) _ _ (8 + 8)); [lia|done].
Qed.

(** The fast path, when it takes an element, does what the reference does. *)
Lemma fast_agrees out acc ip tag : produced out acc -> zlen out < 2 ^ 60 -> 0 <= ip -> ip < zlen l - 16 -> zlen acc < zlen out - 80 ->
  zget l ip = Some tag ->
  exists r, snappy_fast l out ip (zlen acc) tag = Some r /\
  forall st, r = Some st -> exists e ip1, snappy_element l (ip + 1) tag = Some (inr (e, ip1)) /\ 
    agrees (zlen out) (inr st) (snappy_ref_step l (zlen out) ip1 acc e).
Proof using Hl Hsize.
  intros Hp Hout Hip Hr Hroom Hg. pose proof (zget_byte _ _ _ Hl Hg) as Htag. pose proof (zlen_nonneg acc).
  unfold snappy_fast. cbv zeta.
  assert (Hw : exists w, load_le32 l (ip + 1) = Some w).
  { unfold load_le32. destruct (Z.leb_spec 0 (ip + 1)), (Z.leb_spec (ip + 1 + 4) (zlen l)); try lia. eauto. }
  destruct Hw as [w Hw]. rewrite Hw.
  assert (Hm : exists mask, zget snappy_extra_mask (Z.shiftr (snappy_table tag) 11) = Some mask).
  { pose proof (table_ok_all tag Htag) as Hok. unfold table_ok in Hok. cbv zeta in Hok.
    destruct (Z.land tag 3) as [|[[]|[]|]|]; try done; rewrite !andb_true_iff, !Z.eqb_eq in Hok;
      destruct_and! Hok; match goal with H : Z.shiftr _ 11 = _ |- _ => rewrite H end; by eexists. }
  destruct Hm as [mask Hm]. rewrite Hm.
  pose proof (fast_element l ip tag w mask Hl Hip ltac:(lia) Hg Hw Hm) as Hfe. cbv zeta in Hfe.
  set (len := Z.land (snappy_table tag) 255) in *. set (extra := Z.shiftr (snappy_table tag) 11) in *.
  set (offset := Z.land (snappy_table tag) 1792 + Z.land w mask) in *.
  destruct (Z.eqb_spec (Z.land tag 3) 0) as [H0|H0]; cbn [negb andb orb].
  - destruct Hfe as [Hfe Hl0]. rewrite H0. cbn [Z.eqb]. rewrite !orb_false_r.
    destruct (Z.leb_spec 16 (u64 (len - 1))) as [Hs|Hs]; cbn [negb]; [by eexists|].
    assert (1 <= len) by (destruct (decide (len = 0)) as [E|]; [rewrite E in Hs; by vm_compute in Hs|lia]).
    assert (Hl16 : len - 1 < 16).
    { destruct (Z.le_gt_cases 16 (len - 1)); [|lia]. exfalso. revert Hs. apply Z.le_ngt. unfold wrap.
      assert (len < 256) by (unfold len; change 255 with (Z.ones 8); rewrite Z.land_ones by lia; apply Z.mod_pos_bound; lia).
      rewrite Z.mod_small by lia. lia. }
    destruct (Hfe ltac:(lia)) as [He Hlen].
    destruct (fast_literal out acc (ip + 1) len Hp) as (out1 & out2 & -> & -> & Hl2 & Hp2); [lia..|].
    eexists. split; [done|]. intros st [= <-]. exists (Literal len), (ip + 1). split; [done|]. cbn.
    destruct (Z.ltb_spec (zlen l - (ip + 1)) len); [lia|]. destruct (Z.ltb_spec (zlen out - zlen acc) len); [lia|].
    rewrite zlen_app, zlen_ztake, zlen_zdrop by lia. split_and!; [lia|lia|done|done].
  - destruct Hfe as (He & Hlen & Hoff & Hext & Hext0).
    assert (Hu : u64 (len - 1) = len - 1) by (apply wrap_small; lia). rewrite Hu.
    destruct (Z.leb_spec 16 (len - 1)), (Z.eqb_spec (Z.land tag 3) 3), (Z.ltb_spec offset 8), (Z.ltb_spec (zlen acc) offset);
      cbn [orb negb andb]; try (
        destruct (Z.leb_spec len 64); [|lia]; cbn [andb];
        destruct (Z.ltb_spec (u64 (offset - 1)) (zlen acc)) as [Hlt|]; [|by eexists];
        assert (1 <= offset <= zlen acc) by (
          destruct (decide (offset = 0)) as [E|]; [rewrite E in Hlt; unfold wrap in Hlt; change ((0 - 1) mod 2 ^ 64) with (2 ^ 64 - 1) in Hlt; lia|];
          rewrite wrap_small in Hlt by lia; lia);
        destruct (copy_match_wild_spec acc offset ltac:(lia) out len Hp) as (out' & -> & Hl' & Hp'); [lia..|];
        eexists; split; [done|]; intros st [= <-]; exists (Copy offset len), (ip + 1 + extra); split; [done|]; cbn;
        destruct (Z.eqb_spec offset 0); [lia|]; cbn [orb]; destruct (Z.ltb_spec (zlen acc) offset); [lia|];
        destruct (Z.ltb_spec (zlen out - zlen acc) len); [lia|]; rewrite zlen_lz_copy; split_and!; done || lia).
    destruct (fast_copy out acc offset len Hp) as (out1 & out2 & -> & -> & Hl2 & Hp2); [lia..|].
    eexists. split; [done|]. intros st [= <-]. exists (Copy offset len), (ip + 1 + extra). split; [done|]. cbn.
    destruct (Z.eqb_spec offset 0); [lia|]. cbn [orb]. destruct (Z.ltb_spec (zlen acc) offset); [lia|].
    destruct (Z.ltb_spec (zlen out - zlen acc) len); [lia|]. rewrite zlen_lz_copy. split_and!; done || lia.
Qed.

Lemma element_total ip tag : 0 <= ip <= zlen l -> is_byte tag ->
  exists r, snappy_element l ip tag = Some r /\ forall e ip', r = inr (e, ip') -> element_ok e /\ ip <= ip'.
Proof using Hl.
  intros Hip Htag. unfold is_byte in Htag. unfold snappy_element.
  assert (Hsh : 0 <= Z.shiftr tag 2 < 64) by (rewrite Z.shiftr_div_pow2 by lia; Z.div_mod_to_equations; lia).
  assert (H7 : 0 <= Z.land (Z.shiftr tag 2) 7) by (apply Z.land_nonneg; lia).
  assert (Hle : forall k n, 0 <= le_val (ztake n (zdrop k l))).
  { intros k n. apply (le_val_range (ztake n (zdrop k l))). auto using bytes_ok_ztake, bytes_ok_zdrop. }
  assert (Hor : forall a n, 0 <= a -> 0 <= Z.lor a (Z.shiftl (le_val (ztake n (zdrop (ip + 0) l))) (8 * 0))).
  { intros a n Ha. apply Z.lor_nonneg. split; [done|]. apply Z.shiftl_nonneg, Hle. }
  destruct (Z.eqb_spec (Z.land tag 3) 0); [destruct (Z.ltb_spec 60 (Z.shiftr tag 2 + 1))|
    destruct (Z.eqb_spec (Z.land tag 3) 1); [|destruct (Z.eqb_spec (Z.land tag 3) 2)]].
  2: { eexists. split; [done|]. intros el ip' [= <- <-]. cbn. lia. }
  all: match goal with |- context [?x <? ?k] => destruct (Z.ltb_spec x k); [by eexists|] end;
    rewrite or_bytes_spec by (done || lia); eexists; (split; [done|]); intros el ip' [= <- <-]; cbn [element_ok].
  - specialize (Hor 0 (Z.of_nat (Z.to_nat (Z.shiftr tag 2 + 1 - 60))) ltac:(lia)). lia.
  - assert (0 <= Z.shiftl (Z.shiftr tag 5) 8) by (apply Z.shiftl_nonneg, Z.shiftr_nonneg; lia).
    specialize (Hor (Z.shiftl (Z.shiftr tag 5) 8) (Z.of_nat 1) ltac:(lia)). lia.
  - specialize (Hor 0 (Z.of_nat 2) ltac:(lia)). lia.
  - specialize (Hor 0 (Z.of_nat 4) ltac:(lia)). lia.
Qed.

Lemma ref_step_progress size ip acc e acc' ip' : element_ok e ->
  snappy_ref_step l size ip acc e = inr (acc', ip') -> ip <= ip'.
Proof using.
  intros He. destruct e as [len|offset len]; cbn [snappy_ref_step element_ok] in *.
  - destruct (_ <? _); [done|]. destruct (_ <? _); [done|]. intros [= <- <-]. lia.
  - destruct (_ || _); [done|]. destruct (_ <? _); [done|]. intros [= <- <-]. lia.
Qed.

(** A round agrees with the reference step of its element. *)
Lemma round_agrees out acc ip tag : produced out acc -> zlen out < 2 ^ 60 -> 0 <= ip -> zget l ip = Some tag ->
  exists r el, snappy_round l out ip (zlen acc) = Some r /\ snappy_element l (ip + 1) tag = Some el /\
  match el with
  | inl f => r = inl f
  | inr (e, ip1) => agrees (zlen out) r (snappy_ref_step l (zlen out) ip1 acc e) /\ element_ok e /\ ip + 1 <= ip1
  end.
Proof using Hl Hsize.
  intros Hp Hout Hip Hg. pose proof (zget_Some_range _ _ _ Hg) as Hr. pose proof (zget_byte _ _ _ Hl Hg) as Htag.
  unfold snappy_round. rewrite Hg.
  destruct (element_total (ip + 1) tag ltac:(lia) Htag) as (el & Hel & Hok). rewrite Hel.
  set (fast := (ip <? (if 16 <=? zlen l then zlen l - 16 else 0)) && (zlen acc <? (if 80 <=? zlen out then zlen out - 80 else 0))).
  assert (Hfast : exists r, (if fast then snappy_fast l out ip (zlen acc) tag else Some None) = Some r /\
    forall st, r = Some st -> exists e ip1, el = inr (e, ip1) /\ agrees (zlen out) (inr st) (snappy_ref_step l (zlen out) ip1 acc e)).
  { destruct fast eqn:Ef; [|by exists None]. unfold fast in Ef. apply andb_true_iff in Ef as [E1%Z.ltb_lt E2%Z.ltb_lt].
    pose proof (zlen_nonneg acc). destruct (Z.leb_spec 16 (zlen l)); [|lia]. destruct (Z.leb_spec 80 (zlen out)); [|lia].
    destruct (fast_agrees out acc ip tag Hp Hout Hip E1 E2 Hg) as (r & Hr' & Hst). exists r. split; [done|].
    intros st Hs. destruct (Hst st Hs) as (e & ip1 & He & Ha). exists e, ip1. split; [congruence|done]. }
  destruct Hfast as ([st|] & -> & Hst).
  - destruct (Hst st eq_refl) as (e & ip1 & -> & Ha). destruct (Hok e ip1 eq_refl). exists (inr st), (inr (e, ip1)). done.
  - destruct el as [f|[e ip1]]; [by exists (inl f), (inl f)|]. destruct (Hok e ip1 eq_refl) as [He Hi].
    destruct (exact_agrees out acc ip1 e Hp ltac:(lia) He) as (r & Hr' & Ha). exists r, (inr (e, ip1)). done.
Qed.

Lemma loop_agrees fuel out acc ip : produced out acc -> zlen out < 2 ^ 60 -> 0 <= ip -> zlen l - ip <= Z.of_nat fuel ->
  exists st out', snappy_loop fuel l out ip (zlen acc) = Some (st, out') /\ zlen out' = zlen out /\
  match snappy_ref_loop fuel l (zlen out) ip acc with
  | Some (inr a) => st = Produced (zlen out) /\ out' = a
  | Some (inl f) => st = f
  | None => False
  end.
Proof using Hl Hsize.
  revert out acc ip. induction fuel as [|fuel IH]; intros out acc ip Hp Hout Hip Hf;
    cbn [snappy_loop snappy_ref_loop]; destruct (Z.ltb_spec ip (zlen l)); try lia.
  1, 3: destruct (Z.eqb_spec (zlen acc) (zlen out)) as [He|]; cbn [negb]; eexists _, out; split_and!; try done;
    destruct Hp as [_ Ht]; rewrite He in Ht; by rewrite ztake_all in Ht by lia.
  destruct (proj2 (zget_is_Some l ip)) as [tag Hg]; [lia|]. rewrite Hg.
  destruct (round_agrees out acc ip tag Hp Hout Hip Hg) as (r & el & -> & -> & Ha).
  destruct el as [f|[e ip1]]; [subst r; by exists f, out|]. destruct Ha as (Ha & He & Hi).
  destruct (snappy_ref_step l (zlen out) ip1 acc e) as [f|[acc' ip']] eqn:Hs, r as [f'|[[out' ip2] op']]; cbn [agrees] in Ha; try done.
  - subst f'. by exists f, out.
  - destruct Ha as (-> & -> & Hlo & Hp'). pose proof (ref_step_progress _ _ _ _ _ _ He Hs).
    rewrite <- Hlo. apply IH; done || lia.
Qed.
End Simulation.

(** ** The format

    A block is a 32-bit varint, the number of bytes it stands for, and then
    elements up to its end. The two low bits of an element's first byte are its
    kind. *)

(** The element of first byte [tag], and what follows its header:
    - kind 0, a literal: the six high bits are its length less one, up to 59;
      from 60 on they say how many bytes (one to four) hold it;
    - kind 1, a copy of 4 to 11 bytes: its offset is the three high bits, then a byte;
    - kinds 2 and 3, a copy of 1 to 64 bytes: its offset is two bytes, or four. *)
Definition format_element (tag : Z) (l : list Z) : option (element * list Z) :=
  let number n := if zlen l <? n then None else Some (le_val (ztake n l), zdrop n l) in
  match tag mod 4 with
  | 0 =>
      if tag / 4 <? 60 then Some (Literal (tag / 4 + 1), l)
      else match number (tag / 4 - 59) with Some (n, l) => Some (Literal (n + 1), l) | None => None end
  | 1 => match l with b :: l => Some (Copy (tag / 32 * 256 + b) (tag / 4 mod 8 + 4), l) | [] => None end
  | 2 => match number 2 with Some (o, l) => Some (Copy o (tag / 4 + 1), l) | None => None end
  | _ => match number 4 with Some (o, l) => Some (Copy o (tag / 4 + 1), l) | None => None end
  end.

(** The bytes of the elements of [l], behind the bytes [acc]; an element takes a
    byte at least, so [length l] rounds are enough. *)
Fixpoint format_bytes (fuel : nat) (l acc : list Z) : option (list Z) :=
  match l, fuel with
  | [], _ => Some acc
  | _ :: _, O => None
  | tag :: l, S fuel =>
      match format_element tag l with
      | None => None
      | Some (Literal n, l) => if zlen l <? n then None else format_bytes fuel (zdrop n l) (acc ++ ztake n l)
      | Some (Copy offset n, l) =>
          if (1 <=? offset) && (offset <=? zlen acc) then format_bytes fuel l (lz_copy acc offset (Z.to_nat n)) else None
      end
  end.

(** The bytes a block stands for, if it is one. *)
Definition snappy_bytes (l : list Z) : option (list Z) :=
  match varint_at 32 l with
  | None => None
  | Some (n, k) =>
      match format_bytes (List.length l) (zdrop k l) [] with
      | Some d => if zlen d =? n then Some d else None
      | None => None
      end
  end.

Lemma land_3 tag : Z.land tag 3 = tag mod 4.
Proof. change 3 with (Z.ones 2). by rewrite Z.land_ones. Qed.

Section Format.
Context (l : list Z) (Hl : bytes_ok l).

(** The code's element is the format's. *)
Lemma element_format ip tag : 0 <= ip <= zlen l -> is_byte tag ->
  match format_element tag (zdrop ip l) with
  | None => exists w, snappy_element l ip tag = Some (inl (Failed w ip))
  | Some (e, r) => exists ip', snappy_element l ip tag = Some (inr (e, ip')) /\ ip <= ip' <= zlen l /\ r = zdrop ip' l /\ element_ok e
  end.
Proof using Hl.
  intros Hip Htag. unfold is_byte in Htag. unfold format_element, snappy_element. cbv zeta. rewrite !land_3.
  assert (Hzl : zlen (zdrop ip l) = zlen l - ip) by (rewrite zlen_zdrop by lia; lia). rewrite Hzl.
  assert (Hsh : Z.shiftr tag 2 = tag / 4) by (by rewrite Z.shiftr_div_pow2).
  assert (Hq : 0 <= tag / 4 < 64) by (Z.div_mod_to_equations; lia).
  assert (Hle : forall n, 0 <= le_val (ztake n (zdrop ip l))).
  { intros n. apply (le_val_range (ztake n (zdrop ip l))). auto using bytes_ok_ztake, bytes_ok_zdrop. }
  pose proof (Z.mod_pos_bound tag 4 ltac:(lia)). rewrite Hsh.
  assert (Hc : tag mod 4 = 0 \/ tag mod 4 = 1 \/ tag mod 4 = 2 \/ tag mod 4 = 3) by lia.
  destruct Hc as [-> | [-> | [-> | ->]]]; cbn [Z.eqb Pos.eqb].
  - destruct (Z.ltb_spec (tag / 4) 60), (Z.ltb_spec 60 (tag / 4 + 1)); try lia.
    { exists ip. cbn. split_and!; done || lia. }
    replace (tag / 4 + 1 - 60) with (tag / 4 - 59) by lia. destruct (Z.ltb_spec (zlen l - ip) (tag / 4 - 59)); [cbn beta iota; by eexists|].
    rewrite or_bytes_spec by (done || lia). rewrite Z2Nat.id, Z.add_0_r, Z.mul_0_r, Z.shiftl_0_r, Z.lor_0_l by lia.
    cbn beta iota. eexists. split; [done|]. rewrite zdrop_zdrop by lia. specialize (Hle (tag / 4 - 59)). cbn. split_and!; done || lia.
  - destruct (zdrop ip l) as [|b r] eqn:E.
    { change (@zlen Z []) with 0 in Hzl. destruct (Z.ltb_spec (zlen l - ip) 1); [cbn beta iota; by eexists|lia]. }
    rewrite zlen_cons in Hzl. pose proof (zlen_nonneg r).
    destruct (Z.ltb_spec (zlen l - ip) 1); [lia|]. rewrite or_bytes_spec by (done || lia). rewrite Z.add_0_r, Z.mul_0_r, Z.shiftl_0_r, E.
    assert (Hb : is_byte b) by (pose proof (bytes_ok_zdrop ip l Hl) as Hb; rewrite E in Hb; by inversion Hb).
    assert (Hv : le_val (ztake (Z.of_nat 1) (b :: r)) = b) by (change (b + 256 * 0 = b); lia).
    rewrite Hv, lor_high_byte by done. exists (ip + 1). rewrite Z.shiftl_mul_pow2, Z.shiftr_div_pow2 by lia. change (2 ^ 5) with 32. change (2 ^ 8) with 256.
    change 7 with (Z.ones 3). rewrite Z.land_ones by lia. change (2 ^ 3) with 8. split; [done|]. split; [lia|].
    rewrite <- zdrop_zdrop, E by lia. cbn. unfold is_byte in Hb. split; [done|]. Z.div_mod_to_equations; lia.
  - destruct (Z.ltb_spec (zlen l - ip) 2); [cbn beta iota; by eexists|]. rewrite or_bytes_spec by (done || lia). rewrite Z.add_0_r, Z.mul_0_r, Z.shiftl_0_r, Z.lor_0_l.
    cbn beta iota. eexists. split; [done|]. rewrite zdrop_zdrop by lia. specialize (Hle 2). cbn [element_ok]. change (Z.of_nat 2) with 2. split_and!; done || lia.
  - destruct (Z.ltb_spec (zlen l - ip) 4); [cbn beta iota; by eexists|]. rewrite or_bytes_spec by (done || lia). rewrite Z.add_0_r, Z.mul_0_r, Z.shiftl_0_r, Z.lor_0_l.
    cbn beta iota. eexists. split; [done|]. rewrite zdrop_zdrop by lia. specialize (Hle 4). cbn [element_ok]. change (Z.of_nat 4) with 4. split_and!; done || lia.
Qed.

Lemma format_grows fuel : forall r acc d, bytes_ok r -> format_bytes fuel r acc = Some d -> zlen acc <= zlen d.
Proof using.
  induction fuel as [|fuel IH]; intros [|tag r] acc d Hr; cbn [format_bytes]; try done; [by intros [= ->]..|].
  inversion Hr as [|? ? _ Hr']; subst; clear Hr; rename Hr' into Hr. assert (Hs : forall e r', format_element tag r = Some (e, r') -> bytes_ok r').
  { intros e r'. unfold format_element. cbv zeta. repeat case_match; intros; simplify_eq; auto using bytes_ok_zdrop. by inversion Hr. }
  destruct (format_element tag r) as [[[n|o n] r']|] eqn:E; [| |done]; specialize (Hs _ _ eq_refl).
  - destruct (zlen r' <? n); [done|]. intros Hd%IH; [|auto using bytes_ok_zdrop]. rewrite zlen_app in Hd. pose proof (zlen_nonneg (ztake n r')). lia.
  - destruct (_ && _); [|done]. intros Hd%IH; [|done]. rewrite zlen_lz_copy in Hd. lia.
Qed.

(** The element-by-element decoder of a buffer of [size] bytes against it. *)
Lemma loop_format size fuel : forall ip acc, 0 <= ip <= zlen l -> zlen l - ip <= Z.of_nat fuel -> zlen acc <= size ->
  match snappy_ref_loop fuel l size ip acc with
  | Some (inr a) => format_bytes fuel (zdrop ip l) acc = Some a /\ zlen a = size
  | Some (inl f) => (exists w at_, f = Failed w at_ /\ 0 <= at_ <= zlen l) /\ forall d, format_bytes fuel (zdrop ip l) acc = Some d -> zlen d <> size
  | None => False
  end.
Proof using Hl.
  induction fuel as [|fuel IH]; intros ip acc Hip Hf Ha; cbn [snappy_ref_loop]; destruct (Z.ltb_spec ip (zlen l)); try lia.
  1, 3: rewrite zdrop_all by lia; cbn [format_bytes]; destruct (Z.eqb_spec (zlen acc) size); [done|]; split; [by eexists _, _|by intros d [= <-]].
  destruct (proj2 (zget_is_Some l ip)) as [tag Hg]; [lia|]. rewrite Hg. pose proof (zget_byte _ _ _ Hl Hg) as Htag.
  rewrite (zdrop_cons_get l ip tag Hg). cbn [format_bytes]. pose proof (element_format (ip + 1) tag ltac:(lia) Htag) as He.
  destruct (format_element tag (zdrop (ip + 1) l)) as [[e r]|]; [|destruct He as [w ->]; split; [eexists _, _; split; [done|lia]|done]].
  destruct He as (ip' & -> & Hip' & -> & Hok). destruct e as [n|o n]; cbn [snappy_ref_step element_ok] in *; rewrite ?zlen_zdrop by lia; rewrite ?Z.max_r by lia.
  - destruct (Z.ltb_spec (zlen l - ip') n); [split; [eexists _, _; split; [done|lia]|done]|].
    assert (Hz : zlen (ztake n (zdrop ip' l)) = n) by (rewrite zlen_ztake, zlen_zdrop by lia; lia). rewrite zdrop_zdrop by lia.
    destruct (Z.ltb_spec (size - zlen acc) n).
    + split; [eexists _, _; split; [done|lia]|]. intros d Hd%format_grows; [|by apply bytes_ok_zdrop]. rewrite zlen_app, Hz in Hd. lia.
    + apply IH; [lia|lia|rewrite zlen_app, Hz; lia].
  - destruct (Z.eqb_spec o 0), (Z.leb_spec 1 o), (Z.ltb_spec (zlen acc) o), (Z.leb_spec o (zlen acc)); try lia; cbn [orb andb];
      try (split; [eexists _, _; split; [done|lia]|done]).
    destruct (Z.ltb_spec (size - zlen acc) n).
    + split; [eexists _, _; split; [done|lia]|]. intros d Hd%format_grows; [|by apply bytes_ok_zdrop]. rewrite zlen_lz_copy in Hd. lia.
    + apply IH; [lia|lia|rewrite zlen_lz_copy; lia].
Qed.
End Format.

(** The decoder with its fast paths is the one without. *)
Lemma snappy_decompress_ref l out :
  bytes_ok l -> zlen l < 2 ^ 60 -> zlen out < 2 ^ 60 ->
  exists st out', snappy_decompress l out = Some (st, out') /\ zlen out' = zlen out /\
  match snappy_ref l (zlen out) with
  | Some (inr a) => st = Produced (zlen out) /\ out' = a
  | Some (inl f) => st = f
  | None => False
  end.
Proof.
  intros Hl Hsz Hout. unfold snappy_decompress, snappy_ref, varint_u32. pose proof (zlen_nonneg l).
  pose proof (read_uleb128_at 32 l (Input 0 (zlen l) 0 false None 0) ltac:(lia) Hl ltac:(cbn; lia) eq_refl ltac:(lia)) as Hv.
  cbn [i_first] in Hv. rewrite zdrop_0 in Hv. destruct (varint_at 32 l) as [[v k]|] eqn:Hk.
  - rewrite Hv. cbn. apply varint_at_range in Hk.
    destruct (Z.eqb_spec v (zlen out)); cbn [negb]; [|by eexists _, out].
    apply (loop_agrees l Hl Hsz (List.length l) out []); [split; [apply zlen_nonneg|done]|done|lia|unfold zlen in *; lia].
  - destruct Hv as [e ->]. by eexists _, out.
Qed.

(** C7: [snappy_decompress] implements the block format. Whatever the block and
    whatever the output held, it returns, without reading or writing outside the
    two buffers. When the block stands for as many bytes as the output has room
    for, the output is exactly those bytes; in every other case (a bad preamble, a
    cut element, a copy from outside the output, bytes too few or too many) it
    reports a failure at a place of the block. No fast path is observable. *)
Theorem snappy_refines l out :
  bytes_ok l -> zlen l < 2 ^ 60 -> zlen out < 2 ^ 60 ->
  exists st out', snappy_decompress l out = Some (st, out') /\ zlen out' = zlen out /\
  match snappy_bytes l with
  | Some d => if zlen d =? zlen out then st = Produced (zlen out) /\ out' = d else exists what at_, st = Failed what at_ /\ 0 <= at_ <= zlen l
  | None => exists what at_, st = Failed what at_ /\ 0 <= at_ <= zlen l
  end.
Proof.
  intros Hl Hsz Hout. destruct (snappy_decompress_ref l out Hl Hsz Hout) as (st & out' & E & Hz & Hr). exists st, out'. split; [done|]. split; [done|].
  unfold snappy_ref in Hr. unfold snappy_bytes. pose proof (zlen_nonneg l).
  destruct (varint_at 32 l) as [[v k]|] eqn:Hk; [|subst st; eexists _, _; split; [done|lia]]. apply varint_at_range in Hk.
  destruct (Z.eqb_spec v (zlen out)) as [->|Hv].
  - pose proof (loop_format l Hl (zlen out) (List.length l) k [] ltac:(lia) ltac:(unfold zlen in *; lia) ltac:(apply zlen_nonneg)) as Hf.
    destruct snappy_ref_loop as [[f|a]|]; [| |done].
    + destruct Hf as [Hf Hno]. rewrite <- Hr in Hf. destruct format_bytes as [d|]; [|exact Hf]. specialize (Hno d eq_refl).
      destruct (Z.eqb_spec (zlen d) (zlen out)); [done|exact Hf].
    + destruct Hf as [-> Ha]. by rewrite Ha, Z.eqb_refl, Ha, Z.eqb_refl.
  - subst st. destruct format_bytes as [d|]; [|by eexists _, _; split; [done|lia]]. destruct (Z.eqb_spec (zlen d) v) as [<-|]; [|by eexists _, _; split; [done|lia]].
    destruct (Z.eqb_spec (zlen d) (zlen out)); [lia|]. eexists _, _. split; [done|lia].
Qed.

Lemma snappy_refines_witness : snappy_decompress [5; 4; 97; 98; 2; 2; 0] [0; 0; 0; 0; 0] <> None /\
  exists st out', snappy_decompress [5; 4; 97; 98; 10; 2; 0] [0; 0; 0; 0; 0] = Some (st, out') /\ st = Produced 5 /\ out' = [97; 98; 97; 98; 97].
Proof.
  split; [by vm_compute|].
  destruct (snappy_refines [5; 4; 97; 98; 10; 2; 0] [0; 0; 0; 0; 0] ltac:(repeat constructor; lia) ltac:(by vm_compute)
    ltac:(by vm_compute)) as (st & out' & H & Hz & Hd).
  exists st, out'. split; [exact H|exact Hd].
Defined.
