(* ===== verification/Lz4.v ===== *)
(** * LZ4 block decompression (codec.hpp section 31)

    The decoder with its fast paths, and the plain sequence-by-sequence
    reference it refines. Conventions as for Snappy. *)
From Stdlib Require Import String.
From S2P Require Import Prelude Columnar LzCopy Snappy.

(** The lambda [ext_len]: the extended length ([None]: truncated) and the cursor. *)
Fixpoint ext_loop (fuel : nat) (l : list Z) (ip len : Z) : option (option Z * Z) :=
  if zlen l <=? ip then Some (None, ip)
  else
    match fuel, zget l ip with
    | S fuel, Some b =>
        if size_max - b <? len then Some (None, ip + 1)
        else if negb (b =? 255) then Some (Some (len + b), ip + 1)
        else ext_loop fuel l (ip + 1) (len + b)
    | _, _ => None
    end.

Definition ext_len (l : list Z) (ip len : Z) : option (option Z * Z) :=
  if negb (len =? 15) then Some (Some len, ip) else ext_loop (List.length l) l ip len.

Inductive lz4_step :=
| Lz4Next (out : list Z) (ip op : Z)
| Lz4Last (out : list Z) (op : Z)
| Lz4Fail (f : status).

(** The literals of a sequence, [ip] behind the token. *)
Definition lz4_literals (l out : list Z) (ip op token : Z) : option (status + list Z * Z * Z) :=
  let lit := Z.shiftr token 4 in
  if (lit <? 15) && (16 <=? zlen l - ip) && (16 <=? zlen out - op) then
    match copy_in l ip out op 16 with
    | None => None
    | Some out' => Some (inr (out', ip + lit, op + lit))
    end
  else
    match ext_len l ip lit with
    | None => None
    | Some (None, ip) => Some (inl (Failed "lz4: truncated literal length" ip))
    | Some (Some lit, ip) =>
        if zlen l - ip <? lit then Some (inl (Failed "lz4: literals run past the input" ip))
        else if zlen out - op <? lit then Some (inl (Failed "lz4: literals overflow the output" ip))
        else match (if lit =? 0 then Some out else copy_in l ip out op lit) with
             | None => None
             | Some out' => Some (inr (out', ip + lit, op + lit))
             end
    end.

(** The match of a sequence, [ip] behind the literals. *)
Definition lz4_match (l out : list Z) (ip op token : Z) : option lz4_step :=
  if zlen l - ip <? 2 then Some (Lz4Fail (Failed "lz4: truncated match offset" ip))
  else
    match zget l ip, zget l (ip + 1) with
    | Some a, Some b =>
        let offset := Z.lor a (Z.shiftl b 8) in
        let ip := ip + 2 in
        if (offset =? 0) || (op <? offset) then Some (Lz4Fail (Failed "lz4: match offset outside the output" ip))
        else
          match ext_len l ip (Z.land token 15) with
          | None => None
          | Some (None, ip) => Some (Lz4Fail (Failed "lz4: truncated match length" ip))
          | Some (Some mlen, ip) =>
              let mlen := u64 (mlen + 4) in
              if u64 (mlen + 16) <=? zlen out - op then
                match copy_match_wild out op offset mlen with
                | None => None
                | Some out' => Some (Lz4Next out' ip (op + mlen))
                end
              else if zlen out - op <? mlen then Some (Lz4Fail (Failed "lz4: match overflows the output" ip))
              else match copy_match out op offset mlen with
                   | None => None
                   | Some out' => Some (Lz4Next out' ip (op + mlen))
                   end
          end
    | _, _ => None
    end.

Definition lz4_round (l out : list Z) (ip op : Z) : option lz4_step :=
  if zlen l <=? ip then Some (Lz4Fail (Failed "lz4: truncated sequence" ip))
  else
    match zget l ip with
    | None => None
    | Some token =>
        match lz4_literals l out (ip + 1) op token with
        | None => None
        | Some (inl f) => Some (Lz4Fail f)
        | Some (inr (out', ip', op')) =>
            if ip' =? zlen l then Some (Lz4Last out' op') else lz4_match l out' ip' op' token
        end
    end.

Fixpoint lz4_loop (fuel : nat) (l out : list Z) (ip op : Z) : option (status * list Z) :=
  match fuel with
  | O => None
  | S fuel =>
      match lz4_round l out ip op with
      | None => None
      | Some (Lz4Fail f) => Some (f, out)
      | Some (Lz4Last out' op') => Some (Produced op', out')
      | Some (Lz4Next out' ip' op') => lz4_loop fuel l out' ip' op'
      end
  end.

Definition lz4_block_decompress (l out : list Z) : option (status * list Z) :=
  if zlen l =? 0 then Some (Failed "lz4: empty block" 0, out)
  else lz4_loop (S (List.length l)) l out 0 0.

(** ** Specification *)

(** A length of 15 is followed by bytes to add, up to the first below 255. *)
Fixpoint ext_bytes (bs : list Z) (len ip : Z) : option Z * Z :=
  match bs with
  | [] => (None, ip)
  | b :: bs => if b =? 255 then ext_bytes bs (len + 255) (ip + 1) else (Some (len + b), ip + 1)
  end.

Definition lz4_length (l : list Z) (ip len : Z) : option Z * Z :=
  if len =? 15 then ext_bytes (zdrop ip l) 15 ip else (Some len, ip).

(** A sequence: literals appended, then (unless the block ends) a match. *)
Inductive lz4_ref_step := RNext (acc : list Z) (ip : Z) | RLast (acc : list Z) | RFail (f : status).

Definition lz4_ref_match (l : list Z) (size ip : Z) (acc : list Z) (token : Z) : lz4_ref_step :=
  if zlen l - ip <? 2 then RFail (Failed "lz4: truncated match offset" ip)
  else
    let offset := le_val (ztake 2 (zdrop ip l)) in
    let ip := ip + 2 in
    if (offset =? 0) || (zlen acc <? offset) then RFail (Failed "lz4: match offset outside the output" ip)
    else
      match lz4_length l ip (Z.land token 15) with
      | (None, ip) => RFail (Failed "lz4: truncated match length" ip)
      | (Some m, ip) =>
          if size - zlen acc <? m + 4 then RFail (Failed "lz4: match overflows the output" ip)
          else RNext (lz_copy acc offset (Z.to_nat (m + 4))) ip
      end.

Definition lz4_ref_round (l : list Z) (size ip : Z) (acc : list Z) : lz4_ref_step :=
  match zget l ip with
  | None => RFail (Failed "lz4: truncated sequence" ip)
  | Some token =>
      match lz4_length l (ip + 1) (Z.shiftr token 4) with
      | (None, ip) => RFail (Failed "lz4: truncated literal length" ip)
      | (Some n, ip) =>
          if zlen l - ip <? n then RFail (Failed "lz4: literals run past the input" ip)
          else if size - zlen acc <? n then RFail (Failed "lz4: literals overflow the output" ip)
          else
            let acc := acc ++ ztake n (zdrop ip l) in
            if ip + n =? zlen l then RLast acc else lz4_ref_match l size (ip + n) acc token
      end
  end.

Fixpoint lz4_ref_loop (fuel : nat) (l : list Z) (size ip : Z) (acc : list Z) : option (status + list Z) :=
  match fuel with
  | O => None
  | S fuel =>
      match lz4_ref_round l size ip acc with
      | RFail f => Some (inl f)
      | RLast acc => Some (inr acc)
      | RNext acc ip => lz4_ref_loop fuel l size ip acc
      end
  end.

Definition lz4_ref (l : list Z) (size : Z) : option (status + list Z) :=
  if zlen l =? 0 then Some (inl (Failed "lz4: empty block" 0)) else lz4_ref_loop (S (List.length l)) l size 0 [].

(** ** Lengths *)
Lemma zdrop_cons (l : list Z) i b : 0 <= i -> zget l i = Some b -> zdrop i l = b :: zdrop (i + 1) l.
Proof.
  intros Hi Hb. unfold zget in Hb. destruct (Z.ltb_spec i 0); [lia|]. unfold zdrop. rewrite (drop_S _ _ _ Hb).
  by replace (Z.to_nat (i + 1)) with (S (Z.to_nat i)) by lia.
Qed.

Section Lz4.
Context (l : list Z) (Hl : bytes_ok l) (Hsize : zlen l < 2 ^ 50).

Lemma ext_loop_spec fuel ip len : 0 <= ip <= zlen l -> zlen l - ip <= Z.of_nat fuel ->
  0 <= len -> len + 255 * (zlen l - ip) < 2 ^ 60 ->
  ext_loop fuel l ip len = Some (ext_bytes (zdrop ip l) len ip) /\
  (ext_bytes (zdrop ip l) len ip).2 <= zlen l /\ ip <= (ext_bytes (zdrop ip l) len ip).2 /\
  forall n, (ext_bytes (zdrop ip l) len ip).1 = Some n -> len <= n < 2 ^ 60.
Proof using Hl Hsize.
  revert ip len. induction fuel as [|fuel IH]; intros ip len Hip Hf Hlen Hb; cbn [ext_loop];
    destruct (Z.leb_spec (zlen l) ip); try lia.
  1, 2: rewrite zdrop_all by lia; cbn; split_and!; done || lia.
  destruct (proj2 (zget_is_Some l ip)) as [b Hg]; [lia|]. rewrite Hg, (zdrop_cons l ip b) by (done || lia).
  pose proof (zget_byte _ _ _ Hl Hg) as Hbb. unfold is_byte in Hbb. unfold size_max.
  destruct (Z.ltb_spec (2 ^ 64 - 1 - b) len); [lia|]. cbn [ext_bytes].
  destruct (Z.eqb_spec b 255) as [-> |]; cbn [negb].
  - destruct (IH (ip + 1) (len + 255)) as (He & H2 & H3 & H4); [lia..|]. split_and!; [done|done|lia|].
    intros n Hn. specialize (H4 n Hn). lia.
  - cbn [fst snd]. split_and!; [done|lia|lia|]. intros m [= <-]. lia.
Qed.

Lemma ext_len_spec ip len : 0 <= ip <= zlen l -> 0 <= len <= 15 ->
  ext_len l ip len = Some (lz4_length l ip len) /\ ip <= (lz4_length l ip len).2 <= zlen l /\
  forall n, (lz4_length l ip len).1 = Some n -> 0 <= n < 2 ^ 60.
Proof using Hl Hsize.
  intros Hip Hlen. unfold ext_len, lz4_length. destruct (Z.eqb_spec len 15) as [-> |]; cbn [negb].
  - destruct (ext_loop_spec (List.length l) ip 15) as (He & H2 & H3 & H4); [lia|unfold zlen in *; lia|lia|lia|].
    split_and!; [done|done|done|]. intros n Hn. specialize (H4 n Hn). lia.
  - cbn. split_and!; [done|lia|lia|]. intros m [= <-]. lia.
Qed.

(** ** Simulation *)
Definition lz4_agrees (size : Z) (s : lz4_step) (r : lz4_ref_step) : Prop :=
  match s, r with
  | Lz4Fail f, RFail f' => f = f'
  | Lz4Last out op, RLast acc => op = zlen acc /\ zlen out = size /\ produced out acc
  | Lz4Next out ip op, RNext acc ip' => ip = ip' /\ op = zlen acc /\ zlen out = size /\ produced out acc
  | _, _ => False
  end.

Lemma nibbles token : is_byte token -> 0 <= Z.shiftr token 4 <= 15 /\ 0 <= Z.land token 15 <= 15.
Proof using.
  unfold is_byte. intros Ht. split.
  - rewrite Z.shiftr_div_pow2 by lia. Z.div_mod_to_equations; lia.
  - change 15 with (Z.ones 4) at 1 2. rewrite Z.land_ones by lia. pose proof (Z.mod_pos_bound token (2 ^ 4) ltac:(lia)). lia.
Qed.

Lemma match_offset ip a b : 0 <= ip -> zget l ip = Some a -> zget l (ip + 1) = Some b ->
  le_val (ztake 2 (zdrop ip l)) = Z.lor a (Z.shiftl b 8).
Proof using Hl.
  intros Hip Ha Hb. rewrite (zdrop_cons l ip a), (zdrop_cons l (ip + 1) b) by (done || lia).
  change (ztake 2 (a :: b :: zdrop (ip + 1 + 1) l)) with [a; b]. rewrite le_val_cons_bits by (by eapply zget_byte).
  cbn [le_val]. by rewrite Z.mul_0_r, Z.add_0_r.
Qed.

Lemma match_agrees out acc ip token : produced out acc -> 0 <= ip <= zlen l -> zlen out < 2 ^ 60 -> is_byte token ->
  exists s, lz4_match l out ip (zlen acc) token = Some s /\ lz4_agrees (zlen out) s (lz4_ref_match l (zlen out) ip acc token).
Proof using Hl Hsize.
  intros Hp Hip Hout Ht. destruct (nibbles token Ht) as [_ Hm]. pose proof (zlen_nonneg acc).
  unfold lz4_match, lz4_ref_match. destruct (Z.ltb_spec (zlen l - ip) 2); [by eexists|].
  destruct (proj2 (zget_is_Some l ip)) as [a Ha]; [lia|]. destruct (proj2 (zget_is_Some l (ip + 1))) as [b Hb]; [lia|].
  rewrite Ha, Hb, (match_offset ip a b) by (done || lia). set (offset := Z.lor a (Z.shiftl b 8)).
  destruct (Z.eqb_spec offset 0); cbn [orb]; [by eexists|]. destruct (Z.ltb_spec (zlen acc) offset); [by eexists|].
  assert (0 <= offset).
  { apply (zget_byte _ _ _ Hl) in Ha, Hb. unfold is_byte in Ha, Hb. apply Z.lor_nonneg. split; [lia|apply Z.shiftl_nonneg; lia]. }
  destruct (ext_len_spec (ip + 2) (Z.land token 15)) as (-> & Hi & Hn); [lia|done|].
  destruct (lz4_length l (ip + 2) (Z.land token 15)) as [[m|] ip']; cbn [fst snd] in *; [|by eexists].
  specialize (Hn m eq_refl). cbv zeta. rewrite (wrap_small 64 (m + 4)), wrap_small by lia.
  destruct (Z.leb_spec (m + 4 + 16) (zlen out - zlen acc)).
  - destruct (Z.ltb_spec (zlen out - zlen acc) (m + 4)); [lia|].
    destruct (copy_match_wild_spec acc offset ltac:(lia) out (m + 4) Hp) as (out' & -> & Hl' & Hp'); [lia..|].
    eexists. split; [done|]. cbn. rewrite zlen_lz_copy. split_and!; done || lia.
  - destruct (Z.ltb_spec (zlen out - zlen acc) (m + 4)); [by eexists|].
    destruct (copy_match_spec acc offset ltac:(lia) out (m + 4) Hp) as (out' & -> & Hl' & Hp' & _); [lia..|].
    eexists. split; [done|]. cbn. rewrite zlen_lz_copy. split_and!; done || lia.
Qed.

(** The literals, fast or exact, against the reference's. *)
Lemma literals_agree out acc ip token : produced out acc -> 0 <= ip <= zlen l -> is_byte token ->
  exists r, lz4_literals l out ip (zlen acc) token = Some r /\
  match lz4_length l ip (Z.shiftr token 4) with
  | (None, ip') => r = inl (Failed "lz4: truncated literal length" ip')
  | (Some n, ip') =>
      if zlen l - ip' <? n then r = inl (Failed "lz4: literals run past the input" ip')
      else if zlen out - zlen acc <? n then r = inl (Failed "lz4: literals overflow the output" ip')
      else exists out', r = inr (out', ip' + n, zlen acc + n) /\ zlen out' = zlen out /\ ip <= ip' /\ 0 <= n /\
        produced out' (acc ++ ztake n (zdrop ip' l)) /\ zlen (acc ++ ztake n (zdrop ip' l)) = zlen acc + n
  end.
Proof using Hl Hsize.
  intros Hp Hip Ht. destruct (nibbles token Ht) as [Hlit _]. unfold lz4_literals. set (lit := Z.shiftr token 4) in *.
  assert (Hz : forall n i, 0 <= n -> 0 <= i -> n <= zlen l - i -> zlen (acc ++ ztake n (zdrop i l)) = zlen acc + n)
    by (intros; rewrite zlen_app, zlen_ztake, zlen_zdrop; lia).
  destruct ((lit <? 15) && (16 <=? zlen l - ip) && (16 <=? zlen out - zlen acc)) eqn:Hfast.
  - apply andb_true_iff in Hfast as [[H1%Z.ltb_lt H2%Z.leb_le]%andb_true_iff H3%Z.leb_le].
    destruct (copy_in_produced l ip out acc 16 Hp) as (out' & -> & Hl' & Hp'); [lia..|]. eexists. split; [done|].
    unfold lz4_length. destruct (Z.eqb_spec lit 15); [lia|]. destruct (Z.ltb_spec (zlen l - ip) lit); [lia|].
    destruct (Z.ltb_spec (zlen out - zlen acc) lit); [lia|]. exists out'. split_and!; [done|done|lia|lia| |apply Hz; lia].
    apply (produced_prefix _ _ (zdrop lit (ztake 16 (zdrop ip l)))). rewrite <- app_assoc.
    rewrite <- (ztake_ztake lit 16), ztake_zdrop by lia. done.
  - destruct (ext_len_spec ip lit Hip Hlit) as (-> & Hi & Hn).
    destruct (lz4_length l ip lit) as [[n|] ip']; cbn [fst snd] in *; [|by eexists].
    specialize (Hn n eq_refl). destruct (Z.ltb_spec (zlen l - ip') n); [by eexists|].
    destruct (Z.ltb_spec (zlen out - zlen acc) n); [by eexists|]. destruct (Z.eqb_spec n 0) as [-> |].
    + eexists. split; [done|]. exists out. rewrite ztake_0, app_nil_r. split_and!; done || lia.
    + destruct (copy_in_produced l ip' out acc n Hp) as (out' & -> & Hl' & Hp'); [lia..|].
      eexists. split; [done|]. exists out'. split_and!; [done|done|lia|lia|done|apply Hz; lia].
Qed.

Lemma lz4_round_agrees out acc ip : produced out acc -> 0 <= ip <= zlen l -> zlen out < 2 ^ 60 ->
  exists s, lz4_round l out ip (zlen acc) = Some s /\ lz4_agrees (zlen out) s (lz4_ref_round l (zlen out) ip acc).
Proof using Hl Hsize.
  intros Hp Hip Hout. unfold lz4_round, lz4_ref_round. destruct (Z.leb_spec (zlen l) ip).
  { destruct (zget l ip) eqn:Hg; [apply zget_Some_range in Hg; lia|]. by eexists. }
  destruct (proj2 (zget_is_Some l ip)) as [token Hg]; [lia|]. rewrite Hg. pose proof (zget_byte _ _ _ Hl Hg) as Ht.
  destruct (literals_agree out acc (ip + 1) token Hp ltac:(lia) Ht) as (r & -> & Hr).
  destruct (lz4_length l (ip + 1) (Z.shiftr token 4)) as [[n|] ip']; [|subst r; by eexists].
  destruct (Z.ltb_spec (zlen l - ip') n); [subst r; by eexists|].
  destruct (Z.ltb_spec (zlen out - zlen acc) n); [subst r; by eexists|].
  destruct Hr as (out' & -> & Hl' & Hi & Hn & Hp' & Hz). rewrite <- Hz.
  destruct (Z.eqb_spec (ip' + n) (zlen l)); [by eexists|]. rewrite <- Hl'. apply match_agrees; done || lia.
Qed.

Lemma lz4_ref_progress size ip acc acc' ip' : 0 <= ip <= zlen l -> lz4_ref_round l size ip acc = RNext acc' ip' -> ip < ip' <= zlen l.
Proof using Hl Hsize.
  intros Hip. unfold lz4_ref_round, lz4_ref_match. destruct (zget l ip) as [token|] eqn:Hg; [|done].
  pose proof (zget_Some_range _ _ _ Hg). pose proof (zget_byte _ _ _ Hl Hg) as Ht. destruct (nibbles token Ht) as [H1 H2].
  destruct (ext_len_spec (ip + 1) (Z.shiftr token 4)) as (_ & Hi & Hn); [lia|done|].
  destruct (lz4_length l (ip + 1) (Z.shiftr token 4)) as [[n|] ip1]; cbn [fst snd] in *; [|done]. specialize (Hn n eq_refl).
  destruct (Z.ltb_spec (zlen l - ip1) n); [done|]. destruct (_ <? _); [done|]. destruct (_ =? _); [done|].
  destruct (Z.ltb_spec (zlen l - (ip1 + n)) 2); [done|]. destruct (_ || _); [done|].
  destruct (ext_len_spec (ip1 + n + 2) (Z.land token 15)) as (_ & Hi2 & _); [lia|done|].
  destruct (lz4_length l (ip1 + n + 2) (Z.land token 15)) as [[m|] ip2]; cbn [fst snd] in *; [|done].
  destruct (_ <? _); [done|]. intros [= <- <-]. lia.
Qed.

Lemma lz4_loop_agrees fuel out acc ip : produced out acc -> zlen out < 2 ^ 60 -> 0 <= ip <= zlen l -> zlen l - ip < Z.of_nat fuel ->
  exists st out', lz4_loop fuel l out ip (zlen acc) = Some (st, out') /\ zlen out' = zlen out /\
  match lz4_ref_loop fuel l (zlen out) ip acc with
  | Some (inr a) => st = Produced (zlen a) /\ produced out' a
  | Some (inl f) => st = f
  | None => False
  end.
Proof using Hl Hsize.
  revert out acc ip. induction fuel as [|fuel IH]; intros out acc ip Hp Hout Hip Hf; [lia|].
  cbn [lz4_loop lz4_ref_loop]. destruct (lz4_round_agrees out acc ip Hp Hip Hout) as (s & -> & Ha).
  destruct (lz4_ref_round l (zlen out) ip acc) as [acc' ip'|a|f] eqn:Hr, s as [out' ip2 op'|out' op'|f']; cbn [lz4_agrees] in Ha; try done.
  - destruct Ha as (-> & -> & Hlo & Hp'). pose proof (lz4_ref_progress _ _ _ _ _ Hip Hr). rewrite <- Hlo. apply IH; done || lia.
  - destruct Ha as (-> & Hlo & Hp'). by exists (Produced (zlen a)), out'.
  - subst f'. by exists f, out.
Qed.
End Lz4.

(** C8: [lz4_block_decompress] is safe and right on every input: it returns
    without leaving its buffers, produces exactly the bytes of the
    sequence-by-sequence reference when that succeeds, and fails with the same
    error at the same offset when it fails. *)
Theorem lz4_refines l out :
  bytes_ok l -> zlen l < 2 ^ 50 -> zlen out < 2 ^ 60 ->
  exists st out', lz4_block_decompress l out = Some (st, out') /\ zlen out' = zlen out /\
  match lz4_ref l (zlen out) with
  | Some (inr a) => st = Produced (zlen a) /\ produced out' a
  | Some (inl f) => st = f
  | None => False
  end.
Proof.
  intros Hl Hs Hout. unfold lz4_block_decompress, lz4_ref. destruct (Z.eqb_spec (zlen l) 0); [by eexists _, out|].
  pose proof (zlen_nonneg l). apply (lz4_loop_agrees l Hl Hs _ out []); [split; [apply zlen_nonneg|done]|done|lia|unfold zlen in *; lia].
Qed.

Lemma lz4_refines_witness :
  exists st out', lz4_block_decompress [33; 97; 98; 1; 0; 16; 99] [0; 0; 0; 0; 0; 0; 0; 0] = Some (st, out') /\ zlen out' = 8.
Proof.
  destruct (lz4_refines [33; 97; 98; 1; 0; 16; 99] [0; 0; 0; 0; 0; 0; 0; 0] ltac:(repeat constructor; lia) ltac:(by vm_compute)
    ltac:(by vm_compute)) as (st & out' & H & Hz & _).
  exists st, out'. split; [exact H|exact Hz].
Defined.
