(* ===== verification/Generation.v ===== *)
(** * Wire-buffer generation tracking (generation.hpp, built with NANOM_GENERATION)

    Arenas live in a store indexed by their address; attested spans point to
    one and remember its generation. A failed check goes through the optional
    handler: it is ignored, or the process stops with the fault ([throw] or
    [abort], by build option). Diagnostics text is not modelled. *)
From stdpp Require Import gmap.
From S2P Require Import Prelude Parser.

Inductive gen_fault_kind := stale_generation | out_of_arena | null_arena | null_pointer.
Inductive gen_action := act_abort | act_ignore.

(** A pointer is an address, or null. *)
Definition ptr := option Z.

Record wire_arena := Arena { a_base : ptr; a_size : Z; a_generation : Z }.

Definition new_arena (base : ptr) (n : Z) : wire_arena := Arena base n 1.
Definition arena_open (base : ptr) (n : Z) (a : wire_arena) : wire_arena :=
  Arena base n (u64 (a_generation a + 1)).
Definition arena_invalidate (a : wire_arena) : wire_arena := Arena None 0 (u64 (a_generation a + 1)).

Definition contains (a : wire_arena) (p : ptr) (len : Z) : bool :=
  if len =? 0 then true
  else match a_base a, p with
       | Some base, Some p => (base <=? p) && (p + len <=? base + a_size a)
       | _, _ => false
       end.

Record generation_fault := Fault {
  f_kind : gen_fault_kind;
  f_arena : option Z;
  f_expected_gen : Z;
  f_actual_gen : Z;
  f_access_ptr : ptr;
  f_access_len : Z;
  f_offset_in_arena : Z
}.

(** The fault hook, and how a dispatched fault ends. *)
Definition handler := option (generation_fault -> gen_action).
Inductive dispatch := Continue | Stopped (f : generation_fault).

Definition dispatch_generation_fault (h : handler) (f : generation_fault) : dispatch :=
  match h with
  | Some g => match g f with act_ignore => Continue | act_abort => Stopped f end
  | None => Stopped f
  end.

(** [p >= base ? uint32(p - base) : 0]; null compares below every address. *)
Definition offset_of (p : Z) (base : ptr) : Z :=
  match base with
  | Some base => if base <=? p then u32 (p - base) else 0
  | None => u32 p
  end.

Notation arenas := (gmap Z wire_arena).

(** [None]: the arena pointer dangles. *)
Definition check_wire_access (h : handler) (s : arenas) (arena : option Z) (expected_gen : Z) (p : ptr) (len : Z) :
    option dispatch :=
  match arena with
  | None => Some Continue
  | Some id =>
      match s !! id with
      | None => None
      | Some a =>
          match p with
          | None => Some (dispatch_generation_fault h (Fault null_pointer arena expected_gen (a_generation a) p len 0))
          | Some q =>
              if negb (a_generation a =? expected_gen) then
                Some (dispatch_generation_fault h
                  (Fault stale_generation arena expected_gen (a_generation a) p len (offset_of q (a_base a))))
              else if negb (contains a p len) then
                Some (dispatch_generation_fault h
                  (Fault out_of_arena arena expected_gen (a_generation a) p len (offset_of q (a_base a))))
              else Some Continue
          end
      end
  end.

(** ** Attested spans *)
Record attested_bytes := Attested { ab_data : ptr; ab_size : Z; ab_arena : option Z; ab_gen : Z }.

(** What a read does: a byte, a stop, or undefined behaviour. *)
Inductive access := Read (b : Z) | Faulted (f : generation_fault) | Undefined.

(** [span_[i]] *)
Definition span_at (M : memory) (b : attested_bytes) (i : Z) : access :=
  match ab_data b with
  | Some p => if (0 <=? i) && (i <? ab_size b) then match M (p + i) with Some v => Read v | None => Undefined end
              else Undefined
  | None => Undefined
  end.

Definition after_check (d : option dispatch) (k : access) : access :=
  match d with
  | None => Undefined
  | Some (Stopped f) => Faulted f
  | Some Continue => k
  end.

Definition subscript (h : handler) (s : arenas) (M : memory) (b : attested_bytes) (i : Z) : access :=
  after_check (check_wire_access h s (ab_arena b) (ab_gen b) (ab_data b) (ab_size b)) (span_at M b i).

(** The fault record of an index past the end. *)
Definition at_fault (s : arenas) (b : attested_bytes) (i : Z) : generation_fault :=
  let arena := ab_arena b ≫= fun id => s !! id in
  Fault out_of_arena (ab_arena b) (ab_gen b) (match arena with Some a => a_generation a | None => 0 end)
    (ab_data b) (ab_size b)
    (match ab_data b, arena ≫= a_base with
     | Some p, Some base => if base <=? p then u32 (p - base + i) else 0
     | _, _ => 0
     end).

Definition attested_at (h : handler) (s : arenas) (M : memory) (b : attested_bytes) (i : Z) : access :=
  let checked := after_check (check_wire_access h s (ab_arena b) (ab_gen b) (ab_data b) (ab_size b)) (span_at M b i) in
  if ab_size b <=? i then after_check (Some (dispatch_generation_fault h (at_fault s b i))) checked else checked.

(** [subspan(offset, count)]: undefined outside the span. *)
Definition attested_subspan (b : attested_bytes) (offset count : Z) : option attested_bytes :=
  if (offset <=? ab_size b) && (count <=? ab_size b - offset) then
    match ab_data b with
    | Some p => Some (Attested (Some (p + offset)) count (ab_arena b) (ab_gen b))
    | None => Some (Attested None count (ab_arena b) (ab_gen b))
    end
  else None.

(** A subspan of a span inside the arena is inside it, under the same attestation. *)
Lemma attested_subspan_contained a b offset count b' :
  attested_subspan b offset count = Some b' -> 0 <= offset -> 0 <= count ->
  contains a (ab_data b) (ab_size b) = true -> contains a (ab_data b') (ab_size b') = true /\
  ab_arena b' = ab_arena b /\ ab_gen b' = ab_gen b.
Proof.
  unfold attested_subspan, contains. destruct (Z.leb_spec offset (ab_size b)), (Z.leb_spec count (ab_size b - offset)); try done.
  cbn [andb]. intros Hs Ho Hc Hin. destruct (ab_data b) as [p|]; injection Hs as <-; cbn; split; try done;
    destruct (Z.eqb_spec count 0); try done; destruct (Z.eqb_spec (ab_size b) 0); try lia;
    destruct (a_base a) as [base|]; try done.
  apply andb_true_iff in Hin as [Hlo%Z.leb_le Hhi%Z.leb_le]. apply andb_true_iff. rewrite !Z.leb_le. lia.
Qed.

(** ** Histories of the arenas *)
Inductive arena_op := OpenArena (id : Z) (base : ptr) (n : Z) | InvalidateArena (id : Z).

Definition op_id (o : arena_op) : Z := match o with OpenArena id _ _ => id | InvalidateArena id => id end.

Definition arena_step (s : arenas) (o : arena_op) : arenas :=
  match o with
  | OpenArena id base n => alter (arena_open base n) id s
  | InvalidateArena id => alter arena_invalidate id s
  end.

Definition ops_on (id : Z) (os : list arena_op) : Z := zlen (filter (fun o => op_id o = id) os).

Lemma arena_step_generation s o id a : s !! id = Some a ->
  exists a', arena_step s o !! id = Some a' /\
    a_generation a' = (if decide (op_id o = id) then u64 (a_generation a + 1) else a_generation a) /\
    (op_id o <> id -> a' = a).
Proof.
  intros Ha. destruct o as [id' base n|id']; cbn [arena_step op_id]; destruct (decide (id' = id)) as [-> |Hne].
  - exists (arena_open base n a). by rewrite lookup_alter_eq, Ha.
  - exists a. by rewrite lookup_alter_ne.
  - exists (arena_invalidate a). by rewrite lookup_alter_eq, Ha.
  - exists a. by rewrite lookup_alter_ne.
Qed.

(** The generation counts the operations on the arena. *)
Lemma arena_history s os id a : s !! id = Some a ->
  exists a', foldl arena_step s os !! id = Some a' /\
    u64 (a_generation a') = u64 (a_generation a + ops_on id os) /\ (ops_on id os = 0 -> a' = a).
Proof.
  revert s a. induction os as [|o os IH]; intros s a Ha; cbn [foldl].
  { exists a. change (ops_on id []) with 0. rewrite Z.add_0_r. done. }
  destruct (arena_step_generation s o id a Ha) as (a1 & Ha1 & Hg1 & Hsame1).
  destruct (IH _ _ Ha1) as (a' & Ha' & Hg' & Hsame). exists a'. split; [done|].
  unfold ops_on in *. rewrite filter_cons.
  pose proof (zlen_nonneg (filter (fun o => op_id o = id) os)). destruct (decide (op_id o = id)).
  - rewrite zlen_cons. split; [|lia]. rewrite Hg', Hg1. unfold wrap. rewrite Zplus_mod_idemp_l. f_equal. lia.
  - split; [by rewrite Hg', Hg1|]. intros H0. rewrite <- Hsame1 by done. by apply Hsame.
Qed.

(** Stale spans are always caught. A span attested in one state of the
    arenas and read (with [at] or [operator[]], no handler installed) after any
    interleaving of opens and invalidations: if at least one (and fewer than
    2^64) concerned its arena, the read stops with a stale-generation fault and
    no byte is read; if none did, the check decides as it would have then. *)
Theorem stale_span_faults s os id a b i M :
  s !! id = Some a -> 0 <= a_generation a < 2 ^ 64 ->
  ab_arena b = Some id -> ab_gen b = a_generation a -> is_Some (ab_data b) -> 0 <= i < ab_size b ->
  ops_on id os < 2 ^ 64 ->
  let s' := foldl arena_step s os in
  if ops_on id os =? 0
  then check_wire_access None s' (ab_arena b) (ab_gen b) (ab_data b) (ab_size b) =
         check_wire_access None s (ab_arena b) (ab_gen b) (ab_data b) (ab_size b)
  else exists f, f_kind f = stale_generation /\ attested_at None s' M b i = Faulted f /\ subscript None s' M b i = Faulted f.
Proof.
  intros Ha Hg Hb Hbg [p Hp] Hi Hn s'. destruct (arena_history s os id a Ha) as (a' & Ha' & Hg' & Hsame).
  unfold subscript, attested_at, check_wire_access. rewrite Hb, Hp. unfold s'. rewrite Ha', Ha, Hbg.
  pose proof (zlen_nonneg (filter (fun o => op_id o = id) os)) as H0. fold (ops_on id os) in H0.
  destruct (Z.eqb_spec (ops_on id os) 0) as [Hz|Hz]; [by rewrite (Hsame Hz)|].
  assert (Hne : a_generation a' <> a_generation a).
  { intros He. rewrite He, (wrap_small 64 (a_generation a)) in Hg' by done. unfold wrap in Hg'.
    Z.div_mod_to_equations. lia. }
  destruct (Z.eqb_spec (a_generation a') (a_generation a)) as [|_]; [done|]. cbn [negb dispatch_generation_fault after_check].
  eexists (Fault stale_generation _ _ _ _ _ _). split; [reflexivity|]. destruct (Z.leb_spec (ab_size b) i); [lia|].
  split; reflexivity.
Qed.

Definition witness_arenas : arenas := {[7 := new_arena (Some 1000) 16]}.

Lemma stale_span_faults_witness :
  exists f, f_kind f = stale_generation /\
    attested_at None (foldl arena_step witness_arenas [InvalidateArena 7]) (fun _ => None) (Attested (Some 1004) 4 (Some 7) 1) 0 = Faulted f.
Proof.
  destruct (stale_span_faults witness_arenas [InvalidateArena 7] 7 (new_arena (Some 1000) 16) (Attested (Some 1004) 4 (Some 7) 1) 0
    (fun _ => None) eq_refl ltac:(cbn; lia) eq_refl eq_refl ltac:(by eexists) ltac:(cbn; lia) ltac:(by vm_compute)) as (f & Hk & Hf & _).
  exists f. split; [exact Hk|exact Hf].
Defined.

(** A tracked [at] that returns a byte was allowed to. With no handler
    installed, a byte comes out only when the index is inside the span, the
    arena is still at the span's generation and the whole span lies inside the
    arena's buffer; then it is the byte at that address. On a mapped buffer it
    always ends in a byte or a fault. *)
Theorem attested_at_sound s M id a b i :
  s !! id = Some a -> ab_arena b = Some id -> is_Some (ab_data b) -> 0 <= i -> 0 <= ab_size b ->
  (forall base, a_base a = Some base -> forall x, base <= x < base + a_size a -> is_Some (M x)) ->
  match attested_at None s M b i with
  | Undefined => False
  | Faulted _ => ab_size b <= i \/ a_generation a <> ab_gen b \/ contains a (ab_data b) (ab_size b) = false
  | Read v => i < ab_size b /\ a_generation a = ab_gen b /\
      exists base p, a_base a = Some base /\ ab_data b = Some p /\ base <= p /\ p + ab_size b <= base + a_size a /\
        M (p + i) = Some v
  end.
Proof.
  intros Ha Hb [p Hp] Hi Hsz HM. unfold attested_at, check_wire_access, span_at. rewrite Hb, Ha, Hp.
  destruct (Z.leb_spec (ab_size b) i); [cbn; by left|].
  destruct (Z.eqb_spec (a_generation a) (ab_gen b)) as [Hg|Hg]; cbn [negb dispatch_generation_fault after_check]; [|by right; left].
  destruct (contains a (Some p) (ab_size b)) eqn:Hc; cbn [negb dispatch_generation_fault after_check]; [|by right; right].
  destruct (Z.leb_spec 0 i), (Z.ltb_spec i (ab_size b)); try lia. cbn [andb].
  unfold contains in Hc. destruct (Z.eqb_spec (ab_size b) 0); [lia|].
  destruct (a_base a) as [base|] eqn:Hbase; [|done]. apply andb_true_iff in Hc as [Hlo%Z.leb_le Hhi%Z.leb_le].
  destruct (HM base eq_refl (p + i) ltac:(lia)) as [v Hv]. rewrite Hv. split_and!; [lia|done|]. by exists base, p.
Qed.

Lemma attested_at_sound_witness :
  attested_at None witness_arenas (fun _ => Some 42) (Attested (Some 1004) 4 (Some 7) 1) 3 = Read 42 /\
  match attested_at None witness_arenas (fun _ => Some 42) (Attested (Some 1004) 4 (Some 7) 1) 3 with
  | Undefined => False | Faulted _ => True | Read v => 3 < 4 end.
Proof.
  split; [done|].
  pose proof (attested_at_sound witness_arenas (fun _ => Some 42) 7 (new_arena (Some 1000) 16) (Attested (Some 1004) 4 (Some 7) 1) 3
    eq_refl eq_refl ltac:(by eexists) ltac:(lia) ltac:(cbn; lia) ltac:(by intros; eexists)) as H.
  revert H. destruct (attested_at None witness_arenas (fun _ => Some 42) (Attested (Some 1004) 4 (Some 7) 1) 3); [|done|done].
  intros [H _]. exact H.
Defined.
