(* ===== verification/Utf8.v ===== *)
(** * UTF-8 validation (values.hpp section 35)

    [valid_utf8] with its word-at-a-time ASCII skips, and the boundary test for
    values cut out of a validated concatenation. The specification is the
    encoder: text is a concatenation of encoded Unicode scalar values. *)
From S2P Require Import Prelude Columnar.

Definition ascii_mask : Z := 0x8080808080808080.

(** The lead byte: how many continuation bytes follow, and its code point bits. *)
Definition utf8_lead (c : Z) : option (Z * Z) :=
  if Z.land c 0xe0 =? 0xc0 then Some (1, Z.land c 0x1f)
  else if Z.land c 0xf0 =? 0xe0 then Some (2, Z.land c 0x0f)
  else if Z.land c 0xf8 =? 0xf0 then Some (3, Z.land c 0x07)
  else None.

(** [for (i = 1; i <= n; ++i)]: the continuation bytes. [None] is a read outside. *)
Fixpoint utf8_tail (n : nat) (s : list Z) (p i cp : Z) : option (option Z) :=
  match n with
  | O => Some (Some cp)
  | S n =>
      match zget s (p + i) with
      | None => None
      | Some b => if negb (Z.land b 0xc0 =? 0x80) then Some None
                  else utf8_tail n s p (i + 1) (u32 (Z.lor (Z.shiftl cp 6) (Z.land b 0x3f)))
      end
  end.

Definition utf8_bad (n cp : Z) : bool :=
  ((n =? 1) && (cp <? 0x80)) || ((n =? 2) && (cp <? 0x800)) || ((n =? 3) && (cp <? 0x10000)) ||
  (0x10ffff <? cp) || ((0xd800 <=? cp) && (cp <=? 0xdfff)).

(** One character at [p]: the bytes to skip, or an ill-formed sequence. *)
Definition utf8_char (s : list Z) (p : Z) : option (option Z) :=
  match zget s p with
  | None => None
  | Some c =>
      if c <? 0x80 then Some (Some 1)
      else match utf8_lead c with
           | None => Some None
           | Some (n, cp) =>
               if zlen s - p <=? n then Some None
               else match utf8_tail (Z.to_nat n) s p 1 cp with
                    | None => None
                    | Some None => Some None
                    | Some (Some cp) => if utf8_bad n cp then Some None else Some (Some (n + 1))
                    end
           end
  end.

(** The ASCII skip: 16 or 8 bytes with no high bit. *)
Definition ascii_skip (s : list Z) (p : Z) : option Z :=
  if 16 <=? zlen s - p then
    match load_le64 s p, load_le64 s (p + 8) with
    | Some w0, Some w1 => Some (if Z.land (Z.lor w0 w1) ascii_mask =? 0 then 16 else 0)
    | _, _ => None
    end
  else if 8 <=? zlen s - p then
    match load_le64 s p with
    | Some w => Some (if Z.land w ascii_mask =? 0 then 8 else 0)
    | None => None
    end
  else Some 0.

Fixpoint utf8_loop (fuel : nat) (s : list Z) (p : Z) : option bool :=
  if p <? zlen s then
    match fuel with
    | O => None
    | S fuel =>
        match ascii_skip s p with
        | None => None
        | Some k =>
            if negb (k =? 0) then utf8_loop fuel s (p + k)
            else match utf8_char s p with
                 | None => None
                 | Some None => Some false
                 | Some (Some n) => utf8_loop fuel s (p + n)
                 end
        end
    end
  else Some true.

Definition valid_utf8 (s : list Z) : option bool := utf8_loop (length s) s 0.

(** [utf8_starts_ok(data, end, starts, n)] *)
Fixpoint utf8_starts_ok (data : list Z) (end_ : Z) (starts : list Z) : option bool :=
  match starts with
  | [] => Some true
  | o :: starts =>
      if o <? end_ then
        match zget data o with
        | None => None
        | Some b => if Z.land b 0xc0 =? 0x80 then Some false else utf8_starts_ok data end_ starts
        end
      else utf8_starts_ok data end_ starts
  end.

(** ** Specification *)
Definition scalar (cp : Z) : Prop := 0 <= cp < 0xd800 \/ 0xe000 <= cp <= 0x10ffff.

Definition utf8_encode (cp : Z) : list Z :=
  if cp <? 0x80 then [cp]
  else if cp <? 0x800 then [0xc0 + cp / 64; 0x80 + cp mod 64]
  else if cp <? 0x10000 then [0xe0 + cp / 4096; 0x80 + (cp / 64) mod 64; 0x80 + cp mod 64]
  else [0xf0 + cp / 262144; 0x80 + (cp / 4096) mod 64; 0x80 + (cp / 64) mod 64; 0x80 + cp mod 64].

(** Well-formed text. *)
Inductive utf8 : list Z -> Prop :=
| utf8_nil : utf8 []
| utf8_cons cp t : scalar cp -> utf8 t -> utf8 (utf8_encode cp ++ t).

Lemma utf8_concat l : utf8 l <-> exists cps, Forall scalar cps /\ l = concat (List.map utf8_encode cps).
Proof.
  split.
  - induction 1 as [|cp t Hc _ (cps & Hf & ->)]; [by exists []|]. exists (cp :: cps). by split; [constructor|].
  - intros (cps & Hf & ->). induction Hf; cbn; by constructor.
Qed.

(** ** Bytes *)
Definition cont (b : Z) : bool := Z.land b 0xc0 =? 0x80.

(** Facts of every byte, by evaluation. *)
Definition byte_facts (b : Z) : bool :=
  eqb (cont b) ((0x80 <=? b) && (b <? 0xc0)) &&
  (if cont b then Z.land b 0x3f =? b - 0x80 else true) &&
  (match utf8_lead b with
   | Some (n, cp) => (0xc0 <=? b) && (b <? 0xf8) && (1 <=? n) && (n <=? 3) &&
       (b =? cp + (if n =? 1 then 0xc0 else if n =? 2 then 0xe0 else 0xf0)) &&
       (0 <=? cp) && (cp <? (if n =? 1 then 32 else if n =? 2 then 16 else 8))
   | None => (b <? 0xc0) || (0xf8 <=? b)
   end).

Lemma byte_facts_all b : is_byte b -> byte_facts b = true.
Proof. apply byte_forall. by vm_compute. Qed.

Lemma cont_spec b : is_byte b -> cont b = true <-> 0x80 <= b < 0xc0.
Proof.
  intros Hb. pose proof (byte_facts_all b Hb) as H. unfold byte_facts in H.
  apply andb_true_iff in H as [[H _]%andb_true_iff _]. apply eqb_prop in H. rewrite H, andb_true_iff, Z.leb_le, Z.ltb_lt. done.
Qed.

Lemma cont_low b : is_byte b -> cont b = true -> Z.land b 0x3f = b - 0x80.
Proof.
  intros Hb Hc. pose proof (byte_facts_all b Hb) as H. unfold byte_facts in H.
  apply andb_true_iff in H as [[_ H]%andb_true_iff _]. rewrite Hc in H. by apply Z.eqb_eq.
Qed.

Definition lead_base (n : Z) : Z := if n =? 1 then 0xc0 else if n =? 2 then 0xe0 else 0xf0.
Definition lead_size (n : Z) : Z := if n =? 1 then 32 else if n =? 2 then 16 else 8.

Lemma lead_spec c : is_byte c ->
  match utf8_lead c with
  | Some (n, cp) => 1 <= n <= 3 /\ c = lead_base n + cp /\ 0 <= cp < lead_size n
  | None => c < 0xc0 \/ 0xf8 <= c
  end.
Proof.
  intros Hb. pose proof (byte_facts_all c Hb) as H. unfold byte_facts in H.
  apply andb_true_iff in H as [_ H]. destruct (utf8_lead c) as [[n cp]|].
  - rewrite !andb_true_iff, !Z.leb_le, !Z.ltb_lt, Z.eqb_eq in H. unfold lead_base, lead_size. intuition lia.
  - apply orb_true_iff in H as [H%Z.ltb_lt|H%Z.leb_le]; lia.
Qed.

(** The lead byte of an encoded character reads back. *)
Lemma lead_of n cp : 1 <= n <= 3 -> 0 <= cp < lead_size n -> utf8_lead (lead_base n + cp) = Some (n, cp).
Proof.
  intros Hn Hcp. assert (H : forallb (fun '(n, cp) => match utf8_lead (lead_base n + cp) with
    | Some (n', cp') => (n' =? n) && (cp' =? cp) | None => false end)
    (List.map (fun c => (1, c)) (seqZ 0 32) ++ List.map (fun c => (2, c)) (seqZ 0 16) ++ List.map (fun c => (3, c)) (seqZ 0 8)) = true)
    by (by vm_compute).
  rewrite List.forallb_forall in H. specialize (H (n, cp)).
  assert (Hin : In (n, cp) (List.map (fun c => (1, c)) (seqZ 0 32) ++ List.map (fun c => (2, c)) (seqZ 0 16) ++ List.map (fun c => (3, c)) (seqZ 0 8))).
  { rewrite !in_app_iff, !in_map_iff. unfold lead_size in Hcp.
    assert (n = 1 \/ n = 2 \/ n = 3) as [-> |[-> | ->]] by lia; cbn in Hcp; [left|right; left|right; right];
      exists cp; (split; [done|apply in_seqZ; lia]). }
  specialize (H Hin). cbn in H. destruct (utf8_lead (lead_base n + cp)) as [[n' cp']|]; [|done].
  apply andb_true_iff in H as [->%Z.eqb_eq ->%Z.eqb_eq]. done.
Qed.

(** ** One character *)
Definition cont_val (cp : Z) (bs : list Z) : Z := fold_left (fun a b => a * 64 + (b - 0x80)) bs cp.

Lemma ztake_S {A} n (b : A) t : 0 <= n -> ztake (n + 1) (b :: t) = b :: ztake n t.
Proof. intros Hn. unfold ztake. by replace (Z.to_nat (n + 1)) with (S (Z.to_nat n)) by lia. Qed.

Lemma utf8_tail_spec n s p i cp : bytes_ok s -> 0 <= p + i -> p + i + Z.of_nat n <= zlen s ->
  0 <= cp -> cp * 64 ^ Z.of_nat n + 64 ^ Z.of_nat n < 2 ^ 32 ->
  utf8_tail n s p i cp = Some (if forallb cont (ztake (Z.of_nat n) (zdrop (p + i) s))
    then Some (cont_val cp (ztake (Z.of_nat n) (zdrop (p + i) s))) else None).
Proof.
  intros Hs. revert i cp. induction n as [|n IH]; intros i cp Hi Hr Hcp Hov; cbn [utf8_tail]; [done|].
  destruct (proj2 (zget_is_Some s (p + i))) as [b Hb]; [lia|]. rewrite Hb.
  rewrite (zdrop_cons_get s (p + i) b), Nat2Z.inj_succ, <- Z.add_1_r, ztake_S by (done || lia). cbn [forallb].
  fold (cont b). destruct (cont b) eqn:Hc; cbn [negb andb]; [|done].
  pose proof (zget_byte _ _ _ Hs Hb) as Hbb. pose proof (proj1 (cont_spec b Hbb) Hc) as Hbr.
  rewrite Nat2Z.inj_succ, Z.pow_succ_r in Hov by lia. assert (0 < 64 ^ Z.of_nat n) by (apply Z.pow_pos_nonneg; lia).
  assert (Hstep : u32 (Z.lor (Z.shiftl cp 6) (Z.land b 63)) = cp * 64 + (b - 128)).
  { rewrite cont_low by done. rewrite Z.lor_comm, lor_shiftl_add by lia. rewrite wrap_small by nia. lia. }
  rewrite Hstep, IH by (done || nia). rewrite Z.add_assoc. done.
Qed.

Lemma utf8_tail_lead s p n cp : bytes_ok s -> 0 <= p -> 1 <= n <= 3 -> n < zlen s - p -> 0 <= cp < lead_size n ->
  utf8_tail (Z.to_nat n) s p 1 cp = Some (if forallb cont (ztake n (zdrop (p + 1) s))
    then Some (cont_val cp (ztake n (zdrop (p + 1) s))) else None).
Proof.
  intros Hs Hp Hn Hr Hcp. rewrite utf8_tail_spec; rewrite ?Z2Nat.id by lia; try done; try lia.
  unfold lead_size in Hcp. assert (n = 1 \/ n = 2 \/ n = 3) as [-> |[-> | ->]] by lia; cbn in *; lia.
Qed.

Lemma utf8_char_total s p : bytes_ok s -> 0 <= p < zlen s -> exists r, utf8_char s p = Some r.
Proof.
  intros Hs Hp. unfold utf8_char. destruct (proj2 (zget_is_Some s p)) as [c Hc]; [lia|]. rewrite Hc.
  pose proof (lead_spec c (zget_byte _ _ _ Hs Hc)) as Hlead.
  destruct (c <? 128); [by eexists|]. destruct (utf8_lead c) as [[n cp]|]; [|by eexists]. destruct Hlead as (Hn & _ & Hcp).
  destruct (Z.leb_spec (zlen s - p) n); [by eexists|].
  rewrite utf8_tail_lead by (done || lia).
  destruct (forallb _ _); [|by eexists]. by destruct (utf8_bad _ _); eexists.
Qed.

(** A multi-byte sequence that passes the checks is the encoding of its code point. *)
Lemma encode_of n cp bs : 1 <= n <= 3 -> zlen bs = n -> 0 <= cp < lead_size n -> bytes_ok bs -> forallb cont bs = true ->
  utf8_bad n (cont_val cp bs) = false ->
  scalar (cont_val cp bs) /\ utf8_encode (cont_val cp bs) = (lead_base n + cp) :: bs.
Proof.
  intros Hn Hz Hcp Hok Hall Hbad. unfold utf8_bad in Hbad. rewrite !orb_false_iff, !andb_false_iff in Hbad.
  destruct Hbad as [[[[H1 H2] H3] H4%Z.ltb_ge] H5]. unfold zlen, lead_size, lead_base in *.
  assert (Hb : forall b, In b bs -> 128 <= b < 192).
  { intros b Hin. apply cont_spec; [by apply List.Forall_forall with bs|]. by apply (proj1 (List.forallb_forall cont bs)). }
  destruct bs as [|b1 [|b2 [|b3 [|b4 bs]]]]; cbn [length] in Hz; try lia.
  - replace n with 1 in * by lia. cbn in *. pose proof (Hb b1 (or_introl eq_refl)).
    assert (128 <= cp * 64 + (b1 - 128)) by (destruct H1 as [?|H1%Z.ltb_ge]; [done|lia]).
    split; [left; lia|]. unfold utf8_encode. destruct (Z.ltb_spec (cp * 64 + (b1 - 128)) 128); [lia|].
    destruct (Z.ltb_spec (cp * 64 + (b1 - 128)) 2048); [|lia]. f_equal; [|f_equal]; Z.div_mod_to_equations; lia.
  - replace n with 2 in * by lia. cbn in *. pose proof (Hb b1 ltac:(auto)). pose proof (Hb b2 ltac:(auto)).
    set (v := (cp * 64 + (b1 - 128)) * 64 + (b2 - 128)) in *.
    assert (2048 <= v) by (destruct H2 as [?|H2%Z.ltb_ge]; [done|lia]). assert (v < 65536) by lia.
    split; [unfold scalar; destruct H5 as [H5%Z.leb_gt|H5%Z.leb_gt]; lia|]. unfold utf8_encode.
    destruct (Z.ltb_spec v 128); [lia|]. destruct (Z.ltb_spec v 2048); [lia|]. destruct (Z.ltb_spec v 65536); [|lia].
    f_equal; [|f_equal; [|f_equal]]; Z.div_mod_to_equations; lia.
  - replace n with 3 in * by lia. cbn in *. pose proof (Hb b1 ltac:(auto)). pose proof (Hb b2 ltac:(auto)). pose proof (Hb b3 ltac:(auto)).
    set (v := ((cp * 64 + (b1 - 128)) * 64 + (b2 - 128)) * 64 + (b3 - 128)) in *.
    assert (65536 <= v) by (destruct H3 as [?|H3%Z.ltb_ge]; [done|lia]).
    split; [right; lia|]. unfold utf8_encode.
    destruct (Z.ltb_spec v 128); [lia|]. destruct (Z.ltb_spec v 2048); [lia|]. destruct (Z.ltb_spec v 65536); [lia|].
    f_equal; [|f_equal; [|f_equal; [|f_equal]]]; Z.div_mod_to_equations; lia.
Qed.

(** A character that is accepted is an encoded scalar value. *)
Lemma utf8_char_sound s p k : bytes_ok s -> 0 <= p < zlen s -> utf8_char s p = Some (Some k) ->
  exists cp, scalar cp /\ zdrop p s = utf8_encode cp ++ zdrop (p + k) s /\ k = zlen (utf8_encode cp).
Proof.
  intros Hs Hp. unfold utf8_char. destruct (proj2 (zget_is_Some s p)) as [c Hc]; [lia|]. rewrite Hc.
  pose proof (zget_byte _ _ _ Hs Hc) as Hcb. rewrite (zdrop_cons_get s p c) by (done || lia).
  destruct (Z.ltb_spec c 128).
  { intros [= <-]. exists c. unfold is_byte in Hcb. assert (He : utf8_encode c = [c]) by (unfold utf8_encode; by destruct (Z.ltb_spec c 128); [|lia]).
    rewrite He. split; [left; lia|]. done. }
  pose proof (lead_spec c Hcb) as Hlead. destruct (utf8_lead c) as [[n cp]|]; [|done]. destruct Hlead as (Hn & -> & Hcp).
  destruct (Z.leb_spec (zlen s - p) n); [done|].
  rewrite utf8_tail_lead by (done || lia). set (bs := ztake n (zdrop (p + 1) s)).
  destruct (forallb cont bs) eqn:Hall; [|done]. destruct (utf8_bad n (cont_val cp bs)) eqn:Hbad; [done|]. intros [= <-].
  assert (Hbz : zlen bs = n) by (unfold bs; rewrite zlen_ztake, zlen_zdrop; lia).
  destruct (encode_of n cp bs Hn Hbz Hcp) as [Hsc He]; [unfold bs; auto using bytes_ok_ztake, bytes_ok_zdrop|done|done|].
  exists (cont_val cp bs). rewrite He, zlen_cons, Hbz. split; [done|]. split; [|lia]. cbn [app]. f_equal.
  unfold bs. rewrite <- (ztake_zdrop n (zdrop (p + 1) s)) at 1. f_equal. rewrite zdrop_zdrop by lia. f_equal. lia.
Qed.

(** The encoding of a scalar value: a lead byte and continuation bytes. *)
Lemma encode_shape cp : scalar cp -> (cp < 128 /\ utf8_encode cp = [cp]) \/
  exists n c bs, 1 <= n <= 3 /\ zlen bs = n /\ 0 <= c < lead_size n /\ Forall (fun b => 128 <= b < 192) bs /\
    utf8_encode cp = (lead_base n + c) :: bs /\ cont_val c bs = cp /\ utf8_bad n cp = false.
Proof.
  intros Hs. unfold scalar, utf8_encode, utf8_bad in *.
  assert (Hm : forall x, 128 <= 128 + x mod 64 < 192) by (intros x; pose proof (Z.mod_pos_bound x 64 ltac:(lia)); lia).
  destruct (Z.ltb_spec cp 128); [by left|right]. destruct (Z.ltb_spec cp 2048); [|destruct (Z.ltb_spec cp 65536)].
  - exists 1, (cp / 64), [128 + cp mod 64]. cbn. split; [lia|]. split; [done|]. split; [Z.div_mod_to_equations; lia|].
    split; [repeat constructor; apply Hm|]. split; [done|]. split; [Z.div_mod_to_equations; lia|].
    destruct (Z.ltb_spec 1114111 cp), (Z.leb_spec 55296 cp), (Z.leb_spec cp 57343), (Z.ltb_spec cp 128); done || lia.
  - exists 2, (cp / 4096), [128 + (cp / 64) mod 64; 128 + cp mod 64]. cbn. split; [lia|]. split; [done|].
    split; [Z.div_mod_to_equations; lia|]. split; [repeat constructor; apply Hm|]. split; [done|].
    split; [Z.div_mod_to_equations; lia|].
    destruct (Z.ltb_spec 1114111 cp), (Z.leb_spec 55296 cp), (Z.leb_spec cp 57343), (Z.ltb_spec cp 2048); done || lia.
  - exists 3, (cp / 262144), [128 + (cp / 4096) mod 64; 128 + (cp / 64) mod 64; 128 + cp mod 64]. cbn.
    split; [lia|]. split; [done|]. split; [Z.div_mod_to_equations; lia|]. split; [repeat constructor; apply Hm|].
    split; [done|]. split; [Z.div_mod_to_equations; lia|].
    destruct (Z.ltb_spec 1114111 cp), (Z.leb_spec 55296 cp), (Z.leb_spec cp 57343), (Z.ltb_spec cp 65536); done || lia.
Qed.

(** Every encoded scalar value is accepted, whatever follows. *)
Lemma utf8_char_complete s p cp t : bytes_ok s -> 0 <= p -> scalar cp -> zdrop p s = utf8_encode cp ++ t ->
  utf8_char s p = Some (Some (zlen (utf8_encode cp))).
Proof.
  intros Hs Hp Hsc Hd. unfold utf8_char.
  assert (Hget : forall b l, zdrop p s = b :: l -> zget s p = Some b).
  { intros b l Hl. replace p with (p + 0) by lia. rewrite <- zget_zdrop, Hl by lia. done. }
  destruct (encode_shape cp Hsc) as [[Hlt He]|(n & c & bs & Hn & Hz & Hc & Hbs & He & Hv & Hbad)]; rewrite He in *.
  { rewrite (Hget cp t Hd). by destruct (Z.ltb_spec cp 128); [|lia]. }
  rewrite (Hget (lead_base n + c) (bs ++ t) Hd).
  assert (128 <= lead_base n) by (unfold lead_base; destruct (n =? 1), (n =? 2); lia).
  destruct (Z.ltb_spec (lead_base n + c) 128); [lia|]. rewrite lead_of by done.
  assert (Hlen : zlen (zdrop p s) = 1 + n + zlen t) by (rewrite Hd; cbn [app]; rewrite zlen_cons, zlen_app; lia).
  pose proof (zlen_nonneg t). rewrite zlen_zdrop in Hlen by lia. destruct (Z.leb_spec (zlen s - p) n); [lia|].
  rewrite utf8_tail_lead by (done || lia).
  assert (Hrest : zdrop (p + 1) s = bs ++ t) by (rewrite <- zdrop_zdrop, Hd by lia; done).
  rewrite Hrest, ztake_app by done.
  assert (Hall : forallb cont bs = true).
  { apply List.forallb_forall. intros b Hin. rewrite List.Forall_forall in Hbs. specialize (Hbs b Hin).
    apply cont_spec; [unfold is_byte; lia|done]. }
  rewrite Hall, Hv, Hbad, zlen_cons. do 2 f_equal. lia.
Qed.

(** Skipping a character keeps well-formedness both ways. *)
Lemma utf8_step s p k : bytes_ok s -> 0 <= p < zlen s -> utf8_char s p = Some (Some k) ->
  utf8 (zdrop p s) <-> utf8 (zdrop (p + k) s).
Proof.
  intros Hs Hp Hk. destruct (utf8_char_sound s p k Hs Hp Hk) as (cp & Hsc & Hd & Hkz). pose proof (zlen_nonneg (utf8_encode cp)). split.
  - intros Hu. remember (zdrop p s) as l eqn:El. destruct Hu as [|cp' t Hsc' Ht].
    { assert (zlen (zdrop p s) = 0) by (by rewrite <- El). rewrite zlen_zdrop in *; lia. }
    pose proof (utf8_char_complete s p cp' t Hs ltac:(lia) Hsc' (eq_sym El)) as Hk'. rewrite Hk in Hk'. injection Hk' as Hk'.
    assert (Ht' : t = zdrop k (zdrop p s)) by (rewrite <- El; symmetry; by apply zdrop_app).
    rewrite Ht', zdrop_zdrop in Ht by lia. done.
  - intros Hu. rewrite Hd. by constructor.
Qed.

Lemma utf8_stuck s p : bytes_ok s -> 0 <= p < zlen s -> utf8_char s p = Some None -> ~ utf8 (zdrop p s).
Proof.
  intros Hs Hp Hk Hu. remember (zdrop p s) as l eqn:El. destruct Hu as [|cp t Hsc Ht].
  - assert (zlen (zdrop p s) = 0) by (by rewrite <- El). rewrite zlen_zdrop in *; lia.
  - rewrite (utf8_char_complete s p cp t Hs ltac:(lia) Hsc (eq_sym El)) in Hk. done.
Qed.

(** An ASCII byte is a character. *)
Lemma utf8_ascii s p n : bytes_ok s -> 0 <= p -> p + Z.of_nat n <= zlen s ->
  (forall i, 0 <= i < Z.of_nat n -> exists b, zget s (p + i) = Some b /\ b < 128) ->
  utf8 (zdrop p s) <-> utf8 (zdrop (p + Z.of_nat n) s).
Proof.
  intros Hs. revert p. induction n as [|n IH]; intros p Hp Hr Hb; [by rewrite Z.add_0_r|].
  destruct (Hb 0 ltac:(lia)) as (b & Hg & Hlt). rewrite Z.add_0_r in Hg.
  assert (Hc : utf8_char s p = Some (Some 1)) by (unfold utf8_char; rewrite Hg; by destruct (Z.ltb_spec b 128); [|lia]).
  rewrite (utf8_step s p 1 Hs ltac:(lia) Hc), IH by (lia || (intros i Hi; destruct (Hb (i + 1) ltac:(lia)) as (b' & Hb' & ?); exists b'; split; [rewrite <- Hb'; f_equal; lia|done])).
  by replace (p + 1 + Z.of_nat n) with (p + Z.of_nat (S n)) by lia.
Qed.

(** A word with no high bit holds eight ASCII bytes. *)
Lemma ascii_word s p w : bytes_ok s -> 0 <= p -> p + 8 <= zlen s -> load_le64 s p = Some w ->
  (forall i, 0 <= i < 8 -> Z.testbit w (8 * i + 7) = false) ->
  forall i, 0 <= i < 8 -> exists b, zget s (p + i) = Some b /\ b < 128.
Proof.
  intros Hs Hp Hr Hw Hbits i Hi. destruct (proj2 (zget_is_Some s (p + i))) as [b Hb]; [lia|]. exists b. split; [done|].
  pose proof (zget_byte _ _ _ Hs Hb) as Hbb.
  rewrite load_le64_spec in Hw by (done || lia). injection Hw as <-. specialize (Hbits i Hi). unfold slice in Hbits.
  rewrite testbit_wrap, Z.shiftr_spec in Hbits by lia. destruct (Z.ltb_spec (8 * i + 7) 64); [|lia]. cbn [andb] in Hbits.
  pose proof (bit_byte s (p + i) b 7 Hs Hb ltac:(lia)) as H7. cbn [Z.ltb Z.compare Pos.compare Pos.compare_cont andb] in H7.
  unfold bit in H7. replace (8 * (p + i) + 7) with (8 * i + 7 + 8 * p) in H7 by lia. rewrite Hbits in H7.
  pose proof (byte_forall (fun b => Z.testbit b 7 || (b <? 128)) ltac:(by vm_compute) b Hbb) as Hf.
  cbn beta in Hf. rewrite H7 in Hf. by apply Z.ltb_lt.
Qed.

Lemma mask_bits w : 0 <= w -> Z.land w ascii_mask = 0 -> forall i, 0 <= i < 8 -> Z.testbit w (8 * i + 7) = false.
Proof.
  intros Hw Hm i Hi. assert (Hb : Z.testbit (Z.land w ascii_mask) (8 * i + 7) = false) by (rewrite Hm; apply Z.bits_0).
  rewrite Z.land_spec in Hb.
  assert (Hone : Z.testbit ascii_mask (8 * i + 7) = true).
  { assert (H : forallb (fun i => Z.testbit ascii_mask (8 * i + 7)) (seqZ 0 8) = true) by (by vm_compute).
    rewrite List.forallb_forall in H. apply H, in_seqZ. lia. }
  rewrite Hone, andb_true_r in Hb. done.
Qed.

Lemma load_nonneg s p w : bytes_ok s -> load_le64 s p = Some w -> 0 <= w.
Proof.
  intros Hs. unfold load_le64. destruct (_ && _); [|done]. intros [= <-].
  apply (le_val_range (ztake 8 (zdrop p s))). auto using bytes_ok_ztake, bytes_ok_zdrop.
Qed.

Lemma ascii_skip_spec s p : bytes_ok s -> 0 <= p < zlen s ->
  exists k, ascii_skip s p = Some k /\ 0 <= k /\ p + k <= zlen s /\ (utf8 (zdrop p s) <-> utf8 (zdrop (p + k) s)).
Proof.
  intros Hs Hp. unfold ascii_skip.
  assert (Hload : forall q, 0 <= q -> q + 8 <= zlen s -> exists w, load_le64 s q = Some w /\ 0 <= w).
  { intros q Hq Hr. exists (slice s (8 * q) 64). split; [by apply load_le64_spec|]. by apply (wrap_range 64). }
  destruct (Z.leb_spec 16 (zlen s - p)).
  - destruct (Hload p ltac:(lia) ltac:(lia)) as (w0 & H0 & Hw0), (Hload (p + 8) ltac:(lia) ltac:(lia)) as (w1 & H1 & Hw1).
    rewrite H0, H1. eexists. split; [done|]. destruct (Z.eqb_spec (Z.land (Z.lor w0 w1) ascii_mask) 0) as [Hm|];
      [|rewrite Z.add_0_r; split_and!; done || lia].
    assert (Hb : forall i, 0 <= i < 8 -> Z.testbit w0 (8 * i + 7) = false /\ Z.testbit w1 (8 * i + 7) = false).
    { intros i Hi. assert (Hor : Z.testbit (Z.lor w0 w1) (8 * i + 7) = false) by (apply mask_bits; [apply Z.lor_nonneg; lia|done|done]).
      rewrite Z.lor_spec in Hor. by apply orb_false_iff in Hor. }
    split; [lia|]. split; [lia|]. apply (utf8_ascii s p 16 Hs); [lia|lia|]. intros i Hi.
    destruct (Z.lt_ge_cases i 8).
    + apply (ascii_word s p w0); try done; try lia. intros j Hj. by apply Hb.
    + destruct (ascii_word s (p + 8) w1 Hs ltac:(lia) ltac:(lia) H1 ltac:(intros j Hj; by apply Hb) (i - 8) ltac:(lia)) as (b & Hb' & ?).
      exists b. split; [rewrite <- Hb'; f_equal; lia|done].
  - destruct (Z.leb_spec 8 (zlen s - p)); [|exists 0; rewrite Z.add_0_r; split_and!; done || lia].
    destruct (Hload p ltac:(lia) ltac:(lia)) as (w0 & Hld & Hw0). rewrite Hld. eexists. split; [done|].
    destruct (Z.eqb_spec (Z.land w0 ascii_mask) 0) as [Hm|]; [|rewrite Z.add_0_r; split_and!; done || lia].
    split; [lia|]. split; [lia|]. apply (utf8_ascii s p 8 Hs); [lia|lia|].
    apply (ascii_word s p w0); try done; try lia. by apply mask_bits.
Qed.

Lemma utf8_loop_spec fuel s p : bytes_ok s -> 0 <= p <= zlen s -> zlen s - p <= Z.of_nat fuel ->
  exists b, utf8_loop fuel s p = Some b /\ (b = true <-> utf8 (zdrop p s)).
Proof.
  intros Hs. revert p. induction fuel as [|fuel IH]; intros p Hp Hf; cbn [utf8_loop]; destruct (Z.ltb_spec p (zlen s)); try lia.
  1, 3: exists true; rewrite zdrop_all by lia; split; [done|]; split; [constructor|done].
  destruct (ascii_skip_spec s p Hs ltac:(lia)) as (k & -> & Hk0 & Hkr & Hiff).
  destruct (Z.eqb_spec k 0); cbn [negb].
  - destruct (utf8_char_total s p Hs ltac:(lia)) as ([n|] & Hc); rewrite Hc.
    + pose proof (utf8_step s p n Hs ltac:(lia) Hc) as Hst. destruct (utf8_char_sound s p n Hs ltac:(lia) Hc) as (cp & Hsc & Hd & Hn).
      assert (1 <= n) by (destruct (encode_shape cp Hsc) as [[_ He]|(m & c & bs & Hm & Hz & _ & _ & He & _)]; rewrite Hn, He; [done|];
        rewrite zlen_cons; lia).
      assert (zlen (zdrop p s) = n + zlen (zdrop (p + n) s)) as Hlen by (rewrite Hd at 1; rewrite zlen_app; lia).
      rewrite !zlen_zdrop in Hlen by lia.
      destruct (IH (p + n)) as (b & -> & Hb); [lia..|]. exists b. split; [done|]. by rewrite Hst.
    + exists false. split; [done|]. split; [done|]. intros Hu. by destruct (utf8_stuck s p Hs ltac:(lia) Hc).
  - destruct (IH (p + k)) as (b & -> & Hb); [lia..|]. exists b. split; [done|]. by rewrite Hiff.
Qed.

(** [valid_utf8] decides well-formed UTF-8: on every byte string it ends
    without reading outside it, and it answers [true] exactly for the
    concatenations of encoded Unicode scalar values (no overlong form, no
    surrogate, nothing above U+10FFFF), whatever mix of 16-byte, 8-byte and
    single steps it took. *)
Theorem valid_utf8_decides s : bytes_ok s ->
  exists b, valid_utf8 s = Some b /\
    (b = true <-> exists cps, Forall scalar cps /\ s = concat (List.map utf8_encode cps)).
Proof.
  intros Hs. destruct (utf8_loop_spec (length s) s 0 Hs) as (b & Hb & Hiff); [pose proof (zlen_nonneg s); lia|unfold zlen; lia|].
  exists b. split; [exact Hb|]. by rewrite Hiff, zdrop_0, utf8_concat.
Qed.

Lemma valid_utf8_decides_witness : exists b, valid_utf8 [226; 130; 172; 65] = Some b /\ b = true.
Proof.
  destruct (valid_utf8_decides [226; 130; 172; 65] ltac:(repeat constructor; lia)) as (b & Hb & Hiff).
  exists b. split; [exact Hb|]. apply Hiff. exists [8364; 65]. split; [repeat constructor; unfold scalar; lia|reflexivity].
Defined.

(** ** Values cut out of a validated concatenation *)
Lemma valid_utf8_iff s : bytes_ok s -> valid_utf8 s = Some true <-> utf8 s.
Proof.
  intros Hs. destruct (utf8_loop_spec (length s) s 0 Hs) as (b & Hb & Hiff); [pose proof (zlen_nonneg s); lia|unfold zlen; lia|].
  rewrite zdrop_0 in Hiff. fold (valid_utf8 s) in Hb. rewrite Hb, <- Hiff. split; [by intros [= ->]|by intros ->].
Qed.

Definition starts_char (l : list Z) (k : Z) : Prop := k = zlen l \/ exists b, zget l k = Some b /\ cont b = false.

(** Inside an encoded character there are only continuation bytes. *)
Lemma encode_inside cp k b : scalar cp -> 0 < k -> zget (utf8_encode cp) k = Some b -> cont b = true.
Proof.
  intros Hsc Hk Hg. destruct (encode_shape cp Hsc) as [[_ He]|(n & c & bs & _ & _ & _ & Hbs & He & _)]; rewrite He in Hg.
  - apply zget_Some_range in Hg. change (zlen [cp]) with 1 in Hg. lia.
  - assert (Hin : b ∈ bs).
    { unfold zget in Hg. destruct (Z.ltb_spec k 0); [lia|]. apply list_elem_of_lookup. exists (Z.to_nat (k - 1)).
      by replace (Z.to_nat k) with (S (Z.to_nat (k - 1))) in Hg by lia. }
    rewrite Forall_forall in Hbs. specialize (Hbs b Hin). apply cont_spec; [unfold is_byte; lia|done].
Qed.

Lemma encode_first cp b t l : scalar cp -> utf8_encode cp ++ t = b :: l -> cont b = false.
Proof.
  intros Hsc. destruct (encode_shape cp Hsc) as [[Hlt He]|(n & c & bs & Hn & _ & Hc & _ & He & _)]; rewrite He; intros [= <- _];
    apply not_true_is_false; intros Hct.
  - apply cont_spec in Hct; [lia|]. unfold is_byte. unfold scalar in Hsc. lia.
  - apply cont_spec in Hct; unfold is_byte, lead_base, lead_size in *; destruct (n =? 1), (n =? 2); lia.
Qed.

Lemma utf8_cut l k : utf8 l -> 0 <= k <= zlen l -> starts_char l k -> utf8 (ztake k l) /\ utf8 (zdrop k l).
Proof.
  intros Hu. revert k. induction Hu as [|cp t Hsc Ht IH]; intros k Hk Hst.
  { unfold ztake, zdrop. rewrite take_nil, drop_nil. by split; constructor. }
  destruct (decide (k = 0)) as [-> |]; [split; [constructor|by constructor]|].
  rewrite zlen_app in Hk. destruct (Z.lt_ge_cases k (zlen (utf8_encode cp))) as [Hlt|Hge].
  - exfalso. pose proof (zlen_nonneg t). destruct Hst as [Hst|(b & Hb & Hc)]; [rewrite zlen_app in Hst; lia|].
    rewrite zget_app_l in Hb by done. rewrite (encode_inside cp k b) in Hc by (done || lia). done.
  - rewrite ztake_app_r, zdrop_app_r by done. destruct (IH (k - zlen (utf8_encode cp))) as [H1 H2]; [lia| |].
    + destruct Hst as [Hst|(b & Hb & Hc)]; [left; rewrite zlen_app in Hst; lia|right]. exists b. by rewrite zget_app_r in Hb.
    + split; [by constructor|done].
Qed.

(** The values: each from its start to the next one's, the last to the end. *)
Fixpoint cut_values (data : list Z) (end_ : Z) (starts : list Z) : list (list Z) :=
  match starts with
  | [] => []
  | o :: rest => ztake ((match rest with [] => end_ | o' :: _ => o' end) - o) (zdrop o data) :: cut_values data end_ rest
  end.

(** Start offsets in order, up to the end. *)
Fixpoint ordered (lo end_ : Z) (starts : list Z) : Prop :=
  match starts with [] => True | o :: rest => lo <= o <= end_ /\ ordered o end_ rest end.

Section Starts.
Context (data : list Z) (end_ : Z) (Hok : bytes_ok data) (Hend : 0 <= end_ <= zlen data) (Hutf : utf8 (ztake end_ data)).

Lemma slice_of a b : 0 <= a <= b -> b <= end_ ->
  ztake (b - a) (zdrop a data) = zdrop a (ztake b (ztake end_ data)).
Proof using. intros Ha Hb. rewrite ztake_ztake by lia. by rewrite zdrop_ztake by lia. Qed.

Lemma starts_cut o : 0 <= o <= end_ ->
  (o < end_ -> exists b, zget data o = Some b /\ cont b = false) <-> starts_char (ztake end_ data) o.
Proof using Hend.
  intros Ho. unfold starts_char. rewrite zlen_ztake by lia. split.
  - intros H. destruct (Z.lt_ge_cases o end_) as [Hlt|]; [right|left; lia].
    destruct (H Hlt) as (b & Hb & Hc). exists b. by rewrite zget_ztake by lia.
  - intros [H|(b & Hb & Hc)] Hlt; [lia|]. exists b. by rewrite zget_ztake in Hb by lia.
Qed.

(** A slice between two character boundaries is well-formed. *)
Lemma slice_utf8 a b : 0 <= a <= b -> b <= end_ -> starts_char (ztake end_ data) a -> starts_char (ztake end_ data) b ->
  utf8 (ztake (b - a) (zdrop a data)).
Proof using Hend Hutf.
  intros Ha Hb Hsa Hsb. rewrite slice_of by done. assert (Hz : zlen (ztake end_ data) = end_) by (rewrite zlen_ztake; lia).
  destruct (utf8_cut _ b Hutf ltac:(lia) Hsb) as [Hu _].
  apply (utf8_cut _ a Hu); [rewrite zlen_ztake; lia|]. unfold starts_char in *. rewrite zlen_ztake, Hz by lia.
  destruct (decide (a = b)) as [-> |]; [left; lia|]. destruct Hsa as [Hsa|(x & Hx & Hc)]; [lia|right].
  exists x. by rewrite zget_ztake by lia.
Qed.

(** A non-empty value on a continuation byte is not. *)
Lemma slice_cont a b x : 0 <= a < b -> b <= end_ -> zget data a = Some x -> cont x = true -> ~ utf8 (ztake (b - a) (zdrop a data)).
Proof using.
  intros Ha Hb Hx Hc Hu. rewrite (zdrop_cons_get data a x) in Hu by (done || lia).
  replace (b - a) with ((b - a - 1) + 1) in Hu by lia. rewrite ztake_S in Hu by lia.
  remember (x :: _) as l eqn:El. destruct Hu as [|cp t Hsc Ht]; [done|]. by rewrite (encode_first cp x t _ Hsc El) in Hc.
Qed.

Lemma starts_ok_spec starts lo : 0 <= lo -> ordered lo end_ starts ->
  exists b, utf8_starts_ok data end_ starts = Some b /\
    (b = true <-> Forall utf8 (cut_values data end_ starts)) /\
    (b = true <-> Forall (starts_char (ztake end_ data)) starts).
Proof using Hok Hend Hutf.
  revert lo. induction starts as [|o rest IH]; intros lo Hlo Hord; cbn [utf8_starts_ok cut_values].
  { exists true. by repeat split. }
  destruct Hord as [Ho Hrest]. destruct (IH o ltac:(lia) Hrest) as (b & Hb & Hv & Hs).
  set (next := match rest with [] => end_ | o' :: _ => o' end).
  assert (Hnext : o <= next <= end_) by (unfold next; destruct rest; cbn in Hrest; lia).
  (* the values behind an empty one that starts inside a character *)
  assert (Hbad : (exists x, zget data o = Some x /\ cont x = true) -> o < end_ ->
    utf8 (ztake (next - o) (zdrop o data)) -> ~ Forall utf8 (cut_values data end_ rest)).
  { intros (x & Hx & Hc) Hlt Hu. destruct (decide (o < next)) as [Hn|Hn]; [by destruct (slice_cont o next x ltac:(lia) ltac:(lia) Hx Hc)|].
    rewrite <- Hv, Hs. unfold next in *. destruct rest as [|o' rest']; [lia|]. rewrite Forall_cons. intros [Hst _].
    replace o' with o in Hst by lia. rewrite <- starts_cut in Hst by lia. destruct (Hst Hlt) as (y & Hy & Hcy). congruence. }
  assert (Hgood : starts_char (ztake end_ data) o -> Forall (starts_char (ztake end_ data)) rest ->
    utf8 (ztake (next - o) (zdrop o data))).
  { intros Hso Hsr. apply slice_utf8; [lia|lia|done|]. unfold next. destruct rest; [left; rewrite zlen_ztake; lia|].
    by apply Forall_cons in Hsr as [? _]. }
  destruct (Z.ltb_spec o end_) as [Hlt|Hge].
  - destruct (proj2 (zget_is_Some data o)) as [x Hx]; [lia|]. rewrite Hx. fold (cont x). destruct (cont x) eqn:Hc.
    + exists false. split; [done|]. rewrite !Forall_cons, <- (starts_cut o) by lia. split; (split; [done|]).
      * intros [Hu Hr]. destruct (Hbad ltac:(eauto) Hlt Hu Hr).
      * intros [Hst _]. destruct (Hst Hlt) as (y & Hy & Hcy). congruence.
    + exists b. split; [done|]. rewrite !Forall_cons, <- (starts_cut o), Hs by lia.
      assert (Hso : starts_char (ztake end_ data) o) by (apply starts_cut; [lia|]; intros _; by exists x).
      split; [rewrite <- Hv, Hs; by intuition|]. split; [|by intros [_ ?]]. intros Hr. split; [|done]. intros _. by exists x.
  - exists b. split; [done|]. rewrite !Forall_cons, <- (starts_cut o), Hs by lia.
    assert (Hso : starts_char (ztake end_ data) o) by (left; rewrite zlen_ztake; lia).
    split; [rewrite <- Hv, Hs; by intuition|]. split; [|by intros [_ ?]]. intros Hr. split; [lia|done].
Qed.
End Starts.

(** The boundary test is exact. Given that the concatenation passed
    [valid_utf8], [utf8_starts_ok] answers whether every value cut out of it at
    the (ordered) start offsets would pass on its own, empty values included. *)
Theorem utf8_starts_ok_exact data end_ starts :
  bytes_ok data -> 0 <= end_ <= zlen data -> valid_utf8 (ztake end_ data) = Some true -> ordered 0 end_ starts ->
  exists b, utf8_starts_ok data end_ starts = Some b /\
    (b = true <-> Forall (fun v => valid_utf8 v = Some true) (cut_values data end_ starts)).
Proof.
  intros Hok Hend Hv Hord. apply valid_utf8_iff in Hv; [|by apply bytes_ok_ztake].
  destruct (starts_ok_spec data end_ Hok Hend Hv starts 0 ltac:(lia) Hord) as (b & Hb & Hiff & _). exists b. split; [done|].
  rewrite Hiff. clear -Hok. induction starts as [|o rest IH]; cbn [cut_values]; [done|]. rewrite !Forall_cons.
  rewrite valid_utf8_iff by auto using bytes_ok_ztake, bytes_ok_zdrop. tauto.
Qed.

Lemma utf8_starts_ok_exact_witness :
  exists b, utf8_starts_ok [195; 169; 65] 3 [0; 1; 2] = Some b /\
    (b = true <-> Forall (fun v => valid_utf8 v = Some true) (cut_values [195; 169; 65] 3 [0; 1; 2])).
Proof.
  exact (utf8_starts_ok_exact [195; 169; 65] 3 [0; 1; 2] ltac:(repeat constructor; lia) ltac:(by vm_compute)
    ltac:(by vm_compute) ltac:(cbn; lia)).
Defined.
