(* ===== verification/FastLanes.v ===== *)
(** * FastLanes blocks (fastlanes.hpp; columnar_encode.hpp section 51)

    Blocks of 1024 values of a [bits]-bit word type packed at [width] bits,
    rows outside and lanes inside. Arrays are lists; [None] is an access
    outside one, [Some None] is [return false]. The [table] of per-width
    functions is the function of the width. *)
From S2P Require Import Prelude Columnar LzCopy ColumnarEncode.

Definition kBlock : Z := 1024.

(** [concept word]: the word types, by their width. *)
Definition word (bits : Z) : Prop := bits = 8 \/ bits = 16 \/ bits = 32 \/ bits = 64.

Definition packed_words_1024 (bits width : Z) : Z := kBlock * width / bits.

Definition kFlOrder : list Z := [0; 4; 2; 6; 1; 5; 3; 7].

Definition fl_index (row lane : Z) : Z := nth (Z.to_nat (row / 8)) kFlOrder 0 * 16 + row mod 8 * 128 + lane.

Definition fl_mask (bits width : Z) : Z :=
  if width =? 0 then 0 else if bits <=? width then 2 ^ bits - 1 else 2 ^ width - 1.

(** The [n] elements from index [at_]. *)
Definition row_at (l : list Z) (at_ n : Z) : option (list Z) :=
  if (0 <=? at_) && (at_ + n <=? zlen l) then Some (ztake n (zdrop at_ l)) else None.

(** ** Packing *)
Definition pack_row (bits width : Z) (l : list Z) (s : option (list Z * list Z)) (row : Z) : option (list Z * list Z) :=
  match s with
  | None => None
  | Some (tmp, out) =>
      let lanes := kBlock / bits in
      let mask := fl_mask bits width in
      match row_at l (fl_index row 0) lanes with
      | None => None
      | Some in_row =>
          let shift := row * width mod bits in
          let curr_word := row * width / bits in
          let next_word := (row + 1) * width / bits in
          let tmp :=
            if row =? 0 then List.map (fun v => Z.land v mask) in_row
            else zip_with (fun t v => wrap bits (Z.lor t (wrap bits (Z.shiftl (Z.land v mask) shift)))) tmp in_row in
          if curr_word <? next_word then
            match store out (lanes * curr_word) tmp with
            | None => None
            | Some out' =>
                let rshift := width - (row + 1) * width mod bits in
                Some (List.map (fun v => Z.shiftr (Z.land v mask) rshift) in_row, out')
            end
          else Some (tmp, out)
      end
  end.

Definition pack_w (bits width : Z) (l out : list Z) : option (list Z) :=
  match fold_left (pack_row bits width l) (seqZ 0 bits) (Some ([], out)) with
  | Some (_, out') => Some out'
  | None => None
  end.

(** Width equal to the word: rows copied as they are. *)
Definition copy_row (lanes : Z) (to from : Z -> Z) (l : list Z) (s : option (list Z)) (row : Z) : option (list Z) :=
  match s with
  | None => None
  | Some out => match row_at l (from row) lanes with
                | None => None
                | Some r => store out (to row) r
                end
  end.

Definition pack_1024_unchecked (bits width : Z) (l out : list Z) : option (list Z) :=
  let lanes := kBlock / bits in
  if width =? 0 then Some out
  else if width =? bits then
    fold_left (copy_row lanes (fun row => lanes * row) (fun row => fl_index row 0) l) (seqZ 0 bits) (Some out)
  else pack_w bits width l out.

Definition pack_1024 (bits width : Z) (l out : list Z) : option (option (list Z)) :=
  if (bits <? width) || (zlen out <? packed_words_1024 bits width) then Some None
  else match pack_1024_unchecked bits width l out with
       | None => None
       | Some out' => Some (Some out')
       end.

(** ** Unpacking *)
Definition unpack_row (bits width : Z) (l : list Z) (s : option (list Z * list Z)) (row : Z) : option (list Z * list Z) :=
  match s with
  | None => None
  | Some (src, out) =>
      let lanes := kBlock / bits in
      let shift := row * width mod bits in
      let curr_word := row * width / bits in
      let next_word := (row + 1) * width / bits in
      if curr_word <? next_word then
        let remaining := (row + 1) * width mod bits in
        let current_bits := width - remaining in
        let low := List.map (fun v => Z.land (Z.shiftr v shift) (fl_mask bits current_bits)) src in
        if next_word <? width then
          match row_at l (lanes * next_word) lanes with
          | None => None
          | Some next_in =>
              let whole := zip_with (fun o v =>
                wrap bits (Z.lor o (wrap bits (Z.shiftl (Z.land v (fl_mask bits remaining)) current_bits)))) low next_in in
              match store out (fl_index row 0) whole with
              | None => None
              | Some out' => Some (next_in, out')
              end
          end
        else match store out (fl_index row 0) low with
             | None => None
             | Some out' => Some (src, out')
             end
      else
        match store out (fl_index row 0) (List.map (fun v => Z.land (Z.shiftr v shift) (fl_mask bits width)) src) with
        | None => None
        | Some out' => Some (src, out')
        end
  end.

Definition unpack_w (bits width : Z) (l out : list Z) : option (list Z) :=
  match row_at l 0 (kBlock / bits) with
  | None => None
  | Some src =>
      match fold_left (unpack_row bits width l) (seqZ 0 bits) (Some (src, out)) with
      | Some (_, out') => Some out'
      | None => None
      end
  end.

Definition unpack_1024_unchecked (bits width : Z) (l out : list Z) : option (list Z) :=
  let lanes := kBlock / bits in
  if width =? 0 then store out 0 (replicate (Z.to_nat kBlock) 0)
  else if width =? bits then
    fold_left (copy_row lanes (fun row => fl_index row 0) (fun row => lanes * row) l) (seqZ 0 bits) (Some out)
  else unpack_w bits width l out.

Definition unpack_1024 (bits width : Z) (l out : list Z) : option (option (list Z)) :=
  if (bits <? width) || (zlen l <? packed_words_1024 bits width) then Some None
  else match unpack_1024_unchecked bits width l out with
       | None => None
       | Some out' => Some (Some out')
       end.

(** ** Layout: the rows tile the block *)
Definition layout_ok (bits : Z) : bool :=
  let lanes := kBlock / bits in
  forallb (fun r =>
    (0 <=? fl_index r 0) && (fl_index r 0 + lanes <=? kBlock) &&
    forallb (fun r' => (r =? r') || (fl_index r 0 + lanes <=? fl_index r' 0) || (fl_index r' 0 + lanes <=? fl_index r 0))
      (seqZ 0 bits)) (seqZ 0 bits) &&
  forallb (fun i => existsb (fun r => (fl_index r 0 <=? i) && (i <? fl_index r 0 + lanes)) (seqZ 0 bits)) (seqZ 0 kBlock).

Lemma layout bits : word bits -> layout_ok bits = true.
Proof. intros [-> |[-> |[-> | ->]]]; by vm_compute. Qed.

Section Block.
Context (bits : Z) (Hword : word bits).
Local Notation lanes := (kBlock / bits).

Lemma lanes_bits : lanes * bits = kBlock /\ 16 <= lanes.
Proof using Hword. destruct Hword as [-> |[-> |[-> | ->]]]; done. Qed.

Lemma bits_range : 8 <= bits <= 64.
Proof using Hword. destruct Hword as [-> |[-> |[-> | ->]]]; done. Qed.

Lemma fl_index_lane row lane : fl_index row lane = fl_index row 0 + lane.
Proof using. unfold fl_index. lia. Qed.

Lemma row_in r : 0 <= r < bits -> 0 <= fl_index r 0 /\ fl_index r 0 + lanes <= kBlock.
Proof using Hword.
  intros Hr. pose proof (layout bits Hword) as Hl. unfold layout_ok in Hl. apply andb_true_iff in Hl as [Hl _].
  rewrite List.forallb_forall in Hl. specialize (Hl r ltac:(apply in_seqZ; lia)).
  rewrite !andb_true_iff, !Z.leb_le in Hl. lia.
Qed.

Lemma rows_apart r r' : 0 <= r < bits -> 0 <= r' < bits -> r <> r' ->
  fl_index r 0 + lanes <= fl_index r' 0 \/ fl_index r' 0 + lanes <= fl_index r 0.
Proof using Hword.
  intros Hr Hr' Hne. pose proof (layout bits Hword) as Hl. unfold layout_ok in Hl. apply andb_true_iff in Hl as [Hl _].
  rewrite List.forallb_forall in Hl. specialize (Hl r ltac:(apply in_seqZ; lia)). apply andb_true_iff in Hl as [_ Hl].
  rewrite List.forallb_forall in Hl. specialize (Hl r' ltac:(apply in_seqZ; lia)).
  rewrite !orb_true_iff, !Z.leb_le, Z.eqb_eq in Hl. lia.
Qed.

Lemma row_of i : 0 <= i < kBlock -> exists r lane, 0 <= r < bits /\ 0 <= lane < lanes /\ i = fl_index r lane.
Proof using Hword.
  intros Hi. pose proof (layout bits Hword) as Hl. unfold layout_ok in Hl. apply andb_true_iff in Hl as [_ Hl].
  rewrite List.forallb_forall in Hl. specialize (Hl i ltac:(apply in_seqZ; lia)).
  apply List.existsb_exists in Hl as (r & Hr & Hin). apply in_seqZ in Hr. apply andb_true_iff in Hin as [H1%Z.leb_le H2%Z.ltb_lt].
  exists r, (i - fl_index r 0). rewrite (fl_index_lane r (i - fl_index r 0)). lia.
Qed.

(** ** Lists indexed by lane *)
Definition lanewise (f : Z -> Z) : list Z := List.map f (seqZ 0 lanes).

Lemma zlen_lanewise f : zlen (lanewise f) = lanes.
Proof using Hword. unfold lanewise. rewrite zlen_map, zlen_seqZ; [done|]. pose proof lanes_bits. lia. Qed.

Lemma map_lanewise (g : Z -> Z) f : List.map g (lanewise f) = lanewise (fun lane => g (f lane)).
Proof using. unfold lanewise. by rewrite List.map_map. Qed.

Lemma zip_lanewise (g : Z -> Z -> Z) f1 f2 : zip_with g (lanewise f1) (lanewise f2) = lanewise (fun lane => g (f1 lane) (f2 lane)).
Proof using. unfold lanewise. generalize (seqZ 0 lanes) as ks. intros ks. induction ks as [|k ks IH]; cbn; [done|by rewrite IH]. Qed.

Lemma lanewise_ext f1 f2 : (forall lane, 0 <= lane < lanes -> f1 lane = f2 lane) -> lanewise f1 = lanewise f2.
Proof using. intros H. apply map_ext_in. intros lane Hl. apply in_seqZ in Hl. apply H. lia. Qed.

Lemma zget_lanewise f lane : 0 <= lane < lanes -> zget (lanewise f) lane = Some (f lane).
Proof using. intros Hl. by apply zget_map_seqZ. Qed.

(** Reading [lanes] elements, given each of them. *)
Lemma row_at_lanewise l at_ f : 0 <= at_ -> at_ + lanes <= zlen l -> (forall lane, 0 <= lane < lanes -> zget l (at_ + lane) = Some (f lane)) ->
  row_at l at_ lanes = Some (lanewise f).
Proof using Hword.
  intros Ha Hf Hg. unfold row_at. destruct (Z.leb_spec 0 at_), (Z.leb_spec (at_ + lanes) (zlen l)); try lia. cbn [andb]. f_equal.
  pose proof lanes_bits. apply zget_ext; [rewrite zlen_lanewise, zlen_ztake, zlen_zdrop; lia|].
  intros k Hk. rewrite zlen_ztake, zlen_zdrop in Hk by lia. rewrite zget_ztake, zget_zdrop by lia.
  by rewrite Hg, zget_lanewise by lia.
Qed.

Lemma fl_mask_ones w : 0 <= w < bits -> fl_mask bits w = Z.ones w.
Proof using.
  intros Hw. unfold fl_mask. rewrite Z.ones_equiv. destruct (Z.eqb_spec w 0) as [-> |]; [done|].
  destruct (Z.leb_spec bits w); lia.
Qed.

(** ** One lane of packing: the digits of the packed number *)
Context (width : Z) (Hwidth : 1 <= width < bits).

Definition digit (V k : Z) : Z := wrap bits (Z.shiftr V (bits * k)).

(** What the lane's accumulator holds when [V] is packed so far. *)
Definition top (V r : Z) : Z := Z.shiftr V (bits * (r * width / bits)).

Record cursor (r shift curr next : Z) : Prop := Cursor {
  cu_shift : r * width = bits * curr + shift /\ 0 <= shift < bits;
  cu_same : next = curr -> shift + width < bits;
  cu_next : next = curr \/ next = curr + 1;
  cu_cross : next = curr + 1 -> bits <= shift + width;
  cu_curr : 0 <= curr
}.

Lemma row_cursor r : 0 <= r -> cursor r (r * width mod bits) (r * width / bits) ((r + 1) * width / bits).
Proof using Hword Hwidth.
  intros Hr. pose proof bits_range as Hb. pose proof (Z.div_mod (r * width) bits ltac:(lia)) as Hdm.
  pose proof (Z.mod_pos_bound (r * width) bits ltac:(lia)). pose proof (Z.div_mod ((r + 1) * width) bits ltac:(lia)).
  pose proof (Z.mod_pos_bound ((r + 1) * width) bits ltac:(lia)). assert (0 <= r * width / bits) by (apply Z.div_pos; nia).
  constructor; nia.
Qed.

(** Adding a row of value [m] to [V] (below 2^(r * width)). *)
Lemma lane_add V m r : 0 <= r -> 0 <= V < 2 ^ (r * width) -> 0 <= m < 2 ^ width ->
  let shift := r * width mod bits in
  let V' := V + 2 ^ (r * width) * m in
  let t := wrap bits (Z.lor (top V r) (wrap bits (Z.shiftl m shift))) in
  t = digit V' (r * width / bits) /\
  ((r + 1) * width / bits = r * width / bits -> top V' (r + 1) = t) /\
  ((r + 1) * width / bits = r * width / bits + 1 -> top V' (r + 1) = Z.shiftr m (bits - shift)).
Proof using Hword Hwidth.
  intros Hr HV Hm shift V' t. pose proof (row_cursor r Hr) as Hc. fold shift in Hc. pose proof bits_range.
  unfold t, top. clearbody shift.
  set (curr := r * width / bits) in *. set (next := (r + 1) * width / bits) in *. clearbody curr next.
  destruct Hc as [[Hs Hsr] Hsame Hnx Hcross Hc0].
  assert (HV' : V' = Z.lor V (Z.shiftl m (r * width))).
  { unfold V'. rewrite lor_shiftl_add by (done || nia). lia. }
  assert (HVa : forall i, r * width <= i -> Z.testbit V i = false) by (intros i Hi; by apply (testbit_above V (r * width))).
  assert (Hma : forall i, width <= i -> Z.testbit m i = false) by (intros i Hi; by apply (testbit_above m width)).
  assert (Hbit : forall i, 0 <= i -> Z.testbit V' i = if i <? r * width then Z.testbit V i else Z.testbit m (i - r * width)).
  { intros i Hi. rewrite HV', Z.lor_spec, testbit_shiftl. destruct (Z.leb_spec 0 i); [|lia]. cbn [andb].
    destruct (Z.ltb_spec i (r * width)); [rewrite (Z.testbit_neg_r m) by lia; apply orb_false_r|by rewrite HVa]. }
  clear HV'. clearbody V'.
  assert (Ht : wrap bits (Z.lor (Z.shiftr V (bits * curr)) (wrap bits (Z.shiftl m shift))) = digit V' curr).
  { unfold digit. apply Z.bits_inj'. intros i Hi. rewrite !testbit_wrap, Z.lor_spec, testbit_wrap, testbit_shiftl, !Z.shiftr_spec by lia.
    rewrite Hbit by nia. destruct (Z.ltb_spec i bits); cbn [andb]; [|done]. destruct (Z.leb_spec 0 i); [|lia]. cbn [andb].
    destruct (Z.ltb_spec (i + bits * curr) (r * width)).
    - rewrite (Z.testbit_neg_r m) by lia. apply orb_false_r.
    - rewrite HVa by lia. cbn [orb]. f_equal. lia. }
  rewrite Ht. split_and!; [done| |].
  - intros ->. specialize (Hsame eq_refl). unfold digit. apply Z.bits_inj'. intros i Hi.
    rewrite testbit_wrap, !Z.shiftr_spec by lia. destruct (Z.ltb_spec i bits); cbn [andb]; [done|].
    rewrite Hbit by nia. destruct (Z.ltb_spec (i + bits * curr) (r * width)); [lia|]. apply Hma. lia.
  - intros ->. specialize (Hcross eq_refl). apply Z.bits_inj'. intros i Hi. rewrite !Z.shiftr_spec, Hbit by nia.
    destruct (Z.ltb_spec (i + bits * (curr + 1)) (r * width)); [lia|]. f_equal. lia.
Qed.

(** Rows added later do not change the digits below them. *)
Lemma digit_later V m r k : 0 <= r -> 0 <= V < 2 ^ (r * width) -> 0 <= m -> 0 <= k -> bits * (k + 1) <= r * width ->
  digit (V + 2 ^ (r * width) * m) k = digit V k.
Proof using Hword Hwidth.
  intros Hr HV Hm Hk Hle. pose proof bits_range. unfold digit.
  rewrite Z.mul_comm, <- lor_shiftl_add by (done || nia). apply Z.bits_inj'. intros i Hi.
  rewrite !testbit_wrap, !Z.shiftr_spec, Z.lor_spec, testbit_shiftl by lia.
  destruct (Z.ltb_spec i bits); cbn [andb]; [|done]. rewrite (Z.testbit_neg_r m), andb_false_r by nia. apply orb_false_r.
Qed.

(** ** One lane of unpacking *)
Lemma lane_read V r : 0 <= r -> 0 <= V ->
  let shift := r * width mod bits in
  let curr := r * width / bits in
  let next := (r + 1) * width / bits in
  let remaining := (r + 1) * width mod bits in
  let low := Z.land (Z.shiftr (digit V curr) shift) (Z.ones (width - remaining)) in
  let value := Z.shiftr V (r * width) mod 2 ^ width in
  (next = curr -> Z.land (Z.shiftr (digit V curr) shift) (Z.ones width) = value) /\
  (next = curr + 1 -> 0 <= remaining < width /\
     wrap bits (Z.lor low (wrap bits (Z.shiftl (Z.land (digit V next) (Z.ones remaining)) (width - remaining)))) = value /\
     (remaining = 0 -> low = value)).
Proof using Hword Hwidth.
  intros Hr HV shift curr next remaining low value. pose proof bits_range. unfold low, value.
  assert (Hrem : (r + 1) * width = bits * next + remaining) by (apply Z.div_mod; lia).
  assert (Hrr : 0 <= remaining < bits) by (apply Z.mod_pos_bound; lia).
  pose proof (row_cursor r Hr) as Hc. fold shift curr next in Hc. clearbody shift curr next remaining.
  destruct Hc as [[Hs Hsr] Hsame Hnx Hcross Hc0].
  assert (Hd : forall k i, 0 <= k -> 0 <= i -> Z.testbit (digit V k) i = (i <? bits) && Z.testbit V (bits * k + i)).
  { intros k i Hk Hi. unfold digit. rewrite testbit_wrap, Z.shiftr_spec by lia. do 2 f_equal. lia. }
  split.
  - intros ->. specialize (Hsame eq_refl). apply Z.bits_inj'. intros i Hi.
    rewrite Z.land_spec, testbit_mod_pow2, !Z.shiftr_spec, Hd by lia.
    destruct (Z.ltb_spec i width); [rewrite Z.ones_spec_low, andb_true_r by lia|rewrite Z.ones_spec_high, andb_false_r by lia; done].
    destruct (Z.ltb_spec (i + shift) bits); [|lia]. cbn [andb]. f_equal. lia.
  - intros ->. specialize (Hcross eq_refl). split; [lia|]. split.
    + apply Z.bits_inj'. intros i Hi. rewrite testbit_wrap, Z.lor_spec, testbit_wrap, testbit_shiftl, testbit_mod_pow2 by lia.
      rewrite Z.land_spec, !Z.shiftr_spec, Hd by lia. destruct (Z.ltb_spec i width), (Z.ltb_spec i bits); try lia; cbn [andb].
      * destruct (Z.leb_spec 0 i); [|lia]. cbn [andb]. destruct (Z.lt_ge_cases i (width - remaining)).
        -- rewrite Z.ones_spec_low, andb_true_r by lia. rewrite (Z.testbit_neg_r (Z.land _ _)), orb_false_r by lia.
           destruct (Z.ltb_spec (i + shift) bits); [|lia]. cbn [andb]. f_equal. lia.
        -- rewrite Z.ones_spec_high, andb_false_r by lia. cbn [orb]. rewrite Z.land_spec, Hd by lia.
           rewrite Z.ones_spec_low, andb_true_r by lia. destruct (Z.ltb_spec (i - (width - remaining)) bits); [|lia].
           cbn [andb]. f_equal. lia.
      * rewrite Z.ones_spec_high, andb_false_r by lia. cbn [orb]. destruct (Z.leb_spec 0 i); [|lia]. cbn [andb].
        rewrite Z.land_spec, Z.ones_spec_high, andb_false_r by lia. done.
    + intros ->. rewrite Z.sub_0_r. apply Z.bits_inj'. intros i Hi.
      rewrite Z.land_spec, testbit_mod_pow2, !Z.shiftr_spec, Hd by lia.
      destruct (Z.ltb_spec i width); [rewrite Z.ones_spec_low, andb_true_r by lia|rewrite Z.ones_spec_high, andb_false_r by lia; done].
      destruct (Z.ltb_spec (i + shift) bits); [|lia]. cbn [andb]. f_equal. lia.
Qed.

(** ** Packing a block *)
Section Pack.
Context (l : list Z) (Hl : zlen l = kBlock).

Definition col (r lane : Z) : Z := default 0 (zget l (fl_index r lane)).

(** A lane's number after [r] rows. *)
Definition packed_lane (lane r : Z) : Z := pack_val width (List.map (fun q => col q lane) (seqZ 0 r)).

Definition words (k : Z) : list Z :=
  concat (List.map (fun j => lanewise (fun lane => digit (packed_lane lane bits) j)) (seqZ 0 k)).

Lemma col_get r lane : 0 <= r < bits -> 0 <= lane < lanes -> zget l (fl_index r 0 + lane) = Some (col r lane).
Proof using Hword Hl.
  intros Hr Hla. destruct (row_in r Hr). unfold col. rewrite (fl_index_lane r lane).
  destruct (proj2 (zget_is_Some l (fl_index r 0 + lane))) as [v Hv]; [lia|]. by rewrite Hv.
Qed.

Lemma packed_lane_next lane r : 0 <= r ->
  packed_lane lane (r + 1) = packed_lane lane r + 2 ^ (r * width) * (col r lane mod 2 ^ width).
Proof using Hwidth.
  intros Hr. unfold packed_lane. rewrite seqZ_app, List.map_app by lia. change (seqZ (0 + r) 1) with [0 + r].
  cbn [List.map]. rewrite pack_val_app, zlen_map, zlen_seqZ, Z.add_0_l by lia. by rewrite (Z.mul_comm width r).
Qed.

Lemma packed_lane_range lane r : 0 <= r -> 0 <= packed_lane lane r < 2 ^ (r * width).
Proof using Hwidth.
  intros Hr. unfold packed_lane. pose proof (pack_val_range width (List.map (fun q => col q lane) (seqZ 0 r)) ltac:(lia)) as H.
  rewrite zlen_map, zlen_seqZ, (Z.mul_comm width r) in H by lia. done.
Qed.

Lemma digit_final lane r k : 0 <= r <= bits -> 0 <= k -> bits * (k + 1) <= r * width ->
  digit (packed_lane lane bits) k = digit (packed_lane lane r) k.
Proof using Hword Hwidth.
  intros Hr Hk Hle. replace bits with (r + Z.of_nat (Z.to_nat (bits - r))) at 1 by lia.
  generalize (Z.to_nat (bits - r)) as d. intros d. induction d as [|d IH]; [by rewrite Z.add_0_r|].
  rewrite Nat2Z.inj_succ, <- Z.add_1_r, Z.add_assoc, packed_lane_next by lia.
  rewrite digit_later; [done|lia|apply packed_lane_range; lia|apply Z.mod_pos_bound, Z.pow_pos_nonneg; lia|done|nia].
Qed.

Lemma words_next k : 0 <= k -> words (k + 1) = words k ++ lanewise (fun lane => digit (packed_lane lane bits) k).
Proof using.
  intros Hk. unfold words. rewrite seqZ_app, List.map_app, concat_app by lia.
  change (seqZ (0 + k) 1) with [0 + k]. cbn [List.map concat]. by rewrite app_nil_r, Z.add_0_l.
Qed.

Lemma zlen_words k : 0 <= k -> zlen (words k) = lanes * k.
Proof using Hword.
  intros Hk. rewrite <- (Z2Nat.id k Hk). generalize (Z.to_nat k) as m. intros m.
  induction m as [|m IH]; [change (zlen (words (Z.of_nat 0))) with 0; lia|].
  rewrite Nat2Z.inj_succ, <- Z.add_1_r, words_next, zlen_app, IH, zlen_lanewise by lia. lia.
Qed.

(** After [r] rows: whole words stored, the rest in the accumulators. *)
Definition pack_inv (out0 : list Z) (r : Z) (s : option (list Z * list Z)) : Prop :=
  exists tmp out, s = Some (tmp, out) /\ zlen out = zlen out0 /\ produced out (words (r * width / bits)) /\
    (r <> 0 -> tmp = lanewise (fun lane => top (packed_lane lane r) r)).

Lemma pack_row_inv out0 r s : lanes * width <= zlen out0 -> 0 <= r < bits -> pack_inv out0 r s ->
  pack_inv out0 (r + 1) (pack_row bits width l s r).
Proof using Hword Hwidth Hl.
  intros Hout Hr (tmp & out & -> & Hlen & Hp & Htmp). pose proof bits_range. pose proof lanes_bits as [_ Hl16].
  destruct (row_in r Hr) as [Hi0 Hi1]. unfold pack_row.
  rewrite (row_at_lanewise l (fl_index r 0) (col r)) by (lia || (intros; by apply col_get)). cbv zeta.
  rewrite fl_mask_ones by lia.
  set (shift := r * width mod bits). set (curr := r * width / bits) in *. set (next := (r + 1) * width / bits).
  pose proof (row_cursor r ltac:(lia)) as Hc. fold shift curr next in Hc. destruct Hc as [[Hs Hsr] Hsame Hnx Hcross Hc0].
  set (t := lanewise (fun lane => digit (packed_lane lane (r + 1)) curr)).
  assert (Hm : forall lane, 0 <= Z.land (col r lane) (Z.ones width) < 2 ^ width /\ Z.land (col r lane) (Z.ones width) = col r lane mod 2 ^ width).
  { intros lane. rewrite Z.land_ones by lia. split; [apply Z.mod_pos_bound, Z.pow_pos_nonneg; lia|done]. }
  assert (Hadd : forall lane, let m := Z.land (col r lane) (Z.ones width) in
    wrap bits (Z.lor (top (packed_lane lane r) r) (wrap bits (Z.shiftl m shift))) = digit (packed_lane lane (r + 1)) curr /\
    (next = curr -> top (packed_lane lane (r + 1)) (r + 1) = digit (packed_lane lane (r + 1)) curr) /\
    (next = curr + 1 -> top (packed_lane lane (r + 1)) (r + 1) = Z.shiftr m (bits - shift))).
  { intros lane m. destruct (Hm lane) as [Hmr Hme].
    destruct (lane_add (packed_lane lane r) m r ltac:(lia) (packed_lane_range lane r ltac:(lia)) Hmr) as (H1 & H2 & H3).
    unfold m in *. rewrite Hme, <- packed_lane_next in H1, H2, H3 by lia. rewrite Hme. fold shift curr next in H1, H2, H3.
    rewrite <- H1. split_and!; [done|exact H2|exact H3]. }
  assert (Ht : (if r =? 0 then List.map (fun v => Z.land v (Z.ones width)) (lanewise (col r))
    else zip_with (fun t v => wrap bits (Z.lor t (wrap bits (Z.shiftl (Z.land v (Z.ones width)) shift)))) tmp (lanewise (col r))) = t).
  { destruct (Z.eqb_spec r 0) as [Hr0|Hr0].
    - rewrite map_lanewise. apply lanewise_ext. intros lane _. destruct (Hadd lane) as [<- _]. destruct (Hm lane) as [Hmr _].
      assert (Hs0 : shift = 0) by (unfold shift; by rewrite Hr0, Z.mul_0_l, Z.mod_0_l by lia). rewrite Hs0, Z.shiftl_0_r.
      assert (H0 : top (packed_lane lane r) r = 0) by (subst r; unfold top; apply Z.shiftr_0_l). rewrite H0, Z.lor_0_l, wrap_idemp.
      rewrite wrap_small; [done|]. pose proof (Z.pow_le_mono_r 2 width bits ltac:(lia) ltac:(lia)). lia.
    - rewrite (Htmp Hr0), zip_lanewise. apply lanewise_ext. intros lane _. by destruct (Hadd lane) as [<- _]. }
  rewrite Ht. destruct (Z.ltb_spec curr next).
  - assert (Hn : next = curr + 1) by lia. specialize (Hcross Hn).
    assert (Htd : t = lanewise (fun lane => digit (packed_lane lane bits) curr)).
    { apply lanewise_ext. intros lane _. symmetry. apply digit_final; lia. }
    pose proof (zlen_words curr Hc0) as Hzw.
    assert (Hcw : lanes * (curr + 1) <= lanes * width).
    { apply Z.mul_le_mono_nonneg_l; [lia|]. assert (bits * (curr + 1) <= bits * width) by nia. nia. }
    destruct (store_produced out (words curr) t Hp) as (out' & Hst & Hl' & Hp' & _);
      [unfold t; rewrite zlen_lanewise; lia|].
    rewrite Hzw in Hst. rewrite Hst. eexists _, out'. split; [done|]. split; [lia|]. split.
    + fold next. rewrite Hn, words_next, <- Htd by done. done.
    + intros _. rewrite map_lanewise. apply lanewise_ext. intros lane _. destruct (Hadd lane) as (_ & _ & H3). rewrite (H3 Hn).
      f_equal. assert (Hrem : (r + 1) * width mod bits = shift + width - bits).
      { symmetry. apply (Z.mod_unique _ _ (curr + 1)); lia. } rewrite Hrem. lia.
  - assert (Hn : next = curr) by lia. exists t, out. split; [done|]. split; [done|]. split; [fold next; by rewrite Hn|].
    intros _. apply lanewise_ext. intros lane _. destruct (Hadd lane) as (_ & H2 & _). by rewrite (H2 Hn).
Qed.

Lemma pack_w_spec out0 : lanes * width <= zlen out0 ->
  exists out, pack_w bits width l out0 = Some out /\ zlen out = zlen out0 /\ produced out (words width).
Proof using Hword Hwidth Hl.
  intros Hout. unfold pack_w. pose proof bits_range.
  pose proof (fold_seqZ_inv (pack_inv out0) (pack_row bits width l) bits (Some ([], out0)) ltac:(lia)) as Hinv.
  destruct Hinv as (tmp & out & -> & Hlen & Hp & _).
  - exists [], out0. split; [done|]. split; [done|]. split; [|done]. rewrite Z.mul_0_l, Z.div_0_l by lia. split; [apply zlen_nonneg|done].
  - intros r s Hr Hs. by apply pack_row_inv.
  - exists out. rewrite (Z.mul_comm bits width), Z.div_mul in Hp by lia. done.
Qed.
End Pack.

Lemma zget_words l lane k K : 0 <= lane < lanes -> 0 <= k < K ->
  zget (words l K) (lanes * k + lane) = Some (digit (packed_lane l lane bits) k).
Proof using Hword.
  intros Hla Hk. replace K with ((k + 1) + Z.of_nat (Z.to_nat (K - (k + 1)))) by lia.
  generalize (Z.to_nat (K - (k + 1))) as d. intros d. induction d as [|d IH].
  - pose proof (zlen_words l k ltac:(lia)) as Hz. rewrite Z.add_0_r, words_next by lia. rewrite zget_app_r, Hz by lia.
    replace (lanes * k + lane - lanes * k) with lane by lia. by apply (zget_lanewise (fun lane => digit _ k)).
  - pose proof (zlen_words l (k + 1 + Z.of_nat d) ltac:(lia)) as Hz.
    rewrite Nat2Z.inj_succ, <- Z.add_1_r, Z.add_assoc, words_next by lia. rewrite zget_app_l by nia. done.
Qed.

(** ** Unpacking a block *)
Lemma store_row out r f : zlen out = kBlock -> 0 <= r < bits ->
  exists out', store out (fl_index r 0) (lanewise f) = Some out' /\ zlen out' = kBlock /\
    (forall lane, 0 <= lane < lanes -> zget out' (fl_index r lane) = Some (f lane)) /\
    (forall r' lane, 0 <= r' < bits -> r' <> r -> 0 <= lane < lanes -> zget out' (fl_index r' lane) = zget out (fl_index r' lane)).
Proof using Hword.
  intros Hz Hr. destruct (row_in r Hr) as [Hi0 Hi1]. pose proof (zlen_lanewise f) as Hf. pose proof lanes_bits as [_ Hl16].
  rewrite store_spec by lia. eexists. split; [done|]. rewrite Hf.
  assert (Ht : zlen (ztake (fl_index r 0) out) = fl_index r 0) by (rewrite zlen_ztake; lia). split_and!.
  - rewrite !zlen_app, Hf, Ht, zlen_zdrop by lia. lia.
  - intros lane Hla. rewrite (fl_index_lane r lane), zget_app_r, Ht by lia. rewrite zget_app_l by lia.
    replace (fl_index r 0 + lane - fl_index r 0) with lane by lia. by apply (zget_lanewise f).
  - intros r' lane Hr' Hne Hla. rewrite (fl_index_lane r' lane). destruct (rows_apart r r' Hr Hr' ltac:(lia)).
    + rewrite zget_app_r, Ht, zget_app_r, Hf by lia. destruct (row_in r' Hr').
      rewrite zget_zdrop by lia. f_equal. lia.
    + destruct (row_in r' Hr'). rewrite zget_app_l, zget_ztake by lia. done.
Qed.

(** The rows below [r] hold their values. *)
Definition rows_done (F : Z -> Z -> Z) (r : Z) (out : list Z) : Prop :=
  zlen out = kBlock /\ forall r' lane, 0 <= r' < r -> 0 <= lane < lanes -> zget out (fl_index r' lane) = Some (F r' lane).

Lemma rows_done_next F r out f : 0 <= r < bits -> rows_done F r out -> (forall lane, 0 <= lane < lanes -> f lane = F r lane) ->
  exists out', store out (fl_index r 0) (lanewise f) = Some out' /\ rows_done F (r + 1) out'.
Proof using Hword.
  intros Hr [Hz Hd] Hf. destruct (store_row out r f Hz Hr) as (out' & Hst & Hz' & Hnew & Hold). exists out'. split; [done|].
  split; [done|]. intros r' lane Hr' Hla. destruct (decide (r' = r)) as [-> |]; [by rewrite Hnew, Hf|].
  rewrite Hold by lia. apply Hd; lia.
Qed.

Lemma rows_done_all F out : rows_done F bits out -> (forall i, 0 <= i < kBlock -> exists r lane, 0 <= r < bits /\ 0 <= lane < lanes /\
  i = fl_index r lane /\ zget out i = Some (F r lane)).
Proof using Hword.
  intros [_ Hd] i Hi. destruct (row_of i Hi) as (r & lane & Hr & Hla & ->). exists r, lane. split_and!; try done; try lia. by apply Hd.
Qed.

Section Unpack.
Context (V : Z -> Z) (HV : forall lane, 0 <= V lane) (pk : list Z) (Hlen : lanes * width <= zlen pk)
  (Hpk : forall k lane, 0 <= k < width -> 0 <= lane < lanes -> zget pk (lanes * k + lane) = Some (digit (V lane) k)).

Definition lane_value (r lane : Z) : Z := Z.shiftr (V lane) (r * width) mod 2 ^ width.

Lemma word_row k : 0 <= k < width -> row_at pk (lanes * k) lanes = Some (lanewise (fun lane => digit (V lane) k)).
Proof using Hword Hlen Hpk.
  intros Hk. pose proof lanes_bits. apply row_at_lanewise; [nia|nia|]. intros lane Hla. by apply Hpk.
Qed.

Definition unpack_inv (r : Z) (s : option (list Z * list Z)) : Prop :=
  exists src out, s = Some (src, out) /\ rows_done lane_value r out /\
    (r < bits -> src = lanewise (fun lane => digit (V lane) (r * width / bits))).

Lemma unpack_row_inv r s : 0 <= r < bits -> unpack_inv r s -> unpack_inv (r + 1) (unpack_row bits width pk s r).
Proof using Hword Hwidth HV Hlen Hpk.
  intros Hr (src & out & -> & Hd & Hsrc). specialize (Hsrc ltac:(lia)). subst src. pose proof bits_range. unfold unpack_row. cbv zeta.
  pose proof (row_cursor r ltac:(lia)) as Hc.
  assert (Hread := fun lane => lane_read (V lane) r ltac:(lia) (HV lane)). cbv zeta in Hread.
  assert (Hrem : (r + 1) * width = bits * ((r + 1) * width / bits) + (r + 1) * width mod bits) by (apply Z.div_mod; lia).
  assert (Hrr : 0 <= (r + 1) * width mod bits < bits) by (apply Z.mod_pos_bound; lia).
  set (shift := r * width mod bits) in *. set (curr := r * width / bits) in *. set (next := (r + 1) * width / bits) in *.
  set (remaining := (r + 1) * width mod bits) in *. destruct Hc as [[Hs Hsr] Hsame Hnx Hcross Hc0].
  destruct (Z.ltb_spec curr next) as [Hlt|Hge].
  - assert (Hn : next = curr + 1) by lia.
    assert (Hrw : 0 <= remaining < width) by (destruct (Hread 0) as [_ H2]; by destruct (H2 Hn)).
    rewrite !fl_mask_ones by lia. rewrite map_lanewise. destruct (Z.ltb_spec next width) as [Hnw|Hnw].
    + rewrite word_row by lia. rewrite zip_lanewise.
      destruct (rows_done_next lane_value r out (fun lane => wrap bits (Z.lor (Z.land (Z.shiftr (digit (V lane) curr) shift) (Z.ones (width - remaining)))
        (wrap bits (Z.shiftl (Z.land (digit (V lane) next) (Z.ones remaining)) (width - remaining))))) Hr Hd) as (out' & -> & Hd').
      { intros lane _. destruct (Hread lane) as [_ H2]. by destruct (H2 Hn) as (_ & H3 & _). }
      eexists _, out'. split; [done|]. split; [done|]. intros _. by fold next.
    + assert (Hr0 : remaining = 0) by nia.
      destruct (rows_done_next lane_value r out (fun lane => Z.land (Z.shiftr (digit (V lane) curr) shift) (Z.ones (width - remaining))) Hr Hd) as (out' & -> & Hd').
      { intros lane _. destruct (Hread lane) as [_ H2]. destruct (H2 Hn) as (_ & _ & H3). by apply H3. }
      eexists _, out'. split; [done|]. split; [done|]. intros Hlast. exfalso. nia.
  - assert (Hn : next = curr) by lia. rewrite fl_mask_ones by lia. rewrite map_lanewise.
    destruct (rows_done_next lane_value r out (fun lane => Z.land (Z.shiftr (digit (V lane) curr) shift) (Z.ones width)) Hr Hd) as (out' & -> & Hd').
    { intros lane _. destruct (Hread lane) as [H2 _]. by apply H2. }
    eexists _, out'. split; [done|]. split; [done|]. intros _. fold next. by rewrite Hn.
Qed.

Lemma unpack_w_spec out0 : zlen out0 = kBlock -> exists out, unpack_w bits width pk out0 = Some out /\ rows_done lane_value bits out.
Proof using Hword Hwidth HV Hlen Hpk.
  intros Hz. unfold unpack_w. pose proof bits_range. pose proof (word_row 0 ltac:(lia)) as H0. rewrite Z.mul_0_r in H0. rewrite H0.
  pose proof (fold_seqZ_inv unpack_inv (unpack_row bits width pk) bits (Some (lanewise (fun lane => digit (V lane) 0), out0)) ltac:(lia)) as Hinv.
  destruct Hinv as (src & out & -> & Hd & _).
  - eexists _, out0. split; [done|]. split; [split; [done|lia]|]. intros _. by rewrite Z.mul_0_l, Z.div_0_l by lia.
  - intros r s Hr Hs. by apply unpack_row_inv.
  - by exists out.
Qed.
End Unpack.
End Block.

(** ** Whole words *)
Section Whole.
Context (bits : Z) (Hword : word bits).
Local Notation lanes := (kBlock / bits).

(** The first [r] rows stored one behind the other. *)
Definition rows_copied (F : Z -> Z -> Z) (size r : Z) (s : option (list Z)) : Prop :=
  exists out, s = Some out /\ zlen out = size /\
    forall k lane, 0 <= k < r -> 0 <= lane < lanes -> zget out (lanes * k + lane) = Some (F k lane).

Lemma pack_copy_inv l size r s : zlen l = kBlock -> lanes * bits <= size -> 0 <= r < bits -> rows_copied (col l) size r s ->
  rows_copied (col l) size (r + 1) (copy_row lanes (fun row => lanes * row) (fun row => fl_index row 0) l s r).
Proof using Hword.
  intros Hl Hsz Hr (out & -> & Hz & Hd). destruct (row_in bits Hword r Hr). pose proof (lanes_bits bits Hword) as [_ Hl16].
  unfold copy_row. rewrite (row_at_lanewise bits Hword l (fl_index r 0) (col l r)) by (lia || (intros; by apply (col_get bits Hword l Hl))).
  pose proof (zlen_lanewise bits Hword (col l r)) as Hf. assert (Hroom : lanes * (r + 1) <= lanes * bits) by nia.
  rewrite store_spec by nia. eexists. split; [done|]. rewrite Hf.
  assert (Ht : zlen (ztake (lanes * r) out) = lanes * r) by (rewrite zlen_ztake; nia). split.
  - rewrite !zlen_app, Hf, Ht, zlen_zdrop by nia. nia.
  - intros k lane Hk Hla. destruct (decide (k = r)) as [-> |].
    + rewrite zget_app_r, Ht, zget_app_l by lia. replace (lanes * r + lane - lanes * r) with lane by lia. by apply zget_lanewise.
    + rewrite zget_app_l, zget_ztake by nia. apply Hd; lia.
Qed.

Lemma unpack_copy_inv F pk r s : lanes * bits <= zlen pk ->
  (forall k lane, 0 <= k < bits -> 0 <= lane < lanes -> zget pk (lanes * k + lane) = Some (F k lane)) ->
  0 <= r < bits -> (exists out, s = Some out /\ rows_done bits F r out) ->
  exists out, copy_row lanes (fun row => fl_index row 0) (fun row => lanes * row) pk s r = Some out /\ rows_done bits F (r + 1) out.
Proof using Hword.
  intros Hz Hpk Hr (out & -> & Hd). pose proof (lanes_bits bits Hword) as [_ Hl16]. unfold copy_row.
  rewrite (row_at_lanewise bits Hword pk (lanes * r) (F r)) by (nia || (intros; by apply Hpk)).
  destruct (rows_done_next bits Hword F r out (F r) Hr Hd) as (out' & -> & Hd'); [done|]. by exists out'.
Qed.
End Whole.

(** A block's values, row by row, are its list. *)
Lemma rows_done_list bits F l out : word bits -> zlen l = kBlock -> rows_done bits F bits out ->
  (forall r lane, 0 <= r < bits -> 0 <= lane < kBlock / bits -> F r lane = col l r lane) -> out = l.
Proof.
  intros Hw Hl Hd HF. apply zget_ext; [by rewrite (proj1 Hd)|]. rewrite (proj1 Hd). intros i Hi.
  destruct (rows_done_all bits Hw F out Hd i Hi) as (r & lane & Hr & Hla & -> & ->). rewrite HF by done.
  unfold col. destruct (row_in bits Hw r Hr). rewrite (fl_index_lane r lane) in Hi |- *.
  destruct (proj2 (zget_is_Some l (fl_index r 0 + lane))) as [v Hv]; [lia|]. by rewrite Hv.
Qed.

(** Masked to the width, as the packer does. *)
Definition masked (width : Z) (l : list Z) : list Z := List.map (fun v => v mod 2 ^ width) l.

Lemma col_masked width l r lane bits : word bits -> zlen l = kBlock -> 0 <= r < bits -> 0 <= lane < kBlock / bits ->
  col (masked width l) r lane = col l r lane mod 2 ^ width.
Proof.
  intros Hw Hl Hr Hla. destruct (row_in bits Hw r Hr). unfold col. rewrite (fl_index_lane r lane).
  destruct (proj2 (zget_is_Some l (fl_index r 0 + lane))) as [v Hv]; [lia|]. rewrite Hv. unfold masked, zget in *.
  destruct (_ <? 0); [done|]. change (List.map ?f l) with (f <$> l). by rewrite list_lookup_fmap, Hv.
Qed.

(** The three cases of the width: what is packed is unpacked. *)
Section Cases.
Context (bits : Z) (Hw : word bits) (l out dst : list Z) (Hl : zlen l = kBlock) (Hdst : zlen dst = kBlock).

Lemma case_zero : store dst 0 (replicate (Z.to_nat kBlock) 0) = Some (masked 0 l).
Proof using Hl Hdst.
  rewrite store_spec by (rewrite ?zlen_replicate, ?Hdst; done).
  rewrite zlen_replicate, ztake_0, zdrop_all, app_nil_r by (rewrite Hdst; done). cbn [app]. f_equal.
  apply replicate_as_Forall. unfold masked. rewrite List.length_map. unfold zlen in Hl. split; [lia|].
  apply Forall_map, Forall_true. intros v. by rewrite Z.pow_0_r, Z.mod_1_r.
Qed.

Lemma case_whole : Forall (fun v => 0 <= v < 2 ^ bits) l -> kBlock / bits * bits <= zlen out ->
  exists out', pack_1024_unchecked bits bits l out = Some out' /\ zlen out' = zlen out /\
    unpack_1024_unchecked bits bits out' dst = Some (masked bits l).
Proof using Hw Hl Hdst.
  intros Hvals Hout. pose proof (bits_range bits Hw). unfold pack_1024_unchecked, unpack_1024_unchecked. cbv zeta.
  destruct (Z.eqb_spec bits 0); [lia|]. rewrite Z.eqb_refl.
  pose proof (fold_seqZ_inv (rows_copied bits (col l) (zlen out)) _ bits (Some out) ltac:(lia)
    ltac:(exists out; split_and!; [done|done|lia]) (fun r s Hr => pack_copy_inv bits Hw l (zlen out) r s Hl Hout Hr)) as (out' & -> & Hz & Hd).
  exists out'. split_and!; [done|done|].
  pose proof (fold_seqZ_inv (fun r s => exists o, s = Some o /\ rows_done bits (col l) r o) _ bits (Some dst) ltac:(lia)
    ltac:(exists dst; split; [done|split; [done|lia]]) (fun r s Hr => unpack_copy_inv bits Hw (col l) out' r s ltac:(lia) Hd Hr))
    as (o & -> & Ho).
  f_equal. apply (rows_done_list bits (col l)); [done|unfold masked; by rewrite zlen_map|done|].
  intros r lane Hr Hla. rewrite (col_masked bits l r lane bits) by done. symmetry. apply Z.mod_small.
  unfold col. destruct (zget l (fl_index r lane)) as [v|] eqn:Hv; cbn; [|split; [lia|apply Z.pow_pos_nonneg; lia]].
  unfold zget in Hv. destruct (_ <? 0); [done|]. by eapply Forall_lookup_1 in Hvals.
Qed.

Lemma case_between width : 1 <= width < bits -> kBlock / bits * width <= zlen out ->
  exists out', pack_1024_unchecked bits width l out = Some out' /\ zlen out' = zlen out /\
    unpack_1024_unchecked bits width out' dst = Some (masked width l).
Proof using Hw Hl Hdst.
  intros Hwd Hout. pose proof (bits_range bits Hw). pose proof (lanes_bits bits Hw) as [_ Hl16].
  unfold pack_1024_unchecked, unpack_1024_unchecked. cbv zeta.
  destruct (Z.eqb_spec width 0); [lia|]. destruct (Z.eqb_spec width bits); [lia|].
  destruct (pack_w_spec bits Hw width Hwd l Hl out Hout) as (out' & -> & Hz & Hp). exists out'. split_and!; [done|done|].
  pose proof (zlen_words bits Hw width l width ltac:(lia)) as Hzw.
  destruct (unpack_w_spec bits Hw width Hwd (fun lane => packed_lane width l lane bits)
    (fun lane => proj1 (packed_lane_range bits width Hwd l lane bits ltac:(lia))) out' ltac:(lia)) with dst as (o & -> & Ho); [|done|].
  - intros k lane Hk Hla. rewrite (produced_get _ _ _ Hp) by nia. by apply zget_words.
  - f_equal. apply (rows_done_list bits (lane_value width (fun lane => packed_lane width l lane bits))); [done|unfold masked; by rewrite zlen_map|done|].
    intros r lane Hr Hla. rewrite (col_masked width l r lane bits) by done. unfold lane_value.
    set (vs := List.map (fun q => col l q lane mod 2 ^ width) (seqZ 0 bits)).
    assert (Hpv : packed_lane width l lane bits = pack_val width vs).
    { unfold packed_lane, vs. generalize (seqZ 0 bits) as ks. intros ks. induction ks as [|k ks IH]; [done|].
      cbn [List.map pack_val]. rewrite IH. f_equal. by rewrite Z.mod_mod by (apply Z.pow_nonzero; lia). }
    pose proof (pack_val_slice width vs 0 r (col l r lane mod 2 ^ width) ltac:(lia)) as Hs.
    rewrite Z.mul_0_r, Z.add_0_r, <- Hpv in Hs. apply Hs.
    + apply Forall_map, Forall_true. intros q. apply Z.mod_pos_bound, Z.pow_pos_nonneg; lia.
    + unfold vs. by apply (zget_map_seqZ (fun q => col l q lane mod 2 ^ width)).
Qed.
End Cases.

(** FastLanes round trip. For every word type, width and block of 1024
    values, [pack_1024] stays inside an output of [packed_words_1024] words, and
    [unpack_1024] of what it wrote restores every value, masked to the width,
    at its place. *)
Theorem fastlanes_roundtrip bits width l out dst :
  word bits -> 0 <= width <= bits -> zlen l = kBlock -> Forall (fun v => 0 <= v < 2 ^ bits) l ->
  packed_words_1024 bits width <= zlen out -> zlen dst = kBlock ->
  exists out', pack_1024 bits width l out = Some (Some out') /\ zlen out' = zlen out /\
    unpack_1024 bits width out' dst = Some (Some (masked width l)).
Proof.
  intros Hw Hwd Hl Hvals Hout Hdst. pose proof (lanes_bits bits Hw) as [Hlb Hl16]. pose proof (bits_range bits Hw).
  assert (Hpw : packed_words_1024 bits width = kBlock / bits * width).
  { unfold packed_words_1024. rewrite <- Hlb at 1. rewrite <- Z.mul_assoc, (Z.mul_comm bits), Z.mul_assoc. apply Z.div_mul. lia. }
  assert (Hp : exists out', pack_1024_unchecked bits width l out = Some out' /\ zlen out' = zlen out /\
    unpack_1024_unchecked bits width out' dst = Some (masked width l)).
  { destruct (decide (width = 0)) as [-> |]; [exists out; split_and!; [done|done|by apply case_zero]|].
    destruct (decide (width = bits)) as [-> |]; [apply case_whole; done || lia|apply case_between; done || lia]. }
  destruct Hp as (out' & Hpk & Hz & Hup). exists out'. unfold pack_1024, unpack_1024. rewrite Hz, Hpk, Hup.
  destruct (Z.ltb_spec bits width); [lia|]. destruct (Z.ltb_spec (zlen out) (packed_words_1024 bits width)); [lia|]. done.
Qed.

Lemma fastlanes_roundtrip_witness :
  exists out', pack_1024 16 5 (seqZ 0 1024) (replicate 320 0) = Some (Some out') /\
    unpack_1024 16 5 out' (replicate 1024 0) = Some (Some (masked 5 (seqZ 0 1024))).
Proof.
  destruct (fastlanes_roundtrip 16 5 (seqZ 0 1024) (replicate 320 0) (replicate 1024 0) ltac:(by right; left) ltac:(lia)
    ltac:(by vm_compute) ltac:(apply List.Forall_forall; intros v Hv; apply in_seqZ in Hv; lia)
    ltac:(by vm_compute) ltac:(by vm_compute)) as (out' & H1 & _ & H2).
  exists out'. split; [exact H1|exact H2].
Defined.
