(* ===== verification/Nulls.v ===== *)
(** * Spreading dense values over null slots (values.hpp sections 34 and 36)

    [get_bit], and [spread_nulls] with its word-at-a-time paths, in place on the
    bytes of [dst]; [bm] is the validity bitmap. [None] is an access outside
    either. *)
From S2P Require Import Prelude Columnar LzCopy.

Definition get_bit (bm : list Z) (i : Z) : option bool :=
  match zget bm (i / 8) with
  | None => None
  | Some b => Some (negb (Z.land (Z.shiftr b (i mod 8)) 1 =? 0))
  end.

(** [std::memset(dst + at * w, 0, count * w)] *)
Definition zero_slots (w : Z) (dst : list Z) (at_ count : Z) : option (list Z) :=
  store dst (at_ * w) (replicate (Z.to_nat (count * w)) 0).

(** [std::memmove(dst + to * w, dst + from * w, count * w)] *)
Definition move_slots (w : Z) (dst : list Z) (to from count : Z) : option (list Z) :=
  if (0 <=? from) && ((from + count) * w <=? zlen dst)
  then store dst (to * w) (ztake (count * w) (zdrop (from * w) dst)) else None.

(** [std::memcpy] of one slot inside [dst]. *)
Definition copy_slot (w : Z) (dst : list Z) (to from : Z) : option (list Z) :=
  copy_within dst (to * w) (from * w) w.

(** [v & -bit]: the slot's bytes, or zeros, as one word or byte by byte. *)
Definition mask_slot (w bit : Z) (v : list Z) : list Z :=
  if w <=? 8 then le_bytes (Z.to_nat w) (Z.land (le_val v) (wrap (8 * w) (0 - bit)))
  else List.map (fun b => Z.land b (if bit =? 0 then 0 else 255)) v.

(** [for (k < 64)]: a mixed word, from its top bit down. *)
Fixpoint mixed_word (k : nat) (w : Z) (dst : list Z) (word r j : Z) : option (list Z * Z * Z) :=
  match k with
  | O => Some (dst, r, j)
  | S k =>
      let r := r - 1 in
      let bit := Z.land (Z.shiftr word 63) 1 in
      let word := u64 (Z.shiftl word 1) in
      if (j - 1 <? 0) || (zlen dst <? j * w) then None
      else
        match store dst (r * w) (mask_slot w bit (ztake w (zdrop ((j - 1) * w) dst))) with
        | None => None
        | Some dst' => mixed_word k w dst' word r (j - bit)
        end
  end.

(** One slot: [--r] and the move or the zero fill. *)
Definition one_slot (w : Z) (bm dst : list Z) (r j : Z) : option (list Z * Z * Z) :=
  let r := r - 1 in
  match get_bit bm r with
  | None => None
  | Some true =>
      let j := j - 1 in
      if j =? r then Some (dst, r, j)
      else match copy_slot w dst r j with None => None | Some dst' => Some (dst', r, j) end
  | Some false => match zero_slots w dst r 1 with None => None | Some dst' => Some (dst', r, j) end
  end.

(** One turn of [while (r > 0)] with [j > 0]. *)
Definition spread_round (w : Z) (bm dst : list Z) (r j : Z) : option (list Z * Z * Z) :=
  if r mod 64 =? 0 then
    match load_le64 bm ((r - 64) / 8) with
    | None => None
    | Some word =>
        if word =? 2 ^ 64 - 1 then
          let j := j - 64 in
          let r := r - 64 in
          if j =? r then Some (dst, r, j)
          else match move_slots w dst r j 64 with None => None | Some dst' => Some (dst', r, j) end
        else if word =? 0 then
          match zero_slots w dst (r - 64) 64 with None => None | Some dst' => Some (dst', r - 64, j) end
        else if 64 <=? j then mixed_word 64 w dst word r j
        else one_slot w bm dst r j
    end
  else one_slot w bm dst r j.

Fixpoint spread_loop (fuel : nat) (w : Z) (bm dst : list Z) (r j : Z) : option (list Z) :=
  if 0 <? r then
    if j =? 0 then zero_slots w dst 0 r
    else
      match fuel with
      | O => None
      | S fuel =>
          match spread_round w bm dst r j with
          | None => None
          | Some (dst', r', j') => spread_loop fuel w bm dst' r' j'
          end
      end
  else Some dst.

Definition spread_nulls_w (w : Z) (dst : list Z) (n nn : Z) (bm : list Z) : option (list Z) :=
  spread_loop (Z.to_nat n) w bm dst n nn.

(** The loop of the other widths. *)
Fixpoint spread_plain (k : nat) (w : Z) (bm dst : list Z) (r j : Z) : option (list Z) :=
  match k with
  | O => Some dst
  | S k => match one_slot w bm dst r j with
           | None => None
           | Some (dst', r', j') => spread_plain k w bm dst' r' j'
           end
  end.

Definition spread_nulls (dst : list Z) (n nn width : Z) (validity : list Z) : option (list Z) :=
  if (width =? 1) || (width =? 2) || (width =? 4) || (width =? 8) || (width =? 16)
  then spread_nulls_w width dst n nn validity
  else spread_plain (Z.to_nat n) width validity dst n nn.

(** ** Specification *)

(** Set bits below [r]. *)
Definition rank (bm : list Z) (r : Z) : Z := zlen (filter (fun i => bit bm i = true) (seqZ 0 r)).

Definition slot (w : Z) (dst : list Z) (i : Z) : list Z := ztake w (zdrop (i * w) dst).

(** The value of slot [i]: the next dense value, or zeros. *)
Definition spread_at (w : Z) (bm dense : list Z) (i : Z) : list Z :=
  if bit bm i then slot w dense (rank bm i) else replicate (Z.to_nat w) 0.

Lemma rank_next bm r : 0 <= r -> rank bm (r + 1) = rank bm r + Z.b2z (bit bm r).
Proof.
  intros Hr. unfold rank. rewrite seqZ_app, filter_app, zlen_app by lia. change (seqZ (0 + r) 1) with [r].
  rewrite filter_cons, filter_nil. destruct (decide (bit bm r = true)) as [-> |Hb]; [done|].
  apply not_true_is_false in Hb. by rewrite Hb.
Qed.

Lemma rank_range bm r : 0 <= r -> 0 <= rank bm r <= r.
Proof.
  intros Hr. rewrite <- (Z2Nat.id r Hr). generalize (Z.to_nat r) as m. intros m. induction m as [|m IH]; [done|].
  rewrite Nat2Z.inj_succ, <- Z.add_1_r, rank_next by lia. destruct (bit bm _); cbn; lia.
Qed.

Lemma rank_const bm r c b : 0 <= r -> (forall i, r <= i < r + Z.of_nat c -> bit bm i = b) ->
  rank bm (r + Z.of_nat c) = rank bm r + Z.b2z b * Z.of_nat c.
Proof.
  intros Hr. induction c as [|c IH]; intros Hb; [rewrite Z.add_0_r; lia|].
  rewrite Nat2Z.inj_succ, <- Z.add_1_r, Z.add_assoc, rank_next, IH by (lia || (intros i Hi; apply Hb; lia)).
  rewrite Hb by lia. lia.
Qed.

Lemma rank_mono bm a b : 0 <= a <= b -> rank bm a <= rank bm b.
Proof.
  intros Hab. replace b with (a + Z.of_nat (Z.to_nat (b - a))) by lia. generalize (Z.to_nat (b - a)) as m. intros m.
  induction m as [|m IH]; [by rewrite Z.add_0_r|].
  rewrite Nat2Z.inj_succ, <- Z.add_1_r, Z.add_assoc, rank_next by lia. destruct (bit bm _); cbn; lia.
Qed.

Lemma get_bit_spec bm i : bytes_ok bm -> 0 <= i -> i / 8 < zlen bm -> get_bit bm i = Some (bit bm i).
Proof.
  intros Hbm Hi Hr. unfold get_bit. pose proof (Z.mod_pos_bound i 8 ltac:(lia)). assert (0 <= i / 8) by (apply Z.div_pos; lia).
  destruct (proj2 (zget_is_Some bm (i / 8))) as [b Hb]; [lia|]. rewrite Hb. f_equal.
  pose proof (bit_byte bm (i / 8) b (i mod 8) Hbm Hb ltac:(lia)) as Hbit. destruct (Z.ltb_spec (i mod 8) 8); [|lia]. cbn [andb] in Hbit.
  replace (8 * (i / 8) + i mod 8) with i in Hbit by (apply Z.div_mod; lia).
  change 1 with (Z.ones 1) at 1. rewrite Z.land_ones, <- Z.bit0_mod, Z.shiftr_spec, Z.add_0_l, Hbit by lia. by destruct (bit bm i).
Qed.

(** ** The slots of a buffer under a store *)
Lemma zlen_slot w dst i : 0 <= w -> 0 <= i -> zlen (slot w dst i) = Z.min w (Z.max 0 (zlen dst - i * w)).
Proof. intros. unfold slot. rewrite zlen_ztake, zlen_zdrop; nia. Qed.

Lemma zget_slot w dst i k : 0 <= w -> 0 <= i -> 0 <= k < w -> zget (slot w dst i) k = zget dst (i * w + k).
Proof. intros. unfold slot. rewrite zget_ztake, zget_zdrop by nia. done. Qed.

Lemma slot_ext w d1 d2 i1 i2 : 0 <= w -> 0 <= i1 -> 0 <= i2 ->
  (forall k, 0 <= k < w -> zget d1 (i1 * w + k) = zget d2 (i2 * w + k)) -> slot w d1 i1 = slot w d2 i2.
Proof.
  intros Hw H1 H2 Hk. apply list_eq. intros i. unfold slot, ztake, zdrop.
  destruct (decide (i < Z.to_nat w)%nat) as [Hi|Hi]; [|by rewrite !lookup_take_ge by lia].
  rewrite !lookup_take_lt, !lookup_drop by lia. specialize (Hk (Z.of_nat i) ltac:(lia)). unfold zget in Hk.
  destruct (Z.ltb_spec (i1 * w + Z.of_nat i) 0), (Z.ltb_spec (i2 * w + Z.of_nat i) 0); try nia.
  replace (Z.to_nat (i1 * w) + i)%nat with (Z.to_nat (i1 * w + Z.of_nat i)) by nia.
  by replace (Z.to_nat (i2 * w) + i)%nat with (Z.to_nat (i2 * w + Z.of_nat i)) by nia.
Qed.

Lemma slot_store w dst a c vs : 0 <= w -> 0 <= a -> 0 <= c -> zlen vs = c * w -> (a + c) * w <= zlen dst ->
  exists dst', store dst (a * w) vs = Some dst' /\ zlen dst' = zlen dst /\
    (forall i, 0 <= i -> i < a \/ a + c <= i -> slot w dst' i = slot w dst i) /\
    (forall i, a <= i < a + c -> slot w dst' i = slot w vs (i - a)) /\
    (forall k, (a + c) * w <= k -> zget dst' k = zget dst k).
Proof.
  intros Hw Ha Hc Hv Hf. destruct (store_zget dst (a * w) vs) as (dst' & Hst & Hl & Hg); [nia..|].
  exists dst'. split_and!; [done|done| | |].
  - intros i Hi Hout. apply slot_ext; [done..|]. intros k Hk. rewrite Hg.
    destruct (Z.leb_spec (a * w) (i * w + k)), (Z.ltb_spec (i * w + k) (a * w + zlen vs)); try done. nia.
  - intros i Hi. apply slot_ext; [done|lia|lia|]. intros k Hk. rewrite Hg.
    destruct (Z.leb_spec (a * w) (i * w + k)), (Z.ltb_spec (i * w + k) (a * w + zlen vs)); [|nia..].
    cbn [andb]. f_equal. lia.
  - intros k Hk. rewrite Hg. destruct (Z.ltb_spec k (a * w + zlen vs)); [nia|]. by rewrite andb_false_r.
Qed.

Lemma slot_zeros w c i : 0 <= w -> 0 <= i < c -> slot w (replicate (Z.to_nat (c * w)) 0) i = replicate (Z.to_nat w) 0.
Proof.
  intros Hw Hi. unfold slot. rewrite zdrop_replicate, ztake_replicate by nia. done.
Qed.

Lemma slot_slot w l i : 0 <= w -> slot w (slot w l i) 0 = slot w l i.
Proof. intros. unfold slot at 1. rewrite Z.mul_0_l, zdrop_0. unfold slot. by rewrite ztake_ztake by lia. Qed.

Lemma mask_slot_spec w b v : 0 <= w -> bytes_ok v -> zlen v = w ->
  mask_slot w (Z.b2z b) v = if b then v else replicate (Z.to_nat w) 0.
Proof.
  intros Hw Hv Hl. unfold mask_slot. pose proof (le_val_range v Hv) as Hr. fold (zlen v) in Hr. rewrite Hl in Hr.
  destruct (Z.leb_spec w 8).
  - assert (Hm : Z.land (le_val v) (wrap (8 * w) (0 - Z.b2z b)) = if b then le_val v else 0).
    { destruct b; cbn [Z.b2z]; [|by rewrite Z.land_0_r].
      bitblast. change (0 - 1) with (-1). by rewrite Z.bits_m1, andb_true_r. }
    rewrite Hm. apply le_val_inj; [apply le_bytes_ok|destruct b; [done|apply bytes_ok_zeros]| |].
    + rewrite length_le_bytes. destruct b; [unfold zlen in Hl; lia|by rewrite length_replicate].
    + rewrite le_val_le_bytes, Z2Nat.id by lia. destruct b; [by rewrite wrap_small|]. by rewrite le_val_zeros.
  - destruct b; cbn [Z.b2z Z.eqb].
    + rewrite <- (List.map_id v) at 2. apply map_ext_in. intros x Hx. apply list_elem_of_In in Hx.
      eapply Forall_forall in Hv; [|done]. change 255 with (Z.ones 8). rewrite Z.land_ones by lia. by apply Z.mod_small.
    + unfold zlen in Hl. replace (Z.to_nat w) with (length v) by lia. clear. induction v as [|x v IH]; [done|].
      cbn [List.map length replicate]. by rewrite Z.land_0_r, IH.
Qed.

(** ** The invariant of the back-to-front pass *)
Section Spread.
Context (w n : Z) (bm dense : list Z).
Context (Hw : 0 <= w) (Hn : 0 <= n) (Hbm : bytes_ok bm) (Hread : 8 * ((n + 63) / 64) <= zlen bm).
Context (Hd : bytes_ok dense) (Hfit : n * w <= zlen dense).

(** Slots from [r] up are final, the dense values not yet placed are intact. *)
Record spread_inv (dst : list Z) (r j : Z) : Prop := SpreadInv {
  si_range : 0 <= r <= n;
  si_rank : j = rank bm r;
  si_len : zlen dst = zlen dense;
  si_dense : forall i, 0 <= i < j -> slot w dst i = slot w dense i;
  si_done : forall i, r <= i < n -> slot w dst i = spread_at w bm dense i;
  si_rest : forall k, n * w <= k -> zget dst k = zget dense k
}.

(** Placing the slots of [r - c .. r). *)
Lemma spread_place dst r j c vs : spread_inv dst r j -> 0 <= c <= r -> zlen vs = c * w ->
  (forall i, 0 <= i < c -> slot w vs i = spread_at w bm dense (r - c + i)) ->
  exists dst', store dst ((r - c) * w) vs = Some dst' /\ spread_inv dst' (r - c) (rank bm (r - c)).
Proof using Hw Hn Hfit.
  intros [Hr Hj Hl Hde Hdo Hre] Hc Hv Hs.
  destruct (slot_store w dst (r - c) c vs) as (dst' & Hst & Hl' & Hout & Hin & Hk); [nia..|].
  exists dst'. split; [done|]. pose proof (rank_range bm (r - c) ltac:(lia)).
  pose proof (rank_mono bm (r - c) r ltac:(lia)).
  constructor; [lia|done|lia| | |].
  - intros i Hi. rewrite Hout by lia. apply Hde. lia.
  - intros i Hi. destruct (Z.lt_ge_cases i r).
    + rewrite Hin, Hs by lia. f_equal. lia.
    + rewrite Hout by lia. apply Hdo. lia.
  - intros k Hkn. rewrite Hk by nia. auto.
Qed.

Lemma spread_at_null i : bit bm i = false -> spread_at w bm dense i = replicate (Z.to_nat w) 0.
Proof. unfold spread_at. by intros ->. Qed.

Lemma zero_slots_spec dst r j c : spread_inv dst r j -> 0 <= c <= r ->
  (forall i, r - c <= i < r -> bit bm i = false) ->
  exists dst', zero_slots w dst (r - c) c = Some dst' /\ spread_inv dst' (r - c) j.
Proof using Hw Hn Hfit.
  intros Hinv Hc Hb. unfold zero_slots.
  destruct (spread_place dst r j c (replicate (Z.to_nat (c * w)) 0) Hinv) as (dst' & Hst & Hinv'); [lia| | |].
  - rewrite zlen_replicate. nia.
  - intros i Hi. rewrite slot_zeros, spread_at_null by (lia || (apply Hb; lia)). done.
  - exists dst'. split; [done|]. replace j with (rank bm (r - c)); [done|].
    rewrite (si_rank _ _ _ Hinv). pose proof (rank_const bm (r - c) (Z.to_nat c) false ltac:(lia)) as Hrc.
    rewrite Z2Nat.id in Hrc by lia. replace (r - c + c) with r in Hrc by lia.
    rewrite Hrc by (intros; apply Hb; lia). cbn. lia.
Qed.

(** A run of [c] valid slots: the dense values [j - c .. j) move to it. *)
Lemma run_slots dst r j c : spread_inv dst r j -> 0 <= c <= r -> (forall i, r - c <= i < r -> bit bm i = true) ->
  rank bm (r - c) = j - c /\ 0 <= j - c /\
  forall i, 0 <= i < c -> slot w (ztake (c * w) (zdrop ((j - c) * w) dst)) i = spread_at w bm dense (r - c + i).
Proof using Hw Hn Hfit.
  intros Hinv Hc Hb. pose proof (si_rank _ _ _ Hinv) as Hj.
  assert (Hrc : forall m, 0 <= m <= c -> rank bm (r - c + m) = rank bm (r - c) + m).
  { intros m Hm. pose proof (rank_const bm (r - c) (Z.to_nat m) true ltac:(lia)) as H.
    rewrite Z2Nat.id in H by lia. rewrite H by (intros; apply Hb; lia). cbn. lia. }
  pose proof (Hrc c ltac:(lia)) as Hrr. replace (r - c + c) with r in Hrr by lia.
  pose proof (rank_range bm (r - c) ltac:(lia)). split_and!; [lia|lia|]. intros i Hi.
  unfold spread_at. rewrite Hb, Hrc by lia. replace (rank bm (r - c) + i) with (j - c + i) by lia.
  rewrite <- (si_dense _ _ _ Hinv) by lia. apply slot_ext; [lia..|]. intros k Hk.
  rewrite zget_ztake, zget_zdrop by nia. f_equal. lia.
Qed.

(** The memory the run is read from. *)
Lemma run_len dst r j c : spread_inv dst r j -> 0 <= c <= r -> 0 <= j - c ->
  zlen (ztake (c * w) (zdrop ((j - c) * w) dst)) = c * w /\ j * w <= zlen dst.
Proof using Hw Hn Hfit.
  intros [Hr Hj Hl _ _ _] Hc Hjc. pose proof (rank_range bm r ltac:(lia)).
  rewrite zlen_ztake, zlen_zdrop by nia. rewrite Hl. split; nia.
Qed.

(** A run already in place. *)
Lemma run_in_place dst r c : spread_inv dst r r -> 0 <= c <= r -> (forall i, r - c <= i < r -> bit bm i = true) ->
  spread_inv dst (r - c) (r - c).
Proof using Hw Hn Hfit.
  intros Hinv Hc Hb. destruct (run_slots dst r r c Hinv Hc Hb) as (Hrk & _ & Hs).
  destruct Hinv as [Hr Hj Hl Hde Hdo Hre]. constructor; [lia|lia|done| | |done].
  - intros i Hi. apply Hde. lia.
  - intros i Hi. destruct (Z.lt_ge_cases i r); [|apply Hdo; lia].
    replace i with (r - c + (i - (r - c))) at 2 by lia. rewrite <- Hs by lia. apply slot_ext; [lia..|].
    intros k Hk. rewrite zget_ztake, zget_zdrop by nia. f_equal. nia.
Qed.

Lemma get_bit_ok r : 0 <= r < n -> get_bit bm r = Some (bit bm r).
Proof using Hbm Hread.
  intros Hr. apply get_bit_spec; [done|lia|]. Z.div_mod_to_equations; lia.
Qed.

(** The outcome of a step: [c] more slots are final. *)
Definition spread_to (x : option (list Z * Z * Z)) (r c : Z) : Prop :=
  exists dst', x = Some (dst', r - c, rank bm (r - c)) /\ spread_inv dst' (r - c) (rank bm (r - c)).

Lemma one_slot_spec dst r j : spread_inv dst r j -> 0 < r -> spread_to (one_slot w bm dst r j) r 1.
Proof using Hw Hn Hfit Hbm Hread.
  intros Hinv Hr. pose proof (si_range _ _ _ Hinv). unfold one_slot, spread_to. cbv zeta.
  rewrite get_bit_ok by lia. destruct (bit bm (r - 1)) eqn:Hb.
  - assert (Hrun : forall i, r - 1 <= i < r -> bit bm i = true) by (intros i Hi; by replace i with (r - 1) by lia).
    destruct (run_slots dst r j 1 Hinv) as (Hrk & Hj & Hs); [lia|done|]. rewrite Hrk.
    destruct (Z.eqb_spec (j - 1) (r - 1)) as [Heq|Hne].
    + exists dst. split; [done|]. rewrite Heq. apply run_in_place; [|lia|done]. by replace r with j at 2 by lia.
    + destruct (run_len dst r j 1 Hinv) as (Hlen & Hjl); [lia..|]. rewrite Z.mul_1_l in *.
      destruct (spread_place dst r j 1 _ Hinv ltac:(lia) ltac:(rewrite Z.mul_1_l; exact Hlen) Hs) as (dst' & Hst & Hi').
      exists dst'. rewrite Hrk in Hi'. split; [|done]. unfold copy_slot, copy_within.
      pose proof (rank_range bm (r - 1) ltac:(lia)).
      destruct (Z.leb_spec 0 ((j - 1) * w)), (Z.leb_spec ((j - 1) * w + w) (zlen dst)),
        (Z.leb_spec ((j - 1) * w + w) ((r - 1) * w)); try nia. cbn [andb orb]. by rewrite Hst.
  - destruct (zero_slots_spec dst r j 1 Hinv) as (dst' & Hz & Hi'); [lia| |].
    { intros i Hi. by replace i with (r - 1) by lia. }
    exists dst'. rewrite Hz, <- (si_rank _ _ _ Hi'). done.
Qed.

(** The step of a mixed word: slot [r - 1] takes dense value [j - 1] or zeros. *)
Lemma masked_slot_spec dst r j : spread_inv dst r j -> 0 < r -> 0 < j ->
  exists dst', store dst ((r - 1) * w) (mask_slot w (Z.b2z (bit bm (r - 1))) (ztake w (zdrop ((j - 1) * w) dst))) =
    Some dst' /\ spread_inv dst' (r - 1) (j - Z.b2z (bit bm (r - 1))).
Proof using Hw Hn Hfit Hd.
  intros Hinv Hr Hj. fold (slot w dst (j - 1)). pose proof (si_range _ _ _ Hinv). pose proof (si_rank _ _ _ Hinv) as Hrk.
  assert (Hrk' : rank bm (r - 1) = j - Z.b2z (bit bm (r - 1))).
  { pose proof (rank_next bm (r - 1) ltac:(lia)) as H0. replace (r - 1 + 1) with r in H0 by lia. lia. }
  rewrite <- Hrk'. destruct (run_len dst r j 1 Hinv) as (Hlen & Hjl); [lia..|].
  rewrite !Z.mul_1_l in Hlen. fold (slot w dst (j - 1)) in Hlen.
  assert (Hsl : bytes_ok (slot w dst (j - 1))).
  { rewrite (si_dense _ _ _ Hinv) by lia. apply bytes_ok_ztake, bytes_ok_zdrop, Hd. }
  rewrite mask_slot_spec by done. apply spread_place with (j := j); [done|lia| |].
  - destruct (bit bm (r - 1)); [lia|]. rewrite zlen_replicate. lia.
  - intros i Hi. replace i with 0 by lia. rewrite Z.add_0_r. destruct (bit bm (r - 1)) eqn:Hb.
    + rewrite slot_slot, (si_dense _ _ _ Hinv) by lia. unfold spread_at. rewrite Hb. cbn in Hrk'. f_equal. lia.
    + rewrite spread_at_null by done. replace w with (1 * w) at 2 by lia. apply slot_zeros; lia.
Qed.

Lemma mixed_word_spec k dst word r j : spread_inv dst r j -> Z.of_nat k <= r -> Z.of_nat k <= j ->
  (forall i, 0 <= i < Z.of_nat k -> Z.testbit word (63 - i) = bit bm (r - 1 - i)) -> Z.of_nat k <= 64 ->
  spread_to (mixed_word k w dst word r j) r (Z.of_nat k).
Proof using Hw Hn Hfit Hd.
  revert dst word r j. induction k as [|k IH]; intros dst word r j Hinv Hr Hj Hbits Hk.
  { exists dst. cbn [mixed_word]. pose proof (si_rank _ _ _ Hinv) as Hrk. rewrite Z.sub_0_r, <- Hrk. done. }
  cbn [mixed_word]. cbv zeta. rewrite Nat2Z.inj_succ in *.
  assert (Hbit : Z.land (Z.shiftr word 63) 1 = Z.b2z (bit bm (r - 1))).
  { specialize (Hbits 0 ltac:(lia)). rewrite !Z.sub_0_r in Hbits. rewrite <- Hbits.
    change 1 with (Z.ones 1). rewrite Z.land_ones, <- Z.bit0_mod, Z.shiftr_spec by lia. done. }
  rewrite Hbit. destruct (run_len dst r j 1 Hinv) as (_ & Hjl); [lia..|].
  destruct (Z.ltb_spec (j - 1) 0), (Z.ltb_spec (zlen dst) (j * w)); try lia. cbn [orb].
  destruct (masked_slot_spec dst r j Hinv) as (dst' & Hst & Hinv'); [lia..|]. rewrite Hst.
  destruct (IH dst' (u64 (Z.shiftl word 1)) (r - 1) _ Hinv') as (dst2 & Heq & Hi2); [lia| | |lia|].
  - destruct (bit bm (r - 1)); cbn [Z.b2z]; lia.
  - intros i Hi. specialize (Hbits (i + 1) ltac:(lia)). rewrite testbit_wrap, testbit_shiftl by lia.
    destruct (Z.ltb_spec (63 - i) 64), (Z.leb_spec 0 (63 - i)); try lia. cbn [andb].
    replace (63 - i - 1) with (63 - (i + 1)) by lia. rewrite Hbits. f_equal. lia.
  - replace (r - 1 - Z.of_nat k) with (r - Z.succ (Z.of_nat k)) in * by lia. by exists dst2.
Qed.

(** The 64 validity bits below [r]. *)
Lemma word_bits r : 0 < r <= n -> r mod 64 = 0 ->
  exists word, load_le64 bm ((r - 64) / 8) = Some word /\ 0 <= word < 2 ^ 64 /\ 64 <= r /\
    forall i, 0 <= i < 64 -> Z.testbit word (63 - i) = bit bm (r - 1 - i).
Proof using Hn Hbm Hread.
  intros Hr Hm. assert (H64 : 64 <= r) by (Z.div_mod_to_equations; lia).
  rewrite load_le64_spec by (done || (Z.div_mod_to_equations; lia)). eexists. split; [done|]. split; [|split; [done|]].
  - apply wrap_range. lia.
  - intros i Hi. unfold slice. rewrite testbit_wrap, Z.shiftr_spec by lia.
    destruct (Z.ltb_spec (63 - i) 64); [|lia]. unfold bit. cbn [andb]. f_equal.
    replace (r - 64) with ((r / 64 - 1) * 8 * 8) by (Z.div_mod_to_equations; lia). rewrite Z.div_mul by lia.
    Z.div_mod_to_equations; lia.
Qed.

Lemma spread_round_spec dst r j : spread_inv dst r j -> 0 < r ->
  exists c, 0 < c <= r /\ spread_to (spread_round w bm dst r j) r c.
Proof using Hw Hn Hfit Hbm Hread Hd.
  intros Hinv Hr. pose proof (si_range _ _ _ Hinv). unfold spread_round. cbv zeta.
  destruct (Z.eqb_spec (r mod 64) 0) as [Hm|_]; [|exists 1; split; [lia|by apply one_slot_spec]].
  destruct (word_bits r ltac:(lia) Hm) as (word & Hld & Hw64 & H64 & Hb). rewrite Hld.
  assert (Hbi : forall i, r - 64 <= i < r -> bit bm i = Z.testbit word (i - (r - 64))).
  { intros i Hi.
    replace (i - (r - 64)) with (63 - (r - 1 - i)) by lia. rewrite Hb by lia. f_equal. lia. }
  destruct (Z.eqb_spec word (2 ^ 64 - 1)) as [Hall|_].
  - exists 64. split; [lia|]. assert (Hrun : forall i, r - 64 <= i < r -> bit bm i = true).
    { intros i Hi. rewrite Hbi, Hall by done. change (2 ^ 64 - 1) with (Z.ones 64). rewrite Z.ones_spec_low by lia. done. }
    destruct (run_slots dst r j 64 Hinv) as (Hrk & Hj & Hs); [lia|done|]. unfold spread_to. rewrite Hrk.
    destruct (Z.eqb_spec (j - 64) (r - 64)) as [Heq|Hne].
    + exists dst. split; [done|]. rewrite Heq. apply run_in_place; [|lia|done]. by replace r with j at 2 by lia.
    + destruct (run_len dst r j 64 Hinv) as (Hlen & Hjl); [lia..|].
      destruct (spread_place dst r j 64 _ Hinv ltac:(lia) Hlen Hs) as (dst' & Hst & Hi').
      exists dst'. rewrite Hrk in Hi'. split; [|done]. unfold move_slots.
      destruct (Z.leb_spec 0 (j - 64)), (Z.leb_spec ((j - 64 + 64) * w) (zlen dst)); try nia. cbn [andb]. by rewrite Hst.
  - destruct (Z.eqb_spec word 0) as [H0|_].
    + exists 64. split; [lia|]. destruct (zero_slots_spec dst r j 64 Hinv) as (dst' & Hz & Hi'); [lia| |].
      { intros i Hi. rewrite Hbi, H0 by done. apply Z.bits_0. }
      exists dst'. rewrite Hz, <- (si_rank _ _ _ Hi'). done.
    + destruct (Z.leb_spec 64 j); [|exists 1; split; [lia|by apply one_slot_spec]].
      exists 64. split; [lia|]. by apply (mixed_word_spec 64).
Qed.

Lemma spread_loop_spec fuel dst r j : spread_inv dst r j -> r <= Z.of_nat fuel ->
  exists dst', spread_loop fuel w bm dst r j = Some dst' /\ spread_inv dst' 0 0.
Proof using Hw Hn Hfit Hbm Hread Hd.
  revert dst r j. induction fuel as [|fuel IH]; intros dst r j Hinv Hfuel; cbn [spread_loop];
    pose proof (si_range _ _ _ Hinv); pose proof (si_rank _ _ _ Hinv) as Hrk; destruct (Z.ltb_spec 0 r); try lia.
  1, 3: exists dst; split; [done|]; by replace r with 0 in * by lia; rewrite Hrk in Hinv.
  destruct (Z.eqb_spec j 0) as [Hj|_].
  - destruct (zero_slots_spec dst r j r Hinv) as (dst' & Hz & Hi'); [lia| |].
    + intros i Hi. apply not_true_is_false. intros Hb. pose proof (rank_next bm i ltac:(lia)) as Hnx. rewrite Hb in Hnx.
      pose proof (rank_range bm i ltac:(lia)). pose proof (rank_mono bm (i + 1) r ltac:(lia)). cbn in Hnx. lia.
    + rewrite Z.sub_diag, Hj in *. by exists dst'.
  - destruct (spread_round_spec dst r j Hinv) as (c & Hc & dst' & Heq & Hi'); [lia|]. rewrite Heq.
    apply IH; [done|lia].
Qed.

Lemma spread_plain_spec k dst r j : spread_inv dst r j -> r = Z.of_nat k ->
  exists dst', spread_plain k w bm dst r j = Some dst' /\ spread_inv dst' 0 0.
Proof using Hw Hn Hfit Hbm Hread.
  revert dst r j. induction k as [|k IH]; intros dst r j Hinv Hk; cbn [spread_plain].
  - exists dst. split; [done|]. pose proof (si_rank _ _ _ Hinv) as Hrk. rewrite Hk in *. by rewrite Hrk in Hinv.
  - destruct (one_slot_spec dst r j Hinv) as (dst' & Heq & Hi'); [lia|]. rewrite Heq. apply IH; [done|lia].
Qed.

Lemma spread_start : spread_inv dense n (rank bm n).
Proof using Hn. constructor; [lia|done|done|done|lia|done]. Qed.
End Spread.

(** Spreading nulls. With the dense values at the front of [dst], their
    number the set bits among the first [n] of the validity bitmap, the bitmap
    readable in whole 64-bit words and room for [n] slots, [spread_nulls] runs
    within its memory at every width - through the all-valid, all-null, mixed
    word and single slot steps alike - and leaves in slot [i] the dense value
    of rank [i] when the slot is valid and zero bytes when it is null, with
    the bytes past the [n] slots untouched. *)
Theorem spread_nulls_exact width n validity dst :
  0 <= width -> 0 <= n -> bytes_ok validity -> 8 * ((n + 63) / 64) <= zlen validity ->
  bytes_ok dst -> n * width <= zlen dst ->
  exists dst', spread_nulls dst n (rank validity n) width validity = Some dst' /\ zlen dst' = zlen dst /\
    (forall i, 0 <= i < n -> slot width dst' i = spread_at width validity dst i) /\
    (forall k, n * width <= k -> zget dst' k = zget dst k).
Proof.
  intros Hw Hn Hv Hread Hd Hfit.
  assert (Hgo : exists dst', spread_nulls dst n (rank validity n) width validity = Some dst' /\
                  spread_inv width n validity dst dst' 0 0).
  { unfold spread_nulls. destruct (_ || _).
    - apply (spread_loop_spec width n validity dst); [done..|by apply spread_start|lia].
    - apply (spread_plain_spec width n validity dst); [done..|by apply spread_start|lia]. }
  destruct Hgo as (dst' & Heq & Hi). exists dst'. split; [done|]. destruct Hi as [_ _ Hl _ Hdone Hrest].
  split_and!; [done|done|done].
Qed.

Lemma spread_nulls_exact_witness :
  spread_nulls [7; 8; 9; 0; 0; 0] 5 3 1 [26; 0; 0; 0; 0; 0; 0; 0] = Some [0; 7; 0; 8; 9; 0] /\
  exists dst', spread_nulls [7; 8; 9; 0; 0; 0] 5 (rank [26; 0; 0; 0; 0; 0; 0; 0] 5) 1 [26; 0; 0; 0; 0; 0; 0; 0] = Some dst' /\
    zlen dst' = 6 /\
    (forall i, 0 <= i < 5 -> slot 1 dst' i = spread_at 1 [26; 0; 0; 0; 0; 0; 0; 0] [7; 8; 9; 0; 0; 0] i) /\
    (forall k, 5 * 1 <= k -> zget dst' k = zget [7; 8; 9; 0; 0; 0] k).
Proof.
  split; [by vm_compute|].
  apply (spread_nulls_exact 1 5 [26; 0; 0; 0; 0; 0; 0; 0] [7; 8; 9; 0; 0; 0]);
    [lia|lia|repeat constructor; done|by vm_compute|repeat constructor; done|by vm_compute].
Defined.
