(* ===== verification/Views.v ===== *)
(** * Variable-length values as views (values.hpp section 38)

    Length-prefixed values, DELTA_LENGTH_BYTE_ARRAY and DELTA_BYTE_ARRAY, with
    the encoders of columnar_encode.hpp section 48. A [std::string_view] is an
    offset into the buffer it points to and a length. A kernel is [None] when
    it touches memory it does not own; otherwise it is a status message or
    what it produced. *)
From S2P Require Import Prelude Columnar Delta LzCopy.

(** ** Kernel results *)
Definition kernel (A : Type) : Type := option (string + A).
Definition kernel_fail {A} (why : string) : kernel A := Some (inl why).
Definition kernel_ok {A} (a : A) : kernel A := Some (inr a).

Definition INT32_MAX : Z := 2 ^ 31 - 1.

(** ** Views *)
Record view := View { v_at : Z; v_len : Z }.

Definition view_bytes (l : list Z) (v : view) : list Z := ztake (v_len v) (zdrop (v_at v) l).

(** [out[i] = x] *)
Definition zset {A} (out : list A) (i : Z) (x : A) : option (list A) :=
  if (0 <=? i) && (i <? zlen out) then Some (ztake i out ++ x :: zdrop (i + 1) out) else None.

(** [v.resize(n)] *)
Definition resize (l : list Z) (n : Z) : list Z := ztake n l ++ replicate (Z.to_nat (n - zlen l)) 0.

(** [std::memcpy(&len, in.data() + p, 4)] *)
Definition load_le32 (l : list Z) (p : Z) : option Z :=
  if (0 <=? p) && (p + 4 <=? zlen l) then Some (le_val (ztake 4 (zdrop p l))) else None.

(** ** Length-prefixed values *)
Fixpoint length_prefixed_loop (k : nat) (l : list Z) (i p : Z) (out : list view) : option (option (Z * list view)) :=
  match k with
  | O => Some (Some (p, out))
  | S k =>
      if u64 (zlen l - p) <? 4 then Some None
      else match load_le32 l p with
           | None => None
           | Some len =>
               let p := p + 4 in
               if u64 (zlen l - p) <? len then Some None
               else match zset out i (View p len) with
                    | None => None
                    | Some out' => length_prefixed_loop k l (i + 1) (p + len) out'
                    end
           end
  end.

Definition length_prefixed_views (l : list Z) (nn : Z) (out : list view) : option (option (Z * list view)) :=
  if zlen out <? nn then Some None else length_prefixed_loop (Z.to_nat nn) l 0 0 out.

(** ** DELTA_LENGTH_BYTE_ARRAY *)
Fixpoint delta_length_loop (l : list Z) (lengths : list Z) (i p : Z) (out : list view) : kernel (list view) :=
  match lengths with
  | [] => kernel_ok out
  | len :: t =>
      if (len <? 0) || (u64 (zlen l - p) <? len) then kernel_fail "DELTA_LENGTH_BYTE_ARRAY data past the page"
      else match zset out i (View p len) with
           | None => None
           | Some out' => delta_length_loop l t (i + 1) (p + len) out'
           end
  end.

(** The scratch [lengths] and the views. *)
Definition delta_length_views (l : list Z) (nn : Z) (lengths : list Z) (out : list view) : kernel (list Z * list view) :=
  if zlen out <? nn then kernel_fail "output smaller than the value count"
  else match delta_binary_packed 32 l (resize lengths nn) nn with
       | None => None
       | Some None => kernel_fail "malformed DELTA_LENGTH_BYTE_ARRAY lengths"
       | Some (Some (used, lengths)) =>
           match delta_length_loop l lengths 0 used out with
           | None => None
           | Some (inl e) => Some (inl e)
           | Some (inr out') => kernel_ok (lengths, out')
           end
       end.

(** ** DELTA_BYTE_ARRAY *)

(** The pass that sizes the arena. *)
Fixpoint prefix_sizes (rest_size max_bytes : Z) (ps ls : list Z) (total prev p : Z) : string + Z :=
  match ps, ls with
  | pre :: ps, len :: ls =>
      if (pre <? 0) || (len <? 0) || (prev <? pre) || (u64 (rest_size - p) <? len)
      then inl "DELTA_BYTE_ARRAY prefix/suffix out of range"
      else
        let p := p + len in
        let prev := pre + len in
        if (max_bytes <? prev) || (max_bytes - prev <? total)
        then inl "DELTA_BYTE_ARRAY expands past the size limit"
        else prefix_sizes rest_size max_bytes ps ls (total + prev) prev p
  | _, _ => inr total
  end.

(** [if (n) std::memcpy(dst + d, src + s, n)] *)
Definition copy_from (src : list Z) (s n : Z) (dst : list Z) (d : Z) : option (list Z) :=
  if n =? 0 then Some dst
  else if (0 <=? s) && (s + n <=? zlen src) then store dst d (ztake n (zdrop s src)) else None.

(** The pass that rebuilds the values. *)
Fixpoint prefix_build (rest : list Z) (ps ls : list Z) (arena : list Z) (i at_ prev_at p : Z) (out : list view) :
    option (list Z * list view) :=
  match ps, ls with
  | pre :: ps, suf :: ls =>
      match copy_from arena prev_at pre arena at_ with
      | None => None
      | Some arena =>
          match copy_from rest p suf arena (at_ + pre) with
          | None => None
          | Some arena =>
              match zset out i (View at_ (pre + suf)) with
              | None => None
              | Some out => prefix_build rest ps ls arena (i + 1) (at_ + (pre + suf)) at_ (p + suf) out
              end
          end
      end
  | _, _ => Some (arena, out)
  end.

Record prefix_out := PrefixOut { po_prefix : list Z; po_lengths : list Z; po_arena : list Z; po_views : list view }.

Definition delta_prefix_views (l : list Z) (nn : Z) (prefix lengths arena : list Z) (out : list view) (max_bytes : Z) :
    kernel prefix_out :=
  if zlen out <? nn then kernel_fail "output smaller than the value count"
  else
    match delta_binary_packed 32 l (resize prefix nn) nn with
    | None => None
    | Some None => kernel_fail "malformed DELTA_BYTE_ARRAY prefix lengths"
    | Some (Some (u1, prefix)) =>
        let rest := zdrop u1 l in
        match delta_binary_packed 32 rest (resize lengths nn) nn with
        | None => None
        | Some None => kernel_fail "malformed DELTA_BYTE_ARRAY suffix lengths"
        | Some (Some (u2, lengths)) =>
            match prefix_sizes (zlen rest) max_bytes prefix lengths 0 0 u2 with
            | inl e => Some (inl e)
            | inr total =>
                match prefix_build rest prefix lengths (resize arena total) 0 0 0 u2 out with
                | None => None
                | Some (arena, out) => kernel_ok (PrefixOut prefix lengths arena out)
                end
            end
        end
    end.

(** ** Encoders *)
Definition delta_length_encode (values : list (list Z)) (out : list Z) : option (bool * list Z) :=
  if existsb (fun v => INT32_MAX <? zlen v) values then Some (false, out)
  else match delta_binary_packed_encode 32 (List.map zlen values) out with
       | None => None
       | Some out => Some (true, out ++ concat values)
       end.

(** [while (p < lim && values[i][p] == values[i - 1][p]) ++p] *)
Fixpoint shared_prefix (a b : list Z) : Z :=
  match a, b with
  | x :: a, y :: b => if x =? y then 1 + shared_prefix a b else 0
  | _, _ => 0
  end.

Fixpoint prefixes (prev : list Z) (values : list (list Z)) : list Z :=
  match values with [] => [] | v :: t => shared_prefix v prev :: prefixes v t end.

Fixpoint suffixes (prev : list Z) (values : list (list Z)) : list (list Z) :=
  match values with [] => [] | v :: t => zdrop (shared_prefix v prev) v :: suffixes v t end.

Definition delta_prefix_encode (values : list (list Z)) (out : list Z) : option (bool * list Z) :=
  if existsb (fun v => INT32_MAX <? zlen v) values then Some (false, out)
  else match delta_binary_packed_encode 32 (prefixes [] values) out with
       | None => None
       | Some out => delta_length_encode (suffixes [] values) out
       end.

(** ** Writing the output in order *)
Lemma zset_next {A} (done_ out : list A) i x : zlen done_ = i -> i < zlen out ->
  zset (done_ ++ zdrop i out) i x = Some ((done_ ++ [x]) ++ zdrop (i + 1) out).
Proof.
  intros Hi Ho. pose proof (zlen_nonneg done_). unfold zset. rewrite zlen_app, zlen_zdrop by lia.
  destruct (Z.leb_spec 0 i), (Z.ltb_spec i (zlen done_ + Z.max 0 (zlen out - i))); try lia. cbn [andb].
  rewrite ztake_app, zdrop_app_r by lia. rewrite zdrop_zdrop, <- app_assoc by lia. f_equal. f_equal. cbn [app].
  f_equal. f_equal. lia.
Qed.

Lemma zlen_resize l n : 0 <= n -> zlen (resize l n) = n.
Proof. intros. pose proof (zlen_nonneg l). unfold resize. rewrite zlen_app, zlen_ztake, zlen_replicate by done. lia. Qed.

(** ** Length-prefixed values *)

(** The values as they are stored. *)
Definition lp_bytes (vs : list (list Z)) : list Z := concat (List.map (fun v => le_bytes 4 (zlen v) ++ v) vs).

Definition lp_ok (v : list Z) : Prop := zlen v < 2 ^ 32.

Lemma load_le32_prefix l p v t : 0 <= p -> lp_ok v -> zdrop p l = le_bytes 4 (zlen v) ++ t ->
  p + 4 <= zlen l -> load_le32 l p = Some (zlen v) /\ zdrop (p + 4) l = t.
Proof.
  intros Hp Hv He Hf. unfold load_le32, lp_ok in *. pose proof (zlen_nonneg v).
  destruct (Z.leb_spec 0 p), (Z.leb_spec (p + 4) (zlen l)); try lia. cbn [andb].
  rewrite <- zdrop_zdrop, He by lia. rewrite ztake_app, zdrop_app by (unfold zlen; by rewrite length_le_bytes).
  rewrite le_val_le_bytes. by rewrite wrap_small by lia.
Qed.

Lemma load_le32_spec l p : bytes_ok l -> 0 <= p -> p + 4 <= zlen l ->
  exists len, load_le32 l p = Some len /\ 0 <= len < 2 ^ 32 /\ zdrop p l = le_bytes 4 len ++ zdrop (p + 4) l.
Proof.
  intros Hl Hp Hf. unfold load_le32. destruct (Z.leb_spec 0 p), (Z.leb_spec (p + 4) (zlen l)); try lia. cbn [andb].
  set (b := ztake 4 (zdrop p l)). assert (Hb : bytes_ok b) by (apply bytes_ok_ztake, bytes_ok_zdrop, Hl).
  assert (Hz : zlen b = 4) by (unfold b; rewrite zlen_ztake, zlen_zdrop; lia).
  pose proof (le_val_range b Hb) as Hr. fold (zlen b) in Hr. rewrite Hz in Hr. eexists. split; [done|]. split; [done|].
  assert (le_bytes 4 (le_val b) = b) as ->.
  { apply le_val_inj; [apply le_bytes_ok|done|rewrite length_le_bytes; unfold zlen in Hz; lia|].
    rewrite le_val_le_bytes. by apply wrap_small. }
  unfold b. by rewrite <- (zdrop_zdrop 4 p), ztake_zdrop by lia.
Qed.

Section LengthPrefixed.
Context (l : list Z) (Hl : bytes_ok l) (Hs : zlen l < 2 ^ 64) (out : list view).

Definition lp_found (k i p : Z) (done_ : list view) (r : option (Z * list view)) : Prop :=
  match r with
  | Some (p', out') => exists ws, zlen ws = k /\ out' = done_ ++ ws ++ zdrop (i + k) out /\ p <= p' <= zlen l /\
      Forall lp_ok (List.map (view_bytes l) ws) /\ zdrop p l = lp_bytes (List.map (view_bytes l) ws) ++ zdrop p' l
  | None => forall vs t, zlen vs = k -> Forall lp_ok vs -> zdrop p l <> lp_bytes vs ++ t
  end.

Lemma length_prefixed_loop_spec k i p done_ : 0 <= p <= zlen l -> zlen done_ = i -> i + Z.of_nat k <= zlen out ->
  exists r, length_prefixed_loop k l i p (done_ ++ zdrop i out) = Some r /\ lp_found (Z.of_nat k) i p done_ r.
Proof using Hl Hs.
  revert i p done_. induction k as [|k IH]; intros i p done_ Hp Hi Ho; cbn [length_prefixed_loop].
  { eexists. split; [done|]. exists []. rewrite Z.add_0_r. repeat split; try done; lia. }
  rewrite (wrap_small 64 (zlen l - p)) by lia. destruct (Z.ltb_spec (zlen l - p) 4) as [H4|H4].
  { eexists. split; [done|]. intros [|v vs] t Hk _ He; [change (zlen []) with 0 in Hk; lia|]. apply (f_equal zlen) in He.
    cbn [lp_bytes List.map concat] in He. rewrite zlen_zdrop, !zlen_app in He by lia.
    unfold zlen in He at 2. rewrite length_le_bytes in He. pose proof (zlen_nonneg v). pose proof (zlen_nonneg t).
    pose proof (zlen_nonneg (lp_bytes vs)). unfold lp_bytes in *. lia. }
  destruct (load_le32_spec l p Hl ltac:(lia) ltac:(lia)) as (len & Hld & Hlen & Hd). rewrite Hld. cbv zeta.
  rewrite (wrap_small 64 (zlen l - (p + 4))) by lia. destruct (Z.ltb_spec (zlen l - (p + 4)) len) as [Hx|Hx].
  { eexists. split; [done|]. intros [|v vs] t Hk Hok He; [change (zlen []) with 0 in Hk; lia|].
    apply Forall_cons in Hok as [Hv _]. cbn [lp_bytes List.map concat] in He. rewrite <- !app_assoc in He.
    destruct (load_le32_prefix l p v _ ltac:(lia) Hv He ltac:(lia)) as [Hld' Hd']. assert (zlen v = len) as <- by congruence.
    apply (f_equal zlen) in Hd'. rewrite zlen_zdrop, zlen_app in Hd' by lia. pose proof (zlen_nonneg v).
    match type of Hd' with _ = _ + zlen ?x => pose proof (zlen_nonneg x) end. lia. }
  rewrite zset_next by lia. rewrite Nat2Z.inj_succ in *.
  assert (Hvb : view_bytes l (View (p + 4) len) ++ zdrop (p + 4 + len) l = zdrop (p + 4) l).
  { unfold view_bytes. cbn [v_at v_len]. by rewrite <- (zdrop_zdrop len), ztake_zdrop by lia. }
  assert (Hvl : zlen (view_bytes l (View (p + 4) len)) = len).
  { unfold view_bytes. cbn [v_at v_len]. rewrite zlen_ztake, zlen_zdrop by lia. lia. }
  destruct (IH (i + 1) (p + 4 + len) (done_ ++ [View (p + 4) len])) as (r & Hr & Hf);
    [lia|rewrite zlen_app; change (zlen [View (p + 4) len]) with 1; lia|lia|].
  exists r. split; [done|]. destruct r as [[p' out']|]; cbn [lp_found] in *.
  - destruct Hf as (ws & Hw & Hout & Hp' & Hok & He). exists (View (p + 4) len :: ws). cbn [List.map].
    rewrite zlen_cons, Hout. replace (i + 1 + Z.of_nat k) with (i + Z.succ (Z.of_nat k)) by lia.
    split; [lia|]. split; [by rewrite <- app_assoc|]. split; [lia|]. split; [constructor; [unfold lp_ok; lia|done]|].
    rewrite Hd, <- Hvb, He. cbn [lp_bytes List.map concat]. by rewrite Hvl, <- !app_assoc.
  - intros [|v vs] t Hk Hok He; [change (zlen []) with 0 in Hk; lia|]. apply Forall_cons in Hok as [Hv Hok].
    cbn [lp_bytes List.map concat] in He. rewrite <- !app_assoc in He.
    destruct (load_le32_prefix l p v _ ltac:(lia) Hv He ltac:(lia)) as [Hld' Hd']. assert (zlen v = len) as <- by congruence.
    apply (Hf vs t); [rewrite zlen_cons in Hk; lia|done|]. rewrite <- (zdrop_zdrop (zlen v)), Hd' by lia. by apply zdrop_app.
Qed.
End LengthPrefixed.

(** Length-prefixed values are recognised exactly. On every page, with
    room for [nn] views, the kernel answers without reading outside the page:
    when it accepts, the page is the stored form of the values the first [nn]
    views show, followed by the bytes from the reported position on, and the
    other views are untouched; when it refuses, no [nn] values stored that way
    begin the page. *)
Theorem length_prefixed_exact l nn out : bytes_ok l -> zlen l < 2 ^ 64 -> 0 <= nn <= zlen out ->
  exists r, length_prefixed_views l nn out = Some r /\
  match r with
  | Some (p, out') => exists ws, zlen ws = nn /\ out' = ws ++ zdrop nn out /\ 0 <= p <= zlen l /\
      l = lp_bytes (List.map (view_bytes l) ws) ++ zdrop p l
  | None => forall vs t, zlen vs = nn -> Forall lp_ok vs -> l <> lp_bytes vs ++ t
  end.
Proof.
  intros Hl Hs Hn. unfold length_prefixed_views. destruct (Z.ltb_spec (zlen out) nn); [lia|].
  destruct (length_prefixed_loop_spec l Hl Hs out (Z.to_nat nn) 0 0 []) as (r & Hr & Hf);
    [pose proof (zlen_nonneg l); lia|done|lia|].
  exists r. split; [exact Hr|]. unfold lp_found in Hf. rewrite Z2Nat.id in Hf by lia. destruct r as [[p out']|]; [|exact Hf].
  destruct Hf as (ws & Hw & Hout & Hp & _ & He). by exists ws.
Qed.

Lemma length_prefixed_exact_witness :
  exists r, length_prefixed_views [2; 0; 0; 0; 65; 66; 9] 1 [View 0 0] = Some r /\
  match r with
  | Some (p, out') => exists ws, zlen ws = 1 /\ out' = ws ++ [] /\ 0 <= p <= 7 /\
      [2; 0; 0; 0; 65; 66; 9] = lp_bytes (List.map (view_bytes [2; 0; 0; 0; 65; 66; 9]) ws) ++ zdrop p [2; 0; 0; 0; 65; 66; 9]
  | None => forall vs t, zlen vs = 1 -> Forall lp_ok vs -> [2; 0; 0; 0; 65; 66; 9] <> lp_bytes vs ++ t
  end.
Proof.
  exact (length_prefixed_exact [2; 0; 0; 0; 65; 66; 9] 1 [View 0 0] ltac:(repeat constructor; done) ltac:(by vm_compute)
    ltac:(split; by vm_compute)).
Defined.

(** ** DELTA_LENGTH_BYTE_ARRAY *)

(** Views of consecutive pieces of [l] from [p] on. *)
Fixpoint pieces (p : Z) (lens : list Z) : list view :=
  match lens with [] => [] | len :: t => View p len :: pieces (p + len) t end.

Definition sum (l : list Z) : Z := foldr Z.add 0 l.

Lemma zlen_pieces p lens : zlen (pieces p lens) = zlen lens.
Proof. revert p. induction lens as [|len t IH]; intros p; [done|]. cbn [pieces]. by rewrite !zlen_cons, IH. Qed.

Lemma sum_nonneg lens : Forall (fun x => 0 <= x) lens -> 0 <= sum lens.
Proof. unfold sum. induction 1; cbn; lia. Qed.

Lemma pieces_concat l p vs t : 0 <= p -> zdrop p l = concat vs ++ t ->
  List.map (view_bytes l) (pieces p (List.map zlen vs)) = vs.
Proof.
  revert p. induction vs as [|v vs IH]; intros p Hp He; [done|]. cbn [List.map pieces concat] in *. rewrite <- app_assoc in He.
  f_equal.
  - unfold view_bytes. cbn [v_at v_len]. rewrite He. by apply ztake_app.
  - pose proof (zlen_nonneg v). apply IH; [lia|]. rewrite <- zdrop_zdrop, He by lia. by apply zdrop_app.
Qed.

Lemma zlen_concat vs : zlen (concat vs) = sum (List.map (@zlen Z) vs).
Proof. induction vs as [|v vs IH]; [done|]. cbn [concat List.map sum foldr]. rewrite zlen_app, IH. done. Qed.

Lemma delta_length_loop_spec l lens i p done_ out : Forall (fun x => 0 <= x) lens -> 0 <= p -> p + sum lens <= zlen l ->
  zlen l < 2 ^ 64 -> zlen done_ = i -> i + zlen lens <= zlen out ->
  delta_length_loop l lens i p (done_ ++ zdrop i out) = kernel_ok (done_ ++ pieces p lens ++ zdrop (i + zlen lens) out).
Proof.
  intros Hlens. revert i p done_. induction Hlens as [|len lens Hlen Hlens IH]; intros i p done_ Hp Hf Hs Hi Ho;
    cbn [delta_length_loop pieces].
  { change (zlen []) with 0. by rewrite Z.add_0_r. }
  change (sum (len :: lens)) with (len + sum lens) in Hf. rewrite zlen_cons in *. pose proof (sum_nonneg lens Hlens).
  pose proof (zlen_nonneg lens). rewrite wrap_small by lia.
  destruct (Z.ltb_spec len 0), (Z.ltb_spec (zlen l - p) len); try lia. cbn [orb]. rewrite zset_next by lia.
  rewrite (IH (i + 1)) by (rewrite ?zlen_app; change (zlen [View p len]) with 1; lia).
  rewrite <- app_assoc. cbn [app]. by replace (i + 1 + zlen lens) with (i + (zlen lens + 1)) by lia.
Qed.

(** Values that fit the format's int32 lengths, and a page that fits the size
    bound of the delta decoder. *)
Record page_ok (vs : list (list Z)) : Prop := PageOk {
  pg_short : Forall (fun v => zlen v <= INT32_MAX) vs;
  pg_bytes : Forall (Forall is_byte) vs;
  pg_count : zlen vs <= 2 ^ 40
}.

Lemma lengths_in_type (vs : list (list Z)) : Forall (fun v => zlen v <= INT32_MAX) vs -> Forall (in_type 32) (List.map zlen vs).
Proof.
  intros H. apply Forall_map. eapply Forall_impl; [exact H|]. intros v Hv. pose proof (zlen_nonneg v).
  unfold in_type, INT32_MAX in *. lia.
Qed.

Lemma not_too_long (vs : list (list Z)) : Forall (fun v => zlen v <= INT32_MAX) vs -> existsb (fun v => INT32_MAX <? zlen v) vs = false.
Proof.
  induction 1 as [|v vs Hv _ IH]; [done|]. cbn [existsb]. rewrite IH. destruct (Z.ltb_spec INT32_MAX (zlen v)); [lia|done].
Qed.

Lemma bytes_ok_concat vs : Forall (Forall is_byte) vs -> bytes_ok (concat vs).
Proof. induction 1; [constructor|]. cbn [concat]. by apply Forall_app. Qed.

(** The encoder's output for [vs], and what the decoders make of it. *)
Lemma delta_length_stream vs : page_ok vs -> zlen (concat vs) < 2 ^ 56 ->
  exists body, bytes_ok body /\ zlen body <= 2 ^ 51 /\
    (forall out, delta_length_encode vs out = Some (true, out ++ body ++ concat vs)) /\
    forall rest dst, bytes_ok rest -> zlen rest < 2 ^ 56 -> zlen dst = zlen vs ->
      delta_binary_packed 32 (body ++ concat vs ++ rest) dst (zlen vs) = Some (Some (zlen body, List.map zlen vs)).
Proof.
  intros [Hshort Hb Hn] Hc.
  destruct (delta_stream 32 ltac:(lia) (List.map zlen vs) (lengths_in_type vs Hshort) ltac:(by rewrite zlen_map))
    as (body & Hbody & Hlen & Henc & Hdec). rewrite zlen_map in Hdec.
  exists body. split_and!; [done|done| |].
  - intros out. unfold delta_length_encode. rewrite not_too_long, Henc by done. by rewrite app_assoc.
  - intros rest dst Hr Hrl Hd. rewrite Hdec; [| |rewrite zlen_app; lia|lia].
    + by rewrite zdrop_all, app_nil_r by lia.
    + apply Forall_app. split; [by apply bytes_ok_concat|done].
Qed.

(** DELTA_LENGTH_BYTE_ARRAY round trip: the encoder accepts values up to
    the format's int32 length and appends a page from which, whatever follows
    it, the decoder asked for all of them produces views of exactly those
    values in order and leaves the other views alone. *)
Theorem delta_length_roundtrip vs out rest lengths views :
  page_ok vs -> zlen (concat vs) < 2 ^ 56 -> bytes_ok rest -> zlen rest < 2 ^ 56 -> zlen vs <= zlen views ->
  exists body ws, delta_length_encode vs out = Some (true, out ++ body) /\
    delta_length_views (body ++ rest) (zlen vs) lengths views =
      kernel_ok (List.map zlen vs, ws ++ zdrop (zlen vs) views) /\
    List.map (view_bytes (body ++ rest)) ws = vs.
Proof.
  intros Hp Hc Hr Hrl Hv. destruct (delta_length_stream vs Hp Hc) as (body & Hb & Hbl & Henc & Hdec).
  pose proof (zlen_nonneg vs). pose proof (zlen_nonneg body). pose proof (zlen_nonneg rest).
  assert (Hd : zdrop (zlen body) ((body ++ concat vs) ++ rest) = concat vs ++ rest)
    by (rewrite <- app_assoc; by apply zdrop_app).
  exists (body ++ concat vs), (pieces (zlen body) (List.map zlen vs)). split_and!; [apply Henc| |by eapply pieces_concat].
  unfold delta_length_views. destruct (Z.ltb_spec (zlen views) (zlen vs)); [lia|].
  rewrite <- app_assoc, Hdec by (rewrite ?zlen_resize; done || lia).
  pose proof (delta_length_loop_spec (body ++ concat vs ++ rest) (List.map zlen vs) 0 (zlen body) [] views) as Hloop.
  rewrite zdrop_0 in Hloop. cbn [app] in Hloop. rewrite Hloop; rewrite ?zlen_map; try done.
  - apply Forall_map, Forall_true. intros v. apply zlen_nonneg.
  - rewrite <- zlen_concat, !zlen_app. lia.
  - rewrite !zlen_app. lia.
Qed.

Lemma delta_length_roundtrip_witness :
  exists body ws, delta_length_encode [[104; 105]; []; [33]] [7] = Some (true, [7] ++ body) /\
    delta_length_views (body ++ [1; 2]) 3 [5] [View 0 0; View 0 0; View 0 0; View 9 9] =
      kernel_ok ([2; 0; 1], ws ++ [View 9 9]) /\
    List.map (view_bytes (body ++ [1; 2])) ws = [[104; 105]; []; [33]].
Proof.
  exact (delta_length_roundtrip [[104; 105]; []; [33]] [7] [1; 2] [5] [View 0 0; View 0 0; View 0 0; View 9 9]
    ltac:(constructor; [repeat constructor; by vm_compute|repeat constructor; done|by vm_compute])
    ltac:(by vm_compute) ltac:(repeat constructor; done) ltac:(by vm_compute) ltac:(by vm_compute)).
Defined.

(** ** DELTA_BYTE_ARRAY *)

(** The values prefix and suffix lengths describe, the suffixes taken from
    [data] in order. *)
Fixpoint front_values (prev : list Z) (ps ls : list Z) (data : list Z) : list (list Z) :=
  match ps, ls with
  | pre :: ps, len :: ls =>
      let v := ztake pre prev ++ ztake len data in v :: front_values v ps ls (zdrop len data)
  | _, _ => []
  end.

(** Prefixes within the previous value, suffixes within [avail] bytes. *)
Fixpoint front_ok (avail prev : Z) (ps ls : list Z) : Prop :=
  match ps, ls with
  | pre :: ps, len :: ls => 0 <= pre <= prev /\ 0 <= len <= avail /\ front_ok (avail - len) (pre + len) ps ls
  | _, _ => True
  end.

Fixpoint front_size (ps ls : list Z) : Z :=
  match ps, ls with pre :: ps, len :: ls => pre + len + front_size ps ls | _, _ => 0 end.

Lemma front_size_nonneg avail prev ps ls : front_ok avail prev ps ls -> 0 <= front_size ps ls.
Proof.
  revert avail prev ls. induction ps as [|pre ps IH]; intros avail prev [|len ls]; cbn; try lia.
  intros (? & ? & H). apply IH in H. lia.
Qed.

(** The sizing pass accepts exactly the lengths in range within the limit. *)
Lemma prefix_sizes_spec rsz max ps ls total prev p : 0 <= p <= rsz -> rsz < 2 ^ 64 -> 0 <= total <= max ->
  match prefix_sizes rsz max ps ls total prev p with
  | inr t => front_ok (rsz - p) prev ps ls /\ t = total + front_size ps ls /\ t <= max
  | inl _ => ~ (front_ok (rsz - p) prev ps ls /\ total + front_size ps ls <= max)
  end.
Proof.
  revert ls total prev p. induction ps as [|pre ps IH]; intros [|len ls] total prev p Hp Hr Ht; cbn; try lia.
  rewrite wrap_small by lia.
  destruct (Z.ltb_spec pre 0), (Z.ltb_spec len 0), (Z.ltb_spec prev pre), (Z.ltb_spec (rsz - p) len); cbn [orb]; try lia.
  destruct (Z.ltb_spec max (pre + len)), (Z.ltb_spec (max - (pre + len)) total); cbn [orb].
  1-3: intros [(? & ? & Hf) ?]; apply front_size_nonneg in Hf; lia.
  specialize (IH ls (total + (pre + len)) (pre + len) (p + len) ltac:(lia) Hr ltac:(lia)).
  destruct (prefix_sizes _ _ _ _ _ _ _) as [e|t].
  - intros [(? & ? & Hf) ?]. apply IH. replace (rsz - (p + len)) with (rsz - p - len) by lia. split; [done|lia].
  - destruct IH as (Hf & Heq & Hm). replace (rsz - (p + len)) with (rsz - p - len) in Hf by lia. repeat split; done || lia.
Qed.

Lemma copy_from_produced src s n dst a : produced dst a -> 0 <= s -> 0 <= n -> s + n <= zlen src ->
  zlen a + n <= zlen dst ->
  exists dst', copy_from src s n dst (zlen a) = Some dst' /\ zlen dst' = zlen dst /\
    produced dst' (a ++ ztake n (zdrop s src)).
Proof.
  intros Hp Hs Hn Hf Hr. unfold copy_from. destruct (Z.eqb_spec n 0) as [-> |Hn0].
  { exists dst. rewrite ztake_0, app_nil_r. done. }
  destruct (Z.leb_spec 0 s), (Z.leb_spec (s + n) (zlen src)); try lia. cbn [andb].
  destruct (store_produced dst a (ztake n (zdrop s src)) Hp) as (dst' & Hst & Hl & Hp' & _).
  { rewrite zlen_ztake, zlen_zdrop by lia. lia. }
  by exists dst'.
Qed.

Section PrefixBuild.
Context (rest : list Z) (out : list view).

(** The arena holds [a], which ends with the previous value. *)
Lemma prefix_build_spec ps ls arena a prevv i p done_ : produced arena (a ++ prevv) -> 0 <= p <= zlen rest ->
  front_ok (zlen rest - p) (zlen prevv) ps ls -> zlen ps = zlen ls ->
  zlen a + zlen prevv + front_size ps ls <= zlen arena -> zlen done_ = i -> i + zlen ps <= zlen out ->
  let vals := front_values prevv ps ls (zdrop p rest) in
  exists arena', prefix_build rest ps ls arena i (zlen a + zlen prevv) (zlen a) p (done_ ++ zdrop i out) =
      Some (arena', done_ ++ pieces (zlen a + zlen prevv) (List.map zlen vals) ++ zdrop (i + zlen ps) out) /\
    zlen arena' = zlen arena /\ produced arena' (a ++ prevv ++ concat vals) /\ zlen vals = zlen ps.
Proof.
  revert ls arena a prevv i p done_.
  induction ps as [|pre ps IH]; intros [|len ls] arena a prevv i p done_ Hp Hpr Hok Hll Hfit Hi Ho;
    try (rewrite zlen_cons in Hll; change (@zlen Z []) with 0 in Hll;
         match type of Hll with context [zlen ?x] => pose proof (zlen_nonneg x) end; lia).
  { exists arena. cbn. rewrite app_nil_r. change (zlen []) with 0. by rewrite Z.add_0_r. }
  destruct Hok as (Hpre & Hlen & Hok). pose proof (front_size_nonneg _ _ _ _ Hok) as Hsz.
  rewrite !zlen_cons in *. pose proof (zlen_nonneg ps). pose proof (zlen_nonneg a). pose proof (zlen_nonneg done_).
  cbn [front_size prefix_build front_values] in *.
  set (v := ztake pre prevv ++ ztake len (zdrop p rest)).
  assert (Hv : zlen v = pre + len) by (unfold v; rewrite zlen_app, !zlen_ztake, zlen_zdrop by lia; lia).
  assert (Hzp : zlen (a ++ prevv) = zlen a + zlen prevv) by apply zlen_app.
  destruct (copy_from_produced arena (zlen a) pre arena (a ++ prevv) Hp) as (ar1 & Hc1 & Hl1 & Hp1); [lia..|].
  rewrite Hzp in Hc1. rewrite Hc1. rewrite (produced_slice arena (a ++ prevv)) in Hp1 by (done || lia).
  rewrite zdrop_app in Hp1 by done.
  assert (Hz1 : zlen ((a ++ prevv) ++ ztake pre prevv) = zlen a + zlen prevv + pre)
    by (rewrite zlen_app, Hzp, zlen_ztake by lia; lia).
  destruct (copy_from_produced rest p len ar1 _ Hp1) as (ar2 & Hc2 & Hl2 & Hp2); [lia..|].
  rewrite Hz1 in Hc2. rewrite Hc2, zset_next by lia.
  rewrite <- app_assoc in Hp2. fold v in Hp2.
  destruct (IH ls ar2 (a ++ prevv) v (i + 1) (p + len) (done_ ++ [View (zlen a + zlen prevv) (pre + len)]) Hp2)
    as (ar3 & Hc3 & Hl3 & Hp3 & Hz3); try lia.
  { rewrite Hv. by replace (zlen rest - (p + len)) with (zlen rest - p - len) by lia. }
  { rewrite zlen_app. by change (zlen [View (zlen a + zlen prevv) (pre + len)]) with 1; rewrite Hi. }
  rewrite Hzp, Hv in Hc3. exists ar3. rewrite Hc3. rewrite <- (zdrop_zdrop len) in * by lia.
  cbn [List.map pieces concat]. rewrite Hv. split; [|split; [lia|split]].
  - rewrite <- app_assoc. cbn [app]. by replace (i + 1 + zlen ps) with (i + (zlen ps + 1)) by lia.
  - by rewrite <- app_assoc in Hp3.
  - rewrite zlen_cons. lia.
Qed.
End PrefixBuild.

(** The build pass over the whole stream. *)
Lemma prefix_build_all rest ps ls arena p out : 0 <= p <= zlen rest -> front_ok (zlen rest - p) 0 ps ls ->
  zlen ps = zlen ls -> zlen ps <= zlen out ->
  let vals := front_values [] ps ls (zdrop p rest) in zlen arena = front_size ps ls -> zlen (concat vals) = zlen arena ->
  exists ws, prefix_build rest ps ls arena 0 0 0 p out = Some (concat vals, ws ++ zdrop (zlen ps) out) /\
    zlen ws = zlen ps /\ List.map (view_bytes (concat vals)) ws = vals.
Proof.
  intros Hp Hok Hll Ho vals Ha Hc. 
  destruct (prefix_build_spec rest out ps ls arena [] [] 0 p []) as (ar & Hb & Hl & Hpr & Hz);
    [split; [apply zlen_nonneg|done]|done|done|done|change (@zlen Z []) with 0; lia|done|lia|].
  fold vals in Hb, Hpr, Hz. change (@zlen Z []) with 0 in Hb. cbn [app] in Hpr, Hb. rewrite zdrop_0 in Hb.
  change (0 + 0) with 0 in Hb. rewrite Z.add_0_l in Hb. exists (pieces 0 (List.map zlen vals)). split_and!.
  - rewrite Hb. assert (ar = concat vals) as ->; [|done]. destruct Hpr as [_ Hpr]. rewrite ztake_all in Hpr by lia. done.
  - by rewrite zlen_pieces, zlen_map.
  - apply (pieces_concat _ _ _ []); [lia|]. by rewrite zdrop_0, app_nil_r.
Qed.

Lemma front_values_size prev ps ls data : front_ok (zlen data) (zlen prev) ps ls ->
  zlen (concat (front_values prev ps ls data)) = front_size ps ls.
Proof.
  revert prev ls data. induction ps as [|pre ps IH]; intros prev [|len ls] data; try done.
  cbn [front_ok front_values front_size concat]. intros (Hpre & Hlen & Hok).
  assert (Hv : zlen (ztake pre prev ++ ztake len data) = pre + len) by (rewrite zlen_app, !zlen_ztake by lia; lia).
  rewrite zlen_app, IH, Hv; [lia|]. rewrite Hv, zlen_zdrop by lia. by replace (Z.max 0 (zlen data - len)) with (zlen data - len) by lia.
Qed.

(** Front coding is safe and exact on every page. The kernel never leaves
    its memory and always answers; when it accepts, the arena is within the
    caller's limit and holds, back to back, the values that the decoded
    prefix and suffix lengths describe (each one the start of its predecessor
    and the next piece of the page), the first [nn] views show them in order
    and the other views are untouched. *)
Theorem delta_prefix_safe l nn prefix lengths arena out max_bytes :
  bytes_ok l -> zlen l < 2 ^ 58 -> 0 <= nn <= zlen out -> 0 <= max_bytes ->
  exists r, delta_prefix_views l nn prefix lengths arena out max_bytes = Some r /\
  forall o, r = inr o -> exists u ws,
    let vals := front_values [] (po_prefix o) (po_lengths o) (zdrop u l) in
    0 <= u <= zlen l /\ front_ok (zlen l - u) 0 (po_prefix o) (po_lengths o) /\
    po_arena o = concat vals /\ zlen (po_arena o) <= max_bytes /\
    po_views o = ws ++ zdrop nn out /\ zlen ws = nn /\ List.map (view_bytes (po_arena o)) ws = vals.
Proof.
  intros Hl Hs Hn Hm. unfold delta_prefix_views. destruct (Z.ltb_spec (zlen out) nn); [lia|].
  destruct (delta_binary_packed_safe 32 l (resize prefix nn) nn ltac:(lia) Hl Hs ltac:(lia)) as (r1 & -> & Hr1).
  destruct r1 as [[u1 ps]|]; [|by eexists]. destruct (Hr1 _ _ eq_refl) as (Hu1 & Hps & _). rewrite zlen_resize in Hps by lia.
  assert (Hrz : zlen (zdrop u1 l) = zlen l - u1) by (rewrite zlen_zdrop; lia).
  destruct (delta_binary_packed_safe 32 (zdrop u1 l) (resize lengths nn) nn ltac:(lia) ltac:(by apply bytes_ok_zdrop)
    ltac:(lia) ltac:(lia)) as (r2 & Hd2 & Hr2). cbv zeta. rewrite Hd2.
  destruct r2 as [[u2 ls]|]; [|by eexists]. destruct (Hr2 _ _ eq_refl) as (Hu2 & Hls & _). rewrite zlen_resize in Hls by lia.
  pose proof (prefix_sizes_spec (zlen (zdrop u1 l)) max_bytes ps ls 0 0 u2 ltac:(lia) ltac:(lia) ltac:(lia)) as Hsz.
  destruct (prefix_sizes _ _ _ _ _ _ _) as [e|total]; [by eexists|]. destruct Hsz as (Hok & Htot & Hmax).
  pose proof (front_size_nonneg _ _ _ _ Hok).
  assert (Hfv : zlen (concat (front_values [] ps ls (zdrop u2 (zdrop u1 l)))) = front_size ps ls).
  { apply front_values_size. rewrite zlen_zdrop by lia. by replace (Z.max 0 (zlen (zdrop u1 l) - u2)) with (zlen (zdrop u1 l) - u2) by lia. }
  destruct (prefix_build_all (zdrop u1 l) ps ls (resize arena total) u2 out) as (ws & Hb & Hw & Hv);
    [lia|done|lia|lia|rewrite zlen_resize; lia|rewrite Hfv, zlen_resize; lia|].
  rewrite Hb. eexists. split; [done|]. intros o [= <-]. cbn [po_prefix po_lengths po_arena po_views].
  exists (u1 + u2), ws. rewrite zdrop_zdrop in * by lia. rewrite Hps in *.
  replace (zlen l - (u1 + u2)) with (zlen (zdrop u1 l) - u2) by lia. repeat split; done || lia.
Qed.

Lemma delta_prefix_safe_witness :
  exists r, delta_prefix_views [128; 1; 4; 0; 0] 0 [] [] [] [View 3 4] 10 = Some r /\
  forall o, r = inr o -> exists u ws,
    let vals := front_values [] (po_prefix o) (po_lengths o) (zdrop u [128; 1; 4; 0; 0]) in
    0 <= u <= 5 /\ front_ok (5 - u) 0 (po_prefix o) (po_lengths o) /\
    po_arena o = concat vals /\ zlen (po_arena o) <= 10 /\
    po_views o = ws ++ [View 3 4] /\ zlen ws = 0 /\ List.map (view_bytes (po_arena o)) ws = vals.
Proof.
  exact (delta_prefix_safe [128; 1; 4; 0; 0] 0 [] [] [] [View 3 4] 10 ltac:(repeat constructor; done) ltac:(by vm_compute)
    ltac:(split; by vm_compute) ltac:(lia)).
Defined.

(** ** The front coder *)
Lemma shared_prefix_spec a b : 0 <= shared_prefix a b <= zlen a /\ shared_prefix a b <= zlen b /\
  ztake (shared_prefix a b) a = ztake (shared_prefix a b) b.
Proof.
  revert b. induction a as [|x a IH]; intros [|y b]; cbn [shared_prefix]; rewrite ?zlen_cons;
    try (change (@zlen Z []) with 0); try (pose proof (zlen_nonneg a)); try (pose proof (zlen_nonneg b)); try (by repeat split; lia).
  destruct (Z.eqb_spec x y) as [-> |]; [|by repeat split; lia]. destruct (IH b) as (Hs & Hb & He).
  repeat split; try lia. unfold ztake in *. replace (Z.to_nat (1 + shared_prefix a b)) with (S (Z.to_nat (shared_prefix a b))) by lia.
  cbn. by rewrite He.
Qed.

Lemma front_coding vs prev rest :
  front_values prev (prefixes prev vs) (List.map zlen (suffixes prev vs)) (concat (suffixes prev vs) ++ rest) = vs /\
  front_ok (zlen (concat (suffixes prev vs) ++ rest)) (zlen prev) (prefixes prev vs) (List.map zlen (suffixes prev vs)) /\
  zlen (prefixes prev vs) = zlen vs /\ zlen (suffixes prev vs) = zlen vs.
Proof.
  revert prev. induction vs as [|v vs IH]; intros prev; [done|].
  cbn [prefixes suffixes List.map concat front_values front_ok]. destruct (shared_prefix_spec v prev) as (Hs & Hp & He).
  set (s := zdrop (shared_prefix v prev) v). rewrite <- app_assoc.
  assert (Hv : ztake (shared_prefix v prev) prev ++ ztake (zlen s) (s ++ concat (suffixes v vs) ++ rest) = v)
    by (rewrite ztake_app by done; unfold s; rewrite <- He; apply ztake_zdrop).
  destruct (IH v) as (IH1 & IH2 & IH3 & IH4). rewrite Hv, zdrop_app, IH1 by done.
  assert (Hsl : zlen s = zlen v - shared_prefix v prev) by (unfold s; rewrite zlen_zdrop by lia; lia).
  pose proof (zlen_nonneg (concat (suffixes v vs) ++ rest)). rewrite !zlen_cons, zlen_app. split_and!; try lia; [done|].
  replace (zlen s + zlen (concat (suffixes v vs) ++ rest) - zlen s) with (zlen (concat (suffixes v vs) ++ rest)) by lia.
  by replace (shared_prefix v prev + zlen s) with (zlen v) by lia.
Qed.

Lemma front_page_ok vs prev : page_ok vs -> page_ok (suffixes prev vs) /\ Forall (in_type 32) (prefixes prev vs) /\
  zlen (concat (suffixes prev vs)) <= zlen (concat vs).
Proof.
  intros [Hs Hb Hc]. split; [constructor|split].
  - clear Hb Hc. revert prev. induction Hs as [|v vs Hv _ IH]; intros prev; cbn [suffixes]; constructor; [|done].
    pose proof (shared_prefix_spec v prev). rewrite zlen_zdrop by lia. pose proof (zlen_nonneg v). lia.
  - clear Hs Hc. revert prev. induction Hb as [|v vs Hv _ IH]; intros prev; cbn [suffixes]; constructor; [|done].
    by apply bytes_ok_zdrop.
  - destruct (front_coding vs prev []) as (_ & _ & _ & ->). done.
  - clear Hb Hc. revert prev. induction Hs as [|v vs Hv _ IH]; intros prev; cbn [prefixes]; constructor; [|done].
    pose proof (shared_prefix_spec v prev). unfold in_type, INT32_MAX in *. lia.
  - clear Hs Hb Hc. revert prev. induction vs as [|v vs IH]; intros prev; [done|]. cbn [suffixes concat]. rewrite !zlen_app.
    pose proof (shared_prefix_spec v prev). rewrite zlen_zdrop by lia. specialize (IH v). pose proof (zlen_nonneg v). lia.
Qed.

(** What the encoder appends, and the two length streams read back. *)
Lemma delta_prefix_stream vs : page_ok vs -> zlen (concat vs) < 2 ^ 55 ->
  exists b1 b2, (forall out, delta_prefix_encode vs out = Some (true, out ++ b1 ++ b2 ++ concat (suffixes [] vs))) /\
    forall rest d1 d2, bytes_ok rest -> zlen rest < 2 ^ 55 -> zlen d1 = zlen vs -> zlen d2 = zlen vs ->
      let page := b2 ++ concat (suffixes [] vs) ++ rest in
      zlen page < 2 ^ 58 /\
      delta_binary_packed 32 (b1 ++ page) d1 (zlen vs) = Some (Some (zlen b1, prefixes [] vs)) /\
      delta_binary_packed 32 page d2 (zlen vs) = Some (Some (zlen b2, List.map zlen (suffixes [] vs))).
Proof.
  intros Hp Hc. destruct (front_page_ok vs [] Hp) as (Hsp & Hpt & Hcs). destruct (front_coding vs [] []) as (_ & _ & Hn1 & Hn2).
  pose proof (pg_count _ Hp) as Hcnt.
  destruct (delta_stream 32 ltac:(lia) (prefixes [] vs) Hpt ltac:(lia)) as (b1 & Hb1 & Hl1 & Henc1 & Hdec1).
  destruct (delta_length_stream (suffixes [] vs) Hsp ltac:(lia)) as (b2 & Hb2 & Hl2 & Henc2 & Hdec2).
  exists b1, b2. split.
  - intros out. unfold delta_prefix_encode. rewrite not_too_long by apply Hp. rewrite Henc1, Henc2. by rewrite <- app_assoc.
  - intros rest d1 d2 Hr Hrl Hd1 Hd2. cbv zeta. rewrite Hn1, Hn2 in *.
    assert (Hpl : zlen (b2 ++ concat (suffixes [] vs) ++ rest) < 2 ^ 57) by (rewrite !zlen_app; lia).
    split_and!; [lia| |].
    + rewrite Hdec1 by (done || lia || (rewrite !Forall_app; split_and!; [done|apply bytes_ok_concat, Hsp|done])).
      by rewrite zdrop_all, app_nil_r by lia.
    + by apply Hdec2; [|lia|].
Qed.

(** DELTA_BYTE_ARRAY round trip: front coding against the previous value
    is undone by the decoder. For values up to the format's int32 length whose
    total size is within the decoder's limit, the decoder rebuilds in its
    arena, and shows through its views, exactly the encoded values. *)
Theorem delta_prefix_roundtrip vs out rest prefix lengths arena views max_bytes :
  page_ok vs -> zlen (concat vs) < 2 ^ 55 -> bytes_ok rest -> zlen rest < 2 ^ 55 -> zlen vs <= zlen views ->
  zlen (concat vs) <= max_bytes ->
  exists body o ws, delta_prefix_encode vs out = Some (true, out ++ body) /\
    delta_prefix_views (body ++ rest) (zlen vs) prefix lengths arena views max_bytes = kernel_ok o /\
    po_arena o = concat vs /\ po_views o = ws ++ zdrop (zlen vs) views /\ List.map (view_bytes (po_arena o)) ws = vs.
Proof.
  intros Hp Hc Hr Hrl Hv Hm. destruct (delta_prefix_stream vs Hp Hc) as (b1 & b2 & Henc & Hdec).
  pose proof (zlen_nonneg vs). pose proof (zlen_nonneg (concat vs)). pose proof (zlen_nonneg b2).
  destruct (Hdec rest (resize prefix (zlen vs)) (resize lengths (zlen vs)) Hr Hrl) as (Hpg & Hd1 & Hd2);
    [by apply zlen_resize..|].
  destruct (front_coding vs [] rest) as (Hfv & Hok & Hn1 & Hn2). change (zlen []) with 0 in Hok.
  set (ps := prefixes [] vs) in *. set (ls := List.map zlen (suffixes [] vs)) in *.
  assert (Hll : zlen ls = zlen vs) by (unfold ls; by rewrite zlen_map).
  set (data := concat (suffixes [] vs) ++ rest) in *. set (page := b2 ++ data) in *.
  assert (Hpd : zlen page - zlen b2 = zlen data) by (unfold page; rewrite zlen_app; lia).
  assert (Hdr : zdrop (zlen b2) page = data) by (by apply zdrop_app).
  pose proof (front_values_size [] ps ls data Hok) as Hsz. rewrite Hfv in Hsz. pose proof (zlen_nonneg data).
  pose proof (prefix_sizes_spec (zlen page) max_bytes ps ls 0 0 (zlen b2) ltac:(lia) ltac:(lia) ltac:(lia)) as Hps.
  rewrite Hpd in Hps.
  destruct (prefix_build_all page ps ls (resize arena (zlen (concat vs))) (zlen b2) views) as (ws & Hb & Hw & Hvw);
    [lia|by rewrite Hpd|lia|lia|rewrite zlen_resize; lia|by rewrite Hdr, Hfv, zlen_resize by lia|].
  rewrite Hdr, Hfv, Hn1 in *.
  exists (b1 ++ b2 ++ concat (suffixes [] vs)), (PrefixOut ps ls (concat vs) (ws ++ zdrop (zlen vs) views)), ws.
  split; [apply Henc|]. split; [|done]. unfold delta_prefix_views. destruct (Z.ltb_spec (zlen views) (zlen vs)); [lia|].
  rewrite <- !app_assoc. fold data page. rewrite Hd1. cbv zeta. rewrite zdrop_app by done. rewrite Hd2.
  destruct (prefix_sizes _ _ _ _ _ _ _) as [e|total]; [destruct Hps; split; [done|lia]|]. destruct Hps as (_ & -> & _).
  replace (0 + front_size ps ls) with (zlen (concat vs)) by lia. by rewrite Hb.
Qed.

Lemma delta_prefix_roundtrip_witness :
  exists body o ws, delta_prefix_encode [[97; 98; 99]; [97; 98]; [97; 98; 120]] [] = Some (true, [] ++ body) /\
    delta_prefix_views (body ++ [1]) 3 [] [] [] [View 0 0; View 0 0; View 0 0; View 9 9] 8 = kernel_ok o /\
    po_arena o = [97; 98; 99; 97; 98; 97; 98; 120] /\ po_views o = ws ++ [View 9 9] /\
    List.map (view_bytes (po_arena o)) ws = [[97; 98; 99]; [97; 98]; [97; 98; 120]].
Proof.
  exact (delta_prefix_roundtrip [[97; 98; 99]; [97; 98]; [97; 98; 120]] [] [1] [] [] []
    [View 0 0; View 0 0; View 0 0; View 9 9] 8
    ltac:(constructor; [repeat constructor; by vm_compute|repeat constructor; done|by vm_compute])
    ltac:(by vm_compute) ltac:(repeat constructor; done) ltac:(by vm_compute) ltac:(by vm_compute) ltac:(by vm_compute)).
Defined.
