(* ===== verification/Dremel.v ===== *)
(** * Dremel levels and record assembly (values.hpp sections 34b and 34c)

    [level_slots], [struct_slots] and [list_slots]: validity bitmaps, list
    offsets and counts from a leaf's repetition and definition levels. The
    level arrays are lists walked from the front; a read past their end, or a
    write outside a bitmap or the offsets, is [None]. *)
From S2P Require Import Prelude Columnar ByteStreams Views.

(** [bm[i / 8] |= 1u << (i % 8)] *)
Definition set_bit (bm : list Z) (i : Z) : option (list Z) :=
  match zget bm (i / 8) with
  | None => None
  | Some b => store bm (i / 8) [u8 (Z.lor b (Z.shiftl 1 (i mod 8)))]
  end.

(** ** Value slots of a leaf *)
Record slot_counts := SlotCounts { slots : Z; non_null : Z }.

Fixpoint level_slots_loop (n : nat) (def : list Z) (slot_level max_def : Z) (c : slot_counts) (bm : list Z) :
    option (slot_counts * list Z) :=
  match n with
  | O => Some (c, bm)
  | S n =>
      match def with
      | [] => None
      | d :: def =>
          if d <? slot_level then level_slots_loop n def slot_level max_def c bm
          else if d =? max_def then
            match set_bit bm (slots c) with
            | None => None
            | Some bm => level_slots_loop n def slot_level max_def (SlotCounts (slots c + 1) (non_null c + 1)) bm
            end
          else level_slots_loop n def slot_level max_def (SlotCounts (slots c + 1) (non_null c)) bm
      end
  end.

Definition level_slots (def : list Z) (n slot_level max_def : Z) (bm : list Z) : option (slot_counts * list Z) :=
  level_slots_loop (Z.to_nat n) def slot_level max_def (SlotCounts 0 0) bm.

(** ** Structure *)
Record dremel_node := DremelNode { r_enc : Z; d_enc : Z; def_present : Z; def_elem : Z; rep_elem : Z }.

Record struct_out := StructOut { so_validity : list Z; so_nulls : Z }.

Fixpoint struct_loop (entries : nat) (rep def : list Z) (nd : dremel_node) (expected slots nulls : Z) (validity : list Z) :
    kernel struct_out :=
  match entries with
  | O =>
      if negb (slots =? expected) then kernel_fail "fewer slots than the parent has"
      else kernel_ok (StructOut validity nulls)
  | S entries =>
      match rep, def with
      | r :: rep, d :: def =>
          if (r_enc nd <? r) || (d <? d_enc nd) then struct_loop entries rep def nd expected slots nulls validity
          else if expected <=? slots then kernel_fail "more slots than the parent has"
          else if def_present nd <=? d then
            match set_bit validity slots with
            | None => None
            | Some validity => struct_loop entries rep def nd expected (slots + 1) nulls validity
            end
          else struct_loop entries rep def nd expected (slots + 1) (nulls + 1) validity
      | _, _ => None
      end
  end.

Definition struct_slots (rep def : list Z) (entries : Z) (nd : dremel_node) (expected : Z) (validity : list Z) :
    kernel struct_out :=
  struct_loop (Z.to_nat entries) rep def nd expected 0 0 validity.

Record list_state := ListState {
  ls_slots : Z; ls_elems : Z; ls_nulls : Z; ls_open : bool; ls_offsets : list Z; ls_validity : list Z
}.

(** A new slot, of an entry at the enclosing list's level. *)
Definition list_slot (d : Z) (nd : dremel_node) (expected : Z) (s : list_state) : kernel list_state :=
  if expected <=? ls_slots s then kernel_fail "more slots than the parent has"
  else match store (ls_offsets s) (ls_slots s) [sint 32 (u32 (ls_elems s))] with
       | None => None
       | Some offsets =>
           let nulls := if def_present nd <=? d then ls_nulls s else ls_nulls s + 1 in
           match (if def_present nd <=? d then set_bit (ls_validity s) (ls_slots s) else Some (ls_validity s)) with
           | None => None
           | Some validity =>
               if def_elem nd <=? d
               then kernel_ok (ListState (ls_slots s + 1) (ls_elems s + 1) nulls true offsets validity)
               else kernel_ok (ListState (ls_slots s + 1) (ls_elems s) nulls false offsets validity)
           end
       end.

(** One entry, the early [continue] of an entry under no slot included. *)
Definition list_entry (r d : Z) (nd : dremel_node) (expected : Z) (s : list_state) : kernel list_state :=
  if r <=? r_enc nd then
    if d <? d_enc nd then
      kernel_ok (ListState (ls_slots s) (ls_elems s) (ls_nulls s) false (ls_offsets s) (ls_validity s))
    else
      match list_slot d nd expected s with
      | Some (inr s) => if INT32_MAX <? ls_elems s then kernel_fail "more than 2^31 list elements" else kernel_ok s
      | x => x
      end
  else if r =? rep_elem nd then
    if negb (ls_open s) then kernel_fail "an element continues a list that has none"
    else if INT32_MAX <? ls_elems s + 1 then kernel_fail "more than 2^31 list elements"
    else kernel_ok (ListState (ls_slots s) (ls_elems s + 1) (ls_nulls s) (ls_open s) (ls_offsets s) (ls_validity s))
  else if INT32_MAX <? ls_elems s then kernel_fail "more than 2^31 list elements" else kernel_ok s.

Fixpoint list_loop (entries : nat) (rep def : list Z) (nd : dremel_node) (expected : Z) (s : list_state) :
    kernel list_state :=
  match entries with
  | O => kernel_ok s
  | S entries =>
      match rep, def with
      | r :: rep, d :: def =>
          match list_entry r d nd expected s with
          | Some (inr s) => list_loop entries rep def nd expected s
          | x => x
          end
      | _, _ => None
      end
  end.

Record list_out := ListOut { lo_offsets : list Z; lo_validity : list Z; lo_nulls : Z; lo_elements : Z }.

Definition list_slots (rep def : list Z) (entries : Z) (nd : dremel_node) (expected : Z) (offsets validity : list Z) :
    kernel list_out :=
  match list_loop (Z.to_nat entries) rep def nd expected (ListState 0 0 0 false offsets validity) with
  | None => None
  | Some (inl e) => kernel_fail e
  | Some (inr s) =>
      if negb (ls_slots s =? expected) then kernel_fail "fewer slots than the parent has"
      else match store (ls_offsets s) (ls_slots s) [sint 32 (u32 (ls_elems s))] with
           | None => None
           | Some offsets => kernel_ok (ListOut offsets (ls_validity s) (ls_nulls s) (ls_elems s))
           end
  end.

(** ** Bitmaps *)
Lemma set_bit_spec bm i : bytes_ok bm -> 0 <= i < 8 * zlen bm ->
  exists bm', set_bit bm i = Some bm' /\ zlen bm' = zlen bm /\ bytes_ok bm' /\
    forall j, 0 <= j -> bit bm' j = (j =? i) || bit bm j.
Proof.
  intros Hb Hi. unfold set_bit. pose proof (Z.div_mod i 8 ltac:(lia)) as Hdm. pose proof (Z.mod_pos_bound i 8 ltac:(lia)).
  set (q := i / 8) in *. set (r := i mod 8) in *. destruct (proj2 (zget_is_Some bm q)) as [b Hg]; [lia|]. rewrite Hg.
  set (v := u8 (Z.lor b (Z.shiftl 1 r))).
  assert (Hv : is_byte v) by (apply (wrap_range 8); lia). assert (Hz : zlen [v] = 1) by done.
  exists (ztake q bm ++ [v] ++ zdrop (q + 1) bm). rewrite store_spec by lia. split; [done|]. split.
  { rewrite !zlen_app, Hz, zlen_ztake, zlen_zdrop by lia. lia. }
  split; [rewrite !Forall_app; auto using bytes_ok_ztake, bytes_ok_zdrop|]. intros j Hj. rewrite <- Hz.
  rewrite bit_store by (auto || lia). rewrite Hz. pose proof (bit_byte bm q b (j - 8 * q) Hb Hg) as Hbit.
  destruct (Z.leb_spec (8 * q) j), (Z.ltb_spec j (8 * (q + 1))); cbn [andb];
    [|destruct (Z.eqb_spec j i); [lia|done]..].
  unfold bit at 1. cbn [le_val]. rewrite Z.mul_0_r, Z.add_0_r. unfold v.
  rewrite testbit_wrap, Z.lor_spec, testbit_shiftl, Hbit by lia. replace (8 * q + (j - 8 * q)) with j by lia.
  destruct (Z.ltb_spec (j - 8 * q) 8), (Z.leb_spec 0 (j - 8 * q)); try lia. cbn [andb]. rewrite orb_comm.
  destruct (Z.eqb_spec j i) as [-> |Hne].
  - by replace (i - 8 * q - r) with 0 by lia.
  - f_equal. destruct (Z.lt_ge_cases (j - 8 * q - r) 0); [by apply Z.testbit_neg_r|].
    apply (testbit_above 1 1); lia.
Qed.

(** [bm'] is [bm] with the bits of [bs] added from bit [start] on. *)
Record marked (bm bm' : list Z) (start : Z) (bs : list bool) : Prop := Marked {
  mk_len : zlen bm' = zlen bm;
  mk_ok : bytes_ok bm';
  mk_bits : forall j, 0 <= j -> bit bm' j = default false (zget bs (j - start)) || bit bm j
}.

Lemma zget_cons {A} (x : A) l k : zget (x :: l) k = if k =? 0 then Some x else zget l (k - 1).
Proof.
  unfold zget. destruct (Z.eqb_spec k 0) as [-> |]; [done|].
  destruct (Z.ltb_spec k 0), (Z.ltb_spec (k - 1) 0); try lia; try done.
  replace (Z.to_nat k) with (S (Z.to_nat (k - 1))) by lia. done.
Qed.

Lemma zget_nil {A} k : zget (@nil A) k = None.
Proof. unfold zget. by destruct (k <? 0). Qed.

Lemma marked_nil bm start : bytes_ok bm -> marked bm bm start [].
Proof. intros. constructor; [done|done|]. intros j Hj. by rewrite zget_nil. Qed.

(** One slot: its validity bit, then those of the slots after it. *)
Lemma mark_next bm s (b : bool) : bytes_ok bm -> 0 <= s < 8 * zlen bm ->
  exists bm1, (if b then set_bit bm s else Some bm) = Some bm1 /\ zlen bm1 = zlen bm /\ bytes_ok bm1 /\
    forall bm2 bs, marked bm1 bm2 (s + 1) bs -> marked bm bm2 s (b :: bs).
Proof.
  intros Hb Hs.
  assert (Hstep : exists bm1, (if b then set_bit bm s else Some bm) = Some bm1 /\ zlen bm1 = zlen bm /\ bytes_ok bm1 /\
    forall j, 0 <= j -> bit bm1 j = ((j =? s) && b) || bit bm j).
  { destruct b.
    - destruct (set_bit_spec bm s Hb Hs) as (bm1 & Hst & Hl & Hok & Hbit). exists bm1. split_and!; try done.
      intros j Hj. by rewrite Hbit, andb_true_r.
    - exists bm. split_and!; try done. intros j _. by rewrite andb_false_r. }
  destruct Hstep as (bm1 & Hst & Hl & Hok & Hbit). exists bm1. split_and!; try done.
  intros bm2 bs [Hl2 Hok2 Hbit2]. constructor; [lia|done|]. intros j Hj. rewrite Hbit2, Hbit, zget_cons by done.
  destruct (Z.eqb_spec j s) as [Heq|Hne], (Z.eqb_spec (j - s) 0); try lia; cbn [andb orb default].
  - assert (zget bs (j - (s + 1)) = None) as -> by (unfold zget; by destruct (Z.ltb_spec (j - (s + 1)) 0); [|lia]). done.
  - by replace (j - (s + 1)) with (j - s - 1) by lia.
Qed.

(** ** Value slots *)
Definition leaf_slots (slot_level : Z) (def : list Z) : list Z := List.filter (fun d => slot_level <=? d) def.

Definition count_if (p : Z -> bool) (l : list Z) : Z := zlen (List.filter p l).

Lemma count_if_cons p x l : count_if p (x :: l) = (if p x then 1 else 0) + count_if p l.
Proof. unfold count_if. cbn [List.filter]. destruct (p x); [rewrite zlen_cons|]; lia. Qed.

Lemma filter_zlen {A} (p : A -> bool) (l : list A) : 0 <= zlen (List.filter p l) <= zlen l.
Proof. induction l as [|x l IH]; cbn [List.filter]; [done|]. destruct (p x); rewrite !zlen_cons; lia. Qed.

Lemma level_slots_loop_spec def sl md c bm : bytes_ok bm -> 0 <= slots c -> slots c + zlen def <= 8 * zlen bm ->
  exists bm', level_slots_loop (length def) def sl md c bm =
      Some (SlotCounts (slots c + zlen (leaf_slots sl def)) (non_null c + count_if (Z.eqb md) (leaf_slots sl def)), bm') /\
    marked bm bm' (slots c) (List.map (Z.eqb md) (leaf_slots sl def)).
Proof.
  revert c bm. induction def as [|d def IH]; intros c bm Hb Hc Hf; cbn [length level_slots_loop leaf_slots List.filter].
  { exists bm. destruct c. cbn. unfold count_if, zlen. cbn. rewrite !Z.add_0_r. split; [done|by apply marked_nil]. }
  fold (leaf_slots sl def). rewrite zlen_cons in Hf. pose proof (zlen_nonneg def).
  destruct (Z.ltb_spec d sl), (Z.leb_spec sl d); try lia; [apply IH; lia || done|].
  cbn [List.map]. rewrite zlen_cons, count_if_cons, (Z.eqb_sym md d).
  destruct (mark_next bm (slots c) (d =? md) Hb ltac:(lia)) as (bm1 & Hst & Hl & Hok & Hmk).
  destruct (d =? md); [|injection Hst as <-].
  - rewrite Hst. destruct (IH (SlotCounts (slots c + 1) (non_null c + 1)) bm1) as (bm' & Hr & Hm);
      [done|cbn [slots]; lia..|]. cbn [slots non_null] in *. exists bm'. rewrite Hr. split; [|by apply Hmk].
    do 3 f_equal; lia.
  - destruct (IH (SlotCounts (slots c + 1) (non_null c)) bm) as (bm' & Hr & Hm); [done|cbn [slots]; lia..|].
    cbn [slots non_null] in *. exists bm'. rewrite Hr. split; [|by apply Hmk]. do 3 f_equal; lia.
Qed.

(** ** Struct slots *)
Definition is_slot (nd : dremel_node) (e : Z * Z) : bool := (e.1 <=? r_enc nd) && (d_enc nd <=? e.2).

Definition present (nd : dremel_node) (e : Z * Z) : bool := def_present nd <=? e.2.

Definition node_slots (nd : dremel_node) (es : list (Z * Z)) : list (Z * Z) := List.filter (is_slot nd) es.

Definition null_slots (nd : dremel_node) (es : list (Z * Z)) : Z :=
  zlen (List.filter (fun e => negb (present nd e)) (node_slots nd es)).

Lemma node_slots_cons nd e es :
  node_slots nd (e :: es) = if is_slot nd e then e :: node_slots nd es else node_slots nd es.
Proof. done. Qed.

Lemma null_slots_cons nd e es :
  null_slots nd (e :: es) = (if is_slot nd e && negb (present nd e) then 1 else 0) + null_slots nd es.
Proof.
  unfold null_slots. rewrite node_slots_cons. destruct (is_slot nd e); [|done]. cbn [List.filter andb].
  destruct (present nd e); cbn [negb]; [done|]. rewrite zlen_cons. lia.
Qed.

Lemma struct_loop_spec rep def nd expected s nulls v : zlen rep = zlen def -> bytes_ok v -> 0 <= s <= expected ->
  expected <= 8 * zlen v -> let es := combine rep def in
  exists r, struct_loop (length rep) rep def nd expected s nulls v = Some r /\
    match r with
    | inr o => s + zlen (node_slots nd es) = expected /\ so_nulls o = nulls + null_slots nd es /\
        marked v (so_validity o) s (List.map (present nd) (node_slots nd es))
    | inl _ => s + zlen (node_slots nd es) <> expected
    end.
Proof.
  revert def s nulls v. induction rep as [|r rep IH]; intros [|d def] s nulls v Hl Hv Hs Hf;
    try (rewrite zlen_cons in Hl; change (@zlen Z []) with 0 in Hl;
         match type of Hl with context [zlen ?x] => pose proof (zlen_nonneg x) end; lia).
  { cbn. destruct (Z.eqb_spec s expected); eexists; (split; [done|]); cbn; change (zlen []) with 0; [|lia].
    split_and!; [lia| |by apply marked_nil]. unfold null_slots. cbn. change (zlen []) with 0. lia. }
  rewrite !zlen_cons in Hl. cbn [length struct_loop combine]. cbv zeta. rewrite node_slots_cons, null_slots_cons.
  assert (Hsl : is_slot nd (r, d) = negb ((r_enc nd <? r) || (d <? d_enc nd)))
    by (unfold is_slot; cbn; destruct (Z.ltb_spec (r_enc nd) r), (Z.leb_spec r (r_enc nd)), (Z.ltb_spec d (d_enc nd)),
          (Z.leb_spec (d_enc nd) d); lia || done).
  rewrite Hsl. destruct ((r_enc nd <? r) || (d <? d_enc nd)); cbn [negb andb]; [rewrite Z.add_0_l; apply IH; done || lia|].
  cbn [List.map]. rewrite zlen_cons. pose proof (zlen_nonneg (node_slots nd (combine rep def))).
  destruct (Z.leb_spec expected s); [eexists; split; [done|cbv beta iota; lia]|].
  destruct (mark_next v s (present nd (r, d)) Hv ltac:(lia)) as (v1 & Hst & Hl1 & Hok & Hmk).
  change (def_present nd <=? d) with (present nd (r, d)). destruct (present nd (r, d)); [|injection Hst as <-]; cbn [negb].
  - rewrite Hst. destruct (IH def (s + 1) nulls v1) as (o & Hr & Ho); [lia|done|lia|lia|].
    exists o. split; [done|]. destruct o as [e|o]; [lia|]. destruct Ho as (Hs' & Hn & Hm). split_and!; [lia|lia|by apply Hmk].
  - destruct (IH def (s + 1) (nulls + 1) v) as (o & Hr & Ho); [lia|done|lia|lia|].
    exists o. split; [done|]. destruct o as [e|o]; [lia|]. destruct Ho as (Hs' & Hn & Hm).
    split_and!; [lia|lia|by apply Hmk].
Qed.

(** ** List slots

    The entries of a node fall into groups: an entry at or above the enclosing
    list's repetition level, and the entries after it that repeat inside it. *)
Definition group : Type := (Z * Z) * list (Z * Z).

(** The entries before the first group head, and the groups. *)
Fixpoint groups (r0 : Z) (es : list (Z * Z)) : list (Z * Z) * list group :=
  match es with
  | [] => ([], [])
  | e :: es =>
      let '(o, gs) := groups r0 es in
      if e.1 <=? r0 then ([], (e, o) :: gs) else (e :: o, gs)
  end.

Section ListSpec.
Context (nd : dremel_node) (expected : Z).

(** Elements that continue a list. *)
Definition continued (tl : list (Z * Z)) : Z := zlen (List.filter (fun e => e.1 =? rep_elem nd) tl).

Definition is_list_slot (g : group) : bool := d_enc nd <=? g.1.2.

Definition has_elem (g : group) : bool := is_list_slot g && (def_elem nd <=? g.1.2).

(** The elements of a group's list. *)
Definition group_elems (g : group) : Z := (if has_elem g then 1 else 0) + continued g.2.

Definition list_groups (gs : list group) : list group := List.filter is_list_slot gs.

Definition total_elems (gs : list group) : Z := sum (List.map group_elems gs).

(** A list without a first element has no further ones. *)
Definition group_ok (g : group) : bool := has_elem g || (continued g.2 =? 0).

(** Where each list starts. *)
Fixpoint list_starts (at_ : Z) (gs : list group) : list Z :=
  match gs with
  | [] => []
  | g :: gs => if is_list_slot g then at_ :: list_starts (at_ + group_elems g) gs else list_starts (at_ + group_elems g) gs
  end.

Definition list_nulls (gs : list group) : Z :=
  zlen (List.filter (fun g => negb (present nd g.1)) (list_groups gs)).

(** Levels the kernel accepts from a state: the rest of the open list, then
    the groups. *)
Definition accepts (open : bool) (s elems : Z) (o : list (Z * Z)) (gs : list group) : Prop :=
  (open = true \/ continued o = 0) /\ Forall (fun g => group_ok g = true) gs /\
  s + zlen (list_groups gs) = expected /\ elems + continued o + total_elems gs <= INT32_MAX.

Lemma continued_cons e tl : continued (e :: tl) = (if e.1 =? rep_elem nd then 1 else 0) + continued tl.
Proof. unfold continued. cbn [List.filter]. destruct (e.1 =? rep_elem nd); [rewrite zlen_cons|]; lia. Qed.

Lemma continued_nonneg tl : 0 <= continued tl.
Proof. apply zlen_nonneg. Qed.

Lemma group_elems_nonneg g : 0 <= group_elems g.
Proof. unfold group_elems. pose proof (continued_nonneg g.2). destruct (has_elem g); lia. Qed.

Lemma total_elems_nonneg gs : 0 <= total_elems gs.
Proof. apply sum_nonneg, Forall_map, Forall_true. intros g. apply group_elems_nonneg. Qed.

Lemma list_groups_cons g gs : list_groups (g :: gs) = if is_list_slot g then g :: list_groups gs else list_groups gs.
Proof. done. Qed.

Lemma list_nulls_cons g gs :
  list_nulls (g :: gs) = (if is_list_slot g && negb (present nd g.1) then 1 else 0) + list_nulls gs.
Proof.
  unfold list_nulls. rewrite list_groups_cons. destruct (is_list_slot g); [|done]. cbn [List.filter andb].
  destruct (present nd g.1); cbn [negb]; [done|]. rewrite zlen_cons. lia.
Qed.

Lemma sint32_small v : 0 <= v <= INT32_MAX -> sint 32 (u32 v) = v.
Proof. unfold INT32_MAX, sint. intros. rewrite wrap_small by lia. destruct (Z.ltb_spec v (2 ^ (32 - 1))); lia. Qed.

(** The result of the loop from state [s], for the entries [es]. *)
Context (offsets0 : list Z).

Record list_state_ok (s : list_state) (done_ : list Z) : Prop := ListStateOk {
  lk_slots : 0 <= ls_slots s <= expected;
  lk_elems : 0 <= ls_elems s <= INT32_MAX;
  lk_done : zlen done_ = ls_slots s;
  lk_offsets : ls_offsets s = done_ ++ zdrop (ls_slots s) offsets0;
  lk_validity : bytes_ok (ls_validity s) /\ expected <= 8 * zlen (ls_validity s)
}.

Definition list_result (s : list_state) (done_ : list Z) (es : list (Z * Z)) (r : string + list_state) : Prop :=
  let o := (groups (r_enc nd) es).1 in
  let gs := (groups (r_enc nd) es).2 in
  match r with
  | inl _ => ~ accepts (ls_open s) (ls_slots s) (ls_elems s) o gs
  | inr s' =>
      (ls_slots s' = expected -> accepts (ls_open s) (ls_slots s) (ls_elems s) o gs) /\
      ls_slots s' = ls_slots s + zlen (list_groups gs) /\ ls_elems s' = ls_elems s + continued o + total_elems gs /\
      0 <= ls_elems s' <= INT32_MAX /\ ls_nulls s' = ls_nulls s + list_nulls gs /\ ls_slots s' <= expected /\
      ls_offsets s' = (done_ ++ list_starts (ls_elems s + continued o) gs) ++ zdrop (ls_slots s') offsets0 /\
      marked (ls_validity s) (ls_validity s') (ls_slots s) (List.map (fun g => present nd g.1) (list_groups gs))
  end.

Context (Hoff : expected < zlen offsets0).

(** A state differing only in [open] and the element count. *)
Lemma list_state_ok_with s done_ o e : list_state_ok s done_ -> 0 <= e <= INT32_MAX ->
  list_state_ok (ListState (ls_slots s) e (ls_nulls s) o (ls_offsets s) (ls_validity s)) done_.
Proof. intros [? ? ? ? ?] He. by constructor. Qed.

(** A new slot. *)
Lemma list_slot_spec s done_ d : list_state_ok s done_ ->
  if expected <=? ls_slots s then exists e, list_slot d nd expected s = kernel_fail e
  else exists v', list_slot d nd expected s =
      kernel_ok (ListState (ls_slots s + 1) (ls_elems s + (if def_elem nd <=? d then 1 else 0))
        (ls_nulls s + (if def_present nd <=? d then 0 else 1)) (def_elem nd <=? d)
        ((done_ ++ [ls_elems s]) ++ zdrop (ls_slots s + 1) offsets0) v') /\
    zlen v' = zlen (ls_validity s) /\ bytes_ok v' /\
    forall v2 bs, marked v' v2 (ls_slots s + 1) bs ->
      marked (ls_validity s) v2 (ls_slots s) ((def_present nd <=? d) :: bs).
Proof using Hoff.
  intros [Hs He Hd Ho [Hv Hb]]. unfold list_slot. destruct (Z.leb_spec expected (ls_slots s)); [by eexists|].
  rewrite Ho, sint32_small by done. rewrite (store_next done_ [ls_elems s] offsets0 (ls_slots s) 1) by (done || lia).
  destruct (mark_next (ls_validity s) (ls_slots s) (def_present nd <=? d) Hv ltac:(lia)) as (v' & Hst & Hl & Hok & Hmk).
  rewrite Hst. exists v'. split; [|done]. rewrite <- app_assoc. cbn [app].
  destruct (def_present nd <=? d), (def_elem nd <=? d); rewrite ?Z.add_0_r; done.
Qed.

(** ** The four kinds of entry, and what they leave to accept *)
Lemma total_elems_cons g gs : total_elems (g :: gs) = group_elems g + total_elems gs.
Proof using. done. Qed.

Lemma group_absent e o : e.2 < d_enc nd ->
  is_list_slot (e, o) = false /\ group_elems (e, o) = continued o /\ group_ok (e, o) = (continued o =? 0).
Proof using.
  intros Hd. assert (Hsl : is_list_slot (e, o) = false) by (unfold is_list_slot; cbn; apply Z.leb_gt; lia).
  unfold group_elems, group_ok, has_elem. by rewrite Hsl.
Qed.

Lemma group_slot e o : d_enc nd <= e.2 ->
  is_list_slot (e, o) = true /\ group_elems (e, o) = (if def_elem nd <=? e.2 then 1 else 0) + continued o /\
  group_ok (e, o) = (def_elem nd <=? e.2) || (continued o =? 0).
Proof using.
  intros Hd. assert (Hsl : is_list_slot (e, o) = true) by (unfold is_list_slot; cbn; apply Z.leb_le; lia).
  unfold group_elems, group_ok, has_elem. by rewrite Hsl.
Qed.

Lemma list_starts_length at_ gs : zlen (list_starts at_ gs) = zlen (list_groups gs).
Proof using.
  revert at_. induction gs as [|g gs IH]; intros at_; [done|]. cbn [list_starts]. rewrite list_groups_cons.
  destruct (is_list_slot g); rewrite ?zlen_cons, IH; done.
Qed.

Lemma accepts_absent open s el e o gs : e.2 < d_enc nd -> accepts open s el [] ((e, o) :: gs) <-> accepts false s el o gs.
Proof using.
  intros Hd. destruct (group_absent e o Hd) as (Hsl & Hge & Hok). unfold accepts.
  rewrite list_groups_cons, total_elems_cons, Forall_cons, Hsl, Hge, Hok, Z.eqb_eq. change (continued []) with 0.
  rewrite Z.add_0_r, Z.add_assoc. intuition congruence.
Qed.

Lemma accepts_slot open s el e o gs : d_enc nd <= e.2 ->
  accepts open s el [] ((e, o) :: gs) <->
  accepts (def_elem nd <=? e.2) (s + 1) (el + (if def_elem nd <=? e.2 then 1 else 0)) o gs.
Proof using.
  intros Hd. destruct (group_slot e o Hd) as (Hsl & Hge & Hok). unfold accepts.
  rewrite list_groups_cons, total_elems_cons, Forall_cons, Hsl, Hge, Hok, zlen_cons, orb_true_iff, Z.eqb_eq.
  change (continued []) with 0. rewrite !Z.add_0_r, !Z.add_assoc. replace (s + zlen (list_groups gs) + 1) with (s + 1 + zlen (list_groups gs)) by lia.
  intuition congruence.
Qed.

Lemma accepts_inner open s el e o gs :
  accepts open s el (e :: o) gs <->
  (e.1 = rep_elem nd -> open = true) /\ accepts open s (el + (if e.1 =? rep_elem nd then 1 else 0)) o gs.
Proof using.
  unfold accepts. rewrite continued_cons, !Z.add_assoc. pose proof (continued_nonneg o). destruct (Z.eqb_spec e.1 (rep_elem nd)).
  - split; [intros ([?|?] & ?); [by intuition|lia]|intuition].
  - rewrite Z.add_0_l. intuition.
Qed.

Lemma accepts_bounds open s el o gs : accepts open s el o gs -> s <= expected /\ el <= INT32_MAX.
Proof using.
  intros (_ & _ & Hs & He). pose proof (zlen_nonneg (list_groups gs)). pose proof (continued_nonneg o).
  pose proof (total_elems_nonneg gs). lia.
Qed.

Lemma groups_head e es : e.1 <= r_enc nd ->
  groups (r_enc nd) (e :: es) = ([], (e, (groups (r_enc nd) es).1) :: (groups (r_enc nd) es).2).
Proof using.
  intros He. cbn [groups]. destruct (groups (r_enc nd) es). destruct (Z.leb_spec e.1 (r_enc nd)); [done|lia].
Qed.

Lemma groups_inner e es : r_enc nd < e.1 ->
  groups (r_enc nd) (e :: es) = (e :: (groups (r_enc nd) es).1, (groups (r_enc nd) es).2).
Proof using.
  intros He. cbn [groups]. destruct (groups (r_enc nd) es). destruct (Z.leb_spec e.1 (r_enc nd)); [lia|done].
Qed.

(** How the result for the entries after the first carries over. *)
Lemma list_result_absent s done_ e es x : e.1 <= r_enc nd -> e.2 < d_enc nd ->
  list_result (ListState (ls_slots s) (ls_elems s) (ls_nulls s) false (ls_offsets s) (ls_validity s)) done_ es x ->
  list_result s done_ (e :: es) x.
Proof using.
  intros Hr Hd. unfold list_result. rewrite groups_head by done. cbn [fst snd ls_slots ls_elems ls_nulls ls_open ls_validity].
  set (o := (groups (r_enc nd) es).1). set (gs := (groups (r_enc nd) es).2).
  destruct (group_absent e o Hd) as (Hsl & Hge & _). destruct x as [m|s'].
  - by rewrite accepts_absent.
  - rewrite accepts_absent, list_groups_cons, list_nulls_cons, total_elems_cons by done. cbn [list_starts].
    rewrite Hsl, Hge, Z.add_assoc. cbn [andb]. change (continued []) with 0. by rewrite Z.add_0_r.
Qed.

Lemma list_result_slot s done_ e es v x : e.1 <= r_enc nd -> d_enc nd <= e.2 ->
  (forall v2 bs, marked v v2 (ls_slots s + 1) bs -> marked (ls_validity s) v2 (ls_slots s) ((def_present nd <=? e.2) :: bs)) ->
  list_result (ListState (ls_slots s + 1) (ls_elems s + (if def_elem nd <=? e.2 then 1 else 0))
     (ls_nulls s + (if def_present nd <=? e.2 then 0 else 1)) (def_elem nd <=? e.2)
     ((done_ ++ [ls_elems s]) ++ zdrop (ls_slots s + 1) offsets0) v) (done_ ++ [ls_elems s]) es x ->
  list_result s done_ (e :: es) x.
Proof using.
  intros Hr Hd Hmk. unfold list_result. rewrite groups_head by done. cbn [fst snd ls_slots ls_elems ls_nulls ls_open ls_validity].
  set (o := (groups (r_enc nd) es).1). set (gs := (groups (r_enc nd) es).2).
  destruct (group_slot e o Hd) as (Hsl & Hge & _). destruct x as [m|s'].
  - by rewrite accepts_slot.
  - rewrite accepts_slot, list_groups_cons, list_nulls_cons, total_elems_cons by done. cbn [list_starts].
    rewrite Hsl, Hge, zlen_cons. cbn [andb List.map fst]. change (continued []) with 0.
    intros (Ha & Hs' & He' & Hr' & Hn & Hx & Hof & Hm). split_and!; try done; try lia.
    + rewrite Hn. unfold present. destruct (def_present nd <=? e.2); cbn [negb]; lia.
    + rewrite Hof, <- (app_assoc done_). cbn [app]. rewrite !Z.add_0_r, Z.add_assoc. done.
    + by apply Hmk.
Qed.

Lemma list_result_inner s done_ e es x : r_enc nd < e.1 -> (e.1 = rep_elem nd -> ls_open s = true) ->
  list_result (ListState (ls_slots s) (ls_elems s + (if e.1 =? rep_elem nd then 1 else 0)) (ls_nulls s) (ls_open s)
     (ls_offsets s) (ls_validity s)) done_ es x ->
  list_result s done_ (e :: es) x.
Proof using.
  intros Hr Ho. unfold list_result. rewrite groups_inner by done. cbn [fst snd ls_slots ls_elems ls_nulls ls_open ls_validity].
  destruct x as [m|s'].
  - rewrite accepts_inner. intuition.
  - rewrite accepts_inner, continued_cons, !Z.add_assoc. intuition.
Qed.

(** The kernel refuses only levels it does not accept. *)
Lemma list_result_fail s done_ es m :
  (forall o gs, groups (r_enc nd) es = (o, gs) -> ~ accepts (ls_open s) (ls_slots s) (ls_elems s) o gs) ->
  list_result s done_ es (inl m).
Proof using. intros H. unfold list_result. apply H. by destruct (groups (r_enc nd) es). Qed.

Lemma list_loop_spec rep def s done_ : zlen rep = zlen def -> list_state_ok s done_ ->
  exists r, list_loop (length rep) rep def nd expected s = Some r /\ list_result s done_ (combine rep def) r.
Proof using Hoff.
  revert def s done_. induction rep as [|r rep IH]; intros [|d def] s done_ Hl Hs;
    try (rewrite zlen_cons in Hl; change (@zlen Z []) with 0 in Hl;
         match type of Hl with context [zlen ?x] => pose proof (zlen_nonneg x) end; lia).
  { exists (inr s). split; [done|]. destruct Hs as [Hs He Hd Ho [Hv Hb]]. unfold list_result. cbn [combine groups fst snd].
    change (zlen (list_groups [])) with 0. change (continued []) with 0. change (total_elems []) with 0.
    change (list_nulls []) with 0. rewrite !Z.add_0_r. cbn [list_starts]. rewrite app_nil_r.
    split_and!; try done; try lia; [|by apply marked_nil]. intros Hx. split_and!; [by right|done| |];
      change (zlen (list_groups [])) with 0; change (continued []) with 0; change (total_elems []) with 0; lia. }
  rewrite !zlen_cons in Hl. cbn [length list_loop combine]. unfold list_entry.
  destruct (Z.leb_spec r (r_enc nd)) as [Hr|Hr]; [destruct (Z.ltb_spec d (d_enc nd)) as [Hd|Hd]|].
  - destruct (IH def (ListState (ls_slots s) (ls_elems s) (ls_nulls s) false (ls_offsets s) (ls_validity s)) done_)
      as (x & Hx & Hres); [lia|apply list_state_ok_with; [done|apply Hs]|].
    exists x. split; [done|]. by apply list_result_absent.
  - pose proof (list_slot_spec s done_ d Hs) as Hslot. pose proof (lk_slots _ _ Hs). pose proof (lk_elems _ _ Hs).
    destruct (Z.leb_spec expected (ls_slots s)).
    { destruct Hslot as [m ->]. exists (inl m). split; [done|]. apply list_result_fail. rewrite groups_head by done.
      intros o gs [= <- <-]. rewrite accepts_slot by done. intros Hc%accepts_bounds. lia. }
    destruct Hslot as (v & Hsl & Hvl & Hvo & Hmk). rewrite Hsl. cbn [kernel_ok ls_elems].
    destruct (Z.ltb_spec INT32_MAX (ls_elems s + (if def_elem nd <=? d then 1 else 0))) as [Hbig|Hbig].
    { exists (inl "more than 2^31 list elements"). split; [done|]. apply list_result_fail. rewrite groups_head by done.
      intros o gs [= <- <-]. rewrite accepts_slot by done. intros Hc%accepts_bounds. cbn [snd] in Hc. lia. }
    match goal with |- context [kernel_ok ?s1] => destruct (IH def s1 (done_ ++ [ls_elems s])) as (x & Hx & Hres) end; [lia| |].
    { destruct Hs as [? ? Hd0 ? [? ?]]. constructor; cbn; try done; try lia; [destruct (def_elem nd <=? d); lia| |].
      - rewrite zlen_app, Hd0. done.
      - split; [done|]. by rewrite Hvl. }
    exists x. split; [done|]. by eapply list_result_slot.
  - pose proof (lk_elems _ _ Hs) as He. destruct (Z.eqb_spec r (rep_elem nd)) as [Hre|Hre].
    + destruct (ls_open s) eqn:Hop; cbn [negb].
      2: { exists (inl "an element continues a list that has none"). split; [done|]. apply list_result_fail.
           rewrite groups_inner by done. intros o gs [= <- <-]. rewrite accepts_inner, Hop. intros [Hc _]. by specialize (Hc Hre). }
      destruct (Z.ltb_spec INT32_MAX (ls_elems s + 1)) as [Hbig|Hbig].
      { exists (inl "more than 2^31 list elements"). split; [done|]. apply list_result_fail. rewrite groups_inner by done.
        intros o gs [= <- <-]. rewrite accepts_inner. intros [_ Hc%accepts_bounds]. cbn [fst] in Hc.
        destruct (Z.eqb_spec r (rep_elem nd)); [lia|done]. }
      destruct (IH def (ListState (ls_slots s) (ls_elems s + 1) (ls_nulls s) true (ls_offsets s) (ls_validity s)) done_)
        as (x & Hx & Hres); [lia|apply list_state_ok_with; [done|lia]|].
      exists x. split; [done|]. apply list_result_inner; [done|done|]. cbn [fst]. destruct (Z.eqb_spec r (rep_elem nd)); [|done].
      by rewrite Hop.
    + destruct (Z.ltb_spec INT32_MAX (ls_elems s)); [lia|]. destruct (IH def s done_) as (x & Hx & Hres); [lia|done|].
      exists x. split; [done|]. apply list_result_inner; [done|done|]. cbn [fst]. destruct (Z.eqb_spec r (rep_elem nd)); [done|].
      rewrite Z.add_0_r. by destruct s.
Qed.
End ListSpec.

(** The whole kernel. *)
Lemma list_slots_spec rep def nd expected offsets validity :
  zlen rep = zlen def -> bytes_ok validity -> 0 <= expected <= 8 * zlen validity -> expected < zlen offsets ->
  let gs := (groups (r_enc nd) (combine rep def)).2 in
  let acc := accepts nd expected false 0 0 (groups (r_enc nd) (combine rep def)).1 gs in
  exists r, list_slots rep def (zlen rep) nd expected offsets validity = Some r /\
  match r with
  | inl _ => ~ acc
  | inr x => acc /\
      lo_offsets x = list_starts nd 0 gs ++ [total_elems nd gs] ++ zdrop (expected + 1) offsets /\
      marked validity (lo_validity x) 0 (List.map (fun g => present nd g.1) (list_groups nd gs)) /\
      lo_nulls x = list_nulls nd gs /\ lo_elements x = total_elems nd gs
  end.
Proof.
  intros Hl Hv He Ho gs acc. subst gs acc. unfold list_slots.
  destruct (list_loop_spec nd expected offsets Ho rep def (ListState 0 0 0 false offsets validity) [] Hl) as (r & Hr & Hres).
  { constructor; cbn; try done; unfold INT32_MAX; try lia. split; [done|lia]. }
  replace (Z.to_nat (zlen rep)) with (length rep) by (unfold zlen; lia). rewrite Hr.
  unfold list_result in Hres. cbn [ls_open ls_slots ls_elems ls_nulls ls_validity] in Hres.
  destruct r as [m|s]; [by eexists|]. destruct Hres as (Ha & Hs & Hel & Hr' & Hn & Hx & Hof & Hm).
  destruct (Z.eqb_spec (ls_slots s) expected) as [Heq|Hne]; cbn [negb].
  2: { eexists. split; [done|]. intros (_ & _ & Hc & _). lia. }
  destruct (Ha Heq) as ([?|Hc0] & Hrest); [done|]. rewrite Hc0, !Z.add_0_l in *.
  assert (Hlen : zlen (list_starts nd 0 (groups (r_enc nd) (combine rep def)).2) = expected).
  { rewrite list_starts_length. lia. }
  cbn [app] in Hof. rewrite Hof, Heq, sint32_small by lia.
  rewrite (store_next _ [ls_elems s] offsets expected 1) by (done || lia).
  eexists. split; [done|]. cbn [lo_offsets lo_validity lo_nulls lo_elements]. rewrite Hel. split_and!; auto.
Qed.

(** List assembly is exact. With room for the offsets and the validity
    bits, [list_slots] never leaves its memory on any levels; it accepts
    exactly the levels whose groups (an entry at the enclosing level and the
    entries repeating inside it) number as many slots as the parent promised,
    in which no element continues a list that has none and whose elements fit
    int32 offsets; and then the offsets are the running element counts, the
    validity bits those of the non-null slots, [nulls] the rest, and
    [elements] the total. *)
Theorem list_slots_exact rep def nd expected offsets validity :
  zlen rep = zlen def -> bytes_ok validity -> 0 <= expected <= 8 * zlen validity -> expected < zlen offsets ->
  let gs := (groups (r_enc nd) (combine rep def)).2 in
  let acc := accepts nd expected false 0 0 (groups (r_enc nd) (combine rep def)).1 gs in
  exists r, list_slots rep def (zlen rep) nd expected offsets validity = Some r /\
  match r with
  | inl _ => ~ acc
  | inr x => acc /\
      lo_offsets x = list_starts nd 0 gs ++ [total_elems nd gs] ++ zdrop (expected + 1) offsets /\
      marked validity (lo_validity x) 0 (List.map (fun g => present nd g.1) (list_groups nd gs)) /\
      lo_nulls x = list_nulls nd gs /\ lo_elements x = total_elems nd gs
  end.
Proof. apply list_slots_spec. Qed.

Lemma list_slots_exact_witness :
  let nd := DremelNode 0 0 1 2 1 in
  let es := combine [0; 1; 0; 0; 0; 1; 1] [3; 3; 0; 1; 3; 2; 3] in
  exists r, list_slots [0; 1; 0; 0; 0; 1; 1] [3; 3; 0; 1; 3; 2; 3] 7 nd 4 [9; 9; 9; 9; 9; 9] [0] = Some r /\
  match r with
  | inl _ => ~ accepts nd 4 false 0 0 (groups 0 es).1 (groups 0 es).2
  | inr x => accepts nd 4 false 0 0 (groups 0 es).1 (groups 0 es).2 /\
      lo_offsets x = list_starts nd 0 (groups 0 es).2 ++ [total_elems nd (groups 0 es).2] ++ [9] /\
      marked [0] (lo_validity x) 0 (List.map (fun g => present nd g.1) (list_groups nd (groups 0 es).2)) /\
      lo_nulls x = list_nulls nd (groups 0 es).2 /\ lo_elements x = total_elems nd (groups 0 es).2
  end.
Proof.
  exact (list_slots_exact [0; 1; 0; 0; 0; 1; 1] [3; 3; 0; 1; 3; 2; 3] (DremelNode 0 0 1 2 1) 4 [9; 9; 9; 9; 9; 9] [0]
    eq_refl ltac:(repeat constructor; done) ltac:(split; by vm_compute) ltac:(by vm_compute)).
Defined.

(** ** A list and its child *)

(** Levels written from records: entries inside the list repeat at its element
    level or deeper, and one that starts an element has it. *)
Definition levels_ok (nd : dremel_node) (e : Z * Z) : Prop :=
  (r_enc nd < e.1 -> rep_elem nd <= e.1) /\ (e.1 = rep_elem nd -> def_elem nd <= e.2).

Lemma child_slots nd cn es : r_enc cn = rep_elem nd -> d_enc cn = def_elem nd -> r_enc nd < rep_elem nd ->
  d_enc nd <= def_elem nd -> Forall (levels_ok nd) es ->
  zlen (node_slots cn es) = continued nd (groups (r_enc nd) es).1 + total_elems nd (groups (r_enc nd) es).2.
Proof.
  intros Hr Hd Hlt Hle. induction 1 as [|e es [Hin He] _ IH]; [done|]. rewrite node_slots_cons.
  unfold is_slot. rewrite Hr, Hd. destruct (Z.le_gt_cases e.1 (r_enc nd)) as [Hh|Hh].
  - rewrite groups_head by done. cbn [fst snd]. rewrite total_elems_cons. change (continued nd []) with 0.
    unfold group_elems, has_elem, is_list_slot. cbn [fst snd].
    destruct (Z.leb_spec e.1 (rep_elem nd)), (Z.leb_spec (def_elem nd) e.2), (Z.leb_spec (d_enc nd) e.2); try lia;
      cbn [andb]; rewrite ?zlen_cons; lia.
  - rewrite groups_inner by done. cbn [fst snd]. rewrite continued_cons.
    destruct (Z.leb_spec e.1 (rep_elem nd)), (Z.leb_spec (def_elem nd) e.2), (Z.eqb_spec e.1 (rep_elem nd)); try lia;
      cbn [andb]; rewrite ?zlen_cons; lia.
Qed.

(** The counts of a list and its child agree. On levels written from
    records, when [list_slots] assembles a list, [struct_slots] of the child
    node accepts the list's element count as the number of slots its parent
    has, and its validity bits are those of the elements. *)
Theorem list_child_agree rep def nd cn expected offsets validity x child :
  zlen rep = zlen def -> bytes_ok validity -> 0 <= expected <= 8 * zlen validity -> expected < zlen offsets ->
  r_enc cn = rep_elem nd -> d_enc cn = def_elem nd -> r_enc nd < rep_elem nd -> d_enc nd <= def_elem nd ->
  Forall (levels_ok nd) (combine rep def) ->
  list_slots rep def (zlen rep) nd expected offsets validity = kernel_ok x ->
  bytes_ok child -> lo_elements x <= 8 * zlen child ->
  exists o, struct_slots rep def (zlen rep) cn (lo_elements x) child = kernel_ok o /\
    so_nulls o = null_slots cn (combine rep def) /\
    marked child (so_validity o) 0 (List.map (present cn) (node_slots cn (combine rep def))).
Proof.
  intros Hl Hv He Ho Hr Hd Hlt Hle Hok Hls Hc Hfit.
  destruct (list_slots_spec rep def nd expected offsets validity Hl Hv He Ho) as (r & Heq & Hres).
  rewrite Hls in Heq. injection Heq as <-. destruct Hres as (Hacc & _ & _ & _ & Hel).
  pose proof (child_slots nd cn (combine rep def) Hr Hd Hlt Hle Hok) as Hcs.
  destruct Hacc as ([?|Hc0] & _); [done|]. rewrite Hc0, Z.add_0_l, <- Hel in Hcs.
  pose proof (zlen_nonneg (node_slots cn (combine rep def))).
  destruct (struct_loop_spec rep def cn (lo_elements x) 0 0 child Hl Hc ltac:(lia) Hfit) as (o & Hst & Hsr).
  unfold struct_slots. replace (Z.to_nat (zlen rep)) with (length rep) by (unfold zlen; lia). rewrite Hst.
  destruct o as [m|o]; [lia|]. destruct Hsr as (_ & Hn & Hm). by exists o.
Qed.

Lemma list_child_agree_witness :
  let x := ListOut [0; 2; 2; 2] [5] 1 2 in
  exists o, struct_slots [0; 1; 0; 0] [3; 2; 0; 1] 4 (DremelNode 1 2 3 0 0) (lo_elements x) [0] = kernel_ok o /\
    so_nulls o = null_slots (DremelNode 1 2 3 0 0) (combine [0; 1; 0; 0] [3; 2; 0; 1]) /\
    marked [0] (so_validity o) 0 (List.map (present (DremelNode 1 2 3 0 0))
      (node_slots (DremelNode 1 2 3 0 0) (combine [0; 1; 0; 0] [3; 2; 0; 1]))).
Proof.
  exact (list_child_agree [0; 1; 0; 0] [3; 2; 0; 1] (DremelNode 0 0 1 2 1) (DremelNode 1 2 3 0 0) 3 [9; 9; 9; 9] [0]
    (ListOut [0; 2; 2; 2] [5] 1 2) [0] eq_refl ltac:(repeat constructor; done) ltac:(split; by vm_compute) ltac:(by vm_compute)
    eq_refl eq_refl ltac:(by vm_compute) ltac:(by vm_compute) ltac:(repeat constructor; cbn; lia) ltac:(by vm_compute)
    ltac:(repeat constructor; done) ltac:(by vm_compute)).
Defined.
