(* ===== verification/Levels.v ===== *)
(** * Bitmaps and levels from run-length streams (values.hpp sections 34, 34b)

    [set_bits], [count_bits], [rle_bitmap], [scatter_bits] and
    [decode_levels], on the decoder of RleHybrid. *)
From S2P Require Import Prelude Columnar RleHybrid ColumnarEncode ByteStreams LzCopy Nulls Views Dremel.

(** ** [set_bits] *)

(** [for (; i < end && (i % 8 or not aligned); ++i)] *)
Fixpoint set_each (fuel : nat) (to_byte : bool) (bm : list Z) (i e : Z) : option (list Z * Z) :=
  if (i <? e) && (negb to_byte || negb (i mod 8 =? 0)) then
    match fuel with
    | O => None
    | S fuel => match set_bit bm i with None => None | Some bm => set_each fuel to_byte bm (i + 1) e end
    end
  else Some (bm, i).

Definition set_bits (bm : list Z) (start count : Z) : option (list Z) :=
  let e := u64 (start + count) in
  match set_each 8 true bm start e with
  | None => None
  | Some (bm, i) =>
      let filled :=
        if 8 <=? u64 (e - i)
        then match store bm (i / 8) (replicate (Z.to_nat ((e - i) / 8)) 255) with
             | None => None
             | Some bm => Some (bm, i + (e - i) / 8 * 8)
             end
        else Some (bm, i) in
      match filled with
      | None => None
      | Some (bm, i) => match set_each 8 false bm i e with None => None | Some (bm, _) => Some bm end
      end
  end.

(** ** [count_bits] *)
Definition popcount (w : Z) : Z := zlen (filter (fun i => Z.testbit w i = true) (seqZ 0 64)).

Fixpoint count_each (fuel : nat) (to_word : bool) (bm : list Z) (c i e : Z) : option (Z * Z) :=
  if (i <? e) && (negb to_word || negb (i mod 64 =? 0)) then
    match fuel with
    | O => None
    | S fuel => match get_bit bm i with None => None | Some b => count_each fuel to_word bm (c + Z.b2z b) (i + 1) e end
    end
  else Some (c, i).

Fixpoint count_words (fuel : nat) (bm : list Z) (c i e : Z) : option (Z * Z) :=
  if 64 <=? u64 (e - i) then
    match fuel with
    | O => None
    | S fuel => match load_le64 bm (i / 8) with None => None | Some w => count_words fuel bm (c + popcount w) (i + 64) e end
    end
  else Some (c, i).

Definition count_bits (bm : list Z) (start count : Z) : option Z :=
  let e := u64 (start + count) in
  match count_each 64 true bm 0 start e with
  | None => None
  | Some (c, i) =>
      match count_words (Z.to_nat count) bm c i e with
      | None => None
      | Some (c, i) => match count_each 64 false bm c i e with None => None | Some (c, _) => Some c end
      end
  end.

(** ** [rle_bitmap] *)

(** The bits of a run resumed mid-byte. *)
Fixpoint resumed_bits (k : nat) (bits : list Z) (b : Z) (bm : list Z) (at_ : Z) : option (list Z) :=
  match k with
  | O => Some bm
  | S k =>
      match get_bit bits b with
      | None => None
      | Some x =>
          match (if x then set_bits bm at_ 1 else Some bm) with
          | None => None
          | Some bm => resumed_bits k bits (b + 1) bm (at_ + 1)
          end
      end
  end.

(** One run of the stream, placed at bit [at]. *)
Definition bitmap_run (r : run_view) (out : list Z) (at_ : Z) : kernel (list Z) :=
  if negb (rv_packed r) then
    if 1 <? rv_value r then kernel_fail "value above 1 in a bit stream"
    else if negb (rv_value r =? 0) then
      match set_bits out at_ (rv_count r) with None => None | Some out => kernel_ok out end
    else kernel_ok out
  else if rv_bit_offset r =? 0 then
    match copy_bits (rv_bits r) (rv_count r) out at_ with
    | None => None
    | Some None => kernel_fail "bit stream shorter than its values"
    | Some (Some out) => kernel_ok out
    end
  else
    match resumed_bits (Z.to_nat (rv_count r)) (rv_bits r) (rv_bit_offset r) out at_ with
    | None => None
    | Some out => kernel_ok out
    end.

Fixpoint rle_bitmap_loop (fuel : nat) (d : rle_bp_decoder) (n : Z) (out : list Z) (at_ i : Z) :
    kernel (rle_bp_decoder * list Z) :=
  if i <? n then
    match fuel with
    | O => None
    | S fuel =>
        match next_run_view (n - i) d with
        | None => None
        | Some (None, _) => kernel_fail "bit stream shorter than its values"
        | Some (Some r, d) =>
            match bitmap_run r out (at_ + i) with
            | None => None
            | Some (inl e) => kernel_fail e
            | Some (inr out) => rle_bitmap_loop fuel d n out at_ (i + rv_count r)
            end
        end
    end
  else kernel_ok (d, out).

Definition rle_bitmap (d : rle_bp_decoder) (n : Z) (out : list Z) (at_ : Z) : kernel (rle_bp_decoder * list Z) :=
  if negb (d_width d =? 1) then kernel_fail "rle_bitmap needs a width-1 stream"
  else if (zlen out * 8 <? at_) || (zlen out * 8 - at_ <? n) then kernel_fail "bitmap smaller than the value count"
  else rle_bitmap_loop (Z.to_nat n) d n out at_ 0.

(** ** [scatter_bits] *)
Fixpoint scatter_loop (k : nat) (dense : list Z) (validity : option (list Z)) (out : list Z) (at_ r j : Z) :
    option (list Z) :=
  match k with
  | O => Some out
  | S k =>
      match (match validity with None => Some true | Some v => get_bit v r end) with
      | None => None
      | Some false => scatter_loop k dense validity out at_ (r + 1) j
      | Some true =>
          let b := at_ + r in
          match get_bit dense j, zget out (b / 8) with
          | Some x, Some o =>
              match store out (b / 8) [u8 (Z.lor o (Z.shiftl (Z.b2z x) (b mod 8)))] with
              | None => None
              | Some out => scatter_loop k dense validity out at_ (r + 1) (j + 1)
              end
          | _, _ => None
          end
      end
  end.

Definition scatter_bits (dense : list Z) (validity : option (list Z)) (n : Z) (out : list Z) (at_ : Z) : option (list Z) :=
  scatter_loop (Z.to_nat n) dense validity out at_ 0 0.

(** ** [decode_levels] *)

(** The blocks of 512 of a byte-aligned run: [hi] and the scratch are kept. *)
Fixpoint level_blocks (fuel : nat) (bits : list Z) (w maxv count k : Z) (tmp : list Z) (hi : bool) (out : list Z) (i : Z) :
    kernel (list Z * bool * list Z) :=
  if k <? count then
    match fuel with
    | O => None
    | S fuel =>
        let m := Z.min 512 (count - k) in
        let byte := k * w / 8 in
        if zlen bits <? byte then None
        else match unpack_bits 32 (zdrop byte bits) w tmp m with
             | None => None
             | Some None => kernel_fail "levels shorter than the page"
             | Some (Some tmp) =>
                 match store out (i + k) (List.map u16 (ztake m tmp)) with
                 | None => None
                 | Some out =>
                     level_blocks fuel bits w maxv count (k + 512) tmp (hi || existsb (fun v => maxv <? v) (ztake m tmp)) out i
                 end
             end
    end
  else kernel_ok (tmp, hi, out).

(** One level of a run resumed mid-byte, bit by bit. *)
Fixpoint level_value (n : nat) (bits : list Z) (at_ t v : Z) : kernel Z :=
  match n with
  | O => kernel_ok v
  | S n =>
      let q := at_ + t in
      if zlen bits <=? q / 8 then kernel_fail "levels shorter than the page"
      else match zget bits (q / 8) with
           | None => None
           | Some b => level_value n bits at_ (t + 1)
                         (Z.lor v (u32 (Z.shiftl (Z.land (Z.shiftr b (q mod 8)) 1) t)))
           end
  end.

Fixpoint resumed_levels (n : nat) (bits : list Z) (w maxv off k : Z) (hi : bool) (out : list Z) (i : Z) :
    kernel (bool * list Z) :=
  match n with
  | O => kernel_ok (hi, out)
  | S n =>
      match level_value (Z.to_nat w) bits (off + k * w) 0 0 with
      | None => None
      | Some (inl e) => kernel_fail e
      | Some (inr v) =>
          match store out (i + k) [u16 v] with
          | None => None
          | Some out => resumed_levels n bits w maxv off (k + 1) (hi || (maxv <? v)) out i
          end
      end
  end.

(** One run, stored from element [i]. *)
Definition level_run (r : run_view) (w maxv : Z) (tmp out : list Z) (i : Z) : kernel (list Z * list Z) :=
  if negb (rv_packed r) then
    if maxv <? rv_value r then kernel_fail "level above the column's maximum"
    else match store out i (replicate (Z.to_nat (rv_count r)) (u16 (rv_value r))) with
         | None => None
         | Some out => kernel_ok (tmp, out)
         end
  else
    let checked hi tmp out := if hi : bool then kernel_fail "level above the column's maximum" else kernel_ok (tmp, out) in
    if rv_bit_offset r =? 0 then
      match level_blocks (Z.to_nat (rv_count r)) (rv_bits r) w maxv (rv_count r) 0 tmp false out i with
      | None => None
      | Some (inl e) => kernel_fail e
      | Some (inr (tmp, hi, out)) => checked hi tmp out
      end
    else
      match resumed_levels (Z.to_nat (rv_count r)) (rv_bits r) w maxv (rv_bit_offset r) 0 false out i with
      | None => None
      | Some (inl e) => kernel_fail e
      | Some (inr (hi, out)) => checked hi tmp out
      end.

Fixpoint levels_loop (fuel : nat) (d : rle_bp_decoder) (w maxv n : Z) (tmp out : list Z) (i : Z) : kernel (list Z) :=
  if i <? n then
    match fuel with
    | O => None
    | S fuel =>
        match next_run_view (n - i) d with
        | None => None
        | Some (None, _) => kernel_fail "levels shorter than the page"
        | Some (Some r, d) =>
            match level_run r w maxv tmp out i with
            | None => None
            | Some (inl e) => kernel_fail e
            | Some (inr (tmp, out)) => levels_loop fuel d w maxv n tmp out (i + rv_count r)
            end
        end
    end
  else kernel_ok out.

(** [tmp] is the uninitialised scratch array of 512. *)
Definition decode_levels (data : list Z) (maxv n : Z) (tmp out : list Z) : kernel (list Z) :=
  let w := bit_width maxv in
  levels_loop (Z.to_nat n) (new_decoder data w) w maxv n tmp out 0.

(** ** Ranges of bits *)

(** [bm'] is [bm] with the bits [a, b) set. *)
Record filled (bm bm' : list Z) (a b : Z) : Prop := Filled {
  fl_len : zlen bm' = zlen bm;
  fl_ok : bytes_ok bm';
  fl_bits : forall j, 0 <= j -> bit bm' j = ((a <=? j) && (j <? b)) || bit bm j
}.

Lemma filled_refl bm a : bytes_ok bm -> filled bm bm a a.
Proof.
  intros. constructor; [done|done|]. intros j _. by destruct (Z.leb_spec a j), (Z.ltb_spec j a); try lia.
Qed.

Lemma filled_trans bm bm1 bm2 a b c : a <= b <= c -> filled bm bm1 a b -> filled bm1 bm2 b c -> filled bm bm2 a c.
Proof.
  intros Habc [Hl1 _ Hb1] [Hl2 Ho2 Hb2]. constructor; [lia|done|]. intros j Hj. rewrite Hb2, Hb1, orb_assoc by done.
  f_equal. destruct (Z.leb_spec a j), (Z.ltb_spec j b), (Z.leb_spec b j), (Z.ltb_spec j c); lia || done.
Qed.

Lemma filled_one bm i : bytes_ok bm -> 0 <= i < 8 * zlen bm ->
  exists bm', set_bit bm i = Some bm' /\ filled bm bm' i (i + 1).
Proof.
  intros Hb Hi. destruct (set_bit_spec bm i Hb Hi) as (bm' & Hs & Hl & Ho & Hbit). exists bm'. split; [done|].
  constructor; [done|done|]. intros j Hj. rewrite Hbit by done. f_equal.
  destruct (Z.eqb_spec j i), (Z.leb_spec i j), (Z.ltb_spec j (i + 1)); lia || done.
Qed.

Lemma set_each_spec fuel (to_byte : bool) bm i e : bytes_ok bm -> 0 <= i <= e -> e <= 8 * zlen bm ->
  (if to_byte then (- i) mod 8 else e - i) <= Z.of_nat fuel ->
  exists bm' i', set_each fuel to_byte bm i e = Some (bm', i') /\ i <= i' <= e /\ filled bm bm' i i' /\
    (if to_byte then i' = e \/ i' mod 8 = 0 else i' = e).
Proof.
  revert bm i. induction fuel as [|fuel IH]; intros bm i Hb Hi He Hf; cbn [set_each].
  - destruct (Z.ltb_spec i e), to_byte, (Z.eqb_spec (i mod 8) 0); cbn [andb negb orb];
      try (exists bm, i; split_and!; try lia; try (by apply filled_refl); try done; lia).
    all: exfalso; Z.div_mod_to_equations; lia.
  - destruct (Z.ltb_spec i e); cbn [andb]; [|exists bm, i; split_and!; try done; try lia; [by apply filled_refl|destruct to_byte; lia]].
    destruct (negb to_byte || negb (i mod 8 =? 0)) eqn:Hc.
    + destruct (filled_one bm i Hb ltac:(lia)) as (bm1 & Hs & Hfl). rewrite Hs. pose proof (fl_len _ _ _ _ Hfl).
      destruct (IH bm1 (i + 1)) as (bm' & i' & Hr & Hi' & Hfl' & Hend); [apply Hfl|lia|lia| |].
      { destruct to_byte; [|lia]. cbn [negb orb] in Hc. apply negb_true_iff, Z.eqb_neq in Hc.
        Z.div_mod_to_equations; lia. }
      exists bm', i'. split_and!; try done; try lia. eapply filled_trans; [|done|done]. lia.
    + exists bm, i. apply orb_false_iff in Hc as [Ht Hm]. destruct to_byte; [|done]. apply negb_false_iff, Z.eqb_eq in Hm.
      split_and!; try done; try lia. by apply filled_refl.
Qed.

Lemma bit_ones n j : 0 <= j -> bit (replicate n 255) j = (j <? 8 * Z.of_nat n).
Proof.
  intros Hj. unfold bit. assert (Hv : le_val (replicate n 255) = Z.ones (8 * Z.of_nat n)).
  { induction n as [|n IH]; [done|]. cbn [replicate le_val]. rewrite IH, !Z.ones_equiv, Nat2Z.inj_succ.
    replace (8 * Z.succ (Z.of_nat n)) with (8 + 8 * Z.of_nat n) by lia. rewrite Z.pow_add_r by lia. lia. }
  rewrite Hv. destruct (Z.ltb_spec j (8 * Z.of_nat n)); [apply Z.ones_spec_low; lia|apply Z.ones_spec_high; lia].
Qed.

Lemma bytes_ok_ones n : bytes_ok (replicate n 255).
Proof. apply Forall_replicate. unfold is_byte. lia. Qed.

(** Whole bytes of ones. *)
Lemma filled_bytes bm q n : bytes_ok bm -> 0 <= q -> 0 <= n -> q + n <= zlen bm ->
  exists bm', store bm q (replicate (Z.to_nat n) 255) = Some bm' /\ filled bm bm' (8 * q) (8 * (q + n)).
Proof.
  intros Hb Hq Hn Hf. set (ones := replicate (Z.to_nat n) 255). assert (Hz : zlen ones = n) by (unfold ones; rewrite zlen_replicate; lia).
  assert (Hok : bytes_ok ones) by apply bytes_ok_ones. exists (ztake q bm ++ ones ++ zdrop (q + zlen ones) bm).
  rewrite store_spec by lia. split; [done|]. constructor.
  - rewrite !zlen_app, zlen_ztake, zlen_zdrop by lia. lia.
  - rewrite !Forall_app. auto using bytes_ok_ztake, bytes_ok_zdrop.
  - intros j Hj. rewrite bit_store by (done || lia). rewrite Hz.
    destruct (Z.leb_spec (8 * q) j), (Z.ltb_spec j (8 * (q + n))); cbn [andb orb]; try done.
    unfold ones. rewrite bit_ones by lia. apply Z.ltb_lt. lia.
Qed.

Lemma set_bits_spec bm start count : bytes_ok bm -> 0 <= start -> 0 <= count -> start + count <= 8 * zlen bm ->
  8 * zlen bm < 2 ^ 64 -> exists bm', set_bits bm start count = Some bm' /\ filled bm bm' start (start + count).
Proof.
  intros Hb Hs Hc Hf Hov. unfold set_bits. rewrite (wrap_small 64 (start + count)) by lia. set (e := start + count) in *.
  destruct (set_each_spec 8 true bm start e Hb) as (bm1 & i & -> & Hi & Hf1 & He1);
    [lia|lia|pose proof (Z.mod_pos_bound (- start) 8 ltac:(lia)); lia|].
  pose proof (fl_len _ _ _ _ Hf1) as Hl1. rewrite (wrap_small 64 (e - i)) by lia.
  destruct (Z.leb_spec 8 (e - i)) as [H8|H8].
  - assert (Hm : i mod 8 = 0) by lia. pose proof (Z.div_mod i 8 ltac:(lia)) as Hdi. rewrite Hm, Z.add_0_r in Hdi.
    pose proof (Z.div_mod (e - i) 8 ltac:(lia)) as Hde. pose proof (Z.mod_pos_bound (e - i) 8 ltac:(lia)).
    set (q := i / 8) in *. set (n := (e - i) / 8) in *.
    destruct (filled_bytes bm1 q n (fl_ok _ _ _ _ Hf1)) as (bm2 & Hst & Hf2); [lia..|]. rewrite Hst.
    pose proof (fl_len _ _ _ _ Hf2) as Hl2.
    destruct (set_each_spec 8 false bm2 (i + n * 8) e (fl_ok _ _ _ _ Hf2)) as (bm3 & i3 & -> & Hi3 & Hf3 & ->); [lia..|].
    exists bm3. split; [done|]. eapply (filled_trans _ bm1 _ _ i); [lia|done|].
    eapply (filled_trans _ bm2 _ _ (i + n * 8)); [lia| |done]. replace i with (8 * q) by lia. by replace (8 * q + n * 8) with (8 * (q + n)) by lia.
  - destruct (set_each_spec 8 false bm1 i e (fl_ok _ _ _ _ Hf1)) as (bm3 & i3 & -> & Hi3 & Hf3 & ->); [lia..|].
    exists bm3. split; [done|]. eapply filled_trans; [|done|done]. lia.
Qed.

(** ** [rle_bitmap] *)

(** The bits from [at] on hold the values [vs], the others are unchanged. *)
Record placed (out out' : list Z) (at_ : Z) (vs : list Z) : Prop := Placed {
  pl_len : zlen out' = zlen out;
  pl_ok : bytes_ok out';
  pl_bits : forall j, 0 <= j -> bit out' j =
    match zget vs (j - at_) with Some v => v =? 1 | None => bit out j end
}.

Definition clear_bits (out : list Z) (a n : Z) : Prop := forall j, a <= j < a + n -> bit out j = false.

Lemma zget_None {A} (l : list A) k : k < 0 \/ zlen l <= k -> zget l k = None.
Proof. intros Hk. destruct (zget l k) eqn:Hg; [|done]. apply zget_Some_range in Hg. lia. Qed.

Lemma placed_app out out1 out2 at_ vs1 vs2 :
  placed out out1 at_ vs1 -> placed out1 out2 (at_ + zlen vs1) vs2 -> placed out out2 at_ (vs1 ++ vs2).
Proof.
  intros [Hl1 _ Hb1] [Hl2 Ho2 Hb2]. constructor; [lia|done|]. intros j Hj. rewrite Hb2, Hb1 by done.
  pose proof (zlen_nonneg vs1). destruct (Z.lt_ge_cases (j - at_) (zlen vs1)) as [Hlt|Hge].
  - rewrite (zget_None vs2) by lia. by rewrite zget_app_l by lia.
  - rewrite zget_app_r by lia. replace (j - (at_ + zlen vs1)) with (j - at_ - zlen vs1) by lia.
    destruct (zget vs2 (j - at_ - zlen vs1)); [done|]. by rewrite zget_None by lia.
Qed.

Lemma placed_clear out out' at_ vs n : placed out out' at_ vs -> zlen vs <= n -> clear_bits out at_ n -> 0 <= at_ ->
  clear_bits out' (at_ + zlen vs) (n - zlen vs).
Proof.
  intros [_ _ Hb] Hn Hc Ha j Hj. pose proof (zlen_nonneg vs). rewrite Hb by lia. rewrite zget_None by lia. apply Hc. lia.
Qed.

(** A run of equal bits. *)
Lemma placed_filled out out' at_ n : 0 <= n -> filled out out' at_ (at_ + n) -> clear_bits out at_ n ->
  placed out out' at_ (replicate (Z.to_nat n) 1).
Proof.
  intros Hn [Hl Ho Hb] Hc. constructor; [done|done|]. intros j Hj. rewrite Hb, zget_replicate by done.
  destruct (Z.leb_spec at_ j), (Z.ltb_spec j (at_ + n)), (Z.leb_spec 0 (j - at_)), (Z.ltb_spec (j - at_) n); try lia; done.
Qed.

Lemma placed_zeros out at_ n : bytes_ok out -> clear_bits out at_ n -> placed out out at_ (replicate (Z.to_nat n) 0).
Proof.
  intros Ho Hc. constructor; [done|done|]. intros j Hj. rewrite zget_replicate.
  destruct (Z.leb_spec 0 (j - at_)), (Z.ltb_spec (j - at_) n); cbn [andb]; try done. apply Hc. lia.
Qed.

(** The bits a packed run of width 1 stands for. *)
Definition run_bits (bits : list Z) (b n : Z) : list Z := List.map (fun i => Z.b2z (bit bits (b + i))) (seqZ 0 n).

Lemma view_values_bits v : rv_packed v = true -> view_values 1 v = run_bits (rv_bits v) (rv_bit_offset v) (rv_count v).
Proof.
  intros Hp. unfold view_values, run_bits. rewrite Hp. apply map_ext. intros i. unfold slice, wrap, bit.
  rewrite Z.mul_1_r. change (2 ^ 1) with 2. rewrite <- Z.bit0_mod, Z.shiftr_spec by lia. done.
Qed.

Lemma resumed_bits_spec k bits b bm at_ : bytes_ok bits -> 0 <= b -> b + Z.of_nat k <= 8 * zlen bits -> bytes_ok bm ->
  0 <= at_ -> at_ + Z.of_nat k <= 8 * zlen bm -> 8 * zlen bm < 2 ^ 64 -> clear_bits bm at_ (Z.of_nat k) ->
  exists bm', resumed_bits k bits b bm at_ = Some bm' /\ placed bm bm' at_ (run_bits bits b (Z.of_nat k)).
Proof.
  intros Hbits. revert b bm at_. induction k as [|k IH]; intros b bm at_ Hb Hf Hbm Ha Hfit Hov Hc; cbn [resumed_bits].
  { exists bm. split; [done|]. apply (placed_zeros bm at_ 0); done. }
  rewrite Nat2Z.inj_succ in *. rewrite get_bit_spec by (done || lia || (apply Z.div_lt_upper_bound; lia)).
  assert (Hstep : exists bm1, (if bit bits b then set_bits bm at_ 1 else Some bm) = Some bm1 /\
                    placed bm bm1 at_ [Z.b2z (bit bits b)]).
  { assert (Hc1 : clear_bits bm at_ 1) by (intros j Hj; apply Hc; lia). destruct (bit bits b).
    - destruct (set_bits_spec bm at_ 1) as (bm1 & Hs & Hfl); [done|lia..|]. exists bm1. split; [done|]. by apply (placed_filled _ _ _ 1).
    - exists bm. split; [done|]. by apply (placed_zeros bm at_ 1). }
  destruct Hstep as (bm1 & -> & Hp1). pose proof (pl_len _ _ _ _ Hp1).
  destruct (IH (b + 1) bm1 (at_ + 1)) as (bm' & Hr & Hp'); [lia|lia|apply Hp1|lia|lia|lia| |].
  { pose proof (placed_clear _ _ _ _ (Z.succ (Z.of_nat k)) Hp1) as Hpc. change (zlen [_]) with 1 in Hpc.
    replace (Z.of_nat k) with (Z.succ (Z.of_nat k) - 1) by lia. apply Hpc; [lia|done|lia]. }
  exists bm'. split; [done|]. replace (run_bits bits b (Z.succ (Z.of_nat k))) with ([Z.b2z (bit bits b)] ++ run_bits bits (b + 1) (Z.of_nat k)).
  - eapply placed_app; [exact Hp1|exact Hp'].
  - unfold run_bits. rewrite <- Z.add_1_l, (seqZ_app 0 1) by lia. rewrite List.map_app. change (seqZ 0 1) with [0].
    rewrite (map_seqZ_shift _ (0 + 1)). cbn [List.map]. rewrite Z.add_0_r. f_equal. apply map_ext. intros i. do 2 f_equal. lia.
Qed.

(** A whole run. *)
Lemma bitmap_run_spec r out at_ : view_fits 1 r -> 1 <= rv_count r -> bytes_ok out -> 0 <= at_ ->
  at_ + rv_count r <= 8 * zlen out -> 8 * zlen out < 2 ^ 63 -> clear_bits out at_ (rv_count r) ->
  exists x, bitmap_run r out at_ = Some x /\
    match x with
    | inr out' => Forall (fun v => v <= 1) (view_values 1 r) /\ placed out out' at_ (view_values 1 r)
    | inl _ => ~ Forall (fun v => v <= 1) (view_values 1 r)
    end.
Proof.
  intros Hv Hc Ho Ha Hf Hov Hcl. unfold bitmap_run. unfold view_fits in Hv. destruct (rv_packed r) eqn:Hp; cbn [negb].
  - destruct Hv as (Hb & Hbs & Hoff & Hfit). rewrite view_values_bits by done. rewrite Z.mul_1_r in Hfit.
    assert (Hle : Forall (fun v => v <= 1) (run_bits (rv_bits r) (rv_bit_offset r) (rv_count r))).
    { apply Forall_map, Forall_true. intros i. destruct (bit _ _); cbn; lia. }
    destruct (Z.eqb_spec (rv_bit_offset r) 0) as [Hz|Hz].
    + pose proof (copy_bits_spec (rv_bits r) (rv_count r) out at_ Hb Ho ltac:(lia) Ha ltac:(lia)) as Hcp.
      destruct (Z.ltb_spec (zlen (rv_bits r)) ((rv_count r + 7) / 8)); [exfalso; Z.div_mod_to_equations; lia|].
      destruct (Z.ltb_spec (zlen out) ((at_ + rv_count r + 7) / 8)); [exfalso; Z.div_mod_to_equations; lia|].
      cbn [orb] in Hcp. destruct Hcp as (out' & -> & Hl & Hok & Hbit). eexists. split; [done|]. split; [done|].
      constructor; [done|done|]. intros j Hj. rewrite Hbit by done.
      destruct (Z.leb_spec at_ j), (Z.ltb_spec j (at_ + rv_count r)); cbn [andb]; [|rewrite zget_None; [done|];
        unfold run_bits; rewrite zlen_map, zlen_seqZ by lia; lia..].
      unfold run_bits. rewrite zget_map_seqZ by lia. rewrite Hz, Z.add_0_l. by destruct (bit (rv_bits r) (j - at_)).
    + destruct (resumed_bits_spec (Z.to_nat (rv_count r)) (rv_bits r) (rv_bit_offset r) out at_) as (out' & -> & Hpl);
        rewrite ?Z2Nat.id by lia; try done; try lia.
      eexists. split; [done|]. split; [done|]. by rewrite Z2Nat.id in Hpl by lia.
  - unfold view_values. rewrite Hp. destruct (Z.ltb_spec 1 (rv_value r)) as [Hbig|Hbig].
    + eexists. split; [done|]. intros Hall. rewrite List.Forall_forall in Hall.
      specialize (Hall (rv_value r)). assert (rv_value r <= 1); [|lia]. apply Hall.
      destruct (Z.to_nat (rv_count r)) eqn:Hn; [lia|]. by left.
    + assert (Hall : Forall (fun v => v <= 1) (replicate (Z.to_nat (rv_count r)) (rv_value r))) by (by apply Forall_replicate).
      destruct (Z.eqb_spec (rv_value r) 0) as [H0|H0]; cbn [negb].
      * eexists. split; [done|]. rewrite H0 in *. split; [done|]. by apply placed_zeros.
      * destruct (set_bits_spec out at_ (rv_count r)) as (out' & -> & Hfl); [done|lia..|]. eexists. split; [done|].
        split; [done|]. replace (rv_value r) with 1 by lia. apply placed_filled; [lia|done|done].
Qed.

Lemma view_ok_values max d r d' : view_ok max d (Some r) d' -> 1 <= rv_count r <= max /\ rv_count r <= zlen (pending d) /\
  zlen (view_values (d_width d) r) = rv_count r.
Proof.
  intros (_ & Hc & Hv & _). assert (Hz : zlen (view_values (d_width d) r) = rv_count r).
  { unfold view_values. destruct (rv_packed r); rewrite ?zlen_map, ?zlen_seqZ, ?zlen_replicate; lia. }
  split; [done|]. split; [|done]. rewrite Hv, zlen_ztake in Hz by lia. lia.
Qed.

(** Taking a run off the values still wanted. *)
Lemma pending_split (P : Z -> Prop) n max d r d' : view_ok max d (Some r) d' -> max <= n ->
  (n <= zlen (pending d) /\ Forall P (ztake n (pending d)) <->
   Forall P (view_values (d_width d) r) /\ n - rv_count r <= zlen (pending d') /\
   Forall P (ztake (n - rv_count r) (pending d'))) /\
  ztake n (pending d) = view_values (d_width d) r ++ ztake (n - rv_count r) (pending d').
Proof.
  intros Hv Hm. destruct (view_ok_values max d r d' Hv) as (Hc & Hl & _). destruct Hv as (_ & _ & -> & -> & _).
  assert (Hsp : ztake n (pending d) = ztake (rv_count r) (pending d) ++ ztake (n - rv_count r) (zdrop (rv_count r) (pending d))).
  { symmetry. apply ztake_split; lia. }
  rewrite Hsp, zlen_zdrop, Forall_app by lia. split; [|done]. intuition lia.
Qed.

Lemma rle_bitmap_loop_spec fuel d n out at_ i : inv d -> d_width d = 1 -> bytes_ok out -> 0 <= at_ + i -> i <= n ->
  at_ + n <= 8 * zlen out -> 8 * zlen out < 2 ^ 63 -> clear_bits out (at_ + i) (n - i) -> n - i <= Z.of_nat fuel ->
  let ok := n - i <= zlen (pending d) /\ Forall (fun v => v <= 1) (ztake (n - i) (pending d)) in
  exists x, rle_bitmap_loop fuel d n out at_ i = Some x /\
    match x with
    | inr (d', out') => ok /\ placed out out' (at_ + i) (ztake (n - i) (pending d)) /\ inv d' /\ pending d' = zdrop (n - i) (pending d)
    | inl _ => ~ ok
    end.
Proof.
  revert d out i. induction fuel as [|fuel IH]; intros d out i Hd Hw Ho Ha Hi Hf Hov Hc Hfu ok; cbn [rle_bitmap_loop];
    destruct (Z.ltb_spec i n) as [Hlt|Hge]; try lia.
  1, 3: assert (i = n) as -> by lia; eexists; (split; [done|]); unfold ok; rewrite Z.sub_diag, ztake_0, zdrop_0;
    pose proof (zlen_nonneg (pending d)); (split; [split; [lia|done]|]); (split; [apply (placed_zeros _ _ 0); [done|intros j Hj; lia]|done]).
  destruct (next_run_view_loop_spec (S (Z.to_nat (d_e d - d_p d))) (n - i) d Hd) as (o & d1 & Hnx & Hvo);
    [pose proof (inv_p d Hd); lia|]. unfold next_run_view. rewrite Hnx. destruct o as [r|].
  2: { destruct Hvo as (_ & _ & Hnil). eexists. split; [done|]. intros [Hok _]. rewrite Hnil in Hok by lia. change (zlen []) with 0 in Hok. lia. }
  destruct (view_ok_values _ _ _ _ Hvo) as (Hrc & Hrl & Hrz).
  destruct (pending_split (fun v => v <= 1) (n - i) _ _ _ _ Hvo ltac:(lia)) as [Hiff Hsp].
  destruct Hvo as (Hd1 & _ & _ & Hpd & Hfits & Hw1). rewrite Hw in *.
  destruct (bitmap_run_spec r out (at_ + i) Hfits) as (x & -> & Hx); [lia|done|lia|lia|lia|intros j Hj; apply Hc; lia|].
  destruct x as [e|out1].
  { eexists. split; [done|]. unfold ok. intros Hok. apply Hx. by apply Hiff. }
  destruct Hx as [Hall Hpl]. pose proof (pl_len _ _ _ _ Hpl) as Hol.
  destruct (IH d1 out1 (i + rv_count r)) as (y & Hy & Hres); try done; try lia; [apply Hpl| |].
  { pose proof (placed_clear _ _ _ _ (n - i) Hpl) as Hpc. rewrite Hrz in Hpc. rewrite Z.add_assoc.
    replace (n - (i + rv_count r)) with (n - i - rv_count r) by lia. apply Hpc; [lia|done|lia]. }
  replace (n - (i + rv_count r)) with (n - i - rv_count r) in Hres by lia. exists y. split; [done|].
  destruct y as [e|[d2 out2]].
  - unfold ok. intros Hok. apply Hres. by apply Hiff.
  - destruct Hres as (Hok' & Hpl2 & Hi2 & Hp2). split; [by apply Hiff|]. split_and!; [|done|].
    + rewrite Hsp. eapply placed_app; [done|]. by rewrite Hrz, <- Z.add_assoc.
    + rewrite Hp2, Hpd, zdrop_zdrop by lia. f_equal. lia.
Qed.

(** A width-1 stream becomes a bitmap run by run. On any stream and any
    run structure (fills, aligned and mid-byte copies alike), with the target
    bits clear, [rle_bitmap] stays within its memory; it succeeds exactly when
    the stream still holds [n] values, all 0 or 1; and then bits
    [at, at + n) are those values, no other bit has changed and the decoder
    stands behind them. *)
Theorem rle_bitmap_exact d n out at_ :
  inv d -> d_width d = 1 -> bytes_ok out -> 0 <= at_ -> 0 <= n -> at_ + n <= 8 * zlen out -> zlen out < 2 ^ 60 ->
  clear_bits out at_ n ->
  let ok := n <= zlen (pending d) /\ Forall (fun v => v <= 1) (ztake n (pending d)) in
  exists x, rle_bitmap d n out at_ = Some x /\
    match x with
    | inr (d', out') => ok /\ placed out out' at_ (ztake n (pending d)) /\ inv d' /\ pending d' = zdrop n (pending d)
    | inl _ => ~ ok
    end.
Proof.
  intros Hd Hw Ho Ha Hn Hf Hov Hc. unfold rle_bitmap. rewrite Hw. cbn [Z.eqb negb].
  destruct (Z.ltb_spec (zlen out * 8) at_), (Z.ltb_spec (zlen out * 8 - at_) n); try lia. cbn [orb].
  pose proof (rle_bitmap_loop_spec (Z.to_nat n) d n out at_ 0 Hd Hw Ho) as Hl. rewrite Z.add_0_r, Z.sub_0_r in Hl.
  apply Hl; done || lia.
Qed.

Lemma rle_bitmap_exact_witness :
  let d := new_decoder [3; 181] 1 in
  exists x, rle_bitmap d 7 [0; 0] 3 = Some x /\
    match x with
    | inr (d', out') => (7 <= zlen (pending d) /\ Forall (fun v => v <= 1) (ztake 7 (pending d))) /\
        placed [0; 0] out' 3 (ztake 7 (pending d)) /\ inv d' /\ pending d' = zdrop 7 (pending d)
    | inl _ => ~ (7 <= zlen (pending d) /\ Forall (fun v => v <= 1) (ztake 7 (pending d)))
    end.
Proof.
  refine (rle_bitmap_exact (new_decoder [3; 181] 1) 7 [0; 0] 3
    (new_decoder_inv [3; 181] 1 ltac:(repeat constructor; done) ltac:(by vm_compute) ltac:(lia)) eq_refl
    ltac:(repeat constructor; done) ltac:(lia) ltac:(lia) ltac:(by vm_compute) ltac:(by vm_compute) _).
  intros j Hj. unfold bit. change (le_val [0; 0]) with 0. apply Z.bits_0.
Defined.

(** ** [decode_levels] *)
Lemma slice_next bits at_ t : 0 <= at_ -> 0 <= t ->
  Z.lor (slice bits at_ t) (Z.shiftl (Z.b2z (bit bits (at_ + t))) t) = slice bits at_ (t + 1).
Proof.
  intros Ha Ht. apply Z.bits_inj'. intros i Hi. rewrite Z.lor_spec, testbit_shiftl. unfold slice. rewrite !testbit_wrap, !Z.shiftr_spec by lia.
  destruct (Z.leb_spec 0 i); [|lia]. cbn [andb]. unfold bit. destruct (Z.ltb_spec i t), (Z.ltb_spec i (t + 1)); try lia; cbn [andb].
  - rewrite (Z.testbit_neg_r _ (i - t)) by lia. apply orb_false_r.
  - replace i with t by lia. rewrite Z.sub_diag, (Z.add_comm at_ t). by destruct (Z.testbit (le_val bits) (t + at_)).
  - cbn [orb]. destruct (Z.testbit _ (at_ + t)); cbn [Z.b2z]; [apply (testbit_above 1 1); lia|apply Z.bits_0].
Qed.

Lemma level_value_spec n bits at_ t : bytes_ok bits -> 0 <= at_ -> 0 <= t -> t + Z.of_nat n <= 32 ->
  at_ + t + Z.of_nat n <= 8 * zlen bits ->
  level_value n bits at_ t (slice bits at_ t) = kernel_ok (slice bits at_ (t + Z.of_nat n)).
Proof.
  intros Hb Ha. revert t. induction n as [|n IH]; intros t Ht H32 Hf; cbn [level_value]; [by rewrite Z.add_0_r|].
  rewrite Nat2Z.inj_succ in *. assert (Hq : 0 <= (at_ + t) / 8 < zlen bits) by (Z.div_mod_to_equations; lia).
  destruct (Z.leb_spec (zlen bits) ((at_ + t) / 8)); [lia|].
  pose proof (get_bit_spec bits (at_ + t) Hb ltac:(lia) ltac:(lia)) as Hg. unfold get_bit in Hg.
  destruct (zget bits ((at_ + t) / 8)) as [b|]; [|done]. injection Hg as Hg.
  assert (Hbit : Z.land (Z.shiftr b ((at_ + t) mod 8)) 1 = Z.b2z (bit bits (at_ + t))).
  { rewrite <- Hg. change 1 with (Z.ones 1). rewrite Z.land_ones by lia. change (2 ^ 1) with 2.
    pose proof (Z.mod_pos_bound (Z.shiftr b ((at_ + t) mod 8)) 2 ltac:(lia)).
    destruct (Z.eqb_spec (Z.shiftr b ((at_ + t) mod 8) mod 2) 0); cbn; lia. }
  rewrite Hbit, wrap_small.
  - rewrite slice_next by lia. rewrite IH by lia. do 2 f_equal. lia.
  - destruct (bit bits (at_ + t)); cbn [Z.b2z]; [|rewrite Z.shiftl_0_l; lia].
    rewrite Z.shiftl_mul_pow2, Z.mul_1_l by lia. split; [apply Z.pow_nonneg; lia|apply Z.pow_lt_mono_r; lia].
Qed.

Lemma level_value_0 bits at_ w : bytes_ok bits -> 0 <= at_ -> 0 <= w <= 32 -> at_ + w <= 8 * zlen bits ->
  level_value (Z.to_nat w) bits at_ 0 0 = kernel_ok (slice bits at_ w).
Proof.
  intros Hb Ha Hw Hf. assert (H0 : slice bits at_ 0 = 0) by (unfold slice, wrap; apply Z.mod_1_r).
  rewrite <- H0 at 2. rewrite level_value_spec by (done || lia). by rewrite Z.add_0_l, Z2Nat.id by lia.
Qed.

(** Is some level above the maximum? *)
Definition above (maxv : Z) (vs : list Z) : bool := existsb (fun v => maxv <? v) vs.

Lemma above_spec maxv vs : above maxv vs = false <-> Forall (fun v => v <= maxv) vs.
Proof.
  unfold above. induction vs as [|v vs IH]; cbn [existsb]; [done|]. rewrite Forall_cons, orb_false_iff, IH, Z.ltb_ge. done.
Qed.

Lemma above_app maxv a b : above maxv (a ++ b) = above maxv a || above maxv b.
Proof. apply existsb_app. Qed.

Section LevelRuns.
Context (w maxv : Z) (Hw : 0 <= w <= 16) (Hmax : 0 <= maxv < 2 ^ 16) (out0 : list Z).

(** Levels from bit [off] of [bits]. *)
Definition run_levels (bits : list Z) (off a n : Z) : list Z := List.map (fun i => slice bits (off + (a + i) * w) w) (seqZ 0 n).

Lemma zlen_run_levels bits off a n : 0 <= n -> zlen (run_levels bits off a n) = n.
Proof. intros. unfold run_levels. by rewrite zlen_map, zlen_seqZ. Qed.

Lemma run_levels_app bits off a n m : 0 <= n -> 0 <= m ->
  run_levels bits off a (n + m) = run_levels bits off a n ++ run_levels bits off (a + n) m.
Proof.
  intros Hn Hm. unfold run_levels. rewrite seqZ_app, List.map_app, (map_seqZ_shift _ (0 + n)) by done. f_equal.
  apply map_ext. intros i. do 2 f_equal. lia.
Qed.

Lemma run_levels_u16 bits off a n : List.map u16 (run_levels bits off a n) = run_levels bits off a n.
Proof using Hw.
  unfold run_levels. rewrite List.map_map. apply map_ext. intros i. apply wrap_small. pose proof (wrap_range w (Z.shiftr (le_val bits) (off + (a + i) * w)) ltac:(lia)).
  unfold slice. assert (2 ^ w <= 2 ^ 16) by (apply Z.pow_le_mono_r; lia). lia.
Qed.

(** The output with the levels [vs] stored behind [done_]. *)
Lemma store_levels done_ vs i n : zlen done_ = i -> zlen vs = n -> i + n <= zlen out0 ->
  store (done_ ++ zdrop i out0) i vs = Some ((done_ ++ vs) ++ zdrop (i + n) out0).
Proof. intros Hi Hn Hf. pose proof (zlen_nonneg done_). pose proof (zlen_nonneg vs). rewrite (store_next _ vs out0 i n) by lia. by rewrite app_assoc. Qed.

Lemma resumed_levels_spec k bits off a hi done_ i : bytes_ok bits -> 0 <= off -> 0 <= a -> zlen done_ = i + a -> 0 <= i ->
  off + (a + Z.of_nat k) * w <= 8 * zlen bits -> i + a + Z.of_nat k <= zlen out0 ->
  resumed_levels k bits w maxv off a hi (done_ ++ zdrop (i + a) out0) i =
    kernel_ok (hi || above maxv (run_levels bits off a (Z.of_nat k)),
      (done_ ++ run_levels bits off a (Z.of_nat k)) ++ zdrop (i + a + Z.of_nat k) out0).
Proof using Hw.
  intros Hb Ho. revert a hi done_. induction k as [|k IH]; intros a hi done_ Ha Hd Hi Hf Hfit; cbn [resumed_levels].
  { cbn. rewrite orb_false_r, app_nil_r, Z.add_0_r. done. }
  rewrite Nat2Z.inj_succ in *. rewrite level_value_0 by (done || nia). cbn beta iota delta [kernel_ok].
  pose proof (run_levels_u16 bits off a 1) as Hu. assert (H1 : run_levels bits off a 1 = [slice bits (off + a * w) w]).
  { unfold run_levels. change (seqZ 0 1) with [0]. cbn [List.map]. by rewrite Z.add_0_r. }
  rewrite H1 in Hu. cbn [List.map] in Hu. rewrite Hu, (store_levels done_ _ (i + a) 1) by (done || lia).
  replace (i + a + 1) with (i + (a + 1)) by lia.
  rewrite IH; [|lia|rewrite zlen_app; change (zlen [_]) with 1; lia|done|lia|lia].
  rewrite <- Z.add_1_l, run_levels_app, H1, above_app by lia. cbn [above existsb]. rewrite orb_false_r, orb_assoc, <- !app_assoc. unfold kernel_ok.
  by replace (i + (a + 1) + Z.of_nat k) with (i + a + (1 + Z.of_nat k)) by lia.
Qed.

(** A block of a byte-aligned run. *)
Lemma unpack_block bits a m tmp : bytes_ok bits -> 0 <= a -> a mod 8 = 0 -> 0 <= m <= 512 -> zlen tmp = 512 ->
  (a + m) * w <= 8 * zlen bits ->
  a * w / 8 <= zlen bits /\
  unpack_bits 32 (zdrop (a * w / 8) bits) w tmp m = Some (Some (run_levels bits 0 a m ++ zdrop m tmp)).
Proof using Hw Hmax.
  intros Hb Ha Hm8 Hm Ht Hf. set (g := a / 8). assert (Hg : a = g * 8) by (pose proof (Z.div_mod a 8 ltac:(lia)); lia).
  assert (Hbyte : a * w / 8 = g * w) by (rewrite Hg; replace (g * 8 * w) with (g * w * 8) by lia; apply Z.div_mul; lia).
  rewrite Hbyte. assert (0 <= g) by lia. split; [nia|].
  rewrite unpack_bits_spec by (auto using bytes_ok_zdrop || nia). unfold fits_bits.
  assert (Hz : zlen (zdrop (g * w) bits) = zlen bits - g * w) by (rewrite zlen_zdrop by nia; nia).
  destruct (Z.leb_spec w 32), (Z.leb_spec m (zlen tmp)), (Z.leb_spec ((m * w + 7) / 8) (zlen (zdrop (g * w) bits)));
    try lia; [|exfalso; rewrite Hz in *; Z.div_mod_to_equations; nia]. cbn [andb]. do 3 f_equal.
  unfold packed_values, run_levels. apply map_ext_in. intros i Hi. apply in_seqZ in Hi.
  rewrite packed_zdrop by (done || lia). rewrite packed_slice, Hg. by rewrite Z.add_0_l.
Qed.

Lemma level_blocks_spec fuel bits count a tmp hi done_ i : bytes_ok bits -> 0 <= count -> count * w <= 8 * zlen bits ->
  0 <= a -> a mod 8 = 0 -> zlen tmp = 512 -> 0 <= i -> i + count <= zlen out0 -> count - a <= Z.of_nat fuel ->
  let b := Z.min a count in zlen done_ = i + b ->
  exists tmp', zlen tmp' = 512 /\
    level_blocks fuel bits w maxv count a tmp hi (done_ ++ zdrop (i + b) out0) i =
      kernel_ok (tmp', hi || above maxv (run_levels bits 0 b (count - b)),
        (done_ ++ run_levels bits 0 b (count - b)) ++ zdrop (i + count) out0).
Proof using Hw Hmax.
  intros Hb Hc Hf. revert a tmp hi done_. induction fuel as [|fuel IH]; intros a tmp hi done_ Ha Hm Ht Hi Hfit Hfu b Hd;
    cbn [level_blocks]; destruct (Z.ltb_spec a count) as [Hlt|Hge]; try lia.
  1, 3: exists tmp; (split; [done|]); assert (b = count) as -> by (unfold b; lia); rewrite Z.sub_diag;
    cbn; by rewrite orb_false_r, app_nil_r.
  assert (b = a) as -> by (unfold b; lia). set (m := Z.min 512 (count - a)) in *.
  destruct (unpack_block bits a m tmp Hb Ha Hm ltac:(unfold m; lia) Ht ltac:(unfold m; nia)) as [Hbyte Hun].
  destruct (Z.ltb_spec (zlen bits) (a * w / 8)); [lia|]. rewrite Hun.
  assert (Hmr : 0 <= m) by (unfold m; lia). pose proof (zlen_run_levels bits 0 a m Hmr) as Hz.
  rewrite (ztake_app m) by done. rewrite run_levels_u16, (store_levels done_ _ (i + a) m) by (done || (unfold m; lia)).
  set (tmp1 := run_levels bits 0 a m ++ zdrop m tmp). assert (Ht1 : zlen tmp1 = 512).
  { unfold tmp1. rewrite zlen_app, Hz, zlen_zdrop by lia. unfold m. lia. }
  assert (Hb' : Z.min (a + 512) count = a + m) by (unfold m; lia).
  destruct (IH (a + 512) tmp1 (hi || above maxv (run_levels bits 0 a m)) (done_ ++ run_levels bits 0 a m))
    as (tmp' & Htl & Heq); [lia| |done|done|done|lia|rewrite zlen_app, Hz; lia|].
  { rewrite Z.add_mod, Hm by lia. done. }
  rewrite Hb' in Heq. exists tmp'. split; [done|]. unfold above in Heq at 1. replace (i + a + m) with (i + (a + m)) by lia.
  rewrite Heq. replace (count - a) with (m + (count - (a + m))) by lia.
  rewrite run_levels_app, above_app, orb_assoc, <- !app_assoc by (unfold m; lia). done.
Qed.

(** The outcome of a run of values [vs] stored behind [done_]. *)
Definition run_result (vs done_ : list Z) (i : Z) (x : string + (list Z * list Z)) : Prop :=
  match x with
  | inr (tmp', out') => Forall (fun v => v <= maxv) vs /\ zlen tmp' = 512 /\ out' = (done_ ++ vs) ++ zdrop (i + zlen vs) out0
  | inl _ => ~ Forall (fun v => v <= maxv) vs
  end.

Lemma checked_run vs done_ i e (tmp : list Z) : zlen tmp = 512 ->
  exists x, (if above maxv vs then kernel_fail e else kernel_ok (tmp, (done_ ++ vs) ++ zdrop (i + zlen vs) out0)) = Some x /\
    run_result vs done_ i x.
Proof using.
  intros Ht. destruct (above maxv vs) eqn:Ha; eexists; (split; [done|]); cbn.
  - rewrite <- above_spec, Ha. done.
  - split; [by apply above_spec|done].
Qed.

Lemma level_run_spec r tmp done_ i : view_fits w r -> 1 <= rv_count r -> zlen tmp = 512 -> zlen done_ = i ->
  i + rv_count r <= zlen out0 ->
  exists x, level_run r w maxv tmp (done_ ++ zdrop i out0) i = Some x /\ run_result (view_values w r) done_ i x.
Proof using Hw Hmax.
  intros Hv Hc Ht Hd Hf. pose proof (zlen_nonneg done_). unfold level_run. unfold view_fits in Hv.
  destruct (rv_packed r) eqn:Hp; cbn [negb].
  - destruct Hv as (Hb & _ & Ho & Hfit).
    assert (Hvv : view_values w r = run_levels (rv_bits r) (rv_bit_offset r) 0 (rv_count r)).
    { unfold view_values, run_levels. rewrite Hp. apply map_ext. intros j. by rewrite Z.add_0_l. }
    pose proof (zlen_run_levels (rv_bits r) (rv_bit_offset r) 0 (rv_count r) ltac:(lia)) as Hz. rewrite Hvv.
    destruct (Z.eqb_spec (rv_bit_offset r) 0) as [H0|H0].
    + rewrite H0 in *. destruct (level_blocks_spec (Z.to_nat (rv_count r)) (rv_bits r) (rv_count r) 0 tmp false done_ i)
        as (tmp' & Htl & Heq); try done; try lia. rewrite Z.min_l, Z.add_0_r, Z.sub_0_r in Heq by lia. rewrite Heq.
      cbn beta iota delta [kernel_ok orb]. replace (i + rv_count r) with (i + zlen (run_levels (rv_bits r) 0 0 (rv_count r))) by lia. by apply checked_run.
    + pose proof (resumed_levels_spec (Z.to_nat (rv_count r)) (rv_bits r) (rv_bit_offset r) 0 false done_ i Hb) as Heq.
      rewrite !Z.add_0_r, Z.add_0_l, Z2Nat.id in Heq by lia. rewrite Heq by lia.
      cbn beta iota delta [kernel_ok orb]. replace (i + rv_count r) with (i + zlen (run_levels (rv_bits r) (rv_bit_offset r) 0 (rv_count r))) by lia.
      by apply checked_run.
  - unfold view_values. rewrite Hp. destruct (Z.ltb_spec maxv (rv_value r)) as [Hbig|Hbig].
    + eexists. split; [done|]. cbn. rewrite List.Forall_forall. intros Hall. specialize (Hall (rv_value r)).
      assert (rv_value r <= maxv); [|lia]. apply Hall. destruct (Z.to_nat (rv_count r)) eqn:Hn; [lia|]. by left.
    + rewrite (store_levels done_ _ i (rv_count r)) by (rewrite ?zlen_replicate; lia). rewrite wrap_small by lia.
      eexists. split; [done|]. cbn. split; [by apply Forall_replicate|]. split; [done|]. by rewrite zlen_replicate, Z2Nat.id by lia.
Qed.
End LevelRuns.

Lemma levels_loop_spec fuel d w maxv n tmp out0 done_ i : inv d -> d_width d = w -> 0 <= w <= 16 -> 0 <= maxv < 2 ^ 16 ->
  zlen tmp = 512 -> zlen done_ = i -> i <= n -> n <= zlen out0 -> n - i <= Z.of_nat fuel ->
  let ok := n - i <= zlen (pending d) /\ Forall (fun v => v <= maxv) (ztake (n - i) (pending d)) in
  exists x, levels_loop fuel d w maxv n tmp (done_ ++ zdrop i out0) i = Some x /\
    match x with
    | inr out' => ok /\ out' = done_ ++ ztake (n - i) (pending d) ++ zdrop n out0
    | inl _ => ~ ok
    end.
Proof.
  intros Hd Hdw Hw Hm. revert d tmp done_ i Hd Hdw. induction fuel as [|fuel IH];
    intros d tmp done_ i Hd Hdw Ht Hi Hin Hn Hfu ok; cbn [levels_loop]; destruct (Z.ltb_spec i n) as [Hlt|Hge]; try lia.
  1, 3: assert (i = n) as -> by lia; eexists; (split; [done|]); unfold ok; rewrite Z.sub_diag, ztake_0;
    pose proof (zlen_nonneg (pending d)); (split; [split; [lia|done]|done]).
  destruct (next_run_view_loop_spec (S (Z.to_nat (d_e d - d_p d))) (n - i) d Hd) as (o & d1 & Hnx & Hvo);
    [pose proof (inv_p d Hd); lia|]. unfold next_run_view. rewrite Hnx. destruct o as [r|].
  2: { destruct Hvo as (_ & _ & Hnil). eexists. split; [done|]. intros [Hok _]. rewrite Hnil in Hok by lia. change (zlen []) with 0 in Hok. lia. }
  destruct (view_ok_values _ _ _ _ Hvo) as (Hrc & Hrl & Hrz).
  destruct (pending_split (fun v => v <= maxv) (n - i) _ _ _ _ Hvo ltac:(lia)) as [Hiff Hsp].
  destruct Hvo as (Hd1 & _ & _ & Hpd & Hfits & Hw1). rewrite Hdw in *.
  destruct (level_run_spec w maxv Hw Hm out0 r tmp done_ i Hfits) as (x & -> & Hx); [lia..|].
  destruct x as [e|[tmp1 out1]].
  { eexists. split; [done|]. unfold ok. intros Hok. apply Hx. by apply Hiff. }
  destruct Hx as (Hall & Ht1 & ->). rewrite Hrz.
  destruct (IH d1 tmp1 (done_ ++ view_values w r) (i + rv_count r)) as (y & Hy & Hres); try done; try lia;
    [rewrite zlen_app; lia|].
  replace (n - (i + rv_count r)) with (n - i - rv_count r) in Hres by lia. exists y. split; [done|].
  destruct y as [e|out2].
  - unfold ok. intros Hok. apply Hres. by apply Hiff.
  - destruct Hres as (Hok' & ->). split; [by apply Hiff|]. by rewrite Hsp, <- !app_assoc.
Qed.

Lemma bit_width16 maxv : 0 <= maxv < 2 ^ 16 -> 0 <= bit_width maxv <= 16 /\ maxv < 2 ^ bit_width maxv.
Proof.
  intros Hm. unfold bit_width. destruct (Z.eqb_spec maxv 0) as [-> |]; [done|].
  pose proof (Z.log2_spec maxv ltac:(lia)) as [_ Hl]. rewrite <- Z.add_1_r in Hl. split; [|done].
  pose proof (Z.log2_nonneg maxv). assert (Z.log2 maxv < 16) by (apply Z.log2_lt_pow2; lia). lia.
Qed.

Lemma decode_levels_spec data maxv n tmp out : bytes_ok data -> zlen data < 2 ^ 58 -> 0 <= maxv < 2 ^ 16 ->
  0 <= n <= zlen out -> zlen tmp = 512 -> let vs := hybrid (bit_width maxv) data in
  let ok := n <= zlen vs /\ Forall (fun v => v <= maxv) (ztake n vs) in
  exists x, decode_levels data maxv n tmp out = Some x /\
    match x with inr out' => ok /\ out' = ztake n vs ++ zdrop n out | inl _ => ~ ok end.
Proof.
  intros Hb Hs Hm Hn Ht. destruct (bit_width16 maxv Hm) as [Hw _]. unfold decode_levels. cbv zeta.
  pose proof (new_decoder_inv data (bit_width maxv) Hb Hs ltac:(lia)) as Hd.
  pose proof (levels_loop_spec (Z.to_nat n) _ (bit_width maxv) maxv n tmp out [] 0 Hd eq_refl Hw Hm Ht) as Hl.
  rewrite new_decoder_pending, Z.sub_0_r in Hl. destruct (Z.leb_spec (bit_width maxv) 32); [|lia].
  apply Hl; done || lia.
Qed.

(** Level decoding is exact. On any bytes, [decode_levels] of [n] levels
    stays within the data, its scratch and the output; it succeeds exactly
    when the stream denotes at least [n] levels and the first [n] are within
    the column's maximum, and then stores those, whatever mix of fills,
    512-value blocks and bit-by-bit reads produced them. *)
Theorem decode_levels_exact data maxv n tmp out : bytes_ok data -> zlen data < 2 ^ 58 -> 0 <= maxv < 2 ^ 16 ->
  0 <= n <= zlen out -> zlen tmp = 512 -> let vs := hybrid (bit_width maxv) data in
  let ok := n <= zlen vs /\ Forall (fun v => v <= maxv) (ztake n vs) in
  exists x, decode_levels data maxv n tmp out = Some x /\
    match x with inr out' => ok /\ out' = ztake n vs ++ zdrop n out | inl _ => ~ ok end.
Proof. apply decode_levels_spec. Qed.

Lemma decode_levels_exact_witness :
  let vs := hybrid 2 [8; 2; 3; 27; 0] in
  exists x, decode_levels [8; 2; 3; 27; 0] 2 5 (replicate 512 7) [0; 0; 0; 0; 0; 9] = Some x /\
    match x with
    | inr out' => (5 <= zlen vs /\ Forall (fun v => v <= 2) (ztake 5 vs)) /\ out' = ztake 5 vs ++ [9]
    | inl _ => ~ (5 <= zlen vs /\ Forall (fun v => v <= 2) (ztake 5 vs))
    end.
Proof.
  exact (decode_levels_exact [8; 2; 3; 27; 0] 2 5 (replicate 512 7) [0; 0; 0; 0; 0; 9] ltac:(repeat constructor; done)
    ltac:(by vm_compute) ltac:(lia) ltac:(split; by vm_compute) ltac:(by vm_compute)).
Defined.

(** Levels round trip: levels within the column's maximum come back from
    the stream [encode_levels] writes. *)
Theorem levels_roundtrip levels maxv out tmp dst :
  0 <= maxv < 2 ^ 16 -> Forall (fun v => 0 <= v <= maxv) levels -> zlen levels <= 2 ^ 40 ->
  zlen levels <= zlen dst -> zlen tmp = 512 ->
  exists body, encode_levels levels maxv out = Some (out ++ body) /\
    decode_levels body maxv (zlen levels) tmp dst = kernel_ok (levels ++ zdrop (zlen levels) dst).
Proof.
  intros Hm Hl Hn Hd Ht. destruct (bit_width16 maxv Hm) as [Hw Hlt].
  destruct (rle_hybrid_encode_spec (bit_width maxv) levels out ltac:(lia)) as (body & pad & He & Hpad & Hden); [|done|].
  { eapply Forall_impl; [exact Hl|]. intros v Hv. cbn in Hv. lia. }
  destruct Hden as [Hdn Hb Hlen]. rewrite zlen_app, zlen_replicate in Hlen. exists body. split; [exact He|].
  specialize (Hdn []). rewrite app_nil_r in Hdn. pose proof (zlen_nonneg levels). pose proof (zlen_nonneg body).
  destruct (decode_levels_spec body maxv (zlen levels) tmp dst) as (x & -> & Hx); try done; try lia.
  rewrite Hdn, <- app_assoc in Hx. rewrite (ztake_app (zlen levels)) in Hx by done. destruct x as [e|out'].
  - exfalso. apply Hx. split; [rewrite zlen_app; match goal with |- context [_ + zlen ?t] => pose proof (zlen_nonneg t) end; lia|].
    eapply Forall_impl; [exact Hl|]. intros v Hv. cbn in Hv. lia.
  - destruct Hx as [_ ->]. done.
Qed.

Lemma levels_roundtrip_witness :
  exists body, encode_levels [0; 3; 3; 1] 3 [5] = Some ([5] ++ body) /\
    decode_levels body 3 4 (replicate 512 0) [9; 9; 9; 9; 9] = kernel_ok [0; 3; 3; 1; 9].
Proof.
  exact (levels_roundtrip [0; 3; 3; 1] 3 [5] (replicate 512 0) [9; 9; 9; 9; 9] ltac:(lia) ltac:(repeat constructor; lia)
    ltac:(by vm_compute) ltac:(by vm_compute) ltac:(by vm_compute)).
Defined.

(** ** [count_bits] and [scatter_bits] *)
Lemma count_each_spec fuel (to_word : bool) bm c i e : bytes_ok bm -> 0 <= i <= e -> e <= 8 * zlen bm ->
  (if to_word then (- i) mod 64 else e - i) <= Z.of_nat fuel ->
  exists i', count_each fuel to_word bm c i e = Some (c + (rank bm i' - rank bm i), i') /\ i <= i' <= e /\
    (if to_word then i' = e \/ i' mod 64 = 0 else i' = e).
Proof.
  revert c i. induction fuel as [|fuel IH]; intros c i Hb Hi He Hf; cbn [count_each].
  - destruct (Z.ltb_spec i e), to_word, (Z.eqb_spec (i mod 64) 0); cbn [andb negb orb];
      try (exists i; rewrite Z.sub_diag, Z.add_0_r; split_and!; done || lia).
    all: exfalso; Z.div_mod_to_equations; lia.
  - destruct (Z.ltb_spec i e); cbn [andb].
    2: { exists i. rewrite Z.sub_diag, Z.add_0_r. split_and!; try done; try lia. destruct to_word; lia. }
    destruct (negb to_word || negb (i mod 64 =? 0)) eqn:Hc.
    + rewrite get_bit_spec by (done || lia || (apply Z.div_lt_upper_bound; lia)).
      destruct (IH (c + Z.b2z (bit bm i)) (i + 1)) as (i' & Hr & Hi' & Hend); [done|lia|lia| |].
      { destruct to_word; [|lia]. cbn [negb orb] in Hc. apply negb_true_iff, Z.eqb_neq in Hc. Z.div_mod_to_equations; lia. }
      exists i'. rewrite Hr, rank_next by lia. split_and!; try done; try lia. do 2 f_equal. lia.
    + exists i. rewrite Z.sub_diag, Z.add_0_r. apply orb_false_iff in Hc as [Ht Hm]. destruct to_word; [|done].
      apply negb_false_iff, Z.eqb_eq in Hm. split_and!; try done; try lia.
Qed.

(** The set bits of a word are those the rank passes over. *)
Lemma popcount_rank bm i word : bytes_ok bm -> 0 <= i -> i mod 64 = 0 -> i + 64 <= 8 * zlen bm ->
  load_le64 bm (i / 8) = Some word -> popcount word = rank bm (i + 64) - rank bm i.
Proof.
  intros Hb Hi Hm Hf Hld. assert (H8 : 8 * (i / 8) = i) by (Z.div_mod_to_equations; lia).
  rewrite load_le64_spec in Hld by (done || lia). injection Hld as <-. rewrite H8.
  assert (Hgo : forall k : nat, (k <= 64)%nat ->
    zlen (filter (fun j => Z.testbit (slice bm i 64) j = true) (seqZ 0 (Z.of_nat k))) = rank bm (i + Z.of_nat k) - rank bm i).
  { intros k. induction k as [|k IH]; intros Hk; [rewrite Z.add_0_r, Z.sub_diag; done|].
    rewrite Nat2Z.inj_succ, <- Z.add_1_r, seqZ_app, filter_app, zlen_app, IH, Z.add_assoc, rank_next by lia.
    change (seqZ (0 + Z.of_nat k) 1) with [Z.of_nat k]. rewrite filter_cons, filter_nil.
    assert (Hbit : Z.testbit (slice bm i 64) (Z.of_nat k) = bit bm (i + Z.of_nat k)).
    { unfold slice, bit. rewrite testbit_wrap, Z.shiftr_spec by lia. destruct (Z.ltb_spec (Z.of_nat k) 64); [|lia]. cbn [andb]. f_equal. lia. }
    rewrite Hbit. destruct (bit bm (i + Z.of_nat k)); [rewrite decide_True by done|rewrite decide_False by done];
      unfold zlen; cbn [length Z.b2z]; lia. }
  apply (Hgo 64%nat). lia.
Qed.

Lemma count_words_spec fuel bm c i e : bytes_ok bm -> 0 <= i <= e -> e <= 8 * zlen bm -> 8 * zlen bm < 2 ^ 64 ->
  i = e \/ i mod 64 = 0 -> e - i <= Z.of_nat fuel ->
  exists i', count_words fuel bm c i e = Some (c + (rank bm i' - rank bm i), i') /\ i <= i' <= e /\ e - i' < 64.
Proof.
  revert c i. induction fuel as [|fuel IH]; intros c i Hb Hi He Hov Hm Hf; cbn [count_words];
    rewrite wrap_small by lia; destruct (Z.leb_spec 64 (e - i)); try lia.
  1, 3: exists i; rewrite Z.sub_diag, Z.add_0_r; split_and!; done || lia.
  destruct Hm as [?|Hm]; [lia|]. assert (H8 : 8 * (i / 8) = i) by (Z.div_mod_to_equations; lia).
  destruct (load_le64 bm (i / 8)) as [word|] eqn:Hld; [|rewrite load_le64_spec in Hld by (done || lia); done].
  rewrite (popcount_rank bm i word) by (done || lia).
  destruct (IH (c + (rank bm (i + 64) - rank bm i)) (i + 64)) as (i' & Hr & Hi' & Hend); try done; try lia.
  { right. rewrite Z.add_mod, Hm by lia. done. }
  exists i'. rewrite Hr. split_and!; try lia. do 2 f_equal. lia.
Qed.

(** [count_bits] and [set_bits] against a bitmap: the count, by single
    bits and whole words, is the number of set bits of the range; setting a
    range sets its bits and no other; so the count of a range just set is its
    length. *)
Theorem bit_ranges_exact bm start count : bytes_ok bm -> 0 <= start -> 0 <= count -> start + count <= 8 * zlen bm ->
  8 * zlen bm < 2 ^ 64 ->
  count_bits bm start count = Some (rank bm (start + count) - rank bm start) /\
  exists bm', set_bits bm start count = Some bm' /\ filled bm bm' start (start + count) /\
    count_bits bm' start count = Some count.
Proof.
  intros Hb Hs Hc Hf Hov.
  assert (Hcount : forall m, bytes_ok m -> zlen m = zlen bm ->
    count_bits m start count = Some (rank m (start + count) - rank m start)).
  { intros m Hm Hl. unfold count_bits. rewrite (wrap_small 64 (start + count)) by lia. cbv zeta.
    destruct (count_each_spec 64 true m 0 start (start + count)) as (i1 & -> & Hi1 & He1);
      [done|lia|lia|pose proof (Z.mod_pos_bound (- start) 64 ltac:(lia)); lia|].
    destruct (count_words_spec (Z.to_nat count) m (0 + (rank m i1 - rank m start)) i1 (start + count)) as (i2 & -> & Hi2 & He2);
      [done|lia..|]. destruct (count_each_spec 64 false m (0 + (rank m i1 - rank m start) + (rank m i2 - rank m i1)) i2 (start + count))
      as (i3 & -> & _ & ->); [done|lia..|]. f_equal. lia. }
  split; [by apply Hcount|]. destruct (set_bits_spec bm start count Hb Hs Hc Hf Hov) as (bm' & Hset & Hfl).
  exists bm'. split; [done|]. split; [done|]. destruct Hfl as [Hl Hok Hbits]. rewrite Hcount by done. f_equal.
  pose proof (rank_const bm' start (Z.to_nat count) true Hs) as Hr. rewrite Z2Nat.id in Hr by lia. rewrite Hr; [cbn; lia|].
  intros j Hj. rewrite Hbits by lia. destruct (Z.leb_spec start j), (Z.ltb_spec j (start + count)); lia || done.
Qed.

Lemma bit_ranges_exact_witness :
  count_bits [240; 15; 0] 3 10 = Some (rank [240; 15; 0] 13 - rank [240; 15; 0] 3) /\
  exists bm', set_bits [240; 15; 0] 3 10 = Some bm' /\ filled [240; 15; 0] bm' 3 13 /\ count_bits bm' 3 10 = Some 10.
Proof.
  exact (bit_ranges_exact [240; 15; 0] 3 10 ltac:(repeat constructor; done) ltac:(lia) ltac:(lia) ltac:(by vm_compute)
    ltac:(by vm_compute)).
Defined.

Lemma store_same out q o : zget out q = Some o -> store out q [o] = Some out.
Proof.
  intros Hg. pose proof (zget_Some_range _ _ _ Hg). destruct (store1_spec out q o) as (out' & Hs & Hl & Hq & Hk); [done|].
  rewrite Hs. f_equal. apply zget_ext; [done|]. intros k _. destruct (Z.eq_dec k q) as [-> |Hne]; [congruence|by apply Hk].
Qed.

(** Slot [r] is valid; the dense value it takes. *)
Definition valid_at (validity : option (list Z)) (r : Z) : bool := match validity with None => true | Some v => bit v r end.
Definition dense_at (validity : option (list Z)) (r : Z) : Z := match validity with None => r | Some v => rank v r end.

Definition scattered (dense : list Z) (validity : option (list Z)) (r : Z) : Z :=
  if valid_at validity r then Z.b2z (bit dense (dense_at validity r)) else 0.

Lemma dense_at_next validity r : 0 <= r -> dense_at validity (r + 1) = dense_at validity r + Z.b2z (valid_at validity r).
Proof. intros Hr. unfold dense_at, valid_at. destruct validity; [by apply rank_next|done]. Qed.

Lemma dense_at_range validity a b : 0 <= a <= b -> 0 <= dense_at validity a <= dense_at validity b.
Proof.
  intros Hab. unfold dense_at. destruct validity as [v|]; [|lia].
  pose proof (rank_range v a ltac:(lia)). pose proof (rank_mono v a b Hab). lia.
Qed.

Section Scatter.
Context (dense : list Z) (validity : option (list Z)) (n at_ : Z).
Context (Hdense : bytes_ok dense) (Hfit : dense_at validity n <= 8 * zlen dense) (Hat : 0 <= at_).
Context (Hval : forall v, validity = Some v -> bytes_ok v /\ n <= 8 * zlen v).

Lemma slot_bit r : 0 <= r < n ->
  (match validity with None => Some true | Some v => get_bit v r end) = Some (valid_at validity r).
Proof using Hval.
  intros Hr. unfold valid_at. clear Hfit. destruct validity as [v|]; [|done]. destruct (Hval v eq_refl) as [Hv Hl].
  apply get_bit_spec; [done|lia|apply Z.div_lt_upper_bound; lia].
Qed.

Lemma scatter_loop_spec k out r : bytes_ok out -> 0 <= r -> r + Z.of_nat k = n -> at_ + n <= 8 * zlen out ->
  clear_bits out (at_ + r) (Z.of_nat k) ->
  exists out', scatter_loop k dense validity out at_ r (dense_at validity r) = Some out' /\
    placed out out' (at_ + r) (List.map (fun i => scattered dense validity (r + i)) (seqZ 0 (Z.of_nat k))).
Proof using Hdense Hfit Hat Hval.
  revert out r. induction k as [|k IH]; intros out r Ho Hr Hk Hf Hc; cbn [scatter_loop].
  { exists out. split; [done|]. apply (placed_zeros _ _ 0); [done|intros j Hj; lia]. }
  rewrite Nat2Z.inj_succ in *. rewrite slot_bit by lia. pose proof (dense_at_next validity r Hr) as Hnx.
  pose proof (dense_at_range validity r (r + 1) ltac:(lia)). pose proof (dense_at_range validity (r + 1) n ltac:(lia)).
  assert (Hseq : List.map (fun i => scattered dense validity (r + i)) (seqZ 0 (Z.succ (Z.of_nat k))) =
    [scattered dense validity r] ++ List.map (fun i => scattered dense validity (r + 1 + i)) (seqZ 0 (Z.of_nat k))).
  { rewrite <- Z.add_1_l, (seqZ_app 0 1), List.map_app, (map_seqZ_shift _ (0 + 1)) by lia. change (seqZ 0 1) with [0].
    cbn [List.map]. rewrite Z.add_0_r. f_equal. apply map_ext. intros i. f_equal. lia. }
  assert (Hnext : forall out1, placed out out1 (at_ + r) [scattered dense validity r] ->
    exists out', scatter_loop k dense validity out1 at_ (r + 1) (dense_at validity (r + 1)) = Some out' /\
      placed out out' (at_ + r) (List.map (fun i => scattered dense validity (r + i)) (seqZ 0 (Z.succ (Z.of_nat k))))).
  { intros out1 Hp1. pose proof (pl_len _ _ _ _ Hp1). destruct (IH out1 (r + 1)) as (out' & Hr' & Hp'); [apply Hp1|lia|lia|lia| |].
    - pose proof (placed_clear _ _ _ _ (Z.succ (Z.of_nat k)) Hp1) as Hpc. change (zlen [_]) with 1 in Hpc.
      rewrite Z.add_assoc. replace (Z.of_nat k) with (Z.succ (Z.of_nat k) - 1) by lia. apply Hpc; [lia|done|lia].
    - exists out'. split; [done|]. rewrite Hseq. eapply placed_app; [exact Hp1|]. change (zlen [_]) with 1. by rewrite <- Z.add_assoc. }
  assert (Hc1 : clear_bits out (at_ + r) 1) by (intros j Hj; apply Hc; lia). unfold scattered in Hnext at 1.
  destruct (valid_at validity r); cbn [Z.b2z] in Hnx.
  2: { rewrite Hnx, Z.add_0_r in Hnext. apply Hnext. by apply (placed_zeros _ _ 1). }
  rewrite get_bit_spec by (done || lia || (apply Z.div_lt_upper_bound; lia)).
  destruct (proj2 (zget_is_Some out ((at_ + r) / 8))) as [o Hg]; [split; [apply Z.div_pos; lia|apply Z.div_lt_upper_bound; lia]|].
  cbv zeta. rewrite Hg, <- Hnx. destruct (bit dense (dense_at validity r)); cbn [Z.b2z] in *.
  - destruct (filled_one out (at_ + r) Ho ltac:(lia)) as (out1 & Hst & Hfl). unfold set_bit in Hst. rewrite Hg in Hst. rewrite Hst.
    apply Hnext. by apply (placed_filled _ _ _ 1).
  - rewrite Z.shiftl_0_l, Z.lor_0_r, wrap_small by (apply (zget_byte _ _ _ Ho Hg)). rewrite (store_same _ _ _ Hg).
    apply Hnext. by apply (placed_zeros _ _ 1).
Qed.
End Scatter.

Lemma scatter_bits_spec dense validity n out at_ : bytes_ok dense -> 0 <= n -> 0 <= at_ ->
  dense_at validity n <= 8 * zlen dense -> (forall v, validity = Some v -> bytes_ok v /\ n <= 8 * zlen v) ->
  bytes_ok out -> at_ + n <= 8 * zlen out -> clear_bits out at_ n ->
  exists out', scatter_bits dense validity n out at_ = Some out' /\
    placed out out' at_ (List.map (scattered dense validity) (seqZ 0 n)).
Proof.
  intros Hd Hn Ha Hfit Hval Ho Hf Hc. unfold scatter_bits.
  pose proof (scatter_loop_spec dense validity n at_ Hd Hfit Ha Hval (Z.to_nat n) out 0 Ho) as Hl.
  rewrite Z.add_0_r, Z2Nat.id in Hl by lia.
  assert (H0 : dense_at validity 0 = 0) by (by destruct validity). rewrite H0 in Hl. apply Hl; done || lia.
Qed.
