(* ===== verification/Append.v ===== *)
(** * Widening, gathering and the offsets + data layout (values.hpp 37, 39, 40)

    [sign_extend_be] / [sign_extend_le], the dictionary kernels, and the
    [append_*] kernels that fill [n] slots of an offsets + data pair. [data]
    and [ends] are the buffers from the caller's pointers on; a source is the
    list of its readable bytes. *)
From S2P Require Import Prelude Columnar LzCopy Nulls Views Dremel Levels.

(** ** Integer widening *)

(** The [width] bytes written to [out]; [src] holds [k] bytes. *)
Definition sign_extend_be (src : list Z) (k width : Z) : option (list Z) :=
  let sign := match (if k =? 0 then Some 0 else zget src 0) with
              | None => None
              | Some b => Some (if Z.land b 128 =? 0 then 0 else 255)
              end in
  match sign with
  | None => None
  | Some sign => mapM (fun i => if i <? k then zget src (k - 1 - i) else Some sign) (seqZ 0 width)
  end.

(** [v] is a [size]-byte signed integer. *)
Definition sign_extend_le (size v width : Z) : option (list Z) :=
  if width <? size then None
  else Some (le_bytes (Z.to_nat size) v ++ replicate (Z.to_nat (width - size)) (if v <? 0 then 255 else 0)).

(** ** Dictionaries *)
Definition check_indices (idx : list Z) (dict_size : Z) : bool :=
  fold_left (fun bad i => Z.lor bad (if dict_size <=? i then 1 else 0)) idx 0 =? 0.

(** [out] advances by [width] per index; the widths 4 and 8 run the same copy. *)
Fixpoint gather_fixed (dict : list Z) (width : Z) (idx : list Z) (out : list Z) (i : Z) : option (list Z) :=
  match idx with
  | [] => Some out
  | x :: idx =>
      match copy_from dict (width * x) width out (width * i) with
      | None => None
      | Some out => gather_fixed dict width idx out (i + 1)
      end
  end.

Fixpoint gathered_size (dict_offsets : list Z) (idx : list Z) (total : Z) : option Z :=
  match idx with
  | [] => Some total
  | i :: idx =>
      match zget dict_offsets (u32 (i + 1)), zget dict_offsets i with
      | Some b, Some a => gathered_size dict_offsets idx (u64 (total + u64 (b - a)))
      | _, _ => None
      end
  end.

(** ** Offsets + data *)
Definition kValueSlack : Z := 16.

(** A value of [len] bytes at [s] of [src], to [data + cur]. *)
Definition copy_value (data : list Z) (cur : Z) (src : list Z) (s len : Z) : option (list Z) :=
  if (len <=? 16) && (16 <=? zlen src - s) then copy_from src s 16 data cur
  else copy_from src s len data cur.

Definition slot_valid (validity : option (list Z)) (r : Z) : option bool :=
  match validity with None => Some true | Some v => get_bit v r end.

(** [Off(cur)] for a signed offset type of [w] bits. *)
Definition to_off (w cur : Z) : Z := sint w (wrap w cur).

Record appended := Appended { ap_data : list Z; ap_cur : Z; ap_ends : list Z }.

(** [ends[r] = Off(cur)] *)
Definition set_end (w : Z) (a : appended) (r : Z) : option appended :=
  match store (ap_ends a) r [to_off w (ap_cur a)] with
  | None => None
  | Some ends => Some (Appended (ap_data a) (ap_cur a) ends)
  end.

(** The next length-prefixed value of [l] at [p]: where [p] stands after it. *)
Definition append_prefixed_value (l : list Z) (max_size p : Z) (a : appended) : kernel (Z * appended) :=
  if zlen l - p <? 4 then kernel_fail "truncated length-prefixed value"
  else match load_le32 l p with
       | None => None
       | Some len =>
           let p := p + 4 in
           if u64 (zlen l - p) <? len then kernel_fail "length-prefixed value runs past the page"
           else match copy_value (ap_data a) (ap_cur a) l p len with
                | None => None
                | Some data =>
                    let cur := ap_cur a + len in
                    if max_size <? cur then kernel_fail "values exceed the offset type"
                    else kernel_ok (p + len, Appended data cur (ap_ends a))
                end
       end.

Fixpoint append_prefixed_loop (k : nat) (w : Z) (l : list Z) (validity : option (list Z)) (max_size r p : Z) (a : appended) :
    kernel appended :=
  match k with
  | O => kernel_ok a
  | S k =>
      match slot_valid validity r with
      | None => None
      | Some v =>
          match (if v then append_prefixed_value l max_size p a else kernel_ok (p, a)) with
          | None => None
          | Some (inl e) => kernel_fail e
          | Some (inr (p, a)) =>
              match set_end w a r with
              | None => None
              | Some a => append_prefixed_loop k w l validity max_size (r + 1) p a
              end
          end
      end
  end.

Definition append_length_prefixed (w : Z) (l : list Z) (n : Z) (validity : option (list Z)) (a : appended) (max_size : Z) :
    kernel appended :=
  append_prefixed_loop (Z.to_nat n) w l validity max_size 0 0 a.

(** [dict] holds the dictionary bytes up to [dict_end]. *)
Definition gathered_value (dict dict_offsets idx : list Z) (j : Z) (a : appended) : option appended :=
  match zget idx j with
  | None => None
  | Some x =>
      match zget dict_offsets x, zget dict_offsets (u32 (x + 1)) with
      | Some s, Some e =>
          let len := u64 (e - s) in
          match copy_value (ap_data a) (ap_cur a) dict s len with
          | None => None
          | Some data => Some (Appended data (ap_cur a + len) (ap_ends a))
          end
      | _, _ => None
      end
  end.

Fixpoint append_gathered_loop (k : nat) (w : Z) (dict dict_offsets idx : list Z) (validity : option (list Z)) (r j : Z)
    (a : appended) : option appended :=
  match k with
  | O => Some a
  | S k =>
      match slot_valid validity r with
      | None => None
      | Some v =>
          match (if v then gathered_value dict dict_offsets idx j a else Some a) with
          | None => None
          | Some a =>
              match set_end w a r with
              | None => None
              | Some a => append_gathered_loop k w dict dict_offsets idx validity (r + 1) (if v then j + 1 else j) a
              end
          end
      end
  end.

Definition append_gathered (w : Z) (dict dict_offsets idx : list Z) (n : Z) (validity : option (list Z)) (a : appended) :
    option appended :=
  append_gathered_loop (Z.to_nat n) w dict dict_offsets idx validity 0 0 a.

(** [views] are the bytes the views show. *)
Fixpoint append_views_loop (k : nat) (w : Z) (views : list (list Z)) (validity : option (list Z)) (r j : Z) (a : appended) :
    option appended :=
  match k with
  | O => Some a
  | S k =>
      match slot_valid validity r with
      | None => None
      | Some v =>
          let next :=
            if v then
              match zget views j with
              | None => None
              | Some b =>
                  match copy_from b 0 (zlen b) (ap_data a) (ap_cur a) with
                  | None => None
                  | Some data => Some (Appended data (ap_cur a + zlen b) (ap_ends a))
                  end
              end
            else Some a in
          match next with
          | None => None
          | Some a =>
              match set_end w a r with
              | None => None
              | Some a => append_views_loop k w views validity (r + 1) (if v then j + 1 else j) a
              end
          end
      end
  end.

Definition append_views (w : Z) (views : list (list Z)) (n : Z) (validity : option (list Z)) (a : appended) : option appended :=
  append_views_loop (Z.to_nat n) w views validity 0 0 a.

(** ** Specification *)
Lemma zlen_nil_inv {A} (l : list A) : zlen l = 0 -> l = [].
Proof. destruct l as [|x l]; [done|]. rewrite zlen_cons. pose proof (zlen_nonneg l). lia. Qed.

Lemma zdrop_app_cons {A} (x : A) l t : zdrop 1 ((x :: l) ++ t) = l ++ t.
Proof. done. Qed.

(** The validity of [k] slots from [r]. *)
Fixpoint valids (validity : option (list Z)) (r : Z) (k : nat) : list bool :=
  match k with O => [] | S k => valid_at validity r :: valids validity (r + 1) k end.

Definition valid_count (bs : list bool) : Z := zlen (List.filter (fun b => b) bs).

(** Where each slot ends: null slots repeat the offset. *)
Fixpoint end_offsets (cur : Z) (bs : list bool) (vs : list (list Z)) : list Z :=
  match bs with
  | [] => []
  | false :: bs => cur :: end_offsets cur bs vs
  | true :: bs => match vs with [] => [] | v :: vs => cur + zlen v :: end_offsets (cur + zlen v) bs vs end
  end.

Lemma valid_count_cons b bs : valid_count (b :: bs) = (if b then 1 else 0) + valid_count bs.
Proof. unfold valid_count. cbn [List.filter]. destruct b; [rewrite zlen_cons|]; lia. Qed.

Lemma valid_count_nonneg bs : 0 <= valid_count bs.
Proof. apply zlen_nonneg. Qed.

(** A stored value is read in one way. *)
Lemma lp_cons_inj v v' x y : lp_ok v -> lp_ok v' ->
  le_bytes 4 (zlen v) ++ v ++ x = le_bytes 4 (zlen v') ++ v' ++ y -> v = v' /\ x = y.
Proof.
  intros Hv Hv' He. apply app_inj_1 in He as [Hlen He]; [|by rewrite !length_le_bytes].
  apply (f_equal le_val) in Hlen. rewrite !le_val_le_bytes, !wrap_small in Hlen
    by (unfold lp_ok in *; pose proof (zlen_nonneg v); pose proof (zlen_nonneg v'); lia).
  apply app_inj_1 in He; [done|]. unfold zlen in Hlen. lia.
Qed.

Section Append.
Context (w : Z) (validity : option (list Z)) (n : Z) (ends0 : list Z).
Context (Hval : forall v, validity = Some v -> bytes_ok v /\ n <= 8 * zlen v) (Hends : n <= zlen ends0).

(** The data holds [acc], the ends of the first [r] slots are [es]. *)
Record appending (a : appended) (acc es : list Z) (r : Z) : Prop := Appending {
  ag_data : produced (ap_data a) acc;
  ag_cur : ap_cur a = zlen acc;
  ag_ends : ap_ends a = es ++ zdrop r ends0;
  ag_slots : zlen es = r
}.

Definition appended_to (a a' : appended) (acc es : list Z) (r : Z) (k : nat) (vs : list (list Z)) : Prop :=
  appending a' (acc ++ concat vs) (es ++ List.map (to_off w) (end_offsets (zlen acc) (valids validity r k) vs)) (r + Z.of_nat k) /\
  zlen (ap_data a') = zlen (ap_data a).

Lemma slot_valid_spec r : 0 <= r < n -> slot_valid validity r = Some (valid_at validity r).
Proof using Hval. apply (slot_bit validity n Hval). Qed.

Lemma set_end_spec a acc es r : appending a acc es r -> r < n ->
  exists a', set_end w a r = Some a' /\ appending a' acc (es ++ [to_off w (zlen acc)]) (r + 1) /\ ap_data a' = ap_data a.
Proof using Hends.
  intros [Hd Hc He Hs] Hr. pose proof (zlen_nonneg es). unfold set_end. rewrite He, Hc, (store_next es [to_off w (zlen acc)] ends0 r 1) by (done || lia).
  eexists. split; [done|]. split; [|done]. constructor; cbn; [done|done|by rewrite <- app_assoc|].
  rewrite zlen_app. change (zlen [_]) with 1. lia.
Qed.

(** A slot taking the value [v] (none when null), then the slots after it. *)
Lemma appended_valid a a1 a' acc es r k v vs : appending a acc es r -> valid_at validity r = true ->
  zlen (ap_data a1) = zlen (ap_data a) ->
  appended_to a1 a' (acc ++ v) (es ++ [to_off w (zlen (acc ++ v))]) (r + 1) k vs -> appended_to a a' acc es r (S k) (v :: vs).
Proof using.
  intros Ha Hv Hl [Hr Hl']. split; [|lia]. cbn [valids concat end_offsets]. rewrite Hv. cbn [List.map].
  rewrite zlen_app in Hr. rewrite <- !app_assoc in Hr. cbn [app] in Hr. rewrite Nat2Z.inj_succ, <- Z.add_1_r.
  replace (r + (Z.of_nat k + 1)) with (r + 1 + Z.of_nat k) by lia. exact Hr.
Qed.

Lemma appended_null a a1 a' acc es r k vs : appending a acc es r -> valid_at validity r = false ->
  zlen (ap_data a1) = zlen (ap_data a) ->
  appended_to a1 a' acc (es ++ [to_off w (zlen acc)]) (r + 1) k vs -> appended_to a a' acc es r (S k) vs.
Proof using.
  intros Ha Hv Hl [Hr Hl']. split; [|lia]. cbn [valids end_offsets]. rewrite Hv. cbn [List.map].
  rewrite <- !app_assoc in Hr. cbn [app] in Hr. rewrite Nat2Z.inj_succ, <- Z.add_1_r.
  replace (r + (Z.of_nat k + 1)) with (r + 1 + Z.of_nat k) by lia. exact Hr.
Qed.

Lemma appended_none a acc es r : appending a acc es r -> appended_to a a acc es r 0 [].
Proof using. intros Ha. split; [|done]. cbn. by rewrite !app_nil_r, Z.add_0_r. Qed.

(** ** Views *)
Lemma append_views_loop_spec k views vs a acc es r j t : appending a acc es r -> 0 <= r -> r + Z.of_nat k <= n -> 0 <= j ->
  zdrop j views = vs ++ t -> zlen vs = valid_count (valids validity r k) ->
  zlen acc + zlen (concat vs) <= zlen (ap_data a) ->
  exists a', append_views_loop k w views validity r j a = Some a' /\ appended_to a a' acc es r k vs.
Proof using Hval Hends.
  revert vs a acc es r j. induction k as [|k IH]; intros vs a acc es r j Ha Hr Hk Hj Hd Hc Hf; cbn [append_views_loop].
  { assert (vs = []) as -> by (by apply zlen_nil_inv).
    exists a. split; [done|by apply appended_none]. }
  rewrite Nat2Z.inj_succ in Hk. rewrite slot_valid_spec by lia. cbn [valids] in Hc. rewrite valid_count_cons in Hc.
  destruct (valid_at validity r) eqn:Hv.
  - destruct vs as [|v vs]; [pose proof (valid_count_nonneg (valids validity (r + 1) k)); change (zlen []) with 0 in Hc; lia|].
    assert (Hg : zget views j = Some v).
    { rewrite <- (Z.add_0_r j), <- zget_zdrop, Hd by lia. done. }
    rewrite Hg. cbn [concat] in Hf. rewrite zlen_app in Hf. pose proof (zlen_nonneg (concat vs)). pose proof (zlen_nonneg v).
    destruct Ha as [Hpd Hcu Hen Hsl].
    destruct (copy_from_produced v 0 (zlen v) (ap_data a) acc Hpd) as (data & Hcp & Hdl & Hpd'); [lia..|].
    rewrite Hcu, Hcp. rewrite zdrop_0, ztake_all in Hpd' by lia.
    destruct (set_end_spec (Appended data (zlen acc + zlen v) (ap_ends a)) (acc ++ v) es r) as (a1 & -> & Ha1 & Hd1);
      [by constructor; cbn; rewrite ?zlen_app|lia|].
    destruct (IH vs a1 (acc ++ v) (es ++ [to_off w (zlen (acc ++ v))]) (r + 1) (j + 1)) as (a' & Heq & Hto); try done; try lia.
    + rewrite <- zdrop_zdrop, Hd by lia. by apply zdrop_app_cons.
    + rewrite zlen_cons in Hc. lia.
    + rewrite Hd1, zlen_app. cbn. lia.
    + exists a'. split; [done|]. eapply (appended_valid a a1); try done. by rewrite Hd1.
  - destruct (set_end_spec a acc es r Ha) as (a1 & -> & Ha1 & Hd1); [lia|].
    destruct (IH vs a1 acc (es ++ [to_off w (zlen acc)]) (r + 1) j) as (a' & Heq & Hto); try done; try lia; [by rewrite Hd1|].
    exists a'. split; [done|]. eapply (appended_null a a1); try done. by rewrite Hd1.
Qed.

(** ** Values copied with slack *)
Lemma copy_value_spec data src s len acc : produced data acc -> 0 <= s -> 0 <= len -> s + len <= zlen src ->
  zlen acc + len + kValueSlack <= zlen data ->
  exists data', copy_value data (zlen acc) src s len = Some data' /\ zlen data' = zlen data /\
    produced data' (acc ++ ztake len (zdrop s src)).
Proof using.
  intros Hp Hs Hl Hf Hr. unfold copy_value, kValueSlack in *. destruct (Z.leb_spec len 16), (Z.leb_spec 16 (zlen src - s)); cbn [andb].
  2-4: by apply copy_from_produced; try lia.
  destruct (copy_from_produced src s 16 data acc Hp) as (data' & Hc & Hdl & Hp'); [lia..|]. exists data'. split_and!; [done|done|].
  apply (produced_prefix _ _ (zdrop len (ztake 16 (zdrop s src)))). rewrite <- app_assoc.
  rewrite <- (ztake_ztake len 16) by lia. by rewrite ztake_zdrop.
Qed.

(** ** Length-prefixed values *)
Section Prefixed.
Context (l : list Z) (max_size : Z) (Hl : bytes_ok l) (Hls : zlen l < 2 ^ 64).

(** The next value, or none that fits. *)
Lemma append_prefixed_value_spec a acc es r p : appending a acc es r -> 0 <= p <= zlen l ->
  zlen acc + (zlen l - p) + kValueSlack <= zlen (ap_data a) ->
  exists x, append_prefixed_value l max_size p a = Some x /\
    match x with
    | inr (p', a') => exists v, lp_ok v /\ zdrop p l = le_bytes 4 (zlen v) ++ v ++ zdrop p' l /\ p + 4 + zlen v = p' /\ p' <= zlen l /\
        zlen acc + zlen v <= max_size /\ appending a' (acc ++ v) es r /\ zlen (ap_data a') = zlen (ap_data a)
    | inl _ => forall v t, lp_ok v -> zdrop p l = le_bytes 4 (zlen v) ++ v ++ t -> max_size < zlen acc + zlen v
    end.
Proof using Hl Hls.
  intros [Hd Hc He Hsl] Hp Hr. unfold append_prefixed_value. destruct (Z.ltb_spec (zlen l - p) 4) as [H4|H4].
  { eexists. split; [done|]. intros v t _ Heq. apply (f_equal zlen) in Heq. rewrite zlen_zdrop, !zlen_app in Heq by lia.
    unfold zlen in Heq at 2. rewrite length_le_bytes in Heq. pose proof (zlen_nonneg v). pose proof (zlen_nonneg t). lia. }
  destruct (load_le32_spec l p Hl ltac:(lia) ltac:(lia)) as (len & Hld & Hlen & Hdp). rewrite Hld. cbv zeta. rewrite wrap_small by lia.
  assert (Huniq : forall v t, lp_ok v -> zdrop p l = le_bytes 4 (zlen v) ++ v ++ t -> zlen v = len /\ zlen v <= zlen l - (p + 4)).
  { intros v t Hv Heq. destruct (load_le32_prefix l p v _ ltac:(lia) Hv Heq ltac:(lia)) as [Hld' Hd'].
    split; [congruence|]. apply (f_equal zlen) in Hd'. rewrite zlen_zdrop, zlen_app in Hd' by lia.
    pose proof (zlen_nonneg t). pose proof (zlen_nonneg v). lia. }
  destruct (Z.ltb_spec (zlen l - (p + 4)) len) as [Hx|Hx].
  { eexists. split; [done|]. intros v t Hv Heq. apply Huniq in Heq; [lia|done]. }
  destruct (copy_value_spec (ap_data a) l (p + 4) len acc Hd) as (data & Hcv & Hdl & Hpd); [lia..|]. rewrite Hc, Hcv.
  set (v := ztake len (zdrop (p + 4) l)) in *. assert (Hv : zlen v = len) by (unfold v; rewrite zlen_ztake, zlen_zdrop; lia).
  destruct (Z.ltb_spec max_size (zlen acc + len)); eexists; (split; [done|]).
  - intros v' t Hv' Heq. apply Huniq in Heq; [lia|done].
  - exists v. rewrite Hv. unfold lp_ok. split_and!; try lia; [|constructor; cbn; try done; rewrite zlen_app; lia|done].
    rewrite Hdp. f_equal. unfold v. by rewrite <- (zdrop_zdrop len), ztake_zdrop by lia.
Qed.

Lemma append_prefixed_loop_spec k a acc es r p : appending a acc es r -> 0 <= r -> r + Z.of_nat k <= n -> 0 <= p <= zlen l ->
  zlen acc + (zlen l - p) + kValueSlack <= zlen (ap_data a) ->
  exists x, append_prefixed_loop k w l validity max_size r p a = Some x /\
    match x with
    | inr a' => exists vs t, zlen vs = valid_count (valids validity r k) /\ Forall lp_ok vs /\ zdrop p l = lp_bytes vs ++ t /\
        (vs = [] \/ zlen acc + zlen (concat vs) <= max_size) /\ appended_to a a' acc es r k vs
    | inl _ => forall vs t, zlen vs = valid_count (valids validity r k) -> Forall lp_ok vs -> zdrop p l = lp_bytes vs ++ t ->
        max_size < zlen acc + zlen (concat vs)
    end.
Proof using Hl Hls Hval Hends.
  revert a acc es r p. induction k as [|k IH]; intros a acc es r p Ha Hr Hk Hp Hf; cbn [append_prefixed_loop].
  { eexists. split; [done|]. exists [], (zdrop p l). split_and!; [done|constructor|done|by left|by apply appended_none]. }
  rewrite Nat2Z.inj_succ in Hk. rewrite slot_valid_spec by lia. cbn [valids]. rewrite valid_count_cons.
  destruct (valid_at validity r) eqn:Hv.
  - destruct (append_prefixed_value_spec a acc es r p Ha Hp Hf) as (x & -> & Hx). destruct x as [e|[p1 a1]].
    { eexists. split; [done|]. intros [|v vs] t Hc Hok Heq.
      - change (zlen []) with 0 in Hc. match type of Hc with context [valid_count ?y] => pose proof (valid_count_nonneg y) end. lia.
      - apply Forall_cons in Hok as [Hv1 _]. cbn [lp_bytes List.map concat] in *. rewrite <- !app_assoc in Heq.
        specialize (Hx v _ Hv1 Heq). rewrite zlen_app. pose proof (zlen_nonneg (concat vs)). lia. }
    destruct Hx as (v & Hvok & Hdp & Hp1 & Hp1l & Hmax & Ha1 & Hl1). pose proof (zlen_nonneg v).
    destruct (set_end_spec a1 (acc ++ v) es r Ha1) as (a2 & -> & Ha2 & Hd2); [lia|].
    destruct (IH a2 (acc ++ v) (es ++ [to_off w (zlen (acc ++ v))]) (r + 1) p1) as (y & Hy & Hres); try done; try lia;
      [rewrite Hd2, zlen_app; lia|].
    exists y. split; [done|]. destruct y as [e|a'].
    + intros [|v' vs] t Hc Hok Heq; [change (zlen []) with 0 in Hc; match type of Hc with context [valid_count ?z] => pose proof (valid_count_nonneg z) end; lia|].
      apply Forall_cons in Hok as [Hv' Hok]. cbn [lp_bytes List.map concat] in *. rewrite <- !app_assoc in Heq.
      rewrite Hdp in Heq. destruct (lp_cons_inj v v' _ _ Hvok Hv' Heq) as [<- Heq'].
      rewrite zlen_cons in Hc. specialize (Hres vs t ltac:(lia) Hok Heq').
      rewrite zlen_app in Hres. rewrite zlen_app. lia.
    + destruct Hres as (vs & t & Hc & Hok & Heq & Hm & Hto). exists (v :: vs), t. rewrite zlen_cons. split_and!; [lia|by constructor| | |].
      * rewrite Hdp, Heq. cbn [lp_bytes List.map concat]. by rewrite <- !app_assoc.
      * right. cbn [concat]. rewrite zlen_app. rewrite zlen_app in Hm. destruct Hm as [-> |Hm]; [change (zlen (concat [])) with 0; lia|lia].
      * eapply (appended_valid a a2); try done. by rewrite Hd2.
  - destruct (set_end_spec a acc es r Ha) as (a1 & Hse & Ha1 & Hd1); [lia|]. cbn beta iota delta [kernel_ok]. rewrite Hse.
    destruct (IH a1 acc (es ++ [to_off w (zlen acc)]) (r + 1) p) as (y & Hy & Hres); try done; try lia; [by rewrite Hd1|].
    exists y. split; [done|]. rewrite Z.add_0_l. destruct y as [e|a']; [done|].
    destruct Hres as (vs & t & Hc & Hok & Heq & Hm & Hto). exists vs, t. split_and!; try done.
    eapply (appended_null a a1); try done. by rewrite Hd1.
Qed.
End Prefixed.

(** ** Gathered values *)
Section Gathered.
Context (dict dict_offsets : list Z) (dict_size : Z).

Definition off_at (x : Z) : Z := default 0 (zget dict_offsets x).

(** Value [x] of the dictionary. *)
Definition dict_value (x : Z) : list Z := ztake (off_at (x + 1) - off_at x) (zdrop (off_at x) dict).

(** Offsets that stay within the dictionary, fewer than 2^32 values. *)
Record dict_ok : Prop := DictOk {
  dk_count : zlen dict_offsets = dict_size + 1 /\ 0 <= dict_size < 2 ^ 32;
  dk_bytes : zlen dict < 2 ^ 62;
  dk_offsets : forall x, 0 <= x < dict_size -> 0 <= off_at x <= off_at (x + 1) /\ off_at (x + 1) <= zlen dict
}.

Lemma dict_value_spec x : dict_ok -> 0 <= x < dict_size ->
  zget dict_offsets x = Some (off_at x) /\ zget dict_offsets (u32 (x + 1)) = Some (off_at (x + 1)) /\
  u64 (off_at (x + 1) - off_at x) = zlen (dict_value x) /\ zlen (dict_value x) = off_at (x + 1) - off_at x.
Proof using.
  intros [[Hc Hs] Hb Ho] Hx. specialize (Ho x Hx). rewrite (wrap_small 32 (x + 1)) by lia.
  assert (Hg : forall y, 0 <= y <= dict_size -> zget dict_offsets y = Some (off_at y)).
  { intros y Hy. unfold off_at. by destruct (proj2 (zget_is_Some dict_offsets y) ltac:(lia)) as [o ->]. }
  assert (Hz : zlen (dict_value x) = off_at (x + 1) - off_at x) by (unfold dict_value; rewrite zlen_ztake, zlen_zdrop; lia).
  rewrite !Hg, Hz, wrap_small by lia. done.
Qed.

Lemma append_gathered_loop_spec k idx xs a acc es r j t : dict_ok -> appending a acc es r -> 0 <= r -> r + Z.of_nat k <= n -> 0 <= j ->
  zdrop j idx = xs ++ t -> zlen xs = valid_count (valids validity r k) -> Forall (fun x => 0 <= x < dict_size) xs ->
  zlen acc + zlen (concat (List.map dict_value xs)) + kValueSlack <= zlen (ap_data a) ->
  exists a', append_gathered_loop k w dict dict_offsets idx validity r j a = Some a' /\
    appended_to a a' acc es r k (List.map dict_value xs).
Proof using Hval Hends.
  intros Hdk. revert xs a acc es r j. induction k as [|k IH]; intros xs a acc es r j Ha Hr Hk Hj Hd Hc Hx Hf; cbn [append_gathered_loop].
  { assert (xs = []) as -> by (by apply zlen_nil_inv). exists a. split; [done|by apply appended_none]. }
  rewrite Nat2Z.inj_succ in Hk. rewrite slot_valid_spec by lia. cbn [valids] in Hc. rewrite valid_count_cons in Hc.
  destruct (valid_at validity r) eqn:Hv.
  - destruct xs as [|x xs]; [pose proof (valid_count_nonneg (valids validity (r + 1) k)); change (zlen []) with 0 in Hc; lia|].
    apply Forall_cons in Hx as [Hx0 Hx].
    assert (Hg : zget idx j = Some x) by (rewrite <- (Z.add_0_r j), <- zget_zdrop, Hd by lia; done).
    destruct (dict_value_spec x Hdk Hx0) as (Ho1 & Ho2 & Hlen & Hlen'). destruct (dk_offsets Hdk x Hx0) as [Hoo Hod].
    unfold gathered_value. rewrite Hg, Ho1, Ho2, Hlen. cbv zeta. cbn [List.map concat] in *. rewrite zlen_app in Hf.
    pose proof (zlen_nonneg (concat (List.map dict_value xs))). destruct Ha as [Hpd Hcu Hen Hsl].
    destruct (copy_value_spec (ap_data a) dict (off_at x) (zlen (dict_value x)) acc Hpd) as (data & Hcp & Hdl & Hpd'); [lia..|].
    rewrite Hlen' in Hpd' at 1. fold (dict_value x) in Hpd'. rewrite Hcu, Hcp.
    destruct (set_end_spec (Appended data (zlen acc + zlen (dict_value x)) (ap_ends a)) (acc ++ dict_value x) es r)
      as (a1 & -> & Ha1 & Hd1); [by constructor; cbn; rewrite ?zlen_app|lia|].
    destruct (IH xs a1 (acc ++ dict_value x) (es ++ [to_off w (zlen (acc ++ dict_value x))]) (r + 1) (j + 1))
      as (a' & Heq & Hto); try done; try lia.
    + rewrite <- zdrop_zdrop, Hd by lia. by apply zdrop_app_cons.
    + rewrite zlen_cons in Hc. lia.
    + rewrite Hd1, zlen_app. cbn. lia.
    + exists a'. split; [done|]. eapply (appended_valid a a1); try done. by rewrite Hd1.
  - destruct (set_end_spec a acc es r Ha) as (a1 & Hse & Ha1 & Hd1); [lia|]. rewrite Hse.
    destruct (IH xs a1 acc (es ++ [to_off w (zlen acc)]) (r + 1) j) as (a' & Heq & Hto); try done; try lia; [by rewrite Hd1|].
    exists a'. split; [done|]. eapply (appended_null a a1); try done. by rewrite Hd1.
Qed.

Lemma gathered_size_spec xs total : dict_ok -> Forall (fun x => 0 <= x < dict_size) xs -> 0 <= total ->
  total + zlen (concat (List.map dict_value xs)) < 2 ^ 64 ->
  gathered_size dict_offsets xs total = Some (total + zlen (concat (List.map dict_value xs))).
Proof using.
  intros Hdk Hx. revert total. induction Hx as [|x xs Hx0 Hx IH]; intros total Ht Hov; cbn [gathered_size List.map concat].
  { change (zlen []) with 0. by rewrite Z.add_0_r. }
  destruct (dict_value_spec x Hdk Hx0) as (Ho1 & Ho2 & Hlen & _). cbn [List.map concat] in Hov. rewrite zlen_app in *.
  pose proof (zlen_nonneg (dict_value x)). pose proof (zlen_nonneg (concat (List.map dict_value xs))).
  rewrite Ho1, Ho2, Hlen, wrap_small, IH by lia. f_equal. lia.
Qed.
End Gathered.
End Append.

Lemma check_indices_spec idx ds : check_indices idx ds = true <-> Forall (fun i => i < ds) idx.
Proof.
  unfold check_indices. assert (Hgo : forall b, fold_left (fun bad i => Z.lor bad (if ds <=? i then 1 else 0)) idx b = 0 <->
    b = 0 /\ Forall (fun i => i < ds) idx).
  { induction idx as [|x idx IH]; intros b; cbn [fold_left]; [by intuition|]. rewrite IH, Forall_cons, Z.lor_eq_0_iff.
    destruct (Z.leb_spec ds x); intuition lia. }
  rewrite Z.eqb_eq, Hgo. intuition.
Qed.

(** ** Widening *)
Lemma mapM_seqZ_list {A} (f : Z -> option A) n l : 0 <= n -> zlen l = n -> (forall i, 0 <= i < n -> f i = zget l i) ->
  mapM f (seqZ 0 n) = Some l.
Proof.
  intros Hn Hl Hf. apply mapM_Some_2, Forall2_same_length_lookup. split.
  - rewrite length_seqZ. unfold zlen in Hl. lia.
  - intros i x y Hx Hy. apply lookup_seqZ in Hx as [-> Hi]. rewrite Hf by lia. unfold zget.
    destruct (Z.ltb_spec (0 + Z.of_nat i) 0); [lia|]. by replace (Z.to_nat (0 + Z.of_nat i)) with i by lia.
Qed.

Lemma sext_value k width v : 0 < k <= width -> 0 <= v < 2 ^ (8 * k) ->
  sint (8 * width) (v + 2 ^ (8 * k) * (if 2 ^ (8 * k - 1) <=? v then 2 ^ (8 * (width - k)) - 1 else 0)) = sint (8 * k) v.
Proof.
  intros Hk Hv. unfold sint. set (P := 2 ^ (8 * k - 1)) in *. set (Q := 2 ^ (8 * (width - k))).
  assert (HP : 2 ^ (8 * k) = 2 * P) by (unfold P; rewrite <- Z.pow_succ_r by lia; f_equal; lia).
  assert (HPQ : 2 ^ (8 * width) = 2 * (P * Q)).
  { unfold P, Q. rewrite <- Z.pow_add_r, <- Z.pow_succ_r by lia. f_equal. lia. }
  assert (HPQ1 : 2 ^ (8 * width - 1) = P * Q) by (unfold P, Q; rewrite <- Z.pow_add_r by lia; f_equal; lia).
  assert (0 < P) by (apply Z.pow_pos_nonneg; lia). assert (0 < Q) by (apply Z.pow_pos_nonneg; lia).
  rewrite HPQ, HPQ1, HP in *. destruct (Z.leb_spec P v), (Z.ltb_spec v P); try lia.
  - destruct (Z.ltb_spec (v + 2 * P * (Q - 1)) (P * Q)); nia.
  - destruct (Z.ltb_spec (v + 2 * P * 0) (P * Q)); nia.
Qed.

Lemma le_val_ones n : le_val (replicate n 255) = 2 ^ (8 * Z.of_nat n) - 1.
Proof.
  induction n as [|n IH]; [done|]. cbn [replicate le_val]. rewrite IH, Nat2Z.inj_succ.
  replace (8 * Z.succ (Z.of_nat n)) with (8 + 8 * Z.of_nat n) by lia. rewrite Z.pow_add_r by lia. lia.
Qed.

(** [k] value bytes followed by copies of the sign byte. *)
Lemma sext_bytes body k width (neg : bool) : zlen body = k -> 0 < k <= width -> bytes_ok body ->
  neg = (2 ^ (8 * k - 1) <=? le_val body) ->
  sint (8 * width) (le_val (body ++ replicate (Z.to_nat (width - k)) (if neg then 255 else 0))) = sint (8 * k) (le_val body).
Proof.
  intros Hl Hk Hb Hn. rewrite le_val_app. fold (zlen body). rewrite Hl. pose proof (le_val_range body Hb) as Hr.
  fold (zlen body) in Hr. rewrite Hl in Hr. rewrite <- (sext_value k width (le_val body)), <- Hn by done.
  do 3 f_equal. destruct neg; [rewrite le_val_ones, Z2Nat.id by lia; done|apply le_val_zeros].
Qed.

(** The top byte holds the sign. *)
Lemma be_sign b t : bytes_ok (b :: t) ->
  negb (Z.land b 128 =? 0) = (2 ^ (8 * zlen (b :: t) - 1) <=? be_val (b :: t)).
Proof.
  intros [Hb Ht]%Forall_cons. rewrite be_val_cons, zlen_cons. fold (zlen t). pose proof (zlen_nonneg t).
  assert (Htr : 0 <= be_val t < 2 ^ (8 * zlen t)).
  { unfold be_val, zlen. rewrite <- (length_reverse t). apply le_val_range. by apply Forall_reverse. }
  replace (8 * (zlen t + 1) - 1) with (7 + 8 * zlen t) by lia. rewrite Z.pow_add_r by lia.
  assert (Hsgn : negb (Z.land b 128 =? 0) = (128 <=? b)).
  { apply (eqb_prop _ _). refine (byte_forall (fun b => eqb (negb (Z.land b 128 =? 0)) (128 <=? b)) _ b Hb). by vm_compute. }
  rewrite Hsgn. assert (0 < 2 ^ (8 * zlen t)) by (apply Z.pow_pos_nonneg; lia).
  destruct (Z.leb_spec 128 b), (Z.leb_spec (2 ^ 7 * 2 ^ (8 * zlen t)) (b * 2 ^ (8 * zlen t) + be_val t)); try done; nia.
Qed.

(** Widening keeps the value. [sign_extend_be] turns the [k] big-endian
    two's-complement bytes it is given (up to the target width) into
    little-endian bytes of the same signed value, and [sign_extend_le] does so
    for a native signed integer. *)
Theorem sign_extend_value src width : bytes_ok src -> 0 < zlen src <= width ->
  (exists out, sign_extend_be src (zlen src) width = Some out /\ zlen out = width /\
     sint (8 * width) (le_val out) = sint (8 * zlen src) (be_val src)) /\
  (forall v, - 2 ^ (8 * zlen src - 1) <= v < 2 ^ (8 * zlen src - 1) ->
     exists out, sign_extend_le (zlen src) v width = Some out /\ zlen out = width /\ sint (8 * width) (le_val out) = v).
Proof.
  intros Hs Hk. split.
  - destruct src as [|b t]; [change (zlen []) with 0 in Hk; lia|]. unfold sign_extend_be. set (l := b :: t) in *. set (k := zlen l) in *.
    destruct (Z.eqb_spec k 0); [lia|]. change (zget l 0) with (Some b). cbn beta iota zeta.
    set (neg := 2 ^ (8 * k - 1) <=? be_val l). assert (Hneg : negb (Z.land b 128 =? 0) = neg) by (by apply be_sign).
    assert (Hsig : (if Z.land b 128 =? 0 then 0 else 255) = if neg then 255 else 0) by (rewrite <- Hneg; by destruct (Z.land b 128 =? 0)).
    rewrite Hsig. exists (reverse l ++ replicate (Z.to_nat (width - k)) (if neg then 255 else 0)).
    assert (Hrl : zlen (reverse l) = k) by (unfold zlen; by rewrite length_reverse). split_and!.
    + apply mapM_seqZ_list; [lia|rewrite zlen_app, zlen_replicate, Hrl; lia|]. intros i Hi.
      destruct (Z.ltb_spec i k).
      * rewrite zget_app_l by lia. unfold zget. destruct (Z.ltb_spec i 0), (Z.ltb_spec (k - 1 - i) 0); try lia.
        rewrite reverse_lookup by (unfold k, zlen in *; lia). f_equal. unfold k, zlen in *. lia.
      * rewrite zget_app_r, Hrl, zget_replicate by lia. destruct (Z.leb_spec 0 (i - k)), (Z.ltb_spec (i - k) (width - k)); done || lia.
    + rewrite zlen_app, zlen_replicate, Hrl. lia.
    + rewrite (sext_bytes _ k) by (done || (by apply Forall_reverse)). done.
  - intros v Hv. set (k := zlen src) in *. unfold sign_extend_le. destruct (Z.ltb_spec width k); [lia|]. eexists. split; [done|].
    assert (Hbl : zlen (le_bytes (Z.to_nat k) v) = k) by (unfold zlen; rewrite length_le_bytes; lia).
    assert (Hle : le_val (le_bytes (Z.to_nat k) v) = wrap (8 * k) v) by (rewrite le_val_le_bytes, Z2Nat.id by lia; done).
    assert (HP : 2 ^ (8 * k) = 2 * 2 ^ (8 * k - 1)) by (rewrite <- Z.pow_succ_r by lia; f_equal; lia).
    assert (Hw : wrap (8 * k) v = if v <? 0 then v + 2 ^ (8 * k) else v).
    { unfold wrap. destruct (Z.ltb_spec v 0); [symmetry; apply (Z.mod_unique _ _ (-1)); lia|apply Z.mod_small; lia]. }
    split; [rewrite zlen_app, zlen_replicate, Hbl; lia|]. rewrite (sext_bytes _ k); [|done|done|apply le_bytes_ok|].
    + rewrite Hle, Hw. unfold sint. destruct (Z.ltb_spec v 0), (Z.ltb_spec (v + 2 ^ (8 * k)) (2 ^ (8 * k - 1))), (Z.ltb_spec v (2 ^ (8 * k - 1))); lia.
    + rewrite Hle, Hw. destruct (Z.ltb_spec v 0); symmetry; [apply Z.leb_le|apply Z.leb_gt]; lia.
Qed.

Lemma sign_extend_value_witness :
  (exists out, sign_extend_be [255; 254] 2 16 = Some out /\ zlen out = 16 /\ sint (8 * 16) (le_val out) = sint 16 (be_val [255; 254])) /\
  (forall v, - 2 ^ 15 <= v < 2 ^ 15 ->
     exists out, sign_extend_le 2 v 16 = Some out /\ zlen out = 16 /\ sint (8 * 16) (le_val out) = v).
Proof. exact (sign_extend_value [255; 254] 16 ltac:(repeat constructor; done) ltac:(split; by vm_compute)). Defined.

(** ** The append kernels *)

(** The caller's buffers: [n] slots, validity for them, the data written so far. *)
Record append_ok (n : Z) (validity : option (list Z)) (a : appended) : Prop := AppendOk {
  ak_slots : 0 <= n <= zlen (ap_ends a);
  ak_valid : forall v, validity = Some v -> bytes_ok v /\ n <= 8 * zlen v;
  ak_cur : 0 <= ap_cur a <= zlen (ap_data a)
}.

(** [a'] is [a] with the values [vs] in its valid slots. *)
Record append_result (w n : Z) (validity : option (list Z)) (vs : list (list Z)) (a a' : appended) : Prop := AppendResult {
  ar_cur : ap_cur a' = ap_cur a + zlen (concat vs);
  ar_data : ztake (ap_cur a') (ap_data a') = ztake (ap_cur a) (ap_data a) ++ concat vs;
  ar_size : zlen (ap_data a') = zlen (ap_data a);
  ar_ends : ap_ends a' = List.map (to_off w) (end_offsets (ap_cur a) (valids validity 0 (Z.to_nat n)) vs) ++ zdrop n (ap_ends a)
}.

Lemma append_start n validity a : append_ok n validity a ->
  appending (ap_ends a) a (ztake (ap_cur a) (ap_data a)) [] 0 /\ zlen (ztake (ap_cur a) (ap_data a)) = ap_cur a.
Proof.
  intros [_ _ Hc]. assert (Hz : zlen (ztake (ap_cur a) (ap_data a)) = ap_cur a) by (rewrite zlen_ztake; lia).
  split; [|done]. constructor; [|done|by rewrite zdrop_0|done]. split; rewrite Hz; [lia|done].
Qed.

Lemma append_finish w n validity vs a a' : append_ok n validity a ->
  appended_to w validity (ap_ends a) a a' (ztake (ap_cur a) (ap_data a)) [] 0 (Z.to_nat n) vs -> append_result w n validity vs a a'.
Proof.
  intros Hok [[[Hle Hpd] Hcu Hen Hsl] Hl]. destruct (append_start n validity a Hok) as [_ Hz]. pose proof (ak_slots _ _ _ Hok).
  rewrite zlen_app, Hz in Hcu. constructor; [done| |done|].
  - rewrite Hcu. rewrite zlen_app, Hz in Hpd. done.
  - rewrite Hen, Hz, Z.add_0_l, Z2Nat.id by lia. done.
Qed.

Lemma append_views_result w n validity views a : append_ok n validity a ->
  zlen views = valid_count (valids validity 0 (Z.to_nat n)) -> ap_cur a + zlen (concat views) <= zlen (ap_data a) ->
  exists a', append_views w views n validity a = Some a' /\ append_result w n validity views a a'.
Proof.
  intros Hok Hn Hf. pose proof Hok as [Hs Hv Hc]. destruct (append_start n validity a Hok) as [Ha Hz].
  destruct (append_views_loop_spec w validity n (ap_ends a) Hv ltac:(lia) (Z.to_nat n) views views a _ [] 0 0 [] Ha) as (a' & Heq & Hto);
    try lia; [by rewrite zdrop_0, app_nil_r|].
  exists a'. split; [done|]. by apply append_finish.
Qed.

(** The one-pass append is parse, then append. On every page and validity,
    with the documented slack, [append_length_prefixed] stays within its
    memory (the 16-byte copies included). When it succeeds the page begins
    with one stored value per valid slot, and data, size and end offsets are
    exactly those [append_views] produces from these values: the values back
    to back behind the old data, null slots repeating the offset. When it
    fails, no such values begin the page or they exceed the size limit. *)
Theorem append_length_prefixed_equiv w l n validity a max_size :
  append_ok n validity a -> bytes_ok l -> zlen l < 2 ^ 64 -> ap_cur a + zlen l + kValueSlack <= zlen (ap_data a) ->
  let nn := valid_count (valids validity 0 (Z.to_nat n)) in
  exists x, append_length_prefixed w l n validity a max_size = Some x /\
    match x with
    | inr a' => exists vs t a2, zlen vs = nn /\ Forall lp_ok vs /\ l = lp_bytes vs ++ t /\
        append_result w n validity vs a a' /\
        append_views w vs n validity a = Some a2 /\ append_result w n validity vs a a2
    | inl _ => forall vs t, zlen vs = nn -> Forall lp_ok vs -> l = lp_bytes vs ++ t -> max_size < ap_cur a + zlen (concat vs)
    end.
Proof.
  intros Hok Hl Hls Hroom nn. subst nn. pose proof Hok as [Hs Hv Hc]. destruct (append_start n validity a Hok) as [Ha Hz].
  pose proof (zlen_nonneg l). unfold append_length_prefixed.
  destruct (append_prefixed_loop_spec w validity n (ap_ends a) Hv ltac:(lia) l max_size Hl Hls (Z.to_nat n) a _ [] 0 0 Ha)
    as (x & -> & Hx); [lia..|]. exists x. split; [done|]. rewrite zdrop_0, Hz in Hx. destruct x as [e|a']; [exact Hx|].
  destruct Hx as (vs & t & Hn & Hlp & He & _ & Hto).
  destruct (append_views_result w n validity vs a Hok Hn) as (a2 & Ha2 & Hr2).
  { assert (zlen (concat vs) <= zlen (lp_bytes vs)).
    { clear. induction vs as [|v vs IH]; [done|]. change (lp_bytes (v :: vs)) with ((le_bytes 4 (zlen v) ++ v) ++ lp_bytes vs).
      cbn [concat]. rewrite !zlen_app. pose proof (zlen_nonneg (le_bytes 4 (zlen v))). lia. }
    apply (f_equal zlen) in He. rewrite zlen_app in He. pose proof (zlen_nonneg t). unfold kValueSlack in Hroom. lia. }
  exists vs, t, a2. split_and!; try done. by apply append_finish.
Qed.

Lemma append_length_prefixed_equiv_witness :
  let a := Appended (replicate 40 9) 1 [0; 0; 0; 7] in
  exists x, append_length_prefixed 32 [2; 0; 0; 0; 65; 66; 0; 0; 0; 0] 3 (Some [5]) a 100 = Some x /\
    match x with
    | inr a' => exists vs t a2, zlen vs = 2 /\ Forall lp_ok vs /\ [2; 0; 0; 0; 65; 66; 0; 0; 0; 0] = lp_bytes vs ++ t /\
        append_result 32 3 (Some [5]) vs a a' /\ append_views 32 vs 3 (Some [5]) a = Some a2 /\ append_result 32 3 (Some [5]) vs a a2
    | inl _ => forall vs t, zlen vs = 2 -> Forall lp_ok vs -> [2; 0; 0; 0; 65; 66; 0; 0; 0; 0] = lp_bytes vs ++ t -> 100 < 1 + zlen (concat vs)
    end.
Proof.
  refine (append_length_prefixed_equiv 32 [2; 0; 0; 0; 65; 66; 0; 0; 0; 0] 3 (Some [5]) (Appended (replicate 40 9) 1 [0; 0; 0; 7]) 100
    _ ltac:(repeat constructor; done) ltac:(by vm_compute) ltac:(by vm_compute)).
  constructor; [split; by vm_compute| |split; by vm_compute]. intros v [= <-]. split; [repeat constructor; done|by vm_compute].
Defined.

(** A dictionary gather. Indices that pass [check_indices], over
    dictionary offsets within the dictionary: [gathered_size] is the size of
    the selected values, and with that much room and the slack
    [append_gathered] puts exactly those values behind the old data with
    their end offsets, without touching memory outside its buffers. *)
Theorem append_gathered_exact w dict dict_offsets dict_size idx n validity a :
  append_ok n validity a -> dict_ok dict dict_offsets dict_size -> Forall (fun x => 0 <= x) idx ->
  check_indices idx dict_size = true -> zlen idx = valid_count (valids validity 0 (Z.to_nat n)) ->
  let vs := List.map (dict_value dict dict_offsets) idx in
  ap_cur a + zlen (concat vs) + kValueSlack <= zlen (ap_data a) -> zlen (ap_data a) < 2 ^ 64 ->
  gathered_size dict_offsets idx 0 = Some (zlen (concat vs)) /\
  exists a', append_gathered w dict dict_offsets idx n validity a = Some a' /\ append_result w n validity vs a a'.
Proof.
  intros Hok Hdk Hnn Hci Hn vs Hroom Hov. subst vs. pose proof Hok as [Hs Hv Hc]. destruct (append_start n validity a Hok) as [Ha Hz].
  apply check_indices_spec in Hci. assert (Hx : Forall (fun x => 0 <= x < dict_size) idx).
  { apply List.Forall_forall. intros x Hin. rewrite List.Forall_forall in Hnn, Hci. split; [by apply Hnn|by apply Hci]. }
  pose proof (zlen_nonneg (concat (List.map (dict_value dict dict_offsets) idx))). unfold kValueSlack in *.
  split; [rewrite (gathered_size_spec dict dict_offsets dict_size) by (done || lia); f_equal; lia|].
  destruct (append_gathered_loop_spec w validity n (ap_ends a) Hv ltac:(lia) dict dict_offsets dict_size (Z.to_nat n) idx idx a _ [] 0 0 [] Hdk Ha)
    as (a' & Heq & Hto); try done; try (unfold kValueSlack; lia); [by rewrite zdrop_0, app_nil_r|].
  exists a'. split; [done|]. by apply append_finish.
Qed.

Lemma append_gathered_exact_witness :
  let a := Appended (replicate 40 9) 0 [0; 0] in
  gathered_size [0; 2; 5] [1; 0] 0 = Some 5 /\
  exists a', append_gathered 32 [1; 2; 3; 4; 5] [0; 2; 5] [1; 0] 2 None a = Some a' /\
    append_result 32 2 None (List.map (dict_value [1; 2; 3; 4; 5] [0; 2; 5]) [1; 0]) a a'.
Proof.
  refine (append_gathered_exact 32 [1; 2; 3; 4; 5] [0; 2; 5] 2 [1; 0] 2 None (Appended (replicate 40 9) 0 [0; 0])
    _ _ ltac:(repeat constructor; lia) eq_refl eq_refl ltac:(by vm_compute) ltac:(by vm_compute)).
  - constructor; [split; by vm_compute|done|split; by vm_compute].
  - constructor; [split; [done|lia]|by vm_compute|]. intros x Hx. assert (x = 0 \/ x = 1) as [-> | ->] by lia; split_and!; by vm_compute.
Defined.
