(* ===== verification/Stats.v ===== *)
(** * Column statistics (columnar_encode.hpp section 50)

    [compute_stats] over an arithmetic type and [compute_binary_stats] over
    byte strings. What the kernels need of a value type is the class
    [ColumnOrder]; integers and byte strings are instances. *)
From S2P Require Import Prelude Columnar Nulls Dremel Levels Append.

(** A type's [operator<]: a strict order (for floating point, NaNs are
    unordered). *)
Class ColumnOrder {T : Type} (less : T -> T -> bool) := {
  less_irrefl x : less x x = false;
  less_trans x y z : less x y = true -> less y z = true -> less x z = true
}.

(** The zeros of a floating-point type: +0, -0 and [v == 0]. *)
Record zeros (T : Type) := Zeros { pos_zero : T; neg_zero : T; is_zero : T -> bool }.
Arguments Zeros {T}. Arguments pos_zero {T}. Arguments neg_zero {T}. Arguments is_zero {T}.

(** An arithmetic type: its order, its NaNs ([v != v]) and, for floating
    point, its zeros. *)
Record arith (T : Type) := Arith {
  at_less : T -> T -> bool;
  at_nan : T -> bool;
  at_zero : option (zeros T)
}.
Arguments Arith {T}. Arguments at_less {T}. Arguments at_nan {T}. Arguments at_zero {T}.

Definition int_arith : arith Z := Arith Z.ltb (fun _ => false) None.

Record value_stats (T : Type) := ValueStats { minmax : option (T * T); null_count : Z }.
Arguments ValueStats {T}. Arguments minmax {T}. Arguments null_count {T}.

Section Stats.
Context {T : Type} (A : arith T).

(** [has_minmax], [min] and [max] after one more value. *)
Definition widen (less : T -> T -> bool) (m : option (T * T)) (v : T) : option (T * T) :=
  match m with
  | None => Some (v, v)
  | Some (lo, hi) => Some (if less v lo then v else lo, if less hi v then v else hi)
  end.

Fixpoint stats_loop (k : nat) (values : list T) (validity : option (list Z)) (i : Z) (s : value_stats T) :
    option (value_stats T) :=
  match k with
  | O => Some s
  | S k =>
      match slot_valid validity i with
      | None => None
      | Some false => stats_loop k values validity (i + 1) (ValueStats (minmax s) (null_count s + 1))
      | Some true =>
          match zget values i with
          | None => None
          | Some v =>
              if at_nan A v then stats_loop k values validity (i + 1) s
              else stats_loop k values validity (i + 1) (ValueStats (widen (at_less A) (minmax s) v) (null_count s))
          end
      end
  end.

(** A zero minimum is reported as -0, a zero maximum as +0. *)
Definition fix_zeros (m : option (T * T)) : option (T * T) :=
  match at_zero A, m with
  | Some z, Some (lo, hi) => Some (if is_zero z lo then neg_zero z else lo, if is_zero z hi then pos_zero z else hi)
  | _, _ => m
  end.

Definition compute_stats (values : list T) (validity : option (list Z)) (n : Z) : option (value_stats T) :=
  match stats_loop (Z.to_nat n) values validity 0 (ValueStats None 0) with
  | None => None
  | Some s => Some (ValueStats (fix_zeros (minmax s)) (null_count s))
  end.
End Stats.

(** ** Byte strings *)

(** [std::memcmp] of the common prefix, then the lengths. *)
Fixpoint memcmp (a b : list Z) : comparison :=
  match a, b with
  | x :: a, y :: b => match x ?= y with Eq => memcmp a b | c => c end
  | _, _ => Eq
  end.

Definition bytes_less (a b : list Z) : bool :=
  let n := Z.min (zlen a) (zlen b) in
  let c := if n =? 0 then Eq else memcmp (ztake n a) (ztake n b) in
  match c with Lt => true | Eq => zlen a <? zlen b | Gt => false end.

Definition compute_binary_stats (views : list (list Z)) : option (list Z * list Z) :=
  fold_left (widen bytes_less) views None.

(** ** Orders *)
#[export] Instance Z_order : ColumnOrder Z.ltb.
Proof. split; intros *; rewrite ?Z.ltb_lt, ?Z.ltb_ge; lia. Qed.

(** Lexicographic order. *)
Fixpoint lex_less (a b : list Z) : bool :=
  match a, b with
  | [], _ :: _ => true
  | x :: a, y :: b => match x ?= y with Lt => true | Eq => lex_less a b | Gt => false end
  | _, [] => false
  end.

Lemma bytes_less_lex a b : bytes_less a b = lex_less a b.
Proof.
  unfold bytes_less. assert (Hgo : forall a b, match memcmp (ztake (Z.min (zlen a) (zlen b)) a) (ztake (Z.min (zlen a) (zlen b)) b) with
    Lt => true | Eq => zlen a <? zlen b | Gt => false end = lex_less a b).
  { clear. induction a as [|x a IH]; intros [|y b]; cbn [lex_less]; try done.
    rewrite !zlen_cons. specialize (IH b). pose proof (zlen_nonneg a). pose proof (zlen_nonneg b).
      replace (Z.min (zlen a + 1) (zlen b + 1)) with (Z.min (zlen a) (zlen b) + 1) by lia.
      set (m := Z.min (zlen a) (zlen b)) in *.
      assert (Hc : forall (z : Z) l, ztake (m + 1) (z :: l) = z :: ztake m l).
      { intros z l. unfold ztake. replace (Z.to_nat (m + 1)) with (S (Z.to_nat m)) by (unfold m; lia). done. }
      rewrite !Hc. cbn [memcmp]. destruct (x ?= y); try done. rewrite <- IH.
      destruct (memcmp _ _); try done. destruct (Z.ltb_spec (zlen a + 1) (zlen b + 1)), (Z.ltb_spec (zlen a) (zlen b)); lia || done. }
  cbv zeta. destruct (Z.eqb_spec (Z.min (zlen a) (zlen b)) 0) as [H0|H0]; [|apply Hgo]. rewrite <- Hgo, H0. by rewrite !ztake_0.
Qed.

#[export] Instance bytes_order : ColumnOrder bytes_less.
Proof.
  split; intros *; rewrite !bytes_less_lex.
  - induction x as [|a x IH]; [done|]. cbn. by rewrite Z.compare_refl.
  - revert y z. induction x as [|a x IH]; intros [|b y] [|c z]; cbn; try done.
    destruct (Z.compare_spec a b), (Z.compare_spec b c), (Z.compare_spec a c); try done; try lia; try apply IH.
Qed.

(** ** What the statistics mean *)
Section Bounds.
Context {T : Type} (less : T -> T -> bool) `{!ColumnOrder less}.

(** [lo] and [hi] are among the values and bound them; no values, no bounds. *)
Definition bounds (m : option (T * T)) (vs : list T) : Prop :=
  match m with
  | None => vs = []
  | Some (lo, hi) => lo ∈ vs /\ hi ∈ vs /\ Forall (fun v => less v lo = false /\ less hi v = false) vs
  end.

Lemma widen_bounds m vs v : bounds m vs -> bounds (widen less m v) (vs ++ [v]).
Proof using ColumnOrder0.
  unfold widen, bounds. destruct m as [[lo hi]|].
  - intros (Hlo & Hhi & Hall). split_and!.
    + rewrite elem_of_app, list_elem_of_singleton. destruct (less v lo); auto.
    + rewrite elem_of_app, list_elem_of_singleton. destruct (less hi v); auto.
    + assert (Hlh : less hi lo = false) by (rewrite Forall_forall in Hall; apply (Hall hi Hhi)).
      apply Forall_app. split; [|constructor; [|done]].
      * eapply Forall_impl; [exact Hall|]. intros u [H1 H2]. split.
        -- destruct (less v lo) eqn:Hv; [|done]. apply not_true_is_false. intros Hu. rewrite (less_trans u v lo) in H1; done.
        -- destruct (less hi v) eqn:Hv; [|done]. apply not_true_is_false. intros Hu. rewrite (less_trans hi v u) in H2; done.
      * split.
        -- destruct (less v lo) eqn:Hv; [apply less_irrefl|done].
        -- destruct (less hi v) eqn:Hv; [apply less_irrefl|done].
  - intros ->. cbn. split_and!; [by apply list_elem_of_singleton..|]. constructor; [|done]. split; apply less_irrefl.
Qed.

Lemma fold_widen_bounds vs m ws : bounds m ws -> bounds (fold_left (widen less) vs m) (ws ++ vs).
Proof using ColumnOrder0.
  revert m ws. induction vs as [|v vs IH]; intros m ws Hb; cbn [fold_left]; [by rewrite app_nil_r|].
  rewrite (app_assoc ws [v] vs : ws ++ v :: vs = (ws ++ [v]) ++ vs). by apply IH, widen_bounds.
Qed.
End Bounds.

(** The zeros cannot be told apart by the order. *)
Definition zeros_ok {T} (A : arith T) : Prop :=
  forall z, at_zero A = Some z -> forall x v, is_zero z x = true ->
    at_less A v (neg_zero z) = at_less A v x /\ at_less A (pos_zero z) v = at_less A x v.

(** The non-null values that are not NaN, and the null slots, among the
    [k] slots from [i]. *)
Fixpoint used {T} (A : arith T) (bs : list bool) (values : list T) : list T :=
  match bs, values with
  | b :: bs, v :: values => if b && negb (at_nan A v) then v :: used A bs values else used A bs values
  | _, _ => []
  end.

Lemma stats_loop_spec {T} (A : arith T) n k values validity i s ws :
  (forall v, validity = Some v -> bytes_ok v /\ n <= 8 * zlen v) -> 0 <= i -> i + Z.of_nat k <= n -> i + Z.of_nat k <= zlen values ->
  stats_loop A k values validity i s = Some (ValueStats (fold_left (widen (at_less A)) (used A (valids validity i k) (zdrop i values)) (minmax s))
    (null_count s + (Z.of_nat k - valid_count (valids validity i k)))) /\
  (forall `{!ColumnOrder (at_less A)}, bounds (at_less A) (minmax s) ws ->
    bounds (at_less A) (fold_left (widen (at_less A)) (used A (valids validity i k) (zdrop i values)) (minmax s))
      (ws ++ used A (valids validity i k) (zdrop i values))).
Proof.
  intros Hval Hi Hn Hl. split; [|intros; by apply fold_widen_bounds]. revert i s Hi Hn Hl.
  induction k as [|k IH]; intros i s Hi Hn Hl; cbn [stats_loop valids used].
  { cbn. rewrite Z.add_0_r. by destruct s. }
  rewrite Nat2Z.inj_succ in *. rewrite (slot_valid_spec validity n Hval) by lia. rewrite valid_count_cons.
  destruct (proj2 (zget_is_Some values i)) as [v Hv]; [lia|].
  assert (Hd : zdrop i values = v :: zdrop (i + 1) values).
  { unfold zget in Hv. destruct (Z.ltb_spec i 0); [lia|]. unfold zdrop. erewrite drop_S by exact Hv. do 2 f_equal. lia. }
  rewrite Hd. destruct (valid_at validity i); cbn [andb].
  - rewrite Hv. destruct (at_nan A v); cbn [negb fold_left]; rewrite IH by lia; cbn [minmax null_count]; do 2 f_equal; lia.
  - rewrite IH by lia. cbn [minmax null_count]. do 2 f_equal. lia.
Qed.

(** Column statistics. With values for all [n] slots, the null count is
    the number of null slots; there are a minimum and a maximum exactly when
    some non-null value is not NaN; no such value is below the minimum or
    above the maximum; and each of them is one of the values, or the zero it
    is reported as. *)
Theorem compute_stats_bounds {T} (A : arith T) values validity n :
  ColumnOrder (at_less A) -> zeros_ok A -> 0 <= n <= zlen values ->
  (forall v, validity = Some v -> bytes_ok v /\ n <= 8 * zlen v) ->
  let vs := used A (valids validity 0 (Z.to_nat n)) values in
  exists s, compute_stats A values validity n = Some s /\ null_count s = n - valid_count (valids validity 0 (Z.to_nat n)) /\
    match minmax s with
    | None => vs = []
    | Some (lo, hi) => Forall (fun v => at_less A v lo = false /\ at_less A hi v = false) vs /\
        (lo ∈ vs \/ exists z v, at_zero A = Some z /\ v ∈ vs /\ is_zero z v = true /\ lo = neg_zero z) /\
        (hi ∈ vs \/ exists z v, at_zero A = Some z /\ v ∈ vs /\ is_zero z v = true /\ hi = pos_zero z)
    end.
Proof.
  intros HO HZ Hn Hval vs. subst vs. unfold compute_stats.
  destruct (stats_loop_spec A n (Z.to_nat n) values validity 0 (ValueStats None 0) [] Hval) as [-> Hb]; [lia..|].
  rewrite zdrop_0 in *. eexists. split; [done|]. cbn [null_count minmax] in *. split; [lia|]. specialize (Hb HO eq_refl). cbn [app] in Hb.
  unfold fix_zeros. destruct (fold_left _ _ _) as [[lo hi]|]; [|by destruct (at_zero A)]. destruct Hb as (Hlo & Hhi & Hall).
  destruct (at_zero A) as [z|] eqn:Hz; [|by auto]. split_and!.
  - eapply Forall_impl; [exact Hall|]. intros v [H1 H2]. cbn. destruct (is_zero z lo) eqn:Hzl, (is_zero z hi) eqn:Hzh;
      rewrite ?(proj1 (HZ z Hz _ v Hzl)), ?(proj2 (HZ z Hz _ v Hzh)); done.
  - destruct (is_zero z lo) eqn:Hzl; [right; by exists z, lo|by left].
  - destruct (is_zero z hi) eqn:Hzh; [right; by exists z, hi|by left].
Qed.

Lemma compute_stats_bounds_witness :
  let vs := used int_arith (valids (Some [5]) 0 3) [4; 9; -2] in
  exists s, compute_stats int_arith [4; 9; -2] (Some [5]) 3 = Some s /\ null_count s = 3 - valid_count (valids (Some [5]) 0 3) /\
    match minmax s with
    | None => vs = []
    | Some (lo, hi) => Forall (fun v => Z.ltb v lo = false /\ Z.ltb hi v = false) vs /\
        (lo ∈ vs \/ exists z v, None = Some z /\ v ∈ vs /\ is_zero z v = true /\ lo = neg_zero z) /\
        (hi ∈ vs \/ exists z v, None = Some z /\ v ∈ vs /\ is_zero z v = true /\ hi = pos_zero z)
    end.
Proof.
  refine (compute_stats_bounds int_arith [4; 9; -2] (Some [5]) 3 Z_order _ ltac:(split; by vm_compute) _); [done|].
  intros v [= <-]. split; [repeat constructor; done|by vm_compute].
Defined.

(** The statistics of byte strings: bounds in unsigned lexicographic order. *)
Lemma compute_binary_stats_bounds views : bounds lex_less (compute_binary_stats views) views.
Proof.
  pose proof (fold_widen_bounds bytes_less views None [] eq_refl) as Hb. cbn [app] in Hb. unfold compute_binary_stats.
  unfold bounds in *. destruct (fold_left _ _ _) as [[lo hi]|]; [|done]. destruct Hb as (Hlo & Hhi & Hall). split_and!; [done..|].
  eapply Forall_impl; [exact Hall|]. intros v Hv. cbv beta in *. by rewrite <- !bytes_less_lex.
Qed.
