(* ===== verification/Defrag.v ===== *)
(** * IP fragment reassembly: the data and the operations (nanom_shark/defrag.hpp)

    [ReassemblyTable<Key>]: the two maps it keeps ([key_to_id_] and [by_id_]),
    and every operation on them, from [add_fragment] to [evict_stale]. The
    unordered maps are [gmap]s; a span is the bytes it views, and [parts] is a
    list of spans. [by_id_.at] on an absent id (an exception) and [subspan] out
    of range (undefined) are [None]. [std::sort] leaves the order of equivalent
    elements open: it is the [sort] of the class [SortsFragments], which says
    what the standard promises of it. *)
From stdpp Require Import gmap sorting.
From S2P Require Import Prelude.

Definition kNoToken : Z := 0.
Definition kNoPacket : Z := 2 ^ 64 - 1.

Record Ipv4Key := MkIpv4Key { src4 : list Z; dst4 : list Z; proto4 : Z; ident4 : Z }.
Record Ipv6Key := MkIpv6Key { src6 : list Z; dst6 : list Z; ident6 : Z }.

#[export] Instance Ipv4Key_eq_dec : EqDecision Ipv4Key.
Proof. solve_decision. Defined.
#[export] Instance Ipv6Key_eq_dec : EqDecision Ipv6Key.
Proof. solve_decision. Defined.
#[export] Program Instance Ipv4Key_countable : Countable Ipv4Key :=
  inj_countable' (fun k => (src4 k, dst4 k, proto4 k, ident4 k))
    (fun t => match t with (s, d, p, i) => MkIpv4Key s d p i end) _.
Next Obligation. by intros []. Qed.
#[export] Program Instance Ipv6Key_countable : Countable Ipv6Key :=
  inj_countable' (fun k => (src6 k, dst6 k, ident6 k))
    (fun t => match t with (s, d, i) => MkIpv6Key s d i end) _.
Next Obligation. by intros []. Qed.

Record FragmentSpan := Fragment {
  offset_bytes : Z;
  packet_id : Z;
  more_fragments : bool;
  data : list Z;
  token : Z
}.

Record Reassembly := MkReassembly {
  r_datagram_id : Z;
  r_fragments : list FragmentSpan;
  r_total_length : Z;
  r_have_last : bool;
  r_conflict : bool;
  r_first_packet_id : Z;
  r_last_packet_id : Z;
  r_completed : bool;
  r_retired : bool;
  r_fragment_count : Z;
  r_covered_high : Z;
  r_parts : list (list Z);
  r_materialized : list Z
}.

Record ReassemblySummary := MkSummary {
  s_datagram_id : Z;
  s_total_length : Z;
  s_fragment_count : Z;
  s_first_packet_id : Z;
  s_last_packet_id : Z;
  s_completion_status : Z;
  s_gap_bytes : Z;
  s_tokens : list Z
}.

Record Config := MkConfig { max_datagram_bytes : Z; max_concurrent : Z; timeout_ticks : Z }.
Definition default_config : Config := MkConfig (64 * 1024) 4096 30.

(** [ReassemblyTable::Result]. *)
Record Result := MkResult {
  o_datagram_id : Z;
  o_completed : bool;
  o_retained : bool;
  o_parts : list (list Z)
}.

(** The fragments' order: by offset, then by packet id. *)
Definition fragment_less (a b : FragmentSpan) : bool :=
  if negb (offset_bytes a =? offset_bytes b) then offset_bytes a <? offset_bytes b
  else packet_id a <? packet_id b.

(** What [std::sort] with [fragment_less] promises: a permutation in which no
    element is less than one before it. *)
Class SortsFragments (sort : list FragmentSpan -> list FragmentSpan) : Prop := {
  sort_perm l : sort l ≡ₚ l;
  sort_sorted l : StronglySorted (fun a b => fragment_less b a = false) (sort l)
}.

(** ** Completion *)

(** The bytes of [want] against those of the parts from offset [skip] on;
    [wi] bytes of [want] have been compared. *)
Fixpoint range_equals_from (parts : list (list Z)) (skip wi : Z) (want : list Z) : bool :=
  match parts with
  | [] => wi =? zlen want
  | p :: ps =>
      if zlen p <=? skip then range_equals_from ps (skip - zlen p) wi want
      else
        let here := Z.min (zlen p - skip) (zlen want - wi) in
        if bool_decide (ztake here (zdrop skip p) = ztake here (zdrop wi want)) then
          if wi + here =? zlen want then true else range_equals_from ps 0 (wi + here) want
        else false
  end.

Definition range_equals (parts : list (list Z)) (at_ : Z) (want : list Z) : bool :=
  range_equals_from parts at_ 0 want.

(** [std::span::subspan]; out of range it is undefined. *)
Definition data_subspan (s : list Z) (off count : Z) : option (list Z) :=
  if (0 <=? off) && (off <=? zlen s) && (0 <=? count) && (count <=? zlen s - off)
  then Some (ztake count (zdrop off s)) else None.

Inductive scan_result :=
| Gap
| Conflict
| Covered (parts : list (list Z)) (covered : Z)
| Undefined.

(** The end of a fragment, in the code's [uint32_t]. *)
Definition fragment_end (f : FragmentSpan) : Z := u32 (offset_bytes f + u32 (zlen (data f))).

(** The completion loop: the parts covered so far and the unclamped high-water
    mark, fragment after fragment. *)
Fixpoint build_parts (total_length : Z) (ordered : list FragmentSpan) (parts : list (list Z)) (covered : Z) : scan_result :=
  match ordered with
  | [] => Covered parts covered
  | f :: rest =>
      if covered <? offset_bytes f then Gap
      else
        let clamped_covered := Z.min covered total_length in
        let end_ := fragment_end f in
        let ov := Z.min (clamped_covered - offset_bytes f) (zlen (data f)) in
        if (offset_bytes f <? clamped_covered)
             && negb (range_equals parts (offset_bytes f) (ztake ov (data f)))
        then Conflict
        else
          let emit_from := Z.max (offset_bytes f) clamped_covered in
          let emit_to := Z.min end_ total_length in
          let covered' := if covered <? end_ then end_ else covered in
          if emit_from <? emit_to then
            match data_subspan (data f) (emit_from - offset_bytes f) (emit_to - emit_from) with
            | Some p => build_parts total_length rest (parts ++ [p]) covered'
            | None => Undefined
            end
          else build_parts total_length rest parts covered'
  end.

(** ** Updates of one entry *)

(** A fresh entry. *)
Definition new_reassembly (id pid : Z) : Reassembly :=
  MkReassembly id [] 0 false false pid kNoPacket false false 0 0 [] [].

(** [last_packet_id], and [have_last]/[total_length] on a terminal fragment. *)
Definition touch (r : Reassembly) (f : FragmentSpan) : Reassembly :=
  MkReassembly (r_datagram_id r) (r_fragments r)
    (if more_fragments f then r_total_length r else fragment_end f)
    (if more_fragments f then r_have_last r else true)
    (r_conflict r) (r_first_packet_id r) (packet_id f) (r_completed r) (r_retired r)
    (r_fragment_count r) (r_covered_high r) (r_parts r) (r_materialized r).

(** The bytes an entry already holds. *)
Definition already (r : Reassembly) : Z :=
  foldr (fun f n => zlen (data f) + n) 0 (r_fragments r).

Definition store_fragment (r : Reassembly) (f : FragmentSpan) : Reassembly :=
  MkReassembly (r_datagram_id r) (r_fragments r ++ [f]) (r_total_length r) (r_have_last r)
    (r_conflict r) (r_first_packet_id r) (r_last_packet_id r) (r_completed r) (r_retired r)
    (u32 (r_fragment_count r + 1)) (Z.max (r_covered_high r) (fragment_end f))
    (r_parts r) (r_materialized r).

Definition set_conflict (r : Reassembly) : Reassembly :=
  MkReassembly (r_datagram_id r) (r_fragments r) (r_total_length r) (r_have_last r)
    true (r_first_packet_id r) (r_last_packet_id r) (r_completed r) (r_retired r)
    (r_fragment_count r) (r_covered_high r) (r_parts r) (r_materialized r).

Definition set_completed (r : Reassembly) (parts : list (list Z)) : Reassembly :=
  MkReassembly (r_datagram_id r) (r_fragments r) (r_total_length r) (r_have_last r)
    (r_conflict r) (r_first_packet_id r) (r_last_packet_id r) true (r_retired r)
    (r_fragment_count r) (r_covered_high r) parts (r_materialized r).

Definition set_retired (r : Reassembly) : Reassembly :=
  MkReassembly (r_datagram_id r) [] (r_total_length r) (r_have_last r)
    (r_conflict r) (r_first_packet_id r) (r_last_packet_id r) (r_completed r) true
    (r_fragment_count r) (r_covered_high r) [] (r_materialized r).

Definition set_materialized (r : Reassembly) (bytes : list Z) : Reassembly :=
  MkReassembly (r_datagram_id r) (r_fragments r) (r_total_length r) (r_have_last r)
    (r_conflict r) (r_first_packet_id r) (r_last_packet_id r) (r_completed r) (r_retired r)
    (r_fragment_count r) (r_covered_high r) (r_parts r) bytes.

(** ** The table *)
Record ReassemblyTable (K : Type) `{Countable K} := Table {
  key_to_id_ : gmap K Z;
  by_id_ : gmap Z Reassembly;
  next_id_ : Z
}.
Arguments Table {K _ _}. Arguments key_to_id_ {K _ _}. Arguments by_id_ {K _ _}. Arguments next_id_ {K _ _}.

(** An entry that gives its memory back keeps its summary: what [evict_stale]
    reports of it. *)
Definition completion_status (r : Reassembly) : Z :=
  if r_conflict r then 3 else if r_completed r then 0 else 1.

Definition gap_bytes (r : Reassembly) : Z :=
  if r_have_last r && (r_covered_high r <? r_total_length r)
  then r_total_length r - r_covered_high r else 0.

Definition summary (r : Reassembly) : ReassemblySummary :=
  MkSummary (r_datagram_id r) (r_total_length r) (r_fragment_count r)
    (r_first_packet_id r) (r_last_packet_id r) (completion_status r) (gap_bytes r)
    (filter (fun t => t <> kNoToken) (token <$> r_fragments r)).

(** [DatagramRow], the row a caller emits for a summary. *)
Record DatagramRow := MkRow {
  row_datagram_id : Z; row_ip_version : Z; row_total_length : Z; row_fragment_count : Z;
  row_first_packet_id : Z; row_last_packet_id : Z; row_completion_status : Z; row_gap_bytes : Z
}.

Definition to_datagram_row (s : ReassemblySummary) (ip_version : Z) : DatagramRow :=
  MkRow (s_datagram_id s) ip_version (s_total_length s) (s_fragment_count s)
    (s_first_packet_id s) (s_last_packet_id s) (s_completion_status s) (s_gap_bytes s).

Section Table.
Context {K : Type} `{Countable K} (cfg : Config) (sort : list FragmentSpan -> list FragmentSpan).
Implicit Types (s : ReassemblyTable K) (k : K).

Definition empty_table : ReassemblyTable K := Table ∅ ∅ 1.

(** The id of [k]'s entry, made when absent; [None] at capacity. An existing
    entry under the new id is kept, as [emplace] does. *)
Definition find_or_create s k (pid : Z) : option (ReassemblyTable K * Z) :=
  match key_to_id_ s !! k with
  | Some id => Some (s, id)
  | None =>
      if max_concurrent cfg <=? Z.of_nat (size (by_id_ s)) then None
      else
        let id := next_id_ s in
        Some (Table (<[k := id]> (key_to_id_ s))
                (match by_id_ s !! id with
                 | Some _ => by_id_ s
                 | None => <[id := new_reassembly id pid]> (by_id_ s)
                 end)
                (u32 (id + 1)), id)
  end.

Definition put s (id : Z) (r : Reassembly) : ReassemblyTable K :=
  Table (key_to_id_ s) (<[id := r]> (by_id_ s)) (next_id_ s).

(** [add_fragment] on the entry [r] of [id], a fragment just stored in it:
    completion when the terminal fragment has been seen. *)
Definition try_complete s k (id : Z) (r : Reassembly) : option (ReassemblyTable K * Result) :=
  if negb (r_have_last r) then Some (put s id r, MkResult id false true [])
  else
    match build_parts (r_total_length r) (sort (r_fragments r)) [] 0 with
    | Undefined => None
    | Gap => Some (put s id r, MkResult id false true [])
    | Conflict => Some (put s id (set_conflict r), MkResult id false true [])
    | Covered parts covered =>
        if covered <? r_total_length r then Some (put s id r, MkResult id false true [])
        else
          Some (Table (delete k (key_to_id_ s)) (<[id := set_completed r parts]> (by_id_ s)) (next_id_ s),
                MkResult id true true parts)
    end.

Definition add_fragment s k (f : FragmentSpan) : option (ReassemblyTable K * Result) :=
  match find_or_create s k (packet_id f) with
  | None => Some (s, MkResult 0 false false [])
  | Some (s, id) =>
      match by_id_ s !! id with
      | None => None
      | Some r =>
          let r := touch r f in
          if max_datagram_bytes cfg <? u64 (already r + zlen (data f))
          then Some (put s id r, MkResult id false false [])
          else try_complete s k id (store_fragment r f)
      end
  end.

Definition retire s (datagram_id : Z) : ReassemblyTable K * list Z :=
  match by_id_ s !! datagram_id with
  | None => (s, [])
  | Some r =>
      if negb (r_completed r) || r_retired r then (s, [])
      else (put s datagram_id (set_retired r), token <$> r_fragments r)
  end.

(** The result is a pointer to the entry's cache: [None] is [nullptr]. *)
Definition materialize s (datagram_id : Z) : ReassemblyTable K * option (list Z) :=
  match by_id_ s !! datagram_id with
  | None => (s, None)
  | Some r =>
      if negb (r_completed r) then (s, None)
      else
        let unset := bool_decide (r_materialized r = []) && (0 <? r_total_length r) in
        if r_retired r && unset then (s, None)
        else if unset then
          let r := set_materialized r (concat (r_parts r)) in
          (put s datagram_id r, Some (r_materialized r))
        else (s, Some (r_materialized r))
  end.

Definition aged_out (now_packet_id : Z) (r : Reassembly) : bool :=
  (u64 (r_last_packet_id r + timeout_ticks cfg) <=? now_packet_id) || (r_last_packet_id r =? kNoPacket).

(** One entry of the eviction loop. *)
Definition evict_one (now : Z) (acc : ReassemblyTable K * list ReassemblySummary) (entry : Z * Reassembly) :
    ReassemblyTable K * list ReassemblySummary :=
  let (s, out) := acc in
  let (id, r) := entry in
  if negb (aged_out now r) then (s, out)
  else
    (Table (filter (fun kv => kv.2 <> id) (key_to_id_ s)) (delete id (by_id_ s)) (next_id_ s),
     out ++ [summary r]).

Definition evict_stale s (now : Z) : ReassemblyTable K * list ReassemblySummary :=
  fold_left (evict_one now) (map_to_list (by_id_ s)) (s, []).

Definition find s (datagram_id : Z) : option Reassembly := by_id_ s !! datagram_id.

(** ** Histories *)
Inductive op :=
| AddFragment (k : K) (f : FragmentSpan)
| Retire (datagram_id : Z)
| Materialize (datagram_id : Z)
| EvictStale (now_packet_id : Z).

(** What an operation reports: the token it pinned, those it released. *)
Definition step s (o : op) : option (ReassemblyTable K * (list Z * list Z)) :=
  match o with
  | AddFragment k f =>
      match add_fragment s k f with
      | Some (s', o) => Some (s', (if o_retained o then [token f] else [], []))
      | None => None
      end
  | Retire id => let (s', ts) := retire s id in Some (s', ([], ts))
  | Materialize id => Some ((materialize s id).1, ([], []))
  | EvictStale now => let (s', out) := evict_stale s now in Some (s', ([], concat (s_tokens <$> out)))
  end.

Fixpoint run s (ops : list op) : option (ReassemblyTable K * (list Z * list Z)) :=
  match ops with
  | [] => Some (s, ([], []))
  | o :: ops =>
      match step s o with
      | None => None
      | Some (s, (pin, rel)) =>
          match run s ops with
          | None => None
          | Some (s, (pins, rels)) => Some (s, (pin ++ pins, rel ++ rels))
          end
      end
  end.
End Table.
Arguments empty_table {K _ _}.
