(* ===== verification/DefragScan.v ===== *)
(** * IP fragment reassembly: the completion scan

    What the completion loop of [add_fragment] decides of a set of fragments,
    against the abstract notion of a datagram ([datagram_of]): the parts it
    emits are the datagram, it refuses exactly when there is none, and the
    order the fragments came in plays no role. *)
From stdpp Require Import gmap sorting.
From S2P Require Import Prelude Defrag.

(** ** The specification *)
Definition covers (f : FragmentSpan) (k : Z) : Prop :=
  offset_bytes f <= k < offset_bytes f + zlen (data f).

(** The bytes of [f] below [total] are those of [d]. *)
Definition agrees (total : Z) (d : list Z) (f : FragmentSpan) : Prop :=
  forall j b, zget (data f) j = Some b -> offset_bytes f + j < total -> zget d (offset_bytes f + j) = Some b.

(** [d] is the datagram the fragments make up: they agree with it, every byte
    of it is in one of them, and no fragment lies beyond a hole. *)
Definition datagram_of (total : Z) (fs : list FragmentSpan) (d : list Z) : Prop :=
  zlen d = total /\
  Forall (agrees total d) fs /\
  (forall k, 0 <= k < total -> Exists (fun f => covers f k) fs) /\
  (forall f k, f ∈ fs -> 0 <= k < offset_bytes f -> Exists (fun g => covers g k) fs).

Definition bytes_held (fs : list FragmentSpan) : Z := foldr (fun f n => zlen (data f) + n) 0 fs.

Definition fragment_ok (f : FragmentSpan) : Prop := 0 <= offset_bytes f < 2 ^ 32.

(** ** Facts of the specification *)
Lemma datagram_of_perm total fs fs' d : fs ≡ₚ fs' -> datagram_of total fs d -> datagram_of total fs' d.
Proof.
  intros Hp (Hl & Ha & Hc & Hg). repeat split; [done|by rewrite <- Hp| |].
  - intros k Hk. rewrite <- Hp. by apply Hc.
  - intros f k Hf Hk. rewrite <- Hp in Hf |- *. eauto.
Qed.

Lemma covers_get f k : covers f k -> exists b, zget (data f) (k - offset_bytes f) = Some b.
Proof. intros Hk. red in Hk. apply zget_is_Some. lia. Qed.

Lemma agrees_at total d f k b : agrees total d f -> covers f k -> k < total ->
  zget (data f) (k - offset_bytes f) = Some b -> zget d k = Some b.
Proof.
  intros Ha Hk Hlt Hb. specialize (Ha _ _ Hb ltac:(lia)).
  by replace (offset_bytes f + (k - offset_bytes f)) with k in Ha by lia.
Qed.

(** Two byte strings that agree with fragments covering [0, n) agree there. *)
Lemma agree_unique total fs d d' k : Forall (agrees total d) fs -> Forall (agrees total d') fs ->
  k < total -> Exists (fun f => covers f k) fs -> zget d k = zget d' k.
Proof.
  rewrite !Forall_forall, Exists_exists. intros Ha Ha' Hk (f & Hf & Hc).
  destruct (covers_get f k Hc) as [b Hb].
  rewrite (agrees_at total d f k b), (agrees_at total d' f k b); auto.
Qed.

Lemma datagram_unique total fs d d' : datagram_of total fs d -> datagram_of total fs d' -> d = d'.
Proof.
  intros (Hl & Ha & Hc & _) (Hl' & Ha' & _). apply zget_ext; [lia|].
  intros k Hk. apply (agree_unique total fs); auto; [lia|apply Hc; lia].
Qed.

(** ** [range_equals] *)
Lemma range_equals_from_spec parts skip wi want : 0 <= skip -> 0 <= wi <= zlen want ->
  range_equals_from parts skip wi want =
  bool_decide (ztake (zlen want - wi) (zdrop skip (concat parts)) = zdrop wi want).
Proof.
  revert skip wi. induction parts as [|p ps IH]; intros skip wi Hs Hw; cbn [range_equals_from concat].
  - apply eq_true_iff_eq. rewrite Z.eqb_eq, bool_decide_eq_true. unfold ztake at 1, zdrop at 1.
    rewrite drop_nil, take_nil. split.
    + intros ->. by rewrite zdrop_all.
    + intros E. apply (f_equal zlen) in E. change (@zlen Z []) with 0 in E.
      rewrite zlen_zdrop in E by lia. lia.
  - destruct (Z.leb_spec (zlen p) skip) as [Hp|Hp].
    { rewrite IH by lia. by rewrite zdrop_app_r. }
    rewrite zdrop_app_l by lia.
    set (h := Z.min (zlen p - skip) (zlen want - wi)).
    assert (Hlp : zlen (zdrop skip p) = zlen p - skip) by (rewrite zlen_zdrop by lia; lia).
    assert (Hlw : zlen (zdrop wi want) = zlen want - wi) by (rewrite zlen_zdrop by lia; lia).
    destruct (decide (zlen want - wi <= zlen p - skip)) as [Hle|Hgt].
    { rewrite ztake_app_l by lia. replace h with (zlen want - wi) by lia.
      rewrite (ztake_all _ (zdrop wi want)) by lia.
      case_bool_decide; [|done]. by destruct (Z.eqb_spec (wi + (zlen want - wi)) (zlen want)); [|lia]. }
    replace h with (zlen p - skip) by lia.
    rewrite (ztake_all _ (zdrop skip p)), ztake_app_r by lia.
    set (T := ztake (zlen p - skip) (zdrop wi want)).
    assert (Hlt : zlen (zdrop skip p) = zlen T) by (unfold T; rewrite zlen_ztake by lia; lia).
    assert (Hsplit : zdrop wi want = T ++ zdrop (wi + (zlen p - skip)) want).
    { unfold T. rewrite <- zdrop_zdrop by lia. by rewrite ztake_zdrop. }
    rewrite Hsplit. clearbody T.
    destruct (Z.eqb_spec (wi + (zlen p - skip)) (zlen want)); [lia|].
    rewrite IH by lia. rewrite zdrop_0, Hlp.
    replace (zlen want - wi - (zlen p - skip)) with (zlen want - (wi + (zlen p - skip))) by lia.
    case_bool_decide as H1.
    + apply bool_decide_ext. rewrite <- H1. by rewrite (inj_iff (app (zdrop skip p))).
    + symmetry. apply bool_decide_eq_false. intros E. apply H1.
      apply app_inj_1 in E; [tauto|]. unfold zlen in Hlt. lia.
Qed.

Lemma range_equals_spec parts at_ want : 0 <= at_ ->
  range_equals parts at_ want = bool_decide (ztake (zlen want) (zdrop at_ (concat parts)) = want).
Proof.
  intros. unfold range_equals. rewrite range_equals_from_spec by (pose proof (zlen_nonneg want); lia).
  by rewrite Z.sub_0_r, zdrop_0.
Qed.

(** Equality on a range, byte by byte. *)
Lemma range_equals_bytes parts at_ want : 0 <= at_ -> at_ + zlen want <= zlen (concat parts) ->
  (range_equals parts at_ want = true <->
   forall j, 0 <= j < zlen want -> zget (concat parts) (at_ + j) = zget want j).
Proof.
  intros Ha Hb. rewrite range_equals_spec, bool_decide_eq_true by done. split.
  - intros E j Hj. rewrite <- E, zget_ztake, zget_zdrop; lia || done.
  - intros Hj. apply zget_ext.
    { rewrite zlen_ztake, zlen_zdrop by (try apply zlen_nonneg; lia). lia. }
    intros k Hk. rewrite zlen_ztake, zlen_zdrop in Hk by (try apply zlen_nonneg; lia).
    rewrite zget_ztake, zget_zdrop by lia. apply Hj. lia.
Qed.

(** ** The loop *)
Lemma bytes_held_app fs fs' : bytes_held (fs ++ fs') = bytes_held fs + bytes_held fs'.
Proof. unfold bytes_held. induction fs as [|f fs IH]; cbn; [lia|]. rewrite IH. lia. Qed.

Lemma bytes_held_nonneg fs : 0 <= bytes_held fs.
Proof. unfold bytes_held. induction fs as [|f fs IH]; cbn; [lia|]. pose proof (zlen_nonneg (data f)). lia. Qed.

Lemma bytes_held_perm fs fs' : fs ≡ₚ fs' -> bytes_held fs = bytes_held fs'.
Proof. unfold bytes_held. induction 1; cbn in *; lia. Qed.

Section Scan.
Context (total : Z) (Htotal : 0 <= total).

Definition emitted (f : FragmentSpan) (covered : Z) : list Z :=
  let from := Z.max (offset_bytes f) (Z.min covered total) in
  ztake (Z.min (offset_bytes f + zlen (data f)) total - from) (zdrop (from - offset_bytes f) (data f)).

Record scanned (done : list FragmentSpan) (parts : list (list Z)) (covered : Z) : Prop := {
  sc_length : zlen (concat parts) = Z.min covered total;
  sc_agrees : Forall (agrees total (concat parts)) done;
  sc_covered : forall k, 0 <= k < covered -> Exists (fun f => covers f k) done;
  sc_ends : Forall (fun f => offset_bytes f + zlen (data f) <= covered) done;
  sc_bound : 0 <= covered <= bytes_held done
}.

Lemma scanned_nil : scanned [] [] 0.
Proof. split; [change (0 = Z.min 0 total); lia|constructor|intros; lia|constructor|cbn; lia]. Qed.

(** A fragment that starts in the covered prefix, the next to be scanned. *)
Section Next.
Context (done : list FragmentSpan) (parts : list (list Z)) (covered : Z) (f : FragmentSpan).
Context (Hs : scanned done parts covered).
Context (Hoff : 0 <= offset_bytes f <= covered).

Definition overlap : Z := Z.min (Z.min covered total - offset_bytes f) (zlen (data f)).
Definition clear_of : bool :=
  negb ((offset_bytes f <? Z.min covered total)
        && negb (range_equals parts (offset_bytes f) (ztake overlap (data f)))).

Lemma overlap_agrees : clear_of = true <->
  forall j b, zget (data f) j = Some b -> offset_bytes f + j < Z.min covered total ->
    zget (concat parts) (offset_bytes f + j) = Some b.
Proof using Hs Hoff Htotal.
  destruct Hs as [Hl _ _ _ [Hc _]]. unfold clear_of. destruct (Z.ltb_spec (offset_bytes f) (Z.min covered total)) as [Hlt|Hge]; cbn.
  2: { split; [|done]. intros _ j b Hj. apply zget_Some_range in Hj. lia. }
  rewrite negb_involutive. pose proof (zlen_nonneg (data f)). assert (0 <= overlap) by (unfold overlap; lia).
  assert (Hov : zlen (ztake overlap (data f)) = overlap) by (rewrite zlen_ztake by lia; unfold overlap; lia).
  rewrite range_equals_bytes by (try rewrite Hov; unfold overlap; lia). rewrite Hov. split.
  - intros Heq j b Hj Hlt'. pose proof (zget_Some_range _ _ _ Hj).
    rewrite Heq by (unfold overlap; lia). by rewrite zget_ztake by (unfold overlap; lia).
  - intros Ha j Hj. rewrite zget_ztake by lia.
    destruct (proj2 (zget_is_Some (data f) j)) as [b Hb]; [unfold overlap in Hj; lia|].
    rewrite Hb. apply Ha; [done|]. unfold overlap in Hj. lia.
Qed.

Lemma zlen_emitted : zlen (emitted f covered) =
  Z.max 0 (Z.min (offset_bytes f + zlen (data f)) total - Z.max (offset_bytes f) (Z.min covered total)).
Proof using Hoff Htotal.
  unfold emitted. set (n := Z.min _ total - _). destruct (decide (0 <= n)).
  - rewrite zlen_ztake, zlen_zdrop by lia. lia.
  - unfold ztake. replace (Z.to_nat n) with 0%nat by lia. change (0 = Z.max 0 n). lia.
Qed.

Lemma scanned_length : zlen (concat parts ++ emitted f covered) =
  Z.min (Z.max covered (offset_bytes f + zlen (data f))) total.
Proof using Hs Hoff Htotal. rewrite zlen_app, zlen_emitted, (sc_length _ _ _ Hs). lia. Qed.

(** The bytes of [f] past the covered prefix are the emitted ones. *)
Lemma emitted_agrees : clear_of = true -> agrees total (concat parts ++ emitted f covered) f.
Proof using Hs Hoff Htotal.
  intros Hcl j b Hj Hlt. pose proof (sc_length _ _ _ Hs) as Hl. pose proof (zget_Some_range _ _ _ Hj).
  destruct (decide (offset_bytes f + j < Z.min covered total)) as [Hin|Hout].
  { rewrite zget_app_l by lia. by apply overlap_agrees. }
  rewrite zget_app_r by lia. unfold emitted. rewrite zget_ztake, zget_zdrop by lia. rewrite <- Hj. f_equal. lia.
Qed.

Lemma agrees_extend g e : offset_bytes g + zlen (data g) <= covered -> agrees total (concat parts) g ->
  agrees total (concat parts ++ e) g.
Proof using Hs.
  intros He Ha j b Hj Hlt. pose proof (sc_length _ _ _ Hs). pose proof (zget_Some_range _ _ _ Hj).
  rewrite zget_app_l by lia. by apply Ha.
Qed.

Lemma scanned_next parts' : clear_of = true -> concat parts' = concat parts ++ emitted f covered ->
  scanned (done ++ [f]) parts' (Z.max covered (offset_bytes f + zlen (data f))).
Proof using Hs Hoff Htotal.
  intros Hcl Hp. pose proof Hs as [_ Ha Hc He Hb]. split.
  - rewrite Hp. apply scanned_length.
  - rewrite Hp. apply Forall_app. split; [|constructor; [by apply emitted_agrees|constructor]].
    rewrite Forall_forall in Ha, He |- *. intros g Hg. apply agrees_extend; auto.
  - intros k Hk. apply Exists_app. destruct (decide (k < covered)); [left; apply Hc; lia|].
    right. constructor. red. lia.
  - apply Forall_app. split; [|constructor; [lia|constructor]].
    eapply Forall_impl; [exact He|]. cbn. lia.
  - rewrite bytes_held_app. change (bytes_held [f]) with (zlen (data f) + 0). pose proof (zlen_nonneg (data f)). lia.
Qed.

(** A disagreement with the covered prefix is one with every datagram. *)
Lemma conflict_next d : clear_of = false -> Forall (agrees total d) (done ++ [f]) -> False.
Proof using Hs Hoff Htotal.
  intros Hcl Hd. apply not_true_iff_false in Hcl. apply Hcl, overlap_agrees. clear Hcl.
  apply Forall_app in Hd as [Hd [Hf _]%Forall_cons]. intros j b Hj Hlt.
  pose proof (zget_Some_range _ _ _ Hj). destruct Hs as [Hl Ha Hc _ _].
  rewrite (agree_unique total done (concat parts) d); [|done..|lia|apply Hc; lia].
  apply Hf; [done|lia].
Qed.
End Next.

(** What the scan of the remaining fragments returns. *)
Definition scan_outcome (fs : list FragmentSpan) (r : scan_result) : Prop :=
  match r with
  | Covered parts covered => scanned fs parts covered
  | Gap => exists f k, f ∈ fs /\ 0 <= k < offset_bytes f /\ ~ Exists (fun g => covers g k) fs
  | Conflict => forall d, ~ Forall (agrees total d) fs
  | Undefined => False
  end.

Definition offset_le (f g : FragmentSpan) : Prop := offset_bytes f <= offset_bytes g.

Lemma gap_found done parts covered f rest : scanned done parts covered -> covered < offset_bytes f ->
  StronglySorted offset_le (f :: rest) ->
  scan_outcome (done ++ f :: rest) Gap.
Proof using.
  intros Hs Hf Hsort. pose proof (sc_ends _ _ _ Hs) as He. pose proof (sc_bound _ _ _ Hs).
  exists f, covered. split; [apply elem_of_app; right; constructor|]. split; [lia|].
  intros Hx. apply StronglySorted_inv in Hsort as [_ Hle]. rewrite Forall_forall in He, Hle.
  apply Exists_exists in Hx as (g & [Hg|[->|Hg]%elem_of_cons]%elem_of_app & Hc); red in Hc.
  - specialize (He g Hg). lia.
  - lia.
  - specialize (Hle g Hg). unfold offset_le in Hle. lia.
Qed.

Lemma fragment_end_value f n : fragment_ok f -> offset_bytes f <= n -> n + zlen (data f) < 2 ^ 32 ->
  fragment_end f = offset_bytes f + zlen (data f).
Proof using.
  intros Hf Hn Hb. red in Hf. pose proof (zlen_nonneg (data f)). unfold fragment_end.
  rewrite (wrap_small 32 (zlen _)), wrap_small; lia.
Qed.

(** The emission step of the loop, with or without a new part. *)
Lemma emit_step f covered parts rest :
  fragment_ok f -> offset_bytes f <= covered -> fragment_end f = offset_bytes f + zlen (data f) ->
  exists parts', concat parts' = concat parts ++ emitted f covered /\
    build_parts total (f :: rest) parts covered =
      if clear_of parts covered f
      then build_parts total rest parts' (Z.max covered (offset_bytes f + zlen (data f)))
      else Conflict.
Proof using Htotal.
  intros Hf Hoff Hend. red in Hf. cbn [build_parts]. rewrite Hend. pose proof (zlen_nonneg (data f)).
  destruct (Z.ltb_spec covered (offset_bytes f)); [lia|].
  replace (if covered <? offset_bytes f + zlen (data f) then offset_bytes f + zlen (data f) else covered)
    with (Z.max covered (offset_bytes f + zlen (data f))) by (destruct (Z.ltb_spec covered (offset_bytes f + zlen (data f))); lia).
  pose proof (zlen_emitted covered f ltac:(lia)) as Hze. fold (overlap covered f). unfold clear_of.
  destruct (Z.ltb_spec (Z.max (offset_bytes f) (Z.min covered total))
                       (Z.min (offset_bytes f + zlen (data f)) total)) as [Hlt|Hge].
  - exists (parts ++ [emitted f covered]). split; [by rewrite concat_app; cbn; rewrite app_nil_r|].
    destruct (_ && _); [done|]. cbn [negb]. unfold data_subspan.
    repeat (match goal with |- context [?a <=? ?b] => destruct (Z.leb_spec a b); [|lia] end). done.
  - exists parts. split; [|by destruct (_ && _)].
    rewrite (nil_length_inv (emitted f covered)); [by rewrite app_nil_r|]. unfold zlen in *. lia.
Qed.

Lemma build_parts_spec rest : forall done parts covered,
  scanned done parts covered -> Forall fragment_ok rest -> StronglySorted offset_le rest ->
  bytes_held (done ++ rest) < 2 ^ 32 ->
  scan_outcome (done ++ rest) (build_parts total rest parts covered).
Proof using Htotal.
  induction rest as [|f rest IH]; intros done parts covered Hs Hok Hsort Hb.
  { by rewrite app_nil_r. }
  destruct (decide (covered < offset_bytes f)) as [Hgap|Hoff].
  { cbn [build_parts]. rewrite (proj2 (Z.ltb_lt _ _)) by done. by eapply gap_found. }
  apply Forall_cons in Hok as [Hf Hok]. pose proof (sc_bound _ _ _ Hs) as Hcb.
  pose proof Hb as Hb'. rewrite bytes_held_app in Hb'. cbn in Hb'. fold (bytes_held rest) in Hb'.
  pose proof (bytes_held_nonneg rest). pose proof (Hf : 0 <= _ < _).
  destruct (emit_step f covered parts rest) as (parts' & Hp & ->);
    [done|lia|by apply (fragment_end_value f covered); [done|lia..]|].
  rewrite cons_middle, app_assoc. rewrite cons_middle, app_assoc in Hb. destruct (clear_of parts covered f) eqn:Hcl.
  - apply IH; [|done|by apply StronglySorted_inv in Hsort as [? _]|done].
    apply (scanned_next done parts); auto. lia.
  - intros d Hd. apply Forall_app in Hd as [Hd _]. apply (conflict_next done parts covered f Hs ltac:(lia) d); auto.
Qed.
End Scan.

(** ** The decision *)

(** The parts of a completed datagram, as the end of [add_fragment] takes them. *)
Definition assemble (total : Z) (ordered : list FragmentSpan) : option (list (list Z)) :=
  match build_parts total ordered [] 0 with
  | Covered parts covered => if covered <? total then None else Some parts
  | _ => None
  end.

Lemma sorted_offsets l : StronglySorted (fun a b => fragment_less b a = false) l -> StronglySorted offset_le l.
Proof.
  induction 1 as [|f l _ IH Hf]; constructor; [done|]. eapply Forall_impl; [exact Hf|].
  intros g. unfold fragment_less, offset_le. cbn.
  destruct (Z.eqb_spec (offset_bytes g) (offset_bytes f)); cbn; [lia|].
  destruct (Z.ltb_spec (offset_bytes g) (offset_bytes f)); [done|lia].
Qed.

Section Decision.
Context (sort : list FragmentSpan -> list FragmentSpan) `{!SortsFragments sort}.
Context (total : Z) (fs : list FragmentSpan).
Context (Htotal : 0 <= total) (Hok : Forall fragment_ok fs) (Hheld : bytes_held fs < 2 ^ 32).

Lemma scan_outcome_sorted : scan_outcome total (sort fs) (build_parts total (sort fs) [] 0).
Proof using All.
  apply (build_parts_spec total Htotal (sort fs) [] [] 0 (scanned_nil total Htotal)).
  - by rewrite sort_perm.
  - apply sorted_offsets, sort_sorted.
  - rewrite (bytes_held_perm ([] ++ sort fs) fs); [done|exact (sort_perm fs)].
Qed.

Lemma assemble_sound parts : assemble total (sort fs) = Some parts -> datagram_of total fs (concat parts).
Proof using All.
  unfold assemble. pose proof scan_outcome_sorted as Ho. destruct build_parts as [| |p c|]; try done.
  destruct (Z.ltb_spec c total) as [|Hc]; [done|]. intros [= ->]. destruct Ho as [Hl Ha Hcov He Hb].
  apply (datagram_of_perm total (sort fs)); [apply sort_perm|]. repeat split; [lia|done| |].
  - intros k Hk. apply Hcov. lia.
  - intros f k Hf Hk. apply Hcov. rewrite Forall_forall in He. specialize (He f Hf).
    pose proof (zlen_nonneg (data f)). lia.
Qed.

(** No fragment of a complete datagram ends past the 32-bit offsets. *)
Lemma assemble_ends parts f : assemble total (sort fs) = Some parts -> f ∈ fs ->
  fragment_end f = offset_bytes f + zlen (data f).
Proof using All.
  unfold assemble. pose proof scan_outcome_sorted as Ho. destruct build_parts as [| |p c|]; try done.
  intros _ Hf. destruct Ho as [_ _ _ He Hb]. rewrite (bytes_held_perm _ fs) in Hb by apply sort_perm.
  rewrite sort_perm in He. rewrite Forall_forall in He, Hok. specialize (He f Hf). pose proof (Hok f Hf) as Hf'. red in Hf'.
  apply (fragment_end_value f (offset_bytes f)); [by apply Hok|lia|lia].
Qed.

Lemma assemble_complete d : datagram_of total fs d -> exists parts, assemble total (sort fs) = Some parts /\ concat parts = d.
Proof using All.
  intros Hd. pose proof Hd as Hd'. apply (datagram_of_perm _ _ (sort fs)) in Hd' as (Hl & Ha & Hc & Hg); [|symmetry; apply sort_perm].
  pose proof scan_outcome_sorted as Ho. unfold assemble.
  destruct (build_parts total (sort fs) [] 0) as [| |p c|] eqn:E; cbn in Ho.
  - destruct Ho as (f & k & Hf & Hk & Hx). destruct Hx. by apply (Hg f).
  - by destruct (Ho d).
  - destruct (Z.ltb_spec c total) as [Hlt|Hge].
    + assert (Hx : 0 <= c < total) by (destruct Ho; lia). apply Hc, Exists_exists in Hx as (g & Hin & Hcov).
      pose proof (sc_ends _ _ _ _ Ho) as He. rewrite Forall_forall in He. specialize (He g Hin). red in Hcov. lia.
    + exists p. split; [done|]. apply (datagram_unique total fs); [|done]. apply assemble_sound.
      unfold assemble. rewrite E. by destruct (Z.ltb_spec c total); [lia|].
  - done.
Qed.
End Decision.
