(* ===== verification/DefragTable.v ===== *)
(** * IP fragment reassembly: the table

    The invariant of [ReassemblyTable] over every history of its operations,
    what a completed datagram is, and the accounting of the buffers the table
    pins. *)
From stdpp Require Import gmap sorting.
From S2P Require Import Prelude Defrag DefragScan.

(** A [std::sort] there is: [SortsFragments] is satisfiable. *)
Definition fragment_le (a b : FragmentSpan) : Prop := fragment_less b a = false.
#[export] Instance fragment_le_dec : RelDecision fragment_le.
Proof. intros a b. unfold fragment_le. apply _. Defined.

Lemma fragment_le_spec a b : fragment_le a b <->
  offset_bytes a < offset_bytes b \/ (offset_bytes a = offset_bytes b /\ packet_id a <= packet_id b).
Proof.
  unfold fragment_le, fragment_less. destruct (Z.eqb_spec (offset_bytes b) (offset_bytes a)); cbn.
  - rewrite Z.ltb_ge. lia.
  - rewrite Z.ltb_ge. lia.
Qed.

#[export] Instance fragment_le_total : Total fragment_le.
Proof. intros a b. rewrite !fragment_le_spec. lia. Qed.
#[export] Instance fragment_le_trans : Transitive fragment_le.
Proof. intros a b c. rewrite !fragment_le_spec. lia. Qed.

#[export] Instance merge_sort_sorts : SortsFragments (merge_sort fragment_le).
Proof. split; intros; [apply merge_sort_Permutation|apply (StronglySorted_merge_sort fragment_le)]. Qed.

(** ** The invariant *)
Definition highest_end (fs : list FragmentSpan) : Z := foldr (fun f m => Z.max (fragment_end f) m) 0 fs.

Section Invariant.
Context {K : Type} `{Countable K} (cfg : Config).
Implicit Types (s : ReassemblyTable K) (r : Reassembly).

Record entry_ok r : Prop := {
  e_total : 0 <= r_total_length r < 2 ^ 32;
  e_fragments : Forall fragment_ok (r_fragments r);
  e_held : bytes_held (r_fragments r) <= max_datagram_bytes cfg;
  e_open : r_completed r = false -> r_retired r = false /\ r_parts r = [] /\ r_materialized r = [];
  e_completed : r_completed r = true -> r_have_last r = true /\ r_total_length r <= r_covered_high r /\
    (r_materialized r = [] \/ zlen (r_materialized r) = r_total_length r);
  e_datagram : r_completed r = true -> r_retired r = false ->
    datagram_of (r_total_length r) (r_fragments r) (concat (r_parts r)) /\
    (r_materialized r = [] \/ r_materialized r = concat (r_parts r));
  e_retired : r_retired r = true -> r_fragments r = [] /\ r_parts r = [];
  e_summary : r_retired r = false ->
    r_fragment_count r = u32 (zlen (r_fragments r)) /\ r_covered_high r = highest_end (r_fragments r)
}.

Record table_ok s : Prop := {
  t_keys k id : key_to_id_ s !! k = Some id -> exists r, by_id_ s !! id = Some r /\ r_completed r = false;
  t_inj k k' id : key_to_id_ s !! k = Some id -> key_to_id_ s !! k' = Some id -> k = k';
  t_ids id r : by_id_ s !! id = Some r -> 1 <= id < next_id_ s /\ r_datagram_id r = id /\ entry_ok r;
  t_next : 1 <= next_id_ s
}.

Lemma empty_table_ok : table_ok empty_table.
Proof. split; cbn; [intros k id|intros k k' id|intros id r|lia]; rewrite lookup_empty; done. Qed.

(** Replacing an entry by one as good, completed only if it was. *)
Lemma put_ok s id r r' : table_ok s -> by_id_ s !! id = Some r -> r_datagram_id r' = r_datagram_id r ->
  r_completed r' = r_completed r -> entry_ok r' -> table_ok (put s id r').
Proof.
  intros [Hk Hi Hd Hn] Hr Hid Hc Ho. split; cbn; [|done| |done].
  - intros k id' Hk'. destruct (Hk _ _ Hk') as (r0 & Hr0 & Hc0). destruct (decide (id' = id)) as [->|Hne].
    + rewrite lookup_insert_eq. simplify_eq. eauto with congruence.
    + rewrite lookup_insert_ne by done. eauto.
  - intros id' r0 Hr0. destruct (decide (id' = id)) as [->|Hne].
    + rewrite lookup_insert_eq in Hr0. simplify_eq. destruct (Hd _ _ Hr) as (? & ? & ?).
      split_and!; [lia|lia|congruence|done].
    + rewrite lookup_insert_ne in Hr0 by done. auto.
Qed.

(** Completing the entry of a key and freeing the key. *)
Lemma complete_ok s k id r r' : table_ok s -> key_to_id_ s !! k = Some id -> by_id_ s !! id = Some r ->
  r_datagram_id r' = r_datagram_id r -> entry_ok r' ->
  table_ok (Table (delete k (key_to_id_ s)) (<[id := r']> (by_id_ s)) (next_id_ s)).
Proof.
  intros [Hk Hi Hd Hn] Hkey Hr Hid Ho. split; cbn; [| | |done].
  - intros k' id' [Hne Hk']%lookup_delete_Some. destruct (Hk _ _ Hk') as (r0 & Hr0 & Hc0).
    rewrite lookup_insert_ne by (intros <-; by destruct Hne; apply (Hi _ _ id)). eauto.
  - intros k1 k2 id' [_ H1]%lookup_delete_Some [_ H2]%lookup_delete_Some. eauto.
  - intros id' r0 Hr0. destruct (decide (id' = id)) as [->|Hne].
    + rewrite lookup_insert_eq in Hr0. simplify_eq. destruct (Hd _ _ Hr) as (? & ? & ?).
      split_and!; [lia|lia|congruence|done].
    + rewrite lookup_insert_ne in Hr0 by done. auto.
Qed.

(** ** Eviction *)
Definition aged_ids (now : Z) (l : list (Z * Reassembly)) : list Z :=
  (filter (fun e => aged_out cfg now e.2 = true) l).*1.

Lemma aged_ids_cons now id r l : aged_ids now ((id, r) :: l) =
  if aged_out cfg now r then id :: aged_ids now l else aged_ids now l.
Proof. unfold aged_ids. rewrite filter_cons. cbn. by destruct (aged_out cfg now r). Qed.

Lemma evict_fold now l : forall s out,
  let '(s', out') := fold_left (evict_one cfg now) l (s, out) in
  next_id_ s' = next_id_ s /\
  (forall id, by_id_ s' !! id = if decide (id ∈ aged_ids now l) then None else by_id_ s !! id) /\
  (forall k, key_to_id_ s' !! k =
     match key_to_id_ s !! k with
     | Some id => if decide (id ∈ aged_ids now l) then None else Some id
     | None => None
     end) /\
  out' = out ++ (summary <$> (filter (fun e => aged_out cfg now e.2 = true) l).*2).
Proof.
  induction l as [|[id r] l IH]; intros s out; cbn [fold_left].
  { split; [done|]. split; [intros id|split; [intros k; by destruct (key_to_id_ s !! k)|by rewrite app_nil_r]].
    by destruct (decide _) as [[]%elem_of_nil|]. }
  rewrite aged_ids_cons, filter_cons. cbn. destruct (aged_out cfg now r); cbn.
  2: { apply IH. }
  specialize (IH (Table (filter (fun kv => kv.2 <> id) (key_to_id_ s)) (delete id (by_id_ s)) (next_id_ s)) (out ++ [summary r])).
  destruct fold_left as [s' out']. destruct IH as (Hn & Hb & Hk & Ho). cbn in *.
  split; [done|]. split; [|split].
  - intros id'. rewrite Hb. destruct (decide (id' = id)) as [->|Hne].
    + rewrite lookup_delete_eq. destruct (decide (id ∈ id :: _)) as [|[]]; [by destruct (decide _)|constructor].
    + rewrite lookup_delete_ne by done. apply decide_ext. rewrite elem_of_cons. naive_solver.
  - intros k. rewrite Hk, map_lookup_filter. destruct (key_to_id_ s !! k) as [id'|]; cbn; [|done].
    destruct (decide (id' = id)) as [->|Hne]; cbn.
    + rewrite option_guard_False by naive_solver. rewrite decide_True by constructor. done.
    + rewrite option_guard_True by done. cbn. apply decide_ext. rewrite elem_of_cons. naive_solver.
  - rewrite Ho, <- app_assoc. done.
Qed.

Lemma aged_ids_table s now id : id ∈ aged_ids now (map_to_list (by_id_ s)) <-> exists r, by_id_ s !! id = Some r /\ aged_out cfg now r = true.
Proof.
  unfold aged_ids. rewrite list_elem_of_fmap. split.
  - intros ([id' r] & -> & [Ha Hr%elem_of_map_to_list]%list_elem_of_filter). eauto.
  - intros (r & Hr & Ha). exists (id, r). split; [done|]. rewrite list_elem_of_filter, elem_of_map_to_list. done.
Qed.

Lemma evict_lookup s now id : by_id_ (evict_stale cfg s now).1 !! id =
  match by_id_ s !! id with
  | Some r => if aged_out cfg now r then None else Some r
  | None => None
  end.
Proof.
  unfold evict_stale. pose proof (evict_fold now (map_to_list (by_id_ s)) s []) as Hf.
  destruct fold_left as [s' out]. destruct Hf as (_ & Hb & _). cbn. rewrite Hb.
  pose proof (aged_ids_table s now id) as Hin.
  destruct (by_id_ s !! id) as [r|]; [|by destruct (decide _)].
  destruct (aged_out cfg now r) eqn:Ha; destruct (decide _) as [Hd|Hd]; rewrite Hin in Hd; try done.
  - destruct Hd. eauto.
  - destruct Hd as (r' & [= <-] & ?). congruence.
Qed.

Lemma evict_keys_exact s now k : key_to_id_ (evict_stale cfg s now).1 !! k =
  match key_to_id_ s !! k with
  | Some id => if from_option (aged_out cfg now) false (by_id_ s !! id) then None else Some id
  | None => None
  end.
Proof.
  unfold evict_stale. pose proof (evict_fold now (map_to_list (by_id_ s)) s []) as Hf.
  destruct fold_left as [s' out]. destruct Hf as (_ & _ & Hk & _). cbn. rewrite Hk. destruct (key_to_id_ s !! k) as [id|]; [|done].
  destruct (decide _) as [Hd|Hd]; rewrite aged_ids_table in Hd.
  - destruct Hd as (r & -> & Ha). cbn. by rewrite Ha.
  - destruct (by_id_ s !! id) as [r|] eqn:E; cbn; [|done]. destruct (aged_out cfg now r) eqn:Ha; [|done]. destruct Hd. eauto.
Qed.

Lemma evict_out s now : (evict_stale cfg s now).2 ≡ₚ summary <$> (map_to_list (filter (fun e => aged_out cfg now e.2 = true) (by_id_ s))).*2.
Proof.
  unfold evict_stale. pose proof (evict_fold now (map_to_list (by_id_ s)) s []) as Hf.
  destruct fold_left as [s' out]. destruct Hf as (_ & _ & _ & ->). cbn. do 2 apply fmap_Permutation.
  apply NoDup_Permutation.
  - apply NoDup_filter, NoDup_map_to_list.
  - apply NoDup_map_to_list.
  - intros [id r]. rewrite list_elem_of_filter, !elem_of_map_to_list, map_lookup_filter_Some. cbn. tauto.
Qed.

Lemma evict_keys s now k id : key_to_id_ (evict_stale cfg s now).1 !! k = Some id ->
  key_to_id_ s !! k = Some id /\ by_id_ (evict_stale cfg s now).1 !! id = by_id_ s !! id.
Proof.
  unfold evict_stale. pose proof (evict_fold now (map_to_list (by_id_ s)) s []) as Hf.
  destruct fold_left as [s' out]. destruct Hf as (_ & Hb & Hk & _). cbn. rewrite Hk, Hb.
  destruct (key_to_id_ s !! k) as [id'|]; [|done]. destruct (decide (id' ∈ _)) as [|Hn] eqn:E; [done|].
  intros [= ->]. by rewrite E.
Qed.

Lemma evict_next s now : next_id_ (evict_stale cfg s now).1 = next_id_ s.
Proof.
  unfold evict_stale. pose proof (evict_fold now (map_to_list (by_id_ s)) s []) as Hf.
  destruct fold_left as [s' out]. by destruct Hf.
Qed.

Lemma evict_ok s now : table_ok s -> table_ok (evict_stale cfg s now).1.
Proof.
  intros [Hk Hi Hd Hn]. split; [| | |by rewrite evict_next].
  - intros k id [Hk' He]%evict_keys. rewrite He. eauto.
  - intros k k' id [H1 _]%evict_keys [H2 _]%evict_keys. eauto.
  - intros id r. rewrite evict_lookup, evict_next. destruct (by_id_ s !! id) as [r'|] eqn:E; [|done].
    destruct aged_out; [done|]. intros [= <-]. auto.
Qed.

(** ** Entries *)
Lemma fragment_end_range f : 0 <= fragment_end f < 2 ^ 32.
Proof. apply wrap_range. lia. Qed.

Lemma highest_end_snoc fs f : highest_end (fs ++ [f]) = Z.max (highest_end fs) (fragment_end f).
Proof.
  unfold highest_end. induction fs as [|g fs IH]; cbn; [|rewrite IH; lia].
  pose proof (fragment_end_range f). lia.
Qed.

Lemma highest_end_le fs f : f ∈ fs -> fragment_end f <= highest_end fs.
Proof. unfold highest_end. induction 1; cbn; lia. Qed.

Lemma new_ok id pid : 0 <= max_datagram_bytes cfg -> entry_ok (new_reassembly id pid).
Proof. intros. by split; cbn; auto with lia. Qed.

Lemma touch_ok r f : entry_ok r -> r_completed r = false -> entry_ok (touch r f).
Proof.
  intros [] Hc. split; cbn; auto; try congruence.
  destruct (more_fragments f); [done|apply fragment_end_range].
Qed.

Lemma store_ok r f : entry_ok r -> r_completed r = false -> fragment_ok f ->
  bytes_held (r_fragments r) + zlen (data f) <= max_datagram_bytes cfg -> entry_ok (store_fragment r f).
Proof.
  intros [? Hf ? Hop ? ? ? Hsum] Hc Hfo Hb. destruct (Hop Hc) as (Hre & ? & ?). split; cbn; auto; try congruence.
  - apply Forall_app. auto.
  - rewrite bytes_held_app. cbn. lia.
  - intros _. destruct (Hsum Hre) as [-> ->]. rewrite highest_end_snoc. split; [|done].
    rewrite zlen_app. change (zlen [f]) with 1. apply Zplus_mod_idemp_l.
Qed.

Lemma set_conflict_ok r : entry_ok r -> entry_ok (set_conflict r).
Proof. by intros []; split. Qed.

Lemma set_retired_ok r : entry_ok r -> r_completed r = true -> 0 <= max_datagram_bytes cfg -> entry_ok (set_retired r).
Proof.
  intros [? ? ? ? Hd ? ? ?] Hc Hm. by split; cbn; auto; try congruence.
Qed.

Lemma set_materialized_ok r : entry_ok r -> r_completed r = true -> r_retired r = false ->
  entry_ok (set_materialized r (concat (r_parts r))).
Proof.
  intros [? ? ? ? Hd Hg ? ?] Hc Hre. destruct (Hg Hc Hre) as [Hdg _]. destruct (Hd Hc) as (? & ? & _).
  split; cbn; auto; try congruence. intros _. split_and!; auto. right. by destruct Hdg.
Qed.

Context (sort : list FragmentSpan -> list FragmentSpan) `{!SortsFragments sort}.
Context (Hmax : 0 <= max_datagram_bytes cfg < 2 ^ 32).

Lemma set_completed_ok r parts : entry_ok r -> r_completed r = false -> r_have_last r = true ->
  assemble (r_total_length r) (sort (r_fragments r)) = Some parts -> entry_ok (set_completed r parts).
Proof using All.
  intros [Ht Hf Hh Hop _ _ Hret Hsum] Hc Hl Ha. destruct (Hop Hc) as (Hre & Hp & Hm). destruct (Hsum Hre) as [Hcnt Hcov].
  assert (Hd : datagram_of (r_total_length r) (r_fragments r) (concat parts)) by (eapply (assemble_sound sort); eauto; lia).
  split; cbn; auto; try congruence. intros _. split_and!; auto. rewrite Hcov.
  destruct Hd as (_ & _ & Hcover & _). destruct (decide (r_total_length r = 0)) as [->|Hne].
  { clear. induction (r_fragments r) as [|f fs IH]; cbn; [lia|]. unfold highest_end in *. cbn. lia. }
  assert (Hk : 0 <= r_total_length r - 1 < r_total_length r) by lia.
  apply Hcover, Exists_exists in Hk as (f & Hin & Hcf). red in Hcf. pose proof (highest_end_le _ _ Hin).
  rewrite (assemble_ends sort (r_total_length r) (r_fragments r) ltac:(lia) Hf ltac:(lia) parts f) in * by done. lia.
Qed.

(** ** [add_fragment] *)
Lemma find_or_create_spec s k pid : table_ok s -> next_id_ s < 2 ^ 32 - 1 ->
  match find_or_create cfg s k pid with
  | None => key_to_id_ s !! k = None /\ max_concurrent cfg <= Z.of_nat (size (by_id_ s))
  | Some (s', id) =>
      table_ok s' /\ key_to_id_ s' !! k = Some id /\ next_id_ s' <= next_id_ s + 1 /\
      exists r, by_id_ s' !! id = Some r /\ r_completed r = false /\
        ((s' = s /\ key_to_id_ s !! k = Some id) \/
         (key_to_id_ s !! k = None /\ by_id_ s !! id = None /\ r = new_reassembly id pid /\
          by_id_ s' = <[id := r]> (by_id_ s)))
  end.
Proof using Hmax.
  intros Hok Hn. pose proof Hok as [Hk Hi Hd H1]. unfold find_or_create.
  destruct (key_to_id_ s !! k) as [id|] eqn:Ek.
  { destruct (Hk _ _ Ek) as (r & Hr & Hc). split_and!; [done|done|lia|]. exists r. auto. }
  destruct (Z.leb_spec (max_concurrent cfg) (Z.of_nat (size (by_id_ s)))) as [|_]; [done|].
  assert (Hfresh : by_id_ s !! next_id_ s = None).
  { destruct (by_id_ s !! next_id_ s) as [r|] eqn:E; [|done]. apply Hd in E. lia. }
  rewrite Hfresh. rewrite (wrap_small 32 (next_id_ s + 1)) by lia.
  split; [|split; [by cbn; rewrite lookup_insert_eq|split; [cbn; lia|]]].
  - split; cbn; [intros k' id'|intros k1 k2 id'|intros id' r|lia].
    + rewrite !lookup_insert_Some. intros [[<- <-]|[Hne Hk']].
      * exists (new_reassembly (next_id_ s) pid). by rewrite lookup_insert_eq.
      * destruct (Hk _ _ Hk') as (r & Hr & Hc). exists r. rewrite lookup_insert_ne; [done|]. intros <-. congruence.
    + rewrite !lookup_insert_Some. intros [[<- <-]|[Hne Hk1]] [[<- E]|[Hne' Hk2]]; [done| | |eauto].
      * apply Hk in Hk2 as (r & Hr & _). congruence.
      * apply Hk in Hk1 as (r & Hr & _). congruence.
    + rewrite lookup_insert_Some. intros [[<- <-]|[Hne Hr]].
      * split_and!; [lia|lia|done|apply new_ok; lia].
      * destruct (Hd _ _ Hr) as (? & ? & ?). split_and!; auto; lia.
  - exists (new_reassembly (next_id_ s) pid). cbn. rewrite lookup_insert_eq. auto 10.
Qed.

(** The decision of [try_complete], through [assemble]. *)
Lemma try_complete_assemble s k id r : entry_ok r ->
  exists r', (r' = r \/ r' = set_conflict r) /\
  try_complete sort s k id r =
    match (if r_have_last r then assemble (r_total_length r) (sort (r_fragments r)) else None) with
    | Some parts =>
        Some (Table (delete k (key_to_id_ s)) (<[id := set_completed r parts]> (by_id_ s)) (next_id_ s),
              MkResult id true true parts)
    | None => Some (put s id r', MkResult id false true [])
    end.
Proof using All.
  intros [Ht Hf Hh _ _ _ _ _]. unfold try_complete. destruct (r_have_last r) eqn:El; cbn; [|by eauto].
  pose proof (scan_outcome_sorted sort (r_total_length r) (r_fragments r) ltac:(lia) Hf ltac:(lia)) as Ho.
  unfold assemble. destruct build_parts as [| |p c|]; cbn in Ho; [by eauto..| |done].
  destruct (c <? r_total_length r); by eauto.
Qed.

(** [d] is the datagram of the entry's fragments, its end known. *)
Definition entry_datagram r (d : list Z) : Prop :=
  r_have_last r = true /\ datagram_of (r_total_length r) (r_fragments r) d.

Lemma try_complete_spec s k id r0 r : table_ok s -> key_to_id_ s !! k = Some id ->
  by_id_ s !! id = Some r0 -> r_completed r0 = false ->
  entry_ok r -> r_datagram_id r = r_datagram_id r0 -> r_completed r = false ->
  exists s' o r', try_complete sort s k id r = Some (s', o) /\ table_ok s' /\ next_id_ s' = next_id_ s /\
    o_datagram_id o = id /\ o_retained o = true /\
    by_id_ s' = <[id := r']> (by_id_ s) /\
    r_fragments r' = r_fragments r /\ r_total_length r' = r_total_length r /\ r_have_last r' = r_have_last r /\
    o_completed o = r_completed r' /\ o_parts o = r_parts r' /\
    key_to_id_ s' = (if o_completed o then delete k (key_to_id_ s) else key_to_id_ s) /\
    (forall d, (o_completed o = true /\ concat (o_parts o) = d) <-> entry_datagram r' d).
Proof using All.
  intros Hs Hk Hr0 Hc0 Hr Hid Hc. destruct (try_complete_assemble s k id r Hr) as (r' & Hr' & ->).
  pose proof Hr as [Ht Hf Hh Hop _ _ _ _]. destruct (Hop Hc) as (_ & Hp & _).
  assert (Hdec : forall d, entry_datagram r d <->
    exists parts, (if r_have_last r then assemble (r_total_length r) (sort (r_fragments r)) else None) = Some parts /\ concat parts = d).
  { intros d. unfold entry_datagram. destruct (r_have_last r); [|naive_solver]. split.
    - intros [_ Hd]. by apply (assemble_complete sort); [lia|done|lia|].
    - intros (parts & Ha & <-). split; [done|]. by apply (assemble_sound sort); [lia|done|lia|]. }
  destruct (if r_have_last r then _ else _) as [parts|] eqn:Ea.
  - eexists _, _, (set_completed r parts). split; [done|]. cbn. split; [|split_and!; try done].
    + eapply complete_ok; eauto. destruct (r_have_last r) eqn:El; [|done].
      by apply (set_completed_ok r parts).
    + intros d. etrans; [|symmetry; apply (Hdec d)]. naive_solver.
  - eexists _, _, r'. split; [done|]. cbn.
    assert (Heq : r_fragments r' = r_fragments r /\ r_total_length r' = r_total_length r /\ r_have_last r' = r_have_last r /\
      r_completed r' = false /\ r_parts r' = [] /\ r_datagram_id r' = r_datagram_id r) by (destruct Hr' as [->| ->]; cbn; auto 10).
    destruct Heq as (E1 & E2 & E3 & E4 & E5 & E6). split; [|split_and!; try done].
    + eapply put_ok; eauto; [congruence..|]. destruct Hr' as [->| ->]; [done|by apply set_conflict_ok].
    + intros d. unfold entry_datagram. rewrite E1, E2, E3. etrans; [|symmetry; apply (Hdec d)]. naive_solver.
Qed.

(** A fragment as a caller hands it over: a 32-bit offset, a span that fits in
    the address space. *)
Definition fragment_in (f : FragmentSpan) : Prop := fragment_ok f /\ zlen (data f) < 2 ^ 63.

(** The entry a key leads to, and what it holds (a fresh one, when absent). *)
Definition entry_of s k : option Reassembly := id ← key_to_id_ s !! k; by_id_ s !! id.
Definition entry_before s k : Reassembly := default (new_reassembly 0 0) (entry_of s k).

Lemma entry_of_ne s s' k k' id : table_ok s' -> key_to_id_ s' !! k = Some id -> k' <> k ->
  key_to_id_ s' !! k' = key_to_id_ s !! k' -> (forall id', id' <> id -> by_id_ s' !! id' = by_id_ s !! id') ->
  entry_of s' k' = entry_of s k'.
Proof.
  intros Hs Hk Hne Hk' Hb. unfold entry_of. rewrite <- Hk'. destruct (key_to_id_ s' !! k') as [id'|] eqn:E; cbn; [|done].
  apply Hb. intros ->. by apply Hne, (t_inj _ Hs _ _ id).
Qed.

(** An update of the entry of [k] alone leaves the entries of the other keys. *)
Lemma find_or_create_frame s k pid s1 id : table_ok s -> next_id_ s < 2 ^ 32 - 1 ->
  find_or_create cfg s k pid = Some (s1, id) -> forall k', k' <> k -> entry_of s1 k' = entry_of s k'.
Proof using Hmax.
  intros Hs Hn E k' Hne. pose proof (find_or_create_spec s k pid Hs Hn) as Hfc. rewrite E in Hfc.
  destruct Hfc as (Hs1 & Hk1 & _ & r & _ & _ & [[-> _]|(Hk & _ & _ & Hb)]); [done|].
  unfold find_or_create in E. rewrite Hk in E. destruct (_ <=? _); [done|].
  eapply entry_of_ne; eauto.
  - injection E as <- _. cbn. by rewrite lookup_insert_ne.
  - intros id' Hid. rewrite Hb. by rewrite lookup_insert_ne.
Qed.

Lemma entry_of_put s k id m r : key_to_id_ s !! k = Some id -> table_ok s ->
  by_id_ m = <[id := r]> (by_id_ s) -> (forall k', k' <> k -> key_to_id_ m !! k' = key_to_id_ s !! k') ->
  forall k', k' <> k -> entry_of m k' = entry_of s k'.
Proof.
  intros Hk Hs Hb Hkeys k' Hne. unfold entry_of. rewrite Hkeys by done.
  destruct (key_to_id_ s !! k') as [id'|] eqn:E; cbn; [|done]. rewrite Hb.
  rewrite lookup_insert_ne; [done|]. intros <-. by apply Hne, (t_inj _ Hs _ _ id).
Qed.

(** The entry a fragment of [k] goes to is the one [k] had, or a fresh one. *)
Lemma find_or_create_before s k pid s1 id r : table_ok s -> next_id_ s < 2 ^ 32 - 1 ->
  find_or_create cfg s k pid = Some (s1, id) -> by_id_ s1 !! id = Some r ->
  r_fragments r = r_fragments (entry_before s k) /\ r_total_length r = r_total_length (entry_before s k) /\
  r_have_last r = r_have_last (entry_before s k).
Proof using Hmax.
  intros Hs Hn E Hr. pose proof (find_or_create_spec s k pid Hs Hn) as Hfc. rewrite E in Hfc.
  unfold entry_before, entry_of. destruct Hfc as (_ & _ & _ & r' & Hr' & _ & [[-> Hk]|(Hk & _ & Hnew & _)]); rewrite Hk; cbn.
  - by rewrite Hr.
  - simplify_eq. done.
Qed.

Definition stored (f : FragmentSpan) (b r' : Reassembly) : Prop :=
  r_fragments r' = r_fragments b ++ [f] /\
  r_have_last r' = (if more_fragments f then r_have_last b else true) /\
  r_total_length r' = (if more_fragments f then r_total_length b else fragment_end f).

(** What one call of [add_fragment] does: it never faults; the fragment is
    stored exactly when there is room; the entries of other keys are as
    before; stored, the call completes exactly when the entry's fragments make
    up a datagram, which the parts spell out. *)
Lemma add_fragment_spec s k f : table_ok s -> next_id_ s < 2 ^ 32 - 1 -> fragment_in f ->
  exists s' o, add_fragment cfg sort s k f = Some (s', o) /\ table_ok s' /\ next_id_ s' <= next_id_ s + 1 /\
    (o_retained o = true <->
       (key_to_id_ s !! k = None -> Z.of_nat (size (by_id_ s)) < max_concurrent cfg) /\
       bytes_held (r_fragments (entry_before s k)) + zlen (data f) <= max_datagram_bytes cfg) /\
    (o_retained o = false -> o_completed o = false) /\
    (forall k', k' <> k -> entry_of s' k' = entry_of s k') /\
    (o_retained o = true -> exists r', by_id_ s' !! o_datagram_id o = Some r' /\
       stored f (entry_before s k) r' /\
       key_to_id_ s' !! k = (if o_completed o then None else Some (o_datagram_id o)) /\
       forall d, (o_completed o = true /\ concat (o_parts o) = d) <-> entry_datagram r' d).
Proof using All.
  intros Hs Hn [Hf Hsz]. unfold add_fragment. pose proof (find_or_create_spec s k (packet_id f) Hs Hn) as Hfc.
  destruct (find_or_create cfg s k (packet_id f)) as [[s1 id]|] eqn:Efc.
  2: { eexists _, _. split; [done|]. cbn. split; [done|]. split; [lia|]. split; [|done].
       split; [done|]. intros [Hroom _]. destruct Hfc as [Hk Hfull]. specialize (Hroom Hk). lia. }
  destruct Hfc as (Hs1 & Hk1 & Hn1 & r & Hr & Hc & Hfrom). rewrite Hr.
  destruct (find_or_create_before s k (packet_id f) s1 id r Hs Hn Efc Hr) as (E1 & E2 & E3).
  pose proof (find_or_create_frame s k (packet_id f) s1 id Hs Hn Efc) as Hframe.
  destruct (t_ids _ Hs1 _ _ Hr) as (_ & Hid & Hro). pose proof (touch_ok r f Hro Hc) as Hto.
  pose proof (bytes_held_nonneg (r_fragments r)). pose proof (zlen_nonneg (data f)).
  assert (Hal : already (touch r f) = bytes_held (r_fragments r)) by done. rewrite Hal. pose proof (e_held _ Hro).
  rewrite (wrap_small 64) by lia. rewrite <- E1.
  destruct (Z.ltb_spec (max_datagram_bytes cfg) (bytes_held (r_fragments r) + zlen (data f))) as [Hbig|Hfit].
  { eexists _, _. split; [done|]. cbn. split; [by apply (put_ok _ _ r)|]. split; [lia|].
    split; [split; [done|intros; lia]|]. split; [done|]. split; [|done].
    intros k' Hne. rewrite <- Hframe by done. by apply (entry_of_put s1 k id _ (touch r f)). }
  destruct (try_complete_spec s1 k id r (store_fragment (touch r f) f)) as (s' & o & r' & -> & Hs' & Hn' & Hi & Hret & Hb & Hfr & Htot & Hlast & _ & _ & Hkey & Hd);
    [done..|by apply store_ok|done|done|].
  eexists _, _. split; [done|]. split; [done|]. split; [lia|]. split; [|split; [congruence|split]].
  - split; [intros _|done]. split; [|lia]. intros Hk. unfold find_or_create in Efc. rewrite Hk in Efc.
    destruct (_ <=? _) eqn:Ele; [done|]. apply Z.leb_gt in Ele. lia.
  - intros k' Hne. rewrite <- Hframe by done. apply (entry_of_put s1 k id _ r'); [done|done|done| |done].
    intros k2 Hne2. rewrite Hkey. destruct (o_completed o); [by rewrite lookup_delete_ne|done].
  - intros _. exists r'. rewrite Hi, Hb, lookup_insert_eq, Hkey. split; [done|]. split; [|split; [|done]].
    + split; [by rewrite Hfr; cbn; rewrite E1|]. rewrite Hlast, Htot. cbn. by rewrite E2, E3.
    + destruct (o_completed o); [by rewrite lookup_delete_eq|by rewrite Hk1].
Qed.
End Invariant.

(** * IP fragment reassembly: histories

    Sequences of [add_fragment], [retire], [materialize] and [evict_stale]
    calls: no call ever faults, the invariant holds throughout, and the
    buffers callers hand over are given back exactly once. *)

(** Tokens the table never reports on eviction are left out of the accounts. *)
Definition tracked (ts : list Z) : list Z := filter (fun t => t <> kNoToken) ts.

Lemma tracked_app ts ts' : tracked (ts ++ ts') = tracked ts ++ tracked ts'.
Proof. apply filter_app. Qed.

#[export] Instance tracked_proper : Proper (Permutation ==> Permutation) tracked.
Proof. intros ts ts' Ht. unfold tracked. by rewrite Ht. Qed.

Definition tokens (r : Reassembly) : list Z := token <$> r_fragments r.

(** The tokens of the entries of a map. *)
Definition pinned_by (m : gmap Z Reassembly) : list Z := concat ((fun e => tokens e.2) <$> map_to_list m).

Lemma pinned_insert m id r : m !! id = None -> pinned_by (<[id := r]> m) ≡ₚ tokens r ++ pinned_by m.
Proof. intros Hm. unfold pinned_by. by rewrite map_to_list_insert. Qed.

Lemma pinned_delete m id r : m !! id = Some r -> pinned_by m ≡ₚ tokens r ++ pinned_by (delete id m).
Proof. intros Hm. unfold pinned_by. by rewrite <- (map_to_list_delete m id r). Qed.

(** Adding fragments to an entry, and taking all of them away. *)
Lemma pinned_append m id r r' l : m !! id = Some r -> r_fragments r' = r_fragments r ++ l ->
  pinned_by (<[id := r']> m) ≡ₚ (token <$> l) ++ pinned_by m.
Proof.
  intros Hm Hr. rewrite (pinned_delete m id r Hm), (pinned_delete (<[id := r']> m) id r').
  - rewrite delete_insert_eq. unfold tokens. rewrite Hr, fmap_app, !app_assoc.
    by rewrite (Permutation_app_comm (token <$> l)).
  - by rewrite lookup_insert_eq.
Qed.

Lemma pinned_clear m id r r' : m !! id = Some r -> r_fragments r' = [] ->
  pinned_by m ≡ₚ tokens r ++ pinned_by (<[id := r']> m).
Proof.
  intros Hm Hr. rewrite (pinned_delete m id r Hm), (pinned_delete (<[id := r']> m) id r').
  - rewrite delete_insert_eq. unfold tokens. by rewrite Hr.
  - by rewrite lookup_insert_eq.
Qed.

Section History.
Context {K : Type} `{Countable K} (cfg : Config).
Context (sort : list FragmentSpan -> list FragmentSpan) `{!SortsFragments sort}.
Context (Hmax : 0 <= max_datagram_bytes cfg < 2 ^ 32).
Implicit Types (s : ReassemblyTable K).

Definition pinned s : list Z := pinned_by (by_id_ s).

Lemma find_or_create_pinned s k pid s' id : table_ok cfg s -> next_id_ s < 2 ^ 32 - 1 ->
  find_or_create cfg s k pid = Some (s', id) -> pinned s' ≡ₚ pinned s.
Proof using Hmax.
  intros Hs Hn E. pose proof (find_or_create_spec cfg Hmax s k pid Hs Hn) as Hf. rewrite E in Hf.
  destruct Hf as (_ & _ & _ & r & _ & _ & [[-> _]|(_ & Hno & -> & Hb)]); [done|].
  unfold pinned. rewrite Hb, pinned_insert; done.
Qed.

Lemma try_complete_frame s k id r s' o : try_complete sort s k id r = Some (s', o) ->
  o_retained o = true /\ exists r', by_id_ s' = <[id := r']> (by_id_ s) /\ r_fragments r' = r_fragments r.
Proof.
  unfold try_complete. intros E. repeat case_match; simplify_eq/=; eauto.
Qed.

Lemma add_fragment_pinned s k f s' o : table_ok cfg s -> next_id_ s < 2 ^ 32 - 1 ->
  add_fragment cfg sort s k f = Some (s', o) ->
  pinned s' ≡ₚ (if o_retained o then [token f] else []) ++ pinned s.
Proof using All.
  intros Hs Hn. unfold add_fragment. pose proof (find_or_create_spec cfg Hmax s k (packet_id f) Hs Hn) as Hfc.
  destruct (find_or_create cfg s k (packet_id f)) as [[s1 id]|] eqn:Efc; [|by intros [= <- <-]].
  rewrite <- (find_or_create_pinned s k (packet_id f) s1 id Hs Hn Efc).
  destruct Hfc as (Hs1 & Hk1 & Hn1 & r & Hr & Hc & _). rewrite Hr. 
  destruct (t_ids _ _ Hs1 _ _ Hr) as (_ & Hid & Hro).
  destruct (_ <? _).
  { intros [= <- <-]. unfold pinned. cbn. apply (pinned_append _ id r _ []); [done|]. by rewrite app_nil_r. }
  intros (-> & r' & Hb & Hf)%try_complete_frame. unfold pinned. rewrite Hb. by apply (pinned_append _ id r _ [f]).
Qed.

Lemma retire_pinned s id : pinned s ≡ₚ (retire s id).2 ++ pinned (retire s id).1.
Proof.
  unfold retire. destruct (by_id_ s !! id) as [r|] eqn:E; [|done]. destruct (_ || _); [done|].
  by apply (pinned_clear _ id r).
Qed.

Lemma materialize_pinned s id : pinned (materialize s id).1 ≡ₚ pinned s.
Proof.
  unfold materialize. destruct (by_id_ s !! id) as [r|] eqn:E; [|done]. destruct (r_completed r); [|done]. cbn.
  destruct (r_retired r && _); [done|]. destruct (_ && _); [|done].
  unfold pinned. cbn. apply (pinned_append _ id r _ []); [done|]. by rewrite app_nil_r.
Qed.

Lemma evict_fold_pinned now l : forall s out, NoDup l.*1 -> (forall id r, (id, r) ∈ l -> by_id_ s !! id = Some r) ->
  let '(s', out') := fold_left (evict_one cfg now) l (s, out) in
  concat (s_tokens <$> out) ++ tracked (pinned s) ≡ₚ concat (s_tokens <$> out') ++ tracked (pinned s').
Proof.
  induction l as [|[id r] l IH]; intros s out Hnd Hl; cbn [fold_left]; [done|].
  apply NoDup_cons in Hnd as [Hni Hnd]. unfold evict_one at 2. destruct (aged_out cfg now r); cbn.
  2: { apply IH; [done|]. intros. apply Hl. by constructor. }
  specialize (IH (Table (filter (fun kv => kv.2 <> id) (key_to_id_ s)) (delete id (by_id_ s)) (next_id_ s)) (out ++ [summary r])).
  destruct fold_left as [s' out']. rewrite <- IH; [|done|].
  - rewrite fmap_app, concat_app. cbn. rewrite app_nil_r, <- app_assoc. f_equiv. unfold pinned. cbn.
    rewrite (pinned_delete (by_id_ s) id r), tracked_app; [done|]. apply Hl. constructor.
  - intros id' r' Hin. cbn. rewrite lookup_delete_ne; [apply Hl; by constructor|].
    intros ->. apply Hni. apply list_elem_of_fmap. by exists (id', r').
Qed.

(** The summaries report tracked tokens only. *)
Lemma evict_reports s now : let ts := concat (s_tokens <$> (evict_stale cfg s now).2) in tracked ts = ts.
Proof.
  cbn. unfold evict_stale. pose proof (evict_fold cfg now (map_to_list (by_id_ s)) s []) as Hf.
  destruct fold_left as [s' out]. destruct Hf as (_ & _ & _ & ->). cbn.
  set (rs := (filter _ (map_to_list (by_id_ s))).*2). induction rs as [|r rs IH]; cbn; [done|].
  rewrite tracked_app. f_equal; [|exact IH]. unfold tracked. by apply list_filter_filter_l.
Qed.

Lemma evict_pinned s now : tracked (pinned s) ≡ₚ
  concat (s_tokens <$> (evict_stale cfg s now).2) ++ tracked (pinned (evict_stale cfg s now).1).
Proof.
  unfold evict_stale. pose proof (evict_fold_pinned now (map_to_list (by_id_ s)) s []) as Hf.
  destruct fold_left as [s' out]. cbn in *. apply Hf; [apply NoDup_fst_map_to_list|].
  intros id r. apply elem_of_map_to_list.
Qed.

(** ** Steps and histories *)
Lemma retire_ok s id : table_ok cfg s -> table_ok cfg (retire s id).1.
Proof using Hmax.
  intros Hs. unfold retire. destruct (by_id_ s !! id) as [r|] eqn:E; [|done].
  destruct (t_ids _ _ Hs _ _ E) as (_ & _ & Hr). destruct (r_completed r) eqn:Ec; [|done].
  destruct (r_retired r); [done|]. cbn. apply (put_ok _ _ _ r); auto. apply set_retired_ok; auto. lia.
Qed.

Lemma materialize_ok s id : table_ok cfg s -> table_ok cfg (materialize s id).1.
Proof using All.
  intros Hs. unfold materialize. destruct (by_id_ s !! id) as [r|] eqn:E; [|done].
  destruct (t_ids _ _ Hs _ _ E) as (_ & _ & Hr). destruct (r_completed r) eqn:Ec; [|done]. cbn.
  destruct (r_retired r) eqn:Er; cbn; destruct (_ && _); [done..| |done].
  apply (put_ok _ _ _ r); auto. by apply set_materialized_ok.
Qed.

(** What a caller may ask for. *)
Definition op_ok (o : @op K) : Prop :=
  match o with AddFragment k f => fragment_in f | _ => True end.

Lemma step_spec s o : table_ok cfg s -> next_id_ s < 2 ^ 32 - 1 -> op_ok o ->
  exists s' pin rel, step cfg sort s o = Some (s', (pin, rel)) /\ table_ok cfg s' /\
    next_id_ s' <= next_id_ s + 1 /\ tracked (pin ++ pinned s) ≡ₚ tracked rel ++ tracked (pinned s').
Proof using All.
  intros Hs Hn Ho. destruct o as [k f|id|id|now]; cbn.
  - destruct (add_fragment_spec cfg sort Hmax s k f Hs Hn Ho) as (s' & o & E & Hs' & Hn' & _). rewrite E.
    eexists _, _, _. split; [done|]. split; [done|]. split; [done|]. by rewrite (add_fragment_pinned s k f s' o).
  - pose proof (retire_ok s id Hs) as Hok. pose proof (retire_pinned s id) as Hp.
    assert (Hnx : next_id_ (retire s id).1 = next_id_ s) by (unfold retire; by repeat case_match).
    destruct (retire s id) as [s' ts]. cbn in *. eexists _, _, _. split; [done|]. split; [done|]. split; [lia|].
    cbn. by rewrite Hp, tracked_app.
  - eexists _, _, _. split; [done|]. split; [by apply materialize_ok|].
    split; [unfold materialize; repeat case_match; cbn; lia|]. cbn. by rewrite materialize_pinned.
  - pose proof (evict_ok cfg s now Hs) as Hok. pose proof (evict_pinned s now) as Hp. pose proof (evict_next cfg s now).
    pose proof (evict_reports s now) as Hr.
    destruct (evict_stale cfg s now) as [s' out]. cbn in *. eexists _, _, _. split; [done|]. split; [done|]. split; [lia|].
    cbn. rewrite Hp. unfold tracked at 2. by rewrite Hr.
Qed.

Lemma run_spec ops : forall s, table_ok cfg s -> Forall op_ok ops -> next_id_ s + zlen ops < 2 ^ 32 ->
  exists s' pins rels, run cfg sort s ops = Some (s', (pins, rels)) /\ table_ok cfg s' /\
    next_id_ s' <= next_id_ s + zlen ops /\
    tracked (pins ++ pinned s) ≡ₚ tracked rels ++ tracked (pinned s').
Proof using All.
  induction ops as [|o ops IH]; intros s Hs Hops Hn; cbn.
  { eexists _, _, _. split; [done|]. split; [done|]. split; [change (zlen []) with 0; lia|done]. }
  apply Forall_cons in Hops as [Ho Hops]. rewrite zlen_cons in Hn |- *. pose proof (zlen_nonneg ops).
  destruct (step_spec s o Hs ltac:(lia) Ho) as (s1 & pin & rel & -> & Hs1 & Hn1 & Ht1).
  destruct (IH s1 Hs1 Hops ltac:(lia)) as (s2 & pins & rels & -> & Hs2 & Hn2 & Ht2).
  eexists _, _, _. split; [done|]. split; [done|]. split; [lia|]. rewrite !tracked_app in *.
  rewrite <- !app_assoc, <- Ht2, (Permutation_app_comm (tracked pin)), <- app_assoc.
  rewrite (Permutation_app_comm (tracked (pinned s))), Ht1, !app_assoc. f_equiv. apply Permutation_app_comm.
Qed.

(** The tables a program can get hold of. *)
Definition reachable s (n : Z) : Prop :=
  exists ops pins rels, Forall op_ok ops /\ zlen ops <= n /\ run cfg sort empty_table ops = Some (s, (pins, rels)).

Lemma reachable_ok s n : n < 2 ^ 32 - 2 -> reachable s n -> table_ok cfg s /\ next_id_ s <= n + 1.
Proof using All.
  intros Hn (ops & pins & rels & Hops & Hlen & E).
  destruct (run_spec ops empty_table) as (s' & p & r & E' & Hs' & Hnx & _); [apply empty_table_ok|done|cbn; lia|].
  rewrite E in E'. simplify_eq. cbn in Hnx. split; [done|lia].
Qed.
End History.
