(* ===== verification/DefragSpecs.v ===== *)
(** * IP fragment reassembly: what the table promises its callers

    The theorems on every history of calls, and the round trip of a datagram
    cut into fragments that arrive in any order. *)
From stdpp Require Import gmap sorting.
From S2P Require Import Prelude Defrag DefragScan DefragTable.

(** A datagram cut into pieces, each with the packet it travels in and the
    token of that packet's buffer: all but the last have more fragments. *)
Fixpoint fragmentize (off : Z) (pieces : list (list Z * Z * Z)) : list FragmentSpan :=
  match pieces with
  | [] => []
  | (p, pid, tok) :: rest =>
      Fragment off pid (negb (bool_decide (rest = []))) p tok :: fragmentize (off + zlen p) rest
  end.

Definition payload (pieces : list (list Z * Z * Z)) : list Z := concat (pieces.*1.*1).

Definition terminal (f : FragmentSpan) : bool := negb (more_fragments f).

Lemma bytes_held_cut pieces : forall off, bytes_held (fragmentize off pieces) = zlen (payload pieces).
Proof.
  unfold payload. induction pieces as [|[[p pid] tok] ps IH]; intros off; [done|]. cbn.
  rewrite zlen_app. specialize (IH (off + zlen p)). unfold bytes_held in IH. rewrite IH. done.
Qed.

Lemma cut_range pieces : forall off f, f ∈ fragmentize off pieces ->
  off <= offset_bytes f /\ offset_bytes f + zlen (data f) <= off + zlen (payload pieces) /\
  (terminal f = true -> offset_bytes f + zlen (data f) = off + zlen (payload pieces)).
Proof.
  unfold payload. induction pieces as [|[[p pid] tok] ps IH]; intros off f; cbn; [by intros ?%elem_of_nil|].
  rewrite zlen_app. pose proof (zlen_nonneg p). pose proof (zlen_nonneg (concat (ps.*1.*1))).
  intros [->|Hf]%elem_of_cons; cbn.
  - split_and!; [lia..|]. unfold terminal. cbn. rewrite negb_involutive. rewrite bool_decide_eq_true.
    intros ->. cbn. change (@zlen Z []) with 0. lia.
  - destruct (IH _ _ Hf) as (? & ? & Ht). split_and!; [lia..|]. intros Hl. specialize (Ht Hl). lia.
Qed.

Lemma cut_agrees pieces : forall off d f, zlen d = off -> f ∈ fragmentize off pieces ->
  agrees (off + zlen (payload pieces)) (d ++ payload pieces) f.
Proof.
  unfold payload. induction pieces as [|[[p pid] tok] ps IH]; intros off d f Hd; cbn; [by intros ?%elem_of_nil|].
  intros [->|Hf]%elem_of_cons.
  - intros j b Hj _. cbn in *. pose proof (zget_Some_range _ _ _ Hj).
    rewrite zget_app_r by lia. rewrite zget_app_l by lia. rewrite <- Hj. f_equal. lia.
  - rewrite app_assoc. specialize (IH (off + zlen p) (d ++ p) f). rewrite zlen_app in IH.
    intros j b Hj Hlt. apply IH; [lia|done|done|]. rewrite zlen_app in Hlt. lia.
Qed.

Lemma cut_covers pieces : forall off k, off <= k < off + zlen (payload pieces) ->
  Exists (fun f => covers f k) (fragmentize off pieces).
Proof.
  unfold payload. induction pieces as [|[[p pid] tok] ps IH]; intros off k; cbn; [change (@zlen Z []) with 0; lia|].
  rewrite zlen_app. intros Hk. destruct (decide (k < off + zlen p)).
  - left. red. cbn. lia.
  - right. apply IH. lia.
Qed.

Lemma cut_datagram pieces : datagram_of (zlen (payload pieces)) (fragmentize 0 pieces) (payload pieces).
Proof.
  split; [done|]. split; [|split].
  - apply Forall_forall. intros f Hf. apply (cut_agrees pieces 0 []); done.
  - intros k Hk. apply cut_covers. lia.
  - intros f k Hf Hk. apply cut_covers. destruct (cut_range _ _ _ Hf) as (_ & ? & _). pose proof (zlen_nonneg (data f)). lia.
Qed.

Lemma cut_terminal pieces off : pieces <> [] -> Exists (fun f => terminal f = true) (fragmentize off pieces).
Proof.
  revert off. induction pieces as [|[[p pid] tok] [|q ps] IH]; intros off Hne; [done|by left|]. right. by apply IH.
Qed.

Lemma cut_pieces pieces : forall off f, f ∈ fragmentize off pieces -> data f ∈ pieces.*1.*1.
Proof.
  induction pieces as [|[[p pid] tok] ps IH]; intros off f; cbn; [by intros ?%elem_of_nil|].
  intros [->|Hf]%elem_of_cons; constructor. eauto.
Qed.

(** A datagram is no longer than the fragments it is made of. *)
Lemma datagram_bytes total fs d : 0 <= total -> Forall fragment_ok fs -> bytes_held fs < 2 ^ 32 ->
  datagram_of total fs d -> total <= bytes_held fs.
Proof.
  intros Ht Hok Hb Hd. destruct (assemble_complete (merge_sort fragment_le) total fs Ht Hok Hb d Hd) as (parts & Ha & _).
  pose proof (scan_outcome_sorted (merge_sort fragment_le) total fs Ht Hok Hb) as Ho. unfold assemble in Ha.
  destruct build_parts as [| |p c|]; try done. destruct (Z.ltb_spec c total); [done|].
  apply sc_bound in Ho. rewrite (bytes_held_perm _ fs) in Ho by apply merge_sort_Permutation. lia.
Qed.

Section Specs.
Context {K : Type} `{Countable K} (cfg : Config).
Context (sort : list FragmentSpan -> list FragmentSpan) `{!SortsFragments sort}.
Context (Hmax : 0 <= max_datagram_bytes cfg < 2 ^ 32).
Implicit Types (s : ReassemblyTable K).

Fixpoint feed s k (fs : list FragmentSpan) : option (ReassemblyTable K * list Result) :=
  match fs with
  | [] => Some (s, [])
  | f :: fs =>
      match add_fragment cfg sort s k f with
      | None => None
      | Some (s, o) =>
          match feed s k fs with
          | None => None
          | Some (s, os) => Some (s, o :: os)
          end
      end
  end.

(** [l] has arrived of a datagram of [n] bytes, and is not all of it. *)
Record arrived s k (n : Z) (l : list FragmentSpan) : Prop := {
  ar_ok : table_ok cfg s;
  ar_fragments : r_fragments (entry_before s k) = l;
  ar_last : r_have_last (entry_before s k) = existsb terminal l;
  ar_total : r_have_last (entry_before s k) = true -> r_total_length (entry_before s k) = n;
  ar_room : key_to_id_ s !! k = None -> Z.of_nat (size (by_id_ s)) < max_concurrent cfg
}.

Lemma arrived_step s k n l f : arrived s k n l -> next_id_ s < 2 ^ 32 - 1 -> fragment_in f ->
  (terminal f = true -> fragment_end f = n) -> bytes_held l + zlen (data f) <= max_datagram_bytes cfg ->
  exists s' o, add_fragment cfg sort s k f = Some (s', o) /\ next_id_ s' <= next_id_ s + 1 /\ o_retained o = true /\
    (o_completed o = false -> arrived s' k n (l ++ [f])) /\
    (existsb terminal (l ++ [f]) = true -> forall d,
       (o_completed o = true /\ concat (o_parts o) = d) <-> datagram_of n (l ++ [f]) d) /\
    (existsb terminal (l ++ [f]) = false -> o_completed o = false).
Proof using All.
  intros [Hs Hfr Hla Hto Hro] Hn Hin Hend Hb.
  destruct (add_fragment_spec cfg sort Hmax s k f Hs Hn Hin) as (s' & o & E & Hs' & Hn' & Hret & _ & _ & Hst).
  assert (Hr : o_retained o = true) by (apply Hret; rewrite Hfr; done).
  destruct (Hst Hr) as (r' & Hr' & (Hf' & Hl' & Ht') & Hk' & Hd).
  assert (Hla' : r_have_last r' = existsb terminal (l ++ [f])).
  { rewrite Hl', Hla, existsb_app. cbn. unfold terminal. destruct (more_fragments f); cbn; by rewrite ?orb_false_r, ?orb_true_r. }
  assert (Hto' : r_have_last r' = true -> r_total_length r' = n).
  { rewrite Hl', Ht'. unfold terminal in Hend. destruct (more_fragments f); cbn in Hend; auto. }
  eexists _, _. split; [exact E|]. split; [done|]. split; [done|]. split; [|split].
  - intros Hc. rewrite Hc in Hk'.
    assert (Hb' : entry_before s' k = r') by (unfold entry_before, entry_of; rewrite Hk'; cbn; by rewrite Hr').
    split; rewrite ?Hb'; auto; congruence.
  - intros Hlast d. rewrite (Hd d). unfold entry_datagram. rewrite Hla', Hf', Hfr, Hto' by congruence. naive_solver.
  - intros Hlast. destruct (o_completed o); [|done]. destruct (Hd (concat (o_parts o))) as [Hx _].
    destruct Hx as [Hy _]; [done|]. congruence.
Qed.

Section Cut.
Context (pieces : list (list Z * Z * Z)) (k : K).
Context (Hne : Forall (fun p => p <> []) (pieces.*1.*1)).
Context (Hfit : zlen (payload pieces) <= max_datagram_bytes cfg).

Lemma cut_fragment f : f ∈ fragmentize 0 pieces ->
  fragment_in f /\ (terminal f = true -> fragment_end f = zlen (payload pieces)) /\ 0 < zlen (data f).
Proof using All.
  intros Hf. destruct (cut_range _ _ _ Hf) as (H1 & H2 & H3).
  assert (0 < zlen (data f)).
  { apply cut_pieces in Hf. rewrite Forall_forall in Hne. specialize (Hne _ Hf).
    destruct (data f); [done|]. rewrite zlen_cons. pose proof (zlen_nonneg l). lia. }
  assert (Hok : fragment_ok f) by (red; lia). split_and!; [split; [done|lia]| |done].
  intros Ht. specialize (H3 Ht). rewrite (fragment_end_value f (offset_bytes f)); [lia|done|lia|lia].
Qed.

Lemma existsb_Exists (P : FragmentSpan -> bool) l : existsb P l = true <-> Exists (fun f => P f = true) l.
Proof. rewrite existsb_exists, Exists_exists. split; intros (x & Hx & Hp); exists x; split; auto; by apply list_elem_of_In. Qed.

(** Fragments that lack some of the datagram are not one. *)
Lemma partial_datagram l f rest d : l ++ f :: rest ≡ₚ fragmentize 0 pieces -> rest <> [] ->
  ~ datagram_of (zlen (payload pieces)) (l ++ [f]) d.
Proof using All.
  intros Hp Hr Hd. assert (Hall : forall g, g ∈ l ++ f :: rest -> g ∈ fragmentize 0 pieces) by (intros g; by rewrite Hp).
  apply bytes_held_perm in Hp. rewrite bytes_held_cut in Hp. rewrite cons_middle, app_assoc, bytes_held_app in Hp.
  destruct rest as [|g rest]; [done|]. destruct (cut_fragment g) as (_ & _ & Hg); [apply Hall; set_solver|].
  change (bytes_held (g :: rest)) with (zlen (data g) + bytes_held rest) in Hp. pose proof (bytes_held_nonneg rest).
  apply datagram_bytes in Hd; [lia|apply zlen_nonneg| |lia].
  apply Forall_forall. intros h Hh. destruct (cut_fragment h) as [[? _] _]; [apply Hall; set_solver|done].
Qed.

Lemma feed_cut rest : forall l s, arrived s k (zlen (payload pieces)) l -> rest <> [] ->
  l ++ rest ≡ₚ fragmentize 0 pieces -> next_id_ s + zlen rest < 2 ^ 32 ->
  exists s' os o, feed s k rest = Some (s', os ++ [o]) /\
    Forall (fun o => o_completed o = false) os /\ o_completed o = true /\ concat (o_parts o) = payload pieces.
Proof using All.
  induction rest as [|f rest IH]; intros l s Har Hr Hp Hn; [done|]. clear Hr. cbn [feed].
  rewrite zlen_cons in Hn. pose proof (zlen_nonneg rest).
  destruct (cut_fragment f) as (Hin & Hend & _); [rewrite <- Hp; set_solver|].
  assert (Hb : bytes_held l + zlen (data f) <= max_datagram_bytes cfg).
  { apply bytes_held_perm in Hp. rewrite bytes_held_cut, bytes_held_app in Hp.
    change (bytes_held (f :: rest)) with (zlen (data f) + bytes_held rest) in Hp. pose proof (bytes_held_nonneg rest). lia. }
  destruct (arrived_step s k (zlen (payload pieces)) l f Har ltac:(lia) Hin Hend Hb) as (s1 & o & -> & Hn1 & _ & Hnext & Hyes & Hno).
  destruct (decide (rest = [])) as [->|Hrest].
  - exists s1, [], o. cbn. split; [done|]. split; [constructor|].
    apply (Hyes); [|eapply datagram_of_perm; [symmetry; exact Hp|apply cut_datagram]].
    rewrite existsb_Exists, Hp. apply cut_terminal. intros ->. symmetry in Hp. apply Permutation_nil in Hp. by destruct l.
  - assert (Hc : o_completed o = false).
    { destruct (existsb terminal (l ++ [f])); [|by apply Hno]. destruct (o_completed o); [|done].
      destruct (partial_datagram l f rest (concat (o_parts o)) Hp Hrest). by apply Hyes. }
    destruct (IH (l ++ [f]) s1) as (s' & os & o' & -> & Hos & Hc' & Hd); [auto|done|by rewrite <- app_assoc|lia|].
    exists s', (o :: os), o'. split; [done|]. split; [by constructor|done].
Qed.
End Cut.

(** Over any history of fewer than 2^32 - 1 calls, no operation of the
    reassembly table faults (the [by_id_.at] of [add_fragment] finds its entry,
    every [subspan] is in range) and the table's invariant holds: keys lead to
    distinct, incomplete entries; every entry's summary counters agree with
    its fragments; a completed entry's parts are the datagram; a retired one
    holds no span. *)
Theorem defrag_history_safe ops : Forall op_ok ops -> zlen ops < 2 ^ 32 - 1 ->
  exists s pins rels, run cfg sort (@empty_table K _ _) ops = Some (s, (pins, rels)) /\ table_ok cfg s.
Proof using All.
  intros Hops Hn.
  destruct (run_spec cfg sort Hmax ops empty_table) as (s & p & r & E & Hs & _); [apply empty_table_ok|done|cbn; lia|eauto].
Qed.

(** C11: over any history, the buffers callers handed over with a retained
    fragment are, each exactly once, either released by [retire] or
    [evict_stale] or still pinned by a fragment of the table (the
    untracked token aside). *)
Theorem defrag_tokens_conserved ops s pins rels : Forall op_ok ops -> zlen ops < 2 ^ 32 - 1 ->
  run cfg sort (@empty_table K _ _) ops = Some (s, (pins, rels)) ->
  tracked pins ≡ₚ tracked rels ++ tracked (pinned s).
Proof using All.
  intros Hops Hn E.
  destruct (run_spec cfg sort Hmax ops empty_table) as (s' & p & r & E' & _ & _ & Ht); [apply empty_table_ok|done|cbn; lia|].
  rewrite E in E'. simplify_eq. rewrite tracked_app in Ht. unfold pinned in Ht at 1. cbn in Ht.
  by rewrite app_nil_r in Ht.
Qed.

(** An entry nothing went wrong with so far: no disagreement was found among its
    fragments, and a terminal fragment that it keeps declared its length. *)
Definition untainted (r : Reassembly) : Prop :=
  r_conflict r = false /\
  (r_have_last r = true -> Exists (fun g => terminal g = true /\ fragment_end g = r_total_length r) (r_fragments r)).

(** C9: [add_fragment] on a reachable table, for a key whose entry is absent or
    untainted (no conflict found in it yet, its declared length that of a
    terminal fragment it kept), keeps the fragment exactly when there is room
    for it and leaves the entries of all other keys alone. A call that keeps the
    fragment completes exactly when the fragments of its entry make up a datagram
    [d] of the declared length: every byte of [d] is in some fragment, all of
    them agree with [d], and none lies beyond a hole; the parts returned are then
    [d], whatever order they arrived in. (What becomes of a tainted entry is
    shown by [conflict_can_complete] and [dropped_terminal_declares_length].) *)
Theorem add_fragment_exact s n k f : n < 2 ^ 32 - 2 -> reachable cfg sort s n -> fragment_in f -> untainted (entry_before s k) ->
  exists s' o, add_fragment cfg sort s k f = Some (s', o) /\
    (o_retained o = true <->
       (key_to_id_ s !! k = None -> Z.of_nat (size (by_id_ s)) < max_concurrent cfg) /\
       bytes_held (r_fragments (entry_before s k)) + zlen (data f) <= max_datagram_bytes cfg) /\
    (o_retained o = false -> o_completed o = false) /\
    (forall k', k' <> k -> entry_of s' k' = entry_of s k') /\
    (o_retained o = true -> exists r', find s' (o_datagram_id o) = Some r' /\
       stored f (entry_before s k) r' /\
       key_to_id_ s' !! k = (if o_completed o then None else Some (o_datagram_id o)) /\
       forall d, (o_completed o = true /\ concat (o_parts o) = d) <->
         (r_have_last r' = true /\ datagram_of (r_total_length r') (r_fragments r') d)).
Proof using All.
  intros Hn Hr Hf _. destruct (reachable_ok cfg sort Hmax s n Hn Hr) as [Hs Hnx].
  destruct (add_fragment_spec cfg sort Hmax s k f Hs ltac:(lia) Hf) as (s' & o & E & _ & _ & Hrest). eauto.
Qed.

(** A table that does not know the key yet takes the fragments of one
    datagram and completes at the last one. *)
Lemma feed_arrival s n k pieces arrival :
  reachable cfg sort s n -> n + zlen arrival < 2 ^ 32 - 2 ->
  key_to_id_ s !! k = None -> Z.of_nat (size (by_id_ s)) < max_concurrent cfg ->
  pieces <> [] -> Forall (fun p => p <> []) (pieces.*1.*1) -> zlen (payload pieces) <= max_datagram_bytes cfg ->
  arrival ≡ₚ fragmentize 0 pieces ->
  exists s' os o, feed s k arrival = Some (s', os ++ [o]) /\
    Forall (fun o => o_completed o = false) os /\ o_completed o = true /\ concat (o_parts o) = payload pieces.
Proof using All.
  intros Hr Hn Hk Hroom Hne Hnes Hfit Hp. pose proof (zlen_nonneg arrival).
  destruct (reachable_ok cfg sort Hmax s n ltac:(lia) Hr) as [Hs Hnx].
  apply (feed_cut pieces k Hnes Hfit arrival [] s); [|intros ->|done|lia].
  - assert (Hb : entry_before s k = new_reassembly 0 0) by (unfold entry_before, entry_of; by rewrite Hk).
    split; rewrite ?Hb; done.
  - apply Permutation_nil in Hp. by destruct pieces as [|[[? ?] ?] ?].
Qed.

(** C10: a datagram cut into non-empty fragments that arrive in any order, at a
    table with room for it, is put together again: every call but the last
    reports it incomplete, and the last returns parts whose bytes are the
    datagram's. *)
Theorem reassembly_roundtrip s n k pieces arrival :
  reachable cfg sort s n -> n + zlen arrival < 2 ^ 32 - 2 ->
  key_to_id_ s !! k = None -> Z.of_nat (size (by_id_ s)) < max_concurrent cfg ->
  pieces <> [] -> Forall (fun p => p <> []) (pieces.*1.*1) -> zlen (payload pieces) <= max_datagram_bytes cfg ->
  arrival ≡ₚ fragmentize 0 pieces ->
  exists s' os o, feed s k arrival = Some (s', os ++ [o]) /\
    Forall (fun o => o_completed o = false) os /\ o_completed o = true /\ concat (o_parts o) = payload pieces.
Proof using All. apply feed_arrival. Qed.

(** The packets since an entry was last touched are more than the timeout. *)
Definition overdue (now : Z) (r : Reassembly) : bool := timeout_ticks cfg <? now - r_last_packet_id r.

(** The packet that last touched an entry is numbered so that its timeout is no
    wrapped sum, and is not exactly the timeout ago. *)
Definition off_threshold (now : Z) (r : Reassembly) : Prop :=
  0 <= r_last_packet_id r /\ r_last_packet_id r + timeout_ticks cfg < 2 ^ 64 - 1 /\ now - r_last_packet_id r <> timeout_ticks cfg.

Lemma aged_overdue now r : 0 <= timeout_ticks cfg -> off_threshold now r -> aged_out cfg now r = overdue now r.
Proof.
  intros Ht (H0 & H1 & H2). unfold aged_out, overdue, kNoPacket. rewrite wrap_small by lia.
  destruct (Z.eqb_spec (r_last_packet_id r) (2 ^ 64 - 1)); [lia|]. rewrite orb_false_r.
  destruct (Z.leb_spec (r_last_packet_id r + timeout_ticks cfg) now), (Z.ltb_spec (timeout_ticks cfg) (now - r_last_packet_id r)); lia || done.
Qed.

(** C12: at a time at which no entry is exactly [timeout_ticks] packets old,
    [evict_stale] removes the entries last touched more than [timeout_ticks]
    packets ago and no others; it frees the keys that lead to them and no others;
    it reports the summaries of the removed entries, each once, and nothing else;
    and the buffers the table pinned are, each exactly once, in a reported summary
    or pinned still. So when everything is overdue the table ends empty, every
    tracked buffer given back. *)
Theorem evict_stale_releases s now : 0 <= timeout_ticks cfg -> (forall id r, find s id = Some r -> off_threshold now r) ->
  let (s', out) := evict_stale cfg s now in
  (forall id, find s' id = match find s id with
                           | Some r => if overdue now r then None else Some r
                           | None => None
                           end) /\
  (forall k, key_to_id_ s' !! k = match key_to_id_ s !! k with
                                  | Some id => if from_option (overdue now) false (find s id) then None else Some id
                                  | None => None
                                  end) /\
  out ≡ₚ summary <$> (map_to_list (filter (fun e => overdue now e.2 = true) (by_id_ s))).*2 /\
  tracked (pinned s) ≡ₚ concat (s_tokens <$> out) ++ tracked (pinned s') /\
  ((forall id r, find s id = Some r -> overdue now r = true) -> by_id_ s' = ∅ /\ tracked (pinned s') = []).
Proof.
  intros Ht Hoff. pose proof (evict_out cfg s now) as Ho. pose proof (evict_pinned cfg s now) as Hp.
  pose proof (evict_lookup cfg s now) as Hl. pose proof (evict_keys_exact cfg s now) as Hk.
  destruct (evict_stale cfg s now) as [s' out]. cbn in *.
  assert (Hage : forall id r, by_id_ s !! id = Some r -> aged_out cfg now r = overdue now r) by (intros; apply aged_overdue; eauto).
  assert (Hl' : forall id, find s' id = match find s id with Some r => if overdue now r then None else Some r | None => None end).
  { intros id. unfold find. rewrite Hl. destruct (by_id_ s !! id) eqn:E; [|done]. by rewrite (Hage _ _ E). }
  split; [done|]. split; [|split; [|split; [done|]]].
  - intros k. rewrite Hk. unfold find. destruct (key_to_id_ s !! k) as [id|]; [|done]. destruct (by_id_ s !! id) eqn:E; cbn; [|done]. by rewrite (Hage _ _ E).
  - assert (Hf : filter (fun e => aged_out cfg now e.2 = true) (by_id_ s) = filter (fun e => overdue now e.2 = true) (by_id_ s)).
    { apply map_filter_ext. intros id r E. cbn. by rewrite (Hage _ _ E). }
    by rewrite Ho, Hf.
  - intros Hall. assert (Hempty : by_id_ s' = ∅).
    { apply map_eq. intros id. rewrite lookup_empty. change (find s' id = None). rewrite Hl'. unfold find in *.
      destruct (by_id_ s !! id) as [r|] eqn:Er; [|done]. by rewrite (Hall id r Er). }
    split; [done|]. unfold pinned. by rewrite Hempty.
Qed.
End Specs.

(** ** Instances *)

(** Two tables, one over IPv4 keys and one over IPv6 keys, and some fragments. *)
Definition key4 : Ipv4Key := MkIpv4Key [10; 0; 0; 1] [10; 0; 0; 2] 17 7.
Definition std_sort : list FragmentSpan -> list FragmentSpan := merge_sort fragment_le.
Definition pieces3 : list (list Z * Z * Z) := [([1; 2; 3], 11, 101); ([4; 5], 9, 102); ([6], 10, 103)].
Definition arrival3 : list FragmentSpan :=
  [Fragment 5 10 false [6] 103; Fragment 0 11 true [1; 2; 3] 101; Fragment 3 9 true [4; 5] 102].

Lemma arrival3_cut : arrival3 ≡ₚ fragmentize 0 pieces3.
Proof. change (fragmentize 0 pieces3) with [Fragment 0 11 true [1; 2; 3] 101; Fragment 3 9 true [4; 5] 102; Fragment 5 10 false [6] 103].
  unfold arrival3. apply (Permutation_app_comm [_] [_; _]).
Qed.

Lemma default_config_max : 0 <= max_datagram_bytes default_config < 2 ^ 32.
Proof. cbn. lia. Qed.

Lemma empty_reachable : reachable default_config std_sort (@empty_table Ipv4Key _ _) 0.
Proof. exists [], [], []. split; [constructor|]. split; [done|reflexivity]. Qed.

Lemma arrival3_in f : f ∈ arrival3 -> fragment_in f.
Proof.
  unfold arrival3. rewrite !elem_of_cons, elem_of_nil. intros [->|[->|[->|[]]]];
    (split; [split; cbn; lia|vm_compute; reflexivity]).
Qed.

Definition history3 : list (@op Ipv4Key) :=
  [AddFragment key4 (Fragment 5 10 false [6] 103); AddFragment key4 (Fragment 0 11 true [1; 2; 3] 101);
   AddFragment key4 (Fragment 3 9 true [4; 5] 102); Materialize 1; Retire 1; EvictStale 200].

Lemma history3_ok : Forall op_ok history3.
Proof. unfold history3. repeat constructor; cbn; lia. Qed.


Lemma defrag_history_safe_witness : exists s pins rels,
  run default_config std_sort (@empty_table Ipv4Key _ _) history3 = Some (s, (pins, rels)) /\ table_ok default_config s.
Proof.
  apply (defrag_history_safe default_config std_sort default_config_max history3 history3_ok).
  vm_compute. reflexivity.
Defined.

Lemma defrag_tokens_conserved_witness : exists s,
  run default_config std_sort (@empty_table Ipv4Key _ _) history3 = Some (s, ([103; 101; 102], [103; 101; 102])) /\
  tracked [103; 101; 102] ≡ₚ tracked [103; 101; 102] ++ tracked (pinned s).
Proof.
  eexists. split; [vm_compute; reflexivity|].
  apply (defrag_tokens_conserved default_config std_sort default_config_max history3 _ _ _ history3_ok);
    vm_compute; reflexivity.
Defined.

Lemma add_fragment_exact_witness : exists s' o,
  add_fragment default_config std_sort (@empty_table Ipv4Key _ _) key4 (Fragment 5 10 false [6] 103) = Some (s', o) /\
  o_retained o = true /\ o_completed o = false.
Proof.
  destruct (add_fragment_exact default_config std_sort default_config_max empty_table 0 key4 (Fragment 5 10 false [6] 103))
    as (s' & o & E & Hret & _ & _ & Hst); [lia|apply empty_reachable|by apply arrival3_in; left|by split|].
  assert (Hr : o_retained o = true) by (apply Hret; split; [vm_compute; reflexivity|vm_compute; discriminate]).
  exists s', o. split; [exact E|]. split; [exact Hr|].
  apply (f_equal (fmap (M := option) (fun x => o_completed x.2))) in E. vm_compute in E. injection E as E. symmetry. exact E.
Defined.

(** A table with one entry, made by packet 10, at packet 100. *)
Definition one_entry : ReassemblyTable Ipv4Key :=
  default empty_table (fst <$> add_fragment default_config std_sort empty_table key4 (Fragment 5 10 false [6] 103)).

Lemma evict_stale_releases_witness :
  let (s', out) := evict_stale default_config one_entry 100 in
  find one_entry 1 <> None /\ find s' 1 = None /\ key_to_id_ s' !! key4 = None /\ zlen out = 1 /\ by_id_ s' = ∅.
Proof.
  assert (Hone : forall id r, find one_entry id = Some r -> id = 1 /\ r_last_packet_id r = 10).
  { intros id r. unfold find. change (by_id_ one_entry) with (<[1 := default (new_reassembly 0 0) (by_id_ one_entry !! 1)]> (∅ : gmap Z Reassembly)).
    rewrite lookup_insert_Some, lookup_empty. intros [[<- <-]|[_ [=]]]. split; [done|vm_compute; reflexivity]. }
  pose proof (evict_stale_releases default_config one_entry 100 ltac:(cbn; lia)) as H.
  assert (Hp : forall id r, find one_entry id = Some r -> off_threshold default_config 100 r).
  { intros id r [_ E]%Hone. unfold off_threshold. rewrite E. cbn. lia. }
  specialize (H Hp). destruct (evict_stale default_config one_entry 100) as [s' out] eqn:E. destruct H as (Hf & Hk & Ho & _ & Hall).
  split; [vm_compute; discriminate|]. split; [rewrite Hf; vm_compute; reflexivity|]. split; [rewrite Hk; vm_compute; reflexivity|].
  split; [apply (f_equal (fun x => zlen x.2)) in E; vm_compute in E; symmetry; exact E|].
  apply Hall. intros id r [_ Er]%Hone. unfold overdue. by rewrite Er.
Defined.

Lemma reassembly_roundtrip_witness : exists s' os o,
  feed default_config std_sort (@empty_table Ipv4Key _ _) key4 arrival3 = Some (s', os ++ [o]) /\
  Forall (fun o => o_completed o = false) os /\ o_completed o = true /\ concat (o_parts o) = [1; 2; 3; 4; 5; 6].
Proof.
  apply (reassembly_roundtrip default_config std_sort default_config_max empty_table 0 key4 pieces3 arrival3).
  - apply empty_reachable.
  - vm_compute. reflexivity.
  - reflexivity.
  - vm_compute. reflexivity.
  - discriminate.
  - repeat constructor; discriminate.
  - vm_compute. discriminate.
  - apply arrival3_cut.
Defined.

(** ** Corner cases of the code *)

(** An entry whose fragments disagree can still complete: the second
    fragment contradicts the first, the third declares a shorter datagram,
    which completes; the entry's summary has status 3 (conflict) although it
    completed. *)
Theorem conflict_can_complete :
  match feed default_config std_sort empty_table key4
          [Fragment 0 1 true [1; 2; 3; 4; 5; 6; 7; 8] 101; Fragment 4 2 false [9; 9; 9; 9] 102;
           Fragment 0 3 false [1; 2; 3; 4] 103] with
  | Some (s, [_; o2; o3]) =>
      o_completed o2 = false /\ o_completed o3 = true /\ concat (o_parts o3) = [1; 2; 3; 4] /\
      r_completed <$> find s (o_datagram_id o3) = Some true /\
      s_completion_status ∘ summary <$> find s (o_datagram_id o3) = Some 3
  | _ => False
  end.
Proof. vm_compute. auto. Qed.

(** [retire] reports the untracked token of a fragment as released. *)
Theorem retire_reports_untracked :
  match add_fragment default_config std_sort empty_table key4 (Fragment 0 1 false [1] kNoToken) with
  | Some (s, o) => o_completed o = true /\ (retire s (o_datagram_id o)).2 = [kNoToken]
  | None => False
  end.
Proof. vm_compute. auto. Qed.

(** A terminal fragment that is dropped for its size still declares the
    datagram's length: the entry it was meant for completes at that length,
    without any of its bytes. *)
Theorem dropped_terminal_declares_length :
  match feed (MkConfig 8 16 30) std_sort empty_table key4
          [Fragment 0 1 true [1; 2; 3; 4; 5; 6] 101; Fragment 3 2 false [7; 8; 9] 102; Fragment 6 3 true [] 103] with
  | Some (s, [_; o2; o3]) =>
      o_retained o2 = false /\ o_completed o3 = true /\ concat (o_parts o3) = [1; 2; 3; 4; 5; 6]
  | _ => False
  end.
Proof. vm_compute. auto. Qed.

(** An entry is evicted [timeout_ticks] packets after it was last touched, not
    only later. *)
Theorem evicted_at_the_timeout :
  find one_entry 1 <> None /\ find (evict_stale default_config one_entry 40).1 1 = None /\
  find (evict_stale default_config one_entry 39).1 1 = find one_entry 1.
Proof. split; [vm_compute; discriminate|]. split; vm_compute; reflexivity. Qed.
