(* ===== verification/Reflect.v ===== *)
(** * Described structs (reflect.hpp)

    The wire field types, the compile-time layout of a described struct, the
    field decoders and the parsers over them: [strct], [footer], [overlay] and
    the accessors of [view]. A type [T] registered with [NANOM_DESCRIBE] is the
    [Struct] of its fields; [Scalar] is a plain integral or floating member,
    [Endian] is [be<T>]/[le<T>], [BitField] is [ubits]/[ibits]. A floating
    value is its bit pattern, as in [Numbers]. Reading unmapped memory is
    [None]. *)
From S2P Require Import Prelude Parser BytesParsers Combinators CombinatorFacts Numbers Bits.

Inductive skind := Unsigned | Signed | Floating.

Inductive field_type :=
| Scalar (n : Z) (k : skind)
| Endian (e : endian) (n : Z) (k : skind)
| BitField (n : Z) (signed : bool) (o : bit_order)
| Array (u : field_type) (n : nat)
| Struct (name : string) (fields : list (string * field_type)).

(** The value of a member: an integer (or bit pattern), the raw bytes of a
    [be<T>]/[le<T>], or the elements of an array or a struct. *)
Inductive value :=
| VScalar (z : Z)
| VRaw (l : list Z)
| VList (l : list value).

(** ** Layout *)
Fixpoint wire_bits (f : field_type) : Z :=
  match f with
  | Scalar n _ => 8 * n
  | Endian _ n _ => 8 * n
  | BitField n _ _ => n
  | Array u n => Z.of_nat n * wire_bits u
  | Struct _ fs =>
      (fix total (fs : list (string * field_type)) : Z :=
         match fs with [] => 0 | (_, f) :: fs => wire_bits f + total fs end) fs
  end.

Definition is_bits (f : field_type) : bool := match f with BitField _ _ _ => true | _ => false end.

Definition fields_bits (fs : list (string * field_type)) : Z := foldr (fun nf t => wire_bits nf.2 + t) 0 fs.

Fixpoint offsets_from (cur : Z) (fs : list (string * field_type)) : list Z :=
  match fs with
  | [] => []
  | (_, f) :: fs => cur :: offsets_from (cur + wire_bits f) fs
  end.

Definition field_bit_offsets (fs : list (string * field_type)) : list Z := offsets_from 0 fs.

Definition bit_order_of (f : field_type) : option bit_order :=
  match f with BitField _ _ o => Some o | _ => None end.

Definition same_order (a b : bit_order) : bool :=
  match a, b with msb0, msb0 | lsb0, lsb0 => true | _, _ => false end.

(** The walk of [layout_ok]: the offset, and the order and end of the bit field
    before. *)
Fixpoint layout_walk (off : Z) (prev_order : option bit_order) (prev_end : Z) (fs : list (string * field_type)) : bool :=
  match fs with
  | [] => true
  | (_, f) :: fs =>
      (is_bits f || (off mod 8 =? 0)) &&
      (match bit_order_of f, prev_order with
       | Some o, Some o' => same_order o o' || (prev_end mod 8 =? 0)
       | _, _ => true
       end) &&
      layout_walk (off + wire_bits f) (bit_order_of f) (off + wire_bits f) fs
  end.

Definition layout_ok (fs : list (string * field_type)) : bool :=
  (fields_bits fs mod 8 =? 0) && layout_walk 0 None 0 fs.

Definition wire_size (fs : list (string * field_type)) : Z := fields_bits fs / 8.

(** ** Decoding one field *)

(** A cursor at [q], for the loops that read forward from a pointer. *)
Definition pointer (q : Z) : input := Input q q q false None 0.

(** The byte-assembling loops of [decode_field], [n] bytes at [q]. *)
Definition load_uint (order : endian) (n : Z) (M : memory) (q : Z) : option Z :=
  match order with
  | big => read_be (Z.to_nat n) (uint_for_bytes n) M (pointer q) 0 0
  | little => read_le (Z.to_nat n) (uint_for_bytes n) M (pointer q) 0 0
  end.

(** [std::bit_cast] of the assembled word to the member's type. *)
Definition cast (k : skind) (n u : Z) : Z := match k with Signed => sint (8 * n) u | _ => u end.

Definition decode_scalar (order : endian) (n : Z) (k : skind) (M : memory) (p bitoff : Z) : option Z :=
  u ← load_uint order n M (p + bitoff / 8); Some (cast k n u).

(** The bits of a [ubits]/[ibits]: one big-endian word and a mask, or
    [read_bits] over a cursor made for it. *)
Definition decode_raw_bits (n : Z) (o : bit_order) (M : memory) (p bitoff : Z) : option Z :=
  if same_order o msb0 && (7 + n <=? 64) then
    let startbit := bitoff mod 8 in
    let nbytes := (startbit + n + 7) / 8 in
    w ← read_be (Z.to_nat nbytes) 64 M (pointer (p + bitoff / 8)) 0 0;
    let shift := nbytes * 8 - startbit - n in
    Some (Z.land (Z.shiftr w shift) (2 ^ n - 1))
  else
    let fake := Input (p + bitoff / 8) (p + (bitoff + n + 7) / 8) p false None 0 in
    match read_bits n o M (BitInput fake (bitoff mod 8)) with
    | Done v _ => Some v
    | _ => None
    end.

(** Bits of [uint_for_bits<N>]. *)
Definition uint_for_bits (n : Z) : Z := uint_for_bytes ((n + 7) / 8).

Definition sign_extend_bits (n raw : Z) : Z :=
  let vw := uint_for_bits n in
  let u := wrap vw raw in
  let sign := Z.shiftl 1 (n - 1) in
  sint vw (if negb (Z.land u sign =? 0) then Z.lor u (wrap vw (Z.lnot (Z.shiftl sign 1 - 1))) else u).

Definition decode_bits (n : Z) (signed : bool) (o : bit_order) (M : memory) (p bitoff : Z) : option Z :=
  raw ← decode_raw_bits n o M p bitoff;
  Some (if signed then sign_extend_bits n raw else wrap (uint_for_bits n) raw).

(** [out.raw[i] = p[bitoff / 8 + i]] *)
Fixpoint copy_raw (n : nat) (M : memory) (q : Z) : option (list Z) :=
  match n with
  | O => Some []
  | S n => b ← M q; l ← copy_raw n M (q + 1); Some (b :: l)
  end.

(** The elements of an array, [eb] bits apart. *)
Fixpoint elements {A} (get : Z -> option A) (eb : Z) (n : nat) (bitoff : Z) : option (list A) :=
  match n with
  | O => Some []
  | S n => v ← get bitoff; vs ← elements get eb n (bitoff + eb); Some (v :: vs)
  end.

(** The members of a struct, at their offsets. *)
Definition members {A} (get : field_type -> Z -> option A) (bitoff : Z) :=
  fix go (fs : list (string * field_type)) (offs : list Z) : option (list A) :=
    match fs, offs with
    | [], _ => Some []
    | _ :: _, [] => None
    | (_, f) :: fs, o :: offs => v ← get f (bitoff + o); vs ← go fs offs; Some (v :: vs)
    end.

Fixpoint assign_field (M : memory) (p : Z) (dflt : endian) (f : field_type) (bitoff : Z) : option value :=
  match f with
  | Endian _ n _ => l ← copy_raw (Z.to_nat n) M (p + bitoff / 8); Some (VRaw l)
  | BitField n s o => v ← decode_bits n s o M p bitoff; Some (VScalar v)
  | Array u n => l ← elements (assign_field M p dflt u) (wire_bits u) n bitoff; Some (VList l)
  | Scalar n k => v ← decode_scalar dflt n k M p bitoff; Some (VScalar v)
  | Struct _ fs => l ← members (assign_field M p dflt) bitoff fs (field_bit_offsets fs); Some (VList l)
  end.

Fixpoint decode_field (M : memory) (p : Z) (dflt : endian) (f : field_type) (bitoff : Z) : option value :=
  match f with
  | Scalar n k => v ← decode_scalar dflt n k M p bitoff; Some (VScalar v)
  | BitField n s o => v ← decode_bits n s o M p bitoff; Some (VScalar v)
  | Endian e n k => v ← decode_scalar e n k M p bitoff; Some (VScalar v)
  | Array u n => l ← elements (decode_field M p dflt u) (wire_bits u) n bitoff; Some (VList l)
  | Struct _ fs => l ← members (assign_field M p dflt) bitoff fs (field_bit_offsets fs); Some (VList l)
  end.

(** ** Parsers *)
Section Described.
Context (fs : list (string * field_type)).

(** The member loop of [strct], at a pointer. *)
Definition struct_at (M : memory) (p : Z) (dflt : endian) : option value :=
  l ← members (assign_field M p dflt) 0 fs (field_bit_offsets fs); Some (VList l).

Definition strct (dflt : endian) : parser value := fun M i =>
  let need := wire_size fs in
  if size i <? need then make_incomplete i (need - size i)
  else
    match struct_at M (i_first i) dflt with
    | None => Stop UB
    | Some v => Done v (advance i need)
    end.

Definition footer (dflt : endian) : parser value := fun M i =>
  let need := wire_size fs in
  if size i <? need then make_incomplete i (need - size i)
  else
    let* (v, _r) := strct dflt M (advance i (size i - need)) in
    Done v (with_range i (i_first i) (i_last i - need)).

(** [view<T>]. *)
Record view := View { v_p : Z; v_dflt : endian; v_arena : option Z; v_gen : Z }.

Definition overlay (dflt : endian) : parser view := fun M i =>
  let need := wire_size fs in
  if size i <? need then make_incomplete i (need - size i)
  else Done (View (i_first i) dflt (i_arena i) (i_gen i)) (advance i need).

(** [field_index]: the last field of that name. *)
Fixpoint index_from (name : string) (i : nat) (l : list (string * field_type)) (idx : option nat) : option nat :=
  match l with
  | [] => idx
  | (n, _) :: l => index_from name (S i) l (if bool_decide (n = name) then Some i else idx)
  end.
Definition field_index (name : string) : option nat := index_from name 0 fs None.

Definition to_struct (M : memory) (v : view) : option value := struct_at M (v_p v) (v_dflt v).

Definition raw (v : view) : bytes := Bytes (v_p v) (wire_size fs) (v_arena v) (v_gen v).
End Described.

(** [std::array] of a one-byte integral. *)
Definition is_byte_array (f : field_type) : bool :=
  match f with
  | Array (Scalar n Unsigned) _ | Array (Scalar n Signed) _ => n =? 1
  | _ => false
  end.

(** What [get<"name">()] hands out: a nested view, a span of wire bytes, or the
    decoded value. *)
Inductive got :=
| GotView (v : view)
| GotBytes (b : bytes)
| GotValue (v : option value).

Definition get (fs : list (string * field_type)) (M : memory) (v : view) (name : string) : option got :=
  i ← field_index fs name;
  nf ← fs !! i;
  off ← field_bit_offsets fs !! i;
  match nf.2 with
  | Struct _ _ => Some (GotView (View (v_p v + off / 8) (v_dflt v) (v_arena v) (v_gen v)))
  | Array u n =>
      if is_byte_array (Array u n)
      then Some (GotBytes (Bytes (v_p v + off / 8) (Z.of_nat n) (v_arena v) (v_gen v)))
      else Some (GotValue (decode_field M (v_p v) (v_dflt v) (Array u n) off))
  | f => Some (GotValue (decode_field M (v_p v) (v_dflt v) f off))
  end.
