(* ===== verification/ReflectFacts.v ===== *)
(** * Described structs: what the wire bytes mean

    [value_at] is the value a field's bytes denote; the decoders compute it for
    every layout they are given, and two byte strings give a field the same
    value exactly when they agree on the field's own bits ([cells]). *)
From S2P Require Import Prelude Parser BytesParsers Combinators CombinatorFacts Numbers Bits Reflect.

(** Induction on field types, through the members of structs. *)
Section Induction.
Context (P : field_type -> Prop).
Context (HScalar : forall n k, P (Scalar n k)) (HEndian : forall e n k, P (Endian e n k)).
Context (HBits : forall n s o, P (BitField n s o)) (HArray : forall u n, P u -> P (Array u n)).
Context (HStruct : forall name fs, Forall (fun nf => P nf.2) fs -> P (Struct name fs)).

Fixpoint field_type_rect' (f : field_type) : P f :=
  match f with
  | Scalar n k => HScalar n k
  | Endian e n k => HEndian e n k
  | BitField n s o => HBits n s o
  | Array u n => HArray u n (field_type_rect' u)
  | Struct name fs =>
      HStruct name fs
        ((fix go (fs : list (string * field_type)) : Forall (fun nf => P nf.2) fs :=
            match fs with
            | [] => Forall_nil_2 _
            | nf :: fs => Forall_cons_2 _ nf fs (field_type_rect' nf.2) (go fs)
            end) fs)
  end.
End Induction.

(** ** Types whose layout is sound all the way down *)
Definition size_ok (n : Z) : bool := (n =? 1) || (n =? 2) || (n =? 4) || (n =? 8).

Fixpoint type_ok (f : field_type) : bool :=
  match f with
  | Scalar n _ => size_ok n
  | Endian _ n _ => size_ok n
  | BitField n s _ => ((if s then 2 else 1) <=? n) && (n <=? 64)
  | Array u _ => negb (is_bits u) && type_ok u
  | Struct _ fs =>
      layout_ok fs && (fix all (fs : list (string * field_type)) : bool :=
                         match fs with [] => true | (_, f) :: fs => type_ok f && all fs end) fs
  end.

Definition fields_ok (fs : list (string * field_type)) : bool := forallb (fun nf => type_ok nf.2) fs.

Lemma type_ok_struct name fs : type_ok (Struct name fs) = layout_ok fs && fields_ok fs.
Proof. cbn. f_equal. induction fs as [|[n f] fs IH]; cbn; [done|]. by rewrite IH. Qed.

Lemma wire_bits_struct name fs : wire_bits (Struct name fs) = fields_bits fs.
Proof. cbn. induction fs as [|[n f] fs IH]; cbn; [done|]. by rewrite IH. Qed.

Lemma size_ok_range n : size_ok n = true -> 1 <= n <= 8 /\ uint_for_bytes n = 8 * n.
Proof. unfold size_ok. rewrite !orb_true_iff, !Z.eqb_eq. intros [[[->| ->]| ->]| ->]; done. Qed.

Lemma fields_ok_cons n f fs : fields_ok ((n, f) :: fs) = true -> type_ok f = true /\ fields_ok fs = true.
Proof. cbn. by rewrite andb_true_iff. Qed.

Lemma fields_bits_nonneg fs : Forall (fun nf => type_ok nf.2 = true -> 0 <= wire_bits nf.2) fs ->
  fields_ok fs = true -> 0 <= fields_bits fs.
Proof.
  induction 1 as [|[n f] fs Hf _ IH]; cbn; [lia|]. intros [H1 H2]%andb_true_iff.
  specialize (Hf H1). specialize (IH H2). unfold fields_bits in IH. cbn in *. lia.
Qed.

Lemma wire_bits_nonneg f : type_ok f = true -> 0 <= wire_bits f.
Proof.
  induction f using field_type_rect'; cbn.
  - intros [? _]%size_ok_range. lia.
  - intros [? _]%size_ok_range. lia.
  - rewrite andb_true_iff, !Z.leb_le. destruct s; lia.
  - intros [_ Hu]%andb_true_iff. specialize (IHf Hu). lia.
  - intros Hok. change (0 <= wire_bits (Struct name fs)). rewrite wire_bits_struct.
    change (type_ok (Struct name fs) = true) in Hok. rewrite type_ok_struct, andb_true_iff in Hok.
    destruct Hok. by apply fields_bits_nonneg.
Qed.

Lemma fields_bits_pos fs : fields_ok fs = true -> 0 <= fields_bits fs.
Proof. apply fields_bits_nonneg. apply Forall_true. intros [n f]. apply wire_bits_nonneg. Qed.

(** Anything but a bit field is a whole number of bytes. *)
Lemma wire_bits_bytes f : type_ok f = true -> is_bits f = false -> wire_bits f mod 8 = 0.
Proof.
  induction f using field_type_rect'; try done.
  - intros _ _. cbn. rewrite Z.mul_comm. by apply Z.mod_mul.
  - intros _ _. cbn. rewrite Z.mul_comm. by apply Z.mod_mul.
  - cbn. intros [Hb Hu]%andb_true_iff _. apply negb_true_iff in Hb. specialize (IHf Hu Hb).
    rewrite Zmult_mod, IHf. by rewrite Z.mul_0_r.
  - intros Hok _. rewrite type_ok_struct, andb_true_iff in Hok. destruct Hok as [Hl _].
    unfold layout_ok in Hl. rewrite andb_true_iff, Z.eqb_eq in Hl. rewrite wire_bits_struct. tauto.
Qed.

(** ** Where the layout puts the members *)

(** A field at bit [o] of a byte-aligned struct: on a byte boundary unless it
    is a bit field. *)
Definition aligned (f : field_type) (o : Z) : Prop := is_bits f = false -> o mod 8 = 0.

Lemma layout_walk_cons off po pe n f fs : layout_walk off po pe ((n, f) :: fs) = true ->
  aligned f off /\
  (forall o o', bit_order_of f = Some o -> po = Some o' -> o = o' \/ pe mod 8 = 0) /\
  layout_walk (off + wire_bits f) (bit_order_of f) (off + wire_bits f) fs = true.
Proof.
  cbn. rewrite !andb_true_iff, orb_true_iff, Z.eqb_eq. intros [[Ha Ho] Hw]. split; [|split; [|done]].
  - intros Hb. destruct Ha; [congruence|done].
  - intros o o' Ef Ep. rewrite Ef, Ep, orb_true_iff, Z.eqb_eq in Ho. destruct Ho as [Ho|Ho]; [left|by right].
    by destruct o, o'.
Qed.

Lemma aligned_add f b o : b mod 8 = 0 -> aligned f o -> aligned f (b + o).
Proof. intros Hb Ha Hf. specialize (Ha Hf). rewrite Zplus_mod, Hb, Ha. done. Qed.

(** ** Bits of big-endian integers *)

(** The position of message bit [m]: numbered from the top of each byte in
    [msb0] order, from the bottom in [lsb0] order. *)
Definition cell (o : bit_order) (m : Z) : Z :=
  match o with msb0 => 8 * (m / 8) + 7 - m mod 8 | lsb0 => m end.

Lemma cell_cell o m : cell o (cell o m) = m.
Proof. destruct o; cbn; [|done]. Z.div_mod_to_equations. lia. Qed.

Lemma cell_nonneg o m : 0 <= m -> 0 <= cell o m.
Proof. destruct o; cbn; Z.div_mod_to_equations; lia. Qed.

Lemma cell_add o q m : cell o (8 * q + m) = 8 * q + cell o m.
Proof. destruct o; cbn; Z.div_mod_to_equations; lia. Qed.

(** On a byte boundary the two orders agree on what lies before it. *)
Lemma cell_below o c m : c mod 8 = 0 -> (cell o m < c <-> m < c).
Proof. destruct o; cbn; Z.div_mod_to_equations; lia. Qed.

Lemma be_val_bit l : bytes_ok l -> forall j, 0 <= j < 8 * zlen l ->
  Z.testbit (be_val l) j = bit l (cell msb0 (8 * zlen l - 1 - j)).
Proof.
  induction 1 as [|b l Hb Hl IH]; intros j Hj.
  { change (@zlen Z []) with 0 in Hj. lia. }
  destruct (be_val_cons_lor b l Hb Hl) as [-> Hr]. rewrite zlen_cons in *. rewrite Z.lor_spec, testbit_shiftl.
  destruct (Z.leb_spec 0 j) as [_|]; [|lia]. cbn [andb].
  change (b :: l) with ([b] ++ l). rewrite bit_app by (auto using cell_nonneg || (apply cell_nonneg; lia) || by constructor).
  change (8 * zlen [b]) with 8.
  destruct (Z.ltb_spec j (8 * zlen l)) as [Hlt|Hge].
  - rewrite (Z.testbit_neg_r b) by lia. rewrite orb_false_r, IH by lia.
    replace (8 * (zlen l + 1) - 1 - j) with (8 * 1 + (8 * zlen l - 1 - j)) by lia. rewrite cell_add.
    pose proof (cell_nonneg msb0 (8 * zlen l - 1 - j) ltac:(lia)).
    destruct (Z.ltb_spec (8 * 1 + cell msb0 (8 * zlen l - 1 - j)) 8); [lia|]. f_equal. lia.
  - rewrite (testbit_above (be_val l) (8 * zlen l)) by (done || lia). cbn [orb].
    assert (Hc : cell msb0 (8 * (zlen l + 1) - 1 - j) = j - 8 * zlen l) by (cbn; Z.div_mod_to_equations; lia).
    rewrite Hc. destruct (Z.ltb_spec (j - 8 * zlen l) 8); [|lia]. unfold bit. cbn [le_val]. f_equal. lia.
Qed.

(** The bits of a field, one by one. *)
Lemma field_testbit o l b n i : bytes_ok l -> 0 <= b -> b + n <= 8 * zlen l -> 0 <= i < n ->
  Z.testbit (field o l b n) i = bit l (cell o (match o with msb0 => b + n - 1 - i | lsb0 => b + i end)).
Proof.
  intros Hl Hb Hn Hi. destruct o; cbn [field]; rewrite testbit_mod_pow2 by lia;
    (destruct (Z.ltb_spec i n); [|lia]); cbn [andb].
  - rewrite shiftr_div by lia. rewrite Z.shiftr_spec by lia. rewrite be_val_bit by (done || lia). f_equal. f_equal. lia.
  - rewrite shiftr_div by lia. rewrite Z.shiftr_spec by lia. unfold bit, cell. f_equal. lia.
Qed.

(** ** The meaning of wire bytes *)
Definition slice (l : list Z) (q n : Z) : list Z := ztake n (zdrop q l).

Lemma zlen_slice l q n : 0 <= q -> 0 <= n -> q + n <= zlen l -> zlen (slice l q n) = n.
Proof. intros. unfold slice. rewrite zlen_ztake, zlen_zdrop by lia. lia. Qed.

Lemma bytes_ok_slice l q n : bytes_ok l -> bytes_ok (slice l q n).
Proof. intros. by apply bytes_ok_ztake, bytes_ok_zdrop. Qed.

Lemma bit_slice l q n k : bytes_ok l -> 0 <= q -> 0 <= n -> 0 <= k < 8 * n -> bit (slice l q n) k = bit l (8 * q + k).
Proof.
  intros. unfold slice. rewrite bit_ztake by (try apply bytes_ok_zdrop; done || lia). by rewrite bit_zdrop by (done || lia).
Qed.

Lemma holds_slice M p l q n : 0 <= q -> 0 <= n -> q + n <= zlen l -> holds M p l -> holds M (p + q) (slice l q n).
Proof.
  intros Hq Hn Hz Hh. rewrite <- (ztake_zdrop q l) in Hh. apply holds_app in Hh as [_ Hh].
  rewrite zlen_ztake, Z.min_l in Hh by lia. unfold slice. rewrite <- (ztake_zdrop n (zdrop q l)) in Hh.
  by apply holds_app in Hh as [Hh _].
Qed.

(** The [n] bits of a bit field at bit [o] of [l]. *)
Definition field_bits (ord : bit_order) (l : list Z) (o n : Z) : Z :=
  field ord (slice l (o / 8) ((o mod 8 + n + 7) / 8)) (o mod 8) n.

Fixpoint elements_at {A} (get : Z -> A) (eb : Z) (n : nat) (o : Z) : list A :=
  match n with O => [] | S n => get o :: elements_at get eb n (o + eb) end.

Fixpoint value_at (dflt : endian) (l : list Z) (f : field_type) (o : Z) : value :=
  match f with
  | Scalar n k => VScalar (cast k n (uint_val dflt (slice l (o / 8) n)))
  | Endian _ n _ => VRaw (slice l (o / 8) n)
  | BitField n s ord => let r := field_bits ord l o n in VScalar (if s then sint n r else r)
  | Array u n => VList (elements_at (value_at dflt l u) (wire_bits u) n o)
  | Struct _ fs =>
      VList ((fix go (fs : list (string * field_type)) (o : Z) : list value :=
                match fs with [] => [] | (_, f) :: fs => value_at dflt l f o :: go fs (o + wire_bits f) end) fs o)
  end.

Fixpoint values_at (dflt : endian) (l : list Z) (fs : list (string * field_type)) (o : Z) : list value :=
  match fs with [] => [] | (_, f) :: fs => value_at dflt l f o :: values_at dflt l fs (o + wire_bits f) end.

Lemma value_at_struct dflt l name fs o : value_at dflt l (Struct name fs) o = VList (values_at dflt l fs o).
Proof. cbn. f_equal. revert o. induction fs as [|[n f] fs IH]; intros o; cbn; [done|]. by rewrite IH. Qed.

(** ** The decoders compute it *)
Section Decode.
Context (M : memory) (p : Z) (l : list Z) (dflt : endian).
Context (Hl : bytes_ok l) (Hh : holds M p l).

Lemma load_uint_spec order n q : size_ok n = true -> 0 <= q -> q + n <= zlen l ->
  load_uint order n M (p + q) = Some (uint_val order (slice l q n)).
Proof using Hl Hh.
  intros Hn Hq Hz. apply size_ok_range in Hn as [Hn Hw]. unfold load_uint. rewrite Hw.
  pose proof (holds_slice M p l q n Hq ltac:(lia) Hz Hh) as Hs. pose proof (zlen_slice l q n Hq ltac:(lia) Hz) as Hsl.
  pose proof (bytes_ok_slice l q n Hl) as Hb. replace (Z.to_nat n) with (length (slice l q n)) by (unfold zlen in Hsl; lia).
  assert (Hs' : holds M (i_first (pointer (p + q)) + 0) (slice l q n)) by (cbn; by rewrite Z.add_0_r).
  destruct order; cbn [uint_val].
  - rewrite read_be_spec by (done || lia). done.
  - rewrite read_le_spec by (done || lia). cbn. f_equal. lia.
Qed.

Lemma wire_bits_range o n : 0 <= o -> 1 <= n -> o + n <= 8 * zlen l ->
  0 <= o / 8 /\ 0 <= (o mod 8 + n + 7) / 8 /\ o / 8 + (o mod 8 + n + 7) / 8 <= zlen l.
Proof using. intros. Z.div_mod_to_equations. lia. Qed.

Lemma decode_raw_bits_spec n ord o : 1 <= n <= 64 -> 0 <= o -> o + n <= 8 * zlen l ->
  decode_raw_bits n ord M p o = Some (field_bits ord l o n).
Proof using Hl Hh.
  intros Hn Ho Hz. destruct (wire_bits_range o n Ho ltac:(lia) Hz) as (Hq & Hb & Hqb).
  unfold decode_raw_bits, field_bits. set (nb := (o mod 8 + n + 7) / 8) in *. set (S := slice l (o / 8) nb).
  pose proof (holds_slice M p l (o / 8) nb Hq Hb Hqb Hh) as Hs. pose proof (zlen_slice l (o / 8) nb Hq Hb Hqb) as Hsl.
  pose proof (bytes_ok_slice l (o / 8) nb Hl) as HS. fold S in Hs, Hsl, HS.
  assert (Ho8 : 0 <= o mod 8 < 8) by (apply Z.mod_pos_bound; lia).
  assert (Hnb : 8 * nb - 8 < o mod 8 + n <= 8 * nb) by (unfold nb; Z.div_mod_to_equations; lia).
  destruct (same_order ord msb0 && (7 + n <=? 64)) eqn:Ef.
  - apply andb_true_iff in Ef as [Eo En%Z.leb_le]. destruct ord; [|done].
    replace (Z.to_nat nb) with (length S) by (unfold zlen in Hsl; lia).
    rewrite read_be_spec by ((cbn; by rewrite Z.add_0_r) || done || lia). cbn [mbind option_bind].
    f_equal. rewrite Z.mul_0_l, Z.add_0_l. cbn [field]. rewrite Hsl, <- shiftr_div by lia.
    replace (2 ^ n - 1) with (Z.ones n) by (rewrite Z.ones_equiv; lia). rewrite Z.land_ones by lia.
    by replace (nb * 8 - o mod 8 - n) with (8 * nb - o mod 8 - n) by lia.
  - unfold read_bits. set (fake := Input _ _ _ _ _ _).
    assert (Hsz : size fake = nb).
    { unfold size, fake. cbn. rewrite wrap_small; unfold nb; Z.div_mod_to_equations; lia. }
    assert (Hbl : bits_left (BitInput fake (o mod 8)) = nb * 8 - o mod 8).
    { unfold bits_left. cbn [bi_in bi_bit]. rewrite Hsz. apply wrap_small. unfold nb. Z.div_mod_to_equations. lia. }
    rewrite Hbl. destruct (Z.ltb_spec (nb * 8 - o mod 8) n); [lia|]. cbn [bi_in bi_bit].
    rewrite (read_bits_loop_spec ord S) by (done || lia).
    rewrite Z.sub_0_r. f_equal. pose proof (field_range ord S (o mod 8) n ltac:(lia)).
    destruct ord; cbn [join]; by rewrite ?Z.shiftl_0_l, ?Z.shiftl_0_r, Z.lor_0_l.
Qed.

Lemma copy_raw_spec S : forall q, holds M q S -> copy_raw (length S) M q = Some S.
Proof using. induction S as [|b S IH]; intros q; cbn; [done|]. intros [-> Hs]. cbn. by rewrite IH. Qed.
End Decode.

Lemma uint_for_bits_fits n : 1 <= n <= 64 -> n <= uint_for_bits n.
Proof.
  intros. unfold uint_for_bits, uint_for_bytes.
  repeat match goal with |- context [?a <=? ?b] => destruct (Z.leb_spec a b) end; Z.div_mod_to_equations; lia.
Qed.

(** Sign extension from [n] bits is the two's-complement reading of them. *)
Lemma sign_extend_bits_spec n r : 1 <= n <= 64 -> 0 <= r < 2 ^ n -> sign_extend_bits n r = sint n r.
Proof.
  intros Hn Hr. pose proof (uint_for_bits_fits n Hn) as Hw. unfold sign_extend_bits. set (vw := uint_for_bits n) in *.
  assert (Hp : 2 ^ n <= 2 ^ vw) by (apply Z.pow_le_mono_r; lia). rewrite (wrap_small vw r) by lia.
  rewrite Z.shiftl_1_l. assert (Hs : Z.shiftl (2 ^ (n - 1)) 1 = 2 ^ n).
  { rewrite Z.shiftl_mul_pow2 by lia. rewrite <- Z.pow_add_r by lia. f_equal. lia. }
  rewrite Hs. assert (H2 : 2 ^ n = 2 * 2 ^ (n - 1)) by (rewrite <- Z.pow_succ_r by lia; f_equal; lia).
  assert (Hv2 : 2 ^ vw = 2 * 2 ^ (vw - 1)) by (rewrite <- Z.pow_succ_r by lia; f_equal; lia).
  assert (Htop : Z.testbit r (n - 1) = (2 ^ (n - 1) <=? r)).
  { destruct (Z.leb_spec (2 ^ (n - 1)) r).
    - replace r with ((r - 2 ^ (n - 1)) + 1 * 2 ^ (n - 1)) by lia.
      rewrite <- lor_shiftl_add by lia. rewrite Z.lor_spec, testbit_shiftl.
      destruct (Z.leb_spec 0 (n - 1)); [|lia]. rewrite Z.sub_diag. cbn. apply orb_true_r.
    - apply (testbit_above r (n - 1)); lia. }
  assert (Hland : (Z.land r (2 ^ (n - 1)) =? 0) = negb (2 ^ (n - 1) <=? r)).
  { rewrite <- Htop. apply eq_true_iff_eq. rewrite Z.eqb_eq, negb_true_iff. split.
    - intros E. apply (f_equal (fun z => Z.testbit z (n - 1))) in E.
      rewrite Z.land_spec, Z.pow2_bits_true, andb_true_r, Z.bits_0 in E by lia. done.
    - intros E. apply Z.bits_inj'. intros i Hi. rewrite Z.land_spec, Z.bits_0.
      destruct (decide (i = n - 1)) as [->|Hne]; [by rewrite E|]. by rewrite Z.pow2_bits_false, andb_false_r by lia. }
  rewrite Hland, negb_involutive. unfold sint.
  assert (Hmono : 2 ^ (n - 1) <= 2 ^ (vw - 1)) by (apply Z.pow_le_mono_r; lia).
  destruct (Z.leb_spec (2 ^ (n - 1)) r) as [Hge|Hlt].
  - assert (Hor : Z.lor r (wrap vw (Z.lnot (2 ^ n - 1))) = r + (2 ^ vw - 2 ^ n)).
    { assert (Hln : wrap vw (Z.lnot (2 ^ n - 1)) = Z.shiftl (2 ^ (vw - n) - 1) n).
      { rewrite Z.shiftl_mul_pow2, Z.mul_sub_distr_r, <- Z.pow_add_r by lia.
        replace (vw - n + n) with vw by lia. unfold wrap, Z.lnot.
        replace (Z.pred (- (2 ^ n - 1))) with ((2 ^ vw - 1 * 2 ^ n) + (-1) * 2 ^ vw) by lia.
        rewrite Z.mod_add by lia. apply Z.mod_small. lia. }
      rewrite Hln, lor_shiftl_add by lia. rewrite Z.mul_sub_distr_r, <- Z.pow_add_r by lia.
      replace (vw - n + n) with vw by lia. lia. }
    rewrite Hor. destruct (Z.ltb_spec (r + (2 ^ vw - 2 ^ n)) (2 ^ (vw - 1))); [lia|].
    destruct (Z.ltb_spec r (2 ^ (n - 1))); lia.
  - destruct (Z.ltb_spec r (2 ^ (vw - 1))); [|lia]. by destruct (Z.ltb_spec r (2 ^ (n - 1))); [|lia].
Qed.

Lemma members_cons {A} (get : field_type -> Z -> option A) b n f fs o offs :
  members get b ((n, f) :: fs) (o :: offs) = v ← get f (b + o); vs ← members get b fs offs; Some (v :: vs).
Proof. done. Qed.

Section Fields.
Context (M : memory) (p : Z) (l : list Z) (dflt : endian).
Context (Hl : bytes_ok l) (Hh : holds M p l).

Definition assigned (f : field_type) : Prop := type_ok f = true -> forall o, aligned f o -> 0 <= o ->
  o + wire_bits f <= 8 * zlen l -> assign_field M p dflt f o = Some (value_at dflt l f o).

Lemma elements_spec (get : Z -> option value) (val : Z -> value) eb n : 0 <= eb ->
  forall o, 0 <= o -> o + Z.of_nat n * eb <= 8 * zlen l ->
  (forall o', o <= o' -> (o' - o) mod eb = 0 -> o' + eb <= o + Z.of_nat n * eb -> get o' = Some (val o')) ->
  elements get eb n o = Some (elements_at val eb n o).
Proof using.
  intros Heb. induction n as [|n IH]; intros o Ho Hz Hget; cbn [elements elements_at]; [done|].
  rewrite Hget by (rewrite ?Z.sub_diag, ?Zmod_0_l; lia). cbn.
  rewrite IH; [done|lia|lia|]. intros o' Ho' Hm Hle. apply Hget; [lia| |lia].
  destruct (decide (eb = 0)) as [->|Hne]; [by rewrite Zmod_0_r in *; lia|].
  replace (o' - o) with ((o' - (o + eb)) + 1 * eb) by lia. by rewrite Z.mod_add.
Qed.

Lemma members_spec fs : Forall (fun nf => assigned nf.2) fs -> fields_ok fs = true ->
  forall c po pe b, layout_walk c po pe fs = true -> 0 <= b -> b mod 8 = 0 -> 0 <= c ->
  b + c + fields_bits fs <= 8 * zlen l ->
  members (assign_field M p dflt) b fs (offsets_from c fs) = Some (values_at dflt l fs (b + c)).
Proof using.
  induction 1 as [|[n f] fs Hf _ IH]; intros Hok c po pe b Hw Hb Hb8 Hc Hz; [done|].
  apply fields_ok_cons in Hok as [Hof Hok]. apply layout_walk_cons in Hw as (Ha & _ & Hw).
  pose proof (wire_bits_nonneg f Hof). pose proof (fields_bits_pos fs Hok). cbn [fields_bits foldr] in Hz. fold (fields_bits fs) in Hz. cbn [snd] in *.
  cbn [offsets_from values_at]. rewrite members_cons, Hf; [|done|by apply aligned_add|lia|lia].
  cbn [mbind option_bind]. rewrite (IH Hok (c + wire_bits f) _ _ b Hw) by lia. cbn. by rewrite Z.add_assoc.
Qed.

(** Every member type: the decoder computes the value the bytes denote. *)
Lemma assign_field_spec f : assigned f.
Proof using Hl Hh.
  induction f using field_type_rect'.
  - intros Hok o Ha Ho Hz. cbn in *. specialize (Ha eq_refl). pose proof (size_ok_range _ Hok) as [Hn _].
    unfold decode_scalar. rewrite (load_uint_spec M p l Hl Hh) by (done || Z.div_mod_to_equations; lia). done.
  - intros Hok o Ha Ho Hz. cbn in *. specialize (Ha eq_refl). pose proof (size_ok_range _ Hok) as [Hn _].
    assert (Hq : 0 <= o / 8 /\ o / 8 + n <= zlen l) by (Z.div_mod_to_equations; lia).
    pose proof (zlen_slice l (o / 8) n ltac:(lia) ltac:(lia) ltac:(lia)) as Hs.
    replace (Z.to_nat n) with (length (slice l (o / 8) n)) by (unfold zlen in Hs; lia).
    rewrite copy_raw_spec; [done|]. apply holds_slice; lia || done.
  - intros Hok o0 Ha Ho Hz. cbn in Hok, Hz. apply andb_true_iff in Hok as [H1 H2]. rewrite Z.leb_le in H1, H2. cbn [assign_field]. unfold decode_bits.
    assert (Hn : 1 <= n <= 64) by (destruct s; lia).
    rewrite (decode_raw_bits_spec M p l Hl Hh) by lia. cbn. do 2 f_equal.
    assert (Hr : 0 <= field_bits o l o0 n < 2 ^ n) by (apply field_range; lia).
    destruct s; [by apply sign_extend_bits_spec|]. apply wrap_small.
    pose proof (uint_for_bits_fits n Hn). assert (2 ^ n <= 2 ^ uint_for_bits n) by (apply Z.pow_le_mono_r; lia). lia.
  - intros Hok o Ha Ho Hz. cbn in Hok. apply andb_true_iff in Hok as [Hb Hu]. apply negb_true_iff in Hb. cbn [assign_field value_at wire_bits] in *.
    pose proof (wire_bits_nonneg f Hu). pose proof (wire_bits_bytes f Hu Hb) as H8. specialize (Ha eq_refl).
    rewrite (elements_spec _ (value_at dflt l f)); [done|lia|lia|lia|].
    intros o' Ho' Hm Hle. apply IHf; [done| |lia|lia]. intros _. destruct (decide (wire_bits f = 0)) as [E|E].
    + rewrite E, Zmod_0_r in Hm. by replace o' with o by lia.
    + apply Z.mod_divide in Hm as [t Ht]; [|done]. replace o' with (o + t * wire_bits f) by lia.
      by rewrite Zplus_mod, Zmult_mod, H8, Ha, Z.mul_0_r.
  - intros Hok o Ha Ho Hz. rewrite type_ok_struct in Hok. apply andb_true_iff in Hok as [Hlay Hfs]. rewrite wire_bits_struct in Hz.
    apply andb_true_iff in Hlay as [_ Hw]. rewrite value_at_struct. cbn [assign_field]. unfold field_bit_offsets.
    rewrite (members_spec fs H Hfs 0 None 0 o Hw Ho (Ha eq_refl)) by lia. by rewrite Z.add_0_r.
Qed.
End Fields.

#[export] Instance bit_order_eq_dec : EqDecision bit_order.
Proof. solve_decision. Defined.

(** ** The bits a field owns *)
Definition ord_of (f : field_type) : bit_order := default lsb0 (bit_order_of f).
Definition cells (f : field_type) (o k : Z) : Prop := o <= cell (ord_of f) k < o + wire_bits f.
Definition same_bits (P : Z -> Prop) (l l' : list Z) : Prop := forall k, 0 <= k -> P k -> bit l k = bit l' k.

Lemma field_bits_testbit ord l o n i : bytes_ok l -> 0 <= o -> o + n <= 8 * zlen l -> 0 <= i < n ->
  Z.testbit (field_bits ord l o n) i =
  bit l (cell ord (match ord with msb0 => o + n - 1 - i | lsb0 => o + i end)).
Proof.
  intros Hl Ho Hz Hi. destruct (wire_bits_range l o n Ho ltac:(lia) Hz) as (Hq & Hb & Hqb). unfold field_bits.
  set (nb := (o mod 8 + n + 7) / 8) in *.
  assert (Hnb : o mod 8 + n <= 8 * nb) by (unfold nb; Z.div_mod_to_equations; lia).
  assert (Ho8 : 0 <= o mod 8 < 8) by (apply Z.mod_pos_bound; lia).
  rewrite field_testbit by (rewrite ?zlen_slice by lia; auto using bytes_ok_slice; lia).
  set (m := match ord with msb0 => o mod 8 + n - 1 - i | lsb0 => o mod 8 + i end).
  assert (Hm : 0 <= m < 8 * nb) by (unfold m; destruct ord; lia).
  assert (Hcm : 0 <= cell ord m < 8 * nb).
  { split; [apply cell_nonneg; lia|]. apply cell_below; [rewrite Z.mul_comm; by apply Z.mod_mul|lia]. }
  rewrite bit_slice by (done || lia). rewrite <- cell_add. do 2 f_equal. unfold m. pose proof (Z.div_mod o 8).
  destruct ord; lia.
Qed.

Lemma field_bits_same ord l l' o n : bytes_ok l -> bytes_ok l' -> zlen l = zlen l' -> 1 <= n -> 0 <= o -> o + n <= 8 * zlen l ->
  (field_bits ord l o n = field_bits ord l' o n <-> same_bits (fun k => o <= cell ord k < o + n) l l').
Proof.
  intros Hl Hl' Hzz Hn Ho Hz. split.
  - intros E k Hk Hc. set (i := match ord with msb0 => o + n - 1 - cell ord k | lsb0 => cell ord k - o end).
    assert (Hi : 0 <= i < n) by (unfold i; destruct ord; lia).
    assert (Hcell : cell ord (match ord with msb0 => o + n - 1 - i | lsb0 => o + i end) = k).
    { etrans; [|apply (cell_cell ord k)]. f_equal. unfold i. destruct ord; lia. }
    apply (f_equal (fun z => Z.testbit z i)) in E.
    rewrite !field_bits_testbit in E by (done || lia). by rewrite !Hcell in E.
  - intros Hs. apply Z.bits_inj'. intros i Hi. destruct (decide (i < n)) as [Hin|Hin].
    + rewrite !field_bits_testbit by (done || lia). apply Hs; [apply cell_nonneg; destruct ord; lia|].
      rewrite cell_cell. destruct ord; lia.
    + rewrite !(testbit_above _ n); [done|apply field_range; lia|lia|apply field_range; lia|lia].
Qed.

Lemma sint_inj n a b : 1 <= n -> 0 <= a < 2 ^ n -> 0 <= b < 2 ^ n -> sint n a = sint n b -> a = b.
Proof. intros Hn Ha Hb. unfold sint. destruct (Z.ltb_spec a (2 ^ (n - 1))), (Z.ltb_spec b (2 ^ (n - 1))); lia. Qed.

Lemma uint_val_bound order l : bytes_ok l -> 0 <= uint_val order l < 2 ^ (8 * zlen l).
Proof.
  intros Hl. destruct order; cbn.
  - unfold be_val. pose proof (le_val_range (reverse l)) as Hr. rewrite length_reverse in Hr. apply Hr. by apply Forall_reverse.
  - apply le_val_range. done.
Qed.

Lemma uint_val_inj order l l' : bytes_ok l -> bytes_ok l' -> length l = length l' -> uint_val order l = uint_val order l' -> l = l'.
Proof.
  intros Hl Hl' Hz. destruct order; cbn; [|by apply le_val_inj]. unfold be_val. intros E.
  apply (inj reverse). apply le_val_inj; [by apply Forall_reverse..|by rewrite !length_reverse|done].
Qed.

Lemma cast_inj k n a b : 1 <= n -> 0 <= a < 2 ^ (8 * n) -> 0 <= b < 2 ^ (8 * n) -> cast k n a = cast k n b -> a = b.
Proof. intros Hn Ha Hb. destruct k; cbn; [done| |done]. apply sint_inj; lia. Qed.

Lemma slice_same l l' q n : bytes_ok l -> bytes_ok l' -> zlen l = zlen l' -> 0 <= q -> 0 <= n -> q + n <= zlen l ->
  (slice l q n = slice l' q n <-> same_bits (fun k => 8 * q <= k < 8 * (q + n)) l l').
Proof.
  intros Hl Hl' Hzz Hq Hn Hz. split.
  - intros E k Hk Hc. pose proof (bit_slice l q n (k - 8 * q) Hl Hq Hn ltac:(lia)) as E1.
    pose proof (bit_slice l' q n (k - 8 * q) Hl' Hq Hn ltac:(lia)) as E2.
    replace (8 * q + (k - 8 * q)) with k in * by lia. congruence.
  - intros Hs. apply le_val_inj; [by apply bytes_ok_slice..| |].
    + pose proof (zlen_slice l q n Hq Hn Hz). pose proof (zlen_slice l' q n Hq Hn ltac:(lia)). unfold zlen in *. lia.
    + apply Z.bits_inj'. intros i Hi. destruct (decide (i < 8 * n)).
      * pose proof (bit_slice l q n i Hl Hq Hn ltac:(lia)) as E1. pose proof (bit_slice l' q n i Hl' Hq Hn ltac:(lia)) as E2.
        unfold bit at 1 in E1. unfold bit at 1 in E2. rewrite E1, E2. apply Hs; lia.
      * pose proof (le_val_range _ (bytes_ok_slice l q n Hl)) as R1. pose proof (le_val_range _ (bytes_ok_slice l' q n Hl')) as R2.
        fold (zlen (slice l q n)) in R1. fold (zlen (slice l' q n)) in R2. rewrite zlen_slice in R1, R2 by lia.
        rewrite !(testbit_above _ (8 * n)); done || lia.
Qed.

Lemma same_bits_or P Q R l l' : (forall k, 0 <= k -> P k <-> Q k \/ R k) ->
  (same_bits P l l' <-> same_bits Q l l' /\ same_bits R l l').
Proof.
  intros HP. split.
  - intros Hs. split; intros k Hk Hq; apply Hs; auto; apply HP; auto.
  - intros [Hq Hr] k Hk [Hx|Hx]%HP; auto.
Qed.

Lemma same_bits_iff P Q l l' : (forall k, 0 <= k -> P k <-> Q k) -> (same_bits P l l' <-> same_bits Q l l').
Proof. intros HP. split; intros Hs k Hk Hq; apply Hs; auto; by apply HP. Qed.

(** The part of a struct at [b] from bit [c] on, up to bit [T]; the bits of the
    first byte are numbered in the order of the field before. *)
Definition region (b c : Z) (po : option bit_order) (T k : Z) : Prop :=
  b + c <= cell (default lsb0 po) k /\ k < T.

Lemma region_nil b c po k : b mod 8 = 0 -> c mod 8 = 0 -> ~ region b c po (b + c) k.
Proof.
  intros Hb Hc [H1 H2]. assert (Hbc : (b + c) mod 8 = 0) by (rewrite Zplus_mod, Hb, Hc; done).
  destruct (cell_below (default lsb0 po) (b + c) k Hbc). lia.
Qed.

Lemma next_aligned f c : type_ok f = true -> aligned f c -> bit_order_of f = None -> (c + wire_bits f) mod 8 = 0.
Proof.
  intros Hof Ha Ef. assert (is_bits f = false) as Hbf by (by destruct f).
  by rewrite Zplus_mod, (Ha Hbf), (wire_bits_bytes f Hof Hbf).
Qed.

(** The first field's bits, and the rest of the struct. *)
Lemma region_cons b c po f T k : b mod 8 = 0 -> T mod 8 = 0 -> type_ok f = true -> aligned f c ->
  (forall o o', bit_order_of f = Some o -> po = Some o' -> o = o' \/ c mod 8 = 0) ->
  (po = None -> c mod 8 = 0) -> b + (c + wire_bits f) <= T ->
  (region b c po T k <-> cells f (b + c) k \/ region b (c + wire_bits f) (bit_order_of f) T k) /\
  ~ (cells f (b + c) k /\ region b (c + wire_bits f) (bit_order_of f) T k).
Proof.
  intros Hb8 HT Hof Ha Ho Hpo Hle. pose proof (wire_bits_nonneg f Hof).
  assert (Hsw : b + c <= cell (default lsb0 po) k <-> b + c <= cell (ord_of f) k).
  { destruct (decide (default lsb0 po = ord_of f)) as [->|Hne]; [done|].
    assert (Hc8 : c mod 8 = 0).
    { unfold ord_of in Hne. destruct (bit_order_of f) as [o|] eqn:Ef; [|by apply Ha; destruct f].
      destruct po as [o'|]; [|by apply Hpo]. by destruct (Ho o o' eq_refl eq_refl) as [->|]. }
    assert (Hbc : (b + c) mod 8 = 0) by (rewrite Zplus_mod, Hb8, Hc8; done).
    pose proof (cell_below (default lsb0 po) (b + c) k Hbc). pose proof (cell_below (ord_of f) (b + c) k Hbc). lia. }
  unfold region, cells. rewrite Hsw. fold (ord_of f). pose proof (cell_below (ord_of f) T k HT). lia.
Qed.

Section Cells.
Context (dflt : endian) (l l' : list Z).
Context (Hl : bytes_ok l) (Hl' : bytes_ok l') (Hzz : zlen l = zlen l').

Definition own_bits (f : field_type) : Prop := type_ok f = true -> forall o, aligned f o -> 0 <= o ->
  o + wire_bits f <= 8 * zlen l ->
  (value_at dflt l f o = value_at dflt l' f o <-> same_bits (cells f o) l l').

Lemma own_bytes f o n : wire_bits f = 8 * n -> ord_of f = lsb0 -> o mod 8 = 0 -> 0 <= n -> 0 <= o -> o + 8 * n <= 8 * zlen l ->
  (slice l (o / 8) n = slice l' (o / 8) n <-> same_bits (cells f o) l l').
Proof using Hl Hl' Hzz.
  intros Hw Hord Ho8 Hn Ho Hz. assert (Hq : 0 <= o / 8 /\ o / 8 + n <= zlen l) by (Z.div_mod_to_equations; lia).
  rewrite slice_same by (done || lia). apply same_bits_iff. intros k Hk. unfold cells. rewrite Hord, Hw. cbn.
  Z.div_mod_to_equations. lia.
Qed.

Lemma array_own_bits f n : own_bits f -> type_ok f = true -> is_bits f = false -> forall o, o mod 8 = 0 -> 0 <= o ->
  o + Z.of_nat n * wire_bits f <= 8 * zlen l ->
  (elements_at (value_at dflt l f) (wire_bits f) n o = elements_at (value_at dflt l' f) (wire_bits f) n o <->
   same_bits (fun k => o <= k < o + Z.of_nat n * wire_bits f) l l').
Proof using.
  intros Hf Hok Hb. pose proof (wire_bits_bytes f Hok Hb) as H8. pose proof (wire_bits_nonneg f Hok) as Hn.
  assert (Hord : ord_of f = lsb0) by (by destruct f). induction n as [|n IH]; intros o Ho8 Ho Hz; cbn [elements_at].
  { split; [intros _ k Hk Hc|done]. lia. }
  rewrite (same_bits_or _ (cells f o) (fun k => o + wire_bits f <= k < o + wire_bits f + Z.of_nat n * wire_bits f)).
  2: { intros k Hk. unfold cells. rewrite Hord. cbn [cell]. nia. }
  rewrite <- (Hf Hok o) by ((by intros _) || nia). rewrite <- IH; [|rewrite Zplus_mod, H8, Ho8; done|lia|lia].
  split; [by intros [= -> ->]|by intros [-> ->]].
Qed.

Lemma members_own_bits fs : Forall (fun nf => own_bits nf.2) fs -> fields_ok fs = true ->
  forall c po b, layout_walk c po c fs = true -> (po = None -> c mod 8 = 0) -> (c + fields_bits fs) mod 8 = 0 ->
  0 <= b -> b mod 8 = 0 -> 0 <= c -> b + c + fields_bits fs <= 8 * zlen l ->
  (values_at dflt l fs (b + c) = values_at dflt l' fs (b + c) <->
   same_bits (region b c po (b + (c + fields_bits fs))) l l').
Proof using.
  induction 1 as [|[n f] fs Hf _ IH]; intros Hok c po b Hw Hpo Ht Hb Hb8 Hc Hz.
  { split; [intros _ k Hk Hr|done]. cbn in Ht, Hr. rewrite Z.add_0_r in *. by apply region_nil in Hr. }
  apply fields_ok_cons in Hok as [Hof Hok]. pose proof (layout_walk_cons _ _ _ _ _ _ Hw) as (Ha & Ho & Hw').
  pose proof (wire_bits_nonneg f Hof) as Hwf. pose proof (fields_bits_pos fs Hok).
  cbn [fields_bits foldr snd] in *. fold (fields_bits fs) in *. cbn [values_at].
  set (T := b + (c + (wire_bits f + fields_bits fs))) in *.
  assert (HT : T mod 8 = 0) by (unfold T; rewrite Zplus_mod, Hb8, Ht; done).
  pose proof (fun k => region_cons b c po f T k Hb8 HT Hof Ha Ho Hpo ltac:(unfold T; lia)) as Hreg.
  rewrite (same_bits_or _ (cells f (b + c)) (region b (c + wire_bits f) (bit_order_of f) T)) by (intros; apply Hreg).
  rewrite <- (Hf Hof (b + c)) by (done || (by apply aligned_add) || lia).
  replace (b + c + wire_bits f) with (b + (c + wire_bits f)) by lia.
  specialize (IH Hok (c + wire_bits f) (bit_order_of f) b Hw' (next_aligned f c Hof Ha)).
  replace (b + (c + wire_bits f + fields_bits fs)) with T in IH by (unfold T; lia).
  rewrite <- IH; [split; [by intros [= -> ->]|by intros [-> ->]]|by rewrite <- Z.add_assoc|lia..].
Qed.

(** A field's value depends on exactly its own bits. *)
Lemma value_at_own_bits f : own_bits f.
Proof using Hl Hl' Hzz.
  induction f using field_type_rect'.
  - intros Hok o Ha Ho Hz. cbn [type_ok] in Hok. pose proof (size_ok_range _ Hok) as [Hn _]. specialize (Ha eq_refl).
    cbn [wire_bits] in Hz. rewrite <- (own_bytes (Scalar n k) o n) by (done || lia). cbn [value_at]. split; [|by intros ->].
    assert (Hq : 0 <= o / 8 /\ o / 8 + n <= zlen l) by (Z.div_mod_to_equations; lia).
    pose proof (zlen_slice l (o / 8) n ltac:(lia) ltac:(lia) ltac:(lia)) as Z1.
    pose proof (zlen_slice l' (o / 8) n ltac:(lia) ltac:(lia) ltac:(lia)) as Z2.
    pose proof (uint_val_bound dflt _ (bytes_ok_slice l (o / 8) n Hl)) as R1.
    pose proof (uint_val_bound dflt _ (bytes_ok_slice l' (o / 8) n Hl')) as R2. rewrite Z1 in R1. rewrite Z2 in R2.
    intros [= E]. apply cast_inj in E; [|lia..]. apply uint_val_inj in E; auto using bytes_ok_slice. unfold zlen in *. lia.
  - intros Hok o Ha Ho Hz. cbn [type_ok] in Hok. pose proof (size_ok_range _ Hok) as [Hn _]. specialize (Ha eq_refl).
    cbn [wire_bits] in Hz. rewrite <- (own_bytes (Endian e n k) o n) by (done || lia). cbn [value_at].
    split; [by intros [= ->]|by intros ->].
  - intros Hok b Ha Hb Hz. cbn in Hok, Hz. apply andb_true_iff in Hok as [H1 H2]. rewrite Z.leb_le in H1, H2.
    assert (Hn : 1 <= n) by (destruct s; lia). cbn [value_at].
    etrans; [|apply (field_bits_same o l l' b n); done || lia]. split; [|by intros ->].
    pose proof (field_range o (slice l (b / 8) ((b mod 8 + n + 7) / 8)) (b mod 8) n ltac:(lia)) as R1.
    pose proof (field_range o (slice l' (b / 8) ((b mod 8 + n + 7) / 8)) (b mod 8) n ltac:(lia)) as R2.
    fold (field_bits o l b n) in R1. fold (field_bits o l' b n) in R2.
    intros [= E]. destruct s; [|done]. by apply sint_inj in E.
  - intros Hok o Ha Ho Hz. cbn in Hok. apply andb_true_iff in Hok as [Hb Hu]. apply negb_true_iff in Hb.
    cbn [wire_bits] in Hz. cbn [value_at]. specialize (Ha eq_refl).
    transitivity (elements_at (value_at dflt l f) (wire_bits f) n o = elements_at (value_at dflt l' f) (wire_bits f) n o).
    { split; [by intros [= ->]|by intros ->]. }
    rewrite array_own_bits by (done || lia). by apply same_bits_iff.
  - intros Hok o Ha Ho Hz. rewrite type_ok_struct in Hok. apply andb_true_iff in Hok as [Hlay Hfs].
    apply andb_true_iff in Hlay as [H8 Hw]. apply Z.eqb_eq in H8. rewrite wire_bits_struct in Hz. rewrite !value_at_struct.
    pose proof (members_own_bits fs H Hfs 0 None o Hw (fun _ => eq_refl) H8 Ho (Ha eq_refl)) as Hm.
    rewrite Z.add_0_r in Hm. transitivity (values_at dflt l fs o = values_at dflt l' fs o).
    { split; [by intros [= ->]|by intros ->]. }
    rewrite Hm by lia. apply same_bits_iff. intros k Hk. unfold cells, region. rewrite wire_bits_struct. cbn. lia.
Qed.
End Cells.
