(* ===== verification/Emit.v ===== *)
(** * Writing described structs (emit.hpp, sink.hpp)

    The inverse of [strct]: [emit_field] and [emit_struct] with computed
    fields, [to_bytes], [emit], [emit_to], [emit_frame] and [verify_computed].
    The output buffer is the list of its bytes; a store outside it is
    undefined, [None]. *)
From S2P Require Import Prelude Parser BytesParsers Combinators CombinatorFacts Numbers Bits Columnar Reflect.

(** ** Sinks *)

(** A [byte_sink]: [put] says whether all the bytes were taken. *)
Class ByteSink (S : Type) := sink_put : S -> list Z -> S * bool.

#[export] Instance vector_sink : ByteSink (list Z) := fun out bs => (out ++ bs, true).

Record span_sink := SpanSink { ss_out : list Z; ss_used : Z }.

#[export] Instance span_sink_put : ByteSink span_sink := fun s bs =>
  let n := zlen bs in
  if zlen (ss_out s) - ss_used s <? n then (s, false)
  else (SpanSink (ztake (ss_used s) (ss_out s) ++ bs ++ zdrop (ss_used s + n) (ss_out s)) (ss_used s + n), true).

Definition written (s : span_sink) : list Z := ztake (ss_used s) (ss_out s).

Record counting_sink := CountingSink { cs_count : Z }.

#[export] Instance counting_sink_put : ByteSink counting_sink := fun s bs =>
  (CountingSink (u64 (cs_count s + zlen bs)), true).

Record encode_error := EncodeError { ee_what : string; ee_message : string; ee_field : string }.

(** ** Fields *)

(** [write_bits]: [got] of [n] bits are written. A round writes at least one
    bit, so [n] rounds are enough. *)
Fixpoint write_bits_loop (fuel : nat) (n v : Z) (ord : bit_order) (buf : list Z) (q bit got : Z) : option (list Z) :=
  if n <=? got then Some buf
  else
    match fuel with
    | O => None
    | S fuel =>
        let avail := 8 - bit in
        let use := Z.min avail (n - got) in
        let mask := Z.shiftl 1 use - 1 in
        let piece := match ord with
                     | msb0 => Z.land (u32 (Z.shiftr v (n - got - use))) mask
                     | lsb0 => Z.land (u32 (Z.shiftr v got)) mask
                     end in
        let shift := match ord with msb0 => avail - use | lsb0 => bit end in
        let keep := Z.land (Z.lnot (Z.shiftl mask shift)) 255 in
        b ← zget buf q;
        buf ← store buf q [u8 (Z.lor (Z.land b keep) (Z.shiftl piece shift))];
        if bit + use =? 8 then write_bits_loop fuel n v ord buf (q + 1) 0 (got + use)
        else write_bits_loop fuel n v ord buf q (bit + use) (got + use)
    end.

Definition write_bits (buf : list Z) (bitoff n v : Z) (ord : bit_order) : option (list Z) :=
  write_bits_loop (Z.to_nat n) n v ord buf (bitoff / 8) (bitoff mod 8) 0.

(** Byte by byte, from index [q]. *)
Fixpoint store_each (buf : list Z) (q : Z) (bs : list Z) : option (list Z) :=
  match bs with
  | [] => Some buf
  | b :: bs => buf ← store buf q [b]; store_each buf (q + 1) bs
  end.

(** The bytes [store_uint] writes. *)
Definition uint_bytes (order : endian) (n u : Z) : list Z :=
  List.map (fun i => u8 (Z.shiftr u (match order with big => 8 * (n - 1 - i) | little => 8 * i end))) (seqZ 0 n).

Definition store_uint (buf : list Z) (q u n : Z) (order : endian) : option (list Z) :=
  store_each buf q (uint_bytes order n u).

(** The bits of a [ubits]/[ibits] value, or why it does not fit. *)
Definition raw_of (n : Z) (signed : bool) (v : Z) : Z + string :=
  if signed then
    if n <? 64 then
      if (v <? - Z.shiftl 1 (n - 1)) || (Z.shiftl 1 (n - 1) - 1 <? v)
      then inr "a value outside its signed bit field"%string
      else inl (Z.land (u64 v) (Z.shiftl 1 n - 1))
    else inl (u64 v)
  else
    if (n <? 64) && negb (Z.shiftr (u64 v) n =? 0) then inr "a value wider than its bit field"%string
    else inl (u64 v).

(** The elements of an array in order, up to the first error. *)
Fixpoint emit_elements (emit : value -> Z -> list Z -> option (list Z * option string)) (eb : Z)
    (vs : list value) (bitoff : Z) (buf : list Z) : option (list Z * option string) :=
  match vs with
  | [] => Some (buf, None)
  | v :: vs =>
      r ← emit v bitoff buf;
      match r with
      | (buf, Some e) => Some (buf, Some e)
      | (buf, None) => emit_elements emit eb vs (bitoff + eb) buf
      end
  end.

(** The members of a struct: those after an error are not written. *)
Definition emit_members (emit : field_type -> value -> Z -> list Z -> option (list Z * option string)) (bitoff : Z) :=
  fix go (fs : list (string * field_type)) (offs : list Z) (vs : list value) (buf : list Z) :
      option (list Z * option string) :=
    match fs, offs, vs with
    | [], _, [] => Some (buf, None)
    | (_, f) :: fs, o :: offs, v :: vs =>
        r ← emit f v (bitoff + o) buf;
        match r with
        | (buf, Some e) => Some (buf, Some e)
        | (buf, None) => go fs offs vs buf
        end
    | _, _, _ => None
    end.

Fixpoint emit_field (dflt : endian) (f : field_type) (v : value) (bitoff : Z) (buf : list Z) :
    option (list Z * option string) :=
  match f, v with
  | Endian _ _ _, VRaw raw => buf ← store_each buf (bitoff / 8) raw; Some (buf, None)
  | BitField n s o, VScalar z =>
      match raw_of n s z with
      | inr e => Some (buf, Some e)
      | inl raw => buf ← write_bits buf bitoff n raw o; Some (buf, None)
      end
  | Array u _, VList vs => emit_elements (emit_field dflt u) (wire_bits u) vs bitoff buf
  | Scalar n _, VScalar z => buf ← store_uint buf (bitoff / 8) (wrap (8 * n) z) n dflt; Some (buf, None)
  | Struct _ fs, VList vs => emit_members (emit_field dflt) bitoff fs (field_bit_offsets fs) vs buf
  | _, _ => None
  end.

(** ** Computed fields *)

(** [endian_scalar::set] and [get]. *)
Definition es_set (e : endian) (n v : Z) : list Z := uint_bytes e n (wrap (8 * n) v).
Definition es_get (e : endian) (n : Z) (k : skind) (raw : list Z) : Z := cast k n (uint_val e raw).

(** [std::in_range] for an integer type of [n] bytes. *)
Definition in_range (k : skind) (n v : Z) : bool :=
  match k with
  | Signed => (- 2 ^ (8 * n - 1) <=? v) && (v <? 2 ^ (8 * n - 1))
  | _ => (0 <=? v) && (v <? 2 ^ (8 * n))
  end.

(** [set_computed]: the field's new value, or [None] when it does not fit (or
    the field is not an integer one, which does not compile). *)
Definition set_computed (f : field_type) (v : Z) : option value :=
  match f with
  | Endian e n k => if in_range k n v then Some (VRaw (es_set e n v)) else None
  | BitField n true _ =>
      if negb (in_range Signed 8 v) then None
      else if (n <? 64) && ((v <? - Z.shiftl 1 (n - 1)) || (Z.shiftl 1 (n - 1) - 1 <? v)) then None
      else Some (VScalar v)
  | BitField n false _ =>
      if negb (in_range Unsigned 8 v) then None
      else if (n <? 64) && negb (Z.shiftr v n =? 0) then None
      else Some (VScalar v)
  | Scalar n k => if in_range k n v then Some (VScalar v) else None
  | _ => None
  end.

(** One entry of [computed<T>::fields]; the functions are the user's. *)
Inductive computed_spec :=
| Calc (name : string) (fn : value -> list Z -> Z)
| Checksum (name : string) (fn : list Z -> list Z -> Z).

(** The value-initialised member of a type. *)
Fixpoint zero_value (f : field_type) : value :=
  match f with
  | Scalar _ _ => VScalar 0
  | Endian _ n _ => VRaw (replicate (Z.to_nat n) 0)
  | BitField _ _ _ => VScalar 0
  | Array u n => VList (replicate n (zero_value u))
  | Struct _ fs =>
      VList ((fix go (fs : list (string * field_type)) : list value :=
                match fs with [] => [] | (_, f) :: fs => zero_value f :: go fs end) fs)
  end.

Section EmitStruct.
Context (name : string) (fs : list (string * field_type)) (specs : list computed_spec).

(** Member [i] set to a computed value; [None] when it does not fit. *)
Definition set_member (fname : string) (vs : list value) (x : Z) : option (list value) :=
  i ← field_index fs fname; nf ← fs !! i; v ← set_computed nf.2 x; Some (<[i := v]> vs).

(** Step 1: the calc fields in order; the name of the first that does not fit. *)
Fixpoint calc_fields (ss : list computed_spec) (ctx : list Z) (vs : list value) : list value * option string :=
  match ss with
  | [] => (vs, None)
  | Calc n fn :: ss =>
      match set_member n vs (fn (VList vs) ctx) with
      | Some vs => calc_fields ss ctx vs
      | None => (vs, Some n)
      end
  | Checksum _ _ :: ss => calc_fields ss ctx vs
  end.

(** [first_bad_field]: the members written one by one to a scratch buffer. *)
Fixpoint first_bad (dflt : endian) (l : list (string * field_type)) (offs : list Z) (vs : list value) (scratch : list Z) :
    option string :=
  match l, offs, vs with
  | (n, f) :: l, o :: offs, v :: vs =>
      match emit_field dflt f v o scratch with
      | Some (_, Some _) => Some n
      | Some (scratch, None) => first_bad dflt l offs vs scratch
      | None => None
      end
  | _, _, _ => None
  end.

Definition first_bad_field (dflt : endian) (vs : list value) : string :=
  default ""%string
    (first_bad dflt fs (field_bit_offsets fs) vs (replicate (Z.to_nat (wire_size fs)) 0)).

(** Step 3: the checksum fields, over the encoding with the field zeroed. *)
Fixpoint checksum_fields (ss : list computed_spec) (ctx : list Z) (dflt : endian) (vs : list value) (buf : list Z) :
    option (list Z * option string) :=
  match ss with
  | [] => Some (buf, None)
  | Calc _ _ :: ss => checksum_fields ss ctx dflt vs buf
  | Checksum n fn :: ss =>
      i ← field_index fs n; nf ← fs !! i; off ← field_bit_offsets fs !! i;
      r ← emit_field dflt nf.2 (zero_value nf.2) off buf;
      match set_computed nf.2 (fn (ztake (wire_size fs) r.1) ctx) with
      | None => Some (r.1, Some n)
      | Some v =>
          r ← emit_field dflt nf.2 v off r.1;
          match r with
          | (buf, Some _) => Some (buf, Some n)
          | (buf, None) => checksum_fields ss ctx dflt (<[i := v]> vs) buf
          end
      end
  end.

Definition misfit (fname : string) : encode_error :=
  EncodeError "a computed value that does not fit its field" name fname.

(** [emit_struct]: the buffer after the call, and the size or the error. *)
Definition emit_struct (vs : list value) (buf : list Z) (dflt : endian) (ctx : list Z) :
    option (list Z * (Z + encode_error)) :=
  match calc_fields specs ctx vs with
  | (_, Some bad) => Some (buf, inr (misfit bad))
  | (vs, None) =>
      buf ← store_each buf 0 (replicate (Z.to_nat (wire_size fs)) 0);
      r ← emit_members (emit_field dflt) 0 fs (field_bit_offsets fs) vs buf;
      match r with
      | (buf, Some err) => Some (buf, inr (EncodeError err name (first_bad_field dflt vs)))
      | (buf, None) =>
          r ← checksum_fields specs ctx dflt vs buf;
          match r with
          | (buf, Some bad) => Some (buf, inr (misfit bad))
          | (buf, None) => Some (buf, inl (wire_size fs))
          end
      end
  end.

Definition to_bytes (vs : list value) (ctx : list Z) (dflt : endian) : option (list Z + encode_error) :=
  r ← emit_struct vs (replicate (Z.to_nat (wire_size fs)) 0) dflt ctx;
  Some (match r with (_, inr e) => inr e | (buf, inl _) => inl buf end).

Definition emit (vs : list value) (out : list Z) (ctx : list Z) (dflt : endian) : option (list Z * (Z + encode_error)) :=
  if zlen out <? wire_size fs
  then Some (out, inr (EncodeError "an output buffer smaller than the struct" name ""))
  else emit_struct vs out dflt ctx.

Definition refused : encode_error := EncodeError "the sink refused the bytes (full or failed)" name "".

Definition emit_to {S} `{ByteSink S} (vs : list value) (sink : S) (ctx : list Z) (dflt : endian) :
    option (S * (Z + encode_error)) :=
  b ← to_bytes vs ctx dflt;
  match b with
  | inr e => Some (sink, inr e)
  | inl b =>
      match sink_put sink b with
      | (sink, false) => Some (sink, inr refused)
      | (sink, true) => Some (sink, inl (zlen b))
      end
  end.

Definition emit_frame {S} `{ByteSink S} (vs : list value) (payload : list Z) (sink : S) (dflt : endian) :
    option (S * (Z + encode_error)) :=
  r ← emit_to vs sink payload dflt;
  match r with
  | (sink, inr e) => Some (sink, inr e)
  | (sink, inl n) =>
      if bool_decide (payload = []) then Some (sink, inl (n + zlen payload))
      else
        match sink_put sink payload with
        | (sink, false) => Some (sink, inr refused)
        | (sink, true) => Some (sink, inl (n + zlen payload))
        end
  end.

Definition verify_computed (wire : list Z) (ctx : list Z) (dflt : endian) : option bool :=
  if zlen wire <? wire_size fs then Some false
  else
    match strct fs dflt (mem_of 0 wire) (from_bytes (Bytes 0 (zlen wire) None 0)) with
    | Done (VList vs) _ =>
        r ← to_bytes vs ctx dflt;
        match r with
        | inr _ => Some false
        | inl again => Some (bool_decide (again = ztake (wire_size fs) wire))
        end
    | Done _ _ => None
    | Err _ => Some false
    | Stop _ => None
    end.
End EmitStruct.
