(* ===== verification/EmitSpecs.v ===== *)
(** * Described structs: writing and reading are inverse

    What [emit_field] writes, bit by bit, and the two round trips of the
    header of emit.hpp: reading back what was written gives the value, and
    writing what was read gives the bytes. *)
From S2P Require Import Prelude Parser BytesParsers Combinators CombinatorFacts Numbers Bits Columnar ByteStreams Reflect ReflectFacts Emit.

(** ** Bits *)

(** The value bit that message bit [m] of a field at [o] carries. *)
Definition value_bit (ord : bit_order) (o n m : Z) : Z :=
  match ord with msb0 => n - 1 - (m - o) | lsb0 => m - o end.

(** The byte [write_bits] stores. *)
Lemma masked_byte b piece shift use r : is_byte b -> 0 <= shift -> 0 <= use -> shift + use <= 8 ->
  0 <= piece < 2 ^ use -> 0 <= r < 8 ->
  Z.testbit (u8 (Z.lor (Z.land b (Z.land (Z.lnot (Z.shiftl (Z.shiftl 1 use - 1) shift)) 255)) (Z.shiftl piece shift))) r =
  if (shift <=? r) && (r <? shift + use) then Z.testbit piece (r - shift) else Z.testbit b r.
Proof.
  intros Hb Hs Hu Hsu Hp Hr. replace (Z.shiftl 1 use - 1) with (Z.ones use) by (unfold Z.ones; lia).
  rewrite testbit_wrap by lia. destruct (Z.ltb_spec r 8); [|lia]. cbn [andb].
  rewrite Z.lor_spec, !Z.land_spec, Z.lnot_spec, !testbit_shiftl by lia. rewrite Z.testbit_ones by lia.
  change 255 with (Z.ones 8). rewrite Z.testbit_ones by lia.
  destruct (Z.leb_spec 0 r); [|lia]. destruct (Z.ltb_spec r 8); [|lia]. cbn [andb].
  destruct (Z.leb_spec shift r), (Z.ltb_spec r (shift + use)); cbn [andb].
  - destruct (Z.leb_spec 0 (r - shift)), (Z.ltb_spec (r - shift) use); try lia. cbn. by rewrite andb_false_r.
  - destruct (Z.leb_spec 0 (r - shift)), (Z.ltb_spec (r - shift) use); try lia. cbn.
    rewrite (testbit_above piece use) by (done || lia). by rewrite andb_true_r, orb_false_r.
  - destruct (Z.leb_spec 0 (r - shift)); try lia. cbn. rewrite (Z.testbit_neg_r piece) by lia. by rewrite andb_true_r, orb_false_r.
  - lia.
Qed.

(** A byte replaced. *)
Lemma store_byte buf q b : bytes_ok buf -> is_byte b -> 0 <= q < zlen buf ->
  exists buf', store buf q [b] = Some buf' /\ zlen buf' = zlen buf /\ bytes_ok buf' /\
    forall k, 0 <= k -> bit buf' k = if (8 * q <=? k) && (k <? 8 * q + 8) then Z.testbit b (k - 8 * q) else bit buf k.
Proof.
  intros Hb Hbb Hq. rewrite store_spec by (change (zlen [b]) with 1; lia). eexists. split; [done|].
  assert (Hbs : bytes_ok [b]) by (by constructor).
  assert (Hst : bytes_ok (ztake q buf ++ [b] ++ zdrop (q + zlen [b]) buf)).
  { apply Forall_app. split; [by apply bytes_ok_ztake|]. constructor; [done|]. by apply bytes_ok_zdrop. }
  split; [rewrite !zlen_app, zlen_ztake, zlen_zdrop by (change (zlen [b]) with 1; lia); change (zlen [b]) with 1; lia|].
  split; [done|]. intros k Hk. rewrite bit_store by (done || (change (zlen [b]) with 1; lia)). change (zlen [b]) with 1.
  replace (8 * (q + 1)) with (8 * q + 8) by lia. destruct (_ && _) eqn:E; [|done]. unfold bit. cbn [le_val].
  f_equal. lia.
Qed.

(** The bits of a field written so far. *)
Record bits_written (ord : bit_order) (o n v done : Z) (buf0 buf : list Z) : Prop := {
  bw_len : zlen buf = zlen buf0;
  bw_ok : bytes_ok buf;
  bw_bit k : 0 <= k -> bit buf k =
    if (o <=? cell ord k) && (cell ord k <? o + done) then Z.testbit v (value_bit ord o n (cell ord k)) else bit buf0 k
}.

Section WriteBits.
Context (ord : bit_order) (o n v : Z) (buf0 : list Z).
Context (Ho : 0 <= o) (Hn : 0 <= n <= 64) (Hv : 0 <= v) (Hz : o + n <= 8 * zlen buf0).

(** One round of the loop. *)
Lemma write_round buf q bit_ got use : bits_written ord o n v got buf0 buf -> 8 * q + bit_ = o + got ->
  0 <= bit_ -> 0 <= got -> got + use <= n -> 0 < use -> bit_ + use <= 8 ->
  let avail := 8 - bit_ in
  let mask := Z.shiftl 1 use - 1 in
  let piece := match ord with
               | msb0 => Z.land (u32 (Z.shiftr v (n - got - use))) mask
               | lsb0 => Z.land (u32 (Z.shiftr v got)) mask
               end in
  let shift := match ord with msb0 => avail - use | lsb0 => bit_ end in
  let keep := Z.land (Z.lnot (Z.shiftl mask shift)) 255 in
  exists b buf', zget buf q = Some b /\
    store buf q [u8 (Z.lor (Z.land b keep) (Z.shiftl piece shift))] = Some buf' /\
    bits_written ord o n v (got + use) buf0 buf'.
Proof using Ho Hn Hv Hz.
  intros [Hl Hok Hb] Hpos Hbit Hgot Hle Huse H8. intros avail mask piece shift keep. unfold keep.
  assert (Hq : 0 <= q < zlen buf) by lia.
  destruct (proj2 (zget_is_Some buf q) Hq) as [b Hg]. pose proof (zget_byte buf q b Hok Hg) as Hbb.
  assert (Hmask : mask = Z.ones use) by (unfold mask, Z.ones; lia).
  assert (Hpiece : 0 <= piece < 2 ^ use).
  { unfold piece. rewrite Hmask. destruct ord; rewrite Z.land_ones by lia; apply Z.mod_pos_bound, Z.pow_pos_nonneg; lia. }
  assert (Hshift : 0 <= shift /\ shift + use <= 8) by (unfold shift, avail; destruct ord; lia).
  destruct (store_byte buf q (u8 (Z.lor (Z.land b (Z.land (Z.lnot (Z.shiftl mask shift)) 255)) (Z.shiftl piece shift))))
    as (buf' & Hst & Hl' & Hok' & Hb'); [done|apply wrap_range; lia|done|].
  exists b, buf'. split; [done|]. split; [exact Hst|]. split; [lia|done|]. intros k Hk. rewrite Hb' by done.
  assert (Hcell : 8 * q <= k < 8 * q + 8 -> cell ord k = match ord with msb0 => 8 * q + 7 - (k - 8 * q) | lsb0 => k end).
  { intros. destruct ord; [|done]. cbn. Z.div_mod_to_equations. lia. }
  assert (Hout : ~ (8 * q <= k < 8 * q + 8) -> ~ (8 * q <= cell ord k < 8 * q + 8)).
  { intros. destruct ord; [|done]. cbn. Z.div_mod_to_equations. lia. }
  destruct ((8 * q <=? k) && (k <? 8 * q + 8)) eqn:Ein.
  - apply andb_true_iff in Ein as [E1%Z.leb_le E2%Z.ltb_lt]. specialize (Hcell ltac:(lia)).
    unfold mask. rewrite masked_byte by (done || lia).
    assert (Hrange : (shift <=? k - 8 * q) && (k - 8 * q <? shift + use) =
                     (o + got <=? cell ord k) && (cell ord k <? o + (got + use))).
    { rewrite Hcell. unfold shift, avail. destruct ord;
        repeat match goal with |- context [?a <=? ?b] => destruct (Z.leb_spec a b) | |- context [?a <? ?b] => destruct (Z.ltb_spec a b) end; done || lia. }
    rewrite Hrange. destruct ((o + got <=? cell ord k) && (cell ord k <? o + (got + use))) eqn:Ew.
    + apply andb_true_iff in Ew as [E3%Z.leb_le E4%Z.ltb_lt].
      destruct (Z.leb_spec o (cell ord k)); [|lia]. destruct (Z.ltb_spec (cell ord k) (o + (got + use))); [|lia]. cbn [andb].
      apply andb_true_iff in Hrange as [E5%Z.leb_le E6%Z.ltb_lt].
      unfold piece, value_bit. rewrite Hmask. rewrite Hcell. unfold shift, avail in *.
      destruct ord; rewrite Z.land_spec, Z.testbit_ones, testbit_wrap, Z.shiftr_spec by lia;
        (destruct (Z.leb_spec 0 (k - 8 * q - shift)); unfold shift in *);
        repeat match goal with |- context [?a <=? ?b] => destruct (Z.leb_spec a b); try lia | |- context [?a <? ?b] => destruct (Z.ltb_spec a b); try lia end;
        cbn [andb]; rewrite ?andb_true_r; f_equal; lia.
    + rewrite (bit_byte buf q b (k - 8 * q) Hok Hg) by lia. destruct (Z.ltb_spec (k - 8 * q) 8); [|lia]. cbn [andb].
      replace (8 * q + (k - 8 * q)) with k by lia. rewrite Hb by done.
      apply andb_false_iff in Ew. rewrite Z.leb_gt, Z.ltb_ge in Ew.
      destruct (Z.leb_spec o (cell ord k)), (Z.ltb_spec (cell ord k) (o + got)), (Z.ltb_spec (cell ord k) (o + (got + use))); cbn; done || lia.
  - apply andb_false_iff in Ein. rewrite Z.leb_gt, Z.ltb_ge in Ein. specialize (Hout ltac:(lia)). rewrite Hb by done.
    destruct (Z.leb_spec o (cell ord k)), (Z.ltb_spec (cell ord k) (o + got)), (Z.ltb_spec (cell ord k) (o + (got + use))); cbn; done || lia.
Qed.

Lemma write_bits_loop_spec fuel : forall buf q bit_ got, bits_written ord o n v got buf0 buf ->
  8 * q + bit_ = o + got -> 0 <= bit_ < 8 -> 0 <= got <= n -> n - got <= Z.of_nat fuel ->
  exists buf', write_bits_loop fuel n v ord buf q bit_ got = Some buf' /\ bits_written ord o n v n buf0 buf'.
Proof using Ho Hn Hv Hz.
  induction fuel as [|fuel IH]; intros buf q bit_ got Hw Hpos Hbit Hgot Hfuel; cbn [write_bits_loop];
    destruct (Z.leb_spec n got) as [Hd|Hd].
  1, 3: exists buf; split; [done|]; by replace n with got at 2 by lia.
  { lia. }
  destruct (write_round buf q bit_ got (Z.min (8 - bit_) (n - got)) Hw Hpos) as (b & buf' & -> & Hst & Hw'); [lia..|].
  cbn [mbind option_bind]. rewrite Hst. cbn [mbind option_bind].
  destruct (Z.eqb_spec (bit_ + Z.min (8 - bit_) (n - got)) 8); apply IH; done || lia.
Qed.

Lemma write_bits_spec : bytes_ok buf0 ->
  exists buf', write_bits buf0 o n v ord = Some buf' /\ bits_written ord o n v n buf0 buf'.
Proof using Ho Hn Hv Hz.
  intros Hok. apply write_bits_loop_spec; [|Z.div_mod_to_equations; lia|Z.div_mod_to_equations; lia|lia|lia].
  split; [done|done|]. intros k Hk. destruct (Z.leb_spec o (cell ord k)), (Z.ltb_spec (cell ord k) (o + 0)); cbn; done || lia.
Qed.
End WriteBits.

(** ** Bytes *)
Lemma store_each_spec bs : forall buf q, 0 <= q -> q + zlen bs <= zlen buf ->
  store_each buf q bs = Some (ztake q buf ++ bs ++ zdrop (q + zlen bs) buf).
Proof.
  induction bs as [|b bs IH]; intros buf q Hq Hz; cbn [store_each].
  { change (zlen []) with 0. rewrite Z.add_0_r. cbn [app]. by rewrite ztake_zdrop. }
  rewrite zlen_cons in Hz. pose proof (zlen_nonneg bs). rewrite store_spec by (change (zlen [b]) with 1; lia).
  change (zlen [b]) with 1. cbn [mbind option_bind].
  assert (Hl : zlen (ztake q buf ++ [b]) = q + 1) by (rewrite zlen_app, zlen_ztake by lia; change (zlen [b]) with 1; lia).
  rewrite app_assoc, IH by first [lia | rewrite zlen_app, Hl, zlen_zdrop by lia; lia].
  rewrite ztake_app by lia. rewrite zlen_cons. f_equal. rewrite <- app_assoc. cbn [app]. do 3 f_equal.
  rewrite zdrop_app_r by lia. rewrite zdrop_zdrop by lia. f_equal. lia.
Qed.

(** A byte range overwritten: its contents, and the bits elsewhere. *)
Lemma store_each_bytes buf q bs : bytes_ok buf -> bytes_ok bs -> 0 <= q -> q + zlen bs <= zlen buf ->
  exists buf', store_each buf q bs = Some buf' /\ zlen buf' = zlen buf /\ bytes_ok buf' /\
    slice buf' q (zlen bs) = bs /\
    forall k, 0 <= k -> ~ (8 * q <= k < 8 * (q + zlen bs)) -> bit buf' k = bit buf k.
Proof.
  intros Hb Hbs Hq Hz. pose proof (zlen_nonneg bs). rewrite store_each_spec by done. eexists. split; [done|].
  assert (Hl : zlen (ztake q buf) = q) by (rewrite zlen_ztake by lia; lia).
  split; [rewrite !zlen_app, Hl, zlen_zdrop by lia; lia|].
  split; [apply Forall_app; split; [by apply bytes_ok_ztake|]; apply Forall_app; split; [done|by apply bytes_ok_zdrop]|].
  split; [unfold slice; rewrite zdrop_app by lia; by rewrite ztake_app|].
  intros k Hk Hn. rewrite bit_store by (done || lia).
  destruct (Z.leb_spec (8 * q) k), (Z.ltb_spec k (8 * (q + zlen bs))); done || lia.
Qed.

Lemma uint_bytes_little n u : 0 <= n -> uint_bytes little n u = le_bytes (Z.to_nat n) u.
Proof.
  intros Hn. unfold uint_bytes. rewrite <- (Z2Nat.id n) at 1 by done. generalize (Z.to_nat n) as m. clear n Hn.
  intros m. revert u. induction m as [|m IH]; intros u; [done|]. rewrite Nat2Z.inj_succ, <- Z.add_1_l, seqZ_app by lia.
  rewrite map_app. change (seqZ 0 1) with [0]. cbn [le_bytes List.map app]. change (8 * 0) with 0. rewrite Z.shiftr_0_r. f_equal. rewrite <- IH.
  rewrite (Z.add_comm 0 1), <- fmap_add_seqZ. change (Z.add 1 <$> seqZ 0 (Z.of_nat m)) with (List.map (Z.add 1) (seqZ 0 (Z.of_nat m))). rewrite map_map. apply map_ext_in. intros i Hi.
  apply list_elem_of_In, elem_of_seqZ in Hi. rewrite Z.shiftr_shiftr by lia. do 2 f_equal. lia.
Qed.

Lemma reverse_map_seqZ {A} (h : Z -> A) n : 0 <= n -> reverse (List.map h (seqZ 0 n)) = List.map (fun i => h (n - 1 - i)) (seqZ 0 n).
Proof.
  intros Hn. apply zget_ext.
  { unfold zlen. rewrite length_reverse, !length_map. done. }
  intros k Hk. unfold zlen in Hk. rewrite length_reverse, length_map in Hk. rewrite length_seqZ in Hk.
  rewrite zget_map_seqZ by lia. unfold zget. destruct (Z.ltb_spec k 0); [lia|].
  rewrite reverse_lookup by (rewrite length_map, length_seqZ; lia). rewrite length_map, length_seqZ.
  pose proof (zget_map_seqZ h n (n - 1 - k) ltac:(lia)) as Hg. unfold zget in Hg.
  destruct (Z.ltb_spec (n - 1 - k) 0); [lia|]. rewrite <- Hg. f_equal. lia.
Qed.

Lemma uint_bytes_spec order n u : 0 <= n ->
  zlen (uint_bytes order n u) = n /\ bytes_ok (uint_bytes order n u) /\ uint_val order (uint_bytes order n u) = wrap (8 * n) u.
Proof.
  intros Hn. split; [unfold uint_bytes; by rewrite zlen_map, zlen_seqZ|]. split.
  { apply Forall_map, Forall_forall. intros i _. apply (wrap_range 8). lia. }
  destruct order; cbn [uint_val].
  - unfold be_val, uint_bytes. rewrite reverse_map_seqZ by done.
    replace (List.map _ (seqZ 0 n)) with (uint_bytes little n u).
    + rewrite uint_bytes_little by done. rewrite le_val_le_bytes. f_equal. lia.
    + unfold uint_bytes. apply map_ext_in. intros i Hi. do 2 f_equal. lia.
  - rewrite uint_bytes_little by done. rewrite le_val_le_bytes. f_equal. lia.
Qed.

(** ** Values of a type *)

(** The values a member of type [f] can hold; [R] is the range of a bit field
    of [n] bits. *)
Inductive typed_by (R : Z -> bool -> Z -> Prop) : field_type -> value -> Prop :=
| typed_scalar n k z : in_range k n z = true -> typed_by R (Scalar n k) (VScalar z)
| typed_endian e n k raw : zlen raw = n -> bytes_ok raw -> typed_by R (Endian e n k) (VRaw raw)
| typed_bits n s o z : R n s z -> typed_by R (BitField n s o) (VScalar z)
| typed_array u n vs : length vs = n -> Forall (typed_by R u) vs -> typed_by R (Array u n) (VList vs)
| typed_struct name fs vs : Forall2 (fun nf v => typed_by R nf.2 v) fs vs -> typed_by R (Struct name fs) (VList vs).

(** What the type can represent, and what its [n] bits can. *)
Definition bits_typed (n : Z) (s : bool) (z : Z) : Prop :=
  in_range (if s then Signed else Unsigned) (uint_for_bits n / 8) z = true.
Definition bits_fit (n : Z) (s : bool) (z : Z) : Prop :=
  if s then - 2 ^ (n - 1) <= z < 2 ^ (n - 1) else 0 <= z < 2 ^ n.

Abbreviation typed := (typed_by bits_typed).
Abbreviation fits := (typed_by bits_fit).

Lemma uint_for_bits_cases n : uint_for_bits n = 8 \/ uint_for_bits n = 16 \/ uint_for_bits n = 32 \/ uint_for_bits n = 64.
Proof. unfold uint_for_bits, uint_for_bytes. repeat case_match; auto. Qed.

(** [raw_of] refuses exactly the values out of range, and its bits read back. *)
Lemma raw_of_spec n s z : 1 <= n <= 64 -> (s = true -> 2 <= n) -> bits_typed n s z ->
  match raw_of n s z with
  | inl raw => bits_fit n s z /\ 0 <= raw < 2 ^ n /\ (if s then sint n raw else raw) = z
  | inr _ => ~ bits_fit n s z
  end.
Proof.
  intros Hn Hn2 Ht. unfold bits_typed, in_range in Ht. unfold raw_of, bits_fit.
  assert (Hw : 2 ^ (8 * (uint_for_bits n / 8) - 1) <= 2 ^ 63 /\ 2 ^ (8 * (uint_for_bits n / 8)) <= 2 ^ 64).
  { destruct (uint_for_bits_cases n) as [-> | [-> | [-> | ->]]]; split; vm_compute; discriminate. }
  assert (H2 : 2 ^ n = 2 * 2 ^ (n - 1)) by (rewrite <- Z.pow_succ_r by lia; f_equal; lia).
  assert (Hpos : 0 < 2 ^ (n - 1)) by (apply Z.pow_pos_nonneg; lia).
  destruct s; apply andb_true_iff in Ht as [T1%Z.leb_le T2%Z.ltb_lt].
  - rewrite Z.shiftl_1_l. destruct (Z.ltb_spec n 64) as [H64|H64].
    + destruct (Z.ltb_spec z (- 2 ^ (n - 1))) as [|L1]; [cbn; lia|].
      destruct (Z.ltb_spec (2 ^ (n - 1) - 1) z) as [|L2]; [cbn; lia|]. cbn [orb].
      assert (Hraw : Z.land (u64 z) (Z.shiftl 1 n - 1) = z mod 2 ^ n).
      { rewrite Z.shiftl_1_l. replace (2 ^ n - 1) with (Z.ones n) by (rewrite Z.ones_equiv; lia).
        rewrite Z.land_ones by lia. unfold wrap. symmetry. apply Znumtheory.Zmod_div_mod; [lia|lia|].
        exists (2 ^ (64 - n)). rewrite <- Z.pow_add_r by lia. f_equal. lia. }
      rewrite Hraw. split; [lia|]. split; [apply Z.mod_pos_bound; lia|]. unfold sint.
      destruct (Z.lt_ge_cases z 0) as [Hneg|Hge].
      * replace (z mod 2 ^ n) with (z + 2 ^ n); [destruct (Z.ltb_spec (z + 2 ^ n) (2 ^ (n - 1))); lia|].
        symmetry. rewrite <- (Z.mod_add z 1), Z.mul_1_l by lia. apply Z.mod_small. lia.
      * rewrite Z.mod_small by lia. destruct (Z.ltb_spec z (2 ^ (n - 1))); lia.
    + assert (n = 64) as -> by lia. split; [lia|]. split; [by apply wrap_range|]. unfold sint, wrap.
      destruct (Z.lt_ge_cases z 0) as [Hneg|Hge].
      * replace (z mod 2 ^ 64) with (z + 2 ^ 64); [destruct (Z.ltb_spec (z + 2 ^ 64) (2 ^ (64 - 1))); lia|].
        symmetry. rewrite <- (Z.mod_add z 1), Z.mul_1_l by lia. apply Z.mod_small. lia.
      * rewrite Z.mod_small by lia. destruct (Z.ltb_spec z (2 ^ (64 - 1))); lia.
  - rewrite (wrap_small 64) by lia. destruct (Z.ltb_spec n 64) as [H64|H64]; cbn [andb].
    + rewrite Z.shiftr_div_pow2 by lia. destruct (Z.eqb_spec (z / 2 ^ n) 0) as [E|E]; cbn [negb].
      * apply Z.div_small_iff in E; [|lia]. split_and!; lia.
      * intros Hf. apply E. by apply Z.div_small.
    + assert (n = 64) as -> by lia. split_and!; lia.
Qed.

(** ** What [emit_field] does *)

(** [buf'] is [buf] with new bits only where [P] holds. *)
Record rewritten (P : Z -> Prop) (buf buf' : list Z) : Prop := {
  rw_len : zlen buf' = zlen buf;
  rw_ok : bytes_ok buf';
  rw_frame k : 0 <= k -> ~ P k -> bit buf' k = bit buf k
}.

Lemma rewritten_refl P buf : bytes_ok buf -> rewritten P buf buf.
Proof. by split. Qed.

Lemma rewritten_trans (P Q R : Z -> Prop) b1 b2 b3 : (forall k, 0 <= k -> Q k \/ R k -> P k) ->
  rewritten Q b1 b2 -> rewritten R b2 b3 -> rewritten P b1 b3.
Proof.
  intros HP [L1 _ F1] [L2 O2 F2]. split; [congruence|done|]. intros k Hk Hn.
  rewrite F2, F1; auto; intros Hx; apply Hn, HP; auto.
Qed.

Section EmitField.
Context (dflt : endian).

(** Written, the field reads back as the value; refused, the value does not fit. *)
Definition emitted (f : field_type) (v : value) (o : Z) (buf' : list Z) (err : option string) : Prop :=
  match err with
  | None => fits f v /\ value_at dflt buf' f o = v
  | Some _ => ~ fits f v
  end.

Definition emits (f : field_type) : Prop := type_ok f = true -> forall v o buf, typed f v -> aligned f o ->
  0 <= o -> o + wire_bits f <= 8 * zlen buf -> bytes_ok buf ->
  exists buf' err, emit_field dflt f v o buf = Some (buf', err) /\ rewritten (cells f o) buf buf' /\
    emitted f v o buf' err.

(** A field keeps its value while the bits of others are written. *)
Lemma value_at_kept f o (P : Z -> Prop) buf buf' : type_ok f = true -> aligned f o -> 0 <= o ->
  o + wire_bits f <= 8 * zlen buf -> bytes_ok buf -> rewritten P buf buf' -> (forall k, 0 <= k -> ~ (cells f o k /\ P k)) ->
  value_at dflt buf' f o = value_at dflt buf f o.
Proof using.
  intros Hok Ha Ho Hz Hb [Hl Hb' Hfr] Hd. apply (value_at_own_bits dflt buf' buf Hb' Hb Hl f Hok o Ha Ho); [lia|].
  intros k Hk Hc. apply Hfr; [done|]. intros Hp. by apply (Hd k Hk).
Qed.

(** Fields of whole bytes. *)
Lemma emit_bytes f o n bs buf : wire_bits f = 8 * n -> ord_of f = lsb0 -> o mod 8 = 0 -> 0 <= o -> zlen bs = n -> bytes_ok bs ->
  o + 8 * n <= 8 * zlen buf -> bytes_ok buf ->
  exists buf', store_each buf (o / 8) bs = Some buf' /\ rewritten (cells f o) buf buf' /\ slice buf' (o / 8) n = bs.
Proof using.
  intros Hw Hord H8 Ho Hz Hbs Hle Hb. pose proof (zlen_nonneg bs).
  destruct (store_each_bytes buf (o / 8) bs) as (buf' & E & Hl & Hok & Hs & Hfr); [done|done|Z.div_mod_to_equations; lia..|].
  exists buf'. split; [done|]. split; [|by rewrite <- Hz]. split; [done|done|]. intros k Hk Hc. apply Hfr; [done|].
  unfold cells in Hc. rewrite Hord, Hw in Hc. cbn in Hc. Z.div_mod_to_equations. lia.
Qed.

Lemma emit_elements_spec f : emits f -> type_ok f = true -> is_bits f = false ->
  forall vs o buf, Forall (typed f) vs -> o mod 8 = 0 -> 0 <= o -> o + zlen vs * wire_bits f <= 8 * zlen buf -> bytes_ok buf ->
  exists buf' err, emit_elements (emit_field dflt f) (wire_bits f) vs o buf = Some (buf', err) /\
    rewritten (fun k => o <= k < o + zlen vs * wire_bits f) buf buf' /\
    match err with
    | None => Forall (fits f) vs /\ elements_at (value_at dflt buf' f) (wire_bits f) (length vs) o = vs
    | Some _ => ~ Forall (fits f) vs
    end.
Proof using.
  intros Hf Hok Hb. pose proof (wire_bits_bytes f Hok Hb) as H8. pose proof (wire_bits_nonneg f Hok) as Hn.
  assert (Hord : ord_of f = lsb0) by (by destruct f).
  induction vs as [|v vs IH]; intros o buf Hvs Ho8 Ho Hz Hbuf; cbn [emit_elements].
  { exists buf, None. split; [done|]. split; [by apply rewritten_refl|by split]. }
  apply Forall_cons in Hvs as [Hv Hvs]. rewrite zlen_cons in *. pose proof (zlen_nonneg vs).
  destruct (Hf Hok v o buf) as (b1 & err & -> & Hw1 & He); [done|by intros _|done|nia|done|]. cbn [mbind option_bind].
  assert (Hsub : forall k, 0 <= k -> cells f o k -> o <= k < o + (zlen vs + 1) * wire_bits f).
  { intros k Hk. unfold cells. rewrite Hord. cbn [cell]. nia. }
  destruct err as [e|]; cbn in He.
  { exists b1, (Some e). split; [done|]. split; [|by intros [? _]%Forall_cons].
    eapply (rewritten_trans _ _ (fun _ => False)); [|exact Hw1|apply rewritten_refl, Hw1]. intros k Hk [?|[]]; auto. }
  destruct He as [Hfit Hval]. pose proof Hw1 as [Hl1 Hok1 _].
  destruct (IH (o + wire_bits f) b1) as (b2 & err & -> & Hw2 & He2); [done|by rewrite Zplus_mod, Ho8, H8|lia|nia|done|].
  exists b2, err. split; [done|]. split.
  { eapply rewritten_trans; [|exact Hw1|exact Hw2]. intros k Hk [?|?]; [by apply Hsub|nia]. }
  destruct err as [e|]; [by intros [_ ?]%Forall_cons|]. destruct He2 as [Hfits Hels]. split; [by constructor|].
  cbn [length elements_at]. rewrite Hels. f_equal. rewrite <- Hval.
  apply (value_at_kept f o _ b1 b2 Hok ltac:(by intros _) Ho ltac:(nia) Hok1 Hw2). intros k Hk [Hc Hp].
  unfold cells in Hc. rewrite Hord in Hc. cbn [cell] in Hc. lia.
Qed.

Lemma emit_members_cons emit b n f fs o offs v vs buf :
  emit_members emit b ((n, f) :: fs) (o :: offs) (v :: vs) buf =
  r ← emit f v (b + o) buf;
  match r with (buf, Some e) => Some (buf, Some e) | (buf, None) => emit_members emit b fs offs vs buf end.
Proof using. done. Qed.

Lemma emit_members_spec fs : Forall (fun nf => emits nf.2) fs -> fields_ok fs = true ->
  forall vs c po b buf, Forall2 (fun nf v => typed nf.2 v) fs vs ->
  layout_walk c po c fs = true -> (po = None -> c mod 8 = 0) -> (c + fields_bits fs) mod 8 = 0 ->
  0 <= b -> b mod 8 = 0 -> 0 <= c -> b + c + fields_bits fs <= 8 * zlen buf -> bytes_ok buf ->
  exists buf' err, emit_members (emit_field dflt) b fs (offsets_from c fs) vs buf = Some (buf', err) /\
    rewritten (region b c po (b + (c + fields_bits fs))) buf buf' /\
    match err with
    | None => Forall2 (fun nf v => fits nf.2 v) fs vs /\ values_at dflt buf' fs (b + c) = vs
    | Some _ => ~ Forall2 (fun nf v => fits nf.2 v) fs vs
    end.
Proof using.
  induction 1 as [|[n f] fs Hf _ IH]; intros Hok vs c po b buf Hvs Hw Hpo Ht Hb Hb8 Hc Hz Hbuf.
  { apply Forall2_nil_inv_l in Hvs as ->. exists buf, None. split; [done|]. split; [by apply rewritten_refl|by split]. }
  apply Forall2_cons_inv_l in Hvs as (v & vs' & Hv & Hvs & ->). cbn [snd] in *.
  apply fields_ok_cons in Hok as [Hof Hok]. pose proof (layout_walk_cons _ _ _ _ _ _ Hw) as (Ha & Ho & Hw').
  pose proof (wire_bits_nonneg f Hof) as Hwf. pose proof (fields_bits_pos fs Hok).
  cbn [fields_bits foldr snd] in *. fold (fields_bits fs) in *. cbn [values_at offsets_from]. rewrite emit_members_cons.
  set (T := b + (c + (wire_bits f + fields_bits fs))) in *.
  assert (HT : T mod 8 = 0) by (unfold T; rewrite Zplus_mod, Hb8, Ht; done).
  pose proof (fun k => region_cons b c po f T k Hb8 HT Hof Ha Ho Hpo ltac:(unfold T; lia)) as Hreg.
  pose proof (aligned_add f b c Hb8 Ha) as Hbc.
  destruct (Hf Hof v (b + c) buf Hv Hbc) as (b1 & err & -> & Hw1 & He); [lia|lia|done|]. cbn [mbind option_bind].
  destruct err as [e|]; cbn in He.
  { exists b1, (Some e). split; [done|]. split; [|by intros (? & ? & ? & _ & [= <- <-])%Forall2_cons_inv_l].
    eapply (rewritten_trans _ _ (fun _ => False)); [|exact Hw1|apply rewritten_refl, Hw1]. intros k Hk [?|[]]. apply Hreg. auto. }
  destruct He as [Hfit Hval]. pose proof Hw1 as [Hl1 Hok1 _].
  destruct (IH Hok vs' (c + wire_bits f) (bit_order_of f) b b1 Hvs Hw' (next_aligned f c Hof Ha)) as (b2 & err & -> & Hw2 & He2);
    [by rewrite <- Z.add_assoc|lia|done|lia|lia|done|].
  replace (b + (c + wire_bits f + fields_bits fs)) with T in Hw2 by (unfold T; lia).
  exists b2, err. split; [done|]. split.
  { eapply rewritten_trans; [|exact Hw1|exact Hw2]. intros k Hk Hor. by apply Hreg. }
  destruct err as [e|]; [by intros (? & ? & _ & ? & [= <- <-])%Forall2_cons_inv_l|].
  destruct He2 as [Hfits Hvals]. split; [by constructor|]. rewrite Z.add_assoc in Hvals. rewrite Hvals. f_equal. rewrite <- Hval.
  apply (value_at_kept f (b + c) _ b1 b2 Hof Hbc ltac:(lia) ltac:(lia) Hok1 Hw2). intros k Hk. apply Hreg.
Qed.

Lemma emit_field_spec f : emits f.
Proof using.
  induction f using field_type_rect'.
  - intros Hok v o buf Hv Ha Ho Hz Hbuf. inversion Hv as [? ? z Hr| | | |]; subst. cbn [type_ok wire_bits] in *.
    pose proof (size_ok_range _ Hok) as [Hn _]. specialize (Ha eq_refl). cbn [emit_field]. unfold store_uint.
    destruct (uint_bytes_spec dflt n (wrap (8 * n) z)) as (Hl & Hb & Hu); [lia|].
    destruct (emit_bytes (Scalar n k) o n (uint_bytes dflt n (wrap (8 * n) z)) buf) as (buf' & -> & Hw & Hs); [done..|].
    exists buf', None. split; [done|]. split; [done|]. split; [by constructor|]. cbn [value_at]. rewrite Hs, Hu, wrap_idemp.
    f_equal. unfold in_range in Hr. assert (H2 : 2 ^ (8 * n) = 2 * 2 ^ (8 * n - 1)) by (rewrite <- Z.pow_succ_r by lia; f_equal; lia).
    destruct k; apply andb_true_iff in Hr as [R1%Z.leb_le R2%Z.ltb_lt]; cbn [cast]; [by apply wrap_small| |by apply wrap_small].
    unfold sint, wrap. destruct (Z.lt_ge_cases z 0).
    + rewrite <- (Z.mod_add z 1), Z.mul_1_l, Z.mod_small by lia. destruct (Z.ltb_spec (z + 2 ^ (8 * n)) (2 ^ (8 * n - 1))); lia.
    + rewrite Z.mod_small by lia. destruct (Z.ltb_spec z (2 ^ (8 * n - 1))); lia.
  - intros Hok v o buf Hv Ha Ho Hz Hbuf. inversion Hv as [|? ? ? raw Hl Hb| | |]; subst. cbn [type_ok wire_bits] in *.
    specialize (Ha eq_refl). cbn [emit_field].
    destruct (emit_bytes (Endian e (zlen raw) k) o (zlen raw) raw buf) as (buf' & -> & Hw & Hs); [done..|].
    exists buf', None. split; [done|]. split; [done|]. split; [by constructor|]. cbn [value_at]. by rewrite Hs.
  - intros Hok v b buf Hv Ha Hb Hz Hbuf. inversion Hv as [| |? ? ? z Hr| |]; subst. cbn [type_ok wire_bits] in *.
    apply andb_true_iff in Hok as [H1%Z.leb_le H2%Z.leb_le]. assert (Hn : 1 <= n <= 64) by (destruct s; lia). cbn [emit_field].
    pose proof (raw_of_spec n s z Hn ltac:(intros ->; done) Hr) as Hraw. destruct (raw_of n s z) as [raw|e].
    2: { exists buf, (Some e). split; [done|]. split; [by apply rewritten_refl|]. intros Hf. inversion Hf. by subst. }
    destruct Hraw as (Hfit & Hrr & Hval).
    destruct (write_bits_spec o b n raw buf Hb ltac:(lia) ltac:(lia) Hz Hbuf) as (buf' & -> & [Hl Hok' Hbit]).
    exists buf', None. split; [done|]. split.
    + split; [done|done|]. intros k Hk Hc. rewrite Hbit by done. unfold cells in Hc. cbn [wire_bits] in Hc.
      change (ord_of (BitField n s o)) with o in Hc.
      destruct (Z.leb_spec b (cell o k)), (Z.ltb_spec (cell o k) (b + n)); cbn; done || lia.
    + split; [by constructor|]. cbn [value_at]. replace (field_bits o buf' b n) with raw; [by rewrite Hval|].
      apply Z.bits_inj'. intros i Hi. destruct (decide (i < n)) as [Hin|Hin].
      * rewrite field_bits_testbit by (done || lia). rewrite Hbit by (apply cell_nonneg; destruct o; lia). rewrite cell_cell.
        assert (Hm : b <= match o with msb0 => b + n - 1 - i | lsb0 => b + i end < b + n) by (destruct o; lia).
        destruct (Z.leb_spec b (match o with msb0 => b + n - 1 - i | lsb0 => b + i end)); [|lia].
        destruct (Z.ltb_spec (match o with msb0 => b + n - 1 - i | lsb0 => b + i end) (b + n)); [|lia]. cbn [andb].
        f_equal. unfold value_bit. destruct o; lia.
      * rewrite !(testbit_above _ n); [done|apply field_range; lia|lia|lia|lia].
  - intros Hok v o buf Hv Ha Ho Hz Hbuf. inversion Hv as [| | |? ? vs Hlen Hvs|]; subst. cbn [type_ok] in Hok.
    apply andb_true_iff in Hok as [Hb Hu]. apply negb_true_iff in Hb. cbn [wire_bits emit_field] in *.
    destruct (emit_elements_spec f IHf Hu Hb vs o buf Hvs (Ha eq_refl) Ho Hz Hbuf) as (buf' & err & -> & Hw & He).
    exists buf', err. split; [done|]. split; [exact Hw|]. destruct err as [e|]; cbn.
    + intros Hf. inversion Hf. by subst.
    + destruct He as [Hf Hels]. split; [by constructor|]. by rewrite Hels.
  - intros Hok v o buf Hv Ha Ho Hz Hbuf. inversion Hv as [| | | |? ? vs Hvs]; subst. rewrite wire_bits_struct in Hz.
    rewrite type_ok_struct in Hok. apply andb_true_iff in Hok as [Hlay Hfs]. apply andb_true_iff in Hlay as [H8%Z.eqb_eq Hw].
    destruct (emit_members_spec fs H Hfs vs 0 None o buf Hvs Hw (fun _ => eq_refl) H8 Ho (Ha eq_refl)) as (buf' & err & E & Hr & He);
      [lia|lia|done|].
    exists buf', err. split; [exact E|]. split.
    + destruct Hr as [Hl Hk Hfr]. split; [done|done|]. intros k Hk0 Hc. apply Hfr; [done|]. intros [R1 R2]. apply Hc.
      unfold cells. rewrite wire_bits_struct. cbn in *. lia.
    + unfold emitted. rewrite value_at_struct. rewrite Z.add_0_r in He. destruct err as [e|].
      * intros Hf. inversion Hf. by subst.
      * destruct He as [Hf ->]. split; [by constructor|done].
Qed.
End EmitField.
