(* ===== verification/StructSpecs.v ===== *)
(** * Described structs: the theorems

    What [strct] and [overlay] yield, the two round trips with [emit], and the
    behaviour of computed fields. *)
From S2P Require Import Prelude Parser BytesParsers Combinators CombinatorFacts Numbers Bits Columnar ByteStreams Reflect ReflectFacts Emit EmitSpecs.

(** ** Decoded values are values of the type *)
Lemma bits_fit_typed n s z : 1 <= n <= 64 -> bits_fit n s z -> bits_typed n s z.
Proof.
  intros Hn Hf. pose proof (uint_for_bits_fits n Hn) as Hw. unfold bits_typed, in_range.
  assert (Hd : 8 * (uint_for_bits n / 8) = uint_for_bits n) by (destruct (uint_for_bits_cases n) as [-> | [-> | [-> | ->]]]; done).
  rewrite Hd. unfold bits_fit in Hf.
  assert (2 ^ n <= 2 ^ uint_for_bits n) by (apply Z.pow_le_mono_r; lia).
  assert (2 ^ (n - 1) <= 2 ^ (uint_for_bits n - 1)) by (apply Z.pow_le_mono_r; lia).
  destruct s; apply andb_true_iff; rewrite Z.leb_le, Z.ltb_lt; lia.
Qed.

Lemma fits_typed f : type_ok f = true -> forall v, fits f v -> typed f v.
Proof.
  induction f using field_type_rect'; intros Hok v Hf; inversion Hf; subst; try by constructor.
  - cbn in Hok. apply andb_true_iff in Hok as [H1%Z.leb_le H2%Z.leb_le]. constructor. apply bits_fit_typed; [destruct s; lia|done].
  - cbn in Hok. apply andb_true_iff in Hok as [_ Hu]. constructor; [done|]. eapply Forall_impl; [eassumption|]. cbn. auto.
  - rewrite type_ok_struct in Hok. apply andb_true_iff in Hok as [_ Hfs]. constructor. clear Hf.
    match goal with Hx : Forall2 _ fs _ |- _ => revert Hfs; induction Hx as [|[n f] v' fs' vs' Hv Hvs IH]; intros Hfs; [constructor|] end.
    apply Forall_cons in H as [Hf H]. apply fields_ok_cons in Hfs as [Hof Hok]. constructor; [by apply Hf|auto].
Qed.

Lemma fits_typed_all fs vs : fields_ok fs = true -> Forall2 (fun nf v => fits nf.2 v) fs vs ->
  Forall2 (fun nf v => typed nf.2 v) fs vs.
Proof.
  intros Hok Hf. induction Hf as [|[n f] v fs vs Hv _ IH]; [constructor|].
  apply fields_ok_cons in Hok as [Hof Hok]. constructor; [by apply fits_typed|auto].
Qed.

Lemma sint_range n r : 1 <= n -> 0 <= r < 2 ^ n -> - 2 ^ (n - 1) <= sint n r < 2 ^ (n - 1).
Proof.
  intros Hn Hr. assert (2 ^ n = 2 * 2 ^ (n - 1)) by (rewrite <- Z.pow_succ_r by lia; f_equal; lia).
  unfold sint. destruct (Z.ltb_spec r (2 ^ (n - 1))); lia.
Qed.

Section Decoded.
Context (dflt : endian) (l : list Z) (Hl : bytes_ok l).

Definition decodes (f : field_type) : Prop := type_ok f = true -> forall o, aligned f o -> 0 <= o ->
  o + wire_bits f <= 8 * zlen l -> fits f (value_at dflt l f o).

Lemma elements_decode f n : decodes f -> type_ok f = true -> is_bits f = false -> forall o, o mod 8 = 0 -> 0 <= o ->
  o + Z.of_nat n * wire_bits f <= 8 * zlen l -> Forall (fits f) (elements_at (value_at dflt l f) (wire_bits f) n o).
Proof using.
  intros Hf Hok Hb. pose proof (wire_bits_bytes f Hok Hb) as H8. pose proof (wire_bits_nonneg f Hok) as Hn.
  induction n as [|n IH]; intros o Ho8 Ho Hz; cbn [elements_at]; constructor.
  - apply Hf; [done|by intros _|done|nia].
  - apply IH; [by rewrite Zplus_mod, Ho8, H8|lia|lia].
Qed.

Lemma members_decode fs : Forall (fun nf => decodes nf.2) fs -> fields_ok fs = true ->
  forall c po pe b, layout_walk c po pe fs = true -> 0 <= b -> b mod 8 = 0 -> 0 <= c -> b + c + fields_bits fs <= 8 * zlen l ->
  Forall2 (fun nf v => fits nf.2 v) fs (values_at dflt l fs (b + c)).
Proof using.
  induction 1 as [|[n f] fs Hf _ IH]; intros Hok c po pe b Hw Hb Hb8 Hc Hz; [constructor|].
  apply fields_ok_cons in Hok as [Hof Hok]. apply layout_walk_cons in Hw as (Ha & _ & Hw).
  pose proof (wire_bits_nonneg f Hof). pose proof (fields_bits_pos fs Hok).
  cbn [fields_bits foldr snd values_at] in *. fold (fields_bits fs) in *. constructor.
  - apply Hf; [done|by apply aligned_add|lia|lia].
  - rewrite <- Z.add_assoc. eapply IH; [done|exact Hw|lia..].
Qed.

Lemma value_at_fits f : decodes f.
Proof using Hl.
  induction f using field_type_rect'.
  - intros Hok o Ha Ho Hz. cbn in Hok, Hz. pose proof (size_ok_range _ Hok) as [Hn _]. specialize (Ha eq_refl).
    assert (Hq : 0 <= o / 8 /\ o / 8 + n <= zlen l) by (Z.div_mod_to_equations; lia).
    pose proof (uint_val_bound dflt _ (bytes_ok_slice l (o / 8) n Hl)) as Hr. rewrite zlen_slice in Hr by lia.
    cbn [value_at]. constructor. unfold in_range. destruct k; cbn [cast]; apply andb_true_iff; rewrite Z.leb_le, Z.ltb_lt; [lia| |lia].
    apply sint_range; lia.
  - intros Hok o Ha Ho Hz. cbn in Hok, Hz. pose proof (size_ok_range _ Hok) as [Hn _]. specialize (Ha eq_refl).
    cbn [value_at]. constructor; [apply zlen_slice; Z.div_mod_to_equations; lia|by apply bytes_ok_slice].
  - intros Hok b Ha Hb Hz. cbn in Hok, Hz. apply andb_true_iff in Hok as [H1%Z.leb_le H2%Z.leb_le].
    cbn [value_at]. constructor. unfold bits_fit.
    assert (Hr : 0 <= field_bits o l b n < 2 ^ n) by (apply field_range; destruct s; lia).
    destruct s; [apply sint_range; lia|done].
  - intros Hok o Ha Ho Hz. cbn in Hok. apply andb_true_iff in Hok as [Hb Hu]. apply negb_true_iff in Hb.
    cbn [value_at wire_bits] in *. constructor.
    + clear. revert o. induction n as [|n IH]; intros o; cbn; [done|]. by rewrite IH.
    + by apply elements_decode; [..|apply Ha|done|].
  - intros Hok o Ha Ho Hz. rewrite type_ok_struct in Hok. apply andb_true_iff in Hok as [Hlay Hfs].
    apply andb_true_iff in Hlay as [_ Hw]. rewrite wire_bits_struct in Hz. rewrite value_at_struct. constructor.
    rewrite <- (Z.add_0_r o). eapply members_decode; [done|done|exact Hw|done|by apply Ha|lia|lia].
Qed.
End Decoded.

(** ** Structs *)

(** A registered struct whose layout is sound at every level. *)
Definition described (fs : list (string * field_type)) : bool := layout_ok fs && fields_ok fs.

Lemma described_inv fs : described fs = true -> layout_walk 0 None 0 fs = true /\ fields_ok fs = true /\
  fields_bits fs mod 8 = 0 /\ 0 <= wire_size fs /\ fields_bits fs = 8 * wire_size fs.
Proof.
  unfold described, layout_ok, wire_size. rewrite !andb_true_iff, Z.eqb_eq. intros [[H8 Hw] Hok].
  pose proof (fields_bits_pos fs Hok). split_and!; try done; Z.div_mod_to_equations; lia.
Qed.

Section Struct.
Context (fs : list (string * field_type)) (dflt : endian) (Hfs : described fs = true).

Lemma all_fields (P : field_type -> Prop) : (forall f, P f) -> Forall (fun nf : string * field_type => P nf.2) fs.
Proof using. intros HP. apply Forall_forall. auto. Qed.

Lemma struct_at_spec M p l : holds M p l -> bytes_ok l -> wire_size fs <= zlen l ->
  struct_at fs M p dflt = Some (VList (values_at dflt l fs 0)).
Proof using Hfs.
  intros Hh Hl Hz. destruct (described_inv fs Hfs) as (Hw & Hok & H8 & Hs & Hb). unfold struct_at, field_bit_offsets.
  rewrite (members_spec M p l dflt fs (all_fields _ (assign_field_spec M p l dflt Hl Hh)) Hok 0 None 0 0 Hw) by (done || lia). done.
Qed.

(** What the first [wire_size] bytes of a list decode to. *)
Lemma struct_fits l : bytes_ok l -> wire_size fs <= zlen l -> Forall2 (fun nf v => fits nf.2 v) fs (values_at dflt l fs 0).
Proof using Hfs.
  intros Hl Hz. destruct (described_inv fs Hfs) as (Hw & Hok & H8 & Hs & Hb).
  apply (members_decode dflt l fs (all_fields _ (value_at_fits dflt l Hl)) Hok 0 None 0 0 Hw); done || lia.
Qed.

Lemma strct_holds M i l : holds M (i_first i) l -> bytes_ok l -> zlen l = wire_size fs -> wire_size fs <= size i ->
  strct fs dflt M i = Done (VList (values_at dflt l fs 0)) (advance i (wire_size fs)).
Proof using Hfs.
  intros Hh Hl Hz Hs. unfold strct. destruct (Z.ltb_spec (size i) (wire_size fs)); [lia|].
  by rewrite (struct_at_spec M (i_first i) l) by (done || lia).
Qed.

(** ** Writing *)
Lemma emit_all vs buf : Forall2 (fun nf v => typed nf.2 v) fs vs -> bytes_ok buf -> wire_size fs <= zlen buf ->
  exists buf' err, emit_members (emit_field dflt) 0 fs (field_bit_offsets fs) vs buf = Some (buf', err) /\
    rewritten (fun k => k < 8 * wire_size fs) buf buf' /\
    match err with
    | None => Forall2 (fun nf v => fits nf.2 v) fs vs /\ values_at dflt buf' fs 0 = vs
    | Some _ => ~ Forall2 (fun nf v => fits nf.2 v) fs vs
    end.
Proof using Hfs.
  intros Hvs Hb Hz. destruct (described_inv fs Hfs) as (Hw & Hok & H8 & Hs & Hbits).
  destruct (emit_members_spec dflt fs (all_fields _ (emit_field_spec dflt)) Hok vs 0 None 0 buf Hvs Hw (fun _ => eq_refl) H8)
    as (buf' & err & E & Hr & He); [lia|done|lia|lia|done|].
  exists buf', err. split; [exact E|]. split; [|exact He]. destruct Hr as [Hl Hk Hfr]. split; [done|done|].
  intros k Hk0 Hc. apply Hfr; [done|]. intros [_ R]. cbn in Hc. lia.
Qed.

Lemma zeroed buf : bytes_ok buf -> wire_size fs <= zlen buf ->
  exists buf', store_each buf 0 (replicate (Z.to_nat (wire_size fs)) 0) = Some buf' /\ zlen buf' = zlen buf /\ bytes_ok buf' /\
    forall k, 8 * wire_size fs <= k -> bit buf' k = bit buf k.
Proof using Hfs.
  intros Hb Hz. destruct (described_inv fs Hfs) as (_ & _ & _ & Hs & _).
  assert (Hl : zlen (replicate (Z.to_nat (wire_size fs)) 0) = wire_size fs) by (rewrite zlen_replicate; lia).
  destruct (store_each_bytes buf 0 (replicate (Z.to_nat (wire_size fs)) 0)) as (buf' & E & Hl' & Hok & _ & Hfr);
    [done|apply bytes_ok_zeros|lia|lia|].
  exists buf'. split_and!; try done. intros k Hk. apply Hfr; [lia|]. rewrite Hl. lia.
Qed.

(** Two buffers of the struct's size with the same values are the same. *)
Lemma values_at_inj l l' : bytes_ok l -> bytes_ok l' -> zlen l = wire_size fs -> zlen l' = wire_size fs ->
  values_at dflt l fs 0 = values_at dflt l' fs 0 -> l = l'.
Proof using Hfs.
  intros Hl Hl' Hz Hz' E. destruct (described_inv fs Hfs) as (Hw & Hok & H8 & Hs & Hbits).
  apply (members_own_bits dflt l l' fs (all_fields _ (value_at_own_bits dflt l l' Hl Hl' ltac:(lia))) Hok 0 None 0 Hw (fun _ => eq_refl) H8) in E; [|done || lia..].
  apply le_val_inj; [done|done|unfold zlen in *; lia|]. apply Z.bits_inj'. intros k Hk.
  destruct (decide (k < 8 * wire_size fs)).
  - apply E; [done|]. split; cbn; lia.
  - pose proof (le_val_range l Hl) as R. pose proof (le_val_range l' Hl') as R'. fold (zlen l) in R. fold (zlen l') in R'. rewrite Hz in R. rewrite Hz' in R'.
    rewrite !(testbit_above _ (8 * wire_size fs)); done || lia.
Qed.
End Struct.

(** ** One field of a struct *)
Section OneField.
Context (dflt : endian).

Lemma offsets_lookup fs : forall c i f, snd <$> fs !! i = Some f -> exists o, offsets_from c fs !! i = Some o.
Proof using.
  induction fs as [|[n g] fs IH]; intros c i f; [done|]. destruct i as [|i]; cbn; [eauto|]. apply IH.
Qed.

(** The bits of field [i] lie in the struct, on their own. *)
Lemma field_in_region fs : fields_ok fs = true -> forall c po b i f o k, layout_walk c po c fs = true ->
  (po = None -> c mod 8 = 0) -> (c + fields_bits fs) mod 8 = 0 -> b mod 8 = 0 ->
  snd <$> fs !! i = Some f -> offsets_from c fs !! i = Some o ->
  type_ok f = true /\ aligned f o /\ c <= o /\ o + wire_bits f <= c + fields_bits fs /\
  (cells f (b + o) k -> region b c po (b + (c + fields_bits fs)) k).
Proof using.
  induction fs as [|[n g] fs IH]; intros Hok c po b i f o k Hw Hpo Ht Hb8 Hf Ho; [done|].
  apply fields_ok_cons in Hok as [Hog Hok]. pose proof (layout_walk_cons _ _ _ _ _ _ Hw) as (Ha & Hord & Hw').
  pose proof (wire_bits_nonneg g Hog) as Hwg. pose proof (fields_bits_pos fs Hok).
  cbn [fields_bits foldr snd] in *. fold (fields_bits fs) in *.
  set (T := b + (c + (wire_bits g + fields_bits fs))) in *.
  assert (HT : T mod 8 = 0) by (unfold T; rewrite Zplus_mod, Hb8, Ht; done).
  destruct (region_cons b c po g T k Hb8 HT Hog Ha Hord Hpo ltac:(unfold T; lia)) as [Hreg _].
  destruct i as [|i]; cbn in Hf, Ho; simplify_eq.
  - split_and!; [done|done|lia|lia|]. intros Hc. apply Hreg. by left.
  - destruct (IH Hok (c + wire_bits g) (bit_order_of g) b i f o k Hw' (next_aligned g c Hog Ha)) as (? & ? & ? & ? & Hin);
      [by rewrite <- Z.add_assoc|done|done|done|].
    split_and!; [done|done|lia|lia|]. intros Hc. apply Hreg. right. specialize (Hin Hc).
    by replace (b + (c + wire_bits g + fields_bits fs)) with T in Hin by (unfold T; lia).
Qed.

Lemma values_at_lookup l fs : forall c i f o, snd <$> fs !! i = Some f -> offsets_from c fs !! i = Some o ->
  forall b, values_at dflt l fs (b + c) !! i = Some (value_at dflt l f (b + o)).
Proof using.
  induction fs as [|[n g] fs IH]; intros c i f o Hf Ho b; [done|]. destruct i as [|i]; cbn in *; simplify_eq; [done|].
  rewrite <- Z.add_assoc. by apply IH.
Qed.

(** Rewriting the bits of field [i] changes that member and no other. *)
Lemma values_at_update fs : fields_ok fs = true -> forall c po i f o buf buf', layout_walk c po c fs = true ->
  (po = None -> c mod 8 = 0) -> (c + fields_bits fs) mod 8 = 0 -> 0 <= c -> c + fields_bits fs <= 8 * zlen buf ->
  snd <$> fs !! i = Some f -> offsets_from c fs !! i = Some o -> bytes_ok buf -> rewritten (cells f o) buf buf' ->
  values_at dflt buf' fs c = <[i := value_at dflt buf' f o]> (values_at dflt buf fs c).
Proof using.
  induction fs as [|[n g] fs IH]; intros Hok c po i f o buf buf' Hw Hpo Ht Hc Hz Hf Ho Hb Hr; [done|].
  apply fields_ok_cons in Hok as [Hog Hok]. pose proof (layout_walk_cons _ _ _ _ _ _ Hw) as (Ha & Hord & Hw').
  pose proof (wire_bits_nonneg g Hog) as Hwg. pose proof (fields_bits_pos fs Hok).
  cbn [fields_bits foldr snd] in *. fold (fields_bits fs) in *. pose proof Hr as [Hl Hb' Hfr].
  pose proof (fun k => region_cons 0 c po g (0 + (c + (wire_bits g + fields_bits fs))) k eq_refl Ht Hog Ha Hord Hpo ltac:(lia)) as Hreg.
  destruct i as [|i]; cbn in Hf, Ho; cbn [values_at list_insert insert].
  - injection Hf as <-. injection Ho as <-. f_equal. pose proof (members_own_bits dflt buf' buf fs (all_fields fs _ (value_at_own_bits dflt buf' buf Hb' Hb Hl)) Hok
      (c + wire_bits g) (bit_order_of g) 0 Hw' (next_aligned g c Hog Ha)) as Hm. cbn [Z.add] in Hm.
    apply Hm; [by rewrite <- Z.add_assoc|lia|done|lia|lia|]. intros k Hk Hin. apply Hfr; [done|]. intros Hcell.
    destruct (Hreg k) as [_ Hdis]. apply Hdis. split; [done|].
    by replace (0 + (c + wire_bits g + fields_bits fs)) with (0 + (c + (wire_bits g + fields_bits fs))) in Hin by lia.
  - f_equal.
    + apply (value_at_kept dflt g c _ buf buf' Hog Ha Hc ltac:(lia) Hb Hr). intros k Hk [Hcg Hcf].
      destruct (field_in_region fs Hok (c + wire_bits g) (bit_order_of g) 0 i f o k Hw' (next_aligned g c Hog Ha)) as (_ & _ & _ & _ & Hin);
        [by rewrite <- Z.add_assoc|done|done|done|].
      destruct (Hreg k) as [_ Hdis]. apply Hdis. split; [done|]. specialize (Hin Hcf).
      by replace (0 + (c + (wire_bits g + fields_bits fs))) with (0 + (c + wire_bits g + fields_bits fs)) by lia.
    + eapply IH; [done|exact Hw'|by apply next_aligned|by rewrite <- Z.add_assoc|lia|lia|done|done|done|done].
Qed.
End OneField.

(** ** Computed fields *)
Lemma set_computed_fits f x v : type_ok f = true -> set_computed f x = Some v -> fits f v.
Proof.
  intros Hok. destruct f as [n k|e n k|n s o|u n|name fs]; cbn [set_computed type_ok] in *; try done.
  - destruct (in_range k n x) eqn:E; [|done]. intros [= <-]. by constructor.
  - destruct (in_range k n x) eqn:E; [|done]. intros [= <-]. apply size_ok_range in Hok as [Hn _].
    destruct (uint_bytes_spec e n (wrap (8 * n) x)) as (Hl & Hb & _); [lia|]. by constructor.
  - apply andb_true_iff in Hok as [H1%Z.leb_le H2%Z.leb_le]. assert (Hn : 1 <= n <= 64) by (destruct s; lia).
    assert (Hp : 2 ^ n = 2 * 2 ^ (n - 1)) by (rewrite <- Z.pow_succ_r by lia; f_equal; lia). destruct s.
    + destruct (in_range Signed 8 x) eqn:E; [|done]. apply andb_true_iff in E as [E1%Z.leb_le E2%Z.ltb_lt]. cbn [negb].
      rewrite Z.shiftl_1_l. destruct (Z.ltb_spec n 64) as [H64|H64]; cbn [andb].
      * destruct (Z.ltb_spec x (- 2 ^ (n - 1))), (Z.ltb_spec (2 ^ (n - 1) - 1) x); try done. intros [= <-]. constructor. cbn. lia.
      * assert (n = 64) as -> by lia. intros [= <-]. constructor. cbn in *. lia.
    + destruct (in_range Unsigned 8 x) eqn:E; [|done]. apply andb_true_iff in E as [E1%Z.leb_le E2%Z.ltb_lt]. cbn [negb].
      destruct (Z.ltb_spec n 64) as [H64|H64]; cbn [andb].
      * rewrite Z.shiftr_div_pow2 by lia. destruct (Z.eqb_spec (x / 2 ^ n) 0) as [E|E]; [|done]. intros [= <-]. constructor.
        apply Z.div_small_iff in E; [|lia]. cbn. lia.
      * assert (n = 64) as -> by lia. intros [= <-]. constructor. cbn in *. lia.
Qed.

Lemma zero_fits f : type_ok f = true -> fits f (zero_value f).
Proof.
  induction f using field_type_rect'; intros Hok.
  - cbn in *. constructor. apply size_ok_range in Hok as [Hn _]. unfold in_range.
    assert (0 < 2 ^ (8 * n)) by (apply Z.pow_pos_nonneg; lia). assert (0 < 2 ^ (8 * n - 1)) by (apply Z.pow_pos_nonneg; lia).
    destruct k; apply andb_true_iff; rewrite Z.leb_le, Z.ltb_lt; lia.
  - cbn in *. apply size_ok_range in Hok as [Hn _]. constructor; [rewrite zlen_replicate; lia|apply bytes_ok_zeros].
  - cbn in *. apply andb_true_iff in Hok as [H1%Z.leb_le H2%Z.leb_le]. constructor. unfold bits_fit.
    assert (0 < 2 ^ n) by (apply Z.pow_pos_nonneg; destruct s; lia). assert (0 < 2 ^ (n - 1)) by (apply Z.pow_pos_nonneg; destruct s; lia).
    destruct s; lia.
  - cbn in *. apply andb_true_iff in Hok as [_ Hu]. constructor; [by rewrite length_replicate|].
    apply Forall_replicate. auto.
  - rewrite type_ok_struct in Hok. apply andb_true_iff in Hok as [_ Hfs]. cbn. constructor.
    induction H as [|[n f] fs Hf H IH]; [constructor|]. apply fields_ok_cons in Hfs as [Hof Hok]. constructor; [by apply Hf|auto].
Qed.

Lemma index_from_spec name l : forall i idx j, index_from name i l idx = Some j ->
  idx = Some j \/ exists k f, l !! k = Some (name, f) /\ j = (i + k)%nat.
Proof.
  induction l as [|[n f] l IH]; intros i idx j; cbn; [by left|]. intros Hj. apply IH in Hj as [Hj|(k & g & Hk & ->)].
  - case_bool_decide; [|by left]. simplify_eq. right. exists 0%nat, f. split; [done|lia].
  - right. exists (S k), g. split; [done|lia].
Qed.

Lemma field_index_spec fs name i : field_index fs name = Some i -> exists f, fs !! i = Some (name, f).
Proof.
  intros Hi. apply index_from_spec in Hi as [|(k & f & Hk & ->)]; [done|]. by exists f.
Qed.

Section Computed.
Context (fs : list (string * field_type)) (dflt : endian) (Hfs : described fs = true).

(** Writing one member of an encoded struct. *)
Lemma emit_one i f o v buf : snd <$> fs !! i = Some f -> field_bit_offsets fs !! i = Some o -> fits f v ->
  bytes_ok buf -> wire_size fs <= zlen buf ->
  exists buf', emit_field dflt f v o buf = Some (buf', None) /\ zlen buf' = zlen buf /\ bytes_ok buf' /\
    (forall k, 8 * wire_size fs <= k -> bit buf' k = bit buf k) /\
    values_at dflt buf' fs 0 = <[i := v]> (values_at dflt buf fs 0).
Proof using Hfs.
  intros Hf Ho Hv Hb Hz. destruct (described_inv fs Hfs) as (Hw & Hok & H8 & Hs & Hbits).
  assert (Hin : forall k, type_ok f = true /\ aligned f o /\ 0 <= o /\ o + wire_bits f <= 0 + fields_bits fs /\
    (cells f (0 + o) k -> region 0 0 None (0 + (0 + fields_bits fs)) k)).
  { intros k. by apply (field_in_region fs Hok 0 None 0 i f o k Hw (fun _ => eq_refl) H8 eq_refl). }
  destruct (Hin 0) as (Hof & Ha & Ho0 & Hoz & _).
  destruct (emit_field_spec dflt f Hof v o buf) as (buf' & err & E & Hr & He); [by apply fits_typed|done|done|lia|done|].
  destruct err as [e|]; [done|]. destruct He as [_ Hval]. pose proof Hr as [Hl Hb' Hfr].
  exists buf'. split; [done|]. split; [done|]. split; [done|]. split.
  - intros k Hk. apply Hfr; [lia|]. intros Hc. destruct (Hin k) as (_ & _ & _ & _ & Hreg). destruct (Hreg Hc) as [_ Hlt]. lia.
  - rewrite (values_at_update dflt fs Hok 0 None i f o buf buf' Hw (fun _ => eq_refl) H8) by (done || lia). by rewrite Hval.
Qed.

(** A specification that compiles: its field exists. *)
Definition names_field (s : computed_spec) : Prop :=
  is_Some (field_index fs (match s with Calc n _ => n | Checksum n _ => n end)).

(** The members a list of specifications computes. *)
Definition computed_at (ss : list computed_spec) (i : nat) : Prop :=
  Exists (fun s => field_index fs (match s with Calc n _ => n | Checksum n _ => n end) = Some i) ss.

Lemma calc_fields_spec ss ctx : forall vs vs' bad, calc_fields fs ss ctx vs = (vs', bad) ->
  Forall2 (fun nf v => typed nf.2 v) fs vs ->
  Forall2 (fun nf v => typed nf.2 v) fs vs' /\ (forall i, ~ computed_at ss i -> vs' !! i = vs !! i).
Proof using Hfs.
  destruct (described_inv fs Hfs) as (_ & Hok & _).
  induction ss as [|[n fn|n fn] ss IH]; intros vs vs' bad; cbn [calc_fields].
  - by intros [= <- <-].
  - destruct (set_member fs n vs (fn (VList vs) ctx)) as [vs1|] eqn:E; [|by intros [= <- <-]]. intros Hc Ht.
    unfold set_member in E. destruct (field_index fs n) as [i|] eqn:Ei; [|done]. cbn in E.
    destruct (fs !! i) as [[n' f]|] eqn:Ef; [|done]. cbn in E. destruct (set_computed f _) as [v|] eqn:Es; [|done].
    injection E as <-. assert (Hof : type_ok f = true).
    { unfold fields_ok in Hok. rewrite forallb_forall in Hok. apply (Hok (n', f)). apply list_elem_of_In. by eapply list_elem_of_lookup_2. }
    destruct (IH _ _ _ Hc) as [Ht' Hsame].
    { rewrite <- (list_insert_id fs i (n', f)) by done. apply Forall2_insert; [done|]. cbn.
      eapply fits_typed, set_computed_fits; [done..|exact Es]. }
    split; [done|]. intros j Hj. rewrite Hsame by (intros Hx; apply Hj; by right).
    rewrite list_lookup_insert_ne; [done|]. intros ->. apply Hj. by left.
  - intros Hc Ht. destruct (IH _ _ _ Hc Ht) as [Ht' Hsame]. split; [done|]. intros j Hj. apply Hsame. intros Hx. apply Hj. by right.
Qed.

Lemma checksum_fields_spec ss ctx : Forall names_field ss -> forall vs buf, bytes_ok buf -> wire_size fs <= zlen buf ->
  exists buf' bad, checksum_fields fs ss ctx dflt vs buf = Some (buf', bad) /\ zlen buf' = zlen buf /\ bytes_ok buf' /\
    (forall k, 8 * wire_size fs <= k -> bit buf' k = bit buf k) /\
    (forall i, ~ computed_at ss i -> values_at dflt buf' fs 0 !! i = values_at dflt buf fs 0 !! i).
Proof using Hfs.
  destruct (described_inv fs Hfs) as (_ & Hok & _).
  induction 1 as [|[n fn|n fn] ss [i Hi] _ IH]; intros vs buf Hb Hz; cbn [checksum_fields].
  - exists buf, None. done.
  - destruct (IH vs buf Hb Hz) as (buf' & bad & -> & Hl & Hb' & Hfr & Hsame). exists buf', bad. split_and!; try done.
    intros j Hj. apply Hsame. intros Hx. apply Hj. by right.
  - rewrite Hi. cbn [mbind option_bind]. destruct (field_index_spec fs n i Hi) as [f Ef].
    assert (Hff : snd <$> fs !! i = Some f) by (by rewrite Ef).
    destruct (offsets_lookup fs 0 i f Hff) as [o Ho]. rewrite Ef. cbn [mbind option_bind snd].
    unfold field_bit_offsets. rewrite Ho. cbn [mbind option_bind].
    assert (Hof : type_ok f = true).
    { unfold fields_ok in Hok. rewrite forallb_forall in Hok. apply (Hok (n, f)). apply list_elem_of_In. by eapply list_elem_of_lookup_2. }
    destruct (emit_one i f o (zero_value f) buf Hff Ho (zero_fits f Hof) Hb Hz) as (b0 & -> & Hl0 & Hb0 & Hfr0 & Hv0).
    cbn [mbind option_bind fst]. destruct (set_computed f _) as [v|] eqn:Es.
    + destruct (emit_one i f o v b0 Hff Ho (set_computed_fits f _ v Hof Es) Hb0 ltac:(lia)) as (b1 & -> & Hl1 & Hb1 & Hfr1 & Hv1).
      cbn [mbind option_bind]. destruct (IH (<[i := v]> vs) b1 Hb1 ltac:(lia)) as (buf' & bad & -> & Hl & Hb' & Hfr & Hsame).
      exists buf', bad. split; [done|]. split; [lia|]. split; [done|]. split; [intros k Hk; rewrite Hfr, Hfr1, Hfr0; done|].
      intros j Hj. rewrite Hsame by (intros Hx; apply Hj; by right). rewrite Hv1, Hv0.
      assert (i <> j) by (intros ->; apply Hj; by left). by rewrite !list_lookup_insert_ne.
    + exists b0, (Some n). split_and!; try done. intros j Hj. rewrite Hv0.
      rewrite list_lookup_insert_ne; [done|]. intros ->. apply Hj. by left.
Qed.

(** [emit_struct] on a value of the type: it stays within the struct's bytes,
    and a success leaves every member that is not computed as it was given. *)
Lemma emit_struct_spec name specs vs buf ctx : Forall names_field specs -> Forall2 (fun nf v => typed nf.2 v) fs vs ->
  bytes_ok buf -> wire_size fs <= zlen buf ->
  exists buf' r, emit_struct name fs specs vs buf dflt ctx = Some (buf', r) /\ zlen buf' = zlen buf /\ bytes_ok buf' /\
    (forall k, 8 * wire_size fs <= k -> bit buf' k = bit buf k) /\
    match r with
    | inl n => n = wire_size fs /\ forall i, ~ computed_at specs i -> values_at dflt buf' fs 0 !! i = vs !! i
    | inr _ => True
    end.
Proof using Hfs.
  intros Hn Hvs Hb Hz. unfold emit_struct. destruct (calc_fields fs specs ctx vs) as [vs1 bad] eqn:Ec.
  destruct (calc_fields_spec specs ctx vs vs1 bad Ec Hvs) as [Hvs1 Hsame1]. destruct bad as [bad|].
  { exists buf, (inr (misfit name bad)). done. }
  destruct (zeroed fs Hfs buf Hb Hz) as (b0 & -> & Hl0 & Hb0 & Hfr0). cbn [mbind option_bind].
  destruct (emit_all fs dflt Hfs vs1 b0 Hvs1 Hb0 ltac:(lia)) as (b1 & err & -> & [Hl1 Hb1 Hfr1] & He). cbn [mbind option_bind].
  assert (Hfr1' : forall k, 8 * wire_size fs <= k -> bit b1 k = bit buf k).
  { destruct (described_inv fs Hfs) as (_ & _ & _ & ? & _). intros k Hk. rewrite Hfr1 by lia. by apply Hfr0. }
  destruct err as [err|].
  { eexists b1, _. split; [done|]. split; [lia|]. done. }
  destruct He as [_ Hv1].
  destruct (checksum_fields_spec specs ctx Hn vs1 b1 Hb1 ltac:(lia)) as (b2 & bad & -> & Hl2 & Hb2 & Hfr2 & Hsame2).
  cbn [mbind option_bind]. assert (Hfr2' : forall k, 8 * wire_size fs <= k -> bit b2 k = bit buf k).
  { intros k Hk. rewrite Hfr2; auto. }
  destruct bad as [bad|]; (eexists b2, _; split; [done|]; split; [lia|]; split; [done|]; split; [done|]); [done|].
  split; [done|]. intros i Hi. by rewrite Hsame2, Hv1, Hsame1.
Qed.

Lemma to_bytes_plain name vs ctx : Forall2 (fun nf v => typed nf.2 v) fs vs ->
  exists r, to_bytes name fs [] vs ctx dflt = Some r /\
    match r with
    | inl b => Forall2 (fun nf v => fits nf.2 v) fs vs /\ zlen b = wire_size fs /\ bytes_ok b /\ values_at dflt b fs 0 = vs
    | inr e => ~ Forall2 (fun nf v => fits nf.2 v) fs vs
    end.
Proof using Hfs.
  intros Hvs. destruct (described_inv fs Hfs) as (_ & _ & _ & Hs & _). unfold to_bytes, emit_struct. cbn [calc_fields].
  assert (Hz : zlen (replicate (Z.to_nat (wire_size fs)) 0) = wire_size fs) by (rewrite zlen_replicate; lia).
  destruct (zeroed fs Hfs (replicate (Z.to_nat (wire_size fs)) 0) (bytes_ok_zeros _) ltac:(lia)) as (b0 & -> & Hl0 & Hb0 & _). cbn [mbind option_bind].
  destruct (emit_all fs dflt Hfs vs b0 Hvs Hb0 ltac:(lia)) as (b1 & err & -> & [Hl1 Hb1 _] & He). cbn [mbind option_bind].
  destruct err as [err|]; cbn [checksum_fields mbind option_bind]; eexists; (split; [done|]); [done|].
  destruct He as [Hf Hv]. split_and!; done || lia.
Qed.
End Computed.


(** ** Views *)

(** The host value of a member: [be<T>]/[le<T>] converted. *)
Fixpoint host (f : field_type) (v : value) : value :=
  match f, v with
  | Endian e n k, VRaw raw => VScalar (es_get e n k raw)
  | Array u _, VList vs => VList (List.map (host u) vs)
  | _, _ => v
  end.

Lemma elements_map {A} (h : A -> A) (get : Z -> A) eb n : forall o,
  List.map h (elements_at get eb n o) = elements_at (fun o => h (get o)) eb n o.
Proof. induction n as [|n IH]; intros o; cbn; [done|]. by rewrite IH. Qed.

Section Views.
Context (M : memory) (p : Z) (l : list Z) (dflt : endian) (Hl : bytes_ok l) (Hh : holds M p l).

Lemma decode_field_spec f : type_ok f = true -> forall o, aligned f o -> 0 <= o -> o + wire_bits f <= 8 * zlen l ->
  decode_field M p dflt f o = Some (host f (value_at dflt l f o)).
Proof using Hl Hh.
  induction f using field_type_rect'; intros Hok b Ha Hb Hz.
  - pose proof (assign_field_spec M p l dflt Hl Hh (Scalar n k) Hok b Ha Hb Hz) as E. exact E.
  - cbn in Hok, Hz. specialize (Ha eq_refl). pose proof (size_ok_range _ Hok) as [Hn _]. cbn [decode_field]. unfold decode_scalar.
    rewrite (load_uint_spec M p l Hl Hh) by (done || Z.div_mod_to_equations; lia). done.
  - pose proof (assign_field_spec M p l dflt Hl Hh (BitField n s o) Hok b Ha Hb Hz) as E. exact E.
  - cbn in Hok. apply andb_true_iff in Hok as [Hbf Hu]. apply negb_true_iff in Hbf. cbn [decode_field value_at wire_bits host] in *.
    pose proof (wire_bits_nonneg f Hu). pose proof (wire_bits_bytes f Hu Hbf) as H8. specialize (Ha eq_refl).
    rewrite elements_map. rewrite (elements_spec l _ (fun o => host f (value_at dflt l f o))); [done|lia|lia|lia|].
    intros o' Ho' Hm Hle. apply IHf; [done| |lia|lia]. intros _. destruct (decide (wire_bits f = 0)) as [E|E].
    + rewrite E, Zmod_0_r in Hm. by replace o' with b by lia.
    + apply Z.mod_divide in Hm as [t Ht]; [|done]. replace o' with (b + t * wire_bits f) by lia.
      by rewrite Zplus_mod, Zmult_mod, H8, Ha, Z.mul_0_r.
  - pose proof (assign_field_spec M p l dflt Hl Hh (Struct name fs) Hok b Ha Hb Hz) as E. exact E.
Qed.

(** The values of a byte array are its wire bytes. *)
Lemma byte_elements k n : forall o, o mod 8 = 0 -> 0 <= o -> o + Z.of_nat n * 8 <= 8 * zlen l ->
  elements_at (value_at dflt l (Scalar 1 k)) 8 n o = List.map (fun b => VScalar (cast k 1 b)) (slice l (o / 8) (Z.of_nat n)).
Proof using.
  induction n as [|n IH]; intros o Ho8 Ho Hz; cbn [elements_at]; [by unfold slice; rewrite ztake_0|].
  assert (Hq : 0 <= o / 8 /\ o / 8 + 1 + Z.of_nat n <= zlen l) by (Z.div_mod_to_equations; lia).
  rewrite IH by ((rewrite Zplus_mod, Ho8; done) || lia).
  replace ((o + 8) / 8) with (o / 8 + 1) by (Z.div_mod_to_equations; lia).
  unfold slice. destruct (proj2 (zget_is_Some l (o / 8))) as [b Hg]; [lia|].
  assert (Hd : zdrop (o / 8) l = b :: zdrop (o / 8 + 1) l).
  { unfold zget in Hg. destruct (Z.ltb_spec (o / 8) 0); [lia|]. unfold zdrop.
    rewrite (drop_S l b) by done. do 2 f_equal. lia. }
  rewrite Hd. replace (Z.to_nat (Z.of_nat (S n))) with (S n) by lia. unfold ztake at 2.
  replace (Z.to_nat (Z.of_nat (S n))) with (S (Z.to_nat (Z.of_nat n))) by lia. cbn [take List.map].
  f_equal. cbn [value_at]. unfold slice. rewrite Hd. change (ztake 1 (b :: zdrop (o / 8 + 1) l)) with [b]. by destruct dflt; cbn; rewrite Z.add_0_r || idtac.
Qed.
End Views.

(** ** Structs inside structs *)
Lemma slice_slice l q n a b : 0 <= q -> 0 <= a -> 0 <= b -> a + b <= n -> slice (slice l q n) a b = slice l (q + a) b.
Proof.
  intros. unfold slice. rewrite zdrop_ztake by lia. rewrite ztake_ztake by lia. by rewrite zdrop_zdrop by lia.
Qed.

Lemma shift_div q o : (8 * q + o) / 8 = q + o / 8 /\ (8 * q + o) mod 8 = o mod 8.
Proof. Z.div_mod_to_equations. lia. Qed.

Lemma value_at_slice dflt l q n f : 0 <= q -> 0 <= n -> type_ok f = true -> forall o, aligned f o -> 0 <= o ->
  o + wire_bits f <= 8 * n -> value_at dflt (slice l q n) f o = value_at dflt l f (8 * q + o).
Proof.
  intros Hq Hn. induction f using field_type_rect'; intros Hok b Ha Hb Hz; pose proof (shift_div q b) as [D1 D2].
  - cbn in *. pose proof (size_ok_range _ Hok). specialize (Ha eq_refl).
    rewrite slice_slice, D1 by (Z.div_mod_to_equations; lia). done.
  - cbn in *. pose proof (size_ok_range _ Hok). specialize (Ha eq_refl).
    rewrite slice_slice, D1 by (Z.div_mod_to_equations; lia). done.
  - cbn in *. apply andb_true_iff in Hok as [H1%Z.leb_le H2%Z.leb_le]. assert (1 <= n0) by (destruct s; lia).
    unfold field_bits. rewrite D1, D2, slice_slice by (Z.div_mod_to_equations; lia). done.
  - cbn in Hok. apply andb_true_iff in Hok as [Hbf Hu]. apply negb_true_iff in Hbf. specialize (Ha eq_refl).
    cbn [wire_bits value_at] in *. pose proof (wire_bits_nonneg f Hu). pose proof (wire_bits_bytes f Hu Hbf) as H8.
    f_equal. clear D1 D2. revert b Ha Hb Hz. induction n0 as [|m IH]; intros b Ha Hb Hz; cbn [elements_at]; [done|]. f_equal.
    + apply IHf; [done|by intros _|done|nia].
    + rewrite IH by ((by rewrite Zplus_mod, Ha, H8) || lia). f_equal. lia.
  - rewrite type_ok_struct in Hok. apply andb_true_iff in Hok as [Hlay Hfs]. apply andb_true_iff in Hlay as [_ Hw].
    rewrite wire_bits_struct in Hz. rewrite !value_at_struct. f_equal. clear D1 D2.
    assert (Hgo : forall c po pe, layout_walk c po pe fs = true -> 0 <= c -> b + c + fields_bits fs <= 8 * n ->
      values_at dflt (slice l q n) fs (b + c) = values_at dflt l fs (8 * q + b + c)).
    { clear Hw Hz. induction H as [|[m f] fs Hf _ IH]; intros c po pe Hw Hc Hz; [done|].
      apply fields_ok_cons in Hfs as [Hof Hok]. apply layout_walk_cons in Hw as (Haf & _ & Hw).
      pose proof (wire_bits_nonneg f Hof). pose proof (fields_bits_pos fs Hok).
      cbn [fields_bits foldr snd values_at] in *. fold (fields_bits fs) in *. f_equal.
      - rewrite Hf; [f_equal; lia|done|by apply aligned_add; [apply Ha|]|lia|lia].
      - rewrite <- !Z.add_assoc. rewrite (IH Hok Ha (c + wire_bits f) _ _ Hw) by lia. f_equal. lia. }
    pose proof (Hgo 0 None 0 Hw) as E. rewrite !Z.add_0_r in E. apply E; lia.
Qed.

Lemma values_at_slice dflt l q gs : 0 <= q -> described gs = true ->
  values_at dflt (slice l q (wire_size gs)) gs 0 = values_at dflt l gs (8 * q).
Proof.
  intros Hq Hgs. destruct (described_inv gs Hgs) as (_ & _ & _ & Hs & Hb).
  pose proof (value_at_slice dflt l q (wire_size gs) (Struct "" gs) Hq Hs) as E. rewrite type_ok_struct, wire_bits_struct in E.
  specialize (E Hgs 0 (fun _ => eq_refl) ltac:(lia) ltac:(lia)). rewrite !value_at_struct, Z.add_0_r in E. by injection E.
Qed.

(** ** The theorems *)

(** C13: [strct], [overlay] and [footer] of a described struct ask for the
    missing bytes when there are fewer than its wire size, and otherwise read
    exactly that many: [strct] yields the members the bytes denote (each in
    its type's range), the view of [overlay] materializes to the same struct,
    and [footer] yields the members of the last bytes and leaves the rest. *)
Theorem strct_exact fs dflt M i : described fs = true -> wf M i ->
  (size i < wire_size fs /\
   strct fs dflt M i = make_incomplete i (wire_size fs - size i) /\
   overlay fs dflt M i = make_incomplete i (wire_size fs - size i) /\
   footer fs dflt M i = make_incomplete i (wire_size fs - size i)) \/
  (exists l l', wire_size fs <= size i /\ zlen l = wire_size fs /\ zlen l' = wire_size fs /\
     holds M (i_first i) l /\ holds M (i_last i - wire_size fs) l' /\
     strct fs dflt M i = Done (VList (values_at dflt l fs 0)) (advance i (wire_size fs)) /\
     Forall2 (fun nf v => fits nf.2 v) fs (values_at dflt l fs 0) /\
     (exists v, overlay fs dflt M i = Done v (advance i (wire_size fs)) /\
        to_struct fs M v = Some (VList (values_at dflt l fs 0))) /\
     footer fs dflt M i = Done (VList (values_at dflt l' fs 0)) (with_range i (i_first i) (i_last i - wire_size fs))).
Proof.
  intros Hfs Hwf. destruct (described_inv fs Hfs) as (_ & _ & _ & Hs & _).
  unfold overlay, footer. destruct (Z.ltb_spec (size i) (wire_size fs)) as [Hlt|Hge].
  { left. split_and!; try done. unfold strct. by destruct (Z.ltb_spec (size i) (wire_size fs)); [|lia]. }
  right. destruct (wf_holds M i (Z.to_nat (size i)) Hwf) as (w & Hw & Hlw & Hbw); [lia|].
  assert (Hzw : zlen w = size i) by (unfold zlen; lia). pose proof (size_wf M i Hwf) as Hsz.
  assert (Hl' : holds M (i_last i - wire_size fs) (zdrop (size i - wire_size fs) w)).
  { rewrite <- (ztake_zdrop (size i - wire_size fs) w) in Hw. apply holds_app in Hw as [_ Hw].
    rewrite zlen_ztake, Z.min_l in Hw by lia. by replace (i_last i - wire_size fs) with (i_first i + (size i - wire_size fs)) by lia. }
  assert (Hl : holds M (i_first i) (ztake (wire_size fs) w)).
  { rewrite <- (ztake_zdrop (wire_size fs) w) in Hw. by apply holds_app in Hw as [Hw _]. }
  exists (ztake (wire_size fs) w), (zdrop (size i - wire_size fs) w).
  assert (Z1 : zlen (ztake (wire_size fs) w) = wire_size fs) by (rewrite zlen_ztake by lia; lia).
  assert (Z2 : zlen (zdrop (size i - wire_size fs) w) = wire_size fs) by (rewrite zlen_zdrop by lia; lia).
  pose proof (bytes_ok_ztake (wire_size fs) w Hbw) as B1. pose proof (bytes_ok_zdrop (size i - wire_size fs) w Hbw) as B2.
  split_and!; try done.
  - by apply strct_holds.
  - apply struct_fits; done || lia.
  - eexists. split; [done|]. cbn. apply struct_at_spec; done || lia.
  - rewrite (strct_holds fs dflt Hfs M _ (zdrop (size i - wire_size fs) w)); [done| |done|done|].
    + cbn. by replace (i_first i + (size i - wire_size fs)) with (i_last i - wire_size fs) by lia.
    + unfold size, advance in *. cbn. rewrite wrap_small; pose proof (wf_base _ _ Hwf); pose proof (wf_extent _ _ Hwf); lia.
Qed.

(** [get<"name">()] on a view over a struct's bytes hands out the named
    member of the struct [strct] would have produced: its host value, a view
    that materializes to it, or, for a byte array, the span of its bytes. *)
Theorem view_get_exact fs dflt M v l name i : described fs = true -> holds M (v_p v) l -> bytes_ok l ->
  zlen l = wire_size fs -> v_dflt v = dflt -> field_index fs name = Some i ->
  exists f m g, fs !! i = Some (name, f) /\ values_at dflt l fs 0 !! i = Some m /\ get fs M v name = Some g /\
    match g with
    | GotValue r => r = Some (host f m)
    | GotView v' => exists n gs, f = Struct n gs /\ to_struct gs M v' = Some m
    | GotBytes b => exists k n bs, f = Array (Scalar 1 k) n /\ holds M (b_data b) bs /\ zlen bs = b_size b /\
        m = VList (List.map (fun x => VScalar (cast k 1 x)) bs)
    end.
Proof.
  intros Hfs Hh Hl Hz Hd Hi. destruct (described_inv fs Hfs) as (Hw & Hok & H8 & Hs & Hb).
  destruct (field_index_spec fs name i Hi) as [f Ef]. assert (Hff : snd <$> fs !! i = Some f) by (by rewrite Ef).
  destruct (offsets_lookup fs 0 i f Hff) as [o Ho].
  destruct (field_in_region fs Hok 0 None 0 i f o 0 Hw (fun _ => eq_refl) H8 eq_refl Hff Ho) as (Hof & Ha & Ho0 & Hoz & _).
  pose proof (values_at_lookup dflt l fs 0 i f o Hff Ho 0) as Hv. rewrite !Z.add_0_l in Hv.
  unfold get. rewrite Hi. cbn [mbind option_bind]. rewrite Ef. cbn [mbind option_bind snd].
  unfold field_bit_offsets. rewrite Ho. cbn [mbind option_bind]. rewrite Hd.
  pose proof (decode_field_spec M (v_p v) l dflt Hl Hh f Hof o Ha Ho0 ltac:(lia)) as Hdec.
  exists f, (value_at dflt l f o).
  destruct f as [n k|e n k|n s ord|u n|sn gs].
  1-3: (eexists; split_and!; [done|exact Hv|done|exact Hdec]).
  - destruct (is_byte_array (Array u n)) eqn:Eb; [|eexists; split_and!; [done|exact Hv|done|exact Hdec]].
    assert (Hu : exists k, u = Scalar 1 k).
    { destruct u as [m k|? ? ?|? ? ?|? ?|? ?]; try done. destruct k; cbn in Eb; try done; apply Z.eqb_eq in Eb as ->; eauto. }
    destruct Hu as [k ->]. cbn [wire_bits] in Hoz. specialize (Ha eq_refl). change (8 * 1) with 8 in Hoz.
    eexists. split_and!; [done|exact Hv|done|]. exists k, n, (slice l (o / 8) (Z.of_nat n)). cbn [b_data b_size].
    assert (Hq : 0 <= o / 8 /\ o / 8 + Z.of_nat n <= zlen l) by (Z.div_mod_to_equations; lia).
    split_and!; [done|apply holds_slice; done || lia|apply zlen_slice; lia|].
    change (value_at dflt l (Array (Scalar 1 k) n) o) with (VList (elements_at (value_at dflt l (Scalar 1 k)) 8 n o)).
    by rewrite byte_elements by (done || lia).
  - eexists. split_and!; [done|exact Hv|done|]. exists sn, gs. split; [done|]. rewrite value_at_struct.
    rewrite type_ok_struct in Hof. rewrite wire_bits_struct in Hoz. specialize (Ha eq_refl).
    unfold to_struct. cbn [v_p v_dflt]. pose proof (assign_field_spec M (v_p v) l dflt Hl Hh (Struct sn gs)) as Hasg.
    apply andb_true_iff in Hof as [Hlay Hgs]. pose proof Hlay as [H8' Hw']%andb_true_iff. apply Z.eqb_eq in H8'.
    assert (Hq : 0 <= o / 8 /\ o / 8 + wire_size gs <= zlen l /\ fields_bits gs = 8 * wire_size gs).
    { unfold wire_size. pose proof (fields_bits_pos gs Hgs). Z.div_mod_to_equations. lia. }
    assert (Hdes : described gs = true) by (unfold described; by rewrite Hlay, Hgs).
    destruct (described_inv gs Hdes) as (_ & _ & _ & Hgs0 & _).
    pose proof (holds_slice M (v_p v) l (o / 8) (wire_size gs) ltac:(lia) Hgs0 ltac:(lia) Hh) as Hsl.
    rewrite (struct_at_spec gs dflt Hdes M _ _ Hsl) by (try apply bytes_ok_slice; try rewrite zlen_slice; done || lia).
    do 2 f_equal. rewrite values_at_slice by (done || lia). f_equal. Z.div_mod_to_equations. lia.
Qed.

(** A buffer of exactly the struct's bytes, parsed. *)
Definition parse_bytes (fs : list (string * field_type)) (dflt : endian) (b : list Z) : result value :=
  strct fs dflt (mem_of 0 b) (from_bytes (Bytes 0 (zlen b) None 0)).

Lemma parse_bytes_spec fs dflt b : described fs = true -> bytes_ok b -> zlen b = wire_size fs -> wire_size fs < 2 ^ 60 ->
  exists r, parse_bytes fs dflt b = Done (VList (values_at dflt b fs 0)) r /\ size r = 0.
Proof.
  intros Hfs Hb Hz Hlt. pose proof (zlen_nonneg b). eexists. split.
  - apply strct_holds; try done.
    + cbn. pose proof (holds_mem_of 0 b []) as Hm. by rewrite app_nil_r in Hm.
    + unfold size. cbn. rewrite wrap_small; lia.
  - unfold size. cbn. rewrite wrap_small; lia.
Qed.

(** C14: writing a value of a described struct and reading it back gives the
    value: [to_bytes] fails exactly when a bit field's value does not fit its
    bits, and otherwise produces [wire_size] bytes that [strct] parses, using
    all of them, into the same members. *)
Theorem strct_of_emit fs name dflt ctx vs : described fs = true -> wire_size fs < 2 ^ 60 ->
  Forall2 (fun nf v => typed nf.2 v) fs vs ->
  exists r, to_bytes name fs [] vs ctx dflt = Some r /\
    match r with
    | inl b => Forall2 (fun nf v => fits nf.2 v) fs vs /\ zlen b = wire_size fs /\
        exists rest, parse_bytes fs dflt b = Done (VList vs) rest /\ size rest = 0
    | inr _ => ~ Forall2 (fun nf v => fits nf.2 v) fs vs
    end.
Proof.
  intros Hfs Hlt Hvs. destruct (to_bytes_plain fs dflt Hfs name vs ctx Hvs) as (r & E & Hr). exists r. split; [done|].
  destruct r as [b|e]; [|done]. destruct Hr as (Hf & Hz & Hb & Hv).
  destruct (parse_bytes_spec fs dflt b Hfs Hb Hz Hlt) as (rest & Hp & Hs). rewrite Hv in Hp. eauto.
Qed.

(** Reading a described struct from any bytes of its size and writing the
    result gives the same bytes back. *)
Theorem emit_of_strct fs name dflt ctx b : described fs = true -> wire_size fs < 2 ^ 60 ->
  bytes_ok b -> zlen b = wire_size fs ->
  exists vs rest, parse_bytes fs dflt b = Done (VList vs) rest /\ to_bytes name fs [] vs ctx dflt = Some (inl b).
Proof.
  intros Hfs Hlt Hb Hz. destruct (parse_bytes_spec fs dflt b Hfs Hb Hz Hlt) as (rest & Hp & _).
  pose proof (struct_fits fs dflt Hfs b Hb ltac:(lia)) as Hfit. eexists _, rest. split; [exact Hp|].
  assert (Ht : Forall2 (fun nf v => typed nf.2 v) fs (values_at dflt b fs 0)).
  { destruct (described_inv fs Hfs) as (_ & Hok & _). by apply fits_typed_all. }
  destruct (to_bytes_plain fs dflt Hfs name _ ctx Ht) as (r & E & Hr). rewrite E. destruct r as [b'|e]; [|done].
  destruct Hr as (_ & Hz' & Hb' & Hv). do 2 f_equal. by apply (values_at_inj fs dflt Hfs).
Qed.

(** [emit] into a buffer, computed fields included: a buffer too small is
    refused untouched; otherwise nothing past the struct's bytes changes, and a
    success returns the wire size and leaves every member that is not computed
    as it was given, whatever the user's functions return. *)
Theorem emit_within fs name specs dflt ctx vs out : described fs = true -> Forall (names_field fs) specs ->
  Forall2 (fun nf v => typed nf.2 v) fs vs -> bytes_ok out ->
  exists out' r, emit name fs specs vs out ctx dflt = Some (out', r) /\ zlen out' = zlen out /\
    zdrop (wire_size fs) out' = zdrop (wire_size fs) out /\
    match r with
    | inl n => wire_size fs <= zlen out /\ n = wire_size fs /\
        forall i, ~ computed_at fs specs i -> values_at dflt out' fs 0 !! i = vs !! i
    | inr _ => zlen out < wire_size fs -> out' = out
    end.
Proof.
  intros Hfs Hn Hvs Hb. destruct (described_inv fs Hfs) as (_ & _ & _ & Hs & _). unfold emit.
  destruct (Z.ltb_spec (zlen out) (wire_size fs)) as [Hlt|Hge]; [by eexists _, _|].
  destruct (emit_struct_spec fs dflt Hfs name specs vs out ctx Hn Hvs Hb Hge) as (out' & r & -> & Hl & Hb' & Hfr & Hr).
  exists out', r. split; [done|]. split; [done|]. split.
  - apply le_val_inj; [by apply bytes_ok_zdrop..|unfold zdrop; rewrite !length_drop; unfold zlen in Hl; lia|].
    apply Z.bits_inj'. intros k Hk. pose proof (bit_zdrop out' (wire_size fs) k Hb' Hs Hk) as E1.
    pose proof (bit_zdrop out (wire_size fs) k Hb Hs Hk) as E2. unfold bit at 1 in E1. unfold bit at 1 in E2. rewrite E1, E2. apply Hfr. lia.
  - destruct r as [n|e]; [|lia]. destruct Hr. done.
Qed.

(** * Described structs: checksums, and instances of the theorems

    A written checksum verifies; a corner of the layout check; and concrete
    structs at which the theorems of [StructSpecs] are applied. *)

Section Checksum.
Context (fs : list (string * field_type)) (dflt : endian) (Hfs : described fs = true).
Context (name n : string) (fn : list Z -> list Z -> Z) (i : nat) (f : field_type) (ctx : list Z).
Context (Hi : field_index fs n = Some i) (Hf : fs !! i = Some (n, f)).

(** [to_bytes] with one checksum field: the checksum is taken over the
    encoding with the field zeroed, and takes its place. *)
Lemma to_bytes_checksum vs : Forall2 (fun nf v => fits nf.2 v) fs vs ->
  exists z, zlen z = wire_size fs /\ bytes_ok z /\ values_at dflt z fs 0 = <[i := zero_value f]> vs /\
    match set_computed f (fn z ctx) with
    | None => exists e, to_bytes name fs [Checksum n fn] vs ctx dflt = Some (inr e)
    | Some v => exists b, to_bytes name fs [Checksum n fn] vs ctx dflt = Some (inl b) /\
        zlen b = wire_size fs /\ bytes_ok b /\ values_at dflt b fs 0 = <[i := v]> vs
    end.
Proof using All.
  intros Hvs. destruct (described_inv fs Hfs) as (_ & Hok & _ & Hs & _).
  pose proof (fits_typed_all fs vs Hok Hvs) as Ht.
  assert (Hff : snd <$> fs !! i = Some f) by (by rewrite Hf). destruct (offsets_lookup fs 0 i f Hff) as [o Ho].
  assert (Hof : type_ok f = true).
  { unfold fields_ok in Hok. rewrite forallb_forall in Hok. apply (Hok (n, f)). apply list_elem_of_In. by eapply list_elem_of_lookup_2. }
  unfold to_bytes, emit_struct. cbn [calc_fields].
  assert (Hz : zlen (replicate (Z.to_nat (wire_size fs)) 0) = wire_size fs) by (rewrite zlen_replicate; lia).
  destruct (zeroed fs Hfs (replicate (Z.to_nat (wire_size fs)) 0) (bytes_ok_zeros _) ltac:(lia)) as (b0 & -> & Hl0 & Hb0 & _). cbn [mbind option_bind].
  destruct (emit_all fs dflt Hfs vs b0 Ht Hb0 ltac:(lia)) as (b1 & err & -> & [Hl1 Hb1 _] & He). cbn [mbind option_bind].
  destruct err as [err|]; [done|]. destruct He as [_ Hv1]. cbn [checksum_fields]. rewrite Hi. cbn [mbind option_bind].
  rewrite Hf. cbn [mbind option_bind snd]. unfold field_bit_offsets. rewrite Ho. cbn [mbind option_bind].
  destruct (emit_one fs dflt Hfs i f o (zero_value f) b1 Hff Ho (zero_fits f Hof) Hb1 ltac:(lia)) as (z & -> & Hlz & Hbz & _ & Hvz).
  cbn [mbind option_bind fst]. exists z. split; [lia|]. split; [done|]. split; [by rewrite Hvz, Hv1|].
  rewrite (ztake_all (wire_size fs) z) by lia. destruct (set_computed f (fn z ctx)) as [v|] eqn:Es; [|eexists; done].
  destruct (emit_one fs dflt Hfs i f o v z Hff Ho (set_computed_fits f _ v Hof Es) Hbz ltac:(lia)) as (b & -> & Hlb & Hbb & _ & Hvb).
  cbn [mbind option_bind]. exists b. split; [done|]. split; [lia|]. split; [done|].
  rewrite Hvb, Hvz, Hv1. by rewrite list_insert_insert_eq.
Qed.

(** Two buffers with the same members but for a checksum field agree once the
    field is zeroed, so they get the same checksum. *)
Lemma checksum_again vs b : Forall2 (fun nf v => fits nf.2 v) fs vs ->
  to_bytes name fs [Checksum n fn] vs ctx dflt = Some (inl b) ->
  zlen b = wire_size fs /\ bytes_ok b /\
  to_bytes name fs [Checksum n fn] (values_at dflt b fs 0) ctx dflt = Some (inl b).
Proof using All.
  intros Hvs E. destruct (to_bytes_checksum vs Hvs) as (z & Hlz & Hbz & Hvz & Hr).
  destruct (set_computed f (fn z ctx)) as [v|] eqn:Es; [|destruct Hr as [e Hr]; congruence].
  destruct Hr as (b' & Hr & Hl & Hb & Hv). rewrite E in Hr. injection Hr as <-. split; [done|]. split; [done|].
  pose proof (struct_fits fs dflt Hfs b Hb ltac:(lia)) as Hfit.
  destruct (to_bytes_checksum (values_at dflt b fs 0) Hfit) as (z' & Hlz' & Hbz' & Hvz' & Hr').
  assert (z' = z) as ->.
  { apply (values_at_inj fs dflt Hfs); [done..|]. rewrite Hvz', Hvz, Hv. by rewrite list_insert_insert_eq. }
  rewrite Es in Hr'. destruct Hr' as (b'' & -> & Hl'' & Hb'' & Hv''). do 2 f_equal.
  apply (values_at_inj fs dflt Hfs); [done..|]. rewrite Hv'', Hv. by rewrite list_insert_insert_eq.
Qed.
End Checksum.

(** A struct written with a checksum field verifies: whatever function
    computes it, [verify_computed] accepts the bytes [to_bytes] produced. *)
Theorem checksum_verifies fs name n fn i f dflt ctx vs b : described fs = true -> wire_size fs < 2 ^ 60 ->
  field_index fs n = Some i -> fs !! i = Some (n, f) -> Forall2 (fun nf v => fits nf.2 v) fs vs ->
  to_bytes name fs [Checksum n fn] vs ctx dflt = Some (inl b) ->
  verify_computed name fs [Checksum n fn] b ctx dflt = Some true.
Proof.
  intros Hfs Hlt Hi Hf Hvs E.
  destruct (checksum_again fs dflt Hfs name n fn i f ctx Hi Hf vs b Hvs E) as (Hl & Hb & Hagain).
  destruct (parse_bytes_spec fs dflt b Hfs Hb Hl Hlt) as (r & Hp & _). unfold verify_computed.
  destruct (Z.ltb_spec (zlen b) (wire_size fs)); [lia|]. unfold parse_bytes in Hp. rewrite Hp, Hagain. cbn.
  rewrite (ztake_all (wire_size fs) b) by lia. by rewrite bool_decide_true.
Qed.

(** ** A corner of the layout check *)

(** A member whose own layout is not sound: a byte at bit 4. *)
Definition crooked : list (string * field_type) :=
  [("a", BitField 4 false msb0); ("b", Scalar 1 Unsigned); ("c", BitField 4 false msb0)]%string.
Definition holder : list (string * field_type) := [("inner", Struct "crooked" crooked)]%string.

(** [layout_ok] looks at a struct's own fields only: a struct is accepted
    although the layout of a nested member is rejected when it stands alone,
    and then a value written is not the value read back. *)
Theorem nested_layout_unchecked :
  layout_ok holder = true /\ layout_ok crooked = false /\
  let v := [VList [VScalar 1; VScalar 255; VScalar 2]] in
  Forall2 (fun nf v => fits nf.2 v) holder v /\
  to_bytes "holder" holder [] v [] big = Some (inl [255; 2]) /\
  parse_bytes holder big [255; 2] = Done (VList [VList [VScalar 15; VScalar 255; VScalar 2]]) (Input 2 2 0 false None 0).
Proof.
  split; [done|]. split; [done|]. split; [repeat constructor; done || (split; vm_compute; congruence)|].
  split; vm_compute; reflexivity.
Qed.

(** ** Instances *)

(** An IPv4-like header: bit fields, network-order words, an address, a nested
    struct, a register of lsb0 bits. *)
Definition header : list (string * field_type) :=
  [("version", BitField 4 false msb0); ("ihl", BitField 4 false msb0); ("length", Endian big 2 Unsigned);
   ("delta", BitField 13 true msb0); ("flags", BitField 3 false msb0); ("src", Array (Scalar 1 Unsigned) 4);
   ("mode", BitField 3 false lsb0); ("level", BitField 5 true lsb0);
   ("tail", Struct "tail" [("seq", Scalar 2 Signed); ("sum", Endian little 2 Unsigned)])]%string.

Definition header_value : list value :=
  [VScalar 4; VScalar 5; VRaw [0; 20]; VScalar (-7); VScalar 2; VList [VScalar 10; VScalar 0; VScalar 0; VScalar 1];
   VScalar 3; VScalar (-2); VList [VScalar (-300); VRaw [1; 2]]].

Definition header_bytes : list Z := [69; 0; 20; 255; 202; 10; 0; 0; 1; 243; 254; 212; 1; 2].

Ltac fits_tac := repeat (constructor || (vm_compute; split; congruence) || (vm_compute; congruence) || (vm_compute; reflexivity)).

Lemma header_fits : Forall2 (fun nf v => fits nf.2 v) header header_value.
Proof. unfold header, header_value. fits_tac. Qed.

Lemma header_typed : Forall2 (fun nf v => typed nf.2 v) header header_value.
Proof. apply fits_typed_all; [done|apply header_fits]. Qed.

Lemma header_bytes_ok : bytes_ok header_bytes.
Proof. unfold header_bytes. repeat constructor; lia. Qed.

Lemma strct_exact_witness : exists l,
  strct header big (mem_of 100 header_bytes) (Input 100 114 100 false None 0) =
    Done (VList (values_at big l header 0)) (Input 114 114 100 false None 0).
Proof.
  destruct (strct_exact header big (mem_of 100 header_bytes) (Input 100 114 100 false None 0)) as [(H & _)|(l & l' & _ & _ & _ & _ & _ & H & _)].
  - reflexivity.
  - apply (mem_of_wf 100 header_bytes); [apply header_bytes_ok|vm_compute; reflexivity].
  - vm_compute in H. discriminate.
  - exists l. exact H.
Defined.

Lemma view_get_exact_witness :
  get header (mem_of 0 header_bytes) (View 0 big None 0) "delta" = Some (GotValue (Some (VScalar (-7)))).
Proof.
  destruct (view_get_exact header big (mem_of 0 header_bytes) (View 0 big None 0) header_bytes "delta" 3) as (f & m & g & Hf & Hm & Hg & Hr).
  - reflexivity.
  - pose proof (holds_mem_of 0 header_bytes []) as H. by rewrite app_nil_r in H.
  - apply header_bytes_ok.
  - reflexivity.
  - reflexivity.
  - reflexivity.
  - rewrite Hg. vm_compute in Hf, Hm. injection Hf as <-. injection Hm as <-. vm_compute in Hg. injection Hg as <-. reflexivity.
Defined.

Lemma strct_of_emit_witness : exists rest,
  to_bytes "header" header [] header_value [] big = Some (inl header_bytes) /\
  parse_bytes header big header_bytes = Done (VList header_value) rest /\ size rest = 0.
Proof.
  destruct (strct_of_emit header "header" big [] header_value) as (r & E & Hr);
    [reflexivity|vm_compute; reflexivity|apply header_typed|].
  assert (Hb : to_bytes "header" header [] header_value [] big = Some (inl header_bytes)) by (vm_compute; reflexivity).
  rewrite Hb in E. injection E as <-. destruct Hr as (_ & _ & rest & Hp & Hs). exists rest. split; [exact Hb|]. split; [exact Hp|exact Hs].
Defined.

Lemma emit_of_strct_witness : exists vs rest,
  parse_bytes header little header_bytes = Done (VList vs) rest /\ to_bytes "header" header [] vs [] little = Some (inl header_bytes).
Proof.
  apply (emit_of_strct header "header" little [] header_bytes);
    [reflexivity|vm_compute; reflexivity|apply header_bytes_ok|reflexivity].
Defined.

(** A length computed from the payload, and a checksum over the encoding. *)
Definition length_spec : computed_spec := Calc "length" (fun _ payload => 14 + zlen payload).
Definition sum_bytes (l _ : list Z) : Z := foldr Z.add 0 l mod 8.

Lemma emit_within_witness : exists out' n,
  emit "header" header [length_spec; Checksum "flags" sum_bytes] header_value (header_bytes ++ [1; 2; 3]) [9; 9] big = Some (out', inl n) /\
  zdrop (wire_size header) out' = [1; 2; 3].
Proof.
  destruct (emit_within header "header" [length_spec; Checksum "flags" sum_bytes] big [9; 9] header_value (header_bytes ++ [1; 2; 3]))
    as (out' & r & E & _ & Hd & _).
  - reflexivity.
  - repeat constructor; vm_compute; eauto.
  - apply header_typed.
  - apply Forall_app. split; [apply header_bytes_ok|repeat constructor; lia].
  - destruct r as [n|e].
    + exists out', n. split; [exact E|exact Hd].
    + exfalso. vm_compute in E. discriminate.
Defined.

Lemma checksum_verifies_witness : exists b,
  to_bytes "header" header [Checksum "flags" sum_bytes] header_value [] big = Some (inl b) /\
  verify_computed "header" header [Checksum "flags" sum_bytes] b [] big = Some true.
Proof.
  eexists. split; [vm_compute; reflexivity|].
  apply (checksum_verifies header "header" "flags" sum_bytes 4 (BitField 3 false msb0) big [] header_value);
    [reflexivity|vm_compute; reflexivity|reflexivity|reflexivity|apply header_fits|vm_compute; reflexivity].
Defined.
