(* ===== verification/ViewAccess.v ===== *)
(** * The accessors of a view, with their checks (reflect.hpp, generation.hpp)

    [view::get], [view::raw] and [view::to_struct] look at their pointer and at
    the generation of the arena the view was taken over before they touch a
    byte. The checked accessors put [check_wire_access] of [Generation] in
    front of the accessors of [Reflect]. *)
From stdpp Require Import gmap.
From S2P Require Import Prelude Parser BytesParsers Combinators CombinatorFacts Numbers Bits Generation Reflect ReflectFacts EmitSpecs StructSpecs.

(** How an accessor ends: the assertion on the pointer, a generation fault,
    undefined behaviour, or what the body returns. *)
Inductive checked (A : Type) :=
| NullView
| GenerationFault (f : generation_fault)
| Dangling
| Accessed (x : A).
Arguments NullView {A}.
Arguments GenerationFault {A} f.
Arguments Dangling {A}.
Arguments Accessed {A} x.

(** A view's pointer, null for a default-constructed view. *)
Definition view_ptr (v : view) : ptr := if v_p v =? nullptr then None else Some (v_p v).

Definition guard_view_pointer {A} (v : view) (k : checked A) : checked A :=
  if v_p v =? nullptr then NullView else k.

(** The two checks every accessor opens with, then its body. *)
Definition guarded {A} (h : handler) (s : arenas) (fs : list (string * field_type)) (v : view) (body : option A) : checked A :=
  guard_view_pointer v
    match check_wire_access h s (v_arena v) (v_gen v) (view_ptr v) (wire_size fs) with
    | None => Dangling
    | Some (Stopped f) => GenerationFault f
    | Some Continue => match body with Some x => Accessed x | None => Dangling end
    end.

Section Accessors.
Context (h : handler) (s : arenas) (fs : list (string * field_type)) (M : memory) (v : view).
Definition view_get (name : string) : checked got := guarded h s fs v (get fs M v name).
Definition view_raw : checked bytes := guarded h s fs v (Some (raw fs v)).
Definition view_to_struct : checked value := guarded h s fs v (to_struct fs M v).
End Accessors.

(** [get] of a name the struct has. *)
Lemma get_total fs M v name k : field_index fs name = Some k -> exists g, get fs M v name = Some g.
Proof.
  intros Hk. destruct (field_index_spec fs name k Hk) as [f Ef]. destruct (offsets_lookup fs 0 k f) as [o Ho]; [by rewrite Ef|].
  unfold get, field_bit_offsets. rewrite Hk. cbn [mbind option_bind]. rewrite Ef. cbn [mbind option_bind snd]. rewrite Ho. cbn [mbind option_bind].
  destruct f as [| | |u n|]; eauto. destruct (is_byte_array (Array u n)); eauto.
Qed.

Section Lifetime.
Context (s : arenas) (id : Z) (a : wire_arena) (base : Z).
Context (Ha : s !! id = Some a) (Hbase : a_base a = Some base) (Hnn : 0 <= base) (Hgen : 0 <= a_generation a < 2 ^ 64).

(** The check after a history of the arenas: silent when nothing happened to
    the view's own arena, a stale generation otherwise. *)
Lemma guarded_history {A} os fs v (body : option A) :
  v_arena v = Some id -> v_gen v = a_generation a -> v_p v <> nullptr ->
  base <= v_p v -> v_p v + wire_size fs <= base + a_size a -> ops_on id os < 2 ^ 64 ->
  if ops_on id os =? 0
  then guarded None (foldl arena_step s os) fs v body = match body with Some x => Accessed x | None => Dangling end
  else exists f, f_kind f = stale_generation /\ guarded None (foldl arena_step s os) fs v body = GenerationFault f.
Proof using All.
  intros Hv Hg Hp Hlo Hhi Hn. destruct (arena_history s os id a Ha) as (a' & Ha' & Hg' & Hsame).
  unfold guarded, guard_view_pointer, view_ptr, check_wire_access. rewrite Hv, Ha'.
  destruct (Z.eqb_spec (v_p v) nullptr) as [|_]; [done|].
  pose proof (zlen_nonneg (filter (fun o => op_id o = id) os)) as H0. fold (ops_on id os) in H0.
  destruct (Z.eqb_spec (ops_on id os) 0) as [Hz|Hz].
  - rewrite (Hsame Hz), Hg, Z.eqb_refl. cbn [negb]. unfold contains. rewrite Hbase.
    destruct (Z.eqb_spec (wire_size fs) 0); [done|]. destruct (Z.leb_spec base (v_p v)); [|lia].
    by destruct (Z.leb_spec (v_p v + wire_size fs) (base + a_size a)); [|lia].
  - assert (Hne : a_generation a' <> v_gen v).
    { rewrite Hg. intros He. rewrite He, (wrap_small 64 (a_generation a)) in Hg' by done. unfold wrap in Hg'.
      Z.div_mod_to_equations. lia. }
    destruct (Z.eqb_spec (a_generation a') (v_gen v)) as [|_]; [done|]. cbn [negb dispatch_generation_fault].
    eexists. split; [|reflexivity]. reflexivity.
Qed.

(** C15: a view taken by [overlay] over bytes of an arena, whatever is opened or
    invalidated afterwards: while its own arena is untouched every accessor
    passes its checks and [to_struct] yields the struct [strct] parses at that
    place; after at least one (and fewer than 2^64) operations on its arena
    every accessor stops with a stale-generation fault, no byte read. *)
Theorem view_lifetime os fs dflt M i name : described fs = true -> wf M i -> wire_size fs <= size i ->
  i_arena i = Some id -> i_gen i = a_generation a -> base <= i_first i -> i_last i <= base + a_size a ->
  ops_on id os < 2 ^ 64 ->
  exists v x, overlay fs dflt M i = Done v (advance i (wire_size fs)) /\ strct fs dflt M i = Done x (advance i (wire_size fs)) /\
    let s' := foldl arena_step s os in
    if ops_on id os =? 0
    then view_to_struct None s' fs M v = Accessed x /\ view_raw None s' fs v = Accessed (raw fs v) /\
         forall k, field_index fs name = Some k -> exists g, get fs M v name = Some g /\ view_get None s' fs M v name = Accessed g
    else (exists f, f_kind f = stale_generation /\ view_to_struct None s' fs M v = GenerationFault f) /\
         (exists f, f_kind f = stale_generation /\ view_raw None s' fs v = GenerationFault f) /\
         (exists f, f_kind f = stale_generation /\ view_get None s' fs M v name = GenerationFault f).
Proof using All.
  intros Hfs Hwf Hsz Hia Hig Hlo Hhi Hn. destruct (described_inv fs Hfs) as (_ & _ & _ & Hs & _).
  destruct (wf_holds M i (Z.to_nat (wire_size fs)) Hwf) as (l & Hl & Hll & Hlb); [lia|].
  assert (Hz : zlen l = wire_size fs) by (unfold zlen; lia).
  set (v := View (i_first i) dflt (i_arena i) (i_gen i)).
  exists v, (VList (values_at dflt l fs 0)). split; [unfold overlay; by destruct (Z.ltb_spec (size i) (wire_size fs)); [lia|]|].
  split; [by apply strct_holds|]. intros s'. pose proof (size_wf M i Hwf) as Hsi.
  assert (Hg : forall A (body : option A), if ops_on id os =? 0
    then guarded None s' fs v body = match body with Some x => Accessed x | None => Dangling end
    else exists f, f_kind f = stale_generation /\ guarded None s' fs v body = GenerationFault f).
  { intros A body. apply guarded_history; try done; cbn; unfold nullptr; lia. }
  unfold view_to_struct, view_raw, view_get.
  pose proof (Hg _ (to_struct fs M v)) as G1. pose proof (Hg _ (Some (raw fs v))) as G2. pose proof (Hg _ (get fs M v name)) as G3.
  destruct (Z.eqb_spec (ops_on id os) 0); [|done]. split_and!.
  - rewrite G1. unfold to_struct. cbn [v_p v_dflt v]. by rewrite (struct_at_spec fs dflt Hfs M _ l) by (done || lia).
  - by rewrite G2.
  - intros k Hk. destruct (get_total fs M v name k Hk) as [g Hgg]. exists g. split; [done|]. by rewrite G3, Hgg.
Qed.
End Lifetime.

(** A header inside a 16-byte arena at 1000. *)
Lemma view_lifetime_witness :
  exists v x, overlay header big (mem_of 1000 header_bytes) (Input 1000 1014 1000 false (Some 7) 1) = Done v (Input 1014 1014 1000 false (Some 7) 1) /\
    view_to_struct None (foldl arena_step witness_arenas [OpenArena 8 None 0]) header (mem_of 1000 header_bytes) v = Accessed x /\
    exists f, view_get None (foldl arena_step witness_arenas [OpenArena 8 None 0; InvalidateArena 7]) header (mem_of 1000 header_bytes) v "delta" =
      GenerationFault f /\ f_kind f = stale_generation.
Proof.
  assert (W : wf (mem_of 1000 header_bytes) (Input 1000 1014 1000 false (Some 7) 1)).
  { destruct (mem_of_wf 1000 header_bytes header_bytes_ok) as [H1 H2 H3 H4]; [vm_compute; reflexivity|]. split; [exact H1|exact H2|exact H3|exact H4]. }
  destruct (view_lifetime witness_arenas 7 (new_arena (Some 1000) 16) 1000 eq_refl eq_refl ltac:(lia) ltac:(cbn; lia)
    [OpenArena 8 None 0] header big _ _ "delta"%string eq_refl W) as (v & x & E1 & _ & H1 & _);
    [vm_compute; discriminate|reflexivity|reflexivity|vm_compute; discriminate|vm_compute; discriminate|vm_compute; reflexivity|].
  destruct (view_lifetime witness_arenas 7 (new_arena (Some 1000) 16) 1000 eq_refl eq_refl ltac:(lia) ltac:(cbn; lia)
    [OpenArena 8 None 0; InvalidateArena 7] header big _ _ "delta"%string eq_refl W) as (v' & x' & E2 & _ & _ & _ & f & Hf & H2);
    [vm_compute; discriminate|reflexivity|reflexivity|vm_compute; discriminate|vm_compute; discriminate|vm_compute; reflexivity|].
  rewrite E1 in E2. injection E2 as <-. exists v, x. split; [exact E1|]. split; [exact H1|]. exists f. split; [exact H2|exact Hf].
Defined.
