(* ===== verification/Segmented.v ===== *)
(** * Parsing over disjoint byte ranges (segmented.hpp)

    [segments], the cursor [seg_input], the read window [seg_window], zero-copy
    narrowing with [subrange], and the parsers over them. Pointers and memory
    are those of [Parser]; indexing the part list out of range is undefined,
    [None] or [Stop UB]. *)
From S2P Require Import Prelude Parser BytesParsers Combinators CombinatorFacts Numbers Bits Reflect.

Definition seg_max_parts : Z := 64.

Record part := Part { p_data : Z; p_size : Z }.

(** [segments]: the parts, their total size, and the arena that attests them. *)
Record segments := Segments { sg_parts : list part; sg_total : Z; sg_arena : option Z; sg_gen : Z }.

Definition make_segments (parts : list part) (arena : option Z) (gen : Z) : segments :=
  Segments parts (u64 (foldr (fun p n => p_size p + n) 0 parts)) arena gen.

(** [byte_at]: 0 out of range. *)
Fixpoint byte_at (M : memory) (parts : list part) (i : Z) : option Z :=
  match parts with
  | [] => Some 0
  | p :: parts => if i <? p_size p then M (p_data p + i) else byte_at M parts (i - p_size p)
  end.

(** [seg_input]. *)
Record seg_input := SegInput {
  s_src : segments;
  s_seg_i : nat;
  s_cur : Z;
  s_end : Z;
  s_abs : Z;
  s_live : bool
}.

Definition seg_size (s : seg_input) : Z := u64 (sg_total (s_src s) - s_abs s).
Definition seg_empty (s : seg_input) : bool := s_cur s =? nullptr.
Definition seg_offset (s : seg_input) : Z := s_abs s.

(** The first part from index [i] on that is not empty; [rest] is the list from
    there on. *)
Fixpoint skip_empty (rest : list part) (i : nat) : option (nat * part) :=
  match rest with
  | [] => None
  | p :: rest => if p_size p =? 0 then skip_empty rest (S i) else Some (i, p)
  end.

(** [do { ++si; } while (src.part(si).empty());] then the part at [si]. *)
Definition next_part (src : segments) (si : nat) : option (nat * part) :=
  skip_empty (drop (S si) (sg_parts src)) (S si).

(** [enter]: at the start of part [i] or of the first later one that is not
    empty; a null cursor past the last. *)
Definition enter (s : seg_input) (i : nat) : seg_input :=
  match skip_empty (drop i (sg_parts (s_src s))) i with
  | Some (j, p) => SegInput (s_src s) j (p_data p) (p_data p + p_size p) (s_abs s) (s_live s)
  | None => SegInput (s_src s) (Nat.max i (length (sg_parts (s_src s)))) nullptr nullptr (s_abs s) (s_live s)
  end.

Definition seg_from (src : segments) : seg_input := enter (SegInput src 0 nullptr nullptr 0 false) 0.

Definition seg_streaming (s : seg_input) : seg_input :=
  SegInput (s_src s) (s_seg_i s) (s_cur s) (s_end s) (s_abs s) true.

(** [single_segment::view]. *)
Definition single_segment (b : bytes) : segments := make_segments [Part (b_data b) (b_size b)] (b_arena b) (b_gen b).

(** [contiguous]: what is left of the current part. *)
Definition contiguous (s : seg_input) : part :=
  if s_cur s =? nullptr then Part nullptr 0 else Part (s_cur s) (s_end s - s_cur s).

(** The loops below visit every part at most once. *)
Definition part_fuel (src : segments) : nat := S (length (sg_parts src)).

(** [operator[]]. *)
Fixpoint seg_at_loop (fuel : nat) (M : memory) (src : segments) (c e : Z) (si : nat) (i : Z) : option Z :=
  match fuel with
  | O => None
  | S fuel =>
      let here := e - c in
      if i <? here then M (c + i)
      else
        match next_part src si with
        | None => None
        | Some (sj, p) => seg_at_loop fuel M src (p_data p) (p_data p + p_size p) sj (i - here)
        end
  end.

Definition seg_at (M : memory) (s : seg_input) (i : Z) : option Z :=
  seg_at_loop (part_fuel (s_src s)) M (s_src s) (s_cur s) (s_end s) (s_seg_i s) i.

(** [safe_at]: [Some None] is [nullopt]. *)
Definition seg_safe_at (M : memory) (s : seg_input) (i : Z) : option (option Z) :=
  if seg_size s <=? i then Some None else b ← seg_at M s i; Some (Some b).

(** [advance]: [abs] is moved first, then the parts passed. *)
Fixpoint advance_loop (fuel : nat) (o : seg_input) (n : Z) : seg_input :=
  match fuel with
  | O => o
  | S fuel =>
      if s_cur o =? nullptr then
        SegInput (s_src o) (s_seg_i o) (s_cur o) (s_end o) (sg_total (s_src o)) (s_live o)
      else
        let here := s_end o - s_cur o in
        if n <? here then SegInput (s_src o) (s_seg_i o) (s_cur o + n) (s_end o) (s_abs o) (s_live o)
        else
          let o := enter o (S (s_seg_i o)) in
          if n - here =? 0 then o else advance_loop fuel o (n - here)
  end.

Definition seg_advance (s : seg_input) (n : Z) : seg_input :=
  advance_loop (S (part_fuel (s_src s)))
    (SegInput (s_src s) (s_seg_i s) (s_cur s) (s_end s) (u64 (s_abs s + n)) (s_live s)) n.

Definition seg_checked_advance (s : seg_input) (n : Z) : option seg_input :=
  if seg_size s <? n then None else Some (seg_advance s n).

(** The copy loop of [gather]: [need] bytes from [c] on, across the parts. *)
Fixpoint gather_loop (fuel : nat) (M : memory) (src : segments) (c e : Z) (si : nat) (need : Z) : option (list Z) :=
  if need =? 0 then Some []
  else
    match fuel with
    | O => None
    | S fuel =>
        let here := Z.min need (e - c) in
        bs ← copy_raw (Z.to_nat here) M c;
        if need - here =? 0 then Some bs
        else
          match next_part src si with
          | None => None
          | Some (sj, p) =>
              rest ← gather_loop fuel M src (p_data p) (p_data p + p_size p) sj (need - here);
              Some (bs ++ rest)
          end
    end.

(** [seg_window<N>]: a pointer into segment memory, or a copy. *)
Inductive seg_window :=
| External (p : Z)
| Gathered (buf : list Z).

(** [gather(w)]: [Some None] when fewer than [n] bytes remain. *)
Definition gather (M : memory) (s : seg_input) (n : Z) : option (option seg_window) :=
  if negb (s_cur s =? nullptr) && (n <=? s_end s - s_cur s) then Some (Some (External (s_cur s)))
  else if seg_size s <? n then Some None
  else buf ← gather_loop (part_fuel (s_src s)) M (s_src s) (s_cur s) (s_end s) (s_seg_i s) n; Some (Some (Gathered buf)).

(** [gather(dst)] into caller storage of [n] bytes. *)
Definition gather_into (M : memory) (s : seg_input) (n : Z) : option (option (list Z)) :=
  if seg_size s <? n then Some None
  else buf ← gather_loop (part_fuel (s_src s)) M (s_src s) (s_cur s) (s_end s) (s_seg_i s) n; Some (Some buf).

(** [w.data()], as the memory and the pointer to read through. *)
Definition window_data (M : memory) (w : seg_window) : memory * Z :=
  match w with External p => (M, p) | Gathered buf => (mem_of 0 buf, 0) end.

(** [subrange]: the next [n] bytes as a part list of at most [seg_max_parts];
    [Some None] is [nullopt]. *)
Fixpoint subrange_loop (fuel : nat) (src : segments) (c e : Z) (si : nat) (n count : Z) : option (option (list part)) :=
  if n =? 0 then Some (Some [])
  else
    match fuel with
    | O => None
    | S fuel =>
        if count =? seg_max_parts then Some None
        else
          let here := Z.min n (e - c) in
          if n - here =? 0 then Some (Some [Part c here])
          else
            match next_part src si with
            | None => None
            | Some (sj, p) =>
                r ← subrange_loop fuel src (p_data p) (p_data p + p_size p) sj (n - here) (count + 1);
                Some (ps ← r; Some (Part c here :: ps))
            end
    end.

Definition subrange (s : seg_input) (n : Z) : option (option segments) :=
  if seg_size s <? n then Some None
  else
    r ← subrange_loop (part_fuel (s_src s)) (s_src s) (s_cur s) (s_end s) (s_seg_i s) n 0;
    Some (ps ← r; Some (make_segments ps (sg_arena (s_src s)) (sg_gen (s_src s)))).

(** ** Parsers *)
Definition seg_result (A : Type) := outcome seg_input A.

Definition seg_make_err {A} (s : seg_input) (expected : string) : seg_result A :=
  Err (Error errk_err (u32 (seg_offset s)) expected 0 []).

Definition seg_make_incomplete {A} (s : seg_input) (needed : Z) : seg_result A :=
  Err (Error (if s_live s then errk_incomplete else errk_err) (u32 (u64 (seg_offset s + seg_size s))) "more input"
         (u32 (Z.min needed max_incomplete_needed)) []).

(** A gathered read and what is made of it. *)
Definition with_window {A} (M : memory) (s : seg_input) (n : Z) (k : memory -> Z -> option A) : seg_result A :=
  match gather M s n with
  | None => Stop UB
  | Some None => seg_make_incomplete s (n - seg_size s)
  | Some (Some w) =>
      let (M', p) := window_data M w in
      match k M' p with None => Stop UB | Some v => Done v (seg_advance s n) end
  end.

Definition strct_seg (fs : list (string * field_type)) (dflt : endian) (M : memory) (s : seg_input) : seg_result value :=
  with_window M s (wire_size fs) (fun M' p => struct_at fs M' p dflt).

Definition seg_uint (n : Z) (order : endian) (M : memory) (s : seg_input) : seg_result Z :=
  with_window M s n (fun M' p => load_uint order n M' p).

Definition seg_u8 := seg_uint 1 big.
Definition seg_be16 := seg_uint 2 big.
Definition seg_be32 := seg_uint 4 big.
Definition seg_be64 := seg_uint 8 big.
Definition seg_le16 := seg_uint 2 little.
Definition seg_le32 := seg_uint 4 little.
Definition seg_le64 := seg_uint 8 little.

Definition seg_skip (s : seg_input) (n : Z) : seg_result unit :=
  if seg_size s <? n then seg_make_incomplete s (n - seg_size s) else Done tt (seg_advance s n).

(** [seg_take] into caller storage of [n] bytes: the bytes it copied. *)
Definition seg_take (M : memory) (s : seg_input) (n : Z) : seg_result (list Z) :=
  match gather_into M s n with
  | None => Stop UB
  | Some None => seg_make_incomplete s (n - seg_size s)
  | Some (Some bs) => Done bs (seg_advance s n)
  end.

Definition overlay_seg (fs : list (string * field_type)) (dflt : endian) (s : seg_input) : seg_result view :=
  let need := wire_size fs in
  if seg_size s <? need then seg_make_incomplete s (need - seg_size s)
  else if p_size (contiguous s) <? need then
    seg_make_err s "contiguous view (struct straddles a segment boundary; use strct_seg)"
  else Done (View (p_data (contiguous s)) dflt (sg_arena (s_src s)) (sg_gen (s_src s))) (seg_advance s need).
