(* ===== verification/SegmentedSpecs.v ===== *)
(** * Segmented input: the theorems

    Parsing over parts is parsing the stitched buffer, result for result and
    error for error; and the parts of a reassembled datagram parse as the
    datagram. *)
From stdpp Require Import gmap.
From S2P Require Import Prelude Parser BytesParsers Combinators CombinatorFacts Numbers Bits Defrag DefragScan DefragTable DefragSpecs Reflect ReflectFacts EmitSpecs StructSpecs Segmented.

(** * Segmented input: what a cursor denotes

    A cursor over parts denotes the bytes that remain, whatever parts they lie
    in. The loops of the cursor compute on those bytes. *)

(** The bytes of a part: where it points, none of them at the null address. *)
Record part_bytes (M : memory) (p : part) (bs : list Z) : Prop := {
  pb_size : zlen bs = p_size p;
  pb_holds : holds M (p_data p) bs;
  pb_ok : bytes_ok bs;
  pb_data : 0 <= p_data p
}.

Lemma skip_empty_spec M rest bss : Forall2 (part_bytes M) rest bss -> forall i,
  match skip_empty rest i with
  | Some (j, p) => exists m bs, j = (i + m)%nat /\ rest !! m = Some p /\ part_bytes M p bs /\ bs <> [] /\
      bss !! m = Some bs /\ concat (firstn m bss) = [] /\ concat bss = bs ++ concat (drop (S m) bss)
  | None => concat bss = []
  end.
Proof.
  induction 1 as [|p bs rest bss Hp _ IH]; intros i; cbn [skip_empty]; [done|].
  pose proof Hp as [Hs _ _ _]. destruct (Z.eqb_spec (p_size p) 0) as [E|E].
  - assert (bs = []) as -> by (apply nil_length_inv; unfold zlen in Hs; lia). specialize (IH (S i)).
    destruct (skip_empty rest (S i)) as [[j q]|]; [|done]. destruct IH as (m & cs & -> & H1 & H2 & H3 & H4 & H5 & H6).
    exists (S m), cs. split_and!; try done; lia.
  - exists 0%nat, bs. split_and!; try done; try lia. intros ->. change (@zlen Z []) with 0 in Hs. lia.
Qed.

Section Cursor.
Context (M : memory) (src : segments) (bss : list (list Z)).
Context (Hparts : Forall2 (part_bytes M) (sg_parts src) bss).

(** The pointers [c], [e] of part [si] stand before the bytes [r]. *)
Definition stands (c e : Z) (si : nat) (r : list Z) : Prop :=
  exists bs, holds M c bs /\ zlen bs = e - c /\ bytes_ok bs /\ r = bs ++ concat (drop (S si) bss) /\
    (bs <> [] -> (si < length (sg_parts src))%nat).

Lemma bss_length : length (sg_parts src) = length bss.
Proof using Hparts. by apply Forall2_length in Hparts. Qed.

Lemma next_part_spec si :
  match next_part src si with
  | Some (sj, p) => (S si <= sj < length (sg_parts src))%nat /\ 0 <= p_data p /\ 0 < p_size p /\
      stands (p_data p) (p_data p + p_size p) sj (concat (drop (S si) bss))
  | None => concat (drop (S si) bss) = []
  end.
Proof using Hparts.
  unfold next_part. pose proof (skip_empty_spec M (drop (S si) (sg_parts src)) (drop (S si) bss)) as Hs.
  specialize (Hs (Forall2_drop _ _ _ _ Hparts) (S si)). destruct (skip_empty _ (S si)) as [[sj p]|]; [|done].
  destruct Hs as (m & bs & -> & H1 & [Z1 Hh Hok Hd] & Hne & H2 & _ & H3).
  rewrite lookup_drop in H1. pose proof (lookup_lt_Some _ _ _ H1).
  assert (0 < zlen bs) by (destruct bs; [done|]; rewrite zlen_cons; pose proof (zlen_nonneg bs); lia).
  split_and!; [lia|lia|done|lia|]. exists bs. split_and!; [done|lia|done| |intros; lia].
  rewrite H3. f_equal. rewrite drop_drop. do 2 f_equal. lia.
Qed.

(** Nothing is left past the last part. *)
Lemma stands_end c e si r : stands c e si r -> (length (sg_parts src) <= si)%nat -> r = [].
Proof using Hparts.
  intros (bs & _ & _ & _ & -> & Hne) Hle. destruct bs as [|b bs]; [|specialize (Hne ltac:(done)); lia].
  rewrite drop_ge by (rewrite <- bss_length; lia). done.
Qed.

Lemma seg_at_loop_spec fuel : forall c e si r i, stands c e si r -> 0 <= i < zlen r ->
  (length (sg_parts src) <= fuel + si)%nat -> seg_at_loop fuel M src c e si i = zget r i.
Proof using Hparts.
  induction fuel as [|fuel IH]; intros c e si r i Hst Hi Hf.
  { rewrite (stands_end c e si r Hst) in Hi by lia. change (@zlen Z []) with 0 in Hi. lia. }
  cbn [seg_at_loop]. pose proof (next_part_spec si) as Hn. pose proof Hst as (bs & Hh & Hz & Hok & -> & _). rewrite <- Hz.
  destruct (Z.ltb_spec i (zlen bs)) as [Hlt|Hge].
  { rewrite zget_app_l by done. destruct (proj2 (zget_is_Some bs i)) as [b Hb]; [lia|]. rewrite Hb.
    rewrite <- (ztake_zdrop i bs) in Hh. apply holds_app in Hh as [_ Hh]. rewrite zlen_ztake, Z.min_l in Hh by lia.
    unfold zget in Hb. destruct (Z.ltb_spec i 0); [lia|]. unfold zdrop in Hh. rewrite (drop_S bs b) in Hh by done. by destruct Hh. }
  rewrite zget_app_r by done. rewrite zlen_app in Hi. destruct (next_part src si) as [[sj p]|].
  - destruct Hn as (Hj & _ & _ & Hst'). apply IH; [done|lia|lia].
  - rewrite Hn in Hi. change (@zlen Z []) with 0 in Hi. lia.
Qed.

Lemma copy_bytes n c bs : holds M c bs -> 0 <= n <= zlen bs -> copy_raw (Z.to_nat n) M c = Some (ztake n bs).
Proof using.
  intros Hh Hn. rewrite <- (ztake_zdrop n bs) in Hh. apply holds_app in Hh as [Hh _].
  replace (Z.to_nat n) with (length (ztake n bs)); [by apply copy_raw_spec|].
  pose proof (zlen_ztake n bs ltac:(lia)) as Hl. unfold zlen in *. lia.
Qed.

Lemma gather_loop_spec fuel : forall c e si r n, stands c e si r -> 0 <= n <= zlen r ->
  (length (sg_parts src) <= fuel + si)%nat -> gather_loop fuel M src c e si n = Some (ztake n r).
Proof using Hparts.
  induction fuel as [|fuel IH]; intros c e si r n Hst Hn Hf; cbn [gather_loop]; destruct (Z.eqb_spec n 0) as [->|Hne];
    [by rewrite ztake_0| |by rewrite ztake_0|].
  { rewrite (stands_end c e si r Hst) in Hn by lia. change (@zlen Z []) with 0 in Hn. lia. }
  pose proof (next_part_spec si) as Hnx. pose proof Hst as (bs & Hh & Hz & Hok & -> & _). rewrite <- Hz.
  pose proof (zlen_nonneg bs). rewrite (copy_bytes _ c bs) by (done || lia). cbn [mbind option_bind].
  destruct (Z.eqb_spec (n - Z.min n (zlen bs)) 0) as [E|E].
  { rewrite Z.min_l, ztake_app_l by lia. done. }
  assert (zlen bs < n) by lia. rewrite Z.min_r in E |- * by lia. rewrite zlen_app in Hn. destruct (next_part src si) as [[sj p]|].
  - destruct Hnx as (Hj & _ & _ & Hst'). rewrite (IH _ _ _ _ _ Hst') by lia. cbn. rewrite (ztake_all (zlen bs) bs) by lia.
    by rewrite ztake_app_r by lia.
  - rewrite Hnx in Hn. change (@zlen Z []) with 0 in Hn. lia.
Qed.

(** The parts [subrange] cuts out: the next [n] bytes; it gives up only where
    there are too many parts. *)
Lemma subrange_loop_spec fuel : forall c e si r n count, stands c e si r -> 0 <= c -> 0 <= n <= zlen r -> 0 <= count <= seg_max_parts ->
  (length (sg_parts src) <= fuel + si)%nat ->
  exists res, subrange_loop fuel src c e si n count = Some res /\
    match res with
    | Some ps => exists cs, Forall2 (part_bytes M) ps cs /\ concat cs = ztake n r /\ (n = 0 \/ count + zlen ps <= seg_max_parts)
    | None => seg_max_parts <= count + (zlen (sg_parts src) - Z.of_nat si) - 1
    end.
Proof using Hparts.
  induction fuel as [|fuel IH]; intros c e si r n count Hst Hc0 Hn Hct Hf; cbn [subrange_loop]; destruct (Z.eqb_spec n 0) as [->|Hne].
  1, 3: exists (Some []); split; [done|]; exists []; rewrite ztake_0; split_and!; [constructor|done|by left].
  { rewrite (stands_end c e si r Hst) in Hn by lia. change (@zlen Z []) with 0 in Hn. lia. }
  assert (Hsi : (si < length (sg_parts src))%nat).
  { destruct (decide (si < length (sg_parts src))%nat); [done|]. rewrite (stands_end c e si r Hst) in Hn by lia.
    change (@zlen Z []) with 0 in Hn. lia. }
  destruct (Z.eqb_spec count seg_max_parts) as [->|Hcap].
  { exists None. split; [done|]. unfold zlen. lia. }
  pose proof (next_part_spec si) as Hnx. pose proof Hst as (bs & Hh & Hz & Hok & -> & _). rewrite <- Hz. pose proof (zlen_nonneg bs).
  assert (Hpart : forall m, 0 <= m <= zlen bs -> part_bytes M (Part c m) (ztake m bs)).
  { intros m Hm. split; cbn; [rewrite zlen_ztake by lia; lia| |by apply bytes_ok_ztake|done].
    rewrite <- (ztake_zdrop m bs) in Hh. by apply holds_app in Hh as [Hh _]. }
  destruct (Z.eqb_spec (n - Z.min n (zlen bs)) 0) as [E|E].
  { exists (Some [Part c (Z.min n (zlen bs))]). split; [done|]. rewrite Z.min_l by lia. exists [ztake n bs].
    split_and!; [constructor; [apply Hpart; lia|constructor]|cbn; by rewrite app_nil_r, ztake_app_l by lia|].
    right. change (zlen [Part c n]) with 1. lia. }
  assert (zlen bs < n) by lia. rewrite Z.min_r in E |- * by lia. rewrite zlen_app in Hn. destruct (next_part src si) as [[sj p]|].
  2: { rewrite Hnx in Hn. change (@zlen Z []) with 0 in Hn. lia. }
  destruct Hnx as (Hj & Hp0 & _ & Hst').
  destruct (IH _ _ _ _ (n - zlen bs) (count + 1) Hst' Hp0 ltac:(lia) ltac:(lia) ltac:(lia)) as (res & -> & Hres).
  cbn [mbind option_bind]. destruct res as [ps|]; cbn [mbind option_bind]; eexists; (split; [done|]); [|unfold zlen in *; lia].
  destruct Hres as (cs & Hcs & Hcc & Hcap'). exists (bs :: cs). split_and!.
  - constructor; [|done]. rewrite <- (ztake_all (zlen bs) bs) at 2 by lia. apply Hpart. lia.
  - cbn. by rewrite Hcc, ztake_app_r by lia.
  - right. rewrite zlen_cons. lia.
Qed.
End Cursor.

(** ** Well-formed cursors *)

(** [s] is a cursor over the bytes [concat bss], [s_abs] of them passed. *)
Record seg_wf (M : memory) (bss : list (list Z)) (s : seg_input) : Prop := {
  sw_parts : Forall2 (part_bytes M) (sg_parts (s_src s)) bss;
  sw_total : sg_total (s_src s) = zlen (concat bss);
  sw_extent : zlen (concat bss) < 2 ^ 60;
  sw_abs : 0 <= s_abs s <= zlen (concat bss);
  sw_stands : stands M (s_src s) bss (s_cur s) (s_end s) (s_seg_i s) (zdrop (s_abs s) (concat bss));
  sw_cur : (s_cur s = nullptr /\ s_end s = nullptr /\ zdrop (s_abs s) (concat bss) = []) \/ 0 <= s_cur s < s_end s
}.

Definition remaining (bss : list (list Z)) (s : seg_input) : list Z := zdrop (s_abs s) (concat bss).

Lemma seg_size_spec M bss s : seg_wf M bss s -> seg_size s = zlen (remaining bss s).
Proof.
  intros [_ Ht He Ha _ _]. unfold seg_size, remaining. rewrite Ht, zlen_zdrop, wrap_small by lia. lia.
Qed.

Lemma remaining_ok M bss s : seg_wf M bss s -> bytes_ok (remaining bss s).
Proof.
  intros [Hp _ _ _ _ _]. apply bytes_ok_zdrop. induction Hp as [|p bs ps bss Hb _ IH]; cbn; [constructor|].
  apply Forall_app. split; [apply Hb|done].
Qed.

Lemma enter_spec M bss o i : Forall2 (part_bytes M) (sg_parts (s_src o)) bss ->
  let o' := enter o i in
  s_src o' = s_src o /\ s_abs o' = s_abs o /\ s_live o' = s_live o /\ (i <= s_seg_i o')%nat /\
  stands M (s_src o) bss (s_cur o') (s_end o') (s_seg_i o') (concat (drop i bss)) /\
  ((s_cur o' = nullptr /\ s_end o' = nullptr /\ concat (drop i bss) = []) \/ 0 <= s_cur o' < s_end o').
Proof.
  intros Hp. unfold enter. pose proof (skip_empty_spec M (drop i (sg_parts (s_src o))) (drop i bss) (Forall2_drop _ _ _ i Hp) i) as Hs.
  destruct (skip_empty _ i) as [[j p]|]; cbn.
  - destruct Hs as (m & bs & -> & H1 & [Z1 Hh Hok Hd] & Hne & H2 & _ & H3). rewrite lookup_drop in H1. pose proof (lookup_lt_Some _ _ _ H1).
    assert (0 < zlen bs) by (destruct bs; [done|]; rewrite zlen_cons; pose proof (zlen_nonneg bs); lia).
    split_and!; try done; [lia| |right; lia]. exists bs. split_and!; [done|lia|done| |intros; lia].
    rewrite H3. f_equal. rewrite drop_drop. do 2 f_equal. lia.
  - split_and!; try done; [lia| |by left]. exists []. split_and!; [done|done|constructor| |done]. rewrite Hs.
    rewrite drop_ge; [done|]. apply Forall2_length in Hp. lia.
Qed.

Lemma seg_from_wf M parts bss arena gen : Forall2 (part_bytes M) parts bss -> zlen (concat bss) < 2 ^ 60 ->
  seg_wf M bss (seg_from (make_segments parts arena gen)) /\ remaining bss (seg_from (make_segments parts arena gen)) = concat bss.
Proof.
  intros Hp He. unfold seg_from. set (o := SegInput _ _ _ _ _ _).
  destruct (enter_spec M bss o 0 Hp) as (E1 & E2 & E3 & _ & Hst & Hc). cbn [s_src s_abs o] in *. rewrite drop_0 in Hst, Hc.
  assert (Ht : sg_total (s_src o) = zlen (concat bss)).
  { unfold o, make_segments. cbn [s_src sg_total]. assert (Hsum : foldr (fun p n => p_size p + n) 0 parts = zlen (concat bss)).
    { clear -Hp. induction Hp as [|p bs ps bss Hb _ IH]; cbn; [done|]. rewrite zlen_app, IH. destruct Hb. lia. }
    rewrite Hsum. pose proof (zlen_nonneg (concat bss)). apply wrap_small. lia. }
  assert (Ha : s_abs (enter o 0) = 0) by (by rewrite E2). pose proof (zlen_nonneg (concat bss)).
  split; [|unfold remaining; by rewrite Ha, zdrop_0].
  split; rewrite ?E1, ?Ha, ?zdrop_0; try done; lia.
Qed.

Section Advance.
Context (M : memory) (bss : list (list Z)).

Lemma advance_loop_spec fuel : forall o r n, Forall2 (part_bytes M) (sg_parts (s_src o)) bss ->
  sg_total (s_src o) = zlen (concat bss) ->
  stands M (s_src o) bss (s_cur o) (s_end o) (s_seg_i o) r ->
  ((s_cur o = nullptr /\ s_end o = nullptr /\ r = []) \/ 0 <= s_cur o < s_end o) ->
  0 <= n <= zlen r -> (r = [] -> s_abs o = zlen (concat bss)) -> (length bss < fuel + s_seg_i o)%nat \/ (r = [] /\ (0 < fuel)%nat) ->
  let o' := advance_loop fuel o n in
  s_src o' = s_src o /\ s_abs o' = s_abs o /\ s_live o' = s_live o /\
  stands M (s_src o) bss (s_cur o') (s_end o') (s_seg_i o') (zdrop n r) /\
  ((s_cur o' = nullptr /\ s_end o' = nullptr /\ zdrop n r = []) \/ 0 <= s_cur o' < s_end o').
Proof using.
  induction fuel as [|fuel IH]; intros o r n Hp Ht Hst Hc Hn Habs Hf.
  { destruct Hf as [Hf|[_ Hf]]; [|lia]. pose proof (Forall2_length _ _ _ Hp).
    assert (r = []) as -> by (apply (stands_end M (s_src o) bss Hp _ _ _ _ Hst); lia).
    change (@zlen Z []) with 0 in Hn. cbn. unfold zdrop. rewrite drop_nil. done. }
  cbn [advance_loop]. destruct (Z.eqb_spec (s_cur o) nullptr) as [E|E].
  { destruct Hc as [(_ & He & ->)|Hc]; [|rewrite E in Hc; unfold nullptr in Hc; lia]. cbn. unfold zdrop. rewrite drop_nil.
    split_and!; try done; [rewrite Habs; done|by left]. }
  destruct Hc as [(? & _)|Hc]; [done|]. pose proof Hst as (bs & Hh & Hz & Hok & -> & Hsi).
  assert (Hsi' : (s_seg_i o < length (sg_parts (s_src o)))%nat).
  { apply Hsi. intros ->. change (@zlen Z []) with 0 in Hz. lia. }
  destruct (Z.ltb_spec n (s_end o - s_cur o)) as [Hlt|Hge].
  { cbn. split_and!; try done; [|right; lia]. exists (zdrop n bs). rewrite <- (ztake_zdrop n bs) in Hh. apply holds_app in Hh as [_ Hh].
    rewrite zlen_ztake, Z.min_l in Hh by lia. split_and!; [done|rewrite zlen_zdrop by lia; lia|by apply bytes_ok_zdrop|by rewrite zdrop_app_l by lia|done]. }
  destruct (enter_spec M bss o (S (s_seg_i o)) Hp) as (E1 & E2 & E3 & Hle & Hst' & Hc').
  set (o1 := enter o (S (s_seg_i o))) in *. rewrite zdrop_app_r by lia. rewrite zlen_app in Hn.
  replace (n - zlen bs) with (n - (s_end o - s_cur o)) by lia.
  destruct (Z.eqb_spec (n - (s_end o - s_cur o)) 0) as [E0|E0].
  { rewrite E0, zdrop_0. split_and!; done. }
  pose proof (Forall2_length _ _ _ Hp) as Hlen.
  destruct (IH o1 (concat (drop (S (s_seg_i o)) bss)) (n - (s_end o - s_cur o))) as (F1 & F2 & F3 & F4 & F5);
    rewrite ?E1; try done.
  - lia.
  - intros Hr. rewrite Hr in Hn. change (@zlen Z []) with 0 in Hn. lia.
  - left. destruct Hf as [Hf|[Hr _]]; [lia|]. apply app_nil in Hr as [-> _]. change (@zlen Z []) with 0 in Hz. lia.
  - rewrite F1, F2, F3, E1, E2, E3. rewrite E1 in F4. done.
Qed.

Lemma seg_advance_wf s n : seg_wf M bss s -> 0 <= n <= seg_size s ->
  seg_wf M bss (seg_advance s n) /\ s_abs (seg_advance s n) = s_abs s + n /\ s_src (seg_advance s n) = s_src s /\
  s_live (seg_advance s n) = s_live s /\ remaining bss (seg_advance s n) = zdrop n (remaining bss s).
Proof using.
  intros Hwf. rewrite (seg_size_spec M bss s Hwf). intros Hn. destruct Hwf as [Hp Ht He Ha Hst Hc]. unfold seg_advance.
  set (o := SegInput _ _ _ _ _ _). unfold remaining in *. rewrite zlen_zdrop in Hn by lia.
  assert (Hao : s_abs o = s_abs s + n) by (unfold o; cbn; rewrite wrap_small; lia).
  destruct (advance_loop_spec (S (part_fuel (s_src s))) o (zdrop (s_abs s) (concat bss)) n) as (F1 & F2 & F3 & F4 & F5);
    try done.
  - rewrite zlen_zdrop by lia. lia.
  - intros Hr. apply (f_equal zlen) in Hr. rewrite zlen_zdrop in Hr by lia. change (@zlen Z []) with 0 in Hr. lia.
  - left. unfold part_fuel. apply Forall2_length in Hp. cbn. lia.
  - rewrite F2, Hao. rewrite zdrop_zdrop in F4, F5 |- * by lia. split_and!; try done. split; rewrite ?F1, ?F2, ?Hao; try done. lia.
Qed.
End Advance.

Section Window.
Context (M : memory) (bss : list (list Z)) (s : seg_input) (Hwf : seg_wf M bss s).

Lemma stands_prefix n : 0 <= n <= s_end s - s_cur s -> holds M (s_cur s) (ztake n (remaining bss s)).
Proof using Hwf.
  intros Hn. destruct Hwf as [_ _ _ _ (bs & Hh & Hz & _ & Hr & _) _]. unfold remaining. rewrite Hr, ztake_app_l by lia.
  rewrite <- (ztake_zdrop n bs) in Hh. by apply holds_app in Hh as [Hh _].
Qed.

Lemma contiguous_size : p_size (contiguous s) = s_end s - s_cur s /\ s_end s - s_cur s <= seg_size s /\
  (0 < p_size (contiguous s) -> p_data (contiguous s) = s_cur s).
Proof using Hwf.
  rewrite (seg_size_spec M bss s Hwf). destruct Hwf as [_ _ _ _ (bs & _ & Hz & _ & Hr & _) Hc]. unfold contiguous, remaining.
  rewrite Hr, zlen_app. pose proof (zlen_nonneg (concat (drop (S (s_seg_i s)) bss))).
  destruct (Z.eqb_spec (s_cur s) nullptr) as [E|E]; cbn; [|split_and!; [lia|lia|done]].
  destruct Hc as [(_ & E2 & _)|Hc]; [rewrite E, E2 in *; split_and!; [lia|lia|intros; lia]|]. rewrite E in Hc. unfold nullptr in Hc. lia.
Qed.

Lemma gather_spec n : 0 <= n ->
  match gather M s n with
  | Some (Some w) => n <= seg_size s /\ holds (window_data M w).1 (window_data M w).2 (ztake n (remaining bss s))
  | Some None => seg_size s < n
  | None => False
  end.
Proof using Hwf.
  intros Hn. pose proof contiguous_size as (_ & Hcs & _). pose proof (seg_size_spec M bss s Hwf) as Hsz. unfold gather.
  destruct (negb (s_cur s =? nullptr) && (n <=? s_end s - s_cur s)) eqn:Ef.
  { apply andb_true_iff in Ef as [_ Ef%Z.leb_le]. split; [lia|]. cbn. apply stands_prefix. lia. }
  destruct (Z.ltb_spec (seg_size s) n); [done|]. pose proof Hwf as [Hp _ _ _ Hst _].
  rewrite (gather_loop_spec M (s_src s) bss Hp _ _ _ _ _ n Hst); [|fold (remaining bss s); lia|unfold part_fuel; lia].
  split; [lia|]. cbn. fold (remaining bss s). pose proof (holds_mem_of 0 (ztake n (remaining bss s)) []) as Hm. by rewrite app_nil_r in Hm.
Qed.

(** A parser that reads a window. *)
Lemma with_window_spec {A} n (k : memory -> Z -> option A) v : 0 <= n ->
  (forall M' p, holds M' p (ztake n (remaining bss s)) -> k M' p = Some v) ->
  with_window M s n k = if seg_size s <? n then seg_make_incomplete s (n - seg_size s) else Done v (seg_advance s n).
Proof using Hwf.
  intros Hn Hk. pose proof (gather_spec n Hn) as Hg. unfold with_window. destruct (gather M s n) as [[w|]|]; [| |done].
  - destruct Hg as [Hle Hh]. destruct (Z.ltb_spec (seg_size s) n); [lia|]. destruct (window_data M w) as [M' p]. by rewrite (Hk M' p Hh).
  - by destruct (Z.ltb_spec (seg_size s) n); [|lia].
Qed.
End Window.

(** ** The stitched buffer *)

(** The contiguous cursor at the same place of the stitched bytes [d]. *)
Definition stitched (d : list Z) (s : seg_input) : input :=
  Input (s_abs s) (zlen d) 0 (s_live s) None 0.

(** A segmented result and a contiguous one say the same. *)
Definition same_result {A} (M : memory) (bss : list (list Z)) (o : seg_result A) (o' : result A) : Prop :=
  match o, o' with
  | Done v s, Done v' i => v = v' /\ seg_wf M bss s /\ i = stitched (concat bss) s
  | Err e, Err e' => e = e'
  | _, _ => False
  end.

Section Stitched.
Context (M : memory) (bss : list (list Z)) (s : seg_input) (Hwf : seg_wf M bss s).

Lemma stitched_size : size (stitched (concat bss) s) = seg_size s.
Proof using Hwf. destruct Hwf as [_ Ht _ _ _ _]. unfold size, seg_size. cbn. by rewrite Ht. Qed.

Lemma stitched_holds n : 0 <= n <= seg_size s ->
  holds (mem_of 0 (concat bss)) (i_first (stitched (concat bss) s)) (ztake n (remaining bss s)).
Proof using Hwf.
  rewrite (seg_size_spec M bss s Hwf). intros Hn. destruct Hwf as [_ _ _ Ha _ _]. cbn. apply (holds_zdrop _ _ _ (zdrop n (remaining bss s))); [lia|].
  by rewrite ztake_zdrop.
Qed.

Lemma stitched_incomplete {A} n : same_result M bss (@seg_make_incomplete A s n) (make_incomplete (stitched (concat bss) s) n).
Proof using Hwf.
  unfold same_result, seg_make_incomplete, make_incomplete. rewrite stitched_size. unfold offset, stitched, seg_offset. cbn.
  destruct Hwf as [_ _ He Ha _ _]. rewrite Z.sub_0_r, (wrap_small 64 (s_abs s)) by lia. done.
Qed.

Lemma stitched_advance n : 0 <= n <= seg_size s ->
  advance (stitched (concat bss) s) n = stitched (concat bss) (seg_advance s n).
Proof using Hwf.
  intros Hn. destruct (seg_advance_wf M bss s n Hwf Hn) as (_ & Ea & _ & El & _). unfold stitched, advance. cbn [i_first i_last i_base i_live i_arena i_gen]. by rewrite Ea, El.
Qed.

Lemma same_done {A} (v : A) n : 0 <= n <= seg_size s ->
  same_result M bss (Done v (seg_advance s n)) (Done v (advance (stitched (concat bss) s) n)).
Proof using Hwf.
  intros Hn. split; [done|]. split; [by apply seg_advance_wf|]. by apply stitched_advance.
Qed.
End Stitched.

(** A struct that straddles parts parses as it does on the stitched buffer. *)
Lemma strct_seg_spec M bss s fs dflt : seg_wf M bss s -> described fs = true ->
  same_result M bss (strct_seg fs dflt M s) (strct fs dflt (mem_of 0 (concat bss)) (stitched (concat bss) s)).
Proof.
  intros Hwf Hfs. destruct (described_inv fs Hfs) as (_ & _ & _ & Hs & _). set (i := stitched (concat bss) s).
  pose proof (stitched_size M bss s Hwf) as Hsz. pose proof (remaining_ok M bss s Hwf) as Hok.
  pose proof (seg_size_spec M bss s Hwf) as Hrem.
  unfold strct_seg, strct. fold i in Hsz. rewrite Hsz.
  destruct (Z.ltb_spec (seg_size s) (wire_size fs)) as [Hlt|Hge].
  + unfold with_window. pose proof (gather_spec M bss s Hwf (wire_size fs) Hs) as Hg.
    destruct (gather M s (wire_size fs)) as [[w|]|]; [destruct Hg; lia| |done]. rewrite <- Hsz. apply stitched_incomplete; done.
  + assert (Hz : zlen (ztake (wire_size fs) (remaining bss s)) = wire_size fs) by (rewrite zlen_ztake by lia; lia).
    pose proof (bytes_ok_ztake (wire_size fs) _ Hok) as Hb.
    rewrite (with_window_spec M bss s Hwf (wire_size fs) _ (VList (values_at dflt (ztake (wire_size fs) (remaining bss s)) fs 0)) Hs)
      by (intros; apply struct_at_spec; done || lia).
    destruct (Z.ltb_spec (seg_size s) (wire_size fs)); [lia|].
    rewrite (struct_at_spec fs dflt Hfs (mem_of 0 (concat bss)) (i_first i) (ztake (wire_size fs) (remaining bss s))) by
      ((apply (stitched_holds M bss s Hwf); lia) || done || lia).
    apply same_done; done || lia.
Qed.

(** C16: the segmented parsers agree with the contiguous ones on the stitched
    buffer: [strct_seg], the scalar readers and [seg_skip] return the same
    value, leave a cursor at the same place, or fail with the same error,
    wherever the part boundaries fall; none of them reads outside the parts. *)
Theorem segmented_parsing M bss s fs dflt n order k : seg_wf M bss s -> described fs = true ->
  n ∈ [1; 2; 4; 8] -> 0 <= k ->
  let D := mem_of 0 (concat bss) in
  let i := stitched (concat bss) s in
  same_result M bss (strct_seg fs dflt M s) (strct fs dflt D i) /\
  same_result M bss (seg_uint n order M s) (read_uint n order D i) /\
  same_result M bss (seg_skip s k) (if size i <? k then make_incomplete i (k - size i) else Done tt (advance i k)).
Proof.
  intros Hwf Hfs Hn Hk D i. destruct (described_inv fs Hfs) as (_ & _ & _ & Hs & _).
  pose proof (stitched_size M bss s Hwf) as Hsz. pose proof (remaining_ok M bss s Hwf) as Hok.
  pose proof (seg_size_spec M bss s Hwf) as Hrem.
  assert (Hn8 : size_ok n = true) by (rewrite !elem_of_cons, elem_of_nil in Hn; destruct Hn as [->|[->|[->|[->|[]]]]]; done).
  destruct (size_ok_range n Hn8) as [Hnr _]. split_and!.
  - by apply strct_seg_spec.
  - unfold seg_uint. destruct (Z.lt_ge_cases (seg_size s) n) as [Hlt|Hge].
    + unfold with_window, read_uint. pose proof (gather_spec M bss s Hwf n ltac:(lia)) as Hg.
      destruct (gather M s n) as [[w|]|]; [destruct Hg; lia| |done]. fold i in Hsz. rewrite Hsz.
      destruct (Z.ltb_spec (seg_size s) n); [|lia]. apply stitched_incomplete; done.
    + assert (Hz : zlen (ztake n (remaining bss s)) = n) by (rewrite zlen_ztake by lia; lia).
      pose proof (bytes_ok_ztake n _ Hok) as Hb.
      rewrite (with_window_spec M bss s Hwf n _ (uint_val order (ztake n (remaining bss s))) ltac:(lia)).
      2: { intros M' p Hh. pose proof (load_uint_spec M' p _ Hb Hh order n 0 Hn8 ltac:(lia) ltac:(lia)) as E.
           rewrite Z.add_0_r in E. rewrite E. unfold slice. rewrite zdrop_0, ztake_all by lia. done. }
      destruct (Z.ltb_spec (seg_size s) n); [lia|].
      rewrite (read_uint_holds D i n order (ztake n (remaining bss s))) by
        ((apply (stitched_holds M bss s Hwf); lia) || (unfold i; rewrite Hsz; lia) || done).
      apply same_done; done || lia.
  - unfold seg_skip. fold i in Hsz. rewrite Hsz. destruct (Z.ltb_spec (seg_size s) k); [by apply stitched_incomplete|].
    apply same_done; done || lia.
Qed.

Lemma subrange_spec M bss s n : seg_wf M bss s -> 0 <= n <= seg_size s ->
  exists res, subrange s n = Some res /\
    match res with
    | Some sub => exists cs, Forall2 (part_bytes M) (sg_parts sub) cs /\ concat cs = ztake n (remaining bss s) /\
        zlen (sg_parts sub) <= seg_max_parts /\ sub = make_segments (sg_parts sub) (sg_arena (s_src s)) (sg_gen (s_src s))
    | None => seg_max_parts < zlen (sg_parts (s_src s))
    end.
Proof.
  intros Hwf Hn. pose proof (seg_size_spec M bss s Hwf) as Hsz. unfold subrange. destruct (Z.ltb_spec (seg_size s) n); [lia|].
  destruct (decide (n = 0)) as [->|Hne].
  { cbn. eexists. split; [done|]. exists []. rewrite ztake_0. split_and!; done. }
  pose proof Hwf as [Hp _ _ _ Hst Hc]. assert (Hc0 : 0 <= s_cur s).
  { destruct Hc as [(_ & _ & Hr)|Hc]; [|lia]. unfold remaining in Hsz. rewrite Hr in Hsz. change (@zlen Z []) with 0 in Hsz. lia. }
  fold (remaining bss s) in Hst.
  destruct (subrange_loop_spec M (s_src s) bss Hp (part_fuel (s_src s)) _ _ _ _ n 0 Hst Hc0) as (res & -> & Hres);
    [lia|unfold seg_max_parts; lia|unfold part_fuel; lia|].
  cbn [mbind option_bind]. destruct res as [ps|]; cbn [mbind option_bind]; eexists; (split; [done|]).
  - destruct Hres as (cs & Hcs & Hcc & Hcap). exists cs. destruct Hcap as [|Hcap]; [done|]. split_and!; try done; cbn; lia.
  - cbv beta iota in Hres |- *. lia.
Qed.

(** The segmented cursor is a cursor over the bytes that remain: indexed
    reads, advancing, gathering into a buffer, narrowing to a subrange and
    zero-copy overlays see those bytes and no others, with every bound
    checked; a subrange fails only over more than [seg_max_parts] parts, and
    an overlay that straddles a boundary is refused, never pointed elsewhere. *)
Theorem segmented_cursor M bss s n fs dflt : seg_wf M bss s -> 0 <= n -> described fs = true ->
  let r := remaining bss s in
  seg_safe_at M s n = Some (zget r n) /\
  gather_into M s n = Some (if zlen r <? n then None else Some (ztake n r)) /\
  match seg_checked_advance s n with
  | None => zlen r < n
  | Some s' => n <= zlen r /\ seg_wf M bss s' /\ remaining bss s' = zdrop n r
  end /\
  match subrange s n with
  | Some (Some sub) => exists cs, n <= zlen r /\ seg_wf M cs (seg_from sub) /\ remaining cs (seg_from sub) = ztake n r
  | Some None => zlen r < n \/ seg_max_parts < zlen (sg_parts (s_src s))
  | None => False
  end /\
  match overlay_seg fs dflt s with
  | Done v s' => wire_size fs <= zlen r /\ holds M (v_p v) (ztake (wire_size fs) r) /\ seg_wf M bss s' /\
      remaining bss s' = zdrop (wire_size fs) r
  | Err e => zlen r < wire_size fs \/ p_size (contiguous s) < wire_size fs
  | Stop _ => False
  end.
Proof.
  intros Hwf Hn Hfs r. destruct (described_inv fs Hfs) as (_ & _ & _ & Hs & _).
  pose proof (seg_size_spec M bss s Hwf) as Hsz. fold r in Hsz. pose proof Hwf as [Hp _ He Ha Hst _]. split_and!.
  - unfold seg_safe_at. rewrite Hsz. destruct (Z.leb_spec (zlen r) n) as [Hle|Hlt].
    + f_equal. symmetry. destruct (zget r n) eqn:E; [|done]. apply zget_Some_range in E. lia.
    + unfold seg_at. rewrite (seg_at_loop_spec M (s_src s) bss Hp _ _ _ _ _ n Hst); [|fold (remaining bss s); fold r; lia|unfold part_fuel; lia].
      fold (remaining bss s). fold r. by destruct (proj2 (zget_is_Some r n)) as [b ->]; [lia|].
  - unfold gather_into. rewrite Hsz. destruct (Z.ltb_spec (zlen r) n); [done|].
    rewrite (gather_loop_spec M (s_src s) bss Hp _ _ _ _ _ n Hst); [done|fold (remaining bss s); fold r; lia|unfold part_fuel; lia].
  - unfold seg_checked_advance. rewrite Hsz. destruct (Z.ltb_spec (zlen r) n); [done|].
    destruct (seg_advance_wf M bss s n Hwf) as (? & _ & _ & _ & ?); [lia|]. done.
  - destruct (Z.lt_ge_cases (zlen r) n) as [Hlt|Hge].
    + unfold subrange. rewrite Hsz. destruct (Z.ltb_spec (zlen r) n); [by left|lia].
    + destruct (subrange_spec M bss s n Hwf) as (res & -> & Hres); [lia|]. destruct res as [sub|]; [|by right].
      destruct Hres as (cs & Hcs & Hcc & _ & ->). exists cs. split; [done|].
      destruct (seg_from_wf M (sg_parts sub) cs (sg_arena (s_src s)) (sg_gen (s_src s)) Hcs) as [H1 H2].
      { rewrite Hcc, zlen_ztake by lia. unfold r, remaining in *. rewrite zlen_zdrop in * by lia. lia. }
      split; [exact H1|]. rewrite H2. exact Hcc.
  - unfold overlay_seg. rewrite Hsz. destruct (Z.ltb_spec (zlen r) (wire_size fs)); [by left|].
    pose proof (contiguous_size M bss s Hwf) as (C1 & C2 & C3). destruct (Z.ltb_spec (p_size (contiguous s)) (wire_size fs)); [by right|].
    destruct (seg_advance_wf M bss s (wire_size fs) Hwf) as (? & _ & _ & _ & ?); [lia|]. split; [done|]. split; [|done]. cbn.
    destruct (decide (wire_size fs = 0)) as [->|Hne]; [by rewrite ztake_0|]. rewrite C3 by lia.
    apply (stands_prefix M bss s Hwf). lia.
Qed.

Lemma stitched_from src d : stitched d (seg_from src) = Input 0 (zlen d) 0 false None 0.
Proof. unfold seg_from, enter. by destruct (skip_empty _ _) as [[??]|]. Qed.

(** Fragments to fields: a datagram cut into fragments that arrive in any
    order completes with parts over which [strct_seg] parses any described
    struct exactly as [strct] does over the datagram itself. *)
Theorem reassembled_parse {K} `{Countable K} cfg sort `{!SortsFragments sort} (s : ReassemblyTable K) n k pieces arrival M fs dflt :
  0 <= max_datagram_bytes cfg < 2 ^ 32 ->
  reachable cfg sort s n -> n + zlen arrival < 2 ^ 32 - 2 ->
  key_to_id_ s !! k = None -> Z.of_nat (base.size (by_id_ s)) < max_concurrent cfg ->
  pieces <> [] -> Forall (fun p => p <> []) (pieces.*1.*1) -> zlen (payload pieces) <= max_datagram_bytes cfg ->
  arrival ≡ₚ fragmentize 0 pieces -> described fs = true ->
  exists s' os o, feed cfg sort s k arrival = Some (s', os ++ [o]) /\ o_completed o = true /\
    forall parts, Forall2 (part_bytes M) parts (o_parts o) ->
      let d := payload pieces in
      same_result M (o_parts o) (strct_seg fs dflt M (seg_from (make_segments parts None 0)))
        (strct fs dflt (mem_of 0 d) (Input 0 (zlen d) 0 false None 0)).
Proof.
  intros Hmax Hr Hn Hk Hroom Hne Hnes Hfit Hp Hfs.
  destruct (feed_arrival cfg sort Hmax s n k pieces arrival Hr Hn Hk Hroom Hne Hnes Hfit Hp) as (s' & os & o & E & _ & Hc & Hd).
  exists s', os, o. split; [done|]. split; [done|]. intros parts Hparts d.
  destruct (seg_from_wf M parts (o_parts o) None 0 Hparts) as [Hwf _]; [rewrite Hd; lia|].
  pose proof (strct_seg_spec M (o_parts o) _ fs dflt Hwf Hfs) as Hspec. rewrite Hd in Hspec. unfold d.
  rewrite stitched_from in Hspec. exact Hspec.
Qed.

(** ** Instances *)

(** The 14 bytes of a header in two allocations, cut in the middle of a bit field. *)
Definition cut_mem : memory := fun a => if a <? 200 then mem_of 100 [69; 0; 20; 255] a else mem_of 200 [202; 10; 0; 0; 1; 243; 254; 212; 1; 2] a.
Definition cut_cursor : seg_input := seg_from (make_segments [Part 100 4; Part 300 0; Part 200 10] None 0).

Lemma cut_wf : seg_wf cut_mem [[69; 0; 20; 255]; []; [202; 10; 0; 0; 1; 243; 254; 212; 1; 2]] cut_cursor.
Proof.
  apply seg_from_wf; [|vm_compute; reflexivity].
  repeat constructor; try (intros; vm_compute; congruence); try (unfold is_byte; lia).
Qed.

Lemma segmented_parsing_witness :
  exists v s', strct_seg header big cut_mem cut_cursor = Done v s' /\ seg_offset s' = 14 /\
    seg_uint 8 big cut_mem cut_cursor = Done 4971997077455896576 (seg_advance cut_cursor 8).
Proof.
  destruct (segmented_parsing cut_mem _ cut_cursor header big 8 big 3 cut_wf) as (H1 & H2 & _);
    [vm_compute; reflexivity|set_solver|lia|]. vm_compute in H1, H2. vm_compute. eauto.
Defined.

Lemma segmented_cursor_witness :
  seg_safe_at cut_mem cut_cursor 4 = Some (Some 202) /\ gather_into cut_mem cut_cursor 5 = Some (Some [69; 0; 20; 255; 202]).
Proof.
  destruct (segmented_cursor cut_mem _ cut_cursor 4 header big cut_wf) as (H1 & _); [lia|vm_compute; reflexivity|].
  destruct (segmented_cursor cut_mem _ cut_cursor 5 header big cut_wf) as (_ & H2 & _); [lia|vm_compute; reflexivity|].
  split; [exact H1|exact H2].
Defined.

Definition word_fields : list (string * field_type) := [("a", Endian big 2 Unsigned); ("b", Endian big 4 Unsigned)]%string.

Definition frag_mem : memory := mem_of 100 [6; 1; 2; 3; 4; 5].
Definition frag_parts : list part := [Part 101 3; Part 104 2; Part 100 1].

Lemma frag_parts_bytes : Forall2 (part_bytes frag_mem) frag_parts [[1; 2; 3]; [4; 5]; [6]].
Proof. repeat constructor; try (intros; vm_compute; congruence); try (unfold is_byte; lia). Qed.

Lemma reassembled_parse_witness : exists s' os o,
  feed default_config std_sort (@empty_table Ipv4Key _ _) key4 arrival3 = Some (s', os ++ [o]) /\ o_parts o = [[1; 2; 3]; [4; 5]; [6]] /\
  same_result frag_mem (o_parts o) (strct_seg word_fields big frag_mem (seg_from (make_segments frag_parts None 0)))
    (strct word_fields big (mem_of 0 [1; 2; 3; 4; 5; 6]) (Input 0 6 0 false None 0)).
Proof.
  destruct (reassembled_parse default_config std_sort empty_table 0 key4 pieces3 arrival3 frag_mem word_fields big default_config_max)
    as (s' & os & o & E & _ & Hall);
    [apply empty_reachable|vm_compute; reflexivity|reflexivity|vm_compute; reflexivity|discriminate|repeat constructor; discriminate
    |vm_compute; discriminate|apply arrival3_cut|vm_compute; reflexivity|].
  assert (Ho : o_parts o = [[1; 2; 3]; [4; 5]; [6]]).
  { apply (f_equal (fmap (M := option) (fun x => o_parts <$> last x.2))) in E. cbn [fmap option_fmap option_map snd] in E.
    rewrite last_snoc in E. vm_compute in E. by injection E. }
  exists s', os, o. split; [exact E|]. split; [exact Ho|]. apply Hall. rewrite Ho. exact frag_parts_bytes.
Defined.
