(* ===== verification/Fsst.v ===== *)
(** * FSST decompression (fsst.hpp)

    The serialized symbol table and the decoder. [None] is an access outside a
    buffer. The specification of a value's codes is [expand], which only
    appends symbols and escaped bytes; the decoder copies whole 8-byte words
    and must not let the excess show. *)
From S2P Require Import Prelude Columnar LzCopy Snappy Views.

Definition kSymbolTableBytes : Z := 8 + 256 * 8 + 256.
Definition kMaxSymbolLength : Z := 8.
Definition kEscape : Z := 255.
Definition kMagic : Z := Z.shiftl 0x46535354 32.
Definition kEncoderSwitchBit : Z := Z.shiftl 1 24.

Record symbol_table := SymbolTable {
  t_passthrough : bool;
  t_symbol_count : Z;
  t_symbols : list (list Z);
  t_lengths : list Z
}.

Definition max_decoded_size (n : Z) : Z := u64 (n * kMaxSymbolLength + kMaxSymbolLength).

(** The loop over the symbols: [std::memcpy(t.symbols[i].data(), bytes.data() + pos, 8)]. *)
Fixpoint copy_symbols (n : nat) (bytes : list Z) (i pos : Z) (syms : list (list Z)) : option (list (list Z)) :=
  match n with
  | O => Some syms
  | S n =>
      if (0 <=? pos) && (pos + kMaxSymbolLength <=? zlen bytes) then
        syms ← zset syms i (ztake kMaxSymbolLength (zdrop pos bytes));
        copy_symbols n bytes (i + 1) (pos + kMaxSymbolLength) syms
      else None
  end.

(** The loop over the lengths; [inr pos] is the first that is not 1..8. *)
Fixpoint copy_lengths (n : nat) (bytes : list Z) (i pos : Z) (lens : list Z) : option (list Z + Z) :=
  match n with
  | O => Some (inl lens)
  | S n =>
      length ← zget bytes pos;
      if (length <? 1) || (kMaxSymbolLength <? length) then Some (inr pos)
      else
        lens ← zset lens i length;
        copy_lengths n bytes (i + 1) (pos + 1) lens
  end.

(** The table, or what is wrong with it and where. *)
Definition parse_symbol_table (bytes : list Z) : option (symbol_table + string * Z) :=
  if negb (zlen bytes =? kSymbolTableBytes)
  then Some (inr ("fsst: symbol table size is not 2312 bytes"%string, zlen bytes))
  else
    header ← load_le64 bytes 0;
    if negb (Z.land header kMagic =? kMagic) then Some (inr ("fsst: symbol table has the wrong magic"%string, 0))
    else
      let count := Z.land header 0xFF in
      syms ← copy_symbols (Z.to_nat count) bytes 0 8 (replicate 256 (replicate 8 0));
      r ← copy_lengths (Z.to_nat count) bytes 0 (8 + kMaxSymbolLength * count) (replicate 256 0);
      match r with
      | inr pos => Some (inr ("fsst: symbol length is not 1..8"%string, pos))
      | inl lens => Some (inl (SymbolTable (Z.land header kEncoderSwitchBit =? 0) count syms lens))
      end.

(** The code loop: [o] is the write index. *)
Fixpoint decode_loop (fuel : nat) (t : symbol_table) (data : list Z) (i : Z) (out : list Z) (o : Z) :
    option (list Z * (Z + string * Z)) :=
  if zlen data <=? i then Some (out, inl o)
  else
    match fuel with
    | O => None
    | S fuel =>
        code ← zget data i;
        if code =? kEscape then
          if zlen data <=? i + 1 then Some (out, inr ("fsst: escape at the end of a value has no byte"%string, i))
          else
            b ← zget data (i + 1);
            out ← store out o [b];
            decode_loop fuel t data (i + 2) out (o + 1)
        else if t_symbol_count t <=? code then Some (out, inr ("fsst: code is not in the symbol table"%string, i))
        else
          sym ← zget (t_symbols t) code;
          len ← zget (t_lengths t) code;
          out ← store out o sym;
          decode_loop fuel t data (i + 1) out (o + len)
    end.

(** [decode_unchecked]: the buffer after the call, and the new [dst] or the error. *)
Definition decode_unchecked (t : symbol_table) (data : list Z) (out : list Z) (dst : Z) : option (list Z * (Z + string * Z)) :=
  if t_passthrough t then
    out ← (if zlen data =? 0 then Some out else store out dst data);
    Some (out, inl (dst + zlen data))
  else decode_loop (length data) t data 0 out dst.

Definition decode (t : symbol_table) (data : list Z) (out : list Z) : option (list Z * status) :=
  if zlen out <? max_decoded_size (zlen data)
  then Some (out, Failed "fsst: output is smaller than max_decoded_size" 0)
  else
    r ← decode_unchecked t data out 0;
    match r with
    | (out, inl dst) => Some (out, Produced dst)
    | (out, inr (what, at_)) => Some (out, Failed what at_)
    end.

(** ** Specification *)

(** The bytes of symbol [c]. *)
Definition symbol_bytes (t : symbol_table) (c : Z) : option (list Z) :=
  if c <? t_symbol_count t then
    match zget (t_symbols t) c, zget (t_lengths t) c with
    | Some w, Some n => Some (ztake n w)
    | _, _ => None
    end
  else None.

(** What codes from index [i] on denote, or the first one that is wrong. *)
Fixpoint expand (sym : Z -> option (list Z)) (i : Z) (codes : list Z) : list Z + string * Z :=
  match codes with
  | [] => inl []
  | c :: codes =>
      if c =? kEscape then
        match codes with
        | [] => inr ("fsst: escape at the end of a value has no byte"%string, i)
        | b :: codes =>
            match expand sym (i + 2) codes with inl v => inl (b :: v) | inr e => inr e end
        end
      else
        match sym c with
        | None => inr ("fsst: code is not in the symbol table"%string, i)
        | Some s => match expand sym (i + 1) codes with inl v => inl (s ++ v) | inr e => inr e end
        end
  end.

(** A table [parse_symbol_table] can return. *)
Record fsst_table_ok (t : symbol_table) : Prop := {
  to_count : 0 <= t_symbol_count t <= 255;
  to_sym c : 0 <= c < t_symbol_count t -> exists w n, zget (t_symbols t) c = Some w /\ zget (t_lengths t) c = Some n /\
    zlen w = 8 /\ bytes_ok w /\ 1 <= n <= 8
}.

(** ** Parsing the table *)

Lemma zset_spec {A} (l : list A) i x : 0 <= i < zlen l ->
  exists l', zset l i x = Some l' /\ zlen l' = zlen l /\ forall k, zget l' k = if k =? i then Some x else zget l k.
Proof.
  intros Hi. unfold zset. destruct (Z.leb_spec 0 i), (Z.ltb_spec i (zlen l)); try lia. cbn [andb].
  eexists. split; [reflexivity|]. split; [rewrite zlen_app, zlen_cons, zlen_ztake, zlen_zdrop by lia; lia|].
  intros k. assert (Ht : zlen (ztake i l) = i) by (rewrite zlen_ztake by lia; lia).
  destruct (Z.lt_ge_cases k i) as [Hlt|Hge].
  - rewrite zget_app_l by lia. destruct (Z.eqb_spec k i); [lia|]. by rewrite zget_ztake.
  - rewrite zget_app_r by lia. rewrite Ht. destruct (Z.eqb_spec k i) as [->|Hne]; [by rewrite Z.sub_diag|].
    change (x :: zdrop (i + 1) l) with ([x] ++ zdrop (i + 1) l). rewrite zget_app_r by (change (zlen [x]) with 1; lia).
    change (zlen [x]) with 1. rewrite zget_zdrop by lia. f_equal. lia.
Qed.

Lemma copy_symbols_spec bytes n : forall i pos syms, 0 <= i -> 0 <= pos -> i + Z.of_nat n <= zlen syms ->
  pos + 8 * Z.of_nat n <= zlen bytes ->
  exists syms', copy_symbols n bytes i pos syms = Some syms' /\ zlen syms' = zlen syms /\
    forall k, zget syms' k = if (i <=? k) && (k <? i + Z.of_nat n) then Some (ztake 8 (zdrop (pos + 8 * (k - i)) bytes)) else zget syms k.
Proof.
  induction n as [|n IH]; intros i pos syms Hi Hp Hs Hb; cbn [copy_symbols].
  { exists syms. split_and!; try done. intros k. destruct (Z.leb_spec i k), (Z.ltb_spec k (i + Z.of_nat 0)); try lia; done. }
  unfold kMaxSymbolLength. destruct (Z.leb_spec 0 pos), (Z.leb_spec (pos + 8) (zlen bytes)); try lia. cbn [andb].
  destruct (zset_spec syms i (ztake 8 (zdrop pos bytes))) as (s1 & E1 & Z1 & G1); [lia|]. rewrite E1. cbn [mbind option_bind].
  destruct (IH (i + 1) (pos + 8) s1) as (s2 & E2 & Z2 & G2); try lia. exists s2. split; [exact E2|]. split; [lia|]. intros k. rewrite G2, G1.
  destruct (Z.leb_spec (i + 1) k), (Z.ltb_spec k (i + 1 + Z.of_nat n)), (Z.leb_spec i k), (Z.ltb_spec k (i + Z.of_nat (S n))), (Z.eqb_spec k i);
    try lia; cbn [andb]; try done.
  - do 3 f_equal. lia.
  - subst k. do 3 f_equal. lia.
Qed.

Lemma copy_lengths_spec bytes n : bytes_ok bytes -> forall i pos lens, 0 <= i -> 0 <= pos -> i + Z.of_nat n <= zlen lens ->
  pos + Z.of_nat n <= zlen bytes ->
  exists r, copy_lengths n bytes i pos lens = Some r /\
    match r with
    | inl lens' => zlen lens' = zlen lens /\
        (forall k, zget lens' k = if (i <=? k) && (k <? i + Z.of_nat n) then zget bytes (pos + (k - i)) else zget lens k) /\
        (forall k b, pos <= k < pos + Z.of_nat n -> zget bytes k = Some b -> 1 <= b <= 8)
    | inr p => pos <= p < pos + Z.of_nat n /\ (exists b, zget bytes p = Some b /\ ~ 1 <= b <= 8) /\
        (forall k b, pos <= k < p -> zget bytes k = Some b -> 1 <= b <= 8)
    end.
Proof.
  intros Hok. induction n as [|n IH]; intros i pos lens Hi Hp Hs Hb; cbn [copy_lengths].
  { exists (inl lens). split_and!; try done; intros; [|lia]. destruct (Z.leb_spec i k), (Z.ltb_spec k (i + Z.of_nat 0)); try lia; done. }
  destruct (proj2 (zget_is_Some bytes pos)) as [b Eb]; [lia|]. rewrite Eb. cbn [mbind option_bind]. unfold kMaxSymbolLength.
  destruct ((b <? 1) || (8 <? b)) eqn:E.
  { exists (inr pos). split; [done|]. split; [lia|]. split; [|intros; lia]. exists b. split; [done|].
    apply orb_true_iff in E as [E%Z.ltb_lt|E%Z.ltb_lt]; lia. }
  apply orb_false_iff in E as [E1%Z.ltb_ge E2%Z.ltb_ge].
  destruct (zset_spec lens i b) as (s1 & F1 & Z1 & G1); [lia|]. rewrite F1. cbn [mbind option_bind].
  destruct (IH (i + 1) (pos + 1) s1) as (r & F2 & Hr); try lia. exists r. split; [exact F2|]. destruct r as [lens'|p].
  - destruct Hr as (Z2 & G2 & L2). split_and!; [lia| |].
    + intros k. rewrite G2, G1.
      destruct (Z.leb_spec (i + 1) k), (Z.ltb_spec k (i + 1 + Z.of_nat n)), (Z.leb_spec i k), (Z.ltb_spec k (i + Z.of_nat (S n))), (Z.eqb_spec k i);
        try lia; cbn [andb]; try done.
      * f_equal. lia.
      * subst k. rewrite <- Eb. f_equal. lia.
    + intros k b' Hk Hb'. destruct (decide (k = pos)) as [->|]; [rewrite Eb in Hb'; injection Hb' as <-; lia|]. apply (L2 k b'); [lia|done].
  - destruct Hr as (Hp2 & Hb2 & L2). split_and!; [lia|lia|done|].
    intros k b' Hk Hb'. destruct (decide (k = pos)) as [->|]; [rewrite Eb in Hb'; injection Hb' as <-; lia|]. apply (L2 k b'); [lia|done].
Qed.

(** What a table of the right size that passes the magic test holds. *)
Section Table.
Context (bytes : list Z) (Hz : zlen bytes = kSymbolTableBytes) (Hok : bytes_ok bytes).

Definition table_header : Z := le_val (ztake 8 bytes).
Definition table_count : Z := Z.land table_header 0xFF.

Lemma table_count_range : 0 <= table_count <= 255.
Proof using.
  unfold table_count. change (Z.land table_header 0xFF) with (Z.land table_header (Z.ones 8)). rewrite Z.land_ones by lia.
  pose proof (Z.mod_pos_bound table_header (2 ^ 8) ltac:(lia)). lia.
Qed.

Lemma parse_symbol_table_spec :
  (Z.land table_header kMagic <> kMagic -> parse_symbol_table bytes = Some (inr ("fsst: symbol table has the wrong magic"%string, 0))) /\
  (Z.land table_header kMagic = kMagic ->
   exists r, parse_symbol_table bytes = Some r /\
     match r with
     | inl t => fsst_table_ok t /\ t_passthrough t = (Z.land table_header kEncoderSwitchBit =? 0) /\ t_symbol_count t = table_count /\
         forall c, 0 <= c < table_count -> zget (t_symbols t) c = Some (ztake 8 (zdrop (8 + 8 * c) bytes)) /\
           zget (t_lengths t) c = zget bytes (8 + 8 * table_count + c)
     | inr (what, p) => what = "fsst: symbol length is not 1..8"%string /\ 8 + 8 * table_count <= p < 8 + 9 * table_count /\
         (exists b, zget bytes p = Some b /\ ~ 1 <= b <= 8) /\
         (forall k b, 8 + 8 * table_count <= k < p -> zget bytes k = Some b -> 1 <= b <= 8)
     end).
Proof using Hz Hok.
  pose proof table_count_range as Hc. unfold kSymbolTableBytes in Hz.
  assert (E : parse_symbol_table bytes = if negb (Z.land table_header kMagic =? kMagic) then Some (inr ("fsst: symbol table has the wrong magic"%string, 0))
    else syms ← copy_symbols (Z.to_nat table_count) bytes 0 8 (replicate 256 (replicate 8 0));
      r ← copy_lengths (Z.to_nat table_count) bytes 0 (8 + kMaxSymbolLength * table_count) (replicate 256 0);
      match r with
      | inr pos => Some (inr ("fsst: symbol length is not 1..8"%string, pos))
      | inl lens => Some (inl (SymbolTable (Z.land table_header kEncoderSwitchBit =? 0) table_count syms lens))
      end).
  { unfold parse_symbol_table. rewrite Hz. cbn [negb Z.eqb]. rewrite Z.eqb_refl. cbn [negb].
    unfold load_le64. rewrite Hz, zdrop_0. done. }
  split; [intros Hm; rewrite E; by destruct (Z.eqb_spec (Z.land table_header kMagic) kMagic)|].
  intros Hm. rewrite E, Hm, Z.eqb_refl. cbn [negb].
  destruct (copy_symbols_spec bytes (Z.to_nat table_count) 0 8 (replicate 256 (replicate 8 0))) as (syms & E1 & Z1 & G1);
    [lia|lia|rewrite zlen_replicate; lia|lia|]. rewrite E1. cbn [mbind option_bind]. unfold kMaxSymbolLength.
  destruct (copy_lengths_spec bytes (Z.to_nat table_count) Hok 0 (8 + 8 * table_count) (replicate 256 0)) as (r & E2 & Hr);
    [lia|lia|rewrite zlen_replicate; lia|lia|]. rewrite E2. cbn [mbind option_bind]. destruct r as [lens|p].
  - destruct Hr as (Z2 & G2 & L2). eexists. split; [reflexivity|].
    assert (Hg : forall c, 0 <= c < table_count -> zget syms c = Some (ztake 8 (zdrop (8 + 8 * c) bytes)) /\
      zget lens c = zget bytes (8 + 8 * table_count + c)).
    { intros c Hcc. rewrite G1, G2. destruct (Z.leb_spec 0 c), (Z.ltb_spec c (0 + Z.of_nat (Z.to_nat table_count))); try lia. cbn [andb].
      split; repeat f_equal; lia. }
    split_and!; try done. split; [done|]. cbn [t_symbol_count t_symbols t_lengths]. intros c Hcc. destruct (Hg c Hcc) as [Hs Hl].
    destruct (proj2 (zget_is_Some bytes (8 + 8 * table_count + c))) as [b Eb]; [lia|].
    exists (ztake 8 (zdrop (8 + 8 * c) bytes)), b. rewrite Hs, Hl, Eb. split_and!; try done.
    + rewrite zlen_ztake, zlen_zdrop by lia. lia.
    + by apply bytes_ok_ztake, bytes_ok_zdrop.
    + apply (L2 (8 + 8 * table_count + c) b); [lia|done].
    + apply (L2 (8 + 8 * table_count + c) b); [lia|done].
  - destruct Hr as (Hp & Hb & L2). eexists. split; [reflexivity|]. cbn. split_and!; try done; lia.
Qed.
End Table.

(** ** Decoding *)
Section Decode.
Context (t : symbol_table) (Ht : fsst_table_ok t).

Lemma symbol_bytes_spec c w n : 0 <= c < t_symbol_count t -> zget (t_symbols t) c = Some w -> zget (t_lengths t) c = Some n ->
  symbol_bytes t c = Some (ztake n w).
Proof using. intros Hc Hw Hn. unfold symbol_bytes. destruct (Z.ltb_spec c (t_symbol_count t)); [|lia]. by rewrite Hw, Hn. Qed.

(** Codes denote at most 8 bytes each. *)
Lemma expand_length codes : forall i v, bytes_ok codes -> expand (symbol_bytes t) i codes = inl v -> zlen v <= 8 * zlen codes /\ bytes_ok v.
Proof using Ht.
  assert (Hn : forall n codes, (length codes <= n)%nat -> forall i v, bytes_ok codes -> expand (symbol_bytes t) i codes = inl v ->
    zlen v <= 8 * zlen codes /\ bytes_ok v); [|eauto].
  clear codes. induction n as [|n IH]; intros codes Hl i v Hok E; (destruct codes as [|c codes]; [injection E as <-; done|]); [cbn in Hl; lia|].
  apply Forall_cons_1 in Hok as [Hc Hok]. cbn [expand] in E. rewrite zlen_cons. destruct (Z.eqb_spec c kEscape).
  - destruct codes as [|b codes]; [done|]. apply Forall_cons_1 in Hok as [Hb Hok].
    destruct (expand _ (i + 2) codes) as [v'|] eqn:Ev; [|done]. injection E as <-.
    destruct (IH codes ltac:(cbn in Hl; lia) _ _ Hok Ev) as [Hv Hvo]. rewrite !zlen_cons. split; [lia|by constructor].
  - destruct (symbol_bytes t c) as [s|] eqn:Es; [|done]. destruct (expand _ (i + 1) codes) as [v'|] eqn:Ev; [|done]. injection E as <-.
    destruct (IH codes ltac:(cbn in Hl; lia) _ _ Hok Ev) as [Hv Hvo]. unfold symbol_bytes in Es.
    destruct (Z.ltb_spec c (t_symbol_count t)); [|done]. destruct (to_sym t Ht c ltac:(unfold is_byte in Hc; lia)) as (w & m & Hw & Hm & Hzw & Hwo & Hmr).
    rewrite Hw, Hm in Es. injection Es as <-. rewrite zlen_app, zlen_ztake by lia. split; [lia|]. apply Forall_app. split; [by apply bytes_ok_ztake|done].
Qed.

(** The loop at code [i], with [a] decoded: a word is copied at a time, so the
    buffer has 8 bytes for every code left and 8 more. *)
Lemma decode_loop_spec data : bytes_ok data -> forall fuel i out a, produced out a -> 0 <= i ->
  zlen a + 8 * (zlen data - i) + 8 <= zlen out -> zlen data - i <= Z.of_nat fuel ->
  exists out', zlen out' = zlen out /\ (forall k, zlen a + 8 * (Z.max 0 (zlen data - i)) + 8 <= k -> zdrop k out' = zdrop k out) /\
    match expand (symbol_bytes t) i (zdrop i data) with
    | inl v => decode_loop fuel t data i out (zlen a) = Some (out', inl (zlen a + zlen v)) /\ produced out' (a ++ v)
    | inr e => decode_loop fuel t data i out (zlen a) = Some (out', inr e)
    end.
Proof using Ht.
  intros Hok. induction fuel as [|fuel IH]; intros i out a Hp Hi Hroom Hf; cbn [decode_loop]; destruct (Z.leb_spec (zlen data) i) as [Hend|Hlt].
  1, 3: exists out; rewrite zdrop_all by lia; cbn [expand]; rewrite app_nil_r, Z.add_0_r; done.
  { lia. }
  destruct (proj2 (zget_is_Some data i)) as [c Ec]; [lia|]. rewrite Ec. cbn [mbind option_bind].
  assert (Hd : zdrop i data = c :: zdrop (i + 1) data) by (by apply zdrop_cons_get).
  rewrite Hd. cbn [expand]. pose proof (zget_byte _ _ _ Hok Ec) as Hc. destruct (Z.eqb_spec c kEscape) as [->|Hne].
  - destruct (Z.leb_spec (zlen data) (i + 1)) as [He|He].
    { rewrite zdrop_all by lia. exists out. done. }
    destruct (proj2 (zget_is_Some data (i + 1))) as [b Eb]; [lia|]. rewrite Eb. cbn [mbind option_bind].
    rewrite (zdrop_cons_get data (i + 1) b Eb). replace (i + 1 + 1) with (i + 2) by lia.
    destruct (store_produced out a [b] Hp) as (o1 & E1 & Z1 & P1 & K1); [change (zlen [b]) with 1; lia|]. rewrite E1. cbn [mbind option_bind].
    change (zlen [b]) with 1 in K1.
    destruct (IH (i + 2) o1 (a ++ [b]) P1) as (o2 & Z2 & K2 & R); [lia|rewrite zlen_app; change (zlen [b]) with 1; lia|lia|].
    rewrite zlen_app in *. change (zlen [b]) with 1 in *. exists o2. split; [lia|].
    split; [intros k Hk; rewrite K2 by lia; apply K1; lia|].
    destruct (expand (symbol_bytes t) (i + 2) (zdrop (i + 2) data)) as [v|e]; [|exact R].
    destruct R as [R1 R2]. rewrite R1, zlen_cons, <- app_assoc in *. split; [do 3 f_equal; lia|done].
  - destruct (Z.leb_spec (t_symbol_count t) c) as [Hbad|Hgood].
    { assert (Es : symbol_bytes t c = None) by (unfold symbol_bytes; destruct (Z.ltb_spec c (t_symbol_count t)); [lia|done]).
      rewrite Es. exists out. done. }
    destruct (to_sym t Ht c ltac:(unfold is_byte in Hc; lia)) as (w & m & Hw & Hm & Hzw & Hwo & Hmr).
    rewrite (symbol_bytes_spec c w m) by (try done; unfold is_byte in Hc; lia). rewrite Hw, Hm. cbn [mbind option_bind].
    destruct (store_produced out a w Hp) as (o1 & E1 & Z1 & P1 & K1); [lia|]. rewrite E1. cbn [mbind option_bind].
    rewrite <- (ztake_zdrop m w), app_assoc in P1. apply produced_prefix in P1.
    assert (Zs : zlen (a ++ ztake m w) = zlen a + m) by (rewrite zlen_app, zlen_ztake by lia; lia).
    destruct (IH (i + 1) o1 (a ++ ztake m w) P1) as (o2 & Z2 & K2 & R); [lia|lia|lia|].
    rewrite Zs in *. exists o2. split; [lia|]. split; [intros k Hk; rewrite K2 by lia; apply K1; lia|].
    destruct (expand (symbol_bytes t) (i + 1) (zdrop (i + 1) data)) as [v|e]; [|exact R].
    destruct R as [R1 R2]. rewrite R1, <- app_assoc in *. split; [|done]. rewrite zlen_app, zlen_ztake by lia. do 3 f_equal. lia.
Qed.

(** What a value denotes under the table. *)
Definition denoted (data : list Z) : list Z + string * Z :=
  if t_passthrough t then inl data else expand (symbol_bytes t) 0 data.

Lemma decode_spec data out : bytes_ok data -> zlen data < 2 ^ 60 ->
  exists out', zlen out' = zlen out /\ zdrop (8 * zlen data + 8) out' = zdrop (8 * zlen data + 8) out /\
    decode t data out = Some (out',
      if zlen out <? 8 * zlen data + 8 then Failed "fsst: output is smaller than max_decoded_size" 0
      else match denoted data with inl v => Produced (zlen v) | inr (what, at_) => Failed what at_ end) /\
    (8 * zlen data + 8 <= zlen out -> forall v, denoted data = inl v -> ztake (zlen v) out' = v).
Proof using Ht.
  intros Hok Hb. pose proof (zlen_nonneg data). unfold decode, max_decoded_size, kMaxSymbolLength. rewrite wrap_small by lia.
  replace (zlen data * 8 + 8) with (8 * zlen data + 8) by lia.
  destruct (Z.ltb_spec (zlen out) (8 * zlen data + 8)) as [Hs|Hroom]; [exists out; split_and!; try done; lia|].
  assert (Hp0 : produced out []) by (split; [change (@zlen Z []) with 0; apply zlen_nonneg|done]). unfold decode_unchecked, denoted. destruct (t_passthrough t).
  - destruct (Z.eqb_spec (zlen data) 0) as [E0|E0].
    + cbn [mbind option_bind]. exists out. split_and!; try done. intros _ v [= <-]. rewrite E0. by destruct data; [|rewrite zlen_cons in E0; pose proof (zlen_nonneg data); lia].
    + destruct (store_produced out [] data Hp0) as (o1 & E1 & Z1 & [_ P1] & K1); [change (@zlen Z []) with 0; lia|].
      change (@zlen Z []) with 0 in *. rewrite E1. cbn [mbind option_bind]. exists o1. split_and!; try done; [apply K1; lia|].
      intros _ v [= <-]. exact P1.
  - destruct (decode_loop_spec data Hok (length data) 0 out [] Hp0) as (o1 & Z1 & K1 & R);
      [lia|change (@zlen Z []) with 0; lia|unfold zlen; lia|]. change (@zlen Z []) with 0 in *. rewrite zdrop_0 in R.
    exists o1. split; [done|]. split; [apply K1; lia|]. destruct (expand (symbol_bytes t) 0 data) as [v|[what p]].
    + destruct R as [-> [_ P1]]. cbn [mbind option_bind]. split; [done|]. intros _ v' [= <-]. exact P1.
    + rewrite R. cbn [mbind option_bind]. split; [done|]. by intros _ v'.
Qed.
End Decode.

(** ** The theorem *)

(** FSST decoding of anything a file may hold. A serialized table is refused
    for its size, its magic or a symbol length, at the byte that is wrong, and
    otherwise holds the symbols its bytes spell; under it a value decodes to
    what its codes denote, at most 8 bytes each, or fails at the first code
    that is wrong, and no byte past [max_decoded_size] is written although
    symbols are copied as whole words. *)
Theorem fsst_decode_exact bytes data out : bytes_ok bytes -> bytes_ok data -> zlen data < 2 ^ 60 ->
  exists r, parse_symbol_table bytes = Some r /\
    match r with
    | inr (what, p) =>
        (zlen bytes <> kSymbolTableBytes /\ p = zlen bytes) \/ (Z.land (table_header bytes) kMagic <> kMagic /\ p = 0) \/
        (exists b, zget bytes p = Some b /\ ~ 1 <= b <= 8)
    | inl t =>
        zlen bytes = kSymbolTableBytes /\ t_symbol_count t = table_count bytes /\
        (forall c, 0 <= c < table_count bytes -> exists n, zget bytes (8 + 8 * table_count bytes + c) = Some n /\ 1 <= n <= 8 /\
           symbol_bytes t c = Some (ztake n (ztake 8 (zdrop (8 + 8 * c) bytes)))) /\
        exists out', zlen out' = zlen out /\ zdrop (8 * zlen data + 8) out' = zdrop (8 * zlen data + 8) out /\
          decode t data out = Some (out',
            if zlen out <? 8 * zlen data + 8 then Failed "fsst: output is smaller than max_decoded_size" 0
            else match denoted t data with inl v => Produced (zlen v) | inr (what, at_) => Failed what at_ end) /\
          (8 * zlen data + 8 <= zlen out -> forall v, denoted t data = inl v -> ztake (zlen v) out' = v /\ zlen v <= 8 * zlen data)
    end.
Proof.
  intros Hb Hd Hz. destruct (decide (zlen bytes = kSymbolTableBytes)) as [Hs|Hs].
  2: { eexists. unfold parse_symbol_table. destruct (Z.eqb_spec (zlen bytes) kSymbolTableBytes); [done|]. split; [reflexivity|]. by left. }
  destruct (parse_symbol_table_spec bytes Hs Hb) as [Hbad Hgood].
  destruct (decide (Z.land (table_header bytes) kMagic = kMagic)) as [Hm|Hm]; [|eexists; split; [by apply Hbad|]; by right; left].
  destruct (Hgood Hm) as (r & -> & Hr). exists r. split; [done|]. destruct r as [t|[what p]]; [|right; right; apply Hr].
  destruct Hr as (Ht & _ & Hc & Hg). split_and!; [done|done| |].
  - intros c Hcc. rewrite <- Hc in Hcc. destruct (to_sym t Ht c Hcc) as (w & n & Hw & Hn & _ & _ & Hnr). rewrite Hc in Hcc.
    destruct (Hg c Hcc) as [Hgs Hgl]. exists n. rewrite <- Hgl. split_and!; try done; try lia.
    rewrite Hgs in Hw. injection Hw as <-. apply symbol_bytes_spec; [lia|done|done].
  - destruct (decode_spec t Ht data out Hd Hz) as (out' & H1 & H2 & H3 & H4). exists out'. split_and!; try done.
    intros Hroom v Hv. split; [by apply H4|]. unfold denoted in Hv. destruct (t_passthrough t).
    + injection Hv as <-. pose proof (zlen_nonneg data). lia.
    + by apply (expand_length t Ht data 0 v Hd).
Qed.

(** Two symbols, "abc" and "d", and a value with an escape. *)
Definition small_table : list Z :=
  [2; 0; 0; 1; 84; 83; 83; 70; 97; 98; 99; 0; 0; 0; 0; 0; 100; 0; 0; 0; 0; 0; 0; 0; 3; 1] ++ replicate 2286 0.

Lemma small_table_ok : bytes_ok small_table.
Proof. apply Forall_app. split; [repeat (constructor; [unfold is_byte; lia|]); constructor|apply bytes_ok_zeros]. Qed.

Lemma fsst_decode_exact_witness :
  exists t out', parse_symbol_table small_table = Some (inl t) /\ decode t [0; 255; 120; 1] (replicate 40 7) = Some (out', Produced 5) /\
    ztake 5 out' = [97; 98; 99; 120; 100].
Proof.
  destruct (fsst_decode_exact small_table [0; 255; 120; 1] (replicate 40 7)) as (r & E & Hr);
    [apply small_table_ok|repeat (constructor; [unfold is_byte; lia|]); constructor|vm_compute; reflexivity|].
  destruct r as [t|[what p]]; [|vm_compute in E; discriminate].
  destruct Hr as (_ & _ & _ & out' & _ & _ & Hd & Hv). exists t, out'. split; [exact E|].
  assert (Hden : denoted t [0; 255; 120; 1] = inl [97; 98; 99; 120; 100]).
  { vm_compute in E. injection E as <-. vm_compute. reflexivity. }
  rewrite Hden in Hd. split; [exact Hd|]. apply (Hv ltac:(vm_compute; discriminate) _ Hden).
Defined.

(** The magic is tested for its one bits only: a table whose first four bytes
    of magic are all 0xFF is accepted. *)
Theorem wrong_magic_accepted :
  match parse_symbol_table ([0; 0; 0; 1; 255; 255; 255; 255] ++ replicate 2304 0) with
  | Some (inl t) => t_symbol_count t = 0
  | _ => False
  end.
Proof. vm_compute. reflexivity. Qed.
