(* ===== verification/FsstEncode.v ===== *)
(** * FSST compression with a given table (fsst_encode.hpp)

    The encoder's lookup tables, [add], [find], the three loops of
    [compress_unchecked], [compress] and [serialize]; training is in
    [FsstTrain]. Arrays are lists, [None] is an access outside one. Words are
    loaded in little-endian order, as the encoder assumes. *)
From S2P Require Import Prelude Columnar LzCopy Snappy Views Fsst.

Record slot := Slot { s_value : Z; s_length : Z; s_code : Z }.
Definition kNone : Z := 0xFFFF.

Record encoder := Encoder {
  e_symbol_count : Z;
  e_symbols : list Z;
  e_lengths : list Z;
  e_byte_codes : list Z;
  e_short_codes : list Z;
  e_long_codes : list slot;
  e_short_or_byte : list Z
}.

Definition max_compressed_size (n : Z) : Z := u64 (2 * n).

Definition kLongSlots : Z := 1024.
Definition kMaxSymbols : Z := 255.
Definition kPseudo : Z := 256.
Definition kCodes : Z := 512.

Definition hash3 (word : Z) : Z :=
  let w := Z.land word 0xFFFFFF in
  let m := u64 (w * 2971215073) in
  Z.land (Z.lxor m (Z.shiftr m 15)) (kLongSlots - 1).

Definition fsst_mask (length : Z) : Z := if 8 <=? length then 2 ^ 64 - 1 else Z.shiftl 1 (8 * length) - 1.

(** [load(p, remaining)], [p] the rest of the value from [pos] on. *)
Definition fsst_load (data : list Z) (pos remaining : Z) : option Z :=
  let n := Z.min remaining 8 in
  if (0 <=? pos) && (pos + n <=? zlen data) then Some (le_val (ztake n (zdrop pos data))) else None.

Definition empty_encoder : encoder := Encoder 0 (replicate 255 0) (replicate 255 0) (replicate 256 0) [] (replicate 1024 (Slot 0 0 0)) [].

Definition fsst_reset (e : encoder) : encoder :=
  Encoder 0 (e_symbols e) (e_lengths e) (replicate 256 kNone) (replicate (Z.to_nat 65536) kNone)
    (replicate (Z.to_nat kLongSlots) (Slot 0 0 0)) (e_short_or_byte e).

(** [add]: the encoder after the call and whether the symbol was taken. *)
Definition fsst_add (e : encoder) (value length : Z) : option (encoder * bool) :=
  let code := e_symbol_count e in
  let declare byte_codes short_codes long_codes :=
    symbols ← zset (e_symbols e) code value;
    lengths ← zset (e_lengths e) code (u8 length);
    Some (Encoder (code + 1) symbols lengths byte_codes short_codes long_codes (e_short_or_byte e), true) in
  if length =? 1 then
    byte_codes ← zset (e_byte_codes e) (Z.land value 0xFF) (u16 code);
    declare byte_codes (e_short_codes e) (e_long_codes e)
  else if length =? 2 then
    short_codes ← zset (e_short_codes e) (Z.land value 0xFFFF) (u16 code);
    declare (e_byte_codes e) short_codes (e_long_codes e)
  else
    s ← zget (e_long_codes e) (hash3 value);
    if negb (s_length s =? 0) then Some (e, false)
    else
      long_codes ← zset (e_long_codes e) (hash3 value) (Slot value (u8 length) (u8 code));
      declare (e_byte_codes e) (e_short_codes e) long_codes.

(** [find]: the code (or [kNone]) and the length. *)
Definition fsst_find (e : encoder) (data : list Z) (pos remaining : Z) : option (Z * Z) :=
  word ← fsst_load data pos remaining;
  s ← (if 3 <=? remaining then zget (e_long_codes e) (hash3 word) else Some (Slot 0 0 0));
  if (3 <=? remaining) && negb (s_length s =? 0) && (s_length s <=? remaining) && (Z.land word (fsst_mask (s_length s)) =? s_value s)
  then Some (s_code s, s_length s)
  else
    two ← (if 2 <=? remaining then zget (e_short_codes e) (Z.land word 0xFFFF) else Some kNone);
    if negb (two =? kNone) then Some (two, 2)
    else one ← zget (e_byte_codes e) (Z.land word 0xFF); Some (one, 1).

(** [((word ^ s.value) << (64 - 8 * s.length)) == 0] *)
Definition slot_matches (s : slot) (word : Z) : bool :=
  u64 (Z.shiftl (Z.lxor word (s_value s)) (64 - 8 * s_length s)) =? 0.

(** The code and the literal byte are both stored; the literal counts only for
    an escape. *)
Definition put_entry (dst : list Z) (o entry word : Z) : option (list Z * Z) :=
  let code := Z.land entry 0xFF in
  dst ← store dst o [code];
  dst ← store dst (o + 1) [Z.land word 0xFF];
  Some (dst, if code =? kEscape then o + 2 else o + 1).

(** While 8 bytes remain. *)
Fixpoint fast_loop (fuel : nat) (e : encoder) (data : list Z) (pos : Z) (dst : list Z) (o : Z) : option (list Z * Z * Z) :=
  if zlen data <? pos + 8 then Some (dst, pos, o)
  else
    match fuel with
    | O => None
    | S fuel =>
        word ← load_le64 data pos;
        s ← zget (e_long_codes e) (hash3 word);
        if negb (s_length s =? 0) && slot_matches s word then
          dst ← store dst o [s_code s];
          fast_loop fuel e data (pos + s_length s) dst (o + 1)
        else
          entry ← zget (e_short_or_byte e) (Z.land word 0xFFFF);
          '(dst, o) ← put_entry dst o entry word;
          fast_loop fuel e data (pos + Z.shiftr entry 8) dst o
    end.

(** The last bytes, from a zero-padded copy of 16. *)
Fixpoint tail_loop (fuel : nat) (e : encoder) (tail : list Z) (rest at_ : Z) (dst : list Z) (o : Z) : option (list Z * Z) :=
  if rest <=? at_ then Some (dst, o)
  else
    match fuel with
    | O => None
    | S fuel =>
        word ← load_le64 tail at_;
        let remaining := rest - at_ in
        s ← zget (e_long_codes e) (hash3 word);
        if negb (s_length s =? 0) && (s_length s <=? remaining) && slot_matches s word then
          dst ← store dst o [s_code s];
          tail_loop fuel e tail rest (at_ + s_length s) dst (o + 1)
        else
          entry ← (if 2 <=? remaining then zget (e_short_or_byte e) (Z.land word 0xFFFF)
                   else one ← zget (e_byte_codes e) (Z.land word 0xFF);
                        Some (u16 (Z.lor (Z.shiftl 1 8) (if negb (one =? kNone) then one else kEscape))));
          '(dst, o) ← put_entry dst o entry word;
          tail_loop fuel e tail rest (at_ + Z.shiftr entry 8) dst o
    end.

(** An encoder built without [train]. *)
Fixpoint plain_loop (fuel : nat) (e : encoder) (data : list Z) (pos : Z) (dst : list Z) (o : Z) : option (list Z * Z) :=
  if zlen data <=? pos then Some (dst, o)
  else
    match fuel with
    | O => None
    | S fuel =>
        '(code, length) ← fsst_find e data pos (zlen data - pos);
        if code =? kNone then
          b ← zget data pos;
          dst ← store dst o [kEscape];
          dst ← store dst (o + 1) [b];
          plain_loop fuel e data (pos + 1) dst (o + 2)
        else
          dst ← store dst o [u8 code];
          plain_loop fuel e data (pos + length) dst (o + 1)
    end.

(** [compress_unchecked] at index [o] of [dst]: the buffer and the new index. *)
Definition compress_unchecked (e : encoder) (data : list Z) (dst : list Z) (o : Z) : option (list Z * Z) :=
  if negb (zlen (e_short_or_byte e) =? 0) then
    '(dst, pos, o) ← fast_loop (length data) e data 0 dst o;
    if pos <? zlen data then
      let rest := zlen data - pos in
      tail ← store (replicate 16 0) 0 (zdrop pos data);
      tail_loop (Z.to_nat rest) e tail rest 0 dst o
    else Some (dst, o)
  else plain_loop (length data) e data 0 dst o.

Definition compress (e : encoder) (data : list Z) (out : list Z) : option (list Z) :=
  let at_ := zlen out in
  '(dst, o) ← compress_unchecked e data (resize out (at_ + max_compressed_size (zlen data))) at_;
  Some (resize dst o).

(** The entry of [short_or_byte] for a word with the given one- and two-byte codes. *)
Definition entry_of (one two : Z) : Z :=
  if negb (two =? kNone) then u16 (Z.lor (Z.shiftl 2 8) two)
  else if negb (one =? kNone) then u16 (Z.lor (Z.shiftl 1 8) one)
  else u16 (Z.lor (Z.shiftl 1 8) kEscape).

(** [put64]. *)
Definition put64 (out : list Z) (at_ v : Z) : option (list Z) := store out at_ (le_bytes 8 v).

Fixpoint put_symbols (n : nat) (e : encoder) (i : Z) (out : list Z) (pos : Z) : option (list Z * Z) :=
  match n with
  | O => Some (out, pos)
  | S n => v ← zget (e_symbols e) i; out ← put64 out pos v; put_symbols n e (i + 1) out (pos + 8)
  end.

Fixpoint put_lengths (n : nat) (e : encoder) (i : Z) (out : list Z) (pos : Z) : option (list Z) :=
  match n with
  | O => Some out
  | S n => v ← zget (e_lengths e) i; out ← store out pos [v]; put_lengths n e (i + 1) out (pos + 1)
  end.

Definition serialize (e : encoder) : option (list Z) :=
  out ← put64 (replicate (Z.to_nat kSymbolTableBytes) 0) 0 (Z.lor (Z.lor kMagic kEncoderSwitchBit) (e_symbol_count e));
  '(out, pos) ← put_symbols (Z.to_nat (e_symbol_count e)) e 0 out 8;
  put_lengths (Z.to_nat (e_symbol_count e)) e 0 out pos.
