(* ===== verification/FsstCompress.v ===== *)
(** * FSST compression: the loops

    Each loop of [compress_unchecked] performs greedy steps and stays within
    twice the size of the value, the stray literal byte included. *)
From S2P Require Import Prelude Columnar LzCopy Snappy Views Fsst FsstEncode.

(** * FSST compression: what the encoder's tables promise

    The invariant of the encoder, and compression as greedy longest-match
    tokenization: whichever loop of [compress_unchecked] runs, at each position
    the longest symbol that matches is taken, else the byte is escaped. *)

(** The bytes of symbol [c]. *)
Definition enc_sym (e : encoder) (c : Z) : option (list Z) :=
  if (0 <=? c) && (c <? e_symbol_count e) then
    match zget (e_symbols e) c, zget (e_lengths e) c with
    | Some v, Some n => Some (le_bytes (Z.to_nat n) v)
    | _, _ => None
    end
  else None.

(** Code [c] is the symbol of [n] bytes with value [v]. *)
Definition is_symbol (e : encoder) (c v n : Z) : Prop :=
  0 <= c < e_symbol_count e /\ zget (e_symbols e) c = Some v /\ zget (e_lengths e) c = Some n.

(** The invariant: the lookups hold exactly the symbols. *)
Record enc_ok (e : encoder) : Prop := {
  eo_count : 0 <= e_symbol_count e <= 255;
  eo_sizes : zlen (e_symbols e) = 255 /\ zlen (e_lengths e) = 255 /\ zlen (e_byte_codes e) = 256 /\
    zlen (e_short_codes e) = 65536 /\ zlen (e_long_codes e) = 1024;
  eo_sym c : 0 <= c < e_symbol_count e -> exists v n, is_symbol e c v n /\ 1 <= n <= 8 /\ 0 <= v < 2 ^ (8 * n);
  eo_byte b c : zget (e_byte_codes e) b = Some c -> c = kNone \/ is_symbol e c b 1;
  eo_short w c : zget (e_short_codes e) w = Some c -> c = kNone \/ is_symbol e c w 2;
  eo_long h s : zget (e_long_codes e) h = Some s -> s_length s = 0 \/
    (3 <= s_length s <= 8 /\ is_symbol e (s_code s) (s_value s) (s_length s) /\ hash3 (s_value s) = h);
  eo_all c v n : is_symbol e c v n ->
    (n = 1 -> zget (e_byte_codes e) v <> Some kNone) /\
    (n = 2 -> zget (e_short_codes e) v <> Some kNone) /\
    (3 <= n -> exists s, zget (e_long_codes e) (hash3 v) = Some s /\ s_value s = v /\ s_length s = n);
  eo_entries : e_short_or_byte e = [] \/
    (zlen (e_short_or_byte e) = 65536 /\
     forall w one two, 0 <= w < 65536 -> zget (e_byte_codes e) (Z.land w 0xFF) = Some one -> zget (e_short_codes e) w = Some two ->
       zget (e_short_or_byte e) w = Some (entry_of one two))
}.

(** ** Words and prefixes *)

Definition word_at (l : list Z) : Z := le_val (ztake 8 l).

Lemma word_range l : bytes_ok l -> 0 <= word_at l < 2 ^ 64.
Proof.
  intros Hl. unfold word_at. pose proof (le_val_range (ztake 8 l) (bytes_ok_ztake 8 l Hl)) as Hr.
  assert (zlen (ztake 8 l) <= 8) by (rewrite zlen_ztake by lia; lia). unfold zlen in *.
  assert (2 ^ (8 * Z.of_nat (length (ztake 8 l))) <= 2 ^ 64) by (apply Z.pow_le_mono_r; lia). lia.
Qed.

Lemma word_wrap l n : bytes_ok l -> 0 <= n <= 8 -> wrap (8 * n) (word_at l) = le_val (ztake n l).
Proof.
  intros Hl Hn. unfold word_at. rewrite <- le_val_ztake by (try apply bytes_ok_ztake; done || lia). by rewrite ztake_ztake by lia.
Qed.

(** A symbol is a prefix of [l] exactly when the low bytes of the word are its value. *)
Lemma prefix_word l v n : bytes_ok l -> 1 <= n <= 8 -> 0 <= v < 2 ^ (8 * n) ->
  le_bytes (Z.to_nat n) v `prefix_of` l <-> n <= zlen l /\ wrap (8 * n) (word_at l) = v.
Proof.
  intros Hl Hn Hv. rewrite word_wrap by (done || lia). split.
  - intros [k ->]. assert (Hz : zlen (le_bytes (Z.to_nat n) v) = n) by (unfold zlen; rewrite length_le_bytes; lia).
    rewrite zlen_app. pose proof (zlen_nonneg k). split; [lia|]. rewrite ztake_app by done.
    rewrite le_val_le_bytes, wrap_small; [done|]. rewrite Z2Nat.id by lia. done.
  - intros [Hz Ev]. exists (zdrop n l). rewrite <- (ztake_zdrop n l) at 1. f_equal. apply le_val_inj.
    + by apply bytes_ok_ztake.
    + apply le_bytes_ok.
    + rewrite length_le_bytes. pose proof (zlen_ztake n l ltac:(lia)). unfold zlen in *. lia.
    + rewrite le_val_le_bytes, Z2Nat.id, wrap_small by lia. done.
Qed.

Lemma fsst_mask_spec w n : 1 <= n <= 8 -> 0 <= w < 2 ^ 64 -> Z.land w (fsst_mask n) = wrap (8 * n) w.
Proof.
  intros Hn Hw. unfold fsst_mask, wrap. destruct (Z.leb_spec 8 n).
  - change (2 ^ 64 - 1) with (Z.ones 64). rewrite Z.land_ones by lia. replace (8 * n) with 64 by lia. done.
  - rewrite <- Z.land_ones by lia. f_equal; rewrite ?Z.shiftl_1_l, ?Z.ones_equiv; lia.
Qed.

Lemma slot_matches_spec s w : 3 <= s_length s <= 8 -> 0 <= s_value s < 2 ^ (8 * s_length s) -> 0 <= w < 2 ^ 64 ->
  slot_matches s w = (wrap (8 * s_length s) w =? s_value s).
Proof.
  intros Hn Hv Hw. set (n := 8 * s_length s) in *. unfold slot_matches. fold n.
  assert (Ez : u64 (Z.shiftl (Z.lxor w (s_value s)) (64 - n)) = Z.shiftl (Z.lxor (wrap n w) (s_value s)) (64 - n)).
  { apply Z.bits_inj'. intros j Hj. rewrite testbit_wrap by lia. rewrite !Z.shiftl_spec, !Z.lxor_spec by lia.
    rewrite testbit_wrap by lia. destruct (Z.ltb_spec j 64), (Z.ltb_spec (j - (64 - n)) n); try lia; cbn [andb]; try done.
    rewrite (testbit_above (s_value s) n) by lia. done. }
  rewrite Ez. apply Bool.eq_iff_eq_true. rewrite !Z.eqb_eq. split; intros E.
  - apply Z.lxor_eq. apply Z.bits_inj'. intros j Hj. rewrite Z.bits_0.
    assert (Hb : Z.testbit (Z.shiftl (Z.lxor (wrap n w) (s_value s)) (64 - n)) (j + (64 - n)) = false) by (by rewrite E, Z.bits_0).
    rewrite Z.shiftl_spec in Hb by lia. by replace (j + (64 - n) - (64 - n)) with j in Hb by lia.
  - by rewrite E, Z.lxor_nilpotent, Z.shiftl_0_l.
Qed.

Lemma hash3_low w v n : 3 <= n <= 8 -> 0 <= w -> wrap (8 * n) w = v -> hash3 w = hash3 v.
Proof.
  intros Hn Hw <-. unfold hash3. do 4 f_equal.
  all: change 0xFFFFFF with (Z.ones 24); rewrite !Z.land_ones by lia; unfold wrap;
    rewrite <- (Znumtheory.Zmod_div_mod (2 ^ 24) (2 ^ (8 * n)) w) by (try lia; exists (2 ^ (8 * n - 24)); rewrite <- Z.pow_add_r by lia; f_equal; lia); done.
Qed.

Lemma hash3_range w : 0 <= hash3 w < 1024.
Proof.
  unfold hash3. change (kLongSlots - 1) with (Z.ones 10). rewrite Z.land_ones by lia. apply Z.mod_pos_bound. lia.
Qed.

Lemma land_low w k m : 0 <= k -> m = Z.ones k -> Z.land w m = wrap k w.
Proof. intros Hk ->. by rewrite Z.land_ones. Qed.

(** ** Greedy tokenization *)

(** No symbol that is a prefix of [l] is longer than [s]. *)
Definition longest (e : encoder) (s l : list Z) : Prop :=
  forall c' s', enc_sym e c' = Some s' -> s' `prefix_of` l -> (length s' <= length s)%nat.

Inductive greedy (e : encoder) : list Z -> list Z -> Prop :=
| greedy_nil : greedy e [] []
| greedy_symbol c s l codes : enc_sym e c = Some s -> longest e s (s ++ l) -> greedy e l codes -> greedy e (s ++ l) (c :: codes)
| greedy_escape b l codes : (forall c s, enc_sym e c = Some s -> ~ s `prefix_of` (b :: l)) -> greedy e l codes ->
    greedy e (b :: l) (kEscape :: b :: codes).

(** One step of any of the loops: the codes put out and the bytes consumed. *)
Definition long_match (e : encoder) (l : list Z) : option slot :=
  s ← zget (e_long_codes e) (hash3 (word_at l));
  if negb (s_length s =? 0) && (s_length s <=? zlen l) && (wrap (8 * s_length s) (word_at l) =? s_value s) then Some s else None.

Definition step (e : encoder) (l : list Z) : list Z * Z :=
  match long_match e l with
  | Some s => ([s_code s], s_length s)
  | None =>
      let two := if 2 <=? zlen l then default kNone (zget (e_short_codes e) (wrap 16 (word_at l))) else kNone in
      let one := default kNone (zget (e_byte_codes e) (wrap 8 (word_at l))) in
      if negb (two =? kNone) then ([two], 2)
      else if negb (one =? kNone) then ([one], 1)
      else ([kEscape; wrap 8 (word_at l)], 1)
  end.

Section Step.
Context (e : encoder) (He : enc_ok e).

Lemma is_symbol_sym c v n : is_symbol e c v n -> enc_sym e c = Some (le_bytes (Z.to_nat n) v).
Proof using.
  intros (Hc & Hv & Hn). unfold enc_sym. destruct (Z.leb_spec 0 c), (Z.ltb_spec c (e_symbol_count e)); try lia. cbn [andb]. by rewrite Hv, Hn.
Qed.

Lemma is_symbol_range c v n : is_symbol e c v n -> 0 <= c < 255 /\ 1 <= n <= 8 /\ 0 <= v < 2 ^ (8 * n).
Proof using He.
  intros (Hc & Hv & Hn). destruct (eo_sym e He c Hc) as (v' & n' & (_ & Hv' & Hn') & Hr). pose proof (eo_count e He).
  rewrite Hv in Hv'. rewrite Hn in Hn'. simplify_eq. split_and!; lia.
Qed.

Lemma enc_sym_inv c s : enc_sym e c = Some s -> exists v n, is_symbol e c v n /\ s = le_bytes (Z.to_nat n) v /\ zlen s = n.
Proof using He.
  unfold enc_sym. destruct (Z.leb_spec 0 c), (Z.ltb_spec c (e_symbol_count e)); try done. cbn [andb].
  destruct (eo_sym e He c) as (v & n & Hs & Hr & _); [lia|]. pose proof Hs as (_ & Hv & Hn). rewrite Hv, Hn. intros [= <-].
  exists v, n. split_and!; try done. unfold zlen. rewrite length_le_bytes. lia.
Qed.

(** A symbol that is a prefix of [l] is found by the lookup for its length. *)
Lemma prefix_found l c v n : bytes_ok l -> is_symbol e c v n -> le_bytes (Z.to_nat n) v `prefix_of` l ->
  n <= zlen l /\ wrap (8 * n) (word_at l) = v /\
  (n = 1 -> zget (e_byte_codes e) (wrap 8 (word_at l)) <> Some kNone) /\
  (n = 2 -> zget (e_short_codes e) (wrap 16 (word_at l)) <> Some kNone) /\
  (3 <= n -> exists s, long_match e l = Some s /\ s_length s = n).
Proof using He.
  intros Hl Hs Hp. destruct (is_symbol_range c v n Hs) as (_ & Hn & Hv). apply prefix_word in Hp as [Hz Hw]; try done.
  destruct (eo_all e He c v n Hs) as (H1 & H2 & H3). split_and!; try done.
  - intros ->. rewrite <- Hw in H1. by apply H1.
  - intros ->. rewrite <- Hw in H2. by apply H2.
  - intros Hn3. destruct (H3 Hn3) as (s & Es & Ev & En). exists s. split; [|done]. unfold long_match.
    rewrite (hash3_low (word_at l) v n) by (done || lia || apply word_range; done). rewrite Es. cbn [mbind option_bind]. rewrite Ev, En, Hw, Z.eqb_refl.
    destruct (Z.eqb_spec n 0), (Z.leb_spec n (zlen l)); done || lia.
Qed.

Lemma found_symbol l c v n k : bytes_ok l -> is_symbol e c v n -> n <= zlen l -> wrap (8 * n) (word_at l) = v ->
  (forall c' v' n', is_symbol e c' v' n' -> le_bytes (Z.to_nat n') v' `prefix_of` l -> n' <= n) ->
  greedy e (zdrop n l) k -> greedy e l (c :: k).
Proof using He.
  intros Hl Hs Hz Hw Hlong Hk. destruct (is_symbol_range c v n Hs) as (Hc & Hn & Hv).
  assert (Hp : le_bytes (Z.to_nat n) v `prefix_of` l) by (by apply prefix_word).
  destruct Hp as [l' ->]. assert (Hzs : zlen (le_bytes (Z.to_nat n) v) = n) by (unfold zlen; rewrite length_le_bytes; lia).
  rewrite zdrop_app in Hk by done. apply greedy_symbol; [by apply is_symbol_sym| |done].
  intros c' s' Hs' Hp'. apply enc_sym_inv in Hs' as (v' & n' & Hs' & -> & Hz'). specialize (Hlong c' v' n' Hs' Hp').
  unfold zlen in Hzs, Hz'. lia.
Qed.

Lemma greedy_step l : bytes_ok l -> l <> [] ->
  1 <= (step e l).2 <= zlen l /\ 1 <= zlen (step e l).1 <= 2 * (step e l).2 /\ bytes_ok (step e l).1 /\
  (forall k, greedy e (zdrop (step e l).2 l) k -> greedy e l ((step e l).1 ++ k)).
Proof using He.
  intros Hl Hne. assert (Hz : 1 <= zlen l) by (destruct l; [done|rewrite zlen_cons; pose proof (zlen_nonneg l); lia]).
  pose proof (word_range l Hl) as Hwr. pose proof (eo_sizes e He) as (_ & _ & Sb & Ss & _).
  unfold step. destruct (long_match e l) as [s|] eqn:Em.
  { unfold long_match in Em. destruct (zget (e_long_codes e) (hash3 (word_at l))) as [s'|] eqn:Es; [|done]. cbn [mbind option_bind] in Em.
    destruct (negb (s_length s' =? 0) && (s_length s' <=? zlen l) && (wrap (8 * s_length s') (word_at l) =? s_value s')) eqn:Ec; [|done].
    injection Em as <-. apply andb_true_iff in Ec as [[Ec1 Ec2%Z.leb_le]%andb_true_iff Ec3%Z.eqb_eq].
    destruct (eo_long e He _ _ Es) as [E0|(Hlen & Hsym & _)]; [rewrite E0 in Ec1; done|].
    destruct (is_symbol_range _ _ _ Hsym) as (Hc & _). cbn [fst snd]. change (zlen [s_code s']) with 1. split_and!; try lia.
    { repeat constructor; unfold is_byte; lia. }
    intros k Hk. apply (found_symbol l _ (s_value s') (s_length s') k); try done.
    intros c' v' n' Hs' Hp'. destruct (decide (3 <= n')) as [H3|]; [|lia].
    destruct (prefix_found l c' v' n' Hl Hs' Hp') as (_ & _ & _ & _ & F). destruct (F H3) as (s2 & F1 & F2). unfold long_match in F1.
    rewrite Es in F1. cbn [mbind option_bind] in F1. destruct (_ && _); [|done]. injection F1 as <-. lia. }
  assert (Hno3 : forall c' v' n', is_symbol e c' v' n' -> le_bytes (Z.to_nat n') v' `prefix_of` l -> n' <= 2).
  { intros c' v' n' Hs' Hp'. destruct (decide (3 <= n')) as [H3|]; [|lia].
    destruct (prefix_found l c' v' n' Hl Hs' Hp') as (_ & _ & _ & _ & F). destruct (F H3) as (s2 & F1 & _). congruence. }
  set (two := if 2 <=? zlen l then default kNone (zget (e_short_codes e) (wrap 16 (word_at l))) else kNone).
  destruct (Z.eqb_spec two kNone) as [E2|E2]; cbn [negb].
  - assert (Hno2 : forall c' v' n', is_symbol e c' v' n' -> le_bytes (Z.to_nat n') v' `prefix_of` l -> n' <= 1).
    { intros c' v' n' Hs' Hp'. pose proof (Hno3 c' v' n' Hs' Hp'). destruct (decide (n' = 2)) as [->|]; [|lia].
      destruct (prefix_found l c' v' 2 Hl Hs' Hp') as (Hl2 & _ & _ & F & _). exfalso. apply F; [done|]. unfold two in E2.
      destruct (Z.leb_spec 2 (zlen l)); [|lia]. destruct (proj2 (zget_is_Some (e_short_codes e) (wrap 16 (word_at l)))) as [x Ex];
        [pose proof (wrap_range 16 (word_at l) ltac:(lia)); lia|]. rewrite Ex in E2 |- *. cbn in E2. congruence. }
    destruct (proj2 (zget_is_Some (e_byte_codes e) (wrap 8 (word_at l)))) as [one Eo]; [pose proof (wrap_range 8 (word_at l) ltac:(lia)); lia|].
    rewrite Eo. change (default kNone (Some one)) with one. destruct (Z.eqb_spec one kNone) as [E1|E1]; cbn [negb fst snd].
    + pose proof (wrap_range 8 (word_at l) ltac:(lia)) as Hb. change (zlen [kEscape; wrap 8 (word_at l)]) with 2. split_and!; try lia.
      { repeat constructor; unfold is_byte, kEscape; lia. }
      intros k Hk. destruct l as [|b l]; [done|]. apply Forall_cons_1 in Hl as Hl'. destruct Hl' as [Hbb Hbl].
      assert (Ew : wrap 8 (word_at (b :: l)) = b).
      { change 8 with (8 * 1) at 1. rewrite word_wrap by (done || lia). change (ztake 1 (b :: l)) with [b]. cbn. lia. }
      rewrite Ew. apply greedy_escape; [|exact Hk]. intros c s Hs Hp. apply enc_sym_inv in Hs as (v & n & Hs & -> & _).
      pose proof (Hno2 c v n Hs Hp). destruct (is_symbol_range c v n Hs) as (_ & Hn & _). assert (n = 1) as -> by lia.
      destruct (prefix_found _ c v 1 Hl Hs Hp) as (_ & _ & F & _). apply F; [done|]. by rewrite Eo, E1.
    + destruct (eo_byte e He _ _ Eo) as [|Hs]; [done|]. destruct (is_symbol_range _ _ _ Hs) as (Hc & _). change (zlen [one]) with 1.
      split_and!; try lia. { repeat constructor; unfold is_byte; lia. }
      intros k Hk. apply (found_symbol l _ _ 1 k Hl Hs); try done; lia.
  - unfold two in E2 |- *. destruct (Z.leb_spec 2 (zlen l)); [|done].
    destruct (zget (e_short_codes e) (wrap 16 (word_at l))) as [x|] eqn:Ex; [|done].
    change (default kNone (Some x)) with x in *. cbn [fst snd].
    destruct (eo_short e He _ _ Ex) as [|Hs]; [done|]. destruct (is_symbol_range _ _ _ Hs) as (Hc & _). change (zlen [x]) with 1.
    split_and!; try lia. { repeat constructor; unfold is_byte; lia. }
    intros k Hk. apply (found_symbol l _ _ 2 k Hl Hs); try done; lia.
Qed.
End Step.

Lemma entry_fields k c : 0 <= k -> 0 <= c < 256 -> Z.land (Z.lor (Z.shiftl k 8) c) 0xFF = c /\ Z.shiftr (Z.lor (Z.shiftl k 8) c) 8 = k.
Proof.
  intros Hk Hc. assert (E : Z.lor (Z.shiftl k 8) c = k * 256 + c).
  { rewrite Z.lor_comm. rewrite (lor_shiftl_add c k 8) by lia. lia. }
  rewrite E. change 0xFF with (Z.ones 8). rewrite Z.land_ones, Z.shiftr_div_pow2 by lia. change (2 ^ 8) with 256.
  Z.div_mod_to_equations. lia.
Qed.

Lemma u16_entry k c : 0 <= k <= 2 -> 0 <= c < 256 -> u16 (Z.lor (Z.shiftl k 8) c) = Z.lor (Z.shiftl k 8) c.
Proof. intros Hk Hc. apply wrap_small. rewrite Z.lor_comm, (lor_shiftl_add c k 8) by lia. lia. Qed.

(** What is after [n] more bytes of a buffer does not change. *)
Definition kept_from (n : Z) (dst dst' : list Z) : Prop := zlen dst' = zlen dst /\ forall k, n <= k -> zdrop k dst' = zdrop k dst.

Lemma kept_trans n m a b c : n <= m -> kept_from n a b -> kept_from m b c -> kept_from m a c.
Proof. intros Hn [Z1 K1] [Z2 K2]. split; [lia|]. intros k Hk. rewrite K2, K1 by lia. done. Qed.

Lemma kept_weaken n m a b : n <= m -> kept_from n a b -> kept_from m a b.
Proof. intros Hn [Z1 K1]. split; [done|]. intros k Hk. apply K1. lia. Qed.

Lemma store_kept dst a vs : produced dst a -> zlen a + zlen vs <= zlen dst ->
  exists dst', store dst (zlen a) vs = Some dst' /\ produced dst' (a ++ vs) /\ kept_from (zlen a + zlen vs) dst dst'.
Proof. intros Hp Hr. destruct (store_produced dst a vs Hp Hr) as (d & E & Hz & Hp' & K). exists d. by split_and!. Qed.

(** The codes an entry stands for. *)
Definition entry_codes (entry word : Z) : list Z :=
  if Z.land entry 0xFF =? kEscape then [kEscape; wrap 8 word] else [Z.land entry 0xFF].

Lemma put_entry_spec dst a entry word : produced dst a -> zlen a + 2 <= zlen dst ->
  exists dst', put_entry dst (zlen a) entry word = Some (dst', zlen (a ++ entry_codes entry word)) /\
    produced dst' (a ++ entry_codes entry word) /\ kept_from (zlen a + 2) dst dst'.
Proof.
  intros Hp Hr. unfold put_entry, entry_codes. change (Z.land word 0xFF) with (Z.land word (Z.ones 8)). rewrite Z.land_ones by lia. fold (wrap 8 word).
  set (code := Z.land entry 0xFF). set (b := wrap 8 word).
  destruct (store_kept dst a [code] Hp) as (d1 & E1 & P1 & K1); [change (zlen [code]) with 1; lia|]. rewrite E1. cbn [mbind option_bind].
  destruct (store_kept d1 (a ++ [code]) [b] P1) as (d2 & E2 & P2 & K2); [destruct K1; rewrite zlen_app; change (zlen [code]) with 1; change (zlen [b]) with 1; lia|].
  rewrite zlen_app in E2, K2. change (zlen [code]) with 1 in *. change (zlen [b]) with 1 in *. rewrite E2. cbn [mbind option_bind].
  exists d2. split_and!.
  - destruct (Z.eqb_spec code kEscape) as [Ec|]; rewrite zlen_app; [change (zlen [kEscape; b]) with 2|change (zlen [code]) with 1]; done.
  - destruct (Z.eqb_spec code kEscape) as [Ec|]; [by rewrite <- Ec, <- app_assoc in *|by apply produced_prefix in P2].
  - replace (zlen a + 2) with (zlen a + 1 + 1) by lia. eapply kept_trans; [|exact K1|exact K2]. lia.
Qed.

Section Loops.
Context (e : encoder) (He : enc_ok e).

Lemma long_match_slot l s : bytes_ok l -> zget (e_long_codes e) (hash3 (word_at l)) = Some s ->
  long_match e l = if negb (s_length s =? 0) && (s_length s <=? zlen l) && slot_matches s (word_at l) then Some s else None.
Proof using He.
  intros Hl Es. unfold long_match. rewrite Es. cbn [mbind option_bind].
  destruct (eo_long e He _ _ Es) as [E0|(Hlen & Hsym & _)]; [by rewrite E0|].
  destruct (is_symbol_range e He _ _ _ Hsym) as (_ & _ & Hv). rewrite slot_matches_spec by (done || apply word_range; done). done.
Qed.

Lemma slot_get w : exists s, zget (e_long_codes e) (hash3 w) = Some s.
Proof using He. apply zget_is_Some. pose proof (hash3_range w). destruct (eo_sizes e He) as (_ & _ & _ & _ & ->). lia. Qed.

Lemma byte_get w : exists c, zget (e_byte_codes e) (wrap 8 w) = Some c /\ (c = kNone \/ 0 <= c < 255).
Proof using He.
  destruct (proj2 (zget_is_Some (e_byte_codes e) (wrap 8 w))) as [c Ec].
  { destruct (eo_sizes e He) as (_ & _ & -> & _). pose proof (wrap_range 8 w ltac:(lia)). lia. }
  exists c. split; [done|]. destruct (eo_byte e He _ _ Ec) as [|Hs]; [by left|]. right. by apply is_symbol_range in Hs as [? _].
Qed.

Lemma short_get w : exists c, zget (e_short_codes e) (wrap 16 w) = Some c /\ (c = kNone \/ 0 <= c < 255).
Proof using He.
  destruct (proj2 (zget_is_Some (e_short_codes e) (wrap 16 w))) as [c Ec].
  { destruct (eo_sizes e He) as (_ & _ & _ & -> & _). pose proof (wrap_range 16 w ltac:(lia)). lia. }
  exists c. split; [done|]. destruct (eo_short e He _ _ Ec) as [|Hs]; [by left|]. right. by apply is_symbol_range in Hs as [? _].
Qed.

(** The one lookup that settles two bytes, one byte and the escape. *)
Lemma entry_step l : zlen (e_short_or_byte e) <> 0 -> long_match e l = None -> 2 <= zlen l ->
  exists entry, zget (e_short_or_byte e) (Z.land (word_at l) 0xFFFF) = Some entry /\
    step e l = (entry_codes entry (word_at l), Z.shiftr entry 8).
Proof using He.
  intros Hne Hm Hz. destruct (eo_entries e He) as [E|[_ Hent]]; [rewrite E in Hne; done|].
  destruct (byte_get (word_at l)) as (one & Eo & Ho). destruct (short_get (word_at l)) as (two & Et & Htw).
  rewrite (land_low _ 16) by (done || lia). pose proof (wrap_range 16 (word_at l) ltac:(lia)).
  assert (Ew : Z.land (wrap 16 (word_at l)) 0xFF = wrap 8 (word_at l)).
  { rewrite (land_low _ 8) by (done || lia). unfold wrap. symmetry. apply Znumtheory.Zmod_div_mod; [lia|lia|]. exists 256. lia. }
  exists (entry_of one two). split; [apply Hent; [lia|by rewrite Ew|done]|].
  unfold step. rewrite Hm, Eo, Et. destruct (Z.leb_spec 2 (zlen l)); [|lia]. change (default kNone (Some two)) with two. change (default kNone (Some one)) with one.
  unfold entry_of, entry_codes. destruct (Z.eqb_spec two kNone) as [E2|E2]; cbn [negb].
  - destruct (Z.eqb_spec one kNone) as [E1|E1]; cbn [negb].
    + done.
    + destruct Ho as [|Ho]; [done|]. rewrite u16_entry by lia. destruct (entry_fields 1 one) as [-> ->]; [lia|lia|]. unfold kEscape. by destruct (Z.eqb_spec one 255); [lia|].
  - destruct Htw as [|Htw]; [done|]. rewrite u16_entry by lia. destruct (entry_fields 2 two) as [-> ->]; [lia|lia|]. unfold kEscape. by destruct (Z.eqb_spec two 255); [lia|].
Qed.

(** The last byte of the value, by itself. *)
Lemma last_step l one : long_match e l = None -> zlen l < 2 -> zget (e_byte_codes e) (Z.land (word_at l) 0xFF) = Some one ->
  let entry := u16 (Z.lor (Z.shiftl 1 8) (if negb (one =? kNone) then one else kEscape)) in
  step e l = (entry_codes entry (word_at l), Z.shiftr entry 8).
Proof using He.
  intros Hm Hz Eo. rewrite (land_low _ 8) in Eo by (done || lia). destruct (byte_get (word_at l)) as (one' & Eo' & Ho).
  rewrite Eo in Eo'. injection Eo' as <-. unfold step. rewrite Hm, Eo. destruct (Z.leb_spec 2 (zlen l)); [lia|].
  change (default kNone (Some one)) with one. rewrite Z.eqb_refl. cbn [negb]. unfold entry_codes. cbv zeta.
  destruct (Z.eqb_spec one kNone) as [E1|E1]; cbn [negb]; [done|]. destruct Ho as [|Ho]; [done|].
  rewrite u16_entry by lia. destruct (entry_fields 1 one) as [-> ->]; [lia|lia|].
  unfold kEscape. by destruct (Z.eqb_spec one 255); [lia|].
Qed.

(** A loop that has put out [a] and has the bytes [l] ahead ends, having put
    out [codes] for all but the bytes [l'], each byte of [dst] it wrote within
    twice the bytes passed. *)
Definition puts (dst a l : list Z) (dst' a' l' : list Z) : Prop :=
  exists codes, a' = a ++ codes /\ produced dst' a' /\ kept_from (zlen a + 2 * (zlen l - zlen l')) dst dst' /\
    zlen l' <= zlen l /\ zlen codes <= 2 * (zlen l - zlen l') /\ bytes_ok codes /\
    forall k, greedy e l' k -> greedy e l (codes ++ k).

Lemma puts_refl dst a l : produced dst a -> puts dst a l dst a l.
Proof using. intros Hp. exists []. rewrite app_nil_r. change (@zlen Z []) with 0. split_and!; try done; lia || constructor. Qed.

(** One greedy step, then the rest. *)
Lemma step_continue dst dst1 a l codes n : bytes_ok l -> l <> [] -> step e l = (codes, n) -> produced dst1 (a ++ codes) ->
  kept_from (zlen a + 2) dst dst1 -> zlen a + 2 * zlen l <= zlen dst ->
  1 <= n <= zlen l /\ zlen (a ++ codes) + 2 * zlen (zdrop n l) <= zlen dst1 /\
  forall dst' a' l', puts dst1 (a ++ codes) (zdrop n l) dst' a' l' -> puts dst a l dst' a' l'.
Proof using He.
  intros Hl Hne Es Hp Hk Hr. pose proof (greedy_step e He l Hl Hne) as Hs. rewrite Es in Hs. cbn [fst snd] in Hs.
  destruct Hs as (Hn & Hc & Hb & Hg). split; [lia|]. split; [destruct Hk; rewrite zlen_app, zlen_zdrop by lia; lia|].
  intros dst' a' l' (more & -> & Hp' & Hk' & Hz & Hzm & Hbm & Hgm). rewrite zlen_zdrop, zlen_app in * by lia. pose proof (zlen_nonneg l').
  exists (codes ++ more). rewrite app_assoc, zlen_app. split_and!; try done; try lia.
  - eapply kept_trans; [|exact Hk|eapply kept_weaken; [|exact Hk']]; lia.
  - by apply Forall_app.
  - intros k Hk2. rewrite <- app_assoc. by apply Hg, Hgm.
Qed.

Lemma put_code dst a c : produced dst a -> zlen a + 2 <= zlen dst ->
  exists dst', store dst (zlen a) [c] = Some dst' /\ produced dst' (a ++ [c]) /\ kept_from (zlen a + 2) dst dst' /\ zlen a + 1 = zlen (a ++ [c]).
Proof using.
  intros Hp Hr. destruct (store_kept dst a [c] Hp) as (d & E & P & K); [change (zlen [c]) with 1; lia|]. exists d.
  split_and!; try done; [|by rewrite zlen_app]. eapply kept_weaken; [|exact K]. change (zlen [c]) with 1. lia.
Qed.

Lemma fast_loop_spec data : bytes_ok data -> zlen (e_short_or_byte e) <> 0 -> forall fuel pos dst a, produced dst a -> 0 <= pos <= zlen data ->
  zlen a + 2 * zlen (zdrop pos data) <= zlen dst -> zlen data - pos <= Z.of_nat fuel ->
  exists dst' pos' a', fast_loop fuel e data pos dst (zlen a) = Some (dst', pos', zlen a') /\ pos <= pos' <= zlen data /\
    zlen data < pos' + 8 /\ puts dst a (zdrop pos data) dst' a' (zdrop pos' data).
Proof using He.
  intros Hd Hsob. induction fuel as [|fuel IH]; intros pos dst a Hp Hpos Hr Hf; cbn [fast_loop]; destruct (Z.ltb_spec (zlen data) (pos + 8)) as [Hend|Hgo].
  1, 3: exists dst, pos, a; split_and!; try done; try lia; by apply puts_refl.
  { lia. }
  set (l := zdrop pos data) in *. assert (Hl : bytes_ok l) by (by apply bytes_ok_zdrop). assert (Hz : zlen l = zlen data - pos) by (unfold l; rewrite zlen_zdrop; lia).
  assert (Hne : l <> []) by (intros E; rewrite E in Hz; change (@zlen Z []) with 0 in Hz; lia).
  assert (Hw : load_le64 data pos = Some (word_at l)).
  { unfold load_le64. destruct (Z.leb_spec 0 pos), (Z.leb_spec (pos + 8) (zlen data)); try lia. done. }
  assert (Hgo2 : forall d1 codes n, step e l = (codes, n) -> produced d1 (a ++ codes) -> kept_from (zlen a + 2) dst d1 ->
    exists dst' pos' a', fast_loop fuel e data (pos + n) d1 (zlen (a ++ codes)) = Some (dst', pos', zlen a') /\ pos <= pos' <= zlen data /\
      zlen data < pos' + 8 /\ puts dst a l dst' a' (zdrop pos' data)).
  { intros d1 codes n Est P1 K1. destruct (step_continue dst d1 a l codes n Hl Hne Est P1 K1 Hr) as (R1 & R2 & R3).
    unfold l in R2, R3. rewrite zdrop_zdrop in R2, R3 by lia.
    destruct (IH (pos + n) d1 (a ++ codes) P1) as (d2 & pos2 & a2 & E2 & Hp2 & Hend2 & Hputs); [lia|done|lia|].
    exists d2, pos2, a2. split_and!; try done; try lia. by apply R3. }
  rewrite Hw. cbn [mbind option_bind]. destruct (slot_get (word_at l)) as [s Es]. rewrite Es. cbn [mbind option_bind].
  pose proof (long_match_slot l s Hl Es) as Hm. assert (Hsl : s_length s = 0 \/ 3 <= s_length s <= 8) by (destruct (eo_long e He _ _ Es) as [|(? & _)]; lia).
  replace (s_length s <=? zlen l) with true in Hm by (symmetry; apply Z.leb_le; lia). rewrite andb_true_r in Hm.
  destruct (negb (s_length s =? 0) && slot_matches s (word_at l)).
  - destruct (put_code dst a (s_code s) Hp) as (d1 & E1 & P1 & K1 & ->); [lia|]. rewrite E1. cbn [mbind option_bind].
    apply Hgo2; try done. unfold step. by rewrite Hm.
  - destruct (entry_step l Hsob Hm) as (entry & Ee & Est); [lia|]. rewrite Ee. cbn [mbind option_bind].
    destruct (put_entry_spec dst a entry (word_at l) Hp) as (d1 & E1 & P1 & K1); [lia|]. rewrite E1. cbn [mbind option_bind]. by apply Hgo2.
Qed.

(** The tail: a zero-padded copy gives the same words. *)
Lemma padded_word r at_ : 0 <= at_ < zlen r -> zlen r < 8 -> load_le64 (r ++ replicate (Z.to_nat (16 - zlen r)) 0) at_ = Some (word_at (zdrop at_ r)).
Proof using.
  intros Ha Hr. unfold load_le64. rewrite zlen_app, zlen_replicate. destruct (Z.leb_spec 0 at_), (Z.leb_spec (at_ + 8) (zlen r + Z.of_nat (Z.to_nat (16 - zlen r)))); try lia.
  cbn [andb]. f_equal. unfold word_at. rewrite zdrop_app_l by lia. rewrite ztake_app_r by (rewrite zlen_zdrop; lia).
  rewrite (ztake_all 8) by (rewrite zlen_zdrop; lia). rewrite zlen_zdrop by lia. rewrite ztake_replicate by lia.
  rewrite le_val_app, le_val_zeros. lia.
Qed.

Lemma tail_loop_spec r : bytes_ok r -> zlen r < 8 -> zlen (e_short_or_byte e) <> 0 -> forall fuel at_ dst a, produced dst a -> 0 <= at_ <= zlen r ->
  zlen a + 2 * zlen (zdrop at_ r) <= zlen dst -> zlen r - at_ <= Z.of_nat fuel ->
  exists dst' a', tail_loop fuel e (r ++ replicate (Z.to_nat (16 - zlen r)) 0) (zlen r) at_ dst (zlen a) = Some (dst', zlen a') /\
    puts dst a (zdrop at_ r) dst' a' [].
Proof using He.
  intros Hr8 Hlt Hsob. induction fuel as [|fuel IH]; intros at_ dst a Hp Hat Hroom Hf; cbn [tail_loop]; destruct (Z.leb_spec (zlen r) at_) as [Hend|Hgo].
  1, 3: exists dst, a; rewrite zdrop_all by lia; split; [done|]; by apply puts_refl.
  { lia. }
  set (l := zdrop at_ r) in *. assert (Hl : bytes_ok l) by (by apply bytes_ok_zdrop). assert (Hz : zlen l = zlen r - at_) by (unfold l; rewrite zlen_zdrop; lia).
  assert (Hne : l <> []) by (intros E; rewrite E in Hz; change (@zlen Z []) with 0 in Hz; lia).
  assert (Hgo2 : forall d1 codes n, step e l = (codes, n) -> produced d1 (a ++ codes) -> kept_from (zlen a + 2) dst d1 ->
    exists dst' a', tail_loop fuel e (r ++ replicate (Z.to_nat (16 - zlen r)) 0) (zlen r) (at_ + n) d1 (zlen (a ++ codes)) = Some (dst', zlen a') /\
      puts dst a l dst' a' []).
  { intros d1 codes n Est P1 K1. destruct (step_continue dst d1 a l codes n Hl Hne Est P1 K1 Hroom) as (R1 & R2 & R3).
    unfold l in R2, R3. rewrite zdrop_zdrop in R2, R3 by lia.
    destruct (IH (at_ + n) d1 (a ++ codes) P1) as (d2 & a2 & E2 & Hputs); [lia|done|lia|]. exists d2, a2. split; [done|]. by apply R3. }
  rewrite padded_word by lia. cbn [mbind option_bind]. fold l. destruct (slot_get (word_at l)) as [s Es]. rewrite Es. cbn [mbind option_bind].
  pose proof (long_match_slot l s Hl Es) as Hm. rewrite Hz in Hm.
  destruct (negb (s_length s =? 0) && (s_length s <=? zlen r - at_) && slot_matches s (word_at l)).
  - destruct (put_code dst a (s_code s) Hp) as (d1 & E1 & P1 & K1 & ->); [lia|]. rewrite E1. cbn [mbind option_bind].
    apply Hgo2; try done. unfold step. by rewrite Hm.
  - assert (Hent : exists entry, (if 2 <=? zlen r - at_ then zget (e_short_or_byte e) (Z.land (word_at l) 0xFFFF)
        else one ← zget (e_byte_codes e) (Z.land (word_at l) 0xFF); Some (u16 (Z.lor (Z.shiftl 1 8) (if negb (one =? kNone) then one else kEscape)))) = Some entry /\
        step e l = (entry_codes entry (word_at l), Z.shiftr entry 8)).
    { destruct (Z.leb_spec 2 (zlen r - at_)); [apply entry_step; done || lia|].
      destruct (byte_get (word_at l)) as (one & Eo & _). rewrite <- (land_low _ 8 0xFF) in Eo by (done || lia). rewrite Eo. cbn [mbind option_bind].
      eexists. split; [reflexivity|]. apply last_step; done || lia. }
    destruct Hent as (entry & -> & Est). cbn [mbind option_bind].
    destruct (put_entry_spec dst a entry (word_at l) Hp) as (d1 & E1 & P1 & K1); [lia|]. rewrite E1. cbn [mbind option_bind]. by apply Hgo2.
Qed.

(** The plain lookups are the same step. *)
Lemma find_step data pos : bytes_ok data -> 0 <= pos < zlen data ->
  let l := zdrop pos data in
  exists code n, fsst_find e data pos (zlen data - pos) = Some (code, n) /\
    step e l = (if code =? kNone then [kEscape; wrap 8 (word_at l)] else [code], n) /\ (code = kNone -> n = 1) /\ (code <> kNone -> 0 <= code < 255).
Proof using He.
  intros Hd Hpos l. assert (Hl : bytes_ok l) by (by apply bytes_ok_zdrop). assert (Hz : zlen l = zlen data - pos) by (unfold l; rewrite zlen_zdrop; lia).
  assert (Hw : fsst_load data pos (zlen data - pos) = Some (word_at l)).
  { unfold fsst_load. destruct (Z.leb_spec 0 pos), (Z.leb_spec (pos + Z.min (zlen data - pos) 8) (zlen data)); try lia. cbn [andb]. f_equal. unfold word_at.
    fold l. rewrite <- Hz. destruct (Z.le_ge_cases (zlen l) 8); [rewrite Z.min_l, !ztake_all by lia; done|by rewrite Z.min_r by lia]. }
  unfold fsst_find. rewrite Hw. cbn [mbind option_bind]. rewrite <- Hz.
  destruct (slot_get (word_at l)) as [s Es]. pose proof (long_match_slot l s Hl Es) as Hm.
  pose proof (eo_long e He _ _ Es) as Hlong. pose proof (word_range l Hl) as Hwr.
  assert (Hcond : exists s', (if 3 <=? zlen l then zget (e_long_codes e) (hash3 (word_at l)) else Some (Slot 0 0 0)) = Some s' /\
    (if (3 <=? zlen l) && negb (s_length s' =? 0) && (s_length s' <=? zlen l) && (Z.land (word_at l) (fsst_mask (s_length s')) =? s_value s')
     then Some s' else None) = long_match e l).
  { destruct (Z.leb_spec 3 (zlen l)) as [H3|H3]; cbn [andb].
    - exists s. split; [done|]. rewrite Hm. destruct Hlong as [E0|(Hlen & Hsym & _)]; [by rewrite E0|].
      destruct (is_symbol_range e He _ _ _ Hsym) as (_ & _ & Hv). rewrite slot_matches_spec, fsst_mask_spec by (done || lia). done.
    - eexists. split; [done|]. rewrite Hm. destruct Hlong as [E0|(Hlen & _)]; [by rewrite E0|].
      destruct (Z.leb_spec (s_length s) (zlen l)); [lia|]. by rewrite andb_false_r. }
  destruct Hcond as (s' & -> & Hc). cbn [mbind option_bind]. destruct ((3 <=? zlen l) && _ && _ && _).
  - exists (s_code s'), (s_length s'). unfold step. rewrite <- Hc. rewrite Hm in Hc.
    destruct (negb (s_length s =? 0)) eqn:Ec; cbn [andb] in Hc; [|done].
    assert (s' = s) as -> by (by destruct (_ && _); simplify_eq). destruct Hlong as [E0|(_ & Hsym & _)]; [by rewrite E0 in Ec|].
    apply (is_symbol_range e He) in Hsym as [Hr _]. unfold kNone. destruct (Z.eqb_spec (s_code s) 0xFFFF); [lia|]. split_and!; try done; lia.
  - assert (Htwo : exists two, (if 2 <=? zlen l then zget (e_short_codes e) (Z.land (word_at l) 0xFFFF) else Some kNone) = Some two /\
      two = (if 2 <=? zlen l then default kNone (zget (e_short_codes e) (wrap 16 (word_at l))) else kNone) /\ (two = kNone \/ 0 <= two < 255)).
    { destruct (Z.leb_spec 2 (zlen l)); [|exists kNone; split_and!; try done; by left]. rewrite (land_low _ 16) by (done || lia).
      destruct (short_get (word_at l)) as (two & Et & Hr). exists two. by rewrite Et. }
    destruct Htwo as (two & -> & Htwo & Hr2). cbn [mbind option_bind]. unfold step. rewrite <- Hc, <- Htwo.
    destruct (Z.eqb_spec two kNone) as [E2|E2]; cbn [negb].
    + rewrite (land_low _ 8) by (done || lia). destruct (byte_get (word_at l)) as (one & Eo & Hr1). rewrite Eo. cbn [mbind option_bind].
      change (default kNone (Some one)) with one. exists one, 1. destruct (Z.eqb_spec one kNone) as [E1|E1]; cbn [negb]; split_and!; try done.
      intros _. by destruct Hr1.
    + exists two, 2. destruct (Z.eqb_spec two kNone); [done|]. split_and!; try done. intros _. by destruct Hr2.
Qed.

Lemma plain_loop_spec data : bytes_ok data -> forall fuel pos dst a, produced dst a -> 0 <= pos <= zlen data ->
  zlen a + 2 * zlen (zdrop pos data) <= zlen dst -> zlen data - pos <= Z.of_nat fuel ->
  exists dst' a', plain_loop fuel e data pos dst (zlen a) = Some (dst', zlen a') /\ puts dst a (zdrop pos data) dst' a' [].
Proof using He.
  intros Hd. induction fuel as [|fuel IH]; intros pos dst a Hp Hpos Hroom Hf; cbn [plain_loop]; destruct (Z.leb_spec (zlen data) pos) as [Hend|Hgo].
  1, 3: exists dst, a; rewrite zdrop_all by lia; split; [done|]; by apply puts_refl.
  { lia. }
  set (l := zdrop pos data) in *. assert (Hl : bytes_ok l) by (by apply bytes_ok_zdrop). assert (Hz : zlen l = zlen data - pos) by (unfold l; rewrite zlen_zdrop; lia).
  assert (Hne : l <> []) by (intros E; rewrite E in Hz; change (@zlen Z []) with 0 in Hz; lia).
  assert (Hgo2 : forall d1 codes n, step e l = (codes, n) -> produced d1 (a ++ codes) -> kept_from (zlen a + 2) dst d1 ->
    exists dst' a', plain_loop fuel e data (pos + n) d1 (zlen (a ++ codes)) = Some (dst', zlen a') /\ puts dst a l dst' a' []).
  { intros d1 codes n Est P1 K1. destruct (step_continue dst d1 a l codes n Hl Hne Est P1 K1 Hroom) as (R1 & R2 & R3).
    unfold l in R2, R3. rewrite zdrop_zdrop in R2, R3 by lia.
    destruct (IH (pos + n) d1 (a ++ codes) P1) as (d2 & a2 & E2 & Hputs); [lia|done|lia|]. exists d2, a2. split; [done|]. by apply R3. }
  destruct (find_step data pos Hd) as (code & n & Ef & Est & H1 & Hr); [lia|]. rewrite Ef. cbn [mbind option_bind]. fold l in Est.
  destruct (Z.eqb_spec code kNone) as [Ec|Ec].
  - rewrite (H1 Ec) in *. destruct (proj2 (zget_is_Some data pos)) as [b Eb]; [lia|]. rewrite Eb. cbn [mbind option_bind].
    assert (Ew : wrap 8 (word_at l) = b).
    { change 8 with (8 * 1) at 1. rewrite word_wrap by (done || lia). unfold l. rewrite (zdrop_cons_get data pos b Eb).
      change (ztake 1 (b :: zdrop (pos + 1) data)) with [b]. cbn. lia. }
    rewrite Ew in Est. destruct (put_code dst a kEscape Hp) as (d1 & E1 & P1 & K1 & Ez); [lia|]. rewrite E1. cbn [mbind option_bind]. rewrite Ez.
    destruct (store_kept d1 (a ++ [kEscape]) [b] P1) as (d2 & E2 & P2 & K2); [destruct K1; rewrite zlen_app; change (zlen [kEscape]) with 1; change (zlen [b]) with 1; lia|].
    rewrite E2. cbn [mbind option_bind]. rewrite <- app_assoc in P2. change ([kEscape] ++ [b]) with [kEscape; b] in P2.
    replace (zlen a + 2) with (zlen (a ++ [kEscape; b])) by (rewrite zlen_app; done). apply Hgo2; try done.
    rewrite <- Ez in K2. change (zlen [b]) with 1 in K2. replace (zlen a + 1 + 1) with (zlen a + 2) in K2 by lia. by eapply kept_trans.
  - rewrite wrap_small by (specialize (Hr Ec); lia). destruct (put_code dst a code Hp) as (d1 & E1 & P1 & K1 & ->); [lia|]. rewrite E1. cbn [mbind option_bind].
    by apply Hgo2.
Qed.

(** ** The whole value *)
Lemma greedy_all l : greedy e [] [] -> forall dst a dst' a', puts dst a l dst' a' [] ->
  exists codes, a' = a ++ codes /\ greedy e l codes /\ zlen codes <= 2 * zlen l /\ bytes_ok codes /\ produced dst' (a ++ codes) /\ kept_from (zlen a + 2 * zlen l) dst dst'.
Proof using.
  intros Hn dst a dst' a' (codes & -> & Hp & Hk & _ & Hz & Hb & Hg). change (@zlen Z []) with 0 in *. rewrite Z.sub_0_r in *.
  exists codes. split_and!; try done. rewrite <- (app_nil_r codes). by apply Hg.
Qed.

Lemma compress_unchecked_spec data dst a : bytes_ok data -> produced dst a -> zlen a + 2 * zlen data <= zlen dst ->
  exists codes dst', compress_unchecked e data dst (zlen a) = Some (dst', zlen (a ++ codes)) /\ greedy e data codes /\
    zlen codes <= 2 * zlen data /\ bytes_ok codes /\ produced dst' (a ++ codes) /\ kept_from (zlen a + 2 * zlen data) dst dst'.
Proof using He.
  intros Hd Hp Hroom. pose proof (zlen_nonneg data).
  assert (Hall : exists dst' a', compress_unchecked e data dst (zlen a) = Some (dst', zlen a') /\ puts dst a data dst' a' []).
  { unfold compress_unchecked. destruct (Z.eqb_spec (zlen (e_short_or_byte e)) 0) as [E0|E0]; cbn [negb].
    - destruct (plain_loop_spec data Hd (length data) 0 dst a Hp) as (d & a' & E & Hputs);
        [lia|rewrite zdrop_0; lia|unfold zlen; lia|]. rewrite zdrop_0 in Hputs. by exists d, a'.
    - destruct (fast_loop_spec data Hd E0 (length data) 0 dst a Hp) as (d1 & pos & a1 & E1 & Hpos & Hend & Hputs1);
        [lia|rewrite zdrop_0; lia|unfold zlen; lia|]. rewrite zdrop_0 in Hputs1. rewrite E1. cbn [mbind option_bind].
      destruct (Z.ltb_spec pos (zlen data)) as [Hlt|Hge]; [|rewrite zdrop_all in Hputs1 by lia; by exists d1, a1].
      assert (Hzr : zlen (zdrop pos data) = zlen data - pos) by (rewrite zlen_zdrop; lia).
      assert (Est : store (replicate 16 0) 0 (zdrop pos data) = Some (zdrop pos data ++ replicate (Z.to_nat (16 - zlen (zdrop pos data))) 0)).
      { rewrite store_spec by (try rewrite zlen_replicate; lia). rewrite ztake_0. cbn [app]. rewrite Z.add_0_l, zdrop_replicate by lia. do 3 f_equal. lia. }
      rewrite Est. cbn [mbind option_bind]. destruct Hputs1 as (c1 & -> & Hp1 & Hk1 & Hz1 & Hzc1 & Hb1 & Hg1). destruct Hk1 as [Zd1 Kd1].
      destruct (tail_loop_spec (zdrop pos data) (bytes_ok_zdrop pos data Hd) ltac:(lia) E0 (Z.to_nat (zlen data - pos)) 0 d1 (a ++ c1) Hp1) as (d2 & a2 & E2 & Hputs2);
        [lia|rewrite zdrop_0, zlen_app; lia|lia|]. rewrite zdrop_0 in Hputs2. rewrite <- Hzr in E2 |- *. rewrite E2. exists d2, a2. split; [done|].
      destruct Hputs2 as (c2 & -> & Hp2 & Hk2 & Hz2 & Hzc2 & Hb2 & Hg2). exists (c1 ++ c2). change (@zlen Z []) with 0 in *.
      rewrite app_assoc, (zlen_app c1 c2). split_and!; try done; try lia.
      + eapply kept_trans; [|split; [exact Zd1|exact Kd1]|eapply kept_weaken; [|exact Hk2]]; try rewrite zlen_app; lia.
      + by apply Forall_app.
      + intros k Hk. rewrite <- app_assoc. by apply Hg1, Hg2. }
  destruct Hall as (d & a' & E & Hputs). destruct (greedy_all data (greedy_nil e) _ _ _ _ Hputs) as (codes & -> & Hrest).
  exists codes, d. split; [exact E|exact Hrest].
Qed.

Lemma compress_spec data out : bytes_ok data -> zlen data < 2 ^ 60 -> exists codes, compress e data out = Some (out ++ codes) /\ greedy e data codes /\
  zlen codes <= 2 * zlen data /\ bytes_ok codes.
Proof using He.
  intros Hd Hb. unfold compress, max_compressed_size. pose proof (zlen_nonneg data). pose proof (zlen_nonneg out). rewrite wrap_small by lia.
  assert (Hp : produced (resize out (zlen out + 2 * zlen data)) out).
  { split; [rewrite zlen_resize; lia|]. unfold resize. rewrite ztake_app; rewrite ?ztake_all by lia; done. }
  destruct (compress_unchecked_spec data _ out Hd Hp) as (codes & dst & E & Hg & Hz & Hbc & Hp' & Hk); [rewrite zlen_resize; lia|].
  rewrite E. cbn [mbind option_bind]. exists codes. split; [|done]. f_equal. destruct Hp' as [Hle Ht]. unfold resize. rewrite Ht.
  replace (Z.to_nat (zlen (out ++ codes) - zlen dst)) with 0%nat by lia. by rewrite app_nil_r.
Qed.
End Loops.
