(* ===== verification/FsstTrain.v ===== *)
(** * FSST training: the sample and the symbol table (fsst_encode.hpp)

    [make_sample] and [train]. [value_at] is the caller's. The counters, all
    zero at first, are the maps of their entries that are not; an index out of
    their range is [None], as is an access outside an array. [std::sort] is the
    [sort] of the class [SortsRanked]: equivalent candidates may come in any
    order. Signed and unsigned sums of counts and sizes are kept at 64 bits. *)
From stdpp Require Import gmap sorting.
From S2P Require Import Prelude Columnar LzCopy Snappy Views Fsst FsstEncode.

Definition kSampleTarget : Z := Z.shiftl 1 14.

(** ** The sample *)

(** The splitmix64 step: the next draw from a state. *)
Definition splitmix (state : Z) : Z :=
  let z := state in
  let z := u64 (Z.lxor z (Z.shiftr z 30) * 0xBF58476D1CE4E5B9) in
  let z := u64 (Z.lxor z (Z.shiftr z 27) * 0x94D049BB133111EB) in
  Z.lxor z (Z.shiftr z 31).

Definition kGamma : Z := 0x9E3779B97F4A7C15.

Section Sample.
Context (n : Z) (value_at : Z -> list Z).

Definition total_size : Z := foldl (fun t i => u64 (t + zlen (value_at i))) 0 (seqZ 0 n).

(** [while (taken < kSampleTarget)]; [None] when the fuel is spent. *)
Fixpoint sample_loop (fuel : nat) (state taken : Z) : option (list (list Z)) :=
  if kSampleTarget <=? taken then Some []
  else
    match fuel with
    | O => None
    | S fuel =>
        let state := u64 (state + kGamma) in
        let v := value_at (splitmix state mod n) in
        rest ← sample_loop fuel state (u64 (taken + zlen v));
        Some (v :: rest)
    end.

Definition make_sample (fuel : nat) : option (list (list Z)) :=
  if total_size <=? kSampleTarget then Some (List.map value_at (seqZ 0 n))
  else sample_loop fuel (Z.lxor kGamma total_size) 0.
End Sample.

(** ** Counting *)

(** [symbol]: value and length. *)
Definition symbol_of (e : encoder) (code : Z) : option (Z * Z) :=
  if kPseudo <=? code then Some (code - kPseudo, 1)
  else v ← zget (e_symbols e) code; n ← zget (e_lengths e) code; Some (v, n).

Definition counter (c : gmap Z Z) (i : Z) : Z := default 0 (c !! i).

(** [bump(c[i])] of a counter array of [size] entries: saturating. *)
Definition bump (size : Z) (c : gmap Z Z) (i : Z) : option (gmap Z Z) :=
  if (0 <=? i) && (i <? size)
  then Some (if counter c i =? 0xFFFF then c else <[i := counter c i + 1]> c) else None.

Definition code_at (table : encoder) (data : list Z) (pos remaining : Z) : option (Z * Z) :=
  '(code, length) ← fsst_find table data pos remaining;
  if code =? kNone then b ← zget data pos; Some (u16 (kPseudo + b), length) else Some (code, length).

(** The counters of a round. *)
Record tally := Tally {
  ta_count1 : gmap Z Z;
  ta_count2 : gmap Z Z;
  ta_row_touched : gset Z;
  ta_touched_rows : list Z;
  ta_gain : Z
}.

(** The start of a round: [count1] cleared, and the rows of [count2] that were written. *)
Definition clear_tally (t : tally) : tally :=
  Tally ∅ (filter (fun p : Z * Z => p.1 / kCodes ∉ ta_touched_rows t) (ta_count2 t))
    (ta_row_touched t ∖ list_to_set (ta_touched_rows t)) [] 0.

Definition step_gain (code length : Z) : Z := Z.max 0 (length - 1 - (if kPseudo <=? code then 1 else 0)).

(** The pair counts of one step; none in the last round. *)
Definition count_pair (frac prev cur length b : Z) (t : tally) : option tally :=
  if frac <? 128 then
    let '(rows, touched) := if decide (prev ∈ ta_row_touched t) then (ta_row_touched t, ta_touched_rows t)
                            else ({[prev]} ∪ ta_row_touched t, ta_touched_rows t ++ [prev]) in
    c2 ← bump (kCodes * kCodes) (ta_count2 t) (prev * kCodes + cur);
    c2 ← (if 1 <? length then bump (kCodes * kCodes) c2 (prev * kCodes + kPseudo + b) else Some c2);
    Some (Tally (ta_count1 t) c2 rows touched (ta_gain t))
  else Some t.

(** [while (pos < size)], and the last symbol. *)
Fixpoint count_loop (fuel : nat) (table : encoder) (frac : Z) (data : list Z) (pos prev : Z) (t : tally) : option tally :=
  if zlen data <=? pos then
    c1 ← bump kCodes (ta_count1 t) prev;
    Some (Tally c1 (ta_count2 t) (ta_row_touched t) (ta_touched_rows t) (ta_gain t))
  else
    match fuel with
    | O => None
    | S fuel =>
        b ← zget data pos;
        c1 ← bump kCodes (ta_count1 t) prev;
        s ← symbol_of table prev;
        c1 ← (if negb (s.2 =? 1) then bump kCodes c1 (kPseudo + b) else Some c1);
        '(cur, length) ← code_at table data pos (zlen data - pos);
        t ← count_pair frac prev cur length b
              (Tally c1 (ta_count2 t) (ta_row_touched t) (ta_touched_rows t) (ta_gain t + step_gain cur length));
        count_loop fuel table frac data (pos + length) cur t
    end.

Definition count_value (table : encoder) (frac : Z) (data : list Z) (t : tally) : option tally :=
  if zlen data =? 0 then Some t
  else
    '(prev, length) ← code_at table data 0 (zlen data);
    count_loop (Datatypes.length data) table frac data length prev
      (Tally (ta_count1 t) (ta_count2 t) (ta_row_touched t) (ta_touched_rows t) (ta_gain t + step_gain prev length)).

Fixpoint count_sample (table : encoder) (frac : Z) (sample : list (list Z)) (t : tally) : option tally :=
  match sample with
  | [] => Some t
  | v :: sample => t ← count_value table frac v t; count_sample table frac sample t
  end.

(** ** Candidates *)
Notation candidates := (gmap (Z * Z) Z).

Definition consider (frac : Z) (s : Z * Z) (count : Z) (cs : candidates) : candidates :=
  if count <? (5 * frac) / 128 then cs else <[s := u64 (default 0 (cs !! s) + count * s.2)]> cs.

(** A pair of symbols as one of at most 8 bytes. *)
Definition joined (s1 s2 : Z * Z) : Z * Z :=
  let length := Z.min 8 (s1.2 + s2.2) in
  (Z.land (Z.lor s1.1 (u64 (Z.shiftl s2.1 (8 * s1.2)))) (fsst_mask length), length).

Definition live_codes (table : encoder) : list Z :=
  seqZ 0 (e_symbol_count table) ++ List.map (fun b => kPseudo + b) (seqZ 0 256).

Fixpoint consider_pairs (table : encoder) (frac : Z) (t : tally) (c1 : Z) (s1 : Z * Z) (live : list Z) (cs : candidates) : option candidates :=
  match live with
  | [] => Some cs
  | c2 :: live =>
      let n2 := counter (ta_count2 t) (c1 * kCodes + c2) in
      if n2 =? 0 then consider_pairs table frac t c1 s1 live cs
      else
        s2 ← symbol_of table c2;
        consider_pairs table frac t c1 s1 live (consider frac (joined s1 s2) n2 cs)
  end.

Fixpoint consider_codes (table : encoder) (frac : Z) (t : tally) (live : list Z) (cs : candidates) : option candidates :=
  match live with
  | [] => Some cs
  | c1 :: rest =>
      let n1 := counter (ta_count1 t) c1 in
      if n1 =? 0 then consider_codes table frac t rest cs
      else
        s1 ← symbol_of table c1;
        let cs := consider frac s1 ((if s1.2 =? 1 then 8 else 1) * n1) cs in
        if (128 <=? frac) || (s1.2 =? 8) || negb (bool_decide (c1 ∈ ta_row_touched t))
        then consider_codes table frac t rest cs
        else
          cs ← consider_pairs table frac t c1 s1 (live_codes table) cs;
          consider_codes table frac t rest cs
  end.

(** The order of the candidates: by gain, then by value. *)
Definition ranked_before (a b : Z * (Z * Z)) : bool :=
  if negb (a.1 =? b.1) then b.1 <? a.1 else a.2.1 <? b.2.1.

Class SortsRanked (sort : list (Z * (Z * Z)) -> list (Z * (Z * Z))) : Prop := {
  ranked_perm l : sort l ≡ₚ l;
  ranked_sorted l : StronglySorted (fun a b => ranked_before b a = false) (sort l)
}.

Fixpoint add_ranked (ranked : list (Z * (Z * Z))) (table : encoder) : option encoder :=
  match ranked with
  | [] => Some table
  | (_, sym) :: ranked =>
      if e_symbol_count table =? kMaxSymbols then Some table
      else r ← fsst_add table sym.1 sym.2; add_ranked ranked r.1
  end.

(** ** The rounds *)
Definition kFractions : list Z := [8; 38; 68; 98; 108; 128].

Section Train.
Context (sort : list (Z * (Z * Z)) -> list (Z * (Z * Z))).

(** One round: the counts under the current table, the best table so far, the
    next table. *)
Definition train_round (sample : list (list Z)) (frac : Z) (table best : encoder) (best_gain : Z) (t : tally) :
    option (encoder * encoder * Z * tally) :=
  t ← count_sample table frac sample (clear_tally t);
  let '(best, best_gain) := if best_gain <=? ta_gain t then (table, ta_gain t) else (best, best_gain) in
  cs ← consider_codes table frac t (live_codes table) ∅;
  let ranked := sort ((fun p : Z * Z * Z => (p.2, p.1)) <$> map_to_list cs) in
  table ← add_ranked ranked (fsst_reset table);
  Some (table, best, best_gain, t).

Fixpoint train_rounds (sample : list (list Z)) (fracs : list Z) (table best : encoder) (best_gain : Z) (t : tally) : option encoder :=
  match fracs with
  | [] => Some best
  | frac :: fracs =>
      '(table, best, best_gain, t) ← train_round sample frac table best best_gain t;
      train_rounds sample fracs table best best_gain t
  end.

(** The loop over the 65536 two-byte words. *)
Fixpoint fill_entries (byte_codes : list Z) (w : Z) (short_codes : list Z) : option (list Z) :=
  match short_codes with
  | [] => Some []
  | two :: short_codes =>
      one ← zget byte_codes (Z.land w 0xFF);
      rest ← fill_entries byte_codes (w + 1) short_codes;
      Some (entry_of one two :: rest)
  end.

(** [train]: [Some None] is [false]. *)
Definition train (fuel : nat) (n : Z) (value_at : Z -> list Z) : option (option encoder) :=
  sample ← make_sample n value_at fuel;
  let table := fsst_reset empty_encoder in
  best ← train_rounds sample kFractions table table (- 2 ^ 63) (Tally ∅ ∅ ∅ [] 0);
  if e_symbol_count best =? 0 then Some None
  else
    entries ← fill_entries (e_byte_codes best) 0 (e_short_codes best);
    Some (Some (Encoder (e_symbol_count best) (e_symbols best) (e_lengths best) (e_byte_codes best) (e_short_codes best)
                  (e_long_codes best) entries)).
End Train.
