(* ===== verification/FsstSpecs.v ===== *)
(** * FSST: sampling ends, and training gives a table that round-trips

    The draws of [make_sample] run through every 64-bit number, so they meet a
    value that is not empty again and again; the trained encoder keeps the
    invariant, so what it compresses decodes to itself. *)
From stdpp Require Import gmap sorting.
From Stdlib Require Import Btauto.
From S2P Require Import Prelude Columnar LzCopy Snappy Views Fsst FsstEncode FsstCompress FsstTrain.

(** * FSST training: the table it builds

    Whatever the sample, [train] never leaves its arrays and the encoder it
    returns keeps the invariant [enc_ok]. *)

(** ** The empty table *)
Lemma reset_ok e : zlen (e_symbols e) = 255 -> zlen (e_lengths e) = 255 -> e_short_or_byte e = [] -> enc_ok (fsst_reset e).
Proof.
  intros Hs Hl He. split; unfold is_symbol, fsst_reset; cbn -[replicate Z.to_nat].
  - lia.
  - unfold kLongSlots. rewrite !zlen_replicate. split_and!; try done; lia.
  - intros; lia.
  - intros b c. change 256%nat with (Z.to_nat 256). rewrite zget_replicate. destruct (_ && _); intros [= <-]. by left.
  - intros b c. rewrite zget_replicate. destruct (_ && _); intros [= <-]. by left.
  - intros h s. rewrite zget_replicate. destruct (_ && _); intros [= <-]. by left.
  - intros; lia.
  - by left.
Qed.

(** ** Adding a symbol *)
Section Add.
Context (e : encoder) (value length : Z) (He : enc_ok e) (Hc : e_symbol_count e < 255) (Hn : 1 <= length <= 8)
  (Hv : 0 <= value < 2 ^ (8 * length)) (Hsob : e_short_or_byte e = []).
Local Abbreviation code := (e_symbol_count e).

(** The encoder with one more symbol and some lookups changed. *)
Lemma declared syms lens bc sc lc : zset (e_symbols e) code value = Some syms -> zset (e_lengths e) code (u8 length) = Some lens ->
  forall c v n, is_symbol (Encoder (code + 1) syms lens bc sc lc (e_short_or_byte e)) c v n <->
    is_symbol e c v n \/ (c = code /\ v = value /\ n = length).
Proof using All.
  intros Es El c v n. pose proof (eo_count e He). destruct (eo_sizes e He) as (Z1 & Z2 & _).
  destruct (zset_spec (e_symbols e) code value) as (s & Es' & _ & G1); [lia|]. destruct (zset_spec (e_lengths e) code (u8 length)) as (l & El' & _ & G2); [lia|].
  rewrite Es in Es'. rewrite El in El'. injection Es' as <-. injection El' as <-. rewrite (wrap_small 8 length) in G2 by lia.
  unfold is_symbol. cbn. rewrite G1, G2. destruct (Z.eqb_spec c code) as [->|Hne].
  - split; [intros (_ & [= <-] & [= <-]); by right|]. intros [(? & _)|(_ & -> & ->)]; [lia|]. split_and!; try done; lia.
  - split; [intros (? & ? & ?); left; split_and!; try done; lia|]. intros [(? & ? & ?)|(-> & _)]; [|done]. split_and!; try done; lia.
Qed.

Lemma declared_ok syms lens bc sc lc : zset (e_symbols e) code value = Some syms -> zset (e_lengths e) code (u8 length) = Some lens ->
  let e' := Encoder (code + 1) syms lens bc sc lc (e_short_or_byte e) in
  zlen bc = 256 -> zlen sc = 65536 -> zlen lc = 1024 ->
  (forall b c, zget bc b = Some c -> zget (e_byte_codes e) b = Some c \/ (c = code /\ b = value /\ length = 1)) ->
  (forall w c, zget sc w = Some c -> zget (e_short_codes e) w = Some c \/ (c = code /\ w = value /\ length = 2)) ->
  (forall h s, zget lc h = Some s -> zget (e_long_codes e) h = Some s \/ (s = Slot value length code /\ h = hash3 value /\ 3 <= length)) ->
  (forall v, zget (e_byte_codes e) v <> Some kNone -> zget bc v <> Some kNone) ->
  (forall v, zget (e_short_codes e) v <> Some kNone -> zget sc v <> Some kNone) ->
  (forall h s, zget (e_long_codes e) h = Some s -> s_length s <> 0 -> zget lc h = Some s) ->
  (length = 1 -> zget bc value <> Some kNone) -> (length = 2 -> zget sc value <> Some kNone) ->
  (3 <= length -> zget lc (hash3 value) = Some (Slot value length code)) ->
  enc_ok e'.
Proof using All.
  intros Es El e' Zb Zs Zl Hb Hs Hl Kb Ks Kl N1 N2 N3. pose proof (declared syms lens bc sc lc Es El) as D. fold e' in D. pose proof (eo_count e He) as Hct.
  destruct (eo_sizes e He) as (Z1 & Z2 & _).
  destruct (zset_spec (e_symbols e) code value) as (s & Es' & Zs1 & _); [lia|]. destruct (zset_spec (e_lengths e) code (u8 length)) as (l & El' & Zl1 & _); [lia|].
  rewrite Es in Es'. rewrite El in El'. injection Es' as <-. injection El' as <-. split; cbn [e' e_symbol_count e_symbols e_lengths e_byte_codes e_short_codes e_long_codes e_short_or_byte].
  - lia.
  - split_and!; lia.
  - intros c Hcc. destruct (decide (c = code)) as [->|Hne].
    + exists value, length. split_and!; try lia. apply D. by right.
    + destruct (eo_sym e He c ltac:(lia)) as (v & n & Hsym & Hr). exists v, n. split; [|done]. apply D. by left.
  - intros b c Hg. rewrite D. destruct (Hb b c Hg) as [Ho|(-> & -> & E1)]; [|right; by right]. destruct (eo_byte e He b c Ho); [by left|right; by left].
  - intros b c Hg. rewrite D. destruct (Hs b c Hg) as [Ho|(-> & -> & E1)]; [|right; by right]. destruct (eo_short e He b c Ho); [by left|right; by left].
  - intros h s Hg. rewrite D. destruct (Hl h s Hg) as [Ho|(-> & -> & H3)]; cbn [s_length s_code s_value].
    + destruct (eo_long e He h s Ho) as [|(? & ? & ?)]; [by left|right]. split_and!; first [done|lia|by left].
    + right. split_and!; first [done|lia|by right].
  - intros c v n. rewrite D. intros [Hsym|(-> & -> & ->)].
    + destruct (eo_all e He c v n Hsym) as (A1 & A2 & A3). split_and!; [intros E; by apply Kb, A1|intros E; by apply Ks, A2|].
      intros H3. destruct (A3 H3) as (s & Gs & Hsv & Hsl). exists s. split_and!; try done. apply Kl; [done|lia].
    + split_and!; try done. intros H3. exists (Slot value length code). by rewrite N3.
  - by left.
Qed.

Lemma add_ok : exists e' b, fsst_add e value length = Some (e', b) /\ enc_ok e' /\ e_short_or_byte e' = [] /\
  code <= e_symbol_count e' <= code + 1.
Proof using All.
  pose proof (eo_count e He) as Hct. destruct (eo_sizes e He) as (Z1 & Z2 & Z3 & Z4 & Z5).
  destruct (zset_spec (e_symbols e) code value) as (syms & Es & _ & _); [lia|]. destruct (zset_spec (e_lengths e) code (u8 length)) as (lens & El & _ & _); [lia|].
  unfold fsst_add. rewrite Es, El. cbn [mbind option_bind]. destruct (Z.eqb_spec length 1) as [E1|E1].
  - pose proof Hv as Hv1. rewrite E1 in Hv1. assert (Ew : Z.land value 0xFF = value) by (rewrite (land_low _ 8), wrap_small by (done || lia); done). rewrite Ew.
    destruct (zset_spec (e_byte_codes e) value (u16 code)) as (bc & -> & Zbc & G); [lia|]. rewrite (wrap_small 16 code) in G by lia. cbn [mbind option_bind].
    do 2 eexists. split; [reflexivity|]. split_and!; try done; cbn; try lia. apply declared_ok; try done; try lia.
    + intros b c. rewrite G. destruct (Z.eqb_spec b value) as [->|]; [intros [= <-]; by right|by left].
    + by left.
    + by left.
    + intros v Hk. rewrite G. unfold kNone in *. destruct (Z.eqb_spec v value); [intros [= ?]; lia|done].
    + rewrite G, Z.eqb_refl. unfold kNone. intros _ [= ?]. lia.
  - destruct (Z.eqb_spec length 2) as [E2|E2].
    + pose proof Hv as Hv1. rewrite E2 in Hv1. assert (Ew : Z.land value 0xFFFF = value) by (rewrite (land_low _ 16), wrap_small by (done || lia); done). rewrite Ew.
      destruct (zset_spec (e_short_codes e) value (u16 code)) as (bc & -> & Zbc & G); [lia|]. rewrite (wrap_small 16 code) in G by lia. cbn [mbind option_bind].
      do 2 eexists. split; [reflexivity|]. split_and!; try done; cbn; try lia. apply declared_ok; try done; try lia.
      * by left.
      * intros b c. rewrite G. destruct (Z.eqb_spec b value) as [->|]; [intros [= <-]; by right|by left].
      * by left.
      * intros v Hk. rewrite G. unfold kNone in *. destruct (Z.eqb_spec v value); [intros [= ?]; lia|done].
      * rewrite G, Z.eqb_refl. unfold kNone. intros _ [= ?]. lia.
    + pose proof (hash3_range value) as Hh. destruct (proj2 (zget_is_Some (e_long_codes e) (hash3 value))) as [s Hs]; [lia|]. rewrite Hs. cbn [mbind option_bind].
      destruct (Z.eqb_spec (s_length s) 0) as [E0|E0]; cbn [negb]; [|do 2 eexists; split; [reflexivity|]; split_and!; try done; lia].
      destruct (zset_spec (e_long_codes e) (hash3 value) (Slot value (u8 length) (u8 code))) as (lc & -> & Zlc & G); [lia|].
      rewrite (wrap_small 8 code), (wrap_small 8 length) in G by lia. cbn [mbind option_bind].
      do 2 eexists. split; [reflexivity|]. split_and!; try done; cbn; try lia. apply declared_ok; try done; try lia.
      * by left.
      * by left.
      * intros h s'. rewrite G. destruct (Z.eqb_spec h (hash3 value)) as [->|]; [intros [= <-]; right; split_and!; try done; lia|by left].
      * intros h s' Hg Hn0. rewrite G. destruct (Z.eqb_spec h (hash3 value)) as [->|]; [congruence|done].
      * intros _. by rewrite G, Z.eqb_refl.
Qed.
End Add.

(** ** Counting *)

(** A construction code: a symbol of the table, or an escaped byte. *)
Definition code_ok (e : encoder) (c : Z) : Prop := 0 <= c < e_symbol_count e \/ 256 <= c < 512.

(** A symbol's value and length, as the candidates carry them. *)
Definition sym_ok (s : Z * Z) : Prop := 1 <= s.2 <= 8 /\ 0 <= s.1 < 2 ^ (8 * s.2).

Section Count.
Context (e : encoder) (He : enc_ok e).

Lemma find_symbol data pos remaining code n : fsst_find e data pos remaining = Some (code, n) -> code <> kNone -> exists v, is_symbol e code v n.
Proof using He.
  unfold fsst_find. destruct (fsst_load data pos remaining) as [w|]; [|done]. cbn [mbind option_bind].
  destruct (if 3 <=? remaining then zget (e_long_codes e) (hash3 w) else Some (Slot 0 0 0)) as [s|] eqn:Es; [|done]. cbn [mbind option_bind].
  destruct ((3 <=? remaining) && negb (s_length s =? 0) && (s_length s <=? remaining) && (Z.land w (fsst_mask (s_length s)) =? s_value s)) eqn:Ec.
  { intros [= <- <-] _. destruct (Z.leb_spec 3 remaining); [|done].
    destruct (eo_long e He _ _ Es) as [E0|(_ & Hs & _)]; [by rewrite E0 in Ec|by eexists]. }
  destruct (if 2 <=? remaining then zget (e_short_codes e) (Z.land w 0xFFFF) else Some kNone) as [two|] eqn:Et; [|done]. cbn [mbind option_bind].
  destruct (Z.eqb_spec two kNone) as [E2|E2]; cbn [negb].
  - destruct (zget (e_byte_codes e) (Z.land w 0xFF)) as [one|] eqn:Eo; [|done]. intros [= <- <-] Hne. destruct (eo_byte e He _ _ Eo); [done|by eexists].
  - intros [= <- <-] _. destruct (Z.leb_spec 2 remaining); [|congruence]. destruct (eo_short e He _ _ Et); [done|by eexists].
Qed.

Lemma code_at_ok data pos : bytes_ok data -> 0 <= pos < zlen data ->
  exists c n, code_at e data pos (zlen data - pos) = Some (c, n) /\ code_ok e c /\ 1 <= n <= zlen data - pos.
Proof using He.
  intros Hd Hp. destruct (find_step e He data pos Hd Hp) as (code & n & Ef & Est & H1 & Hr). unfold code_at. rewrite Ef. cbn [mbind option_bind].
  assert (Hn : 1 <= n <= zlen data - pos).
  { destruct (greedy_step e He (zdrop pos data)) as (Hn & _); [by apply bytes_ok_zdrop| |].
    - intros E. assert (Hz : zlen (zdrop pos data) = 0) by (by rewrite E). rewrite zlen_zdrop in Hz by lia. lia.
    - rewrite Est in Hn. cbn [snd] in Hn. rewrite zlen_zdrop in Hn by lia. lia. }
  destruct (Z.eqb_spec code kNone) as [Ec|Ec].
  - destruct (proj2 (zget_is_Some data pos)) as [b Eb]; [lia|]. rewrite Eb. cbn [mbind option_bind]. pose proof (zget_byte _ _ _ Hd Eb) as Hb.
    unfold is_byte in Hb. exists (u16 (kPseudo + b)), n. split_and!; try done; try lia. right. unfold kPseudo. rewrite wrap_small by lia. lia.
  - exists code, n. split_and!; try done; try lia. destruct (find_symbol _ _ _ _ _ Ef Ec) as (v & Hs & _). by left.
Qed.

Lemma symbol_of_ok c : code_ok e c -> exists s, symbol_of e c = Some s /\ sym_ok s.
Proof using He.
  pose proof (eo_count e He). intros [Hc|Hc]; unfold symbol_of, kPseudo.
  - destruct (Z.leb_spec 256 c); [lia|]. destruct (eo_sym e He c Hc) as (v & n & (_ & -> & ->) & Hn & Hv). exists (v, n). by split_and!.
  - destruct (Z.leb_spec 256 c); [|lia]. exists (c - 256, 1). split; [done|]. split; cbn; lia.
Qed.

Lemma bump_ok size c i : 0 <= i < size -> exists c', bump size c i = Some c'.
Proof using. intros Hi. unfold bump. destruct (Z.leb_spec 0 i), (Z.ltb_spec i size); try lia. eauto. Qed.

Lemma code_ok_512 c : code_ok e c -> 0 <= c < 512.
Proof using He. pose proof (eo_count e He). unfold code_ok. lia. Qed.

Lemma count_pair_ok frac prev cur n b t : code_ok e prev -> code_ok e cur -> is_byte b -> exists t', count_pair frac prev cur n b t = Some t'.
Proof using He.
  intros Hp%code_ok_512 Hc%code_ok_512 Hb. unfold is_byte in Hb. unfold count_pair, kCodes, kPseudo. destruct (frac <? 128); [|eauto].
  destruct (decide _).
  all: destruct (bump_ok (512 * 512) (ta_count2 t) (prev * 512 + cur)) as [c2 ->]; [lia|]; cbn [mbind option_bind];
    destruct (1 <? n); [destruct (bump_ok (512 * 512) c2 (prev * 512 + 256 + b)) as [c3 ->]; [lia|]|]; cbn [mbind option_bind]; eauto.
Qed.

Lemma count_loop_ok frac data : bytes_ok data -> forall fuel pos prev t, 0 <= pos -> code_ok e prev -> zlen data - pos <= Z.of_nat fuel ->
  exists t', count_loop fuel e frac data pos prev t = Some t'.
Proof using He.
  intros Hd. induction fuel as [|fuel IH]; intros pos prev t Hp Hc Hf; cbn [count_loop]; destruct (Z.leb_spec (zlen data) pos) as [Hend|Hgo].
  1, 3: destruct (bump_ok kCodes (ta_count1 t) prev) as [c1 ->]; [by apply code_ok_512|]; cbn [mbind option_bind]; eauto.
  { lia. }
  destruct (proj2 (zget_is_Some data pos)) as [b Eb]; [lia|]. rewrite Eb. cbn [mbind option_bind]. pose proof (zget_byte _ _ _ Hd Eb) as Hb.
  destruct (bump_ok kCodes (ta_count1 t) prev) as [c1 ->]; [by apply code_ok_512|]. cbn [mbind option_bind].
  destruct (symbol_of_ok prev Hc) as (s & -> & _). cbn [mbind option_bind].
  assert (Hb1 : exists c1', (if negb (s.2 =? 1) then bump kCodes c1 (kPseudo + b) else Some c1) = Some c1').
  { destruct (negb (s.2 =? 1)); [|eauto]. apply bump_ok. unfold is_byte, kPseudo, kCodes in *. lia. }
  destruct Hb1 as [c1' ->]. cbn [mbind option_bind]. destruct (code_at_ok data pos Hd) as (cur & n & -> & Hcur & Hn); [lia|]. cbn [mbind option_bind].
  destruct (count_pair_ok frac prev cur n b (Tally c1' (ta_count2 t) (ta_row_touched t) (ta_touched_rows t) (ta_gain t + step_gain cur n)) Hc Hcur Hb) as [t' ->].
  cbn [mbind option_bind]. apply IH; [lia|done|lia].
Qed.

Lemma count_sample_ok frac sample : Forall (Forall is_byte) sample -> forall t, exists t', count_sample e frac sample t = Some t'.
Proof using He.
  induction 1 as [|v sample Hv _ IH]; intros t; cbn [count_sample]; [eauto|].
  assert (Hc : exists t', count_value e frac v t = Some t'); [|destruct Hc as [t' ->]; cbn [mbind option_bind]; apply IH].
  unfold count_value. pose proof (zlen_nonneg v). destruct (Z.eqb_spec (zlen v) 0) as [|Hv0]; [eauto|].
  destruct (code_at_ok v 0 Hv) as (c & n & E & Hc & Hn); [lia|]. rewrite Z.sub_0_r in E. rewrite E. cbn [mbind option_bind].
  apply count_loop_ok; try done; [lia|]. unfold zlen in *. lia.
Qed.

(** ** Candidates *)
Definition cands_ok (cs : gmap (Z * Z) Z) : Prop := forall s g, cs !! s = Some g -> sym_ok s.

Lemma consider_ok frac s k cs : sym_ok s -> cands_ok cs -> cands_ok (consider frac s k cs).
Proof using.
  intros Hs Hcs s' g. unfold consider. destruct (k <? _); [apply Hcs|]. destruct (decide (s' = s)) as [->|Hne]; [done|].
  rewrite lookup_insert_ne by done. apply Hcs.
Qed.

Lemma joined_ok s1 s2 : sym_ok s1 -> sym_ok s2 -> s1.2 <> 8 -> sym_ok (joined s1 s2).
Proof using.
  destruct s1 as [v1 n1], s2 as [v2 n2]. unfold sym_ok, joined. cbn. intros [Hn1 Hv1] [Hn2 Hv2] Hne. split; [lia|].
  set (n := Z.min 8 (n1 + n2)). assert (Hn : 1 <= n <= 8) by lia.
  assert (Hr : 0 <= Z.lor v1 (u64 (Z.shiftl v2 (8 * n1))) < 2 ^ 64).
  { apply lor_range; [lia| |apply wrap_range; lia]. split; [lia|]. apply Z.lt_le_trans with (2 ^ (8 * n1)); [lia|]. apply Z.pow_le_mono_r; lia. }
  rewrite fsst_mask_spec by (done || lia). apply wrap_range. lia.
Qed.

Lemma live_codes_ok : Forall (code_ok e) (live_codes e).
Proof using.
  apply Forall_app. split; apply Forall_forall; intros c Hc.
  - apply elem_of_seqZ in Hc. left. lia.
  - apply list_elem_of_In, in_map_iff in Hc as (b & <- & Hb%in_seqZ). right. unfold kPseudo. lia.
Qed.

Lemma consider_pairs_ok frac t c1 s1 live : sym_ok s1 -> s1.2 <> 8 -> Forall (code_ok e) live -> forall cs, cands_ok cs ->
  exists cs', consider_pairs e frac t c1 s1 live cs = Some cs' /\ cands_ok cs'.
Proof using He.
  intros Hs1 H8. induction 1 as [|c2 live Hc2 _ IH]; intros cs Hcs; cbn [consider_pairs]; [eauto|].
  destruct (counter (ta_count2 t) (c1 * kCodes + c2) =? 0); [by apply IH|].
  destruct (symbol_of_ok c2 Hc2) as (s2 & -> & Hs2). cbn [mbind option_bind]. apply IH, consider_ok; [by apply joined_ok|done].
Qed.

Lemma consider_codes_ok frac t live : Forall (code_ok e) live -> forall cs, cands_ok cs ->
  exists cs', consider_codes e frac t live cs = Some cs' /\ cands_ok cs'.
Proof using He.
  induction 1 as [|c1 live Hc1 _ IH]; intros cs Hcs; cbn [consider_codes]; [eauto|].
  destruct (counter (ta_count1 t) c1 =? 0); [by apply IH|].
  destruct (symbol_of_ok c1 Hc1) as (s1 & -> & Hs1). cbn [mbind option_bind].
  pose proof (consider_ok frac s1 ((if s1.2 =? 1 then 8 else 1) * counter (ta_count1 t) c1) cs Hs1 Hcs) as Hcs1.
  destruct (Z.eqb_spec (s1.2) 8) as [E8|E8]; [rewrite orb_true_r; cbn [orb]; by apply IH|].
  destruct ((128 <=? frac) || false || negb (bool_decide (c1 ∈ ta_row_touched t))); [by apply IH|].
  destruct (consider_pairs_ok frac t c1 s1 (live_codes e) Hs1 E8 live_codes_ok _ Hcs1) as (cs' & -> & Hcs'). cbn [mbind option_bind]. by apply IH.
Qed.
End Count.

(** ** The rounds *)
Lemma add_ranked_ok ranked : Forall (fun p : Z * (Z * Z) => sym_ok p.2) ranked -> forall e, enc_ok e -> e_short_or_byte e = [] ->
  exists e', add_ranked ranked e = Some e' /\ enc_ok e' /\ e_short_or_byte e' = [].
Proof.
  induction 1 as [|[g [v n]] ranked [Hn Hv] _ IH]; intros e He Hs; cbn [add_ranked]; [eauto|]. cbn in Hn, Hv.
  pose proof (eo_count e He). unfold kMaxSymbols. destruct (Z.eqb_spec (e_symbol_count e) 255); [eauto|].
  destruct (add_ok e v n He ltac:(lia) Hn Hv Hs) as (e' & b & E & He' & Hs' & _). cbn [fst snd]. rewrite E. cbn [mbind option_bind fst]. by apply IH.
Qed.

Definition trained (e : encoder) : Prop := enc_ok e /\ e_short_or_byte e = [].

Section Rounds.
Context (sort : list (Z * (Z * Z)) -> list (Z * (Z * Z))) `{!SortsRanked sort} (sample : list (list Z)) (Hsample : Forall (Forall is_byte) sample).

Lemma train_round_ok frac table best g t : trained table -> trained best ->
  exists table' best' g' t', train_round sort sample frac table best g t = Some (table', best', g', t') /\ trained table' /\ trained best'.
Proof using All.
  intros [Ht Hts] Hb. unfold train_round. destruct (count_sample_ok table Ht frac sample Hsample (clear_tally t)) as [t1 ->]. cbn [mbind option_bind].
  assert (Hb' : trained (if g <=? ta_gain t1 then (table, ta_gain t1) else (best, g)).1) by (by destruct (g <=? ta_gain t1)).
  destruct (if g <=? ta_gain t1 then (table, ta_gain t1) else (best, g)) as [best' g']. cbn [fst] in Hb'.
  destruct (consider_codes_ok table Ht frac t1 (live_codes table) (live_codes_ok table) ∅) as (cs & -> & Hcs); [intros s gg; by rewrite lookup_empty|]. cbn [mbind option_bind].
  destruct (eo_sizes table Ht) as (Z1 & Z2 & _).
  destruct (add_ranked_ok (sort ((fun p : Z * Z * Z => (p.2, p.1)) <$> map_to_list cs))) with (e := fsst_reset table) as (e' & -> & He' & Hs').
  - rewrite ranked_perm. apply Forall_fmap, Forall_forall. intros [s gg] Hin. apply elem_of_map_to_list in Hin. by apply (Hcs s gg).
  - by apply reset_ok.
  - done.
  - cbn [mbind option_bind]. by exists e', best', g', t1.
Qed.

Lemma train_rounds_ok fracs : forall table best g t, trained table -> trained best ->
  exists best', train_rounds sort sample fracs table best g t = Some best' /\ trained best'.
Proof using All.
  induction fracs as [|f fracs IH]; intros table best g t Ht Hb; cbn [train_rounds]; [eauto|].
  destruct (train_round_ok f table best g t Ht Hb) as (table' & best' & g' & t' & E & Ht' & Hb'). rewrite E. cbn [mbind option_bind]. by apply IH.
Qed.
End Rounds.

(** * FSST: the serialized table and the round trip

    [serialize] writes the table [parse_symbol_table] reads, and decoding under
    it undoes compression, for every encoder that keeps its invariant. *)

Lemma zget_concat_uniform (ls : list (list Z)) n c l : 0 <= n -> Forall (fun l => zlen l = n) ls -> zget ls c = Some l ->
  ztake n (zdrop (n * c) (concat ls)) = l.
Proof.
  intros Hn Hall. revert c. induction Hall as [|l0 ls Hl0 Hall IH]; intros c Hc; [by apply zget_Some_range in Hc as Hr; change (@zlen (list Z) []) with 0 in Hr; lia|].
  pose proof (zget_Some_range _ _ _ Hc) as Hr. cbn [concat]. destruct (decide (c = 0)) as [->|Hne].
  - cbn in Hc. injection Hc as ->. rewrite Z.mul_0_r, zdrop_0. by apply ztake_app.
  - rewrite zdrop_app_r by nia. rewrite Hl0. replace (n * c - n) with (n * (c - 1)) by lia. apply IH.
    change (l0 :: ls) with ([l0] ++ ls) in Hc. rewrite zget_app_r in Hc by (change (zlen [l0]) with 1; lia). exact Hc.
Qed.

Lemma zlen_concat_uniform (ls : list (list Z)) n : Forall (fun l => zlen l = n) ls -> zlen (concat ls) = n * zlen ls.
Proof. induction 1 as [|l ls Hl _ IH]; [change (@zlen (list Z) []) with 0; change (zlen (concat [])) with 0; lia|]. cbn [concat]. rewrite zlen_app, zlen_cons. lia. Qed.

Lemma ztake_le_bytes n : forall m v, 0 <= n <= Z.of_nat m -> ztake n (le_bytes m v) = le_bytes (Z.to_nat n) v.
Proof.
  intros m v Hn. unfold ztake. remember (Z.to_nat n) as k eqn:Ek. assert (Hk : (k <= m)%nat) by lia. clear Ek Hn n.
  revert m v Hk. induction k as [|k IH]; intros m v Hk; [by destruct m|]. destruct m as [|m]; [lia|]. cbn [le_bytes take]. f_equal. apply IH. lia.
Qed.

Lemma zlen_le_bytes n v : zlen (le_bytes n v) = Z.of_nat n.
Proof. unfold zlen. by rewrite length_le_bytes. Qed.

Lemma zlen_symbol_words l : zlen (concat (le_bytes 8 <$> l)) = 8 * zlen l.
Proof.
  rewrite (zlen_concat_uniform _ 8); [unfold zlen; by rewrite length_fmap|].
  apply Forall_fmap, Forall_forall. intros x _. exact (zlen_le_bytes 8 x).
Qed.

Section Serialize.
Context (e : encoder) (He : enc_ok e).
Local Abbreviation count := (e_symbol_count e).

Lemma put_symbols_spec n : forall i out a, 0 <= i -> i + Z.of_nat n <= 255 -> produced out (a ++ concat (le_bytes 8 <$> ztake i (e_symbols e))) ->
  zlen a + 8 * (i + Z.of_nat n) <= zlen out ->
  exists out', put_symbols n e i out (zlen a + 8 * i) = Some (out', zlen a + 8 * (i + Z.of_nat n)) /\
    produced out' (a ++ concat (le_bytes 8 <$> ztake (i + Z.of_nat n) (e_symbols e))) /\ kept_from (zlen a + 8 * (i + Z.of_nat n)) out out'.
Proof using He.
  induction n as [|n IH]; intros i out a Hi Hn Hp Hr; cbn [put_symbols].
  { rewrite Nat2Z.inj_0, Z.add_0_r in *. exists out. by split_and!. }
  destruct (proj2 (zget_is_Some (e_symbols e) i)) as [v Ev]; [destruct (eo_sizes e He) as (-> & _); lia|]. rewrite Ev. cbn [mbind option_bind]. unfold put64.
  assert (Hza : zlen (a ++ concat (le_bytes 8 <$> ztake i (e_symbols e))) = zlen a + 8 * i).
  { rewrite zlen_app, zlen_symbol_words, zlen_ztake by lia. destruct (eo_sizes e He) as (-> & _). lia. }
  destruct (store_kept out _ (le_bytes 8 v) Hp) as (o1 & E1 & P1 & K1); [rewrite Hza, zlen_le_bytes; lia|].
  rewrite Hza in E1, K1. rewrite E1. cbn [mbind option_bind]. change (zlen (le_bytes 8 v)) with 8 in K1.
  replace (zlen a + 8 * i + 8) with (zlen a + 8 * (i + 1)) in * by lia.
  destruct (IH (i + 1) o1 a) as (o2 & E2 & P2 & K2); [lia|lia| |destruct K1; lia|].
  { rewrite (ztake_next _ _ v Ev), fmap_app, concat_app, app_assoc. change (concat (le_bytes 8 <$> [v])) with (le_bytes 8 v ++ []). by rewrite app_nil_r. }
  replace (i + Z.of_nat (S n)) with (i + 1 + Z.of_nat n) by lia. exists o2. split_and!; try done. eapply kept_trans; [|exact K1|exact K2]. lia.
Qed.

Lemma put_lengths_spec n : forall i out a, 0 <= i -> i + Z.of_nat n <= 255 -> produced out (a ++ ztake i (e_lengths e)) ->
  zlen a + (i + Z.of_nat n) <= zlen out ->
  exists out', put_lengths n e i out (zlen a + i) = Some out' /\ produced out' (a ++ ztake (i + Z.of_nat n) (e_lengths e)) /\
    kept_from (zlen a + (i + Z.of_nat n)) out out'.
Proof using He.
  induction n as [|n IH]; intros i out a Hi Hn Hp Hr; cbn [put_lengths].
  { rewrite Nat2Z.inj_0, !Z.add_0_r in *. exists out. by split_and!. }
  destruct (proj2 (zget_is_Some (e_lengths e) i)) as [v Ev]; [destruct (eo_sizes e He) as (_ & -> & _); lia|]. rewrite Ev. cbn [mbind option_bind].
  assert (Hza : zlen (a ++ ztake i (e_lengths e)) = zlen a + i) by (rewrite zlen_app, zlen_ztake by lia; destruct (eo_sizes e He) as (_ & -> & _); lia).
  destruct (store_kept out _ [v] Hp) as (o1 & E1 & P1 & K1); [rewrite Hza; change (zlen [v]) with 1; lia|].
  rewrite Hza in E1, K1. rewrite E1. cbn [mbind option_bind]. change (zlen [v]) with 1 in K1.
  replace (zlen a + i + 1) with (zlen a + (i + 1)) in * by lia.
  destruct (IH (i + 1) o1 a) as (o2 & E2 & P2 & K2); [lia|lia| |destruct K1; lia|].
  { rewrite (ztake_next _ _ v Ev). by rewrite app_assoc. }
  replace (i + Z.of_nat (S n)) with (i + 1 + Z.of_nat n) by lia. exists o2. split_and!; try done. eapply kept_trans; [|exact K1|exact K2]. lia.
Qed.

Lemma header_fields : let h := Z.lor (Z.lor kMagic kEncoderSwitchBit) count in
  0 <= h < 2 ^ 64 /\ Z.land h kMagic = kMagic /\ Z.land h kEncoderSwitchBit <> 0 /\ Z.land h 0xFF = count.
Proof using He.
  set (P c := let h := Z.lor (Z.lor kMagic kEncoderSwitchBit) c in
    (0 <=? h) && (h <? 2 ^ 64) && (Z.land h kMagic =? kMagic) && negb (Z.land h kEncoderSwitchBit =? 0) && (Z.land h 0xFF =? c)).
  assert (HP : P count = true) by (apply byte_forall; [vm_compute; reflexivity|pose proof (eo_count e He); unfold is_byte; lia]).
  unfold P in HP. repeat (apply andb_true_iff in HP as [HP ?]). cbv zeta. split_and!; lia.
Qed.

Lemma serialize_spec : exists b t, serialize e = Some b /\ bytes_ok b /\ parse_symbol_table b = Some (inl t) /\ fsst_table_ok t /\
  t_passthrough t = false /\ forall c, 0 <= c -> symbol_bytes t c = enc_sym e c.
Proof using He.
  pose proof (eo_count e He) as Hc. pose proof header_fields as (Hh & Hmag & Hsw & Hcnt). set (h := Z.lor (Z.lor kMagic kEncoderSwitchBit) count) in *.
  destruct (eo_sizes e He) as (Ssym & Slen & _). unfold serialize, put64. fold h. set (zeros := replicate (Z.to_nat kSymbolTableBytes) 0).
  assert (Zz : zlen zeros = kSymbolTableBytes) by (unfold zeros; by rewrite zlen_replicate). unfold kSymbolTableBytes in Zz.
  assert (P0 : produced zeros []) by (split; [change (@zlen Z []) with 0; lia|done]).
  destruct (store_kept zeros [] (le_bytes 8 h) P0) as (o1 & E1 & P1 & K1); [rewrite zlen_le_bytes; change (@zlen Z []) with 0; lia|].
  change (@zlen Z []) with 0 in E1, K1. rewrite E1. cbn [mbind option_bind]. cbn [app] in P1. rewrite zlen_le_bytes in K1.
  assert (H8 : zlen (le_bytes 8 h) = 8) by apply zlen_le_bytes.
  destruct (put_symbols_spec (Z.to_nat count) 0 o1 (le_bytes 8 h)) as (o2 & E2 & P2 & K2); [lia|lia|rewrite ztake_0; cbn [concat fmap list_fmap]; by rewrite app_nil_r|destruct K1; lia|].
  rewrite H8, Z.mul_0_r, !Z.add_0_r, !Z.add_0_l, Z2Nat.id in * by lia. rewrite E2. cbn [mbind option_bind].
  set (a := le_bytes 8 h ++ concat (le_bytes 8 <$> ztake count (e_symbols e))) in *.
  assert (Za : zlen a = 8 + 8 * count) by (unfold a; rewrite zlen_app, zlen_symbol_words, zlen_ztake, H8 by lia; lia).
  destruct (put_lengths_spec (Z.to_nat count) 0 o2 a) as (b & E3 & P3 & K3); [lia|lia|by rewrite ztake_0, app_nil_r|destruct K1, K2; lia|].
  rewrite Za, !Z.add_0_r, Z.add_0_l, Z2Nat.id in * by lia. rewrite E3.
  assert (Kb : kept_from (8 + 8 * count + count) zeros b) by (eapply kept_trans; [|eapply kept_trans; [|exact K1|exact K2]|exact K3]; lia).
  destruct Kb as [Zb Db]. assert (Hb : bytes_ok b).
  { rewrite <- (ztake_zdrop (8 + 8 * count + count) b), (Db (8 + 8 * count + count) (Z.le_refl _)). apply Forall_app. split; [|apply bytes_ok_zdrop, bytes_ok_zeros].
    destruct P3 as [_ P3]. rewrite zlen_app, zlen_ztake, Za in P3 by lia. replace (8 + 8 * count + Z.min count (zlen (e_lengths e))) with (8 + 8 * count + count) in P3 by lia.
    rewrite P3. apply Forall_app. split; [apply Forall_app; split; [apply le_bytes_ok|]|].
    - apply Forall_concat, Forall_fmap, Forall_forall. intros x _. apply le_bytes_ok.
    - apply Forall_forall. intros x Hx. apply list_elem_of_lookup in Hx as [i Hi]. apply lookup_take_Some in Hi as [Hi Hlt].
      destruct (eo_sym e He (Z.of_nat i)) as (v & n & (_ & _ & Hn) & Hr & _); [lia|]. unfold zget in Hn. destruct (Z.ltb_spec (Z.of_nat i) 0); [lia|].
      rewrite Nat2Z.id, Hi in Hn. injection Hn as ->. unfold is_byte. lia. }
  assert (Hpre : forall k n, 0 <= k -> 0 <= n -> k + n <= 8 + 8 * count -> ztake n (zdrop k b) = ztake n (zdrop k a)).
  { intros k n Hk Hn Hkn. apply produced_prefix in P3. by apply produced_slice; rewrite ?Za. }
  assert (Hhd : table_header b = h).
  { unfold table_header. pose proof (Hpre 0 8) as Hp8. rewrite !zdrop_0 in Hp8. rewrite Hp8 by lia. unfold a. rewrite ztake_app by done.
    rewrite le_val_le_bytes. by apply wrap_small. }
  destruct (parse_symbol_table_spec b) as [_ Hparse]; [by rewrite Zb|done|]. rewrite Hhd in Hparse. destruct (Hparse Hmag) as (r & Er & Hr).
  assert (Hct : table_count b = count) by (unfold table_count; by rewrite Hhd). rewrite Hct in Hr.
  assert (Hlens : forall c, 0 <= c < count -> zget b (8 + 8 * count + c) = zget (e_lengths e) c).
  { intros c Hcc. rewrite (produced_get b _ _ P3) by (rewrite zlen_app, zlen_ztake, Za by lia; lia).
    rewrite zget_app_r by lia. rewrite Za. replace (8 + 8 * count + c - (8 + 8 * count)) with c by lia. apply zget_ztake. lia. }
  destruct r as [t|[what p]].
  2: { destruct Hr as (_ & Hp & (x & Ex & Hx) & _). replace p with (8 + 8 * count + (p - (8 + 8 * count))) in Ex by lia. rewrite Hlens in Ex by lia.
       destruct (eo_sym e He (p - (8 + 8 * count))) as (v & n & (_ & _ & Hn) & Hr & _); [lia|]. rewrite Hn in Ex. injection Ex as ->. lia. }
  destruct Hr as (Ht & Hpass & Hcnt' & Hg). exists b, t. split_and!; try done.
  - rewrite Hpass. by apply Z.eqb_neq.
  - intros c Hc0. unfold enc_sym. destruct (Z.leb_spec 0 c); [|lia]. destruct (Z.ltb_spec c count) as [Hlt|Hge]; cbn [andb].
    2: { unfold symbol_bytes. by destruct (Z.ltb_spec c (t_symbol_count t)); [lia|]. }
    destruct (Hg c ltac:(lia)) as [Hs Hl]. rewrite Hlens in Hl by lia.
    destruct (eo_sym e He c ltac:(lia)) as (v & n & (_ & Hv & Hn) & Hr & _). rewrite Hv, Hn in *.
    rewrite (symbol_bytes_spec t c _ n) by (try done; lia). f_equal. rewrite Hpre by lia. unfold a. rewrite zdrop_app_r by lia. rewrite H8.
    replace (8 + 8 * c - 8) with (8 * c) by lia. rewrite (zget_concat_uniform _ 8 c (le_bytes 8 v)); [by apply ztake_le_bytes; lia|lia| |].
    + apply Forall_fmap, Forall_forall. intros x _. exact (zlen_le_bytes 8 x).
    + unfold zget in *. destruct (Z.ltb_spec c 0); [lia|]. rewrite list_lookup_fmap. unfold ztake. rewrite lookup_take_lt by lia. by rewrite Hv.
Qed.

(** Expanding a greedy tokenization gives the bytes back. *)
Lemma expand_greedy sym : (forall c, 0 <= c -> sym c = enc_sym e c) -> forall l codes, greedy e l codes -> forall i, expand sym i codes = inl l.
Proof using He.
  intros Hsym l codes. induction 1 as [|c s l codes Hs _ Hg IH|b l codes _ Hg IH]; intros i; cbn [expand].
  - done.
  - destruct (enc_sym_inv e He c s Hs) as (v & n & His & _). destruct (is_symbol_range e He c v n His) as (Hc & _). unfold kEscape.
    destruct (Z.eqb_spec c 255); [lia|]. rewrite Hsym, Hs, IH by lia. done.
  - rewrite Z.eqb_refl, IH. done.
Qed.

(** Serialize, parse, compress, decode. *)
Lemma round_trip data : bytes_ok data -> zlen data < 2 ^ 55 ->
  exists b t codes, serialize e = Some b /\ parse_symbol_table b = Some (inl t) /\ compress e data [] = Some codes /\
    greedy e data codes /\ zlen codes <= 2 * zlen data /\
    forall out, max_decoded_size (zlen codes) <= zlen out ->
      exists out', decode t codes out = Some (out', Produced (zlen data)) /\ ztake (zlen data) out' = data.
Proof using He.
  intros Hd Hz. destruct serialize_spec as (b & t & Hs & Hb & Hp & Ht & Hpass & Hsym).
  destruct (compress_spec e He data [] Hd ltac:(lia)) as (codes & Hc & Hg & Hzc & Hbc). exists b, t, codes. split_and!; try done.
  intros out Hroom. pose proof (zlen_nonneg codes). unfold max_decoded_size, kMaxSymbolLength in Hroom. rewrite wrap_small in Hroom by lia.
  destruct (decode_spec t Ht codes out Hbc ltac:(lia)) as (out' & _ & _ & Hdec & Hv).
  assert (Hden : denoted t codes = inl data) by (unfold denoted; rewrite Hpass; by apply expand_greedy).
  rewrite Hden in Hdec. destruct (Z.ltb_spec (zlen out) (8 * zlen codes + 8)); [lia|]. exists out'. split; [done|]. apply Hv; [lia|done].
Qed.
End Serialize.

(** ** The generator *)

Lemma xorshift_surj k y : 22 <= k -> 0 <= y < 2 ^ 64 -> exists x, 0 <= x < 2 ^ 64 /\ Z.lxor x (Z.shiftr x k) = y.
Proof.
  intros Hk Hy. exists (Z.lxor y (Z.lxor (Z.shiftr y k) (Z.shiftr y (2 * k)))). split.
  - repeat apply lxor_range; try lia; apply shiftr_range; lia.
  - apply Z.bits_inj'. intros j Hj. rewrite !Z.lxor_spec, !Z.shiftr_spec, !Z.lxor_spec, !Z.shiftr_spec by lia.
    rewrite (testbit_above y 64 (j + k + 2 * k)) by lia. replace (j + k + k) with (j + 2 * k) by lia. btauto.
Qed.

Lemma odd_mul_surj c d y : u64 (c * d) = 1 -> 0 <= y < 2 ^ 64 -> exists x, 0 <= x < 2 ^ 64 /\ u64 (x * c) = y.
Proof.
  intros Hcd Hy. exists (u64 (y * d)). split; [apply wrap_range; lia|]. unfold wrap in *. rewrite Zmult_mod_idemp_l.
  replace (y * d * c) with (y * (c * d)) by lia. rewrite Zmult_mod, Hcd, Z.mul_1_r, Z.mod_mod by lia. by apply Z.mod_small.
Qed.

Lemma splitmix_surj y : 0 <= y < 2 ^ 64 -> exists s, 0 <= s < 2 ^ 64 /\ splitmix s = y.
Proof.
  intros Hy. destruct (xorshift_surj 31 y ltac:(lia) Hy) as (z3 & H3 & E3).
  destruct (odd_mul_surj 0x94D049BB133111EB 3573116690164977347 z3 ltac:(vm_compute; reflexivity) H3) as (z2' & H2' & E2').
  destruct (xorshift_surj 27 z2' ltac:(lia) H2') as (z2 & H2 & E2).
  destruct (odd_mul_surj 0xBF58476D1CE4E5B9 10871156337175269513 z2 ltac:(vm_compute; reflexivity) H2) as (z1' & H1' & E1').
  destruct (xorshift_surj 30 z1' ltac:(lia) H1') as (z1 & H1 & E1).
  exists z1. split; [done|]. unfold splitmix. by rewrite E1, E1', E2, E2', E3.
Qed.

(** The state after [k] draws. *)
Lemma state_reaches st s : 0 <= s < 2 ^ 64 -> exists k, 1 <= k <= 2 ^ 64 /\ u64 (st + k * kGamma) = s.
Proof.
  intros Hs. destruct (odd_mul_surj kGamma 17428512612931826493 (u64 (s - st)) ltac:(vm_compute; reflexivity)) as (k & Hk & Ek); [apply wrap_range; lia|].
  assert (Hks : forall j, u64 (j * kGamma) = u64 (s - st) -> u64 (st + j * kGamma) = s).
  { intros j Ej. unfold wrap in *. rewrite <- Zplus_mod_idemp_r, Ej, Zplus_mod_idemp_r. replace (st + (s - st)) with s by lia. by apply Z.mod_small. }
  destruct (decide (k = 0)) as [->|Hne]; [|exists k; split; [lia|by apply Hks]].
  exists (2 ^ 64). split; [lia|]. apply Hks. rewrite <- Ek. unfold wrap. rewrite Z.mul_comm, Z.mod_mul, Z.mul_0_l by lia. done.
Qed.

(** ** The sample *)
Section Sample.
Context (n : Z) (value_at : Z -> list Z).
Context (Hn : 0 <= n < 2 ^ 64) (Hsize : forall i, 0 <= i < n -> zlen (value_at i) < 2 ^ 60).

Lemma sample_step fuel st taken : sample_loop n value_at (S fuel) st taken =
  if kSampleTarget <=? taken then Some []
  else rest ← sample_loop n value_at fuel (u64 (st + kGamma)) (u64 (taken + zlen (value_at (splitmix (u64 (st + kGamma)) mod n))));
       Some (value_at (splitmix (u64 (st + kGamma)) mod n) :: rest).
Proof using. done. Qed.

(** A draw that is not empty comes within 2^64 draws. *)
Lemma sample_walk k : forall st taken fuel, 0 <= taken -> 0 < n ->
  value_at (splitmix (u64 (st + Z.of_nat (S k) * kGamma)) mod n) <> [] ->
  (forall taken', taken + 1 <= taken' -> is_Some (sample_loop n value_at fuel (u64 (st + Z.of_nat (S k) * kGamma)) taken')) ->
  is_Some (sample_loop n value_at (S k + fuel) st taken).
Proof using Hsize.
  induction k as [|k IH]; intros st taken fuel Ht Hn0 Hv Hrest; rewrite Nat.add_succ_l, sample_step; destruct (Z.leb_spec kSampleTarget taken) as [|Hlt]; try (by eexists).
  all: change kSampleTarget with 16384 in Hlt; set (v := value_at (splitmix (u64 (st + kGamma)) mod n)) in *;
    assert (Hzv : 0 <= zlen v < 2 ^ 60) by (split; [apply zlen_nonneg|apply Hsize, Z.mod_pos_bound; lia]); rewrite (wrap_small 64 (taken + zlen v)) by lia.
  - rewrite Nat.add_0_l. replace (st + Z.of_nat 1 * kGamma) with (st + kGamma) in * by lia. fold v in Hv.
    destruct (Hrest (taken + zlen v)) as [r ->]; [|by eexists]. destruct v; [done|]. rewrite zlen_cons. pose proof (zlen_nonneg v). lia.
  - assert (Est : u64 (u64 (st + kGamma) + Z.of_nat (S k) * kGamma) = u64 (st + Z.of_nat (S (S k)) * kGamma)).
    { unfold wrap. rewrite Zplus_mod_idemp_l. f_equal. lia. }
    destruct (IH (u64 (st + kGamma)) (taken + zlen v) fuel) as [r Er]; rewrite ?Est; try done; try lia.
    + intros taken' Ht'. apply Hrest. lia.
    + rewrite Er. by eexists.
Qed.

Lemma sample_loop_ends m : (exists j, 0 <= j < n /\ value_at j <> []) -> forall fuel st taken, 0 <= taken -> 16384 - taken <= Z.of_nat m ->
  2 ^ 64 * Z.of_nat m <= Z.of_nat fuel -> is_Some (sample_loop n value_at fuel st taken).
Proof using Hn Hsize.
  intros (j & Hj & Hv). induction m as [|m IH]; intros fuel st taken Ht Hm Hf.
  { destruct fuel; cbn [sample_loop]; (destruct (Z.leb_spec kSampleTarget taken) as [|Hlt]; [by eexists|change kSampleTarget with 16384 in Hlt; lia]). }
  destruct (splitmix_surj j) as (s & Hs & Es); [lia|]. destruct (state_reaches st s Hs) as (k & Hk & Ek).
  assert (Hsk : exists k', S k' = Z.to_nat k) by (exists (Nat.pred (Z.to_nat k)); lia). destruct Hsk as [k' Hk'].
  assert (Hfk : exists fuel', fuel = (S k' + fuel')%nat) by (exists (fuel - S k')%nat; lia). destruct Hfk as [fuel' ->].
  apply sample_walk; try lia.
  - rewrite Hk', Z2Nat.id, Ek, Es, Z.mod_small by lia. done.
  - intros taken' Ht'. apply IH; lia.
Qed.

Lemma total_size_pos : 0 < total_size n value_at -> exists j, 0 <= j < n /\ value_at j <> [].
Proof using Hn.
  intros Hp. destruct (decide (Exists (fun i => value_at i <> []) (seqZ 0 n))) as [He|He].
  - apply Exists_exists in He as (j & Hj & Hv). apply elem_of_seqZ in Hj. exists j. split; [lia|done].
  - exfalso. assert (Hall : Forall (fun i => value_at i = []) (seqZ 0 n)).
    { apply not_Exists_Forall in He; [|intros x; apply _]. eapply Forall_impl; [exact He|]. intros x Hx. cbn in Hx. destruct (value_at x); [done|]. exfalso. by apply Hx. }
    unfold total_size in Hp. assert (E : foldl (fun t i => u64 (t + zlen (value_at i))) 0 (seqZ 0 n) = 0); [|lia].
    clear Hp He. induction Hall as [|i l Hi _ IH]; [done|]. cbn. rewrite Hi. exact IH.
Qed.

Lemma make_sample_ends fuel : 2 ^ 78 <= Z.of_nat fuel -> is_Some (make_sample n value_at fuel).
Proof using Hn Hsize.
  intros Hf. unfold make_sample. change kSampleTarget with 16384. destruct (Z.leb_spec (total_size n value_at) 16384); [by eexists|].
  apply (sample_loop_ends (Z.to_nat 16384)); [by apply total_size_pos; lia|lia|lia|]. rewrite Z2Nat.id by lia. lia.
Qed.

Lemma make_sample_bytes fuel sample : (forall i, 0 <= i < n -> bytes_ok (value_at i)) -> make_sample n value_at fuel = Some sample -> Forall (Forall is_byte) sample.
Proof using.
  intros Hb. unfold make_sample. destruct (Z.leb_spec (total_size n value_at) kSampleTarget) as [Hle|Hgt].
  - intros [= <-]. apply Forall_forall. intros v Hv. apply list_elem_of_In, in_map_iff in Hv as (i & <- & Hi%in_seqZ). apply Hb. lia.
  - assert (Hn0 : 0 < n). { destruct (Z.lt_ge_cases 0 n); [done|]. unfold total_size in Hgt. rewrite seqZ_nil in Hgt by lia. change kSampleTarget with 16384 in Hgt. cbn in Hgt. lia. }
    generalize (Z.lxor kGamma (total_size n value_at)) 0. revert sample. induction fuel as [|fuel IH]; intros sample st taken; cbn [sample_loop];
      (destruct (Z.leb_spec kSampleTarget taken); [intros [= <-]; constructor|]); [done|].
    destruct (sample_loop n value_at fuel _ _) as [rest|] eqn:Er; [|done]. cbn [mbind option_bind]. intros [= <-]. constructor; [|by eapply IH].
    apply Hb. apply Z.mod_pos_bound. lia.
Qed.
End Sample.

(** ** Training *)
Lemma fill_entries_spec bc : zlen bc = 256 -> forall sc w, 0 <= w -> exists l, fill_entries bc w sc = Some l /\ zlen l = zlen sc /\
  forall k one two, zget sc k = Some two -> zget bc (Z.land (w + k) 0xFF) = Some one -> zget l k = Some (entry_of one two).
Proof.
  intros Hz. induction sc as [|two sc IH]; intros w Hw; cbn [fill_entries].
  { exists []. split_and!; try done. intros k one two Hk. apply zget_Some_range in Hk. change (@zlen Z []) with 0 in Hk. lia. }
  destruct (proj2 (zget_is_Some bc (Z.land w 0xFF))) as [one Eo]; [rewrite (land_low _ 8) by (done || lia); pose proof (wrap_range 8 w ltac:(lia)); lia|].
  rewrite Eo. cbn [mbind option_bind]. destruct (IH (w + 1) ltac:(lia)) as (l & -> & Zl & G). cbn [mbind option_bind].
  exists (entry_of one two :: l). rewrite !zlen_cons, Zl. split_and!; try done. intros k one' two' Hk Ho.
  pose proof (zget_Some_range _ _ _ Hk) as Hr. destruct (decide (k = 0)) as [->|Hne].
  - cbn in Hk. injection Hk as <-. rewrite Z.add_0_r, Eo in Ho. by injection Ho as <-.
  - change (two :: sc) with ([two] ++ sc) in Hk. change (entry_of one two :: l) with ([entry_of one two] ++ l).
    rewrite zget_app_r in Hk |- * by (change (zlen [two]) with 1; change (zlen [entry_of one two]) with 1; lia).
    change (zlen [two]) with 1 in Hk. change (zlen [entry_of one two]) with 1. apply G; [done|]. by replace (w + 1 + (k - 1)) with (w + k) by lia.
Qed.

Section Trained.
Context (sort : list (Z * (Z * Z)) -> list (Z * (Z * Z))) `{!SortsRanked sort} (n : Z) (value_at : Z -> list Z).
Context (Hbytes : forall i, 0 <= i < n -> bytes_ok (value_at i)).

Lemma train_ok fuel : is_Some (make_sample n value_at fuel) -> exists r, train sort fuel n value_at = Some r /\
  match r with Some e => enc_ok e /\ 0 < e_symbol_count e /\ zlen (e_short_or_byte e) = 65536 | None => True end.
Proof using All.
  intros [sample Es]. pose proof (make_sample_bytes n value_at fuel sample Hbytes Es) as Hb. unfold train. rewrite Es. cbn [mbind option_bind].
  assert (H0 : trained (fsst_reset empty_encoder)) by (split; [apply reset_ok; vm_compute; reflexivity|done]).
  destruct (train_rounds_ok sort sample Hb kFractions _ _ (- 2 ^ 63) (Tally ∅ ∅ ∅ [] 0) H0 H0) as (best & -> & He & Hs). cbn [mbind option_bind].
  pose proof (eo_count best He) as Hc. destruct (Z.eqb_spec (e_symbol_count best) 0) as [|Hne]; [by exists None|].
  destruct (eo_sizes best He) as (Z1 & Z2 & Z3 & Z4 & Z5). destruct (fill_entries_spec (e_byte_codes best) Z3 (e_short_codes best) 0 ltac:(lia)) as (l & -> & Zl & G).
  cbn [mbind option_bind]. eexists. split; [reflexivity|]. cbn [e_symbol_count e_short_or_byte]. split_and!; try lia.
  destruct He as [A1 A2 A3 A4 A5 A6 A7 A8]. split; try done. right. cbn [e_short_or_byte e_byte_codes e_short_codes]. split; [lia|].
  intros w one two Hw Ho Ht. by apply G.
Qed.
End Trained.

(** ** The theorems *)

(** C18: training ends, whatever the values: the draws of the sample pass through
    all 64-bit numbers, so at most 2^64 of them lie between two that add a
    byte, and 2^78 rounds are enough; it then never leaves its arrays. *)
Theorem train_terminates sort `{!SortsRanked sort} n value_at fuel :
  0 <= n < 2 ^ 64 -> (forall i, 0 <= i < n -> bytes_ok (value_at i) /\ zlen (value_at i) < 2 ^ 60) -> 2 ^ 78 <= Z.of_nat fuel ->
  exists r, train sort fuel n value_at = Some r.
Proof.
  intros Hn Hv Hf. destruct (train_ok sort n value_at) with (fuel := fuel) as (r & -> & _); [intros i Hi; by apply Hv| |eauto].
  apply make_sample_ends; try done. intros i Hi. by apply Hv.
Qed.

(** C17: FSST compression loses nothing. With the encoder that training returned
    (on whatever sample, however [std::sort] orders equal candidates), every
    value compresses, by greedy longest match, to at most twice its size, and
    decoding the codes under the table [serialize] wrote gives the value. *)
Theorem fsst_roundtrip sort `{!SortsRanked sort} fuel n value_at e data :
  (forall i, 0 <= i < n -> bytes_ok (value_at i)) -> train sort fuel n value_at = Some (Some e) ->
  bytes_ok data -> zlen data < 2 ^ 55 ->
  exists b t codes, serialize e = Some b /\ parse_symbol_table b = Some (inl t) /\ compress e data [] = Some codes /\
    greedy e data codes /\ zlen codes <= 2 * zlen data /\
    forall out, max_decoded_size (zlen codes) <= zlen out ->
      exists out', decode t codes out = Some (out', Produced (zlen data)) /\ ztake (zlen data) out' = data.
Proof.
  intros Hv Ht Hd Hz. assert (Hs : is_Some (make_sample n value_at fuel)).
  { unfold train in Ht. destruct (make_sample n value_at fuel); [by eexists|done]. }
  destruct (train_ok sort n value_at Hv fuel Hs) as (r & E & Hr). rewrite Ht in E. injection E as <-. apply round_trip; [apply Hr|done|done].
Qed.

(** [compress_unchecked] with and without the tables [train] adds: on an
    encoder that keeps its invariant both put out a greedy longest-match
    tokenization, write only to the first [max_compressed_size] bytes from
    where they start, and return the bytes put out. *)
Theorem compress_within e data dst a : enc_ok e -> bytes_ok data -> zlen data < 2 ^ 60 -> produced dst a ->
  zlen a + max_compressed_size (zlen data) <= zlen dst ->
  exists codes dst', compress_unchecked e data dst (zlen a) = Some (dst', zlen a + zlen codes) /\ greedy e data codes /\
    ztake (zlen a + zlen codes) dst' = a ++ codes /\ zlen dst' = zlen dst /\
    zdrop (zlen a + max_compressed_size (zlen data)) dst' = zdrop (zlen a + max_compressed_size (zlen data)) dst.
Proof.
  intros He Hd Hz Hp Hr. pose proof (zlen_nonneg data). unfold max_compressed_size in *. rewrite wrap_small in * by lia.
  destruct (compress_unchecked_spec e He data dst a Hd Hp Hr) as (codes & dst' & E & Hg & _ & _ & [_ Hp'] & [Hz' Hk]).
  rewrite zlen_app in *. exists codes, dst'. split_and!; try done. by apply Hk.
Qed.

(** ** Instances *)
Definition ranked_le (a b : Z * (Z * Z)) : Prop := ranked_before b a = false.
#[export] Instance ranked_le_dec a b : Decision (ranked_le a b).
Proof. unfold ranked_le. apply _. Defined.

Lemma ranked_before_alt a b : ranked_before b a = false <-> b.1 < a.1 \/ (b.1 = a.1 /\ a.2.1 <= b.2.1).
Proof. unfold ranked_before. destruct (Z.eqb_spec b.1 a.1); cbn [negb]; [rewrite Z.ltb_ge|rewrite Z.ltb_ge]; lia. Qed.

#[export] Instance ranked_le_total : Total ranked_le.
Proof. intros a b. unfold ranked_le. rewrite !ranked_before_alt. lia. Qed.
#[export] Instance ranked_le_trans : Transitive ranked_le.
Proof. intros a b c. unfold ranked_le. rewrite !ranked_before_alt. lia. Qed.

#[export] Instance merge_sorts_ranked : SortsRanked (merge_sort ranked_le).
Proof. split; intros l; [apply merge_sort_Permutation|by apply (StronglySorted_merge_sort ranked_le)]. Qed.

(** Two one-byte strings. *)
Definition two_values (i : Z) : list Z := [97 + i mod 2].

Lemma two_values_ok i : bytes_ok (two_values i).
Proof. unfold two_values. constructor; [|constructor]. pose proof (Z.mod_pos_bound i 2 ltac:(lia)). unfold is_byte. lia. Qed.

Lemma train_terminates_witness : exists r, train (merge_sort ranked_le) (Z.to_nat (2 ^ 78)) 2 two_values = Some r.
Proof.
  apply (train_terminates (merge_sort ranked_le) 2 two_values (Z.to_nat (2 ^ 78))).
  - lia.
  - intros i _. split; [apply two_values_ok|]. change (zlen (two_values i)) with 1. lia.
  - rewrite Z2Nat.id by lia. lia.
Defined.

(** The rounds end with a symbol, so training returns an encoder. *)
Lemma train_some sort `{!SortsRanked sort} fuel n value_at sample c : (forall i, 0 <= i < n -> bytes_ok (value_at i)) ->
  make_sample n value_at fuel = Some sample ->
  e_symbol_count <$> train_rounds sort sample kFractions (fsst_reset empty_encoder) (fsst_reset empty_encoder) (- 2 ^ 63) (Tally ∅ ∅ ∅ [] 0) = Some c ->
  c <> 0 -> exists e, train sort fuel n value_at = Some (Some e).
Proof.
  intros Hb Hs Hc Hne. destruct (train_ok sort n value_at Hb fuel) as (r & E & _); [by rewrite Hs|].
  destruct r as [e|]; [by exists e|]. exfalso. unfold train in E. rewrite Hs in E. cbn [mbind option_bind] in E.
  destruct (train_rounds _ _ _ _ _ _ _) as [best|]; [|done]. cbn [fmap option_fmap option_map] in Hc. injection Hc as Hc.
  cbn [mbind option_bind] in E. destruct (Z.eqb_spec (e_symbol_count best) 0); [lia|]. destruct (fill_entries _ _ _); done.
Qed.

Lemma two_values_trained : exists e, train (merge_sort ranked_le) 0 2 two_values = Some (Some e).
Proof.
  apply (train_some (merge_sort ranked_le) 0 2 two_values [[97]; [98]] 2).
  - intros i _. apply two_values_ok.
  - vm_compute. reflexivity.
  - vm_compute. reflexivity.
  - lia.
Qed.

Lemma fsst_roundtrip_witness : exists e b t codes, train (merge_sort ranked_le) 0 2 two_values = Some (Some e) /\
  serialize e = Some b /\ parse_symbol_table b = Some (inl t) /\ compress e [97; 5; 98] [] = Some codes /\
  forall out, max_decoded_size (zlen codes) <= zlen out -> exists out', decode t codes out = Some (out', Produced 3) /\ ztake 3 out' = [97; 5; 98].
Proof.
  destruct two_values_trained as [e He].
  destruct (fsst_roundtrip (merge_sort ranked_le) 0 2 two_values e [97; 5; 98]) as (b & t & codes & H1 & H2 & H3 & _ & _ & H4).
  - intros i _. apply two_values_ok.
  - exact He.
  - repeat (constructor; [unfold is_byte; lia|]); constructor.
  - vm_compute. reflexivity.
  - exists e, b, t, codes. split; [exact He|]. split; [exact H1|]. split; [exact H2|]. split; [exact H3|exact H4].
Defined.

Lemma compress_within_witness : exists codes dst', compress_unchecked (fsst_reset empty_encoder) [1; 2] (replicate 5 7) 0 = Some (dst', 0 + zlen codes) /\
  ztake (0 + zlen codes) dst' = codes /\ zdrop 4 dst' = [7].
Proof.
  destruct (compress_within (fsst_reset empty_encoder) [1; 2] (replicate 5 7) []) as (codes & dst' & H1 & _ & H3 & _ & H5).
  - apply reset_ok; reflexivity.
  - repeat (constructor; [unfold is_byte; lia|]); constructor.
  - vm_compute. reflexivity.
  - split; [vm_compute; discriminate|reflexivity].
  - vm_compute. discriminate.
  - exists codes, dst'. split; [exact H1|]. split; [exact H3|exact H5].
Defined.
