(* ===== verification/Messages.v ===== *)
(** * Tagged messages: the model both wires share (tagged.hpp)

    Section 24, the codec-independent model: a message type is data (its name
    and its fields: name, id, presence, optionality, member type), and
    [message_info] computes the dispatch table and the required-field mask.
    The decoders' calls: a pointer [p] is the list of the bytes from it to the
    end [e], so [e - p] is its length, [p >= e] is the empty list, and reading
    past [e] is [Broken UB].

    Then the facts both decoders use: the table against a search of the ids,
    the bits of the mask, suffixes of the input. *)
From Stdlib Require Import Sorting.Sorted.
From S2P Require Import Prelude Parser BytesParsers Combinators CombinatorFacts Numbers.

(** ** 24. The model *)
Definition max_tagged_depth : Z := 64.

Inductive presence := required | defaulted.

#[export] Instance presence_eq_dec : EqDecision presence.
Proof. solve_decision. Defined.

(** [field<Id, V, P>], [V] being [f_type] or, when [f_opt] holds, a
    [std::optional] of it. *)
Record field (T : Type) := Field {
  f_name : string;
  f_id : Z;
  f_pres : presence;
  f_opt : bool;
  f_type : T
}.
Arguments Field {T}.
Arguments f_name {T}.
Arguments f_id {T}.
Arguments f_pres {T}.
Arguments f_opt {T}.
Arguments f_type {T}.

Record message (T : Type) := Message { m_name : string; m_fields : list (field T) }.
Arguments Message {T}.
Arguments m_name {T}.
Arguments m_fields {T}.

(** [message_info<M>]: what is computed once per message type. *)
Section MessageInfo.
Context {T : Type} (m : message T).

Definition n_fields : Z := zlen (m_fields m).
Definition ids : list Z := f_id <$> m_fields m.

Fixpoint ascending_loop (l : list Z) : bool :=
  match l with
  | prev :: ((x :: _) as l) => if x <=? prev then false else ascending_loop l
  | _ => true
  end.
Definition ascending : bool := ascending_loop ids.

Definition is_required (f : field T) : bool :=
  bool_decide (f_pres f = required) && negb (f_opt f).

Fixpoint required_loop (l : list (field T)) (i mask : Z) : Z :=
  match l with
  | [] => mask
  | f :: l => required_loop l (i + 1) (if is_required f then Z.lor mask (Z.shiftl 1 i) else mask)
  end.
Definition required_mask : Z := required_loop (m_fields m) 0 0.

Definition has_unknown : bool := match ids with id :: _ => id =? 0 | [] => false end.

Definition max_id : Z := default 0 (last ids).
Definition dense : bool := max_id <? 256.
Definition no_slot : Z := 255.

Fixpoint fill_slots (l : list Z) (i : Z) (s : list Z) : list Z :=
  match l with
  | [] => s
  | id :: l => fill_slots l (i + 1) (<[Z.to_nat id := i]> s)
  end.

Definition make_slots : list Z :=
  if dense then fill_slots ids 0 (replicate (Z.to_nat (max_id + 1)) no_slot) else [no_slot].

(** The search of a sparse model: ids are sorted, at most 64 of them. *)
Fixpoint find_slot (l : list Z) (i id : Z) : Z :=
  match l with
  | [] => no_slot
  | x :: l => if x =? id then i else find_slot l (i + 1) id
  end.

Definition slot_of (id : Z) : Z :=
  if id <? 0 then no_slot
  else if dense then default no_slot (zget make_slots id)
  else find_slot ids 0 id.

(** The [static_assert]s on a message type: at most 64 fields, ids strictly
    ascending, each an id [field<>] accepts (0 is [pb_unknown]'s). *)
Definition message_ok : bool :=
  (n_fields <=? 64) && ascending && forallb (fun id => (0 <=? id) && (id <=? 32767)) ids.

End MessageInfo.

(** ** Decoding calls

    How a decoding call ends: a value and the new [p], the fault that makes
    every caller return [false], or not at all. *)
Inductive decoded (F A : Type) :=
| Got (v : A) (p : list Z)
| Failed (f : F)
| Broken (w : stop).
Arguments Got {F A}.
Arguments Failed {F A}.
Arguments Broken {F A}.

Definition dbind {F A B} (r : decoded F A) (k : A -> list Z -> decoded F B) : decoded F B :=
  match r with
  | Got v p => k v p
  | Failed f => Failed f
  | Broken w => Broken w
  end.

Declare Scope tagged_scope.
Delimit Scope tagged_scope with tagged.
Notation "'let&' ( v , p ) := m 'in' k" := (dbind m (fun v p => k))
  (at level 10, v name, p name, m at level 100, k at level 200) : tagged_scope.
#[global] Open Scope tagged_scope.

(** ** Bytes and widths *)
Definition in_width (w v : Z) : bool := (- 2 ^ (w - 1) <=? v) && (v <? 2 ^ (w - 1)).
Definition all_bytes (l : list Z) : bool := forallb (fun b => (0 <=? b) && (b <? 256)) l.

(** [u |= uint64_t(u8at(p + i)) << (8 * i)], [i] from [8 - k]. *)
Fixpoint load_le (k : nat) (p : list Z) (i u : Z) : option Z :=
  match k with
  | O => Some u
  | S k => match zget p i with
           | None => None
           | Some b => load_le k p (i + 1) (Z.lor u (Z.shiftl b (8 * i)))
           end
  end.

(** The [n] bytes at address [a]. *)
Fixpoint load (M : memory) (n : nat) (a : Z) : option (list Z) :=
  match n with
  | O => Some []
  | S n => match M a, load M n (a + 1) with
           | Some b, Some l => Some (b :: l)
           | _, _ => None
           end
  end.

Lemma all_bytes_ok l : all_bytes l = true <-> bytes_ok l.
Proof.
  unfold all_bytes. rewrite forallb_forall, Forall_forall. setoid_rewrite list_elem_of_In.
  split; intros H b Hb; specialize (H b Hb); unfold is_byte in *; [|apply andb_true_iff; split]; lia.
Qed.

Lemma in_width_spec w v : in_width w v = true <-> - 2 ^ (w - 1) <= v < 2 ^ (w - 1).
Proof. unfold in_width. rewrite andb_true_iff, Z.leb_le, Z.ltb_lt. done. Qed.

Lemma forallb_Forall {A} (f : A -> bool) l : forallb f l = true <-> Forall (fun x => f x = true) l.
Proof. rewrite forallb_forall, Forall_forall. setoid_rewrite list_elem_of_In. done. Qed.

Lemma suffix_zlen {A} (q p : list A) : q `suffix_of` p -> zlen q <= zlen p.
Proof. intros H%suffix_length. unfold zlen. lia. Qed.

Lemma suffix_zdrop {A} n (p : list A) : zdrop n p `suffix_of` p.
Proof. exists (ztake n p). by rewrite ztake_zdrop. Qed.

Lemma bytes_ok_suffix q p : q `suffix_of` p -> bytes_ok p -> bytes_ok q.
Proof. intros [k ->] [_ ?]%Forall_app. done. Qed.

Create HintDb tagged.
#[export] Hint Resolve suffix_zdrop bytes_ok_suffix suffix_cons_r suffix_nil : tagged.
#[export] Hint Extern 1 (?p `suffix_of` ?p) => reflexivity : tagged.

Lemma uleb_nonempty v : 0 <= v < 2 ^ 64 -> 1 <= zlen (uleb128_encode 64 v) /\ bytes_ok (uleb128_encode 64 v).
Proof.
  intros Hv. destruct (uleb128_encode_spec 64 v ltac:(lia) Hv) as (Hb & Hs & _ & _). split; [|done].
  destruct (uleb128_encode 64 v) as [|b l]; [done|]. rewrite zlen_cons. pose proof (zlen_nonneg l). lia.
Qed.

Lemma zigzag_wide k x : 0 < k <= 64 -> - 2 ^ (k - 1) <= x < 2 ^ (k - 1) ->
  zigzag_encode k x = zigzag_encode 64 x /\ 0 <= zigzag_encode k x < 2 ^ 64 /\ - 2 ^ (64 - 1) <= x < 2 ^ (64 - 1).
Proof.
  intros Hk Hx. assert (2 ^ (k - 1) <= 2 ^ (64 - 1)) by (apply Z.pow_le_mono_r; lia).
  rewrite !zigzag_encode_spec by lia. split_and!; try lia; change (2 ^ 64) with (2 * 2 ^ (64 - 1)); destruct (x <? 0) eqn:E; lia.
Qed.

Lemma concat_ok {A} (f : A -> list Z) l : Forall (fun x => bytes_ok (f x)) l -> bytes_ok (concat (List.map f l)).
Proof. induction 1; cbn; [done|]. by apply Forall_app. Qed.

Lemma sorted_app_r (l1 l2 : list Z) : StronglySorted Z.lt (l1 ++ l2) -> StronglySorted Z.lt l2.
Proof. induction l1 as [|x l1 IH]; [done|]. cbn. intros [? _]%StronglySorted_inv. auto. Qed.

Lemma load_le_val k p i u : bytes_ok p -> 0 <= i -> i + Z.of_nat k <= zlen p -> u = le_val (ztake i p) ->
  load_le k p i u = Some (le_val (ztake (i + Z.of_nat k) p)).
Proof.
  intros Hp. revert i u. induction k as [|k IH]; intros i u Hi Hk Hu; cbn [load_le].
  { by rewrite Z.add_0_r, Hu. }
  destruct (proj2 (zget_is_Some p i)) as [b Hb]; [lia|]. rewrite Hb.
  rewrite IH; [by replace (i + 1 + Z.of_nat k) with (i + Z.of_nat (S k)) by lia|lia..|].
  pose proof (bytes_ok_ztake i p Hp) as Hti. pose proof (le_val_range (ztake i p) Hti) as Hr.
  assert (Hlen : zlen (ztake i p) = i) by (rewrite zlen_ztake by lia; lia).
  assert (ztake (i + 1) p = ztake i p ++ [b]) as ->.
  { by apply ztake_next. }
  rewrite le_val_app. subst u. unfold zlen in Hlen. rewrite Hlen in *. cbn [le_val].
  rewrite lor_shiftl_add by lia. lia.
Qed.

Lemma load_holds M a l : holds M a l -> load M (length l) a = Some l.
Proof.
  revert a. induction l as [|b l IH]; intros a; [done|]. cbn [holds length load]. intros [-> Hh].
  by rewrite (IH _ Hh).
Qed.

Lemma load_wf M M' i : wf M i -> agree M M' i -> exists p,
  bytes_ok p /\ zlen p = i_last i - i_first i /\
  load M (Z.to_nat (i_last i - i_first i)) (i_first i) = Some p /\
  load M' (Z.to_nat (i_last i - i_first i)) (i_first i) = Some p.
Proof.
  intros Hwf Hag. pose proof (wf_first _ _ Hwf). pose proof (size_wf _ _ Hwf).
  destruct (wf_holds M i (Z.to_nat (i_last i - i_first i)) Hwf) as (p & Hh & Hlen & Hp); [lia|].
  exists p. rewrite <- Hlen. split_and!; [done|unfold zlen; lia|by apply load_holds|].
  apply load_holds. eapply holds_agree; [exact Hag|lia| |done]. unfold zlen. lia.
Qed.

(** ** The dispatch table *)
Section Slots.
Context {T : Type}.

Lemma find_slot_not_in l i id : id ∉ l -> find_slot l i id = no_slot.
Proof.
  revert i. induction l as [|x l IH]; intros i Hl; [done|]. cbn [find_slot].
  apply not_elem_of_cons in Hl as [? ?]. destruct (Z.eqb_spec x id); [congruence|]. by apply IH.
Qed.

Lemma find_slot_in l i id : id ∈ l -> exists k : nat, l !! k = Some id /\ find_slot l i id = i + Z.of_nat k.
Proof.
  revert i. induction l as [|x l IH]; intros i Hl; [by apply elem_of_nil in Hl|]. cbn [find_slot].
  destruct (Z.eqb_spec x id) as [->|Hx]; [exists 0%nat; split; [done|lia]|].
  apply elem_of_cons in Hl as [|Hl]; [congruence|].
  destruct (IH (i + 1) Hl) as (k & ? & ->). exists (S k). split; [done|lia].
Qed.

Lemma fill_slots_lookup l i s id : NoDup l -> Forall (fun x => 0 <= x < zlen s) l -> 0 <= id ->
  zget (fill_slots l i s) id = if decide (id ∈ l) then Some (find_slot l i id) else zget s id.
Proof.
  intros Hnd. revert i s. induction Hnd as [|x l Hx Hnd IH]; intros i s Hl Hid.
  { destruct (decide _) as [H|]; [by apply elem_of_nil in H|done]. }
  apply Forall_cons in Hl as [Hxs Hl]. cbn [fill_slots].
  assert (Hz : zlen (<[Z.to_nat x := i]> s) = zlen s) by (unfold zlen; by rewrite length_insert).
  rewrite IH by (rewrite ?Hz; done). cbn [find_slot].
  destruct (Z.eqb_spec x id) as [->|Hne].
  - rewrite (decide_False (P := id ∈ l)) by done. rewrite (decide_True (P := id ∈ id :: l)) by set_solver.
    unfold zget. destruct (Z.ltb_spec id 0); [lia|]. apply list_lookup_insert_eq. unfold zlen in Hxs. lia.
  - destruct (decide (id ∈ l)) as [H|H]; [rewrite (decide_True (P := id ∈ x :: l)) by set_solver; done|].
    rewrite (decide_False (P := id ∈ x :: l)) by set_solver.
    unfold zget. destruct (Z.ltb_spec id 0); [lia|]. apply list_lookup_insert_ne. lia.
Qed.

Lemma ascending_sorted l : ascending_loop l = true -> StronglySorted Z.lt l.
Proof.
  intros H. apply Sorted_StronglySorted; [intros ???; lia|].
  induction l as [|x l IH]; [constructor|]. destruct l as [|y l]; [by repeat constructor|].
  cbn [ascending_loop] in H. destruct (Z.leb_spec y x); [done|]. constructor; [by apply IH|by constructor].
Qed.

Lemma sorted_last (l : list Z) : StronglySorted Z.lt l -> forall x, x ∈ l -> x <= default 0 (last l).
Proof.
  induction 1 as [|y l Hl IH Hy]; intros x Hx; [by apply elem_of_nil in Hx|].
  destruct l as [|z l]; [apply list_elem_of_singleton in Hx; subst; cbn; lia|].
  rewrite last_cons_cons. apply elem_of_cons in Hx as [->|Hx]; [|by apply IH].
  specialize (IH z (list_elem_of_here _ _)). apply Forall_cons in Hy as [? _]. lia.
Qed.

Lemma sorted_NoDup (l : list Z) : StronglySorted Z.lt l -> NoDup l.
Proof.
  induction 1 as [|y l Hl IH Hy]; constructor; [|done]. intros Hin.
  rewrite Forall_forall in Hy. apply Hy in Hin. lia.
Qed.

Context (m : message T) (Hm : message_ok m = true).

Lemma message_ok_ids : StronglySorted Z.lt (ids m) /\ Forall (fun id => 0 <= id <= 32767) (ids m) /\ zlen (ids m) <= 64.
Proof using Hm.
  unfold message_ok in Hm. apply andb_true_iff in Hm as [[Hn Ha]%andb_true_iff Hf].
  split_and!; [by apply ascending_sorted| |].
  - apply Forall_forall. intros id Hid. rewrite forallb_forall in Hf.
    apply list_elem_of_In, Hf, andb_true_iff in Hid as [?%Z.leb_le ?%Z.leb_le]. lia.
  - apply Z.leb_le in Hn. unfold n_fields in Hn. unfold ids, zlen in *. by rewrite length_fmap.
Qed.

(** Without a [pb_unknown] member the ids start at 1. *)
Lemma known_ids : has_unknown m = false -> Forall (fun id => 1 <= id <= 32767) (ids m).
Proof using Hm.
  destruct message_ok_ids as (Hs & Hr & _). unfold has_unknown. intros Hu. destruct (ids m) as [|x l]; [constructor|].
  apply Z.eqb_neq in Hu. apply Forall_cons in Hr as [Hx Hr]. apply StronglySorted_inv in Hs as [_ Hl].
  constructor; [lia|]. apply Forall_forall. intros y Hy. rewrite Forall_forall in Hl, Hr. specialize (Hl y Hy). specialize (Hr y Hy). lia.
Qed.

(** The dense table finds what a search of the ids finds. *)
Lemma slot_of_find id : 0 <= id -> slot_of m id = find_slot (ids m) 0 id.
Proof using Hm.
  destruct message_ok_ids as (Hs & Hr & Hn). intros Hid. unfold slot_of.
  destruct (Z.ltb_spec id 0); [lia|]. destruct (dense m) eqn:Hd; [|done].
  unfold make_slots. rewrite Hd. rewrite fill_slots_lookup; [|by apply sorted_NoDup| |done].
  - destruct (decide (id ∈ ids m)) as [H1|H1]; [done|]. rewrite find_slot_not_in by done.
    rewrite zget_replicate. by destruct (_ && _).
  - apply Forall_forall. intros x Hx. rewrite Forall_forall in Hr. specialize (Hr x Hx).
    pose proof (sorted_last _ Hs x Hx). rewrite zlen_replicate. unfold max_id. lia.
Qed.

Lemma slot_of_cases id :
  (id ∉ ids m /\ slot_of m id = no_slot) \/
  (exists f, zget (m_fields m) (slot_of m id) = Some f /\ f_id f = id /\ 0 <= slot_of m id < 64).
Proof using Hm.
  destruct message_ok_ids as (Hs & Hr & Hn). destruct (Z.ltb_spec id 0) as [H0|H0].
  { left. split; [|unfold slot_of; by rewrite (proj2 (Z.ltb_lt id 0) H0)].
    intros Hin. rewrite Forall_forall in Hr. specialize (Hr id Hin). lia. }
  rewrite slot_of_find by done. destruct (decide (id ∈ ids m)) as [Hin|Hin].
  - right. destruct (find_slot_in (ids m) 0 id Hin) as (k & Hk & ->).
    unfold ids in Hk. rewrite list_lookup_fmap in Hk. destruct (m_fields m !! k) as [f|] eqn:Hf; [|done].
    injection Hk as Hk. exists f. rewrite Z.add_0_l. split_and!; [|done|lia|].
    + unfold zget. destruct (Z.ltb_spec (Z.of_nat k) 0); [lia|]. by rewrite Nat2Z.id.
    + apply lookup_lt_Some in Hf. unfold ids, zlen in Hn. rewrite length_fmap in Hn. lia.
  - left. split; [done|]. by apply find_slot_not_in.
Qed.

Lemma slot_of_at k f : zget (m_fields m) k = Some f -> slot_of m (f_id f) = k.
Proof using Hm.
  destruct message_ok_ids as (Hs & Hr & Hn). intros Hk. pose proof (zget_Some_range _ _ _ Hk) as Hk0.
  assert (Hid : ids m !! Z.to_nat k = Some (f_id f)).
  { unfold zget in Hk. destruct (Z.ltb_spec k 0); [lia|]. unfold ids. by rewrite list_lookup_fmap, Hk. }
  assert (Hin : f_id f ∈ ids m) by by eapply list_elem_of_lookup_2.
  rewrite Forall_forall in Hr. pose proof (Hr _ Hin). rewrite slot_of_find by lia.
  destruct (find_slot_in (ids m) 0 (f_id f) Hin) as (j & Hj & ->).
  assert (j = Z.to_nat k) by (eapply NoDup_lookup; [by apply sorted_NoDup|done..]). lia.
Qed.
End Slots.

(** ** Required fields *)
Lemma required_loop_bit {T} (l : list (field T)) i mask k : 0 <= i -> 0 <= k ->
  Z.testbit (required_loop l i mask) k =
    Z.testbit mask k || ((i <=? k) && match zget l (k - i) with Some f => is_required f | None => false end).
Proof.
  intros Hi Hk. revert i mask Hi. induction l as [|f l IH]; intros i mask Hi; cbn [required_loop].
  { unfold zget. destruct (_ <? 0); cbn; by rewrite ?andb_false_r, ?orb_false_r. }
  rewrite IH by lia.
  assert (Hbit : Z.testbit (Z.shiftl 1 i) k = (k =? i)).
  { rewrite Z.shiftl_1_l, Z.pow2_bits_eqb by lia. by rewrite Z.eqb_sym. }
  destruct (Z.leb_spec i k) as [Hik|Hik], (Z.leb_spec (i + 1) k) as [Hik1|Hik1]; try lia; cbn [andb].
  - assert (zget (f :: l) (k - i) = zget l (k - (i + 1))) as ->.
    { unfold zget. destruct (Z.ltb_spec (k - i) 0), (Z.ltb_spec (k - (i + 1)) 0); try lia.
      by replace (Z.to_nat (k - i)) with (S (Z.to_nat (k - (i + 1)))) by lia. }
    destruct (is_required f); [|done]. rewrite Z.lor_spec, Hbit. destruct (Z.eqb_spec k i); [lia|]. by rewrite orb_false_r.
  - assert (k = i) as -> by lia. replace (i - i) with 0 by lia. change (zget (f :: l) 0) with (Some f). rewrite orb_false_r.
    destruct (is_required f); [|by rewrite orb_false_r]. by rewrite Z.lor_spec, Hbit, Z.eqb_refl.
  - rewrite !orb_false_r. destruct (is_required f); [|done]. rewrite Z.lor_spec, Hbit. destruct (Z.eqb_spec k i); [lia|]. by rewrite orb_false_r.
Qed.

(** Bit [k] of the mask is the presence of member [k]. *)
Lemma required_mask_bit {T} (m : message T) k : 0 <= k ->
  Z.testbit (required_mask m) k = match zget (m_fields m) k with Some f => is_required f | None => false end.
Proof.
  intros Hk. unfold required_mask. rewrite required_loop_bit by lia. rewrite Z.testbit_0_l, Z.sub_0_r.
  by destruct (Z.leb_spec 0 k); [|lia].
Qed.

(** Every required member below [n] is in [seen]. *)
Definition seen_upto {T} (m : message T) (n seen : Z) : Prop :=
  forall k f, k < n -> zget (m_fields m) k = Some f -> is_required f = true -> Z.testbit seen k = true.

Lemma seen_all {T} (m : message T) seen : seen_upto m (zlen (m_fields m)) seen ->
  Z.land seen (required_mask m) = required_mask m.
Proof.
  intros Hs. apply Z.bits_inj'. intros k Hk. rewrite Z.land_spec, required_mask_bit by done.
  destruct (zget (m_fields m) k) as [f|] eqn:Ef; [|by rewrite andb_false_r].
  destruct (is_required f) eqn:Er; [|by rewrite andb_false_r]. pose proof (zget_Some_range _ _ _ Ef).
  by rewrite (Hs k f) by (done || lia).
Qed.

Lemma seen_next {T} (m : message T) n seen seen' : 0 <= n -> seen_upto m n seen -> (forall k, Z.testbit seen k = true -> Z.testbit seen' k = true) ->
  (forall f, zget (m_fields m) n = Some f -> is_required f = true -> Z.testbit seen' n = true) -> seen_upto m (n + 1) seen'.
Proof.
  intros Hn Hs Hm Hnew k f Hk Hf Hr. destruct (Z.eq_dec k n) as [->|]; [by apply (Hnew f)|]. apply Hm, (Hs k f); [lia|done..].
Qed.

Lemma lor_shift_bit seen k n : 0 <= n -> Z.testbit seen k = true \/ k = n -> Z.testbit (Z.lor seen (Z.shiftl 1 n)) k = true.
Proof.
  intros Hn. rewrite Z.lor_spec, Z.shiftl_1_l. intros [->| ->]; [done|]. by rewrite Z.pow2_bits_true, orb_true_r.
Qed.
