(* ===== verification/Staging.v ===== *)
(** * The staging writer of the tagged encoders (tagged_encode.hpp, protobuf_encode.hpp)

    [writer<S>] stages small writes in a buffer and hands them to a byte sink
    in blocks; both encoders have one, with the same [flush], [varint] and
    [raw]. Then what it delivers: [wrote bs w] says that the writer has taken
    exactly [bs], delivered or staged, or that the sink refused a block of it;
    [delivered] the same of a finished encoding. *)
From S2P Require Import Prelude Parser Numbers Emit.

Definition buf_size : Z := 256.

(** [writer<S>]: [w_buf] holds the [len] bytes staged in [buf]. *)
Record writer (S : Type) := Writer {
  w_sink : S;
  w_total : Z;
  w_err : option string;
  w_message : string;
  w_field : string;
  w_buf : list Z
}.
Arguments Writer {S}.
Arguments w_sink {S}.
Arguments w_total {S}.
Arguments w_err {S}.
Arguments w_message {S}.
Arguments w_field {S}.
Arguments w_buf {S}.

Section Write.
Context {S : Type} `{ByteSink S}.

Definition sink_refused : string := "the sink refused the bytes (full or failed)".

(** [fail]: the first failure is kept. *)
Definition w_fail (what : string) (w : writer S) : writer S :=
  match w_err w with
  | None => Writer (w_sink w) (w_total w) (Some what) (w_message w) (w_field w) (w_buf w)
  | Some _ => w
  end.

Definition failed (w : writer S) : bool := match w_err w with Some _ => true | None => false end.

(** [sink.put(p, n)] and what follows it in [flush] and [raw]; [rest] is what
    stays staged when it succeeds. *)
Definition w_put (bs rest : list Z) (w : writer S) : writer S :=
  let (s, ok) := sink_put (w_sink w) bs in
  if ok then Writer s (u64 (w_total w + zlen bs)) (w_err w) (w_message w) (w_field w) rest
  else w_fail sink_refused (Writer s (w_total w) (w_err w) (w_message w) (w_field w) (w_buf w)).

Definition w_flush (w : writer S) : writer S :=
  if failed w || (zlen (w_buf w) =? 0) then w else w_put (w_buf w) [] w.

(** Append staged bytes. *)
Definition w_stage (bs : list Z) (w : writer S) : writer S :=
  Writer (w_sink w) (w_total w) (w_err w) (w_message w) (w_field w) (w_buf w ++ bs).

Definition w_u8 (b : Z) (w : writer S) : writer S :=
  let w := if zlen (w_buf w) =? buf_size then w_flush w else w in
  if failed w then w else w_stage [b] w.

Definition w_varint (v : Z) (w : writer S) : writer S :=
  let w := if buf_size - zlen (w_buf w) <? leb128_max_bytes 64 then w_flush w else w in
  if failed w then w else w_stage (uleb128_encode 64 v) w.

Definition w_raw (bs : list Z) (w : writer S) : writer S :=
  if failed w || (zlen bs =? 0) then w
  else if zlen bs <=? buf_size - zlen (w_buf w) then w_stage bs w
  else
    let w := w_flush w in
    if failed w then w else w_put bs (w_buf w) w.

Definition w_at (message field : string) (w : writer S) : writer S :=
  Writer (w_sink w) (w_total w) (w_err w) message field (w_buf w).

(** The end of an encoder: flush what is staged and report. *)
Definition w_finish (w : writer S) : S * (Z + encode_error) :=
  let w := w_flush w in
  (w_sink w, match w_err w with
             | Some what => inr (EncodeError what (w_message w) (w_field w))
             | None => inl (w_total w)
             end).

End Write.

(** ** What is delivered *)

(** [sent s0 bs s]: [bs] went to the sink, in one or more blocks all taken. *)
Inductive sent {S} `{ByteSink S} (s0 : S) : list Z -> S -> Prop :=
| sent_nil : sent s0 [] s0
| sent_put a b s s' : sent s0 a s -> sink_put s b = (s', true) -> sent s0 (a ++ b) s'.

Section Writer.
Context {S : Type} `{ByteSink S} (s0 : S).

(** The writer has taken [bs]: delivered or staged, all within the buffer. *)
Record taken (bs : list Z) (w : writer S) : Prop := Taken {
  tk_err : w_err w = None;
  tk_buf : zlen (w_buf w) <= buf_size;
  tk_sent : exists a, sent s0 a (w_sink w) /\ bs = a ++ w_buf w /\ w_total w = u64 (zlen a)
}.

(** The sink refused a block of [bs], after taking what comes before it. *)
Record refused (bs : list Z) (w : writer S) : Prop := Refused {
  rf_err : w_err w = Some sink_refused;
  rf_sent : exists a b s, sent s0 a s /\ a ++ b `prefix_of` bs /\ sink_put s b = (w_sink w, false)
}.

Definition wrote (bs : list Z) (w : writer S) : Prop := taken bs w \/ refused bs w.

Lemma refused_app bs x w : refused bs w -> refused (bs ++ x) w.
Proof using. intros [He (a & b & s & ? & ? & ?)]. split; [done|]. exists a, b, s. split_and!; [done| |done]. by apply prefix_app_r. Qed.

Lemma failed_refused bs w : refused bs w -> failed w = true.
Proof using. intros [He _]. unfold failed. by rewrite He. Qed.

Lemma failed_taken bs w : taken bs w -> failed w = false.
Proof using. intros [He _ _]. unfold failed. by rewrite He. Qed.

Lemma u64_add a b : u64 (u64 a + b) = u64 (a + b).
Proof using. unfold wrap. by rewrite Zplus_mod_idemp_l. Qed.

Lemma put_wrote a bs rest x w : w_err w = None -> sent s0 a (w_sink w) -> w_total w = u64 (zlen a) ->
  zlen rest <= buf_size -> x = a ++ bs ++ rest -> wrote x (w_put bs rest w).
Proof using.
  intros He Ha Ht Hr ->. unfold w_put. destruct (sink_put (w_sink w) bs) as [s [|]] eqn:E.
  - left. constructor; [done|done|]. exists (a ++ bs). cbn. split_and!; [by eapply sent_put|by rewrite app_assoc|].
    rewrite Ht, zlen_app. apply u64_add.
  - right. unfold w_fail. cbn. rewrite He. constructor; [done|]. exists a, bs, (w_sink w). split_and!; [done| |done].
    apply prefix_app. by apply prefix_app_r.
Qed.

Lemma flush_wrote bs w : taken bs w -> wrote bs (w_flush w) /\ (failed (w_flush w) = false -> taken bs (w_flush w) /\ w_buf (w_flush w) = []).
Proof using.
  intros Hw. pose proof (failed_taken bs w Hw) as Hf. destruct Hw as [He Hb (a & Ha & -> & Ht)].
  unfold w_flush. rewrite Hf. cbn [orb]. destruct (Z.eqb_spec (zlen (w_buf w)) 0) as [H0|H0].
  - assert (w_buf w = []) as E0 by (destruct (w_buf w); [done|rewrite zlen_cons in H0; pose proof (zlen_nonneg l); lia]).
    assert (taken (a ++ w_buf w) w) by (constructor; [done|done|eauto]). split; [by left|done].
  - assert (wrote (a ++ w_buf w) (w_put (w_buf w) [] w)) as Hp.
    { eapply (put_wrote a); [done..|unfold buf_size, zlen; cbn; lia|]. by rewrite app_nil_r. }
    split; [done|]. intros Hff. destruct Hp as [Hp|Hp]; [|apply failed_refused in Hp; congruence]. split; [done|].
    unfold w_put in *. destruct (sink_put _ _) as [s [|]]; [done|]. unfold w_fail in Hff. cbn in Hff. by rewrite He in Hff.
Qed.

Lemma stage_taken bs x w : taken bs w -> zlen (w_buf w) + zlen x <= buf_size -> taken (bs ++ x) (w_stage x w).
Proof using.
  intros [He Hb (a & Ha & -> & Ht)] Hx. constructor; cbn; [done|rewrite zlen_app; lia|].
  exists a. split_and!; [done|by rewrite app_assoc|done].
Qed.

(** Flush when there is too little room, then stage. *)
Lemma flush_stage bs x (room : bool) w : zlen x <= buf_size -> wrote bs w ->
  (room = false -> zlen (w_buf w) <= buf_size -> zlen (w_buf w) + zlen x <= buf_size) ->
  wrote (bs ++ x) (let w := if room then w_flush w else w in if failed w then w else w_stage x w).
Proof using.
  intros Hx Hw Hroom. destruct Hw as [Hw|Hw].
  - cbv zeta. destruct room.
    + destruct (flush_wrote bs w Hw) as [Hfl Hok]. destruct (failed (w_flush w)) eqn:Ef.
      * destruct Hfl as [Hfl|Hfl]; [apply failed_taken in Hfl; congruence|]. right. by apply refused_app.
      * left. destruct (Hok eq_refl) as [Ht E]. apply stage_taken; [done|]. rewrite E. unfold zlen at 1. cbn. lia.
    + rewrite (failed_taken bs w Hw). left. apply stage_taken; [done|]. apply Hroom; [done|apply Hw].
  - right. pose proof (failed_refused _ _ Hw) as Ef. assert (w_flush w = w) as Efl by (unfold w_flush; by rewrite Ef).
    cbv zeta. assert ((if room then w_flush w else w) = w) as -> by (destruct room; done). rewrite Ef. by apply refused_app.
Qed.

Lemma u8_wrote bs b w : wrote bs w -> wrote (bs ++ [b]) (w_u8 b w).
Proof using.
  intros Hw. apply (flush_stage bs [b] (zlen (w_buf w) =? buf_size)); [done|done|].
  intros Hb%Z.eqb_neq ?. change (zlen [b]) with 1. lia.
Qed.

Lemma varint_wrote bs v w : 0 <= v < 2 ^ 64 -> wrote bs w -> wrote (bs ++ uleb128_encode 64 v) (w_varint v w).
Proof using.
  intros Hv Hw. destruct (uleb128_encode_spec 64 v ltac:(lia) Hv) as (_ & _ & _ & Hl).
  apply (flush_stage bs _ (buf_size - zlen (w_buf w) <? leb128_max_bytes 64)); [|done|].
  - unfold buf_size. change (leb128_max_bytes 64) with 10 in Hl. lia.
  - intros Hb%Z.ltb_ge ?. lia.
Qed.

Lemma raw_wrote bs x w : wrote bs w -> wrote (bs ++ x) (w_raw x w).
Proof using.
  intros [Hw|Hw]; unfold w_raw.
  - rewrite (failed_taken bs w Hw). cbn [orb]. destruct (Z.eqb_spec (zlen x) 0) as [H0|H0].
    { assert (x = []) as -> by (destruct x; [done|rewrite zlen_cons in H0; pose proof (zlen_nonneg x); lia]).
      rewrite app_nil_r. by left. }
    destruct (Z.leb_spec (zlen x) (buf_size - zlen (w_buf w))); [left; apply stage_taken; [done|lia]|].
    destruct (flush_wrote bs w Hw) as [Hfl Hok]. cbv zeta. destruct (failed (w_flush w)) eqn:Ef.
    + destruct Hfl as [Hfl|Hfl]; [apply failed_taken in Hfl; congruence|]. right. by apply refused_app.
    + destruct (Hok eq_refl) as [[He Hb (a & Ha & -> & Ht)] E]. rewrite E in *. eapply (put_wrote a); try done.
      by rewrite !app_nil_r.
  - rewrite (failed_refused bs w Hw). right. by apply refused_app.
Qed.

Lemma at_wrote bs m f w : wrote bs w -> wrote bs (w_at m f w).
Proof using. intros [[? ? ?]|[? ?]]; [left|right]; by constructor. Qed.
End Writer.

(** ** A finished encoding

    [bs] went to the sink and its length is returned, or the sink refused a
    block after exactly what comes before it. *)
Definition delivered {S} `{ByteSink S} (s : S) (bs : list Z) (res : S * (Z + encode_error)) : Prop :=
  (snd res = inl (u64 (zlen bs)) /\ sent s bs (fst res)) \/
  (exists msg fld a b s1, snd res = inr (EncodeError sink_refused msg fld) /\ sent s a s1 /\
     a ++ b `prefix_of` bs /\ sink_put s1 b = (fst res, false)).

Section Delivered.
Context {S : Type} `{ByteSink S}.

Lemma wrote_start (s : S) msg fld : wrote s [] (Writer s 0 None msg fld []).
Proof using. left. constructor; [done|done|]. exists []. split_and!; [constructor|done|done]. Qed.

Lemma finish_delivered (s : S) bs w : wrote s bs w -> delivered s bs (w_finish w).
Proof using.
  intros Hw. unfold w_finish. cbv zeta.
  assert (wrote s bs (w_flush w) /\ (failed (w_flush w) = false -> w_buf (w_flush w) = [])) as [Hfl Hbuf].
  { destruct Hw as [Hw|Hw]; [destruct (flush_wrote s bs w Hw) as [? Hok]; split; [done|]; intros Hf; by apply Hok|].
    pose proof (failed_refused _ _ _ Hw) as Ef. assert (w_flush w = w) as -> by (unfold w_flush; by rewrite Ef).
    split; [by right|congruence]. }
  destruct Hfl as [Hfl|[Herr (a & b & s1 & ? & ? & ?)]].
  - left. pose proof (failed_taken _ _ _ Hfl) as Ef. destruct Hfl as [-> _ (a & Ha & Ebs & ->)]. rewrite (Hbuf Ef), app_nil_r in Ebs.
    by rewrite Ebs.
  - right. rewrite Herr. cbn [fst snd]. eauto 10.
Qed.
End Delivered.

(** ** After a failure nothing more is written *)
Section Failed.
Context {S : Type} `{ByteSink S}.

Lemma flush_failed (w : writer S) : failed w = true -> w_flush w = w.
Proof using. intros Hf. unfold w_flush. by rewrite Hf. Qed.

Lemma u8_failed b (w : writer S) : failed w = true -> failed (w_u8 b w) = true.
Proof using. intros Hf. unfold w_u8. rewrite flush_failed by done. destruct (_ =? _); cbv zeta; by rewrite Hf. Qed.

Lemma varint_failed b (w : writer S) : failed w = true -> failed (w_varint b w) = true.
Proof using. intros Hf. unfold w_varint. rewrite flush_failed by done. destruct (_ <? _); cbv zeta; by rewrite Hf. Qed.

Lemma raw_failed b (w : writer S) : failed w = true -> failed (w_raw b w) = true.
Proof using. intros Hf. unfold w_raw. by rewrite Hf. Qed.

Lemma fail_failed what (w : writer S) : failed (w_fail what w) = true.
Proof using. unfold w_fail, failed. destruct (w_err w) eqn:E; [by rewrite E|done]. Qed.
End Failed.

(** ** Sinks *)
Lemma sent_vector (s0 bs s : list Z) : sent s0 bs s -> s = s0 ++ bs.
Proof. induction 1 as [|a b s s' ? IH E]; [by rewrite app_nil_r|]. injection E as <-. subst s. by rewrite app_assoc. Qed.

Lemma sent_counting s0 bs s : sent s0 bs s -> cs_count s = u64 (cs_count s0 + zlen bs) \/ (bs = [] /\ s = s0).
Proof.
  induction 1 as [|a b s s' ? IH E]; [by right|]. left. injection E as <-. cbn. rewrite zlen_app.
  destruct IH as [->|[-> ->]]; [|change (zlen (@nil Z)) with 0; f_equal; lia].
  unfold wrap. rewrite Zplus_mod_idemp_l. f_equal. lia.
Qed.

(** A fixed buffer: the bytes taken follow the ones before, the rest of the
    buffer is as it was. *)
Lemma sent_span s0 bs s : 0 <= ss_used s0 <= zlen (ss_out s0) -> sent s0 bs s ->
  ss_used s = ss_used s0 + zlen bs /\ ss_used s <= zlen (ss_out s) /\ zlen (ss_out s) = zlen (ss_out s0) /\
  written s = written s0 ++ bs /\ zdrop (ss_used s) (ss_out s) = zdrop (ss_used s) (ss_out s0).
Proof.
  intros H0. induction 1 as [|a b s s' Hs IH E].
  { change (zlen []) with 0. rewrite app_nil_r, Z.add_0_r. by destruct H0. }
  destruct IH as (Hu & Hle & Hlen & Hw & Hrest). unfold sink_put, span_sink_put in E. cbv zeta in E.
  destruct (Z.ltb_spec (zlen (ss_out s) - ss_used s) (zlen b)); [done|]. injection E as <-. cbn [ss_used ss_out written].
  pose proof (zlen_nonneg a). pose proof (zlen_nonneg b).
  assert (Ht : zlen (ztake (ss_used s) (ss_out s)) = ss_used s) by (rewrite zlen_ztake by lia; lia).
  rewrite !zlen_app, Ht. rewrite zlen_zdrop by lia. split_and!; try lia.
  - unfold written at 1. cbn [ss_used ss_out]. rewrite app_assoc, ztake_app by (rewrite zlen_app; lia).
    rewrite app_assoc. rewrite <- Hw. done.
  - rewrite app_assoc, zdrop_app by (rewrite zlen_app; lia).
    rewrite <- (zdrop_zdrop (zlen b) (ss_used s)) by lia. rewrite Hrest. by rewrite zdrop_zdrop by lia.
Qed.

Lemma put_vector_ok (s b s' : list Z) : sink_put s b <> (s', false).
Proof. unfold sink_put, vector_sink. congruence. Qed.

Lemma delivered_vector (out : list Z) bs res : delivered out bs res -> zlen bs < 2 ^ 64 -> res = (out ++ bs, inl (zlen bs)).
Proof.
  destruct res as [s' r]. intros [[E Hs]|(? & ? & ? & ? & ? & _ & _ & _ & Hbad)] Hl; cbn [fst snd] in *.
  - apply sent_vector in Hs as ->. pose proof (zlen_nonneg bs). by rewrite E, wrap_small.
  - by apply put_vector_ok in Hbad.
Qed.

Lemma delivered_count s bs res : delivered (S := counting_sink) s bs res -> zlen bs < 2 ^ 64 -> snd res = inl (zlen bs).
Proof.
  pose proof (zlen_nonneg bs). intros [[-> _]|(? & ? & ? & ? & ? & _ & _ & _ & Hbad)] Hl; [by rewrite wrap_small|done].
Qed.

(** A fixed buffer takes an encoding exactly when it has room for it, and is
    never written past what it took. *)
Definition fits_span (s : span_sink) (bs : list Z) (res : span_sink * (Z + encode_error)) : Prop :=
  let s' := fst res in
  (if zlen bs <=? zlen (ss_out s) - ss_used s then snd res = inl (zlen bs) /\ written s' = written s ++ bs
   else exists e, snd res = inr e) /\
  ss_used s <= ss_used s' <= zlen (ss_out s') /\ zlen (ss_out s') = zlen (ss_out s) /\
  zdrop (ss_used s') (ss_out s') = zdrop (ss_used s') (ss_out s).

Lemma delivered_span s bs res : delivered s bs res -> zlen bs < 2 ^ 64 -> 0 <= ss_used s <= zlen (ss_out s) -> fits_span s bs res.
Proof.
  destruct res as [s' r]. intros Hw Hlen Hs. pose proof (zlen_nonneg bs). unfold fits_span. cbv zeta. cbn [fst snd] in *.
  destruct Hw as [[E Hsent]|(msg & fld & a & b & s1 & E & Hsent & [c Hpre] & Hput)]; cbn [fst snd] in *; subst r.
  - destruct (sent_span s _ s' Hs Hsent) as (Hu & Hle & Hl & Hwr & Hrest). rewrite wrap_small by lia.
    split_and!; try done; try lia. destruct (Z.leb_spec (zlen bs) (zlen (ss_out s) - ss_used s)); [done|lia].
  - destruct (sent_span s _ s1 Hs Hsent) as (Hu & Hle & Hl & Hwr & Hrest). unfold sink_put, span_sink_put in Hput. cbv zeta in Hput.
    destruct (Z.ltb_spec (zlen (ss_out s1) - ss_used s1) (zlen b)); [|done]. injection Hput as <-.
    assert (zlen bs = zlen a + zlen b + zlen c) by (by rewrite Hpre, !zlen_app).
    pose proof (zlen_nonneg a). pose proof (zlen_nonneg c). split_and!; try done; try lia.
    destruct (Z.leb_spec (zlen bs) (zlen (ss_out s) - ss_used s)); [lia|eauto].
Qed.
