(* ===== verification/Tagged.v ===== *)
(** * The Thrift compact decoder (tagged.hpp)

    Section 25: [skip] and its parts, [read_value], [read_struct], the parser
    [thrift_compact], and the members of the lazy views [list] and [lazy]. The
    address of a pointer is recovered from the end of the input decoded.
    A member type that holds a message names it by its index in the
    environment [G] of the program's message types. *)
From S2P Require Import Prelude Parser BytesParsers Combinators CombinatorFacts Numbers Messages.

(** ** Member types and values of a Thrift message *)

(** [TVector e] is [std::vector<e>], [TList e] is [nm::list<e>]; [TString],
    [TView] and [TBytes] are [std::string], [std::string_view] and
    [nm::bytes]. *)
Inductive ttype :=
| TBool | TI8 | TI16 | TI32 | TI64 | TDouble | TEnum
| TString | TView | TBytes
| TVector (e : ttype) | TList (e : ttype)
| TLazy (m : nat) | TEmpty | TMessage (m : nat).

(** An [input] with the bytes between its ends. *)
Record region := Region { r_in : input; r_bytes : list Z }.

Definition region_null : region := Region input_null [].

(** A member's value. [VView b l] views the bytes [l] at [b]. [VList] and
    [VLazy] are views decoded from the wire, [VListOf] and [VLazyOf] the ones
    made with [of] from values in memory. [VMsg] lists the members of a
    message, [None] for an optional one that is absent. *)
Inductive tvalue :=
| VBool (b : bool)
| VInt (v : Z)
| VDouble (bits : Z)
| VString (s : list Z)
| VView (b : bytes) (s : list Z)
| VVec (l : list tvalue)
| VList (r : region) (count elem_wire depth : Z)
| VListOf (l : list tvalue)
| VLazy (r : region) (depth : Z)
| VLazyOf (m : tvalue)
| VEmpty
| VMsg (fs : list (option tvalue)).

(** ** 25. Thrift compact: wire types *)
Inductive ctype :=
| stop_ | bool_true | bool_false | i8 | i16 | i32 | i64 | dbl | binary | list_ | set_ | map_ | strct_.

#[export] Instance ctype_eq_dec : EqDecision ctype.
Proof. solve_decision. Defined.

Definition code (c : ctype) : Z :=
  match c with
  | stop_ => 0 | bool_true => 1 | bool_false => 2 | i8 => 3 | i16 => 4 | i32 => 5 | i64 => 6
  | dbl => 7 | binary => 8 | list_ => 9 | set_ => 10 | map_ => 11 | strct_ => 12
  end.

(** [ctype(t)] for a [switch]: the values without an enumerator match no case. *)
Definition ctype_of (t : Z) : option ctype :=
  zget [stop_; bool_true; bool_false; i8; i16; i32; i64; dbl; binary; list_; set_; map_; strct_] t.

Definition type_of (t : ttype) : Z :=
  match t with
  | TBool => code bool_true
  | TI8 => code i8
  | TI16 => code i16
  | TI32 => code i32
  | TI64 => code i64
  | TDouble => code dbl
  | TEnum => code i32
  | TString | TView | TBytes => code binary
  | TVector _ | TList _ => code list_
  | TMessage _ | TLazy _ | TEmpty => code strct_
  end.

Definition wire_ok (expected wire : Z) : bool :=
  if expected =? code bool_true then (wire =? code bool_true) || (wire =? code bool_false)
  else if expected =? code list_ then (wire =? code list_) || (wire =? code set_)
  else wire =? expected.

Definition min_elem_bytes (t : Z) : Z := if t =? code dbl then 8 else 1.

(** ** Faults *)
Inductive fault :=
| fault_none | truncated | bad_varint | out_of_range | bad_type | type_mismatch | too_deep
| bad_count | bad_bool | bad_id | missing_required.

(** What [ctx] records of the first fault. [at] is kept as the number of bytes
    from it to the end [e] of the input. *)
Record failure := Failure { f_kind : fault; f_at : Z; f_need : Z; f_where : option string }.

(** How a decoding call ends: [ctx] keeps the first fault. *)
Abbreviation dec := (decoded failure).

(** [c.fail(k, p, needed)]. *)
Definition fail {A} (k : fault) (p : list Z) (needed : Z) : dec A :=
  Failed (Failure k (zlen p) (u32 (Z.min needed max_incomplete_needed)) None).

Definition expected_of (k : fault) : string :=
  match k with
  | truncated => "more input"
  | bad_varint => "varint fitting the target width"
  | out_of_range => "integer within the member's range"
  | bad_type => "a valid thrift compact type"
  | type_mismatch => "thrift wire type matching the member's type"
  | too_deep => "thrift nesting within the depth limit"
  | bad_count => "thrift list/map count that fits the remaining bytes"
  | bad_bool => "thrift bool element (0, 1 or 2)"
  | bad_id => "thrift field id within i16"
  | missing_required => "every required thrift field"
  | fault_none => "(no fault)"
  end.

Definition to_error (origin : input) (f : failure) : error :=
  let at_p := i_last origin - f_at f in
  let off := u32 (if negb (at_p =? nullptr) && negb (i_base origin =? nullptr)
                  then u64 (at_p - i_base origin) else offset origin) in
  let e := match f_kind f with
           | truncated => Error (if i_live origin then errk_incomplete else errk_err) off
                            (expected_of truncated) (f_need f) []
           | k => Error errk_err off (expected_of k) 0 []
           end in
  match f_kind f, f_where f with
  | missing_required, Some name => push_context name off e
  | _, _ => e
  end.

(** ** Varints *)

(** [(b & 0x7f) << (7 * i)] in a [uint64_t]. *)
Definition group (b i : Z) : Z := wrap 64 (Z.shiftl (Z.land b 127) (7 * i)).

(** The loop of [varint] without bounds checks, [i] from [10 - k]; [s] is the
    start of the varint. *)
Fixpoint varint_fast (k : nat) (s : list Z) (i r : Z) : dec Z :=
  match k with
  | O => fail bad_varint s 0
  | S k =>
      match zget s i with
      | None => Broken UB
      | Some b =>
          let r := Z.lor r (group b i) in
          if b <? 128 then
            if (i =? 9) && (1 <? b) then fail bad_varint s 0 else Got r (zdrop (i + 1) s)
          else varint_fast k s (i + 1) r
      end
  end.

(** The loop that checks every byte. *)
Fixpoint varint_slow (k : nat) (s : list Z) (i r : Z) : dec Z :=
  match k with
  | O => fail bad_varint s 0
  | S k =>
      if zlen s <=? i then fail truncated [] 1
      else
        match zget s i with
        | None => Broken UB
        | Some b =>
            let r := Z.lor r (group b i) in
            if b <? 128 then
              if (i =? 9) && (1 <? b) then fail bad_varint s 0 else Got r (zdrop (i + 1) s)
            else varint_slow k s (i + 1) r
        end
  end.

Definition varint (p : list Z) : dec Z :=
  if 10 <=? zlen p then
    match zget p 0 with
    | None => Broken UB
    | Some b => if b <? 128 then Got b (zdrop 1 p) else varint_fast 9 p 1 (Z.land b 127)
    end
  else varint_slow 10 p 0 0.

(** [q] runs from [p] to [lim]; [i] is [q - s]. *)
Fixpoint skip_varint_loop (k : nat) (lim : Z) (s : list Z) (i : Z) : dec unit :=
  match k with
  | O => if (lim =? zlen s) && (zlen s <? 10) then fail truncated [] 1 else fail bad_varint s 0
  | S k =>
      match zget s i with
      | None => Broken UB
      | Some b =>
          if b <? 128 then
            if (i =? 9) && (1 <? b) then fail bad_varint s 0 else Got tt (zdrop (i + 1) s)
          else skip_varint_loop k lim s (i + 1)
      end
  end.

Definition skip_varint (p : list Z) : dec unit :=
  let lim := if 10 <=? zlen p then 10 else zlen p in
  skip_varint_loop (Z.to_nat lim) lim p 0.

Definition varint32 (p : list Z) : dec Z :=
  let& (w, q) := varint p in
  if 4294967295 <? w then fail bad_varint p 0 else Got w q.

(** [zigzag<S>] for an [S] of [w] bits. *)
Definition zigzag (w : Z) (p : list Z) : dec Z :=
  let& (u, q) := varint p in
  let d := zigzag_decode 64 u in
  if (d <? - 2 ^ (w - 1)) || (2 ^ (w - 1) - 1 <? d) then fail out_of_range p 0 else Got d q.

(** ** Skipping *)

(** [p += n] past bytes a check has found present. *)
Definition step (n : Z) (p : list Z) : dec unit :=
  if n <=? zlen p then Got tt (zdrop n p) else Broken UB.

(** [for (i = 0; i < n; ++i) if (!f(p)) return false;] *)
Fixpoint times (n : nat) (f : list Z -> dec unit) (p : list Z) : dec unit :=
  match n with
  | O => Got tt p
  | S n => let& (_, p) := f p in times n f p
  end.

Record list_header := ListHeader { h_count : Z; h_elem : Z }.

Definition read_list_header (p : list Z) : dec list_header :=
  match p with
  | [] => fail truncated p 1
  | b :: q =>
      let elem := Z.land b 15 in
      let& (count, q) := if Z.shiftr b 4 =? 15 then varint32 q else Got (Z.shiftr b 4) q in
      if zlen q / min_elem_bytes elem <? count then fail bad_count p 0
      else Got (ListHeader count elem) q
  end.

(** One byte that must be there. *)
Definition skip_byte (p : list Z) : dec unit :=
  match p with [] => fail truncated p 1 | _ :: p => Got tt p end.

(** A varint length and that many bytes. *)
Definition read_binary (p : list Z) : dec (list Z) :=
  let& (n, p) := varint32 p in
  if zlen p <? n then fail truncated [] (n - zlen p) else Got (ztake n p) (zdrop n p).

Definition skip_binary (p : list Z) : dec unit :=
  let& (_, p) := read_binary p in Got tt p.

(** The type of [skip]: [p], the wire type, [in_container], [depth]. *)
Definition skipper := list Z -> Z -> bool -> Z -> dec unit.

Definition skip_elems (sk : skipper) (p : list Z) (h : list_header) (depth : Z) : dec unit :=
  match ctype_of (h_elem h) with
  | Some (bool_true | bool_false | i8) => step (h_count h) p
  | Some dbl => step (h_count h * 8) p
  | Some (i16 | i32 | i64) => times (Z.to_nat (h_count h)) skip_varint p
  | _ => times (Z.to_nat (h_count h)) (fun p => sk p (h_elem h) true (depth + 1)) p
  end.

(** A field's value: scalars inline, containers and structs through [skip]. *)
Definition skip_field (sk : skipper) (p : list Z) (type depth : Z) : dec unit :=
  match ctype_of type with
  | Some (bool_true | bool_false) => Got tt p
  | Some i8 => skip_byte p
  | Some (i16 | i32 | i64) => skip_varint p
  | Some binary => skip_binary p
  | _ => sk p type false depth
  end.

(** The [for (;;)] of [skip_struct]; every round reads a byte. *)
Fixpoint skip_fields (fuel : nat) (sk : skipper) (p : list Z) (depth : Z) : dec unit :=
  match fuel with
  | O => Broken NoFuel
  | S fuel =>
      match p with
      | [] => fail truncated p 1
      | h :: p =>
          if h =? 0 then Got tt p
          else
            let& (_, p) := if Z.shiftr h 4 =? 0 then skip_varint p else Got tt p in
            let& (_, p) := skip_field sk p (Z.land h 15) depth in
            skip_fields fuel sk p depth
      end
  end.

Definition skip_struct (sk : skipper) (p : list Z) (depth : Z) : dec unit :=
  if max_tagged_depth <? depth then fail too_deep p 0
  else skip_fields (S (length p)) sk p depth.

(** [skip]; the recursion is bounded by the depth limit. *)
Fixpoint skip (fuel : nat) (p : list Z) (type : Z) (in_container : bool) (depth : Z) : dec unit :=
  match fuel with
  | O => Broken NoFuel
  | S fuel =>
      match ctype_of type with
      | Some (bool_true | bool_false) => if negb in_container then Got tt p else skip_byte p
      | Some i8 => skip_byte p
      | Some (i16 | i32 | i64) => skip_varint p
      | Some dbl => if zlen p <? 8 then fail truncated [] (8 - zlen p) else step 8 p
      | Some binary => skip_binary p
      | Some (list_ | set_) =>
          if max_tagged_depth <? depth then fail too_deep p 0
          else let& (h, p) := read_list_header p in skip_elems (skip fuel) p h depth
      | Some map_ =>
          if max_tagged_depth <? depth then fail too_deep p 0
          else
            let& (n, q) := varint32 p in
            if n =? 0 then Got tt q
            else match q with
                 | [] => fail truncated q 1
                 | kv :: q =>
                     let kt := Z.shiftr kv 4 in
                     let vt := Z.land kv 15 in
                     if zlen q / (min_elem_bytes kt + min_elem_bytes vt) <? n then fail bad_count p 0
                     else times (Z.to_nat n) (fun q =>
                            let& (_, q) := skip fuel q kt true (depth + 1) in
                            skip fuel q vt true (depth + 1)) q
                 end
      | Some strct_ => skip_struct (skip fuel) p (depth + 1)
      | Some stop_ | None => fail bad_type p 0
      end
  end.

(** ** Decoding *)

(** [T v{}]: the value a member starts with. A message held by value is of a
    type declared before, so [S i] rounds are enough for the [i]-th one. *)
Fixpoint zero (G : list (message ttype)) (fuel : nat) (t : ttype) : tvalue :=
  match t with
  | TBool => VBool false
  | TI8 | TI16 | TI32 | TI64 | TEnum => VInt 0
  | TDouble => VDouble 0
  | TString => VString []
  | TView | TBytes => VView (Bytes nullptr 0 None 0) []
  | TVector _ => VVec []
  | TList _ => VList region_null 0 0 0
  | TLazy _ => VLazy region_null 0
  | TEmpty => VEmpty
  | TMessage i =>
      match fuel, G !! i with
      | S fuel, Some m =>
          VMsg (List.map (fun f => if f_opt f then None else Some (zero G fuel (f_type f))) (m_fields m))
      | _, _ => VMsg []
      end
  end.

Section Decoder.
Context (G : list (message ttype)).
(** [ctx::origin]. *)
Context (origin : input).

Definition init (t : ttype) : tvalue := zero G (S (length G)) t.

(** The address of a pointer, and the range between two of them. *)
Definition address (p : list Z) : Z := i_last origin - zlen p.
Definition range (p q : list Z) : region :=
  Region (with_range origin (address p) (address q)) (ztake (zlen p - zlen q) p).

(** [n] elements, each read by [rd]. *)
Fixpoint read_elems (n : nat) (rd : list Z -> dec tvalue) (p : list Z) (out : list tvalue) : dec (list tvalue) :=
  match n with
  | O => Got out p
  | S n => let& (v, p) := rd p in read_elems n rd p (out ++ [v])
  end.

(** The type of [read_value]: [p], [depth], the member type, what [out] holds. *)
Definition reader := list Z -> Z -> ttype -> tvalue -> dec tvalue.

(** The value of member [f], of wire type [type]: read, or skipped when its
    type is not the member's; and whether it [matched]. *)
Definition read_member (rv : reader) (sk : skipper) (p : list Z) (depth : Z) (f : field ttype) (type : Z)
    (v : option tvalue) : dec (option tvalue * bool) :=
  if negb (wire_ok (type_of (f_type f)) type) then
    let& (_, p) := sk p type false depth in Got (v, false) p
  else
    match f_type f with
    | TBool => Got (Some (VBool (type =? code bool_true)), true) p
    | t =>
        let& (x, p) := rv p depth t (default (init t) v) in Got (Some x, true) p
    end.

(** The id a field header carries: [last] plus its delta, or spelt out. *)
Definition read_id (hb : Z) (last : Z) (p q : list Z) : dec Z :=
  let delta := Z.shiftr hb 4 in
  if delta =? 0 then zigzag 16 q
  else if 32767 <? last + delta then fail bad_id p 0
  else Got (last + delta) q.

(** The value of field [id]: into its member, or skipped when it is unknown.
    Returns [seen] and the members. *)
Definition read_field (rv : reader) (sk : skipper) (m : message ttype) (p : list Z) (depth type id seen : Z)
    (fs : list (option tvalue)) : dec (Z * list (option tvalue)) :=
  let slot := slot_of m id in
  if slot =? no_slot then let& (_, p) := sk p type false depth in Got (seen, fs) p
  else
    match zget (m_fields m) slot, zget fs slot with
    | Some f, Some v =>
        let& (r, p) := read_member rv sk p depth f type v in
        Got (if snd r then Z.lor seen (Z.shiftl 1 slot) else seen, <[Z.to_nat slot := fst r]> fs) p
    | _, _ => Broken UB
    end.

(** The [for (;;)] of [read_struct]; every round reads a byte. *)
Fixpoint read_fields (fuel : nat) (rv : reader) (sk : skipper) (m : message ttype) (start p : list Z)
    (depth seen last : Z) (fs : list (option tvalue)) : dec (list (option tvalue)) :=
  match fuel with
  | O => Broken NoFuel
  | S fuel =>
      match p with
      | [] => fail truncated p 1
      | hb :: q =>
          if hb =? 0 then
            if negb (Z.land seen (required_mask m) =? required_mask m)
            then Failed (Failure missing_required (zlen start) 0 (Some (m_name m)))
            else Got fs q
          else
            let& (id, q) := read_id hb last p q in
            let& (r, q) := read_field rv sk m q depth (Z.land hb 15) id seen fs in
            read_fields fuel rv sk m start q depth (fst r) id (snd r)
      end
  end.

Definition read_struct (rv : reader) (sk : skipper) (p : list Z) (depth : Z) (m : message ttype)
    (fs : list (option tvalue)) : dec (list (option tvalue)) :=
  if max_tagged_depth <? depth then fail too_deep p 0
  else read_fields (S (length p)) rv sk m p p depth 0 0 fs.

Fixpoint read_value (fuel : nat) (p : list Z) (depth : Z) (t : ttype) (out : tvalue) : dec tvalue :=
  match fuel with
  | O => Broken NoFuel
  | S fuel =>
      match t with
      | TBool =>
          match p with
          | [] => fail truncated p 1
          | b :: q => if 2 <? b then fail bad_bool p 0 else Got (VBool (b =? 1)) q
          end
      | TI8 =>
          match p with
          | [] => fail truncated p 1
          | b :: q => Got (VInt (sint 8 b)) q
          end
      | TI16 => let& (v, p) := zigzag 16 p in Got (VInt v) p
      | TI32 | TEnum => let& (v, p) := zigzag 32 p in Got (VInt v) p
      | TI64 => let& (v, p) := zigzag 64 p in Got (VInt v) p
      | TDouble =>
          if zlen p <? 8 then fail truncated [] (8 - zlen p)
          else match load_le 8 p 0 0 with
               | None => Broken UB
               | Some u => Got (VDouble u) (zdrop 8 p)
               end
      | TString => let& (s, p) := read_binary p in Got (VString s) p
      | TView =>
          let& (s, q) := read_binary p in
          Got (VView (Bytes (address q - zlen s) (zlen s) None 0) s) q
      | TBytes =>
          let& (s, q) := read_binary p in
          Got (VView (attested_span origin (address q - zlen s) (zlen s)) s) q
      | TVector e =>
          let& (h, q) := read_list_header p in
          if negb (h_count h =? 0) && negb (wire_ok (type_of e) (h_elem h)) then fail type_mismatch p 0
          else if max_tagged_depth <? depth then fail too_deep p 0
          else
            let& (l, q) :=
              read_elems (Z.to_nat (h_count h)) (fun p => read_value fuel p (depth + 1) e (init e)) q [] in
            Got (VVec l) q
      | TList e =>
          let& (h, body) := read_list_header p in
          if negb (h_count h =? 0) && negb (wire_ok (type_of e) (h_elem h)) then fail type_mismatch p 0
          else if max_tagged_depth <? depth then fail too_deep p 0
          else
            let& (_, q) := skip_elems (skip fuel) body h depth in
            Got (VList (range body q) (h_count h) (h_elem h) (u8 (depth + 1))) q
      | TLazy _ =>
          let& (_, q) := skip_struct (skip fuel) p (depth + 1) in
          Got (VLazy (range p q) (u8 (depth + 1))) q
      | TEmpty => let& (_, q) := skip_struct (skip fuel) p (depth + 1) in Got out q
      | TMessage i =>
          match G !! i, out with
          | Some m, VMsg fs =>
              let& (fs, q) := read_struct (read_value fuel) (skip fuel) p (depth + 1) m fs in
              Got (VMsg fs) q
          | _, _ => Broken UB
          end
      end
  end.

(** Calls nest at most [max_tagged_depth + 2] deep ([read_value_safe]). *)
Definition decode_fuel : nat := Z.to_nat (max_tagged_depth + 2).

End Decoder.

(** ** The parsers *)

(** Run a decoder on the bytes of [in] and return as a parser does:
    [in.advance(p - in.first)] or the recorded error. *)
Definition run {A} (d : list Z -> dec A) : parser A := fun M i =>
  match load M (Z.to_nat (i_last i - i_first i)) (i_first i) with
  | None => Stop UB
  | Some p =>
      match d p with
      | Got v q => Done v (advance i (zlen p - zlen q))
      | Failed f => Err (to_error i f)
      | Broken w => Stop w
      end
  end.

Section Messages.
Context (G : list (message ttype)).

(** [read_value<T>] and [read_struct<M>] called from outside. *)
Definition read_top (origin : input) (p : list Z) (depth : Z) (t : ttype) : dec tvalue :=
  read_value G origin decode_fuel p depth t (init G t).

Definition read_message (origin : input) (p : list Z) (depth : Z) (i : nat) : dec tvalue :=
  match G !! i, init G (TMessage i) with
  | Some m, VMsg fs =>
      let& (fs, q) := read_struct G (read_value G origin decode_fuel) (skip decode_fuel) p depth m fs in
      Got (VMsg fs) q
  | _, _ => Broken UB
  end.

(** [thrift_compact<M>()] for the [k]-th message type. *)
Definition thrift_compact (k : nat) : parser tvalue := fun M i =>
  run (fun p => read_message i p 0 k) M i.

Definition thrift_compact_skip : parser unit :=
  run (fun p => skip_struct (skip decode_fuel) p 0).

(** ** [list<E>] *)
Definition is_source (v : tvalue) : bool :=
  match v with VListOf _ => true | _ => false end.

Definition list_size (v : tvalue) : Z :=
  match v with VListOf l => zlen l | VList _ count _ _ => count | _ => 0 end.

(** How a member function of a view ends: [expected<T, error>], unless it is
    undefined. *)
Definition answer (T : Type) : Type := option (T + error).

(** [f(E)]: the callback threads a state and says whether to go on (one that
    returns void always does). *)
Fixpoint each_source {S} (f : S -> tvalue -> S * bool) (l : list tvalue) (s : S) : S :=
  match l with
  | [] => s
  | v :: l => let (s, go) := f s v in if go then each_source f l s else s
  end.

Fixpoint each_wire {S} (origin : input) (e : ttype) (depth : Z) (f : S -> tvalue -> S * bool) (n : nat)
    (p : list Z) (s : S) : option (S * (unit + error)) :=
  match n with
  | O => Some (s, inl tt)
  | S n =>
      match read_top origin p depth e with
      | Got v p => let (s, go) := f s v in
                   if go then each_wire origin e depth f n p s else Some (s, inl tt)
      | Failed x => Some (s, inr (to_error origin x))
      | Broken _ => None
      end
  end.

Definition for_each {S} (e : ttype) (v : tvalue) (f : S -> tvalue -> S * bool) (s : S) :
    option (S * (unit + error)) :=
  match v with
  | VListOf l => Some (each_source f l s, inl tt)
  | VList r count _ depth => each_wire (r_in r) e depth f (Z.to_nat count) (r_bytes r) s
  | _ => None
  end.

Definition to_vector (e : ttype) (v : tvalue) : answer (list tvalue) :=
  match v with
  | VListOf l => Some (inl l)
  | _ => match for_each e v (fun out x => (out ++ [x], true)) [] with
         | Some (out, inl _) => Some (inl out)
         | Some (_, inr x) => Some (inr x)
         | None => None
         end
  end.

Definition out_of_list (i : input) : error := Error errk_err (u32 (offset i)) "list index in range" 0 [].

Definition list_at (e : ttype) (v : tvalue) (k : Z) : answer tvalue :=
  match v with
  | VListOf l => match zget l k with
                 | Some x => Some (inl x)
                 | None => Some (inr (out_of_list input_null))
                 end
  | VList r count elem depth =>
      if count <=? k then Some (inr (out_of_list (r_in r)))
      else
        match times (Z.to_nat k) (fun p => skip decode_fuel p elem true depth) (r_bytes r) with
        | Got _ p => match read_top (r_in r) p depth e with
                     | Got x _ => Some (inl x)
                     | Failed x => Some (inr (to_error (r_in r) x))
                     | Broken _ => None
                     end
        | Failed x => Some (inr (to_error (r_in r) x))
        | Broken _ => None
        end
  | _ => None
  end.

(** [lazy<M>::decode()]. *)
Definition lazy_decode (k : nat) (v : tvalue) : answer tvalue :=
  match v with
  | VLazyOf m => Some (inl m)
  | VLazy r depth =>
      match read_message (r_in r) (r_bytes r) depth k with
      | Got x _ => Some (inl x)
      | Failed x => Some (inr (to_error (r_in r) x))
      | Broken _ => None
      end
  | _ => None
  end.

End Messages.
