(* ===== verification/TaggedTypes.v ===== *)
(** * Types of decoded messages, and the safety of decoding

    [typed G t v]: [v] is a value of member type [t], which every value the
    decoder builds is. Decoding any bytes against any set of message types
    ends, reads nothing past the end of the input and, on success, yields a
    value of the type asked for. *)
From Stdlib Require Import Sorting.Sorted.
From S2P Require Import Prelude Parser BytesParsers Combinators CombinatorFacts Numbers Messages Tagged.

(** * Facts about the Thrift compact decoder

    The dispatch table against its definition, the two varint loops against
    the LEB128 value, the inlined cases of [skip_elems] and [skip_struct]
    against [skip], the safety of every decoding call, and that whatever
    decodes is skipped to the same place. *)

(** ** Varints *)
Lemma varint_fast_slow k s i r : 0 <= i -> i + Z.of_nat k <= zlen s ->
  varint_fast k s i r = varint_slow k s i r.
Proof.
  revert i r. induction k as [|k IH]; intros i r Hi Hs; [done|]. cbn [varint_fast varint_slow].
  destruct (Z.leb_spec (zlen s) i); [lia|]. destruct (zget s i) as [b|]; [|done]. cbv zeta.
  by rewrite IH by lia.
Qed.

(** The fast path of [varint] is the checked loop. *)
Lemma varint_slow_path p : bytes_ok p -> varint p = varint_slow 10 p 0 0.
Proof.
  intros Hp. unfold varint. destruct (Z.leb_spec 10 (zlen p)) as [H|H]; [|done].
  cbn [varint_slow]. destruct (Z.leb_spec (zlen p) 0); [lia|].
  destruct (zget p 0) as [b|] eqn:Hb; [|done]. pose proof (zget_byte p 0 b Hp Hb) as Hbb. red in Hbb.
  assert (Z.lor 0 (group b 0) = Z.land b 127) as ->.
  { rewrite Z.lor_0_l. unfold group. rewrite Z.shiftl_0_r. apply wrap_small. rewrite land127.
    Z.div_mod_to_equations; lia. }
  cbn [Z.eqb andb]. change (0 + 1) with 1. rewrite varint_fast_slow by (cbn; lia).
  destruct (Z.ltb_spec b 128); [|done]. f_equal. rewrite land127. by rewrite Z.mod_small by lia.
Qed.

(** What [varint] answers on a terminated encoding [t] followed by [rest]. *)
Definition varint_answer (t rest : list Z) : dec Z :=
  if (zlen t <=? 10) && (uleb_val t <? 2 ^ 64) then Got (uleb_val t) rest
  else fail bad_varint (t ++ rest) 0.

Lemma varint_slow_spec t pre rest k i r s :
  s = pre ++ t ++ rest -> bytes_ok t -> leb_shape t = true -> zlen pre = i ->
  i + Z.of_nat k = 10 -> (0 < k)%nat -> 0 <= r < 2 ^ (7 * i) ->
  varint_slow k s i r =
    if (i + zlen t <=? 10) && (r + uleb_val t * 2 ^ (7 * i) <? 2 ^ 64)
    then Got (r + uleb_val t * 2 ^ (7 * i)) rest else fail bad_varint s 0.
Proof.
  intros Hs Ht. revert pre k i r Hs. induction Ht as [|b t Hb Ht IH]; intros pre k i r Hs Hsh Hpre Hk Hk0 Hr; [done|].
  destruct k as [|k]; [lia|]. cbn [varint_slow].
  pose proof (zlen_nonneg pre). pose proof (zlen_nonneg t). pose proof (zlen_nonneg rest).
  pose proof (uleb_val_nonneg t) as Ht0. red in Hb.
  assert (Hlen : zlen s = i + zlen t + 1 + zlen rest)
    by (subst s; rewrite !zlen_app, zlen_cons; lia).
  destruct (Z.leb_spec (zlen s) i); [lia|].
  assert (zget s i = Some b) as ->.
  { subst s. rewrite zget_app_r by lia. by replace (i - zlen pre) with 0 by lia. }
  assert (Hpk : 2 ^ (7 * (i + 1)) = 128 * 2 ^ (7 * i)).
  { replace (7 * (i + 1)) with (7 + 7 * i) by lia. by rewrite Z.pow_add_r by lia. }
  assert (Hpow : 0 < 2 ^ (7 * i)) by (apply Z.pow_pos_nonneg; lia).
  assert (Hb7 : 0 <= b mod 128 < 128) by (apply Z.mod_pos_bound; lia).
  assert (Hi9 : i = 9 \/ i < 9) by lia. cbv zeta. unfold group. cbn [uleb_val]. rewrite zlen_cons, land127.
  destruct (Z.ltb_spec b 128) as [Hb1|Hb1].
  - destruct t as [|c t]; [|cbn in Hsh; destruct (Z.leb_spec 128 b); [lia|done]].
    rewrite (Z.mod_small b) by lia. cbn [uleb_val]. rewrite Z.mul_0_r, Z.add_0_r.
    assert (Hrest : zdrop (i + 1) s = rest).
    { subst s. rewrite zdrop_app_r by lia. replace (i + 1 - zlen pre) with 1 by lia. done. }
    destruct (Z.leb_spec (i + (zlen (@nil Z) + 1)) 10) as [_|Hbad]; [|unfold zlen in Hbad; cbn in Hbad; lia].
    rewrite andb_true_l.
    destruct Hi9 as [->|Hi9].
    + cbn [Z.eqb andb]. change (2 ^ (7 * 9)) with 9223372036854775808 in *.
      change (2 ^ 64) with 18446744073709551616.
      destruct (Z.ltb_spec 1 b).
      * destruct (Z.ltb_spec (r + b * 9223372036854775808) 18446744073709551616); [lia|done].
      * destruct (Z.ltb_spec (r + b * 9223372036854775808) 18446744073709551616); [|lia].
        rewrite Hrest. f_equal. apply leb_accumulate; lia.
    + destruct (Z.eqb_spec i 9); [lia|]. cbn [andb].
      assert (2 ^ (7 * (i + 1)) <= 2 ^ 64) by (apply Z.pow_le_mono_r; lia).
      rewrite leb_accumulate by nia. rewrite Hrest.
      destruct (Z.ltb_spec (r + b * 2 ^ (7 * i)) (2 ^ 64)); [done|nia].
  - destruct t as [|c t]; [cbn in Hsh; destruct (Z.ltb_spec b 128); [lia|done]|].
    pose proof (zlen_nonneg t). rewrite (zlen_cons c t) in *.
    destruct Hi9 as [->|Hi9].
    + assert (k = 0%nat) as -> by lia. cbn [varint_slow].
      by destruct (Z.leb_spec (9 + (zlen t + 1 + 1)) 10); [lia|].
    + assert (2 ^ (7 * (i + 1)) <= 2 ^ 64) by (apply Z.pow_le_mono_r; lia).
      rewrite leb_accumulate by nia.
      rewrite (IH (pre ++ [b]) k (i + 1)).
      * replace (i + 1 + (zlen t + 1)) with (i + (zlen t + 1 + 1)) by lia.
        replace (r + b mod 128 * 2 ^ (7 * i) + uleb_val (c :: t) * 2 ^ (7 * (i + 1)))
          with (r + (b mod 128 + 128 * uleb_val (c :: t)) * 2 ^ (7 * i)) by (rewrite Hpk; lia).
        done.
      * subst s. by rewrite <- app_assoc.
      * cbn in Hsh. by apply andb_true_iff in Hsh as [_ ?].
      * rewrite zlen_app. unfold zlen in *. cbn. lia.
      * lia.
      * lia.
      * nia.
Qed.

Lemma varint_terminated t rest : bytes_ok (t ++ rest) -> leb_shape t = true ->
  varint (t ++ rest) = varint_answer t rest.
Proof.
  intros Hb Hs. rewrite varint_slow_path by done. apply Forall_app in Hb as [Ht _].
  rewrite (varint_slow_spec t [] rest) by (done || lia).
  change (2 ^ (7 * 0)) with 1. by rewrite Z.mul_1_r, !Z.add_0_l.
Qed.

Lemma varint_slow_unterminated k s i r : bytes_ok s -> Forall (fun b => 128 <= b) s ->
  0 <= i <= zlen s -> i + Z.of_nat k = 10 ->
  varint_slow k s i r = if zlen s <? 10 then fail truncated [] 1 else fail bad_varint s 0.
Proof.
  intros Hs Hc. revert i r. induction k as [|k IH]; intros i r Hi Hk; cbn [varint_slow].
  - destruct (Z.ltb_spec (zlen s) 10); [lia|done].
  - destruct (Z.leb_spec (zlen s) i).
    + by destruct (Z.ltb_spec (zlen s) 10); [|lia].
    + destruct (proj2 (zget_is_Some s i)) as [b Hb]; [lia|]. rewrite Hb.
      assert (128 <= b).
      { unfold zget in Hb. destruct (_ <? 0); [done|]. by eapply Forall_lookup_1 in Hc. }
      destruct (Z.ltb_spec b 128); [lia|]. cbv zeta. apply IH; lia.
Qed.

Lemma varint_unterminated s : bytes_ok s -> Forall (fun b => 128 <= b) s ->
  varint s = if zlen s <? 10 then fail truncated [] 1 else fail bad_varint s 0.
Proof.
  intros Hs Hc. rewrite varint_slow_path by done. pose proof (zlen_nonneg s).
  apply varint_slow_unterminated; done || lia.
Qed.

(** [skip_varint] accepts and rejects what [varint] does. *)
Lemma skip_varint_loop_eq k k' s i r lim : lim = Z.min 10 (zlen s) -> 0 <= i ->
  i + Z.of_nat k = lim -> i + Z.of_nat k' = 10 ->
  skip_varint_loop k lim s i = let& (_, q) := varint_slow k' s i r in Got tt q.
Proof.
  intros Hlim. revert k' i r. induction k as [|k IH]; intros k' i r Hi Hk Hk'; cbn [skip_varint_loop].
  - destruct k' as [|k']; cbn [varint_slow].
    + destruct (Z.ltb_spec (zlen s) 10); [lia|]. by rewrite andb_false_r.
    + destruct (Z.ltb_spec (zlen s) 10); [|lia]. destruct (Z.eqb_spec lim (zlen s)); [|lia].
      by destruct (Z.leb_spec (zlen s) i); [|lia].
  - destruct k' as [|k']; [lia|]. cbn [varint_slow]. destruct (Z.leb_spec (zlen s) i); [lia|].
    destruct (zget s i) as [b|]; [|done]. cbv zeta. destruct (b <? 128).
    + by destruct (_ && _).
    + apply IH; lia.
Qed.

Lemma skip_varint_eq p : bytes_ok p -> skip_varint p = let& (_, q) := varint p in Got tt q.
Proof.
  intros Hp. rewrite varint_slow_path by done. unfold skip_varint. cbv zeta. pose proof (zlen_nonneg p).
  apply skip_varint_loop_eq; destruct (Z.leb_spec 10 (zlen p)); lia.
Qed.

(** ** Safety

    A decoding call on [p] is sound when it ends, without an undefined read,
    in a value satisfying [P] and a pointer between [p] and [e], or in a fault
    located there. *)
Definition sound {A} (P : A -> Prop) (p : list Z) (r : dec A) : Prop :=
  match r with
  | Got v q => q `suffix_of` p /\ P v
  | Failed f => 0 <= f_at f <= zlen p /\ 0 <= f_need f <= max_incomplete_needed /\ f_kind f <> fault_none
  | Broken _ => False
  end.


Lemma sound_mono {A} (P Q : A -> Prop) p q r :
  sound P q r -> q `suffix_of` p -> (forall v, P v -> Q v) -> sound Q p r.
Proof.
  destruct r as [v s|f|]; cbn; [|intros (? & ? & ?) Hs%suffix_zlen ?; split_and!; done || lia|done].
  intros [? ?] ? ?. split; [by etrans|auto].
Qed.

Lemma sound_suffix {A} (P : A -> Prop) p q r : sound P q r -> q `suffix_of` p -> sound P p r.
Proof. intros. by eapply sound_mono. Qed.

Lemma sound_bind {A B} (P : A -> Prop) (Q : B -> Prop) p r k :
  sound P p r -> (forall v q, P v -> q `suffix_of` p -> r = Got v q -> sound Q p (k v q)) ->
  sound Q p (dbind r k).
Proof. destruct r as [v q|f|]; cbn; [|done|done]. intros [Hq Hv] H. by apply H. Qed.

Lemma sound_fail {A} (P : A -> Prop) k p q need :
  q `suffix_of` p -> 0 <= need -> k <> fault_none -> sound P p (fail k q need).
Proof.
  intros Hq%suffix_zlen Hn Hk. unfold fail. cbn [sound f_at f_need f_kind]. pose proof (zlen_nonneg q).
  assert (0 <= Z.min need max_incomplete_needed <= max_incomplete_needed) by (unfold max_incomplete_needed; lia).
  rewrite wrap_small by (unfold max_incomplete_needed in *; lia). split_and!; done || lia.
Qed.

Lemma sound_got {A} (P : A -> Prop) p q v : q `suffix_of` p -> P v -> sound P p (Got v q).
Proof. done. Qed.

#[export] Hint Resolve sound_fail sound_got : tagged.

(** Chain the steps of a decoding call. *)
Ltac sound_step :=
  match goal with
  | |- sound _ _ (dbind _ _) => eapply sound_bind; [|intros ? ? ? ? ?]
  | |- sound _ _ (fail _ _ _) => apply sound_fail; [eauto with tagged| |done]
  | |- sound _ _ (Got _ _) => apply sound_got; [eauto with tagged|]
  | |- sound _ _ (if ?a <? ?b then _ else _) => destruct (Z.ltb_spec a b)
  | |- sound _ _ (if ?a =? ?b then _ else _) => destruct (Z.eqb_spec a b)
  | |- sound _ _ (if ?b then _ else _) => destruct b eqn:?
  end.

Lemma sound_varint_slow k s i r : 0 <= i -> i + Z.of_nat k <= 10 -> sound (fun _ => True) s (varint_slow k s i r).
Proof.
  revert i r. induction k as [|k IH]; intros i r Hi Hk; cbn [varint_slow]; [by sound_step|].
  destruct (Z.leb_spec (zlen s) i); [by sound_step|].
  destruct (proj2 (zget_is_Some s i)) as [b ->]; [lia|]. cbv zeta.
  repeat sound_step; try done. apply IH; lia.
Qed.

Lemma varint_slow_range k s i r v q : 0 <= i -> 0 <= r < 2 ^ 64 -> varint_slow k s i r = Got v q -> 0 <= v < 2 ^ 64.
Proof.
  revert i r. induction k as [|k IH]; intros i r Hi Hr; cbn [varint_slow]; [done|].
  destruct (zlen s <=? i); [done|]. destruct (zget s i) as [b|]; [|done]. cbv zeta.
  assert (0 <= Z.lor r (group b i) < 2 ^ 64) by (apply lor_range; [lia|done|apply wrap_range; lia]).
  destruct (b <? 128); [destruct (_ && _); [done|]; intros [= <- _]; done|]. apply IH; lia || done.
Qed.

Lemma sound_varint p : bytes_ok p -> sound (fun v => 0 <= v < 2 ^ 64) p (varint p).
Proof.
  intros Hp. rewrite varint_slow_path by done. pose proof (sound_varint_slow 10 p 0 0) as H.
  destruct (varint_slow 10 p 0 0) eqn:E; [|by apply H|by apply H]. destruct H as [? _]; [lia|lia|].
  split; [done|]. by eapply (varint_slow_range 10 p 0 0).
Qed.

Lemma sound_skip_varint p : bytes_ok p -> sound (fun _ => True) p (skip_varint p).
Proof. intros Hp. rewrite skip_varint_eq by done. sound_step; [by apply sound_varint|]. by sound_step. Qed.

Lemma sound_varint32 p : bytes_ok p -> sound (fun v => 0 <= v < 2 ^ 32) p (varint32 p).
Proof.
  intros Hp. unfold varint32. sound_step; [by apply sound_varint|].
  cbn beta in *. repeat sound_step; cbn beta; lia.
Qed.

(** A call made at [q], a suffix of the pointer the claim is about. *)
Ltac sound_at lem := eapply sound_suffix; [apply lem|]; eauto with tagged.

Lemma sound_zigzag w p : bytes_ok p ->
  sound (fun v => - 2 ^ (w - 1) <= v < 2 ^ (w - 1)) p (zigzag w p).
Proof.
  intros Hp. unfold zigzag. sound_step; [by apply sound_varint|]. cbv zeta.
  destruct (Z.ltb_spec (zigzag_decode 64 v) (- 2 ^ (w - 1))); cbn [orb]; [by sound_step|].
  destruct (Z.ltb_spec (2 ^ (w - 1) - 1) (zigzag_decode 64 v)); [by sound_step|].
  sound_step. lia.
Qed.

Lemma land15_range b : is_byte b -> 0 <= Z.land b 15 < 16.
Proof. intros Hb. change 15 with (Z.ones 4). rewrite Z.land_ones by lia. apply Z.mod_pos_bound. lia. Qed.

Lemma shiftr4_range b : is_byte b -> 0 <= Z.shiftr b 4 < 16.
Proof. intros Hb. red in Hb. rewrite Z.shiftr_div_pow2 by lia. Z.div_mod_to_equations; lia. Qed.

Lemma min_elem_bytes_pos t : 1 <= min_elem_bytes t <= 8.
Proof. unfold min_elem_bytes. destruct (_ =? _); lia. Qed.

(** A count that passed the header's check. *)
Definition header_ok (q : list Z) (h : list_header) : Prop :=
  0 <= h_count h < 2 ^ 32 /\ 0 <= h_elem h < 16 /\ h_count h * min_elem_bytes (h_elem h) <= zlen q.

Lemma sound_read_list_header p : bytes_ok p ->
  sound (fun h => 0 <= h_count h < 2 ^ 32 /\ 0 <= h_elem h < 16) p (read_list_header p).
Proof.
  intros Hp. unfold read_list_header. destruct p as [|b p]; [by sound_step|].
  apply Forall_cons in Hp as [Hb Hp]. pose proof (land15_range b Hb). pose proof (shiftr4_range b Hb). cbv zeta.
  eapply (sound_bind (fun v => 0 <= v < 2 ^ 32)).
  - sound_step; [sound_at sound_varint32|]. sound_step. lia.
  - intros v q Hv Hq _. by repeat sound_step.
Qed.

Lemma read_list_header_ok p h q : bytes_ok p -> read_list_header p = Got h q -> header_ok q h.
Proof.
  intros Hp E. pose proof (sound_read_list_header p Hp) as Hs. rewrite E in Hs. destruct Hs as [_ [? ?]].
  split_and!; [lia..|]. unfold read_list_header in E. destruct p as [|b p]; [done|]. cbv zeta in E.
  destruct (if _ =? 15 then _ else _) as [v s| |]; [|done|done]. cbn [dbind] in E.
  pose proof (min_elem_bytes_pos (Z.land b 15)) as Hm.
  destruct (Z.ltb_spec (zlen s / min_elem_bytes (Z.land b 15)) v) as [|Hc]; [done|].
  injection E as <- <-. cbn. rewrite Z.mul_comm.
  etrans; [apply Z.mul_le_mono_nonneg_l; [lia|exact Hc]|]. apply Z.mul_div_le. lia.
Qed.

Lemma sound_skip_byte p : sound (fun _ => True) p (skip_byte p).
Proof. destruct p; cbn [skip_byte]; by sound_step. Qed.

Lemma sound_read_binary p : bytes_ok p ->
  sound (fun s => bytes_ok s /\ zlen s < 2 ^ 32 /\ zlen s <= zlen p) p (read_binary p).
Proof.
  intros Hp. unfold read_binary. sound_step; [by apply sound_varint32|]. cbn beta in *.
  destruct (Z.ltb_spec (zlen q) v); [sound_step; lia|]. apply sound_got.
  - etrans; [apply suffix_zdrop|done].
  - split; [apply bytes_ok_ztake; eauto with tagged|]. rewrite zlen_ztake by lia.
    apply suffix_zlen in H0. lia.
Qed.

Lemma sound_skip_binary p : bytes_ok p -> sound (fun _ => True) p (skip_binary p).
Proof. intros Hp. unfold skip_binary. sound_step; [by apply sound_read_binary|]. by sound_step. Qed.

Lemma sound_step_by n p : n <= zlen p -> sound (fun _ => True) p (step n p).
Proof. intros Hn. unfold step. destruct (Z.leb_spec n (zlen p)); [|lia]. by sound_step. Qed.

Lemma sound_times n f p : (forall q, q `suffix_of` p -> sound (fun _ => True) q (f q)) ->
  sound (fun _ => True) p (times n f p).
Proof.
  intros Hf. assert (forall q, q `suffix_of` p -> sound (fun _ => True) p (times n f q)) as H; [|by apply H].
  induction n as [|n IH]; intros q Hq; cbn [times]; [by sound_step|].
  sound_step; [|by apply IH]. eapply sound_suffix; [by apply Hf|done].
Qed.

(** What [skip] promises its callers at a depth. *)
Definition skips (sk : skipper) (depth : Z) : Prop :=
  forall p t c, bytes_ok p -> sound (fun _ => True) p (sk p t c depth).

Lemma ctype_of_code t c : ctype_of t = Some c -> code c = t.
Proof.
  intros H. pose proof (zget_Some_range _ _ _ H) as Ht. change (zlen _) with 13 in Ht.
  assert (forall t c, In t (seqZ 0 13) -> ctype_of t = Some c -> code c = t) as Hall; [|apply Hall; [|done]].
  - intros t' c' Hin. cbn in Hin. repeat destruct Hin as [<-|Hin]; [cbn; by intros [= <-]..|done].
  - apply in_seqZ. lia.
Qed.

Lemma sound_skip_elems sk p h depth : bytes_ok p -> header_ok p h -> skips sk (depth + 1) ->
  sound (fun _ => True) p (skip_elems sk p h depth).
Proof.
  intros Hp (Hc & He & Hm) Hsk. unfold skip_elems, min_elem_bytes in *.
  destruct (ctype_of (h_elem h)) as [c|] eqn:E.
  - apply ctype_of_code in E as Hcode.
    destruct c; try (apply sound_times; intros q Hq; apply sound_skip_varint || apply Hsk; eauto with tagged);
      apply sound_step_by; rewrite <- Hcode in Hm; cbn in Hm; lia.
  - apply sound_times. intros q Hq. apply Hsk. eauto with tagged.
Qed.

Lemma sound_skip_field sk p type depth : bytes_ok p -> skips sk depth ->
  sound (fun _ => True) p (skip_field sk p type depth).
Proof.
  intros Hp Hsk. unfold skip_field. destruct (ctype_of type) as [[]|]; first
    [by sound_step|apply sound_skip_byte|by apply sound_skip_varint|by apply sound_skip_binary|by apply Hsk].
Qed.

Lemma sound_skip_fields fuel sk p depth : bytes_ok p -> (length p < fuel)%nat -> skips sk depth ->
  sound (fun _ => True) p (skip_fields fuel sk p depth).
Proof.
  intros Hp Hf Hsk. revert p Hp Hf. induction fuel as [|fuel IH]; intros p Hp Hf; [lia|]. cbn [skip_fields].
  destruct p as [|h p]; [by sound_step|]. apply Forall_cons in Hp as [Hh Hp]. cbn in Hf.
  sound_step; [by sound_step|]. apply (sound_suffix _ _ p); [|eauto with tagged].
  apply (sound_bind (fun _ => True)).
  { sound_step; [by apply sound_skip_varint|by sound_step]. }
  intros _ q _ Hq _. assert (bytes_ok q) by eauto with tagged.
  apply (sound_bind (fun _ => True)).
  { eapply sound_suffix; [by apply sound_skip_field|exact Hq]. }
  intros _ s _ Hs _. eapply sound_suffix; [|exact Hs]. apply IH; [eauto with tagged|].
  apply suffix_length in Hs. lia.
Qed.

Lemma sound_skip_struct sk p depth : bytes_ok p -> (depth <= max_tagged_depth -> skips sk depth) ->
  sound (fun _ => True) p (skip_struct sk p depth).
Proof.
  intros Hp Hsk. unfold skip_struct. destruct (Z.ltb_spec max_tagged_depth depth); [by sound_step|].
  apply sound_skip_fields; [done|lia|auto].
Qed.

(** Fuel that outlasts the nesting the depth limit leaves at [depth]. *)
Definition enough (n : nat) (depth : Z) : Prop := (1 <= n)%nat /\ max_tagged_depth + 2 - depth <= Z.of_nat n.

Lemma enough_S n depth : enough (S n) depth -> depth <= max_tagged_depth -> enough n (depth + 1).
Proof. unfold enough, max_tagged_depth. lia. Qed.

Lemma enough_decode_fuel depth : 0 <= depth -> enough decode_fuel depth.
Proof. unfold enough, decode_fuel, max_tagged_depth. lia. Qed.

#[export] Hint Resolve enough_S enough_decode_fuel : tagged.

Lemma sound_skip n depth : enough n depth -> skips (skip n) depth.
Proof.
  revert depth. induction n as [|n IH]; intros depth Hn p t c Hp; [destruct Hn; lia|]. cbn [skip].
  assert (depth <= max_tagged_depth -> skips (skip n) (depth + 1)) as Hrec by eauto with tagged.
  destruct (ctype_of t) as [[]|]; try (by sound_step);
    try (first [apply sound_skip_byte|apply sound_skip_varint; done|apply sound_skip_binary; done]).
  - destruct c; cbn [negb]; [apply sound_skip_byte|by sound_step].
  - destruct c; cbn [negb]; [apply sound_skip_byte|by sound_step].
  - destruct (Z.ltb_spec (zlen p) 8); [sound_step; lia|]. apply sound_step_by. lia.
  - sound_step; [by sound_step|]. sound_step; [by apply sound_read_list_header|].
    sound_at sound_skip_elems. by eapply read_list_header_ok.
  - sound_step; [by sound_step|]. sound_step; [by apply sound_read_list_header|].
    sound_at sound_skip_elems. by eapply read_list_header_ok.
  - sound_step; [by sound_step|]. sound_step; [by apply sound_varint32|].
    sound_step; [by sound_step|]. destruct q as [|kv q]; [by sound_step|]. cbv zeta.
    sound_step; [by sound_step|]. eapply (sound_suffix _ _ q); [|etrans; [|done]; eauto with tagged].
    assert (bytes_ok q) by (eapply bytes_ok_suffix; [etrans; [|done]; eauto with tagged|done]).
    apply sound_times. intros s Hs. assert (bytes_ok s) by eauto with tagged.
    apply (sound_bind (fun _ => True)); [by apply Hrec|]. intros _ r _ Hr _.
    eapply sound_suffix; [|exact Hr]. apply Hrec; eauto with tagged.
  - apply sound_skip_struct; [done|]. intros ?. apply Hrec. lia.
Qed.

(** Fuel that is enough is as good as more. *)
Lemma times_ext n f g p : (forall p, f p = g p) -> times n f p = times n g p.
Proof. intros H. revert p. induction n as [|n IH]; intros p; cbn [times]; [done|]. rewrite H. destruct (g p); cbn [dbind]; auto. Qed.

Definition same_skip (sk sk' : skipper) (depth : Z) : Prop := forall p t c, sk p t c depth = sk' p t c depth.

Lemma skip_elems_ext sk sk' p h depth : same_skip sk sk' (depth + 1) -> skip_elems sk p h depth = skip_elems sk' p h depth.
Proof.
  intros Hs. unfold skip_elems. destruct (ctype_of (h_elem h)) as [[]|]; try done; apply times_ext; intros q; apply Hs.
Qed.

Lemma skip_fields_ext sk sk' fuel p depth : same_skip sk sk' depth -> skip_fields fuel sk p depth = skip_fields fuel sk' p depth.
Proof.
  intros Hs. revert p. induction fuel as [|fuel IH]; intros p; cbn [skip_fields]; [done|].
  destruct p as [|h p]; [done|]. destruct (h =? 0); [done|].
  destruct (if Z.shiftr h 4 =? 0 then skip_varint p else Got tt p) as [u q| |]; cbn [dbind]; [|done|done].
  assert (skip_field sk q (Z.land h 15) depth = skip_field sk' q (Z.land h 15) depth) as ->.
  { unfold skip_field. destruct (ctype_of _) as [[]|]; try done; apply Hs. }
  destruct (skip_field sk' q (Z.land h 15) depth); cbn [dbind]; auto.
Qed.

Lemma skip_struct_ext sk sk' p depth : (depth <= max_tagged_depth -> same_skip sk sk' depth) -> skip_struct sk p depth = skip_struct sk' p depth.
Proof. intros Hs. unfold skip_struct. destruct (Z.ltb_spec max_tagged_depth depth); [done|]. by apply skip_fields_ext, Hs. Qed.

Lemma skip_fuel n n' depth : enough n depth -> enough n' depth -> same_skip (skip n) (skip n') depth.
Proof.
  revert n' depth. induction n as [|n IH]; intros n' depth Hn Hn' p t c; [destruct Hn; lia|]. destruct n' as [|n']; [destruct Hn'; lia|].
  cbn [skip]. assert (depth <= max_tagged_depth -> same_skip (skip n) (skip n') (depth + 1)) as Hrec by (intros; apply IH; eauto with tagged).
  destruct (ctype_of t) as [[]|]; try done.
  - destruct (Z.ltb_spec max_tagged_depth depth); [done|]. destruct (read_list_header p); cbn [dbind]; [|done|done]. by apply skip_elems_ext, Hrec.
  - destruct (Z.ltb_spec max_tagged_depth depth); [done|]. destruct (read_list_header p); cbn [dbind]; [|done|done]. by apply skip_elems_ext, Hrec.
  - destruct (Z.ltb_spec max_tagged_depth depth) as [|Hd]; [done|]. destruct (varint32 p) as [k q| |]; cbn [dbind]; [|done|done]. destruct (k =? 0); [done|].
    destruct q as [|kv q]; [done|]. cbv zeta. destruct (_ <? _); [done|]. apply times_ext. intros s. rewrite (Hrec Hd).
    destruct (skip n' s _ true (depth + 1)); cbn [dbind]; [|done|done]. by rewrite (Hrec Hd).
  - apply skip_struct_ext. intros Hd. apply Hrec. lia.
Qed.

(** ** Types *)
(** The bytes of a region are the ones between its ends. *)
Definition region_ok (r : region) : bool :=
  all_bytes (r_bytes r) && (i_last (r_in r) - i_first (r_in r) =? zlen (r_bytes r)).

(** One check per member, the values against the fields. *)
Definition check_fields (ck : ttype -> tvalue -> bool) :=
  fix go (vs : list (option tvalue)) (fs : list (field ttype)) {struct vs} : bool :=
    match vs, fs with
    | [], [] => true
    | Some v :: vs, f :: fs => ck (f_type f) v && go vs fs
    | None :: vs, f :: fs => f_opt f && go vs fs
    | _, _ => false
    end.

Fixpoint typed (G : list (message ttype)) (t : ttype) (v : tvalue) {struct v} : bool :=
  match v, t with
  | VBool _, TBool => true
  | VInt x, TI8 => in_width 8 x
  | VInt x, TI16 => in_width 16 x
  | VInt x, (TI32 | TEnum) => in_width 32 x
  | VInt x, TI64 => in_width 64 x
  | VDouble u, TDouble => (0 <=? u) && (u <? 2 ^ 64)
  | VString s, TString => all_bytes s
  | VView b s, (TView | TBytes) => all_bytes s && (b_size b =? zlen s)
  | VVec l, TVector e => forallb (typed G e) l
  | VListOf l, TList e => forallb (typed G e) l
  | VList r count elem depth, TList e =>
      region_ok r && (0 <=? count) && (count <? 2 ^ 32) && (0 <=? elem) && (elem <? 16) && (0 <=? depth) && (depth <? 256) &&
      ((count =? 0) || wire_ok (type_of e) elem)
  | VLazyOf m, TLazy i => typed G (TMessage i) m
  | VLazy r depth, TLazy i => region_ok r && (0 <=? depth) && (depth <? 256)
  | VEmpty, TEmpty => true
  | VMsg vs, TMessage i =>
      match G !! i with
      | Some m => check_fields (typed G) vs (m_fields m)
      | None => false
      end
  | _, _ => false
  end.

(** Every message a type mentions is in the environment. *)
Fixpoint scoped (G : list (message ttype)) (t : ttype) : bool :=
  match t with
  | TVector e | TList e => scoped G e
  | TLazy i | TMessage i => bool_decide (i < length G)%nat
  | _ => true
  end.

(** A member held by value is of a complete type, declared before. *)
Definition complete (k : nat) (t : ttype) : bool :=
  match t with TMessage i => bool_decide (i < k)%nat | _ => true end.

(** A message type the codec takes: [pb_unknown] is protobuf-only. *)
Definition thrift_ok (m : message ttype) : bool := message_ok m && negb (has_unknown m).

(** What compiling the message types establishes. *)
Fixpoint env_ok_from (G : list (message ttype)) (k : nat) (l : list (message ttype)) : bool :=
  match l with
  | [] => true
  | m :: l => thrift_ok m && forallb (fun f => scoped G (f_type f) && complete k (f_type f)) (m_fields m) &&
              env_ok_from G (S k) l
  end.
Definition env_ok (G : list (message ttype)) : bool := env_ok_from G 0 G.

(** ** Induction on values *)
Section TvalueInd.
Context (P : tvalue -> Prop).
Context (Hbool : forall b, P (VBool b)) (Hint : forall x, P (VInt x)) (Hdbl : forall u, P (VDouble u)).
Context (Hstr : forall s, P (VString s)) (Hview : forall b s, P (VView b s)).
Context (Hvec : forall l, Forall P l -> P (VVec l)) (Hlof : forall l, Forall P l -> P (VListOf l)).
Context (Hlist : forall r c w d, P (VList r c w d)) (Hlazy : forall r d, P (VLazy r d)).
Context (Hlzof : forall m, P m -> P (VLazyOf m)) (Hemp : P VEmpty).
Context (Hmsg : forall fs, Forall (fun ov => match ov with Some v => P v | None => True end) fs -> P (VMsg fs)).

Fixpoint tvalue_rec' (v : tvalue) : P v :=
  let fix go l : Forall P l :=
    match l with [] => Forall_nil_2 P | v :: l => Forall_cons_2 P v l (tvalue_rec' v) (go l) end in
  let fix gom l : Forall (fun ov => match ov with Some v => P v | None => True end) l :=
    match l with
    | [] => Forall_nil_2 _
    | Some v :: l => Forall_cons_2 (fun ov => match ov with Some v => P v | None => True end) (Some v) l (tvalue_rec' v) (gom l)
    | None :: l => Forall_cons_2 (fun ov => match ov with Some v => P v | None => True end) None l I (gom l)
    end in
  match v with
  | VBool b => Hbool b | VInt x => Hint x | VDouble u => Hdbl u | VString s => Hstr s
  | VView b s => Hview b s | VVec l => Hvec l (go l) | VListOf l => Hlof l (go l)
  | VList r c w d => Hlist r c w d | VLazy r d => Hlazy r d | VLazyOf m => Hlzof m (tvalue_rec' m)
  | VEmpty => Hemp | VMsg fs => Hmsg fs (gom fs)
  end.

Lemma tvalue_ind' v : P v.
Proof using All. exact (tvalue_rec' v). Qed.
End TvalueInd.

(** ** Facts about types *)
(** A member's value: one of its type, or absent if optional. *)
Definition typed_member (G : list (message ttype)) (ov : option tvalue) (f : field ttype) : Prop :=
  match ov with Some v => typed G (f_type f) v = true | None => f_opt f = true end.

Lemma check_fields_Forall2 G vs fs :
  check_fields (typed G) vs fs = true <-> Forall2 (typed_member G) vs fs.
Proof.
  revert fs. induction vs as [|[v|] vs IH]; intros [|f fs]; cbn; rewrite ?andb_true_iff, ?IH.
  1: by split; [constructor|]. all: try (by split; [|inversion 1]).
  all: split; [intros [? ?]; by constructor|by inversion 1].
Qed.

Lemma typed_message G i m vs : G !! i = Some m ->
  typed G (TMessage i) (VMsg vs) = true <-> Forall2 (typed_member G) vs (m_fields m).
Proof. intros E. cbn [typed]. rewrite E. apply check_fields_Forall2. Qed.

Lemma typed_message_inv G i v : typed G (TMessage i) v = true ->
  exists m vs, G !! i = Some m /\ v = VMsg vs /\ Forall2 (typed_member G) vs (m_fields m).
Proof.
  destruct v as [| | | | | | | | | | |vs]; try done. cbn [typed]. destruct (G !! i) as [m|] eqn:E; [|done].
  intros H%check_fields_Forall2. eauto.
Qed.

Lemma thrift_ok_message m : thrift_ok m = true -> message_ok m = true.
Proof. intros [? _]%andb_true_iff. done. Qed.

Lemma thrift_ok_ids m : thrift_ok m = true -> StronglySorted Z.lt (ids m) /\ Forall (fun id => 1 <= id <= 32767) (ids m) /\ zlen (ids m) <= 64.
Proof.
  intros [Hm Hu%negb_true_iff]%andb_true_iff. destruct (message_ok_ids m Hm) as (? & _ & ?). split_and!; [done|by apply known_ids|done].
Qed.

Section Env.
Context (G : list (message ttype)) (HG : env_ok G = true).

Lemma env_ok_lookup i m : G !! i = Some m ->
  thrift_ok m = true /\ Forall (fun f => scoped G (f_type f) = true /\ complete i (f_type f) = true) (m_fields m).
Proof using HG.
  unfold env_ok in HG. intros Hm.
  assert (forall k l, env_ok_from G k l = true -> forall j, l !! j = Some m ->
    thrift_ok m = true /\ Forall (fun f => scoped G (f_type f) = true /\ complete (k + j) (f_type f) = true) (m_fields m)) as H.
  - intros k l. revert k. induction l as [|m' l IH]; intros k Hl j Hj; [done|].
    cbn [env_ok_from] in Hl. apply andb_true_iff in Hl as [[H1 H2]%andb_true_iff H3].
    destruct j as [|j].
    + injection Hj as ->. split; [done|]. rewrite Nat.add_0_r. apply forallb_Forall in H2.
      eapply Forall_impl; [exact H2|]. intros f. apply andb_true_iff.
    + replace (k + S j)%nat with (S k + j)%nat by lia. by apply IH.
  - by apply (H 0%nat G).
Qed.

Lemma zero_typed fuel t : scoped G t = true -> complete fuel t = true -> typed G t (zero G fuel t) = true.
Proof using HG.
  revert t. induction fuel as [|fuel IH]; intros t Hs Hc; destruct t as [| | | | | | | | | | | | | |i]; try done;
    apply bool_decide_eq_true in Hc; try lia.
  cbn [scoped] in Hs. apply bool_decide_eq_true in Hs. destruct (lookup_lt_is_Some_2 G i Hs) as [m Hm].
  cbn [zero]. rewrite Hm. rewrite (typed_message G i m) by done.
  destruct (env_ok_lookup i m Hm) as [_ Hf]. induction Hf as [|f fs [Hfs Hfc] Hf IHf]; [constructor|].
  constructor; [|done]. unfold typed_member. destruct (f_opt f); [done|]. apply IH; [done|].
  unfold complete in *. destruct (f_type f); try done. apply bool_decide_eq_true in Hfc.
  apply bool_decide_eq_true. lia.
Qed.

Lemma scoped_complete t k : scoped G t = true -> (length G <= k)%nat -> complete k t = true.
Proof using.
  destruct t; try done. cbn. intros H%bool_decide_eq_true ?. apply bool_decide_eq_true. lia.
Qed.

Lemma init_typed t : scoped G t = true -> typed G t (init G t) = true.
Proof using HG. intros Ht. apply zero_typed; [done|]. apply scoped_complete; [done|lia]. Qed.

(** ** Decoding is sound *)
Context (origin : input).

Lemma sound_read_elems n rd p e : (forall q, bytes_ok q -> sound (fun v => typed G e v = true) q (rd q)) ->
  bytes_ok p -> sound (fun l => forallb (typed G e) l = true) p (read_elems n rd p []).
Proof using.
  intros Hrd Hp. assert (forall q out, q `suffix_of` p -> forallb (typed G e) out = true ->
    sound (fun l => forallb (typed G e) l = true) p (read_elems n rd q out)) as H; [|by apply H].
  induction n as [|n IH]; intros q out Hq Hout; cbn [read_elems]; [by sound_step|].
  sound_step; [eapply sound_suffix; [apply Hrd|]; eauto with tagged|]. apply IH; [done|].
  rewrite forallb_app, Hout. cbn in *. by rewrite andb_true_r.
Qed.

(** What [read_value] promises its callers at a depth. *)
Definition reads (rv : reader) (depth : Z) : Prop :=
  forall p t out, bytes_ok p -> scoped G t = true -> typed G t out = true ->
    sound (fun v => typed G t v = true) p (rv p depth t out).

Lemma sound_read_member rv sk p depth f type ov : reads rv depth -> skips sk depth ->
  bytes_ok p -> scoped G (f_type f) = true -> typed_member G ov f ->
  sound (fun r => typed_member G (fst r) f) p (read_member G rv sk p depth f type ov).
Proof using HG.
  intros Hrv Hsk Hp Hs Hov. unfold read_member. destruct (negb _).
  { sound_step; [by apply Hsk|]. by sound_step. }
  assert (typed G (f_type f) (default (init G (f_type f)) ov) = true)
    by (destruct ov; [done|by apply init_typed]).
  destruct (f_type f) eqn:Et; try (sound_step; [rewrite <- Et in *; by apply Hrv|]; sound_step; by rewrite <- Et in *).
  apply sound_got; [done|]. red. cbn [fst]. by rewrite Et.
Qed.

Lemma sound_read_id hb last p q : bytes_ok q -> q `suffix_of` p -> sound (fun _ => True) p (read_id hb last p q).
Proof using.
  intros Hq Hs. unfold read_id. cbv zeta. sound_step; [|by repeat sound_step].
  eapply sound_mono; [by apply sound_zigzag|done|done].
Qed.

Lemma read_id_suffix hb last p q id r : bytes_ok q -> read_id hb last p q = Got id r -> r `suffix_of` q.
Proof using.
  intros Hq. unfold read_id. cbv zeta. destruct (_ =? 0); [|destruct (_ <? _); [done|intros [= _ <-]; done]].
  intros E. pose proof (sound_zigzag 16 q Hq) as Hz. rewrite E in Hz. by destruct Hz.
Qed.

Lemma sound_read_field rv sk m p depth type id seen fs :
  thrift_ok m = true -> Forall (fun f => scoped G (f_type f) = true) (m_fields m) ->
  reads rv depth -> skips sk depth -> bytes_ok p -> Forall2 (typed_member G) fs (m_fields m) ->
  sound (fun r => Forall2 (typed_member G) (snd r) (m_fields m)) p (read_field G rv sk m p depth type id seen fs).
Proof using HG.
  intros Hm Hsc Hrv Hsk Hp Hfs. unfold read_field. cbv zeta.
  destruct (slot_of_cases m (thrift_ok_message m Hm) id) as [[_ Hno]|(f & Hfm & _ & Hslot)].
  { rewrite Hno, Z.eqb_refl. sound_step; [by apply Hsk|]. by sound_step. }
  destruct (Z.eqb_spec (slot_of m id) no_slot) as [Hbad|_]; [unfold no_slot in *; lia|]. rewrite Hfm.
  set (slot := slot_of m id) in *.
  pose proof Hfm as Hfm'. unfold zget in Hfm'. destruct (Z.ltb_spec slot 0); [lia|].
  destruct (Forall2_lookup_r _ _ _ _ _ Hfs Hfm') as (ov & Hov & Hty).
  assert (zget fs slot = Some ov) as ->.
  { unfold zget. by destruct (Z.ltb_spec slot 0); [lia|]. }
  assert (scoped G (f_type f) = true) by (eapply (Forall_lookup_1 _ _ _ _ Hsc); exact Hfm').
  sound_step; [by apply sound_read_member|]. apply sound_got; [done|]. cbn [snd].
  rewrite <- (list_insert_id (m_fields m) (Z.to_nat slot) f Hfm'). by apply Forall2_insert.
Qed.

Lemma sound_read_fields fuel rv sk m start p depth seen last fs :
  thrift_ok m = true -> Forall (fun f => scoped G (f_type f) = true) (m_fields m) ->
  reads rv depth -> skips sk depth -> bytes_ok p -> (length p < fuel)%nat -> p `suffix_of` start ->
  Forall2 (typed_member G) fs (m_fields m) ->
  sound (fun fs => Forall2 (typed_member G) fs (m_fields m)) start
    (read_fields G fuel rv sk m start p depth seen last fs).
Proof using HG.
  intros Hm Hsc Hrv Hsk. revert p seen last fs.
  induction fuel as [|fuel IH]; intros p seen last fs Hp Hf Hst Hfs; [lia|]. cbn [read_fields].
  destruct p as [|hb q]; [by sound_step|]. apply Forall_cons in Hp as [Hb Hp]. cbn in Hf.
  destruct (hb =? 0).
  { destruct (negb _); [|apply sound_got; [etrans; [|done]; eauto with tagged|done]].
    cbn [sound f_at f_need f_kind]. pose proof (zlen_nonneg start). unfold max_incomplete_needed.
    split_and!; done || lia. }
  eapply (sound_bind (fun _ => True)).
  { eapply sound_suffix; [apply sound_read_id; eauto with tagged|done]. }
  intros id q1 _ Hq1 E1. apply read_id_suffix in E1; [|done]. assert (bytes_ok q1) by eauto with tagged.
  sound_step; [eapply sound_suffix; [by apply sound_read_field|done]|].
  match goal with E : read_field _ _ _ _ _ _ _ _ _ _ = Got _ ?q2 |- _ =>
    pose proof (sound_read_field rv sk m q1 depth (Z.land hb 15) id seen fs) as Hs2; rewrite E in Hs2;
    destruct Hs2 as [Hs2 _]; [done..|] end.
  apply IH; [eauto with tagged| |done..]. apply suffix_length in E1, Hs2. lia.
Qed.

Lemma sound_read_struct rv sk p depth i m fs : G !! i = Some m ->
  (depth <= max_tagged_depth -> reads rv depth) -> (depth <= max_tagged_depth -> skips sk depth) ->
  bytes_ok p -> Forall2 (typed_member G) fs (m_fields m) ->
  sound (fun fs => Forall2 (typed_member G) fs (m_fields m)) p (read_struct G rv sk p depth m fs).
Proof using HG.
  intros Hm Hrv Hsk Hp Hfs. unfold read_struct. sound_step; [by sound_step|].
  destruct (env_ok_lookup i m Hm) as [Hok Hf].
  apply sound_read_fields; try done; [|auto..|lia].
  eapply Forall_impl; [exact Hf|]. by intros f [? _].
Qed.

Lemma range_ok p q : bytes_ok p -> q `suffix_of` p -> region_ok (range origin p q) = true.
Proof using.
  intros Hp [k ->]. unfold region_ok, range. cbn [r_bytes r_in with_range i_last i_first].
  rewrite zlen_app. replace (zlen k + zlen q - zlen q) with (zlen k) by lia. rewrite ztake_app by done.
  apply Forall_app in Hp as [Hk _]. apply andb_true_iff. split; [by apply all_bytes_ok|].
  apply Z.eqb_eq. unfold address. rewrite zlen_app. lia.
Qed.

(** A depth the decoder hands to a view: within the limit, plus one. *)
Definition at_depth (depth : Z) : Prop := 0 <= depth <= max_tagged_depth + 1.

Lemma at_depth_u8 depth : 0 <= depth <= max_tagged_depth -> u8 (depth + 1) = depth + 1.
Proof using. unfold max_tagged_depth. intros. apply wrap_small. lia. Qed.

Lemma skip_struct_deep sk p depth u q : skip_struct sk p depth = Got u q -> depth <= max_tagged_depth.
Proof using. unfold skip_struct. by destruct (Z.ltb_spec max_tagged_depth depth). Qed.

Lemma sound_read_value n depth : 0 <= depth -> enough n depth -> reads (read_value G origin n) depth.
Proof using HG.
  revert depth. induction n as [|n IH]; intros depth Hd Hn p t out Hp Hs Hout; [destruct Hn; lia|].
  assert (depth <= max_tagged_depth -> reads (read_value G origin n) (depth + 1)) as Hrv
    by (intros; apply IH; [lia|eauto with tagged]).
  assert (depth <= max_tagged_depth -> skips (skip n) (depth + 1)) as Hsk
    by (intros; apply sound_skip; eauto with tagged).
  assert (forall w e, 0 < w -> (forall v, in_width w v = true -> typed G e (VInt v) = true) ->
    sound (fun v => typed G e v = true) p (let& (v, p) := zigzag w p in Got (VInt v) p)) as Hzz.
  { intros w e Hw He. sound_step; [by apply sound_zigzag|]. sound_step. by apply He, in_width_spec. }
  assert (forall e k, (forall s, bytes_ok s -> forall q, typed G e (k s q) = true) ->
    sound (fun v => typed G e v = true) p (let& (s, q) := read_binary p in Got (k s q) q)) as Hbin.
  { intros e k Hk. sound_step; [by apply sound_read_binary|]. sound_step. apply Hk. by destruct H. }
  cbn [read_value]. destruct t as [| | | | | | | | | |e|e|i| |i].
  - destruct p as [|b q]; [by sound_step|]. by repeat sound_step.
  - destruct p as [|b q]; [by sound_step|]. apply Forall_cons in Hp as [Hb _]. sound_step.
    apply in_width_spec. red in Hb. change (2 ^ (8 - 1)) with 128. unfold sint. change (2 ^ (8 - 1)) with 128.
    change (2 ^ 8) with 256. destruct (Z.ltb_spec b 128); lia.
  - by apply Hzz.
  - by apply Hzz.
  - by apply Hzz.
  - destruct (Z.ltb_spec (zlen p) 8); [sound_step; lia|].
    rewrite (load_le_val 8 p 0 0) by (done || lia). sound_step. cbn [Z.of_nat typed].
    pose proof (le_val_range (ztake 8 p) (bytes_ok_ztake 8 p Hp)) as Hr.
    assert (Z.of_nat (length (ztake 8 p)) = 8) as E by (pose proof (zlen_ztake 8 p); unfold zlen in *; lia).
    rewrite E in Hr. apply andb_true_iff. split; [apply Z.leb_le|apply Z.ltb_lt]; apply Hr.
  - by apply Hzz.
  - apply (Hbin TString (fun s _ => VString s)). intros s Hs' _. by apply all_bytes_ok.
  - apply (Hbin TView (fun s q => VView (Bytes (address origin q - zlen s) (zlen s) None 0) s)). intros s Hs' q. cbn.
    rewrite Z.eqb_refl, andb_true_r. by apply all_bytes_ok.
  - apply (Hbin TBytes (fun s q => VView (attested_span origin (address origin q - zlen s) (zlen s)) s)). intros s Hs' q. cbn.
    rewrite Z.eqb_refl, andb_true_r. by apply all_bytes_ok.
  - sound_step; [by apply sound_read_list_header|]. destruct (_ && _); [by sound_step|].
    sound_step; [by sound_step|]. sound_step.
    + eapply sound_suffix; [apply (sound_read_elems _ _ _ e)|done]; [|eauto with tagged].
      intros s Hss. by apply Hrv; [..|apply init_typed].
    + by sound_step.
  - sound_step; [by apply sound_read_list_header|]. destruct (_ && _) eqn:Ew; [by sound_step|].
    sound_step; [by sound_step|]. cbn beta in *. assert (bytes_ok q) by eauto with tagged.
    pose proof (sound_skip_elems (skip n) q v depth) as Hk.
    destruct (skip_elems (skip n) q v depth) as [u s|x|w] eqn:E; cbn [dbind];
      [|eapply sound_suffix; [apply Hk|done]; by eauto using read_list_header_ok|
        apply Hk; by eauto using read_list_header_ok].
    destruct Hk as [Hs' _]; [by eauto using read_list_header_ok..|].
    apply sound_got; [by etrans|]. cbn [typed]. rewrite range_ok by done. rewrite at_depth_u8 by lia.
    destruct H as [[? ?] [? ?]]. unfold max_tagged_depth in *.
    rewrite !(proj2 (Z.leb_le _ _)), !(proj2 (Z.ltb_lt _ _)) by lia. cbn [andb].
    by destruct (h_count v =? 0), (wire_ok (type_of e) (h_elem v)).
  - pose proof (sound_skip_struct (skip n) p (depth + 1) Hp) as Hk.
    destruct (skip_struct (skip n) p (depth + 1)) as [u s|x|w] eqn:E; cbn [dbind];
      [|apply Hk; intros; apply Hsk; lia|apply Hk; intros; apply Hsk; lia].
    apply skip_struct_deep in E. destruct Hk as [Hs' _]; [intros; apply Hsk; lia|].
    apply sound_got; [done|]. cbn [typed]. rewrite range_ok by done. rewrite at_depth_u8 by lia.
    unfold max_tagged_depth in *. by rewrite (proj2 (Z.leb_le _ _)), (proj2 (Z.ltb_lt _ _)) by lia.
  - sound_step; [apply sound_skip_struct; [done|intros; apply Hsk; lia]|]. by sound_step.
  - destruct (typed_message_inv G i out Hout) as (m & vs & Hm & -> & Hvs). rewrite Hm.
    sound_step; [apply (sound_read_struct _ _ _ _ i); try done; intros; [apply Hrv|apply Hsk]; lia|].
    sound_step. by rewrite (typed_message G i m) by done.
Qed.
End Env.

(** ** The parsers keep the library's contract *)
Lemma err_ok_to_error M i f : wf M i -> 0 <= f_at f <= i_last i - i_first i ->
  0 <= f_need f <= max_incomplete_needed -> err_ok i (to_error i f).
Proof.
  intros Hwf Hat Hneed. pose proof (wf_base _ _ Hwf). pose proof (wf_first _ _ Hwf). pose proof (wf_extent _ _ Hwf).
  set (off := u32 (if negb (i_last i - f_at f =? nullptr) && negb (i_base i =? nullptr)
                   then u64 (i_last i - f_at f - i_base i) else offset i)).
  assert (forall k n, 0 <= n <= max_incomplete_needed -> (k = errk_incomplete -> i_live i = true) ->
    forall s, err_ok i (Error k off s n [])) as Hok.
  { intros k n Hn Hk s. constructor; cbn; [done|lia|done|]. intros H32. subst off.
    rewrite (offset_wf _ _ Hwf). destruct (_ && _); rewrite wrap_small; try lia; rewrite wrap_small; lia. }
  unfold to_error. fold off.
  destruct (f_kind f); destruct (f_where f); try apply err_ok_push_context; apply Hok;
    try done; unfold max_incomplete_needed in *; try lia; by destruct (i_live i).
Qed.

Lemma run_good {A} (P : A -> Prop) (d : input -> list Z -> dec A) :
  (forall i p, bytes_ok p -> sound P p (d i p)) -> Good (fun M i => run (d i) M i).
Proof.
  intros Hd M M' i Hwf Hag. unfold run. destruct (load_wf M M' i Hwf Hag) as (p & Hp & Hlen & -> & ->).
  specialize (Hd i p Hp). destruct (d i p) as [v q|f|w]; [| |done].
  - destruct Hd as [Hq _]. apply suffix_zlen in Hq. apply good_at_done.
    pose proof (wf_first _ _ Hwf). pose proof (zlen_nonneg q). by constructor; cbn; try lia.
  - destruct Hd as (? & ? & _). apply good_at_err. apply (err_ok_to_error M); [done|lia|done].
Qed.

#[export] Instance thrift_compact_skip_good : Good thrift_compact_skip.
Proof.
  apply (run_good (fun _ => True) (fun _ p => skip_struct (skip decode_fuel) p 0)). intros _ p Hp.
  apply sound_skip_struct; [done|]. intros _. apply sound_skip, enough_decode_fuel. lia.
Qed.

Section Top.
Context (G : list (message ttype)) (HG : env_ok G = true).

Lemma sound_read_top i p depth t : bytes_ok p -> 0 <= depth -> scoped G t = true ->
  sound (fun v => typed G t v = true) p (read_top G i p depth t).
Proof using HG.
  intros Hp Hd Ht. apply sound_read_value; [done|done|by apply enough_decode_fuel|done..|by apply init_typed].
Qed.

Lemma sound_read_message i p depth k : bytes_ok p -> 0 <= depth -> (k < length G)%nat ->
  sound (fun v => typed G (TMessage k) v = true) p (read_message G i p depth k).
Proof using HG.
  intros Hp Hd Hk. unfold read_message.
  assert (Hs : scoped G (TMessage k) = true) by by apply bool_decide_eq_true.
  destruct (typed_message_inv G k _ (init_typed G HG _ Hs)) as (m & vs & Hm & -> & Hvs). rewrite Hm.
  sound_step.
  - apply (sound_read_struct G HG _ _ p depth k m vs); try done; intros _;
      [apply sound_read_value|apply sound_skip]; try done; by apply enough_decode_fuel.
  - sound_step. by rewrite (typed_message G k m) by done.
Qed.

Lemma thrift_compact_good k : (k < length G)%nat -> Good (thrift_compact G k).
Proof using HG.
  intros Hk. apply (run_good (fun v => typed G (TMessage k) v = true) (fun i p => read_message G i p 0 k)).
  intros i p Hp. by apply sound_read_message.
Qed.

Lemma thrift_compact_typed k M i v r : wf M i -> (k < length G)%nat ->
  thrift_compact G k M i = Done v r -> typed G (TMessage k) v = true.
Proof using HG.
  intros Hwf Hk. unfold thrift_compact, run.
  destruct (load_wf M M i Hwf) as (p & Hp & Hlen & -> & _); [done|].
  pose proof (sound_read_message i p 0 k Hp ltac:(lia) Hk) as Hs.
  destruct (read_message G i p 0 k) as [x q|f|w]; [|done|done]. intros [= <- _]. by destruct Hs.
Qed.
End Top.
