(* ===== verification/TaggedViews.v ===== *)
(** * The lazy views of tagged messages

    A successful decode or skip depends only on the bytes it passes over: it
    succeeds in the same way on those bytes alone, with more fuel, in a window
    that starts or ends elsewhere. So a view decoded from the wire keeps its
    meaning: [to_vector] of an [nm::list] is what decoding a [std::vector]
    would have built, [at] finds the elements [for_each] visits, and
    [lazy::decode] builds what decoding the message in place would have. *)
From S2P Require Import Prelude Parser BytesParsers Combinators CombinatorFacts Numbers Messages Tagged TaggedTypes.

(** ** Frames *)

(** The end of [o'] is where [q'] must be for the bytes before it to keep the
    addresses they have before [q] in [o]. *)
Record shifted (o : input) (q : list Z) (o' : input) (q' : list Z) : Prop := Shifted {
  sh_base : i_base o' = i_base o;
  sh_live : i_live o' = i_live o;
  sh_arena : i_arena o' = i_arena o;
  sh_gen : i_gen o' = i_gen o;
  sh_last : i_last o' - zlen q' = i_last o - zlen q
}.

Section Frames.
Context (o : input).

(** Where [f] succeeds it passes over at least [c] bytes, and [f'] does the
    same on those bytes, whatever follows them. *)
Definition frame {A} (c : Z) (f : list Z -> dec A) (f' : input -> list Z -> dec A) : Prop :=
  forall p v q, bytes_ok p -> f p = Got v q ->
    exists k, p = k ++ q /\ c <= zlen k /\
      forall o' q', bytes_ok q' -> shifted o q o' q' -> f' o' (k ++ q') = Got v q'.

Lemma shifted_app o' q q' k : shifted o q o' q' -> shifted o (k ++ q) o' (k ++ q').
Proof. intros [? ? ? ? ?]. constructor; try done. rewrite !zlen_app. lia. Qed.

Lemma shifted_ex q q' : exists o', shifted o q o' q'.
Proof.
  exists (Input 0 (i_last o - zlen q + zlen q') (i_base o) (i_live o) (i_arena o) (i_gen o)).
  constructor; cbn; try done. lia.
Qed.

Lemma frame_le {A} c c' (f : list Z -> dec A) f' : c' <= c -> frame c f f' -> frame c' f f'.
Proof. intros Hc Hf p v q Hp E. destruct (Hf p v q Hp E) as (k & ? & ? & ?). exists k. split_and!; [done|lia|done]. Qed.

Lemma frame_bind {A B} c1 c2 (f : list Z -> dec A) f' (g : A -> list Z -> dec B) g' :
  frame c1 f f' -> (forall v, frame c2 (g v) (g' v)) ->
  frame (c1 + c2) (fun p => dbind (f p) g) (fun o' p => dbind (f' o' p) (fun v => g' v o')).
Proof.
  intros Hf Hg p w s Hp E. destruct (f p) as [v q| |] eqn:Ef; [|done|done]. cbn [dbind] in E.
  destruct (Hf p v q Hp Ef) as (k & -> & Hk & Hf'). apply Forall_app in Hp as [Hkb Hq].
  destruct (Hg v q w s Hq E) as (k2 & -> & Hk2 & Hg'). apply Forall_app in Hq as [Hk2b _].
  exists (k ++ k2). split_and!; [by rewrite app_assoc|rewrite zlen_app; lia|].
  intros o' q' Hq' Hsh. rewrite <- app_assoc, (Hf' o').
  - cbn [dbind]. by apply Hg'.
  - by apply Forall_app.
  - by apply shifted_app.
Qed.

Lemma frame_got {A} (v : A) : frame 0 (Got v) (fun _ => Got v).
Proof. intros p w q Hp [= <- <-]. exists []. done. Qed.

Lemma frame_varint : frame 1 varint (fun _ => varint).
Proof.
  intros p v q Hp E. destruct (leb_split p Hp) as [(t & s & -> & Ht)|Hc].
  - rewrite varint_terminated in E by done. unfold varint_answer in E.
    destruct (_ && _) eqn:Eb; [|done]. injection E as <- <-. apply Forall_app in Hp as [Htb _].
    exists t. split_and!; [done|destruct t; [done|rewrite zlen_cons; pose proof (zlen_nonneg t); lia]|].
    intros o' q' Hq' _. rewrite varint_terminated by (done || by apply Forall_app). unfold varint_answer. by rewrite Eb.
  - rewrite varint_unterminated in E by done. by destruct (_ <? _).
Qed.

Lemma frame_skip_varint : frame 1 skip_varint (fun _ => skip_varint).
Proof.
  intros p v q Hp E. rewrite skip_varint_eq in E by done.
  destruct (frame_bind 1 0 varint (fun _ => varint) (fun _ => Got tt) (fun _ _ => Got tt)
    frame_varint (fun _ => frame_got tt) p v q Hp E) as (k & -> & Hk & Hf).
  exists k. split_and!; [done|lia|]. intros o' q' Hq' Hsh. apply Forall_app in Hp as [? _].
  rewrite skip_varint_eq by (by apply Forall_app). by apply (Hf o').
Qed.

(** The checks between two steps, whose failure may name an earlier [p]. *)
Lemma frame_varint32 : frame 1 varint32 (fun _ => varint32).
Proof.
  intros p v q Hp E. unfold varint32 in E. destruct (varint p) as [w s| |] eqn:Ev; [|done|done]. cbn [dbind] in E.
  destruct (_ <? w) eqn:Ew; [done|]. injection E as <- <-.
  destruct (frame_varint p w s Hp Ev) as (k & -> & Hk & Hf). exists k. split_and!; [done..|].
  intros o' q' Hq' Hsh. unfold varint32. rewrite (Hf o') by done. cbn [dbind]. by rewrite Ew.
Qed.

Lemma frame_zigzag w : frame 1 (zigzag w) (fun _ => zigzag w).
Proof.
  intros p v q Hp E. unfold zigzag in E. destruct (varint p) as [u s| |] eqn:Ev; [|done|done]. cbn [dbind] in E.
  cbv zeta in E. destruct (_ || _) eqn:Ew; [done|]. injection E as <- <-.
  destruct (frame_varint p u s Hp Ev) as (k & -> & Hk & Hf). exists k. split_and!; [done..|].
  intros o' q' Hq' Hsh. unfold zigzag. rewrite (Hf o') by done. cbn [dbind]. cbv zeta. by rewrite Ew.
Qed.

Lemma frame_skip_byte : frame 1 skip_byte (fun _ => skip_byte).
Proof. intros [|b p] v q Hp E; [done|]. injection E as <- <-. exists [b]. done. Qed.

Lemma frame_read_binary : frame 1 read_binary (fun _ => read_binary).
Proof.
  intros p v q Hp E. unfold read_binary in E. destruct (varint32 p) as [n s| |] eqn:En; [|done|done]. cbn [dbind] in E.
  destruct (Z.ltb_spec (zlen s) n) as [|Hn]; [done|]. injection E as <- <-.
  pose proof (sound_varint32 p Hp) as Hs. rewrite En in Hs. destruct Hs as [_ Hs].
  destruct (frame_varint32 p n s Hp En) as (k & -> & Hk & Hf). apply Forall_app in Hp as [_ Hsb].
  exists (k ++ ztake n s). split_and!.
  - by rewrite <- app_assoc, ztake_zdrop.
  - rewrite zlen_app. pose proof (zlen_nonneg (ztake n s)). lia.
  - intros o' q' Hq' Hsh. unfold read_binary. rewrite <- app_assoc, (Hf o').
    + cbn [dbind]. assert (Hl : zlen (ztake n s) = n) by (rewrite zlen_ztake by lia; lia).
      rewrite zlen_app, Hl. pose proof (zlen_nonneg q'). destruct (Z.ltb_spec (n + zlen q') n); [lia|].
      by rewrite ztake_app, zdrop_app by done.
    + apply Forall_app. split; [by apply bytes_ok_ztake|done].
    + rewrite <- (ztake_zdrop n s) at 1. by apply shifted_app.
Qed.

Lemma frame_skip_binary : frame 1 skip_binary (fun _ => skip_binary).
Proof.
  apply (frame_bind 1 0 read_binary (fun _ => read_binary) (fun _ => Got tt) (fun _ _ => Got tt));
    [apply frame_read_binary|intros; apply frame_got].
Qed.

Lemma frame_step n : 0 <= n -> frame n (step n) (fun _ => step n).
Proof.
  intros Hn p v q Hp E. unfold step in E. destruct (Z.leb_spec n (zlen p)); [|done]. injection E as <- <-.
  assert (Hl : zlen (ztake n p) = n) by (rewrite zlen_ztake by lia; lia).
  exists (ztake n p). split_and!; [by rewrite ztake_zdrop|lia|]. intros o' q' Hq' _. unfold step.
  rewrite zlen_app, Hl. pose proof (zlen_nonneg q'). destruct (Z.leb_spec n (n + zlen q')); [|lia].
  by rewrite zdrop_app.
Qed.

Lemma frame_times c n f f' : frame c f (fun _ => f') ->
  frame (Z.of_nat n * c) (times n f) (fun _ => times n f').
Proof.
  intros Hf. induction n as [|n IH]; [apply (frame_got tt)|].
  replace (Z.of_nat (S n) * c) with (c + Z.of_nat n * c) by lia.
  apply (frame_bind c (Z.of_nat n * c) f (fun _ => f') (fun _ => times n f) (fun _ _ => times n f')); [done|].
  intros _. exact IH.
Qed.

(** A list header is read alike wherever its count still fits. *)
Lemma frame_read_list_header p h q : bytes_ok p -> read_list_header p = Got h q ->
  exists k, p = k ++ q /\ 1 <= zlen k /\
    forall q', bytes_ok q' -> h_count h * min_elem_bytes (h_elem h) <= zlen q' -> read_list_header (k ++ q') = Got h q'.
Proof using o.
  intros Hp E. unfold read_list_header in E. destruct p as [|b p]; [done|]. cbv zeta in E.
  apply Forall_cons in Hp as [Hb Hp]. pose proof (min_elem_bytes_pos (Z.land b 15)).
  assert (exists k, p = k ++ q /\ forall q', bytes_ok q' ->
    (if Z.shiftr b 4 =? 15 then varint32 (k ++ q') else Got (Z.shiftr b 4) (k ++ q')) = Got (h_count h) q') as (k & -> & Hk).
  { destruct (Z.shiftr b 4 =? 15).
    - destruct (varint32 p) as [c s| |] eqn:Ev; [|done|done]. cbn [dbind] in E.
      destruct (_ <? _); [done|]. injection E as <- <-.
      destruct (frame_varint32 p c s Hp Ev) as (k & -> & _ & Hf). exists k. split; [done|]. intros q' Hq'.
      destruct (shifted_ex s q') as [o' Ho]. by apply (Hf o').
    - cbn [dbind] in E. destruct (_ <? _); [done|]. injection E as <- <-. exists []. done. }
  assert (h_elem h = Z.land b 15) as He.
  { apply Forall_app in Hp as [_ Hq]. rewrite Hk in E by done. cbn [dbind] in E.
    destruct (_ <? _); [done|]. by injection E as <-. }
  exists (b :: k). split_and!; [done|rewrite zlen_cons; pose proof (zlen_nonneg k); lia|].
  intros q' Hq' Hc. cbn [app read_list_header]. cbv zeta. rewrite Hk by done. cbn [dbind]. rewrite <- He in *.
  destruct (Z.ltb_spec (zlen q' / min_elem_bytes (h_elem h)) (h_count h)) as [Hlt|]; [|by destruct h].
  assert (h_count h <= zlen q' / min_elem_bytes (h_elem h)); [apply Z.div_le_lower_bound|]; lia.
Qed.

(** Fewer bytes than [n] elements, so [n] of them do not fit less. *)
Definition elem_min (t : Z) (in_container : bool) : Z := if in_container then min_elem_bytes t else 0.

Definition frame_skips (sk sk' : skipper) (depth : Z) : Prop :=
  forall t c, frame (elem_min t c) (fun p => sk p t c depth) (fun _ p => sk' p t c depth).

Lemma frame_skip_elems sk sk' h depth : 0 <= h_count h -> frame_skips sk sk' (depth + 1) ->
  frame (h_count h * min_elem_bytes (h_elem h)) (fun p => skip_elems sk p h depth) (fun _ p => skip_elems sk' p h depth).
Proof using.
  intros Hc Hsk.
  assert (frame (h_count h * min_elem_bytes (h_elem h))
    (times (Z.to_nat (h_count h)) (fun p => sk p (h_elem h) true (depth + 1)))
    (fun _ => times (Z.to_nat (h_count h)) (fun p => sk' p (h_elem h) true (depth + 1)))) as Hdef.
  { rewrite <- (Z2Nat.id (h_count h)) at 1 by done. apply frame_times. apply (Hsk (h_elem h) true). }
  unfold skip_elems. destruct (ctype_of (h_elem h)) as [c|] eqn:E; [|exact Hdef].
  apply ctype_of_code in E. rewrite <- E in *.
  destruct c; try exact Hdef; unfold min_elem_bytes; cbn [code Z.eqb Pos.eqb];
    try (eapply frame_le; [|apply frame_step]; lia);
    rewrite <- (Z2Nat.id (h_count h)) at 1 by done; apply frame_times, frame_skip_varint.
Qed.

Lemma frame_skip_list sk sk' depth : frame_skips sk sk' (depth + 1) ->
  frame 1 (fun p => let& (h, p) := read_list_header p in skip_elems sk p h depth)
    (fun _ p => let& (h, p) := read_list_header p in skip_elems sk' p h depth).
Proof using.
  intros Hsk p v q Hp E. destruct (read_list_header p) as [h s| |] eqn:Eh; [|done|done]. cbn [dbind] in E.
  pose proof (read_list_header_ok p h s Hp Eh) as (Hc & _ & _).
  destruct (frame_read_list_header p h s Hp Eh) as (k & -> & Hk & Hf). apply Forall_app in Hp as [_ Hs].
  destruct (frame_skip_elems sk sk' h depth (proj1 Hc) Hsk s v q Hs E) as (k2 & -> & Hk2 & Hf2).
  apply Forall_app in Hs as [Hk2b _]. exists (k ++ k2). split_and!; [by rewrite app_assoc| |].
  - rewrite zlen_app. pose proof (zlen_nonneg k2). lia.
  - intros o' q' Hq' Hsh. rewrite <- app_assoc, Hf; [cbn [dbind]; by apply (Hf2 o')|by apply Forall_app|].
    rewrite zlen_app. pose proof (zlen_nonneg q'). lia.
Qed.

Lemma frame_skip_field sk sk' type depth : frame_skips sk sk' depth ->
  frame 0 (fun p => skip_field sk p type depth) (fun _ p => skip_field sk' p type depth).
Proof using.
  intros Hsk. unfold skip_field. destruct (ctype_of type) as [[]|]; first [apply frame_got|apply (Hsk type false)|
    eapply frame_le; [|apply frame_skip_byte || apply frame_skip_varint || apply frame_skip_binary]; lia].
Qed.

Lemma frame_skip_id h : frame 0 (fun p => if Z.shiftr h 4 =? 0 then skip_varint p else Got tt p)
  (fun _ p => if Z.shiftr h 4 =? 0 then skip_varint p else Got tt p).
Proof using. destruct (_ =? 0); [eapply frame_le; [|apply frame_skip_varint]; lia|apply frame_got]. Qed.

Lemma frame_skip_fields sk sk' depth fuel : frame_skips sk sk' depth ->
  forall p q, bytes_ok p -> skip_fields fuel sk p depth = Got tt q ->
  exists k, p = k ++ q /\ 1 <= zlen k /\ forall o' q' fuel', bytes_ok q' -> shifted o q o' q' -> (length k <= fuel')%nat ->
    skip_fields fuel' sk' (k ++ q') depth = Got tt q'.
Proof using.
  intros Hsk. induction fuel as [|fuel IH]; intros p q Hp E; [done|]. cbn [skip_fields] in E.
  destruct p as [|h p]; [done|]. apply Forall_cons in Hp as [Hh Hp].
  destruct (h =? 0) eqn:Eh.
  { injection E as <-. exists [h]. split_and!; [done|done|]. intros o' q' [|fuel'] _ _ Hf; [cbn in Hf; lia|].
    cbn [app skip_fields]. by rewrite Eh. }
  destruct (if Z.shiftr h 4 =? 0 then skip_varint p else Got tt p) as [[] s| |] eqn:Ei; [|done|done]. cbn [dbind] in E.
  destruct (frame_skip_id h p tt s Hp Ei) as (k & -> & _ & Hf). apply Forall_app in Hp as [Hkb Hs].
  destruct (skip_field sk s (Z.land h 15) depth) as [[] s2| |] eqn:Ev; [|done|done]. cbn [dbind] in E.
  destruct (frame_skip_field sk sk' (Z.land h 15) depth Hsk s tt s2 Hs Ev) as (k2 & -> & _ & Hf2).
  apply Forall_app in Hs as [Hk2b Hs2]. destruct (IH s2 q Hs2 E) as (k3 & -> & Hk3 & Hf3). apply Forall_app in Hs2 as [Hk3b _].
  exists (h :: k ++ k2 ++ k3). split_and!.
  - by rewrite <- app_comm_cons, <- !app_assoc.
  - rewrite zlen_cons. pose proof (zlen_nonneg (k ++ k2 ++ k3)). lia.
  - intros o' q' [|fuel'] Hq' Hsh Hlen; cbn [length] in Hlen; [lia|]. rewrite !length_app in Hlen.
    assert (bytes_ok (k3 ++ q')) by (by apply Forall_app).
    assert (bytes_ok (k2 ++ k3 ++ q')) by (by apply Forall_app).
    cbn [app skip_fields]. rewrite Eh, <- !app_assoc.
    rewrite (Hf o') by (done || by repeat apply shifted_app). cbn [dbind].
    rewrite (Hf2 o') by (done || by apply shifted_app). cbn [dbind]. eapply Hf3; [done..|lia].
Qed.

Lemma frame_skip_struct sk sk' depth : frame_skips sk sk' depth ->
  frame 1 (fun p => skip_struct sk p depth) (fun _ p => skip_struct sk' p depth).
Proof using.
  intros Hsk p [] q Hp E. unfold skip_struct in *. destruct (max_tagged_depth <? depth); [done|].
  destruct (frame_skip_fields sk sk' depth _ Hsk p q Hp E) as (k & -> & Hk & Hf).
  exists k. split_and!; [done..|]. intros o' q' Hq' Hsh. apply (Hf o'); [done..|]. rewrite length_app. lia.
Qed.

Lemma elem_min_le t c : elem_min t c <= 8 /\ (t <> code dbl -> elem_min t c <= 1) /\ 0 <= elem_min t c.
Proof using.
  unfold elem_min, min_elem_bytes. destruct c; [|lia]. destruct (Z.eqb_spec t (code dbl)); split_and!; lia || done.
Qed.

Lemma frame_skip_double : frame 8 (fun p => if zlen p <? 8 then fail truncated [] (8 - zlen p) else step 8 p)
  (fun _ p => if zlen p <? 8 then fail truncated [] (8 - zlen p) else step 8 p).
Proof using.
  intros p v q Hp E. destruct (zlen p <? 8) eqn:E8; [done|].
  destruct (frame_step 8 ltac:(lia) p v q Hp E) as (k & -> & Hk & Hf). exists k. split_and!; [done..|].
  intros o' q' Hq' Hsh. rewrite zlen_app. pose proof (zlen_nonneg q').
  destruct (Z.ltb_spec (zlen k + zlen q') 8); [lia|]. by apply (Hf o').
Qed.

Lemma frame_skip_map sk sk' depth : frame_skips sk sk' (depth + 1) ->
  let pair (sk : skipper) kt vt := fun q => let& (_, q) := sk q kt true (depth + 1) in sk q vt true (depth + 1) in
  let body sk (p : list Z) :=
    let& (n, q) := varint32 p in
    if n =? 0 then Got tt q
    else match q with
         | [] => fail truncated q 1
         | kv :: q =>
             let kt := Z.shiftr kv 4 in
             let vt := Z.land kv 15 in
             if zlen q / (min_elem_bytes kt + min_elem_bytes vt) <? n then fail bad_count p 0
             else times (Z.to_nat n) (pair sk kt vt) q
         end in
  frame 1 (body sk) (fun _ => body sk').
Proof using.
  intros Hsk pair body p v q Hp E. unfold body in E. destruct (varint32 p) as [n s| |] eqn:En; [|done|done].
  cbn [dbind] in E. destruct (frame_varint32 p n s Hp En) as (k & -> & Hk & Hf).
  pose proof (sound_varint32 _ Hp) as Hn. rewrite En in Hn. destruct Hn as [_ Hn].
  apply Forall_app in Hp as [_ Hs]. destruct (n =? 0) eqn:E0.
  { injection E as <- <-. exists k. split_and!; [done..|]. intros o' q' Hq' Hsh. unfold body.
    rewrite (Hf o') by done. cbn [dbind]. by rewrite E0. }
  destruct s as [|kv s]; [done|]. cbv zeta in E. apply Forall_cons in Hs as [Hkv Hs].
  set (kt := Z.shiftr kv 4) in *. set (vt := Z.land kv 15) in *.
  pose proof (min_elem_bytes_pos kt). pose proof (min_elem_bytes_pos vt).
  destruct (_ <? n); [done|].
  assert (frame (Z.of_nat (Z.to_nat n) * (min_elem_bytes kt + min_elem_bytes vt)) (times (Z.to_nat n) (pair sk kt vt))
    (fun _ => times (Z.to_nat n) (pair sk' kt vt))) as Ht.
  { apply frame_times. apply (frame_bind _ _ (fun q => sk q kt true (depth + 1)) (fun _ q => sk' q kt true (depth + 1))
      (fun _ q => sk q vt true (depth + 1)) (fun _ _ q => sk' q vt true (depth + 1))); [apply (Hsk kt true)|intros _; apply (Hsk vt true)]. }
  destruct (Ht s v q Hs E) as (k2 & -> & Hk2 & Hf2). rewrite Z2Nat.id in Hk2 by lia.
  apply Forall_app in Hs as [Hk2b _]. exists (k ++ kv :: k2). split_and!.
  - by rewrite <- app_assoc.
  - rewrite zlen_app, zlen_cons. pose proof (zlen_nonneg k2). lia.
  - intros o' q' Hq' Hsh. unfold body. rewrite <- app_assoc, (Hf o').
    + cbn [dbind app]. rewrite E0. cbv zeta. fold kt. fold vt.
      destruct (Z.ltb_spec (zlen (k2 ++ q') / (min_elem_bytes kt + min_elem_bytes vt)) n) as [Hlt|]; [|by apply (Hf2 o')].
      rewrite zlen_app in Hlt. pose proof (zlen_nonneg q').
      assert (n <= (zlen k2 + zlen q') / (min_elem_bytes kt + min_elem_bytes vt)); [apply Z.div_le_lower_bound|]; lia.
    + constructor; [done|by apply Forall_app].
    + apply (shifted_app o' q q' (kv :: k2)). done.
Qed.

Lemma frame_skip n n' depth : (n <= n')%nat -> frame_skips (skip n) (skip n') depth.
Proof using.
  revert n' depth. induction n as [|n IH]; intros n' depth Hn t c; [done|].
  destruct n' as [|n']; [lia|]. cbn [skip]. pose proof (elem_min_le t c) as (Hle8 & Hle1 & _).
  specialize (IH n' (depth + 1) ltac:(lia)).
  destruct (ctype_of t) as [ty|] eqn:Et; [|done]. apply ctype_of_code in Et. subst t.
  assert (forall (f : list Z -> dec unit) f', frame 1 f f' -> code ty <> code dbl -> frame (elem_min (code ty) c) f f') as H1
    by (intros; eapply frame_le; [|done]; auto).
  destruct ty; try done; try (apply H1; [|done]; apply frame_skip_byte || apply frame_skip_varint || apply frame_skip_binary).
  - destruct c; cbn [negb]; [apply H1; [apply frame_skip_byte|done]|apply frame_got].
  - destruct c; cbn [negb]; [apply H1; [apply frame_skip_byte|done]|apply frame_got].
  - eapply frame_le; [|apply frame_skip_double]. done.
  - apply H1; [|done]. destruct (max_tagged_depth <? depth); [done|]. by apply frame_skip_list.
  - apply H1; [|done]. destruct (max_tagged_depth <? depth); [done|]. by apply frame_skip_list.
  - apply H1; [|done]. destruct (max_tagged_depth <? depth); [done|]. by apply frame_skip_map.
  - apply H1; [|done]. by apply frame_skip_struct.
Qed.

(** ** Reading *)
Context (G : list (message ttype)).

Definition frame_reads (rv : reader) (rv' : input -> reader) (depth : Z) : Prop :=
  forall t out, frame (min_elem_bytes (type_of t)) (fun p => rv p depth t out) (fun o' p => rv' o' p depth t out).

Lemma wire_ok_min e w : wire_ok e w = true -> min_elem_bytes w = min_elem_bytes e.
Proof using.
  unfold wire_ok, min_elem_bytes. destruct (Z.eqb_spec e (code bool_true)) as [->|]; [|destruct (Z.eqb_spec e (code list_)) as [->|]];
    intros H; try (apply orb_true_iff in H as [->%Z.eqb_eq| ->%Z.eqb_eq]; done). by apply Z.eqb_eq in H as ->.
Qed.

Lemma frame_read_elems c n (rd : list Z -> dec tvalue) rd' : frame c rd rd' ->
  forall out, frame (Z.of_nat n * c) (fun p => read_elems n rd p out) (fun o' p => read_elems n (rd' o') p out).
Proof using.
  intros Hrd. induction n as [|n IH]; intros out; [apply frame_got|].
  replace (Z.of_nat (S n) * c) with (c + Z.of_nat n * c) by lia.
  apply (frame_bind c (Z.of_nat n * c) rd rd' (fun v p => read_elems n rd p (out ++ [v]))
    (fun v o' p => read_elems n (rd' o') p (out ++ [v])) Hrd). intros v. apply IH.
Qed.

Lemma frame_read_member rv rv' sk sk' depth f type ov : frame_reads rv rv' depth -> frame_skips sk sk' depth ->
  frame 0 (fun p => read_member G rv sk p depth f type ov) (fun o' p => read_member G (rv' o') sk' p depth f type ov).
Proof using.
  intros Hrv Hsk. unfold read_member. destruct (negb _).
  - apply (frame_bind 0 0 (fun p => sk p type false depth) (fun _ p => sk' p type false depth)
      (fun _ => Got (ov, false)) (fun _ _ => Got (ov, false))); [apply (Hsk type false)|intros; apply frame_got].
  - assert (forall t, frame 0 (fun p => let& (x, p) := rv p depth t (default (init G t) ov) in Got (Some x, true) p)
      (fun o' p => let& (x, p) := rv' o' p depth t (default (init G t) ov) in Got (Some x, true) p)) as H.
    { intros t. eapply frame_le; [|apply (frame_bind _ 0 _ _ (fun x => Got (Some x, true)) (fun x _ => Got (Some x, true)) (Hrv t _))];
        [pose proof (min_elem_bytes_pos (type_of t)); lia|intros; apply frame_got]. }
    destruct (f_type f); try apply H. apply frame_got.
Qed.

Lemma frame_read_id hb last : forall p id q, bytes_ok p -> forall x, read_id hb last x p = Got id q ->
  exists k, p = k ++ q /\ forall o' q' x', bytes_ok q' -> shifted o q o' q' -> read_id hb last x' (k ++ q') = Got id q'.
Proof using.
  intros p id q Hp x E. unfold read_id in *. cbv zeta in *. destruct (_ =? 0).
  - destruct (frame_zigzag 16 p id q Hp E) as (k & -> & _ & Hf). exists k. split; [done|]. intros o' q' _ ? ?. by apply (Hf o').
  - destruct (_ <? _); [done|]. injection E as <- <-. by exists [].
Qed.

Lemma frame_read_field rv rv' sk sk' m depth type id seen fs : frame_reads rv rv' depth -> frame_skips sk sk' depth ->
  frame 0 (fun p => read_field G rv sk m p depth type id seen fs) (fun o' p => read_field G (rv' o') sk' m p depth type id seen fs).
Proof using.
  intros Hrv Hsk. unfold read_field. cbv zeta. destruct (_ =? _).
  - apply (frame_bind 0 0 (fun p => sk p type false depth) (fun _ p => sk' p type false depth)
      (fun _ => Got (seen, fs)) (fun _ _ => Got (seen, fs))); [apply (Hsk type false)|intros; apply frame_got].
  - destruct (zget (m_fields m) _) as [f|]; [|done]. destruct (zget fs _) as [ov|]; [|done].
    eapply (frame_bind 0 0 _ _ (fun r => Got _) (fun r _ => Got _)); [by apply frame_read_member|intros; apply frame_got].
Qed.

Lemma frame_read_fields rv rv' sk sk' m depth fuel : frame_reads rv rv' depth -> frame_skips sk sk' depth ->
  forall p q seen last fs fs' start, bytes_ok p -> read_fields G fuel rv sk m start p depth seen last fs = Got fs' q ->
  exists k, p = k ++ q /\ 1 <= zlen k /\ forall o' q' fuel' start', bytes_ok q' -> shifted o q o' q' -> (length k <= fuel')%nat ->
    read_fields G fuel' (rv' o') sk' m start' (k ++ q') depth seen last fs = Got fs' q'.
Proof using.
  intros Hrv Hsk. induction fuel as [|fuel IH]; intros p q seen last fs fs' start Hp E; [done|]. cbn [read_fields] in E.
  destruct p as [|hb p]; [done|]. apply Forall_cons in Hp as [Hh Hp].
  destruct (hb =? 0) eqn:Eh.
  { destruct (negb _) eqn:En; [done|]. injection E as <- <-. exists [hb]. split_and!; [done|done|].
    intros o' q' [|fuel'] start' _ _ Hf; [cbn in Hf; lia|]. cbn [app read_fields]. by rewrite Eh, En. }
  destruct (read_id hb last (hb :: p) p) as [id s| |] eqn:Ei; [|done|done]. cbn [dbind] in E.
  destruct (frame_read_id hb last p id s Hp _ Ei) as (k & -> & Hf). apply Forall_app in Hp as [Hkb Hs].
  destruct (read_field G rv sk m s depth (Z.land hb 15) id seen fs) as [r s2| |] eqn:Er; [|done|done]. cbn [dbind] in E.
  destruct (frame_read_field rv rv' sk sk' m depth (Z.land hb 15) id seen fs Hrv Hsk s r s2 Hs Er) as (k2 & -> & _ & Hf2).
  apply Forall_app in Hs as [Hk2b Hs2]. destruct (IH s2 q (fst r) id (snd r) fs' start Hs2 E) as (k3 & -> & Hk3 & Hf3).
  apply Forall_app in Hs2 as [Hk3b _]. exists (hb :: k ++ k2 ++ k3). split_and!.
  - by rewrite <- app_comm_cons, <- !app_assoc.
  - rewrite zlen_cons. pose proof (zlen_nonneg (k ++ k2 ++ k3)). lia.
  - intros o' q' [|fuel'] start' Hq' Hsh Hlen; cbn [length] in Hlen; [lia|]. rewrite !length_app in Hlen.
    assert (bytes_ok (k3 ++ q')) by (by apply Forall_app).
    assert (bytes_ok (k2 ++ k3 ++ q')) by (by apply Forall_app).
    cbn [app read_fields]. rewrite Eh, <- !app_assoc.
    rewrite (Hf o') by (done || by repeat apply shifted_app). cbn [dbind].
    rewrite (Hf2 o') by (done || by apply shifted_app). cbn [dbind]. apply Hf3; [done..|lia].
Qed.

Lemma frame_read_struct rv rv' sk sk' m depth fs : frame_reads rv rv' depth -> frame_skips sk sk' depth ->
  frame 1 (fun p => read_struct G rv sk p depth m fs) (fun o' p => read_struct G (rv' o') sk' p depth m fs).
Proof using.
  intros Hrv Hsk p fs' q Hp E. unfold read_struct in *. destruct (max_tagged_depth <? depth); [done|].
  destruct (frame_read_fields rv rv' sk sk' m depth _ Hrv Hsk p q 0 0 fs fs' p Hp E) as (k & -> & Hk & Hf).
  exists k. split_and!; [done..|]. intros o' q' Hq' Hsh. apply Hf; [done..|]. rewrite length_app. lia.
Qed.


Lemma shifted_address o' q q' : shifted o q o' q' -> address o' q' = address o q.
Proof using. intros [? ? ? ? ?]. unfold address. lia. Qed.

Lemma shifted_range o' k q q' : shifted o q o' q' -> range o' (k ++ q') q' = range o (k ++ q) q.
Proof using.
  intros Hsh. pose proof (shifted_address o' q q' Hsh) as Ha.
  pose proof (shifted_address o' (k ++ q) (k ++ q') (shifted_app o' q q' k Hsh)) as Hb.
  destruct Hsh as [Hs1 Hs2 Hs3 Hs4 _]. unfold range. rewrite Ha, Hb, !zlen_app.
  replace (zlen k + zlen q' - zlen q') with (zlen k) by lia. replace (zlen k + zlen q - zlen q) with (zlen k) by lia.
  rewrite !ztake_app by done. unfold with_range. by rewrite Hs1, Hs2, Hs3, Hs4.
Qed.

(** A scalar or a string: a step, and a value made from what it read. *)
Lemma frame_value {A} c (f : list Z -> dec A) (g : A -> list Z -> tvalue) (g' : input -> A -> list Z -> tvalue) :
  frame c f (fun _ => f) -> (forall v o' q q', shifted o q o' q' -> g' o' v q' = g v q) ->
  frame c (fun p => let& (v, q) := f p in Got (g v q) q) (fun o' p => let& (v, q) := f p in Got (g' o' v q) q).
Proof using.
  intros Hf Hg p w q Hp E. destruct (f p) as [v s| |] eqn:Ev; [|done|done]. injection E as <- <-.
  destruct (Hf p v s Hp Ev) as (k & -> & Hk & Hf'). exists k. split_and!; [done..|]. intros o' q' Hq' Hsh.
  rewrite (Hf' o') by done. cbn [dbind]. by rewrite (Hg v o' s q').
Qed.

Lemma frame_read_double c : c <= 8 ->
  frame c (fun p => if zlen p <? 8 then fail truncated [] (8 - zlen p)
                    else match load_le 8 p 0 0 with None => Broken UB | Some u => Got (VDouble u) (zdrop 8 p) end)
    (fun _ p => if zlen p <? 8 then fail truncated [] (8 - zlen p)
                    else match load_le 8 p 0 0 with None => Broken UB | Some u => Got (VDouble u) (zdrop 8 p) end).
Proof using.
  intros Hc p w q Hp E. destruct (Z.ltb_spec (zlen p) 8) as [|H8]; [done|].
  rewrite (load_le_val 8 p 0 0) in E by (done || lia). injection E as <- <-. change (0 + Z.of_nat 8) with 8.
  assert (Hl : zlen (ztake 8 p) = 8) by (rewrite zlen_ztake by lia; lia).
  exists (ztake 8 p). split_and!; [by rewrite ztake_zdrop|lia|]. intros o' q' Hq' _. rewrite zlen_app, Hl.
  pose proof (zlen_nonneg q'). destruct (Z.ltb_spec (8 + zlen q') 8); [lia|].
  assert (bytes_ok (ztake 8 p ++ q')) by (apply Forall_app; split; [by apply bytes_ok_ztake|done]).
  rewrite (load_le_val 8 _ 0 0); [|done|lia|rewrite zlen_app; lia|done]. change (0 + Z.of_nat 8) with 8.
  by rewrite ztake_app, zdrop_app by done.
Qed.

(** A list: its header and, when its type and depth are accepted, its body. *)
Lemma frame_list {A} e depth (body : list_header -> list Z -> dec A) body' (g : A -> list Z -> list Z -> list_header -> tvalue)
    (g' : input -> A -> list Z -> list Z -> list_header -> tvalue) :
  (depth <= max_tagged_depth -> forall h, 0 <= h_count h -> (h_count h = 0 \/ wire_ok (type_of e) (h_elem h) = true) ->
    frame (h_count h * min_elem_bytes (h_elem h)) (body h) (fun o' => body' o' h)) ->
  (forall v h o' k q q', shifted o q o' q' -> g' o' v (k ++ q') q' h = g v (k ++ q) q h) ->
  frame 1
    (fun p => let& (h, q) := read_list_header p in
       if negb (h_count h =? 0) && negb (wire_ok (type_of e) (h_elem h)) then fail type_mismatch p 0
       else if max_tagged_depth <? depth then fail too_deep p 0
       else let& (v, s) := body h q in Got (g v q s h) s)
    (fun o' p => let& (h, q) := read_list_header p in
       if negb (h_count h =? 0) && negb (wire_ok (type_of e) (h_elem h)) then fail type_mismatch p 0
       else if max_tagged_depth <? depth then fail too_deep p 0
       else let& (v, s) := body' o' h q in Got (g' o' v q s h) s).
Proof using.
  intros Hb Hg p w q Hp E. destruct (read_list_header p) as [h s| |] eqn:Eh; [|done|done]. cbn [dbind] in E.
  pose proof (read_list_header_ok p h s Hp Eh) as (Hc & _ & _).
  destruct (frame_read_list_header p h s Hp Eh) as (k & -> & Hk & Hf). apply Forall_app in Hp as [_ Hs].
  destruct (_ && _) eqn:Ew; [done|]. destruct (Z.ltb_spec max_tagged_depth depth) as [|Hd]; [done|].
  destruct (body h s) as [v s2| |] eqn:Ev; [|done|done]. injection E as <- <-.
  assert (h_count h = 0 \/ wire_ok (type_of e) (h_elem h) = true) as Hw.
  { destruct (Z.eqb_spec (h_count h) 0); [by left|]. right. by destruct (wire_ok _ _). }
  destruct (Hb Hd h (proj1 Hc) Hw s v s2 Hs Ev) as (k2 & -> & Hk2 & Hf2). apply Forall_app in Hs as [Hk2b _].
  exists (k ++ k2). split_and!; [by rewrite app_assoc|rewrite zlen_app; pose proof (zlen_nonneg k2); lia|].
  intros o' q' Hq' Hsh. rewrite <- app_assoc, Hf; [|by apply Forall_app|rewrite zlen_app; pose proof (zlen_nonneg q'); lia].
  cbn [dbind]. rewrite Ew. destruct (Z.ltb_spec max_tagged_depth depth); [lia|].
  rewrite (Hf2 o') by done. cbn [dbind]. by rewrite (Hg v h o' k2 s2 q').
Qed.

Lemma frame_read_value n n' depth : (n <= n')%nat ->
  frame_reads (read_value G o n) (fun o' => read_value G o' n') depth.
Proof using.
  revert n' depth. induction n as [|n IH]; intros n' depth Hn t out; [done|].
  destruct n' as [|n']; [lia|].
  assert (IHn : frame_reads (read_value G o n) (fun o' => read_value G o' n') (depth + 1)) by (apply IH; lia).
  pose proof (frame_skip n n' (depth + 1) ltac:(lia)) as Hsk.
  destruct t as [| | | | | | | | | |e|e|i| |i]; cbn [read_value type_of];
    try change (min_elem_bytes _) with 1; try (apply (frame_value 1); [apply frame_zigzag|done]).
  - intros [|b p] v q Hp E; [done|]. destruct (2 <? b) eqn:E2; [done|]. injection E as <- <-.
    exists [b]. split_and!; [done..|]. intros o' q' _ _. cbn [app]. by rewrite E2.
  - intros [|b p] v q Hp E; [done|]. injection E as <- <-. by exists [b].
  - by apply frame_read_double.
  - apply (frame_value 1); [apply frame_read_binary|done].
  - apply (frame_value 1 read_binary _ (fun o' s q => VView (Bytes (address o' q - zlen s) (zlen s) None 0) s));
      [apply frame_read_binary|]. intros v o' q q' Hsh. by rewrite (shifted_address o' q q').
  - apply (frame_value 1 read_binary _ (fun o' s q => VView (attested_span o' (address o' q - zlen s) (zlen s)) s));
      [apply frame_read_binary|]. intros v o' q q' Hsh. rewrite (shifted_address o' q q') by done. unfold attested_span.
    destruct Hsh as [_ _ -> -> _]. done.
  - apply (frame_list e depth _ (fun o' h q => read_elems (Z.to_nat (h_count h)) (fun p => read_value G o' n' p (depth + 1) e (init G e)) q [])
      (fun l _ _ _ => VVec l) (fun _ l _ _ _ => VVec l)); [|done].
    intros _ h Hc Hw. rewrite <- (Z2Nat.id (h_count h)) at 1 by done.
    replace (Z.of_nat (Z.to_nat (h_count h)) * min_elem_bytes (h_elem h))
      with (Z.of_nat (Z.to_nat (h_count h)) * min_elem_bytes (type_of e)).
    + apply (frame_read_elems _ _ (fun p => read_value G o n p (depth + 1) e (init G e))
        (fun o' p => read_value G o' n' p (depth + 1) e (init G e))). apply IHn.
    + destruct Hw as [->|Hw]; [done|]. by rewrite (wire_ok_min _ _ Hw).
  - apply (frame_list e depth (fun h q => skip_elems (skip n) q h depth) (fun _ h q => skip_elems (skip n') q h depth)
      (fun _ q s h => VList (range o q s) (h_count h) (h_elem h) (u8 (depth + 1)))
      (fun o' _ q s h => VList (range o' q s) (h_count h) (h_elem h) (u8 (depth + 1)))).
    + intros _ h Hc _. by apply frame_skip_elems.
    + intros v h o' k q q' Hsh. by rewrite (shifted_range o' k q q').
  - intros p v q Hp E. destruct (skip_struct (skip n) p (depth + 1)) as [u s| |] eqn:Es; [|done|done]. injection E as <- <-.
    destruct (frame_skip_struct (skip n) (skip n') (depth + 1) Hsk p u s Hp Es) as (k & -> & Hk & Hf).
    exists k. split_and!; [done..|]. intros o' q' Hq' Hsh. rewrite (Hf o') by done. cbn [dbind]. by rewrite (shifted_range o' k s q').
  - apply (frame_bind 1 0 (fun p => skip_struct (skip n) p (depth + 1)) (fun _ p => skip_struct (skip n') p (depth + 1))
      (fun _ => Got out) (fun _ _ => Got out)); [by apply frame_skip_struct|intros; apply frame_got].
  - destruct (G !! i) as [m|]; [|done]. destruct out; try done.
    apply (frame_bind 1 0 (fun p => read_struct G (read_value G o n) (skip n) p (depth + 1) m fs)
      (fun o' p => read_struct G (read_value G o' n') (skip n') p (depth + 1) m fs) (fun fs => Got (VMsg fs)) (fun fs _ => Got (VMsg fs)));
      [by apply frame_read_struct|intros; apply frame_got].
Qed.
End Frames.

(** ** What reads is skipped *)
Section ReadSkip.
Context (G : list (message ttype)) (o : input).

Lemma step_0 p : step 0 p = Got tt p.
Proof using. unfold step. pose proof (zlen_nonneg p). destruct (Z.leb_spec 0 (zlen p)); [|lia]. by rewrite zdrop_0. Qed.

(** [n] steps of [c] bytes. *)
Lemma times_step c n f p q : 0 <= c -> (forall p q, f p = Got tt q -> step c p = Got tt q) ->
  times n f p = Got tt q -> step (Z.of_nat n * c) p = Got tt q.
Proof using.
  intros Hc Hf. revert p. induction n as [|n IH]; intros p; cbn [times].
  { intros [= <-]. apply step_0. }
  destruct (f p) as [[] s| |] eqn:E; [|done|done]. cbn [dbind]. intros H%IH. apply Hf in E. unfold step in *.
  destruct (Z.leb_spec c (zlen p)); [|done]. injection E as <-.
  destruct (Z.leb_spec (Z.of_nat n * c) (zlen (zdrop c p))) as [Hl|]; [|done]. injection H as <-.
  rewrite zlen_zdrop in Hl by lia. destruct (Z.leb_spec (Z.of_nat (S n) * c) (zlen p)); [|lia].
  rewrite zdrop_zdrop by lia. do 2 f_equal. lia.
Qed.

(** The inlined loops of [skip_elems] do what skipping every element does. *)
Lemma times_skip_elems n h depth p q : 0 <= h_count h ->
  times (Z.to_nat (h_count h)) (fun p => skip n p (h_elem h) true (depth + 1)) p = Got tt q ->
  skip_elems (skip n) p h depth = Got tt q.
Proof using.
  intros Hc. unfold skip_elems. destruct n as [|n].
  { destruct (Z.to_nat (h_count h)) eqn:E0; [|done]. assert (h_count h = 0) as -> by lia. intros [= <-].
    destruct (ctype_of _) as [[]|]; done || apply step_0. }
  intros H.
  assert (forall c, 0 <= c -> (forall p q, skip (S n) p (h_elem h) true (depth + 1) = Got tt q -> step c p = Got tt q) ->
    step (h_count h * c) p = Got tt q) as Hstep.
  { intros c Hc0 Hs. rewrite <- (Z2Nat.id (h_count h)) by done. eapply (times_step c); [done|exact Hs|exact H]. }
  destruct (ctype_of (h_elem h)) as [t|] eqn:Et; [|done].
  assert (forall p, 1 <= zlen p -> step 1 p = Got tt (zdrop 1 p)) as H1
    by (intros p' ?; unfold step; by destruct (Z.leb_spec 1 (zlen p')); [|lia]).
  destruct t; try done; cbn [skip] in *; rewrite ?Et in *; cbn [negb] in *.
  1-3: rewrite <- (Z.mul_1_r (h_count h)); apply Hstep; [lia|]; intros [|b p'] q' E; [done|]; injection E as <-;
    rewrite H1 by (rewrite zlen_cons; pose proof (zlen_nonneg p'); lia); done.
  1-3: exact H.
  apply Hstep; [lia|]. intros p' q'. by destruct (zlen p' <? 8).
Qed.

Lemma skip_field_of_skip n p t depth q : skip n p t false depth = Got tt q -> skip_field (skip n) p t depth = Got tt q.
Proof using. destruct n as [|n]; [done|]. unfold skip_field. cbn [skip]. by destruct (ctype_of t) as [[]|]. Qed.

Lemma read_elems_times n rd f p out l q : bytes_ok p -> (exists rd', frame o 0 rd rd') ->
  (forall p v q, bytes_ok p -> rd p = Got v q -> f p = Got tt q) ->
  read_elems n rd p out = Got l q -> times n f p = Got tt q.
Proof using.
  intros Hp [rd' Hfr] Hf. revert p out Hp. induction n as [|n IH]; intros p out Hp; cbn [read_elems times]; [by intros [= _ <-]|].
  destruct (rd p) as [v s| |] eqn:E; [|done|done]. cbn [dbind]. rewrite (Hf p v s Hp E). cbn [dbind].
  destruct (Hfr p v s Hp E) as (k & -> & _ & _). apply Forall_app in Hp as [_ Hs]. by apply IH.
Qed.

(** A value that decodes as [t] is skipped, to the same place, as any wire
    type accepted for [t]. *)
Definition read_skips (rv : reader) (sk : skipper) (depth : Z) : Prop :=
  forall p t out v q w c, bytes_ok p -> rv p depth t out = Got v q -> wire_ok (type_of t) w = true ->
    (c = true \/ t <> TBool) -> sk p w c depth = Got tt q.

Lemma read_field_skips n m p depth type id seen fs r q :
  read_skips (read_value G o n) (skip n) depth -> bytes_ok p ->
  read_field G (read_value G o n) (skip n) m p depth type id seen fs = Got r q ->
  skip_field (skip n) p type depth = Got tt q.
Proof using.
  intros Hrs Hp. unfold read_field. cbv zeta. destruct (_ =? no_slot).
  { destruct (skip n p type false depth) as [[] s| |] eqn:E; [|done|done]. intros [= _ <-]. by apply skip_field_of_skip. }
  destruct (zget (m_fields m) _) as [f|]; [|done]. destruct (zget fs _) as [ov|]; [|done]. unfold read_member.
  destruct (wire_ok (type_of (f_type f)) type) eqn:Ew; cbn [negb].
  - assert (forall t, t = f_type f -> t <> TBool -> (let& (r, p) := let& (x, p) := read_value G o n p depth t (default (init G t) ov) in
        Got (Some x, true) p in Got (if snd r then Z.lor seen (Z.shiftl 1 (slot_of m id)) else seen,
          <[Z.to_nat (slot_of m id) := fst r]> fs) p) = Got r q -> skip_field (skip n) p type depth = Got tt q) as H.
    { intros t Et Hb E. destruct (read_value G o n p depth t _) as [x s| |] eqn:Er; [|done|done]. injection E as _ <-.
      apply skip_field_of_skip. eapply Hrs; [done|exact Er|by rewrite Et|by right]. }
    destruct (f_type f) eqn:Et; try by apply H.
    intros [= _ <-]. unfold wire_ok in Ew. cbn in Ew. apply orb_true_iff in Ew as [->%Z.eqb_eq| ->%Z.eqb_eq]; done.
  - destruct (skip n p type false depth) as [[] s| |] eqn:E; [|done|done]. intros [= _ <-]. by apply skip_field_of_skip.
Qed.

Lemma read_id_skips hb last x p id q : bytes_ok p -> read_id hb last x p = Got id q ->
  (if Z.shiftr hb 4 =? 0 then skip_varint p else Got tt p) = Got tt q.
Proof using.
  intros Hp. unfold read_id. cbv zeta. destruct (_ =? 0).
  - unfold zigzag. rewrite skip_varint_eq by done. destruct (varint p); [|done|done]. cbn [dbind]. cbv zeta.
    destruct (_ || _); [done|]. by intros [= _ <-].
  - destruct (_ <? _); [done|]. by intros [= _ <-].
Qed.

Lemma read_fields_skips n m depth fuel : read_skips (read_value G o n) (skip n) depth ->
  forall p start seen last fs fs' q, bytes_ok p ->
  read_fields G fuel (read_value G o n) (skip n) m start p depth seen last fs = Got fs' q ->
  skip_fields fuel (skip n) p depth = Got tt q.
Proof using.
  intros Hrs. induction fuel as [|fuel IH]; intros p start seen last fs fs' q Hp; [done|]. cbn [read_fields skip_fields].
  destruct p as [|hb p]; [done|]. apply Forall_cons in Hp as [_ Hp].
  destruct (hb =? 0); [destruct (negb _); [done|by intros [= _ <-]]|].
  destruct (read_id hb last (hb :: p) p) as [id s| |] eqn:Ei; [|done|done]. cbn [dbind].
  rewrite (read_id_skips hb last (hb :: p) p id s Hp Ei). cbn [dbind]. assert (bytes_ok s) by eauto using read_id_suffix with tagged.
  destruct (read_field _ _ _ _ _ _ _ _ _ _) as [r s2| |] eqn:Er; [|done|done]. cbn [dbind].
  rewrite (read_field_skips _ _ _ _ _ _ _ _ _ _ Hrs H Er). cbn [dbind]. apply IH.
  destruct (frame_read_field o G (read_value G o n) (fun o' => read_value G o' n) (skip n) (skip n) m depth (Z.land hb 15) id seen fs
    (frame_read_value o G n n depth ltac:(lia)) (frame_skip o n n depth ltac:(lia)) s r s2 H Er) as (k & -> & _ & _).
  by apply Forall_app in H as [_ ?].
Qed.

Lemma read_struct_skips n m depth p fs fs' q : read_skips (read_value G o n) (skip n) depth -> bytes_ok p ->
  read_struct G (read_value G o n) (skip n) p depth m fs = Got fs' q -> skip_struct (skip n) p depth = Got tt q.
Proof using.
  intros Hrs Hp. unfold read_struct, skip_struct. destruct (_ <? _); [done|]. by apply read_fields_skips.
Qed.

(** The wire types a member type accepts. *)
Lemma wire_ok_cases t w : wire_ok (type_of t) w = true ->
  w = type_of t \/ (t = TBool /\ w = code bool_false) \/ ((exists e, t = TVector e \/ t = TList e) /\ w = code set_).
Proof using.
  unfold wire_ok. intros H.
  destruct t; cbn [type_of code Z.eqb Pos.eqb] in *;
    try (apply orb_true_iff in H as [->%Z.eqb_eq| ->%Z.eqb_eq]; eauto 6; fail); left; by apply Z.eqb_eq.
Qed.

Lemma read_elems_skips n e depth h p l q : 0 <= h_count h -> bytes_ok p ->
  h_count h = 0 \/ wire_ok (type_of e) (h_elem h) = true -> read_skips (read_value G o n) (skip n) (depth + 1) ->
  read_elems (Z.to_nat (h_count h)) (fun p => read_value G o n p (depth + 1) e (init G e)) p [] = Got l q ->
  skip_elems (skip n) p h depth = Got tt q.
Proof using.
  intros Hc Hp Hw Hrs E. apply times_skip_elems; [done|]. destruct Hw as [H0|Hw].
  - rewrite H0 in *. cbn in *. by injection E as _ <-.
  - eapply read_elems_times; [done| | |exact E].
    + exists (fun o' p => read_value G o' n p (depth + 1) e (init G e)).
      eapply frame_le; [|apply (frame_read_value o G n n (depth + 1) ltac:(lia) e)].
      pose proof (min_elem_bytes_pos (type_of e)). lia.
    + intros p' v q' Hp' Hr. eapply Hrs; [done|exact Hr|done|by left].
Qed.

(** Skipping a list, whether its elements would be decoded or kept. *)
Lemma read_list_skips {A} n e depth p (body : list_header -> list Z -> dec A) g v q : bytes_ok p ->
  (forall h s x r, 0 <= h_count h -> bytes_ok s -> h_count h = 0 \/ wire_ok (type_of e) (h_elem h) = true ->
    body h s = Got x r -> skip_elems (skip n) s h depth = Got tt r) ->
  (let& (h, s) := read_list_header p in
   if negb (h_count h =? 0) && negb (wire_ok (type_of e) (h_elem h)) then fail type_mismatch p 0
   else if max_tagged_depth <? depth then fail too_deep p 0
   else let& (x, r) := body h s in Got (g x s r h : tvalue) r) = Got v q ->
  (if max_tagged_depth <? depth then fail too_deep p 0
   else let& (h, p) := read_list_header p in skip_elems (skip n) p h depth) = Got tt q.
Proof using o.
  intros Hp Hb. destruct (read_list_header p) as [h s| |] eqn:Eh; [|done|done]. cbn [dbind].
  pose proof (read_list_header_ok p h s Hp Eh) as (Hc & _ & _).
  destruct (_ && _) eqn:Ew; [done|]. destruct (_ <? _); [done|].
  destruct (body h s) as [x r| |] eqn:Ex; [|done|done]. intros [= _ <-]. eapply Hb; [lia| | |exact Ex].
  - destruct (frame_read_list_header o p h s Hp Eh) as (k & -> & _). by apply Forall_app in Hp as [_ ?].
  - destruct (Z.eqb_spec (h_count h) 0); [by left|]. right. by destruct (wire_ok _ _).
Qed.

Lemma read_scalar_skips n depth p t out v q c : bytes_ok p -> (c = true \/ t <> TBool) ->
  match t with TVector _ | TList _ | TLazy _ | TEmpty | TMessage _ => False | _ => True end ->
  read_value G o (S n) p depth t out = Got v q -> skip (S n) p (type_of t) c depth = Got tt q.
Proof using.
  intros Hp Hcb Ht E.
  assert (forall w x, (let& (v, p) := zigzag w p in Got (VInt v) p) = Got x q -> skip_varint p = Got tt q) as Hzz.
  { intros b x. unfold zigzag. rewrite skip_varint_eq by done. destruct (varint p); [|done|done]. cbn [dbind]. cbv zeta.
    destruct (_ || _); [done|]. by intros [= _ <-]. }
  assert (forall k, (let& (s, q) := read_binary p in Got (k s q) q) = Got v q -> skip_binary p = Got tt q) as Hbin.
  { intros k. unfold skip_binary. destruct (read_binary p); [|done|done]. by intros [= _ <-]. }
  destruct t; try done; cbn [read_value type_of] in E |- *; try (by eapply Hzz).
  - destruct Hcb as [->|]; [|done]. destruct p as [|b p]; [done|]. destruct (2 <? b); [done|]. by injection E as _ <-.
  - destruct p as [|b p]; [done|]. by injection E as _ <-.
  - destruct (zlen p <? 8) eqn:E8; [done|]. destruct (load_le 8 p 0 0); [|done]. injection E as _ <-.
    cbn [skip code]. change (ctype_of 7) with (Some dbl). cbn match. rewrite E8. unfold step.
    apply Z.ltb_ge in E8. by destruct (Z.leb_spec 8 (zlen p)); [|lia].
  - by apply (Hbin (fun s _ => VString s)).
  - by apply (Hbin (fun s q => VView (Bytes (address o q - zlen s) (zlen s) None 0) s)).
  - by apply (Hbin (fun s q => VView (attested_span o (address o q - zlen s) (zlen s)) s)).
Qed.

Lemma read_value_skips n depth : read_skips (read_value G o n) (skip n) depth.
Proof using.
  revert depth. induction n as [|n IH]; intros depth p t out v q w c Hp E Hw Hcb; [done|].
  assert (forall e, read_value G o (S n) p depth (TVector e) out = Got v q -> skip (S n) p (code list_) c depth = Got tt q) as Hvec.
  { intros e. apply (read_list_skips n e depth p
      (fun h q => read_elems (Z.to_nat (h_count h)) (fun p => read_value G o n p (depth + 1) e (init G e)) q []) (fun l _ _ _ => VVec l)); [done|].
    intros h s x r Hc Hs Hwe. by apply (read_elems_skips n e). }
  assert (forall e, read_value G o (S n) p depth (TList e) out = Got v q -> skip (S n) p (code list_) c depth = Got tt q) as Hlist.
  { intros e. apply (read_list_skips n e depth p (fun h q => skip_elems (skip n) q h depth)
      (fun _ q s h => VList (range o q s) (h_count h) (h_elem h) (u8 (depth + 1)))); [done|]. by intros h s [] r _ _ _. }
  destruct (wire_ok_cases t w Hw) as [->|[[-> ->]|[[e [->| ->]] ->]]].
  - destruct t as [| | | | | | | | | |e|e|i| |i]; try (by eapply read_scalar_skips); try by eapply Hvec; try by eapply Hlist.
    + by eapply Hlist.
    + cbn [read_value type_of] in *. change (skip_struct (skip n) p (depth + 1) = Got tt q).
      destruct (skip_struct _ _ _) as [[] s| |]; [|done|done]. by injection E as _ <-.
    + cbn [read_value type_of] in *. change (skip_struct (skip n) p (depth + 1) = Got tt q).
      destruct (skip_struct _ _ _) as [[] s| |]; [|done|done]. by injection E as _ <-.
    + cbn [read_value type_of] in *. change (skip_struct (skip n) p (depth + 1) = Got tt q).
      destruct (G !! i) as [m|]; [|done]. destruct out; try done.
      destruct (read_struct _ _ _ _ _ _ _) as [fs' s| |] eqn:Er; [|done|done]. injection E as _ <-.
      by eapply read_struct_skips.
  - destruct Hcb as [->|]; [|done]. apply (read_scalar_skips n depth p TBool out v q true) in E; [done|done|by left|done].
  - by eapply Hvec.
  - by eapply Hlist.
Qed.
End ReadSkip.

(** ** Views of decoded bytes *)
Section Views.
Context (G : list (message ttype)).

(** The window a view keeps is where its bytes were. *)
Lemma shifted_view o p q : shifted o q (r_in (range o p q)) [].
Proof using. constructor; try done. cbn. unfold address, zlen. cbn. lia. Qed.

Lemma range_bytes o k q : r_bytes (range o (k ++ q) q) = k.
Proof using. cbn. rewrite zlen_app. apply ztake_app. lia. Qed.

Lemma read_elems_acc n (rd : list Z -> dec tvalue) p out :
  read_elems n rd p out = let& (l, q) := read_elems n rd p [] in Got (out ++ l) q.
Proof using.
  revert p out. induction n as [|n IH]; intros p out; cbn [read_elems dbind]; [by rewrite app_nil_r|].
  destruct (rd p) as [v s| |]; cbn [dbind]; [|done|done]. rewrite (IH s (out ++ [v])), (IH s ([] ++ [v])).
  destruct (read_elems n rd s []) as [l q| |]; cbn [dbind app]; [|done|done]. by rewrite <- app_assoc.
Qed.

Lemma read_elems_cons n (rd : list Z -> dec tvalue) p l q : read_elems (S n) rd p [] = Got l q ->
  exists v s l', rd p = Got v s /\ l = v :: l' /\ read_elems n rd s [] = Got l' q.
Proof using.
  cbn [read_elems]. destruct (rd p) as [v s| |] eqn:Ev; [|done|done]. cbn [dbind]. rewrite read_elems_acc.
  destruct (read_elems n rd s []) as [l' q'| |] eqn:El; [|done|done]. intros [= <- <-]. by exists v, s, l'.
Qed.

Lemma read_elems_each {S} origin e d (f : S -> tvalue -> S * bool) n p s l q :
  read_elems n (fun p => read_top G origin p d e) p [] = Got l q ->
  each_wire G origin e d f n p s = Some (each_source f l s, inl tt).
Proof using.
  revert p s l. induction n as [|n IH]; intros p s l E; [by injection E as <- _|].
  apply read_elems_cons in E as (v & p' & l' & Ev & -> & El). cbn [each_wire each_source]. rewrite Ev.
  destruct (f s v) as [s' []]; [by apply IH|done].
Qed.

Lemma each_source_collect l out : each_source (fun out (x : tvalue) => (out ++ [x], true)) l out = out ++ l.
Proof using.
  revert out. induction l as [|x l IH]; intros out; cbn [each_source]; [by rewrite app_nil_r|].
  rewrite IH. by rewrite <- app_assoc.
Qed.

Lemma read_elems_nth n (rd : list Z -> dec tvalue) f p l q k :
  (forall p v q, bytes_ok p -> rd p = Got v q -> f p = Got tt q /\ bytes_ok q) -> bytes_ok p ->
  read_elems n rd p [] = Got l q -> (k < n)%nat ->
  exists s x r, times k f p = Got tt s /\ rd s = Got x r /\ l !! k = Some x.
Proof using.
  intros Hf. revert n p l. induction k as [|k IH]; intros [|n] p l Hp E Hk; try lia;
    apply read_elems_cons in E as (v & s & l' & Ev & -> & El); destruct (Hf p v s Hp Ev) as [Hfs Hs].
  - by exists p, v, s.
  - destruct (IH n s l' Hs El ltac:(lia)) as (s' & x & r & Ht & Hx & Hl). exists s', x, r.
    split_and!; [cbn [times]; by rewrite Hfs|done..].
Qed.

(** A decoded list view behaves as [list::of] the elements a vector would
    hold. *)
Definition list_like (e : ttype) (v : tvalue) (l : list tvalue) : Prop :=
  list_size v = zlen l /\ to_vector G e v = Some (inl l) /\
  (forall S (f : S -> tvalue -> S * bool) s, for_each G e v f s = Some (each_source f l s, inl tt)) /\
  (forall k x, zget l k = Some x -> list_at G e v k = Some (inl x)) /\
  (forall k, zlen l <= k -> exists x, list_at G e v k = Some (inr x)).

Lemma view_list_like e r count elem d l q : bytes_ok (r_bytes r) -> 0 <= count ->
  count = 0 \/ wire_ok (type_of e) elem = true ->
  read_elems (Z.to_nat count) (fun p => read_top G (r_in r) p d e) (r_bytes r) [] = Got l q ->
  list_like e (VList r count elem d) l.
Proof using.
  intros Hr Hc Hw E.
  assert (Hlen : forall n p l q, read_elems n (fun p => read_top G (r_in r) p d e) p [] = Got l q -> length l = n).
  { clear. induction n as [|n IH]; intros p l q E; [by injection E as <- _|].
    apply read_elems_cons in E as (v & s & l' & _ & -> & El). cbn. f_equal. by eapply IH. }
  apply Hlen in E as Hl. assert (Hz : zlen l = count) by (unfold zlen; lia). split_and!.
  - done.
  - unfold to_vector. cbn [for_each]. rewrite (read_elems_each _ _ _ _ _ _ _ l q) by done. by rewrite each_source_collect.
  - intros S f s. cbn [for_each]. by apply (read_elems_each _ _ _ _ _ _ _ l q).
  - intros k x Hk. pose proof (zget_Some_range _ _ _ Hk) as Hk0. cbn [list_at]. destruct (Z.leb_spec count k); [lia|].
    edestruct (read_elems_nth (Z.to_nat count) (fun p => read_top G (r_in r) p d e) (fun p => skip decode_fuel p elem true d)
      (r_bytes r) l q (Z.to_nat k)) as (s & y & s' & -> & -> & Hy); [|done|done|lia|].
    + intros p v p' Hp Ev. split.
      * destruct Hw as [->|Hw]; [lia|]. eapply (read_value_skips G (r_in r) decode_fuel d); [done|exact Ev|done|by left].
      * destruct (frame_read_value (r_in r) G decode_fuel decode_fuel d ltac:(lia) e (init G e) p v p' Hp Ev) as (k' & -> & _).
        by apply Forall_app in Hp as [_ ?].
    + unfold zget in Hk. destruct (Z.ltb_spec k 0); [lia|]. congruence.
  - intros k Hk. cbn [list_at]. destruct (Z.leb_spec count k); [eauto|lia].
Qed.

(** Keeping a list for later finds what decoding it at once finds. *)
Lemma list_of_vector n o p depth e l0 l q out : bytes_ok p -> 0 <= depth -> (n <= decode_fuel)%nat ->
  read_value G o (S n) p depth (TVector e) l0 = Got (VVec l) q ->
  exists v, read_value G o (S n) p depth (TList e) out = Got v q /\ list_like e v l.
Proof using.
  intros Hp Hd Hn E. cbn [read_value] in *.
  destruct (read_list_header p) as [h s| |] eqn:Eh; [|done|done]. cbn [dbind] in *.
  pose proof (read_list_header_ok p h s Hp Eh) as (Hc & _ & _).
  destruct (frame_read_list_header o p h s Hp Eh) as (k0 & -> & _ & _). apply Forall_app in Hp as [_ Hs].
  destruct (_ && _) eqn:Ew; [done|]. destruct (Z.ltb_spec max_tagged_depth depth) as [|Hdm]; [done|].
  assert (h_count h = 0 \/ wire_ok (type_of e) (h_elem h) = true) as Hw.
  { destruct (Z.eqb_spec (h_count h) 0); [by left|]. right. by destruct (wire_ok _ _). }
  destruct (read_elems _ _ s []) as [l' s2| |] eqn:El; [|done|done]. injection E as -> <-.
  rewrite (read_elems_skips G o n e depth h s l s2 (proj1 Hc) Hs Hw (read_value_skips G o n (depth + 1)) El). cbn [dbind].
  eexists. split; [reflexivity|].
  assert (Hfr : frame o (min_elem_bytes (type_of e)) (fun p => read_value G o n p (depth + 1) e (init G e))
    (fun o' p => read_value G o' decode_fuel p (depth + 1) e (init G e))).
  { apply (frame_read_value o G n decode_fuel (depth + 1) Hn). }
  destruct (frame_read_elems o _ (Z.to_nat (h_count h)) _ _ Hfr [] s l s2 Hs El) as (k & -> & _ & Hf).
  apply Forall_app in Hs as [Hk _]. rewrite at_depth_u8 by done.
  apply (view_list_like _ _ _ _ _ _ []); [by rewrite range_bytes|lia|done|]. rewrite range_bytes.
  specialize (Hf _ [] (Forall_nil_2 _) (shifted_view o (k ++ s2) s2)). by rewrite app_nil_r in Hf.
Qed.

Lemma lazy_of_message n o p depth i v q out : bytes_ok p -> 0 <= depth -> (n <= decode_fuel)%nat ->
  read_value G o (S n) p depth (TMessage i) (init G (TMessage i)) = Got v q ->
  exists z, read_value G o (S n) p depth (TLazy i) out = Got z q /\ lazy_decode G i z = Some (inl v).
Proof using.
  intros Hp Hd Hn E. cbn [read_value] in *.
  destruct (G !! i) as [m|] eqn:Hm; [|done]. destruct (init G (TMessage i)) as [| | | | | | | | | | |fs] eqn:Hi; try done.
  destruct (read_struct _ _ _ p _ m fs) as [fs' s| |] eqn:Er; [|done|done]. injection E as <- <-.
  rewrite (read_struct_skips G o n m (depth + 1) p fs fs' s (read_value_skips G o n (depth + 1)) Hp Er). cbn [dbind].
  assert (Hdm : depth + 1 <= max_tagged_depth).
  { unfold read_struct in Er. by destruct (Z.ltb_spec max_tagged_depth (depth + 1)). }
  eexists. split; [reflexivity|]. cbn [lazy_decode]. unfold read_message. rewrite Hm, Hi. rewrite at_depth_u8 by lia.
  destruct (frame_read_struct o G (read_value G o n) (fun o' => read_value G o' decode_fuel) (skip n) (skip decode_fuel) m (depth + 1) fs
    (frame_read_value o G n decode_fuel (depth + 1) Hn) (frame_skip o n decode_fuel (depth + 1) Hn) p fs' s Hp Er)
    as (k & -> & _ & Hf).
  rewrite range_bytes. specialize (Hf _ [] (Forall_nil_2 _) (shifted_view o (k ++ s) s)). rewrite app_nil_r in Hf. by rewrite Hf.
Qed.
End Views.
