(* ===== verification/TaggedEncode.v ===== *)
(** * Writing tagged messages: the Thrift compact encoder (tagged_encode.hpp)

    [write_value], [write_struct], [thrift_compact_encode] and
    [thrift_compact_size] over the staging writer. A span or region to write is
    the bytes it views. *)
From S2P Require Import Prelude Parser Numbers Emit Messages Staging Tagged.

Definition int32_max : Z := 2147483647.

Section Write.
Context {S : Type} `{ByteSink S}.

(** [length]: false when the length does not fit the wire. *)
Definition w_length (n : Z) (w : writer S) : writer S * bool :=
  if int32_max <? n then (w_fail "a string, binary or list longer than the wire's i32 length" w, false)
  else (w_varint n w, true).

Definition w_list_header (n et : Z) (w : writer S) : writer S :=
  if int32_max <? n then w_fail "a list longer than the wire's i32 count" w
  else if n <? 15 then w_u8 (u8 (Z.lor (Z.shiftl n 4) et)) w
  else w_varint n (w_u8 (Z.lor 240 et) w).

(** A length and the bytes. *)
Definition write_bytes (bs : list Z) (w : writer S) : writer S :=
  let (w, ok) := w_length (zlen bs) w in if ok then w_raw bs w else w.

Definition double_bytes (u : Z) : list Z := List.map (fun i => u8 (Z.shiftr u (8 * i))) (seqZ 0 8).

(** A field header: the id as a delta from the last one when it is 1 to 15. *)
Definition write_field_header (id last type : Z) (w : writer S) : writer S :=
  let delta := id - last in
  if (1 <=? delta) && (delta <=? 15) then w_u8 (u8 (Z.lor (Z.shiftl delta 4) type)) w
  else w_varint (zigzag_encode 16 id) (w_u8 type w).

(** The wire type in a member's header: a bool is its value. *)
Definition field_wire (t : ttype) (v : tvalue) : Z :=
  match t, v with
  | TBool, VBool b => if b then code bool_true else code bool_false
  | t, _ => type_of t
  end.

(** The [for_each_field] of [write_struct]. *)
Definition write_fields (wv : ttype -> tvalue -> writer S -> writer S) (m : message ttype) :=
  fix go (vs : list (option tvalue)) (fs : list (field ttype)) (last : Z) (w : writer S) {struct vs} : writer S :=
    match vs, fs with
    | ov :: vs, f :: fs =>
        if failed w then go vs fs last w
        else
          let w := w_at (w_message w) (f_name f) w in
          match ov with
          | None => go vs fs last w
          | Some v =>
              let w := write_field_header (f_id f) last (field_wire (f_type f) v) w in
              let w := match f_type f with TBool => w | t => wv t v w end in
              go vs fs (f_id f) w
          end
    | _, _ => w
    end.

Definition write_struct_with (wv : ttype -> tvalue -> writer S -> writer S) (m : message ttype)
    (vs : list (option tvalue)) (w0 : writer S) : writer S :=
  let w := w_at (m_name m) (w_field w0) w0 in
  let w := write_fields wv m vs (m_fields m) 0 w in
  if failed w then w else w_at (w_message w0) (w_field w0) (w_u8 0 w).

Context (G : list (message ttype)).

Fixpoint write_value (t : ttype) (v : tvalue) (w : writer S) {struct v} : writer S :=
  match v, t with
  | VBool b, _ => w_u8 (if b then 1 else 2) w
  | VInt x, TI8 => w_u8 (wrap 8 x) w
  | VInt x, TI16 => w_varint (zigzag_encode 16 x) w
  | VInt x, TI64 => w_varint (zigzag_encode 64 x) w
  | VInt x, _ => w_varint (zigzag_encode 32 x) w
  | VDouble u, _ => w_raw (double_bytes u) w
  | VString s, _ => write_bytes s w
  | VView _ s, _ => write_bytes s w
  | VVec l, TVector e =>
      fold_left (fun w v => write_value e v w) l (w_list_header (zlen l) (type_of e) w)
  | VListOf l, TList e =>
      fold_left (fun w v => write_value e v w) l (w_list_header (zlen l) (type_of e) w)
  | VList r count elem _, TList e =>
      w_raw (r_bytes r) (w_list_header count (if negb (count =? 0) then elem else type_of e) w)
  | VLazyOf m, TLazy i => write_value (TMessage i) m w
  | VLazy r _, _ =>
      match r_bytes r with
      | [] => w_fail "a nested message (lazy<M>) that was neither decoded nor set with lazy<M>::of()" w
      | bs => w_raw bs w
      end
  | VEmpty, _ => w_u8 0 w
  | VMsg vs, TMessage i =>
      match G !! i with
      | Some m => write_struct_with write_value m vs w
      | None => w
      end
  | _, _ => w
  end.

(** [thrift_compact_encode(m, sink)] for a message of the [k]-th type. *)
Definition thrift_compact_encode (k : nat) (m : tvalue) (sink : S) : S * (Z + encode_error) :=
  w_finish (write_value (TMessage k) m (Writer sink 0 None "" "" [])).

End Write.

Definition thrift_compact_encode_vector (G : list (message ttype)) (k : nat) (m : tvalue) (out : list Z) :
    list Z * (Z + encode_error) := thrift_compact_encode G k m out.

Definition thrift_compact_size (G : list (message ttype)) (k : nat) (m : tvalue) : Z + encode_error :=
  snd (thrift_compact_encode G k m (CountingSink 0)).
