(* ===== verification/TaggedRead.v ===== *)
(** * Reading back what the Thrift compact encoder wrote

    [reread t v v']: [v'] is what reading the encoding of [v] yields: the same
    scalars, strings and messages, and for the lazy members of [v] views that
    decode to what was written. *)
From Stdlib Require Import Sorting.Sorted.
From S2P Require Import Prelude Parser BytesParsers Combinators CombinatorFacts Numbers Emit Messages Staging Tagged TaggedTypes TaggedViews TaggedEncode.

(** * What the Thrift compact encoder writes, and that it reads back

    [enc] is the encoding of a value as a function, [encodable] the values
    that have one. The staging writer delivers exactly [enc] to its sink, or
    stops where the sink refuses. Reading [enc v] back yields [v], its lazy
    members as views that decode to what was written. *)

(** ** The encoding *)
Definition enc_list_header (n et : Z) : list Z :=
  if n <? 15 then [u8 (Z.lor (Z.shiftl n 4) et)] else Z.lor 240 et :: uleb128_encode 64 n.

Definition enc_field_header (id last type : Z) : list Z :=
  let delta := id - last in
  if (1 <=? delta) && (delta <=? 15) then [u8 (Z.lor (Z.shiftl delta 4) type)]
  else type :: uleb128_encode 64 (zigzag_encode 16 id).

Definition enc_bytes (s : list Z) : list Z := uleb128_encode 64 (zlen s) ++ s.

Definition enc_fields (en : ttype -> tvalue -> list Z) :=
  fix go (vs : list (option tvalue)) (fs : list (field ttype)) (last : Z) {struct vs} : list Z :=
    match vs, fs with
    | None :: vs, f :: fs => go vs fs last
    | Some v :: vs, f :: fs =>
        enc_field_header (f_id f) last (field_wire (f_type f) v) ++
        (match f_type f with TBool => [] | t => en t v end) ++ go vs fs (f_id f)
    | _, _ => []
    end.

Section Enc.
Context (G : list (message ttype)).

Fixpoint enc (t : ttype) (v : tvalue) {struct v} : list Z :=
  match v, t with
  | VBool b, _ => [if b then 1 else 2]
  | VInt x, TI8 => [wrap 8 x]
  | VInt x, TI16 => uleb128_encode 64 (zigzag_encode 16 x)
  | VInt x, TI64 => uleb128_encode 64 (zigzag_encode 64 x)
  | VInt x, _ => uleb128_encode 64 (zigzag_encode 32 x)
  | VDouble u, _ => double_bytes u
  | VString s, _ => enc_bytes s
  | VView _ s, _ => enc_bytes s
  | VVec l, TVector e => enc_list_header (zlen l) (type_of e) ++ concat (List.map (enc e) l)
  | VListOf l, TList e => enc_list_header (zlen l) (type_of e) ++ concat (List.map (enc e) l)
  | VList r count elem _, TList e => enc_list_header count (if negb (count =? 0) then elem else type_of e) ++ r_bytes r
  | VLazyOf m, TLazy i => enc (TMessage i) m
  | VLazy r _, _ => r_bytes r
  | VEmpty, _ => [0]
  | VMsg vs, TMessage i => match G !! i with Some m => enc_fields enc vs (m_fields m) 0 ++ [0] | None => [] end
  | _, _ => []
  end.

(** What can be written: lengths and counts within the wire's i32, and every
    lazy message set. *)
Fixpoint encodable (v : tvalue) : bool :=
  match v with
  | VString s | VView _ s => zlen s <=? int32_max
  | VVec l | VListOf l => (zlen l <=? int32_max) && forallb encodable l
  | VList _ count _ _ => count <=? int32_max
  | VLazy r _ => negb (zlen (r_bytes r) =? 0)
  | VLazyOf m => encodable m
  | VMsg vs => forallb (fun ov => match ov with Some v => encodable v | None => true end) vs
  | _ => true
  end.
End Enc.

(** ** Headers and strings *)
Section Writer.
Context {S : Type} `{ByteSink S} (s0 : S).

Lemma list_header_wrote bs n et w : 0 <= n <= int32_max -> wrote s0 bs w ->
  wrote s0 (bs ++ enc_list_header n et) (w_list_header n et w).
Proof using.
  intros Hn Hw. unfold w_list_header, enc_list_header, int32_max in *. destruct (Z.ltb_spec 2147483647 n); [lia|].
  destruct (n <? 15); [by apply u8_wrote|]. rewrite cons_middle, app_assoc. apply varint_wrote; [lia|]. by apply u8_wrote.
Qed.

Lemma bytes_wrote bs x w : zlen x <= int32_max -> wrote s0 bs w -> wrote s0 (bs ++ enc_bytes x) (write_bytes x w).
Proof using.
  intros Hx Hw. unfold write_bytes, w_length, enc_bytes, int32_max in *. destruct (Z.ltb_spec 2147483647 (zlen x)); [lia|].
  rewrite app_assoc. apply raw_wrote, varint_wrote; [|done]. pose proof (zlen_nonneg x). lia.
Qed.

Lemma field_header_wrote bs id last type w : 1 <= id <= 32767 -> wrote s0 bs w ->
  wrote s0 (bs ++ enc_field_header id last type) (write_field_header id last type w).
Proof using.
  intros Hid Hw. unfold write_field_header, enc_field_header. cbv zeta. destruct (_ && _); [by apply u8_wrote|].
  rewrite cons_middle, app_assoc. apply varint_wrote; [|by apply u8_wrote].
  pose proof (zigzag_encode_range 16 id ltac:(lia)). change (2 ^ (16 - 1)) with 32768 in *. change (2 ^ 16) with 65536 in *. lia.
Qed.
End Writer.

Section Values.
Context {S : Type} `{ByteSink S} (s0 : S) (G : list (message ttype)) (HG : env_ok G = true).

Lemma write_fields_failed (wv : ttype -> tvalue -> writer S -> writer S) m vs fs last w : failed w = true -> write_fields wv m vs fs last w = w.
Proof using.
  intros Hf. revert fs last. induction vs as [|ov vs IH]; intros [|f fs] last; try done. cbn [write_fields]. rewrite Hf. apply IH.
Qed.

Lemma fields_wrote m vs fs :
  Forall (fun ov => match ov with
    | Some v => forall t bs w, typed G t v = true -> encodable v = true -> wrote s0 bs w -> wrote s0 (bs ++ enc G t v) (write_value G t v w)
    | None => True end) vs ->
  Forall2 (typed_member G) vs fs -> Forall (fun f => 1 <= f_id f <= 32767) fs ->
  forallb (fun ov => match ov with Some v => encodable v | None => true end) vs = true ->
  forall last bs w, wrote s0 bs w -> wrote s0 (bs ++ enc_fields (enc G) vs fs last) (write_fields (write_value G) m vs fs last w).
Proof using.
  intros HP Ht. revert HP. induction Ht as [|ov f vs fs Hov Ht IH]; intros HP Hid He last bs w Hw.
  { cbn. by rewrite app_nil_r. }
  apply Forall_cons in HP as [Hv HP]. apply Forall_cons in Hid as [Hfid Hid]. cbn in He. apply andb_true_iff in He as [Hev He].
  destruct (failed w) eqn:Ef.
  { rewrite write_fields_failed by done. destruct Hw as [Hw|Hw]; [apply failed_taken in Hw; congruence|].
    right. by apply refused_app. }
  cbn [write_fields]. rewrite Ef. destruct ov as [v|]; cbn [enc_fields].
  - rewrite !app_assoc. apply IH; [done..|]. unfold typed_member in Hov. cbn [w_message w_at].
    assert (forall x, wrote s0 (bs ++ enc_field_header (f_id f) last (field_wire (f_type f) v)) x ->
      wrote s0 ((bs ++ enc_field_header (f_id f) last (field_wire (f_type f) v)) ++ match f_type f with TBool => [] | t => enc G t v end)
        (match f_type f with TBool => x | t => write_value G t v x end)) as Hval.
    { intros x Hx. pose proof (Hv (f_type f) _ x Hov Hev Hx) as Hr. destruct (f_type f); try exact Hr. by rewrite app_nil_r. }
    apply Hval. apply field_header_wrote; [done|]. by apply at_wrote.
  - apply IH; [done..|]. by apply at_wrote.
Qed.

Lemma elements_wrote e l : Forall (fun v => forall t bs w, typed G t v = true -> encodable v = true -> wrote s0 bs w ->
    wrote s0 (bs ++ enc G t v) (write_value G t v w)) l ->
  forallb (typed G e) l = true -> forallb encodable l = true -> forall bs w, wrote s0 bs w ->
  wrote s0 (bs ++ concat (List.map (enc G e) l)) (fold_left (fun w v => write_value G e v w) l w).
Proof using.
  induction 1 as [|v l Hv Hl IH]; cbn; intros Ht He bs w Hw; [by rewrite app_nil_r|].
  apply andb_true_iff in Ht as [? ?], He as [? ?]. rewrite app_assoc. apply IH; [done..|]. by apply Hv.
Qed.

Lemma zigzag_wrote k bs x w : 0 < k <= 64 -> in_width k x = true -> wrote s0 bs w ->
  wrote s0 (bs ++ uleb128_encode 64 (zigzag_encode k x)) (w_varint (zigzag_encode k x) w).
Proof using.
  intros Hk Hx%in_width_spec Hw. apply varint_wrote; [|done].
  pose proof (zigzag_encode_range k x ltac:(lia) Hx). assert (2 ^ k <= 2 ^ 64) by (apply Z.pow_le_mono_r; lia). lia.
Qed.

Lemma write_value_wrote v : forall t bs w, typed G t v = true -> encodable v = true -> wrote s0 bs w ->
  wrote s0 (bs ++ enc G t v) (write_value G t v w).
Proof using HG.
  induction v as [b|x|u|s|b s|l Hl|l Hl|r c e d|r d|m IH| |vs Hvs] using tvalue_ind'; intros t bs w Ht He Hw;
    destruct t as [| | | | | | | | | |e'|e'|i| |i]; try done; cbn [enc write_value encodable typed] in *;
    try (apply zigzag_wrote; [lia|done|done]); try (by apply u8_wrote); try (by apply raw_wrote); try (apply bytes_wrote; [lia|done]).
  - apply andb_true_iff in He as [Hn He]. rewrite app_assoc. apply elements_wrote; [done..|].
    apply list_header_wrote; [pose proof (zlen_nonneg l); lia|done].
  - apply andb_true_iff in He as [Hn He]. rewrite app_assoc. apply elements_wrote; [done..|].
    apply list_header_wrote; [pose proof (zlen_nonneg l); lia|done].
  - rewrite app_assoc. apply raw_wrote, list_header_wrote; [|done]. rewrite !andb_true_iff in Ht. lia.
  - destruct (r_bytes r); [done|]. by apply raw_wrote.
  - by apply IH.
  - destruct (G !! i) as [m|] eqn:Em; [|done]. apply check_fields_Forall2 in Ht.
    destruct (env_ok_lookup G HG i m Em) as [Hok _]. destruct (thrift_ok_ids m Hok) as (_ & Hid & _).
    unfold ids in Hid. rewrite Forall_fmap in Hid. unfold write_struct_with.
    pose proof (fields_wrote m vs (m_fields m) Hvs Ht Hid He 0 bs (w_at (m_name m) (w_field w) w) (at_wrote _ _ _ _ _ Hw)) as Hf.
    rewrite app_assoc. destruct (failed _) eqn:Ef.
    + destruct Hf as [Hf|Hf]; [apply failed_taken in Hf; congruence|]. right. by apply refused_app.
    + by apply at_wrote, u8_wrote.
Qed.
End Values.

(** ** Errors *)
Section Errors.
Context {S : Type} `{ByteSink S} (G : list (message ttype)).

Lemma list_header_failed n et (w : writer S) : failed w = true -> failed (w_list_header n et w) = true.
Proof using.
  intros Hf. unfold w_list_header. destruct (_ <? n); [apply fail_failed|]. destruct (_ <? 15); [by apply u8_failed|].
  by apply varint_failed, u8_failed.
Qed.

Lemma bytes_failed b (w : writer S) : failed w = true -> failed (write_bytes b w) = true.
Proof using.
  intros Hf. unfold write_bytes, w_length. destruct (_ <? _); [apply fail_failed|]. by apply raw_failed, varint_failed.
Qed.

Lemma struct_failed (wv : ttype -> tvalue -> writer S -> writer S) m vs w : failed w = true -> failed (write_struct_with wv m vs w) = true.
Proof using.
  intros Hf. unfold write_struct_with. cbv zeta. assert (failed (w_at (m_name m) (w_field w) w) = true) as E by exact Hf.
  rewrite write_fields_failed by done. by rewrite E.
Qed.

Lemma elements_failed e l : Forall (fun v => forall t (w : writer S), failed w = true -> failed (write_value G t v w) = true) l ->
  forall w, failed w = true -> failed (fold_left (fun w v => write_value G e v w) l w) = true.
Proof using. induction 1 as [|v l Hv Hl IH]; intros w Hf; [done|]. cbn. auto. Qed.

Lemma value_failed v : forall t (w : writer S), failed w = true -> failed (write_value G t v w) = true.
Proof using.
  induction v as [b|x|u|s|b s|l Hl|l Hl|r c e d|r d|m IH| |vs Hvs] using tvalue_ind'; intros t w Hf;
    destruct t as [| | | | | | | | | |e'|e'|i| |i]; cbn [write_value];
    try done; try (by apply u8_failed); try (by apply varint_failed); try (by apply raw_failed); try (by apply bytes_failed);
    try (by apply elements_failed, list_header_failed); try (by apply raw_failed, list_header_failed);
    try (destruct (r_bytes r); [apply fail_failed|by apply raw_failed]); try (by apply IH).
  destruct (G !! i); [|done]. by apply struct_failed.
Qed.

Lemma elements_fail e l : Forall (fun v => forall t (w : writer S), typed G t v = true -> encodable v = false -> failed (write_value G t v w) = true) l ->
  forallb (typed G e) l = true -> forallb encodable l = false -> forall w, failed (fold_left (fun w v => write_value G e v w) l w) = true.
Proof using.
  induction 1 as [|v l Hv Hl IH]; cbn; intros Ht He w; [done|]. apply andb_true_iff in Ht as [? ?].
  apply andb_false_iff in He as [He|He]; [|by apply IH].
  apply elements_failed; [apply Forall_true; intros; by apply value_failed|by apply Hv].
Qed.

Lemma fields_fail m vs fs : Forall (fun ov => match ov with Some v => forall t (w : writer S), typed G t v = true -> encodable v = false -> failed (write_value G t v w) = true | None => True end) vs ->
  Forall2 (typed_member G) vs fs ->
  forallb (fun ov => match ov with Some v => encodable v | None => true end) vs = false ->
  forall last w, failed (write_fields (write_value G) m vs fs last w) = true.
Proof using.
  intros HP Ht. revert HP. induction Ht as [|ov f vs fs Hov Ht IH]; intros HP He last w; [done|].
  apply Forall_cons in HP as [Hv HP]. destruct (failed w) eqn:Ef; [by rewrite write_fields_failed|].
  cbn [write_fields]. rewrite Ef. cbn [forallb] in He. apply andb_false_iff in He as [He|He].
  - destruct ov as [v|]; [|done]. unfold typed_member in Hov. cbv zeta.
    assert (forall x, failed (match f_type f with TBool => x | t => write_value G t v x end) = true) as Hx.
    { intros x. pose proof (Hv (f_type f) x Hov He). destruct (f_type f); try done. by destruct v. }
    rewrite write_fields_failed by apply Hx. apply Hx.
  - destruct ov as [v|]; by apply IH.
Qed.

(** A value that cannot be written is an error, whatever the sink. *)
Lemma value_fails v : forall t (w : writer S), typed G t v = true -> encodable v = false -> failed (write_value G t v w) = true.
Proof using.
  assert (forall l et (w : writer S), zlen l <=? int32_max = false -> failed (w_list_header (zlen (A := tvalue) l) et w) = true) as Hhdr.
  { intros l et w Hl%Z.leb_gt. unfold w_list_header. destruct (Z.ltb_spec int32_max (zlen l)); [apply fail_failed|lia]. }
  assert (forall b (w : writer S), zlen b <=? int32_max = false -> failed (write_bytes b w) = true) as Hby.
  { intros b w Hb%Z.leb_gt. unfold write_bytes, w_length. destruct (Z.ltb_spec int32_max (zlen b)); [apply fail_failed|lia]. }
  induction v as [b|x|u|s|b s|l Hl|l Hl|r c e d|r d|m IH| |vs Hvs] using tvalue_ind'; intros t w Ht He;
    destruct t as [| | | | | | | | | |e'|e'|i| |i]; try done; cbn [write_value encodable typed] in *; try (by apply Hby).
  - apply andb_false_iff in He as [He|He]; [|by apply elements_fail].
    apply elements_failed; [apply Forall_true; intros; by apply value_failed|by apply Hhdr].
  - apply andb_false_iff in He as [He|He]; [|by apply elements_fail].
    apply elements_failed; [apply Forall_true; intros; by apply value_failed|by apply Hhdr].
  - apply raw_failed. unfold w_list_header. destruct (Z.ltb_spec int32_max c); [apply fail_failed|lia].
  - destruct (r_bytes r) as [|b0 bs]; [apply fail_failed|]. apply negb_false_iff, Z.eqb_eq in He. rewrite zlen_cons in He. pose proof (zlen_nonneg bs). lia.
  - by apply IH.
  - destruct (G !! i) as [m|]; [|done]. apply check_fields_Forall2 in Ht. unfold write_struct_with. cbv zeta.
    by rewrite (fields_fail m vs (m_fields m) Hvs Ht He), (fields_fail m vs (m_fields m) Hvs Ht He).
Qed.
End Errors.

(** ** Whole messages *)
Section Whole.
Context {S : Type} `{ByteSink S} (G : list (message ttype)) (HG : env_ok G = true).

(** The encoding goes to the sink, or the sink refuses a block of it. *)
Lemma encode_delivered k m s : typed G (TMessage k) m = true -> encodable m = true ->
  delivered s (enc G (TMessage k) m) (thrift_compact_encode G k m s).
Proof using HG.
  intros Ht He. apply finish_delivered. apply (write_value_wrote s G HG m (TMessage k) []); [done..|]. apply wrote_start.
Qed.
End Whole.

Section Reread.
Context (G : list (message ttype)).

Inductive reread : ttype -> tvalue -> tvalue -> Prop :=
| rr_bool t b : reread t (VBool b) (VBool b)
| rr_int t x : reread t (VInt x) (VInt x)
| rr_double t u : reread t (VDouble u) (VDouble u)
| rr_string t s : reread t (VString s) (VString s)
| rr_view t b b' s : b_size b' = zlen s -> reread t (VView b s) (VView b' s)
| rr_vec e l l' : Forall2 (reread e) l l' -> reread (TVector e) (VVec l) (VVec l')
| rr_list_of e l l' v : Forall2 (reread e) l l' -> list_like G e v l' -> reread (TList e) (VListOf l) v
| rr_list e r count w d r' w' d' :
    r_bytes r' = r_bytes r -> (count <> 0 -> w' = w) -> reread (TList e) (VList r count w d) (VList r' count w' d')
| rr_lazy_of i m m' v : reread (TMessage i) m m' -> lazy_decode G i v = Some (inl m') -> reread (TLazy i) (VLazyOf m) v
| rr_lazy i r d r' d' : r_bytes r' = r_bytes r -> reread (TLazy i) (VLazy r d) (VLazy r' d')
| rr_empty t : reread t VEmpty VEmpty
| rr_msg i m vs vs' : G !! i = Some m ->
    Forall3 (fun f ov ov' => option_Forall2 (reread (f_type f)) ov ov') (m_fields m) vs vs' ->
    reread (TMessage i) (VMsg vs) (VMsg vs').

Definition gets_all (r : dec unit) : bool := match r with Got _ [] => true | _ => false end.

(** [v] written at [depth] nests within the limit: a view kept from another
    message may be read where it is put. *)
Fixpoint fits (t : ttype) (depth : Z) (v : tvalue) {struct v} : bool :=
  match v, t with
  | VVec l, TVector e => (depth <=? max_tagged_depth) && forallb (fits e (depth + 1)) l
  | VListOf l, TList e => (depth <=? max_tagged_depth) && forallb (fits e (depth + 1)) l
  | VList r count w _, TList e =>
      (depth <=? max_tagged_depth) && (count * min_elem_bytes (if negb (count =? 0) then w else type_of e) <=? zlen (r_bytes r)) &&
      gets_all (skip_elems (skip decode_fuel) (r_bytes r) (ListHeader count (if negb (count =? 0) then w else type_of e)) depth)
  | VLazyOf m, TLazy i => fits (TMessage i) depth m
  | VLazy r _, TLazy _ => gets_all (skip_struct (skip decode_fuel) (r_bytes r) (depth + 1))
  | VEmpty, _ => depth + 1 <=? max_tagged_depth
  | VMsg vs, TMessage i =>
      match G !! i with
      | Some m => (depth + 1 <=? max_tagged_depth) && check_fields (fun t v => fits t (depth + 1) v) vs (m_fields m)
      | None => false
      end
  | _, _ => true
  end.
End Reread.

(** ** Reading headers back *)
Lemma varint_enc v q : 0 <= v < 2 ^ 64 -> bytes_ok q -> varint (uleb128_encode 64 v ++ q) = Got v q.
Proof.
  intros Hv Hq. destruct (uleb128_encode_spec 64 v ltac:(lia) Hv) as (Hb & Hs & Hval & Hl).
  rewrite varint_terminated by (done || by apply Forall_app). unfold varint_answer. rewrite Hval.
  change (leb128_max_bytes 64) with 10 in Hl. rewrite (proj2 (Z.leb_le _ _)), (proj2 (Z.ltb_lt _ _)) by lia. done.
Qed.

Lemma varint32_enc v q : 0 <= v < 2 ^ 32 -> bytes_ok q -> varint32 (uleb128_encode 64 v ++ q) = Got v q.
Proof.
  intros Hv Hq. unfold varint32. rewrite varint_enc by (done || lia). cbn [dbind].
  destruct (Z.ltb_spec 4294967295 v); [lia|done].
Qed.

Lemma zigzag_enc k x q : 0 < k <= 64 -> - 2 ^ (k - 1) <= x < 2 ^ (k - 1) -> bytes_ok q ->
  zigzag k (uleb128_encode 64 (zigzag_encode k x) ++ q) = Got x q.
Proof.
  intros Hk Hx Hq. destruct (zigzag_wide k x Hk Hx) as (E & Hr & Hx64). unfold zigzag.
  rewrite varint_enc by done. cbn [dbind]. rewrite E, zigzag_decode_encode by (done || lia). cbv zeta.
  rewrite (proj2 (Z.ltb_ge _ _)), (proj2 (Z.ltb_ge _ _)) by lia. done.
Qed.

(** A header byte packs two numbers below 16. *)
Lemma pack_unpack a b : 0 <= a < 16 -> 0 <= b < 16 ->
  is_byte (u8 (Z.lor (Z.shiftl a 4) b)) /\ Z.shiftr (u8 (Z.lor (Z.shiftl a 4) b)) 4 = a /\
  Z.land (u8 (Z.lor (Z.shiftl a 4) b)) 15 = b.
Proof.
  intros Ha Hb.
  assert (u8 (Z.lor (Z.shiftl a 4) b) = b + a * 16) as ->.
  { rewrite Z.lor_comm, lor_shiftl_add by lia. change (2 ^ 4) with 16. apply wrap_small. lia. }
  split_and!; [red; lia| |].
  - rewrite Z.shiftr_div_pow2 by lia. change (2 ^ 4) with 16. Z.div_mod_to_equations; lia.
  - change 15 with (Z.ones 4). rewrite Z.land_ones by lia. change (2 ^ 4) with 16. Z.div_mod_to_equations; lia.
Qed.

Lemma pack_240 b : 0 <= b < 16 -> Z.lor 240 b = u8 (Z.lor (Z.shiftl 15 4) b).
Proof.
  intros Hb. change (Z.shiftl 15 4) with 240. symmetry. apply wrap_small. apply (lor_range 240 b 8); lia.
Qed.

Lemma list_header_bytes n et : 0 <= n <= int32_max -> 0 <= et < 16 -> bytes_ok (enc_list_header n et).
Proof.
  intros Hn Het. unfold enc_list_header, int32_max in *. destruct (Z.ltb_spec n 15).
  - apply Forall_singleton. apply pack_unpack; lia.
  - constructor; [rewrite pack_240 by done; apply pack_unpack; lia|]. apply uleb_nonempty. lia.
Qed.

Lemma read_list_header_enc n et q : 0 <= n <= int32_max -> 0 <= et < 16 -> bytes_ok q ->
  n * min_elem_bytes et <= zlen q -> read_list_header (enc_list_header n et ++ q) = Got (ListHeader n et) q.
Proof.
  intros Hn Het Hq Hc. pose proof (min_elem_bytes_pos et).
  assert (n <= zlen q / min_elem_bytes et) by (apply Z.div_le_lower_bound; lia).
  unfold enc_list_header, int32_max in *. destruct (Z.ltb_spec n 15) as [H15|H15].
  - destruct (pack_unpack n et ltac:(lia) Het) as (_ & E1 & E2). cbn [app read_list_header]. cbv zeta. rewrite E1, E2.
    destruct (Z.eqb_spec n 15); [lia|]. cbn [dbind]. by destruct (Z.ltb_spec (zlen q / min_elem_bytes et) n); [lia|].
  - cbn [app read_list_header]. cbv zeta. rewrite pack_240 by done.
    destruct (pack_unpack 15 et ltac:(lia) Het) as (_ & E1 & E2). rewrite E1, E2. cbn [Z.eqb Pos.eqb].
    rewrite varint32_enc by (done || lia). cbn [dbind]. by destruct (Z.ltb_spec (zlen q / min_elem_bytes et) n); [lia|].
Qed.

Lemma read_binary_enc s q : bytes_ok s -> bytes_ok q -> zlen s <= int32_max -> read_binary (enc_bytes s ++ q) = Got s q.
Proof.
  intros Hs Hq Hl. unfold read_binary, enc_bytes, int32_max in *. pose proof (zlen_nonneg s). rewrite <- app_assoc.
  rewrite varint32_enc by (lia || by apply Forall_app). cbn [dbind]. rewrite zlen_app. pose proof (zlen_nonneg q).
  destruct (Z.ltb_spec (zlen s + zlen q) (zlen s)); [lia|]. by rewrite ztake_app, zdrop_app by done.
Qed.

Lemma double_bytes_le u : double_bytes u = le_bytes 8 u.
Proof. unfold double_bytes. cbn. by rewrite ?Z.shiftr_shiftr by lia. Qed.

(** ** The encoding is made of bytes *)
Lemma type_of_range t : 1 <= type_of t <= 12.
Proof. destruct t; cbn; lia. Qed.

Lemma field_wire_range t v : 1 <= field_wire t v <= 12.
Proof. destruct t; cbn; try lia. destruct v; cbn; try lia. destruct b; cbn; lia. Qed.

Lemma field_header_bytes id last type : 1 <= id <= 32767 -> 1 <= type <= 12 -> bytes_ok (enc_field_header id last type).
Proof.
  intros Hid Ht. unfold enc_field_header. cbv zeta. destruct (_ && _) eqn:E.
  - apply andb_true_iff in E as [?%Z.leb_le ?%Z.leb_le]. apply Forall_singleton. apply pack_unpack; lia.
  - constructor; [red; lia|]. apply uleb_nonempty. apply (zigzag_wide 16 id); [lia|]. change (2 ^ (16 - 1)) with 32768. lia.
Qed.

Section EncBytes.
Context (G : list (message ttype)) (HG : env_ok G = true).

Lemma enc_int_ok k x : 0 < k <= 64 -> in_width k x = true ->
  bytes_ok (uleb128_encode 64 (zigzag_encode k x)) /\ 1 <= zlen (uleb128_encode 64 (zigzag_encode k x)).
Proof using. intros Hk Hx%in_width_spec. by destruct (uleb_nonempty (zigzag_encode k x)); [apply zigzag_wide|]. Qed.

Lemma enc_bytes_ok s : all_bytes s = true -> zlen s <= int32_max -> bytes_ok (enc_bytes s) /\ 1 <= zlen (enc_bytes s).
Proof using.
  intros Hs%all_bytes_ok Hl. unfold int32_max in *. pose proof (zlen_nonneg s).
  destruct (uleb_nonempty (zlen s)) as [? ?]; [lia|]. unfold enc_bytes. rewrite zlen_app. split; [by apply Forall_app|lia].
Qed.

Lemma list_header_nonempty n et : 1 <= zlen (enc_list_header n et).
Proof using.
  unfold enc_list_header. destruct (_ <? _); [done|]. rewrite zlen_cons. pose proof (zlen_nonneg (uleb128_encode 64 n)). lia.
Qed.

Lemma concat_zlen {A} c (f : A -> list Z) l : Forall (fun x => c <= zlen (f x)) l -> zlen l * c <= zlen (concat (List.map f l)).
Proof using. induction 1; cbn [List.map concat]; [done|]. rewrite zlen_cons, zlen_app. lia. Qed.

Lemma enc_fields_ok vs fs : Forall2 (typed_member G) vs fs -> Forall (fun f => 1 <= f_id f <= 32767) fs ->
  Forall (fun ov => match ov with Some v => forall t, typed G t v = true -> encodable v = true -> bytes_ok (enc G t v) /\ min_elem_bytes (type_of t) <= zlen (enc G t v) | None => True end) vs ->
  forallb (fun ov => match ov with Some v => encodable v | None => true end) vs = true ->
  forall last, bytes_ok (enc_fields (enc G) vs fs last).
Proof using.
  intros Ht Hid. revert Hid. induction Ht as [|ov f vs fs Hov Ht IH]; intros Hid HP He last; [done|].
  apply Forall_cons in HP as [Hv HP]. apply Forall_cons in Hid as [Hfid Hid]. cbn in He. apply andb_true_iff in He as [Hev He].
  destruct ov as [v|]; cbn [enc_fields]; [|by apply IH]. apply Forall_app. split.
  - apply field_header_bytes; [done|apply field_wire_range].
  - apply Forall_app. split; [|by apply IH]. unfold typed_member in Hov. destruct (Hv (f_type f) Hov Hev) as [Hb _].
    destruct (f_type f); done.
Qed.

Lemma enc_ok v : forall t, typed G t v = true -> encodable v = true ->
  bytes_ok (enc G t v) /\ min_elem_bytes (type_of t) <= zlen (enc G t v).
Proof using HG.
  assert (forall l e, Forall (fun v => forall t, typed G t v = true -> encodable v = true ->
    bytes_ok (enc G t v) /\ min_elem_bytes (type_of t) <= zlen (enc G t v)) l -> forallb (typed G e) l = true ->
    (zlen l <=? int32_max) && forallb encodable l = true ->
    bytes_ok (enc_list_header (zlen l) (type_of e) ++ concat (List.map (enc G e) l)) /\
    1 <= zlen (enc_list_header (zlen l) (type_of e) ++ concat (List.map (enc G e) l))) as Hlist.
  { intros l e Hl Ht [Hn He]%andb_true_iff. pose proof (zlen_nonneg l). pose proof (type_of_range e). split.
    - apply Forall_app. split; [apply list_header_bytes; lia|]. apply concat_ok.
      rewrite forallb_Forall in Ht, He. rewrite Forall_forall in Hl, Ht, He. apply Forall_forall. intros x Hx. by apply Hl; auto.
    - rewrite zlen_app. pose proof (list_header_nonempty (zlen l) (type_of e)). pose proof (zlen_nonneg (concat (List.map (enc G e) l))). lia. }
  induction v as [b|x|u|s|b s|l Hl|l Hl|r c e d|r d|m IH| |vs Hvs] using tvalue_ind'; intros t Ht He;
    destruct t as [| | | | | | | | | |e'|e'|i| |i]; try done; cbn [enc encodable typed type_of] in *;
    try change (min_elem_bytes _) with 1; try (apply (enc_int_ok 16); [lia|done]); try (apply (enc_int_ok 32); [lia|done]);
    try (apply (enc_int_ok 64); [lia|done]); try (by apply Hlist); try (apply enc_bytes_ok; [done|lia]).
  - split; [apply Forall_singleton; destruct b; red; lia|done].
  - split; [apply Forall_singleton; apply (wrap_range 8); lia|done].
  - rewrite double_bytes_le. split; [apply le_bytes_ok|]. unfold zlen. by rewrite length_le_bytes.
  - apply andb_true_iff in Ht as [? _]. apply enc_bytes_ok; [done|lia].
  - apply andb_true_iff in Ht as [? _]. apply enc_bytes_ok; [done|lia].
  - rewrite !andb_true_iff in Ht. destruct Ht as [[[[[[[Hr ?] ?] ?] ?] ?] ?] ?]. unfold region_ok in Hr. apply andb_true_iff in Hr as [Hr _].
    pose proof (type_of_range e'). split.
    + apply Forall_app. split; [apply list_header_bytes; [lia|destruct (negb _); lia]|by apply all_bytes_ok].
    + rewrite zlen_app. pose proof (zlen_nonneg (r_bytes r)). pose proof (list_header_nonempty c (if negb (c =? 0) then e else type_of e')). lia.
  - rewrite !andb_true_iff in Ht. destruct Ht as [[Hr _] _]. unfold region_ok in Hr. apply andb_true_iff in Hr as [Hr _].
    pose proof (zlen_nonneg (r_bytes r)). split; [by apply all_bytes_ok|]. apply negb_true_iff, Z.eqb_neq in He. lia.
  - by apply (IH (TMessage i)).
  - split; [apply Forall_singleton; red; lia|done].
  - destruct (G !! i) as [m|] eqn:Em; [|done]. apply check_fields_Forall2 in Ht.
    destruct (env_ok_lookup G HG i m Em) as [Hok _]. destruct (thrift_ok_ids m Hok) as (_ & Hid & _).
    unfold ids in Hid. rewrite Forall_fmap in Hid. split.
    + apply Forall_app. split; [by apply enc_fields_ok|]. apply Forall_singleton. red. lia.
    + rewrite zlen_app. pose proof (zlen_nonneg (enc_fields (enc G) vs (m_fields m) 0)). change (zlen [0]) with 1. lia.
Qed.
End EncBytes.

(** ** The required-field mask *)
Section ZeroFuel.
Context (G : list (message ttype)) (HG : env_ok G = true).

Lemma zero_fuel f1 f2 t : complete f1 t = true -> complete f2 t = true -> zero G f1 t = zero G f2 t.
Proof using HG.
  revert f2 t. induction f1 as [|f1 IH]; intros f2 t H1 H2; destruct t as [| | | | | | | | | | | | | |i]; try done;
    try (by destruct f2). apply bool_decide_eq_true in H1, H2. destruct f2 as [|f2]; [lia|]. cbn [zero].
  destruct (G !! i) as [m|] eqn:Em; [|done]. destruct (env_ok_lookup G HG i m Em) as [_ Hf]. f_equal.
  apply map_ext_Forall. eapply Forall_impl; [exact Hf|]. intros f [_ Hc]. cbn beta. destruct (f_opt f); [done|]. f_equal.
  unfold complete in Hc. destruct (f_type f) as [| | | | | | | | | | | | | |j] eqn:Et; try (by destruct f1, f2).
  apply bool_decide_eq_true in Hc. apply IH; apply bool_decide_eq_true; lia.
Qed.

Definition init_member (f : field ttype) : option tvalue := if f_opt f then None else Some (init G (f_type f)).

Lemma init_message i m : G !! i = Some m -> init G (TMessage i) = VMsg (List.map init_member (m_fields m)).
Proof using HG.
  intros Em. unfold init. cbn [zero]. rewrite Em. f_equal. destruct (env_ok_lookup G HG i m Em) as [_ Hf].
  apply lookup_lt_Some in Em. apply map_ext_Forall. eapply Forall_impl; [exact Hf|]. intros f [Hs Hc]. unfold init_member.
  destruct (f_opt f); [done|]. f_equal. apply zero_fuel; apply (scoped_complete G); done || lia.
Qed.
End ZeroFuel.

(** ** Messages *)
Lemma field_header_read id last type : 0 <= last < id -> id <= 32767 -> 1 <= type <= 12 ->
  exists hb tl, enc_field_header id last type = hb :: tl /\ hb <> 0 /\ Z.land hb 15 = type /\
    forall x q, bytes_ok q -> read_id hb last x (tl ++ q) = Got id q.
Proof.
  intros Hid Hid2 Ht. unfold enc_field_header. cbv zeta.
  destruct (Z.leb_spec 1 (id - last)); [|lia]. destruct (Z.leb_spec (id - last) 15) as [H15|H15]; cbn [andb].
  - destruct (pack_unpack (id - last) type ltac:(lia) ltac:(lia)) as (_ & E1 & E2).
    eexists _, []. split_and!; [done| |done|].
    + intros E0. rewrite E0, Z.land_0_l in E2. lia.
    + intros x q Hq. cbn [app]. unfold read_id. cbv zeta. rewrite E1. destruct (Z.eqb_spec (id - last) 0); [lia|].
      destruct (Z.ltb_spec 32767 (last + (id - last))); [lia|]. f_equal. lia.
  - exists type. eexists. split_and!; [done|lia| |].
    + change 15 with (Z.ones 4). rewrite Z.land_ones by lia. apply Z.mod_small. lia.
    + intros x q Hq. unfold read_id. cbv zeta. assert (Z.shiftr type 4 = 0) as ->.
      { rewrite Z.shiftr_div_pow2 by lia. apply Z.div_small. lia. }
      cbn [Z.eqb]. apply zigzag_enc; [lia| |done]. change (2 ^ (16 - 1)) with 32768. lia.
Qed.

Lemma wire_ok_field t v : wire_ok (type_of t) (field_wire t v) = true.
Proof. destruct t; try done. destruct v; try done. by destruct b. Qed.

Section ReadBack.
Context (G : list (message ttype)) (HG : env_ok G = true).

(** What reading the encoding of [v] finds, wherever it is written. *)
Definition reads_back (v : tvalue) : Prop := forall t depth n o rest,
  typed G t v = true -> encodable v = true -> fits G t depth v = true ->
  0 <= depth -> enough n depth -> (n <= decode_fuel)%nat -> bytes_ok rest ->
  exists v', read_value G o n (enc G t v ++ rest) depth t (init G t) = Got v' rest /\ reread G t v v'.

Lemma read_field_enc o n m depth f fs1 vs1 tail v seen rest : thrift_ok m = true -> m_fields m = fs1 ++ f :: tail ->
  length vs1 = length fs1 -> reads_back v -> typed G (f_type f) v = true -> encodable v = true -> fits G (f_type f) depth v = true ->
  0 <= depth -> enough n depth -> (n <= decode_fuel)%nat -> bytes_ok rest ->
  exists v', read_field G (read_value G o n) (skip n) m ((match f_type f with TBool => [] | t => enc G t v end) ++ rest) depth
      (field_wire (f_type f) v) (f_id f) seen (vs1 ++ init_member G f :: List.map (init_member G) tail) =
    Got (Z.lor seen (Z.shiftl 1 (zlen fs1)), vs1 ++ Some v' :: List.map (init_member G) tail) rest /\ reread G (f_type f) v v'.
Proof using.
  intros Hm Hmf Hlen Hv Ht He Hfit Hd Hn Hn' Hrest. unfold read_field. cbv zeta.
  assert (Hget : zget (m_fields m) (zlen fs1) = Some f).
  { rewrite Hmf, zget_app_r by lia. by rewrite Z.sub_diag. }
  rewrite (slot_of_at m (thrift_ok_message m Hm) _ f Hget). destruct (thrift_ok_ids m Hm) as (_ & _ & Hn64).
  assert (zlen fs1 < 64).
  { pose proof (zget_Some_range _ _ _ Hget). unfold ids, zlen in *. rewrite length_fmap in Hn64. lia. }
  destruct (Z.eqb_spec (zlen fs1) no_slot) as [Hbad|_]; [unfold no_slot in Hbad; lia|]. rewrite Hget.
  assert (Hz : zlen vs1 = zlen fs1) by (unfold zlen; lia).
  rewrite zget_app_r by lia. rewrite Hz, Z.sub_diag. change (zget (?a :: ?l) 0) with (Some a).
  unfold read_member. rewrite wire_ok_field. cbn [negb].
  assert (Hins : forall x, <[Z.to_nat (zlen fs1) := x]> (vs1 ++ init_member G f :: List.map (init_member G) tail)
    = vs1 ++ x :: List.map (init_member G) tail).
  { intros x. rewrite <- Hz. unfold zlen. rewrite Nat2Z.id. by rewrite insert_app_r_alt, Nat.sub_diag by lia. }
  assert (Hdef : default (init G (f_type f)) (init_member G f) = init G (f_type f))
    by (unfold init_member; by destruct (f_opt f)).
  destruct (Hv (f_type f) depth n o rest Ht He Hfit Hd Hn Hn' Hrest) as (v' & Er & Hrr).
  destruct (f_type f) eqn:Et; try (exists v'; rewrite Hdef, Er; cbn [dbind snd fst]; by rewrite Hins).
  destruct v; try done. exists (VBool b). cbn [app dbind snd fst field_wire]. rewrite Hins. split; [|constructor].
  by destruct b.
Qed.

Lemma read_fields_enc o n m depth start rest fs2 vs2 : thrift_ok m = true -> bytes_ok rest ->
  0 <= depth -> enough n depth -> (n <= decode_fuel)%nat ->
  Forall (fun ov => match ov with Some v => reads_back v | None => True end) vs2 -> Forall2 (typed_member G) vs2 fs2 ->
  forallb (fun ov => match ov with Some v => encodable v | None => true end) vs2 = true ->
  check_fields (fun t v => fits G t depth v) vs2 fs2 = true ->
  forall fs1 vs1 fuel seen last p, m_fields m = fs1 ++ fs2 -> length vs1 = length fs1 -> seen_upto m (zlen fs1) seen ->
    0 <= last -> Forall (fun f => last < f_id f) fs2 ->
    p = enc_fields (enc G) vs2 fs2 last ++ 0 :: rest -> bytes_ok p -> (length p < fuel)%nat ->
  exists vs2', read_fields G fuel (read_value G o n) (skip n) m start p depth seen last (vs1 ++ List.map (init_member G) fs2) =
    Got (vs1 ++ vs2') rest /\ Forall3 (fun f ov ov' => option_Forall2 (reread G (f_type f)) ov ov') fs2 vs2 vs2'.
Proof using HG.
  intros Hm Hrest Hd Hn Hn' HP Ht. revert HP. induction Ht as [|ov f vs2 fs2 Hov Ht IH]; intros HP He Hfit fs1 vs1 fuel seen last p Hmf Hlen Hseen Hlast Hgt Ep Hp Hfuel.
  { subst p. destruct fuel as [|fuel]; [lia|]. cbn [enc_fields app read_fields Z.eqb List.map].
    rewrite app_nil_r in Hmf. rewrite <- Hmf in Hseen. rewrite seen_all, Z.eqb_refl by done. cbn [negb]. exists []. split; [done|constructor]. }
  apply Forall_cons in HP as [Hv HP]. apply Forall_cons in Hgt as [Hfgt Hgt]. cbn [forallb] in He. apply andb_true_iff in He as [Hev He].
  destruct (thrift_ok_ids m Hm) as (Hsort & Hids & _).
  assert (Hfid : 1 <= f_id f <= 32767).
  { rewrite Forall_forall in Hids. apply Hids. unfold ids. rewrite Hmf. apply list_elem_of_fmap_2. set_solver. }
  assert (Hmf' : m_fields m = (fs1 ++ [f]) ++ fs2) by (by rewrite <- app_assoc).
  assert (Hz1 : zlen (fs1 ++ [f]) = zlen fs1 + 1) by (by rewrite zlen_app).
  assert (Hgt' : Forall (fun g => f_id f < f_id g) fs2).
  { unfold ids in Hsort. rewrite Hmf, fmap_app in Hsort. apply sorted_app_r in Hsort. cbn in Hsort.
    apply StronglySorted_inv in Hsort as [_ Hs]. by rewrite Forall_fmap in Hs. }
  destruct ov as [v|]; cbn [enc_fields check_fields List.map] in *; apply andb_true_iff in Hfit as [Hfv Hfit].
  - unfold typed_member in Hov. destruct (field_header_read (f_id f) last (field_wire (f_type f) v)) as (hb & tl & Eh & Hhb & Hland & Hid);
      [lia|lia|apply field_wire_range|]. rewrite Eh in Ep. rewrite <- !app_assoc in Ep. cbn [app] in Ep. subst p.
    destruct fuel as [|fuel]; [lia|]. cbn [read_fields]. destruct (Z.eqb_spec hb 0); [done|].
    apply Forall_cons in Hp as [_ Hp]. apply Forall_app in Hp as [_ Hp]. rewrite Hid by done. cbn [dbind].
    pose proof Hp as Hq. apply Forall_app in Hq as [_ Hq]. rewrite Hland.
    destruct (read_field_enc o n m depth f fs1 vs1 fs2 v seen _ Hm Hmf Hlen Hv Hov Hev Hfv Hd Hn Hn' Hq) as (v' & -> & Hrr). cbn [dbind fst snd].
    destruct (IH HP He Hfit (fs1 ++ [f]) (vs1 ++ [Some v']) fuel (Z.lor seen (Z.shiftl 1 (zlen fs1))) (f_id f)
      (enc_fields (enc G) vs2 fs2 (f_id f) ++ 0 :: rest) Hmf') as (vs' & Er & H3); try done.
    + rewrite !length_app. cbn. lia.
    + rewrite Hz1. pose proof (zlen_nonneg fs1). eapply seen_next; [done|done| |]; intros; apply lor_shift_bit; auto.
    + lia.
    + cbn [length] in Hfuel. rewrite length_app. rewrite !length_app in Hfuel. lia.
    + exists (Some v' :: vs'). rewrite <- !app_assoc in Er. cbn [app] in Er. split; [exact Er|]. constructor; [by constructor|done].
  - unfold typed_member in Hov.
    destruct (IH HP He Hfit (fs1 ++ [f]) (vs1 ++ [None]) fuel seen last p Hmf') as (vs' & Er & H3); try done.
    + rewrite !length_app. cbn. lia.
    + rewrite Hz1. pose proof (zlen_nonneg fs1). eapply seen_next; [done|done|done|]. intros g Hg Hr. exfalso.
      rewrite Hmf, zget_app_r, Z.sub_diag in Hg by lia. injection Hg as <-. unfold is_required in Hr. rewrite Hov in Hr. by rewrite andb_false_r in Hr.
    + exists (None :: vs'). rewrite <- !app_assoc in Er. cbn [app] in Er. unfold init_member at 1. rewrite Hov. split; [exact Er|]. constructor; [constructor|done].
Qed.

Lemma read_elems_enc o n e depth l rest : Forall reads_back l -> forallb (typed G e) l = true -> forallb encodable l = true ->
  forallb (fits G e depth) l = true -> 0 <= depth -> enough n depth -> (n <= decode_fuel)%nat -> bytes_ok rest ->
  exists l', read_elems (length l) (fun p => read_value G o n p depth e (init G e)) (concat (List.map (enc G e) l) ++ rest) [] = Got l' rest /\
    Forall2 (reread G e) l l'.
Proof using HG.
  intros HP. induction HP as [|v l Hv HP IH]; cbn [forallb]; intros Ht He Hf Hd Hn Hn' Hrest; [by exists []|].
  apply andb_true_iff in Ht as [Ht Htl], He as [He Hel], Hf as [Hf Hfl].
  destruct (IH Htl Hel Hfl Hd Hn Hn' Hrest) as (l' & El & Hl').
  assert (bytes_ok (concat (List.map (enc G e) l) ++ rest)) as Hq.
  { apply Forall_app. split; [|done]. apply concat_ok. rewrite forallb_Forall in Htl, Hel. rewrite Forall_forall in Htl, Hel.
    apply Forall_forall. intros x Hx. apply (enc_ok G HG); auto. }
  destruct (Hv e depth n o _ Ht He Hf Hd Hn Hn' Hq) as (v' & Ev & Hrr). exists (v' :: l').
  cbn [length List.map concat read_elems]. rewrite <- app_assoc, Ev. cbn [dbind]. rewrite read_elems_acc, El. cbn [dbind app].
  split; [done|]. by constructor.
Qed.

Lemma read_vector_enc o n e depth l rest out : Forall reads_back l -> forallb (typed G e) l = true ->
  (zlen l <=? int32_max) && forallb encodable l = true -> (depth <=? max_tagged_depth) && forallb (fits G e (depth + 1)) l = true ->
  0 <= depth -> enough (S n) depth -> (S n <= decode_fuel)%nat -> bytes_ok rest ->
  exists l', read_value G o (S n) ((enc_list_header (zlen l) (type_of e) ++ concat (List.map (enc G e) l)) ++ rest) depth (TVector e) out =
    Got (VVec l') rest /\ Forall2 (reread G e) l l'.
Proof using HG.
  intros HP Ht [Hz He]%andb_true_iff [Hd64 Hf]%andb_true_iff Hd Hn Hn' Hrest. apply Z.leb_le in Hz, Hd64. pose proof (zlen_nonneg l).
  assert (Forall (fun v => bytes_ok (enc G e v) /\ min_elem_bytes (type_of e) <= zlen (enc G e v)) l) as Hok.
  { rewrite forallb_Forall in Ht, He. rewrite Forall_forall in Ht, He. apply Forall_forall. intros x Hx. apply (enc_ok G HG); auto. }
  assert (bytes_ok (concat (List.map (enc G e) l) ++ rest)) as Hq.
  { apply Forall_app. split; [|done]. apply concat_ok. eapply Forall_impl; [exact Hok|]. by intros ? [? _]. }
  assert (zlen l * min_elem_bytes (type_of e) <= zlen (concat (List.map (enc G e) l) ++ rest)).
  { rewrite zlen_app. pose proof (zlen_nonneg rest). enough (zlen l * min_elem_bytes (type_of e) <= zlen (concat (List.map (enc G e) l))) by lia.
    apply concat_zlen. eapply Forall_impl; [exact Hok|]. by intros ? [_ ?]. }
  destruct (read_elems_enc o n e (depth + 1) l rest HP Ht He Hf) as (l' & El & Hl'); [lia|eauto with tagged|lia|done|].
  exists l'. split; [|done]. rewrite <- app_assoc. cbn [read_value]. pose proof (type_of_range e).
  rewrite read_list_header_enc by (done || lia). cbn [dbind h_count h_elem].
  assert (wire_ok (type_of e) (type_of e) = true) as -> by (by destruct e). rewrite andb_false_r.
  destruct (Z.ltb_spec max_tagged_depth depth); [lia|]. unfold zlen at 1. rewrite Nat2Z.id, El. done.
Qed.

Lemma gets_all_Got r : gets_all r = true -> r = Got tt [].
Proof using. destruct r as [[] [|]| |]; done. Qed.

(** A kept list or message is passed over where it is put back. *)
Lemma kept_list n bs rest h depth : enough (S n) depth -> 0 <= depth <= max_tagged_depth -> 0 <= h_count h -> bytes_ok bs -> bytes_ok rest ->
  skip_elems (skip decode_fuel) bs h depth = Got tt [] -> skip_elems (skip n) (bs ++ rest) h depth = Got tt rest.
Proof using.
  intros Hn Hd Hc Hbs Hrest E.
  assert (Hs : same_skip (skip decode_fuel) (skip n) (depth + 1)) by (apply skip_fuel; [apply enough_decode_fuel; lia|apply enough_S; [done|lia]]).
  rewrite (skip_elems_ext _ (skip n)) in E by done.
  destruct (frame_skip_elems input_null (skip n) (skip n) h depth Hc (frame_skip input_null n n (depth + 1) ltac:(lia)) bs tt [] Hbs E)
    as (k & Ek & _ & Hk). rewrite app_nil_r in Ek. subst k. destruct (shifted_ex input_null [] rest) as [o' Ho]. by apply (Hk o').
Qed.

Lemma kept_struct n bs rest depth : enough (S n) (depth - 1) -> 0 <= depth -> bytes_ok bs -> bytes_ok rest ->
  skip_struct (skip decode_fuel) bs depth = Got tt [] -> skip_struct (skip n) (bs ++ rest) depth = Got tt rest.
Proof using.
  intros Hn Hd Hbs Hrest E.
  rewrite (skip_struct_ext _ (skip n)) in E.
  2: { intros H64. apply skip_fuel; [by apply enough_decode_fuel|]. replace depth with (depth - 1 + 1) by lia. apply enough_S; [done|lia]. }
  destruct (frame_skip_struct input_null (skip n) (skip n) depth (frame_skip input_null n n depth ltac:(lia)) bs tt [] Hbs E)
    as (k & Ek & _ & Hk). rewrite app_nil_r in Ek. subst k. destruct (shifted_ex input_null [] rest) as [o' Ho]. by apply (Hk o').
Qed.

Lemma read_kept_list o n e depth r c w d rest out : typed G (TList e) (VList r c w d) = true -> encodable (VList r c w d) = true ->
  fits G (TList e) depth (VList r c w d) = true -> 0 <= depth -> enough (S n) depth -> bytes_ok rest ->
  exists v', read_value G o (S n) (enc G (TList e) (VList r c w d) ++ rest) depth (TList e) out = Got v' rest /\
    reread G (TList e) (VList r c w d) v'.
Proof using HG.
  intros Ht He Hf Hd Hn Hrest. cbn [typed encodable fits enc] in *.
  set (et := if negb (c =? 0) then w else type_of e) in *. rewrite !andb_true_iff in Ht. rewrite !andb_true_iff in Hf.
  destruct Ht as [[[[[[[Hr ?] ?] ?] ?] ?] ?] Hw]. destruct Hf as [[Hd64 Hmin] Hall%gets_all_Got]. apply Z.leb_le in Hd64, Hmin.
  unfold region_ok in Hr. apply andb_true_iff in Hr as [Hr%all_bytes_ok _].
  assert (0 <= et < 16) by (subst et; pose proof (type_of_range e); destruct (negb _); lia).
  assert (Hwet : (c =? 0) = true \/ wire_ok (type_of e) et = true).
  { subst et. destruct (c =? 0); [by left|]. right. done. }
  assert (bytes_ok (r_bytes r ++ rest)) by (by apply Forall_app). rewrite <- app_assoc. cbn [read_value].
  rewrite read_list_header_enc; [|lia|done|done|rewrite zlen_app; pose proof (zlen_nonneg rest); lia]. cbn [dbind h_count h_elem].
  assert (negb (c =? 0) && negb (wire_ok (type_of e) et) = false) as -> by (destruct Hwet as [->| ->]; [done|by rewrite andb_false_r]).
  destruct (Z.ltb_spec max_tagged_depth depth); [lia|]. rewrite (kept_list n (r_bytes r) rest) by (done || lia || cbn; lia). cbn [dbind].
  eexists. split; [reflexivity|]. constructor; [apply range_bytes|]. intros Hc0. subst et. by destruct (Z.eqb_spec c 0).
Qed.

Lemma read_message_enc o n i m vs depth rest : G !! i = Some m ->
  Forall (fun ov => match ov with Some v => reads_back v | None => True end) vs ->
  Forall2 (typed_member G) vs (m_fields m) ->
  forallb (fun ov => match ov with Some v => encodable v | None => true end) vs = true ->
  check_fields (fun t v => fits G t depth v) vs (m_fields m) = true ->
  0 <= depth <= max_tagged_depth -> enough n depth -> (n <= decode_fuel)%nat -> bytes_ok rest ->
  exists vs', read_struct G (read_value G o n) (skip n) ((enc_fields (enc G) vs (m_fields m) 0 ++ [0]) ++ rest) depth m
      (List.map (init_member G) (m_fields m)) = Got vs' rest /\ reread G (TMessage i) (VMsg vs) (VMsg vs').
Proof using HG.
  intros Hm HP Ht He Hf Hd Hn Hn' Hrest. unfold read_struct. destruct (Z.ltb_spec max_tagged_depth depth); [lia|].
  destruct (env_ok_lookup G HG i m Hm) as [Hok _]. destruct (thrift_ok_ids m Hok) as (_ & Hid & _).
  unfold ids in Hid. rewrite Forall_fmap in Hid. rewrite <- app_assoc. cbn [app].
  assert (bytes_ok (enc_fields (enc G) vs (m_fields m) 0 ++ 0 :: rest)) as Hp.
  { apply Forall_app. split; [|by constructor; [red; lia|]]. apply enc_fields_ok; [done|done| |done].
    eapply Forall_impl; [exact HP|]. intros [v|] _; [|done]. by apply (enc_ok G HG). }
  destruct (read_fields_enc o n m depth (enc_fields (enc G) vs (m_fields m) 0 ++ 0 :: rest) rest (m_fields m) vs Hok Hrest (proj1 Hd) Hn Hn' HP Ht He Hf
    [] [] (S (length (enc_fields (enc G) vs (m_fields m) 0 ++ 0 :: rest))) 0 0 (enc_fields (enc G) vs (m_fields m) 0 ++ 0 :: rest) eq_refl eq_refl) as (vs' & Er & H3); [| | |reflexivity|done|lia|].
  - intros k f Hk Hg. pose proof (zget_Some_range _ _ _ Hg). change (zlen []) with 0 in Hk. lia.
  - lia.
  - eapply Forall_impl; [exact Hid|]. cbn. lia.
  - exists vs'. split; [exact Er|]. by econstructor.
Qed.

Lemma read_double_enc o n depth u rest out : 0 <= u < 2 ^ 64 -> bytes_ok rest ->
  read_value G o (S n) (double_bytes u ++ rest) depth TDouble out = Got (VDouble u) rest.
Proof using.
  intros Hu Hrest. rewrite double_bytes_le. cbn [read_value].
  assert (Hl : zlen (le_bytes 8 u) = 8) by (unfold zlen; by rewrite length_le_bytes).
  rewrite zlen_app, Hl. pose proof (zlen_nonneg rest). destruct (Z.ltb_spec (8 + zlen rest) 8); [lia|].
  assert (bytes_ok (le_bytes 8 u ++ rest)) by (apply Forall_app; split; [apply le_bytes_ok|done]).
  rewrite (load_le_val 8 _ 0 0); [|done|lia|rewrite zlen_app; lia|done]. change (0 + Z.of_nat 8) with 8.
  rewrite ztake_app, zdrop_app by done. rewrite le_val_le_bytes. by rewrite wrap_small.
Qed.

Lemma read_i8_enc o n depth x rest out : in_width 8 x = true ->
  read_value G o (S n) ([wrap 8 x] ++ rest) depth TI8 out = Got (VInt x) rest.
Proof using.
  intros Hx%in_width_spec. cbn [read_value app]. do 2 f_equal. change (2 ^ (8 - 1)) with 128 in *. unfold sint, wrap.
  change (2 ^ (8 - 1)) with 128. change (2 ^ 8) with 256. destruct (Z.ltb_spec (x mod 256) 128); Z.div_mod_to_equations; lia.
Qed.

Lemma read_back v : reads_back v.
Proof using HG.
  induction v as [b|x|u|s|b s|l Hl|l Hl|r c w d|r d|m IH| |vs Hvs] using tvalue_ind'; intros t depth n o rest Ht He Hf Hd Hn Hn' Hrest;
    (destruct n as [|n]; [destruct Hn; lia|]); destruct t as [| | | | | | | | | |e|e|i| |i]; try done; cbn [enc] in *.
  - exists (VBool b). split; [|constructor]. by destruct b.
  - exists (VInt x). split; [by apply read_i8_enc|constructor].
  - exists (VInt x). split; [|constructor]. cbn [read_value]. apply in_width_spec in Ht. by rewrite zigzag_enc by (done || lia).
  - exists (VInt x). split; [|constructor]. cbn [read_value]. apply in_width_spec in Ht. by rewrite zigzag_enc by (done || lia).
  - exists (VInt x). split; [|constructor]. cbn [read_value]. apply in_width_spec in Ht. by rewrite zigzag_enc by (done || lia).
  - exists (VInt x). split; [|constructor]. cbn [read_value]. apply in_width_spec in Ht. by rewrite zigzag_enc by (done || lia).
  - exists (VDouble u). split; [|constructor]. cbn [typed] in Ht. apply andb_true_iff in Ht as [?%Z.leb_le ?%Z.ltb_lt]. by apply read_double_enc.
  - cbn [typed encodable] in *. apply all_bytes_ok in Ht. apply Z.leb_le in He. exists (VString s). split; [|constructor].
    cbn [read_value]. by rewrite read_binary_enc.
  - cbn [typed encodable] in *. apply andb_true_iff in Ht as [Ht%all_bytes_ok _]. apply Z.leb_le in He. eexists. split; [cbn [read_value]; by rewrite read_binary_enc|by constructor].
  - cbn [typed encodable] in *. apply andb_true_iff in Ht as [Ht%all_bytes_ok _]. apply Z.leb_le in He. eexists. split; [cbn [read_value]; by rewrite read_binary_enc|by constructor].
  - destruct (read_vector_enc o n e depth l rest (init G (TVector e)) Hl Ht He Hf Hd Hn Hn' Hrest) as (l' & E & H2).
    exists (VVec l'). split; [exact E|by constructor].
  - destruct (read_vector_enc o n e depth l rest (VVec []) Hl Ht He Hf Hd Hn Hn' Hrest) as (l' & E & H2).
    destruct (enc_ok G HG (VListOf l) (TList e) Ht He) as [Hb _].
    apply (list_of_vector G n o _ depth e _ l' rest (init G (TList e))) in E as (v' & Ev & Hlike); [|by apply Forall_app|done|lia].
    exists v'. split; [exact Ev|by econstructor].
  - by apply read_kept_list.
  - cbn [typed encodable fits] in *. rewrite !andb_true_iff in Ht. destruct Ht as [[Hr _] _]. unfold region_ok in Hr.
    apply andb_true_iff in Hr as [Hr%all_bytes_ok _]. apply gets_all_Got in Hf. cbn [read_value].
    rewrite (kept_struct n (r_bytes r) rest); [|by replace (depth + 1 - 1) with depth by lia|lia|done..]. cbn [dbind].
    eexists. split; [reflexivity|]. constructor. apply range_bytes.
  - destruct (IH (TMessage i) depth (S n) o rest Ht He Hf Hd Hn Hn' Hrest) as (m' & E & Hrr).
    destruct (enc_ok G HG m (TMessage i) Ht He) as [Hb _].
    apply (lazy_of_message G n o _ depth i m' rest (init G (TLazy i))) in E as (z & Ez & Hz); [|by apply Forall_app|done|lia].
    exists z. split; [exact Ez|by econstructor].
  - cbn [fits] in Hf. apply Z.leb_le in Hf. exists VEmpty. split; [|constructor]. cbn [read_value app].
    unfold skip_struct. destruct (Z.ltb_spec max_tagged_depth (depth + 1)); [lia|]. done.
  - destruct (typed_message_inv G i (VMsg vs) Ht) as (m & vs0 & Em & [= <-] & Hty). cbn [fits] in Hf. rewrite Em in *.
    apply andb_true_iff in Hf as [H64%Z.leb_le Hf]. cbn [read_value]. rewrite Em, (init_message G HG i m Em).
    destruct (read_message_enc o n i m vs (depth + 1) rest Em Hvs Hty He Hf) as (vs' & E & Hrr); [lia|apply enough_S; [done|lia]|lia|done|].
    exists (VMsg vs'). by rewrite E.
Qed.
End ReadBack.
