(* ===== verification/TaggedSpecs.v ===== *)
(** * What Thrift compact decoding and encoding promise

    The claims about tagged messages: decoding is type-safe, lazy views are
    what they stand for, encoding delivers exactly one byte sequence, it reads
    back, and messages written with other field sets are read as far as both
    sides agree; and what modelling found. *)
From Stdlib Require Import Sorting.Sorted.
From S2P Require Import Prelude Parser BytesParsers Combinators CombinatorFacts Numbers Emit Messages Staging Tagged TaggedTypes TaggedViews TaggedEncode TaggedRead.

(** * Schema evolution in Thrift compact messages

    A message written with one set of fields and read with another: the reader
    gets the members both declare with one type, keeps its defaults for the
    ones the writer did not write, passes over the ones it does not declare or
    declares with another wire type, and fails exactly when one of its
    required members was not written. *)

#[export] Instance ttype_eq_dec : EqDecision ttype.
Proof. solve_decision. Defined.

(** A member written, and its value if it was. *)
Definition wrote_member : Type := field ttype * option tvalue.

Definition same_member (f g : field ttype) : bool := (f_id f =? f_id g) && bool_decide (f_type f = f_type g).

(** What the writer's members [l] carry for the reader's member [r]. *)
Definition carried (l : list wrote_member) (r : field ttype) : option tvalue :=
  head (omap (fun x => if same_member (fst x) r then snd x else None) l).

(** Members of one id have one type, or wire types that are not mistaken for
    one another. *)
Definition compatible (f r : field ttype) : Prop :=
  f_id f = f_id r -> f_type f = f_type r \/ wire_ok (type_of (f_type r)) (type_of (f_type f)) = false.

Section Evolve.
Context (G : list (message ttype)) (HG : env_ok G = true).
Context (R : message ttype) (HR : thrift_ok R = true).

(** The reader's member [r] holds what the writer's members carry for it. *)
Definition holds_member (l : list wrote_member) (r : field ttype) (u : option tvalue) : Prop :=
  match carried l r with
  | Some v => exists v', u = Some v' /\ reread G (f_type r) v v'
  | None => u = init_member G r
  end.

Definition seen_carried (l : list wrote_member) (seen : Z) : Prop :=
  forall k r, zget (m_fields R) k = Some r -> Z.testbit seen k = bool_decide (is_Some (carried l r)).

Lemma carried_snoc l f ov r : carried (l ++ [(f, ov)]) r =
  match carried l r with Some v => Some v | None => if same_member f r then ov else None end.
Proof using.
  unfold carried. rewrite omap_app. destruct (omap _ l) as [|x xs]; cbn; [|done]. destruct (same_member f r); [by destruct ov|done].
Qed.

Lemma carried_other l f ov r : same_member f r = false \/ ov = None -> carried (l ++ [(f, ov)]) r = carried l r.
Proof using. intros Hs. rewrite carried_snoc. destruct (carried l r); [done|]. destruct Hs as [->| ->]; [done|by destruct (same_member f r)]. Qed.

Lemma carried_fresh l r : Forall (fun x => f_id (fst x) < f_id r) l -> carried l r = None.
Proof using.
  unfold carried. induction 1 as [|[f ov] l Hx Hl IH]; [done|]. cbn in Hx |- *. unfold same_member at 1. cbn.
  destruct (Z.eqb_spec (f_id f) (f_id r)); [lia|]. cbn [andb]. exact IH.
Qed.

Lemma field_wire_mismatch t t' v : typed G t' v = true -> wire_ok (type_of t) (type_of t') = false -> wire_ok (type_of t) (field_wire t' v) = false.
Proof using. intros Ht. destruct t'; try done. destruct v; try done. destruct b; [done|]. by destruct t. Qed.

(** Any member's value, written, is passed over. *)
Lemma skip_member_enc n f v depth rest : reads_back G v -> typed G (f_type f) v = true -> encodable v = true -> fits G (f_type f) depth v = true ->
  0 <= depth -> enough n depth -> (n <= decode_fuel)%nat -> bytes_ok rest ->
  skip n ((match f_type f with TBool => [] | t => enc G t v end) ++ rest) (field_wire (f_type f) v) false depth = Got tt rest.
Proof using HG.
  intros Hv Ht He Hf Hd Hn Hn' Hrest. destruct (Hv (f_type f) depth n input_null rest Ht He Hf Hd Hn Hn' Hrest) as (v' & E & _).
  destruct (enc_ok G HG v (f_type f) Ht He) as [Hb _]. destruct n as [|n]; [destruct Hn; lia|].
  assert (Hne : f_type f <> TBool -> skip (S n) (enc G (f_type f) v ++ rest) (field_wire (f_type f) v) false depth = Got tt rest).
  { intros Hbool. eapply (read_value_skips G input_null (S n) depth); [by apply Forall_app|exact E|apply wire_ok_field|by right]. }
  destruct (f_type f); try (by apply Hne). destruct v; try done. by destruct b.
Qed.

(** The reader's member of an id is at its slot. *)
Lemma same_member_slot f k r : zget (m_fields R) k = Some r -> same_member f r = true -> k = slot_of R (f_id f).
Proof using HR.
  intros Hr [Hid _]%andb_true_iff. apply Z.eqb_eq in Hid. rewrite Hid. symmetry. by apply slot_of_at; [apply thrift_ok_message|].
Qed.

Lemma evolve_skipped l f v us seen : (forall k r, zget (m_fields R) k = Some r -> same_member f r = false) ->
  Forall2 (holds_member l) (m_fields R) us -> seen_carried l seen ->
  Forall2 (holds_member (l ++ [(f, Some v)])) (m_fields R) us /\ seen_carried (l ++ [(f, Some v)]) seen.
Proof using.
  intros Hno Hus Hseen. split.
  - apply Forall2_same_length_lookup. split; [by eapply Forall2_length|]. intros k r u Hr Hu.
    unfold holds_member. rewrite carried_other.
    + eapply Forall2_lookup_lr in Hus; [|done|done]. exact Hus.
    + left. apply (Hno (Z.of_nat k)). unfold zget. destruct (Z.ltb_spec (Z.of_nat k) 0); [lia|]. by rewrite Nat2Z.id.
  - intros k r Hr. rewrite carried_other; [by apply Hseen|]. left. by apply (Hno k).
Qed.

Lemma evolve_read l f r v v' us seen : zget (m_fields R) (slot_of R (f_id f)) = Some r -> same_member f r = true ->
  Forall (fun x => f_id (fst x) < f_id f) l -> reread G (f_type r) v v' ->
  Forall2 (holds_member l) (m_fields R) us -> seen_carried l seen ->
  Forall2 (holds_member (l ++ [(f, Some v)])) (m_fields R) (<[Z.to_nat (slot_of R (f_id f)) := Some v']> us) /\
  seen_carried (l ++ [(f, Some v)]) (Z.lor seen (Z.shiftl 1 (slot_of R (f_id f)))).
Proof using HR.
  intros Hr Hsame Hl Hrr Hus Hseen. set (slot := slot_of R (f_id f)) in *. pose proof (zget_Some_range _ _ _ Hr) as Hs0.
  assert (Hcl : carried l r = None).
  { apply carried_fresh. eapply Forall_impl; [exact Hl|]. apply andb_true_iff in Hsame as [Hid%Z.eqb_eq _]. cbn. lia. }
  assert (Hcr : carried (l ++ [(f, Some v)]) r = Some v) by (by rewrite carried_snoc, Hcl, Hsame).
  assert (Hco : forall k r', zget (m_fields R) k = Some r' -> k <> slot -> carried (l ++ [(f, Some v)]) r' = carried l r').
  { intros k r' Hr' Hk. apply carried_other. left. apply not_true_iff_false. intros Hs. apply Hk. by eapply same_member_slot. }
  pose proof (Forall2_length _ _ _ Hus) as Hlen. split.
  - apply Forall2_same_length_lookup. split; [by rewrite length_insert|]. intros k r' u Hr' Hu.
    assert (Hr'' : zget (m_fields R) (Z.of_nat k) = Some r').
    { unfold zget. destruct (Z.ltb_spec (Z.of_nat k) 0); [lia|]. by rewrite Nat2Z.id. }
    unfold holds_member. destruct (Z.eq_dec (Z.of_nat k) slot) as [Ek|Ek].
    + rewrite Ek, Hr in Hr''. injection Hr'' as <-. rewrite Hcr. replace k with (Z.to_nat slot) in Hu by lia.
      apply lookup_lt_Some in Hr'. rewrite list_lookup_insert_eq in Hu by lia. injection Hu as <-. eauto.
    + rewrite (Hco _ _ Hr'' Ek). rewrite list_lookup_insert_ne in Hu by lia. eapply Forall2_lookup_lr in Hus; [|done|done]. exact Hus.
  - intros k r' Hr'. pose proof (zget_Some_range _ _ _ Hr'). rewrite Z.lor_spec, Z.shiftl_1_l, Z.pow2_bits_eqb by lia.
    destruct (Z.eqb_spec slot k) as [<-|Hk].
    + rewrite Hr in Hr'. injection Hr' as <-. rewrite Hcr, orb_true_r. symmetry. by apply bool_decide_eq_true.
    + rewrite (Hco _ _ Hr') by done. rewrite orb_false_r. by apply Hseen.
Qed.

Lemma read_field_evolve o n l f v depth seen us rest : reads_back G v -> typed G (f_type f) v = true -> encodable v = true ->
  fits G (f_type f) depth v = true -> 0 <= depth -> enough n depth -> (n <= decode_fuel)%nat -> bytes_ok rest ->
  Forall (compatible f) (m_fields R) -> Forall (fun x => f_id (fst x) < f_id f) l ->
  Forall2 (holds_member l) (m_fields R) us -> seen_carried l seen ->
  exists seen' us', read_field G (read_value G o n) (skip n) R ((match f_type f with TBool => [] | t => enc G t v end) ++ rest) depth
      (field_wire (f_type f) v) (f_id f) seen us = Got (seen', us') rest /\
    Forall2 (holds_member (l ++ [(f, Some v)])) (m_fields R) us' /\ seen_carried (l ++ [(f, Some v)]) seen'.
Proof using HG HR.
  intros Hv Ht He Hf Hd Hn Hn' Hrest Hcomp Hl Hus Hseen. unfold read_field. cbv zeta.
  assert (Hskip := skip_member_enc n f v depth rest Hv Ht He Hf Hd Hn Hn' Hrest).
  destruct (slot_of_cases R (thrift_ok_message R HR) (f_id f)) as [[Hnot Hslot]|(r & Hr & Hrid & Hslot)].
  { rewrite Hslot, Z.eqb_refl, Hskip. cbn [dbind]. exists seen, us. split; [done|]. apply evolve_skipped; [|done..].
    intros k r Hr. unfold same_member. destruct (Z.eqb_spec (f_id f) (f_id r)) as [E|]; [|done]. exfalso. apply Hnot. rewrite E.
    unfold ids. apply list_elem_of_fmap_2. unfold zget in Hr. destruct (_ <? 0); [done|]. by eapply list_elem_of_lookup_2. }
  destruct (Z.eqb_spec (slot_of R (f_id f)) no_slot) as [Hbad|_]; [unfold no_slot in Hbad; lia|]. rewrite Hr.
  pose proof Hr as Hr'. unfold zget in Hr'. destruct (Z.ltb_spec (slot_of R (f_id f)) 0); [lia|].
  destruct (Forall2_lookup_l _ _ _ _ _ Hus Hr') as (u & Hu & Hhold).
  assert (zget us (slot_of R (f_id f)) = Some u) as -> by (unfold zget; by destruct (Z.ltb_spec (slot_of R (f_id f)) 0); [lia|]).
  rewrite Forall_forall in Hcomp. destruct (Hcomp r (list_elem_of_lookup_2 _ _ _ Hr') (eq_sym Hrid)) as [Hty|Hty].
  - assert (Hsame : same_member f r = true) by (unfold same_member; rewrite Hrid, Z.eqb_refl; by apply bool_decide_eq_true).
    assert (Hcl : carried l r = None) by (apply carried_fresh; eapply Forall_impl; [exact Hl|]; cbn; lia).
    unfold holds_member in Hhold. rewrite Hcl in Hhold. subst u. unfold read_member. rewrite <- Hty, wire_ok_field. cbn [negb].
    assert (Hdef : default (init G (f_type f)) (init_member G r) = init G (f_type f))
      by (unfold init_member; rewrite Hty; by destruct (f_opt r)).
    destruct (Hv (f_type f) depth n o rest Ht He Hf Hd Hn Hn' Hrest) as (v' & Er & Hrr). rewrite Hty in Hrr.
    destruct (evolve_read l f r v v' us seen Hr Hsame Hl Hrr Hus Hseen) as [H1 H2].
    exists (Z.lor seen (Z.shiftl 1 (slot_of R (f_id f)))), (<[Z.to_nat (slot_of R (f_id f)) := Some v']> us). split; [|done].
    destruct (f_type f) eqn:Et; try (rewrite Hdef, Er; done). destruct v; try done. inversion Hrr; subst. by destruct b.
  - unfold read_member. rewrite (field_wire_mismatch _ _ v Ht Hty). cbn [negb]. rewrite Hskip. cbn [dbind fst snd].
    rewrite list_insert_id by done. exists seen, us. split; [done|]. apply evolve_skipped; [|done..].
    intros k r2 Hr2. apply not_true_iff_false. intros Hs. pose proof (same_member_slot f k r2 Hr2 Hs) as ->. rewrite Hr in Hr2. injection Hr2 as <-.
    apply andb_true_iff in Hs as [_ Hs%bool_decide_eq_true]. rewrite Hs in Hty. by destruct (f_type r).
Qed.

(** What the reader finds: its members, or that a required one is missing. *)
Definition complete_for (l : list wrote_member) : bool :=
  forallb (fun r => negb (is_required r) || bool_decide (is_Some (carried l r))) (m_fields R).

Lemma seen_complete l seen : seen_carried l seen ->
  (Z.land seen (required_mask R) =? required_mask R) = complete_for l.
Proof using.
  intros Hs. apply eq_true_iff_eq. rewrite Z.eqb_eq. unfold complete_for. rewrite forallb_Forall, Forall_lookup. split.
  - intros E k r Hr. assert (Hz : zget (m_fields R) (Z.of_nat k) = Some r).
    { unfold zget. destruct (Z.ltb_spec (Z.of_nat k) 0); [lia|]. by rewrite Nat2Z.id. }
    destruct (is_required r) eqn:Eq; [|done]. cbn [negb orb]. rewrite <- (Hs _ _ Hz).
    pose proof (f_equal (fun x => Z.testbit x (Z.of_nat k)) E) as Eb. cbn beta in Eb.
    rewrite Z.land_spec, required_mask_bit, Hz, Eq in Eb by lia. by rewrite andb_true_r in Eb.
  - intros Hall. apply seen_all. intros k r Hk Hr Hq. rewrite (Hs k r Hr). unfold zget in Hr. destruct (_ <? 0); [done|].
    specialize (Hall _ _ Hr). rewrite Hq in Hall. exact Hall.
Qed.

Lemma read_fields_evolve o n depth start rest : bytes_ok rest -> 0 <= depth -> enough n depth -> (n <= decode_fuel)%nat ->
  forall fs2 vs2, Forall (fun ov => match ov with Some v => reads_back G v | None => True end) vs2 -> Forall2 (typed_member G) vs2 fs2 ->
  Forall (fun f => 1 <= f_id f <= 32767) fs2 -> StronglySorted Z.lt (f_id <$> fs2) ->
  forallb (fun ov => match ov with Some v => encodable v | None => true end) vs2 = true ->
  check_fields (fun t v => fits G t depth v) vs2 fs2 = true -> Forall (fun f => Forall (compatible f) (m_fields R)) fs2 ->
  forall l us fuel seen last p, Forall (fun x => Forall (fun f => f_id (fst x) < f_id f) fs2) l ->
    Forall2 (holds_member l) (m_fields R) us -> seen_carried l seen -> 0 <= last -> Forall (fun f => last < f_id f) fs2 ->
    p = enc_fields (enc G) vs2 fs2 last ++ 0 :: rest -> bytes_ok p -> (length p < fuel)%nat ->
  let r := read_fields G fuel (read_value G o n) (skip n) R start p depth seen last us in
  let l2 := l ++ zip fs2 vs2 in
  if complete_for l2 then exists us', r = Got us' rest /\ Forall2 (holds_member l2) (m_fields R) us'
  else r = Failed (Failure missing_required (zlen start) 0 (Some (m_name R))).
Proof using HG HR.
  intros Hrest Hd Hn Hn' fs2 vs2 HP Ht. revert HP. induction Ht as [|ov f vs2 fs2 Hov Ht IH]; intros HP Hid Hsort He Hfit Hcomp l us fuel seen last p Hl Hus Hseen Hlast Hgt Ep Hp Hfuel.
  { cbv zeta. subst p. destruct fuel as [|fuel]; [lia|]. cbn [enc_fields app read_fields Z.eqb zip zip_with]. rewrite app_nil_r.
    rewrite (seen_complete l seen Hseen). destruct (complete_for l); cbn [negb]; eauto. }
  apply Forall_cons in HP as [Hv HP]. apply Forall_cons in Hgt as [Hfgt Hgt]. apply Forall_cons in Hid as [Hfid Hid]. apply Forall_cons in Hcomp as [Hfc Hcomp].
  cbn [forallb] in He. apply andb_true_iff in He as [Hev He]. cbn in Hsort. apply StronglySorted_inv in Hsort as [Hsort Hgt']. rewrite Forall_fmap in Hgt'.
  assert (Hl' : Forall (fun x => Forall (fun g => f_id (fst x) < f_id g) fs2) (l ++ [(f, ov)])).
  { apply Forall_app. split; [|by apply Forall_singleton]. eapply Forall_impl; [exact Hl|]. by intros x [_ ?]%Forall_cons. }
  assert (Hlf : Forall (fun x => f_id (fst x) < f_id f) l) by (eapply Forall_impl; [exact Hl|]; by intros x [? _]%Forall_cons).
  cbv zeta. cbn [zip zip_with]. rewrite cons_middle, app_assoc.
  destruct ov as [v|]; cbn [enc_fields check_fields] in *; apply andb_true_iff in Hfit as [Hfv Hfit].
  - unfold typed_member in Hov. destruct (field_header_read (f_id f) last (field_wire (f_type f) v)) as (hb & tl & Eh & Hhb & Hland & Hidr);
      [lia|lia|apply field_wire_range|]. rewrite Eh in Ep. rewrite <- !app_assoc in Ep. cbn [app] in Ep. subst p.
    destruct fuel as [|fuel]; [lia|]. cbn [read_fields]. destruct (Z.eqb_spec hb 0); [done|].
    apply Forall_cons in Hp as [_ Hp]. apply Forall_app in Hp as [_ Hp]. rewrite Hidr by done. cbn [dbind].
    pose proof Hp as Hq. apply Forall_app in Hq as [_ Hq]. rewrite Hland.
    destruct (read_field_evolve o n l f v depth seen us _ Hv Hov Hev Hfv Hd Hn Hn' Hq Hfc Hlf Hus Hseen) as (seen' & us1 & -> & Hus1 & Hseen1).
    cbn [dbind fst snd]. eapply IH; try done; [lia|]. cbn [length] in Hfuel. rewrite length_app. rewrite !length_app in Hfuel. lia.
  - unfold typed_member in Hov. eapply IH; try done.
    + eapply Forall2_impl; [exact Hus|]. intros r u Hh. unfold holds_member in *. by rewrite carried_other by by right.
    + intros k r Hr. rewrite carried_other by by right. by apply Hseen.
Qed.
End Evolve.

(** A message model in use: a key-value pair and a node that holds a list of
    them, numbers, and other nodes. *)
Definition key_value : message ttype :=
  Message "KeyValue" [Field "key" 1 required false TView; Field "value" 2 required true TView].
Definition node : message ttype :=
  Message "Node" [Field "pairs" 1 required false (TList (TMessage 0)); Field "numbers" 3 required true (TVector TI32);
    Field "flag" 4 defaulted false TBool; Field "child" 40 required true (TLazy 1)].
Definition model : list (message ttype) := [key_value; node].

Definition kv (k v : list Z) : tvalue :=
  VMsg [Some (VView (Bytes nullptr (zlen k) None 0) k); Some (VView (Bytes nullptr (zlen v) None 0) v)].
Definition leaf : tvalue := VMsg [Some (VListOf []); None; Some (VBool false); None].
Definition sample : tvalue :=
  VMsg [Some (VListOf [kv [65] [66; 67]; kv [] [68]]); Some (VVec [VInt 1; VInt (-2)]); Some (VBool true); Some (VLazyOf leaf)].

(** An input over [l] at address 4096. *)
Definition over (l : list Z) (live : bool) : input := Input 4096 (4096 + zlen l) 4096 live None 0.

(** ** Decoding *)

(** C19: decoding any bytes as any message type ends, reads nothing outside the
    input's window, and yields a value of the message type with the input
    advanced within the window, or an error located inside the window. *)
Theorem thrift_compact_sound G k M M' i :
  env_ok G = true -> (k < length G)%nat -> wf M i -> agree M M' i ->
  thrift_compact G k M' i = thrift_compact G k M i /\
  match thrift_compact G k M i with
  | Done v r => advances i r /\ typed G (TMessage k) v = true
  | Err e => err_ok i e
  | Stop _ => False
  end.
Proof.
  intros HG Hk Hwf Hag. destruct (thrift_compact_good G HG k Hk M M' i Hwf Hag) as [E Hp]. split; [done|].
  destruct (thrift_compact G k M i) as [v r|e|w] eqn:Er; [|done|done]. split; [done|]. by eapply thrift_compact_typed.
Qed.

Lemma thrift_compact_sound_witness :
  exists v, thrift_compact model 0 (mem_of 4096 [24; 1; 65; 0]) (over [24; 1; 65; 0] false) = Done v (advance (over [24; 1; 65; 0] false) 4) /\
    typed model (TMessage 0) v = true.
Proof.
  pose proof (thrift_compact_sound model 0 (mem_of 4096 [24; 1; 65; 0]) (mem_of 4096 [24; 1; 65; 0]) (over [24; 1; 65; 0] false)
    eq_refl ltac:(cbn; lia) ltac:(apply mem_of_wf; [repeat constructor; lia|done]) ltac:(done)) as [_ H].
  vm_compute in H. eexists. split; [vm_compute; reflexivity|]. exact (proj2 H).
Defined.

(** C20: a lazy view is what it stands for. Where decoding a vector member would
    have built [l], decoding an [nm::list] member ends at the same place in a
    view that behaves as [list::of(l)] (its size, [to_vector], [for_each] with
    any callback, [at] in and out of range); where decoding a nested message
    would have built [v], decoding an [nm::lazy] member ends at the same place
    in a view whose [decode] is [v]. *)
Theorem lazy_views_exact G o p depth : bytes_ok p -> 0 <= depth ->
  (forall e l q, read_top G o p depth (TVector e) = Got (VVec l) q ->
    exists v, read_top G o p depth (TList e) = Got v q /\ list_like G e v l) /\
  (forall i v q, read_top G o p depth (TMessage i) = Got v q ->
    exists z, read_top G o p depth (TLazy i) = Got z q /\ lazy_decode G i z = Some (inl v)).
Proof.
  intros Hp Hd. assert (Hfuel : decode_fuel = S 65) by reflexivity.
  assert ((65 <= decode_fuel)%nat) by (rewrite Hfuel; lia). unfold read_top. rewrite Hfuel. split.
  - intros e l q E. by eapply list_of_vector.
  - intros i v q E. by eapply lazy_of_message.
Qed.

Lemma lazy_views_exact_witness : exists v,
  read_top model (over [37; 2; 3] false) [37; 2; 3] 0 (TList TI32) = Got v [] /\ list_like model TI32 v [VInt 1; VInt (-2)].
Proof.
  apply (lazy_views_exact model (over [37; 2; 3] false) [37; 2; 3] 0 ltac:(repeat constructor; lia) ltac:(lia)). reflexivity.
Defined.

(** ** Encoding *)

(** C21: the staging writer refines one append. Into any sink, a message that can
    be written goes as exactly the bytes [enc] of it, in blocks the sink all
    takes, and their number is returned; or the sink refuses a block, after
    exactly what comes before it. A message that cannot be written (a length
    over the wire's i32, a lazy member never set) is an error. *)
Theorem thrift_encode_refines {S} `{ByteSink S} G k m (s : S) : env_ok G = true -> typed G (TMessage k) m = true ->
  let res := thrift_compact_encode G k m s in
  if encodable m then delivered s (enc G (TMessage k) m) res else exists e, snd res = inr e.
Proof.
  intros HG Ht. cbv zeta. destruct (encodable m) eqn:He; [by apply encode_delivered|].
  unfold thrift_compact_encode, w_finish. cbv zeta.
  pose proof (value_fails G m (TMessage k) (Writer s 0 None "" "" []) Ht He) as Hf. rewrite flush_failed by done.
  unfold failed in Hf. destruct (w_err _); [eauto|done].
Qed.

Lemma thrift_encode_refines_witness : delivered [7] (enc model (TMessage 1) sample) (thrift_compact_encode model 1 sample [7]).
Proof. exact (thrift_encode_refines model 1 sample [7] eq_refl eq_refl). Defined.

(** Sizes are exact and a fixed buffer is never overrun. [thrift_compact_size]
    is the number of bytes the encoding has; encoding into a [span_sink]
    succeeds exactly when that many bytes are free, and then they follow what
    was written before; whatever happens the buffer keeps its length and the
    bytes after the ones used are untouched. *)
Theorem thrift_encode_bounded G k m s : env_ok G = true -> typed G (TMessage k) m = true -> encodable m = true ->
  zlen (enc G (TMessage k) m) < 2 ^ 64 -> 0 <= ss_used s <= zlen (ss_out s) ->
  thrift_compact_size G k m = inl (zlen (enc G (TMessage k) m)) /\
  fits_span s (enc G (TMessage k) m) (thrift_compact_encode G k m s).
Proof.
  intros HG Ht He Hlen Hs. split.
  - eapply delivered_count; [by apply encode_delivered|done].
  - apply delivered_span; [by apply encode_delivered|done|done].
Qed.

Lemma thrift_encode_bounded_witness :
  thrift_compact_size model 1 sample = inl 28 /\ thrift_compact_encode model 1 sample (SpanSink (replicate 20 9) 0) = (SpanSink (replicate 20 9) 0, inr (EncodeError sink_refused "" "")).
Proof.
  pose proof (thrift_encode_bounded model 1 sample (SpanSink (replicate 20 9) 0) eq_refl eq_refl eq_refl eq_refl ltac:(split; vm_compute; discriminate)) as H.
  vm_compute in H. destruct H as [H _]. split; [exact H|vm_compute; reflexivity].
Defined.

(** ** Round trips *)
Lemma thrift_roundtrip_spec G k m i p : env_ok G = true -> typed G (TMessage k) m = true -> encodable m = true ->
  fits G (TMessage k) (-1) m = true -> bytes_ok p ->
  exists m', read_message G i (enc G (TMessage k) m ++ p) 0 k = Got m' p /\ reread G (TMessage k) m m'.
Proof.
  intros HG Ht He Hf Hp. destruct (typed_message_inv G k m Ht) as (mt & vs & Em & -> & Hvs). cbn [fits enc] in *. rewrite Em in *.
  apply andb_true_iff in Hf as [_ Hf]. unfold read_message. rewrite Em, (init_message G HG k mt Em).
  destruct (read_message_enc G HG i decode_fuel k mt vs 0 p Em) as (vs' & E & Hrr); try done.
  - apply Forall_true. intros [v|]; [|done]. by apply read_back.
  - by apply enough_decode_fuel.
  - rewrite E. by exists (VMsg vs').
Qed.

(** C22: what is written reads back. A message that can be written and nests
    within the depth limit, appended to a vector by [thrift_compact_encode],
    is parsed from those bytes by [thrift_compact], whatever follows them: the
    cursor ends just after the encoding and the value is the message, its lists
    and lazy members as views that decode to what was written. *)
Theorem thrift_roundtrip G k m out rest : env_ok G = true -> typed G (TMessage k) m = true -> encodable m = true ->
  fits G (TMessage k) (-1) m = true -> bytes_ok rest -> zlen (enc G (TMessage k) m) < 2 ^ 64 ->
  exists bs, thrift_compact_encode_vector G k m out = (out ++ bs, inl (zlen bs)) /\
    forall i M, wf M i -> holds M (i_first i) (bs ++ rest) -> size i = zlen (bs ++ rest) ->
      exists m', thrift_compact G k M i = Done m' (advance i (zlen bs)) /\ reread G (TMessage k) m m'.
Proof.
  intros HG Ht He Hf Hrest Hlen. exists (enc G (TMessage k) m). split.
  - by apply delivered_vector; [apply encode_delivered|].
  - intros i M Hwf Hh Hsz. destruct (thrift_roundtrip_spec G k m i rest HG Ht He Hf Hrest) as (m' & E & Hrr).
    exists m'. split; [|done]. unfold thrift_compact, run. rewrite (size_wf M i Hwf) in Hsz.
    replace (Z.to_nat (i_last i - i_first i)) with (length (enc G (TMessage k) m ++ rest)) by (unfold zlen in Hsz; lia).
    rewrite (load_holds M (i_first i) _ Hh), E, zlen_app. do 2 f_equal. lia.
Qed.

Lemma thrift_roundtrip_witness : exists bs, thrift_compact_encode_vector model 1 sample [7] = ([7] ++ bs, inl (zlen bs)) /\
  forall i M, wf M i -> holds M (i_first i) (bs ++ [255]) -> size i = zlen (bs ++ [255]) ->
    exists m', thrift_compact model 1 M i = Done m' (advance i (zlen bs)) /\ reread model (TMessage 1) sample m'.
Proof.
  apply (thrift_roundtrip model 1 sample [7] [255]); try (vm_compute; reflexivity). constructor; [split; lia|constructor].
Defined.

(** ** Evolution *)

(** What a parser of the message type [R] makes of the members [l]. *)
Definition evolves (G : list (message ttype)) (R : message ttype) (l : list wrote_member) (n : Z) (i : input) (res : result tvalue) : Prop :=
  if complete_for R l then exists us, res = Done (VMsg us) (advance i n) /\ Forall2 (holds_member G l) (m_fields R) us
  else exists e, res = Err e /\ e_kind e = errk_err /\ e_expected e = "every required thrift field" /\
         e_offset e = u32 (offset i) /\ e_ctx e = [Frame (m_name R) (u32 (offset i))].

Lemma missing_error M i name : wf M i -> exists e, to_error i (Failure missing_required (i_last i - i_first i) 0 (Some name)) = e /\
  e_kind e = errk_err /\ e_expected e = "every required thrift field" /\ e_offset e = u32 (offset i) /\ e_ctx e = [Frame name (u32 (offset i))].
Proof.
  intros Hwf. eexists. split; [reflexivity|]. unfold to_error. cbn [f_kind f_where f_at].
  replace (i_last i - (i_last i - i_first i)) with (i_first i) by lia.
  assert ((if negb (i_first i =? nullptr) && negb (i_base i =? nullptr) then u64 (i_first i - i_base i) else offset i) = offset i) as ->
    by (by destruct (_ && _)).
  unfold push_context. cbn [e_ctx length]. rewrite bool_decide_true by (unfold max_context; lia).
  cbn. split_and!; try done. by rewrite wrap_idemp.
Qed.

(** C23: messages evolve. A message written as type [w] and read as type [r],
    whose fields of one id have one type or wire types that are not mistaken
    for each other: if every required field of the reader was written, the
    reader takes exactly the fields both declare (as [reread] reads them),
    keeps its defaults for the others, ignores the fields it does not know,
    and ends after the message; if one was not, it fails with the
    missing-required error, located at the message and naming it. *)
Theorem thrift_evolution G w r W R vs rest i M : env_ok G = true -> G !! w = Some W -> G !! r = Some R ->
  typed G (TMessage w) (VMsg vs) = true -> encodable (VMsg vs) = true -> fits G (TMessage w) (-1) (VMsg vs) = true ->
  Forall (fun f => Forall (compatible f) (m_fields R)) (m_fields W) -> bytes_ok rest ->
  wf M i -> holds M (i_first i) (enc G (TMessage w) (VMsg vs) ++ rest) -> size i = zlen (enc G (TMessage w) (VMsg vs) ++ rest) ->
  evolves G R (zip (m_fields W) vs) (zlen (enc G (TMessage w) (VMsg vs))) i (thrift_compact G r M i).
Proof.
  intros HG HW HR Ht He Hf Hcomp Hrest Hwf Hh Hsz. rewrite (typed_message G w W vs HW) in Ht. cbn [encodable] in He.
  destruct (env_ok_lookup G HG w W HW) as [HWok _]. destruct (env_ok_lookup G HG r R HR) as [HRok _].
  destruct (thrift_ok_ids W HWok) as (Hsort & Hid & _). unfold ids in Hsort, Hid. rewrite Forall_fmap in Hid.
  assert (Hbytes := enc_ok G HG (VMsg vs) (TMessage w)). cbn [fits enc typed] in *. rewrite HW in *.
  apply andb_true_iff in Hf as [_ Hf]. destruct Hbytes as [Hb _]; [by apply check_fields_Forall2|done|].
  rewrite <- app_assoc in Hh, Hsz. cbn [app] in Hh, Hsz. set (p := enc_fields (enc G) vs (m_fields W) 0 ++ 0 :: rest) in *.
  assert (bytes_ok p) as Hp by (apply Forall_app in Hb as [? _]; apply Forall_app; split; [done|constructor; [red; lia|done]]).
  unfold thrift_compact, run. rewrite (size_wf M i Hwf) in Hsz.
  replace (Z.to_nat (i_last i - i_first i)) with (length p) by (unfold zlen in Hsz; lia). rewrite (load_holds M (i_first i) p Hh).
  unfold read_message. rewrite HR, (init_message G HG r R HR). unfold read_struct. destruct (Z.ltb_spec max_tagged_depth 0) as [Hbad|_]; [by vm_compute in Hbad|].
  assert (Forall2 (holds_member G []) (m_fields R) (List.map (init_member G) (m_fields R))) as Hus0.
  { apply Forall2_same_length_lookup. split; [by rewrite length_map|]. intros k f u Hf' Hu. rewrite list_lookup_fmap, Hf' in Hu. by injection Hu as <-. }
  assert (seen_carried R [] 0) as Hseen0.
  { intros k f Hk. rewrite Z.testbit_0_l. symmetry. apply bool_decide_eq_false. by intros [? ?]. }
  assert (Forall (fun f => 0 < f_id f) (m_fields W)) as Hpos by (eapply Forall_impl; [exact Hid|]; cbn; lia).
  assert (Forall (fun ov => match ov with Some v => reads_back G v | None => True end) vs) as Hback.
  { apply Forall_true. intros [v|]; [by apply read_back|done]. }
  pose proof (read_fields_evolve G HG R HRok i decode_fuel 0 p rest Hrest ltac:(lia) (enough_decode_fuel 0 ltac:(lia)) ltac:(lia)
    (m_fields W) vs Hback Ht Hid Hsort He Hf Hcomp [] _
    (S (length p)) 0 0 p (Forall_nil_2 _) Hus0 Hseen0 ltac:(lia) Hpos eq_refl Hp ltac:(lia)) as Hev.
  cbv zeta in Hev. rewrite app_nil_l in Hev. unfold evolves. destruct (complete_for R (zip (m_fields W) vs)).
  - destruct Hev as (us & -> & Hus). cbn [dbind]. exists us. split; [|done]. unfold p. rewrite !zlen_app, !zlen_cons.
    change (zlen []) with 0. do 2 f_equal. lia.
  - rewrite Hev. cbn [dbind]. rewrite <- Hsz. destruct (missing_error M i (m_name R) Hwf) as (e & <- & ?). eauto.
Qed.

(** A reader that knows the key and a rank the writer does not have. *)
Definition key_rank : message ttype :=
  Message "KeyRank" [Field "key" 1 required false TView; Field "rank" 3 defaulted false TI32].
Definition versions : list (message ttype) := [key_value; key_rank].
Definition kv_bytes : list Z := enc versions (TMessage 0) (kv [65] [66]).

Lemma thrift_evolution_witness : exists us,
  thrift_compact versions 1 (mem_of 4096 (kv_bytes ++ [])) (over (kv_bytes ++ []) false) = Done (VMsg us) (advance (over (kv_bytes ++ []) false) 7) /\
  Forall2 (holds_member versions (zip (m_fields key_value) [Some (VView (Bytes nullptr 1 None 0) [65]); Some (VView (Bytes nullptr 1 None 0) [66])]))
    (m_fields key_rank) us.
Proof.
  refine (thrift_evolution versions 0 1 key_value key_rank [Some (VView (Bytes nullptr 1 None 0) [65]); Some (VView (Bytes nullptr 1 None 0) [66])] []
    (over (kv_bytes ++ []) false) (mem_of 4096 (kv_bytes ++ [])) eq_refl eq_refl eq_refl eq_refl eq_refl eq_refl _ (Forall_nil_2 _) _ _ eq_refl).
  - repeat (apply Forall_cons_2 || apply Forall_nil_2); intros E; cbn in E; first [discriminate E|left; reflexivity].
  - apply mem_of_wf; [|reflexivity]. apply all_bytes_ok. reflexivity.
  - apply (holds_mem_of 4096 (kv_bytes ++ []) []).
Defined.

(** ** Findings *)
Definition numbers : list (message ttype) := [Message "Numbers" [Field "xs" 1 required false (TVector TI32)]].

(** On a streaming input, a list whose bytes have not all arrived is a hard
    error: its count is checked against the bytes present and the fault is not
    [incomplete], unlike every other way of running out of bytes; the same
    bytes with the rest of the message parse. *)
Theorem thrift_stream_list_rejected :
  (exists v, thrift_compact numbers 0 (mem_of 4096 [25; 53; 2; 4; 6; 0]) (over [25; 53; 2; 4; 6; 0] true) = Done v (advance (over [25; 53; 2; 4; 6; 0] true) 6)) /\
  (exists e, thrift_compact numbers 0 (mem_of 4096 [25; 53; 2]) (over [25; 53; 2] true) = Err e /\ e_kind e = errk_err) /\
  (exists e, thrift_compact numbers 0 (mem_of 4096 [25]) (over [25] true) = Err e /\ e_kind e = errk_incomplete).
Proof. split_and!; eexists; (split; [vm_compute; reflexivity|reflexivity]) || (vm_compute; reflexivity). Qed.

Definition nested : list (message ttype) :=
  [Message "Inner" [Field "x" 1 required false (TLazy 0)];
   Message "Outer" [Field "y" 1 required false (TMessage 0)];
   Message "Top" [Field "all" 1 required false (TVector (TMessage 1))]].

Definition unset : tvalue := VMsg [Some (VMsg [Some (VLazy region_null 0)])].

(** After an error inside one element of a repeated member the encoder goes on
    to the next element, which renames the error's message: the member [x] of
    [Inner] that was never set is reported as a field of [Outer]. With one
    element it is reported where it is. *)
Theorem thrift_error_misplaced :
  snd (thrift_compact_encode nested 2 (VMsg [Some (VVec [unset])]) []) =
    inr (EncodeError "a nested message (lazy<M>) that was neither decoded nor set with lazy<M>::of()" "Inner" "x") /\
  snd (thrift_compact_encode nested 2 (VMsg [Some (VVec [unset; unset])]) []) =
    inr (EncodeError "a nested message (lazy<M>) that was neither decoded nor set with lazy<M>::of()" "Outer" "x").
Proof. split; vm_compute; reflexivity. Qed.

(** A sink that refuses the last block names no message and no field: the
    block is flushed after the encoder has left the message. *)
Theorem thrift_refusal_unplaced :
  snd (thrift_compact_encode versions 0 (kv [65] [66]) (SpanSink [0; 0; 0] 0)) = inr (EncodeError sink_refused "" "").
Proof. vm_compute. reflexivity. Qed.
