(* ===== verification/Protobuf.v ===== *)
(** * The protobuf decoder (protobuf.hpp)

    Member types and values of a protobuf message, [read_varint],
    [skip_value], [read_scalar], [read_len], [read_field] with its runs of
    unpacked records and its packed runs, [read_message], the parser
    [protobuf], [for_each_unknown] and the members of [pb_lazy].

    A call takes the address of [e] and the bytes from [p] to [e]; a nested
    message narrows both. Member types that hold a message name it by its
    index in the environment [G] of the program's message types. What a failed
    [protobuf_decode] leaves in its message is not modelled. *)
From S2P Require Import Prelude Parser BytesParsers Combinators CombinatorFacts Numbers Messages.

(** ** Member types and values *)

(** Scalars: [SInt s w] is a (signed) integer of [w] bits, [SEnum s w] an
    enum with that underlying type, [SSint] is [pb_sint], [SFixed] is
    [pb_fixed]. *)
Inductive scalar :=
| SBool
| SInt (signed : bool) (w : Z)
| SEnum (signed : bool) (w : Z)
| SSint (w : Z)
| SFixed (signed : bool) (w : Z)
| SFloat
| SDouble.

(** [PString], [PView] and [PBytes] are [std::string], [std::string_view] and
    [nm::bytes]; [PBox] is [pb_box], [PLazy] is [pb_lazy], [PUnknown] the type
    of a [pb_unknown] member. *)
Inductive ptype :=
| PScalar (s : scalar)
| PString | PView | PBytes
| PEmpty
| PMessage (m : nat) | PLazy (m : nat) | PBox (m : nat)
| PVector (e : ptype)
| PUnknown.

(** A member's value. [VFloat] is the bit pattern of a [float] or [double];
    [VLazy b l] a [pb_lazy] that is unset or holds the bytes [l] at [b],
    [VLazyOf m] one made with [of]. [VMsg] lists the members of a message,
    [None] for a [std::optional] or [pb_box] without a value. *)
Inductive pvalue :=
| VBool (b : bool)
| VInt (v : Z)
| VFloat (bits : Z)
| VString (s : list Z)
| VView (b : bytes) (s : list Z)
| VEmpty
| VVec (l : list pvalue)
| VLazy (b : bytes) (s : list Z)
| VLazyOf (m : pvalue)
| VUnknown (s : list Z)
| VMsg (fs : list (option pvalue)).

Definition no_bytes : bytes := Bytes nullptr 0 None 0.

(** ** Wire types *)
Definition wire_varint : Z := 0.
Definition wire_i64 : Z := 1.
Definition wire_len : Z := 2.
Definition wire_i32 : Z := 5.

Definition scalar_wire (s : scalar) : Z :=
  match s with
  | SSint _ => wire_varint
  | SFixed _ w => if w =? 32 then wire_i32 else wire_i64
  | SFloat => wire_i32
  | SDouble => wire_i64
  | SBool | SInt _ _ | SEnum _ _ => wire_varint
  end.

Definition wire_of (t : ptype) : Z :=
  match t with PScalar s => scalar_wire s | _ => wire_len end.

Definition packable (t : ptype) : bool :=
  match t with PScalar _ => true | _ => false end.

(** [std::optional<M>] and [pb_box<M>]. *)
Definition opt_like (f : field ptype) : bool :=
  f_opt f || match f_type f with PBox _ => true | _ => false end.

(** [inner_t]: the type held. *)
Definition inner (t : ptype) : ptype := match t with PBox i => PMessage i | t => t end.

(** The model rules checked at compile time. *)
Definition check_model (m : message ptype) : bool :=
  forallb (fun f => match f_type f with
                    | PVector _ | PBox _ => bool_decide (f_pres f = defaulted)
                    | PLazy _ => f_opt f || bool_decide (f_pres f = defaulted)
                    | _ => true
                    end) (m_fields m).

(** ** Failures: what was expected, and the address where *)
Record failure := Failure { f_why : string; f_at : Z }.

Abbreviation dec := (decoded failure).

(** [c.fail(w, p)], [e] being where the bytes [p] end. *)
Definition fail {A} (w : string) (e : Z) (p : list Z) : dec A := Failed (Failure w (e - zlen p)).

Definition to_error (origin : input) (f : failure) : error :=
  let here := with_range origin (if f_at f =? nullptr then i_first origin else f_at f) (i_last origin) in
  Error errk_err (u32 (offset here)) (f_why f) 0 [].

(** ** Varints and skipping *)
Fixpoint read_varint_slow (k : nat) (e : Z) (p : list Z) (shift v : Z) : dec Z :=
  match k with
  | O => fail "a protobuf varint of at most 10 bytes" e p
  | S k =>
      match p with
      | [] => fail "a complete protobuf varint" e p
      | b :: q =>
          if (shift =? 63) && (1 <? b) then fail "a protobuf varint of at most 64 bits" e p
          else
            let v := Z.lor v (wrap 64 (Z.shiftl (Z.land b 127) shift)) in
            if Z.land b 128 =? 0 then Got v q else read_varint_slow k e q (shift + 7) v
      end
  end.

Definition read_varint (e : Z) (p : list Z) : dec Z :=
  match p with
  | b :: q => if Z.land b 128 =? 0 then Got b q else read_varint_slow 10 e p 0 0
  | [] => read_varint_slow 10 e p 0 0
  end.

(** A length, and that so many bytes are there. *)
Definition read_length (what : string) (e : Z) (p : list Z) : dec Z :=
  let& (n, p) := read_varint e p in
  if zlen p <? n then fail what e p else Got n p.

Definition skip_value (e : Z) (p : list Z) (wt : Z) : dec unit :=
  if wt =? wire_varint then let& (_, p) := read_varint e p in Got tt p
  else if wt =? wire_i64 then
    if zlen p <? 8 then fail "8 bytes of a fixed64 field" e p else Got tt (zdrop 8 p)
  else if wt =? wire_i32 then
    if zlen p <? 4 then fail "4 bytes of a fixed32 field" e p else Got tt (zdrop 4 p)
  else if wt =? wire_len then
    let& (n, p) := read_length "a length-delimited field that fits the message" e p in Got tt (zdrop n p)
  else fail "a protobuf wire type 0, 1, 2 or 5 (groups are not supported)" e p.

(** ** Scalars *)
Definition in_range (signed : bool) (w v : Z) : bool :=
  if signed then (- 2 ^ (w - 1) <=? v) && (v <? 2 ^ (w - 1)) else (0 <=? v) && (v <? 2 ^ w).

(** A conversion to an integer type. *)
Definition cast (signed : bool) (w v : Z) : Z := if signed then sint w (wrap w v) else wrap w v.

(** [n] bytes, little-endian. *)
Definition read_fixed (what : string) (n : Z) (e : Z) (p : list Z) : dec Z :=
  if zlen p <? n then fail what e p
  else match load_le (Z.to_nat n) p 0 0 with
       | None => Broken UB
       | Some u => Got u (zdrop n p)
       end.

Definition read_scalar (e : Z) (p : list Z) (s : scalar) : dec pvalue :=
  match s with
  | SSint w =>
      let& (v, p) := read_varint e p in
      let s := zigzag_decode 64 v in
      if negb (in_range true w s) then fail "a sint value that fits the member" e p else Got (VInt s) p
  | SFixed signed w =>
      let& (u, p) := read_fixed "the bytes of a fixed field" (w / 8) e p in
      Got (VInt (if signed then sint w u else u)) p
  | SFloat => let& (u, p) := read_fixed "the bytes of a floating-point field" 4 e p in Got (VFloat u) p
  | SDouble => let& (u, p) := read_fixed "the bytes of a floating-point field" 8 e p in Got (VFloat u) p
  | SBool =>
      let& (v, p) := read_varint e p in
      if 1 <? v then fail "a bool of 0 or 1" e p else Got (VBool (negb (v =? 0))) p
  | SEnum signed w =>
      let& (v, p) := read_varint e p in
      let s := sint 64 v in
      if negb (in_range true 32 s) then fail "an enum value that fits int32" e p
      else Got (VInt (cast signed w s)) p
  | SInt true w =>
      let& (v, p) := read_varint e p in
      let s := sint 64 v in
      if negb (in_range true w s) then fail "an integer that fits the member" e p else Got (VInt s) p
  | SInt false w =>
      let& (v, p) := read_varint e p in
      if negb (in_range false w v) then fail "an integer that fits the member" e p else Got (VInt v) p
  end.

(** ** [pb_lazy]: the constant-time members *)
Definition lazy_has_value (v : pvalue) : bool :=
  match v with
  | VLazyOf _ => true
  | VLazy b _ => negb (b_data b =? nullptr)
  | _ => false
  end.

Definition lazy_region (v : pvalue) : list Z :=
  match v with
  | VLazy b s => if b_data b =? nullptr then [] else s
  | _ => []
  end.

(** [set_region(p, n)] for the bytes [p] that end at [e]. *)
Definition set_region (e : Z) (p : list Z) : pvalue := VLazy (Bytes (e - zlen p) (zlen p) None 0) p.

(** ** Values, members, messages *)

(** [T v{}]: the value a member starts with. A message held by value is of a
    type declared before, so [S i] rounds are enough for the [i]-th one. *)
Fixpoint zero (G : list (message ptype)) (fuel : nat) (t : ptype) : pvalue :=
  match t with
  | PScalar SBool => VBool false
  | PScalar (SFloat | SDouble) => VFloat 0
  | PScalar _ => VInt 0
  | PString => VString []
  | PView | PBytes => VView no_bytes []
  | PEmpty => VEmpty
  | PLazy _ => VLazy no_bytes []
  | PVector _ => VVec []
  | PUnknown => VUnknown []
  | PMessage i | PBox i =>
      match fuel, G !! i with
      | S fuel, Some m =>
          VMsg (List.map (fun f => if opt_like f then None else Some (zero G fuel (f_type f))) (m_fields m))
      | _, _ => VMsg []
      end
  end.

(** The type of [read_message]: [e], [p], [depth], the message type, what the
    members hold. *)
Definition reader := Z -> list Z -> Z -> message ptype -> list (option pvalue) -> dec (list (option pvalue)).

Section Decoder.
Context (G : list (message ptype)).

Definition init (t : ptype) : pvalue := zero G (S (length G)) t.

(** The fields of an [empty_struct]: validated and skipped. *)
Fixpoint skip_all (fuel : nat) (e : Z) (p : list Z) : dec unit :=
  match fuel with
  | O => Broken NoFuel
  | S fuel =>
      match p with
      | [] => Got tt p
      | _ =>
          let& (key, p) := read_varint e p in
          if Z.shiftr key 3 =? 0 then fail "a protobuf field number of 1 .. 2^29-1" e p
          else let& (_, p) := skip_value e p (Z.land key 7) in skip_all fuel e p
      end
  end.

(** One length-delimited value: its bytes are [p], up to [e]. *)
Definition read_len (rd : reader) (e : Z) (p : list Z) (depth : Z) (t : ptype) (out : pvalue) : dec pvalue :=
  match t with
  | PView => Got (VView (Bytes (e - zlen p) (zlen p) None 0) p) []
  | PString => Got (VString p) []
  | PBytes => Got (VView (Bytes (e - zlen p) (zlen p) None 0) p) []
  | PMessage i =>
      if max_tagged_depth <=? depth then fail "protobuf nesting within the depth limit" e p
      else match G !! i, out with
           | Some m, VMsg fs => let& (fs, _) := rd e p (depth + 1) m fs in Got (VMsg fs) []
           | _, _ => Broken UB
           end
  | PLazy _ => Got (set_region e p) []
  | PEmpty => let& (_, _) := skip_all (S (length p)) e p in Got out []
  | _ => Broken UB
  end.

(** Read the [n] bytes at [p] as one value, and step over them. *)
Definition read_sub (rd : reader) (e n : Z) (p : list Z) (depth : Z) (t : ptype) (out : pvalue) : dec pvalue :=
  let& (x, _) := read_len rd (e - zlen p + n) (ztake n p) depth t out in Got x (zdrop n p).

(** Whether the bytes [key] follow at [p], and something after them: one byte
    is compared, more are a [memcmp]. *)
Definition key_follows (key p : list Z) : bool :=
  if zlen key =? 1 then
    (1 <? zlen p) && match p, key with b :: _, k :: _ => b =? k | _, _ => false end
  else (zlen key <? zlen p) && bool_decide (ztake (zlen key) p = key).

(** The records of an unpacked field that follow one another. *)
Fixpoint read_run (fuel : nat) (e : Z) (key p : list Z) (s : scalar) (l : list pvalue) : dec (list pvalue) :=
  match fuel with
  | O => Broken NoFuel
  | S fuel =>
      if key_follows key p then
        let& (x, p) := read_scalar e (zdrop (zlen key) p) s in read_run fuel e key p s (l ++ [x])
      else Got l p
  end.

(** The values of a packed run, which ends at [e]. *)
Fixpoint read_packed (fuel : nat) (e : Z) (p : list Z) (s : scalar) (l : list pvalue) : dec (list pvalue) :=
  match fuel with
  | O => Broken NoFuel
  | S fuel =>
      match p with
      | [] => Got l p
      | _ => let& (x, p) := read_scalar e p s in read_packed fuel e p s (l ++ [x])
      end
  end.

(** How many values [slot.reserve] makes room for. *)
Definition packed_count (ew : Z) (run : list Z) : Z :=
  if ew =? wire_i32 then zlen run / 4
  else if ew =? wire_i64 then zlen run / 8
  else zlen (filter (fun b => Z.land b 128 = 0) run).

(** The value of a field not matched: skipped. *)
Definition read_other (e : Z) (p : list Z) (wt : Z) (v : option pvalue) : dec (option pvalue * bool) :=
  let& (_, p) := skip_value e p wt in Got (v, false) p.

(** One record of a repeated field of element type [el]; [tag_at] is where its
    key starts. *)
Definition read_repeated (rd : reader) (e : Z) (tag_at p : list Z) (wt depth : Z) (el : ptype) (l : list pvalue) :
    dec (option pvalue * bool) :=
  let ew := wire_of el in
  if (wt =? ew) && negb ((ew =? wire_len) && packable el) then
    match el with
    | PScalar s =>
        let key := ztake (zlen tag_at - zlen p) tag_at in
        let& (x, p) := read_scalar e p s in
        let& (l, p) := read_run (S (length p)) e key p s (l ++ [x]) in
        Got (Some (VVec l), true) p
    | _ =>
        let& (n, p) := read_length "a length-delimited field that fits the message" e p in
        let& (x, p) := read_sub rd e n p depth el (init el) in
        Got (Some (VVec (l ++ [x])), true) p
    end
  else
    match el with
    | PScalar s =>
        if wt =? wire_len then
          let& (n, p) := read_length "a packed field that fits the message" e p in
          if ((ew =? wire_i32) || (ew =? wire_i64)) && negb (n mod (if ew =? wire_i32 then 4 else 8) =? 0)
          then fail "a packed fixed-width field of whole values" e p
          else
            let& (l, _) := read_packed (S (length (ztake n p))) (e - zlen p + n) (ztake n p) s l in
            Got (Some (VVec l), true) (zdrop n p)
        else read_other e p wt (Some (VVec l))
    | _ => read_other e p wt (Some (VVec l))
    end.

(** One occurrence of field [f], holding [v]: what it holds then, and whether
    it [matched]. *)
Definition read_field (rd : reader) (depth e : Z) (tag_at p : list Z) (wt : Z) (f : field ptype) (v : option pvalue) :
    dec (option pvalue * bool) :=
  match f_type f, v with
  | PUnknown, _ => read_other e p wt v
  | PVector el, Some (VVec l) => read_repeated rd e tag_at p wt depth el l
  | PVector _, _ => Broken UB
  | t, _ =>
      if match t with PLazy _ => negb (f_opt f) | _ => false end then
        if negb (wt =? wire_len) then read_other e p wt v
        else
          let& (n, p) := read_length "a length-delimited field that fits the message" e p in
          if match v with Some x => lazy_has_value x | None => false end
          then fail "a lazily decoded message field that occurs once" e p
          else Got (Some (set_region (e - zlen p + n) (ztake n p)), true) (zdrop n p)
      else
        let t := inner t in
        if negb (wt =? wire_of t) then read_other e p wt v
        else
          match t with
          | PScalar s => let& (x, p) := read_scalar e p s in Got (Some x, true) p
          | _ =>
              let& (n, p) := read_length "a length-delimited field that fits the message" e p in
              let& (x, p) := read_sub rd e n p depth t (default (init t) v) in
              Got (Some x, true) p
          end
  end.

(** [keep_unknown]: append the bytes of a skipped field to the first member. *)
Definition keep_unknown (fs : list (option pvalue)) (bs : list Z) : option (list (option pvalue)) :=
  match fs with
  | Some (VUnknown s) :: fs => Some (Some (VUnknown (s ++ bs)) :: fs)
  | _ => None
  end.

Definition kept (m : message ptype) (fs : list (option pvalue)) (tag_at p : list Z) : option (list (option pvalue)) :=
  if has_unknown m then keep_unknown fs (ztake (zlen tag_at - zlen p) tag_at) else Some fs.

(** The callback of [with_field_index]: reads one occurrence of a field. *)
Definition field_reader := Z -> list Z -> list Z -> Z -> field ptype -> option pvalue -> dec (option pvalue * bool).

(** One record of the message: a key and what it carries. Returns [seen] and
    the members. *)
Definition read_record (rf : field_reader) (m : message ptype) (e : Z) (tag_at : list Z) (seen : Z)
    (fs : list (option pvalue)) : dec (Z * list (option pvalue)) :=
  let& (key, p) := read_varint e tag_at in
  let id := Z.shiftr key 3 in
  let wt := Z.land key 7 in
  if (id =? 0) || (536870911 <? id) then fail "a protobuf field number of 1 .. 2^29-1" e tag_at
  else
    let slot := if 32767 <? id then no_slot else slot_of m id in
    if slot =? no_slot then
      let& (_, p) := skip_value e p wt in
      match kept m fs tag_at p with Some fs => Got (seen, fs) p | None => Broken UB end
    else
      match zget (m_fields m) slot, zget fs slot with
      | Some f, Some v =>
          let& (r, p) := rf e tag_at p wt f v in
          let fs := <[Z.to_nat slot := fst r]> fs in
          let seen := if negb (required_mask m =? 0) && snd r then Z.lor seen (Z.shiftl 1 slot) else seen in
          if snd r then Got (seen, fs) p
          else match kept m fs tag_at p with Some fs => Got (seen, fs) p | None => Broken UB end
      | _, _ => Broken UB
      end.

(** The [while (p < e)] of [read_message]; every round reads a byte. *)
Fixpoint read_records (fuel : nat) (rf : field_reader) (m : message ptype) (e : Z) (p : list Z) (seen : Z)
    (fs : list (option pvalue)) : dec (list (option pvalue)) :=
  match fuel with
  | O => Broken NoFuel
  | S fuel =>
      match p with
      | [] =>
          if negb (required_mask m =? 0) && negb (Z.land seen (required_mask m) =? required_mask m)
          then fail "a protobuf message with every required field" e p
          else Got fs p
      | _ =>
          let& (r, p) := read_record rf m e p seen fs in
          read_records fuel rf m e p (fst r) (snd r)
      end
  end.

Fixpoint read_message (fuel : nat) : reader := fun e p depth m fs =>
  match fuel with
  | O => Broken NoFuel
  | S fuel => read_records (S (length p)) (read_field (read_message fuel) depth) m e p 0 fs
  end.

(** Messages nest at most [max_tagged_depth] deep in the outermost one. *)
Definition decode_fuel : nat := Z.to_nat (max_tagged_depth + 1).

(** ** The decoder's entry points *)

(** [protobuf_decode(in, m)] of the [k]-th message type: what [m] holds then
    and the size returned. *)
Definition decode_bytes (k : nat) (i : input) (p : list Z) (v : pvalue) : option ((pvalue * Z) + error) :=
  match G !! k, v with
  | Some m, VMsg fs =>
      match read_message decode_fuel (i_last i) p 0 m fs with
      | Got fs _ => Some (inl (VMsg fs, size i))
      | Failed f => Some (inr (to_error i f))
      | Broken _ => None
      end
  | _, _ => None
  end.

Definition protobuf_decode (k : nat) (M : memory) (i : input) (v : pvalue) : option ((pvalue * Z) + error) :=
  match load M (Z.to_nat (i_last i - i_first i)) (i_first i) with
  | None => None
  | Some p => decode_bytes k i p v
  end.

(** [protobuf<M>()]. *)
Definition protobuf (k : nat) : parser pvalue := fun M i =>
  match protobuf_decode k M i (init (PMessage k)) with
  | None => Stop UB
  | Some (inl (v, n)) => Done v (advance i n)
  | Some (inr e) => Err e
  end.

(** [pb_lazy<M>::decode_into(m)] and [decode()]. *)
Definition lazy_decode_into (k : nat) (v m : pvalue) : option ((pvalue * Z) + error) :=
  match v with
  | VLazyOf src => Some (inl (src, 0))
  | VLazy b _ =>
      decode_bytes k (from_bytes (Bytes (b_data b) (zlen (lazy_region v)) None 0)) (lazy_region v) m
  | _ => None
  end.

Definition lazy_decode (k : nat) (v : pvalue) : option (pvalue + error) :=
  match lazy_decode_into k v (init (PMessage k)) with
  | Some (inl (m, _)) => Some (inl m)
  | Some (inr e) => Some (inr e)
  | None => None
  end.

End Decoder.

(** ** Unknown fields *)

(** [for_each_unknown(u, f)], the callback threading a state; [e] is where the
    bytes end. *)
Fixpoint each_unknown {S} (fuel : nat) (e : Z) (p : list Z) (f : S -> Z -> Z -> S) (s : S) : option (S * bool) :=
  match fuel with
  | O => None
  | Datatypes.S fuel =>
      match p with
      | [] => Some (s, true)
      | _ =>
          match (let& (key, p) := read_varint e p in let& (_, p) := skip_value e p (Z.land key 7) in Got key p) with
          | Got key p => each_unknown fuel e p f (f s (Z.shiftr key 3) (Z.land key 7))
          | Failed _ => Some (s, false)
          | Broken _ => None
          end
      end
  end.

Definition for_each_unknown {S} (u : list Z) (f : S -> Z -> Z -> S) (s : S) : option (S * bool) :=
  each_unknown (Datatypes.S (length u)) (zlen u) u f s.

Definition unknown_len_fields (u : list Z) : option Z :=
  match for_each_unknown u (fun n _ wt => if wt =? wire_len then n + 1 else n) 0 with
  | Some (n, _) => Some n
  | None => None
  end.
