(* ===== verification/ProtobufEncode.v ===== *)
(** * Writing protobuf messages (protobuf_encode.hpp)

    The two passes of the encoder: [measure], which records the size of every
    nested message in the order they are written, and [write_message], which
    takes those sizes from the front; [protobuf_encode] and [protobuf_size].
    Reading past the recorded sizes is [None]. *)
From S2P Require Import Prelude Parser Numbers Messages Emit Staging Protobuf.

Definition max_len : Z := 2147483647.

(** [(bit_width(v | 1) + 6) / 7]. *)
Definition varint_size (v : Z) : Z := (Z.log2 (Z.lor v 1) + 1 + 6) / 7.

Definition varint_value (s : scalar) (v : pvalue) : Z :=
  match s, v with
  | SSint w, VInt x => zigzag_encode w x
  | _, VBool b => if b then 1 else 0
  | _, VInt x => u64 x
  | _, _ => 0
  end.

Definition fixed_bits (s : scalar) (v : pvalue) : Z :=
  match s, v with
  | SFixed _ w, VInt x => wrap w x
  | _, VFloat u => u
  | _, _ => 0
  end.

Definition fixed_size (s : scalar) : Z := if scalar_wire s =? wire_i32 then 4 else 8.

Definition scalar_size (s : scalar) (v : pvalue) : Z :=
  if scalar_wire s =? wire_varint then varint_size (varint_value s v) else fixed_size s.

Definition is_default (v : pvalue) : bool :=
  match v with
  | VBool b => negb b
  | VInt x => x =? 0
  | VFloat u => u =? 0
  | VString s | VView _ s => zlen s =? 0
  | _ => false
  end.

(** A member, present, that is not written: an unset [pb_lazy], a defaulted
    member that holds its default. *)
Definition left_out (f : field ptype) (v : pvalue) : bool :=
  if opt_like f then false
  else match f_type f with
       | PLazy _ => negb (lazy_has_value v)
       | _ => bool_decide (f_pres f = defaulted) && is_default v
       end.

Definition key_of (f : field ptype) (wt : Z) : Z := Z.lor (Z.shiftl (f_id f) 3) wt.

Fixpoint has_message (t : ptype) : bool :=
  match t with
  | PVector e => has_message e
  | PMessage _ | PBox _ | PLazy _ => true
  | _ => false
  end.

Definition has_nested (m : message ptype) : bool := existsb (fun f => has_message (f_type f)) (m_fields m).

Definition packed_size (s : scalar) (l : list pvalue) : Z :=
  if scalar_wire s =? wire_i32 then u64 (4 * zlen l)
  else if scalar_wire s =? wire_i64 then u64 (8 * zlen l)
  else fold_left (fun n v => u64 (n + scalar_size s v)) l 0.

(** ** Pass 1: measure *)

(** [state]: the error, the message it names, the sizes. *)
Record state := State { st_err : option string; st_message : string; st_sizes : list Z }.

Definition st_fail (what : string) (st : state) : state :=
  match st_err st with
  | None => State (Some what) (st_message st) (st_sizes st)
  | Some _ => st
  end.

(** A value that is [n] bytes long after its length. *)
Definition len_size (n : Z) : Z := u64 (varint_size n + n).

Definition sizer := ptype -> pvalue -> Z -> state -> state * Z.

(** What one member adds to [total]. *)
Definition member_size (vs : sizer) (depth : Z) (f : field ptype) (ov : option pvalue) (st : state) : state * Z :=
  match f_type f, ov with
  | PVector (PScalar s), Some (VVec l) =>
      match l with
      | [] => (st, 0)
      | _ =>
          let n := packed_size s l in
          (if max_len <? n then st_fail "a packed repeated field longer than protobuf's 2 GiB limit" st else st,
           u64 (varint_size (key_of f wire_len) + len_size n))
      end
  | PVector el, Some (VVec l) =>
      fold_left (fun (a : state * Z) v =>
        let (st, n) := vs el v depth (fst a) in
        (st, u64 (snd a + (varint_size (key_of f wire_len) + n)))) l (st, 0)
  | PUnknown, Some (VUnknown s) => (st, zlen s)
  | t, Some v =>
      if left_out f v then (st, 0)
      else
        let (st, n) := vs (inner t) v depth st in (st, u64 (varint_size (key_of f (wire_of t)) + n))
  | _, None => (st, 0)
  end.

Definition measure_members (vs : sizer) (depth : Z) :=
  fix go (ovs : list (option pvalue)) (fs : list (field ptype)) (st : state) (total : Z) {struct ovs} : state * Z :=
    match ovs, fs with
    | ov :: ovs, f :: fs => let (st, n) := member_size vs depth f ov st in go ovs fs st (u64 (total + n))
    | _, _ => (st, total)
    end.

Definition measure_with (vs : sizer) (m : message ptype) (ovs : list (option pvalue)) (depth : Z) (st : state) : state * Z :=
  if max_tagged_depth <? depth then (st_fail "protobuf nesting within the decoder's depth limit" st, 0)
  else
    let (st, total) := measure_members vs depth ovs (m_fields m) st 0 in
    (if (max_len <? total) && match st_err st with None => true | Some _ => false end
     then st_fail "a message longer than protobuf's 2 GiB limit" (State (st_err st) (m_name m) (st_sizes st)) else st,
     total).

Section Measure.
Context (G : list (message ptype)).

Fixpoint value_size (t : ptype) (v : pvalue) (depth : Z) (st : state) {struct v} : state * Z :=
  match v, t with
  | VEmpty, _ => (st, 1)
  | VLazyOf m, PLazy i => value_size (PMessage i) m depth st
  | VLazy _ _, PLazy _ => (st, len_size (zlen (lazy_region v)))
  | VMsg vs, PMessage i =>
      match G !! i with
      | Some m =>
          let k := length (st_sizes st) in
          let (st, n) := measure_with value_size m vs (depth + 1)
                           (State (st_err st) (st_message st) (st_sizes st ++ [0])) in
          (State (st_err st) (st_message st) (<[k := n]> (st_sizes st)), len_size n)
      | None => (st, 0)
      end
  | (VString s | VView _ s), _ =>
      (if max_len <? zlen s then st_fail "a string or bytes field longer than protobuf's 2 GiB limit" st else st,
       len_size (zlen s))
  | _, PScalar s => (st, scalar_size s v)
  | _, _ => (st, 0)
  end.

(** [measure(st, m, depth)] of a message of the [k]-th type. *)
Definition measure (k : nat) (m : pvalue) (depth : Z) (st : state) : state * Z :=
  match G !! k, m with
  | Some mt, VMsg vs => measure_with value_size mt vs depth st
  | _, _ => (st, 0)
  end.

End Measure.

(** ** Pass 2: write *)
Section Write.
Context {S : Type} `{ByteSink S}.

(** [fixed(u, n)]. *)
Definition w_fixed (u n : Z) (w : writer S) : writer S :=
  let w := if buf_size - zlen (w_buf w) <? 8 then w_flush w else w in
  if failed w then w else w_stage (List.map (fun i => u8 (Z.shiftr u (8 * i))) (seqZ 0 n)) w.

Definition write_scalar (s : scalar) (v : pvalue) (w : writer S) : writer S :=
  if scalar_wire s =? wire_varint then w_varint (varint_value s v) w
  else w_fixed (fixed_bits s v) (fixed_size s) w.

(** The writer and [st.next]. *)
Definition position : Type := writer S * nat.

Definition value_writer := ptype -> pvalue -> position -> option position.

Fixpoint write_each (wv : pvalue -> position -> option position) (l : list pvalue) (x : position) : option position :=
  match l with
  | [] => Some x
  | v :: l => match wv v x with Some x => write_each wv l x | None => None end
  end.

(** A key, and the value after it. *)
Definition write_keyed (wv : value_writer) (f : field ptype) (wt : Z) (t : ptype) (v : pvalue) (x : position) : option position :=
  wv t v (w_varint (key_of f wt) (fst x), snd x).

Definition write_member (wv : value_writer) (f : field ptype) (ov : option pvalue) (x : position) : option position :=
  match f_type f, ov with
  | PVector (PScalar s), Some (VVec l) =>
      match l with
      | [] => Some x
      | _ =>
          let w := w_varint (packed_size s l) (w_varint (key_of f wire_len) (fst x)) in
          Some (fold_left (fun w v => write_scalar s v w) l w, snd x)
      end
  | PVector el, Some (VVec l) => write_each (fun v x => write_keyed wv f wire_len el v x) l x
  | PUnknown, _ => Some x
  | t, Some v =>
      if left_out f v then Some x else write_keyed wv f (wire_of t) (inner t) v x
  | _, None => Some x
  end.

Definition write_members (wv : value_writer) :=
  fix go (ovs : list (option pvalue)) (fs : list (field ptype)) (x : position) {struct ovs} : option position :=
    match ovs, fs with
    | ov :: ovs, f :: fs =>
        if failed (fst x) then go ovs fs x
        else
          match write_member wv f ov (w_at (w_message (fst x)) (f_name f) (fst x), snd x) with
          | Some x => go ovs fs x
          | None => None
          end
    | _, _ => Some x
    end.

(** The bytes of the [pb_unknown] member. *)
Definition unknown_bytes (ovs : list (option pvalue)) : list Z :=
  match ovs with Some (VUnknown s) :: _ => s | _ => [] end.

Definition write_message (wv : value_writer) (m : message ptype) (ovs : list (option pvalue)) (x0 : position) : option position :=
  match write_members wv ovs (m_fields m) (w_at (m_name m) (w_field (fst x0)) (fst x0), snd x0) with
  | None => None
  | Some (w, next) =>
      let w := if has_unknown m then w_raw (unknown_bytes ovs) (w_at (w_message w) "(unknown fields)" w) else w in
      Some (if failed w then w else w_at (w_message (fst x0)) (w_field (fst x0)) w, next)
  end.

Context (G : list (message ptype)).
(** The sizes pass 1 recorded. *)
Context (sizes : list Z).

Fixpoint write_value (t : ptype) (v : pvalue) (x : position) {struct v} : option position :=
  match v, t with
  | VEmpty, _ => Some (w_varint 0 (fst x), snd x)
  | VLazyOf m, PLazy i => write_value (PMessage i) m x
  | VLazy _ _, PLazy _ =>
      Some (w_raw (lazy_region v) (w_varint (zlen (lazy_region v)) (fst x)), snd x)
  | VMsg vs, PMessage i =>
      match G !! i, sizes !! snd x with
      | Some m, Some n => write_message write_value m vs (w_varint n (fst x), Datatypes.S (snd x))
      | _, _ => None
      end
  | (VString s | VView _ s), _ => Some (w_raw s (w_varint (zlen s) (fst x)), snd x)
  | _, PScalar s => Some (write_scalar s v (fst x), snd x)
  | _, _ => None
  end.

End Write.

(** ** The encoder's entry points *)

(** [error_of<M>]: an error that names no message names the outermost one. *)
Definition error_of (m : message ptype) (e : encode_error) : encode_error :=
  EncodeError (ee_what e) (if decide (ee_message e = "") then m_name m else ee_message e) (ee_field e).

Definition state_error (m : message ptype) (st : state) : option encode_error :=
  match st_err st with
  | Some what => Some (error_of m (EncodeError what (st_message st) ""))
  | None => None
  end.

Definition st_start : state := State None "" [].

(** [protobuf_encode(m, sink)] for a message of the [k]-th type; [None] when a
    size is missing. *)
Definition protobuf_encode {S} `{ByteSink S} (G : list (message ptype)) (k : nat) (m : pvalue) (sink : S) :
    option (S * (Z + encode_error)) :=
  match G !! k, m with
  | Some mt, VMsg vs =>
      let st := if has_nested mt then fst (measure G k m 0 st_start) else st_start in
      match state_error mt st with
      | Some e => Some (sink, inr e)
      | None =>
          match write_message (write_value G (st_sizes st)) mt vs (Writer sink 0 None "" "" [], O) with
          | None => None
          | Some (w, _) =>
              Some (match w_finish w with
                    | (s, inl n) => (s, inl n)
                    | (s, inr e) => (s, inr (error_of mt e))
                    end)
          end
      end
  | _, _ => None
  end.

Definition protobuf_encode_vector (G : list (message ptype)) (k : nat) (m : pvalue) (out : list Z) :
    option (list Z * (Z + encode_error)) := protobuf_encode G k m out.

Definition protobuf_size (G : list (message ptype)) (k : nat) (m : pvalue) : option (Z + encode_error) :=
  match G !! k with
  | Some mt =>
      let (st, n) := measure G k m 0 st_start in
      Some (match state_error mt st with Some e => inr e | None => inl n end)
  | None => None
  end.
