(* ===== verification/ProtobufTypes.v ===== *)
(** * Types of decoded protobuf messages, and the safety of decoding

    [typed G t v]: [v] is a value of member type [t]. What a [pb_unknown]
    member keeps is part of it: well-formed records, none of which the message
    type would have taken. Decoding any bytes against any set of message types
    ends, reads nothing past the end of the input and, on success, yields a
    value of the type asked for. *)
From S2P Require Import Prelude Parser BytesParsers Combinators CombinatorFacts Numbers Emit Messages Staging Protobuf ProtobufEncode.

(** * Facts about the protobuf decoder's parts

    Varints against the LEB128 value; [frames]: what a call reads depends only
    on the bytes it consumes; [sound]: a call ends without an undefined read,
    in a suffix of its input with so many bytes consumed, or in a failure
    located between [p] and [e]. *)

(** ** Varints *)
Lemma read_varint_path e p : bytes_ok p -> read_varint e p = read_varint_slow 10 e p 0 0.
Proof.
  intros Hp. destruct p as [|b p]; [done|]. unfold read_varint. apply Forall_cons in Hp as [Hb _].
  cbn [read_varint_slow]. rewrite land128 by done. destruct (Z.ltb_spec b 128); [|done]. cbn [Z.eqb andb]. cbv zeta.
  f_equal. rewrite land127. red in Hb. rewrite Z.mod_small by lia. rewrite Z.shiftl_0_r. by rewrite wrap_small by lia.
Qed.

Lemma read_varint_slow_spec t rest e k i r :
  bytes_ok t -> leb_shape t = true -> i + Z.of_nat k = 10 -> zlen t <= Z.of_nat k ->
  0 <= r < 2 ^ (7 * i) -> 0 <= i -> r + uleb_val t * 2 ^ (7 * i) < 2 ^ 64 ->
  read_varint_slow k e (t ++ rest) (7 * i) r = Got (r + uleb_val t * 2 ^ (7 * i)) rest.
Proof.
  intros Ht. revert k i r. induction Ht as [|b t Hb Ht IH]; intros k i r Hs Hk Hl Hr Hi Hv; [done|].
  rewrite zlen_cons in Hl. pose proof (zlen_nonneg t). pose proof (uleb_val_nonneg t) as Ht0.
  destruct k as [|k]; [lia|]. cbn [app read_varint_slow]. pose proof Hb as Hbb. red in Hbb. cbn [uleb_val] in *.
  assert (Hpow : 0 < 2 ^ (7 * i)) by (apply Z.pow_pos_nonneg; lia).
  assert (Hpk : 2 ^ (7 * (i + 1)) = 128 * 2 ^ (7 * i)).
  { replace (7 * (i + 1)) with (7 + 7 * i) by lia. by rewrite Z.pow_add_r by lia. }
  rewrite land127 in *. assert (Hb7 : 0 <= b mod 128 < 128) by (apply Z.mod_pos_bound; lia).
  assert ((7 * i =? 63) && (1 <? b) = false) as ->.
  { destruct (Z.eqb_spec (7 * i) 63) as [E|]; [|done]. assert (i = 9) as -> by lia. cbn [andb]. apply Z.ltb_ge.
    destruct t as [|c t]; [|rewrite zlen_cons in Hl; pose proof (zlen_nonneg t); lia]. cbn in Hs. apply Z.ltb_lt in Hs.
    rewrite Z.mod_small in Hv by lia. change (2 ^ (7 * 9)) with 9223372036854775808 in *. change (2 ^ 64) with 18446744073709551616 in *. cbn [uleb_val] in Hv. lia. }
  cbv zeta. rewrite leb_accumulate by nia. rewrite land128 by done.
  destruct (Z.ltb_spec b 128).
  - destruct t as [|c t]; [|cbn [leb_shape] in Hs; destruct (Z.leb_spec 128 b); [lia|done]]. cbn [uleb_val app]. f_equal. lia.
  - destruct t as [|c t]; [cbn in Hs; apply Z.ltb_lt in Hs; lia|].
    cbn [leb_shape] in Hs. apply andb_true_iff in Hs as [_ Hs].
    replace (7 * i + 7) with (7 * (i + 1)) by lia. rewrite IH; [f_equal; rewrite Hpk; lia|done|lia|lia| |lia|rewrite Hpk; lia].
    rewrite Hpk. nia.
Qed.

Lemma read_varint_enc e v q : 0 <= v < 2 ^ 64 -> bytes_ok q -> read_varint e (uleb128_encode 64 v ++ q) = Got v q.
Proof.
  intros Hv Hq. destruct (uleb128_encode_spec 64 v ltac:(lia) Hv) as (Hb & Hs & Hval & Hl).
  change (leb128_max_bytes 64) with 10 in Hl. rewrite read_varint_path by by apply Forall_app.
  rewrite (read_varint_slow_spec _ q e 10 0 0) by (done || lia || (rewrite Hval; change (2 ^ (7 * 0)) with 1; lia)).
  rewrite Hval. change (2 ^ (7 * 0)) with 1. f_equal. lia.
Qed.

(** ** Framing

    A call reads at least [c] bytes, the same whatever follows them and
    wherever they are. *)
Definition frames {A} (c : Z) (d : Z -> list Z -> dec A) : Prop := forall e p v q, bytes_ok p -> d e p = Got v q ->
  exists k, p = k ++ q /\ c <= zlen k /\ forall e' q', bytes_ok q' -> d e' (k ++ q') = Got v q'.

Lemma frames_bind {A B} c1 c2 (d : Z -> list Z -> dec A) (f : Z -> A -> list Z -> dec B) :
  frames c1 d -> (forall v, frames c2 (fun e => f e v)) -> frames (c1 + c2) (fun e p => dbind (d e p) (f e)).
Proof.
  intros Hd Hf e p v q Hp E. destruct (d e p) as [u r| |] eqn:Ed; [|done|done]. cbn [dbind] in E.
  destruct (Hd e p u r Hp Ed) as (k1 & -> & Hc1 & H1). pose proof Hp as [_ Hr]%Forall_app.
  destruct (Hf u e r v q Hr E) as (k2 & -> & Hc2 & H2). exists (k1 ++ k2). rewrite zlen_app.
  split_and!; [by rewrite app_assoc|lia|]. intros e' q' Hq'. rewrite <- app_assoc, H1; [cbn [dbind]; by apply H2|].
  apply Forall_app. split; [|done]. by apply Forall_app in Hr as [? _].
Qed.

Lemma frames_le {A} c c' (d : Z -> list Z -> dec A) : c' <= c -> frames c d -> frames c' d.
Proof. intros Hc Hd e p v q Hp E. destruct (Hd e p v q Hp E) as (k & ? & ? & ?). exists k. split_and!; [done|lia|done]. Qed.

Lemma frames_ext {A} c (d d' : Z -> list Z -> dec A) : (forall e p, d e p = d' e p) -> frames c d -> frames c d'.
Proof.
  intros Hd H e p v q Hp. rewrite <- Hd. intros E. destruct (H e p v q Hp E) as (k & ? & ? & Hk). exists k. split_and!; [done..|].
  intros e' q'. rewrite <- Hd. apply Hk.
Qed.

Lemma frames_got {A} (v : A) : frames 0 (fun _ p => Got v p).
Proof. intros e p v' q _ [= <- <-]. by exists []. Qed.

Lemma frames_fail {A} c w : frames (A := A) c (fail w).
Proof. done. Qed.

Lemma frames_if {A} c (b : bool) (d d' : Z -> list Z -> dec A) :
  frames c d -> frames c d' -> frames c (fun e p => if b then d e p else d' e p).
Proof. by destruct b. Qed.

Lemma frames_varint_slow n : forall shift v, frames 1 (fun e p => read_varint_slow n e p shift v).
Proof.
  induction n as [|n IH]; intros shift v e p u q Hp E; [done|]. cbn [read_varint_slow] in E. destruct p as [|b p]; [done|].
  apply Forall_cons in Hp as [_ Hp]. destruct (_ && _) eqn:Ea; [done|]. cbv zeta in E. destruct (Z.land b 128 =? 0) eqn:Eb.
  - injection E as <- <-. exists [b]. split_and!; [done|done|]. intros e' q' _. cbn [app read_varint_slow]. by rewrite Ea, Eb.
  - destruct (IH _ _ e p u q Hp E) as (k & -> & Hc & Hk). exists (b :: k). rewrite zlen_cons. split_and!; [done|lia|].
    intros e' q' Hq'. cbn [app read_varint_slow]. rewrite Ea, Eb. by apply Hk.
Qed.

Lemma frames_varint : frames 1 read_varint.
Proof.
  intros e p v q Hp E. rewrite read_varint_path in E by done.
  destruct (frames_varint_slow 10 0 0 e p v q Hp E) as (k & -> & Hc & Hk). exists k. split_and!; [done..|].
  intros e' q' Hq'. rewrite read_varint_path; [by apply Hk|]. apply Forall_app in Hp as [? _]. by apply Forall_app.
Qed.

(** The bytes of a length-delimited value. *)
Definition take_len (what : string) (e : Z) (p : list Z) : dec (list Z) :=
  let& (n, p) := read_length what e p in Got (ztake n p) (zdrop n p).

Lemma read_length_inv what e p n q : read_length what e p = Got n q -> read_varint e p = Got n q /\ n <= zlen q.
Proof.
  unfold read_length. destruct (read_varint e p) as [v r| |]; cbn [dbind]; [|done|done].
  destruct (Z.ltb_spec (zlen r) v); [done|]. by intros [= <- <-].
Qed.

Lemma varint_nonneg e p n q : bytes_ok p -> read_varint e p = Got n q -> 0 <= n < 2 ^ 64.
Proof.
  intros Hp. rewrite read_varint_path by done.
  assert (forall k p shift r, 0 <= shift -> 0 <= r < 2 ^ 64 -> read_varint_slow k e p shift r = Got n q -> 0 <= n < 2 ^ 64) as H.
  - clear. intros k. induction k as [|k IH]; intros p shift r Hs Hr E; [done|]. cbn [read_varint_slow] in E.
    destruct p as [|b p]; [done|]. destruct (_ && _); [done|]. cbv zeta in E.
    assert (0 <= Z.lor r (wrap 64 (Z.shiftl (Z.land b 127) shift)) < 2 ^ 64) by (apply lor_range; [lia|done|apply wrap_range; lia]).
    destruct (_ =? 0); [by injection E as <- <-|]. eapply (IH _ (shift + 7)); [lia|done|exact E].
  - apply H; lia.
Qed.

(** [frames], and [k] is a length before the bytes [s] themselves. *)
Lemma take_len_inv what e p s q : bytes_ok p -> take_len what e p = Got s q ->
  exists k, p = k ++ s ++ q /\ 1 <= zlen k /\
    forall what' e' q', bytes_ok q' -> read_length what' e' (k ++ s ++ q') = Got (zlen s) (s ++ q').
Proof.
  intros Hp E. unfold take_len in E. destruct (read_length what e p) as [n r| |] eqn:Er; [|done|done]. cbn [dbind] in E.
  injection E as <- <-. apply read_length_inv in Er as [Ev Hn]. pose proof (varint_nonneg e p n r Hp Ev) as Hn0.
  destruct (frames_varint e p n r Hp Ev) as (k & -> & Hc & Hk). pose proof Hp as [_ Hr]%Forall_app.
  exists k. split_and!; [by rewrite ztake_zdrop|done|]. intros what' e' q' Hq'.
  assert (Hl : zlen (ztake n r) = n) by (rewrite zlen_ztake by lia; lia).
  unfold read_length. rewrite Hk by (apply Forall_app; split; [by apply bytes_ok_ztake|done]). cbn [dbind].
  rewrite zlen_app, Hl. pose proof (zlen_nonneg q'). destruct (Z.ltb_spec (n + zlen q') n); [lia|done].
Qed.

Lemma frames_take_len what : frames 1 (take_len what).
Proof.
  intros e p s q Hp E. destruct (take_len_inv what e p s q Hp E) as (k & -> & Hk & H). exists (k ++ s). rewrite zlen_app.
  pose proof (zlen_nonneg s). split_and!; [by rewrite app_assoc|lia|]. intros e' q' Hq'. unfold take_len.
  rewrite <- app_assoc, H by done. cbn [dbind]. by rewrite ztake_app, zdrop_app.
Qed.

Lemma read_fixed_enc what n e k q : bytes_ok k -> bytes_ok q -> zlen k = n -> read_fixed what n e (k ++ q) = Got (le_val k) q.
Proof.
  intros Hk Hq Hl. unfold read_fixed. rewrite zlen_app. pose proof (zlen_nonneg q). pose proof (zlen_nonneg k).
  destruct (Z.ltb_spec (zlen k + zlen q) n); [lia|]. rewrite (load_le_val _ _ 0 0); [|by apply Forall_app|lia|rewrite zlen_app; lia|done].
  replace (0 + Z.of_nat (Z.to_nat n)) with n by lia. by rewrite ztake_app, zdrop_app.
Qed.

Lemma frames_fixed what n : 0 <= n -> frames n (read_fixed what n).
Proof.
  intros Hn e p u q Hp E. unfold read_fixed in E. destruct (Z.ltb_spec (zlen p) n); [done|].
  rewrite (load_le_val _ p 0 0) in E by (done || lia). replace (0 + Z.of_nat (Z.to_nat n)) with n in E by lia. injection E as <- <-.
  exists (ztake n p). rewrite zlen_ztake by lia. split_and!; [by rewrite ztake_zdrop|lia|]. intros e' q' Hq'.
  apply read_fixed_enc; [by apply bytes_ok_ztake|done|]. rewrite zlen_ztake by lia. lia.
Qed.

Lemma take_len_skip what e p : (let& (n, p) := read_length what e p in Got tt (zdrop n p)) = let& (_, p) := take_len what e p in Got tt p.
Proof. unfold take_len. by destruct (read_length what e p). Qed.

Lemma frames_step n c what : 0 <= c <= n -> frames (A := unit) c (fun e p => if zlen p <? n then fail what e p else Got tt (zdrop n p)).
Proof.
  intros Hn e p [] q Hp E. destruct (Z.ltb_spec (zlen p) n); [done|]. injection E as <-. exists (ztake n p).
  assert (Hl : zlen (ztake n p) = n) by (rewrite zlen_ztake by lia; lia). rewrite Hl.
  split_and!; [by rewrite ztake_zdrop|lia|]. intros e' q' _. rewrite zlen_app, Hl. pose proof (zlen_nonneg q').
  destruct (Z.ltb_spec (n + zlen q') n); [lia|]. by rewrite zdrop_app.
Qed.

Lemma frames_skip_value wt : frames 1 (fun e p => skip_value e p wt).
Proof.
  unfold skip_value. repeat apply frames_if; try apply frames_fail.
  - apply (frames_bind 1 0); [apply frames_varint|intros; apply frames_got].
  - apply frames_step. lia.
  - apply frames_step. lia.
  - eapply frames_ext; [intros; symmetry; apply take_len_skip|]. apply (frames_bind 1 0); [apply frames_take_len|intros; apply frames_got].
Qed.

(** A varint, checked and converted. *)
Lemma frames_checked {A} (ok : Z -> bool) what (g : Z -> A) :
  frames 1 (fun e p => let& (v, p) := read_varint e p in if negb (ok v) then fail what e p else Got (g v) p).
Proof. apply (frames_bind 1 0); [apply frames_varint|]. intros v. apply frames_if; [apply frames_fail|apply frames_got]. Qed.

Definition scalar_ok (s : scalar) : bool :=
  match s with
  | SInt _ w | SEnum _ w => (w =? 8) || (w =? 16) || (w =? 32) || (w =? 64)
  | SSint w | SFixed _ w => (w =? 32) || (w =? 64)
  | _ => true
  end.

Lemma frames_scalar s : scalar_ok s = true -> frames 1 (fun e p => read_scalar e p s).
Proof.
  intros Hs. destruct s as [|[]| | |sg w| |]; cbn [read_scalar].
  - apply (frames_bind 1 0); [apply frames_varint|]. intros v. apply frames_if; [apply frames_fail|apply frames_got].
  - apply (frames_checked (fun v => in_range true w (sint 64 v))).
  - apply (frames_checked (fun v => in_range false w v)).
  - apply (frames_checked (fun v => in_range true 32 (sint 64 v))).
  - apply (frames_checked (fun v => in_range true w (zigzag_decode 64 v))).
  - apply (frames_le (w / 8 + 0)).
    { cbn in Hs. apply orb_true_iff in Hs as [Hs|Hs]; apply Z.eqb_eq in Hs as ->; by vm_compute. }
    apply frames_bind; [|intros; apply frames_got]. apply frames_fixed. cbn in Hs.
    apply orb_true_iff in Hs as [Hs|Hs]; apply Z.eqb_eq in Hs as ->; by vm_compute.
  - apply (frames_le (4 + 0)); [lia|]. apply frames_bind; [by apply frames_fixed|intros; apply frames_got].
  - apply (frames_le (8 + 0)); [lia|]. apply frames_bind; [by apply frames_fixed|intros; apply frames_got].
Qed.

(** ** Types *)

(** Whether a member of type [t] takes a record of wire type [wt]. *)
Definition matches (t : ptype) (wt : Z) : bool :=
  match t with
  | PUnknown => false
  | PVector el => (wt =? wire_of el) || (packable el && (wt =? wire_len))
  | t => wt =? wire_of (inner t)
  end.

Definition field_slot (m : message ptype) (id : Z) : Z := if 32767 <? id then no_slot else slot_of m id.

(** A record the message type does not take. *)
Definition unmatched (m : message ptype) (id wt : Z) : bool :=
  (1 <=? id) && (id <=? 536870911) &&
  ((field_slot m id =? no_slot) ||
   match zget (m_fields m) (field_slot m id) with Some f => negb (matches (f_type f) wt) | None => false end).

(** Bytes a [pb_unknown] member may hold. *)
Definition unknown_ok (m : message ptype) (u : list Z) : bool :=
  match for_each_unknown u (fun ok id wt => ok && unmatched m id wt) true with
  | Some (ok, well_formed) => ok && well_formed
  | None => false
  end.

Definition scalar_typed (s : scalar) (v : pvalue) : bool :=
  match s, v with
  | SBool, VBool _ => true
  | (SInt sg w | SEnum sg w | SFixed sg w), VInt x => in_range sg w x
  | SSint w, VInt x => in_range true w x
  | SFloat, VFloat u => in_range false 32 u
  | SDouble, VFloat u => in_range false 64 u
  | _, _ => false
  end.

(** One check per member, the values against the fields. *)
Definition check_fields (ck : ptype -> pvalue -> bool) :=
  fix go (vs : list (option pvalue)) (fs : list (field ptype)) {struct vs} : bool :=
    match vs, fs with
    | [], [] => true
    | Some v :: vs, f :: fs => ck (inner (f_type f)) v && go vs fs
    | None :: vs, f :: fs => opt_like f && go vs fs
    | _, _ => false
    end.

Fixpoint typed (G : list (message ptype)) (t : ptype) (v : pvalue) {struct v} : bool :=
  match v, t with
  | VString s, PString => all_bytes s
  | VView b s, (PView | PBytes) => all_bytes s && (b_size b =? zlen s)
  | VEmpty, PEmpty => true
  | VVec l, PVector e => forallb (typed G e) l
  | VLazy b s, PLazy _ => all_bytes s && (b_size b =? zlen s)
  | VLazyOf m, PLazy i => typed G (PMessage i) m
  | VUnknown s, PUnknown => all_bytes s
  | VMsg vs, PMessage i =>
      match G !! i with
      | Some m => check_fields (typed G) vs (m_fields m) && unknown_ok m (unknown_bytes vs)
      | None => false
      end
  | v, PScalar s => scalar_typed s v
  | _, _ => false
  end.

(** ** What compiling the message types establishes *)
Definition elem_ok (t : ptype) : bool :=
  match t with
  | PScalar s => scalar_ok s
  | PBox _ | PVector _ | PUnknown => false
  | _ => true
  end.

Fixpoint scoped (G : list (message ptype)) (t : ptype) : bool :=
  match t with
  | PVector e => scoped G e
  | PLazy i | PMessage i | PBox i => bool_decide (i < length G)%nat
  | _ => true
  end.

(** A member held by value is of a complete type, declared before. *)
Definition complete (k : nat) (t : ptype) : bool :=
  match t with PMessage i => bool_decide (i < k)%nat | _ => true end.

Definition field_ok (G : list (message ptype)) (k : nat) (f : field ptype) : bool :=
  match f_type f with
  | PUnknown => (f_id f =? 0) && negb (f_opt f) && bool_decide (f_pres f = defaulted)
  | PVector e => (1 <=? f_id f) && negb (f_opt f) && elem_ok e
  | PBox _ => (1 <=? f_id f) && negb (f_opt f)
  | t => (1 <=? f_id f) && elem_ok t
  end && scoped G (f_type f) && complete k (f_type f).

Fixpoint env_ok_from (G : list (message ptype)) (k : nat) (l : list (message ptype)) : bool :=
  match l with
  | [] => true
  | m :: l => message_ok m && check_model m && forallb (field_ok G k) (m_fields m) && env_ok_from G (S k) l
  end.
Definition env_ok (G : list (message ptype)) : bool := env_ok_from G 0 G.

(** ** Induction on values *)
Section PvalueInd.
Context (P : pvalue -> Prop).
Context (Hbool : forall b, P (VBool b)) (Hint : forall x, P (VInt x)) (Hflt : forall u, P (VFloat u)).
Context (Hstr : forall s, P (VString s)) (Hview : forall b s, P (VView b s)) (Hemp : P VEmpty).
Context (Hvec : forall l, Forall P l -> P (VVec l)) (Hlazy : forall b s, P (VLazy b s)).
Context (Hlzof : forall m, P m -> P (VLazyOf m)) (Hunk : forall s, P (VUnknown s)).
Context (Hmsg : forall fs, Forall (fun ov => match ov with Some v => P v | None => True end) fs -> P (VMsg fs)).

Fixpoint pvalue_rec' (v : pvalue) : P v :=
  let fix go l : Forall P l :=
    match l with [] => Forall_nil_2 P | v :: l => Forall_cons_2 P v l (pvalue_rec' v) (go l) end in
  let fix gom l : Forall (fun ov => match ov with Some v => P v | None => True end) l :=
    match l with
    | [] => Forall_nil_2 _
    | Some v :: l => Forall_cons_2 (fun ov => match ov with Some v => P v | None => True end) (Some v) l (pvalue_rec' v) (gom l)
    | None :: l => Forall_cons_2 (fun ov => match ov with Some v => P v | None => True end) None l I (gom l)
    end in
  match v with
  | VBool b => Hbool b | VInt x => Hint x | VFloat u => Hflt u | VString s => Hstr s | VView b s => Hview b s
  | VEmpty => Hemp | VVec l => Hvec l (go l) | VLazy b s => Hlazy b s | VLazyOf m => Hlzof m (pvalue_rec' m)
  | VUnknown s => Hunk s | VMsg fs => Hmsg fs (gom fs)
  end.

Lemma pvalue_ind' v : P v.
Proof using All. exact (pvalue_rec' v). Qed.
End PvalueInd.

(** ** Facts about types *)

(** A member's value: one of its type, or absent if optional. *)
Definition typed_member (G : list (message ptype)) (ov : option pvalue) (f : field ptype) : Prop :=
  match ov with Some v => typed G (inner (f_type f)) v = true | None => opt_like f = true end.

Lemma pb_check_fields_Forall2 G vs fs :
  check_fields (typed G) vs fs = true <-> Forall2 (typed_member G) vs fs.
Proof.
  revert fs. induction vs as [|[v|] vs IH]; intros [|f fs]; cbn; rewrite ?andb_true_iff, ?IH.
  1: by split; [constructor|]. all: try (by split; [|inversion 1]).
  all: split; [intros [? ?]; by constructor|by inversion 1].
Qed.

(** The members of a message of type [m]. *)
Definition typed_members (G : list (message ptype)) (m : message ptype) (vs : list (option pvalue)) : Prop :=
  Forall2 (typed_member G) vs (m_fields m) /\ unknown_ok m (unknown_bytes vs) = true.

Lemma pb_typed_message G i m vs : G !! i = Some m ->
  typed G (PMessage i) (VMsg vs) = true <-> typed_members G m vs.
Proof. intros E. cbn [typed]. rewrite E, andb_true_iff, pb_check_fields_Forall2. done. Qed.

Lemma pb_typed_message_inv G i v : typed G (PMessage i) v = true ->
  exists m vs, G !! i = Some m /\ v = VMsg vs /\ typed_members G m vs.
Proof.
  destruct v as [| | | | | | | | | |vs]; try done. cbn [typed]. destruct (G !! i) as [m|] eqn:E; [|done].
  rewrite andb_true_iff, pb_check_fields_Forall2. intros [? ?]. exists m, vs. done.
Qed.

(** ** Records *)

(** A key and the value it announces, skipped. *)
Definition read_raw (e : Z) (p : list Z) : dec Z :=
  let& (key, p) := read_varint e p in let& (_, p) := skip_value e p (Z.land key 7) in Got key p.

Lemma frames_raw : frames 2 read_raw.
Proof.
  apply (frames_bind 1 1); [apply frames_varint|]. intros key.
  apply (frames_bind 1 0); [apply frames_skip_value|]. intros _. apply frames_got.
Qed.

(** [p] is the records [l], each with its key. *)
Inductive splits : list Z -> list (Z * list Z) -> Prop :=
| splits_nil : splits [] []
| splits_cons key r p l : (forall e q, bytes_ok q -> read_raw e (r ++ q) = Got key q) -> r <> [] ->
    splits p l -> splits (r ++ p) ((key, r) :: l).

Lemma splits_app p1 l1 p2 l2 : splits p1 l1 -> splits p2 l2 -> splits (p1 ++ p2) (l1 ++ l2).
Proof. induction 1 as [|key r p l Hr Hn H IH]; intros H2; [done|]. rewrite <- app_assoc. cbn. constructor; auto. Qed.

Lemma splits_one e p key q : bytes_ok p -> read_raw e p = Got key q ->
  exists r, p = r ++ q /\ r <> [] /\ splits r [(key, r)].
Proof.
  intros Hp E. destruct (frames_raw e p key q Hp E) as (r & -> & Hl & Hr). exists r. split; [done|].
  assert (r <> []) as Hne by (intros ->; change (zlen []) with 0 in Hl; lia). split; [done|].
  rewrite <- (app_nil_r r) at 1. constructor; [auto|done|constructor].
Qed.

Section EachUnknown.
Context {S : Type} (f : S -> Z -> Z -> S).
Definition visit (s : S) (kr : Z * list Z) : S := f s (Z.shiftr (fst kr) 3) (Z.land (fst kr) 7).

Lemma each_unknown_step fuel e b p s : each_unknown (Datatypes.S fuel) e (b :: p) f s =
  match read_raw e (b :: p) with
  | Got key p => each_unknown fuel e p f (f s (Z.shiftr key 3) (Z.land key 7))
  | Failed _ => Some (s, false)
  | Broken _ => None
  end.
Proof using. reflexivity. Qed.

Lemma each_unknown_sound fuel e p s s' : bytes_ok p -> each_unknown fuel e p f s = Some (s', true) ->
  exists l, splits p l /\ s' = fold_left visit l s.
Proof using.
  revert p s. induction fuel as [|fuel IH]; intros p s Hp E; [done|]. destruct p as [|b p].
  { injection E as <-. exists []. split; [constructor|done]. }
  rewrite each_unknown_step in E. destruct (read_raw e (b :: p)) as [key q| |] eqn:Er; [|done|done].
  destruct (splits_one e _ key q Hp Er) as (r & Ep & Hne & Hr). rewrite Ep in Hp |- *. apply Forall_app in Hp as [_ Hq].
  destruct (IH q _ Hq E) as (l & Hl & ->). exists ([(key, r)] ++ l). split; [by apply splits_app|done].
Qed.

Lemma each_unknown_complete fuel e p l s : bytes_ok p -> (length p < fuel)%nat -> splits p l ->
  each_unknown fuel e p f s = Some (fold_left visit l s, true).
Proof using.
  intros Hp Hf Hl. revert fuel s Hp Hf. induction Hl as [|key r p l Hr Hne Hl IH]; intros fuel s Hp Hf; (destruct fuel as [|fuel]; [cbn in Hf; lia|]).
  - done.
  - apply Forall_app in Hp as [_ Hp]. destruct r as [|b r]; [done|]. cbn [app]. rewrite each_unknown_step.
    change (b :: r ++ p) with ((b :: r) ++ p). rewrite Hr by done. cbn [length app] in Hf. rewrite length_app in Hf. rewrite IH by (done || lia). done.
Qed.
End EachUnknown.

(** The records a member keeps. *)
Lemma unknown_ok_splits m u : bytes_ok u ->
  unknown_ok m u = true <-> exists l, splits u l /\ Forall (fun kr => unmatched m (Z.shiftr (fst kr) 3) (Z.land (fst kr) 7) = true) l.
Proof.
  intros Hu. unfold unknown_ok, for_each_unknown. set (f := fun ok id wt => ok && unmatched m id wt).
  assert (Hfold : forall l ok, fold_left (visit f) l ok = ok && forallb (fun kr => unmatched m (Z.shiftr (fst kr) 3) (Z.land (fst kr) 7)) l).
  { induction l as [|kr l IH]; intros ok; cbn; [by rewrite andb_true_r|]. rewrite IH. unfold visit, f. by rewrite andb_assoc. }
  split.
  - destruct (each_unknown _ _ _ _ _) as [[ok wf]|] eqn:E; [|done]. rewrite andb_true_iff. intros [-> ->].
    destruct (each_unknown_sound f _ _ u true true Hu E) as (l & Hl & Ef). exists l. split; [done|].
    rewrite Hfold in Ef. symmetry in Ef. by apply forallb_Forall in Ef.
  - intros (l & Hl & Hf). rewrite (each_unknown_complete f _ _ u l true) by (done || lia). rewrite Hfold. apply forallb_Forall in Hf. by rewrite Hf.
Qed.

Lemma unknown_ok_nil m : unknown_ok m [] = true.
Proof. reflexivity. Qed.

Lemma unknown_ok_app m u e p key q : bytes_ok u -> bytes_ok p -> unknown_ok m u = true -> read_raw e p = Got key q ->
  unmatched m (Z.shiftr key 3) (Z.land key 7) = true -> unknown_ok m (u ++ ztake (zlen p - zlen q) p) = true.
Proof.
  intros Hu Hp Hok E Hun. destruct (splits_one e p key q Hp E) as (r & -> & _ & Hr). rewrite zlen_app.
  rewrite ztake_app by lia. apply Forall_app in Hp as [Hbr _].
  apply unknown_ok_splits in Hok as (l & Hl & Hf); [|done]. apply unknown_ok_splits; [by apply Forall_app|].
  exists (l ++ [(key, r)]). split; [by apply splits_app|]. apply Forall_app. split; [done|]. by constructor.
Qed.
