(* ===== verification/ProtobufSafe.v ===== *)
(** * Decoding protobuf is safe

    Every call of the decoder ends, without an undefined read, in a value of
    the type asked for and a suffix of its input, or in a failure located
    between [p] and [e]. *)
From S2P Require Import Prelude Parser BytesParsers Combinators CombinatorFacts Numbers Messages Emit Staging Protobuf ProtobufEncode ProtobufTypes.

Definition sound {A} (P : A -> Prop) (e : Z) (p : list Z) (r : dec A) : Prop :=
  match r with
  | Got v q => q `suffix_of` p /\ P v
  | Failed f => e - zlen p <= f_at f <= e
  | Broken _ => False
  end.

Lemma pb_sound_mono {A} (P Q : A -> Prop) e p q r :
  sound P e q r -> q `suffix_of` p -> (forall v, P v -> Q v) -> sound Q e p r.
Proof.
  destruct r as [v s|f|]; cbn; [|intros ? Hs%suffix_zlen ?; lia|done].
  intros [? ?] ? ?. split; [by etrans|auto].
Qed.

Lemma pb_sound_suffix {A} (P : A -> Prop) e p q r : sound P e q r -> q `suffix_of` p -> sound P e p r.
Proof. intros. by eapply pb_sound_mono. Qed.

Lemma pb_sound_bind {A B} (P : A -> Prop) (Q : B -> Prop) e p r k :
  sound P e p r -> (forall v q, P v -> q `suffix_of` p -> r = Got v q -> sound Q e q (k v q)) ->
  sound Q e p (dbind r k).
Proof. destruct r as [v q|f|]; cbn; [|done|done]. intros [Hq Hv] H. eapply pb_sound_suffix; [by apply H|done]. Qed.

Lemma pb_sound_fail {A} (P : A -> Prop) w e p q : q `suffix_of` p -> sound P e p (fail w e q).
Proof. intros Hq%suffix_zlen. cbn. pose proof (zlen_nonneg q). lia. Qed.

Lemma pb_sound_got {A} (P : A -> Prop) e p q v : q `suffix_of` p -> P v -> sound P e p (Got v q).
Proof. done. Qed.

#[export] Hint Resolve pb_sound_fail pb_sound_got : tagged.

Ltac sound_step :=
  match goal with
  | |- sound _ _ _ (dbind _ _) => eapply pb_sound_bind; [|intros ? ? ? ? ?]
  | |- sound _ _ _ (fail _ _ _) => apply pb_sound_fail; eauto with tagged
  | |- sound _ _ _ (Got _ _) => apply pb_sound_got; [eauto with tagged|]
  | |- sound _ _ _ (if ?a <? ?b then _ else _) => destruct (Z.ltb_spec a b)
  | |- sound _ _ _ (if ?a =? ?b then _ else _) => destruct (Z.eqb_spec a b)
  | |- sound _ _ _ (if ?b then _ else _) => destruct b eqn:?
  end.

(** ** Varints, lengths, scalars *)
Lemma pb_sound_varint_slow k e p shift v : sound (fun _ => True) e p (read_varint_slow k e p shift v).
Proof.
  revert p shift v. induction k as [|k IH]; intros p shift v; cbn [read_varint_slow]; [by sound_step|].
  destruct p as [|b p]; [by sound_step|]. cbv zeta. repeat sound_step; [done|].
  eapply pb_sound_suffix; [apply IH|]. eauto with tagged.
Qed.

Lemma pb_sound_varint e p : bytes_ok p -> sound (fun v => 0 <= v < 2 ^ 64) e p (read_varint e p).
Proof.
  intros Hp. pose proof (pb_sound_varint_slow 10 e p 0 0) as H. rewrite <- read_varint_path in H by done.
  destruct (read_varint e p) as [v q| |] eqn:E; [|done|done]. destruct H as [? _]. split; [done|]. by eapply varint_nonneg.
Qed.

Lemma sound_length what e p : bytes_ok p -> sound (fun v => 0 <= v < 2 ^ 64) e p (read_length what e p).
Proof. intros Hp. unfold read_length. sound_step; [by apply pb_sound_varint|]. by repeat sound_step. Qed.

Lemma sound_skip_value e p wt : bytes_ok p -> sound (fun _ => True) e p (skip_value e p wt).
Proof.
  intros Hp. unfold skip_value. repeat sound_step; try done; try (by apply pb_sound_varint); try (by apply sound_length).
Qed.

Lemma sound_fixed what n e p : bytes_ok p -> 0 <= n -> sound (fun u => 0 <= u < 2 ^ (8 * n)) e p (read_fixed what n e p).
Proof.
  intros Hp Hn. unfold read_fixed. sound_step; [by sound_step|].
  rewrite (load_le_val _ p 0 0) by (done || lia). replace (0 + Z.of_nat (Z.to_nat n)) with n by lia.
  sound_step. pose proof (le_val_range (ztake n p) (bytes_ok_ztake n p Hp)) as Hr.
  replace (8 * Z.of_nat (length (ztake n p))) with (8 * n) in Hr; [done|].
  pose proof (zlen_ztake n p Hn) as Hl. unfold zlen in *. lia.
Qed.

Lemma sint_in_range w u : 0 < w -> 0 <= u < 2 ^ w -> in_range true w (sint w u) = true.
Proof.
  intros Hw Hu. unfold in_range, sint. assert (2 ^ w = 2 * 2 ^ (w - 1)).
  { replace w with (1 + (w - 1)) at 1 by lia. by rewrite Z.pow_add_r by lia. }
  rewrite andb_true_iff, Z.leb_le, Z.ltb_lt. destruct (Z.ltb_spec u (2 ^ (w - 1))); lia.
Qed.

Lemma cast_in_range sg w x : 0 < w -> in_range sg w (cast sg w x) = true.
Proof.
  intros Hw. unfold cast. pose proof (wrap_range w x ltac:(lia)). destruct sg; [by apply sint_in_range|].
  unfold in_range. by rewrite andb_true_iff, Z.leb_le, Z.ltb_lt.
Qed.

Lemma unsigned_in_range w u : 0 <= u < 2 ^ w -> in_range false w u = true.
Proof. intros ?. unfold in_range. by rewrite andb_true_iff, Z.leb_le, Z.ltb_lt. Qed.

Lemma scalar_width s : scalar_ok s = true ->
  match s with SInt _ w | SEnum _ w | SSint w | SFixed _ w => 0 < w /\ 8 * (w / 8) = w /\ 1 <= w / 8 | _ => True end.
Proof.
  destruct s; try done; cbn; rewrite ?orb_true_iff; intros H;
    repeat match goal with H : _ \/ _ |- _ => destruct H as [H|H] end; apply Z.eqb_eq in H as ->; by vm_compute.
Qed.

Lemma sound_scalar s e p : scalar_ok s = true -> bytes_ok p -> sound (fun v => scalar_typed s v = true) e p (read_scalar e p s).
Proof.
  intros Hs%scalar_width Hp. destruct s as [|[] w|sg w|w|sg w| |]; cbn [read_scalar];
    (sound_step; [first [by apply pb_sound_varint|apply sound_fixed; [done|lia]]|]); cbv zeta; cbn beta in *.
  - by repeat sound_step.
  - sound_step; [by sound_step|]. sound_step. cbn. by apply negb_false_iff.
  - sound_step; [by sound_step|]. sound_step. cbn. by apply negb_false_iff.
  - sound_step; [by sound_step|]. sound_step. cbn. apply cast_in_range. lia.
  - sound_step; [by sound_step|]. sound_step. cbn. by apply negb_false_iff.
  - sound_step. destruct Hs as (? & Hw & ?). rewrite Hw in *. cbn. destruct sg; [by apply sint_in_range|by apply unsigned_in_range].
  - sound_step. by apply unsigned_in_range.
  - sound_step. by apply unsigned_in_range.
Qed.

(** ** The message types of a program *)
Section Env.
Context (G : list (message ptype)) (HG : env_ok G = true).

Lemma pb_env_ok_lookup i m : G !! i = Some m ->
  message_ok m = true /\ check_model m = true /\ Forall (fun f => field_ok G i f = true) (m_fields m).
Proof using HG.
  unfold env_ok in HG. intros Hm.
  assert (forall k l, env_ok_from G k l = true -> forall j, l !! j = Some m ->
    message_ok m = true /\ check_model m = true /\ Forall (fun f => field_ok G (k + j) f = true) (m_fields m)) as H.
  - intros k l. revert k. induction l as [|m' l IH]; intros k Hl j Hj; [done|].
    cbn [env_ok_from] in Hl. rewrite !andb_true_iff in Hl. destruct Hl as [[[H1 H2] H3] H4]. destruct j as [|j].
    + injection Hj as ->. rewrite Nat.add_0_r. apply forallb_Forall in H3. done.
    + replace (k + S j)%nat with (S k + j)%nat by lia. by apply IH.
  - by apply (H 0%nat G).
Qed.

Lemma field_ok_inv k f : field_ok G k f = true -> scoped G (f_type f) = true /\ complete k (f_type f) = true.
Proof using. unfold field_ok. rewrite !andb_true_iff. tauto. Qed.

(** Only the first member can be a [pb_unknown]. *)
Lemma field_ok_unknown k f : field_ok G k f = true -> f_type f = PUnknown <-> f_id f = 0.
Proof using.
  unfold field_ok. rewrite !andb_true_iff. intros [[H _] _].
  destruct (f_type f); rewrite ?andb_true_iff, ?Z.leb_le, ?Z.eqb_eq in H; (split; [|try done; intros; lia]); try done.
  intros _. tauto.
Qed.

Lemma unknown_bytes_absent (vs : list (option pvalue)) i m : G !! i = Some m -> Forall2 (typed_member G) vs (m_fields m) ->
  has_unknown m = false -> unknown_bytes vs = [].
Proof using HG.
  intros Hm Hvs Hu. destruct (pb_env_ok_lookup i m Hm) as (_ & _ & Hf). unfold has_unknown, ids in Hu.
  destruct Hvs as [|ov f vs fs Hov Hvs]; [done|]. apply Forall_cons in Hf as [Hf _]. cbn in Hu. apply Z.eqb_neq in Hu.
  destruct ov as [[]|]; try done. exfalso. apply Hu. apply (field_ok_unknown i f Hf). cbn in Hov. by destruct (f_type f) as [[]| | | | | | | | |].
Qed.

Lemma init_unknown fuel (fs : list (field ptype)) :
  unknown_bytes (List.map (fun f => if opt_like f then None else Some (zero G fuel (f_type f))) fs) = [].
Proof using.
  destruct fs as [|f fs]; [done|]. cbn. destruct (opt_like f); [done|].
  destruct (f_type f) as [[]| | | | | | | | |]; try done; destruct fuel; try done; cbn; by destruct (G !! m).
Qed.

Definition width_ok (t : ptype) : bool := match t with PScalar s => scalar_ok s | _ => true end.

Lemma field_ok_width k f : field_ok G k f = true -> width_ok (f_type f) = true.
Proof using. unfold field_ok. rewrite !andb_true_iff. intros [[H _] _]. destruct (f_type f); try done. by apply andb_true_iff in H as [_ ?]. Qed.

Lemma zero_in_range sg w : 0 < w -> in_range sg w 0 = true.
Proof using.
  intros Hw. assert (0 < 2 ^ (w - 1)) by (apply Z.pow_pos_nonneg; lia). assert (0 < 2 ^ w) by (apply Z.pow_pos_nonneg; lia).
  unfold in_range. destruct sg; rewrite andb_true_iff, Z.leb_le, Z.ltb_lt; lia.
Qed.

Lemma pb_zero_typed fuel t : scoped G t = true -> complete fuel t = true -> width_ok t = true -> inner t = t ->
  typed G t (zero G fuel t) = true.
Proof using HG.
  revert t. induction fuel as [|fuel IH]; intros t Hs Hc Hw Hin; destruct t as [s| | | | |i|i|i| |]; try done;
    try (apply scalar_width in Hw; destruct s; try done; cbn [typed zero scalar_typed]; apply zero_in_range; lia); apply bool_decide_eq_true in Hc; try lia.
  cbn [scoped] in Hs. apply bool_decide_eq_true in Hs. destruct (lookup_lt_is_Some_2 G i Hs) as [m Hm].
  cbn [zero]. rewrite Hm, (pb_typed_message G i m) by done. split; [|by rewrite init_unknown].
  destruct (pb_env_ok_lookup i m Hm) as (_ & _ & Hf). induction Hf as [|f fs Hff Hf IHf]; [constructor|].
  constructor; [|done]. unfold typed_member. destruct (opt_like f) eqn:Eo; [done|].
  unfold opt_like in Eo. apply orb_false_iff in Eo as [_ Eo].
  assert (inner (f_type f) = f_type f) as E by (by destruct (f_type f)).
  pose proof (field_ok_width i f Hff). apply field_ok_inv in Hff as [Hfs Hfc]. rewrite E. apply IH; [done| |done|done].
  unfold complete in *. destruct (f_type f); try done. apply bool_decide_eq_true in Hfc.
  apply bool_decide_eq_true. lia.
Qed.

Lemma pb_scoped_complete t k : scoped G t = true -> (length G <= k)%nat -> complete k t = true.
Proof using.
  destruct t; try done. cbn. intros H%bool_decide_eq_true ?. apply bool_decide_eq_true. lia.
Qed.

Lemma pb_init_typed t : scoped G t = true -> width_ok t = true -> inner t = t -> typed G t (init G t) = true.
Proof using HG. intros Ht Hw Hin. apply pb_zero_typed; [done| |done|done]. apply pb_scoped_complete; [done|lia]. Qed.

Lemma elem_inner t : elem_ok t = true -> inner t = t /\ width_ok t = true.
Proof using. by destruct t. Qed.

(** ** Values *)
Definition reads (rd : reader) (depth : Z) : Prop := forall e p i m fs, G !! i = Some m -> bytes_ok p ->
  typed_members G m fs -> sound (typed_members G m) e p (rd e p depth m fs).

Lemma sound_skip_all fuel e p : bytes_ok p -> (length p < fuel)%nat -> sound (fun _ => True) e p (skip_all fuel e p).
Proof using.
  revert p. induction fuel as [|fuel IH]; intros p Hp Hf; [lia|]. cbn [skip_all]. destruct p as [|b p]; [by sound_step|].
  set (q := b :: p) in *. sound_step; [by apply pb_sound_varint|]. sound_step; [by sound_step|].
  sound_step; [apply sound_skip_value; eauto with tagged|]. apply IH; [eauto with tagged|].
  destruct (frames_varint e q v q0 Hp H1) as (k & Ek & Hk & _). apply suffix_zlen in H3.
  assert (zlen q = zlen k + zlen q0) by (by rewrite Ek, zlen_app). unfold zlen in *. lia.
Qed.

Lemma view_typed t e p : bytes_ok p -> t = PView \/ t = PBytes -> typed G t (VView (Bytes (e - zlen p) (zlen p) None 0) p) = true.
Proof using. intros Hp%all_bytes_ok [-> | ->]; cbn [typed b_size]; by rewrite Hp, Z.eqb_refl. Qed.

Lemma region_typed i e p : bytes_ok p -> typed G (PLazy i) (set_region e p) = true.
Proof using. intros Hp%all_bytes_ok. cbn [typed set_region b_size]. by rewrite Hp, Z.eqb_refl. Qed.

Lemma sound_read_len rd e p depth t out : (depth < max_tagged_depth -> reads rd (depth + 1)) ->
  elem_ok t = true -> packable t = false -> scoped G t = true -> typed G t out = true -> bytes_ok p ->
  sound (fun v => typed G t v = true) e p (read_len G rd e p depth t out).
Proof using.
  intros Hrd He Hpk Hs Hout Hp. destruct t as [s| | | | |i|i|i|el|]; try done; cbn [read_len].
  - sound_step. by apply all_bytes_ok.
  - sound_step. apply view_typed; auto.
  - sound_step. apply view_typed; auto.
  - sound_step; [apply sound_skip_all; [done|lia]|]. by sound_step.
  - destruct (Z.leb_spec max_tagged_depth depth); [by sound_step|].
    destruct (pb_typed_message_inv G i out Hout) as (m & vs & Hm & -> & Hvs). rewrite Hm.
    sound_step; [by apply (Hrd ltac:(lia) e p i)|]. sound_step. by apply (pb_typed_message G i m).
  - sound_step. by apply region_typed.
Qed.

Lemma sound_narrow {A B} (P : A -> Prop) (Q : B -> Prop) (g : A -> B) e n p r : 0 <= n <= zlen p ->
  sound P (e - zlen p + n) (ztake n p) r -> (forall v, P v -> Q (g v)) ->
  sound Q e p (let& (x, _) := r in Got (g x) (zdrop n p)).
Proof using.
  intros Hn Hr Hg. destruct r as [v q|f|]; cbn [dbind sound] in *; [|rewrite zlen_ztake in Hr by lia; lia|done].
  destruct Hr as [_ ?]. split; [apply suffix_zdrop|auto].
Qed.

Lemma sound_read_sub rd e n p depth t out : (depth < max_tagged_depth -> reads rd (depth + 1)) ->
  elem_ok t = true -> packable t = false -> scoped G t = true -> typed G t out = true -> bytes_ok p -> 0 <= n <= zlen p ->
  sound (fun v => typed G t v = true) e p (read_sub G rd e n p depth t out).
Proof using.
  intros. unfold read_sub. apply (sound_narrow (fun v => typed G t v = true) (fun v => typed G t v = true) (fun x => x)); [done| |done]. apply sound_read_len; try done. by apply bytes_ok_ztake.
Qed.

Lemma sound_length_sub what e p : bytes_ok p -> forall {A} (P : A -> Prop) k,
  (forall n q, 0 <= n <= zlen q -> q `suffix_of` p -> bytes_ok q -> sound P e q (k n q)) ->
  sound P e p (let& (n, q) := read_length what e p in k n q).
Proof using.
  intros Hp A P k Hk. eapply pb_sound_bind; [by apply sound_length|]. intros n q Hn Hq E. cbn beta in Hn.
  apply read_length_inv in E as [_ ?]. apply Hk; [lia|done|]. eauto with tagged.
Qed.

(** ** Repeated fields *)
Lemma forallb_snoc {A} (g : A -> bool) l x : forallb g l = true -> g x = true -> forallb g (l ++ [x]) = true.
Proof using. intros Hl Hx. rewrite forallb_app, Hl. cbn. by rewrite Hx. Qed.

Lemma typed_scalar s v : scalar_typed s v = true -> typed G (PScalar s) v = true.
Proof using. by destruct s, v. Qed.

Lemma sound_run fuel e key p s l : scalar_ok s = true -> 1 <= zlen key -> bytes_ok p -> (length p < fuel)%nat ->
  forallb (typed G (PScalar s)) l = true ->
  sound (fun l => forallb (typed G (PScalar s)) l = true) e p (read_run fuel e key p s l).
Proof using.
  intros Hs Hk. revert p l. induction fuel as [|fuel IH]; intros p l Hp Hf Hl; [lia|]. cbn [read_run].
  destruct (key_follows key p) eqn:Ek; [|by sound_step]. apply (pb_sound_suffix _ _ p (zdrop (zlen key) p)); [|apply suffix_zdrop].
  assert (zlen key < zlen p).
  { unfold key_follows in Ek. destruct (Z.eqb_spec (zlen key) 1); apply andb_true_iff in Ek as [Ek%Z.ltb_lt _]; lia. }
  assert (bytes_ok (zdrop (zlen key) p)) by eauto with tagged.
  sound_step; [by apply sound_scalar|]. apply IH; [eauto with tagged| |by apply forallb_snoc; [|apply typed_scalar]].
  apply suffix_zlen in H2. rewrite zlen_zdrop in H2 by lia. unfold zlen in *. lia.
Qed.

Lemma sound_packed fuel e p s l : scalar_ok s = true -> bytes_ok p -> (length p < fuel)%nat ->
  forallb (typed G (PScalar s)) l = true ->
  sound (fun l => forallb (typed G (PScalar s)) l = true) e p (read_packed fuel e p s l).
Proof using.
  intros Hs. revert p l. induction fuel as [|fuel IH]; intros p l Hp Hf Hl; [lia|]. cbn [read_packed].
  destruct p as [|b p]; [by sound_step|]. set (q := b :: p) in *. sound_step; [by apply sound_scalar|].
  apply IH; [eauto with tagged| |by apply forallb_snoc; [|apply typed_scalar]].
  destruct (frames_scalar s Hs e q v q0 Hp H1) as (k & Ek & Hk & _).
  assert (zlen q = zlen k + zlen q0) by (by rewrite Ek, zlen_app). unfold zlen in *. lia.
Qed.

(** What one occurrence of a field leaves. *)
Definition field_read (f : field ptype) (wt : Z) (r : option pvalue * bool) : Prop :=
  typed_member G (fst r) f /\ snd r = matches (f_type f) wt.

Lemma sound_other e p wt v f : bytes_ok p -> typed_member G v f -> matches (f_type f) wt = false ->
  sound (field_read f wt) e p (read_other e p wt v).
Proof using. intros Hp Hv Hm. unfold read_other. sound_step; [by apply sound_skip_value|]. sound_step. done. Qed.

Lemma sound_repeated rd e tag_at p wt depth el l f : (depth < max_tagged_depth -> reads rd (depth + 1)) ->
  f_type f = PVector el -> elem_ok el = true -> scoped G el = true -> forallb (typed G el) l = true ->
  bytes_ok tag_at -> p `suffix_of` tag_at -> zlen p < zlen tag_at ->
  sound (field_read f wt) e p (read_repeated G rd e tag_at p wt depth el l).
Proof using HG.
  intros Hrd Ht He Hs Hl Htag Hsuf Hlen. assert (bytes_ok p) as Hp by eauto with tagged. destruct (elem_inner el He) as [Hin Hw].
  assert (forall l, forallb (typed G el) l = true -> typed_member G (Some (VVec l)) f) as Htm.
  { intros l' Hl'. unfold typed_member. by rewrite Ht. }
  unfold read_repeated. cbv zeta. destruct (_ && _) eqn:Em.
  - apply andb_true_iff in Em as [Ew _]. assert (matches (f_type f) wt = true) as Hmt by (rewrite Ht; cbn [matches]; by rewrite Ew).
    destruct el as [s| | | | |i|i|i|el'|]; try done;
      try (apply sound_length_sub; [done|]; intros n q Hn Hq Hbq; sound_step;
        [apply sound_read_sub; try done; apply pb_init_typed; done|]; sound_step; split; [|done]; apply Htm; by apply forallb_snoc).
    assert (zlen (ztake (zlen tag_at - zlen p) tag_at) = zlen tag_at - zlen p) as Hkey.
    { pose proof (zlen_nonneg p). rewrite zlen_ztake by lia. lia. }
    sound_step; [by apply sound_scalar|]. sound_step; [apply sound_run; [done|lia|eauto with tagged|lia|]|].
    + by apply forallb_snoc; [|apply typed_scalar].
    + sound_step. split; [by apply Htm|done].
  - destruct el as [s| | | | |i|i|i|el'|]; try done;
      try (apply sound_other; [done|by apply Htm|]; rewrite Ht; cbn [matches wire_of packable andb negb orb] in *; by rewrite andb_true_r in Em; rewrite Em).
    destruct (Z.eqb_spec wt wire_len) as [->|Hne].
    + apply sound_length_sub; [done|]. intros n q Hn Hq Hbq. sound_step; [by sound_step|].
      eapply (sound_narrow (fun l => forallb (typed G (PScalar s)) l = true) _ (fun l => (Some (VVec l), true))); [done| |].
      * apply sound_packed; [done|by apply bytes_ok_ztake|lia|done].
      * intros l' Hl'. split; [by apply Htm|]. rewrite Ht. cbn [matches packable]. by rewrite Z.eqb_refl, orb_true_r.
    + apply sound_other; [done|by apply Htm|]. rewrite Ht. cbn [matches packable andb]. apply orb_false_iff.
      split; [|by apply Z.eqb_neq]. destruct (Z.eqb_spec wt (wire_of (PScalar s))) as [->|]; [|done]. cbn [andb] in Em.
      apply negb_false_iff, andb_true_iff in Em as [Em%Z.eqb_eq _]. congruence.
Qed.

(** ** Fields *)
Lemma field_ok_elem k f : field_ok G k f = true ->
  match f_type f with PUnknown => True | PVector e => elem_ok e = true | t => elem_ok (inner t) = true end.
Proof using.
  unfold field_ok. rewrite !andb_true_iff. intros [[H _] _]. destruct (f_type f); try done; apply andb_true_iff in H as [_ H]; done.
Qed.

Lemma read_field_eq rd e tag_at p wt depth f v :
  match f_type f with PVector _ | PUnknown => False | _ => True end ->
  read_field G rd depth e tag_at p wt f v =
  let t := inner (f_type f) in
  if negb (wt =? wire_of t) then read_other e p wt v
  else match t with
       | PScalar s => let& (x, p) := read_scalar e p s in Got (Some x, true) p
       | _ =>
           let& (n, p) := read_length "a length-delimited field that fits the message" e p in
           if match t with PLazy _ => negb (f_opt f) && match v with Some x => lazy_has_value x | None => false end | _ => false end
           then fail "a lazily decoded message field that occurs once" e p
           else let& (x, p) := read_sub G rd e n p depth t (default (init G t) v) in Got (Some x, true) p
       end.
Proof using.
  intros Ht. unfold read_field. destruct (f_type f) as [s| | | | |i|i|i|el|]; try done; cbn [inner wire_of]; cbv zeta.
  destruct (f_opt f); cbn [negb andb]; [done|]. destruct (negb (wt =? wire_len)); [done|].
  destruct (read_length _ e p); reflexivity.
Qed.

Lemma sound_single rd e tag_at p wt depth f v : (depth < max_tagged_depth -> reads rd (depth + 1)) ->
  match f_type f with PVector _ | PUnknown => False | _ => True end ->
  elem_ok (inner (f_type f)) = true -> scoped G (inner (f_type f)) = true -> typed_member G v f -> bytes_ok p ->
  sound (field_read f wt) e p (read_field G rd depth e tag_at p wt f v).
Proof using HG.
  intros Hrd Ht He Hs Hv Hp. rewrite read_field_eq by done. cbv zeta. destruct (elem_inner _ He) as [Hin Hw].
  assert (matches (f_type f) wt = (wt =? wire_of (inner (f_type f)))) as Hm by (by destruct (f_type f)).
  assert (typed G (inner (f_type f)) (default (init G (inner (f_type f))) v) = true) as Hd.
  { destruct v as [v|]; [exact Hv|by apply pb_init_typed]. }
  assert (forall x, typed G (inner (f_type f)) x = true -> wt =? wire_of (inner (f_type f)) = true -> field_read f wt (Some x, true)) as Hx.
  { intros x ? E. split; [done|]. by rewrite Hm, E. }
  destruct (wt =? wire_of (inner (f_type f))) eqn:Ew; cbn [negb]; [|by apply sound_other].
  destruct (inner (f_type f)) as [s| | | | |i|i|i|el|] eqn:Et; try done.
  1: { sound_step; [by apply sound_scalar|]. sound_step. apply Hx; [by apply typed_scalar|done]. }
  all: apply sound_length_sub; [done|]; intros n q Hn Hq Hbq; try (sound_step; [by sound_step|]);
    (sound_step; [by apply sound_read_sub|sound_step; by apply Hx]).
Qed.

Lemma vector_present k f v el : field_ok G k f = true -> typed_member G v f -> f_type f = PVector el ->
  exists l, v = Some (VVec l) /\ forallb (typed G el) l = true.
Proof using.
  intros Hf Hv Et. unfold typed_member, field_ok, opt_like in *. rewrite Et in *. cbn [inner] in Hv.
  rewrite !andb_true_iff, negb_true_iff in Hf. destruct Hf as [[[[_ Ho] _] _] _]. rewrite Ho in Hv.
  destruct v as [[| | | | | |l| | | |]|]; try done. by exists l.
Qed.

Lemma sound_field rd e tag_at p wt depth k f v : (depth < max_tagged_depth -> reads rd (depth + 1)) ->
  field_ok G k f = true -> typed_member G v f -> bytes_ok tag_at -> p `suffix_of` tag_at -> zlen p < zlen tag_at ->
  sound (field_read f wt) e p (read_field G rd depth e tag_at p wt f v).
Proof using HG.
  intros Hrd Hf Hv Htag Hsuf Hlen. assert (bytes_ok p) as Hp by eauto with tagged.
  pose proof (field_ok_elem k f Hf) as He. destruct (field_ok_inv k f Hf) as [Hs _].
  destruct (f_type f) as [s| | | | |i|i|i|el|] eqn:Et; try (apply sound_single; rewrite ?Et; done).
  - destruct (vector_present k f v el Hf Hv Et) as (l & -> & Hl). unfold read_field. rewrite Et. by apply sound_repeated.
  - unfold read_field. rewrite Et. apply sound_other; [done|done|]. by rewrite Et.
Qed.

(** ** Records *)
Lemma unknown_head i m fs : G !! i = Some m -> Forall2 (typed_member G) fs (m_fields m) -> has_unknown m = true ->
  exists s fs', fs = Some (VUnknown s) :: fs' /\ bytes_ok s.
Proof using HG.
  intros Hm Hfs Hu. destruct (pb_env_ok_lookup i m Hm) as (_ & _ & Hf). unfold has_unknown, ids in Hu.
  destruct Hfs as [|ov f vs fs Hov Hvs]; [done|]. apply Forall_cons in Hf as [Hf _]. cbn in Hu. apply Z.eqb_eq in Hu.
  apply (field_ok_unknown i f Hf) in Hu. unfold typed_member, opt_like, field_ok in *. rewrite Hu in *.
  rewrite !andb_true_iff, negb_true_iff in Hf. destruct Hf as [[[[_ Ho] _] _] _]. rewrite Ho in Hov.
  destruct ov as [[| | | | | | | | |s|]|]; try done. exists s, vs. split; [done|]. by apply all_bytes_ok.
Qed.

(** A record that was skipped is kept. *)
Lemma kept_typed i m fs e tag_at key p : G !! i = Some m -> bytes_ok tag_at -> typed_members G m fs ->
  read_raw e tag_at = Got key p -> unmatched m (Z.shiftr key 3) (Z.land key 7) = true ->
  exists fs', kept m fs tag_at p = Some fs' /\ typed_members G m fs'.
Proof using HG.
  intros Hm Htag [Hfs Hu] Er Hun. unfold kept. destruct (has_unknown m) eqn:Ehu; [|by exists fs].
  destruct (unknown_head i m fs Hm Hfs Ehu) as (s & fs' & -> & Hbs). cbn [keep_unknown].
  eexists. split; [done|]. split.
  - apply Forall2_cons_inv_l in Hfs as (f & l & Hsf & Hl & E). rewrite E. constructor; [|done].
    unfold typed_member in *. destruct (frames_raw e tag_at key p Htag Er) as (r & -> & _ & _).
    rewrite zlen_app, ztake_app by lia. apply Forall_app in Htag as [Hr _].
    destruct (inner (f_type f)) as [[]| | | | | | | | |]; try done. apply all_bytes_ok. by apply Forall_app.
  - cbn [unknown_bytes]. by eapply unknown_ok_app.
Qed.

Lemma insert_typed i m fs slot f x : G !! i = Some m -> typed_members G m fs -> zget (m_fields m) slot = Some f -> f_id f <> 0 ->
  typed_member G x f -> typed_members G m (<[Z.to_nat slot := x]> fs).
Proof using HG.
  intros Hm [Hfs Hu] Hslot Hid Hx. assert (Forall2 (typed_member G) (<[Z.to_nat slot := x]> fs) (m_fields m)) as H2.
  { rewrite <- (list_insert_id (m_fields m) (Z.to_nat slot) f); [by apply Forall2_insert|].
    unfold zget in Hslot. by destruct (slot <? 0). }
  split; [done|]. destruct (has_unknown m) eqn:Ehu; [|by rewrite (unknown_bytes_absent _ i m)].
  destruct (unknown_head i m fs Hm Hfs Ehu) as (s & fs' & -> & Hbs). destruct (Z.to_nat slot) as [|n] eqn:En; [|done].
  exfalso. apply Hid. pose proof (zget_Some_range _ _ _ Hslot). assert (slot = 0) as -> by lia.
  unfold has_unknown, ids in Ehu. destruct (m_fields m); [done|]. injection Hslot as ->. cbn in Ehu. by apply Z.eqb_eq.
Qed.

Lemma shiftr3_range v : 0 <= v < 2 ^ 64 -> 0 <= Z.shiftr v 3.
Proof using. intros. rewrite Z.shiftr_nonneg. lia. Qed.

Lemma field_slot_cases i m id fs : G !! i = Some m -> Forall2 (typed_member G) fs (m_fields m) ->
  field_slot m id = no_slot \/
  exists f v, zget (m_fields m) (field_slot m id) = Some f /\ zget fs (field_slot m id) = Some v /\ f_id f = id /\
    0 <= field_slot m id < 64 /\ typed_member G v f /\ field_ok G i f = true.
Proof using HG.
  intros Hm H2. destruct (pb_env_ok_lookup i m Hm) as (Hok & _ & Hfok). unfold field_slot. destruct (_ <? _); [by left|].
  destruct (slot_of_cases m Hok id) as [[_ ?]|(f & Hf & Hid & Hr)]; [by left|]. right. pose proof Hf as Hf'.
  unfold zget in Hf. destruct (Z.ltb_spec (slot_of m id) 0); [lia|]. eapply Forall2_lookup_r in H2 as (v & Hv & ?); [|exact Hf].
  exists f, v. unfold zget at 2. destruct (Z.ltb_spec (slot_of m id) 0); [lia|]. split_and!; try done; try lia.
  rewrite Forall_forall in Hfok. apply Hfok. by eapply list_elem_of_lookup_2.
Qed.

Lemma read_field_unmatched rd e tag_at p wt depth k f v : field_ok G k f = true -> typed_member G v f ->
  matches (f_type f) wt = false -> read_field G rd depth e tag_at p wt f v = read_other e p wt v.
Proof using.
  intros Hf Hv Hm. destruct (f_type f) as [s| | | | |i|i|i|el|] eqn:Et;
    try (rewrite read_field_eq by (by rewrite Et); rewrite Et; cbv zeta; cbn [inner matches] in *; by rewrite Hm).
  - destruct (vector_present k f v el Hf Hv Et) as (l & -> & _). unfold read_field, read_repeated. rewrite Et. cbv zeta.
    cbn [matches] in Hm. apply orb_false_iff in Hm as [-> Hm]. cbn [andb]. destruct el; try done. cbn [packable andb] in Hm. by rewrite Hm.
  - unfold read_field. by rewrite Et.
Qed.

Lemma sound_kept i m e tag_at key p q seen fs : G !! i = Some m -> bytes_ok tag_at -> read_varint e tag_at = Got key p ->
  skip_value e p (Z.land key 7) = Got tt q -> unmatched m (Z.shiftr key 3) (Z.land key 7) = true -> typed_members G m fs ->
  sound (fun r : Z * list (option pvalue) => typed_members G m (snd r)) e tag_at
    (match kept m fs tag_at q with Some fs => Got (seen, fs) q | None => Broken UB end).
Proof using HG.
  intros Hm Htag Ek Eq Hun Hfs. assert (read_raw e tag_at = Got key q) as Er by (unfold read_raw; rewrite Ek; cbn [dbind]; by rewrite Eq).
  destruct (kept_typed i m fs e tag_at key q Hm Htag Hfs Er Hun) as (fs2 & -> & Hfs2). apply pb_sound_got; [|done].
  destruct (frames_raw e tag_at key q Htag Er) as (r & -> & _). by exists r.
Qed.

Lemma sound_record rd i m e tag_at depth seen fs : (depth < max_tagged_depth -> reads rd (depth + 1)) ->
  G !! i = Some m -> bytes_ok tag_at -> typed_members G m fs ->
  sound (fun r => typed_members G m (snd r)) e tag_at (read_record (read_field G rd depth) m e tag_at seen fs).
Proof using HG.
  intros Hrd Hm Htag Hfs. unfold read_record.
  destruct (read_varint e tag_at) as [key p| |] eqn:Ek; [|pose proof (pb_sound_varint e tag_at Htag) as H; by rewrite Ek in H..].
  cbn [dbind]. cbv zeta. pose proof (shiftr3_range key (varint_nonneg e tag_at key p Htag Ek)) as Hid.
  destruct (frames_varint e tag_at key p Htag Ek) as (kb & Etag & Hkb & _).
  assert (p `suffix_of` tag_at) as Hsuf by (by exists kb). assert (bytes_ok p) as Hp by eauto with tagged.
  assert (zlen p < zlen tag_at) as Hlen by (rewrite Etag, zlen_app; lia).
  destruct ((Z.shiftr key 3 =? 0) || (536870911 <? Z.shiftr key 3)) eqn:Erange; [by sound_step|].
  apply orb_false_iff in Erange as [E0%Z.eqb_neq E29%Z.ltb_ge]. fold (field_slot m (Z.shiftr key 3)).
  assert (Hrange : (1 <=? Z.shiftr key 3) && (Z.shiftr key 3 <=? 536870911) = true) by (rewrite andb_true_iff, !Z.leb_le; lia).
  destruct (Z.eqb_spec (field_slot m (Z.shiftr key 3)) no_slot) as [Eno|Hno].
  - pose proof (sound_skip_value e p (Z.land key 7) Hp) as Hs. destruct (skip_value e p (Z.land key 7)) as [[] q| |] eqn:Eq; cbn [dbind];
      [|by eapply pb_sound_suffix in Hs|done].
    eapply sound_kept; try done. unfold unmatched. by rewrite Hrange, Eno.
  - destruct (field_slot_cases i m (Z.shiftr key 3) fs Hm (proj1 Hfs)) as [?|(f & v & Hf & Hv & Hfid & Hslot & Htv & Hff)]; [done|].
    rewrite Hf, Hv. pose proof (sound_field rd e tag_at p (Z.land key 7) depth i f v Hrd Hff Htv Htag Hsuf Hlen) as Hr.
    destruct (read_field G rd depth e tag_at p (Z.land key 7) f v) as [[x mt] q| |] eqn:Er; cbn [dbind fst snd] in *;
      [|by eapply pb_sound_suffix in Hr|done].
    destruct Hr as [Hq [Hx Hmt]]. cbn [fst snd] in *.
    assert (typed_members G m (<[Z.to_nat (field_slot m (Z.shiftr key 3)):=x]> fs)) as Hins by (eapply insert_typed; try done; lia).
    destruct mt; [apply pb_sound_got; [by etrans|done]|]. rewrite andb_false_r. symmetry in Hmt.
    rewrite (read_field_unmatched _ _ _ _ _ _ i) in Er by done. unfold read_other in Er.
    destruct (skip_value e p (Z.land key 7)) as [[] r| |] eqn:Eq; cbn [dbind] in Er; [|done|done]. injection Er as <- <-.
    eapply sound_kept; try done. unfold unmatched. rewrite Hrange, Hf, Hmt. cbn. by rewrite orb_true_r.
Qed.

(** Every record takes at least one byte. *)
Lemma record_shrinks rd i m e tag_at depth seen fs r q : (depth < max_tagged_depth -> reads rd (depth + 1)) ->
  G !! i = Some m -> bytes_ok tag_at -> typed_members G m fs ->
  read_record (read_field G rd depth) m e tag_at seen fs = Got r q -> zlen q < zlen tag_at.
Proof using HG.
  intros Hrd Hm Htag Hfs. unfold read_record. destruct (read_varint e tag_at) as [key p| |] eqn:Ek; [|done|done]. cbn [dbind]. cbv zeta.
  destruct (frames_varint e tag_at key p Htag Ek) as (kb & Etag & Hkb & _).
  assert (p `suffix_of` tag_at) as Hsuf by (by exists kb). assert (bytes_ok p) as Hp by eauto with tagged.
  assert (zlen p < zlen tag_at) as Hlen by (rewrite Etag, zlen_app; lia).
  assert (forall s : list Z, s `suffix_of` p -> zlen s < zlen tag_at) as Hs by (intros s Hs%suffix_zlen; lia).
  destruct (_ || _); [done|]. fold (field_slot m (Z.shiftr key 3)). destruct (Z.eqb_spec (field_slot m (Z.shiftr key 3)) no_slot).
  - pose proof (sound_skip_value e p (Z.land key 7) Hp) as Hk. destruct (skip_value e p (Z.land key 7)) as [[] s| |]; cbn [dbind]; [|done|done].
    destruct (kept _ _ _ _); [|done]. intros [= _ <-]. apply Hs, Hk.
  - destruct (field_slot_cases i m (Z.shiftr key 3) fs Hm (proj1 Hfs)) as [?|(f & v & Hf & Hv & Hfid & Hslot & Htv & Hff)]; [done|].
    rewrite Hf, Hv. pose proof (sound_field rd e tag_at p (Z.land key 7) depth i f v Hrd Hff Htv Htag Hsuf Hlen) as Hr.
    destruct (read_field G rd depth e tag_at p (Z.land key 7) f v) as [[x mt] s| |]; cbn [dbind fst snd]; [|done|done].
    destruct mt; [intros [= _ <-]; apply Hs, Hr|]. destruct (kept _ _ _ _); [|done]. intros [= _ <-]. apply Hs, Hr.
Qed.

Lemma sound_records rd i m e depth fuel : (depth < max_tagged_depth -> reads rd (depth + 1)) -> G !! i = Some m ->
  forall p seen fs, bytes_ok p -> (length p < fuel)%nat -> typed_members G m fs ->
  sound (typed_members G m) e p (read_records fuel (read_field G rd depth) m e p seen fs).
Proof using HG.
  intros Hrd Hm. induction fuel as [|fuel IH]; intros p seen fs Hp Hf Hfs; [lia|]. cbn [read_records].
  destruct p as [|b p]; [by repeat sound_step|]. set (q := b :: p) in *.
  eapply pb_sound_bind; [by eapply sound_record|]. intros [seen' fs'] r Hr Hsuf E. cbn [fst snd] in *. apply IH; [eauto with tagged| |done].
  eapply record_shrinks in E; try done. unfold zlen in E. lia.
Qed.

(** Fuel that outlasts the nesting the depth limit leaves at [depth]. *)
Definition enough (n : nat) (depth : Z) : Prop := max_tagged_depth + 1 - depth <= Z.of_nat n /\ (1 <= n)%nat.

Lemma pb_enough_S n depth : enough (S n) depth -> depth < max_tagged_depth -> enough n (depth + 1).
Proof using. unfold enough. lia. Qed.

Lemma pb_enough_decode_fuel depth : 0 <= depth -> enough decode_fuel depth.
Proof using. unfold enough, decode_fuel, max_tagged_depth. lia. Qed.

Lemma sound_message n depth : enough n depth -> reads (read_message G n) depth.
Proof using HG.
  revert depth. induction n as [|n IH]; intros depth Hn e p i m fs Hm Hp Hfs; [destruct Hn; lia|]. cbn [read_message].
  eapply sound_records; [|done|done|lia|done]. intros Hd. apply IH. by apply pb_enough_S.
Qed.

(** ** Entry points *)
Lemma init_members k m : G !! k = Some m -> exists fs, init G (PMessage k) = VMsg fs /\ typed_members G m fs.
Proof using HG.
  intros Hm. pose proof (pb_init_typed (PMessage k)) as H. cbn [scoped width_ok inner] in H.
  assert (bool_decide (k < length G)%nat = true) as Hk by (apply bool_decide_eq_true; by eapply lookup_lt_Some).
  specialize (H Hk eq_refl eq_refl). destruct (pb_typed_message_inv G k _ H) as (m' & fs & Hm' & E & Hfs).
  rewrite Hm in Hm'. injection Hm' as <-. eauto.
Qed.

Lemma decode_bytes_cases k m i p fs : G !! k = Some m -> bytes_ok p -> typed_members G m fs ->
  (exists vs, decode_bytes G k i p (VMsg fs) = Some (inl (VMsg vs, size i)) /\ typed_members G m vs) \/
  (exists f, decode_bytes G k i p (VMsg fs) = Some (inr (to_error i f)) /\ i_last i - zlen p <= f_at f <= i_last i).
Proof using HG.
  intros Hm Hp Hfs. unfold decode_bytes. rewrite Hm.
  pose proof (sound_message decode_fuel 0 (pb_enough_decode_fuel 0 ltac:(lia)) (i_last i) p k m fs Hm Hp Hfs) as Hs.
  destruct (read_message G decode_fuel (i_last i) p 0 m fs) as [vs q|f|] eqn:E; [|by right; exists f|done].
  left. exists vs. split; [done|apply Hs].
Qed.

End Env.
