(* ===== verification/ProtobufMerge.v ===== *)
(** * Protobuf messages are sequences of records

    The reference reading of a message, one record at a time, in which a
    repeated scalar takes one value per record; [read_field]'s runs are an
    optimisation of it ([runs_exact]). Reading the concatenation of two
    encodings is reading the second into what the first left
    ([records_concat]). *)
From S2P Require Import Prelude Parser BytesParsers Combinators CombinatorFacts Numbers Messages Emit Staging Protobuf ProtobufEncode ProtobufTypes ProtobufSafe.

(** ** The reference *)
Definition read_field_one (G : list (message ptype)) (rd : reader) (depth : Z) : field_reader := fun e tag_at p wt f v =>
  match f_type f, v with
  | PVector (PScalar s), Some (VVec l) =>
      if wt =? scalar_wire s then let& (x, p) := read_scalar e p s in Got (Some (VVec (l ++ [x])), true) p
      else read_field G rd depth e tag_at p wt f v
  | _, _ => read_field G rd depth e tag_at p wt f v
  end.

Fixpoint read_message_one (G : list (message ptype)) (fuel : nat) : reader := fun e p depth m fs =>
  match fuel with
  | O => Broken NoFuel
  | S fuel => read_records (S (length p)) (read_field_one G (read_message_one G fuel) depth) m e p 0 fs
  end.

(** ** Consumption *)
Definition consumes {A} (p : list Z) (r : dec A) : Prop := match r with Got _ q => q `suffix_of` p | _ => True end.

Lemma consumes_bind {A B} p (r : dec A) (k : A -> list Z -> dec B) :
  consumes p r -> (forall v q, r = Got v q -> q `suffix_of` p -> consumes q (k v q)) -> consumes p (dbind r k).
Proof.
  destruct r as [v q| |]; cbn; [|done|done]. intros Hq Hk. specialize (Hk v q eq_refl Hq).
  destruct (k v q); cbn in *; [by etrans|done|done].
Qed.

Lemma consumes_frames {A} c (d : Z -> list Z -> dec A) e p : frames c d -> bytes_ok p -> consumes p (d e p).
Proof. intros Hd Hp. destruct (d e p) as [v q| |] eqn:E; [|done|done]. destruct (Hd e p v q Hp E) as (k & -> & _). by exists k. Qed.

Lemma consumes_got {A} p (v : A) : consumes p (Got v p).
Proof. cbn. reflexivity. Qed.

Lemma consumes_length what e p : bytes_ok p -> consumes p (read_length what e p).
Proof.
  intros Hp. unfold read_length. apply consumes_bind; [apply (consumes_frames 1); [apply frames_varint|done]|].
  intros v q _ _. destruct (_ <? _); [done|apply consumes_got].
Qed.

(** The rest is a suffix, whatever is made of the value. *)
Lemma consumes_drop {A B} p q n (r : dec A) (g : A -> B) : q `suffix_of` p -> consumes p (let& (x, _) := r in Got (g x) (zdrop n q)).
Proof. intros Hq. destruct r; cbn; [|done|done]. etrans; [apply suffix_zdrop|done]. Qed.

Section Consumes.
Context (G : list (message ptype)) (rd : reader).

Lemma consumes_scalar e p s : scalar_ok s = true -> bytes_ok p -> consumes p (read_scalar e p s).
Proof using. intros Hs Hp. apply (consumes_frames 1 (fun e p => read_scalar e p s)); [by apply frames_scalar|done]. Qed.

Lemma consumes_run fuel e key p s l : scalar_ok s = true -> bytes_ok p -> consumes p (read_run fuel e key p s l).
Proof using.
  intros Hs. revert p l. induction fuel as [|fuel IH]; intros p l Hp; [done|]. cbn [read_run]. destruct (key_follows key p); [|apply consumes_got].
  assert (consumes (zdrop (zlen key) p) (let& (x, p) := read_scalar e (zdrop (zlen key) p) s in read_run fuel e key p s (l ++ [x]))) as H.
  - assert (bytes_ok (zdrop (zlen key) p)) by eauto with tagged. apply consumes_bind; [by apply consumes_scalar|].
    intros v q _ Hq. apply IH. eauto with tagged.
  - destruct (dbind _ _); cbn in *; [|done|done]. etrans; [exact H|apply suffix_zdrop].
Qed.

Lemma consumes_other e p wt v : bytes_ok p -> consumes p (read_other e p wt v).
Proof using.
  intros Hp. unfold read_other. apply consumes_bind; [apply (consumes_frames 1 (fun e p => skip_value e p wt)); [apply frames_skip_value|done]|].
  intros. apply consumes_got.
Qed.

Lemma consumes_sub what e p (k : Z -> list Z -> dec (option pvalue * bool)) : bytes_ok p ->
  (forall n q, bytes_ok q -> consumes q (k n q)) -> consumes p (let& (n, q) := read_length what e p in k n q).
Proof using. intros Hp Hk. apply consumes_bind; [by apply consumes_length|]. intros n q _ Hq. apply Hk. eauto with tagged. Qed.

Lemma consumes_read_sub {B} e n p depth t out (g : pvalue -> B) : consumes p (let& (x, p) := read_sub G rd e n p depth t out in Got (g x) p).
Proof using. unfold read_sub. destruct (read_len _ _ _ _ _ _ _); cbn; [apply suffix_zdrop|done|done]. Qed.

Lemma consumes_field depth k e tag_at p wt f v : field_ok G k f = true -> bytes_ok p ->
  consumes p (read_field G rd depth e tag_at p wt f v).
Proof using.
  intros Hf Hp. pose proof (field_ok_elem G k f Hf) as He. destruct (f_type f) as [s| | | | |i|i|i|el|] eqn:Et.
  9: { unfold read_field. rewrite Et. destruct v as [[| | | | | |l| | | |]|]; try done. unfold read_repeated. cbv zeta. destruct (_ && _).
    - destruct el as [s| | | | |i|i|i|el'|]; try (apply consumes_sub; [done|]; intros; apply consumes_read_sub).
      apply consumes_bind; [by apply consumes_scalar|]. intros x q _ Hq. apply consumes_bind; [apply consumes_run; [done|eauto with tagged]|].
      intros. apply consumes_got.
    - destruct el as [s| | | | |i|i|i|el'|]; try (by apply consumes_other). destruct (_ =? _); [|by apply consumes_other].
      apply consumes_sub; [done|]. intros n q Hq. destruct (_ && _); [done|]. by apply consumes_drop. }
  9: { unfold read_field. rewrite Et. by apply consumes_other. }
  all: rewrite read_field_eq by (by rewrite Et); rewrite Et; cbv zeta; cbn [inner] in *;
    (destruct (negb _); [by apply consumes_other|]).
  1: { apply consumes_bind; [by apply consumes_scalar|]. intros. apply consumes_got. }
  all: apply consumes_sub; [done|]; intros n q Hq; try (destruct (_ && _); [done|]); apply consumes_read_sub.
Qed.

Lemma consumes_field_one depth k e tag_at p wt f v : field_ok G k f = true -> bytes_ok p ->
  consumes p (read_field_one G rd depth e tag_at p wt f v).
Proof using.
  intros Hf Hp. pose proof (field_ok_elem G k f Hf) as He. unfold read_field_one.
  destruct (f_type f) as [s| | | | |i|i|i|[s| | | | |i|i|i|el|]|] eqn:Et; try (by eapply consumes_field).
  destruct v as [[| | | | | |l| | | |]|]; try (by eapply consumes_field). destruct (_ =? _); [|by eapply consumes_field].
  apply consumes_bind; [by apply consumes_scalar|]. intros. apply consumes_got.
Qed.
End Consumes.

(** ** Fuel *)
Section Fuel.
Context (m : message ptype) (rf : field_reader).
(** The readers of the message's fields consume what they read. *)
Context (Hrf : forall e tag_at p wt f v, f ∈ m_fields m -> bytes_ok p -> consumes p (rf e tag_at p wt f v)).

Lemma record_consumes e p seen fs r q : bytes_ok p -> read_record rf m e p seen fs = Got r q -> q `suffix_of` p /\ zlen q < zlen p.
Proof using Hrf.
  intros Hp. unfold read_record. destruct (read_varint e p) as [key p'| |] eqn:Ek; [|done|done]. cbn [dbind]. cbv zeta.
  destruct (frames_varint e p key p' Hp Ek) as (kb & -> & Hkb & _). pose proof Hp as [_ Hp']%Forall_app.
  assert (forall s, s `suffix_of` p' -> s `suffix_of` kb ++ p' /\ zlen s < zlen (kb ++ p')) as Hs.
  { intros s Hs. split; [by apply suffix_app_r|]. apply suffix_zlen in Hs. rewrite zlen_app. lia. }
  destruct (_ || _); [done|]. destruct (_ =? no_slot).
  - pose proof (consumes_frames 1 (fun e p => skip_value e p (Z.land key 7)) e p' (frames_skip_value _) Hp') as Hc.
    destruct (skip_value e p' (Z.land key 7)) as [[] s| |]; cbn [dbind]; [|done|done]. destruct (kept _ _ _ _); [|done]. intros [= _ <-]. by apply Hs.
  - destruct (zget (m_fields m) _) as [f|] eqn:Ef; [|done]. destruct (zget fs _) as [v|]; [|done].
    assert (f ∈ m_fields m) as Hf by (unfold zget in Ef; destruct (_ <? 0); [done|]; by eapply list_elem_of_lookup_2).
    pose proof (Hrf e (kb ++ p') p' (Z.land key 7) f v Hf Hp') as Hc. destruct (rf _ _ _ _ _ _) as [[x mt] s| |]; cbn [dbind fst snd]; [|done|done].
    destruct mt; [intros [= _ <-]; by apply Hs|]. destruct (kept _ _ _ _); [|done]. intros [= _ <-]. by apply Hs.
Qed.

Lemma records_fuel n n' e p seen fs : bytes_ok p -> (length p < n)%nat -> (length p < n')%nat ->
  read_records n rf m e p seen fs = read_records n' rf m e p seen fs.
Proof using Hrf.
  revert n' p seen fs. induction n as [|n IH]; intros n' p seen fs Hp Hn Hn'; [lia|]. destruct n' as [|n']; [lia|]. cbn [read_records].
  destruct p as [|b p]; [done|]. destruct (read_record rf m e (b :: p) seen fs) as [r q| |] eqn:E; cbn [dbind]; [|done|done].
  destruct (record_consumes _ _ _ _ _ _ Hp E) as [Hs Hl]. unfold zlen in Hl. apply IH; [eauto with tagged|lia|lia].
Qed.
End Fuel.

(** ** Readers that agree *)
Section Agree.
Context (G : list (message ptype)).

Definition same_reads (rd rd' : reader) (depth : Z) : Prop := forall e p i m fs, G !! i = Some m -> bytes_ok p ->
  typed_members G m fs -> rd e p depth m fs = rd' e p depth m fs.

Context (rd rd' : reader) (depth : Z) (Hsame : depth < max_tagged_depth -> same_reads rd rd' (depth + 1)).

Lemma read_len_same e p t out : bytes_ok p -> typed G t out = true ->
  read_len G rd e p depth t out = read_len G rd' e p depth t out.
Proof using Hsame.
  intros Hp Ht. destruct t as [s| | | | |i|i|i|el|]; try done. cbn [read_len]. destruct (Z.leb_spec max_tagged_depth depth); [done|].
  destruct (pb_typed_message_inv G i out Ht) as (m & vs & Hm & -> & Hvs). rewrite Hm. by rewrite (Hsame ltac:(lia) e p i m vs).
Qed.

Lemma read_sub_same e n p t out : bytes_ok p -> typed G t out = true ->
  read_sub G rd e n p depth t out = read_sub G rd' e n p depth t out.
Proof using Hsame. intros Hp Ht. unfold read_sub. rewrite read_len_same; [done|by apply bytes_ok_ztake|done]. Qed.

Lemma length_same {B} what e p (k k' : Z -> list Z -> dec B) : bytes_ok p ->
  (forall n q, bytes_ok q -> k n q = k' n q) -> (let& (n, q) := read_length what e p in k n q) = let& (n, q) := read_length what e p in k' n q.
Proof using.
  intros Hp Hk. pose proof (consumes_length what e p Hp) as Hc. destruct (read_length what e p) as [n q| |]; cbn [dbind]; [|done|done].
  apply Hk. eauto with tagged.
Qed.

Lemma read_field_same k e tag_at p wt f v : env_ok G = true -> field_ok G k f = true -> typed_member G v f -> bytes_ok p ->
  read_field G rd depth e tag_at p wt f v = read_field G rd' depth e tag_at p wt f v.
Proof using Hsame.
  intros HG Hf Hv Hp. pose proof (field_ok_elem G k f Hf) as He. destruct (field_ok_inv G k f Hf) as [Hs _].
  assert (forall t, elem_ok t = true -> scoped G t = true -> typed G t (init G t) = true) as Hi.
  { intros t [? ?]%elem_inner ?. by apply pb_init_typed. }
  destruct (f_type f) as [s| | | | |i|i|i|el|] eqn:Et.
  9: { unfold read_field. rewrite Et. destruct v as [[| | | | | |l| | | |]|]; try done. unfold read_repeated. cbv zeta. destruct (_ && _); [|done].
       destruct el as [s| | | | |i|i|i|el'|]; try done;
         (apply length_same; [done|]; intros n q Hq; rewrite read_sub_same; [done|done|by apply Hi]). }
  9: { unfold read_field. by rewrite Et. }
  all: rewrite !read_field_eq by (by rewrite Et); rewrite Et; cbv zeta; cbn [inner] in *; (destruct (negb _); [done|]); try done.
  all: apply length_same; [done|]; intros n q Hq; try (destruct (_ && _); [done|]); (rewrite read_sub_same; [done|done|]).
  all: unfold typed_member in Hv; rewrite Et in Hv; destruct v as [v|]; [exact Hv|by apply Hi].
Qed.
End Agree.

(** ** Runs *)
Lemma key_follows_inv key p : 1 <= zlen key -> key_follows key p = true -> exists q, p = key ++ q.
Proof.
  intros Hk. unfold key_follows. destruct (Z.eqb_spec (zlen key) 1) as [E|_]; rewrite andb_true_iff.
  - intros [_ H]. destruct key as [|k key]; [done|]. destruct p as [|b p]; [done|]. apply Z.eqb_eq in H as ->. exists p.
    destruct key; [done|]. rewrite !zlen_cons in E. pose proof (zlen_nonneg key). lia.
  - intros [_ H%bool_decide_eq_true]. exists (zdrop (zlen key) p). rewrite <- H at 1. by rewrite ztake_zdrop.
Qed.

Section Runs.
Context (G : list (message ptype)) (rd : reader) (depth : Z).
Context (m : message ptype) (Hok : Forall (fun f => exists k, field_ok G k f = true) (m_fields m)).
(** A repeated scalar field, and the bytes of its key. *)
Context (f : field ptype) (s : scalar) (key : Z) (kb : list Z).
Context (Ht : f_type f = PVector (PScalar s)) (Hs : scalar_ok s = true).
Context (Hkb : forall e q, bytes_ok q -> read_varint e (kb ++ q) = Got key q) (Hkb1 : 1 <= zlen kb).
Context (Hwt : Z.land key 7 = scalar_wire s).
Context (Hid : (Z.shiftr key 3 =? 0) || (536870911 <? Z.shiftr key 3) = false).
Context (Hslot : zget (m_fields m) (field_slot m (Z.shiftr key 3)) = Some f).
Context (Hno : field_slot m (Z.shiftr key 3) =? no_slot = false).

Definition the_slot : nat := Z.to_nat (field_slot m (Z.shiftr key 3)).
(** [seen] with the field's bit. *)
Definition mark (seen : Z) : Z := if negb (required_mask m =? 0) then Z.lor seen (Z.shiftl 1 (field_slot m (Z.shiftr key 3))) else seen.

Lemma mark_mark seen : mark (mark seen) = mark seen.
Proof using. unfold mark. destruct (negb _); [|done]. by rewrite <- Z.lor_assoc, Z.lor_diag. Qed.

Lemma record_one e p seen fs l : bytes_ok p -> fs !! the_slot = Some (Some (VVec l)) ->
  read_record (read_field_one G rd depth) m e (kb ++ p) seen fs =
  let& (x, q) := read_scalar e p s in Got (mark seen, <[the_slot := Some (VVec (l ++ [x]))]> fs) q.
Proof using Ht Hkb Hwt Hid Hslot Hno.
  intros Hp Hfs. unfold read_record. rewrite Hkb by done. cbn [dbind]. cbv zeta. rewrite Hid. fold (field_slot m (Z.shiftr key 3)).
  rewrite Hno, Hslot. pose proof (zget_Some_range _ _ _ Hslot). unfold zget. destruct (Z.ltb_spec (field_slot m (Z.shiftr key 3)) 0); [lia|].
  fold the_slot. rewrite Hfs. unfold read_field_one. rewrite Ht, Hwt, Z.eqb_refl.
  destruct (read_scalar e p s); cbn [dbind fst snd]; [|done|done]. unfold mark. by rewrite andb_true_r.
Qed.

Lemma field_one_consumes e tag_at p wt f' v : f' ∈ m_fields m -> bytes_ok p ->
  consumes p (read_field_one G rd depth e tag_at p wt f' v).
Proof using Hok. intros Hf Hp. rewrite Forall_forall in Hok. destruct (Hok f' Hf) as [k ?]. by eapply consumes_field_one. Qed.

(** Reading a run and going on is going on record by record. *)
Lemma run_records n : forall n1 n2 e p seen fs l, bytes_ok p -> (length p < n)%nat -> (length p < n1)%nat -> (length p < n2)%nat ->
  (the_slot < length fs)%nat ->
  (let& (l, q) := read_run n e kb p s l in read_records n1 (read_field_one G rd depth) m e q (mark seen) (<[the_slot := Some (VVec l)]> fs)) =
  read_records n2 (read_field_one G rd depth) m e p (mark seen) (<[the_slot := Some (VVec l)]> fs).
Proof using Ht Hs Hkb Hkb1 Hwt Hid Hslot Hno Hok.
  induction n as [|n IH]; intros n1 n2 e p seen fs l Hp Hn Hn1 Hn2 Hlen; [lia|]. cbn [read_run].
  destruct (key_follows kb p) eqn:Ekf.
  - destruct (key_follows_inv kb p Hkb1 Ekf) as [q ->]. pose proof Hp as [_ Hq]%Forall_app. rewrite zdrop_app by done.
    destruct n2 as [|n2]; [lia|]. cbn [read_records]. destruct (kb ++ q) as [|b r] eqn:Eb; [apply app_eq_nil in Eb as [-> ->]; by vm_compute in Hkb1|].
    rewrite <- Eb. rewrite (record_one e q _ _ l) by (done || by apply list_lookup_insert_eq). rewrite mark_mark, <- Eb in *. clear Eb.
    pose proof (consumes_scalar e q s Hs Hq) as Hc. destruct (read_scalar e q s) as [x q'| |]; cbn [dbind fst snd]; [|done|done].
    rewrite list_insert_insert_eq. rewrite length_app in *. apply suffix_length in Hc as Hcl. unfold zlen in Hkb1.
    apply IH; [eauto with tagged|lia..|done].
  - cbn [dbind]. apply records_fuel; [apply field_one_consumes|done|lia|lia].
Qed.
End Runs.

Section Exact.
Context (G : list (message ptype)) (HG : env_ok G = true).
Context (rd rd1 : reader) (depth : Z).
Context (Hrd : depth < max_tagged_depth -> reads G rd (depth + 1)) (Hsame : depth < max_tagged_depth -> same_reads G rd rd1 (depth + 1)).
Context (i : nat) (m : message ptype) (Hm : G !! i = Some m).

(** The record at [p] starts a run of the field [f] of scalars [s]. *)
Record starts_run (p : list Z) (fs : list (option pvalue)) (f : field ptype) (s : scalar) (key : Z) (kb q : list Z) (l : list pvalue) : Prop := {
  sr_split : p = kb ++ q;
  sr_key : forall e q, bytes_ok q -> read_varint e (kb ++ q) = Got key q;
  sr_bytes : 1 <= zlen kb;
  sr_type : f_type f = PVector (PScalar s);
  sr_scalar : scalar_ok s = true;
  sr_wire : Z.land key 7 = scalar_wire s;
  sr_range : (Z.shiftr key 3 =? 0) || (536870911 <? Z.shiftr key 3) = false;
  sr_slot : zget (m_fields m) (field_slot m (Z.shiftr key 3)) = Some f;
  sr_known : field_slot m (Z.shiftr key 3) =? no_slot = false;
  sr_value : fs !! the_slot m key = Some (Some (VVec l))
}.

Lemma scalar_wire_not_len s : scalar_wire s =? wire_len = false.
Proof using. destruct s; cbn; try done. by destruct (_ =? 32). Qed.

Lemma record_same_or_run e p seen fs : bytes_ok p -> typed_members G m fs ->
  read_record (read_field G rd depth) m e p seen fs = read_record (read_field_one G rd1 depth) m e p seen fs \/
  exists f s key kb q l, starts_run p fs f s key kb q l /\
    read_record (read_field G rd depth) m e p seen fs =
      let& (x, r) := read_scalar e q s in
      let& (l, r) := read_run (S (length r)) e kb r s (l ++ [x]) in
      Got (mark m key seen, <[the_slot m key := Some (VVec l)]> fs) r.
Proof using HG Hsame Hm.
  intros Hp Hfs. unfold read_record. destruct (read_varint e p) as [key q| |] eqn:Ek; [|by left..]. cbn [dbind]. cbv zeta.
  destruct (frames_varint e p key q Hp Ek) as (kb & -> & Hkb & Hframe). pose proof Hp as [_ Hq]%Forall_app.
  destruct ((_ =? 0) || _) eqn:Erange; [by left|]. fold (field_slot m (Z.shiftr key 3)). destruct (_ =? no_slot) eqn:Eno; [by left|].
  destruct (field_slot_cases G HG i m (Z.shiftr key 3) fs Hm (proj1 Hfs)) as [Hbad|(f & v & Hf & Hv & Hfid & Hslot & Htv & Hff)];
    [by rewrite Hbad in Eno|]. rewrite Hf, Hv. pose proof (field_ok_elem G i f Hff) as He.
  pose proof (read_field_same G rd rd1 depth Hsame i e (kb ++ q) q (Z.land key 7) f v HG Hff Htv Hq) as Esame. unfold read_field_one.
  destruct (f_type f) as [s| | | | |j|j|j|[s| | | | |j|j|j|el|]|] eqn:Et; try (left; by rewrite Esame).
  destruct v as [[| | | | | |l| | | |]|]; try (left; by rewrite Esame). destruct (Z.eqb_spec (Z.land key 7) (scalar_wire s)) as [Ew|]; [|left; by rewrite Esame].
  right. exists f, s, key, kb, q, l. split; [constructor; try done; unfold the_slot, zget in *; by destruct (field_slot m (Z.shiftr key 3) <? 0)|].
  unfold read_field. rewrite Et. unfold read_repeated. cbn [wire_of]. cbv zeta. rewrite Ew, Z.eqb_refl, scalar_wire_not_len. cbn [andb negb].
  rewrite zlen_app, ztake_app by lia. destruct (read_scalar e q s) as [x r| |]; cbn [dbind]; [|done|done].
  destruct (read_run _ e kb r s (l ++ [x])) as [l' r'| |]; cbn [dbind fst snd]; [|done|done]. unfold mark, the_slot. by rewrite andb_true_r.
Qed.

Lemma records_runs n : forall n' e p seen fs, bytes_ok p -> (length p < n)%nat -> (length p < n')%nat -> typed_members G m fs ->
  read_records n (read_field G rd depth) m e p seen fs = read_records n' (read_field_one G rd1 depth) m e p seen fs.
Proof using HG Hrd Hsame Hm.
  induction n as [|n IH]; intros n' e p seen fs Hp Hn Hn' Hfs; [lia|]. destruct n' as [|n']; [lia|]. cbn [read_records].
  destruct p as [|b p]; [done|]. set (t := b :: p) in *.
  pose proof (sound_record G HG rd i m e t depth seen fs Hrd Hm Hp Hfs) as Hsnd.
  destruct (record_same_or_run e t seen fs Hp Hfs) as [Esame|(f & s & key & kb & q & l & Hrun & Erun)].
  - rewrite <- Esame. destruct (read_record (read_field G rd depth) m e t seen fs) as [[seen' fs'] r| |] eqn:Er; cbn [dbind fst snd]; [|done|done].
    destruct Hsnd as [Hsuf Hty]. pose proof (record_shrinks G HG rd i m e t depth seen fs _ _ Hrd Hm Hp Hfs Er) as Hlt. unfold zlen in Hlt.
    apply IH; [eauto with tagged|lia|lia|done].
  - rewrite Erun. rewrite Erun in Hsnd. destruct Hrun as [Esplit Hkey Hkb1 Hty Hsc Hw Hrange Hslot Hkn Hval]. rewrite Esplit in Hp |- *.
    assert (length t = length kb + length q)%nat as Hlt by (by rewrite Esplit, length_app). unfold zlen in Hkb1.
    pose proof Hp as [_ Hq]%Forall_app. rewrite (record_one G rd1 depth m f s key kb Hty Hkey Hw Hrange Hslot Hkn e q seen fs l Hq Hval).
    pose proof (consumes_scalar e q s Hsc Hq) as Hc. destruct (read_scalar e q s) as [x r| |]; cbn [dbind fst snd] in *; [|done|done].
    assert (bytes_ok r) as Hr by eauto with tagged. apply suffix_length in Hc as Hcl.
    destruct (pb_env_ok_lookup G HG i m Hm) as (_ & _ & Hfok).
    assert (Forall (fun f => exists k, field_ok G k f = true) (m_fields m)) as Hok by (eapply Forall_impl; [exact Hfok|]; intros g Hg; by exists i).
    rewrite <- (run_records G rd1 depth m Hok f s key kb Hty Hsc Hkey Hkb1 Hw Hrange Hslot Hkn (S (length r)) n' n' e r seen fs (l ++ [x])) by (done || lia || (eapply lookup_lt_Some; exact Hval)).
    pose proof (consumes_run (S (length r)) e kb r s (l ++ [x]) Hsc Hr) as Hc2.
    destruct (read_run (S (length r)) e kb r s (l ++ [x])) as [l' r'| |]; cbn [dbind fst snd] in *; [|done|done].
    destruct Hsnd as [_ Htm]. apply suffix_length in Hc2 as Hcl2. apply IH; [eauto with tagged|lia|lia|exact Htm].
Qed.
End Exact.

(** The decoder is the reference. *)
Lemma runs_exact G (HG : env_ok G = true) n : forall depth, enough n depth -> same_reads G (read_message G n) (read_message_one G n) depth.
Proof.
  induction n as [|n IH]; intros depth Hn e p i m fs Hm Hp Hfs; [destruct Hn; lia|]. cbn [read_message read_message_one].
  apply (records_runs G HG _ _ depth) with (i := i); try done; try lia.
  - intros Hd. apply sound_message; [done|]. by apply pb_enough_S.
  - intros Hd. apply IH. by apply pb_enough_S.
Qed.

(** ** Concatenation *)

(** A call that succeeds does the same, at the same addresses, when more bytes
    follow. *)
Definition carries {A} (d : Z -> list Z -> dec A) : Prop := forall e p v q b, bytes_ok p -> bytes_ok b ->
  d e p = Got v q -> d (e + zlen b) (p ++ b) = Got v (q ++ b).

Lemma carries_frames {A} c (d : Z -> list Z -> dec A) : frames c d -> carries d.
Proof.
  intros Hd e p v q b Hp Hb E. destruct (Hd e p v q Hp E) as (k & -> & _ & Hk). rewrite <- app_assoc. apply Hk.
  apply Forall_app. split; [|done]. by apply Forall_app in Hp as [_ ?].
Qed.

Lemma carries_bind {A B} (d : Z -> list Z -> dec A) (g : Z -> A -> list Z -> dec B) :
  (forall e p, bytes_ok p -> consumes p (d e p)) -> carries d -> (forall v, carries (fun e => g e v)) ->
  carries (fun e p => dbind (d e p) (g e)).
Proof.
  intros Hc Hd Hg e p v q b Hp Hb E. pose proof (Hc e p Hp) as Hs. destruct (d e p) as [u r| |] eqn:Ed; [|done|done]. cbn [dbind] in E.
  rewrite (Hd e p u r b Hp Hb Ed). cbn [dbind]. cbn in Hs. apply Hg; [eauto with tagged|done|done].
Qed.

Lemma carries_got {A} (v : A) : carries (fun _ p => Got v p).
Proof. by intros e p v' q b _ _ [= <- <-]. Qed.

Lemma carries_length what : carries (read_length what).
Proof.
  unfold read_length. apply carries_bind; [intros e p Hp; apply (consumes_frames 1); [apply frames_varint|done]|eapply carries_frames, frames_varint|].
  intros n e p v q b Hp Hb E. destruct (Z.ltb_spec (zlen p) n); [done|]. injection E as <- <-. rewrite zlen_app. pose proof (zlen_nonneg b).
  destruct (Z.ltb_spec (zlen p + zlen b) n); [lia|done].
Qed.

Section Carries.
Context (G : list (message ptype)) (rd : reader) (depth : Z).

Lemma carries_other wt v : carries (fun e p => read_other e p wt v).
Proof using.
  unfold read_other. apply carries_bind; [|eapply carries_frames, frames_skip_value|intros; apply carries_got].
  intros e p Hp. apply (consumes_frames 1 (fun e p => skip_value e p wt)); [apply frames_skip_value|done].
Qed.

Lemma narrow_end e n (p b : list Z) : e + zlen b - zlen (p ++ b) + n = e - zlen p + n.
Proof using. rewrite zlen_app. lia. Qed.

(** [d] with more bytes after. *)
Definition carried {A} (b : list Z) (d d' : dec A) : Prop := forall r q, d = Got r q -> d' = Got r (q ++ b).

Lemma carried_sub {A} what (k k' : Z -> list Z -> dec A) e p b : bytes_ok p -> bytes_ok b ->
  (forall n p, 0 <= n <= zlen p -> bytes_ok p -> carried b (k n p) (k' n (p ++ b))) ->
  carried b (let& (n, p) := read_length what e p in k n p) (let& (n, p) := read_length what (e + zlen b) (p ++ b) in k' n p).
Proof using.
  intros Hp Hb Hk r q E. pose proof (consumes_length what e p Hp) as Hc. destruct (read_length what e p) as [n s| |] eqn:El; [|done|done].
  cbn [dbind] in E. rewrite (carries_length what e p n s b Hp Hb El). cbn [dbind]. cbn in Hc.
  apply read_length_inv in El as [Ev ?]. pose proof (varint_nonneg e p n s Hp Ev). apply (Hk n s); [lia|eauto with tagged|done].
Qed.

Lemma carried_read_sub {B} (g : pvalue -> B) e n p t out b : 0 <= n <= zlen p ->
  carried b (let& (x, p) := read_sub G rd e n p depth t out in Got (g x) p)
    (let& (x, p) := read_sub G rd (e + zlen b) n (p ++ b) depth t out in Got (g x) p).
Proof using.
  intros Hn r q. unfold read_sub. rewrite narrow_end, ztake_app_l, zdrop_app_l by lia.
  destruct (read_len G rd _ _ _ _ _); cbn [dbind]; [|done|done]. by intros [= <- <-].
Qed.

Lemma carried_scalar {B} (g : pvalue -> B) e p s b : scalar_ok s = true -> bytes_ok p -> bytes_ok b ->
  carried b (let& (x, p) := read_scalar e p s in Got (g x) p) (let& (x, p) := read_scalar (e + zlen b) (p ++ b) s in Got (g x) p).
Proof using.
  intros Hs Hp Hb r q E. destruct (read_scalar e p s) as [x p'| |] eqn:Es; [|done|done]. cbn [dbind] in E. injection E as <- <-.
  by rewrite (carries_frames 1 (fun e p => read_scalar e p s) (frames_scalar s Hs) e p x p' b Hp Hb Es).
Qed.

Lemma carried_repeated e tag_at tag_at' p wt el l b : elem_ok el = true -> bytes_ok p -> bytes_ok b ->
  match el with PScalar s => (wt =? scalar_wire s) = false | _ => True end ->
  carried b (read_repeated G rd e tag_at p wt depth el l) (read_repeated G rd (e + zlen b) tag_at' (p ++ b) wt depth el l).
Proof using.
  intros He Hp Hb Hno. unfold read_repeated. cbv zeta.
  destruct el as [s| | | | |j|j|j|el'|]; try done; cbn [wire_of packable andb negb] in *;
    try (destruct (_ && _); [|intros r q; by apply carries_other]; apply carried_sub; [done|done|]; intros n q Hn Hq; by apply carried_read_sub).
  rewrite Hno. cbn [andb]. destruct (wt =? wire_len); [|intros r q; by apply carries_other]. apply carried_sub; [done|done|]. intros n q Hn Hq r q'.
  rewrite narrow_end, ztake_app_l, zdrop_app_l by lia. destruct (_ && _); [done|].
  destruct (read_packed _ _ _ _ _); cbn [dbind]; [|done|done]. by intros [= <- <-].
Qed.

Lemma carried_single e tag_at tag_at' p wt f v b : match f_type f with PVector _ | PUnknown => False | _ => True end ->
  elem_ok (inner (f_type f)) = true -> bytes_ok p -> bytes_ok b ->
  carried b (read_field G rd depth e tag_at p wt f v) (read_field G rd depth (e + zlen b) tag_at' (p ++ b) wt f v).
Proof using.
  intros Ht He Hp Hb. rewrite !read_field_eq by done. cbv zeta. destruct (negb _); [intros r q; by apply carries_other|].
  destruct (inner (f_type f)) as [s| | | | |j|j|j|el|]; try done; [by apply carried_scalar|..];
    (apply carried_sub; [done|done|]; intros n q Hn Hq; try (destruct (_ && _); [done|]); by apply carried_read_sub).
Qed.

Lemma carried_field_one k e tag_at tag_at' p wt f v b : field_ok G k f = true -> bytes_ok p -> bytes_ok b ->
  carried b (read_field_one G rd depth e tag_at p wt f v) (read_field_one G rd depth (e + zlen b) tag_at' (p ++ b) wt f v).
Proof using.
  intros Hf Hp Hb. pose proof (field_ok_elem G k f Hf) as He. unfold read_field_one.
  destruct (f_type f) as [s| | | | |j|j|j|el|] eqn:Et; try (apply carried_single; rewrite ?Et; done).
  - assert (forall l, match el with PScalar s => (wt =? scalar_wire s) = false | _ => True end ->
      carried b (read_field G rd depth e tag_at p wt f (Some (VVec l))) (read_field G rd depth (e + zlen b) tag_at' (p ++ b) wt f (Some (VVec l)))) as Hrep.
    { intros l Hno. unfold read_field. rewrite Et. by apply carried_repeated. }
    destruct v as [[| | | | | |l| | | |]|]; try (unfold read_field; rewrite Et; by destruct el).
    destruct el as [s| | | | |j|j|j|el'|]; try (by apply Hrep). destruct (wt =? scalar_wire s) eqn:Ew; [by apply carried_scalar|by apply Hrep].
  - unfold read_field. rewrite Et. intros r q. by apply carries_other.
Qed.
End Carries.

Section Concat.
Context (G : list (message ptype)) (HG : env_ok G = true) (rd : reader) (depth : Z).
Context (i : nat) (m : message ptype) (Hm : G !! i = Some m).

Lemma record_carried e p seen fs b : bytes_ok p -> bytes_ok b ->
  carried b (read_record (read_field_one G rd depth) m e p seen fs) (read_record (read_field_one G rd depth) m (e + zlen b) (p ++ b) seen fs).
Proof using HG Hm.
  intros Hp Hb r q. destruct (pb_env_ok_lookup G HG i m Hm) as (_ & _ & Hfok). unfold read_record.
  destruct (read_varint e p) as [key p'| |] eqn:Ek; [|done|done]. rewrite (carries_frames 1 _ frames_varint e p key p' b Hp Hb Ek). cbn [dbind]. cbv zeta.
  destruct (frames_varint e p key p' Hp Ek) as (kb & -> & _). pose proof Hp as [_ Hp']%Forall_app.
  assert (forall s fs, s `suffix_of` p' -> kept m fs ((kb ++ p') ++ b) (s ++ b) = kept m fs (kb ++ p') s) as Hkept.
  { intros s fs' Hs%suffix_zlen. unfold kept. rewrite !zlen_app. replace (zlen kb + zlen p' + zlen b - (zlen s + zlen b)) with (zlen kb + zlen p' - zlen s) by lia.
    pose proof (zlen_nonneg s). by rewrite ztake_app_l by (rewrite zlen_app; lia). }
  destruct (_ || _); [done|]. destruct (_ =? no_slot).
  - pose proof (consumes_frames 1 (fun e p => skip_value e p (Z.land key 7)) e p' (frames_skip_value _) Hp') as Hc.
    destruct (skip_value e p' (Z.land key 7)) as [[] s| |] eqn:Es; cbn [dbind]; [|done|done].
    rewrite (carries_frames 1 (fun e p => skip_value e p (Z.land key 7)) (frames_skip_value _) e p' tt s b Hp' Hb Es). cbn [dbind].
    rewrite Hkept by done. destruct (kept m fs _ s); [|done]. by intros [= <- <-].
  - destruct (zget (m_fields m) _) as [f|] eqn:Ef; [|done]. destruct (zget fs _) as [v|]; [|done].
    assert (field_ok G i f = true) as Hff.
    { rewrite Forall_forall in Hfok. apply Hfok. unfold zget in Ef. destruct (_ <? 0); [done|]. by eapply list_elem_of_lookup_2. }
    pose proof (consumes_field_one G rd depth i e (kb ++ p') p' (Z.land key 7) f v Hff Hp') as Hc.
    destruct (read_field_one G rd depth e (kb ++ p') p' (Z.land key 7) f v) as [[x mt] s| |] eqn:Es; cbn [dbind]; [|done|done].
    rewrite (carried_field_one G rd depth i e (kb ++ p') ((kb ++ p') ++ b) p' (Z.land key 7) f v b Hff Hp' Hb _ _ Es). cbn [dbind fst snd].
    destruct mt; [by intros [= <- <-]|]. rewrite Hkept by done. destruct (kept m _ _ s); [|done]. by intros [= <- <-].
Qed.

(** Without required fields [seen] plays no part. *)
Lemma record_seen e p seen fs r q : required_mask m = 0 -> read_record (read_field_one G rd depth) m e p seen fs = Got r q -> fst r = seen.
Proof using.
  intros Hreq. unfold read_record. destruct (read_varint e p) as [key p'| |]; [|done|done]. cbn [dbind]. cbv zeta. rewrite Hreq. cbn [Z.eqb negb andb].
  destruct (_ || _); [done|]. destruct (_ =? no_slot).
  - destruct (skip_value _ _ _) as [[] s| |]; cbn [dbind]; [|done|done]. destruct (kept _ _ _ _); [|done]. by intros [= <- _].
  - destruct (zget (m_fields m) _); [|done]. destruct (zget fs _); [|done]. destruct (read_field_one _ _ _ _ _ _ _ _ _) as [[x mt] s| |]; cbn [dbind fst snd]; [|done|done].
    destruct mt; [by intros [= <- _]|]. destruct (kept _ _ _ _); [|done]. by intros [= <- _].
Qed.

Lemma records_concat n : forall n1 n2 e a b seen fs fs1 q, required_mask m = 0 -> bytes_ok a -> bytes_ok b ->
  (length a < n)%nat -> (length (a ++ b) < n1)%nat -> (length b < n2)%nat ->
  read_records n (read_field_one G rd depth) m e a seen fs = Got fs1 q ->
  read_records n1 (read_field_one G rd depth) m (e + zlen b) (a ++ b) seen fs =
  read_records n2 (read_field_one G rd depth) m (e + zlen b) b seen fs1.
Proof using HG Hm.
  destruct (pb_env_ok_lookup G HG i m Hm) as (_ & _ & Hfok).
  assert (forall e tag_at p wt f v, f ∈ m_fields m -> bytes_ok p -> consumes p (read_field_one G rd depth e tag_at p wt f v)) as Hrf.
  { intros. rewrite Forall_forall in Hfok. eapply consumes_field_one; [by apply Hfok|done]. }
  induction n as [|n IH]; intros n1 n2 e a b seen fs fs1 q Hreq Ha Hb Hn Hn1 Hn2 E; [lia|]. cbn [read_records] in E.
  destruct a as [|x a].
  - rewrite Hreq in E. cbn in E. injection E as <- <-. cbn [app] in *. by apply records_fuel.
  - destruct n1 as [|n1]; [lia|]. set (t := x :: a) in *. cbn [read_records]. change (t ++ b) with (x :: (a ++ b)).
    destruct (read_record (read_field_one G rd depth) m e t seen fs) as [r s| |] eqn:Er; [|done|done]. cbn [dbind] in E.
    change (x :: a ++ b) with (t ++ b). rewrite (record_carried e t seen fs b Ha Hb _ _ Er). cbn [dbind].
    destruct (record_consumes m _ Hrf _ _ _ _ _ _ Ha Er) as [Hs Hl]. rewrite (record_seen _ _ _ _ _ _ Hreq Er) in *.
    unfold zlen in Hl. rewrite length_app in *. apply (IH n1 n2 e s b seen (snd r) fs1 q); try done; [eauto with tagged|lia|rewrite length_app; lia].
Qed.
End Concat.
