(* ===== verification/ProtobufWrite.v ===== *)
(** * What the protobuf encoder delivers

    The writing pass takes the sizes the measuring pass recorded, from the
    front, and delivers exactly [message_bytes] to its sink, or stops where
    the sink refuses. *)
From Stdlib Require Import Sorting.Sorted.
From S2P Require Import Prelude Parser BytesParsers Combinators CombinatorFacts Numbers Emit Messages Staging Protobuf ProtobufEncode ProtobufTypes ProtobufSafe.

(** * What the protobuf encoder writes

    [enc] is the encoding of a value after its key, [message_bytes] that of a
    message; [limits] the values within the limits the measuring pass checks.
    The measuring pass predicts the sizes exactly and finds every value
    outside the limits; the writing pass delivers exactly [message_bytes] to
    its sink, or stops where the sink refuses. *)

(** ** The encoding *)
Definition enc_scalar (s : scalar) (v : pvalue) : list Z :=
  if scalar_wire s =? wire_varint then uleb128_encode 64 (varint_value s v)
  else le_bytes (Z.to_nat (fixed_size s)) (fixed_bits s v).

Definition enc_len (s : list Z) : list Z := uleb128_encode 64 (zlen s) ++ s.

Definition enc_key (f : field ptype) (wt : Z) : list Z := uleb128_encode 64 (key_of f wt).

Definition enc_member (en : ptype -> pvalue -> list Z) (f : field ptype) (ov : option pvalue) : list Z :=
  match f_type f, ov with
  | PVector (PScalar s), Some (VVec l) =>
      match l with
      | [] => []
      | _ => enc_key f wire_len ++ enc_len (concat (List.map (enc_scalar s) l))
      end
  | PVector el, Some (VVec l) => concat (List.map (fun v => enc_key f wire_len ++ en el v) l)
  | PUnknown, _ => []
  | t, Some v => if left_out f v then [] else enc_key f (wire_of t) ++ en (inner t) v
  | _, None => []
  end.

(** One result per member, in order. *)
Definition each_member {A} (g : field ptype -> option pvalue -> list A) :=
  fix go (ovs : list (option pvalue)) (fs : list (field ptype)) {struct ovs} : list A :=
    match ovs, fs with
    | ov :: ovs, f :: fs => g f ov ++ go ovs fs
    | _, _ => []
    end.

Definition enc_message (en : ptype -> pvalue -> list Z) (m : message ptype) (vs : list (option pvalue)) : list Z :=
  each_member (enc_member en) vs (m_fields m) ++ (if has_unknown m then unknown_bytes vs else []).

Section Enc.
Context (G : list (message ptype)).

Fixpoint enc (t : ptype) (v : pvalue) {struct v} : list Z :=
  match v, t with
  | VEmpty, _ => enc_len []
  | VLazyOf m, PLazy i => enc (PMessage i) m
  | VLazy _ _, PLazy _ => enc_len (lazy_region v)
  | VMsg vs, PMessage i => match G !! i with Some m => enc_len (enc_message enc m vs) | None => [] end
  | (VString s | VView _ s), _ => enc_len s
  | _, PScalar s => enc_scalar s v
  | _, _ => []
  end.

Definition message_bytes (k : nat) (m : pvalue) : list Z :=
  match G !! k, m with Some mt, VMsg vs => enc_message enc mt vs | _, _ => [] end.

(** The sizes of the nested messages, in the order they are written. *)
Definition member_sizes (ns : ptype -> pvalue -> list Z) (f : field ptype) (ov : option pvalue) : list Z :=
  match f_type f, ov with
  | PVector (PScalar _), _ => []
  | PVector el, Some (VVec l) => concat (List.map (ns el) l)
  | PUnknown, _ => []
  | t, Some v => if left_out f v then [] else ns (inner t) v
  | _, None => []
  end.

Fixpoint nested_sizes (t : ptype) (v : pvalue) {struct v} : list Z :=
  match v, t with
  | VLazyOf m, PLazy i => nested_sizes (PMessage i) m
  | VMsg vs, PMessage i =>
      match G !! i with
      | Some m => zlen (enc_message enc m vs) :: each_member (member_sizes nested_sizes) vs (m_fields m)
      | None => []
      end
  | _, _ => []
  end.

(** The limits of the measuring pass. *)
Definition member_limits (lm : ptype -> pvalue -> bool) (f : field ptype) (ov : option pvalue) : bool :=
  match f_type f, ov with
  | PVector (PScalar s), Some (VVec l) => zlen (concat (List.map (enc_scalar s) l)) <=? max_len
  | PVector el, Some (VVec l) => forallb (lm el) l
  | PUnknown, _ => true
  | t, Some v => left_out f v || lm (inner t) v
  | _, None => true
  end.

Definition members_limits (lm : ptype -> pvalue -> bool) :=
  fix go (ovs : list (option pvalue)) (fs : list (field ptype)) {struct ovs} : bool :=
    match ovs, fs with
    | ov :: ovs, f :: fs => member_limits lm f ov && go ovs fs
    | _, _ => true
    end.

Fixpoint limits (depth : Z) (t : ptype) (v : pvalue) {struct v} : bool :=
  match v, t with
  | VLazyOf m, PLazy i => limits depth (PMessage i) m
  | (VString s | VView _ s), _ => zlen s <=? max_len
  | VMsg vs, PMessage i =>
      match G !! i with
      | Some m => (depth + 1 <=? max_tagged_depth) && members_limits (limits (depth + 1)) vs (m_fields m) &&
                  (zlen (enc_message enc m vs) <=? max_len)
      | None => false
      end
  | _, _ => true
  end.

(** A whole message is at depth 0. *)
Definition measurable (k : nat) (m : pvalue) : bool := limits (-1) (PMessage k) m.
End Enc.

(** ** Sizes *)
Lemma log2_lor_1 v : 0 <= v -> Z.log2 (Z.lor v 1) = Z.log2 v.
Proof. intros Hv. rewrite Z.log2_lor by lia. pose proof (Z.log2_nonneg v). change (Z.log2 1) with 0. lia. Qed.

Lemma uleb_loop_size fuel v : 0 <= v < 2 ^ (7 * Z.of_nat fuel) -> (0 < fuel)%nat -> zlen (uleb_enc_loop fuel v) = (Z.log2 v + 7) / 7.
Proof.
  revert v. induction fuel as [|fuel IH]; intros v Hv Hf; [lia|]. cbn [uleb_enc_loop]. destruct (Z.leb_spec 128 v).
  - rewrite zlen_cons. assert (Hs : Z.shiftr v 7 = v / 128) by (by rewrite Z.shiftr_div_pow2 by lia).
    assert (Hpow : 2 ^ (7 * Z.of_nat (S fuel)) = 128 * 2 ^ (7 * Z.of_nat fuel)).
    { replace (7 * Z.of_nat (S fuel)) with (7 + 7 * Z.of_nat fuel) by lia. by rewrite Z.pow_add_r by lia. }
    assert (0 < fuel)%nat by (destruct fuel; [change (2 ^ (7 * Z.of_nat 1)) with 128 in Hv; lia|lia]).
    rewrite IH; [|rewrite Hs; split; [apply Z.div_pos; lia|apply Z.div_lt_upper_bound; lia]|done].
    rewrite Z.log2_shiftr by lia. assert (7 <= Z.log2 v) by (apply (Z.log2_le_pow2 v 7); lia).
    rewrite Z.max_r by lia. replace (Z.log2 v + 7) with (Z.log2 v - 7 + 7 + 1 * 7) by lia. by rewrite Z.div_add by lia.
  - change (zlen [u8 v]) with 1. pose proof (Z.log2_nonneg v). assert (Z.log2 v < 7) by (destruct (Z.eq_dec v 0) as [->|]; [done|apply Z.log2_lt_pow2; lia]).
    apply (Z.div_unique _ 7 1 (Z.log2 v)); lia.
Qed.

Lemma varint_size_spec v : 0 <= v < 2 ^ 64 -> varint_size v = zlen (uleb128_encode 64 v).
Proof.
  intros Hv. unfold varint_size, uleb128_encode. rewrite log2_lor_1 by lia. replace (Z.log2 v + 1 + 6) with (Z.log2 v + 7) by lia.
  symmetry. apply uleb_loop_size; [|by vm_compute; lia]. change (Z.of_nat _) with 10. split; [lia|]. etrans; [apply Hv|]. apply Z.pow_lt_mono_r; lia.
Qed.

(** ** Scalars *)
Lemma fixed_size_cases s : fixed_size s = 4 \/ fixed_size s = 8.
Proof. unfold fixed_size. destruct (_ =? _); auto. Qed.

Lemma in_range_bounds sg w x : 0 < w <= 64 -> in_range sg w x = true -> - 2 ^ 63 <= x < 2 ^ 64.
Proof.
  intros Hw. unfold in_range. destruct sg; rewrite andb_true_iff, Z.leb_le, Z.ltb_lt.
  - assert (2 ^ (w - 1) <= 2 ^ 63) by (apply Z.pow_le_mono_r; lia). lia.
  - assert (2 ^ w <= 2 ^ 64) by (apply Z.pow_le_mono_r; lia). lia.
Qed.

Lemma scalar_width_64 s : scalar_ok s = true -> match s with SInt _ w | SEnum _ w | SSint w | SFixed _ w => 0 < w <= 64 | _ => True end.
Proof.
  destruct s; try done; cbn; rewrite ?orb_true_iff; intros H;
    repeat match goal with H : _ \/ _ |- _ => destruct H as [H|H] end; apply Z.eqb_eq in H as ->; lia.
Qed.

Lemma varint_value_range s v : scalar_ok s = true -> scalar_typed s v = true -> 0 <= varint_value s v < 2 ^ 64.
Proof.
  intros Hs%scalar_width_64 Ht. destruct s as [|sg w|sg w|w|sg w| |], v as [b|x|u| | | | | | | |]; try done; cbn [varint_value];
    try (destruct b; lia); try (apply wrap_range; lia).
  cbn [scalar_typed] in Ht. unfold in_range in Ht. rewrite andb_true_iff, Z.leb_le, Z.ltb_lt in Ht.
  pose proof (zigzag_encode_range w x ltac:(lia) Ht). assert (2 ^ w <= 2 ^ 64) by (apply Z.pow_le_mono_r; lia). lia.
Qed.

Lemma scalar_size_spec s v : scalar_ok s = true -> scalar_typed s v = true -> scalar_size s v = zlen (enc_scalar s v).
Proof.
  intros Hs Ht. unfold scalar_size, enc_scalar. destruct (_ =? _); [by apply varint_size_spec, varint_value_range|].
  unfold zlen. rewrite length_le_bytes. destruct (fixed_size_cases s) as [-> | ->]; done.
Qed.

Lemma key_of_range f wt : 0 <= f_id f <= 32767 -> 0 <= wt < 8 -> 0 <= key_of f wt < 2 ^ 64 /\ Z.shiftr (key_of f wt) 3 = f_id f /\ Z.land (key_of f wt) 7 = wt.
Proof.
  intros Hid Hw. unfold key_of. assert (key_of f wt = f_id f * 8 + wt) as E.
  { unfold key_of. rewrite Z.lor_comm, lor_shiftl_add by lia. change (2 ^ 3) with 8. lia. }
  unfold key_of in E. rewrite E. split_and!; [lia|lia| |].
  - rewrite Z.shiftr_div_pow2 by lia. change (2 ^ 3) with 8. Z.div_mod_to_equations; lia.
  - change 7 with (Z.ones 3). rewrite Z.land_ones by lia. change (2 ^ 3) with 8. Z.div_mod_to_equations; lia.
Qed.

Lemma wire_of_range t : 0 <= wire_of t < 8.
Proof. destruct t as [[]| | | | | | | | |]; cbn; try (by vm_compute); unfold wire_i32, wire_i64; destruct (_ =? 32); lia. Qed.

Lemma packed_size_spec s l : scalar_ok s = true -> forallb (scalar_typed s) l = true ->
  zlen (concat (List.map (enc_scalar s) l)) < 2 ^ 64 -> packed_size s l = zlen (concat (List.map (enc_scalar s) l)).
Proof.
  intros Hs Ht Hl. unfold packed_size. assert (forall l n, fixed_size s = n -> (scalar_wire s =? wire_varint) = false -> zlen (concat (List.map (enc_scalar s) l)) = n * zlen l) as Hfix.
  { intros l' n Hn Hv. induction l' as [|v l' IH]; [cbn; unfold zlen; cbn; lia|]. cbn [List.map concat]. rewrite zlen_app, zlen_cons, IH.
    unfold enc_scalar. rewrite Hv. unfold zlen at 1. rewrite length_le_bytes. destruct (fixed_size_cases s) as [E|E]; rewrite E in *; lia. }
  assert (Hw : wire_i32 <> wire_varint /\ wire_i64 <> wire_varint /\ wire_i64 <> wire_i32) by done.
  pose proof (zlen_nonneg l).
  destruct (Z.eqb_spec (scalar_wire s) wire_i32) as [E32|H32].
  { pose proof (Hfix l 4 ltac:(unfold fixed_size; by rewrite E32) ltac:(by rewrite E32)) as E. rewrite E in Hl. rewrite E. by rewrite wrap_small by lia. }
  destruct (Z.eqb_spec (scalar_wire s) wire_i64) as [E64|H64].
  { pose proof (Hfix l 8 ltac:(unfold fixed_size; by rewrite E64) ltac:(by rewrite E64)) as E. rewrite E in Hl. rewrite E. by rewrite wrap_small by lia. }
  assert (forall acc, 0 <= acc -> acc + zlen (concat (List.map (enc_scalar s) l)) < 2 ^ 64 ->
    fold_left (fun n v => u64 (n + scalar_size s v)) l acc = acc + zlen (concat (List.map (enc_scalar s) l))) as Hf; [|apply Hf; lia].
  clear Hfix Hl. induction l as [|v l IH]; intros acc Hacc Hb; cbn [fold_left List.map concat forallb] in *; [unfold zlen; cbn; lia|].
  apply andb_true_iff in Ht as [Hv Ht]. rewrite zlen_app in *. rewrite (scalar_size_spec s v) by done.
  pose proof (zlen_nonneg (enc_scalar s v)). pose proof (zlen_nonneg (concat (List.map (enc_scalar s) l))). rewrite wrap_small by lia.
  rewrite IH by (done || lia || (pose proof (zlen_nonneg l); lia)). lia.
Qed.

(** ** Pass 1 *)

(** An error is kept. *)
Definition erred (st : state) : Prop := st_err st <> None.

Lemma st_fail_erred what st : erred (st_fail what st).
Proof. unfold erred, st_fail. destruct (st_err st) eqn:E; [by rewrite E|done]. Qed.

Lemma check_erred what st (over : bool) : erred st -> erred (if over then st_fail what st else st).
Proof. destruct over; [intros; apply st_fail_erred|done]. Qed.

Definition keeps_error (vs : sizer) (v : pvalue) : Prop := forall t depth st, erred st -> erred (fst (vs t v depth st)).

(** [P] of a value, and of the values of a repeated one. *)
Definition deep (P : pvalue -> Prop) (v : pvalue) : Prop := P v /\ match v with VVec l => Forall P l | _ => True end.

Definition held (P : pvalue -> Prop) (ov : option pvalue) : Prop := match ov with Some v => deep P v | None => True end.

Lemma elements_erred (vs : sizer) el depth k l : Forall (keeps_error vs) l -> forall a, erred (fst a) ->
  erred (fst (fold_left (fun (a : state * Z) v => let (st, n) := vs el v depth (fst a) in (st, u64 (snd a + (k + n)))) l a)).
Proof.
  induction 1 as [|v l Hv Hl IH]; intros a Ha; cbn [fold_left]; [done|]. apply IH. specialize (Hv el depth (fst a) Ha).
  by destruct (vs el v depth (fst a)).
Qed.

Lemma member_erred vs depth f ov st :
  held (keeps_error vs) ov ->
  erred st -> erred (fst (member_size vs depth f ov st)).
Proof.
  intros Hov Hst. unfold member_size.
  assert (forall v t, keeps_error vs v -> erred (fst (if left_out f v then (st, 0) else let (st, n) := vs t v depth st in (st, u64 (varint_size (key_of f (wire_of (f_type f))) + n))))) as Hone.
  { intros v t Hv. destruct (left_out f v); [done|]. specialize (Hv t depth st Hst). by destruct (vs t v depth st). }
  destruct ov as [v|]; [|by destruct (f_type f) as [| | | | | | | |[]|]]. destruct Hov as [Hv Hl].
  destruct (f_type f) as [s| | | | |i|i|i|[s| | | | |i|i|i|el|]|]; try (by apply Hone); destruct v as [| | | | | |l| | | |]; try (by apply Hone);
    try (by apply elements_erred). destruct l; [done|]. cbn [fst]. by apply check_erred.
  all: done.
Qed.

Lemma members_erred vs depth ovs : Forall (held (keeps_error vs)) ovs ->
  forall fs st total, erred st -> erred (fst (measure_members vs depth ovs fs st total)).
Proof.
  induction 1 as [|ov ovs Hov Hovs IH]; intros fs st total Hst; destruct fs as [|f fs]; try done. cbn [measure_members].
  pose proof (member_erred vs depth f ov st Hov Hst) as H. destruct (member_size vs depth f ov st). by apply IH.
Qed.

Lemma measure_with_erred vs depth m ovs st : Forall (held (keeps_error vs)) ovs ->
  erred st -> erred (fst (measure_with vs m ovs depth st)).
Proof.
  intros Hovs Hst. unfold measure_with. destruct (_ <? _); [apply st_fail_erred|].
  pose proof (members_erred vs depth ovs Hovs (m_fields m) st 0 Hst) as H. destruct (measure_members _ _ _ _ _ _) as [st1 total]. cbn [fst] in *.
  destruct (_ && _); [apply st_fail_erred|done].
Qed.

(** Induction on values for what member-wise functions need. *)
Lemma deep_ind (P : pvalue -> Prop) : (forall v, match v with VMsg vs => Forall (held P) vs | VLazyOf m => P m | _ => True end -> P v) -> forall v, deep P v.
Proof.
  intros HP v. induction v as [| | | | | |l Hl| |m IH| |vs Hvs] using pvalue_ind'; (split; [apply HP|try done]); try done.
  - eapply Forall_impl; [exact Hl|]. by intros x [? _].
  - apply IH.
Qed.

Lemma value_erred G v : deep (keeps_error (value_size G)) v.
Proof.
  apply deep_ind. clear v. intros v Hv t depth st Hst. destruct v as [b|x|u|s|b s| |l|b s|m|s|vs]; cbn [value_size]; try (by destruct t).
  - destruct t; by apply check_erred.
  - destruct t; by apply check_erred.
  - destruct t; try done. by apply Hv.
  - destruct t; try done. destruct (G !! m) as [mt|]; [|done].
    pose proof (measure_with_erred (value_size G) (depth + 1) mt vs (State (st_err st) (st_message st) (st_sizes st ++ [0])) Hv Hst) as H.
    by destruct (measure_with _ _ _ _ _).
Qed.

(** From [st] and a total of [acc], what has the nested sizes [sz] and an
    encoding of [len] bytes is measured, or found to be outside the limits. *)
Definition measures (acc : Z) (ok : bool) (sz : list Z) (len : Z) (st : state) (r : state * Z) : Prop :=
  st_err st = None -> if ok then r = (State None (st_message st) (st_sizes st ++ sz), acc + len) else erred (fst r).

Lemma measures_seq acc ok1 sz1 n1 st r1 ok2 sz2 n2 r : measures acc ok1 sz1 n1 st r1 ->
  (erred (fst r1) -> erred (fst r)) -> (snd r1 = acc + n1 -> measures (snd r1) ok2 sz2 n2 (fst r1) r) ->
  measures acc (ok1 && ok2) (sz1 ++ sz2) (n1 + n2) st r.
Proof.
  intros H1 Herr H2 Hst. specialize (H1 Hst). destruct ok1; cbn [andb]; [|by apply Herr]. subst r1.
  specialize (H2 eq_refl eq_refl). cbn [fst snd st_message st_sizes] in H2. destruct ok2; [|done]. rewrite H2, app_assoc. f_equal. lia.
Qed.

(** The total is computed from it. *)
Lemma measures_total acc acc' ok sz len len' st st1 n n' : measures acc ok sz len st (st1, n) -> (n = acc + len -> n' = acc' + len') ->
  measures acc' ok sz len' st (st1, n').
Proof. intros H Hn Hst. specialize (H Hst). destruct ok; [|done]. injection H as -> ->. f_equal. auto. Qed.

Lemma measures_here acc st n len : n = acc + len -> measures acc true [] len st (st, n).
Proof. intros -> E. rewrite app_nil_r. destruct st; cbn in *. by rewrite E. Qed.

Lemma measures_check acc what st n len (over : bool) : n = acc + len ->
  measures acc (negb over) [] len st (if over then st_fail what st else st, n).
Proof. intros Hn. destruct over; cbn [negb]; [|by apply measures_here]. intros _. apply st_fail_erred. Qed.

Lemma ltb_leb a b : negb (a <? b) = (b <=? a).
Proof. destruct (Z.ltb_spec a b), (Z.leb_spec b a); done || lia. Qed.

Lemma typed_scalar_eq G s v : typed G (PScalar s) v = scalar_typed s v.
Proof. by destruct v. Qed.

Lemma typed_scalars G s l : forallb (typed G (PScalar s)) l = forallb (scalar_typed s) l.
Proof. induction l as [|v l IH]; cbn [forallb]; [done|]. by rewrite typed_scalar_eq, IH. Qed.

Lemma len_size_spec (s : list Z) : zlen (enc_len s) < 2 ^ 64 -> len_size (zlen s) = zlen (enc_len s).
Proof.
  unfold enc_len, len_size. rewrite zlen_app. intros H. pose proof (zlen_nonneg s). pose proof (zlen_nonneg (uleb128_encode 64 (zlen s))).
  rewrite varint_size_spec by lia. by rewrite wrap_small by lia.
Qed.

Lemma key_size f wt : 0 <= f_id f <= 32767 -> 0 <= wt < 8 -> varint_size (key_of f wt) = zlen (enc_key f wt).
Proof. intros Hid Hw. apply varint_size_spec. by apply key_of_range. Qed.

(** A key and a value that fit. *)
Lemma keyed_size acc f wt bs : 0 <= f_id f <= 32767 -> 0 <= wt < 8 -> 0 <= acc -> acc + zlen (enc_key f wt ++ bs) < 2 ^ 64 ->
  u64 (acc + (varint_size (key_of f wt) + zlen bs)) = acc + zlen (enc_key f wt ++ bs).
Proof.
  intros Hid Hw Ha. rewrite key_size, zlen_app by done. intros. pose proof (zlen_nonneg (enc_key f wt)). pose proof (zlen_nonneg bs). by rewrite wrap_small by lia.
Qed.

Lemma app_small (a b : list Z) : zlen (a ++ b) < 2 ^ 64 -> zlen a < 2 ^ 64 /\ zlen b < 2 ^ 64.
Proof. rewrite zlen_app. pose proof (zlen_nonneg a). pose proof (zlen_nonneg b). lia. Qed.

Section Measured.
Context (G : list (message ptype)) (HG : env_ok G = true).

Definition value_measured (v : pvalue) : Prop := forall t depth st, inner t = t -> width_ok t = true -> typed G t v = true ->
  zlen (enc G t v) < 2 ^ 64 -> measures 0 (limits G depth t v) (nested_sizes G t v) (zlen (enc G t v)) st (value_size G t v depth st).

Definition enc_elements (f : field ptype) (el : ptype) (l : list pvalue) : list Z :=
  concat (List.map (fun v => enc_key f wire_len ++ enc G el v) l).

Lemma elements_measured f el depth l : elem_ok el = true -> 0 <= f_id f <= 32767 -> Forall value_measured l -> forallb (typed G el) l = true ->
  forall acc st, 0 <= acc -> acc + zlen (enc_elements f el l) < 2 ^ 64 ->
  measures acc (forallb (limits G depth el) l) (concat (List.map (nested_sizes G el) l)) (zlen (enc_elements f el l)) st
    (fold_left (fun (a : state * Z) v => let (st, n) := value_size G el v depth (fst a) in
        (st, u64 (snd a + (varint_size (key_of f wire_len) + n)))) l (st, acc)).
Proof using.
  intros He Hid Hl Ht. destruct (elem_inner el He) as [Hin Hw]. unfold enc_elements.
  induction Hl as [|v l Hv Hl IH]; intros acc st Hacc Hb; cbn [fold_left List.map concat forallb] in *.
  - apply measures_here. change (zlen []) with 0. lia.
  - apply andb_true_iff in Ht as [Htv Ht]. rewrite zlen_app in Hb |- *. pose proof (zlen_nonneg (enc_elements f el l)) as H3. unfold enc_elements in H3.
    assert (zlen (enc G el v) < 2 ^ 64) as Hsm by (apply (app_small (enc_key f wire_len)); lia). cbn [fst snd].
    pose proof (Hv el depth st Hin Hw Htv Hsm) as Hm. destruct (value_size G el v depth st) as [st1 n].
    apply (measures_seq _ _ _ _ _ (st1, u64 (acc + (varint_size (key_of f wire_len) + n)))); [eapply measures_total; [exact Hm|]| |].
    + intros ->. rewrite Z.add_0_l. apply keyed_size; done || lia.
    + intros Herr. apply elements_erred; [|done]. apply Forall_true. intros x. apply value_erred.
    + cbn [fst snd]. intros ->. apply IH; [done| |lia]. pose proof (zlen_nonneg (enc_key f wire_len ++ enc G el v)). lia.
Qed.

Lemma packed_measured f s l st : scalar_ok s = true -> 0 <= f_id f <= 32767 -> forallb (scalar_typed s) l = true ->
  zlen (enc_key f wire_len ++ enc_len (concat (List.map (enc_scalar s) l))) < 2 ^ 64 ->
  measures 0 (zlen (concat (List.map (enc_scalar s) l)) <=? max_len) [] (zlen (enc_key f wire_len ++ enc_len (concat (List.map (enc_scalar s) l)))) st
    (if max_len <? packed_size s l then st_fail "a packed repeated field longer than protobuf's 2 GiB limit" st else st,
     u64 (varint_size (key_of f wire_len) + len_size (packed_size s l))).
Proof using.
  intros Hs Hid Ht Hb. apply app_small in Hb as H2. destruct H2 as [_ H2]. pose proof H2 as H3. apply app_small in H3 as [_ H3].
  rewrite packed_size_spec by done. rewrite <- ltb_leb. apply measures_check. rewrite len_size_spec by done.
  rewrite <- (Z.add_0_l (varint_size _ + _)). by apply keyed_size.
Qed.

(** The bytes a member adds to its message. *)
Definition member_len (f : field ptype) (ov : option pvalue) : Z :=
  zlen (enc_member (enc G) f ov) + match f_type f, ov with PUnknown, Some (VUnknown s) => zlen s | _, _ => 0 end.

Lemma single_measured depth f v st : 0 <= f_id f <= 32767 -> width_ok (inner (f_type f)) = true -> inner (inner (f_type f)) = inner (f_type f) ->
  typed G (inner (f_type f)) v = true -> value_measured v ->
  zlen (if left_out f v then [] else enc_key f (wire_of (f_type f)) ++ enc G (inner (f_type f)) v) < 2 ^ 64 ->
  measures 0 (left_out f v || limits G depth (inner (f_type f)) v) (if left_out f v then [] else nested_sizes G (inner (f_type f)) v)
    (zlen (if left_out f v then [] else enc_key f (wire_of (f_type f)) ++ enc G (inner (f_type f)) v)) st
    (if left_out f v then (st, 0)
     else let (st, n) := value_size G (inner (f_type f)) v depth st in (st, u64 (varint_size (key_of f (wire_of (f_type f))) + n))).
Proof using.
  intros Hid Hw Hin Ht Hv Hb. destruct (left_out f v); cbn [orb]; [by apply measures_here|].
  apply app_small in Hb as Hb'. destruct Hb' as [_ Hb'].
  pose proof (Hv _ depth st Hin Hw Ht Hb') as Hm. destruct (value_size G (inner (f_type f)) v depth st) as [st1 n].
  eapply measures_total; [exact Hm|]. intros ->. rewrite Z.add_0_l. rewrite <- (Z.add_0_l (varint_size _ + _)).
  apply keyed_size; try done. apply wire_of_range.
Qed.

Lemma member_measured k depth f ov st : field_ok G k f = true -> 0 <= f_id f <= 32767 -> typed_member G ov f -> held value_measured ov ->
  member_len f ov < 2 ^ 64 ->
  measures 0 (member_limits (limits G depth) f ov) (member_sizes (nested_sizes G) f ov) (member_len f ov) st (member_size (value_size G) depth f ov st).
Proof using.
  intros Hf Hid Ht Hov Hb. pose proof (field_ok_elem G k f Hf) as He. unfold member_len, member_limits, member_sizes, member_size, enc_member in *.
  destruct ov as [v|]; [|destruct (f_type f) as [| | | | | | | |[]|]; by apply measures_here].
  destruct Hov as [Hv Hl]. unfold typed_member in Ht. pose proof (single_measured depth f v st Hid) as Hone.
  destruct (f_type f) as [s| | | | |i|i|i|el|] eqn:Et; rewrite ?Z.add_0_r in *.
  9: { cbn [inner] in Ht. destruct v as [| | | | | |l| | | |]; try done. cbn [typed] in Ht.
       destruct el as [s| | | | |i|i|i|el|]; try done; try (apply elements_measured; done).
       destruct l as [|x l]; [by apply measures_here|]. apply packed_measured; [done..| |done]. by rewrite <- (typed_scalars G). }
  9: { cbn [inner] in Ht. destruct v as [| | | | | | | | |u|]; try done. by apply measures_here. }
  all: destruct (elem_inner _ He) as [? ?]; try (apply Hone; done).
Qed.
Fixpoint members_len (vs : list (option pvalue)) (fs : list (field ptype)) : Z :=
  match vs, fs with
  | ov :: vs, f :: fs => member_len f ov + members_len vs fs
  | _, _ => 0
  end.

Lemma member_len_nonneg f ov : 0 <= member_len f ov.
Proof using.
  unfold member_len. pose proof (zlen_nonneg (enc_member (enc G) f ov)).
  destruct (f_type f); try lia. destruct ov as [[| | | | | | | | |s|]|]; try lia. pose proof (zlen_nonneg s). lia.
Qed.

Lemma members_len_nonneg vs fs : 0 <= members_len vs fs.
Proof using.
  revert fs. induction vs as [|ov vs IH]; intros [|f fs]; cbn [members_len]; try lia. pose proof (member_len_nonneg f ov). specialize (IH fs). lia.
Qed.

Lemma members_measured k depth vs fs : Forall2 (typed_member G) vs fs -> Forall (fun f => field_ok G k f = true) fs ->
  Forall (fun f => 0 <= f_id f <= 32767) fs -> Forall (held value_measured) vs -> forall acc st, 0 <= acc -> acc + members_len vs fs < 2 ^ 64 ->
  measures acc (members_limits (limits G depth) vs fs) (each_member (member_sizes (nested_sizes G)) vs fs) (members_len vs fs) st
    (measure_members (value_size G) depth vs fs st acc).
Proof using.
  induction 1 as [|ov f vs fs Hov Hvs IH]; intros Hok Hid Hm acc st Hacc Hb; cbn [members_limits each_member members_len measure_members] in *;
    [apply measures_here; lia|].
  apply Forall_cons in Hok as [Hf Hok], Hid as [Hfid Hid], Hm as [Hh Hm].
  pose proof (member_len_nonneg f ov) as H1. pose proof (members_len_nonneg vs fs) as H2.
  pose proof (member_measured k depth f ov st Hf Hfid Hov Hh ltac:(lia)) as H3.
  destruct (member_size (value_size G) depth f ov st) as [st1 n].
  apply (measures_seq _ _ _ _ _ (st1, u64 (acc + n))); [eapply measures_total; [exact H3|]; intros ->; rewrite wrap_small; lia| |].
  - intros Herr. apply members_erred; [|done]. apply Forall_true. intros [v|]; [|done]. apply value_erred.
  - cbn [fst snd]. intros ->. apply IH; try done; lia.
Qed.

(** Only the first member has unknown fields to add. *)
Lemma message_len k m vs : G !! k = Some m -> Forall2 (typed_member G) vs (m_fields m) ->
  members_len vs (m_fields m) = zlen (enc_message (enc G) m vs).
Proof using HG.
  intros Hm Hvs. destruct (pb_env_ok_lookup G HG k m Hm) as (Hok & _ & Hfok). destruct (message_ok_ids m Hok) as (Hsort & Hid & _).
  unfold enc_message. rewrite zlen_app.
  assert (forall vs fs, Forall (fun f => f_type f <> PUnknown) fs -> members_len vs fs = zlen (each_member (enc_member (enc G)) vs fs)) as Hrest.
  { clear. induction vs as [|ov vs IH]; intros fs Hfs; destruct Hfs as [|f fs Hf Hfs]; try done. cbn [members_len each_member]. rewrite zlen_app, IH by done.
    unfold member_len. by destruct (f_type f); rewrite ?Z.add_0_r. }
  unfold has_unknown, ids in *. destruct Hvs as [|ov f vs fs Hov Hvs]; [done|].
  apply Forall_cons in Hfok as [Hf Hfok]. rewrite fmap_cons in *. apply StronglySorted_inv in Hsort as [_ Hsort].
  apply Forall_cons in Hid as [Hid0 Hid].
  assert (Forall (fun f => f_type f <> PUnknown) fs) as Hne.
  { rewrite Forall_fmap in Hsort. apply Forall_forall. intros g Hg Hbad. rewrite Forall_forall in Hfok, Hsort.
    apply (field_ok_unknown G k g (Hfok g Hg)) in Hbad. specialize (Hsort g Hg). cbn in Hsort. lia. }
  cbn [members_len each_member]. rewrite Hrest, zlen_app by done. unfold member_len.
  destruct (Z.eqb_spec (f_id f) 0) as [E0|E0].
  - apply (field_ok_unknown G k f Hf) in E0 as Et. rewrite Et. unfold typed_member, opt_like, field_ok in *. rewrite Et in *. cbn [inner] in Hov.
    rewrite !andb_true_iff, negb_true_iff in Hf. destruct Hf as [[[[_ Ho] _] _] _]. rewrite Ho in Hov.
    destruct ov as [[| | | | | | | | |s|]|]; try done. cbn [unknown_bytes]. lia.
  - assert (f_type f <> PUnknown) as Ht by (by intros ?%(field_ok_unknown G k f Hf)). change (zlen []) with 0.
    destruct (f_type f); try done; lia.
Qed.

Lemma message_measured k m vs depth st : G !! k = Some m -> Forall2 (typed_member G) vs (m_fields m) -> Forall (held value_measured) vs ->
  zlen (enc_message (enc G) m vs) < 2 ^ 64 ->
  measures 0 ((depth <=? max_tagged_depth) && members_limits (limits G depth) vs (m_fields m) && (zlen (enc_message (enc G) m vs) <=? max_len))
    (each_member (member_sizes (nested_sizes G)) vs (m_fields m)) (zlen (enc_message (enc G) m vs)) st (measure_with (value_size G) m vs depth st).
Proof using HG.
  intros Hm Hvs Hmv Hb Hst. destruct (pb_env_ok_lookup G HG k m Hm) as (Hok & _ & Hfok). destruct (message_ok_ids m Hok) as (_ & Hid & _).
  unfold ids in Hid. rewrite Forall_fmap in Hid. unfold measure_with. rewrite <- (ltb_leb max_tagged_depth).
  destruct (max_tagged_depth <? depth); cbn [negb andb]; [apply st_fail_erred|].
  rewrite <- (message_len k m vs Hm Hvs) in *.
  pose proof (members_measured k depth vs (m_fields m) Hvs Hfok Hid Hmv 0 st ltac:(lia) ltac:(lia) Hst) as H.
  destruct (measure_members _ _ _ _ _ _) as [st1 total]. cbn [fst] in H. destruct (members_limits _ _ _); cbn [andb].
  - injection H as -> ->. cbn [st_err]. rewrite andb_true_r, Z.add_0_l, <- ltb_leb. destruct (_ <? _); cbn [negb]; [apply st_fail_erred|done].
  - cbn [fst]. destruct (_ && _); [apply st_fail_erred|done].
Qed.

Lemma all_measured v : deep value_measured v.
Proof using HG.
  apply deep_ind. clear v. intros v Hv t depth st Hin Hw Ht Hb.
  destruct v as [b|x|u|s|b s| |l|b s|m|s|vs]; try (destruct t as [sc| | | | |i|i|i|el|]; try done;
    cbn [enc limits nested_sizes value_size] in *; rewrite typed_scalar_eq in Ht; apply measures_here; rewrite Z.add_0_l; by apply scalar_size_spec).
  all: destruct t as [sc| | | | |i|i|i|el|]; try done; try (by destruct sc); cbn [enc limits nested_sizes value_size] in *.
  - rewrite <- ltb_leb. apply measures_check. by rewrite len_size_spec.
  - rewrite <- ltb_leb. apply measures_check. by rewrite len_size_spec.
  - rewrite <- ltb_leb. apply measures_check. by rewrite len_size_spec.
  - by apply measures_here.
  - by apply measures_here.
  - apply measures_here. by rewrite len_size_spec.
  - by apply Hv.
  - by apply measures_here.
  - destruct (pb_typed_message_inv G i _ Ht) as (m & vs' & Hm & [= <-] & Hvs & _). rewrite Hm in *. intros Hst.
    apply app_small in Hb as Hb'. destruct Hb' as [_ Hb'].
    pose proof (message_measured i m vs (depth + 1) (State (st_err st) (st_message st) (st_sizes st ++ [0])) Hm Hvs Hv Hb' Hst) as H.
    destruct (measure_with _ _ _ _ _) as [st1 n]. cbn [st_message st_sizes] in H. destruct (_ && _ && _); [|done]. injection H as -> ->.
    cbn [st_err st_message st_sizes]. rewrite !Z.add_0_l, len_size_spec by done. f_equal. f_equal.
    rewrite <- app_assoc. cbn [app]. by rewrite insert_app_r_alt, Nat.sub_diag.
Qed.
End Measured.

Lemma fixed_bytes_le u n : n = 4 \/ n = 8 -> List.map (fun i => u8 (Z.shiftr u (8 * i))) (seqZ 0 n) = le_bytes (Z.to_nat n) u.
Proof. intros [-> | ->]; cbn; by rewrite ?Z.shiftr_shiftr by lia. Qed.

Section Write.
Context {S : Type} `{ByteSink S} (s0 : S) (G : list (message ptype)) (HG : env_ok G = true) (sizes : list Z).

(** The writer has taken [bs] (or been refused), and [next] is [n] unless the
    writer failed before it got there. *)
Record at_pos (bs : list Z) (n : nat) (x : position) : Prop := At {
  ap_wrote : wrote s0 bs (fst x);
  ap_le : (snd x <= n)%nat;
  ap_next : failed (fst x) = false -> snd x = n
}.

(** A write after which the writer has also taken [b]. *)
Record writes (b : list Z) (op : writer S -> writer S) : Prop := Writes {
  wr_wrote : forall bs w, wrote s0 bs w -> wrote s0 (bs ++ b) (op w);
  wr_failed : forall w, failed w = true -> failed (op w) = true
}.

Lemma writes_at b op bs n w k : writes b op -> at_pos bs n (w, k) -> at_pos (bs ++ b) n (op w, k).
Proof using.
  intros [Hw Hf] [H1 H2 H3]. cbn [fst snd] in *. constructor; cbn [fst snd]; [auto|done|]. intros E. apply H3.
  destruct (failed w) eqn:Ew; [|done]. rewrite Hf in E; done.
Qed.

Lemma writes_compose a b op op' : writes a op -> writes b op' -> writes (a ++ b) (fun w => op' (op w)).
Proof using. intros [H1 H2] [H3 H4]. constructor; [|auto]. intros bs w Hw. rewrite app_assoc. auto. Qed.

Lemma writes_varint v : 0 <= v < 2 ^ 64 -> writes (uleb128_encode 64 v) (w_varint v).
Proof using. intros Hv. constructor; [intros; by apply varint_wrote|intros; by apply varint_failed]. Qed.

Lemma writes_raw b : writes b (w_raw b).
Proof using. constructor; [intros; by apply raw_wrote|intros; by apply raw_failed]. Qed.

Lemma writes_len s : zlen s < 2 ^ 64 -> writes (enc_len s) (fun w => w_raw s (w_varint (zlen s) w)).
Proof using. intros Hs. apply writes_compose; [|apply writes_raw]. apply writes_varint. pose proof (zlen_nonneg s). lia. Qed.

Lemma writes_fixed u n : n = 4 \/ n = 8 -> writes (le_bytes (Z.to_nat n) u) (w_fixed u n).
Proof using.
  intros Hn. assert (Hl : zlen (le_bytes (Z.to_nat n) u) = n) by (unfold zlen; rewrite length_le_bytes; lia). constructor.
  - intros bs w Hw. unfold w_fixed. rewrite fixed_bytes_le by done.
    apply (flush_stage s0 bs _ (buf_size - zlen (w_buf w) <? 8)); [rewrite Hl; unfold buf_size; lia|done|]. rewrite Hl. intros Hb%Z.ltb_ge ?. lia.
  - intros w Hf. unfold w_fixed. rewrite flush_failed by done. destruct (_ <? _); cbv zeta; by rewrite Hf.
Qed.

Lemma writes_scalar s v : scalar_ok s = true -> scalar_typed s v = true -> writes (enc_scalar s v) (write_scalar s v).
Proof using.
  intros Hs Ht. unfold enc_scalar, write_scalar. destruct (_ =? _); [by apply writes_varint, varint_value_range|].
  apply writes_fixed, fixed_size_cases.
Qed.

Lemma writes_scalars s l : scalar_ok s = true -> forallb (scalar_typed s) l = true ->
  writes (concat (List.map (enc_scalar s) l)) (fun w => fold_left (fun w v => write_scalar s v w) l w).
Proof using.
  intros Hs. induction l as [|v l IH]; cbn [forallb List.map concat fold_left]; intros Ht.
  - constructor; [intros bs w; by rewrite app_nil_r|done].
  - apply andb_true_iff in Ht as [Hv Ht]. apply (writes_compose _ _ (write_scalar s v)); [by apply writes_scalar|auto].
Qed.

Lemma writes_key f wt : 0 <= f_id f <= 32767 -> 0 <= wt < 8 -> writes (enc_key f wt) (w_varint (key_of f wt)).
Proof using. intros Hid Hw. apply writes_varint. by apply key_of_range. Qed.

(** [sz] are the sizes from [n] on. *)
Definition sized (n : nat) (sz : list Z) : Prop := exists a b, sizes = a ++ sz ++ b /\ length a = n.

Lemma sized_app n a b : sized n (a ++ b) -> sized n a /\ sized (n + length a) b.
Proof using.
  intros (x & y & E & <-). split; [exists x, (b ++ y)|exists (x ++ a), y]; by rewrite E, ?length_app, <- ?app_assoc.
Qed.

(** What a step of the pass does: it takes [bs], having used the sizes [sz]. *)
Definition delivers (bs sz : list Z) (step : position -> option position) : Prop := forall pre n x, at_pos pre n x -> sized n sz ->
  exists x', step x = Some x' /\ at_pos (pre ++ bs) (n + length sz) x'.

Lemma delivers_seq b1 z1 b2 z2 f g : delivers b1 z1 f -> delivers b2 z2 g ->
  delivers (b1 ++ b2) (z1 ++ z2) (fun x => match f x with Some x => g x | None => None end).
Proof using.
  intros Hf Hg pre n x Hx Hz. apply sized_app in Hz as [Hz1 Hz2]. destruct (Hf pre n x Hx Hz1) as (y & -> & Hy).
  destruct (Hg _ _ y Hy Hz2) as (z & -> & Hz). exists z. rewrite app_assoc, length_app, Nat.add_assoc. done.
Qed.

Lemma delivers_op b op : writes b op -> delivers b [] (fun x => Some (op (fst x), snd x)).
Proof using. intros Hop pre n [w k] Hx _. eexists. split; [done|]. cbn [length fst snd]. rewrite Nat.add_0_r. by apply writes_at. Qed.

Lemma delivers_nothing : delivers [] [] Some.
Proof using. intros pre n x Hx _. exists x. cbn [length]. by rewrite app_nil_r, Nat.add_0_r. Qed.

(** A write before a step. *)
Lemma delivers_after b op bs sz g : writes b op -> delivers bs sz g -> delivers (b ++ bs) sz (fun x => g (op (fst x), snd x)).
Proof using.
  intros Hop Hg. exact (delivers_seq b [] bs sz (fun x => Some (op (fst x), snd x)) g (delivers_op b op Hop) Hg).
Qed.

Definition value_delivers (v : pvalue) : Prop := forall t, elem_ok t = true -> typed G t v = true ->
  zlen (enc G t v) < 2 ^ 64 -> delivers (enc G t v) (nested_sizes G t v) (write_value G sizes t v).

Lemma keyed_delivers f wt t v : 0 <= f_id f <= 32767 -> 0 <= wt < 8 -> elem_ok t = true -> typed G t v = true ->
  zlen (enc_key f wt ++ enc G t v) < 2 ^ 64 -> value_delivers v ->
  delivers (enc_key f wt ++ enc G t v) (nested_sizes G t v) (write_keyed (write_value G sizes) f wt t v).
Proof using.
  intros Hid Hwt He Ht Hb Hv. apply app_small in Hb as [_ Hb]. unfold write_keyed.
  apply (delivers_after _ (w_varint (key_of f wt)) _ _ (write_value G sizes t v)); [by apply writes_key|by apply Hv].
Qed.

Lemma elements_deliver f el l : elem_ok el = true -> 0 <= f_id f <= 32767 -> Forall value_delivers l -> forallb (typed G el) l = true ->
  zlen (enc_elements G f el l) < 2 ^ 64 ->
  delivers (enc_elements G f el l) (concat (List.map (nested_sizes G el) l)) (write_each (write_keyed (write_value G sizes) f wire_len el) l).
Proof using.
  intros He Hid Hl Ht. unfold enc_elements.
  induction Hl as [|v l Hv Hl IH]; cbn [write_each List.map concat forallb] in *; intros Hb; [apply delivers_nothing|].
  apply andb_true_iff in Ht as [Htv Ht]. apply app_small in Hb as [Hb1 Hb2].
  apply (delivers_seq _ _ _ _ (write_keyed (write_value G sizes) f wire_len el v)); [by apply keyed_delivers|auto].
Qed.

Lemma packed_delivers f s l : scalar_ok s = true -> 0 <= f_id f <= 32767 -> forallb (scalar_typed s) l = true ->
  zlen (enc_key f wire_len ++ enc_len (concat (List.map (enc_scalar s) l))) < 2 ^ 64 ->
  delivers (enc_key f wire_len ++ enc_len (concat (List.map (enc_scalar s) l))) []
    (fun x => Some (fold_left (fun w v => write_scalar s v w) l (w_varint (packed_size s l) (w_varint (key_of f wire_len) (fst x))), snd x)).
Proof using.
  intros Hs Hid Ht Hb. apply app_small in Hb as [_ Hb]. apply app_small in Hb as [_ Hb].
  rewrite packed_size_spec by done. pose proof (zlen_nonneg (concat (List.map (enc_scalar s) l))) as Hn.
  apply (delivers_op _ (fun w => fold_left (fun w v => write_scalar s v w) l (w_varint (zlen (concat (List.map (enc_scalar s) l))) (w_varint (key_of f wire_len) w)))).
  apply (writes_compose _ _ (w_varint (key_of f wire_len))
    (fun w => fold_left (fun w v => write_scalar s v w) l (w_varint (zlen (concat (List.map (enc_scalar s) l))) w))); [by apply writes_key|].
  apply (writes_compose _ _ (w_varint _) (fun w => fold_left (fun w v => write_scalar s v w) l w)); [by apply writes_varint|by apply writes_scalars].
Qed.

Lemma single_delivers f v : 0 <= f_id f <= 32767 -> elem_ok (inner (f_type f)) = true ->
  typed G (inner (f_type f)) v = true -> value_delivers v ->
  zlen (if left_out f v then [] else enc_key f (wire_of (f_type f)) ++ enc G (inner (f_type f)) v) < 2 ^ 64 ->
  delivers (if left_out f v then [] else enc_key f (wire_of (f_type f)) ++ enc G (inner (f_type f)) v)
    (if left_out f v then [] else nested_sizes G (inner (f_type f)) v)
    (fun x => if left_out f v then Some x else write_keyed (write_value G sizes) f (wire_of (f_type f)) (inner (f_type f)) v x).
Proof using.
  intros Hid He Ht Hv Hb. destruct (left_out f v); [apply delivers_nothing|]. apply keyed_delivers; try done. apply wire_of_range.
Qed.

Lemma member_delivers k f ov : field_ok G k f = true -> 0 <= f_id f <= 32767 -> typed_member G ov f -> held value_delivers ov ->
  zlen (enc_member (enc G) f ov) < 2 ^ 64 ->
  delivers (enc_member (enc G) f ov) (member_sizes (nested_sizes G) f ov) (write_member (write_value G sizes) f ov).
Proof using.
  intros Hf Hid Ht Hov Hb. pose proof (field_ok_elem G k f Hf) as He. unfold member_sizes, write_member, enc_member in *.
  destruct ov as [v|]; [|destruct (f_type f) as [| | | | | | | |[]|]; apply delivers_nothing].
  destruct Hov as [Hv Hl]. unfold typed_member in Ht. pose proof (single_delivers f v Hid) as Hone.
  destruct (f_type f) as [s| | | | |i|i|i|el|] eqn:Et.
  9: { cbn [inner] in Ht. destruct v as [| | | | | |l| | | |]; try done. cbn [typed] in Ht.
       destruct el as [s| | | | |i|i|i|el|]; try done; try (by apply elements_deliver).
       destruct l as [|x l]; [apply delivers_nothing|]. apply packed_delivers; try done. by rewrite <- (typed_scalars G). }
  9: { cbn [inner] in Ht. destruct v as [| | | | | | | | |u|]; try done. apply delivers_nothing. }
  all: by apply Hone.
Qed.

(** After a failure what is still to come makes no difference. *)
Lemma at_failed pre bs n k x : failed (fst x) = true -> at_pos pre n x -> (n <= k)%nat -> at_pos (pre ++ bs) k x.
Proof using.
  intros Hf [H1 H2 _] Hk. constructor; [|lia|congruence]. destruct H1 as [H1|H1]; [apply failed_taken in H1; congruence|].
  right. by apply refused_app.
Qed.

Lemma members_deliver k vs fs : Forall2 (typed_member G) vs fs -> Forall (fun f => field_ok G k f = true) fs ->
  Forall (fun f => 0 <= f_id f <= 32767) fs -> Forall (held value_delivers) vs -> zlen (each_member (enc_member (enc G)) vs fs) < 2 ^ 64 ->
  delivers (each_member (enc_member (enc G)) vs fs) (each_member (member_sizes (nested_sizes G)) vs fs) (write_members (write_value G sizes) vs fs).
Proof using.
  induction 1 as [|ov f vs fs Hov Hvs IH]; intros Hok Hid Hm Hb; cbn [each_member write_members] in *; [apply delivers_nothing|].
  apply Forall_cons in Hok as [Hf Hok], Hid as [Hfid Hid], Hm as [Hh Hm]. apply app_small in Hb as [Hb1 Hb2].
  specialize (IH Hok Hid Hm Hb2). intros pre n x Hx Hz. apply sized_app in Hz as Hz'. destruct Hz' as [Hz1 Hz2].
  destruct (failed (fst x)) eqn:Ef.
  - destruct (IH (pre ++ enc_member (enc G) f ov) (n + length (member_sizes (nested_sizes G) f ov))%nat x) as (y & Ey & Hy); [|done|].
    { eapply at_failed; [done|exact Hx|lia]. }
    exists y. rewrite app_assoc, length_app, Nat.add_assoc. done.
  - destruct (member_delivers k f ov Hf Hfid Hov Hh Hb1 pre n (w_at (w_message (fst x)) (f_name f) (fst x), snd x)) as (y & Ey & Hy); [|done|].
    { destruct Hx as [H1 H2 H3]. constructor; cbn [fst snd]; [by apply at_wrote|done|intros _; by apply H3]. }
    rewrite Ey. destruct (IH _ _ y Hy Hz2) as (z & Ez & Hz'). exists z. rewrite app_assoc, length_app, Nat.add_assoc. done.
Qed.

Lemma at_named pre n x m f : at_pos pre n x -> at_pos pre n (w_at m f (fst x), snd x).
Proof using. intros [H1 H2 H3]. constructor; cbn [fst snd]; [by apply at_wrote|done|exact H3]. Qed.

Lemma message_delivers k m vs : G !! k = Some m -> Forall2 (typed_member G) vs (m_fields m) -> Forall (held value_delivers) vs ->
  zlen (enc_message (enc G) m vs) < 2 ^ 64 ->
  delivers (enc_message (enc G) m vs) (each_member (member_sizes (nested_sizes G)) vs (m_fields m)) (write_message (write_value G sizes) m vs).
Proof using HG.
  intros Hm Hvs Hh Hb pre n x Hx Hz. destruct (pb_env_ok_lookup G HG k m Hm) as (Hok & _ & Hfok). destruct (message_ok_ids m Hok) as (_ & Hid & _).
  unfold ids in Hid. rewrite Forall_fmap in Hid. unfold enc_message in *. apply app_small in Hb as [Hb1 Hb2].
  destruct (members_deliver k vs (m_fields m) Hvs Hfok Hid Hh Hb1 pre n _ (at_named _ _ _ (m_name m) (w_field (fst x)) Hx) Hz) as ([w next] & E & Hy).
  unfold write_message. rewrite E. eexists. split; [done|]. rewrite app_assoc.
  assert (forall b (c : writer S), at_pos b (n + length (each_member (member_sizes (nested_sizes G)) vs (m_fields m))) (c, next) ->
    at_pos b (n + length (each_member (member_sizes (nested_sizes G)) vs (m_fields m))) (if failed c then c else w_at (w_message (fst x)) (w_field (fst x)) c, next)) as Hend.
  { intros b c Hc. destruct (failed c); [done|]. exact (at_named _ _ (c, next) _ _ Hc). }
  apply Hend. destruct (has_unknown m).
  - apply (writes_at _ (w_raw (unknown_bytes vs))); [apply writes_raw|]. exact (at_named _ _ (w, next) _ _ Hy).
  - by rewrite app_nil_r.
Qed.

(** The size recorded at a nested message, whatever it is once the writer failed. *)
Lemma size_at pre n z sz x : at_pos pre n x -> sized n (z :: sz) -> 0 <= z < 2 ^ 64 ->
  exists m, sizes !! snd x = Some m /\ at_pos (pre ++ uleb128_encode 64 z) (Datatypes.S n) (w_varint m (fst x), Datatypes.S (snd x)).
Proof using.
  intros Hx (a & b & Es & Hl) Hz. destruct Hx as [H1 H2 H3].
  destruct (lookup_lt_is_Some_2 sizes (snd x)) as [m Em]; [rewrite Es, length_app; cbn [length app]; lia|].
  exists m. split; [done|]. destruct (failed (fst x)) eqn:Ef.
  - apply (at_failed _ _ (Datatypes.S n) (Datatypes.S n)); cbn [fst snd]; [by apply varint_failed| |lia].
    constructor; cbn [fst snd]; [|lia|intros Hw; rewrite varint_failed in Hw; done].
    destruct H1 as [H1|H1]; [apply failed_taken in H1; congruence|]. right. unfold w_varint. rewrite flush_failed by done.
    cbv zeta. destruct (_ <? _); by rewrite Ef.
  - specialize (H3 eq_refl). rewrite H3, Es, lookup_app_r, Hl, Nat.sub_diag in Em by lia. injection Em as <-.
    apply (writes_at _ (w_varint z)); [by apply writes_varint|]. constructor; cbn [fst snd]; [done|lia|]. intros _. lia.
Qed.

Lemma len_delivers s g : zlen (enc_len s) < 2 ^ 64 -> (forall x, g x = Some (w_raw s (w_varint (zlen s) (fst x)), snd x)) -> delivers (enc_len s) [] g.
Proof using.
  intros Hs Hg pre n x Hx Hz. rewrite Hg. apply app_small in Hs as [_ Hs].
  exact (delivers_op (enc_len s) (fun w => w_raw s (w_varint (zlen s) w)) (writes_len s Hs) pre n x Hx Hz).
Qed.

Lemma all_deliver v : deep value_delivers v.
Proof using HG.
  apply deep_ind. clear v. intros v Hv t He Ht Hb.
  destruct v as [b|x|u|s|b s| |l|b s|m|s|vs]; try (destruct t as [sc| | | | |i|i|i|el|]; try done; cbn [enc nested_sizes] in *;
    rewrite typed_scalar_eq in Ht; apply (delivers_op _ (write_scalar sc _)); by apply writes_scalar).
  all: destruct t as [sc| | | | |i|i|i|el|]; try done; try (by destruct sc); cbn [enc nested_sizes] in *.
  1-3, 5: by apply len_delivers.
  - intros pre n x Hx _. eexists. split; [done|]. change (enc_len []) with (uleb128_encode 64 0 ++ []). rewrite app_nil_r, Nat.add_0_r.
    apply (writes_at _ (w_varint 0)); [by apply writes_varint|]. by destruct x.
  - by apply Hv.
  - destruct (pb_typed_message_inv G i _ Ht) as (m & vs' & Hm & [= <-] & Hvs & _). rewrite Hm in *. apply app_small in Hb as [_ Hb].
    intros pre n x Hx Hz. pose proof (zlen_nonneg (enc_message (enc G) m vs)).
    destruct (size_at pre n _ _ x Hx Hz ltac:(lia)) as (z & Ez & Hy). cbn [write_value]. rewrite Hm, Ez.
    apply (sized_app n [_]) in Hz as [_ Hz]. cbn [length] in Hz. rewrite Nat.add_1_r in Hz.
    destruct (message_delivers i m vs Hm Hvs Hv Hb _ _ _ Hy Hz) as (y & Ey & Hy'). exists y. split; [done|].
    unfold enc_len. rewrite app_assoc. cbn [length]. by rewrite Nat.add_succ_r.
Qed.
End Write.

(** ** The entry points *)
Section Encode.
Context {S : Type} `{ByteSink S} (G : list (message ptype)) (HG : env_ok G = true).

Lemma flat_member f ov : has_message (f_type f) = false -> member_sizes (nested_sizes G) f ov = [].
Proof using.
  unfold member_sizes. intros Hf. assert (forall t v, has_message t = false -> nested_sizes G t v = []) as Hone.
  { intros t v Ht. by destruct v, t. }
  assert (forall t v, has_message (inner t) = false -> (if left_out f v then [] else nested_sizes G (inner t) v) = []) as Hmem.
  { intros t v Ht. destruct (left_out f v); [done|by apply Hone]. }
  destruct (f_type f) as [s| | | | |i|i|i|el|] eqn:Et; try done; destruct ov as [v|]; try done; try (by apply (Hmem (PScalar s)));
    try (by apply (Hmem PString)); try (by apply (Hmem PView)); try (by apply (Hmem PBytes)); try (by apply (Hmem PEmpty)); [|by destruct el].
  destruct v as [| | | | | |l| | | |]; try (destruct el; try done; by apply (Hmem (PVector _))).
  assert (concat (List.map (nested_sizes G el) l) = []) as Hl; [|by destruct el].
  induction l as [|v l IH]; [done|]. cbn [List.map concat]. by rewrite Hone, IH.
Qed.

Lemma flat_sizes m vs : has_nested m = false -> each_member (member_sizes (nested_sizes G)) vs (m_fields m) = [].
Proof using.
  unfold has_nested. generalize (m_fields m). induction vs as [|ov vs IH]; intros [|f fs]; cbn [existsb each_member]; try done.
  intros [Hf Hfs]%orb_false_iff. by rewrite flat_member, IH.
Qed.

Lemma error_delivered mt (s : S) bs res : delivered s bs res ->
  delivered s bs (match res with (s, inl n) => (s, inl n) | (s, inr e) => (s, inr (error_of mt e)) end).
Proof using.
  destruct res as [s' [n|e]]; [done|]. intros [[? _]|(msg & fld & a & b & s1 & E & ?)]; [done|]. cbn [fst snd] in *. injection E as ->.
  right. eexists _, _, a, b, s1. split; [reflexivity|done].
Qed.

(** Writing with the recorded sizes. *)
Lemma writing_delivers k mt vs sizes (s : S) : G !! k = Some mt -> typed_members G mt vs -> zlen (enc_message (enc G) mt vs) < 2 ^ 64 ->
  sizes = each_member (member_sizes (nested_sizes G)) vs (m_fields mt) ->
  exists w n, write_message (write_value G sizes) mt vs (Writer s 0 None "" "" [], O) = Some (w, n) /\ wrote s (enc_message (enc G) mt vs) w.
Proof using HG.
  intros Hm [Hvs _] Hb ->. assert (forall sz, Forall (held (value_delivers s G sz)) vs) as Hh.
  { intros sz. apply Forall_true. intros [v|]; [|done]. by apply all_deliver. }
  set (sz := each_member _ _ _) at 1.
  destruct (message_delivers s G HG sz k mt vs Hm Hvs (Hh sz) Hb [] O (Writer s 0 None "" "" [], O)) as ([w n] & E & [Hw _ _]).
  - constructor; [apply wrote_start|done|done].
  - exists [], []. by rewrite app_nil_r.
  - by exists w, n.
Qed.

Lemma whole_measured k mt vs : G !! k = Some mt -> typed_members G mt vs -> zlen (enc_message (enc G) mt vs) < 2 ^ 64 ->
  measures 0 (measurable G k (VMsg vs)) (each_member (member_sizes (nested_sizes G)) vs (m_fields mt)) (zlen (enc_message (enc G) mt vs))
    st_start (measure G k (VMsg vs) 0 st_start).
Proof using HG.
  intros Hm [Hvs _] Hb. unfold measure, measurable. cbn [limits]. rewrite Hm. apply (message_measured G HG k); try done.
  apply Forall_true. intros [v|]; [|done]. by apply all_measured.
Qed.

Lemma state_error_erred mt st : erred st -> exists e, state_error mt st = Some e.
Proof using. unfold erred, state_error. destruct (st_err st); [eauto|done]. Qed.

(** What is within the limits is delivered; anything else is refused with
    nothing written. *)
Definition encodes (k : nat) (mt : message ptype) (m : pvalue) (s : S) (res : S * (Z + encode_error)) : Prop :=
  if negb (has_nested mt) || measurable G k m then delivered s (message_bytes G k m) res
  else exists e, res = (s, inr e).

Lemma encode_delivers k mt m (s : S) : G !! k = Some mt -> typed G (PMessage k) m = true -> zlen (message_bytes G k m) < 2 ^ 64 ->
  exists res, protobuf_encode G k m s = Some res /\ encodes k mt m s res.
Proof using HG.
  intros Hm Ht Hb. destruct (pb_typed_message_inv G k m Ht) as (mt' & vs & Hm' & -> & Hvs). rewrite Hm in Hm'. injection Hm' as <-.
  unfold protobuf_encode, message_bytes, encodes in *. rewrite Hm in *. pose proof (whole_measured k mt vs Hm Hvs Hb eq_refl) as Hmeas.
  destruct (has_nested mt) eqn:En; cbn [negb orb].
  - destruct (measurable G k (VMsg vs)); cbn [orb].
    + rewrite Hmeas. cbn [fst st_err state_error st_sizes st_start app].
      destruct (writing_delivers k mt vs _ s Hm Hvs Hb eq_refl) as (w & n & -> & Hw). eexists. split; [done|].
      unfold message_bytes. rewrite Hm. by apply error_delivered, finish_delivered.
    + destruct (state_error_erred mt _ Hmeas) as [e ->]. eauto.
  - cbn [state_error st_start st_err st_sizes].
    destruct (writing_delivers k mt vs [] s Hm Hvs Hb) as (w & n & -> & Hw); [by rewrite flat_sizes|]. eexists. split; [done|].
    unfold message_bytes. rewrite Hm. by apply error_delivered, finish_delivered.
Qed.

Lemma size_exact k m : typed G (PMessage k) m = true -> zlen (message_bytes G k m) < 2 ^ 64 ->
  exists res, protobuf_size G k m = Some res /\
  if measurable G k m then res = inl (zlen (message_bytes G k m)) else exists e, res = inr e.
Proof using HG.
  intros Ht Hb. destruct (pb_typed_message_inv G k m Ht) as (mt & vs & Hm & -> & Hvs). unfold protobuf_size, message_bytes in *. rewrite Hm in *.
  pose proof (whole_measured k mt vs Hm Hvs Hb eq_refl) as Hmeas. destruct (measurable G k (VMsg vs)).
  - rewrite Hmeas. eexists. split; [reflexivity|]. reflexivity.
  - destruct (measure _ _ _ _ _) as [st n]. eexists. split; [done|]. destruct (state_error_erred mt st Hmeas) as [e ->]. eauto.
Qed.
End Encode.
