(* ===== verification/ProtobufRead.v ===== *)
(** * Reading back what the protobuf encoder wrote

    [reread t v v']: [v'] is what reading the encoding of [v] yields: the same
    values, and for the lazy members of [v] regions that decode to what was
    written. [readable]: the values the decoder takes back. *)
From Stdlib Require Import Sorting.Sorted.
From S2P Require Import Prelude Parser BytesParsers Combinators CombinatorFacts Numbers Messages Emit Staging Protobuf ProtobufEncode ProtobufTypes ProtobufSafe ProtobufMerge ProtobufWrite.

Section Reread.
Context (G : list (message ptype)).

Inductive reread : ptype -> pvalue -> pvalue -> Prop :=
| rr_bool t b : reread t (VBool b) (VBool b)
| rr_int t x : reread t (VInt x) (VInt x)
| rr_float t u : reread t (VFloat u) (VFloat u)
| rr_string t s : reread t (VString s) (VString s)
| rr_view t b b' s : b_size b' = zlen s -> reread t (VView b s) (VView b' s)
| rr_empty t : reread t VEmpty VEmpty
| rr_vec e l l' : Forall2 (reread e) l l' -> reread (PVector e) (VVec l) (VVec l')
| rr_lazy i b s b' s' : lazy_region (VLazy b' s') = lazy_region (VLazy b s) ->
    (lazy_has_value (VLazy b s) = true -> lazy_has_value (VLazy b' s') = true) -> reread (PLazy i) (VLazy b s) (VLazy b' s')
| rr_lazy_of i m m' b s : lazy_has_value (VLazy b s) = true -> lazy_decode G i (VLazy b s) = Some (inl m') ->
    reread (PMessage i) m m' -> reread (PLazy i) (VLazyOf m) (VLazy b s)
| rr_unknown t s : reread t (VUnknown s) (VUnknown s)
| rr_msg i m vs vs' : G !! i = Some m ->
    Forall3 (fun f ov ov' => option_Forall2 (reread (inner (f_type f))) ov ov') (m_fields m) vs vs' ->
    reread (PMessage i) (VMsg vs) (VMsg vs').

(** One check per member present. *)
Definition members_ok (ck : ptype -> pvalue -> bool) :=
  fix go (vs : list (option pvalue)) (fs : list (field ptype)) {struct vs} : bool :=
    match vs, fs with
    | Some v :: vs, f :: fs => ck (inner (f_type f)) v && go vs fs
    | None :: vs, _ :: fs => go vs fs
    | _, _ => true
    end.

(** [v] at [depth] nests within the limit (what a lazy member holds counts from
    its own start), and its enum values are int32s. *)
Fixpoint readable (depth : Z) (t : ptype) (v : pvalue) {struct v} : bool :=
  match v, t with
  | VInt x, PScalar (SEnum _ _) => in_range true 32 x
  | VVec l, PVector e => forallb (readable depth e) l
  | VLazyOf m, PLazy i => readable (-1) (PMessage i) m
  | VMsg vs, PMessage i =>
      match G !! i with
      | Some m => (depth + 1 <=? max_tagged_depth) && members_ok (fun t v => readable (depth + 1) t v) vs (m_fields m)
      | None => false
      end
  | _, _ => true
  end.
End Reread.

(** ** The encoding is made of bytes *)
Section EncBytes.
Context (G : list (message ptype)) (HG : env_ok G = true).

Lemma enc_scalar_ok s v : scalar_ok s = true -> scalar_typed s v = true -> bytes_ok (enc_scalar s v) /\ 1 <= zlen (enc_scalar s v).
Proof using.
  intros Hs Ht. unfold enc_scalar. destruct (_ =? _).
  - destruct (uleb_nonempty (varint_value s v)); [by apply varint_value_range|done].
  - split; [apply le_bytes_ok|]. unfold zlen. rewrite length_le_bytes. destruct (fixed_size_cases s) as [-> | ->]; by vm_compute.
Qed.

Lemma enc_scalars_ok s l : scalar_ok s = true -> forallb (scalar_typed s) l = true -> bytes_ok (concat (List.map (enc_scalar s) l)).
Proof using.
  intros Hs Ht%forallb_Forall. apply concat_ok. eapply Forall_impl; [exact Ht|]. intros v Hv. by apply enc_scalar_ok.
Qed.

Lemma enc_len_ok s : bytes_ok s -> zlen s < 2 ^ 64 -> bytes_ok (enc_len s).
Proof using. intros Hs Hl. pose proof (zlen_nonneg s). apply Forall_app. split; [|done]. by apply uleb_nonempty. Qed.

Lemma enc_key_ok f wt : 0 <= f_id f <= 32767 -> 0 <= wt < 8 -> bytes_ok (enc_key f wt).
Proof using. intros Hid Hw. apply uleb_nonempty. by apply key_of_range. Qed.

Definition value_bytes_ok (v : pvalue) : Prop := forall t, elem_ok t = true -> typed G t v = true ->
  zlen (enc G t v) < 2 ^ 64 -> bytes_ok (enc G t v).

Lemma elements_ok f el l : elem_ok el = true -> 0 <= f_id f <= 32767 -> Forall value_bytes_ok l -> forallb (typed G el) l = true ->
  zlen (enc_elements G f el l) < 2 ^ 64 -> bytes_ok (enc_elements G f el l).
Proof using.
  intros He Hid Hl Ht. unfold enc_elements. induction Hl as [|v l Hv Hl IH]; cbn [List.map concat forallb] in *; intros Hb; [done|].
  apply andb_true_iff in Ht as [Htv Ht]. apply app_small in Hb as [Hb1 Hb2]. apply app_small in Hb1 as [_ Hb1].
  apply Forall_app. split; [apply Forall_app; split; [by apply enc_key_ok|auto]|auto].
Qed.

Lemma member_bytes_ok k f ov : field_ok G k f = true -> 0 <= f_id f <= 32767 -> typed_member G ov f -> held value_bytes_ok ov ->
  zlen (enc_member (enc G) f ov) < 2 ^ 64 -> bytes_ok (enc_member (enc G) f ov).
Proof using.
  intros Hf Hid Ht Hov Hb. pose proof (field_ok_elem G k f Hf) as He. unfold enc_member in *.
  destruct ov as [v|]; [|destruct (f_type f) as [| | | | | | | |[]|]; done].
  destruct Hov as [Hv Hl]. unfold typed_member in Ht.
  assert (forall wt t, 0 <= wt < 8 -> elem_ok t = true -> typed G t v = true -> zlen (if left_out f v then [] else enc_key f wt ++ enc G t v) < 2 ^ 64 ->
    bytes_ok (if left_out f v then [] else enc_key f wt ++ enc G t v)) as Hone.
  { intros wt t Hwt Het Htt. destruct (left_out f v); [done|]. intros [_ Hs]%app_small. apply Forall_app. split; [by apply enc_key_ok|auto]. }
  destruct (f_type f) as [s| | | | |i|i|i|el|] eqn:Et.
  9: { cbn [inner] in Ht. destruct v as [| | | | | |l| | | |]; try done. cbn [typed] in Ht.
       destruct el as [s| | | | |i|i|i|el|]; try done; try (by apply elements_ok).
       destruct l as [|x l]; [done|]. apply app_small in Hb as [_ Hb]. apply app_small in Hb as [_ Hb].
       apply Forall_app. split; [by apply enc_key_ok|]. apply enc_len_ok; [|done]. apply enc_scalars_ok; [done|]. by rewrite <- (typed_scalars G). }
  9: { cbn [inner] in Ht. by destruct v. }
  all: apply Hone; try done; apply wire_of_range.
Qed.

Lemma members_bytes_ok k vs fs : Forall2 (typed_member G) vs fs -> Forall (fun f => field_ok G k f = true) fs ->
  Forall (fun f => 0 <= f_id f <= 32767) fs -> Forall (held value_bytes_ok) vs -> zlen (each_member (enc_member (enc G)) vs fs) < 2 ^ 64 ->
  bytes_ok (each_member (enc_member (enc G)) vs fs).
Proof using.
  induction 1 as [|ov f vs fs Hov Hvs IH]; intros Hok Hid Hm Hb; cbn [each_member] in *; [done|].
  apply Forall_cons in Hok as [Hf Hok], Hid as [Hfid Hid], Hm as [Hh Hm]. apply app_small in Hb as [Hb1 Hb2].
  apply Forall_app. split; [by eapply member_bytes_ok|auto].
Qed.

Lemma message_bytes_ok k m vs : G !! k = Some m -> typed_members G m vs -> Forall (held value_bytes_ok) vs ->
  zlen (enc_message (enc G) m vs) < 2 ^ 64 -> bytes_ok (enc_message (enc G) m vs).
Proof using HG.
  intros Hm [Hvs Hu] Hh Hb. destruct (pb_env_ok_lookup G HG k m Hm) as (Hok & _ & Hfok). destruct (message_ok_ids m Hok) as (_ & Hid & _).
  unfold ids in Hid. rewrite Forall_fmap in Hid. unfold enc_message in *. apply app_small in Hb as [Hb _]. apply Forall_app. split.
  - by eapply members_bytes_ok.
  - destruct (has_unknown m) eqn:Eu; [|done]. by destruct (unknown_head G HG k m vs Hm Hvs Eu) as (s & fs' & -> & ?).
Qed.

Lemma all_bytes_enc v : deep value_bytes_ok v.
Proof using HG.
  apply deep_ind. clear v. intros v Hv t He Ht Hb.
  destruct v as [b|x|u|s|b s| |l|b s|m|s|vs]; try (destruct t as [sc| | | | |i|i|i|el|]; try done; cbn [enc] in *;
    rewrite typed_scalar_eq in Ht; by apply enc_scalar_ok).
  all: destruct t as [sc| | | | |i|i|i|el|]; try done; try (by destruct sc); cbn [enc] in *.
  all: try (apply app_small in Hb as Hb'; destruct Hb' as [_ Hb']).
  all: try (apply enc_len_ok; [|done]); try done.
  - by apply all_bytes_ok.
  - cbn [typed] in Ht. apply andb_true_iff in Ht as [? _]. by apply all_bytes_ok.
  - cbn [typed] in Ht. apply andb_true_iff in Ht as [? _]. by apply all_bytes_ok.
  - cbn [typed] in Ht. apply andb_true_iff in Ht as [? _]. unfold lazy_region. destruct (_ =? _); [done|]. by apply all_bytes_ok.
  - by apply Hv.
  - destruct (pb_typed_message_inv G i _ Ht) as (m & vs' & Hm & [= <-] & Hvs). rewrite Hm in *. apply app_small in Hb as [? Hb].
    apply enc_len_ok; [|done]. by eapply message_bytes_ok.
Qed.
End EncBytes.

(** ** Scalars *)
Lemma in_range_signed w x : in_range true w x = true <-> - 2 ^ (w - 1) <= x < 2 ^ (w - 1).
Proof. unfold in_range. by rewrite andb_true_iff, Z.leb_le, Z.ltb_lt. Qed.

Lemma in_range_unsigned w x : in_range false w x = true <-> 0 <= x < 2 ^ w.
Proof. unfold in_range. by rewrite andb_true_iff, Z.leb_le, Z.ltb_lt. Qed.

Lemma signed_64 w x : 0 < w <= 64 -> in_range true w x = true -> sint 64 (u64 x) = x /\ 0 <= u64 x < 2 ^ 64.
Proof.
  intros Hw Hx%in_range_signed. assert (2 ^ (w - 1) <= 2 ^ 63) by (apply Z.pow_le_mono_r; lia).
  split; [apply sint_wrap; [lia|]; change (64 - 1) with 63; lia|apply wrap_range; lia].
Qed.

Lemma cast_id sg w x : 0 < w -> in_range sg w x = true -> cast sg w x = x.
Proof.
  intros Hw. unfold cast. destruct sg; [rewrite in_range_signed; intros; apply sint_wrap; lia|rewrite in_range_unsigned; by apply wrap_small].
Qed.

Lemma read_fixed_le what n e u q : 0 <= n -> bytes_ok q -> read_fixed what n e (le_bytes (Z.to_nat n) u ++ q) = Got (wrap (8 * n) u) q.
Proof.
  intros Hn Hq. rewrite read_fixed_enc; [|apply le_bytes_ok|done|unfold zlen; rewrite length_le_bytes; lia].
  rewrite le_val_le_bytes. by replace (8 * Z.of_nat (Z.to_nat n)) with (8 * n) by lia.
Qed.

Lemma scalar_back G s v e q : scalar_ok s = true -> scalar_typed s v = true -> readable G 0 (PScalar s) v = true -> bytes_ok q ->
  read_scalar e (enc_scalar s v ++ q) s = Got v q.
Proof.
  intros Hs Ht Hr Hq. pose proof (scalar_width s Hs) as Hw. pose proof (scalar_width_64 s Hs) as Hw64. pose proof (varint_value_range s v Hs Ht) as Hvr.
  unfold enc_scalar. destruct s as [|[] w|sg w|w|sg w| |], v as [b|x|u| | | | | | | |]; try done; cbn [scalar_typed] in Ht;
    cbn [scalar_wire Z.eqb wire_varint wire_i32 wire_i64 fixed_size fixed_bits read_scalar varint_value readable] in *.
  - change (0 =? 0) with true. cbv iota. rewrite read_varint_enc by done. by destruct b.
  - change (0 =? 0) with true. cbv iota. destruct (signed_64 w x Hw64 Ht) as [E ?]. rewrite read_varint_enc by done. cbn [dbind]. by rewrite E, Ht.
  - change (0 =? 0) with true. cbv iota. apply in_range_unsigned in Ht as Hx. assert (2 ^ w <= 2 ^ 64) by (apply Z.pow_le_mono_r; lia).
    rewrite read_varint_enc by done. cbn [dbind]. rewrite wrap_small by lia. by rewrite Ht.
  - change (0 =? 0) with true. cbv iota. destruct (signed_64 32 x ltac:(lia) Hr) as [E ?]. rewrite read_varint_enc by done. cbn [dbind].
    rewrite E, Hr. cbn [negb]. by rewrite cast_id by (done || lia).
  - change (0 =? 0) with true. cbv iota. apply in_range_signed in Ht as Hx. destruct (zigzag_wide w x ltac:(lia) Hx) as (E & ? & ?).
    rewrite read_varint_enc by done. cbn [dbind]. rewrite E, zigzag_decode_encode by (done || lia). by rewrite Ht.
  - assert (scalar_wire (SFixed sg w) =? wire_varint = false) as Ewv by (cbn; by destruct (_ =? 32)). cbn [scalar_wire] in Ewv. rewrite Ewv.
    assert (fixed_size (SFixed sg w) = w / 8) as ->.
    { cbn in Hs. apply orb_true_iff in Hs as [Hs|Hs]; apply Z.eqb_eq in Hs as ->; by vm_compute. }
    rewrite read_fixed_le by (done || lia). cbn [dbind]. destruct Hw as (? & Hw & ?). rewrite Hw, wrap_idemp.
    destruct sg; [rewrite sint_wrap by (lia || by apply in_range_signed)|rewrite wrap_small by by apply in_range_unsigned]; done.
  - apply in_range_unsigned in Ht. change (wire_i32 =? wire_varint) with false. cbv iota. change (fixed_size SFloat) with 4.
    rewrite read_fixed_le by (done || lia). by rewrite wrap_small.
  - apply in_range_unsigned in Ht. change (wire_i64 =? wire_varint) with false. cbv iota. change (fixed_size SDouble) with 8.
    rewrite read_fixed_le by (done || lia). by rewrite wrap_small.
Qed.

(** ** Messages *)
Lemma take_app_body e n (body q : list Z) : n = zlen body -> ztake n (body ++ q) = body /\ zdrop n (body ++ q) = q /\ e - zlen (body ++ q) + n = e - zlen q.
Proof. intros ->. rewrite zlen_app, ztake_app, zdrop_app by done. split_and!; [done|done|lia]. Qed.

Lemma length_back what e body q : bytes_ok body -> bytes_ok q -> zlen body < 2 ^ 64 ->
  read_length what e (enc_len body ++ q) = Got (zlen body) (body ++ q).
Proof.
  intros Hb Hq Hl. pose proof (zlen_nonneg body). pose proof (zlen_nonneg q). unfold read_length, enc_len. rewrite <- app_assoc.
  rewrite read_varint_enc by (lia || by apply Forall_app). cbn [dbind]. rewrite zlen_app. destruct (Z.ltb_spec (zlen body + zlen q) (zlen body)); [lia|done].
Qed.

Section ReadBack.
Context (G : list (message ptype)) (HG : env_ok G = true).

(** The bytes [v] has after its length, and what reading them finds. *)
Definition value_back (v : pvalue) : Prop := forall t depth n, elem_ok t = true -> packable t = false -> scoped G t = true ->
  typed G t v = true -> readable G depth t v = true -> -1 <= depth -> (depth < max_tagged_depth -> enough n (depth + 1)) ->
  zlen (enc G t v) < 2 ^ 64 ->
  exists body, enc G t v = enc_len body /\ bytes_ok body /\ forall e, zlen body < e ->
    exists v', read_len G (read_message G n) e body depth t (init G t) = Got v' [] /\ reread G t v v'.

Lemma sub_back v t depth n q : value_back v -> elem_ok t = true -> packable t = false -> scoped G t = true ->
  typed G t v = true -> readable G depth t v = true -> -1 <= depth -> (depth < max_tagged_depth -> enough n (depth + 1)) ->
  zlen (enc G t v) < 2 ^ 64 -> bytes_ok q ->
  forall e, zlen (enc G t v ++ q) < e -> exists l p v', read_length "a length-delimited field that fits the message" e (enc G t v ++ q) = Got l p /\
    read_sub G (read_message G n) e l p depth t (init G t) = Got v' q /\ reread G t v v'.
Proof using.
  intros Hv He Hpk Hs Ht Hr Hd Hn Hb Hq e He'. destruct (Hv t depth n He Hpk Hs Ht Hr Hd Hn Hb) as (body & E & Hbody & Hread). rewrite E in *.
  assert (zlen body < 2 ^ 64) by (by apply app_small in Hb as [_ Hb]). pose proof (zlen_nonneg q) as Hq0.
  assert (zlen body < e - zlen q) as He2.
  { unfold enc_len in He'. rewrite !zlen_app in He'. pose proof (zlen_nonneg (uleb128_encode 64 (zlen body))). lia. }
  destruct (Hread (e - zlen q) He2) as (v' & Ev & Hrr). exists (zlen body), (body ++ q), v'. split; [by apply length_back|]. split; [|done].
  unfold read_sub. destruct (take_app_body e (zlen body) body q eq_refl) as (-> & -> & ->). by rewrite Ev.
Qed.

Definition init_member (f : field ptype) : option pvalue := if opt_like f then None else Some (init G (f_type f)).

Section Message.
Context (n : nat) (d : Z) (Hd : 0 <= d) (Hn : d < max_tagged_depth -> enough n (d + 1)).
Context (i : nat) (m : message ptype) (Hm : G !! i = Some m) (e : Z).

Definition rf : field_reader := read_field G (read_message G n) d.

(** Reading goes from one point of the message to another. *)
Definition leads (p : list Z) (seen : Z) (fs : list (option pvalue)) (q : list Z) (seen' : Z) (fs' : list (option pvalue)) : Prop :=
  forall n n', (length p < n)%nat -> (length q < n')%nat -> read_records n rf m e p seen fs = read_records n' rf m e q seen' fs'.

Lemma leads_refl p seen fs : bytes_ok p -> leads p seen fs p seen fs.
Proof using HG Hm.
  intros Hp k k' Hk Hk'. apply records_fuel; try done. intros e' tag_at p' wt f v Hf Hp'. destruct (pb_env_ok_lookup G HG i m Hm) as (_ & _ & Hfok).
  rewrite Forall_forall in Hfok. eapply consumes_field; [by apply Hfok|done].
Qed.

Lemma leads_trans p seen fs q seen' fs' r seen'' fs'' : leads p seen fs q seen' fs' -> leads q seen' fs' r seen'' fs'' -> leads p seen fs r seen'' fs''.
Proof using. intros H1 H2 k k' Hk Hk'. rewrite (H1 k (Datatypes.S (length q))) by lia. apply H2; lia. Qed.

Lemma leads_record k p seen fs q seen' fs' : bytes_ok q -> 1 <= zlen k -> p = k ++ q -> read_record rf m e p seen fs = Got (seen', fs') q -> leads p seen fs q seen' fs'.
Proof using HG Hm.
  intros Hq Hk -> Hr c c' Hc Hc'. rewrite length_app in Hc. unfold zlen in Hk. destruct c as [|c]; [lia|]. cbn [read_records].
  destruct (k ++ q) as [|b l] eqn:E; [apply app_eq_nil in E as [-> ->]; cbn in Hk; lia|]. rewrite Hr. cbn [dbind fst snd].
  apply (leads_refl q seen' fs' Hq); lia.
Qed.

(** [seen] after a record of member [j]. *)
Definition marked (j seen : Z) : Z := if negb (required_mask m =? 0) then Z.lor seen (Z.shiftl 1 j) else seen.

Lemma record_keyed fs1 f tail vs1 v0 tl wt p seen x q : m_fields m = fs1 ++ f :: tail -> length vs1 = length fs1 -> 1 <= f_id f ->
  0 <= wt < 8 -> bytes_ok p -> (exists k, p = k ++ q) -> rf e (enc_key f wt ++ p) p wt f v0 = Got (x, true) q ->
  leads (enc_key f wt ++ p) seen (vs1 ++ v0 :: tl) q (marked (zlen fs1) seen) (vs1 ++ x :: tl).
Proof using HG Hm.
  intros Hmf Hlen Hid1 Hwt Hp [k Ek] Hrf. destruct (pb_env_ok_lookup G HG i m Hm) as (Hok & _ & _). destruct (message_ok_ids m Hok) as (_ & Hid & Hn64).
  assert (Hget : zget (m_fields m) (zlen fs1) = Some f) by (rewrite Hmf, zget_app_r by lia; by rewrite Z.sub_diag).
  assert (0 <= f_id f <= 32767) as Hfid.
  { unfold ids in Hid. rewrite Forall_fmap, Hmf in Hid. apply Forall_app in Hid as [_ Hid]. by apply Forall_cons in Hid as [? _]. }
  destruct (key_of_range f wt Hfid Hwt) as (Hkr & Hks & Hkl). destruct (uleb_nonempty (key_of f wt) Hkr) as [Hk1 _]. fold (enc_key f wt) in Hk1.
  assert (zlen fs1 < 64) by (pose proof (zget_Some_range _ _ _ Hget); unfold ids, zlen in *; rewrite length_fmap in Hn64; lia).
  assert (Hz : zlen vs1 = zlen fs1) by (unfold zlen; lia). subst p. pose proof Hp as [_ Hq]%Forall_app.
  apply (leads_record (enc_key f wt ++ k)); [done|rewrite zlen_app; pose proof (zlen_nonneg k); lia|by rewrite app_assoc|].
  unfold read_record. unfold enc_key in *. rewrite read_varint_enc by done. cbn [dbind]. cbv zeta. rewrite Hks, Hkl.
  destruct (Z.eqb_spec (f_id f) 0); [lia|]. destruct (Z.ltb_spec 536870911 (f_id f)); [lia|]. destruct (Z.ltb_spec 32767 (f_id f)); [lia|]. cbn [orb].
  rewrite (slot_of_at m Hok _ f Hget). destruct (Z.eqb_spec (zlen fs1) no_slot) as [Hbad|_]; [unfold no_slot in Hbad; lia|].
  rewrite Hget, zget_app_r by lia. rewrite Hz, Z.sub_diag. change (zget (?a :: ?l) 0) with (Some a). cbv iota beta. rewrite Hrf. cbn [dbind fst snd].
  rewrite andb_true_r. do 2 f_equal. rewrite <- Hz. unfold zlen. rewrite Nat2Z.id. by rewrite insert_app_r_alt, Nat.sub_diag by lia.
Qed.

Definition mono (seen seen' : Z) : Prop := forall k, Z.testbit seen k = true -> Z.testbit seen' k = true.

Lemma marked_mono j seen : 0 <= j -> mono seen (marked j seen).
Proof using. intros Hj k Hk. unfold marked. destruct (negb _); [|done]. apply lor_shift_bit; auto. Qed.

(** The bit of a required member is set. *)
Lemma marked_bit f j seen : zget (m_fields m) j = Some f -> is_required f = true -> Z.testbit (marked j seen) j = true.
Proof using.
  intros Hf Hr. pose proof (zget_Some_range _ _ _ Hf). unfold marked. destruct (Z.eqb_spec (required_mask m) 0) as [E|E]; cbn [negb].
  - pose proof (required_mask_bit m j ltac:(lia)) as Hb. rewrite Hf, E, Hr, Z.testbit_0_l in Hb. done.
  - apply lor_shift_bit; [lia|auto].
Qed.

(** A member that has been read from its encoding. *)
Definition member_leads (fs1 : list (field ptype)) (f : field ptype) (bs : list Z) (v0 : option pvalue) (P : option pvalue -> Prop) : Prop :=
  forall q seen vs1 tl, bytes_ok q -> length vs1 = length fs1 -> zlen (bs ++ q) < e ->
  exists seen' x, P x /\ mono seen seen' /\ (is_required f = true -> Z.testbit seen' (zlen fs1) = true) /\
    leads (bs ++ q) seen (vs1 ++ v0 :: tl) q seen' (vs1 ++ x :: tl).

Lemma app_longer (k p : list Z) : zlen (k ++ p) < e -> zlen p < e.
Proof using. rewrite zlen_app. pose proof (zlen_nonneg k). lia. Qed.

Lemma keyed_leads fs1 f tail wt bs v0 P : m_fields m = fs1 ++ f :: tail -> 1 <= f_id f -> 0 <= wt < 8 -> bytes_ok bs ->
  (forall q tag, bytes_ok q -> zlen (bs ++ q) < e -> exists x, P x /\ rf e tag (bs ++ q) wt f v0 = Got (x, true) q) ->
  member_leads fs1 f (enc_key f wt ++ bs) v0 P.
Proof using HG Hm.
  intros Hmf Hid Hwt Hbs Hrf q seen vs1 tl Hq Hlen Hb. rewrite <- app_assoc in *. apply app_longer in Hb.
  destruct (Hrf q (enc_key f wt ++ bs ++ q) Hq Hb) as (x & Hx & E). exists (marked (zlen fs1) seen), x.
  split_and!; [done|apply marked_mono, zlen_nonneg| |].
  - apply marked_bit. rewrite Hmf, zget_app_r by lia. by rewrite Z.sub_diag.
  - eapply record_keyed; try done; [by apply Forall_app|by exists bs].
Qed.

(** A value read after its length. *)
Lemma sub_found v t q : value_back v -> elem_ok t = true -> packable t = false -> scoped G t = true -> typed G t v = true ->
  readable G d t v = true -> zlen (enc G t v) < 2 ^ 64 -> bytes_ok q -> zlen (enc G t v ++ q) < e ->
  exists v', reread G t v v' /\
    forall (g : pvalue -> option pvalue * bool),
    (let& (l, p) := read_length "a length-delimited field that fits the message" e (enc G t v ++ q) in
     let& (x, p) := read_sub G (read_message G n) e l p d t (init G t) in Got (g x) p) = Got (g v') q.
Proof using HG Hd Hn.
  intros Hv He Hpk Hs Htv Hr Hb Hq Hlt.
  destruct (sub_back v t d n q Hv He Hpk Hs Htv Hr ltac:(lia) Hn Hb Hq e Hlt) as (l & p & v' & E1 & E2 & Hrr).
  exists v'. split; [done|]. intros g. rewrite E1. cbn [dbind]. by rewrite E2.
Qed.

Lemma reread_scalar s v : scalar_typed s v = true -> reread G (PScalar s) v v.
Proof using. destruct s, v; done || constructor. Qed.

Lemma scalar_enc s v : scalar_typed s v = true -> enc G (PScalar s) v = enc_scalar s v.
Proof using. by destruct s, v. Qed.

Lemma readable_scalar d1 d2 s v : readable G d1 (PScalar s) v = readable G d2 (PScalar s) v.
Proof using. by destruct v. Qed.

(** A single member takes what is read. *)
Lemma single_read f q tag : match f_type f with PVector _ | PUnknown => False | _ => True end ->
  rf e tag q (wire_of (f_type f)) f (init_member f) =
    match inner (f_type f) with
    | PScalar s => let& (x, p) := read_scalar e q s in Got (Some x, true) p
    | t => let& (n', p) := read_length "a length-delimited field that fits the message" e q in
           let& (x, p) := read_sub G (read_message G n) e n' p d t (init G t) in Got (Some x, true) p
    end.
Proof using.
  intros Ht. unfold rf. rewrite read_field_eq by done. cbv zeta.
  assert (default (init G (inner (f_type f))) (init_member f) = init G (inner (f_type f))) as ->.
  { unfold init_member, opt_like. destruct (f_opt f); [done|]. destruct (f_type f); done. }
  assert (wire_of (f_type f) = wire_of (inner (f_type f))) as -> by (by destruct (f_type f)). rewrite Z.eqb_refl. cbn [negb].
  assert (match inner (f_type f) with PLazy _ => negb (f_opt f) && match init_member f with Some x => lazy_has_value x | None => false end | _ => false end = false) as Hlz.
  { unfold init_member, opt_like. destruct (f_type f); cbn [inner]; try done. by destruct (f_opt f). }
  destruct (inner (f_type f)); rewrite ?Hlz; done.
Qed.

Lemma single_leads fs1 f tail v : m_fields m = fs1 ++ f :: tail -> 1 <= f_id f ->
  match f_type f with PVector _ | PUnknown => False | _ => True end ->
  elem_ok (inner (f_type f)) = true -> scoped G (inner (f_type f)) = true -> typed G (inner (f_type f)) v = true ->
  readable G d (inner (f_type f)) v = true -> value_back v -> zlen (enc G (inner (f_type f)) v) < 2 ^ 64 ->
  member_leads fs1 f (enc_key f (wire_of (f_type f)) ++ enc G (inner (f_type f)) v) (init_member f)
    (fun x => exists v', x = Some v' /\ reread G (inner (f_type f)) v v').
Proof using HG Hm Hd Hn.
  intros Hmf Hid Ht He Hs Htv Hr Hv Hb. apply (keyed_leads _ _ tail); [done|done|apply wire_of_range|by apply (all_bytes_enc G HG v)|].
  intros q tag Hq Hlt. rewrite single_read by done.
  destruct (inner (f_type f)) as [s| | | | |j|j|j|el|] eqn:Et; try done;
    try (destruct (sub_found v _ q Hv He eq_refl Hs Htv Hr Hb Hq Hlt) as (v' & Hrr & E); exists (Some v'); split; [by exists v'|];
      exact (E (fun x => (Some x, true)))).
  rewrite typed_scalar_eq in Htv. exists (Some v). split; [exists v; split; [done|by apply reread_scalar]|].
  rewrite scalar_enc by done. rewrite (scalar_back G) by (done || by rewrite (readable_scalar 0 d)). done.
Qed.

Lemma member_leads_nil fs1 f v0 (P : option pvalue -> Prop) : is_required f = false -> P v0 -> member_leads fs1 f [] v0 P.
Proof using HG Hm.
  intros Hreq HP q seen vs1 tl Hq Hlen Hb. exists seen, v0. split_and!; [done|by intros k|by rewrite Hreq|]. by apply leads_refl.
Qed.

Lemma member_leads_app fs1 f b1 b2 v0 (P Q : option pvalue -> Prop) : bytes_ok b2 -> member_leads fs1 f b1 v0 P ->
  (forall x, P x -> member_leads fs1 f b2 x Q) -> member_leads fs1 f (b1 ++ b2) v0 Q.
Proof using.
  intros Hb2 H1 H2 q seen vs1 tl Hq Hlen Hb. rewrite <- app_assoc in *.
  destruct (H1 (b2 ++ q) seen vs1 tl) as (seen1 & x & Hx & Hm1 & Hr1 & Hl1); [by apply Forall_app|done|done|].
  destruct (H2 x Hx q seen1 vs1 tl Hq Hlen ltac:(by apply app_longer in Hb)) as (seen2 & y & Hy & Hm2 & Hr2 & Hl2).
  exists seen2, y. split_and!; [done|by intros k ?%Hm1%Hm2|done|by eapply leads_trans].
Qed.

Lemma elements_lead fs1 f tail el l : m_fields m = fs1 ++ f :: tail -> 0 <= f_id f <= 32767 -> 1 <= f_id f -> is_required f = false ->
  f_type f = PVector el -> elem_ok el = true -> packable el = false -> scoped G el = true -> Forall value_back l ->
  forallb (typed G el) l = true -> forallb (readable G d el) l = true -> zlen (enc_elements G f el l) < 2 ^ 64 ->
  forall acc, member_leads fs1 f (enc_elements G f el l) (Some (VVec acc))
    (fun x => exists l', x = Some (VVec (acc ++ l')) /\ Forall2 (reread G el) l l').
Proof using HG Hm Hd Hn.
  intros Hmf Hids Hid Hreq Ht He Hpk Hs Hl. induction Hl as [|v l Hv Hl IH]; cbn [forallb]; intros Htl Hrl Hb acc.
  { apply member_leads_nil; [done|]. exists []. by rewrite app_nil_r. }
  apply andb_true_iff in Htl as [Htv Htl], Hrl as [Hrv Hrl].
  change (enc_elements G f el (v :: l)) with ((enc_key f wire_len ++ enc G el v) ++ enc_elements G f el l) in *.
  apply app_small in Hb as [Hb1 Hb2]. apply app_small in Hb1 as [_ Hb1].
  apply (member_leads_app _ _ _ _ _ (fun x => exists v', x = Some (VVec (acc ++ [v'])) /\ reread G el v v')).
  - apply elements_ok; try done. apply Forall_true. intros x. apply (all_bytes_enc G HG).
  - apply (keyed_leads _ _ tail); [done|done|done|by apply (all_bytes_enc G HG v)|]. intros q tag Hq Hlt.
    destruct (sub_found v el q Hv He Hpk Hs Htv Hrv Hb1 Hq Hlt) as (v' & Hrr & E). exists (Some (VVec (acc ++ [v']))).
    split; [by exists v'|]. unfold rf, read_field. rewrite Ht. unfold read_repeated. cbv zeta.
    destruct el as [s| | | | |j|j|j|el'|]; try done; exact (E (fun x => (Some (VVec (acc ++ [x])), true))).
  - intros x (v' & -> & Hrr). specialize (IH Htl Hrl Hb2 (acc ++ [v'])). intros q seen vs1 tl Hq Hlen Hlt.
    destruct (IH q seen vs1 tl Hq Hlen Hlt) as (seen' & x & (l' & -> & Hl') & ?). exists seen', (Some (VVec ((acc ++ [v']) ++ l'))).
    split; [|done]. exists (v' :: l'). split; [by rewrite <- app_assoc|by constructor].
Qed.

Lemma packed_back s l : scalar_ok s = true -> forallb (scalar_typed s) l = true -> forallb (readable G d (PScalar s)) l = true ->
  forall fuel e' acc, (length (concat (List.map (enc_scalar s) l)) < fuel)%nat ->
  read_packed fuel e' (concat (List.map (enc_scalar s) l)) s acc = Got (acc ++ l) [].
Proof using.
  intros Hs. induction l as [|v l IH]; cbn [forallb List.map concat]; intros Ht Hr fuel e' acc Hf; (destruct fuel as [|fuel]; [lia|]); cbn [read_packed].
  { by rewrite app_nil_r. }
  apply andb_true_iff in Ht as [Hv Ht], Hr as [Hrv Hr]. destruct (enc_scalar_ok s v Hs Hv) as [_ H1]. unfold zlen in H1. rewrite length_app in Hf.
  rewrite (scalar_back G) by (done || (by rewrite (readable_scalar 0 d)) || by apply enc_scalars_ok). cbn [dbind].
  destruct (enc_scalar s v ++ _) as [|b q] eqn:E; [apply app_eq_nil in E as [E _]; rewrite E in H1; cbn in H1; lia|].
  rewrite IH by (done || lia). by rewrite <- app_assoc.
Qed.

Lemma whole_values s l : scalar_ok s = true ->
  ((scalar_wire s =? wire_i32) || (scalar_wire s =? wire_i64)) &&
  negb (zlen (concat (List.map (enc_scalar s) l)) mod (if scalar_wire s =? wire_i32 then 4 else 8) =? 0) = false.
Proof using.
  intros Hs. destruct (scalar_wire s =? wire_varint) eqn:Ev; [apply Z.eqb_eq in Ev as ->; done|].
  assert (zlen (concat (List.map (enc_scalar s) l)) = zlen l * fixed_size s) as ->.
  { induction l as [|v l IH]; cbn [List.map concat]; [done|]. rewrite zlen_app, zlen_cons, IH. unfold enc_scalar. rewrite Ev.
    unfold zlen at 1. rewrite length_le_bytes. destruct (fixed_size_cases s) as [E|E]; rewrite E; lia. }
  unfold fixed_size. destruct (scalar_wire s =? wire_i32); rewrite Z_mod_mult; by rewrite andb_false_r.
Qed.

Lemma packed_leads fs1 f tail s l : m_fields m = fs1 ++ f :: tail -> 1 <= f_id f ->
  f_type f = PVector (PScalar s) -> scalar_ok s = true -> forallb (scalar_typed s) l = true -> forallb (readable G d (PScalar s)) l = true ->
  zlen (enc_len (concat (List.map (enc_scalar s) l))) < 2 ^ 64 ->
  member_leads fs1 f (enc_key f wire_len ++ enc_len (concat (List.map (enc_scalar s) l))) (Some (VVec [])) (fun x => x = Some (VVec l)).
Proof using HG Hm.
  intros Hmf Hid Ht Hs Htl Hrl Hb. pose proof (enc_scalars_ok s l Hs Htl) as Hok. apply app_small in Hb as Hb'. destruct Hb' as [_ Hb'].
  apply (keyed_leads _ _ tail); [done|done|done|by apply enc_len_ok|]. intros q tag Hq _. exists (Some (VVec l)). split; [done|].
  unfold rf, read_field. rewrite Ht. unfold read_repeated. cbn [wire_of]. cbv zeta. rewrite (Z.eqb_sym wire_len), scalar_wire_not_len. cbn [andb].
  rewrite Z.eqb_refl, length_back by done. cbn [dbind]. rewrite whole_values by done.
  destruct (take_app_body e _ (concat (List.map (enc_scalar s) l)) q eq_refl) as (-> & -> & _). by rewrite packed_back by (done || lia).
Qed.

(** What a member holds after reading, the unknown fields apart. *)
Definition back (f : field ptype) (ov x : option pvalue) : Prop :=
  match f_type f with
  | PUnknown => x = init_member f
  | _ => option_Forall2 (reread G (inner (f_type f))) ov x
  end.

Definition model_ok (f : field ptype) : bool :=
  match f_type f with
  | PVector _ | PBox _ => bool_decide (f_pres f = defaulted)
  | PLazy _ => f_opt f || bool_decide (f_pres f = defaulted)
  | _ => true
  end.

Lemma defaulted_not_required (f : field ptype) : bool_decide (f_pres f = defaulted) = true -> is_required f = false.
Proof using. intros E%bool_decide_eq_true. unfold is_required. by rewrite E. Qed.

Lemma opt_like_not_required (f : field ptype) : model_ok f = true -> opt_like f = true -> is_required f = false.
Proof using.
  unfold opt_like, model_ok. intros Hm' [Ho|Ho]%orb_true_iff; [unfold is_required; rewrite Ho; by rewrite andb_false_r|].
  destruct (f_type f); try done. by apply defaulted_not_required.
Qed.

(** A member that is not written reads as its initial value. *)
Lemma left_out_back (f : field ptype) v : model_ok f = true -> typed G (inner (f_type f)) v = true -> match f_type f with PVector _ | PUnknown => False | _ => True end ->
  left_out f v = true -> is_required f = false /\ option_Forall2 (reread G (inner (f_type f))) (Some v) (init_member f).
Proof using.
  intros Hmo Ht Hty Hl. unfold left_out in Hl. destruct (opt_like f) eqn:Eo; [done|]. unfold init_member. rewrite Eo.
  unfold opt_like in Eo. apply orb_false_iff in Eo as [Eopt Ebox].
  assert (forall s : list Z, zlen s =? 0 = true -> s = []) as Hnil.
  { intros [|x l] E; [done|]. apply Z.eqb_eq in E. rewrite zlen_cons in E. pose proof (zlen_nonneg l). lia. }
  destruct (f_type f) as [s| | | | |j|j|j|el|] eqn:Et; try done; cbn [inner] in *;
    try (apply andb_true_iff in Hl as [Hdef Hz]; split; [by apply defaulted_not_required|]; constructor).
  - rewrite typed_scalar_eq in Ht. destruct s, v as [[]|x|u| | | | | | | |]; try done; cbn in Hz |- *; try apply Z.eqb_eq in Hz as ->; constructor.
  - destruct v as [| | |s| | | | | | |]; try (by destruct el); try done. apply Hnil in Hz as ->. constructor.
  - destruct v as [| | | |b s| | | | | |]; try done. apply Hnil in Hz as ->. by constructor.
  - destruct v as [| | | |b s| | | | | |]; try done. apply Hnil in Hz as ->. by constructor.
  - by destruct v.
  - by destruct v.
  - unfold model_ok in Hmo. rewrite Et, Eopt in Hmo. cbn [orb] in Hmo. split; [by apply defaulted_not_required|]. constructor.
    destruct v as [| | | | | | |b s|v| |]; try done. cbn [lazy_has_value] in Hl. apply negb_true_iff, negb_false_iff in Hl.
    constructor; [cbn [lazy_region]; by rewrite Hl|cbn [lazy_has_value]; by rewrite Hl].
Qed.

Definition member_readable (f : field ptype) (ov : option pvalue) : bool :=
  match ov with Some v => readable G d (inner (f_type f)) v | None => true end.

Lemma member_lead fs1 f tail ov : m_fields m = fs1 ++ f :: tail -> 0 <= f_id f <= 32767 -> field_ok G i f = true -> model_ok f = true ->
  typed_member G ov f -> member_readable f ov = true -> held value_back ov -> zlen (enc_member (enc G) f ov) < 2 ^ 64 ->
  member_leads fs1 f (enc_member (enc G) f ov) (init_member f) (back f ov).
Proof using HG Hm Hd Hn.
  intros Hmf Hids Hf Hmo Ht Hr Hov Hb. pose proof (field_ok_elem G i f Hf) as He. destruct (field_ok_inv G i f Hf) as [Hs _].
  unfold enc_member, back, member_readable, typed_member in *.
  assert (f_type f <> PUnknown -> 1 <= f_id f) as Hid.
  { intros Hne. assert (f_id f <> 0) by (by intros ?%(field_ok_unknown G i f Hf)). lia. }
  assert (match f_type f with PVector _ | PUnknown => False | _ => True end -> opt_like f = true -> ov = None ->
    member_leads fs1 f [] (init_member f) (option_Forall2 (reread G (inner (f_type f))) ov)) as Hnone.
  { intros _ Ho ->. apply member_leads_nil; [by apply opt_like_not_required|]. unfold init_member. rewrite Ho. constructor. }
  destruct (f_type f) as [s| | | | |j|j|j|el|] eqn:Et.
  9: { destruct (vector_present G i f ov el Hf ltac:(unfold typed_member; by rewrite Et) Et) as (l & -> & Hl). cbn [inner readable] in *.
       destruct Hov as [_ Hov]. specialize (Hid ltac:(done)).
       assert (is_required f = false) as Hreq by (unfold model_ok in Hmo; rewrite Et in Hmo; by apply defaulted_not_required).
       assert (init_member f = Some (VVec [])) as ->.
       { unfold init_member, opt_like. rewrite Et. unfold field_ok in Hf. rewrite Et, !andb_true_iff, negb_true_iff in Hf. destruct Hf as [[[[_ Ho] _] _] _]. by rewrite Ho. }
       destruct (packable el) eqn:Epk.
       - destruct el as [s| | | | |j|j|j|el'|]; try done. rewrite typed_scalars in Hl. destruct l as [|x l].
         + apply member_leads_nil; [done|]. constructor. constructor. constructor.
         + apply app_small in Hb as [_ Hb]. intros q seen vs1 tl Hq Hlen Hlt.
           destruct (packed_leads fs1 f tail s (x :: l) Hmf Hid Et He Hl Hr Hb q seen vs1 tl Hq Hlen Hlt) as (seen' & y & -> & ?).
           exists seen', (Some (VVec (x :: l))). split; [|done]. constructor. constructor. apply Forall_Forall2_diag. apply forallb_Forall in Hl.
           eapply Forall_impl; [exact Hl|]. apply reread_scalar.
       - intros q seen vs1 tl Hq Hlen Hlt.
         destruct (elements_lead fs1 f tail el l Hmf Hids Hid Hreq Et He Epk Hs Hov Hl Hr) with (acc := @nil pvalue) (q := q) (seen := seen) (vs1 := vs1) (tl := tl)
           as (seen' & y & (l' & -> & Hl') & Hrest); try done; try (by destruct el).
         exists seen', (Some (VVec l')). split; [by constructor; constructor|]. by destruct el. }
  9: { apply member_leads_nil; [|done]. unfold field_ok in Hf. rewrite Et, !andb_true_iff in Hf. apply defaulted_not_required. tauto. }
  all: specialize (Hid ltac:(done)); destruct ov as [v|]; [|by apply Hnone]; destruct Hov as [Hv _]; cbn [inner] in *.
  all: destruct (left_out f v) eqn:Elo; [apply member_leads_nil; (eapply left_out_back in Elo; [|done|by rewrite Et|by rewrite Et]); rewrite Et in Elo; apply Elo|].
  all: apply app_small in Hb as [_ Hb]; pose proof (single_leads fs1 f tail v Hmf Hid) as H1; rewrite Et in H1; cbn [inner] in H1.
  all: intros q seen vs1 tl Hq Hlen Hlt; destruct (H1 I He Hs Ht Hr Hv Hb q seen vs1 tl Hq Hlen Hlt) as (seen' & y & (v' & -> & Hrr) & ?).
  all: exists seen', (Some v'); split; [by constructor|done].
Qed.

(** ** Unknown fields are kept again *)
Definition vectors_held (fs : list (option pvalue)) : Prop :=
  Forall2 (fun f v => match f_type f with PVector _ => exists l, v = Some (VVec l) | _ => True end) (m_fields m) fs.

Lemma field_passed tag p wt f v : match f_type f with PVector _ => exists l, v = Some (VVec l) | _ => True end ->
  matches (f_type f) wt = false -> rf e tag p wt f v = read_other e p wt v.
Proof using.
  intros Hv Hmt. unfold rf. destruct (f_type f) as [s| | | | |j|j|j|el|] eqn:Et;
    try (rewrite read_field_eq by (by rewrite Et); rewrite Et; cbv zeta; cbn [inner matches] in *; by rewrite Hmt).
  - destruct Hv as [l ->]. unfold read_field, read_repeated. rewrite Et. cbv zeta.
    cbn [matches] in Hmt. apply orb_false_iff in Hmt as [-> Hmt]. cbn [andb]. destruct el; try done. cbn [packable andb] in Hmt. by rewrite Hmt.
  - unfold read_field. by rewrite Et.
Qed.

Lemma record_unknown key r p acc fs seen : has_unknown m = true -> (forall e q, bytes_ok q -> read_raw e (r ++ q) = Got key q) ->
  bytes_ok r -> bytes_ok p -> unmatched m (Z.shiftr key 3) (Z.land key 7) = true -> vectors_held (Some (VUnknown acc) :: fs) ->
  read_record rf m e (r ++ p) seen (Some (VUnknown acc) :: fs) = Got (seen, Some (VUnknown (acc ++ r)) :: fs) p.
Proof using HG Hm.
  intros Hu Hraw Hr Hp Hun Hvec. specialize (Hraw e p Hp). unfold read_raw in Hraw. unfold read_record.
  destruct (read_varint e (r ++ p)) as [key' p1| |] eqn:Ek; [|done|done]. cbn [dbind] in *.
  destruct (skip_value e p1 (Z.land key' 7)) as [[] p2| |] eqn:Es; [|done|done]. cbn [dbind] in *. injection Hraw as -> ->. cbv zeta.
  assert (kept m (Some (VUnknown acc) :: fs) (r ++ p) p = Some (Some (VUnknown (acc ++ r)) :: fs)) as Hk.
  { unfold kept. rewrite Hu. cbn [keep_unknown]. by rewrite zlen_app, ztake_app by lia. }
  unfold unmatched in Hun. rewrite !andb_true_iff, !Z.leb_le in Hun. destruct Hun as [[H1 H29] Hun].
  destruct (Z.eqb_spec (Z.shiftr key 3) 0); [lia|]. destruct (Z.ltb_spec 536870911 (Z.shiftr key 3)); [lia|]. cbn [orb].
  fold (field_slot m (Z.shiftr key 3)). destruct (field_slot m (Z.shiftr key 3) =? no_slot) eqn:Eno; [by rewrite Hk|].
  cbn [orb] in Hun. destruct (zget (m_fields m) (field_slot m (Z.shiftr key 3))) as [f|] eqn:Ef; [|done]. apply negb_true_iff in Hun.
  unfold zget in *. destruct (field_slot m (Z.shiftr key 3) <? 0); [done|]. destruct (Forall2_lookup_l _ _ _ _ _ Hvec Ef) as (v & Ev & Hv).
  rewrite Ev. cbv iota beta. rewrite field_passed by done. unfold read_other. rewrite Es. cbn [dbind fst snd]. by rewrite list_insert_id, Hk, andb_false_r.
Qed.

Lemma unknown_leads u l : splits u l -> Forall (fun kr => unmatched m (Z.shiftr (fst kr) 3) (Z.land (fst kr) 7) = true) l -> has_unknown m = true ->
  bytes_ok u -> forall acc fs seen, vectors_held (Some (VUnknown acc) :: fs) ->
  leads u seen (Some (VUnknown acc) :: fs) [] seen (Some (VUnknown (acc ++ u)) :: fs).
Proof using HG Hm.
  intros Hsp Hun Hu. induction Hsp as [|key r p l Hraw Hne Hsp IH]; intros Hbu acc fs seen Hvec.
  { rewrite app_nil_r. by apply leads_refl. }
  apply Forall_cons in Hun as [Hk Hun]. apply Forall_app in Hbu as [Hbr Hbp]. rewrite app_assoc.
  eapply leads_trans; [|apply (IH Hun Hbp (acc ++ r) fs seen)].
  - apply (leads_record r); [done| |done|].
    + destruct r; [done|]. rewrite zlen_cons. pose proof (zlen_nonneg r). lia.
    + by eapply record_unknown.
  - unfold vectors_held in *. apply Forall2_cons_inv_r in Hvec as (f & fs1 & Hf & Hfs & E). rewrite E. constructor; [|done].
    destruct (f_type f); try done. by destruct Hf as [? ?].
Qed.

Lemma members_lead vs2 fs2 : Forall2 (typed_member G) vs2 fs2 -> Forall (fun f => field_ok G i f = true) fs2 ->
  Forall (fun f => 0 <= f_id f <= 32767) fs2 -> Forall (fun f => model_ok f = true) fs2 -> Forall (held value_back) vs2 ->
  members_ok (readable G d) vs2 fs2 = true -> zlen (each_member (enc_member (enc G)) vs2 fs2) < 2 ^ 64 ->
  forall fs1 vs1 seen q, m_fields m = fs1 ++ fs2 -> length vs1 = length fs1 -> bytes_ok q -> seen_upto m (zlen fs1) seen ->
  zlen (each_member (enc_member (enc G)) vs2 fs2 ++ q) < e ->
  exists seen' vs2', Forall3 back fs2 vs2 vs2' /\ seen_upto m (zlen (m_fields m)) seen' /\
    leads (each_member (enc_member (enc G)) vs2 fs2 ++ q) seen (vs1 ++ List.map init_member fs2) q seen' (vs1 ++ vs2').
Proof using HG Hm Hd Hn.
  induction 1 as [|ov f vs2 fs2 Hov Hvs IH]; intros Hok Hids Hmo Hh Hr Hb fs1 vs1 seen q Hmf Hlen Hq Hseen Hlt; cbn [each_member] in *.
  { exists seen, []. split_and!; [constructor| |by apply leads_refl]. by rewrite Hmf, app_nil_r. }
  apply Forall_cons in Hok as [Hf Hok], Hids as [Hfid Hids], Hmo as [Hfm Hmo], Hh as [Hho Hh]. apply app_small in Hb as [Hb1 Hb2].
  assert (member_readable f ov = true /\ members_ok (readable G d) vs2 fs2 = true) as [Hfr Hr'].
  { destruct ov as [v|]; cbn [members_ok member_readable] in *; [by apply andb_true_iff in Hr|done]. }
  assert (bytes_ok (each_member (enc_member (enc G)) vs2 fs2)) as Hbytes.
  { eapply members_bytes_ok; try done. apply Forall_true. intros [v|]; [|done]. by apply all_bytes_enc. }
  rewrite <- app_assoc in *. cbn [List.map].
  destruct (member_lead fs1 f fs2 ov Hmf Hfid Hf Hfm Hov Hfr Hho Hb1 (each_member (enc_member (enc G)) vs2 fs2 ++ q) seen vs1 (List.map init_member fs2))
    as (seen1 & x & Hx & Hmono & Hbit & Hl1); [by apply Forall_app|done|done|].
  assert (Hz1 : zlen (fs1 ++ [f]) = zlen fs1 + 1) by (by rewrite zlen_app).
  destruct (IH Hok Hids Hmo Hh Hr' Hb2 (fs1 ++ [f]) (vs1 ++ [x]) seen1 q) as (seen2 & vs2' & H3 & Hs & Hl2); try done.
  - by rewrite <- app_assoc.
  - rewrite !length_app. cbn. lia.
  - rewrite Hz1. eapply seen_next; [apply zlen_nonneg|exact Hseen|exact Hmono|]. intros g Hg Hreq.
    rewrite Hmf, zget_app_r, Z.sub_diag in Hg by lia. injection Hg as <-. auto.
  - by apply app_longer in Hlt.
  - rewrite <- !app_assoc in Hl2. cbn [app] in Hl2. exists seen2, (x :: vs2'). split_and!; [by constructor|done|by eapply leads_trans].
Qed.

Lemma back_vectors vs vs' : Forall2 (typed_member G) vs (m_fields m) -> Forall3 back (m_fields m) vs vs' -> vectors_held vs'.
Proof using HG Hm.
  destruct (pb_env_ok_lookup G HG i m Hm) as (_ & _ & Hfok). intros Ht H3. unfold vectors_held. revert Ht Hfok.
  induction H3 as [|f ov x fs vs vs' Hb H3 IH]; intros Ht Hfok; [constructor|].
  apply Forall2_cons in Ht as [Hov Ht]. apply Forall_cons in Hfok as [Hf Hfok]. constructor; [|auto].
  destruct (f_type f) as [| | | | | | | |el|] eqn:Et; try done. unfold back in Hb. rewrite Et in Hb.
  destruct (vector_present G i f ov el Hf Hov Et) as (l & -> & _). inversion Hb as [? y Hy|]; subst.
  cbn [inner] in Hy. inversion Hy; subst; eauto.
Qed.

Lemma back_reread fs vs vs' : Forall (fun f => f_type f <> PUnknown) fs -> Forall3 back fs vs vs' ->
  Forall3 (fun f ov ov' => option_Forall2 (reread G (inner (f_type f))) ov ov') fs vs vs'.
Proof using.
  intros Hne H3. induction H3 as [|f ov x fs vs vs' Hb H3 IH]; [constructor|]. apply Forall_cons in Hne as [Hf Hne].
  constructor; [|auto]. unfold back in Hb. by destruct (f_type f).
Qed.

(** Only the first field can be a [pb_unknown]. *)
Lemma rest_known f fs : m_fields m = f :: fs -> Forall (fun g => f_type g <> PUnknown) fs.
Proof using HG Hm.
  intros Hmf. destruct (pb_env_ok_lookup G HG i m Hm) as (Hok & _ & Hfok). destruct (message_ok_ids m Hok) as (Hsort & Hid & _).
  unfold ids in Hsort, Hid. rewrite Hmf in *. rewrite fmap_cons in *. apply Forall_cons in Hfok as [_ Hfok].
  apply StronglySorted_inv in Hsort as [_ Hsort]. apply Forall_cons in Hid as [Hid0 _]. rewrite Forall_fmap in Hsort.
  apply Forall_forall. intros g Hg Hbad. rewrite Forall_forall in Hfok, Hsort.
  apply (field_ok_unknown G i g (Hfok g Hg)) in Hbad. specialize (Hsort g Hg). cbn in Hsort. lia.
Qed.

Lemma unknown_first : if has_unknown m then exists f fs, m_fields m = f :: fs /\ f_type f = PUnknown
  else Forall (fun g => f_type g <> PUnknown) (m_fields m).
Proof using HG Hm.
  destruct (pb_env_ok_lookup G HG i m Hm) as (_ & _ & Hfok). destruct (m_fields m) as [|f fs] eqn:Hmf.
  { unfold has_unknown, ids. rewrite Hmf. constructor. }
  unfold has_unknown, ids. rewrite Hmf, fmap_cons. apply Forall_cons in Hfok as [Hf _].
  destruct (Z.eqb_spec (f_id f) 0) as [E|E].
  - exists f, fs. split; [done|]. by apply (field_ok_unknown G i f Hf).
  - constructor; [intros Ht; by apply (field_ok_unknown G i f Hf) in Ht|]. by apply (rest_known f).
Qed.

Lemma members_model : Forall (fun f => model_ok f = true) (m_fields m).
Proof using HG Hm.
  destruct (pb_env_ok_lookup G HG i m Hm) as (_ & Hc & _). unfold check_model in Hc. by apply forallb_Forall in Hc.
Qed.

Lemma message_back vs : typed_members G m vs -> Forall (held value_back) vs -> members_ok (readable G d) vs (m_fields m) = true ->
  zlen (enc_message (enc G) m vs) < 2 ^ 64 -> zlen (enc_message (enc G) m vs) < e ->
  exists vs', read_records (Datatypes.S (length (enc_message (enc G) m vs))) rf m e (enc_message (enc G) m vs) 0 (List.map init_member (m_fields m)) = Got vs' [] /\
    Forall3 (fun f ov ov' => option_Forall2 (reread G (inner (f_type f))) ov ov') (m_fields m) vs vs'.
Proof using HG Hm Hd Hn.
  intros [Hvs Hu] Hh Hr Hb He. destruct (pb_env_ok_lookup G HG i m Hm) as (Hok & _ & Hfok). destruct (message_ok_ids m Hok) as (_ & Hid & _).
  unfold ids in Hid. rewrite Forall_fmap in Hid. unfold enc_message in *. set (u := if has_unknown m then unknown_bytes vs else []) in *.
  assert (bytes_ok u) as Hbu.
  { unfold u. destruct (has_unknown m) eqn:Eu; [|done]. by destruct (unknown_head G HG i m vs Hm Hvs Eu) as (s & fs' & -> & ?). }
  apply app_small in Hb as [Hb1 Hb2].
  assert (seen_upto m (zlen (@nil (field ptype))) 0) as H0.
  { intros k f Hk Hg. pose proof (zget_Some_range _ _ _ Hg). change (zlen []) with 0 in Hk. lia. }
  destruct (members_lead vs (m_fields m) Hvs Hfok Hid members_model Hh Hr Hb1 [] [] 0 u eq_refl eq_refl Hbu H0 He) as (seen & vs' & H3 & Hseen & Hl).
  cbn [app] in Hl. pose proof (back_vectors vs vs' Hvs H3) as Hvec. pose proof unknown_first as Huf.
  assert (forall fs fs', leads (each_member (enc_member (enc G)) vs (m_fields m) ++ u) 0 fs [] seen fs' ->
    read_records (Datatypes.S (length (each_member (enc_member (enc G)) vs (m_fields m) ++ u))) rf m e (each_member (enc_member (enc G)) vs (m_fields m) ++ u) 0 fs = Got fs' []) as Hend.
  { intros fs fs' Hlead. rewrite (Hlead _ 1%nat) by (cbn; lia). cbn [read_records]. rewrite (seen_all m seen Hseen), Z.eqb_refl. by rewrite andb_false_r. }
  destruct (has_unknown m) eqn:Eu.
  - destruct Huf as (f & fs & Hmf & Hft). pose proof (rest_known f fs Hmf) as Hrest. rewrite Hmf in Hvs, H3.
    inversion H3 as [|? ov x ? vs1 vs1' Hb0 H3' E1 E2 E3]; subst. unfold back in Hb0. rewrite Hft in Hb0.
    destruct (unknown_head G HG i m (ov :: vs1) Hm) as (s & fs' & [= -> ->] & Hbs); [by rewrite Hmf|done|].
    assert (init_member f = Some (VUnknown [])) as Einit.
    { unfold init_member. destruct (opt_like f) eqn:Eo; [|by rewrite Hft]. apply Forall2_cons in Hvs as [Hov _].
      rewrite Hmf in Hfok. apply Forall_cons in Hfok as [Hf _]. unfold field_ok, opt_like in *. rewrite Hft in *. rewrite !andb_true_iff, negb_true_iff in Hf.
      destruct Hf as [[[[_ Ho] _] _] _]. by rewrite Ho in Eo. }
    subst x. rewrite Einit in *. cbn [unknown_bytes] in u. apply unknown_ok_splits in Hu as (l & Hsp & Hun); [|done]. cbn [unknown_bytes] in Hsp.
    exists (Some (VUnknown s) :: vs1'). split.
    + apply Hend. eapply leads_trans; [exact Hl|]. exact (unknown_leads s l Hsp Hun Eu Hbs [] vs1' seen Hvec).
    + rewrite Hmf. constructor; [constructor; constructor|by apply back_reread].
  - exists vs'. split; [by apply Hend|by apply back_reread].
Qed.
End Message.

(** ** The initial message *)
Lemma pb_zero_fuel f1 f2 t : inner t = t -> complete f1 t = true -> complete f2 t = true -> zero G f1 t = zero G f2 t.
Proof using HG.
  revert f2 t. induction f1 as [|f1 IH]; intros f2 t Hin H1 H2; destruct t as [s| | | | |j|j|j|el|]; try done; try (by destruct s, f2); try (by destruct f2);
    apply bool_decide_eq_true in H1, H2; try lia. destruct f2 as [|f2]; [lia|]. cbn [zero].
  destruct (G !! j) as [m|] eqn:Em; [|done]. destruct (pb_env_ok_lookup G HG j m Em) as (_ & _ & Hf). f_equal.
  apply map_ext_Forall. eapply Forall_impl; [exact Hf|]. intros f Hff. cbn beta. destruct (opt_like f) eqn:Eo; [done|]. f_equal.
  apply field_ok_inv in Hff as [_ Hc]. unfold opt_like in Eo. apply orb_false_iff in Eo as [_ Eb].
  apply IH; [by destruct (f_type f)|..]; unfold complete in *; destruct (f_type f); try done; apply bool_decide_eq_true in Hc; apply bool_decide_eq_true; lia.
Qed.

Lemma pb_init_message i m : G !! i = Some m -> init G (PMessage i) = VMsg (List.map init_member (m_fields m)).
Proof using HG.
  intros Em. unfold init. cbn [zero]. rewrite Em. f_equal. destruct (pb_env_ok_lookup G HG i m Em) as (_ & _ & Hf).
  apply lookup_lt_Some in Em. apply map_ext_Forall. eapply Forall_impl; [exact Hf|]. intros f Hff. unfold init_member. cbn beta.
  destruct (opt_like f) eqn:Eo; [done|]. f_equal. unfold opt_like in Eo. apply orb_false_iff in Eo as [_ Eb]. apply field_ok_inv in Hff as [Hs Hc].
  apply pb_zero_fuel; [by destruct (f_type f)|..]; apply (pb_scoped_complete G); done || lia.
Qed.

(** What is written reads back, at any nesting the limit allows. *)
Lemma read_message_back n i m vs d e : G !! i = Some m -> enough n d -> 0 <= d -> typed_members G m vs -> Forall (held value_back) vs ->
  members_ok (readable G d) vs (m_fields m) = true -> zlen (enc_message (enc G) m vs) < 2 ^ 64 -> zlen (enc_message (enc G) m vs) < e ->
  exists vs', read_message G n e (enc_message (enc G) m vs) d m (List.map init_member (m_fields m)) = Got vs' [] /\
    reread G (PMessage i) (VMsg vs) (VMsg vs').
Proof using HG.
  intros Hm Hn Hd Hvs Hh Hr Hb He. destruct n as [|n]; [destruct Hn; lia|]. cbn [read_message].
  destruct (message_back n d Hd (pb_enough_S n d Hn) i m Hm e vs Hvs Hh Hr Hb He) as (vs' & E & H3).
  exists vs'. split; [exact E|by econstructor].
Qed.

Lemma all_back v : deep value_back v.
Proof using HG.
  apply deep_ind. clear v. intros v Hv t depth n He Hpk Hs Ht Hr Hd Hn Hb.
  destruct v as [b|x|u|s|b s| |l|b s|m|s|vs]; destruct t as [sc| | | | |i|i|i|el|]; try done; cbn [enc] in *.
  - exists s. split_and!; [done|by apply all_bytes_ok|]. intros e _. exists (VString s). split; [done|constructor].
  - exists s. cbn [typed] in Ht. apply andb_true_iff in Ht as [? _]. split_and!; [done|by apply all_bytes_ok|].
    intros e _. eexists. split; [reflexivity|by constructor].
  - exists s. cbn [typed] in Ht. apply andb_true_iff in Ht as [? _]. split_and!; [done|by apply all_bytes_ok|].
    intros e _. eexists. split; [reflexivity|by constructor].
  - exists []. split_and!; [done|constructor|]. intros e _. exists VEmpty. split; [done|constructor].
  - exists (lazy_region (VLazy b s)). cbn [typed] in Ht. apply andb_true_iff in Ht as [? _].
    split_and!; [done|unfold lazy_region; destruct (_ =? _); [done|by apply all_bytes_ok]|]. intros e He'.
    eexists. split; [reflexivity|].
    assert (lazy_has_value (set_region e (lazy_region (VLazy b s))) = true) as Hset.
    { cbn [set_region lazy_has_value b_data]. destruct (Z.eqb_spec (e - zlen (lazy_region (VLazy b s))) nullptr) as [E|]; [unfold nullptr in E; lia|done]. }
    unfold set_region in *. set (r := lazy_region (VLazy b s)) in *. cbn [lazy_has_value b_data] in Hset. apply negb_true_iff in Hset.
    constructor; cbn [lazy_region lazy_has_value b_data]; by rewrite Hset.
  - cbn [typed readable] in *. destruct (Hv (PMessage i) (-1) decode_fuel eq_refl eq_refl Hs Ht Hr ltac:(lia)) as (body & E & Hbody & Hread); [|done|].
    { intros _. apply pb_enough_decode_fuel. lia. }
    exists body. split_and!; [done|done|]. intros e He'. destruct (Hread e He') as (m' & Em & Hrr). eexists. split; [reflexivity|].
    assert (b_data (Bytes (e - zlen body) (zlen body) None 0) =? nullptr = false) as Hnull.
    { cbn [b_data]. apply Z.eqb_neq. unfold nullptr. lia. }
    apply (rr_lazy_of G i m m'); [cbn [lazy_has_value]; by rewrite Hnull| |done].
    unfold lazy_decode, lazy_decode_into. cbn [lazy_region]. rewrite Hnull. unfold decode_bytes.
    cbn [read_len] in Em. destruct (G !! i) as [mt|]; [|by destruct (_ <=? _) in Em]. cbn [b_data b_size from_bytes i_last].
    change (max_tagged_depth <=? -1) with false in Em. cbv iota in Em. destruct (init G (PMessage i)) as [| | | | | | | | | |fs]; try done.
    change (-1 + 1) with 0 in Em. replace (e - zlen body + zlen body) with e by lia.
    destruct (read_message G decode_fuel e body 0 mt fs) as [vs q| |]; try done. cbn [dbind] in Em. injection Em as <-. done.
  - destruct (pb_typed_message_inv G i _ Ht) as (m & vs' & Hm & [= <-] & Hvs). cbn [readable] in Hr. rewrite Hm in *.
    apply andb_true_iff in Hr as [Hd64 Hr]. apply Z.leb_le in Hd64. exists (enc_message (enc G) m vs). apply app_small in Hb as [_ Hb].
    split_and!; [done| |].
    { eapply message_bytes_ok; try done. apply Forall_true. intros [v|]; [|done]. by apply all_bytes_enc. }
    intros e He'. cbn [read_len]. destruct (Z.leb_spec max_tagged_depth depth); [lia|]. rewrite Hm, (pb_init_message i m Hm).
    destruct (read_message_back n i m vs (depth + 1) e Hm (Hn ltac:(lia)) ltac:(lia) Hvs Hv Hr Hb He') as (vs' & -> & Hrr).
    cbn [dbind]. by exists (VMsg vs').
Qed.

(** ** The entry point *)
Lemma decode_back k m i p : typed G (PMessage k) m = true -> readable G (-1) (PMessage k) m = true -> p = message_bytes G k m ->
  zlen p < 2 ^ 64 -> zlen p < i_last i ->
  exists m', decode_bytes G k i p (init G (PMessage k)) = Some (inl (m', size i)) /\ reread G (PMessage k) m m'.
Proof using HG.
  intros Ht Hr -> Hb He. destruct (pb_typed_message_inv G k m Ht) as (mt & vs & Hm & -> & Hvs). unfold message_bytes, decode_bytes in *.
  cbn [readable] in Hr. rewrite Hm in *. apply andb_true_iff in Hr as [_ Hr]. rewrite (pb_init_message k mt Hm).
  destruct (read_message_back decode_fuel k mt vs 0 (i_last i) Hm (pb_enough_decode_fuel 0 ltac:(lia)) ltac:(lia) Hvs) as (vs' & -> & Hrr); try done.
  - apply Forall_true. intros [v|]; [|done]. apply all_back.
  - by exists (VMsg vs').
Qed.
End ReadBack.
