(* ===== verification/ProtobufSpecs.v ===== *)
(** * What Protobuf decoding and encoding promise

    The claims about the protobuf wire: decoding is type-safe, a message is a
    sequence of records (runs are read as single records, concatenation is
    merging, unknown records are kept), encoding delivers exactly one byte
    sequence within the limits and refuses what it measures outside them, and it
    reads back when its enum values are int32; and what modelling found. *)
From S2P Require Import Prelude Parser BytesParsers Combinators CombinatorFacts Numbers Emit Messages Staging Protobuf ProtobufEncode ProtobufTypes ProtobufSafe ProtobufMerge ProtobufWrite ProtobufRead.

(** * Unknown protobuf records are kept

    Reading a message takes its records one by one, each as long as skipping it
    would find; the ones the message type does not take are kept, byte for
    byte and in order, after what the [pb_unknown] member held. *)

(** The bytes of the records the message type does not take. *)
Definition unknown_records (m : message ptype) (l : list (Z * list Z)) : list Z :=
  concat (List.map (fun kr => if unmatched m (Z.shiftr (fst kr) 3) (Z.land (fst kr) 7) then snd kr else []) l).

(** ** Reading a value is skipping it *)
Lemma wire_of_scalar s : wire_of (PScalar s) = scalar_wire s.
Proof. done. Qed.

Lemma checked_skips {A} e p (k : Z -> list Z -> dec A) x q : (forall v p x q, k v p = Got x q -> q = p) ->
  (let& (v, p) := read_varint e p in k v p) = Got x q -> skip_value e p wire_varint = Got tt q.
Proof.
  intros Hk E. unfold skip_value. rewrite Z.eqb_refl. destruct (read_varint e p) as [v r| |]; cbn [dbind] in *; [|done|done]. by apply Hk in E as ->.
Qed.

Lemma fixed_skips what n e p u q : n = 4 \/ n = 8 -> read_fixed what n e p = Got u q ->
  skip_value e p (if n =? 4 then wire_i32 else wire_i64) = Got tt q.
Proof.
  intros Hn E. unfold read_fixed in E. destruct (Z.ltb_spec (zlen p) n) as [|Hl]; [done|]. destruct (load_le _ _ _ _); [|done]. injection E as _ <-.
  destruct Hn as [-> | ->]; [change (4 =? 4) with true|change (8 =? 4) with false]; cbv iota; unfold skip_value;
    [change (wire_i32 =? wire_varint) with false; change (wire_i32 =? wire_i64) with false; rewrite Z.eqb_refl
    |change (wire_i64 =? wire_varint) with false; rewrite Z.eqb_refl]; cbv iota; [destruct (Z.ltb_spec (zlen p) 4)|destruct (Z.ltb_spec (zlen p) 8)]; done || lia.
Qed.

Lemma scalar_skips s e p x q : scalar_ok s = true -> read_scalar e p s = Got x q -> skip_value e p (scalar_wire s) = Got tt q.
Proof.
  intros Hs E. destruct s as [|[] w|sg w|w|sg w| |]; cbn [read_scalar scalar_wire] in *;
    try (eapply checked_skips; [|exact E]; cbv zeta beta; intros v p' x' q'; match goal with |- (if ?b then _ else _) = _ -> _ => destruct b end; [done|]; by intros [= _ <-]).
  - destruct (read_fixed _ _ e p) as [u r| |] eqn:Ef; [|done|done]. cbn [dbind] in E. injection E as _ <-. cbn in Hs.
    apply orb_true_iff in Hs as [Hs|Hs]; apply Z.eqb_eq in Hs as ->; [apply (fixed_skips _ 4) in Ef|apply (fixed_skips _ 8) in Ef]; auto.
  - destruct (read_fixed _ _ e p) as [u r| |] eqn:Ef; [|done|done]. cbn [dbind] in E. injection E as _ <-. apply (fixed_skips _ 4) in Ef; auto.
  - destruct (read_fixed _ _ e p) as [u r| |] eqn:Ef; [|done|done]. cbn [dbind] in E. injection E as _ <-. apply (fixed_skips _ 8) in Ef; auto.
Qed.

Lemma length_skips {A} what e p (k : Z -> list Z -> dec A) x q :
  (forall n p x q, k n p = Got x q -> q = zdrop n p) ->
  (let& (n, p) := read_length what e p in k n p) = Got x q -> skip_value e p wire_len = Got tt q.
Proof.
  intros Hk E. change (skip_value e p wire_len) with
    (let& (n, p) := read_length "a length-delimited field that fits the message" e p in Got tt (zdrop n p)).
  destruct (read_length what e p) as [n r| |] eqn:El; [|done|done]. cbn [dbind] in E. apply Hk in E as ->.
  unfold read_length in *. destruct (read_varint e p) as [n' r'| |]; cbn [dbind] in *; [|done|done]. destruct (_ <? _); [done|]. by injection El as -> ->.
Qed.

Section Keep.
Context (G : list (message ptype)) (rd : reader) (depth : Z).

(** What a field's reader leaves: the rest that skipping leaves, and a record
    not taken changes nothing. *)
Definition skips (e : Z) (p : list Z) (wt : Z) (f : field ptype) (v : option pvalue) (r : dec (option pvalue * bool)) : Prop :=
  match r with
  | Got (x, mt) q => skip_value e p wt = Got tt q /\ mt = matches (f_type f) wt /\ (mt = false -> x = v)
  | _ => True
  end.

Lemma other_skips e p wt f v : matches (f_type f) wt = false -> skips e p wt f v (read_other e p wt v).
Proof using. intros Hm. unfold read_other. destruct (skip_value e p wt) as [[] q| |] eqn:E; cbn [dbind skips]; done. Qed.

Lemma sub_skips what e p f v (g : pvalue -> option pvalue) (k : Z -> list Z -> bool) (why : string) t (out : pvalue) :
  matches (f_type f) wire_len = true ->
  skips e p wire_len f v (let& (n, p) := read_length what e p in
    if k n p then fail why e p else let& (x, p) := read_sub G rd e n p depth t out in Got (g x, true) p).
Proof using.
  intros Hm. destruct (dbind _ _) as [[x mt] q| |] eqn:E; cbn [skips]; [|done|done].
  assert (mt = true) as ->.
  { destruct (read_length what e p) as [n r| |]; cbn [dbind] in E; [|done|done]. destruct (k n r); [done|].
    destruct (read_sub _ _ _ _ _ _ _ _); cbn [dbind] in E; [|done|done]. by injection E. }
  split; [|done]. eapply length_skips; [|exact E]. cbv beta. intros n r y s Er. destruct (k n r); [done|]. unfold read_sub in Er.
  destruct (read_len _ _ _ _ _ _ _); cbn [dbind] in Er; [|done|done]. by injection Er.
Qed.

Lemma scalar_field_skips e p f v s (g : pvalue -> option pvalue) : scalar_ok s = true -> matches (f_type f) (scalar_wire s) = true ->
  skips e p (scalar_wire s) f v (let& (x, p) := read_scalar e p s in Got (g x, true) p).
Proof using.
  intros Hs Hm. destruct (read_scalar e p s) as [x q| |] eqn:E; cbn [dbind skips]; [|done|done]. split; [by eapply scalar_skips|done].
Qed.

Lemma field_skips k e tag_at p wt f v : field_ok G k f = true -> skips e p wt f v (read_field_one G rd depth e tag_at p wt f v).
Proof using.
  intros Hf. pose proof (field_ok_elem G k f Hf) as He. unfold read_field_one.
  destruct (f_type f) as [s| | | | |i|i|i|el|] eqn:Et.
  9: { destruct v as [[| | | | | |l| | | |]|]; try (unfold read_field; rewrite Et; by destruct el).
       unfold read_field. rewrite Et. unfold read_repeated. cbv zeta.
       destruct el as [s| | | | |i|i|i|el'|]; try done; cbn [wire_of packable andb negb] in *;
         try (destruct (Z.eqb_spec wt wire_len) as [->|Hne]; cbn [andb];
           [apply (sub_skips _ e p f _ _ (fun _ _ => false) ""); by rewrite Et
           |apply other_skips; rewrite Et; cbn [matches wire_of packable andb]; rewrite orb_false_r; by apply Z.eqb_neq]).
       destruct (Z.eqb_spec wt (scalar_wire s)) as [->|Hne].
       - apply scalar_field_skips; [done|]. rewrite Et. cbn [matches wire_of]. by rewrite Z.eqb_refl.
       - cbn [andb]. destruct (Z.eqb_spec wt wire_len) as [->|Hl].
         + destruct (dbind _ _) as [[x mt] q| |] eqn:E; cbn [skips]; [|done|done].
           assert (mt = true) as ->.
           { destruct (read_length _ e p) as [n r| |]; cbn [dbind] in E; [|done|done]. destruct (_ && _); [done|].
             destruct (read_packed _ _ _ _ _); cbn [dbind] in E; [|done|done]. by injection E. }
           split_and!; [|rewrite Et; cbn [matches packable]; by rewrite Z.eqb_refl, orb_true_r|done].
           eapply length_skips; [|exact E]. cbv beta. intros n r y z Er. destruct (_ && _); [done|].
           destruct (read_packed _ _ _ _ _); cbn [dbind] in Er; [|done|done]. by injection Er.
         + apply other_skips. rewrite Et. cbn [matches wire_of packable andb]. rewrite (proj2 (Z.eqb_neq _ _)) by done. by apply Z.eqb_neq. }
  9: { unfold read_field. rewrite Et. apply other_skips. by rewrite Et. }
  all: rewrite read_field_eq by (by rewrite Et); rewrite Et; cbv zeta; cbn [inner wire_of] in *;
    (destruct (Z.eqb_spec wt (wire_of (inner (f_type f)))) as [Ew|Ew]; rewrite Et in Ew; cbn [inner wire_of] in Ew;
      [subst wt; rewrite Z.eqb_refl; cbn [negb]|rewrite (proj2 (Z.eqb_neq _ _)) by done; apply other_skips; rewrite Et; by apply Z.eqb_neq]).
  1: apply scalar_field_skips; [done|rewrite Et; cbn [matches inner wire_of]; by rewrite Z.eqb_refl].
  all: first [apply (sub_skips _ e p f v Some (fun _ _ => false) "")
    |apply (sub_skips _ e p f v Some (fun _ _ => negb (f_opt f) && match v with Some x => lazy_has_value x | None => false end))]; by rewrite Et.
Qed.

(** One record: what it leaves, and what it adds to the unknown bytes. *)
Lemma record_keeps i m e p seen fs seen' fs' q : env_ok G = true -> G !! i = Some m -> has_unknown m = true -> bytes_ok p ->
  read_record (read_field_one G rd depth) m e p seen fs = Got (seen', fs') q ->
  exists key r, p = r ++ q /\ r <> [] /\ splits r [(key, r)] /\ unknown_bytes fs' = unknown_bytes fs ++ unknown_records m [(key, r)].
Proof using.
  intros HG Hm Hu Hp E. destruct (pb_env_ok_lookup G HG i m Hm) as (Hok & _ & Hfok). unfold read_record in E.
  destruct (read_varint e p) as [key p1| |] eqn:Ek; [|done|done]. cbn [dbind] in E. cbv zeta in E.
  destruct (_ || _) eqn:Erange; [done|]. apply orb_false_iff in Erange as [E0%Z.eqb_neq E29%Z.ltb_ge].
  pose proof (varint_nonneg e p key p1 Hp Ek) as Hkey. pose proof (shiftr3_range key Hkey) as Hid.
  assert (Hrange : (1 <=? Z.shiftr key 3) && (Z.shiftr key 3 <=? 536870911) = true) by (rewrite andb_true_iff, !Z.leb_le; lia).
  fold (field_slot m (Z.shiftr key 3)) in E.
  assert (forall s, skip_value e p1 (Z.land key 7) = Got tt s -> exists r, p = r ++ s /\ r <> [] /\ splits r [(key, r)] /\
    forall fs, kept m fs p s = keep_unknown fs r) as Hsplit.
  { intros s Es. assert (read_raw e p = Got key s) as Er by (unfold read_raw; rewrite Ek; cbn [dbind]; by rewrite Es).
    destruct (splits_one e p key s Hp Er) as (r & -> & Hne & Hsp). exists r. split_and!; try done. intros fs0. unfold kept.
    rewrite Hu, zlen_app. by rewrite ztake_app by lia. }
  assert (forall fs1 r fs2, keep_unknown fs1 r = Some fs2 -> unknown_bytes fs2 = unknown_bytes fs1 ++ r) as Hkeep.
  { intros [|[[]|] fs1] r fs2 Hk; try done. by injection Hk as <-. }
  destruct (field_slot m (Z.shiftr key 3) =? no_slot) eqn:Eno.
  - destruct (skip_value e p1 (Z.land key 7)) as [[] s| |] eqn:Es; [|done|done]. cbn [dbind] in E. destruct (Hsplit s eq_refl) as (r & Ep & Hne & Hsp & Hk).
    rewrite Hk in E. destruct (keep_unknown fs r) as [fs2|] eqn:Ekeep; [|done]. injection E as _ <- <-. exists key, r. split_and!; try done.
    rewrite (Hkeep _ _ _ Ekeep). unfold unknown_records. cbn [List.map concat fst snd]. unfold unmatched. rewrite Hrange, Eno. by rewrite app_nil_r.
  - destruct (zget (m_fields m) (field_slot m (Z.shiftr key 3))) as [f|] eqn:Ef; [|done]. destruct (zget fs (field_slot m (Z.shiftr key 3))) as [v|] eqn:Ev; [|done].
    pose proof (zget_Some_range _ _ _ Ef) as Hslot. assert (f_id f <> 0 /\ field_ok G i f = true) as [Hfid Hff].
    { rewrite Forall_forall in Hfok. unfold zget in Ef. destruct (Z.ltb_spec (field_slot m (Z.shiftr key 3)) 0); [lia|]. split; [|by eapply Hfok, list_elem_of_lookup_2].
      unfold field_slot in *. destruct (32767 <? _); [done|]. destruct (slot_of_cases m Hok (Z.shiftr key 3)) as [[_ Hno]|(g & Hg & Hgid & _)]; [by rewrite Hno in Eno|].
      unfold zget in Hg. destruct (_ <? 0); [done|]. rewrite Hg in Ef. injection Ef as ->. lia. }
    pose proof (field_skips i e p p1 (Z.land key 7) f v Hff) as Hsk. destruct (read_field_one _ _ _ _ _ _ _ _ _) as [[x mt] s| |]; [|done|done].
    cbn [dbind fst snd skips] in *. destruct Hsk as (Es & Hmt & Hx). destruct (Hsplit s Es) as (r & Ep & Hne & Hsp & Hk).
    assert (unmatched m (Z.shiftr key 3) (Z.land key 7) = negb mt) as Hun by (unfold unmatched; rewrite Hrange, Eno, Ef, Hmt; done).
    destruct mt.
    + injection E as _ <- <-. exists key, r. split_and!; try done. unfold unknown_records. cbn [List.map concat fst snd]. rewrite Hun, !app_nil_r.
      destruct (Z.to_nat (field_slot m (Z.shiftr key 3))) as [|j] eqn:Ej; [|by destruct fs as [|[[]|] fs]].
      exfalso. apply Hfid. assert (field_slot m (Z.shiftr key 3) = 0) as H0 by lia. rewrite H0 in Ef.
      unfold has_unknown, ids in Hu. destruct (m_fields m) as [|g l]; [done|]. injection Ef as ->. cbn in Hu. by apply Z.eqb_eq.
    + rewrite Hk in E. destruct (keep_unknown _ r) as [fs2|] eqn:Ekeep; [|done]. injection E as _ <- <-. exists key, r. split_and!; try done.
      rewrite (Hkeep _ _ _ Ekeep), (Hx eq_refl). unfold zget in Ev. destruct (_ <? 0) in Ev; [done|]. rewrite list_insert_id by done.
      unfold unknown_records. cbn [List.map concat fst snd]. rewrite Hun. by rewrite app_nil_r.
Qed.

Lemma unknown_records_app m l1 l2 : unknown_records m (l1 ++ l2) = unknown_records m l1 ++ unknown_records m l2.
Proof using. unfold unknown_records. by rewrite map_app, concat_app. Qed.

Lemma records_keep i m e n : env_ok G = true -> G !! i = Some m -> has_unknown m = true -> forall p seen fs fs' q, bytes_ok p ->
  read_records n (read_field_one G rd depth) m e p seen fs = Got fs' q ->
  exists l, splits p l /\ unknown_bytes fs' = unknown_bytes fs ++ unknown_records m l.
Proof using.
  intros HG Hm Hu. induction n as [|n IH]; intros p seen fs fs' q Hp E; [done|]. cbn [read_records] in E. destruct p as [|b p].
  { destruct (_ && _); [done|]. injection E as <- _. exists []. split; [constructor|]. by rewrite app_nil_r. }
  destruct (read_record _ m e (b :: p) seen fs) as [[seen1 fs1] r| |] eqn:Er; [|done|done]. cbn [dbind fst snd] in E.
  destruct (record_keeps i m e _ _ _ _ _ _ HG Hm Hu Hp Er) as (key & k & Ep & Hne & Hsp & Hub). rewrite Ep in Hp |- *.
  apply Forall_app in Hp as [_ Hr]. destruct (IH r seen1 fs1 fs' q Hr E) as (l & Hl & Hub'). exists ([(key, k)] ++ l).
  split; [by apply splits_app|]. rewrite Hub', Hub, unknown_records_app. by rewrite app_assoc.
Qed.
End Keep.

(** Decoding a message with a [pb_unknown] member. *)
Lemma decode_keeps G k m i p fs vs n : env_ok G = true -> G !! k = Some m -> has_unknown m = true -> bytes_ok p -> typed_members G m fs ->
  decode_bytes G k i p (VMsg fs) = Some (inl (VMsg vs, n)) ->
  exists l, splits p l /\ unknown_bytes vs = unknown_bytes fs ++ unknown_records m l.
Proof.
  intros HG Hm Hu Hp Hfs E. unfold decode_bytes in E. rewrite Hm in E.
  rewrite (runs_exact G HG decode_fuel 0 (pb_enough_decode_fuel 0 ltac:(lia)) (i_last i) p k m fs Hm Hp Hfs) in E.
  destruct (read_message_one G decode_fuel (i_last i) p 0 m fs) as [vs' q| |] eqn:Er; [|done|done]. injection E as <- _.
  destruct decode_fuel as [|f]; [done|]. cbn [read_message_one] in Er. by eapply records_keep.
Qed.

(** Message types in use: a pair, and a node that keeps what it does not know. *)
Definition two_views : message ptype :=
  Message "Pair" [Field "key" 1 required false PView; Field "value" 2 defaulted true PBytes].
Definition tree : message ptype :=
  Message "Tree" [Field "unknown" 0 defaulted false PUnknown; Field "pairs" 1 defaulted false (PVector (PMessage 0));
    Field "deltas" 3 defaulted false (PVector (PScalar (SSint 32))); Field "kind" 4 defaulted false (PScalar (SEnum true 32));
    Field "weight" 5 defaulted true (PScalar SDouble); Field "child" 40 defaulted false (PLazy 1)].
Definition forest : list (message ptype) := [two_views; tree].

Definition a_view (s : list Z) : pvalue := VView (Bytes nullptr (zlen s) None 0) s.
Definition a_leaf : pvalue := VMsg [Some (VUnknown []); Some (VVec []); Some (VVec [VInt 7]); Some (VInt 0); None; Some (VLazy no_bytes [])].
Definition a_tree : pvalue :=
  VMsg [Some (VUnknown [48; 5]); Some (VVec [VMsg [Some (a_view [65; 66]); None]; VMsg [Some (a_view []); Some (a_view [1])]]);
    Some (VVec [VInt (-1); VInt 300]); Some (VInt (-2)); Some (VFloat 4607182418800017408); Some (VLazyOf a_leaf)].

(** An input over [l] at address 4096. *)
Definition at_4096 (l : list Z) : input := Input 4096 (4096 + zlen l) 4096 false None 0.

(** ** Decoding *)
Lemma fault_ok M i (p : list Z) f : wf M i -> zlen p = i_last i - i_first i -> i_last i - zlen p <= f_at f <= i_last i -> err_ok i (to_error i f).
Proof.
  intros Hwf Hlen Hf. pose proof (wf_base _ _ Hwf). pose proof (wf_first _ _ Hwf). pose proof (wf_extent _ _ Hwf).
  unfold to_error. cbv zeta. constructor; cbn; [unfold max_incomplete_needed; lia|unfold max_context; lia|done|]. intros H32.
  unfold offset, with_range. cbn [i_first i_base]. set (a := if f_at f =? nullptr then i_first i else f_at f).
  assert (i_first i <= a <= i_last i) by (unfold a; destruct (_ =? _); lia).
  rewrite (wrap_small 64) by lia. rewrite wrap_small by lia. lia.
Qed.

(** C24: decoding any bytes as any message type ends, reads nothing outside the
    input's window, and yields a value of the message type with the whole
    input consumed, or an error located inside the window. *)
Theorem protobuf_sound G k M M' i : env_ok G = true -> (k < length G)%nat -> wf M i -> agree M M' i ->
  protobuf G k M' i = protobuf G k M i /\
  match protobuf G k M i with
  | Done v r => r = advance i (size i) /\ typed G (PMessage k) v = true
  | Err e => err_ok i e
  | Stop _ => False
  end.
Proof.
  intros HG Hk Hwf Hag. destruct (load_wf M M' i Hwf Hag) as (p & Hp & Hlen & Hl & Hl').
  destruct (lookup_lt_is_Some_2 G k Hk) as [m Hm]. destruct (init_members G HG k m Hm) as (fs & Hi & Hfs).
  unfold protobuf, protobuf_decode. rewrite Hl, Hl', Hi. split; [done|].
  destruct (decode_bytes_cases G HG k m i p fs Hm Hp Hfs) as [(vs & -> & Hvs)|(f & -> & Hf)].
  - split; [done|]. by apply (pb_typed_message G k m).
  - by eapply fault_ok.
Qed.

Lemma protobuf_sound_witness :
  exists v, protobuf forest 0 (mem_of 4096 [10; 1; 65]) (at_4096 [10; 1; 65]) = Done v (advance (at_4096 [10; 1; 65]) 3) /\ typed forest (PMessage 0) v = true.
Proof.
  pose proof (protobuf_sound forest 0 (mem_of 4096 [10; 1; 65]) (mem_of 4096 [10; 1; 65]) (at_4096 [10; 1; 65])
    eq_refl ltac:(cbn; lia) ltac:(apply mem_of_wf; [repeat constructor; lia|done]) ltac:(done)) as [_ H].
  vm_compute in H. eexists. split; [vm_compute; reflexivity|]. exact (proj2 H).
Defined.

(** C25: reading a run of unpacked scalars in one go is reading its records one
    at a time. Whatever the bytes, the nesting and the members read into, the
    decoder's answer (the value, or the failure and where it is) is that of
    the reference, which appends one value per record. *)
Theorem protobuf_runs G k m e p fs : env_ok G = true -> G !! k = Some m -> bytes_ok p -> typed G (PMessage k) (VMsg fs) = true ->
  read_message G decode_fuel e p 0 m fs = read_message_one G decode_fuel e p 0 m fs.
Proof.
  intros HG Hm Hp Hfs. apply (runs_exact G HG decode_fuel 0 (pb_enough_decode_fuel 0 ltac:(lia)) e p k m fs Hm Hp). by apply (pb_typed_message G k m).
Qed.

Definition no_tree : list (option pvalue) := match init forest (PMessage 1) with VMsg fs => fs | _ => [] end.

Lemma protobuf_runs_witness :
  read_message forest decode_fuel 4102 [24; 2; 24; 4; 24; 1] 0 tree no_tree = read_message_one forest decode_fuel 4102 [24; 2; 24; 4; 24; 1] 0 tree no_tree.
Proof. apply (protobuf_runs forest 1 tree 4102 [24; 2; 24; 4; 24; 1] no_tree eq_refl eq_refl); [repeat constructor; lia|reflexivity]. Defined.

Lemma load_app M n1 n2 a p : load M (n1 + n2) a = Some p -> exists p1 p2, p = p1 ++ p2 /\ length p1 = n1 /\
  load M n1 a = Some p1 /\ load M n2 (a + Z.of_nat n1) = Some p2.
Proof.
  revert a p. induction n1 as [|n1 IH]; intros a p E; cbn [Nat.add load] in *.
  { exists [], p. by rewrite Z.add_0_r. }
  destruct (M a) as [b|]; [|done]. destruct (load M (n1 + n2) (a + 1)) as [l|] eqn:El; [|done]. injection E as <-.
  destruct (IH _ _ El) as (p1 & p2 & -> & <- & -> & Hp2). exists (b :: p1), p2. split_and!; try done.
  cbn [length]. by replace (a + Z.of_nat (S (length p1))) with (a + 1 + Z.of_nat (length p1)) by lia.
Qed.

(** C26: concatenating two encodings merges the messages. For a message type
    without required fields, cut the input anywhere: if the first part decodes
    into [v], decoding the whole is decoding the second part into what the
    first left, the answer and the error included. *)
Theorem protobuf_concat G k m M i c v v1 n1 : env_ok G = true -> G !! k = Some m -> required_mask m = 0 -> wf M i -> 0 < i_first i ->
  i_first i <= c <= i_last i -> typed G (PMessage k) v = true ->
  protobuf_decode G k M (with_range i (i_first i) c) v = Some (inl (v1, n1)) ->
  protobuf_decode G k M i v =
    match protobuf_decode G k M (with_range i c (i_last i)) v1 with
    | Some (inl (v2, _)) => Some (inl (v2, size i))
    | r => r
    end.
Proof.
  intros HG Hm Hreq Hwf Hpos Hc Ht E. pose proof (wf_first _ _ Hwf).
  destruct (load_wf M M i Hwf) as (p & Hp & Hlen & Hl & _); [done|]. unfold protobuf_decode in *. cbn [i_first i_last with_range] in *.
  assert (exists a b, p = a ++ b /\ zlen a = c - i_first i /\ load M (Z.to_nat (c - i_first i)) (i_first i) = Some a /\
    load M (Z.to_nat (i_last i - c)) c = Some b) as (a & b & -> & Ha & Hla & Hlb).
  { replace (Z.to_nat (i_last i - i_first i)) with (Z.to_nat (c - i_first i) + Z.to_nat (i_last i - c))%nat in Hl by lia.
    destruct (load_app M _ _ _ p Hl) as (a & b & E1 & E2 & E3 & E4). exists a, b. split_and!; [done|unfold zlen; lia|done|].
    by replace (i_first i + Z.of_nat (Z.to_nat (c - i_first i))) with c in E4 by lia. }
  assert (load M (Z.to_nat (i_last i - i_first i)) (i_first i) = Some (a ++ b)) as Hl' by done. clear Hl. rename Hl' into Hl.
  rewrite Hl, Hlb. rewrite Hla in E. apply Forall_app in Hp as [Hba Hbb]. rewrite zlen_app in Hlen.
  destruct (pb_typed_message_inv G k v Ht) as (m' & fs & Hm' & -> & Hfs). rewrite Hm in Hm'. injection Hm' as <-.
  unfold decode_bytes in *. rewrite Hm in *. cbn [with_range i_last] in *.
  assert (forall e p fs, bytes_ok p -> typed_members G m fs -> read_message G decode_fuel e p 0 m fs = read_message_one G decode_fuel e p 0 m fs) as Hone.
  { intros. by apply (runs_exact G HG decode_fuel 0 (pb_enough_decode_fuel 0 ltac:(lia)) _ _ k). }
  pose proof (sound_message G HG decode_fuel 0 (pb_enough_decode_fuel 0 ltac:(lia)) c a k m fs Hm Hba Hfs) as Hs.
  rewrite (Hone c a fs Hba Hfs) in E, Hs. rewrite (Hone _ (a ++ b) fs) by (done || by apply Forall_app).
  destruct (read_message_one G decode_fuel c a 0 m fs) as [fs1 q| |] eqn:Ea; [|done|done]. injection E as <- <-.
  destruct Hs as [_ Hfs1].
  pose proof (sound_message G HG decode_fuel 0 (pb_enough_decode_fuel 0 ltac:(lia)) (c + zlen b) b k m fs1 Hm Hbb Hfs1) as Hsb.
  rewrite (Hone _ b fs1) in Hsb by done. rewrite (Hone _ b fs1) by done. clear Hone.
  assert (exists f, decode_fuel = S f) as [f Ef] by (exists 64%nat; reflexivity). rewrite Ef in *. cbn [read_message_one] in *.
  replace (i_last i) with (c + zlen b) by lia.
  rewrite (records_concat G HG (read_message_one G f) 0 k m Hm (S (length a)) (S (length (a ++ b))) (S (length b)) c a b 0 fs fs1 q) by (done || lia).
  destruct (read_records _ _ m _ b 0 fs1) as [fs2 q2|ff|w] eqn:Eb; cbn [fst]; try done.
  do 2 f_equal. unfold to_error. cbv zeta. cbn [with_range i_first i_last i_base].
  assert (c <= f_at ff) as Hat.
  { cbn in Hsb. lia. }
  destruct (Z.eqb_spec (f_at ff) nullptr) as [E0|]; [unfold nullptr in E0; lia|done].
Qed.

(** One [Tree] encoded in two parts: the first sets the kind, the second
    extends the deltas. *)
Definition two_parts : list Z := [32; 9; 26; 1; 2] ++ [26; 1; 4; 32; 3].

Definition first_part : pvalue := VMsg [Some (VUnknown []); Some (VVec []); Some (VVec [VInt 1]); Some (VInt 9); None; Some (VLazy no_bytes [])].

Lemma protobuf_concat_witness : exists v1,
  protobuf_decode forest 1 (mem_of 4096 two_parts) (with_range (at_4096 two_parts) (i_first (at_4096 two_parts)) 4101) (VMsg no_tree) = Some (inl (v1, 5)) /\
  protobuf_decode forest 1 (mem_of 4096 two_parts) (at_4096 two_parts) (VMsg no_tree) =
    match protobuf_decode forest 1 (mem_of 4096 two_parts) (with_range (at_4096 two_parts) 4101 (i_last (at_4096 two_parts))) v1 with
    | Some (inl (v2, _)) => Some (inl (v2, size (at_4096 two_parts)))
    | r => r
    end.
Proof.
  exists first_part. split; [vm_compute; reflexivity|].
  apply (protobuf_concat forest 1 tree (mem_of 4096 two_parts) (at_4096 two_parts) 4101 (VMsg no_tree) first_part 5); try reflexivity.
  - apply mem_of_wf; [repeat constructor; lia|reflexivity].
  - split; vm_compute; discriminate.
Defined.

(** C27: unknown fields are kept. Into a message with a [pb_unknown] member, a
    decode that succeeds has split its input into records, and the member holds
    what it held before followed by exactly the records the message type does
    not take, byte for byte and in order. *)
Theorem protobuf_unknown_kept G k m M i p v vs n : env_ok G = true -> G !! k = Some m -> has_unknown m = true -> wf M i ->
  holds M (i_first i) p -> size i = zlen p -> typed G (PMessage k) v = true ->
  protobuf_decode G k M i v = Some (inl (VMsg vs, n)) ->
  exists fs l, v = VMsg fs /\ splits p l /\ unknown_bytes vs = unknown_bytes fs ++ unknown_records m l.
Proof.
  intros HG Hm Hu Hwf Hh Hsz Ht E. destruct (pb_typed_message_inv G k v Ht) as (m' & fs & Hm' & -> & Hfs). rewrite Hm in Hm'. injection Hm' as <-.
  destruct (load_wf M M i Hwf) as (p' & Hp & Hlen & Hl & _); [done|]. unfold protobuf_decode in E. rewrite Hl in E.
  rewrite (size_wf M i Hwf) in Hsz. apply load_holds in Hh as Hl2.
  replace (Z.to_nat (i_last i - i_first i)) with (length p) in Hl by (unfold zlen in Hsz; lia). rewrite Hl2 in Hl. injection Hl as <-.
  destruct (decode_keeps G k m i p fs vs n HG Hm Hu Hp Hfs E) as (l & ? & ?). eauto.
Qed.

(** A record of field 6, a matching one, and a varint for a length-delimited field. *)
Definition strangers : list Z := [48; 5; 32; 3; 8; 9].

Lemma protobuf_unknown_kept_witness : exists vs l, splits strangers l /\ unknown_bytes vs = [48; 5; 8; 9] /\ unknown_records tree l = [48; 5; 8; 9].
Proof.
  destruct (protobuf_decode forest 1 (mem_of 4096 strangers) (at_4096 strangers) (VMsg no_tree)) as [[[[] n]|]|] eqn:E;
    try (vm_compute in E; discriminate E).
  destruct (protobuf_unknown_kept forest 1 tree (mem_of 4096 strangers) (at_4096 strangers) strangers (VMsg no_tree) fs n eq_refl eq_refl eq_refl
    ltac:(apply mem_of_wf; [repeat constructor; lia|reflexivity]) ltac:(apply (holds_mem_of 4096 strangers [])) eq_refl eq_refl E) as (fs0 & l & E0 & Hl & Hb).
  injection E0 as <-. exists fs, l. vm_compute in E. injection E as <- _. split; [exact Hl|]. split; [reflexivity|]. symmetry. exact Hb.
Defined.

(** ** Encoding *)

(** C28: the two passes refine one append. A message within the limits goes to
    any sink as exactly [message_bytes] of it, in blocks the sink all takes,
    or the sink refuses a block after exactly what comes before it; the
    recorded sizes are always there. A message outside the limits, of a type with
    nested messages (which is measured), is refused before a byte is written. *)
Theorem protobuf_encode_refines {S} `{ByteSink S} G k mt m (s : S) : env_ok G = true -> G !! k = Some mt -> typed G (PMessage k) m = true ->
  zlen (message_bytes G k m) < 2 ^ 64 -> has_nested mt || measurable G k m = true ->
  exists res, protobuf_encode G k m s = Some res /\
  if measurable G k m then delivered s (message_bytes G k m) res else exists e, res = (s, inr e).
Proof.
  intros HG Hm Ht Hb Hlim. destruct (encode_delivers G HG k mt m s Hm Ht Hb) as (res & E & Hd). exists res. split; [done|].
  unfold encodes in Hd. by destruct (has_nested mt), (measurable G k m).
Qed.

Lemma protobuf_encode_refines_witness : exists res, protobuf_encode forest 1 a_tree [7] = Some res /\ delivered [7] (message_bytes forest 1 a_tree) res.
Proof. exact (protobuf_encode_refines forest 1 tree a_tree [7] eq_refl eq_refl eq_refl eq_refl eq_refl). Defined.

(** C29: sizes are exact and a fixed buffer is never overrun. [protobuf_size]
    is the number of bytes of the encoding, or an error exactly outside the
    limits; encoding into a [span_sink] succeeds exactly when that many bytes
    are free, and then they follow what was written before; whatever happens
    the buffer keeps its length and the bytes after the ones used. *)
Theorem protobuf_encode_bounded G k m s : env_ok G = true -> typed G (PMessage k) m = true -> zlen (message_bytes G k m) < 2 ^ 64 ->
  0 <= ss_used s <= zlen (ss_out s) ->
  if measurable G k m
  then protobuf_size G k m = Some (inl (zlen (message_bytes G k m))) /\
       exists res, protobuf_encode G k m s = Some res /\ fits_span s (message_bytes G k m) res
  else exists e, protobuf_size G k m = Some (inr e).
Proof.
  intros HG Ht Hb Hs. destruct (pb_typed_message_inv G k m Ht) as (mt & vs & Hm & _ & _).
  destruct (size_exact G HG k m Ht Hb) as (r & -> & Hr). destruct (measurable G k m) eqn:Em; [|destruct Hr as [e ->]; eauto]. subst r.
  split; [done|]. destruct (encode_delivers G HG k mt m s Hm Ht Hb) as (res & -> & Hd). exists res. split; [done|].
  unfold encodes in Hd. rewrite Em, orb_true_r in Hd. by apply delivered_span.
Qed.

Lemma protobuf_encode_bounded_witness :
  protobuf_size forest 1 a_tree = Some (inl 46) /\ exists res, protobuf_encode forest 1 a_tree (SpanSink (replicate 60 9) 2) = Some res /\
    fits_span (SpanSink (replicate 60 9) 2) (message_bytes forest 1 a_tree) res.
Proof.
  pose proof (protobuf_encode_bounded forest 1 a_tree (SpanSink (replicate 60 9) 2) eq_refl eq_refl eq_refl ltac:(split; vm_compute; discriminate)) as H.
  assert (measurable forest 1 a_tree = true) as E by reflexivity. rewrite E in H. destruct H as [Hs He]. split; [exact Hs|exact He].
Defined.

(** ** Round trip *)
Section Enums.
Context (G : list (message ptype)) (HG : env_ok G = true).

(** Every enum value in [v] is an int32: all the enums of a proto file are. *)
Fixpoint int32_enums (t : ptype) (v : pvalue) {struct v} : bool :=
  match v, t with
  | VInt x, PScalar (SEnum _ _) => in_range true 32 x
  | VVec l, PVector e => forallb (int32_enums e) l
  | VLazyOf m, PLazy i => int32_enums (PMessage i) m
  | VMsg vs, PMessage i => match G !! i with Some m => members_ok int32_enums vs (m_fields m) | None => true end
  | _, _ => true
  end.

Definition in_limits_readable (v : pvalue) : Prop := forall t d d', (forall e, t <> PVector e) -> typed G t v = true -> -1 <= d -> d' <= d ->
  limits G d t v = true -> int32_enums t v = true -> readable G d' t v = true.

Lemma scalar_readable d s v : readable G d (PScalar s) v = int32_enums (PScalar s) v.
Proof using. by destruct v. Qed.

Lemma left_out_readable f v d : left_out f v = true -> typed G (inner (f_type f)) v = true -> int32_enums (inner (f_type f)) v = true ->
  readable G d (inner (f_type f)) v = true.
Proof using.
  unfold left_out. destruct (opt_like f); [done|]. intros Hl Ht Hi. destruct (f_type f), v; cbn in *; try done; by rewrite ?andb_false_r in Hl.
Qed.

Lemma member_readable_in k f v d d' : field_ok G k f = true -> in_limits_readable v -> (forall l, v = VVec l -> Forall in_limits_readable l) ->
  -1 <= d -> d' <= d -> typed G (inner (f_type f)) v = true -> member_limits (limits G d) f (Some v) = true -> int32_enums (inner (f_type f)) v = true ->
  readable G d' (inner (f_type f)) v = true.
Proof using.
  intros Hf Hv Hvec Hd1 Hd Ht Hlim Hi. pose proof (fun Hl => left_out_readable f v d' Hl Ht Hi) as Hleft. unfold member_limits in Hlim. destruct (f_type f) as [| | | | | | | |e|] eqn:Et; cbn [inner] in *;
    try (by destruct v); try (apply orb_true_iff in Hlim as [Hlim|Hlim]; [by apply Hleft|by apply (Hv _ d d')]).
  destruct v as [| | | | | |l| | | |]; try done. cbn [readable int32_enums typed] in *. specialize (Hvec _ eq_refl).
  unfold field_ok in Hf. rewrite Et, !andb_true_iff in Hf. destruct Hf as [[[_ He] _] _].
  rewrite forallb_forall in Hi, Ht. rewrite Forall_forall in Hvec. apply forallb_forall. intros w Hw.
  destruct e; try done; try (by rewrite scalar_readable; apply Hi);
    (apply (Hvec w ltac:(by apply list_elem_of_In) _ d d'); [done|by apply Ht|done|done| |by apply Hi]);
    rewrite forallb_forall in Hlim; by apply Hlim.
Qed.

Lemma members_readable k vs d d' : -1 <= d -> d' <= d ->
  Forall (fun ov => match ov with Some v => in_limits_readable v /\ forall l, v = VVec l -> Forall in_limits_readable l | None => True end) vs ->
  forall fs, Forall (fun f => field_ok G k f = true) fs -> Forall2 (typed_member G) vs fs ->
  members_limits (limits G d) vs fs = true -> members_ok int32_enums vs fs = true -> members_ok (readable G d') vs fs = true.
Proof using.
  intros Hd1 Hd Hvs fs Hfs Ht. revert Hvs Hfs. induction Ht as [|[w|] f vs fs Hw _ IH]; intros Hvs Hfs; cbn [members_limits members_ok]; [done| |];
    apply Forall_cons in Hfs as [Hf Hfs]; inversion Hvs as [|? ? Hx Hvs']; subst; rewrite ?andb_true_iff.
  - destruct Hx as [Hx1 Hx2]. intros [Hl Hlim] [Hi Hi']. split; [by apply (member_readable_in k f w d)|by apply IH].
  - intros [_ Hlim] Hi. by apply IH.
Qed.

Lemma limits_readable v : in_limits_readable v /\ forall l, v = VVec l -> Forall in_limits_readable l.
Proof using HG.
  induction v as [| | | | | |l Hl| |m [IH _]| |vs Hvs] using pvalue_ind'; (split; [intros t d d' Hv Ht Hd1 Hd Hlim Hi|try done]); try (by destruct t).
  - destruct t; try done. by destruct (Hv t).
  - intros ? [= <-]. eapply Forall_impl; [exact Hl|]. by intros ? [].
  - destruct t as [| | | | | |i| | |]; try done. cbn [readable limits int32_enums typed] in *. by apply (IH _ d).
  - destruct t as [| | | | |i| | | |]; try done. cbn [readable limits int32_enums] in *.
    destruct (pb_typed_message_inv G i _ Ht) as (m & vs' & Hm & [= <-] & Htm & _). rewrite Hm in *. destruct (pb_env_ok_lookup G HG i m Hm) as (_ & _ & Hfok).
    rewrite !andb_true_iff in *. destruct Hlim as [[Hdep%Z.leb_le Hlim] _]. split; [apply Z.leb_le; lia|].
    apply (members_readable i vs (d + 1)); done || lia.
Qed.
End Enums.

(** C30: what is written within the limits reads back, save for enums. A message
    within the limits, each of whose enum values is an int32 (an unsigned enum may
    hold others, see [protobuf_enum_unreadable]), appended to a vector by
    [protobuf_encode], is parsed from those bytes by [protobuf]: the value is the
    message, its unknown fields included, its lazy members as regions that decode
    to what was written. *)
Theorem protobuf_roundtrip G k mt m out : env_ok G = true -> G !! k = Some mt -> typed G (PMessage k) m = true ->
  measurable G k m = true -> int32_enums G (PMessage k) m = true -> zlen (message_bytes G k m) < 2 ^ 64 ->
  exists bs, protobuf_encode_vector G k m out = Some (out ++ bs, inl (zlen bs)) /\
    forall i M, wf M i -> 0 < i_first i -> holds M (i_first i) bs -> size i = zlen bs ->
      exists m', protobuf G k M i = Done m' (advance i (zlen bs)) /\ reread G (PMessage k) m m'.
Proof.
  intros HG Hm Ht Hlim Hen Hb. pose proof (proj1 (limits_readable G HG m) (PMessage k) (-1) (-1) ltac:(done) Ht ltac:(lia) ltac:(lia) Hlim Hen) as Hr. exists (message_bytes G k m). split.
  - unfold protobuf_encode_vector. destruct (encode_delivers G HG k mt m out Hm Ht Hb) as (res & -> & Hd). unfold encodes in Hd. rewrite Hlim, orb_true_r in Hd.
    f_equal. by apply delivered_vector.
  - intros i M Hwf Hpos Hh Hsz. pose proof Hsz as Hlen. rewrite (size_wf M i Hwf) in Hlen. pose proof (zlen_nonneg (message_bytes G k m)).
    destruct (decode_back G HG k m i _ Ht Hr eq_refl Hb ltac:(lia)) as (m' & E & Hrr). exists m'. split; [|done].
    unfold protobuf, protobuf_decode. replace (Z.to_nat (i_last i - i_first i)) with (length (message_bytes G k m)) by (unfold zlen in Hlen; lia).
    by rewrite (load_holds M (i_first i) _ Hh), E, Hsz.
Qed.

Lemma protobuf_roundtrip_witness : exists bs, protobuf_encode_vector forest 1 a_tree [7] = Some ([7] ++ bs, inl (zlen bs)) /\
  forall i M, wf M i -> 0 < i_first i -> holds M (i_first i) bs -> size i = zlen bs ->
    exists m', protobuf forest 1 M i = Done m' (advance i (zlen bs)) /\ reread forest (PMessage 1) a_tree m'.
Proof. apply (protobuf_roundtrip forest 1 tree a_tree [7]); vm_compute; reflexivity. Defined.

(** ** Findings *)
Definition enums : list (message ptype) :=
  [Message "Small" [Field "e" 1 required false (PScalar (SEnum false 8))]; Message "Wide" [Field "e" 1 required false (PScalar (SEnum false 32))]].

(** An enum's value is checked to fit int32, then converted to the enum's own
    type: with an 8-bit enum 300 is read as 44, without an error. *)
Theorem protobuf_enum_truncates :
  protobuf enums 0 (mem_of 4096 [8; 172; 2]) (at_4096 [8; 172; 2]) = Done (VMsg [Some (VInt 44)]) (advance (at_4096 [8; 172; 2]) 3).
Proof. vm_compute. reflexivity. Qed.

(** And a value of an unsigned 32-bit enum that is not an int32 is written,
    but what is written does not read back. *)
Theorem protobuf_enum_unreadable :
  protobuf_encode_vector enums 1 (VMsg [Some (VInt 2147483648)]) [] = Some ([8; 128; 128; 128; 128; 8], inl 6) /\
  exists e, protobuf enums 1 (mem_of 4096 [8; 128; 128; 128; 128; 8]) (at_4096 [8; 128; 128; 128; 128; 8]) = Err e.
Proof. split; [vm_compute; reflexivity|]. eexists. vm_compute. reflexivity. Qed.

Definition hollow : list (message ptype) := [Message "Hollow" [Field "x" 1 defaulted true PEmpty]].

(** Inside an [empty_struct] only the field number 0 is refused: 2^29, which
    every message refuses, passes. *)
Theorem protobuf_empty_number :
  (exists v, protobuf hollow 0 (mem_of 4096 [10; 6; 128; 128; 128; 128; 16; 0]) (at_4096 [10; 6; 128; 128; 128; 128; 16; 0]) = Done v (advance (at_4096 [10; 6; 128; 128; 128; 128; 16; 0]) 8)) /\
  (exists e, protobuf hollow 0 (mem_of 4096 [128; 128; 128; 128; 16; 0]) (at_4096 [128; 128; 128; 128; 16; 0]) = Err e).
Proof. split; eexists; vm_compute; reflexivity. Qed.

Definition deep_model : list (message ptype) :=
  [Message "Inner" [Field "x" 1 defaulted true PString]; Message "Chain" [Field "next" 1 defaulted false (PBox 1)];
   Message "Outer" [Field "chain" 1 required false (PMessage 1)]].

Fixpoint chain (n : nat) : pvalue := match n with O => VMsg [None] | S n => VMsg [Some (chain n)] end.

(** The measuring pass does not say where it failed: nesting too deep inside
    [Chain] is reported as an error of the outermost message, with no field. *)
Theorem protobuf_measure_unplaced :
  protobuf_encode_vector deep_model 2 (VMsg [Some (chain 64)]) [] =
    Some ([], inr (EncodeError "protobuf nesting within the decoder's depth limit" "Outer" "")).
Proof. vm_compute. reflexivity. Qed.

Definition keeper : list (message ptype) :=
  [Message "Keeper" [Field "unknown" 0 defaulted false PUnknown; Field "name" 1 required false PString]].

(** With a [pb_unknown] member an error names it instead of the member it
    happened in: a sink with room for nothing refuses the 260 bytes of [name]. *)
Theorem protobuf_error_renamed :
  match protobuf_encode keeper 0 (VMsg [Some (VUnknown []); Some (VString (replicate 260 65))]) (SpanSink [] 0) with
  | Some (_, inr e) => ee_field e = "(unknown fields)"
  | _ => False
  end.
Proof. vm_compute. reflexivity. Qed.
