(* ===== verification/Members.v ===== *)
(** * Members of described structs, and structs at an offset of a buffer

    How a client reads the members of a [strct] result ([r->value.name], with
    the conversion of a [be<T>]), and what [strct] and the fixed width integers
    return at an offset of a buffer whose bytes are known: shared by the
    capture files and the packet walk. *)
From S2P Require Import Prelude Parser BytesParsers Combinators CombinatorFacts Numbers Reflect ReflectFacts Emit EmitSpecs StructSpecs.

(** ** Reading a member *)

(** The integer a scalar member converts to: its value, or [be<T>::get()]. *)
Definition scalar_of (f : field_type) (v : value) : Z :=
  match f, v with
  | Endian e n k, VRaw raw => es_get e n k raw
  | _, VScalar z => z
  | _, _ => 0
  end.

(** The bytes of a [std::array<u8, N>] member. *)
Definition bytes_of (v : value) : list Z :=
  match v with VList vs => List.map (scalar_of (Scalar 1 Unsigned)) vs | _ => [] end.

Section Member.
Context (fs : list (string * field_type)) (v : value) (name : string).

Definition lookup_member : option (field_type * value) :=
  match v with
  | VList vs => i ← field_index fs name; nf ← fs !! i; x ← vs !! i; Some (nf.2, x)
  | _ => None
  end.

(** [r->value.name] *)
Definition member : Z := match lookup_member with Some (f, x) => scalar_of f x | None => 0 end.
Definition member_bytes : list Z := match lookup_member with Some (_, x) => bytes_of x | None => [] end.
End Member.

(** ** What members are *)
Section At.
Context (fs : list (string * field_type)) (dflt : endian) (l : list Z) (name : string) (i : nat) (f : field_type) (o : Z).
Context (Hi : field_index fs name = Some i) (Hf : fs !! i = Some (name, f)) (Ho : field_bit_offsets fs !! i = Some o).

Lemma lookup_member_at : lookup_member fs (VList (values_at dflt l fs 0)) name = Some (f, value_at dflt l f o).
Proof using All.
  unfold lookup_member. rewrite Hi. cbn [mbind option_bind]. rewrite Hf. cbn [mbind option_bind snd].
  pose proof (values_at_lookup dflt l fs 0 i f o ltac:(by rewrite Hf) Ho 0) as E. change (0 + 0) with 0 in E. change (0 + o) with o in E.
  rewrite E. done.
Qed.

Lemma member_at : member fs (VList (values_at dflt l fs 0)) name = scalar_of f (value_at dflt l f o).
Proof using All. unfold member. by rewrite lookup_member_at. Qed.
End At.

(** An unsigned member of [n] bytes, plain or network order, is the number its
    bytes denote. *)
Lemma scalar_of_plain dflt l n o : scalar_of (Scalar n Unsigned) (value_at dflt l (Scalar n Unsigned) o) = uint_val dflt (slice l (o / 8) n).
Proof. done. Qed.

Lemma scalar_of_endian dflt l e n o : scalar_of (Endian e n Unsigned) (value_at dflt l (Endian e n Unsigned) o) = uint_val e (slice l (o / 8) n).
Proof. done. Qed.

(** [member_uint] evaluates a member that is an unsigned integer of bytes. *)
Ltac member_uint :=
  erewrite member_at by (cbv; reflexivity);
  rewrite ?scalar_of_plain, ?scalar_of_endian;
  repeat match goal with
  | |- context [slice _ (?a / 8) _] => let q := eval vm_compute in (a / 8) in progress change (a / 8) with q
  end.

Lemma uint_slice_range e l q n : bytes_ok l -> 0 <= q -> 0 <= n -> q + n <= zlen l -> 0 <= uint_val e (slice l q n) < 2 ^ (8 * n).
Proof.
  intros Hl Hq Hn Hz. pose proof (uint_val_bound e (slice l q n) (bytes_ok_slice l q n Hl)) as H.
  by rewrite zlen_slice in H by lia.
Qed.

(** ** Structs at an offset *)
Section Located.
Context (M : memory) (file : bytes) (l : list Z).
Context (Hh : holds M (b_data file) l) (Hn : b_size file = zlen l) (Hl : bytes_ok l) (Hlt : zlen l < 2 ^ 60).

(** [from(file).advance(q)] *)
Definition cursor (q : Z) : input := advance (from_bytes file) q.

Lemma cursor_0 : from_bytes file = cursor 0.
Proof using. unfold cursor. by rewrite advance_0. Qed.

Lemma cursor_advance q n : advance (cursor q) n = cursor (q + n).
Proof using. apply advance_advance. Qed.

Lemma cursor_size q : 0 <= q <= zlen l -> Parser.size (cursor q) = zlen l - q.
Proof using Hn Hlt. intros Hq. unfold Parser.size, cursor. cbn. rewrite wrap_small; lia. Qed.

Lemma cursor_offset q : 0 <= q <= zlen l -> offset (cursor q) = q.
Proof using Hn Hlt. intros Hq. unfold offset, cursor. cbn. rewrite wrap_small; lia. Qed.

Lemma cursor_empty q : 0 <= q <= zlen l -> empty (cursor q) = (q =? zlen l).
Proof using Hn. intros Hq. unfold empty, cursor. cbn. destruct (Z.eqb_spec q (zlen l)); [apply Z.eqb_eq|apply Z.eqb_neq]; lia. Qed.

Lemma cursor_holds q n : 0 <= q -> 0 <= n -> q + n <= zlen l -> holds M (i_first (cursor q)) (slice l q n).
Proof using Hh. intros. unfold cursor. cbn. by apply holds_slice. Qed.

Lemma read_uint_cursor n order q : 1 <= n <= 8 -> 0 <= q -> q + n <= zlen l ->
  read_uint n order M (cursor q) = Done (uint_val order (slice l q n)) (cursor (q + n)).
Proof using All.
  intros Hb Hq Hz. rewrite (read_uint_holds M (cursor q) n order (slice l q n)).
  - by rewrite cursor_advance.
  - done.
  - by rewrite zlen_slice by lia.
  - by apply bytes_ok_slice.
  - apply cursor_holds; lia.
  - rewrite cursor_size by lia. lia.
Qed.

Lemma read_uint_short n order q : 0 <= q <= zlen l -> zlen l < q + n ->
  exists e, read_uint n order M (cursor q) = Err e.
Proof using Hn Hlt.
  intros Hq Hz. unfold read_uint. rewrite cursor_size by lia.
  destruct (Z.ltb_spec (zlen l - q) n); [|lia]. unfold make_incomplete. eauto.
Qed.

Section Struct.
Context (fs : list (string * field_type)) (dflt : endian) (Hfs : described fs = true).

Lemma strct_cursor q : 0 <= q -> q + wire_size fs <= zlen l ->
  strct fs dflt M (cursor q) = Done (VList (values_at dflt (slice l q (wire_size fs)) fs 0)) (cursor (q + wire_size fs)).
Proof using All.
  intros Hq Hz. destruct (described_inv fs Hfs) as (_ & _ & _ & Hs & _). rewrite <- cursor_advance. apply strct_holds; try done.
  - apply cursor_holds; lia.
  - by apply bytes_ok_slice.
  - by rewrite zlen_slice by lia.
  - rewrite cursor_size by lia. lia.
Qed.

Lemma strct_short q : 0 <= q <= zlen l -> zlen l < q + wire_size fs -> exists e, strct fs dflt M (cursor q) = Err e.
Proof using Hn Hlt.
  intros Hq Hz. unfold strct. rewrite cursor_size by lia.
  destruct (Z.ltb_spec (zlen l - q) (wire_size fs)); [|lia]. unfold make_incomplete. eauto.
Qed.
End Struct.
End Located.

(** The slice of a slice of a struct's bytes. *)
Lemma slice_of_slice l q n a b : 0 <= q -> 0 <= a -> 0 <= b -> a + b <= n -> slice (slice l q n) a b = slice l (q + a) b.
Proof. apply slice_slice. Qed.

(** The bytes of an encoding, at the start of what follows. *)
Lemma slice_app_l a b n : zlen a = n -> slice (a ++ b) 0 n = a.
Proof.
  intros <-. unfold slice. change (zdrop 0 (a ++ b)) with (a ++ b). unfold ztake, zlen.
  by rewrite Nat2Z.id, take_app_length.
Qed.

Lemma slice_app_r a b q n : zlen a <= q -> slice (a ++ b) q n = slice b (q - zlen a) n.
Proof.
  intros Hq. pose proof (zlen_nonneg a). unfold slice, zdrop, zlen in *. f_equal.
  rewrite drop_app_ge by lia. f_equal. lia.
Qed.
