(* ===== verification/Pcap.v ===== *)
(** * Capture files (nanom_shark/pcap.hpp)

    The block scanner over a pcapng or classic pcap file and the parsers of one
    block. The wire structs are the described structs of [Reflect], read with
    [strct] in the byte order found at run time. *)
From stdpp Require Import pretty.
From S2P Require Import Prelude Parser BytesParsers Combinators Numbers Reflect Members.

(** ** Wire structs *)
Abbreviation uint n := (Scalar n Unsigned).

Definition pcap_global_hdr : list (string * field_type) :=
  [("major", uint 2); ("minor", uint 2); ("thiszone", uint 4); ("sigfigs", uint 4); ("snaplen", uint 4);
   ("link_type", uint 4)]%string.
Definition pcap_rec_hdr : list (string * field_type) :=
  [("ts_sec", uint 4); ("ts_frac", uint 4); ("caplen", uint 4); ("origlen", uint 4)]%string.
Definition png_block_hdr : list (string * field_type) := [("type", uint 4); ("total_len", uint 4)]%string.
Definition png_idb_body : list (string * field_type) :=
  [("link_type", uint 2); ("reserved", uint 2); ("snaplen", uint 4)]%string.
Definition png_epb_body : list (string * field_type) :=
  [("interface_id", uint 4); ("ts_high", uint 4); ("ts_low", uint 4); ("caplen", uint 4); ("origlen", uint 4)]%string.

(** ** What the scanner hands out *)
Inductive Kind := Shb | Idb | Epb | PcapRecord | SimplePacket | Other.

#[export] Instance Kind_eq_dec : EqDecision Kind.
Proof. solve_decision. Defined.

Record BlockRef := MkBlockRef {
  file_offset : Z;
  length_ : Z;
  type_or_link : Z;
  kind : Kind;
  little_endian : bool
}.

Record IdbView := MkIdbView { idb_link_type : Z; idb_snaplen : Z }.

Record EpbView := MkEpbView {
  interface_id : Z;
  ts_raw : Z;
  caplen : Z;
  origlen : Z;
  payload_file_offset : Z
}.

Definition kMagicUsLE : Z := 0xA1B2C3D4.
Definition kMagicUsBE : Z := 0xD4C3B2A1.
Definition kMagicNsLE : Z := 0xA1B23C4D.
Definition kMagicNsBE : Z := 0x4D3CB2A1.
Definition kByteOrderMagic : Z := 0x1A2B3C4D.
Definition kShb : Z := 0x0A0D0D0A.
Definition kIdb : Z := 1.
Definition kEpb : Z := 6.
Definition kSpb : Z := 3.

Definition order_of (le : bool) : endian := if le then little else big.

Definition pad4 (n : Z) : Z := Z.land (u64 (n + 3)) (u64 (Z.lnot 3)).

(** The byte order a section header declares; [Err] is the answer [false],
    which leaves the caller's flag as it was. *)
Definition shb_byte_order (M : memory) (at_ : input) : result bool :=
  let* (bom, _r) := preceded (take 8) le_u32 M at_ in Done (bom =? kByteOrderMagic) at_.

(** ** Phase A: block boundaries

    [Scanned] is [true] with the refs pushed; [Malformed] is [false], with the
    refs pushed before and the error text. *)
Inductive scanned :=
| Scanned (out : list BlockRef)
| Malformed (out : list BlockRef) (error : string)
| Faulted (w : stop).

Definition kind_of_type (type : Z) : Kind :=
  if type =? kShb then Shb
  else if type =? kIdb then Idb
  else if type =? kEpb then Epb
  else if type =? kSpb then SimplePacket
  else Other.

Definition at_offset (what : string) (off : Z) : string := (what ++ " at offset " ++ pretty off)%string.

(** [if (t && t->value == kShb && !shb_byte_order(cur, le)) return false],
    where [t] peeks at the block's first word: the order the header is read in. *)
Definition section_order (M : memory) (cur : input) (le : bool) : result bool :=
  match peek le_u32 M cur with
  | Stop w => Stop w
  | Done t _ => if t =? kShb then shb_byte_order M cur else Done le cur
  | Err _ => Done le cur
  end.

(** The walk over the blocks of a pcapng file; a round passes at least twelve
    bytes. *)
Fixpoint scan_pcapng (fuel : nat) (M : memory) (cur : input) (le : bool) (out : list BlockRef) : scanned :=
  match fuel with
  | O => Faulted NoFuel
  | S fuel =>
      if empty cur then Scanned out
      else
        let off := offset cur in
        match section_order M cur le with
        | Stop w => Faulted w
        | Err _ => Malformed out "truncated SHB"
        | Done le _ =>
            match strct png_block_hdr (order_of le) M cur with
            | Stop w => Faulted w
            | Err _ => Malformed out (at_offset "truncated block header" off)
            | Done hdr _ =>
                let total := member png_block_hdr hdr "total_len" in
                let type := member png_block_hdr hdr "type" in
                if (total <? 12) || negb (total mod 4 =? 0) || (size cur <? total)
                then Malformed out (at_offset ("bad block length " ++ pretty total) off)
                else scan_pcapng fuel M (advance cur total) le
                       (out ++ [MkBlockRef off total type (kind_of_type type) le])
            end
        end
  end.

(** The walk over the records of a classic pcap file; a round passes at least
    sixteen bytes. *)
Fixpoint scan_records (fuel : nat) (M : memory) (cur : input) (le : bool) (link : Z) (out : list BlockRef) : scanned :=
  match fuel with
  | O => Faulted NoFuel
  | S fuel =>
      if empty cur then Scanned out
      else
        let off := offset cur in
        match strct pcap_rec_hdr (order_of le) M cur with
        | Stop w => Faulted w
        | Err _ => Malformed out (at_offset "truncated pcap record header" off)
        | Done rh rest =>
            let cap := member pcap_rec_hdr rh "caplen" in
            if size rest <? cap then Malformed out (at_offset "truncated pcap record" off)
            else scan_records fuel M (advance rest cap) le link
                   (out ++ [MkBlockRef off (u32 (16 + cap)) link PcapRecord le])
        end
  end.

Definition is_magic (m : Z) : bool :=
  (m =? kMagicUsLE) || (m =? kMagicNsLE) || (m =? kMagicUsBE) || (m =? kMagicNsBE).

Definition scan_blocks (M : memory) (file : bytes) (out : list BlockRef) : scanned :=
  let whole := from_bytes file in
  if size whole <? 4 then Malformed out "file too small"
  else
    match le_u32 M whole with
    | Stop w => Faulted w
    | Err _ => Faulted UB
    | Done magic _ =>
        if magic =? kShb then scan_pcapng (S (Z.to_nat (size whole))) M whole true out
        else if is_magic magic then
          let le := (magic =? kMagicUsLE) || (magic =? kMagicNsLE) in
          match preceded (take 4) (strct pcap_global_hdr (order_of le)) M whole with
          | Stop w => Faulted w
          | Err _ => Malformed out "truncated pcap global header"
          | Done gh rest =>
              scan_records (S (Z.to_nat (size rest))) M rest le (member pcap_global_hdr gh "link_type")
                (out ++ [MkBlockRef 0 24 kIdb Idb le])
          end
        else Malformed out "not a pcap or pcapng file (unknown magic)"
    end.

(** ** Phase B: one block

    [Ok None] is the answer [false]. *)
Inductive parsed (A : Type) := Ok (r : option A) | Fault (w : stop).
Arguments Ok {A} r.
Arguments Fault {A} w.

Definition parse_idb (M : memory) (file : bytes) (ref : BlockRef) : parsed IdbView :=
  if negb (bool_decide (kind ref = Idb)) then Ok None
  else
    let at_ := advance (from_bytes file) (file_offset ref) in
    let body :=
      match strct png_idb_body (order_of (little_endian ref)) M (advance at_ 8) with
      | Stop w => Fault w
      | Err _ => Ok None
      | Done r _ => Ok (Some (MkIdbView (member png_idb_body r "link_type") (member png_idb_body r "snaplen")))
      end in
    if length_ ref =? 24 then
      match le_u32 M at_ with
      | Stop w => Fault w
      | Err _ => body
      | Done m rest =>
          if is_magic m then
            match strct pcap_global_hdr (order_of (little_endian ref)) M rest with
            | Stop w => Fault w
            | Err _ => Ok None
            | Done g _ => Ok (Some (MkIdbView (u16 (member pcap_global_hdr g "link_type")) (member pcap_global_hdr g "snaplen")))
            end
          else body
      end
    else body.

Definition parse_epb (M : memory) (file : bytes) (ref : BlockRef) : parsed EpbView :=
  match kind ref with
  | Epb =>
      let body := advance (from_bytes file) (u64 (file_offset ref + 8)) in
      match strct png_epb_body (order_of (little_endian ref)) M body with
      | Stop w => Fault w
      | Err _ => Ok None
      | Done r _ =>
          let get := member png_epb_body r in
          if length_ ref <? u64 (28 + get "caplen"%string + 4) then Ok None
          else Ok (Some (MkEpbView (get "interface_id"%string)
                 (Z.lor (u64 (Z.shiftl (get "ts_high"%string) 32)) (get "ts_low"%string))
                 (get "caplen"%string) (get "origlen"%string) (u64 (file_offset ref + 28))))
      end
  | PcapRecord =>
      let body := advance (from_bytes file) (file_offset ref) in
      match strct pcap_rec_hdr (order_of (little_endian ref)) M body with
      | Stop w => Fault w
      | Err _ => Ok None
      | Done r _ =>
          let get := member pcap_rec_hdr r in
          Ok (Some (MkEpbView 0 (Z.lor (u64 (Z.shiftl (get "ts_sec"%string) 32)) (get "ts_frac"%string))
                 (get "caplen"%string) (get "origlen"%string) (u64 (file_offset ref + 16))))
      end
  | _ => Ok None
  end.
