(* ===== verification/PcapRound.v ===== *)
(** * Capture files: reading back what was written

    A reference writer of both formats in either byte order, as their
    specifications give them (pcapng sections of interface, packet and other
    blocks; classic global header and records), and that the scanner and the
    block parsers read its files back. *)
From stdpp Require Import pretty.
From S2P Require Import Prelude Parser BytesParsers Combinators CombinatorFacts Numbers Reflect ReflectFacts Emit EmitSpecs StructSpecs Members Pcap.

(** * Capture files: what the scanner and the block parsers promise

    [frame] says where a block (or a record) begins and ends in a file of known
    bytes; [tiles] that a list of references lays out the file from one offset
    to another without a gap. The scanner finds exactly that layout. *)

(** References laid end to end; the order a section declares holds until the
    next one. *)
Inductive tiles (frame : bool -> Z -> option (BlockRef * Z)) : bool -> Z -> list BlockRef -> bool -> Z -> Prop :=
| tiles_nil le q : tiles frame le q [] le q
| tiles_cons le q ref q' refs le' e :
    frame le q = Some (ref, q') -> tiles frame (little_endian ref) q' refs le' e -> tiles frame le q (ref :: refs) le' e.

Section File.
Context (l : list Z).

(** The unsigned integer of [n] bytes at [q]. *)
Definition word (e : endian) (q n : Z) : Z := uint_val e (slice l q n).

(** The order the block at [q] is written in, after blocks in order [le]. *)
Definition order_at (le : bool) (q : Z) : bool :=
  if word little q 4 =? kShb then word little (q + 8) 4 =? kByteOrderMagic else le.

Definition block_frame (le : bool) (q : Z) : option (BlockRef * Z) :=
  let le := order_at le q in
  let e := order_of le in
  let total := word e (q + 4) 4 in
  if (q + 12 <=? zlen l) && (12 <=? total) && (total mod 4 =? 0) && (q + total <=? zlen l)
  then Some (MkBlockRef q total (word e q 4) (kind_of_type (word e q 4)) le, q + total)
  else None.

Definition record_frame (link : Z) (le : bool) (q : Z) : option (BlockRef * Z) :=
  let cap := word (order_of le) (q + 8) 4 in
  if (q + 16 <=? zlen l) && (q + 16 + cap <=? zlen l)
  then Some (MkBlockRef q (u32 (16 + cap)) link PcapRecord le, q + 16 + cap)
  else None.

(** The whole file is laid out, or a prefix of it, up to an offset at which no
    block can be. *)
Definition walked (frame : bool -> Z -> option (BlockRef * Z)) (le : bool) (q : Z) (out : list BlockRef) (o : scanned) : Prop :=
  exists refs le' e, tiles frame le q refs le' e /\
    ((o = Scanned (out ++ refs) /\ e = zlen l) \/
     (exists err, o = Malformed (out ++ refs) err /\ e < zlen l /\ frame le' e = None)).
End File.

Section Scan.
Context (M : memory) (file : bytes) (l : list Z).
Context (Hh : holds M (b_data file) l) (Hn : b_size file = zlen l) (Hl : bytes_ok l) (Hlt : zlen l < 2 ^ 60).
Let read_uint_at := read_uint_cursor M file l Hh Hn Hl Hlt.
Let strct_at fs dflt := strct_cursor M file l Hh Hn Hl Hlt fs dflt.
Let cur := cursor file.

Lemma file_word_range e q n : 0 <= q -> 0 <= n -> q + n <= zlen l -> 0 <= word l e q n < 2 ^ (8 * n).
Proof using Hl. intros. apply uint_slice_range; done || lia. Qed.

(** A member at byte [a] of a header at [q]. *)
Lemma word_member e q w a n : 0 <= q -> 0 <= a -> 0 <= n -> a + n <= w ->
  uint_val e (slice (slice l q w) a n) = word l e (q + a) n.
Proof using. intros. unfold word. by rewrite slice_slice by lia. Qed.

Lemma shb_byte_order_at q : 0 <= q -> q + 12 <= zlen l ->
  shb_byte_order M (cur q) = Done (word l little (q + 8) 4 =? kByteOrderMagic) (cur q).
Proof using All.
  intros Hq Hz. unfold shb_byte_order, preceded, take, bind. unfold cur at 1.
  rewrite (cursor_size file l) by (done || lia). destruct (Z.ltb_spec (zlen l - q) 8); [lia|].
  unfold cur. rewrite cursor_advance. unfold le_u32. rewrite read_uint_at by lia. done.
Qed.

Lemma shb_byte_order_short q : 0 <= q <= zlen l -> zlen l < q + 12 -> exists e, shb_byte_order M (cur q) = Err e.
Proof using All.
  intros Hq Hz. unfold shb_byte_order, preceded, take, bind. unfold cur at 1.
  rewrite (cursor_size file l) by (done || lia). destruct (Z.ltb_spec (zlen l - q) 8); [unfold make_incomplete; eauto|].
  unfold cur. rewrite cursor_advance. unfold le_u32.
  destruct (read_uint_short M file l Hn Hlt 4 little (q + 8)) as [e ->]; [lia..|]. eauto.
Qed.

Lemma section_order_at le q : 0 <= q -> q + 12 <= zlen l -> section_order M (cur q) le = Done (order_at l le q) (cur q).
Proof using All.
  intros Hq Hz. unfold section_order, peek, bind, le_u32, cur. rewrite read_uint_at by lia.
  unfold order_at. fold (word l little q 4). destruct (word l little q 4 =? kShb); [|done].
  by apply shb_byte_order_at.
Qed.

(** At fewer than twelve bytes the header cannot be completed. *)
Lemma section_order_short le q : 0 <= q < zlen l -> zlen l < q + 12 ->
  (exists e, section_order M (cur q) le = Err e) \/ exists le', section_order M (cur q) le = Done le' (cur q).
Proof using All.
  intros Hq Hz. unfold section_order, peek, bind, le_u32. destruct (Z.le_gt_cases (q + 4) (zlen l)) as [Hle|Hgt].
  - unfold cur. rewrite read_uint_at by lia. destruct (_ =? kShb); [|by eauto].
    left. apply shb_byte_order_short; lia.
  - unfold cur. destruct (read_uint_short M file l Hn Hlt 4 little q) as [e ->]; [lia..|]. by eauto.
Qed.

Lemma block_header le q : 0 <= q -> q + 8 <= zlen l -> exists hdr,
  strct png_block_hdr (order_of le) M (cur q) = Done hdr (cur (q + 8)) /\
  member png_block_hdr hdr "type" = word l (order_of le) q 4 /\
  member png_block_hdr hdr "total_len" = word l (order_of le) (q + 4) 4.
Proof using All.
  intros Hq Hz. eexists. split; [by apply strct_at; [|lia|]|]. change (wire_size png_block_hdr) with 8.
  split; member_uint; rewrite word_member by lia; f_equal; lia.
Qed.

(** ** One round of each walk *)
Lemma pcapng_round n le q out : 0 <= q < zlen l ->
  match block_frame l le q with
  | Some (ref, q') => scan_pcapng (S n) M (cur q) le out = scan_pcapng n M (cur q') (little_endian ref) (out ++ [ref]) /\ q + 12 <= q' <= zlen l
  | None => exists err, scan_pcapng (S n) M (cur q) le out = Malformed out err
  end.
Proof using All.
  intros Hq. unfold block_frame. cbn [scan_pcapng]. unfold cur. rewrite (cursor_empty file l Hn), (cursor_offset file l Hn Hlt) by lia.
  destruct (Z.eqb_spec q (zlen l)); [lia|]. fold (cur q). destruct (Z.leb_spec (q + 12) (zlen l)) as [Hle|Hgt]; cbn [andb].
  - rewrite section_order_at by lia. set (le' := order_at l le q).
    destruct (block_header le' q ltac:(lia) ltac:(lia)) as (hdr & -> & -> & ->).
    pose proof (file_word_range (order_of le') (q + 4) 4 ltac:(lia) ltac:(lia) ltac:(lia)) as Hw.
    set (total := word l (order_of le') (q + 4) 4) in *. unfold cur. rewrite (cursor_size file l Hn Hlt) by lia.
    destruct (Z.ltb_spec total 12), (Z.leb_spec 12 total); try lia; cbn [orb andb]; [eauto|].
    destruct (total mod 4 =? 0); cbn [negb orb andb]; [|eauto].
    destruct (Z.ltb_spec (zlen l - q) total), (Z.leb_spec (q + total) (zlen l)); try lia; [eauto|].
    rewrite cursor_advance. split; [done|lia].
  - destruct (section_order_short le q Hq Hgt) as [[e ->]|[le' ->]]; [eauto|].
    destruct (Z.le_gt_cases (q + 8) (zlen l)) as [H8|H8].
    + destruct (block_header le' q ltac:(lia) ltac:(lia)) as (hdr & -> & _ & ->).
      unfold cur. rewrite (cursor_size file l Hn Hlt) by lia.
      set (total := word l (order_of le') (q + 4) 4). destruct (Z.ltb_spec total 12); [cbn [orb]; eauto|].
      destruct (Z.ltb_spec (zlen l - q) total); [rewrite orb_true_r; eauto|lia].
    + destruct (strct_short M file l Hn Hlt png_block_hdr (order_of le') q ltac:(lia) ltac:(change (wire_size png_block_hdr) with 8; lia)) as [e He].
      unfold cur. rewrite He. eauto.
Qed.

Lemma record_header le q : 0 <= q -> q + 16 <= zlen l -> exists hdr,
  strct pcap_rec_hdr (order_of le) M (cur q) = Done hdr (cur (q + 16)) /\
  member pcap_rec_hdr hdr "ts_sec" = word l (order_of le) q 4 /\
  member pcap_rec_hdr hdr "ts_frac" = word l (order_of le) (q + 4) 4 /\
  member pcap_rec_hdr hdr "caplen" = word l (order_of le) (q + 8) 4 /\
  member pcap_rec_hdr hdr "origlen" = word l (order_of le) (q + 12) 4.
Proof using All.
  intros Hq Hz. eexists. split; [by apply strct_at; [|lia|]|]. change (wire_size pcap_rec_hdr) with 16.
  split_and!; member_uint; rewrite word_member by lia; f_equal; lia.
Qed.

Lemma epb_header le q : 0 <= q -> q + 28 <= zlen l -> exists hdr,
  strct png_epb_body (order_of le) M (cur (q + 8)) = Done hdr (cur (q + 28)) /\
  member png_epb_body hdr "interface_id" = word l (order_of le) (q + 8) 4 /\
  member png_epb_body hdr "ts_high" = word l (order_of le) (q + 12) 4 /\
  member png_epb_body hdr "ts_low" = word l (order_of le) (q + 16) 4 /\
  member png_epb_body hdr "caplen" = word l (order_of le) (q + 20) 4 /\
  member png_epb_body hdr "origlen" = word l (order_of le) (q + 24) 4.
Proof using All.
  intros Hq Hz. eexists. split.
  { rewrite strct_at by (done || change (wire_size png_epb_body) with 20; lia). change (wire_size png_epb_body) with 20.
    unfold cur. by replace (q + 8 + 20) with (q + 28) by lia. }
  split_and!; member_uint; rewrite word_member by lia; f_equal; lia.
Qed.

Lemma record_round n le link q out : 0 <= q < zlen l ->
  match record_frame l link le q with
  | Some (ref, q') => scan_records (S n) M (cur q) le link out = scan_records n M (cur q') le link (out ++ [ref]) /\
      q + 12 <= q' <= zlen l /\ little_endian ref = le
  | None => exists err, scan_records (S n) M (cur q) le link out = Malformed out err
  end.
Proof using All.
  intros Hq. unfold record_frame. cbn [scan_records]. unfold cur. rewrite (cursor_empty file l Hn), (cursor_offset file l Hn Hlt) by lia.
  destruct (Z.eqb_spec q (zlen l)); [lia|]. fold (cur q). destruct (Z.leb_spec (q + 16) (zlen l)) as [Hle|Hgt]; cbn [andb].
  - destruct (record_header le q ltac:(lia) ltac:(lia)) as (hdr & -> & _ & _ & -> & _).
    pose proof (file_word_range (order_of le) (q + 8) 4 ltac:(lia) ltac:(lia) ltac:(lia)) as Hw.
    set (cap := word l (order_of le) (q + 8) 4) in *. unfold cur. rewrite (cursor_size file l Hn Hlt) by lia.
    destruct (Z.ltb_spec (zlen l - (q + 16)) cap), (Z.leb_spec (q + 16 + cap) (zlen l)); try lia; [eauto|].
    rewrite cursor_advance. split; [done|]. split; [lia|done].
  - destruct (strct_short M file l Hn Hlt pcap_rec_hdr (order_of le) q ltac:(lia) ltac:(change (wire_size pcap_rec_hdr) with 16; lia)) as [e He].
    unfold cur. rewrite He. eauto.
Qed.

(** ** The walks *)
Lemma pcapng_walked n : forall le q out, 0 <= q <= zlen l -> zlen l - q < Z.of_nat n ->
  walked l (block_frame l) le q out (scan_pcapng n M (cur q) le out).
Proof using All.
  induction n as [|n IH]; intros le q out Hq Hn'; [lia|]. destruct (decide (q = zlen l)) as [->|Hne].
  - exists [], le, (zlen l). split; [constructor|]. left. split; [|done]. rewrite app_nil_r. cbn [scan_pcapng].
    unfold cur. rewrite (cursor_empty file l Hn) by lia. by rewrite Z.eqb_refl.
  - pose proof (pcapng_round n le q out ltac:(lia)) as Hr. destruct (block_frame l le q) as [[ref q']|] eqn:Ef.
    + destruct Hr as [-> Hq']. destruct (IH (little_endian ref) q' (out ++ [ref]) ltac:(lia) ltac:(lia)) as (refs & le' & e & Ht & Ho).
      exists (ref :: refs), le', e. split; [by econstructor|]. by rewrite <- app_assoc in Ho.
    + destruct Hr as [err ->]. exists [], le, q. split; [constructor|]. right. exists err. rewrite app_nil_r. split_and!; done || lia.
Qed.

Lemma records_walked n : forall le link q out, 0 <= q <= zlen l -> zlen l - q < Z.of_nat n ->
  walked l (record_frame l link) le q out (scan_records n M (cur q) le link out).
Proof using All.
  induction n as [|n IH]; intros le link q out Hq Hn'; [lia|]. destruct (decide (q = zlen l)) as [->|Hne].
  - exists [], le, (zlen l). split; [constructor|]. left. split; [|done]. rewrite app_nil_r. cbn [scan_records].
    unfold cur. rewrite (cursor_empty file l Hn) by lia. by rewrite Z.eqb_refl.
  - pose proof (record_round n le link q out ltac:(lia)) as Hr. destruct (record_frame l link le q) as [[ref q']|] eqn:Ef.
    + destruct Hr as (-> & Hq' & Hle). destruct (IH le link q' (out ++ [ref]) ltac:(lia) ltac:(lia)) as (refs & le' & e & Ht & Ho).
      exists (ref :: refs), le', e. split; [econstructor; [done|by rewrite Hle]|]. by rewrite <- app_assoc in Ho.
    + destruct Hr as [err ->]. exists [], le, q. split; [constructor|]. right. exists err. rewrite app_nil_r. split_and!; done || lia.
Qed.
End Scan.

(** ** The scan *)

Lemma scan_spec M file l out : holds M (b_data file) l -> b_size file = zlen l -> bytes_ok l -> zlen l < 2 ^ 60 ->
  let magic := word l little 0 4 in
  let le := (magic =? kMagicUsLE) || (magic =? kMagicNsLE) in
  let r := scan_blocks M file out in
  if zlen l <? 4 then r = Malformed out "file too small"
  else if magic =? kShb then walked l (block_frame l) true 0 out r
  else if is_magic magic then
    if zlen l <? 24 then r = Malformed out "truncated pcap global header"
    else walked l (record_frame l (word l (order_of le) 20 4)) le 24 (out ++ [MkBlockRef 0 24 kIdb Idb le]) r
  else r = Malformed out "not a pcap or pcapng file (unknown magic)".
Proof.
  intros Hh Hn Hl Hlt magic le r. pose proof (zlen_nonneg l). unfold r, scan_blocks. rewrite (cursor_0 file).
  rewrite (cursor_size file l Hn Hlt), Z.sub_0_r by lia. destruct (Z.ltb_spec (zlen l) 4); [done|].
  unfold le_u32. rewrite (read_uint_cursor M file l Hh Hn Hl Hlt) by lia. fold (word l little 0 4). fold magic.
  destruct (magic =? kShb); [apply pcapng_walked; done || lia|]. destruct (is_magic magic); [|done]. fold le.
  assert (Ht : exists b, take 4 M (cursor file 0) = Done b (cursor file 4)).
  { unfold take. rewrite (cursor_size file l Hn Hlt) by lia. destruct (Z.ltb_spec (zlen l - 0) 4); [lia|]. rewrite cursor_advance. eauto. }
  destruct Ht as [b Ht]. unfold preceded, Parser.bind. rewrite Ht. destruct (Z.ltb_spec (zlen l) 24).
  - destruct (strct_short M file l Hn Hlt pcap_global_hdr (order_of le) 4 ltac:(lia)) as [e ->]; [|done].
    change (wire_size pcap_global_hdr) with 20. lia.
  - rewrite (strct_cursor M file l Hh Hn Hl Hlt pcap_global_hdr (order_of le)) by (done || change (wire_size pcap_global_hdr) with 20; lia).
    change (wire_size pcap_global_hdr) with 20. rewrite (cursor_size file l Hn Hlt) by lia.
    replace (member pcap_global_hdr _ "link_type") with (word l (order_of le) 20 4).
    + apply records_walked; done || lia.
    + member_uint. rewrite word_member by lia. done.
Qed.

(** C31: over any bytes the scanner answers (no bad read, no divergence), and
    what it answers is the layout of the file: a file that starts with a
    section header is laid out in blocks from its first byte, one with a classic
    magic in records after its global header (reported as an interface block),
    in the order each declares; [true] exactly when the layout reaches the end of
    the file, and otherwise the references found are those before the first
    offset at which no block fits. *)
Theorem scan_blocks_exact M file l out : holds M (b_data file) l -> b_size file = zlen l -> bytes_ok l -> zlen l < 2 ^ 60 ->
  let magic := word l little 0 4 in
  let le := (magic =? kMagicUsLE) || (magic =? kMagicNsLE) in
  let r := scan_blocks M file out in
  if zlen l <? 4 then r = Malformed out "file too small"
  else if magic =? kShb then walked l (block_frame l) true 0 out r
  else if is_magic magic then
    if zlen l <? 24 then r = Malformed out "truncated pcap global header"
    else walked l (record_frame l (word l (order_of le) 20 4)) le 24 (out ++ [MkBlockRef 0 24 kIdb Idb le]) r
  else r = Malformed out "not a pcap or pcapng file (unknown magic)".
Proof. apply scan_spec. Qed.

(** ** One block *)
Section Parse.
Context (M : memory) (file : bytes) (l : list Z).
Context (Hh : holds M (b_data file) l) (Hn : b_size file = zlen l) (Hl : bytes_ok l) (Hlt : zlen l < 2 ^ 60).
Context (ref : BlockRef) (q : Z) (Hq : file_offset ref = q) (Hq0 : 0 <= q).
Let e := order_of (little_endian ref).

(** The timestamp's two words. *)
Lemma timestamp_words hi lo : 0 <= hi < 2 ^ 32 -> 0 <= lo < 2 ^ 32 -> Z.lor (u64 (Z.shiftl hi 32)) lo = hi * 2 ^ 32 + lo.
Proof using.
  intros Hi Hlo. rewrite wrap_small.
  - rewrite Z.lor_comm, lor_shiftl_add by lia. lia.
  - rewrite Z.shiftl_mul_pow2 by lia. lia.
Qed.

Lemma parse_epb_block : kind ref = Epb -> q + 28 <= zlen l ->
  parse_epb M file ref =
    if length_ ref <? 32 + word l e (q + 20) 4 then Ok None
    else Ok (Some (MkEpbView (word l e (q + 8) 4) (word l e (q + 12) 4 * 2 ^ 32 + word l e (q + 16) 4)
                (word l e (q + 20) 4) (word l e (q + 24) 4) (q + 28))).
Proof using All.
  intros Hk Hz. unfold parse_epb. rewrite Hk, Hq. rewrite (wrap_small 64) by lia. fold (cursor file (q + 8)).
  destruct (epb_header M file l Hh Hn Hl Hlt (little_endian ref) q ltac:(lia) Hz) as (hdr & -> & -> & -> & -> & -> & ->). fold e.
  assert (Hw : forall a, 0 <= a <= 24 -> 0 <= word l e (q + a) 4 < 2 ^ 32) by (intros a Ha; apply (file_word_range l Hl e (q + a) 4); lia).
  rewrite timestamp_words by (apply Hw; lia). pose proof (Hw 20 ltac:(lia)). rewrite !(wrap_small 64) by lia.
  replace (28 + word l e (q + 20) 4 + 4) with (32 + word l e (q + 20) 4) by lia. done.
Qed.

Lemma parse_epb_short : kind ref = Epb -> q + 8 <= zlen l -> zlen l < q + 28 -> parse_epb M file ref = Ok None.
Proof using Hn Hlt Hq Hq0.
  intros Hk Hz Hs. unfold parse_epb. rewrite Hk, Hq. rewrite (wrap_small 64) by lia. fold (cursor file (q + 8)).
  destruct (strct_short M file l Hn Hlt png_epb_body e (q + 8) ltac:(lia)) as [err He]; [change (wire_size png_epb_body) with 20; lia|].
  unfold e in He. by rewrite He.
Qed.

Lemma parse_epb_record : kind ref = PcapRecord -> q + 16 <= zlen l ->
  parse_epb M file ref =
    Ok (Some (MkEpbView 0 (word l e q 4 * 2 ^ 32 + word l e (q + 4) 4) (word l e (q + 8) 4) (word l e (q + 12) 4) (q + 16))).
Proof using All.
  intros Hk Hz. unfold parse_epb. rewrite Hk, Hq. fold (cursor file q).
  destruct (record_header M file l Hh Hn Hl Hlt (little_endian ref) q ltac:(lia) Hz) as (hdr & -> & -> & -> & -> & ->). fold e.
  rewrite timestamp_words by (apply (file_word_range l Hl e _ 4); lia). by rewrite !(wrap_small 64) by lia.
Qed.

Lemma parse_idb_block : kind ref = Idb -> q + 8 <= zlen l -> (length_ ref = 24 -> is_magic (word l little q 4) = false) ->
  parse_idb M file ref =
    Ok (if q + 16 <=? zlen l then Some (MkIdbView (word l e (q + 8) 2) (word l e (q + 12) 4)) else None).
Proof using All.
  intros Hk Hz Hm. unfold parse_idb. rewrite Hk, bool_decide_true by done. cbn [negb]. rewrite Hq. fold (cursor file q). fold e.
  rewrite cursor_advance.
  assert (E : match strct png_idb_body e M (cursor file (q + 8)) with
              | Done r _ => Ok (Some (MkIdbView (member png_idb_body r "link_type") (member png_idb_body r "snaplen")))
              | Err _ => Ok None
              | Stop w => Fault w
              end = Ok (if q + 16 <=? zlen l then Some (MkIdbView (word l e (q + 8) 2) (word l e (q + 12) 4)) else None)).
  { destruct (Z.leb_spec (q + 16) (zlen l)).
    - rewrite (strct_cursor M file l Hh Hn Hl Hlt png_idb_body) by (done || change (wire_size png_idb_body) with 8; lia).
      change (wire_size png_idb_body) with 8. do 3 f_equal; member_uint; rewrite word_member by lia; f_equal; lia.
    - destruct (strct_short M file l Hn Hlt png_idb_body e (q + 8) ltac:(lia)) as [err ->]; [change (wire_size png_idb_body) with 8; lia|done]. }
  rewrite E. destruct (Z.eqb_spec (length_ ref) 24) as [H24|]; [|done]. unfold le_u32.
  rewrite (read_uint_cursor M file l Hh Hn Hl Hlt) by lia. fold (word l little q 4). by rewrite (Hm H24).
Qed.

Lemma parse_idb_global : kind ref = Idb -> length_ ref = 24 -> q + 24 <= zlen l -> is_magic (word l little q 4) = true ->
  parse_idb M file ref = Ok (Some (MkIdbView (u16 (word l e (q + 20) 4)) (word l e (q + 16) 4))).
Proof using All.
  intros Hk H24 Hz Hm. unfold parse_idb. rewrite Hk, bool_decide_true by done. cbn [negb]. rewrite Hq. fold (cursor file q). fold e.
  rewrite H24, Z.eqb_refl. unfold le_u32. rewrite (read_uint_cursor M file l Hh Hn Hl Hlt) by lia.
  fold (word l little q 4). rewrite Hm.
  rewrite (strct_cursor M file l Hh Hn Hl Hlt pcap_global_hdr) by (done || change (wire_size pcap_global_hdr) with 20; lia).
  change (wire_size pcap_global_hdr) with 20. do 3 f_equal; [f_equal|]; member_uint; rewrite word_member by lia; f_equal; lia.
Qed.

(** Whatever an interface block holds, reading it is safe. *)
Lemma parse_idb_answers : q + 8 <= zlen l -> exists r, parse_idb M file ref = Ok r /\ (r <> None -> kind ref = Idb).
Proof using All.
  intros Hz. destruct (decide (kind ref = Idb)) as [Hk|Hk].
  2:{ exists None. unfold parse_idb. by rewrite bool_decide_false. }
  destruct (decide (length_ ref = 24)) as [H24|H24]; [|rewrite parse_idb_block; done || eauto].
  destruct (is_magic (word l little q 4)) eqn:Em; [|rewrite parse_idb_block; done || eauto].
  destruct (Z.le_gt_cases (q + 24) (zlen l)); [rewrite parse_idb_global; done || eauto|].
  exists None. split; [|done]. unfold parse_idb. rewrite Hk, bool_decide_true by done. cbn [negb]. rewrite Hq. fold (cursor file q).
  rewrite H24, Z.eqb_refl. unfold le_u32. rewrite (read_uint_cursor M file l Hh Hn Hl Hlt) by lia. fold (word l little q 4). rewrite Em.
  by destruct (strct_short M file l Hn Hlt pcap_global_hdr (order_of (little_endian ref)) (q + 4) ltac:(lia)) as [err ->];
    [change (wire_size pcap_global_hdr) with 20; lia|].
Qed.
End Parse.

(** ** Every reference is safe to parse *)
Definition refs_of (r : scanned) : list BlockRef := match r with Scanned out | Malformed out _ => out | Faulted _ => [] end.

(** Where the block after the [i]th starts, [stop] after the last. *)
Definition next_offset (refs : list BlockRef) (i : nat) (stop : Z) : Z :=
  match refs !! S i with Some ref => file_offset ref | None => stop end.

Section Inside.
Context (M : memory) (file : bytes) (l : list Z).
Context (Hh : holds M (b_data file) l) (Hn : b_size file = zlen l) (Hl : bytes_ok l) (Hlt : zlen l < 2 ^ 60).

(** Both parsers answer, and a payload lies between the header and [next]. *)
Definition parses_inside (ref : BlockRef) (next : Z) : Prop :=
  (exists r, parse_idb M file ref = Ok r /\ (r <> None -> kind ref = Idb)) /\
  (exists r, parse_epb M file ref = Ok r /\ (kind ref = PcapRecord -> r <> None) /\
     forall v, r = Some v -> (kind ref = Epb \/ kind ref = PcapRecord) /\
       file_offset ref + 16 <= payload_file_offset v /\ 0 <= caplen v /\ payload_file_offset v + caplen v <= next).

Definition frame_safe (frame : bool -> Z -> option (BlockRef * Z)) : Prop :=
  forall le q ref q', 0 <= q -> frame le q = Some (ref, q') ->
    file_offset ref = q /\ q < q' <= zlen l /\ parses_inside ref q'.

Lemma block_frame_safe : frame_safe (block_frame l).
Proof using All.
  intros le q ref q' Hq. unfold block_frame. set (e := order_of (order_at l le q)).
  destruct (Z.leb_spec (q + 12) (zlen l)), (Z.leb_spec 12 (word l e (q + 4) 4)); try done. cbn [andb].
  destruct (word l e (q + 4) 4 mod 4 =? 0); [|done]. destruct (Z.leb_spec (q + word l e (q + 4) 4) (zlen l)); [|done]. intros [= <- <-].
  cbn [file_offset]. set (ref := MkBlockRef _ _ _ _ _). split; [done|]. split; [lia|]. split.
  - by apply (parse_idb_answers M file l Hh Hn Hl Hlt ref q); [|lia|lia].
  - destruct (decide (kind ref = Epb)) as [Hk|Hk].
    2:{ exists None. split; [|split; [|done]]; unfold ref, kind_of_type, parse_epb in *; cbn [kind] in *;
          repeat match goal with |- context [if ?c then _ else _] => destruct c end; done. }
    rewrite Hk. destruct (Z.le_gt_cases (q + 28) (zlen l)) as [H28|H28].
    + rewrite (parse_epb_block M file l Hh Hn Hl Hlt ref q) by done. cbn [length_ ref].
      change (order_of (little_endian ref)) with e. pose proof (file_word_range l Hl e (q + 20) 4 ltac:(lia) ltac:(lia) ltac:(lia)).
      destruct (Z.ltb_spec (word l e (q + 4) 4) (32 + word l e (q + 20) 4)); [by exists None|].
      eexists. split; [done|]. split; [done|]. intros v [= <-]. cbn. split; [by left|]. lia.
    + exists None. split; [|done]. apply (parse_epb_short M file l Hn Hlt ref q); done || lia.
Qed.

Lemma record_frame_safe link : frame_safe (record_frame l link).
Proof using All.
  intros le q ref q' Hq. unfold record_frame. set (e := order_of le).
  destruct (Z.leb_spec (q + 16) (zlen l)); [|done]. cbn [andb].
  destruct (Z.leb_spec (q + 16 + word l e (q + 8) 4) (zlen l)); [|done]. intros [= <- <-].
  cbn [file_offset]. set (ref := MkBlockRef _ _ _ _ _). pose proof (file_word_range l Hl e (q + 8) 4 ltac:(lia) ltac:(lia) ltac:(lia)).
  split; [done|]. split; [lia|]. split; [by exists None|].
  rewrite (parse_epb_record M file l Hh Hn Hl Hlt ref q) by done. eexists. split; [done|]. split; [done|].
  intros v [= <-]. cbn. fold e. split; [by right|]. lia.
Qed.

Lemma tiles_inside frame le q refs le' e : frame_safe frame -> tiles frame le q refs le' e -> 0 <= q -> e <= zlen l ->
  (forall ref, refs !! 0%nat = Some ref -> file_offset ref = q) /\
  forall i ref, refs !! i = Some ref -> parses_inside ref (next_offset refs i e).
Proof using All.
  intros Hf. induction 1 as [|le q ref q' refs le' e Hr Ht IH]; intros Hq He; [done|].
  destruct (Hf le q ref q' Hq Hr) as (Ho & Hq' & Hp). destruct (IH ltac:(lia) He) as [Hfirst Hrest].
  split; [by intros r [= <-]|]. intros [|i] r Hi; cbn in Hi; [|by apply Hrest]. injection Hi as <-.
  unfold next_offset. cbn. destruct refs as [|r refs]; cbn; [by inversion Ht; subst|]. by rewrite (Hfirst r).
Qed.

(** The layout found, behind references already pushed. *)
Lemma walked_inside frame le q out o : frame_safe frame -> walked l frame le q out o -> 0 <= q ->
  exists refs stop, refs_of o = out ++ refs /\ stop <= zlen l /\
    forall i ref, refs !! i = Some ref -> parses_inside ref (next_offset refs i stop).
Proof using All.
  intros Hf (refs & le' & e & Ht & Ho) Hq. assert (He : e <= zlen l) by (destruct Ho as [[_ ->]|(? & _ & ? & _)]; lia).
  exists refs, e. split; [by destruct Ho as [[-> _]|(? & -> & _)]|]. split; [done|]. by apply (tiles_inside frame le q refs le' e).
Qed.
End Inside.

(** Whatever the file holds, each reference the scanner found can be
    handed to the block parsers: both answer without a bad read, [parse_epb]
    accepts every record of a classic file, and a payload it reports starts
    after the record's header and ends before the next reference, inside the
    file. *)
Theorem scanned_refs_parse M file l : holds M (b_data file) l -> b_size file = zlen l -> bytes_ok l -> zlen l < 2 ^ 60 ->
  exists stop, stop <= zlen l /\ let refs := refs_of (scan_blocks M file []) in
    forall i ref, refs !! i = Some ref -> parses_inside M file ref (next_offset refs i stop).
Proof.
  intros Hh Hn Hl Hlt. pose proof (zlen_nonneg l) as H0.
  pose proof (scan_spec M file l [] Hh Hn Hl Hlt) as Hs. cbv zeta in Hs.
  destruct (Z.ltb_spec (zlen l) 4); [rewrite Hs; by exists 0|].
  destruct (_ =? kShb).
  { apply (walked_inside M file l Hh Hn Hl Hlt) in Hs; [|by apply (block_frame_safe M file l)|lia]. destruct Hs as (refs & stop & -> & ? & ?). by exists stop. }
  destruct (is_magic _); [|rewrite Hs; by exists 0].
  destruct (Z.ltb_spec (zlen l) 24); [rewrite Hs; by exists 0|].
  apply (walked_inside M file l Hh Hn Hl Hlt) in Hs; [|by apply (record_frame_safe M file l)|lia]. destruct Hs as (refs & stop & -> & ? & Hi).
  exists stop. split; [done|]. cbv zeta. intros [|i] ref Hr; cbn in Hr; [|by apply Hi]. injection Hr as <-.
  split; [by apply (parse_idb_answers M file l Hh Hn Hl Hlt _ 0); cbn; lia|by exists None].
Qed.

Record packet := Packet { pk_interface : Z; pk_ts : Z; pk_origlen : Z; pk_data : list Z }.

Inductive item :=
| Section_
| Interface (link snaplen : Z)
| Captured (p : packet)
| Opaque (type : Z) (body : list Z).

Section Writer.
Context (e : endian).
Let w2 := uint_bytes e 2.
Let w4 := uint_bytes e 4.

Definition write_block (type : Z) (body : list Z) : list Z :=
  w4 type ++ w4 (12 + zlen body) ++ body ++ w4 (12 + zlen body).

Definition padding (l : list Z) : list Z := replicate (Z.to_nat (pad4 (zlen l) - zlen l)) 0.

Definition body_of (x : item) : list Z :=
  match x with
  | Section_ => w4 kByteOrderMagic ++ w2 1 ++ w2 0 ++ replicate 8 255
  | Interface link snaplen => w2 link ++ w2 0 ++ w4 snaplen
  | Captured p =>
      w4 (pk_interface p) ++ w4 (pk_ts p / 2 ^ 32) ++ w4 (pk_ts p mod 2 ^ 32) ++ w4 (zlen (pk_data p)) ++ w4 (pk_origlen p) ++
      pk_data p ++ padding (pk_data p)
  | Opaque _ body => body
  end.

Definition type_of_item (x : item) : Z :=
  match x with Section_ => kShb | Interface _ _ => kIdb | Captured _ => kEpb | Opaque t _ => t end.

Definition write_item (x : item) : list Z := write_block (type_of_item x) (body_of x).

Definition write_record (p : packet) : list Z :=
  w4 (pk_ts p / 2 ^ 32) ++ w4 (pk_ts p mod 2 ^ 32) ++ w4 (zlen (pk_data p)) ++ w4 (pk_origlen p) ++ pk_data p.

Definition write_classic (ns : bool) (snaplen link : Z) (ps : list packet) : list Z :=
  (w4 (if ns then kMagicNsLE else kMagicUsLE) ++ w2 2 ++ w2 4 ++ w4 0 ++ w4 0 ++ w4 snaplen ++ w4 link) ++ concat (write_record <$> ps).
End Writer.

(** A section's items, in its byte order, behind its header. *)
Definition items_of (s : bool * list item) : list (bool * item) := (s.1, Section_) :: ((fun x => (s.1, x)) <$> s.2).
Definition write_items (xs : list (bool * item)) : list Z := concat ((fun x => write_item (order_of x.1) x.2) <$> xs).
Definition write_sections (ss : list (bool * list item)) : list Z := write_items (concat (items_of <$> ss)).

(** The values the formats have room for. *)
Definition u32_ok (v : Z) : Prop := 0 <= v < 2 ^ 32.
Definition packet_ok (p : packet) : Prop :=
  u32_ok (pk_interface p) /\ 0 <= pk_ts p < 2 ^ 64 /\ u32_ok (pk_origlen p) /\ bytes_ok (pk_data p) /\ zlen (pk_data p) < 2 ^ 32 - 64.
Definition item_ok (x : item) : Prop :=
  match x with
  | Section_ => True
  | Interface link snaplen => 0 <= link < 2 ^ 16 /\ u32_ok snaplen
  | Captured p => packet_ok p
  | Opaque t body => u32_ok t /\ kind_of_type t <> Shb /\ kind_of_type t <> Idb /\ kind_of_type t <> Epb /\
      bytes_ok body /\ zlen body mod 4 = 0 /\ zlen body < 2 ^ 32 - 64
  end.

(** ** Lengths *)
Lemma pad4_spec n : 0 <= n < 2 ^ 60 -> pad4 n mod 4 = 0 /\ n <= pad4 n < n + 4.
Proof.
  intros Hn. assert (pad4 n = Z.shiftl (Z.shiftr (n + 3) 2) 2) as ->.
  { unfold pad4. rewrite <- Z.ldiff_ones_r by lia. change (Z.ones 2) with 3.
    rewrite (wrap_small 64 (n + 3)) by lia. rewrite <- (wrap_small 64 (n + 3)) by lia. unfold wrap.
    apply Z.bits_inj'; intros i Hi. rewrite Z.land_spec, Z.ldiff_spec, !testbit_mod_pow2 by lia. rewrite Z.lnot_spec by lia.
    destruct (i <? 64); [by rewrite andb_true_l|]. by rewrite !andb_false_l. }
  rewrite Z.shiftl_mul_pow2, Z.shiftr_div_pow2 by lia. change (2 ^ 2) with 4. Z.div_mod_to_equations. lia.
Qed.

Lemma zlen_uint_bytes e n v : 0 <= n -> zlen (uint_bytes e n v) = n.
Proof. intros Hn. by destruct (uint_bytes_spec e n v Hn). Qed.

Lemma uint_bytes_ok e n v : 0 <= n -> bytes_ok (uint_bytes e n v).
Proof. intros Hn. by destruct (uint_bytes_spec e n v Hn) as (_ & ? & _). Qed.

Lemma uint_val_bytes e n v : 0 <= n -> 0 <= v < 2 ^ (8 * n) -> uint_val e (uint_bytes e n v) = v.
Proof. intros Hn Hv. destruct (uint_bytes_spec e n v Hn) as (_ & _ & ->). by apply wrap_small. Qed.

Lemma zlen_padding p : zlen (pk_data p) < 2 ^ 60 -> zlen (padding (pk_data p)) = pad4 (zlen (pk_data p)) - zlen (pk_data p).
Proof.
  intros Hp. pose proof (zlen_nonneg (pk_data p)). pose proof (pad4_spec (zlen (pk_data p)) ltac:(lia)).
  unfold padding. rewrite zlen_replicate. lia.
Qed.

Ltac measure := rewrite ?zlen_app, ?zlen_uint_bytes, ?zlen_replicate, ?zlen_cons by lia.

Lemma body_length e x : item_ok x -> zlen (body_of e x) mod 4 = 0 /\ zlen (body_of e x) < 2 ^ 32 - 32 /\
  match x with Section_ => zlen (body_of e x) = 16 | Interface _ _ => zlen (body_of e x) = 8
  | Captured p => zlen (body_of e x) = 20 + pad4 (zlen (pk_data p)) | _ => True end.
Proof.
  destruct x as [|link snap|p|t body]; cbn [item_ok body_of].
  - intros _. measure. by vm_compute.
  - intros _. measure. by vm_compute.
  - intros (_ & _ & _ & _ & Hp). pose proof (zlen_nonneg (pk_data p)). pose proof (pad4_spec (zlen (pk_data p)) ltac:(lia)).
    measure. rewrite zlen_padding by lia. split; [|lia].
    replace (_ + _) with (5 * 4 + pad4 (zlen (pk_data p))) by lia. rewrite Z.add_comm, Z.mod_add by lia. lia.
  - intros (_ & _ & _ & _ & _ & Hm & Hl). split; [done|]. split; [lia|done].
Qed.

Lemma write_item_length e x : zlen (write_item e x) = 12 + zlen (body_of e x).
Proof. unfold write_item, write_block. measure. lia. Qed.

Lemma section_length e : zlen (write_item e Section_) = 28.
Proof. rewrite write_item_length. by destruct (body_length e Section_ I) as (_ & _ & ->). Qed.

(** The payload of a packet block is behind 28 bytes. *)
Lemma captured_payload e p : exists h t, write_item e (Captured p) = h ++ pk_data p ++ t /\ zlen h = 28.
Proof.
  set (T := 12 + zlen (body_of e (Captured p))).
  exists (uint_bytes e 4 kEpb ++ uint_bytes e 4 T ++ uint_bytes e 4 (pk_interface p) ++ uint_bytes e 4 (pk_ts p / 2 ^ 32) ++
    uint_bytes e 4 (pk_ts p mod 2 ^ 32) ++ uint_bytes e 4 (zlen (pk_data p)) ++ uint_bytes e 4 (pk_origlen p)),
    (padding (pk_data p) ++ uint_bytes e 4 T).
  split; [|by measure]. unfold write_item, write_block. fold T. cbn [body_of type_of_item]. by rewrite <- !app_assoc.
Qed.

Lemma body_bytes e x : item_ok x -> bytes_ok (body_of e x).
Proof.
  destruct x as [|link snap|p|t body]; cbn [item_ok body_of]; intros H.
  - rewrite !Forall_app. split_and!; try (apply uint_bytes_ok; lia). repeat constructor; lia.
  - rewrite !Forall_app. split_and!; apply uint_bytes_ok; lia.
  - rewrite !Forall_app. split_and!; try (apply uint_bytes_ok; lia); [apply H|]. apply bytes_ok_zeros.
  - apply H.
Qed.

Lemma write_item_bytes e x : item_ok x -> bytes_ok (write_item e x).
Proof.
  intros Hx. unfold write_item, write_block. rewrite !Forall_app. split_and!; try (apply uint_bytes_ok; lia). by apply body_bytes.
Qed.

(** ** One block *)
Lemma slice_app_in a b q n : 0 <= q -> 0 <= n -> q + n <= zlen a -> slice (a ++ b) q n = slice a q n.
Proof.
  intros Hq Hn Hz. unfold slice. rewrite zdrop_app_l by lia. apply ztake_app_l. rewrite zlen_zdrop by lia. lia.
Qed.

Section Block.
Context (M : memory) (file : bytes) (l : list Z).
Context (Hh : holds M (b_data file) l) (Hn : b_size file = zlen l) (Hl : bytes_ok l) (Hlt : zlen l < 2 ^ 60).
Context (pre m post : list Z) (Hm : l = pre ++ m ++ post).

Lemma slice_in a n : 0 <= a -> 0 <= n -> a + n <= zlen m -> slice l (zlen pre + a) n = slice m a n.
Proof using Hm.
  intros Ha Hn' Hz. rewrite Hm, slice_app_r by lia. replace (zlen pre + a - zlen pre) with a by lia. by apply slice_app_in.
Qed.

(** A number the writer put at [a] of the block is the word read there. *)
Lemma word_in e a n v : 0 <= a -> 0 <= n -> a + n <= zlen m -> 0 <= v < 2 ^ (8 * n) -> slice m a n = uint_bytes e n v ->
  word l e (zlen pre + a) n = v.
Proof using Hm. intros Ha Hn' Hz Hv Hs. unfold word. by rewrite slice_in, Hs, uint_val_bytes. Qed.
End Block.

Lemma section_mark e t : u32_ok t -> uint_val little (uint_bytes e 4 t) = kShb -> t = kShb.
Proof.
  intros Ht Hv. assert (Hs : uint_val little (uint_bytes e 4 kShb) = kShb) by (by destruct e).
  rewrite <- Hs in Hv. apply uint_val_inj in Hv; [|apply uint_bytes_ok; lia..|done].
  rewrite <- (uint_val_bytes e 4 t), Hv, uint_val_bytes by (done || lia). done.
Qed.

Lemma type_of_item_ok x : item_ok x -> u32_ok (type_of_item x) /\ (x <> Section_ -> type_of_item x <> kShb).
Proof.
  destruct x; cbn; try done. intros (Ht & Hk & _). split; [done|]. intros _ ->. by apply Hk.
Qed.

Definition ref_of (q : Z) (le : bool) (x : item) : BlockRef :=
  MkBlockRef q (zlen (write_item (order_of le) x)) (type_of_item x) (kind_of_type (type_of_item x)) le.

Lemma item_frame l le0 le x pre post : item_ok x -> l = pre ++ write_item (order_of le) x ++ post ->
  (x <> Section_ -> le0 = le) ->
  block_frame l le0 (zlen pre) = Some (ref_of (zlen pre) le x, zlen pre + zlen (write_item (order_of le) x)).
Proof.
  intros Hx Hl Hle. set (e := order_of le). pose proof (body_length e x Hx) as (Hm4 & Hlb & Hb).
  destruct (type_of_item_ok x Hx) as [Ht Hns]. pose proof (write_item_length e x) as Hw. pose proof (zlen_nonneg (body_of e x)) as H0.
  assert (Ho : order_at l le0 (zlen pre) = le).
  { unfold order_at, word. rewrite <- (Z.add_0_r (zlen pre)) at 1. rewrite !(slice_in l pre _ post Hl) by (fold e; destruct x; lia).
    change (slice (write_item (order_of le) x) 0 4) with (uint_bytes e 4 (type_of_item x)).
    assert (x = Section_ \/ x <> Section_) as [->|Hns'] by (destruct x; by (left + right)).
    - change (slice (write_item (order_of le) Section_) 8 4) with (uint_bytes e 4 kByteOrderMagic). unfold e. by destruct le.
    - destruct (Z.eqb_spec (uint_val little (uint_bytes e 4 (type_of_item x))) kShb) as [E|_]; [|by apply Hle].
      apply section_mark in E; [|done]. by destruct (Hns Hns'). }
  unfold block_frame. rewrite Ho. fold e.
  assert (word l e (zlen pre + 4) 4 = 12 + zlen (body_of e x)) as -> by (by apply (word_in l pre _ post Hl); [lia..|fold e; lia|lia|]).
  assert (word l e (zlen pre) 4 = type_of_item x) as ->.
  { rewrite <- (Z.add_0_r (zlen pre)). apply (word_in l pre _ post Hl); try done; fold e; lia. }
  assert (Hz : zlen l = zlen pre + zlen (write_item e x) + zlen post) by (rewrite Hl, !zlen_app; fold e; lia).
  pose proof (zlen_nonneg post). destruct (Z.leb_spec (zlen pre + 12) (zlen l)); [|lia].
  destruct (Z.leb_spec 12 (12 + zlen (body_of e x))); [|lia].
  assert ((12 + zlen (body_of e x)) mod 4 = 0) as E by (Z.div_mod_to_equations; lia). rewrite E. cbn [Z.eqb andb].
  destruct (Z.leb_spec (zlen pre + (12 + zlen (body_of e x))) (zlen l)); [|lia].
  unfold ref_of. fold e. by rewrite Hw.
Qed.

(** What the scanner and the parsers say of a written block. *)
Definition reads (M : memory) (file : bytes) (l : list Z) (lx : bool * item) (ref : BlockRef) : Prop :=
  little_endian ref = lx.1 /\ kind ref = kind_of_type (type_of_item lx.2) /\
  match lx.2 with
  | Section_ => True
  | Interface link snaplen => parse_idb M file ref = Ok (Some (MkIdbView link snaplen))
  | Captured p => exists off, slice l off (zlen (pk_data p)) = pk_data p /\
      parse_epb M file ref = Ok (Some (MkEpbView (pk_interface p) (pk_ts p) (zlen (pk_data p)) (pk_origlen p) off))
  | Opaque _ body => slice l (file_offset ref + 8) (zlen body) = body
  end.

Section ReadBack.
Context (M : memory) (file : bytes) (l : list Z).
Context (Hh : holds M (b_data file) l) (Hn : b_size file = zlen l) (Hl : bytes_ok l) (Hlt : zlen l < 2 ^ 60).

Lemma item_reads le x pre post : item_ok x -> l = pre ++ write_item (order_of le) x ++ post ->
  reads M file l (le, x) (ref_of (zlen pre) le x).
Proof using All.
  intros Hx Hm. split; [done|]. split; [done|]. cbn [snd]. set (e := order_of le) in *. pose proof (body_length e x Hx) as (_ & Hlb & Hb).
  pose proof (write_item_length e x) as Hw. pose proof (zlen_nonneg pre). pose proof (zlen_nonneg post).
  assert (Hz : zlen l = zlen pre + zlen (write_item e x) + zlen post) by (rewrite Hm, !zlen_app; lia).
  destruct x as [|link snap|p|t body]; [done| | |].
  - destruct Hx as [Hlink Hsnap]. rewrite (parse_idb_block M file l Hh Hn Hl Hlt _ (zlen pre)) by (done || cbn -[write_item]; fold e; lia).
    destruct (Z.leb_spec (zlen pre + 16) (zlen l)); [|lia]. change (order_of (little_endian (ref_of (zlen pre) le (Interface link snap)))) with e.
    do 3 f_equal; apply (word_in l pre (write_item e (Interface link snap)) post Hm); done || lia.
  - destruct Hx as (Hi & Ht & Ho & _ & Hd). pose proof (zlen_nonneg (pk_data p)) as Hd0. pose proof (pad4_spec (zlen (pk_data p)) ltac:(lia)) as Hp.
    exists (zlen pre + 28). split.
    { rewrite (slice_in l pre (write_item e (Captured p)) post Hm) by lia.
      destruct (captured_payload e p) as (h & t & -> & Hh28). rewrite slice_app_r, Hh28 by lia. by apply slice_app_l. }
    rewrite (parse_epb_block M file l Hh Hn Hl Hlt _ (zlen pre)) by (done || lia). change (order_of (little_endian (ref_of (zlen pre) le (Captured p)))) with e.
    assert (Hword : forall a v, 0 <= a <= 24 -> u32_ok v -> slice (write_item e (Captured p)) a 4 = uint_bytes e 4 v -> word l e (zlen pre + a) 4 = v)
      by (intros; apply (word_in l pre (write_item e (Captured p)) post Hm); done || lia).
    rewrite (Hword 20 (zlen (pk_data p))) by (done || unfold u32_ok; lia). change (length_ _) with (zlen (write_item e (Captured p))).
    destruct (Z.ltb_spec (zlen (write_item e (Captured p))) (32 + zlen (pk_data p))); [lia|]. do 3 f_equal.
    + by apply Hword.
    + rewrite (Hword 12 (pk_ts p / 2 ^ 32)), (Hword 16 (pk_ts p mod 2 ^ 32)); unfold u32_ok; try done; try lia; Z.div_mod_to_equations; lia.
    + by apply Hword.
  - change (file_offset _) with (zlen pre). rewrite (slice_in l pre (write_item e (Opaque t body)) post Hm) by (cbn [body_of] in Hw; pose proof (zlen_nonneg body); lia).
    unfold write_item, write_block. rewrite app_assoc. rewrite slice_app_r by (measure; lia). measure. by apply slice_app_l.
Qed.

(** ** Whole files *)

(** A layout that cannot go on is the only one. *)
Lemma tiles_det frame le q refs le1 e1 : tiles frame le q refs le1 e1 -> frame le1 e1 = None ->
  forall refs2 le2 e2, tiles frame le q refs2 le2 e2 -> frame le2 e2 = None -> refs2 = refs /\ e2 = e1.
Proof using.
  induction 1 as [le q|le q ref q' refs le1 e1 Hr _ IH]; intros Hstuck refs2 le2 e2 Ht Hs2.
  - inversion Ht; subst; [done|congruence].
  - inversion Ht as [|? ? ref2 ? ? ? ? Hr2 Ht2]; subst; [congruence|]. rewrite Hr in Hr2. injection Hr2 as <- <-.
    by destruct (IH Hstuck _ _ _ Ht2 Hs2) as [-> ->].
Qed.

Lemma walked_all frame le q out o refs le' : (forall le, frame le (zlen l) = None) -> tiles frame le q refs le' (zlen l) ->
  walked l frame le q out o -> o = Scanned (out ++ refs).
Proof using.
  intros Hend Ht (refs2 & le2 & e & Ht2 & Ho).
  assert (Hs : frame le2 e = None) by (destruct Ho as [[_ ->]|(? & _ & _ & ?)]; [apply Hend|done]).
  destruct (tiles_det frame le q refs le' (zlen l) Ht (Hend le') refs2 le2 e Ht2 Hs) as [-> ->].
  destruct Ho as [[-> _]|(? & _ & ? & _)]; [done|lia].
Qed.

Fixpoint ordered (le0 : bool) (xs : list (bool * item)) : Prop :=
  match xs with [] => True | (le, x) :: xs => (x <> Section_ -> le0 = le) /\ ordered le xs end.

Lemma items_tile xs : forall pre le0, ordered le0 xs -> Forall (fun lx => item_ok lx.2) xs -> l = pre ++ write_items xs ->
  exists refs le', tiles (block_frame l) le0 (zlen pre) refs le' (zlen l) /\ Forall2 (reads M file l) xs refs.
Proof using All.
  induction xs as [|[le x] xs IH]; intros pre le0 Ho Hok Hp; cbn in *.
  - assert (zlen l = zlen pre) as -> by (by rewrite Hp, app_nil_r). exists [], le0. split; constructor.
  - destruct Ho as [Hle Ho]. apply Forall_cons in Hok as [Hx Hok]. change (concat _) with (write_items xs) in Hp.
    destruct (IH (pre ++ write_item (order_of le) x) le Ho Hok) as (refs & le' & Ht & Hr); [by rewrite <- app_assoc|].
    exists (ref_of (zlen pre) le x :: refs), le'. split.
    + econstructor; [by apply (item_frame l le0 le x pre (write_items xs))|]. by rewrite zlen_app in Ht.
    + constructor; [|done]. by apply (item_reads le x pre (write_items xs)).
Qed.

Definition record_reads (p : packet) (ref : BlockRef) : Prop :=
  kind ref = PcapRecord /\ exists off, slice l off (zlen (pk_data p)) = pk_data p /\
    parse_epb M file ref = Ok (Some (MkEpbView 0 (pk_ts p) (zlen (pk_data p)) (pk_origlen p) off)).

Lemma records_tile le link ps : forall pre, Forall packet_ok ps -> l = pre ++ concat (write_record (order_of le) <$> ps) ->
  exists refs, tiles (record_frame l link) le (zlen pre) refs le (zlen l) /\ Forall2 record_reads ps refs.
Proof using All.
  set (e := order_of le). induction ps as [|p ps IH]; intros pre Hok Hp; cbn in *.
  - assert (zlen l = zlen pre) as -> by (by rewrite Hp, app_nil_r). exists []. split; constructor.
  - apply Forall_cons in Hok as [(Hi & Ht & Ho & _ & Hd) Hok].
    destruct (IH (pre ++ write_record e p) Hok) as (refs & Htiles & Hr); [by rewrite <- app_assoc|].
    pose proof (zlen_nonneg (pk_data p)). pose proof (zlen_nonneg pre). set (post := concat (write_record e <$> ps)) in *. pose proof (zlen_nonneg post).
    assert (Hw : zlen (write_record e p) = 16 + zlen (pk_data p)) by (unfold write_record; measure; lia).
    assert (Hz : zlen l = zlen pre + zlen (write_record e p) + zlen post) by (rewrite Hp, !zlen_app; lia).
    assert (Hword : forall a v, 0 <= a <= 12 -> u32_ok v -> slice (write_record e p) a 4 = uint_bytes e 4 v -> word l e (zlen pre + a) 4 = v)
      by (intros; apply (word_in l pre (write_record e p) post Hp); done || lia).
    assert (Hcap : word l e (zlen pre + 8) 4 = zlen (pk_data p)) by (apply Hword; done || unfold u32_ok; lia).
    set (ref := MkBlockRef (zlen pre) (u32 (16 + zlen (pk_data p))) link PcapRecord le). exists (ref :: refs). split.
    + apply (tiles_cons _ le (zlen pre) ref (zlen pre + 16 + zlen (pk_data p))); [|by rewrite zlen_app, Hw, Z.add_assoc in Htiles].
      unfold record_frame. fold e. rewrite Hcap. by destruct (Z.leb_spec (zlen pre + 16) (zlen l)), (Z.leb_spec (zlen pre + 16 + zlen (pk_data p)) (zlen l)); try lia.
    + constructor; [|done]. split; [done|]. exists (zlen pre + 16). split.
      { rewrite (slice_in l pre (write_record e p) post Hp) by lia. unfold write_record. rewrite !app_assoc.
        rewrite slice_app_r by (measure; lia). measure. cbn. rewrite <- (app_nil_r (pk_data p)) at 1. by apply slice_app_l. }
      rewrite (parse_epb_record M file l Hh Hn Hl Hlt ref (zlen pre)) by (done || lia). change (order_of (little_endian ref)) with e.
      rewrite <- (Z.add_0_r (zlen pre)) at 1. rewrite Hcap.
      rewrite (Hword 0 (pk_ts p / 2 ^ 32)), (Hword 4 (pk_ts p mod 2 ^ 32)), (Hword 12 (pk_origlen p)); unfold u32_ok; try done; try lia;
        [|Z.div_mod_to_equations; lia..]. do 3 f_equal. Z.div_mod_to_equations. lia.
Qed.
End ReadBack.

Lemma sections_ordered ss : forall le0, ordered le0 (concat (items_of <$> ss)).
Proof.
  induction ss as [|[le xs] ss IH]; intros le0; cbn; [done|]. split; [done|]. clear le0.
  induction xs as [|x xs IHx]; cbn; [apply IH|]. by split.
Qed.

Lemma sections_ok ss : Forall (fun s => Forall item_ok s.2) ss -> Forall (fun lx => item_ok lx.2) (concat (items_of <$> ss)).
Proof.
  induction 1 as [|[le xs] ss Hx _ IH]; cbn; [constructor|]. constructor; [done|]. apply Forall_app. split; [|done].
  by apply Forall_map.
Qed.

Lemma write_items_ok xs : Forall (fun lx => item_ok lx.2) xs -> bytes_ok (write_items xs).
Proof.
  induction 1 as [|[le x] xs Hx _ IH]; cbn; [constructor|]. apply Forall_app. split; [by apply write_item_bytes|done].
Qed.

Lemma write_classic_ok e ns snaplen link ps : Forall packet_ok ps -> bytes_ok (write_classic e ns snaplen link ps).
Proof.
  intros Hps. unfold write_classic. apply Forall_app. split; [rewrite !Forall_app; split_and!; apply uint_bytes_ok; lia|].
  induction Hps as [|p ps (_ & _ & _ & Hd & _) _ IH]; cbn; [constructor|]. apply Forall_app. split; [|done].
  unfold write_record. rewrite !Forall_app. split_and!; try (apply uint_bytes_ok; lia). done.
Qed.

Inductive capture :=
| Sections (ss : list (bool * list item))
| Classic (le ns : bool) (snaplen link : Z) (ps : list packet).

Definition write_capture (c : capture) : list Z :=
  match c with
  | Sections ss => write_sections ss
  | Classic le ns snaplen link ps => write_classic (order_of le) ns snaplen link ps
  end.

Definition capture_ok (c : capture) : Prop :=
  match c with
  | Sections ss => ss <> [] /\ Forall (fun s => Forall item_ok s.2) ss
  | Classic _ _ snaplen link ps => u32_ok snaplen /\ 0 <= link < 2 ^ 16 /\ Forall packet_ok ps
  end.

Section Capture.
Context (M : memory) (file : bytes) (l : list Z).
Context (Hh : holds M (b_data file) l) (Hn : b_size file = zlen l) (Hl : bytes_ok l) (Hlt : zlen l < 2 ^ 60).

Lemma block_end le : block_frame l le (zlen l) = None.
Proof using. unfold block_frame. destruct (Z.leb_spec (zlen l + 12) (zlen l)); [lia|done]. Qed.

Lemma record_end link le : record_frame l link le (zlen l) = None.
Proof using. unfold record_frame. destruct (Z.leb_spec (zlen l + 16) (zlen l)); [lia|done]. Qed.

Lemma read_sections ss : ss <> [] -> Forall (fun s => Forall item_ok s.2) ss -> l = write_sections ss ->
  exists refs, scan_blocks M file [] = Scanned refs /\ Forall2 (reads M file l) (concat (items_of <$> ss)) refs.
Proof using All.
  intros Hne Hok El. pose proof (sections_ok ss Hok) as Hitems.
  destruct (items_tile M file l Hh Hn Hl Hlt (concat (items_of <$> ss)) [] true) as (refs & le' & Ht & Hr); [apply sections_ordered|done|done|].
  exists refs. split; [|done]. pose proof (scan_spec M file l [] Hh Hn Hl Hlt) as Hs. cbv zeta in Hs.
  destruct ss as [|[le xs] ss]; [done|].
  assert (Hfirst : exists post, l = [] ++ write_item (order_of le) Section_ ++ post) by (rewrite El; unfold write_sections, write_items; cbn; by eexists).
  destruct Hfirst as [post Hfirst]. pose proof (zlen_nonneg post).
  assert (Hz : zlen l = 28 + zlen post) by (rewrite Hfirst; cbn [app]; by rewrite zlen_app, section_length).
  assert (Hmagic : word l little 0 4 = kShb).
  { unfold word. rewrite Hfirst. cbn [app]. rewrite slice_app_in by (rewrite ?section_length; lia). by destruct le. }
  rewrite Hmagic, Z.eqb_refl in Hs. destruct (Z.ltb_spec (zlen l) 4); [lia|].
  by apply (walked_all l (block_frame l) true 0 [] _ refs le' block_end Ht) in Hs.
Qed.

Lemma read_classic le ns snaplen link ps : u32_ok snaplen -> 0 <= link < 2 ^ 16 -> Forall packet_ok ps ->
  l = write_classic (order_of le) ns snaplen link ps ->
  exists idb refs, scan_blocks M file [] = Scanned (idb :: refs) /\
    parse_idb M file idb = Ok (Some (MkIdbView link snaplen)) /\ Forall2 (record_reads M file l) ps refs.
Proof using All.
  intros Hsnap Hlink Hps El. unfold write_classic in El. set (e := order_of le) in El.
  match type of El with _ = ?h ++ _ => set (head := h) in El; assert (Hhead : zlen head = 24) by (unfold head; by measure) end.
  set (m := if ns then kMagicNsLE else kMagicUsLE) in head. assert (Hm : 0 <= m < 2 ^ 32) by (unfold m; destruct ns; done).
  destruct (records_tile M file l Hh Hn Hl Hlt le link ps head Hps El) as (refs & Ht & Hr). rewrite Hhead in Ht.
  assert (Hz : zlen l = 24 + zlen (concat (write_record e <$> ps))) by (rewrite El, zlen_app; lia).
  pose proof (zlen_nonneg (concat (write_record e <$> ps))).
  pose proof (scan_spec M file l [] Hh Hn Hl Hlt) as Hs. cbv zeta in Hs.
  assert (Hmagic : word l little 0 4 = uint_val little (uint_bytes e 4 m)) by (unfold word; rewrite El, slice_app_in by lia; done).
  rewrite Hmagic in Hs. destruct (Z.ltb_spec (zlen l) 4); [lia|]. destruct (Z.ltb_spec (zlen l) 24); [lia|].
  assert (Hmg : (uint_val little (uint_bytes e 4 m) =? kShb) = false /\ is_magic (uint_val little (uint_bytes e 4 m)) = true /\
    (uint_val little (uint_bytes e 4 m) =? kMagicUsLE) || (uint_val little (uint_bytes e 4 m) =? kMagicNsLE) = le)
    by (unfold e, m; by destruct le, ns).
  destruct Hmg as (Hm1 & Hm2 & Hm3). rewrite Hm1, Hm2, Hm3 in Hs. fold e in Hs.
  assert (Hin : forall a v, 0 <= a <= 20 -> u32_ok v -> slice head a 4 = uint_bytes e 4 v -> word l e a 4 = v)
    by (intros a v Ha Hv Hsl; apply (word_in l [] head (concat (write_record e <$> ps)) El e a 4 v); done || lia).
  assert (Hlk : word l e 20 4 = link) by (apply Hin; done || (unfold u32_ok; lia)). rewrite Hlk in Hs.
  apply (walked_all l _ le 24 _ _ refs le (record_end link) Ht) in Hs.
  eexists _, refs. split; [exact Hs|]. split; [|done].
  rewrite (parse_idb_global M file l Hh Hn Hl Hlt _ 0) by (done || lia || (rewrite Hmagic; done)).
  cbn [little_endian]. fold e. rewrite !Z.add_0_l, Hlk, wrap_small by lia. by rewrite (Hin 16 snaplen) by (done || lia).
Qed.
End Capture.

(** C32: a capture in either format, either byte order (each section its own)
    and either tick unit is read back: the scanner accepts it and yields one
    reference per block (one for the global header and one per record), in
    order; [parse_idb] gives the link type and snap length written and
    [parse_epb] the interface, timestamp and lengths of the packet, with an
    offset at which the file holds exactly its bytes. *)
Theorem capture_roundtrip M file c : capture_ok c -> let l := write_capture c in
  holds M (b_data file) l -> b_size file = zlen l -> zlen l < 2 ^ 60 ->
  match c with
  | Sections ss => exists refs, scan_blocks M file [] = Scanned refs /\ Forall2 (reads M file l) (concat (items_of <$> ss)) refs
  | Classic _ _ snaplen link ps => exists idb refs, scan_blocks M file [] = Scanned (idb :: refs) /\
      parse_idb M file idb = Ok (Some (MkIdbView link snaplen)) /\ Forall2 (record_reads M file l) ps refs
  end.
Proof.
  destruct c as [ss|le ns snaplen link ps]; intros Hc l Hh Hn Hlt.
  - destruct Hc as [Hne Hok]. apply read_sections; try done. by apply write_items_ok, sections_ok.
  - destruct Hc as (Hs & Hlk & Hps). apply (read_classic M file l Hh Hn) with (le := le) (ns := ns); try done. by apply write_classic_ok.
Qed.

(** ** Instances *)
Definition whole (l : list Z) : bytes := Bytes 0 (zlen l) None 0.

Lemma whole_holds l : holds (mem_of 0 l) (b_data (whole l)) l.
Proof. pose proof (holds_mem_of 0 l []) as H. by rewrite app_nil_r in H. Qed.

Definition ping : packet := Packet 0 (7 * 2 ^ 32 + 9) 60 [1; 2; 3; 4; 5].

Definition two_sections : capture :=
  Sections [(true, [Interface 1 65535; Captured ping]); (false, [Opaque 5 [0; 0; 0; 1]; Captured ping])].
Definition records : capture := Classic false true 65535 1 [ping; ping].

Lemma ping_ok : packet_ok ping.
Proof. repeat split; cbn; try lia. repeat constructor; lia. Qed.

Lemma capture_roundtrip_witness : let l := write_capture two_sections in
  capture_ok two_sections /\ exists refs, scan_blocks (mem_of 0 l) (whole l) [] = Scanned refs /\ length refs = 6%nat.
Proof.
  assert (Hok : capture_ok two_sections).
  { split; [done|]. repeat constructor; cbn; unfold u32_ok; try apply ping_ok; lia || (repeat constructor; lia) || done. }
  split; [exact Hok|].
  destruct (capture_roundtrip (mem_of 0 (write_capture two_sections)) (whole (write_capture two_sections)) two_sections Hok) as (refs & Hs & Hr).
  - apply whole_holds.
  - reflexivity.
  - vm_compute. reflexivity.
  - exists refs. split; [exact Hs|]. apply Forall2_length in Hr. rewrite <- Hr. reflexivity.
Defined.

Lemma scan_blocks_exact_witness : let l := write_capture records in let l' := removelast l in
  exists refs err, scan_blocks (mem_of 0 l') (whole l') [] = Malformed refs err /\ length refs = 2%nat.
Proof.
  cbv zeta. set (l' := removelast (write_capture records)).
  assert (Hok : bytes_ok l') by (unfold l'; vm_compute; repeat constructor; discriminate).
  pose proof (scan_blocks_exact (mem_of 0 l') (whole l') l' [] (whole_holds l') eq_refl Hok ltac:(vm_compute; reflexivity)) as H.
  destruct (scan_blocks (mem_of 0 l') (whole l') []) as [o|o err|w] eqn:E; [vm_compute in E; discriminate| |vm_compute in E; discriminate].
  exists o, err. split; [reflexivity|]. vm_compute in E. injection E as <- <-. reflexivity.
Defined.

Lemma scanned_refs_parse_witness : let l := write_capture records in
  exists stop, parses_inside (mem_of 0 l) (whole l) (MkBlockRef 24 21 1 PcapRecord false) stop.
Proof.
  cbv zeta. set (l := write_capture records).
  assert (Hok : bytes_ok l) by (apply write_classic_ok; repeat constructor; cbn; unfold u32_ok; lia).
  destruct (scanned_refs_parse (mem_of 0 l) (whole l) l (whole_holds l) eq_refl Hok ltac:(vm_compute; reflexivity)) as (stop & _ & H).
  eexists. apply (H 1%nat). vm_compute. reflexivity.
Defined.

(** ** A corner of the code *)

(** [parse_idb] does not look at the block's length: of an interface block
    without a body it reads the block's own trailing length and the bytes of the
    next block. *)
Theorem idb_reads_past_block :
  let l := write_sections [(true, [Interface 1 65535])] in
  let short := ztake 28 l ++ uint_bytes little 4 kIdb ++ uint_bytes little 4 12 ++ uint_bytes little 4 12 ++ zdrop 28 l in
  match scan_blocks (mem_of 0 short) (whole short) [] with
  | Scanned [_; ref; _] => length_ ref = 12 /\ parse_idb (mem_of 0 short) (whole short) ref = Ok (Some (MkIdbView 12 1))
  | _ => False
  end.
Proof. vm_compute. auto. Qed.
