(* ===== verification/Walk.v ===== *)
(** * The packet walk (nanom_shark/protocols.hpp)

    The header structs of layers 2 to 4 and the two traversals of a packet:
    [walk_packet], and [walk_packet_ext], which descends IPv6 extension
    headers. A walk only calls the visitor's methods and never looks at what
    they return, so it is the list of the calls it makes, in order
    ([event]s), with its [WalkResult]. Offsets are [size_t]: a packet is
    shorter than 2^60 bytes and a step adds less than 2^13, so no sum wraps. *)
From S2P Require Import Prelude Parser BytesParsers Combinators Numbers Bits Reflect Emit Members.

Abbreviation byte_field := (Scalar 1 Unsigned).
Abbreviation be16 := (Endian big 2 Unsigned).
Abbreviation be32 := (Endian big 4 Unsigned).
Abbreviation ubits n := (BitField n false msb0).

Definition Ethernet : list (string * field_type) :=
  [("dst", Array byte_field 6); ("src", Array byte_field 6); ("ethertype", be16)]%string.
Definition VlanTag : list (string * field_type) :=
  [("pcp", ubits 3); ("dei", ubits 1); ("vid", ubits 12); ("inner_ethertype", be16)]%string.
Definition Ipv4 : list (string * field_type) :=
  [("version", ubits 4); ("ihl", ubits 4); ("dscp", ubits 6); ("ecn", ubits 2); ("total_length", be16);
   ("identification", be16); ("flags", ubits 3); ("frag_offset", ubits 13); ("ttl", byte_field); ("protocol", byte_field);
   ("checksum", be16); ("src", Array byte_field 4); ("dst", Array byte_field 4)]%string.
Definition Ipv6 : list (string * field_type) :=
  [("version", ubits 4); ("traffic_class", ubits 8); ("flow_label", ubits 20); ("payload_length", be16);
   ("next_header", byte_field); ("hop_limit", byte_field); ("src", Array byte_field 16); ("dst", Array byte_field 16)]%string.
Definition Udp : list (string * field_type) :=
  [("src_port", be16); ("dst_port", be16); ("length", be16); ("checksum", be16)]%string.
Definition Tcp : list (string * field_type) :=
  [("src_port", be16); ("dst_port", be16); ("seq", be32); ("ack", be32); ("data_offset", ubits 4); ("reserved", ubits 3);
   ("flags", ubits 9); ("window", be16); ("checksum", be16); ("urgent", be16)]%string.
Definition Ipv6ExtOpt : list (string * field_type) := [("next_header", byte_field); ("hdr_ext_len", byte_field)]%string.
Definition Ipv6Srh : list (string * field_type) :=
  [("next_header", byte_field); ("hdr_ext_len", byte_field); ("routing_type", byte_field); ("segments_left", byte_field);
   ("last_entry", byte_field); ("flags", byte_field); ("tag", be16)]%string.
Definition Ipv6Fragment : list (string * field_type) :=
  [("next_header", byte_field); ("reserved", byte_field); ("offset_flags", be16); ("identification", be32)]%string.
Definition Ipv6Ah : list (string * field_type) :=
  [("next_header", byte_field); ("payload_len", byte_field); ("reserved", be16); ("spi", be32); ("seq", be32)]%string.

Definition kEtherTypeVlan : Z := 0x8100.
Definition kEtherTypeQinQ : Z := 0x88A8.
Definition kEtherTypeIpv4 : Z := 0x0800.
Definition kEtherTypeIpv6 : Z := 0x86DD.
Definition kIpProtoTcp : Z := 6.
Definition kIpProtoUdp : Z := 17.
Definition kLinkTypeEthernet : Z := 1.

Record WalkResult := MkWalkResult { l4_payload_offset : Z; l4_ports : Z; reached_l4 : bool }.
Definition no_result : WalkResult := MkWalkResult 0 0 false.

(** The visitor's methods, with their arguments. *)
Inductive event :=
| on_offset (off : Z)
| on_eth (v : value)
| on_vlan (v : value)
| on_l2_done (ethertype l2_end : Z)
| on_ipv4 (v : value)
| on_ipv6 (v : value)
| on_ext_opt (kind : Z) (v : value)
| on_srh (v : value)
| on_fragment (v : value)
| on_ah (v : value)
| on_srh_segment (srh_order segment_index : Z) (address : list Z)
| on_ipv6_option (container opt_type opt_len : Z)
| on_tcp (v : value)
| on_udp (v : value).

Inductive walk :=
| Walked (calls : list event) (res : WalkResult)
| WalkFault (w : stop).

(** Calls, then the rest of the walk. *)
Definition after (calls : list event) (w : walk) : walk :=
  match w with Walked calls' res => Walked (calls ++ calls') res | WalkFault w => WalkFault w end.
Notation "calls ;;; w" := (after calls w) (at level 65, right associativity).

(** [return res;] before layer 4. *)
Definition done_ : walk := Walked [] no_result.

(** The default order of [strct], of the target; it matters to no header here,
    whose members are bytes, bits and [be<T>]s. *)
Definition native : endian := little.

(** [auto h = strct<T>()(i); if (!h) return res;] *)
Definition header (fs : list (string * field_type)) (M : memory) (i : input) (k : value -> input -> walk) : walk :=
  match strct fs native M i with
  | Done v rest => k v rest
  | Err _ => done_
  | Stop w => WalkFault w
  end.

Definition ports (fs : list (string * field_type)) (v : value) : Z :=
  Z.lor (Z.shiftl (member fs v "src_port") 16) (member fs v "dst_port").

(** A header's own length, at least its fixed part. *)
Definition header_length (words fixed : Z) : Z := let hdr := words * 4 in if fixed <=? hdr then hdr else fixed.

Section Walk.
Context (M : memory).

(** The VLAN tags; a round passes four bytes. *)
Fixpoint vlan_tags (offsets : bool) (fuel : nat) (ethertype : Z) (cur : input) (k : Z -> input -> walk) : walk :=
  if (ethertype =? kEtherTypeVlan) || (ethertype =? kEtherTypeQinQ) then
    match fuel with
    | O => WalkFault NoFuel
    | S fuel =>
        header VlanTag M cur (fun tag rest =>
          ((if offsets then [on_offset (offset cur)] else []) ++ [on_vlan tag]) ;;;
          vlan_tags offsets fuel (member VlanTag tag "inner_ethertype") rest k)
    end
  else k ethertype cur.

(** TCP or UDP at [after_l3]. *)
Definition layer4 (ip_proto : Z) (after_l3 : input) : walk :=
  if ip_proto =? kIpProtoTcp then
    header Tcp M after_l3 (fun tcp _ =>
      [on_tcp tcp] ;;;
      Walked [] (MkWalkResult (offset after_l3 + header_length (member Tcp tcp "data_offset") (wire_size Tcp)) (ports Tcp tcp) true))
  else if ip_proto =? kIpProtoUdp then
    header Udp M after_l3 (fun udp rest =>
      [on_udp udp] ;;; Walked [] (MkWalkResult (offset rest) (ports Udp udp) true))
  else done_.

Definition walk_packet (link_type : Z) (pkt : bytes) : walk :=
  if negb (link_type =? kLinkTypeEthernet) then done_
  else
    header Ethernet M (from_bytes pkt) (fun eth rest =>
      [on_eth eth] ;;;
      vlan_tags false (S (Z.to_nat (size rest))) (member Ethernet eth "ethertype") rest (fun ethertype cur =>
        if ethertype =? kEtherTypeIpv4 then
          header Ipv4 M cur (fun ip _ =>
            [on_ipv4 ip] ;;;
            let l3 := header_length (member Ipv4 ip "ihl") (wire_size Ipv4) in
            if size cur <? l3 then done_
            else if member Ipv4 ip "frag_offset" =? 0 then layer4 (member Ipv4 ip "protocol") (advance cur l3)
            else done_)
        else if ethertype =? kEtherTypeIpv6 then
          header Ipv6 M cur (fun ip rest => [on_ipv6 ip] ;;; layer4 (member Ipv6 ip "next_header") rest)
        else done_)).

(** ** Extension headers *)
Definition is_ipv6_ext (nh : Z) : bool := (nh =? 0) || (nh =? 43) || (nh =? 44) || (nh =? 60) || (nh =? 51).

(** The option TLVs of [pkt] from [i] up to [lim]; a round passes at least one
    byte. [None] is a read outside the packet, or no fuel. *)
Fixpoint ipv6_options (fuel : nat) (pkt : bytes) (lim i : Z) : option (list (Z * Z)) :=
  if i <? lim then
    match fuel with
    | O => None
    | S fuel =>
        t ← M (b_data pkt + i);
        if t =? 0 then os ← ipv6_options fuel pkt lim (i + 1); Some ((0, 0) :: os)
        else if lim <? i + 2 then Some []
        else
          len ← M (b_data pkt + (i + 1));
          if lim <? i + 2 + len then Some []
          else os ← ipv6_options fuel pkt lim (i + 2 + len); Some ((t, len) :: os)
    end
  else Some [].

Definition for_each_ipv6_option (pkt : bytes) (start end_ : Z) : option (list (Z * Z)) :=
  let lim := if end_ <=? b_size pkt then end_ else b_size pkt in
  ipv6_options (Z.to_nat (lim - start)) pkt lim start.

Definition option_events (container : Z) (os : list (Z * Z)) : list event :=
  List.map (fun o => on_ipv6_option container o.1 o.2) os.

(** The segments of a routing header that fit before [end_], [n] of them left. *)
Fixpoint srh_segments (n : nat) (pkt : bytes) (srh_order i seg_base end_ : Z) : option (list event) :=
  match n with
  | O => Some []
  | S n =>
      let s := seg_base + i * 16 in
      if end_ <? s + 16 then Some []
      else
        addr ← copy_raw 16 M (b_data pkt + s);
        es ← srh_segments n pkt srh_order (i + 1) seg_base end_;
        Some (on_srh_segment srh_order (u8 i) addr :: es)
  end.

(** [for_each...]'s calls, or the bad read it made. *)
Definition calls_of (es : option (list event)) (w : walk) : walk :=
  match es with Some es => es ;;; w | None => WalkFault UB end.

(** The chain: [k] is given the protocol that ends it, its offset, and whether
    a layer-4 header is there. *)
Fixpoint ext_chain (guard : nat) (pkt : bytes) (nh off srh_order : Z) (k : Z -> Z -> bool -> walk) : walk :=
  match guard with
  | O => k nh off true
  | S guard =>
      if negb (is_ipv6_ext nh) then k nh off true
      else if b_size pkt <=? off then done_
      else
        let at_ := advance (from_bytes pkt) off in
        [on_offset off] ;;;
        if (nh =? 0) || (nh =? 60) then
          header Ipv6ExtOpt M at_ (fun h _ =>
            let hlen := (member Ipv6ExtOpt h "hdr_ext_len" + 1) * 8 in
            [on_ext_opt nh h] ;;;
            calls_of (option_events nh <$> for_each_ipv6_option pkt (off + 2) (off + hlen))
              (ext_chain guard pkt (member Ipv6ExtOpt h "next_header") (off + hlen) srh_order k))
        else if nh =? 43 then
          header Ipv6Srh M at_ (fun h _ =>
            let hlen := (member Ipv6Srh h "hdr_ext_len" + 1) * 8 in
            let end_ := if off + hlen <=? b_size pkt then off + hlen else b_size pkt in
            let seg_base := off + 8 in
            let nseg := member Ipv6Srh h "last_entry" + 1 in
            [on_srh h] ;;;
            calls_of (srh_segments (Z.to_nat nseg) pkt srh_order 0 seg_base end_)
              (calls_of (option_events 43 <$> for_each_ipv6_option pkt (seg_base + nseg * 16) end_)
                (ext_chain guard pkt (member Ipv6Srh h "next_header") (off + hlen) (u8 (srh_order + 1)) k)))
        else if nh =? 44 then
          header Ipv6Fragment M at_ (fun h _ =>
            [on_fragment h] ;;;
            if negb (Z.shiftr (member Ipv6Fragment h "offset_flags") 3 =? 0)
            then k (member Ipv6Fragment h "next_header") (off + 8) false
            else ext_chain guard pkt (member Ipv6Fragment h "next_header") (off + 8) srh_order k)
        else
          header Ipv6Ah M at_ (fun h _ =>
            [on_ah h] ;;;
            ext_chain guard pkt (member Ipv6Ah h "next_header") (off + (member Ipv6Ah h "payload_len" + 2) * 4) srh_order k)
  end.

(** The tail shared by both versions of IP. *)
Definition upper (pkt : bytes) (ip_proto after_l3_off : Z) (has_l4 : bool) : walk :=
  if negb has_l4 || (b_size pkt <? after_l3_off) then done_
  else [on_offset after_l3_off] ;;; layer4 ip_proto (advance (from_bytes pkt) after_l3_off).

Definition walk_packet_ext (link_type : Z) (pkt : bytes) : walk :=
  if negb (link_type =? kLinkTypeEthernet) then done_
  else
    let in_ := from_bytes pkt in
    header Ethernet M in_ (fun eth rest =>
      [on_offset (offset in_); on_eth eth] ;;;
      vlan_tags true (S (Z.to_nat (size rest))) (member Ethernet eth "ethertype") rest (fun ethertype cur =>
        [on_l2_done ethertype (offset cur)] ;;;
        if ethertype =? kEtherTypeIpv4 then
          header Ipv4 M cur (fun ip _ =>
            [on_offset (offset cur); on_ipv4 ip] ;;;
            let l3 := header_length (member Ipv4 ip "ihl") (wire_size Ipv4) in
            if size cur <? l3 then done_
            else upper pkt (member Ipv4 ip "protocol") (offset cur + l3) (member Ipv4 ip "frag_offset" =? 0))
        else if ethertype =? kEtherTypeIpv6 then
          header Ipv6 M cur (fun ip _ =>
            [on_offset (offset cur); on_ipv6 ip] ;;;
            ext_chain 64 pkt (member Ipv6 ip "next_header") (offset cur + wire_size Ipv6) 0 (upper pkt))
        else done_)).
End Walk.
