(* ===== verification/WalkSpecs.v ===== *)
(** * The packet walk: what it calls

    A state machine over the bytes of a packet says which layer is where;
    [walk_packet_ext] makes exactly the calls of its run, [walk_packet] those of
    them that concern it. *)
From S2P Require Import Prelude Parser BytesParsers Combinators CombinatorFacts Numbers Bits Reflect ReflectFacts Emit EmitSpecs StructSpecs Members Walk.

(** ** The reference machine *)
Inductive layer :=
| Begin
| Tags (ethertype q : Z)
| Network (ethertype q : Z)
| Chain (guard : nat) (nh q order : Z)
| Extension (guard : nat) (nh q order : Z)
| Transport (proto q : Z)
| Upper (proto q : Z)
| Finished (res : WalkResult).

Section Machine.
Context (l : list Z).

(** The header at [q], and whether the packet holds all of it. *)
Definition hdr (fs : list (string * field_type)) (q : Z) : value := VList (values_at native (slice l q (wire_size fs)) fs 0).
Definition fits_at (fs : list (string * field_type)) (q : Z) : bool := q + wire_size fs <=? zlen l.

(** RFC 8200's options: Pad1, or type, length and value. *)
Inductive options_at (lim : Z) : Z -> list (Z * Z) -> Prop :=
| opts_end i : lim <= i -> options_at lim i []
| opts_cut i t len : zget l i = Some t -> t <> 0 -> (i + 2 <= lim -> zget l (i + 1) = Some len) -> lim < i + 2 + len -> 0 <= len -> options_at lim i []
| opts_pad i os : i < lim -> zget l i = Some 0 -> options_at lim (i + 1) os -> options_at lim i ((0, 0) :: os)
| opts_tlv i t len os : zget l i = Some t -> t <> 0 -> zget l (i + 1) = Some len -> i + 2 + len <= lim ->
    options_at lim (i + 2 + len) os -> options_at lim i ((t, len) :: os).

(** The segments of a routing header at [base], from number [i] on, that end
    before [lim]. *)
Fixpoint segments_at (n : nat) (order i base lim : Z) : list event :=
  match n with
  | O => []
  | S n => if lim <? base + i * 16 + 16 then []
           else on_srh_segment order (u8 i) (slice l (base + i * 16) 16) :: segments_at n order (i + 1) base lim
  end.

Inductive next : layer -> list event -> layer -> Prop :=
| next_eth : fits_at Ethernet 0 = true ->
    next Begin [on_offset 0; on_eth (hdr Ethernet 0)] (Tags (member Ethernet (hdr Ethernet 0) "ethertype") 14)
| next_vlan e q : e = kEtherTypeVlan \/ e = kEtherTypeQinQ -> fits_at VlanTag q = true ->
    next (Tags e q) [on_offset q; on_vlan (hdr VlanTag q)] (Tags (member VlanTag (hdr VlanTag q) "inner_ethertype") (q + 4))
| next_l2 e q : e <> kEtherTypeVlan -> e <> kEtherTypeQinQ -> next (Tags e q) [on_l2_done e q] (Network e q)
| next_ipv4 q : fits_at Ipv4 q = true -> let v := hdr Ipv4 q in
    let l3 := header_length (member Ipv4 v "ihl") 20 in
    next (Network kEtherTypeIpv4 q) [on_offset q; on_ipv4 v]
      (if (q + l3 <=? zlen l) && (member Ipv4 v "frag_offset" =? 0) then Transport (member Ipv4 v "protocol") (q + l3) else Finished no_result)
| next_ipv6 q : fits_at Ipv6 q = true -> let v := hdr Ipv6 q in
    next (Network kEtherTypeIpv6 q) [on_offset q; on_ipv6 v] (Chain 64 (member Ipv6 v "next_header") (q + 40) 0)
| next_chain g nh q order : is_ipv6_ext nh = true -> q < zlen l ->
    next (Chain (S g) nh q order) [on_offset q] (Extension g nh q order)
| next_chain_end g nh q order : is_ipv6_ext nh = false \/ g = O -> q <= zlen l ->
    next (Chain g nh q order) [] (Transport nh q)
| next_options g nh q order os : nh = 0 \/ nh = 60 -> fits_at Ipv6ExtOpt q = true -> let v := hdr Ipv6ExtOpt q in
    let hlen := (member Ipv6ExtOpt v "hdr_ext_len" + 1) * 8 in
    options_at (Z.min (q + hlen) (zlen l)) (q + 2) os ->
    next (Extension g nh q order) (on_ext_opt nh v :: option_events nh os)
      (Chain g (member Ipv6ExtOpt v "next_header") (q + hlen) order)
| next_routing g q order os : fits_at Ipv6Srh q = true -> let v := hdr Ipv6Srh q in
    let hlen := (member Ipv6Srh v "hdr_ext_len" + 1) * 8 in
    let lim := Z.min (q + hlen) (zlen l) in
    let nseg := member Ipv6Srh v "last_entry" + 1 in
    options_at lim (q + 8 + nseg * 16) os ->
    next (Extension g 43 q order) (on_srh v :: segments_at (Z.to_nat nseg) order 0 (q + 8) lim ++ option_events 43 os)
      (Chain g (member Ipv6Srh v "next_header") (q + hlen) (u8 (order + 1)))
| next_fragment g q order : fits_at Ipv6Fragment q = true -> let v := hdr Ipv6Fragment q in
    next (Extension g 44 q order) [on_fragment v]
      (if member Ipv6Fragment v "offset_flags" / 8 =? 0 then Chain g (member Ipv6Fragment v "next_header") (q + 8) order
       else Finished no_result)
| next_ah g q order : fits_at Ipv6Ah q = true -> let v := hdr Ipv6Ah q in
    next (Extension g 51 q order) [on_ah v]
      (Chain g (member Ipv6Ah v "next_header") (q + (member Ipv6Ah v "payload_len" + 2) * 4) order)
| next_transport p q : next (Transport p q) [on_offset q] (Upper p q)
| next_tcp q : fits_at Tcp q = true -> let v := hdr Tcp q in
    next (Upper kIpProtoTcp q) [on_tcp v]
      (Finished (MkWalkResult (q + header_length (member Tcp v "data_offset") 20) (ports Tcp v) true))
| next_udp q : fits_at Udp q = true -> let v := hdr Udp q in
    next (Upper kIpProtoUdp q) [on_udp v] (Finished (MkWalkResult (q + 8) (ports Udp v) true)).

(** Steps until none is possible. *)
Inductive run : layer -> list event -> WalkResult -> Prop :=
| run_step s es s' es' res : next s es s' -> run s' es' res -> run s (es ++ es') res
| run_finished res : run (Finished res) [] res
| run_stuck s : (forall res, s <> Finished res) -> (forall es s', ~ next s es s') -> run s [] no_result.
End Machine.

(** ** Headers *)
Lemma byte_member_range l q n a fs i name : bytes_ok l -> 0 <= q -> 0 <= n -> q + n <= zlen l -> 0 <= a -> a + 1 <= n ->
  field_index fs name = Some i -> fs !! i = Some (name, byte_field) -> field_bit_offsets fs !! i = Some (8 * a) ->
  0 <= member fs (VList (values_at native (slice l q n) fs 0)) name < 256.
Proof.
  intros Hl Hq Hn Hz Ha Han Hi Hf Ho. erewrite member_at by eassumption. rewrite scalar_of_plain.
  replace (8 * a / 8) with a by (Z.div_mod_to_equations; lia). rewrite slice_slice by lia.
  apply (uint_slice_range native l (q + a) 1); done || lia.
Qed.

Lemma ext_cases nh : is_ipv6_ext nh = true -> nh = 0 \/ nh = 43 \/ nh = 44 \/ nh = 60 \/ nh = 51.
Proof. unfold is_ipv6_ext. rewrite !orb_true_iff, !Z.eqb_eq. tauto. Qed.

Section Refine.
Context (M : memory) (pkt : bytes) (l : list Z).
Context (Hh : holds M (b_data pkt) l) (Hn : b_size pkt = zlen l) (Hl : bytes_ok l) (Hlt : zlen l < 2 ^ 60).
Let cur := cursor pkt.

Definition runs (s : layer) (w : walk) : Prop := exists calls res, w = Walked calls res /\ run l s calls res.

Lemma runs_step s es s' w : next l s es s' -> runs s' w -> runs s (after es w).
Proof using. intros Hs (calls & res & -> & Hr). exists (es ++ calls), res. split; [done|]. by econstructor. Qed.

Lemma after_after es es' w : after es (after es' w) = after (es ++ es') w.
Proof using. destruct w; cbn; [by rewrite app_assoc|done]. Qed.

Lemma runs_silent s s' w : next l s [] s' -> runs s' w -> runs s w.
Proof using. intros Hs (calls & res & -> & Hr). exists calls, res. split; [done|]. by apply (run_step l s [] s' calls res). Qed.

Lemma runs_stuck s : (forall res, s <> Finished res) -> (forall es s', ~ next l s es s') -> runs s done_.
Proof using. intros H1 H2. exists [], no_result. split; [done|]. by apply run_stuck. Qed.

Lemma runs_finished res : runs (Finished res) (Walked [] res).
Proof using. exists [], res. split; [done|constructor]. Qed.

(** The machine cannot go on from the state of the goal. *)
Ltac stuck := apply runs_stuck; [done|let H := fresh in intros ? ? H; inversion H; subst;
  repeat match goal with D : _ \/ _ |- _ => destruct D end; congruence || lia || done].

Lemma header_at fs k q : described fs = true -> 0 <= q <= zlen l ->
  header fs M (cur q) k = if fits_at l fs q then k (hdr l fs q) (cur (q + wire_size fs)) else done_.
Proof using All.
  intros Hfs Hq. unfold header, fits_at. destruct (Z.leb_spec (q + wire_size fs) (zlen l)).
  - unfold cur. rewrite (strct_cursor M pkt l Hh Hn Hl Hlt fs native Hfs) by lia. done.
  - destruct (strct_short M pkt l Hn Hlt fs native q Hq ltac:(lia)) as [e He]. unfold cur. by rewrite He.
Qed.

Lemma fits_at_true fs q : fits_at l fs q = true -> q + wire_size fs <= zlen l.
Proof using. unfold fits_at. by rewrite Z.leb_le. Qed.

Lemma layer4_runs p q : 0 <= q <= zlen l -> runs (Upper p q) (layer4 M p (cur q)).
Proof using All.
  intros Hq. unfold layer4. destruct (Z.eqb_spec p kIpProtoTcp) as [->|Hp1].
  - rewrite header_at by done. destruct (fits_at l Tcp q) eqn:Ef; [|stuck].
    eapply runs_step; [by apply next_tcp|]. unfold cur. rewrite (cursor_offset pkt l Hn Hlt) by lia. apply runs_finished.
  - destruct (Z.eqb_spec p kIpProtoUdp) as [->|Hp2]; [|stuck].
    rewrite header_at by done. destruct (fits_at l Udp q) eqn:Ef; [|stuck]. pose proof (fits_at_true _ _ Ef) as Hf.
    eapply runs_step; [by apply next_udp|]. change (wire_size Udp) with 8 in *. unfold cur. rewrite (cursor_offset pkt l Hn Hlt) by lia. apply runs_finished.
Qed.

Lemma transport_runs p q : 0 <= q <= zlen l -> runs (Transport p q) ([on_offset q] ;;; layer4 M p (cur q)).
Proof using All. intros Hq. eapply runs_step; [apply next_transport|]. by apply layer4_runs. Qed.

(** ** Options and segments *)
Lemma byte_at i : 0 <= i < zlen l -> exists b, M (b_data pkt + i) = Some b /\ zget l i = Some b /\ is_byte b.
Proof using Hh Hl.
  intros Hi. destruct (proj2 (zget_is_Some l i) Hi) as [b Hb]. exists b. split; [|split; [done|by eapply zget_byte]].
  pose proof (holds_slice M (b_data pkt) l i 1 ltac:(lia) ltac:(lia) ltac:(lia) Hh) as Hs.
  unfold slice in Hs. unfold zget in Hb. destruct (Z.ltb_spec i 0); [lia|]. unfold zdrop, ztake in Hs.
  rewrite (drop_S l b (Z.to_nat i) Hb) in Hs. change (Z.to_nat 1) with 1%nat in Hs. cbn in Hs. tauto.
Qed.

Lemma ipv6_options_runs n lim : lim <= zlen l -> forall i, 0 <= i -> lim - i <= Z.of_nat n ->
  exists os, ipv6_options M n pkt lim i = Some os /\ options_at l lim i os.
Proof using All.
  intros Hlim. induction n as [|n IH]; intros i Hi Hf; cbn [ipv6_options].
  - destruct (Z.ltb_spec i lim); [lia|]. exists []. split; [done|by constructor].
  - destruct (Z.ltb_spec i lim); [|exists []; split; [done|by constructor]].
    destruct (byte_at i ltac:(lia)) as (t & -> & Ht & _). cbn [mbind option_bind].
    destruct (Z.eqb_spec t 0) as [->|Hne].
    { destruct (IH (i + 1) ltac:(lia) ltac:(lia)) as (os & -> & Ho). eexists. split; [done|]. by constructor. }
    destruct (Z.ltb_spec lim (i + 2)).
    { exists []. split; [done|]. apply (opts_cut l lim i t 0); done || lia. }
    destruct (byte_at (i + 1) ltac:(lia)) as (len & -> & Hb & Hlen). cbn [mbind option_bind]. red in Hlen.
    destruct (Z.ltb_spec lim (i + 2 + len)).
    { exists []. split; [done|]. apply (opts_cut l lim i t len); done || lia. }
    destruct (IH (i + 2 + len) ltac:(lia) ltac:(lia)) as (os & -> & Ho). eexists. split; [done|]. by apply (opts_tlv l lim i t len).
Qed.

Lemma for_each_runs start end_ : 0 <= start -> exists os,
  for_each_ipv6_option M pkt start end_ = Some os /\ options_at l (Z.min end_ (zlen l)) start os.
Proof using All.
  intros Hs. unfold for_each_ipv6_option. rewrite Hn.
  replace (if end_ <=? zlen l then end_ else zlen l) with (Z.min end_ (zlen l)) by (destruct (Z.leb_spec end_ (zlen l)); lia).
  apply ipv6_options_runs; lia.
Qed.

Lemma srh_segments_at n order base lim : 0 <= base -> lim <= zlen l -> forall i, 0 <= i ->
  srh_segments M n pkt order i base lim = Some (segments_at l n order i base lim).
Proof using All.
  intros Hb Hlim. induction n as [|n IH]; intros i Hi; cbn [srh_segments segments_at]; [done|].
  destruct (Z.ltb_spec lim (base + i * 16 + 16)); [done|].
  pose proof (holds_slice M (b_data pkt) l (base + i * 16) 16 ltac:(lia) ltac:(lia) ltac:(lia) Hh) as Hs.
  pose proof (copy_raw_spec M _ _ Hs) as Hc. replace (length (slice l (base + i * 16) 16)) with 16%nat in Hc
    by (pose proof (zlen_slice l (base + i * 16) 16 ltac:(lia) ltac:(lia) ltac:(lia)) as Hz; unfold zlen in Hz; lia).
  rewrite Hc. cbn [mbind option_bind]. rewrite IH by lia. done.
Qed.

(** ** The chain and the whole walk *)
Lemma upper_runs p q : 0 <= q <= zlen l -> runs (Transport p q) (upper M pkt p q true).
Proof using All. intros Hq. unfold upper. rewrite Hn. cbn [negb orb]. destruct (Z.ltb_spec (zlen l) q); [lia|]. by apply transport_runs. Qed.

Lemma upper_past p q b : zlen l < q -> upper M pkt p q b = done_.
Proof using Hn. intros Hq. unfold upper. rewrite Hn. destruct (Z.ltb_spec (zlen l) q); [by rewrite orb_true_r|lia]. Qed.

(** The chain ends at [q]: the upper layer, if the packet reaches that far. *)
Lemma chain_end_runs g nh q order : 0 <= q -> is_ipv6_ext nh = false \/ g = O -> runs (Chain g nh q order) (upper M pkt nh q true).
Proof using All.
  intros Hq He. destruct (Z.le_gt_cases q (zlen l)).
  - eapply runs_silent; [by apply next_chain_end|]. by apply upper_runs.
  - rewrite upper_past by lia. apply runs_stuck; [done|]. intros es s' Hs. inversion Hs; subst; try lia.
Qed.

Lemma ext_member_range fs q i name a : fits_at l fs q = true -> 0 <= q -> 0 <= a -> a + 1 <= wire_size fs ->
  field_index fs name = Some i -> fs !! i = Some (name, byte_field) -> field_bit_offsets fs !! i = Some (8 * a) ->
  0 <= member fs (hdr l fs q) name < 256.
Proof using Hl.
  intros Hf Hq Ha Han. apply fits_at_true in Hf. intros. unfold hdr. eapply (byte_member_range l q (wire_size fs) a fs); done || lia.
Qed.

Lemma ext_chain_runs g : forall nh q order, 0 <= q -> runs (Chain g nh q order) (ext_chain M g pkt nh q order (upper M pkt)).
Proof using All.
  induction g as [|g IH]; intros nh q order Hq; cbn [ext_chain]; [by apply chain_end_runs; [|right]|].
  destruct (is_ipv6_ext nh) eqn:Ex; cbn [negb]; [|by apply chain_end_runs; [|left]].
  rewrite Hn. destruct (Z.leb_spec (zlen l) q); [stuck|].
  eapply runs_step; [by apply next_chain; [|lia]|]. fold (cursor pkt q). fold (cur q).
  apply ext_cases in Ex as [->|[->|[->|[->| ->]]]]; cbn [Z.eqb orb Pos.eqb]; rewrite header_at by (done || lia).
  - destruct (fits_at l Ipv6ExtOpt q) eqn:Ef; [|stuck].
    assert (Hm : 0 <= member Ipv6ExtOpt (hdr l Ipv6ExtOpt q) "hdr_ext_len" < 256) by (apply (ext_member_range Ipv6ExtOpt q 1 "hdr_ext_len" 1); done).
    destruct (for_each_runs (q + 2) (q + (member Ipv6ExtOpt (hdr l Ipv6ExtOpt q) "hdr_ext_len" + 1) * 8) ltac:(lia)) as (os & E & Ho).
    rewrite E. cbn [option_fmap option_map fmap calls_of]. rewrite after_after. cbn [app].
    eapply runs_step; [apply next_options; [by left|done|exact Ho]|]. apply IH. lia.
  - destruct (fits_at l Ipv6Srh q) eqn:Ef; [|stuck]. pose proof (fits_at_true _ _ Ef) as Hf. change (wire_size Ipv6Srh) with 8 in Hf.
    assert (Hm : 0 <= member Ipv6Srh (hdr l Ipv6Srh q) "hdr_ext_len" < 256) by (apply (ext_member_range Ipv6Srh q 1 "hdr_ext_len" 1); done).
    assert (Hm' : 0 <= member Ipv6Srh (hdr l Ipv6Srh q) "last_entry" < 256) by (apply (ext_member_range Ipv6Srh q 4 "last_entry" 4); done).
    set (v := hdr l Ipv6Srh q) in *. set (hlen := (member Ipv6Srh v "hdr_ext_len" + 1) * 8).
    replace (if q + hlen <=? zlen l then q + hlen else zlen l) with (Z.min (q + hlen) (zlen l)) by (destruct (Z.leb_spec (q + hlen) (zlen l)); lia).
    rewrite srh_segments_at by lia. cbn [calls_of].
    destruct (for_each_runs (q + 8 + (member Ipv6Srh v "last_entry" + 1) * 16) (Z.min (q + hlen) (zlen l)) ltac:(lia)) as (os & E & Ho).
    rewrite E. cbn [option_fmap option_map fmap calls_of]. rewrite !after_after. cbn [app].
    rewrite Z.min_l in Ho by lia. eapply runs_step; [apply next_routing; done|]. apply IH. lia.
  - destruct (fits_at l Ipv6Fragment q) eqn:Ef; [|stuck].
    eapply runs_step; [by apply next_fragment|]. rewrite Z.shiftr_div_pow2 by lia. change (2 ^ 3) with 8.
    destruct (_ =? 0); cbn [negb]; [apply IH; lia|apply runs_finished].
  - destruct (fits_at l Ipv6ExtOpt q) eqn:Ef; [|stuck].
    assert (Hm : 0 <= member Ipv6ExtOpt (hdr l Ipv6ExtOpt q) "hdr_ext_len" < 256) by (apply (ext_member_range Ipv6ExtOpt q 1 "hdr_ext_len" 1); done).
    destruct (for_each_runs (q + 2) (q + (member Ipv6ExtOpt (hdr l Ipv6ExtOpt q) "hdr_ext_len" + 1) * 8) ltac:(lia)) as (os & E & Ho).
    rewrite E. cbn [option_fmap option_map fmap calls_of]. rewrite after_after. cbn [app].
    eapply runs_step; [apply next_options; [by right|done|exact Ho]|]. apply IH. lia.
  - destruct (fits_at l Ipv6Ah q) eqn:Ef; [|stuck].
    assert (Hm : 0 <= member Ipv6Ah (hdr l Ipv6Ah q) "payload_len" < 256) by (apply (ext_member_range Ipv6Ah q 1 "payload_len" 1); done).
    eapply runs_step; [by apply next_ah|]. apply IH. lia.
Qed.

Lemma network_runs e q : 0 <= q <= zlen l ->
  runs (Network e q)
    (if e =? kEtherTypeIpv4 then
       header Ipv4 M (cur q) (fun ip _ =>
         [on_offset (offset (cur q)); on_ipv4 ip] ;;;
         let l3 := header_length (member Ipv4 ip "ihl") (wire_size Ipv4) in
         if size (cur q) <? l3 then done_
         else upper M pkt (member Ipv4 ip "protocol") (offset (cur q) + l3) (member Ipv4 ip "frag_offset" =? 0))
     else if e =? kEtherTypeIpv6 then
       header Ipv6 M (cur q) (fun ip _ =>
         [on_offset (offset (cur q)); on_ipv6 ip] ;;;
         ext_chain M 64 pkt (member Ipv6 ip "next_header") (offset (cur q) + wire_size Ipv6) 0 (upper M pkt))
     else done_).
Proof using All.
  intros Hq. unfold cur. rewrite (cursor_offset pkt l Hn Hlt), (cursor_size pkt l Hn Hlt) by lia. fold (cur q).
  destruct (Z.eqb_spec e kEtherTypeIpv4) as [->|H4].
  - rewrite header_at by done. destruct (fits_at l Ipv4 q) eqn:Ef; [|stuck].
    eapply runs_step; [by apply next_ipv4|]. change (wire_size Ipv4) with 20. set (l3 := header_length _ 20).
    assert (0 <= l3) by (unfold l3, header_length; destruct (Z.leb_spec 20 (member Ipv4 (hdr l Ipv4 q) "ihl" * 4)); lia).
    destruct (Z.ltb_spec (zlen l - q) l3), (Z.leb_spec (q + l3) (zlen l)); try lia; cbn [andb]; [apply runs_finished|].
    destruct (_ =? 0); [apply upper_runs; lia|]. apply runs_finished.
  - destruct (Z.eqb_spec e kEtherTypeIpv6) as [->|H6]; [|stuck].
    rewrite header_at by done. destruct (fits_at l Ipv6 q) eqn:Ef; [|stuck].
    eapply runs_step; [by apply next_ipv6|]. change (wire_size Ipv6) with 40. apply ext_chain_runs. lia.
Qed.

Lemma tags_runs k n : (forall e q, 0 <= q <= zlen l -> runs (Network e q) (k e (cur q))) ->
  forall e q, 0 <= q <= zlen l -> zlen l - q < Z.of_nat n ->
  runs (Tags e q) (vlan_tags M true n e (cur q) (fun e c => [on_l2_done e (offset c)] ;;; k e c)).
Proof using All.
  intros Hk. induction n as [|n IH]; intros e q Hq Hf; [lia|]. cbn [vlan_tags].
  destruct (_ || _) eqn:Ev.
  - rewrite orb_true_iff, !Z.eqb_eq in Ev. rewrite header_at by done.
    destruct (fits_at l VlanTag q) eqn:Ef; [|stuck]. pose proof (fits_at_true _ _ Ef) as Hf'. change (wire_size VlanTag) with 4 in *.
    unfold cur at 1. rewrite (cursor_offset pkt l Hn Hlt) by lia. eapply runs_step; [by apply next_vlan|]. apply IH; lia.
  - rewrite orb_false_iff, !Z.eqb_neq in Ev. destruct Ev as [Ev1 Ev2]. unfold cur at 1. rewrite (cursor_offset pkt l Hn Hlt) by lia.
    eapply runs_step; [by apply next_l2|]. by apply Hk.
Qed.
End Refine.

Lemma walk_runs M pkt l : holds M (b_data pkt) l -> b_size pkt = zlen l -> bytes_ok l -> zlen l < 2 ^ 60 ->
  exists calls res, walk_packet_ext M kLinkTypeEthernet pkt = Walked calls res /\ run l Begin calls res.
Proof.
  intros Hh Hn Hl Hlt. pose proof (zlen_nonneg l). change (runs l Begin (walk_packet_ext M kLinkTypeEthernet pkt)).
  unfold walk_packet_ext. rewrite Z.eqb_refl. cbn [negb]. rewrite (cursor_0 pkt), (cursor_offset pkt l Hn Hlt) by lia.
  rewrite (header_at M pkt l Hh Hn Hl Hlt) by (done || lia). destruct (fits_at l Ethernet 0) eqn:Ef.
  - eapply runs_step; [by apply next_eth|]. apply fits_at_true in Ef. change (wire_size Ethernet) with 14 in *.
    apply (tags_runs M pkt l Hh Hn Hl Hlt (fun e c => _)); [|lia|rewrite (cursor_size pkt l Hn Hlt) by lia; lia].
    intros e q Hq. by apply network_runs.
  - apply runs_stuck; [done|]. intros es s' Hs. inversion Hs; congruence.
Qed.

(** C33: over any bytes of an Ethernet packet [walk_packet_ext] returns (no bad
    read, both loops end), and its calls are those of the reference machine's
    run: each header is the decoded bytes at the offset announced before it,
    layers follow one another where the one before ends, options and segments
    are those that fit their header, and the run stops only where the packet
    has no further layer the walk knows. *)
Theorem walk_packet_ext_runs M pkt l : holds M (b_data pkt) l -> b_size pkt = zlen l -> bytes_ok l -> zlen l < 2 ^ 60 ->
  exists calls res, walk_packet_ext M kLinkTypeEthernet pkt = Walked calls res /\ run l Begin calls res.
Proof. apply walk_runs. Qed.

(** ** The walk without extension headers *)

(** The calls [walk_packet] knows. *)
Definition base_call (e : event) : bool :=
  match e with on_eth _ | on_vlan _ | on_ipv4 _ | on_ipv6 _ | on_tcp _ | on_udp _ => true | _ => false end.

Definition base_calls (es : list event) : list event := List.filter base_call es.

(** No IPv6 header among the calls announces an extension header. *)
Definition no_extension (es : list event) : Prop :=
  forall v, In (on_ipv6 v) es -> is_ipv6_ext (member Ipv6 v "next_header") = false.

Definition walks_agree (w w' : walk) : Prop :=
  exists es res es' res', w = Walked es res /\ w' = Walked es' res' /\ es `prefix_of` base_calls es' /\
    (no_extension es' -> es = base_calls es' /\ res = res').

Lemma agree_after es es' w w' : es = base_calls es' -> walks_agree w w' -> walks_agree (after es w) (after es' w').
Proof.
  intros -> (c & r & c' & r' & -> & -> & Hp & He). unfold after. exists (base_calls es' ++ c), r, (es' ++ c'), r'.
  unfold base_calls in *. rewrite List.filter_app. split_and!; [done|done|by apply prefix_app|].
  intros Hx. destruct He as [-> ->]; [|done]. intros v Hv. apply Hx, in_or_app. by right.
Qed.

Lemma agree_refl w : (exists es res, w = Walked es res /\ base_calls es = es) -> walks_agree w w.
Proof. intros (es & res & -> & He). exists es, res, es, res. by rewrite He. Qed.

Lemma ext_chain_end M g pkt nh q order k : is_ipv6_ext nh = false -> ext_chain M g pkt nh q order k = k nh q true.
Proof. intros Hx. destruct g as [|g]; cbn [ext_chain]; [done|]. by rewrite Hx. Qed.

Section Agree.
Context (M : memory) (pkt : bytes) (l : list Z).
Context (Hh : holds M (b_data pkt) l) (Hn : b_size pkt = zlen l) (Hl : bytes_ok l) (Hlt : zlen l < 2 ^ 60).
Let cur := cursor pkt.
Let header_at := header_at M pkt l Hh Hn Hl Hlt.

Lemma agree_header fs k k' q : described fs = true -> 0 <= q <= zlen l ->
  (q + wire_size fs <= zlen l -> walks_agree (k (hdr l fs q) (cur (q + wire_size fs))) (k' (hdr l fs q) (cur (q + wire_size fs)))) ->
  walks_agree (header fs M (cur q) k) (header fs M (cur q) k').
Proof using All.
  intros Hfs Hq Hk. unfold cur. rewrite !header_at by done. destruct (fits_at l fs q) eqn:Ef; [|by apply agree_refl; eexists _, _].
  apply Hk. by apply fits_at_true.
Qed.

Lemma layer4_agrees p q : 0 <= q <= zlen l -> walks_agree (layer4 M p (cur q)) (layer4 M p (cur q)).
Proof using All.
  intros Hq. unfold layer4. destruct (p =? kIpProtoTcp); [|destruct (p =? kIpProtoUdp)];
    [apply agree_header; [done|done|intros _; apply agree_refl; by eexists _, _]..|apply agree_refl; by eexists _, _].
Qed.

Lemma upper_agrees p q : 0 <= q <= zlen l -> walks_agree (layer4 M p (cur q)) (upper M pkt p q true).
Proof using All.
  intros Hq. unfold upper. rewrite Hn. cbn [negb orb]. destruct (Z.ltb_spec (zlen l) q); [lia|].
  change (layer4 M p (cur q)) with (layer4 M p (cur q)) at 1.
  assert (layer4 M p (cur q) = after [] (layer4 M p (cur q))) as E by (by destruct (layer4 M p (cur q))).
  rewrite E at 1. apply agree_after; [done|]. by apply layer4_agrees.
Qed.

(** After an IPv6 header: when an extension header follows, [walk_packet] is
    done. *)
Lemma chain_agrees v q : 0 <= q <= zlen l ->
  walks_agree ([on_ipv6 v] ;;; layer4 M (member Ipv6 v "next_header") (cur q))
    ([on_offset (q - 40); on_ipv6 v] ;;; ext_chain M 64 pkt (member Ipv6 v "next_header") q 0 (upper M pkt)).
Proof using All.
  intros Hq. set (nh := member Ipv6 v "next_header"). destruct (is_ipv6_ext nh) eqn:Ex.
  - destruct (ext_chain_runs M pkt l Hh Hn Hl Hlt 64 nh q 0 ltac:(lia)) as (es & res & E & _). rewrite E.
    assert (layer4 M nh (cur q) = done_) as -> by (apply ext_cases in Ex as [->|[->|[->|[->| ->]]]]; done).
    eexists _, _, _, _. split; [done|]. split; [done|]. split; [by exists (base_calls es)|].
    intros Hx. exfalso. specialize (Hx v). fold nh in Hx. rewrite Ex in Hx. discriminate Hx. right. by left.
  - apply agree_after; [done|]. assert (ext_chain M 64 pkt nh q 0 (upper M pkt) = upper M pkt nh q true) as -> by (by apply ext_chain_end).
    by apply upper_agrees.
Qed.

Lemma tags_agree k k' n : (forall e q, 0 <= q <= zlen l -> walks_agree (k e (cur q)) (k' e (cur q))) ->
  forall e q, 0 <= q <= zlen l -> zlen l - q < Z.of_nat n ->
  walks_agree (vlan_tags M false n e (cur q) k) (vlan_tags M true n e (cur q) k').
Proof using All.
  intros Hk. induction n as [|n IH]; intros e q Hq Hf; [lia|]. cbn [vlan_tags].
  destruct (_ || _); [|by apply Hk]. apply agree_header; [done|done|]. change (wire_size VlanTag) with 4. intros Hz.
  apply agree_after; [done|]. apply IH; lia.
Qed.
End Agree.

(** C34: on every packet [walk_packet] makes the first of the calls
    [walk_packet_ext] makes (offsets and layer ends aside), all of them with the
    same result unless an IPv6 extension header follows, where it stops. *)
Theorem walk_packet_agrees M pkt l link : holds M (b_data pkt) l -> b_size pkt = zlen l -> bytes_ok l -> zlen l < 2 ^ 60 ->
  walks_agree (walk_packet M link pkt) (walk_packet_ext M link pkt).
Proof.
  intros Hh Hn Hl Hlt. pose proof (zlen_nonneg l). unfold walk_packet, walk_packet_ext.
  destruct (negb _); [by apply agree_refl; eexists _, _|]. rewrite (cursor_0 pkt), (cursor_offset pkt l Hn Hlt) by lia.
  apply (agree_header M pkt l Hh Hn Hl Hlt); [done|lia|]. change (wire_size Ethernet) with 14. intros Hz.
  apply agree_after; [done|]. apply (tags_agree M pkt l Hh Hn Hl Hlt); [|lia|rewrite (cursor_size pkt l Hn Hlt) by lia; lia].
  intros e q Hq. change (walks_agree ?w (after ?es ?w')) with (walks_agree w (after es w')).
  match goal with |- walks_agree ?w _ => assert (w = after [] w) as -> by (by destruct w) end. apply agree_after; [done|].
  rewrite (cursor_offset pkt l Hn Hlt), (cursor_size pkt l Hn Hlt) by lia.
  destruct (e =? kEtherTypeIpv4); [|destruct (e =? kEtherTypeIpv6); [|by apply agree_refl; eexists _, _]];
    apply (agree_header M pkt l Hh Hn Hl Hlt); try done; intros Hz'.
  - apply agree_after; [done|]. cbv zeta. destruct (Z.ltb_spec (zlen l - q) (header_length (member Ipv4 (hdr l Ipv4 q) "ihl") (wire_size Ipv4)));
      [by apply agree_refl; eexists _, _|]. destruct (_ =? 0).
    + rewrite cursor_advance. apply (upper_agrees M pkt l Hh Hn Hl Hlt).
      change (wire_size Ipv4) with 20 in *. unfold header_length in *. destruct (Z.leb_spec 20 (member Ipv4 (hdr l Ipv4 q) "ihl" * 4)); lia.
    + by apply agree_refl; eexists _, _.
  - change (wire_size Ipv6) with 40 in *. pose proof (chain_agrees M pkt l Hh Hn Hl Hlt (hdr l Ipv6 q) (q + 40) ltac:(lia)) as Hc.
    by replace (q + 40 - 40) with q in Hc by lia.
Qed.
