(* ===== verification/Protocol.v ===== *)
(** * Protocols, triggers and dispatch (nanom_shark/protocol.hpp, l4_dispatch.hpp)

    What the walk has decoded at a dispatch point, the trigger predicates, the
    tables rows are pushed into, and the one dispatch over the list of
    registered protocols. A protocol's [parse] is client code: a function of
    the context, the payload and the world it updates (every table, and the
    protocols' own states, of type [U]). No JSON sink is attached. *)
From stdpp Require Import gmap.
From S2P Require Import Prelude Parser BytesParsers Combinators Numbers Reflect Segmented Emit Members Defrag Walk.

(** ** Options and context *)
Record DecodeOptions := MkOptions {
  decode_l2l3 : bool;
  decode_defrag : bool;
  ipv4_defrag : Config;
  ipv6_defrag : Config;
  someip_ports : list Z;
  someip_tlv_ports : list Z
}.
Definition default_options : DecodeOptions := MkOptions true true default_config default_config [30490] [].

Inductive dispatch_layer := eth_payload | l4_payload.

Record decode_ctx := MkCtx {
  c_opts : option DecodeOptions;
  c_packet_id : Z;
  c_datagram_id : Z;
  c_is_reassembled : bool;
  c_link_type : Z;
  c_ethertype : Z;
  c_ip_version : Z;
  c_ip_proto : Z;
  c_src_port : Z;
  c_dst_port : Z;
  c_pkt : bytes;
  c_vlan_count : Z;
  c_l2_end : Z;
  c_l3_end : Z;
  c_l4_end : Z
}.

Definition no_bytes : bytes := Bytes nullptr 0 None 0.

Definition subspan (b : bytes) (off n : Z) : bytes := Bytes (b_data b + off) n (b_arena b) (b_gen b).

Definition eth_payload_bytes (c : decode_ctx) : bytes :=
  if c_l2_end c <=? b_size (c_pkt c) then subspan (c_pkt c) (c_l2_end c) (b_size (c_pkt c) - c_l2_end c) else no_bytes.

(** ** Triggers *)
Definition port_in (v : list Z) (a b : Z) : bool := bool_decide (a ∈ v) || bool_decide (b ∈ v).

Inductive trigger :=
| ethertype_is (e : Z)
| ip_proto_is (p : Z)
| link_type_is (t : Z)
| udp_port (ports : list Z)
| tcp_port (ports : list Z)
| udp_port_cfg (mem : DecodeOptions -> list Z)
| opt_enabled (mem : DecodeOptions -> bool)
| never
| always
| all_of (ts : list trigger)
| any_of (ts : list trigger)
| not_trigger (t : trigger).

(** [(... || (c.src_port == Ports || c.dst_port == Ports))] *)
Definition any_port (c : decode_ctx) (ports : list Z) : bool :=
  existsb (fun p => (c_src_port c =? p) || (c_dst_port c =? p)) ports.

Fixpoint match_ (t : trigger) (c : decode_ctx) : bool :=
  match t with
  | ethertype_is e => c_ethertype c =? e
  | ip_proto_is p => c_ip_proto c =? p
  | link_type_is l => c_link_type c =? l
  | udp_port ports => (c_ip_proto c =? kIpProtoUdp) && any_port c ports
  | tcp_port ports => (c_ip_proto c =? kIpProtoTcp) && any_port c ports
  | udp_port_cfg mem =>
      match c_opts c with
      | None => false
      | Some o => if negb (c_ip_proto c =? kIpProtoUdp) then false else port_in (mem o) (c_src_port c) (c_dst_port c)
      end
  | opt_enabled mem => match c_opts c with None => false | Some o => mem o end
  | never => false
  | always => true
  | all_of ts => forallb (fun t => match_ t c) ts
  | any_of ts => existsb (fun t => match_ t c) ts
  | not_trigger t => negb (match_ t c)
  end.

(** [trigger_applies]: where the trigger is looked at at all. *)
Fixpoint applies (t : trigger) (l : dispatch_layer) : bool :=
  match t with
  | ethertype_is _ => match l with eth_payload => true | l4_payload => false end
  | ip_proto_is _ | udp_port _ | tcp_port _ | udp_port_cfg _ => match l with l4_payload => true | eth_payload => false end
  | never => false
  | link_type_is _ | opt_enabled _ | always | not_trigger _ => true
  | all_of ts => forallb (fun t => applies t l) ts
  | any_of ts => existsb (fun t => applies t l) ts
  end.

(** ** Tables *)
Inductive row :=
| PacketRow (packet_id file_offset caplen origlen : Z)
| Node (packet_id datagram_id : Z) (is_reassembled : bool) (body : value)
| FragMeta (packet_id datagram_id offset : Z) (more_fragments is_first is_last : bool)
| Datagram (d : DatagramRow)
| OtherRow (body : value).

Section World.
Context {U : Type}.

(** The tables by name, and the protocols' states. *)
Record world := World { w_tables : gmap string (list row); w_user : U }.

Definition table (w : world) (name : string) : list row := default [] (w_tables w !! name).

(** [tables.get<"name">().push(r)] *)
Definition push (name : string) (r : row) (w : world) : world :=
  World (<[name := table w name ++ [r]]> (w_tables w)) (w_user w).

(** ** Protocols *)
Record protocol := Protocol {
  p_trigger : trigger;
  p_parse : memory -> decode_ctx -> seg_input -> world -> world
}.

Definition dispatch_one (l : dispatch_layer) (M : memory) (c : decode_ctx) (in_ : seg_input) (w : world) (p : protocol) : world :=
  if applies (p_trigger p) l then (if match_ (p_trigger p) c then p_parse p M c in_ w else w) else w.

Section Decoder.
Context (ps : list protocol).

Definition dispatch (l : dispatch_layer) (M : memory) (c : decode_ctx) (in_ : seg_input) (w : world) : world :=
  fold_left (dispatch_one l M c in_) ps w.

(** ** Layer 4 *)

(** [c] with the fields of a layer-4 header. *)
Definition with_ports (c : decode_ctx) (proto src dst : Z) : decode_ctx :=
  MkCtx (c_opts c) (c_packet_id c) (c_datagram_id c) (c_is_reassembled c) (c_link_type c) (c_ethertype c) (c_ip_version c)
    proto src dst (c_pkt c) (c_vlan_count c) (c_l2_end c) (c_l3_end c) (c_l4_end c).

Definition on_tcp_layer (c : decode_ctx) (v : value) (M : memory) (payload : seg_input) (w : world) : world :=
  let w := push "tcp" (Node (c_packet_id c) (c_datagram_id c) (c_is_reassembled c) v) w in
  dispatch l4_payload M (with_ports c kIpProtoTcp (member Tcp v "src_port") (member Tcp v "dst_port")) payload w.

Definition on_udp_layer (c : decode_ctx) (v : value) (M : memory) (payload : seg_input) (w : world) : world :=
  let w := push "udp" (Node (c_packet_id c) (c_datagram_id c) (c_is_reassembled c) v) w in
  dispatch l4_payload M (with_ports c kIpProtoUdp (member Udp v "src_port") (member Udp v "dst_port")) payload w.

(** The reassembled datagram's layer 4; [None] is a bad read. *)
Definition dispatch_l4 (c : decode_ctx) (M : memory) (after_l3 : seg_input) (w : world) : option world :=
  if c_ip_proto c =? kIpProtoTcp then
    match strct_seg Tcp native M after_l3 with
    | Done v rest => Some (on_tcp_layer c v M rest w)
    | Err _ => Some w
    | Stop _ => None
    end
  else if c_ip_proto c =? kIpProtoUdp then
    match strct_seg Udp native M after_l3 with
    | Done v rest => Some (on_udp_layer c v M rest w)
    | Err _ => Some w
    | Stop _ => None
    end
  else Some w.
End Decoder.
End World.
Arguments world : clear implicits.
Arguments protocol : clear implicits.
