(* ===== verification/Visitor.v ===== *)
(** * Decoding one packet (nanom_shark/packet_visitor.hpp)

    [PacketVisitor]: the state it keeps while a packet is walked, and what each
    of the walk's calls does to it: rows pushed, fragments handed to the
    reassembly tables, protocols dispatched, and completed datagrams decoded.
    No JSON sink is attached, so the calls that only render are without effect.
    The parts of a completed datagram are views into the packets they came
    from; as [Defrag] keeps their bytes, they are read from where [place] puts
    them. *)
From stdpp Require Import gmap.
From S2P Require Import Prelude Parser BytesParsers Combinators Numbers Reflect Segmented Emit Members Defrag Walk Protocol.

(** [defrag::DefragState] *)
Record DefragState := MkDefrag { d_ipv4 : ReassemblyTable Ipv4Key; d_ipv6 : ReassemblyTable Ipv6Key }.

(** Parts laid out one behind the other. *)
Fixpoint place_from (a : Z) (parts : list (list Z)) : list part :=
  match parts with [] => [] | p :: parts => Part a (zlen p) :: place_from (a + zlen p) parts end.

Definition place (parts : list (list Z)) : memory * segments :=
  (mem_of 0 (concat parts), make_segments (place_from 0 parts) None 0).

Section Visitor.
Context {U : Type} (ps : list (protocol U)) (opts : DecodeOptions) (sort : list FragmentSpan -> list FragmentSpan) (M : memory).

Record visitor := MkVisitor {
  v_ctx : decode_ctx;
  v_at : Z;
  v_is_fragment : bool;
  v_ipv6_base_offset : Z;
  v_ipv6_payload_length : Z;
  v_token : Z;
  v_pin_count : Z;
  v_retired : option (list Z);
  v_last_ipv6 : value;
  v_ipv6_ident : Z;
  v_defrag : option DefragState;
  v_world : world U
}.

(** ** Updates *)
Definition set_ctx (c : decode_ctx) (v : visitor) : visitor :=
  MkVisitor c (v_at v) (v_is_fragment v) (v_ipv6_base_offset v) (v_ipv6_payload_length v) (v_token v) (v_pin_count v)
    (v_retired v) (v_last_ipv6 v) (v_ipv6_ident v) (v_defrag v) (v_world v).
Definition set_world (w : world U) (v : visitor) : visitor :=
  MkVisitor (v_ctx v) (v_at v) (v_is_fragment v) (v_ipv6_base_offset v) (v_ipv6_payload_length v) (v_token v) (v_pin_count v)
    (v_retired v) (v_last_ipv6 v) (v_ipv6_ident v) (v_defrag v) w.
Definition set_at (off : Z) (v : visitor) : visitor :=
  MkVisitor (v_ctx v) off (v_is_fragment v) (v_ipv6_base_offset v) (v_ipv6_payload_length v) (v_token v) (v_pin_count v)
    (v_retired v) (v_last_ipv6 v) (v_ipv6_ident v) (v_defrag v) (v_world v).
Definition set_is_fragment (v : visitor) : visitor :=
  MkVisitor (v_ctx v) (v_at v) true (v_ipv6_base_offset v) (v_ipv6_payload_length v) (v_token v) (v_pin_count v)
    (v_retired v) (v_last_ipv6 v) (v_ipv6_ident v) (v_defrag v) (v_world v).
Definition set_ipv6 (h : value) (v : visitor) : visitor :=
  MkVisitor (v_ctx v) (v_at v) (v_is_fragment v) (v_at v) (member Ipv6 h "payload_length") (v_token v) (v_pin_count v)
    (v_retired v) h (v_ipv6_ident v) (v_defrag v) (v_world v).
Definition set_ident (id : Z) (v : visitor) : visitor :=
  MkVisitor (v_ctx v) (v_at v) (v_is_fragment v) (v_ipv6_base_offset v) (v_ipv6_payload_length v) (v_token v) (v_pin_count v)
    (v_retired v) (v_last_ipv6 v) id (v_defrag v) (v_world v).
Definition set_defrag (d : DefragState) (pins : Z) (v : visitor) : visitor :=
  MkVisitor (v_ctx v) (v_at v) (v_is_fragment v) (v_ipv6_base_offset v) (v_ipv6_payload_length v) (v_token v) pins
    (v_retired v) (v_last_ipv6 v) (v_ipv6_ident v) (Some d) (v_world v).
Definition set_retired_tokens (d : DefragState) (ts : list Z) (v : visitor) : visitor :=
  MkVisitor (v_ctx v) (v_at v) (v_is_fragment v) (v_ipv6_base_offset v) (v_ipv6_payload_length v) (v_token v) (v_pin_count v)
    (Some ts) (v_last_ipv6 v) (v_ipv6_ident v) (Some d) (v_world v).

Definition count_vlan (c : decode_ctx) : decode_ctx :=
  MkCtx (c_opts c) (c_packet_id c) (c_datagram_id c) (c_is_reassembled c) (c_link_type c) (c_ethertype c) (c_ip_version c)
    (c_ip_proto c) (c_src_port c) (c_dst_port c) (c_pkt c) (u32 (c_vlan_count c + 1)) (c_l2_end c) (c_l3_end c) (c_l4_end c).
Definition with_l2 (c : decode_ctx) (ethertype l2_end : Z) : decode_ctx :=
  MkCtx (c_opts c) (c_packet_id c) (c_datagram_id c) (c_is_reassembled c) (c_link_type c) ethertype (c_ip_version c)
    (c_ip_proto c) (c_src_port c) (c_dst_port c) (c_pkt c) (c_vlan_count c) l2_end (c_l3_end c) (c_l4_end c).
Definition with_ip (c : decode_ctx) (version : Z) : decode_ctx :=
  MkCtx (c_opts c) (c_packet_id c) (c_datagram_id c) (c_is_reassembled c) (c_link_type c) (c_ethertype c) version
    (c_ip_proto c) (c_src_port c) (c_dst_port c) (c_pkt c) (c_vlan_count c) (c_l2_end c) (c_l3_end c) (c_l4_end c).
Definition with_l4 (c : decode_ctx) (l3_end l4_end : Z) : decode_ctx :=
  MkCtx (c_opts c) (c_packet_id c) (c_datagram_id c) (c_is_reassembled c) (c_link_type c) (c_ethertype c) (c_ip_version c)
    (c_ip_proto c) (c_src_port c) (c_dst_port c) (c_pkt c) (c_vlan_count c) (c_l2_end c) l3_end l4_end.
Definition as_datagram (c : decode_ctx) (id version proto : Z) : decode_ctx :=
  MkCtx (c_opts c) (c_packet_id c) id true (c_link_type c) (c_ethertype c) version proto
    (c_src_port c) (c_dst_port c) no_bytes (c_vlan_count c) (c_l2_end c) (c_l3_end c) (c_l4_end c).

(** A row of the layer just seen. *)
Definition push_node (name : string) (h : value) (v : visitor) : visitor :=
  set_world (push name (Node (c_packet_id (v_ctx v)) 0 false h) (v_world v)) v.

(** ** Reassembly *)

(** One table of the two: how it is read from the state, and written back. *)
Record lens (K : Type) `{Countable K} := Lens {
  l_get : DefragState -> ReassemblyTable K;
  l_set : ReassemblyTable K -> DefragState -> DefragState;
  l_config : Config
}.
Arguments Lens {K _ _}. Arguments l_get {K _ _}. Arguments l_set {K _ _}. Arguments l_config {K _ _}.

Definition ipv4_table : lens Ipv4Key := Lens d_ipv4 (fun t d => MkDefrag t (d_ipv6 d)) (ipv4_defrag opts).
Definition ipv6_table : lens Ipv6Key := Lens d_ipv6 (fun t d => MkDefrag (d_ipv4 d) t) (ipv6_defrag opts).

Definition datagram_row (r : option Reassembly) (o : Result) (c : decode_ctx) (ip_version : Z) : DatagramRow :=
  MkRow (o_datagram_id o) ip_version (u32 (u64 (zlen (concat (o_parts o)))))
    (match r with Some r => r_fragment_count r | None => 0 end)
    (match r with Some r => r_first_packet_id r | None => c_packet_id c end) (c_packet_id c) 0 0.

Definition complete_datagram {K} `{Countable K} (t : lens K) (d : DefragState) (o : Result) (ip_version ip_proto : Z) (v : visitor) :
    option visitor :=
  let row := datagram_row (find (l_get t d) (o_datagram_id o)) o (v_ctx v) ip_version in
  let w := push "datagram" (Datagram row) (v_world v) in
  let (MD, src) := place (o_parts o) in
  w ← dispatch_l4 ps (as_datagram (v_ctx v) (o_datagram_id o) ip_version ip_proto) MD (seg_from src) w;
  let v := set_world w v in
  match v_retired v with
  | None => Some v
  | Some ts => let (s, freed) := retire (l_get t d) (o_datagram_id o) in Some (set_retired_tokens (l_set t s d) (ts ++ freed) v)
  end.

(** A fragment handed to a table: its row, and the datagram it completes. *)
Definition feed_fragment {K} `{Countable K} (t : lens K) (k : K) (d : DefragState) (name : string) (offset meta_offset : Z) (more is_first : bool)
    (payload : bytes) (ip_version ip_proto : Z) (v : visitor) : option visitor :=
  bs ← copy_raw (Z.to_nat (b_size payload)) M (b_data payload);
  r ← add_fragment (l_config t) sort (l_get t d) k (Fragment offset (c_packet_id (v_ctx v)) more bs (v_token v));
  let (s, o) := r : ReassemblyTable K * Result in
  let d := l_set t s d in
  let v := set_defrag d (if o_retained o then u32 (v_pin_count v + 1) else v_pin_count v) v in
  let v := set_world (push name (FragMeta (c_packet_id (v_ctx v)) (o_datagram_id o) meta_offset more is_first (negb more)) (v_world v)) v in
  if o_completed o then complete_datagram t d o ip_version ip_proto v else Some v.

(** ** The calls *)
Definition visit_l2_done (ethertype l2_end : Z) (v : visitor) : visitor :=
  let c := with_l2 (v_ctx v) ethertype l2_end in
  let v := set_ctx c v in
  if b_size (c_pkt c) <? l2_end then v
  else
    let region := subspan (c_pkt c) l2_end (b_size (c_pkt c) - l2_end) in
    set_world (dispatch ps eth_payload M c (seg_from (single_segment region)) (v_world v)) v.

Definition visit_ipv4 (h : value) (v : visitor) : option visitor :=
  let get := member Ipv4 h in
  let v := push_node "ipv4" h v in
  let v := set_ctx (with_ip (v_ctx v) 4) v in
  let pkt := c_pkt (v_ctx v) in
  let hdr_len := Z.max (get "ihl"%string * 4) (wire_size Ipv4) in
  let payload_offset := v_at v + hdr_len in
  let more := negb (Z.land (get "flags"%string) 1 =? 0) in
  if negb (negb (get "frag_offset"%string =? 0) || more) then Some v
  else
    match v_defrag v with
    | None => Some v
    | Some d =>
        let v := set_is_fragment v in
        if b_size pkt <? payload_offset then Some v
        else
          let declared := get "total_length"%string in
          let declared_payload := if hdr_len <? declared then declared - hdr_len else 0 in
          let avail := b_size pkt - payload_offset in
          let payload := subspan pkt payload_offset (Z.min declared_payload avail) in
          let offset := u32 (get "frag_offset"%string * 8) in
          let key := MkIpv4Key (member_bytes Ipv4 h "src") (member_bytes Ipv4 h "dst") (get "protocol"%string) (get "identification"%string) in
          feed_fragment ipv4_table key d "ipv4_frag" offset (u16 offset) more (get "frag_offset"%string =? 0) payload 4 (get "protocol"%string) v
    end.

Definition visit_ipv6 (h : value) (v : visitor) : visitor :=
  let v := push_node "ipv6" h v in
  let v := set_ctx (with_ip (v_ctx v) 6) v in
  set_ipv6 h v.

Definition visit_tcp (h : value) (v : visitor) : visitor :=
  if v_is_fragment v then v
  else
    let hdr_len := Z.max (member Tcp h "data_offset" * 4) (wire_size Tcp) in
    let payload_offset := v_at v + hdr_len in
    let c := with_l4 (v_ctx v) (v_at v) payload_offset in
    let v := set_ctx c v in
    let payload := if payload_offset <=? b_size (c_pkt c) then subspan (c_pkt c) payload_offset (b_size (c_pkt c) - payload_offset) else no_bytes in
    set_world (on_tcp_layer ps c h M (seg_from (single_segment payload)) (v_world v)) v.

Definition visit_udp (h : value) (v : visitor) : visitor :=
  if v_is_fragment v then v
  else
    let payload_offset := v_at v + wire_size Udp in
    let c := with_l4 (v_ctx v) (v_at v) payload_offset in
    let v := set_ctx c v in
    let payload :=
      if payload_offset <=? b_size (c_pkt c) then
        let declared := member Udp h "length" in
        let declared_payload := if 8 <? declared then declared - 8 else 0 in
        let avail := b_size (c_pkt c) - payload_offset in
        subspan (c_pkt c) payload_offset (Z.min declared_payload avail)
      else no_bytes in
    set_world (on_udp_layer ps c h M (seg_from (single_segment payload)) (v_world v)) v.

Definition visit_fragment (h : value) (v : visitor) : option visitor :=
  let v := set_ident (member Ipv6Fragment h "identification") v in
  match v_defrag v with
  | None => Some v
  | Some d =>
      let v := set_is_fragment v in
      let pkt := c_pkt (v_ctx v) in
      let offset_flags := member Ipv6Fragment h "offset_flags" in
      let more := negb (Z.land offset_flags 1 =? 0) in
      let offset := u32 (Z.shiftr offset_flags 3 * 8) in
      let data_offset := v_at v + 8 in
      if b_size pkt <? data_offset then Some v
      else
        let before_payload := u64 (data_offset - v_ipv6_base_offset v - wire_size Ipv6) in
        let declared_payload := if before_payload <? v_ipv6_payload_length v then v_ipv6_payload_length v - before_payload else 0 in
        let avail := b_size pkt - data_offset in
        let payload := subspan pkt data_offset (Z.min declared_payload avail) in
        let key := MkIpv6Key (member_bytes Ipv6 (v_last_ipv6 v) "src") (member_bytes Ipv6 (v_last_ipv6 v) "dst") (v_ipv6_ident v) in
        feed_fragment ipv6_table key d "ipv6_frag" offset offset more (Z.shiftr offset_flags 3 =? 0) payload 6
          (member Ipv6Fragment h "next_header") v
  end.

Definition visit (v : visitor) (e : event) : option visitor :=
  match e with
  | on_offset off => Some (set_at off v)
  | on_eth h => Some (push_node "eth" h v)
  | on_vlan h => let v := push_node "vlan" h v in Some (set_ctx (count_vlan (v_ctx v)) v)
  | on_l2_done ethertype l2_end => Some (visit_l2_done ethertype l2_end v)
  | on_ipv4 h => visit_ipv4 h v
  | on_ipv6 h => Some (visit_ipv6 h v)
  | on_fragment h => visit_fragment h v
  | on_tcp h => Some (visit_tcp h v)
  | on_udp h => Some (visit_udp h v)
  | on_ext_opt _ _ | on_srh _ | on_ah _ | on_srh_segment _ _ _ | on_ipv6_option _ _ _ => Some v
  end.

Definition visit_all (v : visitor) (es : list event) : option visitor :=
  fold_left (fun r e => v ← r; visit v e) es (Some v).

(** [walk_packet_ext(link_type, pkt, visitor)] *)
Definition visit_packet (link_type : Z) (pkt : bytes) (v : visitor) : option visitor :=
  match walk_packet_ext M link_type pkt with
  | Walked es _ => visit_all v es
  | WalkFault _ => None
  end.
End Visitor.
Arguments Lens {K _ _}. Arguments l_get {K _ _}. Arguments l_set {K _ _}. Arguments l_config {K _ _}.
Arguments visitor : clear implicits.
