(* ===== verification/Streaming.v ===== *)
(** * The streaming session and the decode pass (nanom_shark/streaming.hpp, decode_pass.hpp)

    [StreamingDecodeSession]: the state kept between blocks, its feed
    operations, and the accounts of the caller's buffers ([pins_]); and
    [run_decode_pass], which scans a file and feeds its blocks to a session. No
    JSON sink is attached. *)
From stdpp Require Import gmap.
From S2P Require Import Prelude Parser BytesParsers Combinators Numbers Reflect Segmented Emit Members Pcap Defrag Walk Protocol Visitor.

Record FeedResult := MkFeed { fr_ok : bool; fr_pinned : bool; fr_released : list Z }.

Section Session.
Context {U : Type} (ps : list (protocol U)) (opts : DecodeOptions) (sort : list FragmentSpan -> list FragmentSpan).

Record session := MkSession {
  s_world : world U;
  s_defrag : DefragState;
  s_iface_link : list Z;
  s_pid : Z;
  s_section_little : bool;
  s_tracking : bool;
  s_pins : gmap Z Z
}.

Definition new_session (w : world U) : session := MkSession w (MkDefrag empty_table empty_table) [] 0 true false ∅.

(** ** Buffers *)

(** [unpin]: one pin less on [t]; the last one frees the buffer. *)
Definition unpin (acc : gmap Z Z * list Z) (t : Z) : gmap Z Z * list Z :=
  let (pins, out) := acc in
  if t =? kNoToken then (pins, out)
  else
    match pins !! t with
    | None => (pins, out)
    | Some n => if u32 (n - 1) =? 0 then (delete t pins, out ++ [t]) else (<[t := u32 (n - 1)]> pins, out)
    end.

Definition unpin_all (acc : gmap Z Z * list Z) (ts : list Z) : gmap Z Z * list Z := fold_left unpin ts acc.

Definition release_own_token (released : list Z) (token : Z) : list Z :=
  if token =? kNoToken then released else if bool_decide (token ∈ released) then released else released ++ [token].

(** ** Headers and interfaces *)
Definition feed_shb (M : memory) (s : session) (shb_block : bytes) : option session :=
  let next le := Some (MkSession (s_world s) (s_defrag s) [] (s_pid s) le (s_tracking s) (s_pins s)) in
  match shb_byte_order M (from_bytes shb_block) with
  | Done le _ => next le
  | Err _ => next true
  | Stop _ => None
  end.

Definition feed_idb (M : memory) (s : session) (idb_block : bytes) (le : bool) (declared_length : Z) : option session :=
  let ref := MkBlockRef 0 (if negb (declared_length =? 0) then declared_length else u32 (b_size idb_block)) kIdb Idb le in
  match parse_idb M idb_block ref with
  | Fault _ => None
  | Ok None => Some s
  | Ok (Some idb) =>
      Some (MkSession (s_world s) (s_defrag s) (s_iface_link s ++ [idb_link_type idb]) (s_pid s) (s_section_little s)
              (s_tracking s) (s_pins s))
  end.

(** ** Packets *)

(** The summaries of one table's aged-out entries: their rows, and their
    buffers. *)
Definition report_evicted (ip_version : Z) (acc : world U * (gmap Z Z * list Z)) (x : ReassemblySummary) : world U * (gmap Z Z * list Z) :=
  let (w, pins) := acc in
  ((if negb (s_completion_status x =? 0) then push "datagram" (Datagram (to_datagram_row x ip_version)) w else w),
   unpin_all pins (s_tokens x)).

(** The visitor of one packet. *)
Definition packet_visitor (s : session) (w : world U) (link_type token : Z) (tracking : bool) (pkt : bytes) : visitor U :=
  MkVisitor (MkCtx (Some opts) (s_pid s) 0 false link_type 0 0 0 0 0 pkt 0 0 0 0) 0 false 0 0 token 0
    (if tracking then Some [] else None) (VList []) 0 (if decode_defrag opts then Some (s_defrag s) else None) w.

(** The walk of a packet: the world and tables it leaves, the pins it added and
    the tokens completed datagrams gave back. *)
Definition decode_packet (M : memory) (s : session) (w : world U) (block : bytes) (e : EpbView) (link_type token : Z) (tracking : bool) :
    option (world U * DefragState * Z * list Z) :=
  let poff := payload_file_offset e in
  if decode_l2l3 opts && (poff + caplen e <=? b_size block) then
    let pkt := subspan block poff (caplen e) in
    v ← visit_packet ps opts sort M link_type pkt (packet_visitor s w link_type token tracking pkt);
    Some (v_world v, default (s_defrag s) (v_defrag v), v_pin_count v, default [] (v_retired v))
  else Some (w, s_defrag s, 0, []).

(** [if (pins_added != 0 && token != kNoToken) pins_[token] += pins_added;] *)
Definition add_pins (pins : gmap Z Z) (token n : Z) : gmap Z Z :=
  if negb (n =? 0) && negb (token =? kNoToken) then <[token := u32 (default 0 (pins !! token) + n)]> pins else pins.

Definition feed_epb (M : memory) (s : session) (block : bytes) (le : bool) (token : Z) (k : Kind) (block_file_offset : Z) :
    option (session * FeedResult) :=
  let tracking := s_tracking s || negb (token =? kNoToken) in
  let ref := MkBlockRef 0 (u32 (b_size block)) kEpb k le in
  match parse_epb M block ref with
  | Fault _ => None
  | Ok None =>
      Some (MkSession (s_world s) (s_defrag s) (s_iface_link s) (s_pid s) (s_section_little s) tracking (s_pins s),
            MkFeed false false (release_own_token [] token))
  | Ok (Some e) =>
      let link_type := default 0 (zget (s_iface_link s) (Pcap.interface_id e)) in
      let w := push "packets" (PacketRow (s_pid s) (u64 (block_file_offset + payload_file_offset e)) (caplen e) (origlen e)) (s_world s) in
      r ← decode_packet M s w block e link_type token tracking;
      let '(w, d, pins_added, retired) := r in
      let (t4, out4) := evict_stale (ipv4_defrag opts) (d_ipv4 d) (s_pid s) in
      let (t6, out6) := evict_stale (ipv6_defrag opts) (d_ipv6 d) (s_pid s) in
      let '(w, acc) := fold_left (report_evicted 4) out4 (w, (s_pins s, [])) in
      let '(w, acc) := fold_left (report_evicted 6) out6 (w, acc) in
      let acc := unpin_all (add_pins acc.1 token pins_added, acc.2) retired in
      let pinned := negb (token =? kNoToken) && bool_decide (is_Some (acc.1 !! token)) in
      let released := if pinned then acc.2 else release_own_token acc.2 token in
      Some (MkSession w (MkDefrag t4 t6) (s_iface_link s) (u64 (s_pid s + 1)) (s_section_little s) tracking acc.1,
            MkFeed true pinned released)
  end.

Definition pinned_buffers (s : session) : Z := Z.of_nat (base.size (s_pins s)).

(** ** The whole file *)

(** One block of a scanned file. *)
Definition pass_block (M : memory) (file : bytes) (s : session) (ref : BlockRef) : option session :=
  let off := file_offset ref in
  if b_size file <? off then Some s
  else
    let avail := b_size file - off in
    let want := match kind ref with Idb => Z.max (length_ ref) 28 | _ => length_ ref end in
    let block := subspan file off (Z.min want avail) in
    match kind ref with
    | Shb => feed_shb M s block
    | Idb => feed_idb M s block (little_endian ref) (length_ ref)
    | Epb | PcapRecord => r ← feed_epb M s block (little_endian ref) kNoToken (kind ref) off; Some r.1
    | SimplePacket | Other => Some s
    end.

Inductive pass :=
| Decoded (s : session)
| Corrupt (error : string)
| PassFault.

Definition run_decode_pass (M : memory) (file : bytes) (tables : world U) : pass :=
  match scan_blocks M file [] with
  | Faulted _ => PassFault
  | Malformed _ error => Corrupt error
  | Scanned refs =>
      match fold_left (fun r ref => s ← r; pass_block M file s ref) refs (Some (new_session tables)) with
      | Some s => Decoded s
      | None => PassFault
      end
  end.
End Session.
