(* ===== verification/PacketSafe.v ===== *)
(** * Decoding one packet is safe

    Over any bytes the visitor takes every call of the walk without a fault,
    keeps the reassembly tables well formed, and accounts for every fragment
    span it leaves behind and every token a completed datagram gives back. *)
From stdpp Require Import gmap.
From S2P Require Import Prelude Parser BytesParsers Combinators CombinatorFacts Numbers Bits Defrag DefragScan DefragTable Reflect ReflectFacts Emit EmitSpecs StructSpecs Segmented SegmentedSpecs Members Walk WalkSpecs Protocol Visitor.

(** * The reassembly tables while one packet is decoded

    What [add_fragment] and [retire] do to a table during the walk of packet
    [pid]: entries that are touched carry the packet's number, so that the
    eviction that follows leaves them alone; every fragment holds bytes. *)

Section Table.
Context {K : Type} `{Countable K} (cfg : Config).
Context (sort : list FragmentSpan -> list FragmentSpan) `{!SortsFragments sort}.
Context (Hmax : 0 <= max_datagram_bytes cfg < 2 ^ 32) (pid : Z).
Implicit Types (s : ReassemblyTable K).

Definition holds_bytes (r : Reassembly) : Prop := Forall (fun f => bytes_ok (data f)) (r_fragments r).

(** [s], reached from [s0] while [pid] is decoded. *)
Record near s0 s : Prop := {
  near_ok : table_ok cfg s;
  near_bytes id r : by_id_ s !! id = Some r -> holds_bytes r;
  near_touched id r : by_id_ s !! id = Some r -> r_last_packet_id r = pid \/ by_id_ s0 !! id = Some r
}.

(** One entry replaced by one of this packet. *)
Lemma near_insert s0 s s' id r : near s0 s -> table_ok cfg s' -> by_id_ s' = <[id := r]> (by_id_ s) ->
  holds_bytes r -> r_last_packet_id r = pid -> near s0 s'.
Proof using.
  intros [_ Hb Ht] Hs' Hm Hr Hp. split; [done|intros id' r'; rewrite Hm..];
    (destruct (decide (id' = id)) as [->|Hne]; [rewrite lookup_insert_eq; intros [= <-]|rewrite lookup_insert_ne by done]; auto).
  - apply Hb.
Qed.

Lemma parts_hold_bytes total fs d : datagram_of total fs d -> Forall fragment_ok fs -> Forall (fun f => bytes_ok (data f)) fs -> bytes_ok d.
Proof using.
  intros (Hlen & Hagree & Hcover & _) Hok Hfs. apply Forall_lookup. intros k b Hb.
  assert (Hk : zget d (Z.of_nat k) = Some b) by (unfold zget; destruct (Z.ltb_spec (Z.of_nat k) 0); [lia|by rewrite Nat2Z.id]).
  pose proof (zget_Some_range _ _ _ Hk) as Hr. rewrite Hlen in Hr. destruct (proj1 (Exists_exists _ _) (Hcover _ Hr)) as (f & Hf & Hc).
  rewrite Forall_forall in Hagree, Hok, Hfs. unfold covers in Hc. destruct (proj2 (zget_is_Some (data f) (Z.of_nat k - offset_bytes f)) ltac:(lia)) as [b' Hb'].
  specialize (Hagree f Hf _ _ Hb' ltac:(lia)). replace (offset_bytes f + (Z.of_nat k - offset_bytes f)) with (Z.of_nat k) in Hagree by lia.
  rewrite Hk in Hagree. injection Hagree as ->. eapply zget_byte; [by apply Hfs|done].
Qed.

(** A fragment of [pid] handed over. *)
Lemma add_fragment_near s0 s k f : near s0 s -> next_id_ s < 2 ^ 32 - 1 -> fragment_in f -> bytes_ok (data f) -> packet_id f = pid ->
  exists s' o, add_fragment cfg sort s k f = Some (s', o) /\ near s0 s' /\ next_id_ s' <= next_id_ s + 1 /\
    pinned s' ≡ₚ (if o_retained o then [token f] else []) ++ pinned s /\
    (o_completed o = true -> Forall bytes_ok (o_parts o) /\ zlen (concat (o_parts o)) < 2 ^ 32 /\
       exists r, by_id_ s' !! o_datagram_id o = Some r /\ r_last_packet_id r = pid).
Proof using All.
  intros Hs Hn Hf Hb Hp. pose proof (near_ok _ _ Hs) as Hok.
  destruct (add_fragment_spec cfg sort Hmax s k f Hok Hn Hf) as (s' & o & E & Hs' & Hn' & _).
  pose proof (add_fragment_pinned cfg sort Hmax s k f s' o Hok Hn E) as Hpin.
  enough (near s0 s' /\ (o_completed o = true -> Forall bytes_ok (o_parts o) /\ zlen (concat (o_parts o)) < 2 ^ 32 /\
       exists r, by_id_ s' !! o_datagram_id o = Some r /\ r_last_packet_id r = pid)) as [Hnear Hcomp] by (exists s', o; auto).
  clear Hpin Hn'.
  unfold add_fragment in E. pose proof (find_or_create_spec cfg Hmax s k (packet_id f) Hok Hn) as Hfc.
  destruct (find_or_create cfg s k (packet_id f)) as [[s1 id]|]; [|by injection E as <- <-].
  destruct Hfc as (Hs1 & Hk1 & _ & r & Hr & Hc & Hfrom). rewrite Hr in E.
  destruct (t_ids _ _ Hs1 _ _ Hr) as (_ & Hid & Hro). pose proof (touch_ok cfg r f Hro Hc) as Hto.
  assert (Hb1 : holds_bytes r /\ forall r', by_id_ s1 !! id = Some r -> <[id := r']> (by_id_ s1) = <[id := r']> (by_id_ s)).
  { destruct Hfrom as [[-> _]|(_ & _ & -> & Hm)]; [split; [by apply (near_bytes _ _ Hs id)|done]|].
    split; [constructor|]. intros r' _. by rewrite Hm, insert_insert_eq. }
  destruct Hb1 as [Hbr Hm1]. destruct (_ <? _).
  { injection E as <- <-. split; [|done]. apply (near_insert s0 s _ id (touch r f)); [done|done|by apply Hm1|exact Hbr|done]. }
  assert (Hst : exists r', entry_ok cfg r' /\ by_id_ s' = <[id := r']> (by_id_ s1) /\ r_fragments r' = r_fragments r ++ [f] /\ r_last_packet_id r' = packet_id f /\
    (o_completed o = true -> o_datagram_id o = id /\ o_parts o = r_parts r' /\ r_completed r' = true /\ r_retired r' = false)).
  { unfold try_complete in E. destruct (negb _); [|destruct build_parts as [| |parts c|]; [| |destruct (c <? _)|done]]; injection E as <- <-;
      eexists; (split; [eapply (t_ids _ _ Hs' id); apply lookup_insert_eq|]); repeat (split; [done|]); try done.
    cbn. by destruct (e_open _ _ Hro Hc). }
  destruct Hst as (r' & Hr' & Hm & Hfr & Hlast & Hcomp).
  assert (Hbr' : holds_bytes r') by (unfold holds_bytes; rewrite Hfr; by apply Forall_app; split; [|constructor]).
  split.
  - apply (near_insert s0 s s' id r'); [done|done|by rewrite Hm; apply Hm1|done|congruence].
  - intros Ho. destruct (Hcomp Ho) as (-> & -> & Hc' & Hre). destruct (e_datagram _ _ Hr' Hc' Hre) as (Hd & _).
    pose proof (parts_hold_bytes _ _ _ Hd (e_fragments _ _ Hr') Hbr') as Hbs. pose proof (e_total _ _ Hr').
    split; [by apply Forall_concat|]. destruct Hd as [-> _]. split; [lia|]. exists r'. rewrite Hm, lookup_insert_eq. split; [done|congruence].
Qed.

(** The datagram of an entry of [pid] given back. *)
Lemma retire_near s0 s id r : near s0 s -> by_id_ s !! id = Some r -> r_last_packet_id r = pid ->
  near s0 (retire s id).1 /\ next_id_ (retire s id).1 = next_id_ s /\ pinned s ≡ₚ (retire s id).2 ++ pinned (retire s id).1.
Proof using Hmax.
  intros Hs Hr Hp. split; [|split; [|apply retire_pinned]].
  - pose proof (retire_ok cfg Hmax s id (near_ok _ _ Hs)) as Hok. unfold retire in *. rewrite Hr in *. destruct (_ || _); [done|].
    apply (near_insert s0 s _ id (set_retired r)); done || constructor.
  - unfold retire. rewrite Hr. by destruct (_ || _).
Qed.

(** ** The eviction after the packet *)
Lemma pinned_by_union m m' : m ##ₘ m' -> pinned_by (m ∪ m') ≡ₚ pinned_by m ++ pinned_by m'.
Proof using.
  induction m as [|id r m Hm IH] using map_ind; intros Hd; [by rewrite (left_id_L ∅ (∪))|].
  apply map_disjoint_insert_l in Hd as [Hid Hd]. rewrite <- insert_union_l, pinned_insert, IH, (pinned_insert m) by (done || by apply lookup_union_None).
  by rewrite app_assoc.
Qed.

Lemma pinned_by_split m m' : m ⊆ m' -> pinned_by m' ≡ₚ pinned_by m ++ pinned_by (m' ∖ m).
Proof using.
  intros Hm. rewrite <- (map_difference_union m m' Hm) at 1. apply pinned_by_union, map_disjoint_difference_r1. done.
Qed.

Lemma pinned_by_subseteq m m' : m ⊆ m' -> tracked (pinned_by m) ⊆+ tracked (pinned_by m').
Proof using. intros Hm. rewrite (pinned_by_split m m' Hm), tracked_app. by apply submseteq_inserts_r. Qed.

(** The tokens given back were pinned before the packet. *)
Lemma evict_near s0 s : near s0 s -> 0 < timeout_ticks cfg -> 0 <= pid -> pid + timeout_ticks cfg < 2 ^ 64 - 1 ->
  let (s', out) := evict_stale cfg s pid in
  table_ok cfg s' /\ next_id_ s' = next_id_ s /\ (forall id r, by_id_ s' !! id = Some r -> holds_bytes r) /\
  tracked (pinned s) ≡ₚ concat (s_tokens <$> out) ++ tracked (pinned s') /\
  concat (s_tokens <$> out) ⊆+ tracked (pinned s0).
Proof using.
  intros Hs Ht Hp0 Hp. pose proof (evict_ok cfg s pid (near_ok _ _ Hs)) as Hok. pose proof (evict_next cfg s pid) as Hn.
  pose proof (evict_pinned cfg s pid) as Hpin. pose proof (evict_lookup cfg s pid) as Hl.
  destruct (evict_stale cfg s pid) as [s' out]. cbn in *. split; [done|]. split; [done|]. split; [|split; [done|]].
  { intros id r Hr. apply (near_bytes _ _ Hs id). rewrite Hl in Hr. destruct (by_id_ s !! id); [|done]. by destruct aged_out. }
  assert (Hsub : by_id_ s' ⊆ by_id_ s).
  { apply map_subseteq_spec. intros id r Hr. rewrite Hl in Hr. destruct (by_id_ s !! id); [|done]. by destruct aged_out. }
  assert (Hgone : by_id_ s ∖ by_id_ s' ⊆ by_id_ s0).
  { apply map_subseteq_spec. intros id r [Hr Hno]%lookup_difference_Some. rewrite Hl, Hr in Hno.
    destruct (aged_out cfg pid r) eqn:Ea; [|done]. destruct (near_touched _ _ Hs id r Hr) as [Hlast|]; [|done].
    unfold aged_out in Ea. rewrite Hlast, wrap_small in Ea by lia. apply orb_true_iff in Ea.
    destruct Ea as [?%Z.leb_le|?%Z.eqb_eq]; [lia|unfold kNoPacket in *; lia]. }
  rewrite <- (pinned_by_subseteq _ _ Hgone). assert (concat (s_tokens <$> out) ≡ₚ tracked (pinned_by (by_id_ s ∖ by_id_ s'))) as ->; [|done].
  apply (Permutation_app_inv_r (tracked (pinned s'))). rewrite <- Hpin. unfold pinned.
  by rewrite (pinned_by_split _ _ Hsub), tracked_app, Permutation_app_comm.
Qed.
End Table.

(** ** The walk's calls *)

(** Calls that may hand a fragment to a table. *)
Definition fragment_call (e : event) : bool := match e with on_ipv4 _ | on_fragment _ => true | _ => false end.
Definition fragment_calls (es : list event) : Z := zlen (List.filter fragment_call es).

Lemma fragment_calls_app es es' : fragment_calls (es ++ es') = fragment_calls es + fragment_calls es'.
Proof. unfold fragment_calls. by rewrite List.filter_app, zlen_app. Qed.

Definition call_ok (e : event) : Prop := match e with on_offset off => 0 <= off | _ => True end.

(** Where a layer starts, and how many fragment calls may still come. *)
Definition layer_at (s : layer) : Z :=
  match s with
  | Begin | Finished _ => 0
  | Tags _ q | Network _ q | Chain _ _ q _ | Extension _ _ q _ | Transport _ q | Upper _ q => q
  end.
Definition layer_bound (s : layer) : Z :=
  match s with
  | Begin | Tags _ _ | Network _ _ => 64
  | Chain g _ _ _ => Z.of_nat g
  | Extension g _ _ _ => Z.of_nat g + 1
  | Transport _ _ | Upper _ _ | Finished _ => 0
  end.

Lemma option_events_plain c os : Forall call_ok (option_events c os) /\ fragment_calls (option_events c os) = 0.
Proof. unfold option_events. induction os as [|o os [IH1 IH2]]; cbn; [done|]. split; [by constructor|exact IH2]. Qed.

Lemma segments_plain l n order : forall i base lim, Forall call_ok (segments_at l n order i base lim) /\ fragment_calls (segments_at l n order i base lim) = 0.
Proof.
  induction n as [|n IH]; intros i base lim; cbn [segments_at]; [done|]. destruct (_ <? _); [done|].
  destruct (IH (i + 1) base lim) as [H1 H2]. split; [by constructor|exact H2].
Qed.

Ltac plain := rewrite ?Forall_cons, ?Forall_nil; cbn [call_ok]; split_and!; done || lia.
Ltac counts := cbv [fragment_calls List.filter fragment_call zlen length layer_at layer_bound]; lia.

Lemma next_calls l s es s' : bytes_ok l -> next l s es s' -> 0 <= layer_at s ->
  0 <= layer_at s' /\ Forall call_ok es /\ fragment_calls es + layer_bound s' <= layer_bound s.
Proof.
  intros Hl Hn Hq. destruct Hn; cbn [layer_at layer_bound] in *; try (split; [lia|]; split; [plain|counts]).
  - split; [|split; [plain|]].
    + assert (20 <= l3) by (unfold l3, header_length; destruct (Z.leb_spec 20 (member Ipv4 v "ihl" * 4)); lia). destruct (_ && _); cbn; lia.
    + destruct (_ && _); counts.
  - split; [done|]. split; [constructor|counts].
  - assert (0 <= member Ipv6ExtOpt v "hdr_ext_len" < 256) by (apply (ext_member_range l Hl Ipv6ExtOpt q 1 "hdr_ext_len" 1); done).
    destruct (option_events_plain nh os) as [He1 He2]. split; [lia|]. split; [by constructor|]. change (fragment_calls (?a :: ?b)) with (fragment_calls b). lia.
  - assert (0 <= member Ipv6Srh v "hdr_ext_len" < 256) by (apply (ext_member_range l Hl Ipv6Srh q 1 "hdr_ext_len" 1); done).
    destruct (option_events_plain 43 os) as [He1 He2]. destruct (segments_plain l (Z.to_nat nseg) order 0 (q + 8) lim) as [He3 He4].
    split; [lia|]. split; [constructor; [done|by apply Forall_app]|].
    match goal with |- fragment_calls (?a :: ?b) + _ <= _ => change (fragment_calls (a :: b)) with (fragment_calls b) end. rewrite fragment_calls_app. lia.
  - split; [|split; [plain|]]; destruct (_ =? 0); counts.
  - assert (0 <= member Ipv6Ah v "payload_len" < 256) by (apply (ext_member_range l Hl Ipv6Ah q 1 "payload_len" 1); done).
    split; [lia|]. split; [plain|counts].
Qed.

Lemma layer_bound_nonneg s : 0 <= layer_bound s.
Proof. destruct s; cbn; lia. Qed.

Lemma run_calls l s es res : bytes_ok l -> run l s es res -> 0 <= layer_at s -> Forall call_ok es /\ fragment_calls es <= layer_bound s.
Proof.
  intros Hl. induction 1 as [s es s' es' res Hn _ IH| |]; intros Hq; [|split; [constructor|apply layer_bound_nonneg]..].
  destruct (next_calls l s es s' Hl Hn Hq) as (Hq' & He & Hb). destruct (IH Hq') as [He' Hb'].
  split; [by apply Forall_app|]. rewrite fragment_calls_app. lia.
Qed.

(** ** Parts laid out *)
Lemma place_from_bytes parts : forall pre, Forall bytes_ok parts ->
  Forall2 (part_bytes (mem_of 0 (pre ++ concat parts))) (place_from (zlen pre) parts) parts.
Proof.
  induction parts as [|p parts IH]; intros pre Hp; cbn; [constructor|]. apply Forall_cons in Hp as [Hp Hps]. constructor.
  - split; cbn; try done; try (pose proof (zlen_nonneg pre); lia).
    pose proof (holds_mem_of 0 (pre ++ p ++ concat parts) []) as H. rewrite app_nil_r in H. apply holds_app in H as [_ H].
    apply holds_app in H as [H _]. exact H.
  - specialize (IH (pre ++ p) Hps). by rewrite zlen_app, <- app_assoc in IH.
Qed.

Lemma place_wf parts : Forall bytes_ok parts -> zlen (concat parts) < 2 ^ 60 ->
  seg_wf (place parts).1 parts (seg_from (place parts).2).
Proof. intros Hp Hz. apply seg_from_wf; [|done]. apply (place_from_bytes parts []). done. Qed.

Lemma dispatch_l4_answers {U} (ps : list (protocol U)) c parts w : Forall bytes_ok parts -> zlen (concat parts) < 2 ^ 60 ->
  exists w', dispatch_l4 ps c (place parts).1 (seg_from (place parts).2) w = Some w'.
Proof.
  intros Hp Hz. pose proof (place_wf parts Hp Hz) as Hwf. unfold dispatch_l4.
  assert (Hs : forall fs, described fs = true -> forall w0, strct_seg fs native (place parts).1 (seg_from (place parts).2) <> Stop w0).
  { intros fs Hfs w0 E. pose proof (strct_seg_spec _ _ _ fs native Hwf Hfs) as H. rewrite E in H. exact H. }
  destruct (c_ip_proto c =? kIpProtoTcp); [|destruct (c_ip_proto c =? kIpProtoUdp); [|eauto]].
  - destruct (strct_seg Tcp native _ _) as [v r|e|x] eqn:E; [by eauto..|by apply Hs in E].
  - destruct (strct_seg Udp native _ _) as [v r|e|x] eqn:E; [by eauto..|by apply Hs in E].
Qed.

(** ** A fragment handed to one of the tables *)
Section Feed.
Context {U : Type} (ps : list (protocol U)) (opts : DecodeOptions) (sort : list FragmentSpan -> list FragmentSpan) `{!SortsFragments sort}.
Context (M : memory) (pid : Z).

(** What the two tables' accessors satisfy. *)
Record lens_ok {K} `{Countable K} (t : lens K) : Prop := {
  lo_get s d : l_get t (l_set t s d) = s;
  lo_set s s' d : l_set t s' (l_set t s d) = l_set t s' d;
  lo_max : 0 <= max_datagram_bytes (l_config t) < 2 ^ 32
}.

(** [v'] is [v] with table [t] at [s'], one pin more or none, and the tokens
    [freed] given back. *)
Record fed {K} `{Countable K} (t : lens K) (d : DefragState) (s' : ReassemblyTable K) (v v' : visitor U) : Prop := {
  f_ctx : v_ctx v' = v_ctx v;
  f_at : v_at v' = v_at v;
  f_token : v_token v' = v_token v;
  f_defrag : v_defrag v' = Some (l_set t s' d);
  f_account : exists b freed, v_pin_count v' = u32 (v_pin_count v + (if b : bool then 1 else 0)) /\
    v_retired v' = (if v_retired v then Some (default [] (v_retired v) ++ freed) else None) /\ (v_retired v = None -> freed = []) /\
    (if b then [v_token v] else []) ++ pinned (l_get t d) ≡ₚ freed ++ pinned s'
}.

Lemma feed_fragment_fed {K} `{Countable K} (t : lens K) k d name offset meta more first payload bs ver proto (v : visitor U) T0 :
  lens_ok t -> near (l_config t) pid T0 (l_get t d) -> next_id_ (l_get t d) < 2 ^ 32 - 1 -> 0 <= offset < 2 ^ 32 ->
  copy_raw (Z.to_nat (b_size payload)) M (b_data payload) = Some bs -> bytes_ok bs -> zlen bs < 2 ^ 63 ->
  c_packet_id (v_ctx v) = pid -> 0 <= v_pin_count v < 2 ^ 32 ->
  exists v' s', feed_fragment (U := U) ps sort M t k d name offset meta more first payload ver proto v = Some v' /\ fed t d s' v v' /\
    near (l_config t) pid T0 s' /\ next_id_ s' <= next_id_ (l_get t d) + 1.
Proof using All.
  intros Ht Hs Hn Ho Hc Hb Hz Hp Hpin. unfold feed_fragment. rewrite Hc. cbn [mbind option_bind].
  set (f := Fragment offset (c_packet_id (v_ctx v)) more bs (v_token v)).
  destruct (add_fragment_near (l_config t) sort (lo_max t Ht) pid T0 (l_get t d) k f Hs Hn) as (s1 & o & -> & Hs1 & Hn1 & Hpn & Hcomp); [by split|done|done|].
  cbn [mbind option_bind]. set (v1 := set_world _ (set_defrag _ _ v)).
  assert (Hp1 : v_pin_count v1 = u32 (v_pin_count v + (if o_retained o then 1 else 0))).
  { unfold v1. cbn. destruct (o_retained o); [done|]. by rewrite Z.add_0_r, wrap_small. }
  destruct (o_completed o) eqn:Ec.
  2:{ exists v1, s1. split; [done|]. split; [|done]. split; try done. exists (o_retained o), []. split; [done|]. split; [|done].
      cbn. destruct (v_retired v); [by rewrite app_nil_r|done]. }
  destruct (Hcomp eq_refl) as (Hparts & Hlen & r & Hr & Hlast). unfold complete_datagram. destruct (place (o_parts o)) as [MD src] eqn:Ep.
  match goal with |- context [dispatch_l4 ps ?c MD (seg_from src) ?w] =>
    destruct (dispatch_l4_answers ps c (o_parts o) w Hparts ltac:(lia)) as [w' Hw] end.
  rewrite Ep in Hw. cbn [fst snd] in Hw. rewrite Hw. cbn [mbind option_bind]. change (v_retired (set_world w' v1)) with (v_retired v).
  destruct (v_retired v) as [ts|] eqn:Er.
  - rewrite (lo_get t Ht). destruct (retire_near (l_config t) (lo_max t Ht) pid T0 s1 (o_datagram_id o) r Hs1 Hr Hlast) as (Hs2 & Hn2 & Hp2).
    destruct (retire s1 (o_datagram_id o)) as [s2 freed]. cbn [fst snd] in *. eexists _, s2. split; [done|]. split; [|split; [done|lia]].
    split; try done; [cbn; by rewrite (lo_set t Ht)|]. exists (o_retained o), freed. rewrite Er. split; [done|]. split; [done|]. split; [done|].
    etrans; [symmetry; exact Hpn|exact Hp2].
  - exists (set_world w' v1), s1. split; [done|]. split; [|done]. split; try done. exists (o_retained o), []. rewrite Er. split; [done|]. split; [exact Er|]. done.
Qed.
End Feed.

(** ** The whole packet *)
Definition pinned_all (d : DefragState) : list Z := pinned (d_ipv4 d) ++ pinned (d_ipv6 d).

Section Packet.
Context {U : Type} (ps : list (protocol U)) (opts : DecodeOptions) (sort : list FragmentSpan -> list FragmentSpan) `{!SortsFragments sort}.
Context (Hmax4 : 0 <= max_datagram_bytes (ipv4_defrag opts) < 2 ^ 32) (Hmax6 : 0 <= max_datagram_bytes (ipv6_defrag opts) < 2 ^ 32).
Context (M : memory) (pkt : bytes) (l : list Z).
Context (Hh : holds M (b_data pkt) l) (Hn : b_size pkt = zlen l) (Hl : bytes_ok l) (Hlt : zlen l < 2 ^ 60).
Context (pid tok : Z) (tracking : bool) (D0 : DefragState).

(** The visitor after calls of which at most [n] handed over a fragment. *)
Record vok (n : Z) (v : visitor U) : Prop := {
  vo_at : 0 <= v_at v;
  vo_pid : c_packet_id (v_ctx v) = pid;
  vo_pkt : c_pkt (v_ctx v) = pkt;
  vo_token : v_token v = tok;
  vo_pins : 0 <= v_pin_count v <= n;
  vo_tracking : is_Some (v_retired v) <-> tracking = true;
  vo_near4 : near (ipv4_defrag opts) pid (d_ipv4 D0) (d_ipv4 (default D0 (v_defrag v)));
  vo_near6 : near (ipv6_defrag opts) pid (d_ipv6 D0) (d_ipv6 (default D0 (v_defrag v)));
  vo_next4 : next_id_ (d_ipv4 (default D0 (v_defrag v))) <= next_id_ (d_ipv4 D0) + n;
  vo_next6 : next_id_ (d_ipv6 (default D0 (v_defrag v))) <= next_id_ (d_ipv6 D0) + n;
  vo_account : replicate (Z.to_nat (v_pin_count v)) tok ++ pinned_all D0 ≡ₚ default [] (v_retired v) ++ pinned_all (default D0 (v_defrag v))
}.

(** The parts of the visitor the invariant is about. *)
Definition core (v : visitor U) := (c_packet_id (v_ctx v), c_pkt (v_ctx v), v_token v, v_pin_count v, v_retired v, v_defrag v).

Lemma vok_core n n' v v' : vok n v -> core v' = core v -> 0 <= v_at v' -> n <= n' -> vok n' v'.
Proof using.
  intros [] E Ha Hle. injection E as E1 E2 E3 E4 E5 E6. constructor; rewrite ?E1, ?E2, ?E3, ?E4, ?E5, ?E6; done || lia.
Qed.

Lemma account_snoc (b : bool) p freed a rest rest' r : 0 <= p ->
  replicate (Z.to_nat p) tok ++ a ≡ₚ r ++ rest -> (if b then [tok] else []) ++ rest ≡ₚ freed ++ rest' ->
  replicate (Z.to_nat (p + (if b then 1 else 0))) tok ++ a ≡ₚ (r ++ freed) ++ rest'.
Proof using.
  intros Hp E1 E2. rewrite <- app_assoc, <- E2. rewrite (Permutation_app_comm r), <- app_assoc, (Permutation_app_comm rest), <- E1.
  rewrite app_assoc. f_equiv. destruct b; cbn; [|by rewrite Z.add_0_r]. rewrite Z2Nat.inj_add by lia. by rewrite Nat.add_comm.
Qed.

(** The bytes of a span inside the packet. *)
Lemma read_span q n : 0 <= q -> 0 <= n -> q + n <= zlen l -> exists bs,
  copy_raw (Z.to_nat (b_size (subspan pkt q n))) M (b_data (subspan pkt q n)) = Some bs /\ bytes_ok bs /\ zlen bs < 2 ^ 63.
Proof using Hh Hl Hlt.
  intros Hq Hn0 Hz. exists (slice l q n). cbn. pose proof (zlen_slice l q n Hq Hn0 Hz) as Hzl.
  split; [|split; [by apply bytes_ok_slice|lia]]. replace (Z.to_nat n) with (length (slice l q n)) by (unfold zlen in Hzl; lia).
  by apply copy_raw_spec, holds_slice.
Qed.

Context (Hb4 : next_id_ (d_ipv4 D0) + 64 < 2 ^ 32 - 1) (Hb6 : next_id_ (d_ipv6 D0) + 64 < 2 ^ 32 - 1).

Lemma fed_vok {K} `{Countable K} (t : lens K) d s' n v v' : vok n v -> v_defrag v = Some d -> 0 <= n < 64 ->
  fed t d s' v v' ->
  near (ipv4_defrag opts) pid (d_ipv4 D0) (d_ipv4 (l_set t s' d)) -> near (ipv6_defrag opts) pid (d_ipv6 D0) (d_ipv6 (l_set t s' d)) ->
  next_id_ (d_ipv4 (l_set t s' d)) <= next_id_ (d_ipv4 d) + 1 -> next_id_ (d_ipv6 (l_set t s' d)) <= next_id_ (d_ipv6 d) + 1 ->
  (forall b freed, (if b : bool then [tok] else []) ++ pinned (l_get t d) ≡ₚ freed ++ pinned s' ->
     (if b then [tok] else []) ++ pinned_all d ≡ₚ freed ++ pinned_all (l_set t s' d)) ->
  vok (n + 1) v'.
Proof using.
  intros [] Hd Hn64 [F1 F2 F3 F4 (b & freed & F5 & F6 & F7 & F8)] H4 H6 N4 N6 Hacc. rewrite Hd in *. cbn [default id] in *.
  rewrite vo_token0 in F8. assert (Hp : v_pin_count v' = v_pin_count v + (if b then 1 else 0)) by (rewrite F5, wrap_small; destruct b; lia).
  constructor; rewrite ?F1, ?F2, ?F3, ?F4; cbn [default id]; try done; try lia.
  - rewrite Hp. destruct b; lia.
  - rewrite <- vo_tracking0, F6. destruct (v_retired v); split; intros [? ?]; eauto; done.
  - rewrite Hp. assert (default [] (v_retired v') = default [] (v_retired v) ++ freed) as ->.
    { rewrite F6. destruct (v_retired v); [done|]. by rewrite F7. }
    apply (account_snoc b _ freed _ (pinned_all d)); [lia|done|]. by apply Hacc.
Qed.

Lemma ipv4_lens_ok : lens_ok (ipv4_table opts).
Proof using Hmax4. by split. Qed.
Lemma ipv6_lens_ok : lens_ok (ipv6_table opts).
Proof using Hmax6. by split. Qed.

Lemma visit_ipv4_ok n h v : vok n v -> 0 <= n < 64 -> exists v', visit_ipv4 ps opts sort M h v = Some v' /\ vok (n + 1) v'.
Proof using All.
  intros Hv Hn64. unfold visit_ipv4. set (v1 := set_ctx (with_ip (v_ctx (push_node "ipv4" h v)) 4) (push_node "ipv4" h v)).
  assert (Hv1 : vok n v1) by (apply (vok_core n n v); [done|done|apply Hv|lia]).
  destruct (negb _); [exists v1; split; [done|]; apply (vok_core n _ v1); [done|done|apply Hv1|lia]|].
  destruct (v_defrag v1) as [d|] eqn:Ed; [|exists v1; split; [done|]; apply (vok_core n _ v1); [done|done|apply Hv1|lia]].
  set (v2 := set_is_fragment v1). assert (Hv2 : vok n v2) by (apply (vok_core n n v1); [done|done|apply Hv1|lia]).
  assert (Ed2 : v_defrag v2 = Some d) by done. change (c_pkt (v_ctx v1)) with (c_pkt (v_ctx v2)). rewrite (vo_pkt n v2 Hv2), Hn.
  set (hl := Z.max (member Ipv4 h "ihl" * 4) (wire_size Ipv4)). assert (Hhl : 20 <= hl) by (unfold hl; change (wire_size Ipv4) with 20; lia).
  pose proof (vo_at n v2 Hv2) as Hat. change (v_at v1) with (v_at v2). destruct (Z.ltb_spec (zlen l) (v_at v2 + hl)); [exists v2; split; [done|]; apply (vok_core n _ v2); [done|done|done|lia]|].
  set (dec := if hl <? member Ipv4 h "total_length" then member Ipv4 h "total_length" - hl else 0).
  assert (Hdec : 0 <= dec) by (unfold dec; destruct (Z.ltb_spec hl (member Ipv4 h "total_length")); lia).
  destruct (read_span (v_at v2 + hl) (Z.min dec (zlen l - (v_at v2 + hl))) ltac:(lia) ltac:(lia) ltac:(lia)) as (bs & Hc & Hbs & Hz).
  pose proof (vo_near4 n v2 Hv2) as N4. pose proof (vo_near6 n v2 Hv2) as N6. pose proof (vo_next4 n v2 Hv2) as X4. pose proof (vo_next6 n v2 Hv2) as X6.
  rewrite Ed2 in N4, N6, X4, X6. cbn [default id] in *. pose proof (vo_pins n v2 Hv2).
  match goal with |- exists v', feed_fragment ps sort M ?t ?k ?d ?nm ?off ?mo ?mf ?fst ?pay ?ver ?pr ?w = _ /\ _ =>
    destruct (feed_fragment_fed ps opts sort M pid t k d nm off mo mf fst pay bs ver pr w (d_ipv4 D0) ipv4_lens_ok) as (v' & s' & E & Hfed & Hs' & Hnx);
      [done|cbn; lia|apply (wrap_range 32); lia|done|done|done|apply Hv2|lia|] end.
  exists v'. split; [exact E|]. apply (fed_vok (ipv4_table opts) d s' n v2 v' Hv2 Ed2 Hn64 Hfed); cbn; try done; try lia.
  intros b freed Hp. unfold pinned_all. cbn. by rewrite !app_assoc, Hp.
Qed.

Lemma visit_fragment_ok n h v : vok n v -> 0 <= n < 64 -> exists v', visit_fragment ps opts sort M h v = Some v' /\ vok (n + 1) v'.
Proof using All.
  intros Hv Hn64. unfold visit_fragment. set (v1 := set_ident _ v).
  assert (Hv1 : vok n v1) by (apply (vok_core n n v); [done|done|apply Hv|lia]).
  destruct (v_defrag v1) as [d|] eqn:Ed; [|exists v1; split; [done|]; apply (vok_core n _ v1); [done|done|apply Hv1|lia]].
  set (v2 := set_is_fragment v1). assert (Hv2 : vok n v2) by (apply (vok_core n n v1); [done|done|apply Hv1|lia]).
  assert (Ed2 : v_defrag v2 = Some d) by done. rewrite (vo_pkt n v2 Hv2), Hn.
  pose proof (vo_at n v2 Hv2) as Hat. change (v_at v1) with (v_at v2). destruct (Z.ltb_spec (zlen l) (v_at v2 + 8)); [exists v2; split; [done|]; apply (vok_core n _ v2); [done|done|done|lia]|].
  set (bp := u64 _). set (dec := if bp <? v_ipv6_payload_length v2 then v_ipv6_payload_length v2 - bp else 0).
  assert (Hdec : 0 <= dec) by (unfold dec; destruct (Z.ltb_spec bp (v_ipv6_payload_length v2)); lia).
  destruct (read_span (v_at v2 + 8) (Z.min dec (zlen l - (v_at v2 + 8))) ltac:(lia) ltac:(lia) ltac:(lia)) as (bs & Hc & Hbs & Hz).
  pose proof (vo_near4 n v2 Hv2) as N4. pose proof (vo_near6 n v2 Hv2) as N6. pose proof (vo_next4 n v2 Hv2) as X4. pose proof (vo_next6 n v2 Hv2) as X6.
  rewrite Ed2 in N4, N6, X4, X6. cbn [default id] in *. pose proof (vo_pins n v2 Hv2).
  match goal with |- exists v', feed_fragment ps sort M ?t ?k ?d ?nm ?off ?mo ?mf ?fst ?pay ?ver ?pr ?w = _ /\ _ =>
    destruct (feed_fragment_fed ps opts sort M pid t k d nm off mo mf fst pay bs ver pr w (d_ipv6 D0) ipv6_lens_ok) as (v' & s' & E & Hfed & Hs' & Hnx);
      [done|cbn; lia|apply (wrap_range 32); lia|done|done|done|apply Hv2|lia|] end.
  exists v'. split; [exact E|]. apply (fed_vok (ipv6_table opts) d s' n v2 v' Hv2 Ed2 Hn64 Hfed); cbn; try done; try lia.
  intros b freed Hp. unfold pinned_all. cbn. rewrite (Permutation_app_comm (pinned (d_ipv4 d))), app_assoc, Hp, <- app_assoc. f_equiv. apply Permutation_app_comm.
Qed.

(** A call that hands no fragment over leaves the tables alone. *)
Lemma visit_plain v e : 0 <= v_at v -> call_ok e -> fragment_call e = false ->
  exists v', visit ps opts sort M v e = Some v' /\ core v' = core v /\ 0 <= v_at v'.
Proof using.
  intros Ha He Hf. destruct e; try done; cbn [visit]; eexists; (split; [done|]); try (by split);
    unfold visit_l2_done, visit_tcp, visit_udp; repeat case_match; by split.
Qed.

Lemma visit_ok n v e : vok n v -> call_ok e -> 0 <= n -> n + fragment_calls [e] <= 64 ->
  exists v', visit ps opts sort M v e = Some v' /\ vok (n + fragment_calls [e]) v'.
Proof using All.
  intros Hv He Hn0 Hb. destruct (fragment_call e) eqn:Ef.
  - assert (fragment_calls [e] = 1) as E1 by (unfold fragment_calls; cbn; by rewrite Ef). rewrite E1 in *.
    destruct e; try done; [apply visit_ipv4_ok|apply visit_fragment_ok]; done || lia.
  - assert (fragment_calls [e] = 0) as E0 by (unfold fragment_calls; cbn; by rewrite Ef). rewrite E0, Z.add_0_r.
    destruct (visit_plain v e (vo_at _ _ Hv) He Ef) as (v' & -> & Hc & Ha). exists v'. split; [done|]. by apply (vok_core n n v).
Qed.

Lemma visit_all_none es : fold_left (fun r e => v ← r; visit ps opts sort M v e) es None = None.
Proof using. induction es as [|e es IH]; [done|exact IH]. Qed.

Lemma visit_all_ok es : forall n v, vok n v -> Forall call_ok es -> 0 <= n -> n + fragment_calls es <= 64 ->
  exists v', visit_all ps opts sort M v es = Some v' /\ vok (n + fragment_calls es) v'.
Proof using All.
  induction es as [|e es IH]; intros n v Hv He Hn0 Hb.
  - exists v. split; [done|]. change (fragment_calls []) with 0. by rewrite Z.add_0_r.
  - apply Forall_cons in He as [He Hes]. change (e :: es) with ([e] ++ es) in *. rewrite fragment_calls_app in *.
    pose proof (zlen_nonneg (List.filter fragment_call es)) as Hf1. pose proof (zlen_nonneg (List.filter fragment_call [e])) as Hf2.
    fold (fragment_calls es) in Hf1. fold (fragment_calls [e]) in Hf2.
    destruct (visit_ok n v e Hv He Hn0 ltac:(lia)) as (v1 & E1 & Hv1).
    destruct (IH _ v1 Hv1 Hes ltac:(lia) ltac:(lia)) as (v' & E & Hv'). exists v'. rewrite Z.add_assoc. split; [|done].
    unfold visit_all in *. cbn [app fold_left mbind option_bind]. by rewrite E1.
Qed.

Lemma visit_packet_ok link v : vok 0 v -> exists v', visit_packet ps opts sort M link pkt v = Some v' /\ vok 64 v'.
Proof using All.
  intros Hv. unfold visit_packet. destruct (Z.eqb_spec link kLinkTypeEthernet) as [->|Hne].
  - destruct (walk_runs M pkt l Hh Hn Hl Hlt) as (es & res & -> & Hr). destruct (run_calls l Begin es res Hl Hr ltac:(cbn; lia)) as [He Hb].
    cbn [layer_bound] in Hb. destruct (visit_all_ok es 0 v Hv He ltac:(lia) ltac:(lia)) as (v' & E & Hv').
    exists v'. split; [done|]. apply (vok_core (0 + fragment_calls es) 64 v'); [done|done|apply Hv'|lia].
  - unfold walk_packet_ext. destruct (Z.eqb_spec link kLinkTypeEthernet); [done|]. exists v. split; [done|]. apply (vok_core 0 64 v); [done|done|apply Hv|lia].
Qed.
End Packet.
