(* ===== verification/StreamingSpecs.v ===== *)
(** * The streaming session and the decode pass: what they promise

    Under positive timeouts, feeding a block of at least eight bytes does not
    fault and keeps the session well formed; the caller's buffers are reported
    free exactly when no fragment span points into them; a whole file is decoded
    or refused. *)
From stdpp Require Import gmap.
From S2P Require Import Prelude Parser BytesParsers Combinators CombinatorFacts Numbers Defrag DefragScan DefragTable Reflect ReflectFacts Emit StructSpecs Segmented Members Pcap PcapRound Walk Protocol Visitor Streaming PacketSafe.

(** * The streaming session: accounts and one fed block

    The pin counts agree with the fragment spans the tables hold; feeding a
    block keeps them so and reports the buffers it freed. *)

(** ** Pin counts *)
Definition count (t : Z) (l : list Z) : Z := zlen (filter (fun x => x = t) l).

#[export] Instance zlen_proper A : Proper (Permutation ==> eq) (@zlen A).
Proof. intros l l' Hl. unfold zlen. by rewrite Hl. Qed.

#[export] Instance count_proper t : Proper (Permutation ==> eq) (count t).
Proof. intros l l' Hl. unfold count, zlen. by rewrite Hl. Qed.

Lemma count_cons t x l : count t (x :: l) = (if decide (x = t) then 1 else 0) + count t l.
Proof. unfold count. rewrite filter_cons. destruct (decide (x = t)); [rewrite zlen_cons; lia|lia]. Qed.

Lemma count_app t l l' : count t (l ++ l') = count t l + count t l'.
Proof. unfold count. by rewrite filter_app, zlen_app. Qed.

Lemma count_range t l : 0 <= count t l <= zlen l.
Proof. unfold count, zlen. pose proof (length_filter (fun x => x = t) l). lia. Qed.

Lemma count_elem t l : 0 < count t l <-> t ∈ l.
Proof.
  induction l as [|x l IH]; [split; [done|by intros ?%elem_of_nil]|]. rewrite count_cons, elem_of_cons.
  pose proof (count_range t l). destruct (decide (x = t)) as [->|Hne]; [split; [by left|lia]|].
  rewrite Z.add_0_l, IH. split; [intros Hl; by right|]. intros [->|Hl]; done.
Qed.

(** [pins] counts the tokens of [l]. *)
Definition accounts (pins : gmap Z Z) (l : list Z) : Prop :=
  forall t, pins !! t = if 0 <? count t l then Some (count t l) else None.

#[export] Instance accounts_proper pins : Proper (Permutation ==> iff) (accounts pins).
Proof. intros l l' Hl. split; intros Ha t; rewrite (Ha t); by rewrite (count_proper t _ _ Hl). Qed.

Lemma accounts_pinned pins l t : accounts pins l -> is_Some (pins !! t) <-> t ∈ l.
Proof.
  intros Ha. rewrite Ha, <- count_elem. destruct (Z.ltb_spec 0 (count t l)); [by split; [|eexists]|]. split; [by intros []|lia].
Qed.

(** One pin less. *)
Lemma unpin_one pins out t l : accounts pins (t :: l) -> t <> kNoToken -> zlen l < 2 ^ 32 - 1 ->
  exists pins', unpin (pins, out) t = (pins', out ++ (if decide (t ∈ l) then [] else [t])) /\ accounts pins' l.
Proof.
  intros Ha Ht Hz. unfold unpin. destruct (Z.eqb_spec t kNoToken); [done|]. pose proof (Ha t) as E. rewrite count_cons in E.
  destruct (decide (t = t)); [|done]. pose proof (count_range t l). destruct (Z.ltb_spec 0 (1 + count t l)); [|lia]. rewrite E.
  replace (1 + count t l - 1) with (count t l) by lia. rewrite wrap_small by lia.
  assert (Hother : forall t', t' <> t -> pins !! t' = if 0 <? count t' l then Some (count t' l) else None).
  { intros t' Hne. rewrite Ha, count_cons. destruct (decide (t = t')); [congruence|done]. }
  destruct (Z.eqb_spec (count t l) 0) as [Hz0|Hz0]; eexists.
  - split; [by destruct (decide (t ∈ l)) as [?%count_elem|]; [lia|]|].
    intros t'. destruct (decide (t' = t)) as [->|Hne]; [rewrite lookup_delete_eq; by rewrite Hz0|rewrite lookup_delete_ne by done; auto].
  - split; [destruct (decide (t ∈ l)) as [|Hno]; [by rewrite app_nil_r|]; destruct Hno; apply count_elem; lia|].
    intros t'. destruct (decide (t' = t)) as [->|Hne]; [rewrite lookup_insert_eq|rewrite lookup_insert_ne by done; auto].
    destruct (Z.ltb_spec 0 (count t l)); [done|lia].
Qed.

(** The tokens of [ts] given back: those whose last pin it was come out, each
    once. *)
Lemma unpin_all_spec ts : forall pins out l, accounts pins (tracked ts ++ l) -> zlen (tracked ts ++ l) < 2 ^ 32 ->
  exists pins' freed, unpin_all (pins, out) ts = (pins', out ++ freed) /\ accounts pins' l /\ NoDup freed /\
    forall t, t ∈ freed <-> t ∈ tracked ts /\ t ∉ l.
Proof.
  induction ts as [|t ts IH]; intros pins out l Ha Hz.
  { exists pins, []. rewrite app_nil_r. split_and!; [done|done|constructor|]. intros t. cbn. set_solver. }
  unfold tracked in *. rewrite filter_cons in *. unfold unpin_all in *. cbn [fold_left].
  destruct (decide (t <> kNoToken)) as [Ht|Ht].
  - cbn [app] in Ha, Hz. rewrite zlen_cons in Hz. destruct (unpin_one pins out t _ Ha Ht ltac:(lia)) as (p1 & -> & Ha1).
    set (o := if decide _ then _ else _). destruct (IH p1 (out ++ o) l Ha1 ltac:(lia)) as (p2 & freed & -> & Ha2 & Hnd & Hf).
    exists p2, (o ++ freed). split; [by rewrite app_assoc|]. split; [done|].
    unfold o. destruct (decide (t ∈ filter (λ t0 : Z, t0 ≠ kNoToken) ts ++ l)) as [Hin|Hni].
    + split; [done|]. intros t'. rewrite elem_of_app, elem_of_nil, Hf, elem_of_cons. apply elem_of_app in Hin. split; [naive_solver|].
      intros [[->|?] ?]; naive_solver.
    + split; [cbn; constructor; [|done]; rewrite Hf; set_solver|].
      intros t'. cbn. rewrite elem_of_cons, Hf, elem_of_cons. set_solver.
  - assert (t = kNoToken) as -> by (destruct (decide (t = kNoToken)); [done|by destruct Ht]).
    change (unpin (pins, out) kNoToken) with (pins, out). by apply IH.
Qed.

(** Pins of the packet just walked. *)
Lemma add_pins_spec pins l tok n : accounts pins l -> 0 <= n -> zlen l + n < 2 ^ 32 ->
  accounts (add_pins pins tok n) (tracked (replicate (Z.to_nat n) tok) ++ l).
Proof.
  intros Ha Hn0 Hz. unfold add_pins. destruct (Z.eqb_spec n 0) as [->|Hn]; [done|]. cbn [negb andb].
  destruct (Z.eqb_spec tok kNoToken) as [->|Ht]; cbn [negb].
  { assert (tracked (replicate (Z.to_nat n) kNoToken) = []) as ->; [|done]. induction (Z.to_nat n); [done|]. unfold tracked in *. by rewrite replicate_S, filter_cons. }
  assert (tracked (replicate (Z.to_nat n) tok) = replicate (Z.to_nat n) tok) as ->.
  { induction (Z.to_nat n); [done|]. unfold tracked in *. rewrite replicate_S, filter_cons, decide_True by done. by f_equal. }
  assert (Hc : forall t, count t (replicate (Z.to_nat n) tok ++ l) = (if decide (tok = t) then n else 0) + count t l).
  { intros t. rewrite count_app. f_equal. assert (forall m, count t (replicate m tok) = if decide (tok = t) then Z.of_nat m else 0) as ->.
    - induction m as [|m IHm]; [by destruct (decide (tok = t))|]. rewrite replicate_S, count_cons, IHm. destruct (decide (tok = t)); lia.
    - by rewrite Z2Nat.id. }
  intros t. rewrite Hc. pose proof (count_range t l). destruct (decide (tok = t)) as [<-|Hne].
  - rewrite lookup_insert_eq. destruct (Z.ltb_spec 0 (n + count tok l)); [|lia]. f_equal. rewrite (Ha tok).
    destruct (Z.ltb_spec 0 (count tok l)); cbn; rewrite wrap_small; lia.
  - rewrite lookup_insert_ne by done. by rewrite Ha.
Qed.

(** ** Packet records *)
Section Block.
Context (M : memory) (block : bytes) (l : list Z).
Context (Hh : holds M (b_data block) l) (Hn : b_size block = zlen l) (Hl : bytes_ok l) (Hlt : zlen l < 2 ^ 60).

(** Enough bytes for a block of [k] to be looked at: an enhanced packet block
    has its type and length words. *)
Definition framed (k : Kind) : Prop := k = Epb -> 8 <= zlen l.

Lemma parse_epb_answers ref : file_offset ref = 0 -> framed (kind ref) ->
  exists r, parse_epb M block ref = Ok r /\ forall e, r = Some e -> 0 <= payload_file_offset e /\ 0 <= caplen e.
Proof using All.
  intros Hq Hk. destruct (decide (kind ref = Epb)) as [He|He]; [|destruct (decide (kind ref = PcapRecord)) as [Hr|Hr]].
  - destruct (Z.le_gt_cases 28 (zlen l)).
    + rewrite (parse_epb_block M block l Hh Hn Hl Hlt ref 0) by done || lia. destruct (_ <? _); [by exists None|].
      eexists. split; [done|]. intros e [= <-]. cbn [payload_file_offset caplen]. pose proof (file_word_range l Hl (order_of (little_endian ref)) (0 + 20) 4 ltac:(lia) ltac:(lia) ltac:(lia)). lia.
    + exists None. split; [|done]. apply (parse_epb_short M block l Hn Hlt ref 0); done || (try specialize (Hk He); lia).
  - destruct (Z.le_gt_cases 16 (zlen l)).
    + rewrite (parse_epb_record M block l Hh Hn Hl Hlt ref 0) by done || lia.
      eexists. split; [done|]. intros e [= <-]. cbn [payload_file_offset caplen]. pose proof (file_word_range l Hl (order_of (little_endian ref)) (0 + 8) 4 ltac:(lia) ltac:(lia) ltac:(lia)). lia.
    + exists None. split; [|done]. unfold parse_epb. rewrite Hr, Hq. fold (cursor block 0).
      destruct (strct_short M block l Hn Hlt pcap_rec_hdr (order_of (little_endian ref)) 0) as [err ->]; [pose proof (zlen_nonneg l); lia|done|done].
  - exists None. split; [|done]. unfold parse_epb. by destruct (kind ref).
Qed.
End Block.

(** ** The tables between packets *)
Record tables_ok (opts : DecodeOptions) (pid : Z) (d : DefragState) : Prop := {
  to_ok4 : table_ok (ipv4_defrag opts) (d_ipv4 d);
  to_ok6 : table_ok (ipv6_defrag opts) (d_ipv6 d);
  to_bytes4 id r : by_id_ (d_ipv4 d) !! id = Some r -> holds_bytes r;
  to_bytes6 id r : by_id_ (d_ipv6 d) !! id = Some r -> holds_bytes r;
  to_next4 : next_id_ (d_ipv4 d) <= 1 + 64 * pid;
  to_next6 : next_id_ (d_ipv6 d) <= 1 + 64 * pid
}.

(** What the options must offer. *)
Record options_ok (opts : DecodeOptions) : Prop := {
  oo_max4 : 0 <= max_datagram_bytes (ipv4_defrag opts) < 2 ^ 32;
  oo_max6 : 0 <= max_datagram_bytes (ipv6_defrag opts) < 2 ^ 32;
  oo_timeout4 : 0 < timeout_ticks (ipv4_defrag opts) < 2 ^ 32;
  oo_timeout6 : 0 < timeout_ticks (ipv6_defrag opts) < 2 ^ 32
}.

Lemma tables_ok_empty opts : tables_ok opts 0 (MkDefrag empty_table empty_table).
Proof. split; cbn; try apply empty_table_ok; try lia; by intros id r ?%lookup_empty_Some. Qed.

Section Packet.
Context {U : Type} (ps : list (protocol U)) (opts : DecodeOptions) (sort : list FragmentSpan -> list FragmentSpan) `{!SortsFragments sort}.
Context (Ho : options_ok opts).
Context (M : memory) (block : bytes) (l : list Z).
Context (Hh : holds M (b_data block) l) (Hn : b_size block = zlen l) (Hl : bytes_ok l) (Hlt : zlen l < 2 ^ 60).

(** The walk of one packet, and what it leaves in the tables. *)
Lemma decode_packet_ok s w e link tok tracking : tables_ok opts (s_pid s) (s_defrag s) -> s_pid s < 2 ^ 25 ->
  0 <= payload_file_offset e -> 0 <= caplen e ->
  exists w' d n retired, decode_packet (U := U) ps opts sort M s w block e link tok tracking = Some (w', d, n, retired) /\
    near (ipv4_defrag opts) (s_pid s) (d_ipv4 (s_defrag s)) (d_ipv4 d) /\ near (ipv6_defrag opts) (s_pid s) (d_ipv6 (s_defrag s)) (d_ipv6 d) /\
    next_id_ (d_ipv4 d) <= next_id_ (d_ipv4 (s_defrag s)) + 64 /\ next_id_ (d_ipv6 d) <= next_id_ (d_ipv6 (s_defrag s)) + 64 /\ 0 <= n <= 64 /\
    replicate (Z.to_nat n) tok ++ pinned_all (s_defrag s) ≡ₚ retired ++ pinned_all d.
Proof using All.
  intros [] Hp Hpo Hcap. unfold decode_packet.
  assert (N4 : near (ipv4_defrag opts) (s_pid s) (d_ipv4 (s_defrag s)) (d_ipv4 (s_defrag s))) by (split; auto).
  assert (N6 : near (ipv6_defrag opts) (s_pid s) (d_ipv6 (s_defrag s)) (d_ipv6 (s_defrag s))) by (split; auto).
  destruct (decode_l2l3 opts && (payload_file_offset e + caplen e <=? b_size block)) eqn:E.
  2:{ exists w, (s_defrag s), 0, []. split_and!; try done; lia. }
  apply andb_true_iff in E as [_ Hin%Z.leb_le]. set (pkt := subspan block (payload_file_offset e) (caplen e)).
  pose proof (zlen_slice l (payload_file_offset e) (caplen e) ltac:(lia) ltac:(lia) ltac:(lia)) as Hz.
  set (v0 := packet_visitor opts s w link tok tracking pkt).
  destruct (visit_packet_ok ps opts sort (oo_max4 _ Ho) (oo_max6 _ Ho) M pkt (slice l (payload_file_offset e) (caplen e))
              ltac:(apply holds_slice; done || lia) ltac:(done) ltac:(by apply bytes_ok_slice) ltac:(lia) (s_pid s) tok tracking (s_defrag s) ltac:(lia) ltac:(lia) link v0)
    as (v & Hv & []).
  - unfold v0, packet_visitor. assert (Hd : default (s_defrag s) (if decode_defrag opts then Some (s_defrag s) else None) = s_defrag s) by by destruct (decode_defrag opts).
    split; cbn [v_at v_ctx v_token v_pin_count v_retired v_defrag c_packet_id c_pkt]; rewrite ?Hd; try done; try lia.
    + by destruct tracking.
    + by destruct tracking.
  - rewrite Hv. cbn [mbind option_bind]. eexists _, _, _, _. split; [done|]. split_and!; try done; lia.
Qed.
End Packet.

Section Session.
Context {U : Type} (ps : list (protocol U)) (opts : DecodeOptions) (sort : list FragmentSpan -> list FragmentSpan) `{!SortsFragments sort}.
Context (Ho : options_ok opts).
Implicit Types s : session (U := U).

(** The buffers pinned by the fragment spans of both tables, one token for
    each span. *)
Definition pins_of s : list Z := tracked (pinned_all (s_defrag s)).

(** A session after at most [s_pid s] packets. *)
Record session_ok s : Prop := {
  so_pid : 0 <= s_pid s;
  so_tables : tables_ok opts (s_pid s) (s_defrag s);
  so_count : zlen (pins_of s) <= 64 * s_pid s;
  so_pins : accounts (s_pins s) (pins_of s)
}.

Lemma new_session_ok (w : world U) : session_ok (new_session w).
Proof using.
  split; [done|apply tables_ok_empty|done|]. intros t. change (pins_of (new_session w)) with (@nil Z). apply lookup_empty.
Qed.

(** The rows of aged-out entries do not touch the accounts. *)
Lemma report_evicted_fold ver out : forall (w : world U) acc, exists w',
  fold_left (report_evicted ver) out (w, acc) = (w', unpin_all acc (concat (s_tokens <$> out))).
Proof using.
  induction out as [|x out IH]; intros w acc; [by exists w|]. cbn [fold_left report_evicted].
  destruct (IH (if negb (s_completion_status x =? 0) then push "datagram" (Datagram (to_datagram_row x ver)) w else w) (unpin_all acc (s_tokens x))) as [w' ->].
  exists w'. cbn. unfold unpin_all. by rewrite fold_left_app.
Qed.

Lemma tracked_submseteq l l' : l ⊆+ tracked l' -> tracked l = l.
Proof using.
  intros Hl. assert (Hne : Forall (fun t => t <> kNoToken) l).
  { apply Forall_forall. intros t Ht. eapply elem_of_submseteq in Ht; [|exact Hl]. by apply list_elem_of_filter in Ht as [? _]. }
  clear Hl. induction Hne as [|t l Ht _ IH]; [done|]. unfold tracked in *. by rewrite filter_cons, decide_True, IH.
Qed.

Lemma replicate_tracked tok n : 0 <= n -> zlen (tracked (replicate (Z.to_nat n) tok)) <= n.
Proof using.
  intros Hn. unfold tracked, zlen. etrans; [apply Nat2Z.inj_le, length_filter|]. rewrite length_replicate. lia.
Qed.

(** The buffer accounts of one packet: [ev] aged out, [n] pins of [tok] added,
    [ret] given back by completed datagrams; [pins] and [pins'] the tokens
    pinned before and after. *)
Lemma settle (m : gmap Z Z) P P' ev ret tok n : accounts m P -> tracked P = P -> tracked P' = P' -> 0 <= n -> zlen P + n < 2 ^ 32 ->
  ev ⊆+ P -> tracked (replicate (Z.to_nat n) tok) ++ P ≡ₚ tracked ret ++ ev ++ P' ->
  exists m' freed, unpin_all (add_pins (unpin_all (m, []) ev).1 tok n, (unpin_all (m, []) ev).2) ret = (m', freed) /\ accounts m' P' /\
    (tok ∉ P -> NoDup freed /\ forall t, t ∈ freed <-> (t ∈ tracked ret \/ t ∈ ev) /\ t ∉ P').
Proof using.
  intros Ha HP HP' Hn Hz Hev Hacc. destruct (submseteq_Permutation _ _ Hev) as [rest Hrest].
  assert (Hte : tracked ev = ev) by (eapply tracked_submseteq; by rewrite HP).
  rewrite Hrest in Ha, Hacc, Hz. rewrite zlen_app in Hz. pose proof (zlen_nonneg ev).
  assert (Hcancel : tracked (replicate (Z.to_nat n) tok) ++ rest ≡ₚ tracked ret ++ P').
  { apply (Permutation_app_inv_l ev). rewrite !app_assoc, !(Permutation_app_comm ev), <- !app_assoc. by rewrite Hacc. }
  destruct (unpin_all_spec ev m [] rest) as (m1 & f1 & -> & Ha1 & Hnd1 & Hf1); [by rewrite Hte|rewrite Hte, zlen_app; lia|]. cbn [fst snd app].
  pose proof (add_pins_spec m1 rest tok n Ha1 Hn ltac:(lia)) as Ha2. rewrite Hcancel in Ha2.
  assert (Hlen : zlen (tracked ret ++ P') <= zlen rest + n).
  { rewrite <- Hcancel, zlen_app. pose proof (replicate_tracked tok n Hn). lia. }
  destruct (unpin_all_spec ret (add_pins m1 tok n) f1 P' Ha2 ltac:(lia)) as (m2 & f2 & -> & Ha3 & Hnd2 & Hf2).
  exists m2, (f1 ++ f2). split; [done|]. split; [done|]. intros Hfresh.
  assert (Hin : forall t, t ∈ tracked ret \/ t ∈ P' <-> t ∈ tracked (replicate (Z.to_nat n) tok) \/ t ∈ rest)
    by (intros t; by rewrite <- !elem_of_app, Hcancel).
  assert (Htok : forall t, t ∈ tracked (replicate (Z.to_nat n) tok) -> t = tok).
  { intros t [_ Ht]%list_elem_of_filter. by apply elem_of_replicate in Ht as [-> _]. }
  rewrite Hte in Hf1. assert (HinP : forall t, t ∈ P <-> t ∈ ev \/ t ∈ rest) by (intros t; by rewrite Hrest, elem_of_app).
  split.
  - apply NoDup_app. split; [done|]. split; [|done]. intros t Ht1 Ht2. apply Hf1 in Ht1 as [? ?]. apply Hf2 in Ht2 as [? ?].
    destruct (proj1 (Hin t)) as [?%Htok|]; [by left|subst|done]. apply Hfresh, HinP. by left.
  - intros t. rewrite elem_of_app, Hf1, Hf2. split.
    + intros [[? ?]|[? ?]]; [|tauto]. split; [by right|]. intros HtP. destruct (proj1 (Hin t)) as [?%Htok|]; [by right|subst|done].
      apply Hfresh, HinP. by left.
    + intros [[?|?] ?]; [tauto|]. destruct (decide (t ∈ rest)); [|tauto]. destruct (proj2 (Hin t)); [by right|tauto|done].
Qed.

(** ** One packet block *)

(** What the caller is told about its buffers when it feeds the buffer [tok],
    which no span pointed into: [tok] is pinned iff a span points into it now,
    and each buffer that was in use and no longer is, is reported once. *)
Record told s tok s' (fr : FeedResult) : Prop := {
  told_pinned : fr_pinned fr = true <-> tok <> kNoToken /\ tok ∈ pins_of s';
  told_once : NoDup (fr_released fr);
  told_released t : t ∈ fr_released fr <-> t <> kNoToken /\ (t = tok \/ t ∈ pins_of s) /\ t ∉ pins_of s';
  told_within t : t ∈ pins_of s' -> t = tok \/ t ∈ pins_of s
}.

Lemma tracked_idem l : tracked (tracked l) = tracked l.
Proof using. by eapply tracked_submseteq. Qed.

Lemma own_token freed tok t : t ∈ release_own_token freed tok <-> t ∈ freed \/ t = tok /\ tok <> kNoToken.
Proof using.
  unfold release_own_token. destruct (Z.eqb_spec tok kNoToken); [tauto|]. destruct (bool_decide_reflect (tok ∈ freed)); [|rewrite elem_of_app, list_elem_of_singleton; tauto].
  split; [tauto|]. by intros [|[-> _]].
Qed.

Lemma own_token_once freed tok : NoDup freed -> NoDup (release_own_token freed tok).
Proof using.
  intros Hf. unfold release_own_token. destruct (tok =? kNoToken); [done|]. destruct (bool_decide_reflect (tok ∈ freed)); [done|].
  apply NoDup_app. split; [done|]. split; [|apply NoDup_singleton]. by intros t ? ->%list_elem_of_singleton.
Qed.

(** The eviction that follows a packet, over both tables. *)
Lemma evict_tables d0 d pid : 0 <= pid < 2 ^ 32 ->
  near (ipv4_defrag opts) pid (d_ipv4 d0) (d_ipv4 d) -> near (ipv6_defrag opts) pid (d_ipv6 d0) (d_ipv6 d) ->
  next_id_ (d_ipv4 d) <= 1 + 64 * (pid + 1) -> next_id_ (d_ipv6 d) <= 1 + 64 * (pid + 1) ->
  exists t4 out4 t6 out6, evict_stale (ipv4_defrag opts) (d_ipv4 d) pid = (t4, out4) /\ evict_stale (ipv6_defrag opts) (d_ipv6 d) pid = (t6, out6) /\
    tables_ok opts (pid + 1) (MkDefrag t4 t6) /\
    let ev := concat (s_tokens <$> out4) ++ concat (s_tokens <$> out6) in
    ev ⊆+ tracked (pinned_all d0) /\ tracked (pinned_all d) ≡ₚ ev ++ tracked (pinned_all (MkDefrag t4 t6)).
Proof using Ho.
  intros Hp N4 N6 X4 X6. destruct Ho.
  pose proof (evict_near (ipv4_defrag opts) pid (d_ipv4 d0) (d_ipv4 d) N4 ltac:(lia) ltac:(lia) ltac:(lia)) as E4.
  pose proof (evict_near (ipv6_defrag opts) pid (d_ipv6 d0) (d_ipv6 d) N6 ltac:(lia) ltac:(lia) ltac:(lia)) as E6.
  destruct (evict_stale (ipv4_defrag opts) (d_ipv4 d) pid) as [t4 out4]. destruct (evict_stale (ipv6_defrag opts) (d_ipv6 d) pid) as [t6 out6].
  destruct E4 as (? & ? & ? & P4 & S4), E6 as (? & ? & ? & P6 & S6). exists t4, out4, t6, out6. split; [done|]. split; [done|].
  split; [split; cbn; done || lia|]. cbn zeta. unfold pinned_all. cbn [d_ipv4 d_ipv6]. rewrite !tracked_app. split; [by apply submseteq_app|].
  rewrite P4, P6. solve_Permutation.
Qed.

(** The caller's answer, from the accounts. *)
Lemma settled_told s tok s' ret ev n freed : accounts (s_pins s') (pins_of s') -> tok ∉ pins_of s ->
  tracked (replicate (Z.to_nat n) tok) ++ pins_of s ≡ₚ tracked ret ++ ev ++ pins_of s' ->
  NoDup freed -> (forall t, t ∈ freed <-> (t ∈ tracked ret \/ t ∈ ev) /\ t ∉ pins_of s') ->
  let pinned := negb (tok =? kNoToken) && bool_decide (is_Some (s_pins s' !! tok)) in
  told s tok s' (MkFeed true pinned (if pinned then freed else release_own_token freed tok)).
Proof using.
  intros Ha Hf Hacc Hnd Hfr pinned.
  assert (Hin : forall t, (t ∈ tracked ret \/ t ∈ ev) \/ t ∈ pins_of s' <-> t ∈ tracked (replicate (Z.to_nat n) tok) \/ t ∈ pins_of s)
    by (intros t; rewrite <- !elem_of_app, <- app_assoc; by rewrite Hacc).
  assert (Htok : forall t, t ∈ tracked (replicate (Z.to_nat n) tok) -> t <> kNoToken /\ t = tok).
  { intros t [? Ht]%list_elem_of_filter. by apply elem_of_replicate in Ht as [-> _]. }
  assert (HP : forall t, t ∈ pins_of s -> t <> kNoToken) by by intros t [? _]%list_elem_of_filter.
  assert (Hp : pinned = true <-> tok <> kNoToken /\ tok ∈ pins_of s').
  { unfold pinned. rewrite andb_true_iff, negb_true_iff, Z.eqb_neq, bool_decide_eq_true. by rewrite (accounts_pinned _ _ _ Ha). }
  assert (Hpart : forall t, t ∈ freed -> t <> kNoToken /\ (t = tok \/ t ∈ pins_of s) /\ t ∉ pins_of s').
  { intros t [Ht Hno]%Hfr. destruct (proj1 (Hin t)) as [[? ?]%Htok|]; auto. }
  split; cbn [fr_pinned fr_released]; [done| | |].
  - destruct pinned; [done|by apply own_token_once].
  - intros t. assert (Hback : t <> kNoToken /\ (t = tok \/ t ∈ pins_of s) /\ t ∉ pins_of s' -> t ∈ freed \/ t = tok /\ tok <> kNoToken).
    { intros (Hne & [->|Ht] & Hno); [by right|]. left. apply Hfr. split; [|done]. destruct (proj2 (Hin t)); tauto. }
    destruct pinned; [|rewrite own_token]; split; auto.
    + intros Ht. destruct (Hback Ht) as [|[-> _]]; [done|]. destruct (proj1 Hp eq_refl), Ht as (_ & _ & ?). done.
    + intros [?|[-> Hne]]; [auto|]. split; [done|]. split; [by left|]. intros Ht. destruct Hp as [_ Hp]. discriminate Hp. done.
  - intros t Ht. destruct (proj1 (Hin t)) as [[_ ?]%Htok|]; auto.
Qed.

Context (M : memory) (block : bytes) (l : list Z).
Context (Hh : holds M (b_data block) l) (Hn : b_size block = zlen l) (Hl : bytes_ok l) (Hlt : zlen l < 2 ^ 60).

Lemma feed_epb_spec s le tok k off : session_ok s -> s_pid s < 2 ^ 25 -> framed l k ->
  exists s' fr, feed_epb ps opts sort M s block le tok k off = Some (s', fr) /\ session_ok s' /\
    s_pid s' = (if fr_ok fr then s_pid s + 1 else s_pid s) /\ (tok ∉ pins_of s -> told s tok s' fr).
Proof using All.
  intros [] Hp Hk. unfold feed_epb.
  destruct (parse_epb_answers M block l Hh Hn Hl Hlt (MkBlockRef 0 (u32 (b_size block)) kEpb k le) eq_refl Hk) as (r & -> & Hr).
  destruct r as [e|].
  2:{ eexists _, _. split; [done|]. split; [by split|]. split; [done|]. intros Hf. split; cbn.
      - split; [done|]. unfold pins_of in *. cbn. tauto.
      - apply own_token_once. constructor.
      - intros t. change (pins_of (MkSession _ _ _ _ _ _ _)) with (pins_of s). rewrite own_token, elem_of_nil. naive_solver.
      - tauto. }
  destruct (Hr e eq_refl) as [Hpo Hcap]. match goal with |- context [decode_packet _ _ _ _ _ ?w _ _ ?lk _ ?tr] =>
    destruct (decode_packet_ok ps opts sort Ho M block l Hh Hn Hl Hlt s w e lk tok tr so_tables0 Hp Hpo Hcap)
      as (w1 & d & n & ret & -> & N4 & N6 & X4 & X6 & Hn0 & Hacc) end.
  cbn [mbind option_bind]. destruct so_tables0.
  destruct (evict_tables (s_defrag s) d (s_pid s) ltac:(lia) N4 N6 ltac:(lia) ltac:(lia)) as (t4 & out4 & t6 & out6 & -> & -> & Hto & Hev & Hpin).
  destruct (report_evicted_fold 4 out4 w1 (s_pins s, [])) as [w2 ->]. destruct (report_evicted_fold 6 out6 w2 (unpin_all (s_pins s, []) (concat (s_tokens <$> out4)))) as [w3 ->].
  set (ev := concat (s_tokens <$> out4) ++ concat (s_tokens <$> out6)) in *.
  replace (unpin_all (unpin_all (s_pins s, []) (concat (s_tokens <$> out4))) (concat (s_tokens <$> out6))) with (unpin_all (s_pins s, []) ev)
    by (unfold ev, unpin_all; apply fold_left_app).
  apply tracked_proper in Hacc. rewrite !tracked_app, Hpin in Hacc. unfold pins_of in so_count0, so_pins0.
  destruct (settle (s_pins s) (tracked (pinned_all (s_defrag s))) (tracked (pinned_all (MkDefrag t4 t6))) ev ret tok n)
    as (m' & freed & -> & Ha' & Htold); try done; try apply tracked_idem; try lia.
  rewrite wrap_small by lia. eexists _, _. split; [done|]. split; [|split; [done|]].
  - split; cbn [s_pid s_defrag s_pins]; try done; [lia|]. unfold pins_of. cbn [s_defrag]. pose proof (replicate_tracked tok n ltac:(lia)).
    pose proof (zlen_proper _ _ _ Hacc) as Hz. rewrite !zlen_app in Hz. pose proof (zlen_nonneg (tracked ret)). pose proof (zlen_nonneg ev). lia.
  - intros Hf. destruct (Htold Hf) as [Hnd Hfr]. cbn [fst snd].
    match goal with |- told _ _ ?s1 _ => by apply (settled_told s tok s1 ret ev n freed) end.
Qed.
End Session.

(** ** The life of a session *)
Section History.
Context {U : Type} (ps : list (protocol U)) (opts : DecodeOptions) (sort : list FragmentSpan -> list FragmentSpan) `{!SortsFragments sort}.
Context (Ho : options_ok opts).
Implicit Types s : session (U := U).

(** A memory that holds the bytes [l] of [block]. *)
Definition backed (M : memory) (block : bytes) (l : list Z) : Prop :=
  holds M (b_data block) l /\ b_size block = zlen l /\ bytes_ok l /\ zlen l < 2 ^ 60.

(** One call of the caller: the tokens of the buffers it hands over, and those
    it gets back. A token is handed over only while no span points into its
    buffer. *)
Inductive call s : list Z -> list Z -> session -> Prop :=
| call_shb M block s' : feed_shb M s block = Some s' -> call s [] [] s'
| call_idb M block le len s' : feed_idb M s block le len = Some s' -> call s [] [] s'
| call_epb M block l le tok k off s' fr : backed M block l -> framed l k -> tok ∉ pins_of s ->
    feed_epb ps opts sort M s block le tok k off = Some (s', fr) -> call s [tok] (fr_released fr) s'.

Inductive calls s : list Z -> list Z -> session -> Prop :=
| calls_none : calls s [] [] s
| calls_more given back s1 given' back' s' : calls s given back s1 -> call s1 given' back' s' ->
    calls s (given ++ given') (back ++ back') s'.

(** The buffers in use: each pinned one once. *)
Definition in_use s : list Z := (map_to_list (s_pins s)).*1.

Lemma in_use_once s : NoDup (in_use s).
Proof using. apply NoDup_fst_map_to_list. Qed.

Lemma in_use_pinned s t : session_ok opts s -> t ∈ in_use s <-> t ∈ pins_of s.
Proof using.
  intros Hs. rewrite <- (accounts_pinned _ _ _ (so_pins _ _ Hs)). unfold in_use, is_Some. rewrite list_elem_of_fmap. split.
  - intros ([t' n] & -> & Hn%elem_of_map_to_list). by exists n.
  - intros [n Hn]. exists (t, n). split; [done|]. by apply elem_of_map_to_list.
Qed.

Lemma packet_balance s tok s' fr : session_ok opts s -> session_ok opts s' -> tok ∉ pins_of s -> told s tok s' fr ->
  fr_released fr ++ in_use s' ≡ₚ tracked [tok] ++ in_use s.
Proof using.
  intros Hs Hs' Hf [_ Hnd Hrel Hin].
  assert (HP : forall t, t ∈ pins_of s' -> t <> kNoToken) by by intros t [? _]%list_elem_of_filter.
  assert (Htr : forall t, t ∈ tracked [tok] <-> t <> kNoToken /\ t = tok) by (intros t; unfold tracked; by rewrite list_elem_of_filter, list_elem_of_singleton).
  apply NoDup_Permutation.
  - apply NoDup_app. split; [done|]. split; [|apply in_use_once]. intros t (_ & _ & ?)%Hrel. by rewrite in_use_pinned.
  - apply NoDup_app. split; [apply NoDup_filter, NoDup_singleton|]. split; [|apply in_use_once]. intros t [_ ->]%Htr. by rewrite in_use_pinned.
  - intros t. rewrite !elem_of_app, Htr, !in_use_pinned, Hrel by done. specialize (Hin t). specialize (HP t).
    assert (t ∈ pins_of s -> t <> kNoToken) by by intros [? _]%list_elem_of_filter.
    destruct (list_elem_of_dec t (pins_of s')); naive_solver.
Qed.

Lemma call_balance s given back s' : session_ok opts s -> call s given back s' -> s_pid s < 2 ^ 25 ->
  session_ok opts s' /\ s_pid s' <= s_pid s + zlen given /\ back ++ in_use s' ≡ₚ tracked given ++ in_use s.
Proof using All.
  intros Hs Hc Hp. destruct Hc as [M block s' E|M block le len s' E|M block l le tok k off s' fr (Hh & Hn & Hl & Hlt) Hk Hf E].
  - unfold feed_shb in E. assert (exists le, s' = MkSession (s_world s) (s_defrag s) [] (s_pid s) le (s_tracking s) (s_pins s)) as [le ->]
      by (destruct shb_byte_order; simplify_eq; eauto).
    split; [by destruct Hs; split|]. split; [change (zlen (@nil Z)) with 0; cbn; lia|done].
  - unfold feed_idb in E. destruct parse_idb as [[idb|]|]; simplify_eq; (split; [by destruct Hs; split|]); (split; [change (zlen (@nil Z)) with 0; cbn; lia|done]).
  - destruct (feed_epb_spec ps opts sort Ho M block l Hh Hn Hl Hlt s le tok k off Hs Hp Hk) as (s1 & fr1 & E1 & Hs1 & Hp1 & Ht).
    rewrite E in E1. injection E1 as <- <-. split; [done|]. split; [destruct (fr_ok fr); unfold zlen; cbn; lia|].
    by apply (packet_balance s tok s' fr); auto.
Qed.

Lemma calls_balance s0 given back s : session_ok opts s0 -> calls s0 given back s -> s_pid s0 + zlen given < 2 ^ 25 ->
  session_ok opts s /\ s_pid s <= s_pid s0 + zlen given /\ back ++ in_use s ≡ₚ tracked given ++ in_use s0.
Proof using All.
  intros Hs0. induction 1 as [|given back s1 given' back' s' Hcs IH Hc]; intros Hp; [split; [done|]; split; [unfold zlen; cbn; lia|done]|].
  rewrite zlen_app in *. pose proof (zlen_nonneg given'). destruct (IH ltac:(lia)) as (Hs1 & Hp1 & Hb1).
  destruct (call_balance s1 given' back' s' Hs1 Hc ltac:(lia)) as (Hs' & Hp' & Hb'). split; [done|]. split; [lia|].
  rewrite tracked_app, <- app_assoc, Hb'. rewrite (Permutation_app_comm (tracked given)), <- app_assoc, <- Hb1. solve_Permutation.
Qed.
End History.

(** ** The session's promises *)

(** C35: under positive timeouts and 32-bit datagram limits, fed any packet block of
    at least eight bytes (any record, for a classic capture), a session of fewer
    than 2^25 packets does not fault and stays well formed (both reassembly
    tables, and a pin count for every buffer equal to the number of fragment
    spans into it); the packet number advances exactly when the block is
    accepted; and if the block's token is not in use yet, the caller is told the
    truth about its buffers: [pinned] iff a span points into this block's buffer,
    [released] each buffer that was in use, or is this block's, and into which no
    span points now, once. *)
Theorem feed_epb_accounts {U} (ps : list (protocol U)) opts sort `{!SortsFragments sort} M block l s le tok k off :
  options_ok opts -> backed M block l -> framed l k -> session_ok opts s -> s_pid s < 2 ^ 25 ->
  exists s' fr, feed_epb ps opts sort M s block le tok k off = Some (s', fr) /\ session_ok opts s' /\
    s_pid s' = (if fr_ok fr then s_pid s + 1 else s_pid s) /\ (tok ∉ pins_of s -> told s tok s' fr).
Proof. intros Ho (Hh & Hn & Hl & Hlt) Hk Hs Hp. by apply (feed_epb_spec ps opts sort Ho M block l Hh Hn Hl Hlt). Qed.

(** C36: over the life of a session under positive timeouts and 32-bit datagram
    limits, fed fewer than 2^25 packet blocks of at least eight bytes each (any
    records, for a classic capture), each with a token that is not in use when it
    is handed over, each tracked buffer comes back exactly once, or is in use still:
    the tokens released so far and those pinned now are, together, the tokens handed
    over; [pinned_buffers] is their number less the releases; and a buffer is in
    use only while one of the reassembly tables holds a span into it. *)
Theorem buffers_returned {U} (ps : list (protocol U)) opts sort `{!SortsFragments sort} tables given back s :
  options_ok opts -> calls ps opts sort (new_session tables) given back s -> zlen given < 2 ^ 25 ->
  back ++ in_use s ≡ₚ tracked given /\ pinned_buffers s = zlen (tracked given) - zlen back /\
  NoDup (in_use s) /\ forall t, t ∈ in_use s <-> t ∈ tracked (pinned_all (s_defrag s)).
Proof.
  intros Ho Hc Hz. destruct (calls_balance ps opts sort Ho _ _ _ _ (new_session_ok opts tables) Hc Hz) as (Hs & _ & Hb).
  assert (Hb' : back ++ in_use s ≡ₚ tracked given) by (rewrite Hb; unfold in_use; cbn; by rewrite app_nil_r).
  split; [done|]. split; [|split; [apply in_use_once|intros t; by apply (in_use_pinned opts)]].
  rewrite <- Hb', zlen_app. unfold pinned_buffers, zlen, in_use. rewrite length_fmap, length_map_to_list. lia.
Qed.
