(* ===== verification/DecodePass.v ===== *)
(** * The decode pass over a whole file

    What [run_decode_pass] does with a scanned file under positive timeouts: every
    block is fed without a fault, and the packets table holds one row for each block the block parser
    accepts, in the file's order. *)
From stdpp Require Import gmap.
From S2P Require Import Prelude Parser BytesParsers Combinators CombinatorFacts Numbers Defrag DefragScan DefragTable Reflect ReflectFacts Emit StructSpecs Segmented Members Pcap PcapRound Walk Protocol Visitor Streaming PacketSafe StreamingSpecs.

(** * The packets table

    Only [feed_epb] itself adds to the table of packets: one row for each block
    that is accepted. A protocol's [parse] may touch every other table. *)

Lemma table_push_ne {U} name name' r (w : world U) : name <> name' -> table (push name r w) name' = table w name'.
Proof. intros Hne. unfold table, push. cbn. by rewrite lookup_insert_ne. Qed.

Lemma table_push_eq {U} name r (w : world U) : table (push name r w) name = table w name ++ [r].
Proof. unfold table, push. cbn. by rewrite lookup_insert_eq. Qed.

Section Keeps.
Context {U : Type} (ps : list (protocol U)) (opts : DecodeOptions) (sort : list FragmentSpan -> list FragmentSpan).

(** Protocols that leave the packets alone. *)
Definition keeps_packets : Prop := Forall (fun p => forall M c in_ w, table (p_parse p M c in_ w) "packets" = table w "packets") ps.

Context (Hps : keeps_packets).

Lemma dispatch_keeps layer M c in_ w : table (dispatch ps layer M c in_ w) "packets" = table w "packets".
Proof using All.
  unfold dispatch. revert w. pose proof Hps as Hall. unfold keeps_packets in Hall. clear Hps.
  induction Hall as [|p rest Hp _ IH]; intros w; [done|]. cbn [fold_left]. rewrite IH.
  unfold dispatch_one. destruct (applies _ _); [|done]. by destruct (match_ _ _).
Qed.

Ltac keeps := repeat (rewrite dispatch_keeps || rewrite table_push_ne by done).

Lemma dispatch_l4_keeps c M in_ w w' : dispatch_l4 ps c M in_ w = Some w' -> table w' "packets" = table w "packets".
Proof using All.
  unfold dispatch_l4, on_tcp_layer, on_udp_layer. intros E. repeat case_match; simplify_eq; by keeps.
Qed.

Context (M : memory).

Lemma feed_fragment_keeps {K} `{Countable K} (t : lens K) k d name offset meta more first payload ver proto v v' : name <> "packets"%string ->
  feed_fragment ps sort M t k d name offset meta more first payload ver proto v = Some v' ->
  table (v_world v') "packets" = table (v_world v) "packets".
Proof using All.
  intros Hn. unfold feed_fragment. intros (bs & _ & E)%bind_Some. apply bind_Some in E as ([s o] & _ & E). cbv zeta in E.
  destruct (o_completed o); [|injection E as <-; by apply table_push_ne].
  unfold complete_datagram in E. destruct (place (o_parts o)) as [MD src]. apply bind_Some in E as (w & Hw & E).
  apply dispatch_l4_keeps in Hw. rewrite table_push_ne in Hw by done. cbn [v_world set_world set_defrag] in Hw. rewrite table_push_ne in Hw by done.
  rewrite <- Hw. repeat case_match; by simplify_eq.
Qed.

Lemma visit_keeps v e v' : visit ps opts sort M v e = Some v' -> table (v_world v') "packets" = table (v_world v) "packets".
Proof using All.
  destruct e; cbn [visit]; intros E; try (simplify_eq; cbn; by keeps).
  - simplify_eq. unfold visit_l2_done. case_match; [done|]. cbn. by keeps.
  - unfold visit_ipv4 in E. cbv zeta in E. destruct (negb (_ || _)); [injection E as <-; cbn; by keeps|].
    destruct (v_defrag _) as [d|]; [|injection E as <-; cbn; by keeps]. destruct (b_size _ <? _); [injection E as <-; cbn; by keeps|].
    apply feed_fragment_keeps in E; [|done]. rewrite E. cbn. by keeps.
  - unfold visit_fragment in E. cbv zeta in E. destruct (v_defrag _) as [d|]; [|by injection E as <-].
    destruct (b_size _ <? _); [by injection E as <-|].
    by apply feed_fragment_keeps in E.
  - simplify_eq. unfold visit_tcp. case_match; [done|]. cbn. unfold on_tcp_layer. by keeps.
  - simplify_eq. unfold visit_udp. case_match; [done|]. cbn. unfold on_udp_layer. by keeps.
Qed.

Lemma visit_all_keeps es : forall v v', visit_all ps opts sort M v es = Some v' -> table (v_world v') "packets" = table (v_world v) "packets".
Proof using All.
  unfold visit_all. induction es as [|e es IH]; intros v v' E; [by injection E as <-|]. cbn [fold_left mbind option_bind] in E.
  destruct (visit ps opts sort M v e) as [v1|] eqn:E1; [rewrite (IH _ _ E); by apply visit_keeps in E1|].
  assert (Hnone : fold_left (fun r e => v ← r; visit ps opts sort M v e) es None = None) by (clear; induction es; done). congruence.
Qed.

Lemma report_evicted_keeps ver out : forall w acc, table (fold_left (report_evicted ver) out (w, acc)).1 "packets" = table (U := U) w "packets".
Proof using.
  induction out as [|x out IH]; intros w acc; [done|]. cbn [fold_left report_evicted]. rewrite IH. by case_match; [rewrite table_push_ne|].
Qed.

Lemma decode_packet_keeps s w block e link tok tr w' d n ret : decode_packet ps opts sort M s w block e link tok tr = Some (w', d, n, ret) ->
  table w' "packets" = table w "packets".
Proof using All.
  unfold decode_packet. case_match; [|by intros [= <- <- <- <-]]. intros (v & Hv & [= <- _ _ _])%bind_Some.
  unfold visit_packet in Hv. case_match; [|done]. by apply visit_all_keeps in Hv.
Qed.

(** The row of an accepted block. *)
Definition packet_row (pid off : Z) (e : EpbView) : row := PacketRow pid (u64 (off + payload_file_offset e)) (caplen e) (origlen e).

Lemma feed_epb_rows s block le tok k off s' fr r :
  parse_epb M block (MkBlockRef 0 (u32 (b_size block)) kEpb k le) = Ok r ->
  feed_epb ps opts sort M s block le tok k off = Some (s', fr) ->
  fr_ok fr = bool_decide (is_Some r) /\
  table (s_world s') "packets" = table (s_world s) "packets" ++ (match r with Some e => [packet_row (s_pid s) off e] | None => [] end).
Proof using All.
  intros Hr E. unfold feed_epb in E. rewrite Hr in E. destruct r as [e|]; [|injection E as <- <-; by rewrite app_nil_r].
  apply bind_Some in E as ([[[w d] n] ret] & Hd & E). apply decode_packet_keeps in Hd. rewrite table_push_eq in Hd.
  destruct (evict_stale (ipv4_defrag opts) _ _) as [t4 out4], (evict_stale (ipv6_defrag opts) _ _) as [t6 out6].
  pose proof (report_evicted_keeps 4 out4 w (s_pins s, [])) as E4. destruct (fold_left _ out4 _) as [w4 acc4].
  pose proof (report_evicted_keeps 6 out6 w4 acc4) as E6. destruct (fold_left _ out6 _) as [w6 acc6].
  injection E as <- <-. split; [done|]. cbn [s_world]. cbn [fst] in *. by rewrite E6, E4, Hd.
Qed.
End Keeps.

(** The packet a reference stands for, [None] when its block is refused. *)
Definition accepted (M : memory) (file : bytes) (ref : BlockRef) : option EpbView :=
  match parse_epb M file ref with Ok r => r | Fault _ => None end.

(** The rows of a file's packets, numbered from [pid]. *)
Fixpoint packet_rows (M : memory) (file : bytes) (pid : Z) (refs : list BlockRef) : list row :=
  match refs with
  | [] => []
  | ref :: refs =>
      match accepted M file ref with
      | Some e => PacketRow pid (payload_file_offset e) (caplen e) (origlen e) :: packet_rows M file (pid + 1) refs
      | None => packet_rows M file pid refs
      end
  end.

Section Pass.
Context (M : memory) (file : bytes) (l : list Z).
Context (Hh : holds M (b_data file) l) (Hn : b_size file = zlen l) (Hl : bytes_ok l) (Hlt : zlen l < 2 ^ 32).

(** Where a scanned reference points. *)
Definition located (ref : BlockRef) : Prop :=
  0 <= file_offset ref <= zlen l /\ 0 <= length_ ref < 2 ^ 32 /\
  match kind ref with
  | Epb => 12 <= length_ ref /\ file_offset ref + length_ ref <= zlen l
  | PcapRecord => 16 <= length_ ref /\ file_offset ref + length_ ref <= zlen l
  | Idb => file_offset ref + 12 <= zlen l
  | _ => True
  end.

Lemma block_frame_located le q ref q' : 0 <= q -> block_frame l le q = Some (ref, q') -> located ref /\ q <= q'.
Proof using Hl.
  intros Hq. unfold block_frame. set (e := order_of (order_at l le q)).
  destruct (Z.leb_spec (q + 12) (zlen l)), (Z.leb_spec 12 (word l e (q + 4) 4)); try done. cbn [andb].
  destruct (word l e (q + 4) 4 mod 4 =? 0); [|done]. destruct (Z.leb_spec (q + word l e (q + 4) 4) (zlen l)); [|done]. intros [= <- <-].
  pose proof (file_word_range l Hl e (q + 4) 4 ltac:(lia) ltac:(lia) ltac:(lia)). split; [|lia]. unfold located. cbn [file_offset length_ kind].
  split; [lia|]. split; [lia|]. unfold kind_of_type. repeat case_match; done || lia.
Qed.

Lemma record_frame_located link le q ref q' : 0 <= q -> record_frame l link le q = Some (ref, q') -> located ref /\ q <= q'.
Proof using Hl Hlt.
  intros Hq. unfold record_frame. set (e := order_of le).
  destruct (Z.leb_spec (q + 16) (zlen l)); [|done]. cbn [andb].
  destruct (Z.leb_spec (q + 16 + word l e (q + 8) 4) (zlen l)); [|done]. intros [= <- <-].
  pose proof (file_word_range l Hl e (q + 8) 4 ltac:(lia) ltac:(lia) ltac:(lia)). split; [|lia]. unfold located. cbn [file_offset length_ kind].
  rewrite wrap_small by lia. lia.
Qed.

Lemma tiles_located frame le q refs le' e : (forall le q ref q', 0 <= q -> frame le q = Some (ref, q') -> located ref /\ q <= q') ->
  tiles frame le q refs le' e -> 0 <= q -> Forall located refs.
Proof using.
  intros Hf. induction 1 as [|le q ref q' refs le' e Hr _ IH]; intros Hq; [constructor|]. destruct (Hf _ _ _ _ Hq Hr). constructor; [done|]. apply IH. lia.
Qed.

Lemma walked_located frame le q out o : (forall le q ref q', 0 <= q -> frame le q = Some (ref, q') -> located ref /\ q <= q') ->
  walked l frame le q out o -> 0 <= q -> Forall located out -> Forall located (refs_of o) /\ (forall w, o <> Faulted w).
Proof using.
  intros Hf (refs & le' & e & Ht & Ho) Hq Hout. pose proof (tiles_located _ _ _ _ _ _ Hf Ht Hq).
  destruct Ho as [[-> _]|(err & -> & _)]; (split; [by apply Forall_app|done]).
Qed.

Lemma scan_located : Forall located (refs_of (scan_blocks M file [])) /\ forall w, scan_blocks M file [] <> Faulted w.
Proof using All.
  pose proof (scan_spec M file l [] Hh Hn Hl ltac:(lia)) as Hs. cbv zeta in Hs. pose proof (zlen_nonneg l).
  destruct (Z.ltb_spec (zlen l) 4); [rewrite Hs; by split|]. destruct (_ =? kShb).
  { apply (walked_located _ _ _ _ _ block_frame_located Hs); [lia|constructor]. }
  destruct (is_magic _); [|rewrite Hs; by split]. destruct (Z.ltb_spec (zlen l) 24); [rewrite Hs; by split|].
  apply (walked_located _ _ _ _ _ (record_frame_located _) Hs); [lia|]. repeat constructor; cbn; lia.
Qed.

(** A block parsed on its own, and in the file. *)
Definition in_file (off : Z) (e : EpbView) : EpbView :=
  MkEpbView (Pcap.interface_id e) (ts_raw e) (caplen e) (origlen e) (off + payload_file_offset e).

Lemma word_moved off n e a k : 0 <= off -> 0 <= a -> 0 <= k -> a + k <= n -> word (slice l off n) e a k = word l e (off + a) k.
Proof using. intros. unfold word. by rewrite slice_of_slice. Qed.

Lemma block_backed off n : 0 <= off -> 0 <= n -> off + n <= zlen l ->
  holds M (b_data (subspan file off n)) (slice l off n) /\ b_size (subspan file off n) = zlen (slice l off n) /\
  bytes_ok (slice l off n) /\ zlen (slice l off n) = n.
Proof using Hh Hl.
  intros Ho Hz Hin. pose proof (zlen_slice l off n Ho Hz Hin) as E. split; [by apply holds_slice|]. split; [by rewrite E|].
  split; [by apply bytes_ok_slice|done].
Qed.

Lemma parse_epb_moved ref : located ref -> kind ref = Epb \/ kind ref = PcapRecord ->
  let block := subspan file (file_offset ref) (length_ ref) in
  exists r, parse_epb M block (MkBlockRef 0 (u32 (b_size block)) kEpb (kind ref) (little_endian ref)) = Ok r /\
    accepted M file ref = in_file (file_offset ref) <$> r /\ forall e, r = Some e -> 0 <= payload_file_offset e <= 28.
Proof using All.
  intros (Hoff & Hlen & Hloc) Hk block. set (q := file_offset ref) in *. set (n := length_ ref) in *.
  assert (Hin : q + n <= zlen l) by (destruct Hk as [E|E]; rewrite E in Hloc; lia).
  destruct (block_backed q n ltac:(lia) ltac:(lia) Hin) as (Bh & Bn & Bl & Bz). fold block in Bh, Bn.
  change (b_size block) with n. rewrite wrap_small by lia. set (bref := MkBlockRef 0 n kEpb (kind ref) (little_endian ref)).
  set (e := order_of (little_endian ref)). unfold accepted.
  assert (Hw : forall a, 0 <= a -> a + 4 <= n -> word (slice l q n) e (0 + a) 4 = word l e (q + a) 4) by (intros; apply word_moved; lia).
  destruct Hk as [Hk|Hk]; rewrite Hk in Hloc.
  - destruct (Z.le_gt_cases 28 n) as [H28|H28].
    + rewrite (parse_epb_block M block (slice l q n) Bh Bn Bl ltac:(lia) bref 0) by done || lia.
      rewrite (parse_epb_block M file l Hh Hn Hl ltac:(lia) ref q) by done || lia.
      change (order_of (little_endian bref)) with e. change (order_of (little_endian ref)) with e. change (length_ bref) with n. fold n.
      rewrite !Hw by lia. destruct (n <? 32 + word l e (q + 20) 4); (eexists; split; [done|]; split; [done|]; by intros ? [= <-]).
    + exists None. split; [apply (parse_epb_short M block (slice l q n) Bn ltac:(lia) bref 0); done || lia|]. split; [|done].
      destruct (Z.le_gt_cases (q + 28) (zlen l)).
      * rewrite (parse_epb_block M file l Hh Hn Hl ltac:(lia) ref q) by done || lia. change (order_of (little_endian ref)) with e. fold n.
        pose proof (file_word_range l Hl e (q + 20) 4 ltac:(lia) ltac:(lia) ltac:(lia)). destruct (Z.ltb_spec n (32 + word l e (q + 20) 4)); [done|lia].
      * by rewrite (parse_epb_short M file l Hn ltac:(lia) ref q) by done || lia.
  - rewrite (parse_epb_record M block (slice l q n) Bh Bn Bl ltac:(lia) bref 0) by done || lia.
    rewrite (parse_epb_record M file l Hh Hn Hl ltac:(lia) ref q) by done || lia.
    change (order_of (little_endian bref)) with e. change (order_of (little_endian ref)) with e. rewrite !Hw by lia.
    change (word (slice l q n) e 0 4) with (word (slice l q n) e (0 + 0) 4). rewrite Hw by lia. rewrite Z.add_0_r.
    eexists. split; [done|]. split; [done|]. by intros ? [= <-].
Qed.

(** A section header of any length is read, or left. *)
Lemma feed_shb_answers {U} (s : session (U := U)) off n : 0 <= off -> 0 <= n -> off + n <= zlen l ->
  exists le, feed_shb M s (subspan file off n) = Some (MkSession (s_world s) (s_defrag s) [] (s_pid s) le (s_tracking s) (s_pins s)).
Proof using Hh Hl Hlt.
  intros Ho Hz Hin. destruct (block_backed off n Ho Hz Hin) as (Bh & Bn & Bl & Bz). unfold feed_shb. rewrite (cursor_0 (subspan file off n)).
  destruct (Z.le_gt_cases 12 n).
  - rewrite (shb_byte_order_at M _ _ Bh Bn Bl ltac:(lia) 0) by lia. eauto.
  - destruct (shb_byte_order_short M _ _ Bh Bn Bl ltac:(lia) 0 ltac:(lia) ltac:(lia)) as [err ->]. eauto.
Qed.

Lemma feed_idb_answers {U} (s : session (U := U)) off n le len : 0 <= off -> 8 <= n -> off + n <= zlen l ->
  exists links, feed_idb M s (subspan file off n) le len =
    Some (MkSession (s_world s) (s_defrag s) links (s_pid s) (s_section_little s) (s_tracking s) (s_pins s)).
Proof using Hh Hl Hlt.
  intros Ho Hz Hin. destruct (block_backed off n Ho ltac:(lia) Hin) as (Bh & Bn & Bl & Bz). unfold feed_idb.
  match goal with |- context [parse_idb M _ ?r] => destruct (parse_idb_answers M _ _ Bh Bn Bl ltac:(lia) r 0 eq_refl ltac:(lia) ltac:(lia)) as (o & -> & _) end.
  destruct o as [idb|]; [eauto|]. exists (s_iface_link s). by destruct s.
Qed.

Section Fed.
Context {U : Type} (ps : list (protocol U)) (opts : DecodeOptions) (sort : list FragmentSpan -> list FragmentSpan) `{!SortsFragments sort}.
Context (Ho : options_ok opts) (Hps : keeps_packets ps).
Implicit Types s : session (U := U).

(** No token is handed over during a pass, and none is held. *)
Definition pass_ok s : Prop := session_ok opts s /\ pins_of s = [].

(** [s'] has the rows [rs] more than [s], one for each packet numbered. *)
Definition adds s s' (rs : list row) : Prop :=
  table (s_world s') "packets" = table (s_world s) "packets" ++ rs /\ s_pid s' = s_pid s + zlen rs.

Lemma adds_none s : adds s s [].
Proof using. split; [by rewrite app_nil_r|]. unfold zlen. cbn. lia. Qed.

Lemma adds_trans s1 s2 s3 rs rs' : adds s1 s2 rs -> adds s2 s3 rs' -> adds s1 s3 (rs ++ rs').
Proof using. intros [E1 P1] [E2 P2]. split; [by rewrite E2, E1, app_assoc|rewrite zlen_app; lia]. Qed.

Lemma packet_rows_app pid refs refs' :
  packet_rows M file pid (refs ++ refs') =
  packet_rows M file pid refs ++ packet_rows M file (pid + zlen (packet_rows M file pid refs)) refs'.
Proof using.
  revert pid. induction refs as [|ref refs IH]; intros pid; [change (zlen _) with 0; by rewrite Z.add_0_r|]. cbn [app packet_rows].
  destruct (accepted M file ref); [|apply IH]. rewrite IH, zlen_cons. cbn. do 3 f_equal. lia.
Qed.

(** One packet block of the file. *)
Lemma pass_packet s ref : pass_ok s -> s_pid s < 2 ^ 25 -> located ref -> kind ref = Epb \/ kind ref = PcapRecord ->
  exists s' fr, feed_epb ps opts sort M s (subspan file (file_offset ref) (length_ ref)) (little_endian ref) kNoToken (kind ref) (file_offset ref) = Some (s', fr) /\
    pass_ok s' /\ adds s s' (packet_rows M file (s_pid s) [ref]).
Proof using All.
  intros [Hs Hpins] Hp Hloc Hk. destruct (parse_epb_moved ref Hloc Hk) as (r & Hr & Hacc & Hpo). destruct Hloc as (Hoff & Hlen & Hloc).
  assert (Hin : file_offset ref + length_ ref <= zlen l /\ 12 <= length_ ref) by (destruct Hk as [E|E]; rewrite E in Hloc; lia).
  destruct (block_backed (file_offset ref) (length_ ref) ltac:(lia) ltac:(lia) ltac:(lia)) as (Bh & Bn & Bl & Bz).
  destruct (feed_epb_spec ps opts sort Ho M _ _ Bh Bn Bl ltac:(lia) s (little_endian ref) kNoToken (kind ref) (file_offset ref) Hs Hp) as (s' & fr & E & Hs' & Hpid & Ht).
  { intros _. lia. }
  exists s', fr. split; [done|]. destruct (feed_epb_rows ps opts sort Hps M s _ _ _ _ _ s' fr r Hr E) as [Hok Hrows].
  split.
  - split; [done|]. assert (Hno : kNoToken ∉ pins_of s) by (rewrite Hpins; set_solver). specialize (Ht Hno).
    apply elem_of_nil_inv. intros t Hin'. destruct (told_within _ _ _ _ Ht t Hin') as [->|Hin0]; [|rewrite Hpins in Hin0; by apply elem_of_nil in Hin0].
    by apply list_elem_of_filter in Hin' as [? _].
  - cbn [packet_rows]. rewrite Hacc. unfold adds. rewrite Hrows, Hpid, Hok. destruct r as [e|]; cbn [fmap option_fmap option_map]; (split; [|unfold zlen; cbn; lia]); [|done].
    do 2 f_equal. unfold packet_row, in_file. cbn [payload_file_offset caplen origlen]. specialize (Hpo e eq_refl). by rewrite wrap_small by lia.
Qed.

(** A session whose tables and accounts are those of [s]. *)
Lemma pass_ok_same s s' : pass_ok s -> s_defrag s' = s_defrag s -> s_pins s' = s_pins s -> s_pid s' = s_pid s -> s_world s' = s_world s ->
  pass_ok s' /\ adds s s' [].
Proof using.
  intros [[] Hp] Ed Ep Epid Ew. unfold pass_ok, pins_of in *. split; [split; [split|]|split]; unfold pins_of in *; rewrite ?Ed, ?Ep, ?Epid, ?Ew; try done.
  - by rewrite app_nil_r.
  - unfold zlen. cbn. lia.
Qed.

Lemma refused s ref : kind ref <> Epb -> kind ref <> PcapRecord -> packet_rows M file (s_pid s) [ref] = [].
Proof using. intros H1 H2. cbn [packet_rows]. unfold accepted, parse_epb. by destruct (kind ref). Qed.

Lemma pass_block_ok s ref : pass_ok s -> s_pid s < 2 ^ 25 -> located ref ->
  exists s', pass_block ps opts sort M file s ref = Some s' /\ pass_ok s' /\ adds s s' (packet_rows M file (s_pid s) [ref]).
Proof using All.
  intros Hs Hp Hloc. pose proof Hloc as (Hoff & Hlen & Hk). unfold pass_block. rewrite Hn. destruct (Z.ltb_spec (zlen l) (file_offset ref)); [lia|].
  destruct (kind ref) eqn:Ek.
  1: { destruct (feed_shb_answers s (file_offset ref) (Z.min (length_ ref) (zlen l - file_offset ref))) as [le ->]; [lia..|].
       eexists. split; [done|]. rewrite refused by (rewrite Ek; done). by apply pass_ok_same. }
  1: { destruct (feed_idb_answers s (file_offset ref) (Z.min (Z.max (length_ ref) 28) (zlen l - file_offset ref)) (little_endian ref) (length_ ref)) as [links ->]; [lia..|].
       eexists. split; [done|]. rewrite refused by (rewrite Ek; done). by apply pass_ok_same. }
  1,2: rewrite Z.min_l by lia;
       (destruct (pass_packet s ref Hs Hp Hloc) as (s' & fr & E & Hs' & Ha); [rewrite Ek; auto|]); rewrite Ek in E; rewrite E; eauto.
  all: exists s; (split; [done|]); rewrite refused by (rewrite Ek; done); (split; [done|apply adds_none]).
Qed.

Lemma pass_none refs : fold_left (fun r ref => s ← r; pass_block ps opts sort M file s ref) refs None = None.
Proof using. by induction refs. Qed.

Lemma pass_all refs : forall s, pass_ok s -> Forall located refs -> s_pid s + zlen refs < 2 ^ 25 ->
  exists s', fold_left (fun r ref => s ← r; pass_block ps opts sort M file s ref) refs (Some s) = Some s' /\
    pass_ok s' /\ adds s s' (packet_rows M file (s_pid s) refs).
Proof using All.
  induction refs as [|ref refs IH]; intros s Hs Hloc Hp; [exists s; split; [done|]; split; [done|apply adds_none]|].
  apply Forall_cons in Hloc as [Hr Hrs]. rewrite zlen_cons in Hp. pose proof (zlen_nonneg refs).
  destruct (pass_block_ok s ref Hs ltac:(lia) Hr) as (s1 & E1 & Hs1 & Ha1). pose proof (proj2 Ha1) as Hp1.
  assert (zlen (packet_rows M file (s_pid s) [ref]) <= 1) by (cbn [packet_rows]; destruct (accepted M file ref); unfold zlen; cbn; lia).
  destruct (IH s1 Hs1 Hrs ltac:(lia)) as (s' & E & Hs' & Ha). exists s'. split; [cbn [fold_left mbind option_bind]; by rewrite E1|]. split; [done|].
  change (ref :: refs) with ([ref] ++ refs). rewrite packet_rows_app, <- Hp1. by eapply adds_trans.
Qed.
End Fed.
End Pass.

(** C37: over any bytes of a file below four gigabytes in which the scan finds
    fewer than 2^25 blocks, under positive timeouts and 32-bit datagram limits and
    with protocols that leave the packets table alone, the decode pass finishes
    without a bad read, whatever its packets hold: it answers [false]
    exactly when the block scan does, with the scanner's error, and otherwise the
    packets table has gained one row for each block the block parser accepts, in
    the file's order, numbered from zero, with the payload's absolute offset; no
    buffer is held at the end. *)
Theorem decode_pass_exact {U} (ps : list (protocol U)) opts sort `{!SortsFragments sort} M file l tables :
  options_ok opts -> keeps_packets ps ->
  holds M (b_data file) l -> b_size file = zlen l -> bytes_ok l -> zlen l < 2 ^ 32 ->
  zlen (refs_of (scan_blocks M file [])) < 2 ^ 25 ->
  match scan_blocks M file [] with
  | Scanned refs =>
      exists s, run_decode_pass ps opts sort M file tables = Decoded s /\ session_ok opts s /\ pinned_buffers s = 0 /\
        table (s_world s) "packets" = table tables "packets" ++ packet_rows M file 0 refs /\
        s_pid s = zlen (packet_rows M file 0 refs)
  | Malformed _ error => run_decode_pass ps opts sort M file tables = Corrupt error
  | Faulted _ => False
  end.
Proof.
  intros Ho Hps Hh Hn Hl Hlt Hcount. destruct (scan_located M file l Hh Hn Hl Hlt) as [Hloc Hno]. unfold run_decode_pass.
  destruct (scan_blocks M file []) as [refs|refs err|w] eqn:E; [|done|by apply (Hno w)]. cbn [refs_of] in *.
  destruct (pass_all M file l Hh Hn Hl Hlt ps opts sort Ho Hps refs (new_session tables)) as (s & -> & [Hs Hp] & [Hrows Hpid]);
    [by split; [apply new_session_ok|]|done|done|].
  exists s. split; [done|]. split; [done|]. split; [|done]. unfold pinned_buffers.
  assert (s_pins s = ∅) as ->; [|done]. apply map_empty. intros t. by rewrite (so_pins _ _ Hs), Hp.
Qed.
