(* ===== verification/StreamingRuns.v ===== *)
(** * Sessions run

    Concrete captures through the session: the theorems' instances, and the
    corners of the code. *)
From stdpp Require Import gmap.
From S2P Require Import Prelude Parser BytesParsers Combinators Numbers Reflect ReflectFacts Segmented Emit Members Pcap PcapRound Defrag DefragTable DefragSpecs Walk WalkSpecs Protocol Visitor Streaming PacketSafe StreamingSpecs DecodePass.

(** ** Packets *)
Definition ipv4_fragment (ident flags_offset : Z) (payload : list Z) : list Z :=
  replicate 12 2 ++ [8; 0] ++
  [0x45; 0] ++ uint_bytes big 2 (20 + zlen payload) ++ uint_bytes big 2 ident ++ uint_bytes big 2 flags_offset ++
  [64; 17; 0; 0; 10; 0; 0; 1; 10; 0; 0; 2] ++ payload.

(** A classic pcap record's bytes, as the session is fed them. *)
Definition record (frame : list Z) : list Z :=
  uint_bytes little 4 0 ++ uint_bytes little 4 0 ++ uint_bytes little 4 (zlen frame) ++ uint_bytes little 4 (zlen frame) ++ frame.

Definition udp_half : list Z := [0; 53; 0; 54; 0; 16; 0; 0].
Definition first_half : list Z := record (ipv4_fragment 77 0x2000 udp_half).
Definition second_half : list Z := record (ipv4_fragment 77 1 [1; 2; 3; 4; 5; 6; 7; 8]).

Definition empty_world : world unit := World ∅ tt.

Definition feed (opts : DecodeOptions) (s : session (U := unit)) (l : list Z) (tok : Z) : option (session * FeedResult) :=
  feed_epb [] opts std_sort (mem_of 0 l) s (whole l) true tok PcapRecord 0.

(** A session that knows its interface to be Ethernet. *)
Definition ethernet : session (U := unit) := MkSession empty_world (MkDefrag empty_table empty_table) [1] 0 true false ∅.

Fixpoint feeds (opts : DecodeOptions) (s : session) (ls : list (list Z * Z)) : option (session * list FeedResult) :=
  match ls with
  | [] => Some (s, [])
  | (l, tok) :: ls =>
      r ← feed opts s l tok; r' ← feeds opts r.1 ls; Some (r'.1, r.2 :: r'.2)
  end.

(** ** Instances *)
Lemma default_options_ok : options_ok default_options.
Proof. split; cbn; lia. Qed.

Lemma ethernet_ok : session_ok default_options ethernet.
Proof. destruct (new_session_ok default_options empty_world). by split. Qed.

Lemma whole_backed l : Forall (fun b => 0 <= b < 256) l -> zlen l < 2 ^ 60 -> backed (mem_of 0 l) (whole l) l.
Proof. intros Hl Hz. split; [apply whole_holds|]. by split. Qed.

Ltac bytes_in := vm_compute; repeat constructor; discriminate.

Lemma first_half_backed : backed (mem_of 0 first_half) (whole first_half) first_half.
Proof. apply whole_backed; [bytes_in|reflexivity]. Qed.
Lemma second_half_backed : backed (mem_of 0 second_half) (whole second_half) second_half.
Proof. apply whole_backed; [bytes_in|reflexivity]. Qed.

(** What the caller is told, and the buffers in use after. *)
Definition answer (r : option (session (U := unit) * FeedResult)) : option (FeedResult * Z * list Z) :=
  r ← r; Some (r.2, s_pid r.1, in_use r.1).

Lemma answer_inv r fr n ts : answer r = Some (fr, n, ts) -> exists s, r = Some (s, fr) /\ s_pid s = n /\ in_use s = ts.
Proof. destruct r as [[s fr']|]; [|done]. intros [= <- <-]. by exists s. Qed.

Lemma first_half_answer : answer (feed default_options ethernet first_half 7) = Some (MkFeed true true [], 1, [7]).
Proof. vm_compute. reflexivity. Qed.

(** The first half of a datagram stays pinned. *)
Lemma feed_epb_accounts_witness : exists s, feed default_options ethernet first_half 7 = Some (s, MkFeed true true []) /\
  session_ok default_options s /\ s_pid s = 1 /\ 7 ∈ pins_of s.
Proof.
  destruct (feed_epb_accounts [] default_options std_sort (mem_of 0 first_half) (whole first_half) first_half ethernet true 7 PcapRecord 0
    default_options_ok first_half_backed ltac:(discriminate) ethernet_ok ltac:(reflexivity)) as (s & fr & E & Hs & Hp & Ht).
  destruct (answer_inv _ _ _ _ first_half_answer) as (s' & E' & _). assert (E2 : Some (s', MkFeed true true []) = Some (s, fr)) by (etransitivity; [symmetry; exact E'|exact E]).
  injection E2 as -> <-. exists s. split; [exact E|]. split; [exact Hs|]. split; [exact Hp|].
  apply Ht; [apply not_elem_of_nil|reflexivity].
Defined.

Definition idb_block : list Z := [1; 0; 0; 0; 20; 0; 0; 0; 1; 0; 0; 0; 255; 255; 0; 0; 20; 0; 0; 0].

Lemma interface_up : feed_idb (mem_of 0 idb_block) (new_session empty_world) (whole idb_block) true 20 = Some ethernet.
Proof. vm_compute. reflexivity. Qed.

(** Both halves: the second one gives both buffers back. *)
Lemma halves_answer : answer (r ← feed default_options ethernet first_half 7; feed default_options r.1 second_half 8) = Some (MkFeed true false [7; 8], 2, []).
Proof. vm_compute. reflexivity. Qed.

(** A fed record is a call of the caller, and leaves the session well formed. *)
Lemma feed_call opts s l tok s' fr : options_ok opts -> backed (mem_of 0 l) (whole l) l -> session_ok opts s -> s_pid s < 2 ^ 25 ->
  tok ∉ in_use s -> feed opts s l tok = Some (s', fr) -> call [] opts std_sort s [tok] (fr_released fr) s' /\ session_ok opts s'.
Proof.
  intros Ho Hb Hs Hp Ht E. unfold feed in E. split.
  - apply (call_epb [] opts std_sort s (mem_of 0 l) (whole l) l true tok PcapRecord 0 s' fr Hb); [done| |exact E]. by rewrite <- (in_use_pinned opts).
  - destruct Hb as (Bh & Bn & Bl & Bz).
    destruct (feed_epb_spec [] opts std_sort Ho _ _ _ Bh Bn Bl Bz s true tok PcapRecord 0 Hs Hp ltac:(discriminate)) as (s1 & fr1 & E1 & Hs1 & _).
    rewrite E1 in E. by injection E as -> _.
Qed.

Lemma halves_called : exists s, calls [] default_options std_sort (new_session empty_world) [7; 8] [7; 8] s /\ in_use s = [].
Proof.
  destruct (answer_inv _ _ _ _ first_half_answer) as (s1 & E1 & Hp & U1). pose proof halves_answer as H2. rewrite E1 in H2.
  destruct (answer_inv _ _ _ _ H2) as (s2 & E2 & _ & U2). cbn [fst] in E2. exists s2. split; [|exact U2]. clear H2.
  destruct (feed_call _ _ _ _ _ _ default_options_ok first_half_backed ethernet_ok ltac:(reflexivity) (not_elem_of_nil 7) E1) as [C1 Hs1].
  assert (H8 : 8 ∉ in_use s1) by (rewrite U1; by intros ?%list_elem_of_singleton).
  destruct (feed_call _ _ _ _ _ _ default_options_ok second_half_backed Hs1 ltac:(rewrite Hp; reflexivity) H8 E2) as [C2 _].
  apply (calls_more _ _ _ _ [7] [] s1 [8] [7; 8]); [|exact C2]. apply (calls_more _ _ _ _ [] [] ethernet [7] []); [|exact C1].
  apply (calls_more _ _ _ _ [] [] (new_session empty_world) [] []); [apply calls_none|]. eapply call_idb. apply interface_up.
Qed.

Lemma buffers_returned_witness : exists s : session, pinned_buffers (U := unit) s = 0 /\ [7; 8] ++ in_use s ≡ₚ [7; 8].
Proof.
  destruct halves_called as (s & Hc & _).
  destruct (buffers_returned [] default_options std_sort empty_world [7; 8] [7; 8] s default_options_ok Hc ltac:(reflexivity)) as (Hb & Hp & _).
  exists s. split; [exact Hp|exact Hb].
Defined.

(** Two records through the whole pass. *)
Lemma decode_pass_exact_witness : let l := write_capture records in
  exists s, run_decode_pass [] default_options std_sort (mem_of 0 l) (whole l) empty_world = Decoded s /\
    table (s_world s) "packets" = [PacketRow 0 40 5 60; PacketRow 1 61 5 60].
Proof.
  cbv zeta. set (l := write_capture records).
  assert (Hok : bytes_ok l) by (apply write_classic_ok; repeat constructor; cbn; unfold u32_ok; lia).
  pose proof (decode_pass_exact [] default_options std_sort (mem_of 0 l) (whole l) l empty_world default_options_ok (List.Forall_nil _)
    (whole_holds l) eq_refl Hok ltac:(vm_compute; reflexivity) ltac:(vm_compute; reflexivity)) as H.
  assert (Hscan : exists refs, scan_blocks (mem_of 0 l) (whole l) [] = Scanned refs /\
    packet_rows (mem_of 0 l) (whole l) 0 refs = [PacketRow 0 40 5 60; PacketRow 1 61 5 60]).
  { eexists. split; [vm_compute; reflexivity|]. vm_compute. reflexivity. }
  destruct Hscan as (refs & Hscan & Hrows). rewrite Hscan in H. destruct H as (s & Hd & _ & _ & Ht & _).
  exists s. split; [exact Hd|]. rewrite Ht, Hrows. reflexivity.
Defined.

(** A tagged IPv6 packet with a hop-by-hop header before its UDP header. *)
Definition tagged_ipv6 : list Z :=
  replicate 12 2 ++ [0x81; 0; 0; 5; 0x86; 0xDD] ++
  [0x60; 0; 0; 0; 0; 16; 0; 64] ++ replicate 16 1 ++ replicate 16 3 ++ [17; 0; 1; 4; 0; 0; 0; 0] ++ [0; 53; 0; 54; 0; 8; 0; 0].

Lemma tagged_ipv6_ok : bytes_ok tagged_ipv6.
Proof. bytes_in. Qed.

(** The names of the calls. *)
Definition call_name (e : event) : string :=
  match e with
  | on_offset _ => "offset" | on_eth _ => "eth" | on_vlan _ => "vlan" | on_l2_done _ _ => "l2" | on_ipv4 _ => "ipv4" | on_ipv6 _ => "ipv6"
  | on_fragment _ => "fragment" | on_tcp _ => "tcp" | on_udp _ => "udp" | on_ext_opt _ _ => "ext_opt" | on_srh _ => "srh" | on_ah _ => "ah"
  | on_srh_segment _ _ _ => "segment" | on_ipv6_option _ _ _ => "option"
  end.

Definition call_names (w : walk) : option (list string) := match w with Walked es _ => Some (call_name <$> es) | WalkFault _ => None end.

Lemma tagged_ipv6_calls : call_names (walk_packet_ext (mem_of 0 tagged_ipv6) 1 (whole tagged_ipv6)) =
  Some ["offset"; "eth"; "offset"; "vlan"; "l2"; "offset"; "ipv6"; "offset"; "ext_opt"; "option"; "offset"; "udp"]%string.
Proof. vm_compute. reflexivity. Qed.

Lemma walk_packet_ext_runs_witness : exists calls res, run tagged_ipv6 Begin calls res /\ length calls = 12%nat.
Proof.
  destruct (walk_packet_ext_runs (mem_of 0 tagged_ipv6) (whole tagged_ipv6) tagged_ipv6 (whole_holds _) eq_refl tagged_ipv6_ok ltac:(reflexivity))
    as (es & res & E & Hr).
  exists es, res. split; [exact Hr|]. pose proof tagged_ipv6_calls as H. change kLinkTypeEthernet with 1 in E. rewrite E in H. injection H as H.
  apply (f_equal length) in H. rewrite length_map in H. exact H.
Defined.

Lemma walk_packet_agrees_witness :
  call_names (walk_packet (mem_of 0 tagged_ipv6) 1 (whole tagged_ipv6)) = Some ["eth"; "vlan"; "ipv6"]%string /\
  walks_agree (walk_packet (mem_of 0 tagged_ipv6) 1 (whole tagged_ipv6)) (walk_packet_ext (mem_of 0 tagged_ipv6) 1 (whole tagged_ipv6)).
Proof.
  split; [vm_compute; reflexivity|].
  apply (walk_packet_agrees (mem_of 0 tagged_ipv6) (whole tagged_ipv6) tagged_ipv6 1 (whole_holds _) eq_refl tagged_ipv6_ok ltac:(reflexivity)).
Defined.

(** ** Corners of the code *)

Definition no_timeout : DecodeOptions := MkOptions true true (MkConfig 65536 4096 0) default_config [] [].
Definition short_timeout : DecodeOptions := MkOptions true true (MkConfig 65536 4096 1) default_config [] [].

(** With [timeout_ticks] 0 a fragment's entry ages out in the call that created
    it, before its pin is counted: the pin stays, though no table holds a span
    into the buffer, and no later call gives it back. *)
Theorem zero_timeout_leaks : exists s, feed no_timeout ethernet first_half 7 = Some (s, MkFeed true true []) /\
  s_pins s = {[7 := 1]} /\ pinned_all (s_defrag s) = [].
Proof. eexists. split; [vm_compute; reflexivity|]. split; vm_compute; reflexivity. Qed.

(** Two packets of one buffer: when the first one's entry ages out while the
    second is fed, the buffer is reported free and pinned at once. *)
Theorem shared_token_free_and_pinned :
  answer (r ← feed short_timeout ethernet first_half 7; feed short_timeout r.1 (record (ipv4_fragment 78 0x2000 udp_half)) 7) =
  Some (MkFeed true true [7], 2, [7]).
Proof. vm_compute. reflexivity. Qed.

(** A block of four bytes is not refused: the parser steps eight bytes on, over
    the block's end, and reads there. *)
Theorem short_block_faults : let l := [6; 0; 0; 0] in
  feed_epb [] default_options std_sort (mem_of 0 l) ethernet (whole l) true 7 Epb 0 = None.
Proof. vm_compute. reflexivity. Qed.

(** A trigger that asks for an ethertype and a port matches packets, but no
    dispatch layer looks at it. *)
Theorem mixed_trigger_never_dispatched : let t := all_of [ethertype_is 0x0800; udp_port [53]] in
  (forall layer, applies t layer = false) /\
  exists c, match_ t c = true.
Proof.
  split; [by intros []|]. exists (MkCtx None 0 0 false 1 0x0800 4 17 53 99 no_bytes 0 0 0 0). reflexivity.
Qed.
