(* ===== verification/Octets.v ===== *)
(** * Octets of a payload

    The unsigned numbers of network order in a list of bytes, and what the
    decoders' reads of them give: the terms the protocol specifications are
    written in. *)
From stdpp Require Import gmap.
From S2P Require Import Prelude Parser BytesParsers Numbers Reflect ReflectFacts EmitSpecs.

(** The byte at [q], and the big-endian numbers. *)
Definition octet (l : list Z) (q : Z) : Z := default 0 (zget l q).
Definition be16_at (l : list Z) (q : Z) : Z := octet l q * 2 ^ 8 + octet l (q + 1).
Definition be32_at (l : list Z) (q : Z) : Z := be16_at l q * 2 ^ 16 + be16_at l (q + 2).

Definition be48_at (l : list Z) (q : Z) : Z := be16_at l q * 2 ^ 32 + be32_at l (q + 2).
Definition be64_at (l : list Z) (q : Z) : Z := be32_at l q * 2 ^ 32 + be32_at l (q + 4).

Lemma octet_range l q : bytes_ok l -> 0 <= octet l q < 256.
Proof. intros Hl. unfold octet. destruct (zget l q) as [b|] eqn:E; cbn; [by apply (zget_byte l q)|lia]. Qed.

Lemma be16_range l q : bytes_ok l -> 0 <= be16_at l q < 2 ^ 16.
Proof. intros Hl. unfold be16_at. pose proof (octet_range l q Hl). pose proof (octet_range l (q + 1) Hl). lia. Qed.

Lemma be32_range l q : bytes_ok l -> 0 <= be32_at l q < 2 ^ 32.
Proof. intros Hl. unfold be32_at. pose proof (be16_range l q Hl). pose proof (be16_range l (q + 2) Hl). lia. Qed.

(** Shifts and [|] of bytes are sums. *)
Lemma lor_be16 a b : 0 <= a < 256 -> 0 <= b < 256 -> Z.lor (Z.shiftl a 8) b = a * 2 ^ 8 + b.
Proof. intros Ha Hb. rewrite Z.lor_comm, lor_shiftl_add by lia. lia. Qed.

Lemma lor_be32 a b c d : 0 <= a < 256 -> 0 <= b < 256 -> 0 <= c < 256 -> 0 <= d < 256 ->
  Z.lor (Z.lor (Z.lor (Z.shiftl a 24) (Z.shiftl b 16)) (Z.shiftl c 8)) d = (a * 2 ^ 8 + b) * 2 ^ 16 + (c * 2 ^ 8 + d).
Proof.
  intros Ha Hb Hc Hd. rewrite (Z.lor_comm _ d), (Z.lor_comm _ (Z.shiftl c 8)), (Z.lor_comm _ (Z.shiftl b 16)).
  rewrite Z.lor_assoc. rewrite (lor_shiftl_add d c 8) by lia. rewrite Z.lor_assoc.
  rewrite (lor_shiftl_add (d + c * 2 ^ 8) b 16) by lia. rewrite lor_shiftl_add by lia. lia.
Qed.

Lemma holds_octet M a l q : holds M a l -> 0 <= q < zlen l -> M (a + q) = Some (octet l q).
Proof.
  revert a q. induction l as [|b l IH]; intros a q Hh Hq; [unfold zlen in Hq; cbn in Hq; lia|]. destruct Hh as [Hb Hl]. rewrite zlen_cons in Hq.
  destruct (Z.eqb_spec q 0) as [->|Hne]; [rewrite Z.add_0_r; exact Hb|].
  replace (a + q) with (a + 1 + (q - 1)) by lia. rewrite IH by (done || lia). unfold octet. do 2 f_equal.
  change (b :: l) with ([b] ++ l). by rewrite zget_app_r by (unfold zlen; cbn; lia).
Qed.

Lemma zget_octet l q : 0 <= q < zlen l -> zget l q = Some (octet l q).
Proof. intros Hq. unfold octet. by destruct (proj2 (zget_is_Some l q) Hq) as [b ->]. Qed.

Lemma slice_octets l q : 0 <= q -> q + 2 <= zlen l -> slice l q 2 = [octet l q; octet l (q + 1)].
Proof.
  intros Hq Hz. apply zget_ext; [by rewrite zlen_slice by lia|]. rewrite zlen_slice by lia. intros k Hk.
  unfold slice. rewrite zget_ztake, zget_zdrop, zget_octet by lia. unfold zget. assert (k = 0 \/ k = 1) as [-> | ->] by lia; cbn; [by rewrite Z.add_0_r|done].
Qed.

(** ** Numbers as the parsers read them *)
Lemma slice_one l q : 0 <= q -> q + 1 <= zlen l -> slice l q 1 = [octet l q].
Proof.
  intros Hq Hz. apply zget_ext; [by rewrite zlen_slice by lia|]. rewrite zlen_slice by lia. intros k Hk.
  unfold slice. rewrite zget_ztake, zget_zdrop, zget_octet by lia. assert (k = 0) as -> by lia. unfold zget. cbn. by rewrite Z.add_0_r.
Qed.

Lemma slice_split l q m n : 0 <= q -> 0 <= m -> 0 <= n -> q + (m + n) <= zlen l -> slice l q (m + n) = slice l q m ++ slice l (q + m) n.
Proof.
  intros Hq Hm Hn Hz. unfold slice. pose proof (zlen_zdrop q l ltac:(lia)) as Hd. rewrite <- (zdrop_zdrop m q) by lia.
  rewrite <- (ztake_zdrop m (zdrop q l)) at 1. assert (E : zlen (ztake m (zdrop q l)) = m) by (rewrite zlen_ztake by lia; lia).
  rewrite ztake_app_r by lia. rewrite E. by replace (m + n - m) with n by lia.
Qed.

Lemma uint8_at l q : 0 <= q -> q + 1 <= zlen l -> uint_val big (slice l q 1) = octet l q.
Proof. intros Hq Hz. rewrite slice_one by done. cbn [uint_val]. rewrite be_val_cons. change (be_val []) with 0. cbn [length]. change (2 ^ (8 * Z.of_nat 0)) with 1. lia. Qed.

Lemma uint16_at l q : 0 <= q -> q + 2 <= zlen l -> uint_val big (slice l q 2) = be16_at l q.
Proof.
  intros Hq Hz. rewrite slice_octets by done. cbn [uint_val]. unfold be16_at. rewrite !be_val_cons. change (be_val []) with 0. cbn [length].
  change (2 ^ (8 * Z.of_nat 0)) with 1. change (2 ^ (8 * Z.of_nat 1)) with (2 ^ 8). lia.
Qed.

Lemma uint32_at l q : 0 <= q -> q + 4 <= zlen l -> uint_val big (slice l q 4) = be32_at l q.
Proof.
  intros Hq Hz. change 4 with (2 + 2). rewrite slice_split, !slice_octets by lia. cbn [uint_val app]. unfold be32_at, be16_at.
  rewrite !be_val_cons. change (be_val []) with 0. cbn [length]. change (2 ^ (8 * Z.of_nat 0)) with 1. change (2 ^ (8 * Z.of_nat 1)) with (2 ^ 8).
  change (2 ^ (8 * Z.of_nat 2)) with (2 ^ 16). change (2 ^ (8 * Z.of_nat 3)) with (2 ^ 24). change (2 ^ 24) with (2 ^ 8 * 2 ^ 16). lia.
Qed.

Lemma be_val_app l l' : be_val (l ++ l') = be_val l * 2 ^ (8 * zlen l') + be_val l'.
Proof.
  induction l as [|b l IH]; [change (be_val []) with 0; cbn [app]; lia|]. cbn [app]. rewrite !be_val_cons, IH, length_app.
  replace (8 * Z.of_nat (length l + length l')) with (8 * Z.of_nat (length l) + 8 * zlen l') by (unfold zlen; lia).
  rewrite Z.pow_add_r by (unfold zlen; lia). lia.
Qed.

Lemma uint48_at l q : 0 <= q -> q + 6 <= zlen l -> uint_val big (slice l q 6) = be48_at l q.
Proof.
  intros Hq Hz. change 6 with (2 + 4). rewrite slice_split by lia. cbn [uint_val]. rewrite be_val_app, zlen_slice by lia.
  change (be_val ?x) with (uint_val big x). rewrite uint16_at, uint32_at by lia. done.
Qed.

Lemma uint64_at l q : 0 <= q -> q + 8 <= zlen l -> uint_val big (slice l q 8) = be64_at l q.
Proof.
  intros Hq Hz. change 8 with (4 + 4) at 1. rewrite slice_split by lia. cbn [uint_val]. rewrite be_val_app, zlen_slice by lia.
  change (be_val ?x) with (uint_val big x). rewrite !uint32_at by lia. done.
Qed.

(** Numbers of a part of the list. *)
Lemma octet_zdrop l n q : 0 <= n -> 0 <= q -> octet (zdrop n l) q = octet l (n + q).
Proof. intros Hn Hq. unfold octet. by rewrite zget_zdrop by lia. Qed.

Lemma be16_zdrop l n q : 0 <= n -> 0 <= q -> be16_at (zdrop n l) q = be16_at l (n + q).
Proof. intros Hn Hq. unfold be16_at. rewrite !octet_zdrop by lia. by rewrite Z.add_assoc. Qed.
