(* ===== verification/Lldp.v ===== *)
(** * LLDP (nanom_shark/lldp.hpp)

    The TLV parser over the combinators, the decoding of one TLV into its row,
    and the walk over a packet's payload. Pointers are those of [Parser]; a read
    outside the region is [None]. No JSON sink is attached. *)
From stdpp Require Import gmap.
From S2P Require Import Prelude Parser BytesParsers Combinators CombinatorFacts Numbers Bits Reflect ReflectFacts Emit EmitSpecs StructSpecs Segmented Members Walk Protocol Octets.

Definition kEtherTypeLldp : Z := 0x88CC.
Definition kTlvChassisId : Z := 1.
Definition kTlvPortId : Z := 2.
Definition kTlvTtl : Z := 3.
Definition kTlvSysCaps : Z := 7.
Definition kTlvMgmtAddr : Z := 8.

Definition lldp_hdr : list (string * field_type) := [("type", BitField 7 false msb0); ("length", BitField 9 false msb0)]%string.

Record lldp_tlv := LldpTlv { t_type : Z; t_length : Z; t_value : bytes }.

Definition p_lldp_tlv : parser lldp_tlv :=
  flat_map (verify (strct lldp_hdr native) (fun h => negb (member lldp_hdr h "type" =? 0)))
    (fun h => map (take (member lldp_hdr h "length")) (LldpTlv (member lldp_hdr h "type") (member lldp_hdr h "length"))).

Record LldpTlvRow := MkTlvRow {
  r_packet_id : Z;
  r_tlv_index : Z;
  r_tlv_type : Z;
  r_tlv_length : Z;
  r_subtype : Z;
  r_value_offset : Z;
  r_ttl_seconds : Z;
  r_caps_supported : Z;
  r_caps_enabled : Z;
  r_mgmt_addr_subtype : Z;
  r_mgmt_iface_subtype : Z;
  r_mgmt_iface_number : Z;
  r_value_head : list Z
}.

(** The row as the table holds it. *)
Definition tlv_value (r : LldpTlvRow) : value :=
  VList [VScalar (r_packet_id r); VScalar (r_tlv_index r); VScalar (r_tlv_type r); VScalar (r_tlv_length r); VScalar (r_subtype r);
         VScalar (r_value_offset r); VScalar (r_ttl_seconds r); VScalar (r_caps_supported r); VScalar (r_caps_enabled r);
         VScalar (r_mgmt_addr_subtype r); VScalar (r_mgmt_iface_subtype r); VScalar (r_mgmt_iface_number r);
         VList (List.map VScalar (r_value_head r))].

Section Lldp.
Context (M : memory).

Definition rd_be16 (p : Z) : option Z := a ← M p; b ← M (p + 1); Some (Z.lor (Z.shiftl a 8) b).

(** The columns of the structured TLVs. *)
Record columns := MkColumns { ttl : Z; supported : Z; enabled : Z; addr_subtype : Z; iface_subtype : Z; iface_number : Z }.
Definition no_columns : columns := MkColumns 0 0 0 0 0 0.

Definition mgmt_addr (v len : Z) : option columns :=
  addr_str_len ← M v;
  if (1 <=? addr_str_len) && (1 + addr_str_len <=? len) then
    let after_addr := 1 + addr_str_len in
    sub ← M (v + 1);
    ifs ← (if after_addr + 1 <=? len then M (v + after_addr) else Some 0);
    num ← (if after_addr + 5 <=? len then
             let p := v + after_addr + 1 in
             a ← M p; b ← M (p + 1); c ← M (p + 2); d ← M (p + 3);
             Some (Z.lor (Z.lor (Z.lor (Z.shiftl a 24) (Z.shiftl b 16)) (Z.shiftl c 8)) d)
           else Some 0);
    Some (MkColumns 0 0 0 sub ifs num)
  else Some no_columns.

Definition structured (type len v : Z) : option columns :=
  if (type =? kTlvTtl) && (2 <=? len) then t ← rd_be16 v; Some (MkColumns t 0 0 0 0 0)
  else if (type =? kTlvSysCaps) && (4 <=? len) then s ← rd_be16 v; e ← rd_be16 (v + 2); Some (MkColumns 0 s e 0 0 0)
  else if (type =? kTlvMgmtAddr) && (1 <=? len) then mgmt_addr v len
  else Some no_columns.

Definition decode_row (pid tlv_index : Z) (region : bytes) (t : lldp_tlv) : option LldpTlvRow :=
  let v := b_data (t_value t) in
  let len := t_length t in
  let value_offset := u16 (if b_size (t_value t) =? 0 then 0 else v - b_data region) in
  subtype ← (if ((t_type t =? kTlvChassisId) || (t_type t =? kTlvPortId)) && (1 <=? len) && negb (b_size (t_value t) =? 0)
             then M v else Some 0);
  let head := Z.min len 32 in
  bs ← copy_raw (Z.to_nat head) M v;
  c ← structured (t_type t) len v;
  Some (MkTlvRow pid tlv_index (t_type t) len subtype value_offset (ttl c) (supported c) (enabled c) (addr_subtype c) (iface_subtype c)
          (iface_number c) (bs ++ replicate (Z.to_nat (32 - head)) 0)).

(** The rows of the TLVs, numbered from [idx]. *)
Fixpoint decode_rows (pid idx : Z) (region : bytes) (ts : list lldp_tlv) : option (list LldpTlvRow) :=
  match ts with
  | [] => Some []
  | t :: ts => r ← decode_row pid idx region t; rs ← decode_rows pid (u32 (idx + 1)) region ts; Some (r :: rs)
  end.

(** [walk], as the rows it pushes. *)
Definition walk_tlvs (region : bytes) (pid : Z) : option (list LldpTlvRow) :=
  match many0 p_lldp_tlv M (from_bytes region) with
  | Stop _ => None
  | Err _ => Some []
  | Done ts _ => decode_rows pid 0 region ts
  end.
End Lldp.

Definition push_all {U} (name : string) (rows : list value) (w : world U) : world U :=
  fold_left (fun w r => push name (OtherRow r) w) rows w.

(** The protocol. *)
Definition Lldp {U} : protocol U :=
  Protocol (ethertype_is kEtherTypeLldp) (fun M c _ w =>
    push_all "lldp" (List.map tlv_value (default [] (walk_tlvs M (eth_payload_bytes c) (c_packet_id c)))) w).

(** * LLDP: what the rows are

    A payload is a run of TLVs; the walk yields one row for each, read from the
    payload's bytes alone. *)

(** ** The rows a payload denotes *)
Section Reference.
Context (l : list Z).

(** The columns of a structured TLV whose value is [len] bytes at [off]. *)
Definition columns_at (type len off : Z) : columns :=
  if (type =? 3) && (2 <=? len) then MkColumns (be16_at l off) 0 0 0 0 0
  else if (type =? 7) && (4 <=? len) then MkColumns 0 (be16_at l off) (be16_at l (off + 2)) 0 0 0
  else if (type =? 8) && (1 <=? len) then
    let n := octet l off in
    if (1 <=? n) && (1 + n <=? len) then
      MkColumns 0 0 0 (octet l (off + 1)) (if n + 2 <=? len then octet l (off + (n + 1)) else 0)
        (if n + 6 <=? len then be32_at l (off + (n + 2)) else 0)
    else no_columns
  else no_columns.

(** A TLV: its type, its length, and where its value is. *)
Record tlv_place := Place { tp_type : Z; tp_length : Z; tp_offset : Z }.

Definition row_at (pid idx : Z) (t : tlv_place) : LldpTlvRow :=
  let (type, len, off) := t in
  let c := columns_at type len off in
  MkTlvRow pid idx type len (if ((type =? 1) || (type =? 2)) && (1 <=? len) then octet l off else 0)
    (u16 (if len =? 0 then 0 else off)) (ttl c) (supported c) (enabled c) (addr_subtype c) (iface_subtype c) (iface_number c)
    (slice l off (Z.min len 32) ++ replicate (Z.to_nat (32 - Z.min len 32)) 0).

Fixpoint rows_at (pid idx : Z) (ts : list tlv_place) : list LldpTlvRow :=
  match ts with [] => [] | t :: ts => row_at pid idx t :: rows_at pid (u32 (idx + 1)) ts end.

(** The TLVs from [q] on, up to an End TLV, or to one the payload does not hold
    all of. *)
Inductive tlvs_at : Z -> list tlv_place -> Prop :=
| tlvs_end q : zlen l < q + 2 \/ be16_at l q / 512 = 0 \/ zlen l < q + 2 + be16_at l q mod 512 -> tlvs_at q []
| tlvs_more q ts : q + 2 <= zlen l -> 0 < be16_at l q / 512 -> q + 2 + be16_at l q mod 512 <= zlen l ->
    tlvs_at (q + 2 + be16_at l q mod 512) ts ->
    tlvs_at q (Place (be16_at l q / 512) (be16_at l q mod 512) (q + 2) :: ts).
End Reference.

Section Payload.
Context (M : memory) (region : bytes) (l : list Z).
Context (Hh : holds M (b_data region) l) (Hn : b_size region = zlen l) (Hl : bytes_ok l) (Hlt : zlen l < 2 ^ 60).

(** ** One TLV *)

(** The header's two fields. *)
Lemma lldp_type q : 0 <= q -> q + 2 <= zlen l ->
  member lldp_hdr (VList (values_at native (slice l q 2) lldp_hdr 0)) "type" = be16_at l q / 512.
Proof using Hl.
  intros Hq Hz. erewrite member_at by (cbv; reflexivity). rewrite slice_octets by done. unfold be16_at.
  pose proof (octet_range l q Hl). pose proof (octet_range l (q + 1) Hl). set (a := octet l q) in *. set (b := octet l (q + 1)) in *.
  change (scalar_of _ _) with ((be_val [a] / 2) mod 128). rewrite be_val_cons.
  change (be_val []) with 0. cbn [length]. change (2 ^ (8 * Z.of_nat 0)) with 1. change (2 ^ 8) with 256. Z.div_mod_to_equations. lia.
Qed.

Lemma lldp_length q : 0 <= q -> q + 2 <= zlen l ->
  member lldp_hdr (VList (values_at native (slice l q 2) lldp_hdr 0)) "length" = be16_at l q mod 512.
Proof using Hl.
  intros Hq Hz. erewrite member_at by (cbv; reflexivity). rewrite slice_octets by done. unfold be16_at.
  pose proof (octet_range l q Hl). pose proof (octet_range l (q + 1) Hl). set (a := octet l q) in *. set (b := octet l (q + 1)) in *.
  change (scalar_of _ _) with ((be_val [a; b] / 1) mod 512). rewrite !be_val_cons.
  change (be_val []) with 0. cbn [length]. change (2 ^ (8 * Z.of_nat 0)) with 1. change (2 ^ (8 * Z.of_nat 1)) with 256. change (2 ^ 8) with 256. Z.div_mod_to_equations. lia.
Qed.

Lemma octet_at p q : p = b_data region + q -> 0 <= q < zlen l -> M p = Some (octet l q).
Proof using Hh. intros ->. by apply holds_octet. Qed.

(** [octet q] reads the byte at [q], wherever the goal reads it. *)
Ltac octet_rw q := match goal with |- context [M ?p] => rewrite (octet_at p q) by lia end.

Lemma rd_be16_at p q : p = b_data region + q -> 0 <= q -> q + 2 <= zlen l -> rd_be16 M p = Some (be16_at l q).
Proof using Hh Hl.
  intros -> Hq Hz. unfold rd_be16. octet_rw q. octet_rw (q + 1). cbn. f_equal. apply lor_be16; by apply octet_range.
Qed.

Ltac be16_rw q := match goal with |- context [rd_be16 M ?p] => rewrite (rd_be16_at p q) by lia end.

(** The bytes of [n] octets at [q]. *)
Lemma copy_at q n : 0 <= q -> 0 <= n -> q + n <= zlen l -> copy_raw (Z.to_nat n) M (b_data region + q) = Some (slice l q n).
Proof using Hh.
  intros Hq Hn0 Hz. pose proof (zlen_slice l q n Hq Hn0 Hz) as Hzl. replace (Z.to_nat n) with (length (slice l q n)) by (unfold zlen in Hzl; lia).
  by apply copy_raw_spec, holds_slice.
Qed.

Lemma mgmt_at len off : 0 <= off -> 1 <= len -> off + len <= zlen l ->
  mgmt_addr M (b_data region + off) len =
  Some (let n := octet l off in
        if (1 <=? n) && (1 + n <=? len) then
          MkColumns 0 0 0 (octet l (off + 1)) (if n + 2 <=? len then octet l (off + (n + 1)) else 0)
            (if n + 6 <=? len then be32_at l (off + (n + 2)) else 0)
        else no_columns).
Proof using Hh Hl.
  intros Ho Hz Hin. unfold mgmt_addr. octet_rw off. cbn [mbind option_bind]. pose proof (octet_range l off Hl).
  destruct (Z.leb_spec 1 (octet l off)), (Z.leb_spec (1 + octet l off) len); cbn [andb]; try done.
  set (n := octet l off) in *. octet_rw (off + 1). cbn [mbind option_bind].
  replace (1 + n + 1) with (n + 2) by lia. replace (1 + n + 5) with (n + 6) by lia.
  assert (E : (if n + 2 <=? len then M (b_data region + off + (1 + n)) else Some 0) = Some (if n + 2 <=? len then octet l (off + (n + 1)) else 0)).
  { destruct (Z.leb_spec (n + 2) len); [apply octet_at; lia|done]. }
  rewrite E. cbn [mbind option_bind]. destruct (Z.leb_spec (n + 6) len); [|done]. set (q := off + (n + 2)).
  octet_rw q. octet_rw (q + 1). octet_rw (q + 2). octet_rw (q + 3). cbn [mbind option_bind].
  rewrite lor_be32 by (by apply octet_range). unfold be32_at, be16_at. by replace (q + 2 + 1) with (q + 3) by lia.
Qed.

Lemma structured_at type len off : 0 <= off -> 0 <= len -> off + len <= zlen l ->
  structured M type len (b_data region + off) = Some (columns_at l type len off).
Proof using Hh Hl.
  intros Ho Hz Hin. unfold structured, columns_at, kTlvTtl, kTlvSysCaps, kTlvMgmtAddr.
  destruct (type =? 3), (Z.leb_spec 2 len); cbn [andb]; try (be16_rw off; done);
    (destruct (type =? 7), (Z.leb_spec 4 len); cbn [andb]; try (exfalso; lia);
     try (be16_rw off; be16_rw (off + 2); done);
     destruct (type =? 8), (Z.leb_spec 1 len); cbn [andb]; try done; apply mgmt_at; lia).
Qed.

(** The span of a TLV's value. *)
Definition tlv_of (t : tlv_place) : lldp_tlv :=
  LldpTlv (tp_type t) (tp_length t) (take_span (cursor region (tp_offset t)) (tp_length t)).

Definition inside (t : tlv_place) : Prop := 0 <= tp_offset t /\ 0 <= tp_length t /\ tp_offset t + tp_length t <= zlen l.

Lemma decode_row_at pid idx t : inside t -> decode_row M pid idx region (tlv_of t) = Some (row_at l pid idx t).
Proof using Hh Hl.
  destruct t as [type len off]. intros (Ho & Hz & Hin). cbn [tp_offset tp_length] in *. unfold decode_row, row_at, tlv_of, take_span, attested_span.
  cbn [t_type t_length t_value b_data b_size tp_type tp_length tp_offset]. change (i_first (cursor region off)) with (b_data region + off).
  assert (E : (if ((type =? kTlvChassisId) || (type =? kTlvPortId)) && (1 <=? len) && negb (len =? 0) then M (b_data region + off) else Some 0) =
              Some (if ((type =? 1) || (type =? 2)) && (1 <=? len) then octet l off else 0)).
  { unfold kTlvChassisId, kTlvPortId. destruct ((type =? 1) || (type =? 2)); cbn [andb]; [|done].
    destruct (Z.leb_spec 1 len); cbn [andb]; [|done]. destruct (Z.eqb_spec len 0); [lia|]. cbn [negb]. octet_rw off. done. }
  rewrite E. cbn [mbind option_bind]. rewrite copy_at, structured_at by lia. cbn [mbind option_bind].
  by replace (b_data region + off - b_data region) with off by lia.
Qed.

Lemma decode_rows_at pid ts : forall idx, Forall inside ts -> decode_rows M pid idx region (List.map tlv_of ts) = Some (rows_at l pid idx ts).
Proof using Hh Hl.
  induction ts as [|t ts IH]; intros idx Hts; [done|]. apply Forall_cons in Hts as [Ht Hts]. cbn [List.map decode_rows rows_at].
  rewrite decode_row_at by done. cbn [mbind option_bind]. by rewrite IH.
Qed.

(** ** The walk *)
Lemma p_lldp_tlv_more q : 0 <= q -> q + 2 <= zlen l -> 0 < be16_at l q / 512 -> q + 2 + be16_at l q mod 512 <= zlen l ->
  p_lldp_tlv M (cursor region q) =
  Done (tlv_of (Place (be16_at l q / 512) (be16_at l q mod 512) (q + 2))) (cursor region (q + 2 + be16_at l q mod 512)).
Proof using All.
  intros Hq Hz Ht Hin. pose proof (Z.mod_pos_bound (be16_at l q) 512 ltac:(lia)). unfold p_lldp_tlv, flat_map, verify.
  rewrite (strct_cursor M region l Hh Hn Hl Hlt lldp_hdr) by (done || change (wire_size lldp_hdr) with 2; lia). change (wire_size lldp_hdr) with 2.
  unfold Parser.bind. rewrite lldp_type by done. destruct (Z.eqb_spec (be16_at l q / 512) 0); [lia|]. cbn [negb].
  rewrite lldp_type, lldp_length by done. unfold map, take, Parser.bind. rewrite (cursor_size region l Hn Hlt) by lia. destruct (Z.ltb_spec (zlen l - (q + 2)) (be16_at l q mod 512)); [lia|].
  by rewrite cursor_advance.
Qed.

Lemma p_lldp_tlv_end q : 0 <= q <= zlen l ->
  zlen l < q + 2 \/ be16_at l q / 512 = 0 \/ zlen l < q + 2 + be16_at l q mod 512 ->
  exists e, p_lldp_tlv M (cursor region q) = Err e /\ is_err (e_kind e) = true.
Proof using All.
  intros Hq Hstop. unfold p_lldp_tlv, flat_map, verify, Parser.bind. destruct (Z.ltb_spec (zlen l) (q + 2)) as [Hs|Hs].
  { unfold strct. rewrite (cursor_size region l Hn Hlt) by lia. change (wire_size lldp_hdr) with 2. destruct (Z.ltb_spec (zlen l - q) 2); [|lia]. by eexists. }
  rewrite (strct_cursor M region l Hh Hn Hl Hlt lldp_hdr) by (done || change (wire_size lldp_hdr) with 2; lia). change (wire_size lldp_hdr) with 2.
  rewrite lldp_type by lia. destruct (Z.eqb_spec (be16_at l q / 512) 0); cbn [negb]; [by eexists|].
  rewrite lldp_length by lia. unfold map, take, Parser.bind. rewrite (cursor_size region l Hn Hlt) by lia.
  destruct (Z.ltb_spec (zlen l - (q + 2)) (be16_at l q mod 512)); [by eexists|lia].
Qed.

Lemma lldp_loop msg n : forall q acc, 0 <= q <= zlen l -> zlen l - q < Z.of_nat n ->
  exists ts r, tlvs_at l q ts /\ Forall inside ts /\
    many_loop n p_lldp_tlv push_back msg M (cursor region q) acc = Done (acc ++ List.map tlv_of ts) r.
Proof using All.
  induction n as [|n IH]; intros q acc Hq Hf; [lia|]. cbn [many_loop].
  pose proof (be16_range l q Hl). pose proof (Z.mod_pos_bound (be16_at l q) 512 ltac:(lia)). pose proof (Z.div_pos (be16_at l q) 512 ltac:(lia) ltac:(lia)).
  assert ((zlen l < q + 2 \/ be16_at l q / 512 = 0 \/ zlen l < q + 2 + be16_at l q mod 512) \/
          (q + 2 <= zlen l /\ 0 < be16_at l q / 512 /\ q + 2 + be16_at l q mod 512 <= zlen l)) as [Hstop|(Hz & Ht & Hin)] by lia.
  { destruct (p_lldp_tlv_end q Hq Hstop) as (e & -> & He). rewrite He. cbn [negb]. exists [], (cursor region q).
    split; [by apply tlvs_end|]. split; [constructor|]. cbn. by rewrite app_nil_r. }
  rewrite p_lldp_tlv_more by lia. set (t := Place (be16_at l q / 512) (be16_at l q mod 512) (q + 2)).
  destruct (Z.eqb_spec (i_first (cursor region (q + 2 + be16_at l q mod 512))) (i_first (cursor region q))) as [E|_]; [cbn in E; lia|].
  destruct (IH (q + 2 + be16_at l q mod 512) (push_back acc (tlv_of t)) ltac:(lia) ltac:(lia)) as (ts & r & Hts & Hins & ->).
  exists (t :: ts), r. split; [apply tlvs_more; done || lia|]. split; [constructor; [split; cbn; lia|done]|].
  unfold push_back. by rewrite <- app_assoc.
Qed.
End Payload.

(** C38: over any payload of less than 2^60 bytes the LLDP walk reads nothing
    outside it and ends, and its rows are those the payload denotes: one for each
    TLV from the start up to an End TLV or the first TLV that the payload does not
    hold completely, with the columns of time-to-live, capabilities and management
    address read only as far as the TLV's own length allows. *)
Theorem lldp_walk_exact M region l pid : holds M (b_data region) l -> b_size region = zlen l -> bytes_ok l -> zlen l < 2 ^ 60 ->
  exists ts, tlvs_at l 0 ts /\ walk_tlvs M region pid = Some (rows_at l pid 0 ts).
Proof.
  intros Hh Hn Hl Hlt. pose proof (zlen_nonneg l).
  destruct (lldp_loop M region l Hh Hn Hl Hlt "many0: inner parser must consume input" (many_fuel (from_bytes region)) 0 [] ltac:(lia)) as (ts & r & Hts & Hin & E).
  { rewrite (cursor_0 region). unfold many_fuel. rewrite (cursor_size region l Hn Hlt) by lia. lia. }
  exists ts. split; [done|]. unfold walk_tlvs, many0. rewrite (cursor_0 region) at 2. rewrite E. by apply decode_rows_at.
Qed.

(** ** A payload *)

(** A chassis id, a time to live, a management address, and the End TLV with a
    byte of padding. *)
Definition announcement : list Z :=
  [0x02; 0x04; 4; 0xAA; 0xBB; 0xCC] ++ [0x06; 0x02; 0; 120] ++ [0x10; 0x0B; 5; 1; 192; 168; 0; 1; 2; 0; 0; 0; 7] ++ [0; 0; 0x55].

Lemma lldp_walk_exact_witness : exists ts,
  tlvs_at announcement 0 ts /\ walk_tlvs (mem_of 0 announcement) (Bytes 0 26 None 0) 9 = Some (rows_at announcement 9 0 ts) /\
  List.map r_ttl_seconds (rows_at announcement 9 0 ts) = [0; 120; 0] /\ List.map r_mgmt_iface_number (rows_at announcement 9 0 ts) = [0; 0; 7].
Proof.
  destruct (lldp_walk_exact (mem_of 0 announcement) (Bytes 0 26 None 0) announcement 9) as (ts & Hts & Hrows).
  - exact (holds_mem_of 0 announcement []).
  - reflexivity.
  - unfold announcement. repeat constructor; lia.
  - reflexivity.
  - exists ts. split; [exact Hts|]. split; [exact Hrows|].
    assert (Hr : rows_at announcement 9 0 ts = default [] (walk_tlvs (mem_of 0 announcement) (Bytes 0 26 None 0) 9)) by (rewrite Hrows; reflexivity).
    rewrite Hr. vm_compute. split; reflexivity.
Defined.
