(* ===== verification/Someip.v ===== *)
(** * SOME/IP (nanom_shark/someip.hpp, someip_rows.hpp)

    The message header, the walk over Service Discovery entries and options, and
    the TLV members, all over a segmented payload: what a message pushes into the
    tables, in order. A read outside the payload is [None]. No JSON sink is
    attached. The specification reads each option from its own bytes; it is what
    the code does for every message none of whose endpoint options is cut short
    by its own length ([whole_message]). *)
From stdpp Require Import gmap.
From S2P Require Import Prelude Parser BytesParsers Combinators Numbers Bits Reflect ReflectFacts Emit EmitSpecs StructSpecs Segmented SegmentedSpecs Members Walk Protocol Octets.

Definition kSomeipSdServiceId : Z := 0xFFFF.
Definition kSomeipSdMethodId : Z := 0x8100.
Definition kSdOptIpv4Endpoint : Z := 0x04.
Definition kSdOptIpv6Endpoint : Z := 0x06.
Definition kSdOptIpv4Multicast : Z := 0x14.
Definition kSdOptIpv6Multicast : Z := 0x16.
Definition kSdOptIpv4SdEndpoint : Z := 0x24.
Definition kSdOptIpv6SdEndpoint : Z := 0x26.
Definition kSomeipHeaderLen : Z := 16.
Definition kSomeipSdEntrySize : Z := 16.
Definition kSomeipSdPreambleLen : Z := 8.
Definition kSdEndpointProbe : Z := 24.

Definition SomeipHeader : list (string * field_type) :=
  [("service_id", be16); ("method_id", be16); ("length", be32); ("client_id", be16); ("session_id", be16);
   ("protocol_version", byte_field); ("interface_version", byte_field); ("message_type", byte_field); ("return_code", byte_field)]%string.
Definition SomeipSdEntry : list (string * field_type) :=
  [("type", byte_field); ("index_1st_opts", byte_field); ("index_2nd_opts", byte_field); ("num_opt_1", ubits 4); ("num_opt_2", ubits 4);
   ("service_id", be16); ("instance_id", be16); ("major_version", byte_field); ("ttl", ubits 24); ("minor_version", be32)]%string.
Definition someip_tag : list (string * field_type) :=
  [("rsvd", ubits 1); ("wire_type", ubits 3); ("data_id", ubits 12)]%string.

(** What [for_each_sd_child] calls its visitors with. *)
Inductive sd_child :=
| on_entry (idx : Z) (e : value)
| on_option (idx len type : Z) (addr : list Z) (l4proto port : Z).

(** [sd_decode_endpoint] over the gathered bytes [ob], of which [end_] belong to
    the option: the address, the protocol and the port. *)
Definition sd_decode_endpoint (ob : list Z) (type end_ : Z) : option (list Z * Z * Z) :=
  let zero := replicate 16 0 in
  let v4 := (type =? kSdOptIpv4Endpoint) || (type =? kSdOptIpv4Multicast) || (type =? kSdOptIpv4SdEndpoint) in
  let v6 := (type =? kSdOptIpv6Endpoint) || (type =? kSdOptIpv6Multicast) || (type =? kSdOptIpv6SdEndpoint) in
  if negb v4 && negb v6 then Some (zero, 0, 0)
  else
    let addr_n := if v4 then 4 else 16 in
    let a := 4 in
    let proto := a + addr_n + 1 in
    let prt := proto + 1 in
    if end_ <? prt + 2 then Some (zero, 0, 0)
    else
      addr ← copy_raw (Z.to_nat addr_n) (mem_of 0 ob) a;
      l4 ← zget ob proto;
      hi ← zget ob prt; lo ← zget ob (prt + 1);
      Some (addr ++ replicate (Z.to_nat (16 - addr_n)) 0, l4, Z.lor (Z.shiftl hi 8) lo).

Section Someip.
Context (M : memory).

(** The entries from number [i] on, [n] of them. *)
Fixpoint sd_entries (n : nat) (payload : seg_input) (i : Z) : option (list sd_child) :=
  match n with
  | O => Some []
  | S n =>
      let eoff := kSomeipSdPreambleLen + i * kSomeipSdEntrySize in
      match strct_seg SomeipSdEntry big M (seg_advance payload eoff) with
      | Stop _ => None
      | Err _ => sd_entries n payload (i + 1)
      | Done e _ => rest ← sd_entries n payload (i + 1); Some (on_entry (u8 i) e :: rest)
      end
  end.

(** The options between [opt] and [opt_end]; a round passes at least three
    bytes. *)
Fixpoint sd_options (fuel : nat) (payload : seg_input) (opt opt_end oi : Z) : option (list sd_child) :=
  if opt + 3 <=? opt_end then
    match fuel with
    | O => None
    | S fuel =>
        let probe := Z.min kSdEndpointProbe (opt_end - opt) in
        g ← gather_into M (seg_advance payload opt) probe;
        match g with
        | None => Some []
        | Some bs =>
            let ob := bs ++ replicate (Z.to_nat (kSdEndpointProbe - probe)) 0 in
            hi ← zget ob 0; lo ← zget ob 1;
            let len := Z.lor (Z.shiftl hi 8) lo in
            type ← zget ob 2;
            let next := opt + 3 + len in
            if opt_end <? next then Some []
            else
              ep ← sd_decode_endpoint ob type probe;
              rest ← sd_options fuel payload next opt_end (u32 (oi + 1));
              Some (on_option (u8 oi) len type ep.1.1 ep.1.2 ep.2 :: rest)
        end
    end
  else Some [].

Definition for_each_sd_child (hdr : value) (payload : seg_input) : option (list sd_child) :=
  if negb (member SomeipHeader hdr "service_id" =? kSomeipSdServiceId) || negb (member SomeipHeader hdr "method_id" =? kSomeipSdMethodId)
  then Some []
  else
    let size := seg_size payload in
    if size <? kSomeipSdPreambleLen then Some []
    else
      match seg_be32 M (seg_advance payload 4) with
      | Stop _ => None
      | Err _ => Some []
      | Done entries_len _ =>
          let entries_off := kSomeipSdPreambleLen in
          let declared_end := entries_off + entries_len in
          let entries_end := if size <? declared_end then size else declared_end in
          let n_entries := u32 ((entries_end - entries_off) / kSomeipSdEntrySize) in
          es ← sd_entries (Z.to_nat n_entries) payload 0;
          let opt_len_at := declared_end in
          if size <? opt_len_at + 4 then Some es
          else
            match seg_be32 M (seg_advance payload opt_len_at) with
            | Stop _ => None
            | Err _ => Some es
            | Done options_len _ =>
                let opt := opt_len_at + 4 in
                let opt_end := if size <? opt + options_len then size else opt + options_len in
                os ← sd_options (Z.to_nat (opt_end - opt)) payload opt opt_end 0;
                Some (es ++ os)
            end
      end.

(** ** TLV members *)
Record someip_member_meta := MkMember { m_data_id : Z; m_wire_type : Z; m_length : Z }.

(** The value length: implied by the wire type, or read behind the tag. *)
Definition member_length (wt : Z) (rest : seg_input) : seg_result Z :=
  if wt =? 0 then Done 1 rest
  else if wt =? 1 then Done 2 rest
  else if wt =? 2 then Done 4 rest
  else if wt =? 3 then Done 8 rest
  else if wt =? 5 then seg_u8 M rest
  else if wt =? 6 then seg_be16 M rest
  else if wt =? 7 then seg_be32 M rest
  else seg_make_err rest "someip wire type 4 (config-dependent width)".

Definition p_someip_member_seg (s : seg_input) : seg_result someip_member_meta :=
  let* (tag, rest) := strct_seg someip_tag native M s in
  let wt := member someip_tag tag "wire_type" in
  let* (vlen, rest) := member_length wt rest in
  let* (_u, rest) := seg_skip rest vlen in
  Done (MkMember (member someip_tag tag "data_id") wt (u32 vlen)) rest.

(** A round passes at least the tag. *)
Fixpoint tlv_members (fuel : nat) (cur : seg_input) : option (list someip_member_meta) :=
  if seg_empty cur then Some []
  else
    match fuel with
    | O => None
    | S fuel =>
        match p_someip_member_seg cur with
        | Stop _ => None
        | Err _ => Some []
        | Done m rest =>
            if seg_offset rest =? seg_offset cur then Some []
            else ms ← tlv_members fuel rest; Some (m :: ms)
        end
    end.

Definition walk_tlv_members (region : seg_input) : option (list someip_member_meta) :=
  tlv_members (S (Z.to_nat (seg_size region))) region.

(** ** A message *)

(** The rows a message pushes: table and row. *)
Definition sd_row (pid : Z) (ch : sd_child) : string * row :=
  match ch with
  | on_entry idx e => ("someip_sd_entry"%string, OtherRow (VList [VScalar pid; VScalar idx; e]))
  | on_option idx len type addr l4 port =>
      ("someip_sd_option"%string,
       OtherRow (VList [VScalar pid; VScalar idx; VScalar len; VScalar type; VScalar l4; VScalar port; VList (List.map VScalar addr)]))
  end.

Fixpoint tlv_rows (pid idx : Z) (ms : list someip_member_meta) : list (string * row) :=
  match ms with
  | [] => []
  | m :: ms =>
      ("someip_tlv"%string, OtherRow (VList [VScalar pid; VScalar idx; VScalar (m_data_id m); VScalar (m_wire_type m); VScalar (m_length m)]))
      :: tlv_rows pid (u32 (idx + 1)) ms
  end.

Definition maybe_dispatch (payload : seg_input) (pid : Z) (assume_tlv : bool) : option (list (string * row)) :=
  if seg_size payload <? kSomeipHeaderLen then Some []
  else
    match strct_seg SomeipHeader big M payload with
    | Stop _ => None
    | Err _ => Some []
    | Done hdr after_header =>
        cs ← for_each_sd_child hdr after_header;
        ms ← (if assume_tlv then walk_tlv_members after_header else Some []);
        Some (("someip"%string, Node pid 0 false hdr) :: List.map (sd_row pid) cs ++ tlv_rows pid 0 ms)
    end.
End Someip.

Definition push_rows {U} (rows : list (string * row)) (w : world U) : world U :=
  fold_left (fun w r => push r.1 r.2 w) rows w.

(** The protocol. *)
Definition assume_tlv (c : decode_ctx) : bool :=
  match c_opts c with None => false | Some o => port_in (someip_tlv_ports o) (c_src_port c) (c_dst_port c) end.

Definition Someip {U} : protocol U :=
  Protocol (udp_port_cfg someip_ports) (fun M c payload w =>
    push_rows (default [] (maybe_dispatch M payload (c_packet_id c) (assume_tlv c))) w).

(** * SOME/IP: what a message pushes

    The rows are a function of the message's bytes: those of the parts put
    together, wherever the parts end. *)

(** ** The rows a message denotes *)
Section Reference.
Context (r : list Z).

(** *** Service discovery *)

(** The entry number [i] of the bytes behind the header. *)
Definition entry_at (i : Z) : sd_child := on_entry (u8 i) (VList (values_at big (slice r (8 + i * 16) 16) SomeipSdEntry 0)).

(** The bytes of an address of an option of type [type]. *)
Definition address_size (type : Z) : option Z :=
  if bool_decide (type ∈ [0x04; 0x14; 0x24]) then Some 4 else if bool_decide (type ∈ [0x06; 0x16; 0x26]) then Some 16 else None.

(** The address, protocol and port of the option at [off], when they fit before
    [end_]. *)
Definition endpoint_at (type off end_ : Z) : list Z * Z * Z :=
  match address_size type with
  | None => (replicate 16 0, 0, 0)
  | Some n =>
      if end_ <? off + (n + 8) then (replicate 16 0, 0, 0)
      else (slice r (off + 4) n ++ replicate (Z.to_nat (16 - n)) 0, octet r (off + (n + 5)), be16_at r (off + (n + 6)))
  end.

(** The options from [off] to [end_]: up to the first that does not fit. An address
    is the option's own: one that its declared bytes do not hold is left zero. *)
Fixpoint options_at (fuel : nat) (off end_ oi : Z) : list sd_child :=
  match fuel with
  | O => []
  | S fuel =>
      let len := be16_at r off in
      if end_ <? off + 3 then []
      else if end_ <? off + 3 + len then []
      else
        let type := octet r (off + 2) in
        let ep := endpoint_at type off (off + 3 + len) in
        on_option (u8 oi) len type ep.1.1 ep.1.2 ep.2 :: options_at fuel (off + 3 + len) end_ (u32 (oi + 1))
  end.

(** No option there declares fewer bytes than its address takes while others
    follow it. *)
Fixpoint whole_options (fuel : nat) (off end_ : Z) : bool :=
  match fuel with
  | O => true
  | S fuel =>
      let len := be16_at r off in
      if end_ <? off + 3 then true
      else if end_ <? off + 3 + len then true
      else
        match address_size (octet r (off + 2)) with
        | Some n => (n + 5 <=? len) || (end_ <? off + (n + 8))
        | None => true
        end && whole_options fuel (off + 3 + len) end_
  end.

(** The entries and options: the declared lengths, cut where the payload ends. *)
Definition children_at : list sd_child :=
  if zlen r <? 8 then []
  else
    let n := (Z.min (be32_at r 4) (zlen r - 8)) / 16 in
    let opt_at := 8 + be32_at r 4 in
    List.map entry_at (seqZ 0 n) ++
    (if zlen r <? opt_at + 4 then []
     else options_at (length r) (opt_at + 4) (Z.min (zlen r) (opt_at + 4 + be32_at r opt_at)) 0).

(** Every option is whole. *)
Definition whole_children : bool :=
  if zlen r <? 8 then true
  else
    let opt_at := 8 + be32_at r 4 in
    if zlen r <? opt_at + 4 then true
    else whole_options (length r) (opt_at + 4) (Z.min (zlen r) (opt_at + 4 + be32_at r opt_at)).

(** *** Members *)

(** The length of the value behind a tag at [q], and where the value starts. *)
Definition value_place (wt q : Z) : option (Z * Z) :=
  if wt <? 4 then Some (2 ^ wt, q + 2)
  else if wt =? 4 then None
  else
    let n := 2 ^ (wt - 5) in
    if zlen r <? q + 2 + n then None
    else Some (if wt =? 5 then octet r (q + 2) else if wt =? 6 then be16_at r (q + 2) else be32_at r (q + 2), q + 2 + n).

(** The members from [q] on, up to the first that is not complete or whose
    width is not on the wire. *)
Fixpoint members_at (fuel : nat) (q : Z) : list someip_member_meta :=
  match fuel with
  | O => []
  | S fuel =>
      if zlen r <? q + 2 then []
      else
        let wt := be16_at r q / 4096 mod 8 in
        match value_place wt q with
        | None => []
        | Some (len, at_) =>
            if zlen r <? at_ + len then []
            else MkMember (be16_at r q mod 4096) wt len :: members_at fuel (at_ + len)
        end
  end.
End Reference.

(** A service discovery message. *)
Definition is_sd (l : list Z) : bool := (be16_at l 0 =? 0xFFFF) && (be16_at l 2 =? 0x8100).

(** The rows of a message [l]. *)
Definition message_rows (l : list Z) (pid : Z) (tlv : bool) : list (string * row) :=
  if zlen l <? 16 then []
  else
    let r := zdrop 16 l in
    ("someip"%string, Node pid 0 false (VList (values_at big (slice l 0 16) SomeipHeader 0))) ::
    List.map (sd_row pid) (if is_sd l then children_at r else []) ++
    (if tlv then tlv_rows pid 0 (members_at r (S (length r)) 0) else []).

(** No endpoint option of [l] is cut short by its own length. *)
Definition whole_message (l : list Z) : bool := if is_sd l then whole_children (zdrop 16 l) else true.

(** ** Reading at a place *)
Section Payload.
Context (M : memory) (bss : list (list Z)) (r : list Z) (Hr : bytes_ok r).

(** [s] stands at [q] of [r]. *)
Definition at_place (s : seg_input) (q : Z) : Prop := seg_wf M bss s /\ 0 <= q <= zlen r /\ remaining bss s = zdrop q r.

Lemma place_size s q : at_place s q -> seg_size s = zlen r - q.
Proof using. intros (Hw & Hq & E). rewrite (seg_size_spec M bss s Hw), E, zlen_zdrop; lia. Qed.

Lemma place_ztake s q n : at_place s q -> ztake n (remaining bss s) = slice r q n.
Proof using. intros (_ & _ & E). by rewrite E. Qed.

Lemma place_advance s q n : at_place s q -> 0 <= n -> q + n <= zlen r ->
  at_place (seg_advance s n) (q + n) /\ seg_offset (seg_advance s n) = seg_offset s + n.
Proof using.
  intros Hp Hn Hz. pose proof (place_size s q Hp) as Hs. destruct Hp as (Hw & Hq & E).
  destruct (seg_advance_wf M bss s n Hw ltac:(lia)) as (Hw' & Ha & _ & _ & Hrem). split; [|exact Ha].
  split; [done|]. split; [lia|]. by rewrite Hrem, E, zdrop_zdrop by lia.
Qed.

Lemma place_empty s q : at_place s q -> seg_empty s = (zlen r <=? q).
Proof using.
  intros Hp. pose proof (place_size s q Hp) as Hs. destruct Hp as (Hw & Hq & E). pose proof (seg_size_spec M bss s Hw) as Hs'.
  unfold seg_empty. destruct (Z.eqb_spec (s_cur s) nullptr) as [Hc|Hc].
  - destruct (sw_cur M bss s Hw) as [(_ & _ & E')|Hc']; [|rewrite Hc in Hc'; unfold nullptr in Hc'; lia].
    unfold remaining in Hs'. rewrite E' in Hs'. change (zlen []) with 0 in Hs'. symmetry. apply Z.leb_le. lia.
  - destruct (sw_cur M bss s Hw) as [(? & _)|Hc']; [done|]. destruct (sw_stands M bss s Hw) as (bs & _ & Hz & _ & E' & _).
    unfold remaining in Hs'. rewrite E', zlen_app in Hs'. pose proof (zlen_nonneg (concat (drop (S (s_seg_i s)) bss))). symmetry. apply Z.leb_gt. lia.
Qed.

Lemma place_uint s q n : n ∈ [1; 2; 4] -> at_place s q ->
  seg_uint n big M s = if zlen r - q <? n then seg_make_incomplete s (n - (zlen r - q)) else Done (uint_val big (slice r q n)) (seg_advance s n).
Proof using Hr.
  intros Hn Hp. pose proof (place_size s q Hp) as Hs. assert (Hn' : size_ok n = true /\ 1 <= n <= 4) by (rewrite !elem_of_cons, elem_of_nil in Hn; destruct Hn as [->|[->|[->|[]]]]; split; done || lia).
  destruct Hn' as [Hn8 Hn4]. unfold seg_uint. destruct Hp as (Hw & Hq & E). rewrite <- Hs.
  destruct (Z.ltb_spec (seg_size s) n) as [Hlt|Hge].
  - unfold with_window. pose proof (gather_spec M bss s Hw n ltac:(lia)) as Hg. destruct (gather M s n) as [[w|]|]; [destruct Hg; lia|done|done].
  - rewrite (with_window_spec M bss s Hw n _ (uint_val big (slice r q n)) ltac:(lia)).
    + destruct (Z.ltb_spec (seg_size s) n); [lia|done].
    + intros M' p Hh. rewrite E in Hh. change (ztake n (zdrop q r)) with (slice r q n) in Hh.
      pose proof (zlen_slice r q n ltac:(lia) ltac:(lia) ltac:(lia)) as Hz.
      pose proof (load_uint_spec M' p _ (bytes_ok_slice r q n Hr) Hh big n 0 Hn8 ltac:(lia) ltac:(lia)) as E'.
      rewrite Z.add_0_r in E'. rewrite E'. unfold slice at 1. rewrite zdrop_0, ztake_all by lia. done.
Qed.

Lemma place_strct s q fs dflt : described fs = true -> at_place s q ->
  strct_seg fs dflt M s =
  if zlen r - q <? wire_size fs then seg_make_incomplete s (wire_size fs - (zlen r - q))
  else Done (VList (values_at dflt (slice r q (wire_size fs)) fs 0)) (seg_advance s (wire_size fs)).
Proof using Hr.
  intros Hfs Hp. pose proof (place_size s q Hp) as Hs. destruct (described_inv fs Hfs) as (_ & _ & _ & Hw0 & _). unfold strct_seg.
  destruct Hp as (Hw & Hq & E). rewrite <- Hs. destruct (Z.ltb_spec (seg_size s) (wire_size fs)) as [Hlt|Hge].
  - unfold with_window. pose proof (gather_spec M bss s Hw (wire_size fs) Hw0) as Hg. destruct (gather M s (wire_size fs)) as [[w|]|]; [destruct Hg; lia|done|done].
  - rewrite (with_window_spec M bss s Hw (wire_size fs) _ (VList (values_at dflt (slice r q (wire_size fs)) fs 0)) Hw0).
    + destruct (Z.ltb_spec (seg_size s) (wire_size fs)); [lia|done].
    + intros M' p Hh. rewrite E in Hh. apply struct_at_spec; [done|exact Hh|by apply bytes_ok_slice|]. rewrite zlen_slice; lia.
Qed.

Lemma place_gather s q n : at_place s q -> 0 <= n -> q + n <= zlen r -> gather_into M s n = Some (Some (slice r q n)).
Proof using.
  intros Hp Hn Hz. pose proof (place_size s q Hp) as Hs. destruct Hp as (Hw & Hq & E). unfold gather_into.
  destruct (Z.ltb_spec (seg_size s) n); [lia|]. pose proof (sw_stands M bss s Hw) as Hst. fold (remaining bss s) in Hst.
  rewrite (gather_loop_spec M (s_src s) bss (sw_parts M bss s Hw) _ _ _ _ _ n Hst); [|rewrite E, zlen_zdrop; lia|unfold part_fuel; lia].
  by rewrite E.
Qed.

(** ** Service discovery *)
Context (s0 : seg_input) (H0 : at_place s0 0).

Lemma sd_entries_at n : forall i, 0 <= i -> 8 + (i + Z.of_nat n) * 16 <= zlen r ->
  sd_entries M n s0 i = Some (List.map (entry_at r) (seqZ i (Z.of_nat n))).
Proof using All.
  induction n as [|n IH]; intros i Hi Hz; [done|]. cbn [sd_entries]. unfold kSomeipSdPreambleLen, kSomeipSdEntrySize.
  destruct (place_advance s0 0 (8 + i * 16) H0 ltac:(lia) ltac:(lia)) as [Hp _]. rewrite Z.add_0_l in Hp.
  rewrite (place_strct _ _ SomeipSdEntry big eq_refl Hp). change (wire_size SomeipSdEntry) with 16.
  destruct (Z.ltb_spec (zlen r - (8 + i * 16)) 16); [lia|]. rewrite IH by lia. cbn [mbind option_bind].
  rewrite (seqZ_cons i (Z.of_nat (S n))) by lia. cbn [List.map]. by replace (Z.pred (Z.of_nat (S n))) with (Z.of_nat n) by lia.
Qed.

(** What the probe of an option holds. *)
Lemma probe_octet off p k : 0 <= off -> 0 <= k < p -> off + p <= zlen r ->
  zget (slice r off p ++ replicate (Z.to_nat (24 - p)) 0) k = Some (octet r (off + k)).
Proof using.
  intros Ho Hk Hz. rewrite zget_app_l by (rewrite zlen_slice; lia). unfold slice. rewrite zget_ztake, zget_zdrop by lia. apply zget_octet. lia.
Qed.

Lemma probe_copy off p a n : 0 <= off -> 0 <= a -> 0 <= n -> a + n <= p -> off + p <= zlen r ->
  copy_raw (Z.to_nat n) (mem_of 0 (slice r off p ++ replicate (Z.to_nat (24 - p)) 0)) a = Some (slice r (off + a) n).
Proof using.
  intros Ho Ha Hn Hp Hz. pose proof (zlen_slice r (off + a) n ltac:(lia) Hn ltac:(lia)) as Hzl.
  replace (Z.to_nat n) with (length (slice r (off + a) n)) by (unfold zlen in Hzl; lia). apply copy_raw_spec.
  rewrite <- (slice_slice r off p a n) by lia.
  exact (holds_slice _ 0 (slice r off p) a n ltac:(lia) Hn ltac:(rewrite zlen_slice; lia) (holds_mem_of 0 (slice r off p) _)).
Qed.

Lemma one_of_three t a b c : bool_decide (t ∈ [a; b; c]) = (t =? a) || (t =? b) || (t =? c).
Proof using.
  apply eq_true_iff_eq. rewrite bool_decide_eq_true, !orb_true_iff, !Z.eqb_eq, !elem_of_cons, elem_of_nil. tauto.
Qed.

Lemma endpoint_probe type off end_ p : 0 <= off -> end_ <= zlen r -> p = Z.min 24 (end_ - off) -> 0 <= p ->
  sd_decode_endpoint (slice r off p ++ replicate (Z.to_nat (24 - p)) 0) type p = Some (endpoint_at r type off end_).
Proof using Hr.
  intros Ho He Hp Hp0. unfold sd_decode_endpoint, endpoint_at.
  assert (Hend : forall n, n = 4 \/ n = 16 ->
    (if p <? 4 + n + 1 + 1 + 2 then Some (replicate 16 0, 0, 0)
     else addr ← copy_raw (Z.to_nat n) (mem_of 0 (slice r off p ++ replicate (Z.to_nat (24 - p)) 0)) 4;
          l4 ← zget (slice r off p ++ replicate (Z.to_nat (24 - p)) 0) (4 + n + 1);
          hi ← zget (slice r off p ++ replicate (Z.to_nat (24 - p)) 0) (4 + n + 1 + 1);
          lo ← zget (slice r off p ++ replicate (Z.to_nat (24 - p)) 0) (4 + n + 1 + 1 + 1);
          Some (addr ++ replicate (Z.to_nat (16 - n)) 0, l4, Z.lor (Z.shiftl hi 8) lo)) =
    Some (if end_ <? off + (n + 8) then (replicate 16 0, 0, 0)
          else (slice r (off + 4) n ++ replicate (Z.to_nat (16 - n)) 0, octet r (off + (n + 5)), be16_at r (off + (n + 6))))).
  { intros n Hn. destruct (Z.ltb_spec p (4 + n + 1 + 1 + 2)), (Z.ltb_spec end_ (off + (n + 8))); try lia; [done|].
    rewrite probe_copy, !probe_octet by lia. cbn [mbind option_bind].
    rewrite lor_be16 by (by apply octet_range). unfold be16_at.
    replace (off + (4 + n + 1 + 1 + 1)) with (off + (n + 6) + 1) by lia. replace (off + (4 + n + 1 + 1)) with (off + (n + 6)) by lia.
    by replace (off + (4 + n + 1)) with (off + (n + 5)) by lia. }
  unfold address_size, kSdOptIpv4Endpoint, kSdOptIpv4Multicast, kSdOptIpv4SdEndpoint, kSdOptIpv6Endpoint, kSdOptIpv6Multicast, kSdOptIpv6SdEndpoint.
  rewrite !one_of_three. destruct ((type =? 4) || (type =? 20) || (type =? 36)); cbn [negb andb]; [apply (Hend 4); by left|].
  destruct ((type =? 6) || (type =? 22) || (type =? 38)); cbn [negb andb]; [apply (Hend 16); by right|done].
Qed.

(** A whole option has its address wherever its bytes are taken to end. *)
Lemma whole_endpoint off end_ len type : 0 <= off -> off + 3 + len <= end_ ->
  match address_size type with Some n => (n + 5 <=? len) || (end_ <? off + (n + 8)) | None => true end = true ->
  endpoint_at r type off end_ = endpoint_at r type off (off + 3 + len).
Proof using.
  intros Ho He. unfold endpoint_at. destruct (address_size type) as [n|]; [|done]. rewrite orb_true_iff, Z.leb_le, Z.ltb_lt. intros Hw.
  by destruct (Z.ltb_spec end_ (off + (n + 8))), (Z.ltb_spec (off + 3 + len) (off + (n + 8))); try lia.
Qed.

Lemma sd_options_at n m : forall off end_ oi, 0 <= off -> end_ <= zlen r -> end_ - off <= Z.of_nat n -> end_ - off <= Z.of_nat m ->
  whole_options r m off end_ = true -> sd_options M n s0 off end_ oi = Some (options_at r m off end_ oi).
Proof using All.
  revert n. induction m as [|m IH]; intros n off end_ oi Ho He Hn Hm Hwh.
  { destruct n; cbn [sd_options options_at]; by destruct (Z.leb_spec (off + 3) end_); [lia|]. }
  cbn [options_at whole_options] in *. destruct (Z.ltb_spec end_ (off + 3)) as [Hs|Hs].
  { destruct n; cbn [sd_options]; by destruct (Z.leb_spec (off + 3) end_); [lia|]. }
  destruct n as [|n]; [lia|]. cbn [sd_options]. destruct (Z.leb_spec (off + 3) end_); [|lia]. unfold kSdEndpointProbe.
  set (p := Z.min 24 (end_ - off)). assert (3 <= p) by (unfold p; lia).
  destruct (place_advance s0 0 off H0 ltac:(lia) ltac:(lia)) as [Hp _]. rewrite Z.add_0_l in Hp.
  rewrite (place_gather _ off p Hp) by (unfold p; lia). cbn [mbind option_bind]. rewrite !probe_octet by (unfold p in *; lia). cbn [mbind option_bind].
  rewrite lor_be16 by (by apply octet_range). rewrite (Z.add_0_r off). change (octet r off * 2 ^ 8 + octet r (off + 1)) with (be16_at r off).
  pose proof (be16_range r off Hr). destruct (Z.ltb_spec end_ (off + 3 + be16_at r off)); [done|].
  apply andb_true_iff in Hwh as [Hw Hwh]. rewrite (endpoint_probe (octet r (off + 2)) off end_ p) by (done || lia). cbn [mbind option_bind].
  rewrite (whole_endpoint off end_ (be16_at r off)) by done. by rewrite IH by (done || lia).
Qed.

(** The walk over entries and options. *)
Lemma children_spec hdr :
  ((member SomeipHeader hdr "service_id" =? 0xFFFF) && (member SomeipHeader hdr "method_id" =? 0x8100) = true -> whole_children r = true) ->
  for_each_sd_child M hdr s0 =
  Some (if (member SomeipHeader hdr "service_id" =? 0xFFFF) && (member SomeipHeader hdr "method_id" =? 0x8100) then children_at r else []).
Proof using All.
  intros Hwh. unfold for_each_sd_child, kSomeipSdServiceId, kSomeipSdMethodId, children_at, kSomeipSdPreambleLen, kSomeipSdEntrySize.
  destruct (member SomeipHeader hdr "service_id" =? 0xFFFF); cbn [negb andb orb]; [|done].
  destruct (member SomeipHeader hdr "method_id" =? 0x8100); cbn [negb andb orb] in *; [|done].
  specialize (Hwh eq_refl). unfold whole_children in Hwh. rewrite (place_size s0 0 H0), Z.sub_0_r. destruct (Z.ltb_spec (zlen r) 8) as [|Hz]; [done|].
  destruct (place_advance s0 0 4 H0 ltac:(lia) ltac:(lia)) as [Hp _]. unfold seg_be32. rewrite (place_uint _ _ 4 ltac:(set_solver) Hp), Z.add_0_l.
  destruct (Z.ltb_spec (zlen r - 4) 4); [lia|]. rewrite uint32_at by lia. pose proof (be32_range r 4 Hr). set (el := be32_at r 4) in *.
  set (n := Z.min el (zlen r - 8) / 16). assert (Hn : 0 <= n /\ n * 16 <= Z.min el (zlen r - 8)) by (unfold n; Z.div_mod_to_equations; lia).
  assert (E : u32 (((if zlen r <? 8 + el then zlen r else 8 + el) - 8) / 16) = n).
  { unfold n. replace ((if zlen r <? 8 + el then zlen r else 8 + el) - 8) with (Z.min el (zlen r - 8)) by (destruct (Z.ltb_spec (zlen r) (8 + el)); lia).
    apply wrap_small. split; [lia|]. change (2 ^ 32) with 4294967296 in *. lia. }
  rewrite E. rewrite sd_entries_at by lia. rewrite Z2Nat.id by lia. cbn [mbind option_bind].
  fold el in Hwh. destruct (Z.ltb_spec (zlen r) (8 + el + 4)) as [Ho|Ho]; [by rewrite app_nil_r|].
  destruct (place_advance s0 0 (8 + el) H0 ltac:(lia) ltac:(lia)) as [Hp' _]. rewrite (place_uint _ _ 4 ltac:(set_solver) Hp'), Z.add_0_l.
  destruct (Z.ltb_spec (zlen r - (8 + el)) 4); [lia|]. rewrite uint32_at by lia. pose proof (be32_range r (8 + el) Hr). set (ol := be32_at r (8 + el)) in *.
  replace (if zlen r <? 8 + el + 4 + ol then zlen r else 8 + el + 4 + ol) with (Z.min (zlen r) (8 + el + 4 + ol)) by (destruct (Z.ltb_spec (zlen r) (8 + el + 4 + ol)); lia).
  rewrite (sd_options_at _ (length r)); [done|lia|lia|lia|unfold zlen in *; lia|done].
Qed.

(** ** Members *)
Lemma tag_wire_type q : 0 <= q -> q + 2 <= zlen r ->
  member someip_tag (VList (values_at native (slice r q 2) someip_tag 0)) "wire_type" = be16_at r q / 4096 mod 8.
Proof using Hr.
  intros Hq Hz. erewrite member_at by (cbv; reflexivity). rewrite slice_octets by done. unfold be16_at.
  pose proof (octet_range r q Hr). pose proof (octet_range r (q + 1) Hr). set (a := octet r q) in *. set (b := octet r (q + 1)) in *.
  change (scalar_of _ _) with ((be_val [a] / 16) mod 8). rewrite be_val_cons.
  change (be_val []) with 0. cbn [length]. change (2 ^ (8 * Z.of_nat 0)) with 1. change (2 ^ 8) with 256. Z.div_mod_to_equations. lia.
Qed.

Lemma tag_data_id q : 0 <= q -> q + 2 <= zlen r ->
  member someip_tag (VList (values_at native (slice r q 2) someip_tag 0)) "data_id" = be16_at r q mod 4096.
Proof using Hr.
  intros Hq Hz. erewrite member_at by (cbv; reflexivity). rewrite slice_octets by done. unfold be16_at.
  pose proof (octet_range r q Hr). pose proof (octet_range r (q + 1) Hr). set (a := octet r q) in *. set (b := octet r (q + 1)) in *.
  change (scalar_of _ _) with ((be_val [a; b] / 1) mod 4096). rewrite !be_val_cons.
  change (be_val []) with 0. cbn [length]. change (2 ^ (8 * Z.of_nat 0)) with 1. change (2 ^ (8 * Z.of_nat 1)) with 256. change (2 ^ 8) with 256. Z.div_mod_to_equations. lia.
Qed.

(** The length read behind a tag. *)
Lemma member_length_at wt s q : 0 <= wt < 8 -> at_place s (q + 2) -> 0 <= q ->
  match value_place r wt q with
  | Some (len, at_) => exists s', member_length M wt s = Done len s' /\ at_place s' at_ /\ seg_offset s' = seg_offset s + (at_ - (q + 2)) /\
      q + 2 <= at_ /\ 0 <= len < 2 ^ 32
  | None => exists e, member_length M wt s = Err e
  end.
Proof using Hr.
  clear H0 s0. intros Hwt Hp Hq. pose proof Hp as (_ & Hq2 & _). unfold value_place, member_length.
  assert (Hpre : forall n v, n ∈ [1; 2; 4] -> (q + 2 + n <= zlen r -> uint_val big (slice r (q + 2) n) = v /\ 0 <= v < 2 ^ 32) ->
    match (if zlen r <? q + 2 + n then None else Some (v, q + 2 + n)) with
    | Some (len, at_) => exists s', seg_uint n big M s = Done len s' /\ at_place s' at_ /\ seg_offset s' = seg_offset s + (at_ - (q + 2)) /\ q + 2 <= at_ /\ 0 <= len < 2 ^ 32
    | None => exists e, seg_uint n big M s = Err e
    end).
  { intros n v Hn Hv. assert (1 <= n <= 4) by (rewrite !elem_of_cons, elem_of_nil in Hn; lia).
    rewrite (place_uint s (q + 2) n Hn Hp). destruct (Z.ltb_spec (zlen r) (q + 2 + n)) as [Hs|Hs], (Z.ltb_spec (zlen r - (q + 2)) n); try lia; [by eexists|].
    destruct (Hv Hs) as [-> Hb]. destruct (place_advance s (q + 2) n Hp ltac:(lia) Hs) as [Hp' Ho]. eexists. split; [done|]. split; [done|]. split; [rewrite Ho; lia|lia]. }
  assert (wt = 0 \/ wt = 1 \/ wt = 2 \/ wt = 3 \/ wt = 4 \/ wt = 5 \/ wt = 6 \/ wt = 7) as [->|[->|[->|[->|[->|[->|[->| ->]]]]]]] by lia;
    [eexists; split; [done|]; split; [done|]; split; [lia|split; [lia|done]]..|by eexists| | |].
  - apply (Hpre 1 (octet r (q + 2))); [set_solver|]. intros Hz. rewrite uint8_at by lia. split; [done|]. pose proof (octet_range r (q + 2) Hr). lia.
  - apply (Hpre 2 (be16_at r (q + 2))); [set_solver|]. intros Hz. rewrite uint16_at by lia. split; [done|]. pose proof (be16_range r (q + 2) Hr). lia.
  - apply (Hpre 4 (be32_at r (q + 2))); [set_solver|]. intros Hz. rewrite uint32_at by lia. split; [done|]. by apply be32_range.
Qed.

Lemma member_seg_at s q : at_place s q ->
  if zlen r <? q + 2 then exists e, p_someip_member_seg M s = Err e
  else
    match value_place r (be16_at r q / 4096 mod 8) q with
    | None => exists e, p_someip_member_seg M s = Err e
    | Some (len, at_) =>
        if zlen r <? at_ + len then exists e, p_someip_member_seg M s = Err e
        else exists s', p_someip_member_seg M s = Done (MkMember (be16_at r q mod 4096) (be16_at r q / 4096 mod 8) len) s' /\
          at_place s' (at_ + len) /\ seg_offset s' = seg_offset s + (at_ + len - q) /\ q + 2 <= at_ /\ 0 <= len
    end.
Proof using Hr.
  clear H0 s0. intros Hp. pose proof Hp as (_ & Hq & _). unfold p_someip_member_seg. rewrite (place_strct s q someip_tag native eq_refl Hp). change (wire_size someip_tag) with 2.
  destruct (Z.ltb_spec (zlen r) (q + 2)) as [Hs|Hs], (Z.ltb_spec (zlen r - q) 2); try lia; [by eexists|].
  destruct (place_advance s q 2 Hp ltac:(lia) Hs) as [Hp2 Ho2]. unfold Parser.bind. rewrite tag_wire_type, tag_data_id by lia.
  pose proof (member_length_at (be16_at r q / 4096 mod 8) (seg_advance s 2) q (Z.mod_pos_bound _ 8 ltac:(lia)) Hp2 ltac:(lia)) as Hml.
  destruct (value_place r _ q) as [[len at_]|]; [|destruct Hml as [e ->]; by eexists].
  destruct Hml as (s1 & -> & Hp1 & Ho1 & Hat & Hlen). unfold seg_skip. rewrite (place_size s1 at_ Hp1). pose proof Hp1 as (_ & Hz1 & _).
  destruct (Z.ltb_spec (zlen r) (at_ + len)), (Z.ltb_spec (zlen r - at_) len); try lia; [by eexists|].
  destruct (place_advance s1 at_ len Hp1 ltac:(lia) ltac:(lia)) as [Hp' Ho']. eexists. split; [|split; [exact Hp'|split; [|lia]]].
  - cbn. do 2 f_equal. by apply wrap_small.
  - rewrite Ho', Ho1, Ho2. lia.
Qed.

Lemma tlv_members_at n : forall m s q, at_place s q -> zlen r - q < Z.of_nat n -> zlen r - q < Z.of_nat m ->
  tlv_members M n s = Some (members_at r m q).
Proof using Hr.
  clear H0 s0. induction n as [|n IH]; intros m s q Hp Hn Hm; [destruct Hp as (_ & Hq & _); lia|]. destruct m as [|m]; [destruct Hp as (_ & Hq & _); lia|].
  cbn [tlv_members members_at]. rewrite (place_empty s q Hp). pose proof (member_seg_at s q Hp) as Hms.
  destruct (Z.leb_spec (zlen r) q); [by destruct (Z.ltb_spec (zlen r) (q + 2)); [|lia]|].
  destruct (Z.ltb_spec (zlen r) (q + 2)); [by destruct Hms as [e ->]|]. destruct (value_place r _ q) as [[len at_]|]; [|by destruct Hms as [e ->]].
  destruct (Z.ltb_spec (zlen r) (at_ + len)); [by destruct Hms as [e ->]|]. destruct Hms as (s' & -> & Hp' & Ho & Hat & Hlen).
  destruct (Z.eqb_spec (seg_offset s') (seg_offset s)); [lia|]. by rewrite (IH m s' (at_ + len)) by (done || lia).
Qed.
End Payload.

(** C39: over any segmented payload in which no endpoint option is cut short by
    its own length, a SOME/IP message pushes exactly the rows its bytes denote: the
    header's row, then, for the service discovery message, a row for every entry and
    every option inside the declared lengths and the payload (an option's address,
    protocol and port the ones its own bytes hold), and, on a port configured for it,
    a row for every complete member; no byte outside the parts is read, both walks
    end, and the parts the bytes are cut into make no difference, so a reassembled
    datagram yields the rows of the datagram sent whole. (For an option that is cut
    short see [short_option_reads_next].) *)
Theorem someip_rows_exact M bss payload pid tlv : seg_wf M bss payload -> whole_message (remaining bss payload) = true ->
  maybe_dispatch M payload pid tlv = Some (message_rows (remaining bss payload) pid tlv).
Proof.
  intros Hw Hwh. pose proof (remaining_ok M bss payload Hw) as Hl. set (l := remaining bss payload) in *. pose proof (zlen_nonneg l).
  assert (Hp : at_place M bss l payload 0) by (split; [done|split; [lia|by rewrite zdrop_0]]).
  unfold maybe_dispatch, message_rows, kSomeipHeaderLen. rewrite (place_size M bss l payload 0 Hp), Z.sub_0_r.
  destruct (Z.ltb_spec (zlen l) 16) as [|Hz]; [done|]. rewrite (place_strct M bss l Hl payload 0 SomeipHeader big eq_refl Hp).
  change (wire_size SomeipHeader) with 16. destruct (Z.ltb_spec (zlen l - 0) 16); [lia|].
  destruct (place_advance M bss l payload 0 16 Hp ltac:(lia) ltac:(lia)) as [Hp16 _]. rewrite Z.add_0_l in Hp16.
  pose proof (zlen_zdrop 16 l ltac:(lia)) as Hzr. set (s := seg_advance payload 16) in *. set (r := zdrop 16 l) in *.
  assert (Hs0 : at_place M bss r s 0) by (destruct Hp16 as (W & _ & E); split; [done|split; [lia|by rewrite zdrop_0]]).
  pose proof (bytes_ok_zdrop 16 l Hl) as Hr.
  assert (E1 : member SomeipHeader (VList (values_at big (slice l 0 16) SomeipHeader 0)) "service_id" = be16_at l 0).
  { erewrite member_at by (cbv; reflexivity). rewrite scalar_of_endian. change (0 / 8) with 0. rewrite slice_slice by lia. rewrite uint16_at by (cbn; lia). done. }
  assert (E2 : member SomeipHeader (VList (values_at big (slice l 0 16) SomeipHeader 0)) "method_id" = be16_at l 2).
  { erewrite member_at by (cbv; reflexivity). rewrite scalar_of_endian. change (16 / 8) with 2. rewrite slice_slice by lia. rewrite uint16_at by (cbn; lia). done. }
  rewrite (children_spec M bss r Hr s Hs0) by (rewrite E1, E2; unfold whole_message, is_sd in Hwh; intros E; by rewrite E in Hwh).
  cbn [mbind option_bind]. rewrite E1, E2. fold (is_sd l). destruct tlv; [|done]. unfold walk_tlv_members. rewrite (place_size M bss r s 0 Hs0).
  rewrite (tlv_members_at M bss r Hr _ (S (length r)) s 0 Hs0) by (unfold zlen in *; lia). done.
Qed.

(** ** An offer *)

(** A service discovery message with one entry and two options, a configuration
    string of one byte and an IPv4 endpoint; and the allocations its bytes arrived
    in, cut inside the entry and inside the second option. In [short_tail] the first
    option is an IPv4 endpoint, of a single byte still. *)
Definition offer_head : list Z := [0xFF; 0xFF; 0x81; 0; 0; 0; 0; 48; 0; 0; 0; 1; 1; 1; 2; 0; 0xC0; 0; 0; 0; 0; 0; 0; 16; 1; 0; 0].
Definition offer_tail : list Z := [0x10; 0x12; 0x34; 0; 1; 1; 0; 0; 3; 0; 0; 0; 0; 0; 0; 0; 16; 0; 1; 1; 0; 0; 9].
Definition short_tail : list Z := [0x10; 0x12; 0x34; 0; 1; 1; 0; 0; 3; 0; 0; 0; 0; 0; 0; 0; 16; 0; 1; 4; 0; 0; 9].
Definition offer_end : list Z := [4; 0; 10; 0; 0; 1; 0; 17; 0x77; 0x1A].
Definition offer_mem (tail : list Z) : memory :=
  fun a => if a <? 200 then mem_of 100 offer_head a else if a <? 300 then mem_of 200 tail a else mem_of 300 offer_end a.
Definition offer_cursor : seg_input := seg_from (make_segments [Part 100 27; Part 200 23; Part 300 10] None 0).

Lemma offer_wf : seg_wf (offer_mem offer_tail) [offer_head; offer_tail; offer_end] offer_cursor.
Proof.
  apply seg_from_wf; [|vm_compute; reflexivity].
  repeat constructor; try (intros; vm_compute; congruence); try (unfold is_byte; lia).
Qed.

Lemma someip_rows_exact_witness :
  seg_wf (offer_mem offer_tail) [offer_head; offer_tail; offer_end] offer_cursor /\
  exists rows, maybe_dispatch (offer_mem offer_tail) offer_cursor 7 true = Some rows /\
    List.map fst rows = ["someip"; "someip_sd_entry"; "someip_sd_option"; "someip_sd_option"]%string.
Proof.
  split; [exact offer_wf|]. eexists. split; [apply (someip_rows_exact (offer_mem offer_tail) _ offer_cursor 7 true offer_wf); vm_compute; reflexivity|].
  vm_compute. reflexivity.
Defined.

(** The address of an option is read as far as the options reach, not as far as
    the option itself does: the first option, of one byte, is given the address
    [0.9.4.0] out of the option that follows it. *)
Lemma short_option_reads_next :
  sd_options (offer_mem short_tail) 44 (seg_advance offer_cursor 16) 28 44 0 =
  Some [on_option 0 1 4 ([0; 9; 4; 0] ++ replicate 12 0) 0 1;
        on_option 1 9 4 ([10; 0; 0; 1] ++ replicate 12 0) 17 30490].
Proof. vm_compute. reflexivity. Qed.
