(* ===== verification/Gptp.v ===== *)
(** * gPTP (nanom_shark/gptp.hpp, gptp_rows.hpp)

    The field reader with its latched failure, the eight message bodies, the
    two TLV walks and the dispatch on the message type. A read outside the
    message is [None]. The tables are lists of typed rows; no JSON sink is
    attached. The specification reads each TLV from its own bytes; it is what the
    code does for every message none of whose Follow_Up information TLVs
    declares 16 to 27 bytes ([whole_message]). *)
From stdpp Require Import gmap.
From S2P Require Import Prelude Parser BytesParsers Combinators CombinatorFacts Numbers Bits Reflect ReflectFacts Emit EmitSpecs StructSpecs Segmented Members Walk Protocol Octets.

(** ** Rows *)
Record PortIdentity := MkPortIdentity { clock_identity : list Z; port_number : Z }.

Definition PortIdentity_fields : list (string * field_type) := [("clock_identity", Array byte_field 8); ("port_number", Scalar 2 Unsigned)]%string.
Definition GptpHeader : list (string * field_type) :=
  [("transport_specific", ubits 4); ("message_type", ubits 4); ("reserved1", ubits 4); ("version_ptp", ubits 4);
   ("message_length", Scalar 2 Unsigned); ("domain_number", byte_field); ("reserved2", byte_field); ("flags", Scalar 2 Unsigned);
   ("correction_field", Scalar 8 Signed); ("reserved3", Scalar 4 Unsigned); ("source_port_identity", Struct "PortIdentity" PortIdentity_fields);
   ("sequence_id", Scalar 2 Unsigned); ("control_field", byte_field); ("log_message_interval", Scalar 1 Signed)]%string.

Definition kMsgSync : Z := 0x0.
Definition kMsgDelayReq : Z := 0x1.
Definition kMsgPdelayReq : Z := 0x2.
Definition kMsgPdelayResp : Z := 0x3.
Definition kMsgFollowUp : Z := 0x8.
Definition kMsgDelayResp : Z := 0x9.
Definition kMsgPdelayRespFollowUp : Z := 0xA.
Definition kMsgAnnounce : Z := 0xB.
Definition kTlvOrganizationExtension : Z := 0x0003.
Definition kTlvPathTrace : Z := 0x0008.
Definition kEtherTypeGptp : Z := 0x88F7.

Record RowCommon := MkCommon {
  rc_msg_index : Z;
  rc_packet_id : Z;
  rc_domain_number : Z;
  rc_sequence_id : Z;
  rc_correction_field : Z;
  rc_log_message_interval : Z;
  rc_source_port_identity : PortIdentity
}.

Record PtpTimestamp := MkTimestamp { seconds : Z; nanoseconds : Z }.

Record SyncRow := MkSync { sy_common : RowCommon; sy_origin_timestamp : PtpTimestamp }.
Record DelayReqRow := MkDelayReq { dr_common : RowCommon; dr_origin_timestamp : PtpTimestamp }.
Record PdelayReqRow := MkPdelayReq { pr_common : RowCommon; pr_origin_timestamp : PtpTimestamp }.
Record DelayRespRow := MkDelayResp { ds_common : RowCommon; ds_receive_timestamp : PtpTimestamp; ds_requesting_port_identity : PortIdentity }.
Record PdelayRespRow := MkPdelayResp { ps_common : RowCommon; ps_request_receipt_timestamp : PtpTimestamp; ps_requesting_port_identity : PortIdentity }.
Record PdelayRespFollowUpRow := MkPdelayRespFollowUp {
  pf_common : RowCommon; pf_response_origin_timestamp : PtpTimestamp; pf_requesting_port_identity : PortIdentity }.

Record FollowUpRow := MkFollowUp {
  fu_common : RowCommon;
  fu_precise_origin_timestamp : PtpTimestamp;
  fu_has_follow_up_info_tlv : bool;
  fu_cumulative_scaled_rate_offset : Z;
  fu_gm_time_base_indicator : Z;
  fu_scaled_last_gm_freq_change : Z
}.

Record AnnounceRow := MkAnnounce {
  an_common : RowCommon;
  an_origin_timestamp : PtpTimestamp;
  an_current_utc_offset : Z;
  an_grandmaster_priority1 : Z;
  an_grandmaster_clock_class : Z;
  an_grandmaster_clock_accuracy : Z;
  an_grandmaster_offset_scaled_log_variance : Z;
  an_grandmaster_priority2 : Z;
  an_grandmaster_identity : list Z;
  an_steps_removed : Z;
  an_time_source : Z;
  an_has_path_trace_tlv : bool;
  an_path_trace_count : Z
}.

Record PathTraceEntryRow := MkPathTraceEntry { pt_msg_index : Z; pt_entry_index : Z; pt_clock_identity : list Z }.

(** The tables, and the index of the next message. *)
Record GptpTables := MkTables {
  next_msg_index : Z;
  g_sync : list SyncRow;
  g_follow_up : list FollowUpRow;
  g_delay_req : list DelayReqRow;
  g_delay_resp : list DelayRespRow;
  g_pdelay_req : list PdelayReqRow;
  g_pdelay_resp : list PdelayRespRow;
  g_pdelay_resp_follow_up : list PdelayRespFollowUpRow;
  g_announce : list AnnounceRow;
  g_path_trace : list PathTraceEntryRow
}.

(** A row, for the table of its kind. *)
Inductive message_row :=
| Sync (r : SyncRow)
| DelayReq (r : DelayReqRow)
| PdelayReq (r : PdelayReqRow)
| PdelayResp (r : PdelayRespRow)
| FollowUp (r : FollowUpRow)
| DelayResp (r : DelayRespRow)
| PdelayRespFollowUp (r : PdelayRespFollowUpRow)
| Announce (r : AnnounceRow) (path : list PathTraceEntryRow).

(** [t.<table>.push(row)] *)
Definition push_message (m : message_row) (t : GptpTables) : GptpTables :=
  let (n, sy, fu, dr, ds, pr, ps, pf, an, pt) := t in
  match m with
  | Sync r => MkTables n (sy ++ [r]) fu dr ds pr ps pf an pt
  | FollowUp r => MkTables n sy (fu ++ [r]) dr ds pr ps pf an pt
  | DelayReq r => MkTables n sy fu (dr ++ [r]) ds pr ps pf an pt
  | DelayResp r => MkTables n sy fu dr (ds ++ [r]) pr ps pf an pt
  | PdelayReq r => MkTables n sy fu dr ds (pr ++ [r]) ps pf an pt
  | PdelayResp r => MkTables n sy fu dr ds pr (ps ++ [r]) pf an pt
  | PdelayRespFollowUp r => MkTables n sy fu dr ds pr ps (pf ++ [r]) an pt
  | Announce r path => MkTables n sy fu dr ds pr ps pf (an ++ [r]) (pt ++ path)
  end.

Definition bump_index (t : GptpTables) : GptpTables :=
  let (n, sy, fu, dr, ds, pr, ps, pf, an, pt) := t in MkTables (u64 (n + 1)) sy fu dr ds pr ps pf an pt.

(** ** The field reader *)
Record FieldReader := Reader { cur : input; ok : bool }.

(** A step of the reader. *)
Definition reader (A : Type) : Type := FieldReader -> option (A * FieldReader).
Definition ret {A} (v : A) : reader A := fun fr => Some (v, fr).
Definition rbind {A B} (m : reader A) (k : A -> reader B) : reader B := fun fr => r ← m fr; k r.1 r.2.

Declare Scope reader_scope.
Delimit Scope reader_scope with reader.
Notation "x <~ m ; k" := (rbind m (fun x => k)) (at level 100, m at next level, right associativity) : reader_scope.

Section Reader.
Context (M : memory).

(** [take(r)]: a failed read latches [ok], leaves the cursor, and is zero. *)
Definition fr_take {A} (zero : A) (p : parser A) : reader A := fun fr =>
  match p M (cur fr) with
  | Done v r => Some (v, Reader r (ok fr))
  | Err _ => Some (zero, Reader (cur fr) false)
  | Stop _ => None
  end.

Definition fr_u8 : reader Z := fr_take 0 be_u8.
Definition fr_i8 : reader Z := fr_take 0 be_i8.
Definition fr_u16 : reader Z := fr_take 0 be_u16.
Definition fr_i16 : reader Z := fr_take 0 be_i16.
Definition fr_u32 : reader Z := fr_take 0 be_u32.
Definition fr_i32 : reader Z := fr_take 0 be_i32.
Definition fr_u48 : reader Z := fr_take 0 be_u48.
Definition fr_i64 : reader Z := fr_take 0 be_i64.

Definition fr_arr (n : Z) : reader (list Z) := fun fr =>
  match take n M (cur fr) with
  | Done v r => bs ← copy_raw (Z.to_nat n) M (b_data v); Some (bs, Reader r (ok fr))
  | Err _ => Some (replicate (Z.to_nat n) 0, Reader (cur fr) false)
  | Stop _ => None
  end.

Definition fr_skip (n : Z) : reader bytes := fr_take no_bytes (take n).

Definition fr_remaining (fr : FieldReader) : Z := size (cur fr).

Local Open Scope reader_scope.

Definition read_timestamp : reader PtpTimestamp := s <~ fr_u48; n <~ fr_u32; ret (MkTimestamp s n).
Definition read_port_identity : reader PortIdentity := c <~ fr_arr 8; p <~ fr_u16; ret (MkPortIdentity c p).

(** ** Bodies of fixed size *)

(** Read a row, and push it unless a read failed. *)
Definition parse_fixed (m : reader message_row) (t : GptpTables) (body : input) : option (bool * GptpTables) :=
  r ← m (Reader body true);
  Some (if ok r.2 then (true, push_message r.1 t) else (false, t)).

Definition parse_sync (t : GptpTables) (common : RowCommon) : input -> option (bool * GptpTables) :=
  parse_fixed (ts <~ read_timestamp; ret (Sync (MkSync common ts))) t.
Definition parse_delay_req (t : GptpTables) (common : RowCommon) : input -> option (bool * GptpTables) :=
  parse_fixed (ts <~ read_timestamp; ret (DelayReq (MkDelayReq common ts))) t.
Definition parse_pdelay_req (t : GptpTables) (common : RowCommon) : input -> option (bool * GptpTables) :=
  parse_fixed (ts <~ read_timestamp; ret (PdelayReq (MkPdelayReq common ts))) t.
Definition parse_delay_resp (t : GptpTables) (common : RowCommon) : input -> option (bool * GptpTables) :=
  parse_fixed (ts <~ read_timestamp; p <~ read_port_identity; ret (DelayResp (MkDelayResp common ts p))) t.
Definition parse_pdelay_resp (t : GptpTables) (common : RowCommon) : input -> option (bool * GptpTables) :=
  parse_fixed (ts <~ read_timestamp; p <~ read_port_identity; ret (PdelayResp (MkPdelayResp common ts p))) t.
Definition parse_pdelay_resp_follow_up (t : GptpTables) (common : RowCommon) : input -> option (bool * GptpTables) :=
  parse_fixed (ts <~ read_timestamp; p <~ read_port_identity; ret (PdelayRespFollowUp (MkPdelayRespFollowUp common ts p))) t.

(** ** Follow_Up *)

(** The information TLV, read from [value] on. *)
Definition follow_up_info (value : input) (row : FollowUpRow) : option FollowUpRow :=
  r ← (_ <~ fr_skip 3; _ <~ fr_skip 3; rate <~ fr_i32; base <~ fr_u16; _ <~ fr_skip 12; freq <~ fr_i32; ret (rate, base, freq)) (Reader value true);
  let '(rate, base, freq) := r.1 in
  Some (MkFollowUp (fu_common row) (fu_precise_origin_timestamp row) (ok r.2) rate base freq).

(** A round passes at least the TLV's four bytes. *)
Fixpoint follow_up_tlvs (fuel : nat) (fr : FieldReader) (row : FollowUpRow) : option FollowUpRow :=
  if ok fr && (4 <=? fr_remaining fr) then
    match fuel with
    | O => None
    | S fuel =>
        h ← (type <~ fr_u16; len <~ fr_u16; ret (type, len)) fr;
        let '(tlv_type, tlv_length) := h.1 in
        let fr := h.2 in
        if negb (ok fr) || (fr_remaining fr <? tlv_length) then Some row
        else
          row ← (if (tlv_type =? kTlvOrganizationExtension) && (16 <=? tlv_length) then follow_up_info (cur fr) row else Some row);
          s ← fr_skip tlv_length fr;
          follow_up_tlvs fuel s.2 row
    end
  else Some row.

Definition parse_follow_up (t : GptpTables) (common : RowCommon) (body : input) : option (bool * GptpTables) :=
  r ← read_timestamp (Reader body true);
  if ok r.2 then
    row ← follow_up_tlvs (Z.to_nat (size body)) r.2 (MkFollowUp common r.1 false 0 0 0);
    Some (true, push_message (FollowUp row) t)
  else Some (false, t).

(** ** Announce *)
Definition announce_body (common : RowCommon) : reader AnnounceRow :=
  ts <~ read_timestamp; utc <~ fr_i16; _ <~ fr_skip 1; p1 <~ fr_u8; cls <~ fr_u8; acc <~ fr_u8; var <~ fr_u16; p2 <~ fr_u8;
  gm <~ fr_arr 8; steps <~ fr_u16; src <~ fr_u8;
  ret (MkAnnounce common ts utc p1 cls acc var p2 gm steps src false 0).

(** The entries of a PATH_TRACE, [off] bytes of it passed, and how many. *)
Fixpoint path_entries (fuel : nat) (msg_index len : Z) (vr : FieldReader) (off entry : Z) : option (list PathTraceEntryRow * Z) :=
  if off + 8 <=? len then
    match fuel with
    | O => None
    | S fuel =>
        r ← fr_arr 8 vr;
        if negb (ok r.2) then Some ([], entry)
        else rest ← path_entries fuel msg_index len r.2 (off + 8) (u16 (entry + 1));
             Some (MkPathTraceEntry msg_index entry r.1 :: rest.1, rest.2)
    end
  else Some ([], entry).

Definition with_path (row : AnnounceRow) (count : Z) : AnnounceRow :=
  let (c, ts, utc, p1, cls, acc, var, p2, gm, steps, src, _, _) := row in MkAnnounce c ts utc p1 cls acc var p2 gm steps src true count.

Fixpoint announce_tlvs (fuel : nat) (fr : FieldReader) (row : AnnounceRow) (path : list PathTraceEntryRow) :
    option (AnnounceRow * list PathTraceEntryRow) :=
  if ok fr && (4 <=? fr_remaining fr) then
    match fuel with
    | O => None
    | S fuel =>
        h ← (type <~ fr_u16; len <~ fr_u16; ret (type, len)) fr;
        let '(tlv_type, tlv_length) := h.1 in
        let fr := h.2 in
        if negb (ok fr) || (fr_remaining fr <? tlv_length) then Some (row, path)
        else
          rp ← (if tlv_type =? kTlvPathTrace then
                  es ← path_entries (Z.to_nat tlv_length) (rc_msg_index (an_common row)) tlv_length (Reader (cur fr) true) 0 0;
                  Some (with_path row es.2, path ++ es.1)
                else Some (row, path));
          s ← fr_skip tlv_length fr;
          announce_tlvs fuel s.2 rp.1 rp.2
    end
  else Some (row, path).

Definition parse_announce (t : GptpTables) (common : RowCommon) (body : input) : option (bool * GptpTables) :=
  r ← announce_body common (Reader body true);
  if ok r.2 then
    rp ← announce_tlvs (Z.to_nat (size body)) r.2 r.1 [];
    Some (true, push_message (Announce rp.1 rp.2) t)
  else Some (false, t).

(** ** The message *)
Definition source_port_identity (h : value) : PortIdentity :=
  match lookup_member GptpHeader h "source_port_identity" with
  | Some (Struct _ fs, v) => MkPortIdentity (member_bytes fs v "clock_identity") (member fs v "port_number")
  | _ => MkPortIdentity [] 0
  end.

Definition make_common (msg_index packet_id : Z) (h : value) : RowCommon :=
  let get := member GptpHeader h in
  MkCommon msg_index packet_id (get "domain_number"%string) (get "sequence_id"%string) (get "correction_field"%string)
    (get "log_message_interval"%string) (source_port_identity h).

Definition parse_gptp_message (t : GptpTables) (packet_id : Z) (msg : input) : option (bool * GptpTables) :=
  match strct GptpHeader big M msg with
  | Stop _ => None
  | Err _ => Some (false, t)
  | Done h rest =>
      if member GptpHeader h "message_length" <? 34 then Some (false, t)
      else
        let body_len := Z.min (member GptpHeader h "message_length" - 34) (size rest) in
        match take body_len M rest with
        | Stop _ => None
        | Err _ => Some (false, t)
        | Done clipped _ =>
            let body := from_bytes clipped in
            let common := make_common (next_msg_index t) packet_id h in
            let t := bump_index t in
            let kind := u8 (member GptpHeader h "message_type") in
            if kind =? kMsgSync then parse_sync t common body
            else if kind =? kMsgDelayReq then parse_delay_req t common body
            else if kind =? kMsgPdelayReq then parse_pdelay_req t common body
            else if kind =? kMsgPdelayResp then parse_pdelay_resp t common body
            else if kind =? kMsgFollowUp then parse_follow_up t common body
            else if kind =? kMsgDelayResp then parse_delay_resp t common body
            else if kind =? kMsgPdelayRespFollowUp then parse_pdelay_resp_follow_up t common body
            else if kind =? kMsgAnnounce then parse_announce t common body
            else Some (false, t)
        end
  end.
End Reader.

(** ** The protocol *)

(** The rows as the tables hold them. *)
Definition port_value (p : PortIdentity) : value := VList [VList (List.map VScalar (clock_identity p)); VScalar (port_number p)].
Definition common_value (c : RowCommon) : value :=
  VList [VScalar (rc_msg_index c); VScalar (rc_packet_id c); VScalar (rc_domain_number c); VScalar (rc_sequence_id c);
         VScalar (rc_correction_field c); VScalar (rc_log_message_interval c); port_value (rc_source_port_identity c)].
Definition stamped (c : RowCommon) (ts : PtpTimestamp) (rest : list value) : value :=
  VList (common_value c :: VScalar (seconds ts) :: VScalar (nanoseconds ts) :: rest).
Definition follow_up_value (r : FollowUpRow) : value :=
  stamped (fu_common r) (fu_precise_origin_timestamp r)
    [VScalar (Z.b2z (fu_has_follow_up_info_tlv r)); VScalar (fu_cumulative_scaled_rate_offset r);
     VScalar (fu_gm_time_base_indicator r); VScalar (fu_scaled_last_gm_freq_change r)].
Definition announce_value (r : AnnounceRow) : value :=
  stamped (an_common r) (an_origin_timestamp r)
    [VScalar (an_current_utc_offset r); VScalar (an_grandmaster_priority1 r); VScalar (an_grandmaster_clock_class r);
     VScalar (an_grandmaster_clock_accuracy r); VScalar (an_grandmaster_offset_scaled_log_variance r); VScalar (an_grandmaster_priority2 r);
     VList (List.map VScalar (an_grandmaster_identity r)); VScalar (an_steps_removed r); VScalar (an_time_source r);
     VScalar (Z.b2z (an_has_path_trace_tlv r)); VScalar (an_path_trace_count r)].
Definition path_value (r : PathTraceEntryRow) : value :=
  VList [VScalar (pt_msg_index r); VScalar (pt_entry_index r); VList (List.map VScalar (pt_clock_identity r))].

(** What a message adds, by table. *)
Definition table_rows (t : GptpTables) : list (string * value) :=
  List.map (fun r => ("gptp_sync"%string, stamped (sy_common r) (sy_origin_timestamp r) [])) (g_sync t) ++
  List.map (fun r => ("gptp_follow_up"%string, follow_up_value r)) (g_follow_up t) ++
  List.map (fun r => ("gptp_delay_req"%string, stamped (dr_common r) (dr_origin_timestamp r) [])) (g_delay_req t) ++
  List.map (fun r => ("gptp_delay_resp"%string, stamped (ds_common r) (ds_receive_timestamp r) [port_value (ds_requesting_port_identity r)])) (g_delay_resp t) ++
  List.map (fun r => ("gptp_pdelay_req"%string, stamped (pr_common r) (pr_origin_timestamp r) [])) (g_pdelay_req t) ++
  List.map (fun r => ("gptp_pdelay_resp"%string, stamped (ps_common r) (ps_request_receipt_timestamp r) [port_value (ps_requesting_port_identity r)])) (g_pdelay_resp t) ++
  List.map (fun r => ("gptp_pdelay_resp_follow_up"%string, stamped (pf_common r) (pf_response_origin_timestamp r) [port_value (pf_requesting_port_identity r)])) (g_pdelay_resp_follow_up t) ++
  List.map (fun r => ("gptp_announce"%string, announce_value r)) (g_announce t) ++
  List.map (fun r => ("gptp_path_trace"%string, path_value r)) (g_path_trace t).

Definition no_tables (n : Z) : GptpTables := MkTables n [] [] [] [] [] [] [] [] [].

(** [state] is the index of the next message. *)
Definition Gptp {U} (state : U -> Z) (set_state : Z -> U -> U) : protocol U :=
  Protocol (ethertype_is kEtherTypeGptp) (fun M c _ w =>
    match parse_gptp_message M (no_tables (state (w_user w))) (c_packet_id c) (from_bytes (eth_payload_bytes c)) with
    | None => w
    | Some (_, t) =>
        let w := fold_left (fun w r => push r.1 (OtherRow r.2) w) (table_rows t) w in
        World (w_tables w) (set_state (next_msg_index t) (w_user w))
    end).

(** * gPTP: what a message pushes

    A message is parsed as its bytes say: the fields at their offsets, the TLVs
    in their order, nothing beyond the declared length. *)

(** ** The rows a message denotes *)
Section Reference.
Context (b : list Z).

Definition timestamp_at (q : Z) : PtpTimestamp := MkTimestamp (be48_at b q) (be32_at b (q + 6)).
Definition port_identity_at (q : Z) : PortIdentity := MkPortIdentity (slice b q 8) (be16_at b (q + 8)).

(** The TLVs from [q] on: type, length, and where the value is; up to the first
    that is not complete. *)
Fixpoint tlv_places (fuel : nat) (q : Z) : list (Z * Z * Z) :=
  match fuel with
  | O => []
  | S fuel =>
      if zlen b <? q + 4 then []
      else
        let len := be16_at b (q + 2) in
        if zlen b <? q + 4 + len then [] else (be16_at b q, len, q + 4) :: tlv_places fuel (q + 4 + len)
  end.

(** What a Follow_Up takes from a TLV: the fields of the information TLV, whose
    value is 28 bytes. *)
Definition follow_up_with (row : FollowUpRow) (t : Z * Z * Z) : FollowUpRow :=
  let '(type, len, q) := t in
  if (type =? 3) && (28 <=? len) then
    MkFollowUp (fu_common row) (fu_precise_origin_timestamp row) true (sint 32 (be32_at b (q + 6))) (be16_at b (q + 10)) (sint 32 (be32_at b (q + 24)))
  else row.

(** A TLV that holds an information value whole, if it is one. *)
Definition whole_info (t : Z * Z * Z) : bool := let '(type, len, _) := t in negb (type =? 3) || (len <? 16) || (28 <=? len).

(** An Announce, and the entries of its path trace. *)
Definition path_at (msg_index len q : Z) : list PathTraceEntryRow :=
  List.map (fun k => MkPathTraceEntry msg_index k (slice b (q + 8 * k) 8)) (seqZ 0 (len / 8)).

Definition announce_with (rp : AnnounceRow * list PathTraceEntryRow) (t : Z * Z * Z) : AnnounceRow * list PathTraceEntryRow :=
  let '(type, len, q) := t in
  if type =? 8 then (with_path rp.1 (len / 8), rp.2 ++ path_at (rc_msg_index (an_common rp.1)) len q) else rp.

Definition announce_at (common : RowCommon) : AnnounceRow :=
  MkAnnounce common (timestamp_at 0) (sint 16 (be16_at b 10)) (octet b 13) (octet b 14) (octet b 15) (be16_at b 16) (octet b 18) (slice b 19 8)
    (be16_at b 27) (octet b 29) false 0.

(** The row of a body of kind [kind], if it has the fixed part of its kind. *)
Definition message_at (kind : Z) (common : RowCommon) : option message_row :=
  let fits n (m : message_row) := if zlen b <? n then None else Some m in
  if kind =? 0 then fits 10 (Sync (MkSync common (timestamp_at 0)))
  else if kind =? 1 then fits 10 (DelayReq (MkDelayReq common (timestamp_at 0)))
  else if kind =? 2 then fits 10 (PdelayReq (MkPdelayReq common (timestamp_at 0)))
  else if kind =? 3 then fits 20 (PdelayResp (MkPdelayResp common (timestamp_at 0) (port_identity_at 10)))
  else if kind =? 8 then fits 10 (FollowUp (fold_left follow_up_with (tlv_places (length b) 10) (MkFollowUp common (timestamp_at 0) false 0 0 0)))
  else if kind =? 9 then fits 20 (DelayResp (MkDelayResp common (timestamp_at 0) (port_identity_at 10)))
  else if kind =? 10 then fits 20 (PdelayRespFollowUp (MkPdelayRespFollowUp common (timestamp_at 0) (port_identity_at 10)))
  else if kind =? 11 then
    let rp := fold_left announce_with (tlv_places (length b) 30) (announce_at common, []) in fits 30 (Announce rp.1 rp.2)
  else None.
End Reference.

Definition common_at (l : list Z) (idx pid : Z) : RowCommon :=
  MkCommon idx pid (octet l 4) (be16_at l 30) (sint 64 (be64_at l 8)) (sint 8 (octet l 33)) (port_identity_at l 20).

(** What the declared length of [l] leaves of its body. *)
Definition body_of (l : list Z) : list Z := ztake (be16_at l 2 - 34) (zdrop 34 l).

(** No information TLV of [l], if it is a Follow_Up, declares 16 bytes or more and
    fewer than its value has. *)
Definition whole_message (l : list Z) : bool := negb (octet l 0 mod 16 =? 8) || forallb whole_info (tlv_places (body_of l) (length (body_of l)) 10).

(** The tables after the message [l]. *)
Definition message_tables (l : list Z) (t : GptpTables) (pid : Z) : bool * GptpTables :=
  if (zlen l <? 34) || (be16_at l 2 <? 34) then (false, t)
  else
    let common := common_at l (next_msg_index t) pid in
    match message_at (body_of l) (octet l 0 mod 16) common with
    | Some m => (true, push_message m (bump_index t))
    | None => (false, bump_index t)
    end.

(** ** The reader *)
Section Body.
Context (M : memory) (region : bytes) (b : list Z).
Context (Hh : holds M (b_data region) b) (Hn : b_size region = zlen b) (Hb : bytes_ok b) (Hlt : zlen b < 2 ^ 60).

(** [m] reads [n] bytes, those at [q], and gives [f q]; on a body that ends
    before them it fails, and reads nothing outside the body. *)
Definition gets {A} (m : reader A) (n : Z) (f : Z -> A) : Prop := 0 <= n /\ forall q o, 0 <= q <= zlen b ->
  exists v fr, m (Reader (cursor region q) o) = Some (v, fr) /\
    if q + n <=? zlen b then v = f q /\ fr = Reader (cursor region (q + n)) o
    else ok fr = false /\ exists q', 0 <= q' <= zlen b /\ cur fr = cursor region q'.

Lemma gets_ret {A} (v : A) : gets (ret v) 0 (fun _ => v).
Proof using.
  split; [lia|]. intros q o Hq. exists v, (Reader (cursor region q) o). split; [done|]. rewrite Z.add_0_r. destruct (Z.leb_spec q (zlen b)); [done|lia].
Qed.

Lemma gets_bind {A B} (m : reader A) (k : A -> reader B) n n' f g :
  gets m n f -> (forall v, gets (k v) n' (g v)) -> gets (rbind m k) (n + n') (fun q => g (f q) (q + n)).
Proof using.
  intros [Hn0 Hm] Hk. destruct (Hk (f 0)) as [Hn0' _]. split; [lia|]. intros q o Hq. destruct (Hm q o Hq) as (v & fr & E & Hfr). unfold rbind. rewrite E.
  cbn [mbind option_bind fst snd]. destruct (Z.leb_spec (q + n) (zlen b)) as [Hle|Hgt].
  - destruct Hfr as [-> ->]. destruct (Hk (f q)) as [_ Hk']. destruct (Hk' (q + n) o ltac:(lia)) as (v & fr & E' & Hfr).
    exists v, fr. split; [done|]. by replace (q + (n + n')) with (q + n + n') by lia.
  - destruct Hfr as (Hok & q' & Hq' & Hc). destruct fr as [c o']. cbn in Hok, Hc. subst c o'. destruct (Hk v) as [_ Hk'].
    destruct (Hk' q' false Hq') as (w & fr & E' & Hfr). exists w, fr. split; [done|]. destruct (Z.leb_spec (q + (n + n')) (zlen b)); [lia|].
    destruct (Z.leb_spec (q' + n') (zlen b)); [|done]. destruct Hfr as [_ ->]. split; [done|]. exists (q' + n'). split; [lia|done].
Qed.

Lemma gets_as {A} (m : reader A) n n' f g : gets m n f -> n = n' -> (forall q, 0 <= q -> q + n' <= zlen b -> f q = g q) -> gets m n' g.
Proof using.
  intros [Hn0 Hm] <- Hfg. split; [done|]. intros q o Hq. destruct (Hm q o Hq) as (v & fr & E & Hfr). exists v, fr. split; [done|].
  destruct (Z.leb_spec (q + n) (zlen b)); [|done]. destruct Hfr as [-> ->]. split; [apply Hfg; lia|done].
Qed.

(** A number. *)
Lemma gets_parser {A} (zero : A) (p : parser A) n f : 0 <= n ->
  (forall q, 0 <= q -> q + n <= zlen b -> p M (cursor region q) = Done (f q) (cursor region (q + n))) ->
  (forall q, 0 <= q <= zlen b -> zlen b < q + n -> exists e, p M (cursor region q) = Err e) ->
  gets (fr_take M zero p) n f.
Proof using.
  intros Hn0 Hd He. split; [done|]. intros q o Hq. unfold fr_take. cbn [cur ok]. destruct (Z.leb_spec (q + n) (zlen b)) as [Hle|Hgt].
  - rewrite Hd by lia. by eexists _, _.
  - destruct (He q Hq Hgt) as [e ->]. eexists _, _. split; [done|]. split; [done|]. by exists q.
Qed.

Lemma gets_uint n f : 1 <= n <= 8 -> (forall q, 0 <= q -> q + n <= zlen b -> uint_val big (slice b q n) = f q) -> gets (fr_take M 0 (read_uint n big)) n f.
Proof using All.
  intros Hn1 Hf. apply gets_parser; [lia| |].
  - intros q Hq Hz. rewrite (read_uint_cursor M region b Hh Hn Hb Hlt) by lia. by rewrite Hf.
  - intros q Hq Hz. by apply (read_uint_short M region b Hn Hlt).
Qed.

Lemma gets_int n f : 1 <= n <= 8 -> (forall q, 0 <= q -> q + n <= zlen b -> uint_val big (slice b q n) = f q) ->
  gets (fr_take M 0 (read_int n big)) n (fun q => sint (uint_for_bytes n) (f q)).
Proof using All.
  intros Hn1 Hf. apply gets_parser; [lia| |]; unfold read_int, Parser.bind.
  - intros q Hq Hz. rewrite (read_uint_cursor M region b Hh Hn Hb Hlt) by lia. by rewrite Hf.
  - intros q Hq Hz. destruct (read_uint_short M region b Hn Hlt n big q Hq Hz) as [e ->]. by exists e.
Qed.

Lemma take_cursor q n : 0 <= q <= zlen b ->
  take n M (cursor region q) =
  if zlen b - q <? n then make_incomplete (cursor region q) (n - (zlen b - q)) else Done (take_span (cursor region q) n) (cursor region (q + n)).
Proof using Hn Hlt. intros Hq. unfold take. rewrite (cursor_size region b Hn Hlt) by done. by rewrite cursor_advance. Qed.

Lemma gets_skip n : 0 <= n -> gets (fr_skip M n) n (fun q => take_span (cursor region q) n).
Proof using Hn Hlt.
  intros Hn0. apply gets_parser; [done| |]; intros q Hq Hz; rewrite take_cursor by lia;
    destruct (Z.ltb_spec (zlen b - q) n); try lia; [done|]. by eexists.
Qed.

Lemma gets_arr n : 0 <= n -> gets (fr_arr M n) n (fun q => slice b q n).
Proof using Hh Hn Hlt.
  intros Hn0. split; [done|]. intros q o Hq. unfold fr_arr. cbn [cur ok]. rewrite take_cursor by lia.
  destruct (Z.leb_spec (q + n) (zlen b)), (Z.ltb_spec (zlen b - q) n); try lia.
  - pose proof (zlen_slice b q n ltac:(lia) Hn0 ltac:(lia)) as Hzl. replace (Z.to_nat n) with (length (slice b q n)) by (unfold zlen in Hzl; lia).
    rewrite (copy_raw_spec M (slice b q n)) by (cbn; apply holds_slice; done || lia). cbn [mbind option_bind].
    eexists _, _. split; [done|done].
  - eexists _, _. split; [done|]. split; [done|]. by exists q.
Qed.

Lemma gets_u8 : gets (fr_u8 M) 1 (fun q => octet b q).
Proof using All. apply (gets_uint 1); [lia|]. intros q Hq Hz. by apply uint8_at. Qed.
Lemma gets_u16 : gets (fr_u16 M) 2 (fun q => be16_at b q).
Proof using All. apply (gets_uint 2); [lia|]. intros q Hq Hz. by apply uint16_at. Qed.
Lemma gets_u32 : gets (fr_u32 M) 4 (fun q => be32_at b q).
Proof using All. apply (gets_uint 4); [lia|]. intros q Hq Hz. by apply uint32_at. Qed.
Lemma gets_u48 : gets (fr_u48 M) 6 (fun q => be48_at b q).
Proof using All. apply (gets_uint 6); [lia|]. intros q Hq Hz. by apply uint48_at. Qed.
Lemma gets_i16 : gets (fr_i16 M) 2 (fun q => sint 16 (be16_at b q)).
Proof using All. apply (gets_int 2); [lia|]. intros q Hq Hz. by apply uint16_at. Qed.
Lemma gets_i32 : gets (fr_i32 M) 4 (fun q => sint 32 (be32_at b q)).
Proof using All. apply (gets_int 4); [lia|]. intros q Hq Hz. by apply uint32_at. Qed.

(** ** Bodies *)

(** [gets_steps] reads a composed reader step by step. *)
Ltac gets_steps := repeat (first [apply gets_ret | apply gets_u8 | apply gets_u16 | apply gets_u32 | apply gets_u48 | apply gets_i16 | apply gets_i32
  | apply gets_arr; lia | apply gets_skip; lia | eapply gets_bind; [|intros ?]]).

Lemma gets_timestamp : gets (read_timestamp M) 10 (timestamp_at b).
Proof using All. eapply gets_as; [unfold read_timestamp; gets_steps|done|]. done. Qed.

Lemma gets_port_identity : gets (read_port_identity M) 10 (port_identity_at b).
Proof using All. eapply gets_as; [unfold read_port_identity; gets_steps|done|]. done. Qed.

(** What a reader does at the start of a body. *)
Lemma gets_run {A} (m : reader A) n f : gets m n f -> exists v fr, m (Reader (from_bytes region) true) = Some (v, fr) /\
  if zlen b <? n then ok fr = false else v = f 0 /\ fr = Reader (cursor region n) true.
Proof using.
  intros [_ Hm]. pose proof (zlen_nonneg b). rewrite (cursor_0 region). destruct (Hm 0 true ltac:(lia)) as (v & fr & E & Hfr). exists v, fr. split; [done|].
  rewrite Z.add_0_l in Hfr. destruct (Z.leb_spec n (zlen b)), (Z.ltb_spec (zlen b) n); try lia; [done|by destruct Hfr].
Qed.

Lemma parse_fixed_at m n f t : gets m n f ->
  parse_fixed m t (from_bytes region) = Some (if zlen b <? n then (false, t) else (true, push_message (f 0) t)).
Proof using.
  intros Hm. destruct (gets_run m n f Hm) as (v & fr & E & Hfr). unfold parse_fixed. rewrite E. cbn [mbind option_bind fst snd].
  destruct (Z.ltb_spec (zlen b) n); [by rewrite Hfr|]. by destruct Hfr as [-> ->].
Qed.

(** The six kinds without TLVs. *)
Lemma gets_stamped (c : PtpTimestamp -> message_row) : gets (rbind (read_timestamp M) (fun ts => ret (c ts))) 10 (fun q => c (timestamp_at b q)).
Proof using All. eapply gets_as; [eapply gets_bind; [apply gets_timestamp|intros ts; apply gets_ret]|done|]. done. Qed.

Lemma gets_requested (c : PtpTimestamp -> PortIdentity -> message_row) :
  gets (rbind (read_timestamp M) (fun ts => rbind (read_port_identity M) (fun p => ret (c ts p)))) 20
    (fun q => c (timestamp_at b q) (port_identity_at b (q + 10))).
Proof using All.
  eapply gets_as; [eapply gets_bind; [apply gets_timestamp|intros ts; eapply gets_bind; [apply gets_port_identity|intros p; apply gets_ret]]|done|]. done.
Qed.

(** ** The TLV walks *)
Lemma gets_at {A} (m : reader A) n f q o : gets m n f -> 0 <= q -> q + n <= zlen b -> m (Reader (cursor region q) o) = Some (f q, Reader (cursor region (q + n)) o).
Proof using.
  intros [Hn0 Hm] Hq Hz. destruct (Hm q o ltac:(lia)) as (v & fr & E & Hfr). destruct (Z.leb_spec (q + n) (zlen b)); [|lia]. by destruct Hfr as [-> ->].
Qed.

(** A read the body is too short for. *)
Lemma take_miss {A} (zero : A) (p : parser A) q o : (exists e, p M (cursor region q) = Err e) ->
  fr_take M zero p (Reader (cursor region q) o) = Some (zero, Reader (cursor region q) false).
Proof using. intros [e E]. unfold fr_take. cbn [cur]. by rewrite E. Qed.

Lemma skip_miss n q o : 0 <= q <= zlen b -> zlen b < q + n -> fr_skip M n (Reader (cursor region q) o) = Some (no_bytes, Reader (cursor region q) false).
Proof using Hn Hlt.
  intros Hq Hz. apply take_miss. rewrite take_cursor by done. destruct (Z.ltb_spec (zlen b - q) n); [by eexists|lia].
Qed.

Lemma i32_miss q o : 0 <= q <= zlen b -> zlen b < q + 4 -> fr_i32 M (Reader (cursor region q) o) = Some (0, Reader (cursor region q) false).
Proof using Hn Hlt.
  intros Hq Hz. apply take_miss. unfold be_i32, read_int, Parser.bind. destruct (read_uint_short M region b Hn Hlt 4 big q Hq Hz) as [e ->]. by exists e.
Qed.

(** Type and length of a TLV. *)
Definition tlv_header : reader (Z * Z) := rbind (fr_u16 M) (fun type => rbind (fr_u16 M) (fun len => ret (type, len))).

Lemma gets_tlv_header : gets tlv_header 4 (fun q => (be16_at b q, be16_at b (q + 2))).
Proof using All. eapply gets_as; [unfold tlv_header; gets_steps|done|]. done. Qed.

Lemma follow_up_info_at row len q : 0 <= q -> 28 <= len -> q + len <= zlen b ->
  follow_up_info M (cursor region q) row =
  Some (MkFollowUp (fu_common row) (fu_precise_origin_timestamp row) true (sint 32 (be32_at b (q + 6))) (be16_at b (q + 10)) (sint 32 (be32_at b (q + 24)))).
Proof using All.
  intros Hq Hlen Hz. unfold follow_up_info, rbind. rewrite (gets_at _ 3 _ q true (gets_skip 3 ltac:(lia))) by lia. cbn [mbind option_bind fst snd].
  rewrite (gets_at _ 3 _ (q + 3) true (gets_skip 3 ltac:(lia))) by lia. cbn [mbind option_bind fst snd].
  replace (q + 3 + 3) with (q + 6) by lia. rewrite (gets_at _ 4 _ (q + 6) true gets_i32) by lia. cbn [mbind option_bind fst snd].
  replace (q + 6 + 4) with (q + 10) by lia. rewrite (gets_at _ 2 _ (q + 10) true gets_u16) by lia. cbn [mbind option_bind fst snd].
  replace (q + 10 + 2) with (q + 12) by lia. rewrite (gets_at _ 12 _ (q + 12) true (gets_skip 12 ltac:(lia))) by lia. cbn [mbind option_bind fst snd].
  replace (q + 12 + 12) with (q + 24) by lia. by rewrite (gets_at _ 4 _ (q + 24) true gets_i32) by lia.
Qed.

Lemma follow_up_tlvs_at n m : forall q row, 0 <= q <= zlen b -> zlen b - q <= Z.of_nat n -> zlen b - q <= Z.of_nat m ->
  forallb whole_info (tlv_places b m q) = true -> follow_up_tlvs M n (Reader (cursor region q) true) row = Some (fold_left (follow_up_with b) (tlv_places b m q) row).
Proof using All.
  revert n. induction m as [|m IH]; intros n q row Hq Hfn Hfm Hwh.
  { cbn [tlv_places fold_left]. destruct n; cbn [follow_up_tlvs ok]; unfold fr_remaining; cbn [cur]; rewrite (cursor_size region b Hn Hlt) by lia;
      (destruct (Z.leb_spec 4 (zlen b - q)); [lia|done]). }
  cbn [tlv_places] in *. destruct (Z.ltb_spec (zlen b) (q + 4)) as [Hs|Hs].
  { destruct n; cbn [follow_up_tlvs ok]; unfold fr_remaining; cbn [cur]; rewrite (cursor_size region b Hn Hlt) by lia;
      (destruct (Z.leb_spec 4 (zlen b - q)); [lia|done]). }
  destruct n as [|n]; [lia|]. cbn [follow_up_tlvs ok]. unfold fr_remaining. cbn [cur]. rewrite (cursor_size region b Hn Hlt) by lia.
  destruct (Z.leb_spec 4 (zlen b - q)); [|lia]. cbn [andb]. fold tlv_header. rewrite (gets_at _ 4 _ q true gets_tlv_header) by lia. cbn [mbind option_bind fst snd ok cur negb orb].
  rewrite (cursor_size region b Hn Hlt) by lia. pose proof (be16_range b (q + 2) Hb). set (len := be16_at b (q + 2)) in *.
  destruct (Z.ltb_spec (zlen b - (q + 4)) len), (Z.ltb_spec (zlen b) (q + 4 + len)); try lia; [done|]. cbn [fold_left follow_up_with forallb whole_info] in *. apply andb_true_iff in Hwh as [Hw Hwh].
  rewrite (gets_at _ len _ (q + 4) true (gets_skip len ltac:(lia))) by lia. unfold kTlvOrganizationExtension.
  destruct (be16_at b q =? 3); cbn [andb negb orb] in *; [|by cbn [mbind option_bind snd]; rewrite IH by (done || lia)].
  destruct (Z.leb_spec 16 len), (Z.leb_spec 28 len), (Z.ltb_spec len 16); try lia; try done; [rewrite (follow_up_info_at row len) by lia|];
    cbn [mbind option_bind snd]; by rewrite IH by (done || lia).
Qed.

Lemma path_entries_at mi len q n : 0 <= q -> 0 <= len < 2 ^ 16 -> q + len <= zlen b -> forall k, 0 <= k <= len / 8 -> len - 8 * k <= Z.of_nat n ->
  path_entries M n mi len (Reader (cursor region (q + 8 * k)) true) (8 * k) k =
  Some (List.map (fun k => MkPathTraceEntry mi k (slice b (q + 8 * k) 8)) (seqZ k (len / 8 - k)), len / 8).
Proof using All.
  intros Hq Hlen Hz. pose proof (Z.mod_pos_bound len 8 ltac:(lia)). pose proof (Z.div_mod len 8 ltac:(lia)).
  induction n as [|n IH]; intros k Hk Hf; cbn [path_entries]; destruct (Z.leb_spec (8 * k + 8) len); try lia.
  1, 3: assert (k = len / 8) as -> by lia; by rewrite Z.sub_diag.
  rewrite (gets_at _ 8 _ (q + 8 * k) true (gets_arr 8 ltac:(lia))) by lia. cbn [mbind option_bind fst snd ok negb].
  rewrite wrap_small by lia. replace (q + 8 * k + 8) with (q + 8 * (k + 1)) by lia. replace (8 * k + 8) with (8 * (k + 1)) by lia.
  rewrite IH by lia. cbn [mbind option_bind fst snd]. rewrite (seqZ_cons k) by lia. cbn [List.map].
  replace (Z.succ k) with (k + 1) by lia. by replace (Z.pred (len / 8 - k)) with (len / 8 - (k + 1)) by lia.
Qed.

Lemma announce_tlvs_at n m : forall q rp, 0 <= q <= zlen b -> zlen b - q <= Z.of_nat n -> zlen b - q <= Z.of_nat m ->
  announce_tlvs M n (Reader (cursor region q) true) rp.1 rp.2 = Some (fold_left (announce_with b) (tlv_places b m q) rp).
Proof using All.
  revert n. induction m as [|m IH]; intros n q [row path] Hq Hfn Hfm; cbn [fst snd].
  { cbn [tlv_places fold_left]. destruct n; cbn [announce_tlvs ok]; unfold fr_remaining; cbn [cur]; rewrite (cursor_size region b Hn Hlt) by lia;
      (destruct (Z.leb_spec 4 (zlen b - q)); [lia|done]). }
  cbn [tlv_places]. destruct (Z.ltb_spec (zlen b) (q + 4)) as [Hs|Hs].
  { destruct n; cbn [announce_tlvs ok]; unfold fr_remaining; cbn [cur]; rewrite (cursor_size region b Hn Hlt) by lia;
      (destruct (Z.leb_spec 4 (zlen b - q)); [lia|done]). }
  destruct n as [|n]; [lia|]. cbn [announce_tlvs ok]. unfold fr_remaining. cbn [cur]. rewrite (cursor_size region b Hn Hlt) by lia.
  destruct (Z.leb_spec 4 (zlen b - q)); [|lia]. cbn [andb]. fold tlv_header. rewrite (gets_at _ 4 _ q true gets_tlv_header) by lia. cbn [mbind option_bind fst snd ok cur negb orb].
  rewrite (cursor_size region b Hn Hlt) by lia. pose proof (be16_range b (q + 2) Hb). set (len := be16_at b (q + 2)) in *.
  destruct (Z.ltb_spec (zlen b - (q + 4)) len), (Z.ltb_spec (zlen b) (q + 4 + len)); try lia; [done|]. cbn [fold_left announce_with fst snd].
  rewrite (gets_at _ len _ (q + 4) true (gets_skip len ltac:(lia))) by lia. unfold kTlvPathTrace.
  destruct (be16_at b q =? 8).
  - pose proof (path_entries_at (rc_msg_index (an_common row)) len (q + 4) (Z.to_nat len) ltac:(lia) ltac:(lia) ltac:(lia) 0 ltac:(pose proof (Z.div_pos len 8); lia) ltac:(lia)) as E.
    rewrite Z.mul_0_r, Z.add_0_r, Z.sub_0_r in E. rewrite E. cbn [mbind option_bind fst snd].
    exact (IH n (q + 4 + len) (with_path row (len / 8), path ++ path_at b (rc_msg_index (an_common row)) len (q + 4)) ltac:(lia) ltac:(lia) ltac:(lia)).
  - cbn [mbind option_bind fst snd]. exact (IH n (q + 4 + len) (row, path) ltac:(lia) ltac:(lia) ltac:(lia)).
Qed.

Lemma gets_announce common : gets (announce_body M common) 30 (fun q =>
  MkAnnounce common (timestamp_at b q) (sint 16 (be16_at b (q + 10))) (octet b (q + 13)) (octet b (q + 14)) (octet b (q + 15)) (be16_at b (q + 16))
    (octet b (q + 18)) (slice b (q + 19) 8) (be16_at b (q + 27)) (octet b (q + 29)) false 0).
Proof using All.
  eapply gets_as; [unfold announce_body; eapply gets_bind; [apply gets_timestamp|intros ts]; gets_steps|done|].
  intros q Hq Hz. cbv beta. rewrite <- !Z.add_assoc. done.
Qed.

(** ** The message kinds *)
Lemma parse_follow_up_at t common : forallb whole_info (tlv_places b (length b) 10) = true -> parse_follow_up M t common (from_bytes region) =
  Some (if zlen b <? 10 then (false, t)
        else (true, push_message (FollowUp (fold_left (follow_up_with b) (tlv_places b (length b) 10) (MkFollowUp common (timestamp_at b 0) false 0 0 0))) t)).
Proof using All.
  intros Hwh. unfold parse_follow_up. destruct (gets_run (read_timestamp M) 10 _ gets_timestamp) as (v & fr & E & Hfr). rewrite E. cbn [mbind option_bind fst snd].
  destruct (Z.ltb_spec (zlen b) 10); [by rewrite Hfr|]. destruct Hfr as [-> ->]. cbn [ok].
  assert (Hs : size (from_bytes region) = zlen b) by (rewrite (cursor_0 region), (cursor_size region b Hn Hlt); lia).
  rewrite Hs, (follow_up_tlvs_at _ (length b)) by (done || (unfold zlen in *; lia)). done.
Qed.

Lemma parse_announce_at t common : parse_announce M t common (from_bytes region) =
  Some (if zlen b <? 30 then (false, t)
        else let rp := fold_left (announce_with b) (tlv_places b (length b) 30) (announce_at b common, []) in
             (true, push_message (Announce rp.1 rp.2) t)).
Proof using All.
  unfold parse_announce. destruct (gets_run (announce_body M common) 30 _ (gets_announce common)) as (v & fr & E & Hfr). rewrite E. cbn [mbind option_bind fst snd].
  destruct (Z.ltb_spec (zlen b) 30); [by rewrite Hfr|]. destruct Hfr as [-> ->]. cbn [ok].
  assert (Hs : size (from_bytes region) = zlen b) by (rewrite (cursor_0 region), (cursor_size region b Hn Hlt); lia).
  rewrite Hs. rewrite (announce_tlvs_at _ (length b) 30 (announce_at b common, [])) by (unfold zlen in *; lia). done.
Qed.
End Body.

(** ** The header *)
Section Header.
Context (l : list Z) (Hl : bytes_ok l) (Hz : 34 <= zlen l).

Local Abbreviation header := (VList (values_at big (slice l 0 34) GptpHeader 0)).

(** The bytes of the header. *)
Lemma header_uint q n : 0 <= q -> 0 <= n -> q + n <= 34 -> uint_val big (slice (slice l 0 34) q n) = uint_val big (slice l q n).
Proof using. intros Hq Hn H34. by rewrite slice_slice by lia. Qed.

Lemma header_length : member GptpHeader header "message_length" = be16_at l 2.
Proof using Hz. member_uint. rewrite header_uint, uint16_at by lia. done. Qed.

Lemma header_type : u8 (member GptpHeader header "message_type") = octet l 0 mod 16.
Proof using All.
  erewrite member_at by (cbv; reflexivity). change 34 with (1 + 33). rewrite slice_split, slice_one by lia.
  pose proof (octet_range l 0 Hl). set (a := octet l 0) in *. set (r := slice l (0 + 1) 33).
  change (scalar_of _ _) with ((be_val [a] / 1) mod 16). rewrite be_val_cons. change (be_val []) with 0. cbn [length]. change (2 ^ (8 * Z.of_nat 0)) with 1.
  rewrite wrap_small by (pose proof (Z.mod_pos_bound ((a * 1 + 0) / 1) 16 ltac:(lia)); lia). f_equal. rewrite Z.div_1_r. lia.
Qed.

Lemma header_port : source_port_identity header = port_identity_at l 20.
Proof using Hz.
  unfold port_identity_at. assert (E : slice l 20 8 = List.map (fun q => octet l q) [20; 21; 22; 23; 24; 25; 26; 27]).
  { change 8 with (1 + (1 + (1 + (1 + (1 + (1 + (1 + 1))))))). rewrite !slice_split, !slice_one by lia. done. }
  rewrite E. transitivity (MkPortIdentity (List.map (fun q => uint_val big (slice (slice l 0 34) q 1)) [20; 21; 22; 23; 24; 25; 26; 27]) (uint_val big (slice (slice l 0 34) 28 2))).
  - set (hd := slice l 0 34). reflexivity.
  - cbn [List.map]. rewrite !header_uint, !uint8_at, uint16_at by lia. done.
Qed.

Lemma header_common idx pid : make_common idx pid header = common_at l idx pid.
Proof using All.
  unfold make_common, common_at. rewrite header_port.
  assert (E1 : member GptpHeader header "domain_number" = octet l 4) by (member_uint; rewrite header_uint, uint8_at by lia; done).
  assert (E2 : member GptpHeader header "sequence_id" = be16_at l 30) by (member_uint; rewrite header_uint, uint16_at by lia; done).
  assert (E3 : member GptpHeader header "correction_field" = sint 64 (be64_at l 8)).
  { erewrite member_at by (cbv; reflexivity). change (scalar_of _ _) with (sint 64 (uint_val big (slice (slice l 0 34) 8 8))).
    by rewrite header_uint, uint64_at by lia. }
  assert (E4 : member GptpHeader header "log_message_interval" = sint 8 (octet l 33)).
  { erewrite member_at by (cbv; reflexivity). change (scalar_of _ _) with (sint 8 (uint_val big (slice (slice l 0 34) 33 1))).
    by rewrite header_uint, uint8_at by lia. }
  by rewrite E1, E2, E3, E4.
Qed.
End Header.

(** C40: over any message of less than 2^60 bytes in which no Follow_Up
    information TLV declares fewer than the 28 bytes of its value (but 16 or more)
    [parse_gptp_message] reads nothing outside it and ends, and leaves the tables as
    the message's bytes say: nothing for a header that is cut or declares less than
    itself; an index for every other message; and, when the declared length holds the
    fixed part of its kind, one row of that kind with the fields at their offsets, a
    Follow_Up's and an Announce's TLVs taken in order up to the first incomplete
    one, each from its own bytes, and the entries of each path trace. (For an
    information TLV that is shorter see [info_reads_past_tlv].) *)
Theorem gptp_message_exact M region l t pid : holds M (b_data region) l -> b_size region = zlen l -> bytes_ok l -> zlen l < 2 ^ 60 ->
  whole_message l = true ->
  parse_gptp_message M t pid (from_bytes region) = Some (message_tables l t pid).
Proof.
  intros Hh Hn Hl Hlt Hwh. pose proof (zlen_nonneg l). unfold parse_gptp_message, message_tables. rewrite (cursor_0 region).
  destruct (Z.ltb_spec (zlen l) 34) as [Hs|Hs]; cbn [orb].
  { destruct (strct_short M region l Hn Hlt GptpHeader big 0 ltac:(lia) ltac:(change (wire_size GptpHeader) with 34; lia)) as [e ->]. done. }
  rewrite (strct_cursor M region l Hh Hn Hl Hlt GptpHeader big eq_refl 0) by (change (wire_size GptpHeader) with 34; lia).
  change (wire_size GptpHeader) with 34. rewrite header_length, header_type, header_common by done.
  pose proof (be16_range l 2 Hl). destruct (Z.ltb_spec (be16_at l 2) 34); [done|].
  rewrite (cursor_size region l Hn Hlt) by lia. rewrite Z.add_0_l. set (n := Z.min (be16_at l 2 - 34) (zlen l - 34)).
  rewrite (take_cursor M region l Hn Hlt) by lia. destruct (Z.ltb_spec (zlen l - 34) n); [lia|].
  assert (Eb : body_of l = slice l 34 n).
  { unfold body_of, slice, n. destruct (Z.le_ge_cases (be16_at l 2 - 34) (zlen l - 34)); [by rewrite Z.min_l|].
    rewrite Z.min_r by lia. rewrite !ztake_all by (rewrite zlen_zdrop; lia). done. }
  unfold whole_message in Hwh. rewrite Eb in Hwh. rewrite Eb. set (b := slice l 34 n) in *. pose proof (zlen_slice l 34 n ltac:(lia) ltac:(lia) ltac:(lia)) as Hbz. fold b in Hbz.
  set (clipped := take_span (cursor region 34) n). set (t' := bump_index t). set (common := common_at l (next_msg_index t) pid).
  assert (Hb : holds M (b_data clipped) b) by (cbn; apply holds_slice; done || lia).
  pose proof (bytes_ok_slice l 34 n Hl) as Hbo. fold b in Hbo. assert (Hbl : zlen b < 2 ^ 60) by lia. assert (Hcs : b_size clipped = zlen b) by (cbn; lia).
  unfold message_at, kMsgSync, kMsgDelayReq, kMsgPdelayReq, kMsgPdelayResp, kMsgFollowUp, kMsgDelayResp, kMsgPdelayRespFollowUp, kMsgAnnounce.
  assert (Hfu : forall t c, octet l 0 mod 16 =? 8 = true -> parse_follow_up M t c (from_bytes clipped) =
    Some (if zlen b <? 10 then (false, t)
          else (true, push_message (FollowUp (fold_left (follow_up_with b) (tlv_places b (length b) 10) (MkFollowUp c (timestamp_at b 0) false 0 0 0))) t)))
    by (intros t0 c0 E; rewrite E in Hwh; by apply parse_follow_up_at).
  pose proof (gets_stamped M clipped b Hb Hcs Hbo Hbl) as Hstamped. pose proof (gets_requested M clipped b Hb Hcs Hbo Hbl) as Hrequested.
  clear Hwh. repeat match goal with |- context [if octet l 0 mod 16 =? ?k then _ else _] => destruct (octet l 0 mod 16 =? k) eqn:? end; try done;
    rewrite ?Hfu by (reflexivity || assumption); rewrite ?(parse_announce_at M clipped b Hb Hcs Hbo Hbl);
    clear Hfu; try (by destruct (zlen b <? _)).
  - etransitivity; [apply (parse_fixed_at clipped b _ _ _ t' (Hstamped (fun ts => Sync (MkSync common ts))))|by destruct (zlen b <? 10)].
  - etransitivity; [apply (parse_fixed_at clipped b _ _ _ t' (Hstamped (fun ts => DelayReq (MkDelayReq common ts))))|by destruct (zlen b <? 10)].
  - etransitivity; [apply (parse_fixed_at clipped b _ _ _ t' (Hstamped (fun ts => PdelayReq (MkPdelayReq common ts))))|by destruct (zlen b <? 10)].
  - etransitivity; [apply (parse_fixed_at clipped b _ _ _ t' (Hrequested (fun ts p => PdelayResp (MkPdelayResp common ts p))))|by destruct (zlen b <? 20)].
  - etransitivity; [apply (parse_fixed_at clipped b _ _ _ t' (Hrequested (fun ts p => DelayResp (MkDelayResp common ts p))))|by destruct (zlen b <? 20)].
  - etransitivity; [apply (parse_fixed_at clipped b _ _ _ t' (Hrequested (fun ts p => PdelayRespFollowUp (MkPdelayRespFollowUp common ts p))))|by destruct (zlen b <? 20)].
Qed.

(** ** Messages *)

(** The header of a message of type [type] and length [len]. *)
Definition gptp_head (type len : Z) : list Z :=
  [16 + type; 2; 0; len; 0; 0; 2; 8] ++ replicate 12 0 ++ [0; 0x1B; 0x19; 0xFF; 0xFE; 0; 0; 1; 0; 1] ++ [1; 44; 5; 0xFF].

(** An Announce with a path trace of two clocks, followed by padding. *)
Definition announce_message : list Z :=
  gptp_head 11 84 ++ [0; 0; 0x5E; 1; 2; 3; 0; 0; 0; 9] ++ [0; 37; 0; 246; 248; 254; 0x43; 0x6A; 248; 0; 0x1B; 0x19; 0xFF; 0xFE; 0; 0; 1; 0; 1; 0xA0] ++
  [0; 8; 0; 16; 0; 0x1B; 0x19; 0xFF; 0xFE; 0; 0; 1; 0; 0x1B; 0x19; 0xFF; 0xFE; 0; 0; 2] ++ [0; 0; 0; 0].

Lemma gptp_message_exact_witness :
  let M := mem_of 0 announce_message in let msg := from_bytes (Bytes 0 88 None 0) in
  parse_gptp_message M (no_tables 5) 77 msg = Some (message_tables announce_message (no_tables 5) 77) /\
  exists t r, message_tables announce_message (no_tables 5) 77 = (true, t) /\ g_announce t = [r] /\ next_msg_index t = 6 /\
    an_current_utc_offset r = 37 /\ rc_log_message_interval (an_common r) = -1 /\ an_path_trace_count r = 2 /\ length (g_path_trace t) = 2%nat.
Proof.
  split.
  - apply (gptp_message_exact (mem_of 0 announce_message) (Bytes 0 88 None 0) announce_message (no_tables 5) 77).
    + exact (holds_mem_of 0 announce_message []).
    + reflexivity.
    + unfold announce_message, gptp_head. repeat constructor; lia.
    + reflexivity.
    + vm_compute. reflexivity.
  - eexists _, _. vm_compute. repeat (split; [reflexivity|]). reflexivity.
Defined.

(** The information TLV of a Follow_Up is read for 28 bytes once it declares
    16: of this message, whose TLV ends after 16 bytes, the frequency change is
    the value of the TLV behind it, and the information is flagged complete. *)
Definition follow_up_message : list Z :=
  gptp_head 8 76 ++ replicate 10 0 ++ [0; 3; 0; 16; 0; 0x80; 0xC2; 0; 0; 1] ++ replicate 10 0 ++ [0x40; 1; 0; 8; 0; 0; 0; 0; 0x12; 0x34; 0x56; 0x78].

Lemma info_reads_past_tlv : exists t r,
  parse_gptp_message (mem_of 0 follow_up_message) (no_tables 0) 1 (from_bytes (Bytes 0 76 None 0)) = Some (true, t) /\ g_follow_up t = [r] /\
  fu_has_follow_up_info_tlv r = true /\ fu_scaled_last_gm_freq_change r = 0x12345678.
Proof. eexists _, _. vm_compute. repeat (split; [reflexivity|]). reflexivity. Qed.
